(* ===== verification/_CoqProject ===== *)
-Q . S2P
Prelude.v
Digits.v
CText.v
Ordering.v
Magnitude.v
Value.v
Bignum.v
BignumBits.v
BignumLaws.v
BignumText.v
IntOps.v
IntRefinement.v
Semver.v
Lexer.v
RegexExec.v
RegexGraph.v
RegexTier1.v
RegexTier2.v
RegexSearch.v
RegexBytecode.v
RegexClassify.v
RegexBuild.v
RegexBuildOk.v
RegexPattern.v
RegexWalk.v
RegexLanguage.v
RegexPipeline.v
GcHeap.v
HashTable.v
HashTableOk.v
ValueEqual.v
ValueKeys.v
ValueEqualOk.v
GcMark.v
GcMarkOk.v
GcSweep.v
GcSweepOk.v
GcInvariant.v
GcBarrier.v
GcMutator.v
GcHash.v
GcAlloc.v
GcProgram.v
Limits.v
ThreadSlots.v
Process.v
ProcessOk.v
Budgets.v
Unwind.v
ControlMachine.v
ControlFlow.v
ControlCompile.v
ControlConsole.v
ControlLayout.v
ControlSim.v
ControlCorrect.v
ControlEmit.v
ControlTrace.v
ControlLaid.v
ControlProgram.v
ControlConsoleOk.v
ControlExamples.v
ManifestLiteral.v
ManifestGrammar.v
Facet.v
FacetResolve.v
FacetResolveOk.v
FacetLock.v
FacetExamples.v
FacetInstall.v
FacetProject.v
FacetArchive.v
FacetExtract.v
Json.v
JsonText.v
JsonOk.v
JsonTotal.v
