(* ===== verification/Prelude.v ===== *)
(** * Verified components of the Diamond language

    Diamond is a Ruby-like language: a lexer and a single-pass compiler
    (src/lexer.c, src/compiler*.c) produce bytecode for a register machine
    (src/vm*.c) whose Ints promote from [int64_t] to bignums (src/bignum.c); its
    regular expressions are classified, turned into NFAs and simulated by
    reginold (reginold/classify.c, nfa.c, exec.c), with the vendored Onigmo as
    fallback; its objects live in a generational heap (src/vm_gc.c) and its
    Hashes in open-addressing tables (src/vm_values.c); process-wide budgets
    bound what programs use (src/vm_limits.c); its package manager reads
    manifests of data literals (src/manifest_literal.c), resolves dependencies
    over semantic versions (src/semver.c, tools/facet_resolve.c) and installs
    them with a lockfile (tools/facet.c); its runtime library reads and writes
    JSON (src/vm_json.c).  This library models the lexer, the
    Int tower from limbs to instructions, the regex pipeline from bytecode to
    matches, the version logic, the heap with its collector, barriers and
    allocators, Hash tables and structural equality, the resource limits,
    control flow from the compiler's statements to the unwinding machine, the
    package manager from the text of a manifest to installed directories, and
    JSON.

    ** Files

    - Prelude: machine widths, checked arrays, the option monad of checked code
      with its [wp] predicate transformer, case-analysis tactics, the hint
      database.
    - Digits, CText, Ordering: positional numbers, C strings, three-way
      comparators; shared by the components below.
    - Magnitude, Bignum, BignumBits, BignumText: src/bignum.c.  Magnitude holds
      the sign-less limb loops, Bignum the signed operations on a
      [DiamondIntView], BignumBits the conversion to 32-bit words, bitwise
      operators and shifts, BignumText printing and parsing.  BignumLaws states
      the contracts of src/bignum.h.
    - Value: values, bignum objects, and the interface [VmHeap] between
      bignum.c, exec.c, nfa.c and the allocator, with the law class
      [PlentyHeap].
    - IntOps: the handlers of src/vm_run_chunk.c and src/vm_operators.c for Int
      operands, with quickening; IntRefinement: their abstract machine.
    - Semver: src/semver.c.  Lexer: src/lexer.c.
    - RegexExec: reginold/exec.c.  RegexGraph gives the language of a graph,
      RegexTier1 and RegexTier2 verify the two simulations, RegexSearch the
      entry points.
    - RegexBytecode, RegexClassify, RegexBuild: the bytecode format,
      reginold/classify.c and reginold/nfa.c; RegexBuildOk verifies the builder.
      RegexPattern gives patterns a declarative meaning and a bytecode layout,
      RegexWalk runs through fragments, RegexLanguage the language of what the
      builder makes of a pattern; RegexPipeline composes builder and search.
    - GcHeap: the object heap (src/object.h, src/vm.h): a finite map from
      addresses to objects with their mark, generation and remembered bits,
      payloads, fibers and roots.  GcMark, GcSweep: src/vm_gc.c; GcMarkOk and
      GcSweepOk verify marking and sweeping, GcInvariant both collectors.
      GcBarrier: the write barrier and the stores that use it; GcMutator their
      preservation of the invariant; GcAlloc the allocators with their pools
      (src/vm.c).  GcProgram interleaves programs and collections.
    - HashTable: the table of src/vm_values.c over an interface [KeyOps] of
      hashing and equality, with laws [KeyLaws]; HashTableOk refines it to an
      ordered map; GcHash puts it in the heap.  ValueEqual: [values_equal] and
      [hash_value]; ValueKeys discharges [KeyLaws] for them; ValueEqualOk shows
      that equality is bisimilarity.
    - Limits: src/vm_limits.c and the per-instruction check of [run_chunk];
      Process: the VMs of a process as a step relation, a VM that starts
      registering one atomic access at a time; ProcessOk its invariant; Budgets
      the guarantees; ThreadSlots the cap on threads.
    - Unwind: handlers, pending unwinds and instruction decoding
      (src/vm_internal.h, src/vm_exceptions.c); ControlMachine: a frame of
      [run_chunk] over the class [Host] of what it does not model.
      ControlFlow: the structured meaning of statements over the class
      [Expressions].  ControlCompile: emission, patching and the control
      statements of src/compiler.c, src/compiler_flow.c and
      src/compiler_control.c.  ControlLayout says what bytecode a statement
      is laid out as; ControlSim and ControlCorrect show that such bytecode
      runs as the statement means; ControlEmit, ControlTrace and ControlLaid
      that the compiler emits it; ControlProgram composes them.
      ControlConsole is an instance of both classes, ControlConsoleOk its
      laws, ControlExamples programs.
    - ManifestLiteral: src/manifest_literal.c, a parser monad whose failures
      are the C messages and whose third outcome is leaving a buffer;
      ManifestGrammar the language it accepts.  Facet: validation, dependency
      specs, manifests and tags (tools/facet.c, tools/facet_package.c);
      FacetResolve: the resolver of tools/facet_resolve.c over the class
      [World] of git, network, files and memory; FacetResolveOk its invariant;
      FacetLock: lockfiles; FacetExamples: worlds and projects.  FacetProject:
      the decision between lock and resolution; FacetInstall: the installer
      over the class [FileSystem]; FacetArchive: the archive format of
      tools/facet_package.c; FacetExtract: unpacking a verified archive.
    - Json: the parser and the writer of src/vm_json.c with the number
      formatting of src/vm_format.c, over the classes [JsonHeap] of allocations
      and [Doubles] of the C library's conversions; JsonText the texts of
      strings and numbers and the laws of doubles, JsonOk what documents the
      writer writes and that they read back, JsonTotal that the parser returns
      and the theorems.

    ** Conventions

    A definition has the name of the C function it translates; a loop is a
    fixpoint over the data it consumes or over a fuel.  [None] is undefined
    behaviour (an access outside a buffer, a signed overflow, a second free, a
    dangling pointer) or an exhausted fuel, so a theorem that a call returns
    [Some] says that it is memory safe and terminates.  Widths are written out:
    [to_u32], [to_u64], [to_i64] stand for the conversions of the C abstract
    machine.  Allocation failure is always among the behaviours: through
    [VmHeap] in the components that only allocate, through an argument per
    allocation ([realloc_ok], [set_ok], ...) in the heap.  Sizes of C structs
    are a parameter, the class [Layout].

    ** What the theorems show

    - Ints: each bignum operation is exact and canonical on every heap
      (BignumLaws); printing and parsing are inverse (BignumText); any program
      of Int instructions simulates unbounded integers, and quickening cannot
      be observed (IntRefinement).
    - Versions: [semver_compare] is a total preorder, parsing is strict and
      inverse to printing, caret constraints mean what they say below the
      largest [unsigned long], intersection is conjunction (Semver).
    - Lexer: tokenizing any text ends, stays in the text, and its spans tile it.
    - Regex: the classifier stays aligned with the instructions
      (RegexClassify); [nfa_build] returns well-formed graphs whatever it reads,
      and for a structured pattern a graph of exactly the pattern's language
      (RegexPipeline); with enough memory search finds the leftmost longest
      match of the graph, in Tier 2 when epsilon paths are bounded, and captures
      come from an accepting run (RegexSearch).
    - Heap: whatever the interleaving of a program's stores and allocations
      with collections, no pointer dangles and the byte count is exact; a major
      collection keeps exactly the reachable objects and releases the others'
      resources once, a minor one keeps all that is reachable; the mark stack
      is equivalent to recursion (GcProgram).
    - Hashes: any program on a Hash returns what an ordered association list
      returns (ValueKeys); [values_equal] terminates on cyclic values and
      decides bisimilarity, where Hashes have well-behaved keys (ValueEqualOk).
    - Limits: in every interleaving of VMs, each created while one that is set
      up is alive, the shared counters are exact but while the first VM resets
      them, and a budget stops its VM within the grace allowance; the memory
      check composes with the collectors, bounded waits end with the budget
      (Budgets), and thread slots never exceed the cap (ThreadSlots).
    - Control flow: the bytecode of a function body the compiler accepts, with
      retries directly in their clause and bare raises below 257 registers,
      is well formed and runs exactly as the body means: breaks, returns,
      exceptions and non-local exits pass through the ensure clauses in order
      and carry the same value to the same place (ControlProgram).
    - Packages: the manifest parser accepts exactly a declarative grammar
      (ManifestGrammar); the resolver ends in every world and what it selects
      is consistent, closed and reachable (FacetResolveOk); a lockfile reads
      back, and the lock of a resolution whose packages can be locked covers its
      manifest (FacetLock); what
      is installed serves every dependency of the project (FacetProject), and
      the installer is all or nothing whatever fails, for package names that
      are single path components (FacetInstall); archives
      are canonical, reading inverts packing (FacetArchive), and extraction
      unpacks exactly what verification read, below its destination
      (FacetExtract).
    - JSON: the parser returns on every text and heap; what the writer writes
      the parser reads back to the same value, and what the parser returns the
      writer writes back (JsonTotal).
    - The remaining theorems pin down, on concrete inputs, behaviour that
      differs from what a comment of the source says: a moved arena freed twice,
      an overrun array of dangling outputs, OP_FAIL, null checks, trailing
      optionals and repeated alternations in the builder, an unreported
      allocation failure and an unbounded recursion in Tier 2, wrap-around of a
      version bound, two corners of the lexer, a store that outlives its failed
      barrier, a deletion that fails half-way, Float keys, wrap-around and
      overflow of the limits, a race in their registration, three limits
      of compiled begin blocks (ControlExamples), and four of the package
      manager (FacetExamples).

    ** Fuel and bounds

    - The quotient digit of the long division is a binary search over
      [0, 10^9): 30 halvings empty the interval, so the fuel of 31 rounds
      ends it.
    - Lexer loops get one round per source byte and one more.
    - Tier 1 recursion marks a state per nested call: the number of states plus
      one.  Tier 2 takes its fuel as an argument; a builder graph with finite
      repeats needs the number of its states plus one.
    - The builder's recursion: the length of the program plus one, because
      every nested call starts at a later byte.  The classifier: the length of
      the program.
    - Marking recurses or drains once per object it marks: the number of
      objects plus two.
    - The explicit-stack comparison: beyond depth 256 every container pair is
      met once, so the square of the heap's size times its width, plus the
      tree of pairs above that depth.  Keys nest two levels of comparison.
    - The structured meaning of statements takes a fuel that bounds loop rounds
      and retries; without a result the program has not finished.  Whenever it
      has a result the machine is shown to reach it in some number of steps.
      The theorem bounds handlers by the sixteen slots of a frame.
    - The literal parser: three rounds per byte and one more, because an entry,
      its value and its collection each consume a byte or end.  The resolver's
      queue and its rounds over pending cuts: 65, because each round but the
      last adds an entry to a table of 64 or takes one off a queue no longer
      than it; attempts are counted as in the source, 64.  Archives: a round
      per byte and one more, since a member takes at least a block.
    - The JSON parser: one level of recursion and one round of each loop per
      byte of the rest of the text and one more; the precisions of a double: 17.

    ** Not modelled

    Float operands of the operator paths and bignum/double conversion; strings,
    arrays and user-defined operators on the operator paths: these leave IntOps
    through a parameter.  [enclen] of the vendored encodings is a parameter of
    the classifier and the builder.  The multibyte data of a character class is
    tracked by size only, since exec.c reads the bitmap alone.  The heap model
    omits the timing wrappers of the collectors, VM teardown and the type
    constraints of containers; Hashes with Array, Hash, Float or Time keys are
    outside the map refinement.  The limits omit interruptible polls.
    The control statements start from abstract syntax and leave expressions to
    an interface; types and narrowing, captured locals, tail-call rewriting,
    block [return] and [break], postfix loops, the line tables and the label
    bookkeeping of peepholes are left out, and the machine runs one frame
    without signals or limits.  Retries nested in an inner begin block and bare
    raises beyond register 255 are outside the correctness theorem because they
    are compiled wrongly.  Classes, calls, names, JIT, runtime library, I/O,
    and language server are outside the library.  Of the package tool the
    messages, the collection of a cut's files and the checks of an archive's
    manifest, and the commands new, init, add and publish are left out; SHA-256
    is a parameter; that extraction fails on a full or failing disk is left
    out.  JSON values are trees, so a cyclic value is not one, the [to_s] of a
    key that is neither String nor Symbol is a pure parameter, and so are
    [printf] and [strtod]; messages are left out.  The accesses of
    [budget_unregister] and [budget_release_finished] are one step of Process.

    ** Plan

    Next: calls and several frames over ControlMachine, with block [return] and
    [break]; indexed stores and slices of src/vm_collections.c over the heap;
    the front end of reginold/engine.c with its fallback; the manifest checks of
    archives; calendar arithmetic of src/vm_time.c. *)

From Stdlib Require Import ZArith Lia Bool List.
From stdpp Require Import base numbers list.

Local Open Scope Z_scope.

(** ** Machine integers

    An unsigned C integer of width [w] is a [Z] in [0, 2^w); every operation
    of the source that can leave that range is followed by the conversion the
    C abstract machine performs. *)

Definition two_32 : Z := 4294967296.
Definition two_63 : Z := 9223372036854775808.
Definition two_64 : Z := 18446744073709551616.

(** Conversion to [uint32_t]: reduction modulo [2^32]. *)
Definition to_u32 (z : Z) : Z := z mod two_32.

(** Conversion to [uint64_t] (also [size_t], [unsigned long] on LP64). *)
Definition to_u64 (z : Z) : Z := z mod two_64.

Definition INT64_MAX : Z := two_63 - 1.
Definition INT64_MIN : Z := - two_63.
Definition UINT64_MAX : Z := two_64 - 1.

(** Conversion to [int64_t]: the representative of [z] modulo [2^64] in the
    signed range. *)
Definition to_i64 (z : Z) : Z := (z + two_63) mod two_64 - two_63.

Definition in_i64 (z : Z) : Prop := INT64_MIN <= z <= INT64_MAX.

Ltac unfold_widths :=
  unfold to_u32, to_u64, to_i64, in_i64, INT64_MAX, INT64_MIN, UINT64_MAX,
    two_32, two_63, two_64 in *.

(** Linear arithmetic with division and modulo by literals. *)
Ltac divmod_lia := Z.div_mod_to_equations; lia.

Create HintDb diamond.

Lemma to_u32_small z : 0 <= z < two_32 -> to_u32 z = z.
Proof. intros. unfold to_u32. apply Z.mod_small; lia. Qed.

Lemma to_u64_small z : 0 <= z < two_64 -> to_u64 z = z.
Proof. intros. unfold to_u64. apply Z.mod_small; lia. Qed.

Lemma to_i64_small z : in_i64 z -> to_i64 z = z.
Proof. unfold_widths. intros. rewrite Z.mod_small; lia. Qed.

Lemma to_u32_range z : 0 <= to_u32 z < two_32.
Proof. unfold_widths. apply Z.mod_pos_bound; lia. Qed.

Lemma to_u64_range z : 0 <= to_u64 z < two_64.
Proof. unfold_widths. apply Z.mod_pos_bound; lia. Qed.

(** ** Undefined behaviour and state

    [option] is used for code whose C form would be undefined (an array access
    outside its buffer, an exhausted fuel): [None] is never a result the source
    returns, so a theorem that an operation yields [Some] is a theorem that it
    stays inside its buffers and terminates. *)

Declare Scope c_scope.
Delimit Scope c_scope with c.

Notation "'let?' x ':=' m 'in' k" :=
  (match m with Some x => k | None => None end)
  (at level 10, x pattern, m at level 100, k at level 200) : c_scope.

Local Open Scope c_scope.

(** A checked read and a checked write of a C array. *)
Definition array_read {A} (buf : list A) (i : nat) : option A := buf !! i.

Definition array_write {A} (buf : list A) (i : nat) (x : A) : option (list A) :=
  if (i <? length buf)%nat then Some (<[i := x]> buf) else None.

Lemma array_write_in {A} (buf : list A) i x :
  (i < length buf)%nat -> array_write buf i x = Some (<[i := x]> buf).
Proof. intros H. unfold array_write. apply Nat.ltb_lt in H. by rewrite H. Qed.

Lemma array_read_in (buf : list Z) i :
  (i < length buf)%nat -> array_read buf i = Some (nth i buf 0).
Proof.
  intros H. unfold array_read.
  destruct (lookup_lt_is_Some_2 buf i H) as [x Hx]. rewrite Hx.
  f_equal. symmetry. by apply nth_lookup_Some.
Qed.

(** ** Three-way comparison results

    The C comparators return [-1], [0] or [1]. *)
Definition sign_of (c : comparison) : Z :=
  match c with Lt => -1 | Eq => 0 | Gt => 1 end.

Lemma sign_of_compare x y :
  sign_of (x ?= y) = (if x <? y then -1 else if x =? y then 0 else 1).
Proof.
  destruct (Z.compare_spec x y); simpl.
  - subst. rewrite Z.ltb_irrefl, Z.eqb_refl. done.
  - apply Z.ltb_lt in H. by rewrite H.
  - destruct (Z.ltb_spec x y), (Z.eqb_spec x y); lia || done.
Qed.

(** Case analysis on the boolean comparisons of a goal. *)
Ltac case_bools :=
  repeat match goal with
  | |- context [Z.eqb ?x ?y] => destruct (Z.eqb_spec x y)
  | |- context [Z.ltb ?x ?y] => destruct (Z.ltb_spec x y)
  | |- context [Z.leb ?x ?y] => destruct (Z.leb_spec x y)
  | |- context [Nat.eqb ?x ?y] => destruct (Nat.eqb_spec x y)
  | |- context [Nat.ltb ?x ?y] => destruct (Nat.ltb_spec x y)
  | |- context [Nat.leb ?x ?y] => destruct (Nat.leb_spec x y)
  end.

Ltac case_bools_in H :=
  repeat match type of H with
  | context [Z.eqb ?x ?y] => destruct (Z.eqb_spec x y)
  | context [Z.ltb ?x ?y] => destruct (Z.ltb_spec x y)
  | context [Z.leb ?x ?y] => destruct (Z.leb_spec x y)
  | context [Nat.eqb ?x ?y] => destruct (Nat.eqb_spec x y)
  | context [Nat.ltb ?x ?y] => destruct (Nat.ltb_spec x y)
  | context [Nat.leb ?x ?y] => destruct (Nat.leb_spec x y)
  end.

(** ** Weakest preconditions of checked code

    [wp o Q]: the computation [o] is defined and its result satisfies [Q]. *)
Definition wp {A} (o : option A) (Q : A -> Prop) : Prop :=
  match o with Some a => Q a | None => False end.

Lemma wp_bind {A B} (o : option A) (k : A -> option B) Q :
  wp o (fun x => wp (k x) Q) -> wp (let? x := o in k x) Q.
Proof. by destruct o. Qed.

Lemma wp_mono {A} (o : option A) (P Q : A -> Prop) :
  wp o P -> (forall a, P a -> Q a) -> wp o Q.
Proof. destruct o; simpl; auto. Qed.

Lemma wp_some {A} (o : option A) Q : wp o Q <-> exists a, o = Some a /\ Q a.
Proof.
  destruct o as [x|]; simpl; split; try done.
  - intros H. by exists x.
  - by intros (a & [= ->] & H).
  - by intros (a & [=] & _).
Qed.
