(* ===== verification/Digits.v ===== *)
(** * Digits: positional numbers

    Little-endian digit lists in an arbitrary base, shared by the base-10^9
    limbs of src/bignum.c, its base-2^32 words and its radix strings.  [eval]
    is the value a digit list denotes; [in_base] the range invariant of its
    digits; [trimmed] the no-leading-zero invariant. *)

From S2P Require Import Prelude.
From Stdlib Require Import ZArith Lia Bool List.
From stdpp Require Import base numbers list.

Local Open Scope Z_scope.

Section Eval.

Context (B : Z).

Fixpoint eval (l : list Z) : Z :=
  match l with
  | [] => 0
  | x :: l' => x + B * eval l'
  end.

Definition in_base (l : list Z) : Prop := Forall (fun x => 0 <= x < B) l.

(** The value of a most-significant-first digit sequence on top of [acc]. *)
Fixpoint eval_be (acc : Z) (l : list Z) : Z :=
  match l with
  | [] => acc
  | x :: l' => eval_be (acc * B + x) l'
  end.

End Eval.

(** No most-significant zero digit. *)
Definition trimmed (l : list Z) : Prop := last l <> Some 0.

Section EvalFacts.

Context {B : Z} (HB : 1 < B).

Lemma eval_app (l1 l2 : list Z) :
  eval B (l1 ++ l2) = eval B l1 + B ^ Z.of_nat (length l1) * eval B l2.
Proof using HB.
  induction l1 as [|x l1 IH]; simpl app; simpl eval; simpl length.
  - rewrite Z.pow_0_r. ring.
  - rewrite IH, Nat2Z.inj_succ, Z.pow_succ_r by lia. ring.
Qed.

Lemma base_pow_pos n : 0 < B ^ Z.of_nat n.
Proof using HB. apply Z.pow_pos_nonneg; lia. Qed.

Lemma pow_S n : B ^ Z.of_nat (S n) = B * B ^ Z.of_nat n.
Proof using Type. rewrite Nat2Z.inj_succ, Z.pow_succ_r by lia. done. Qed.

Lemma in_base_app (l1 l2 : list Z) :
  in_base B (l1 ++ l2) <-> in_base B l1 /\ in_base B l2.
Proof using Type. unfold in_base. by rewrite Forall_app. Qed.

Lemma in_base_cons x (l : list Z) : in_base B (x :: l) <-> 0 <= x < B /\ in_base B l.
Proof using Type. unfold in_base. by rewrite Forall_cons. Qed.

Lemma in_base_take n (l : list Z) : in_base B l -> in_base B (take n l).
Proof using Type. apply Forall_take. Qed.

Lemma in_base_nth i (l : list Z) : in_base B l -> 0 <= nth i l 0 < B.
Proof using HB.
  intros H. revert i. induction H; intros [|i]; simpl; auto; lia.
Qed.

Lemma eval_bounds (l : list Z) :
  in_base B l -> 0 <= eval B l < B ^ Z.of_nat (length l).
Proof using HB.
  induction 1 as [|x l Hx _ IH]; simpl eval; simpl length; [simpl; lia|].
  rewrite pow_S. nia.
Qed.

Lemma eval_zeros n : eval B (replicate n 0) = 0.
Proof using Type. induction n as [|n IH]; simpl; [done|]. rewrite IH. lia. Qed.

Lemma in_base_zeros n : in_base B (replicate n 0).
Proof using HB. apply Forall_replicate. lia. Qed.

(** Storing a digit changes the value by its difference at that weight. *)
Lemma eval_insert (l : list Z) i x :
  (i < length l)%nat ->
  eval B (<[i := x]> l) = eval B l + (x - nth i l 0) * B ^ Z.of_nat i.
Proof using Type.
  revert i. induction l as [|y l IH]; intros [|i] Hi; cbn [length] in Hi; try lia.
  - change (<[0%nat := x]> (y :: l)) with (x :: l). cbn [eval nth].
    change (Z.of_nat 0) with 0. rewrite Z.pow_0_r. ring.
  - cbn [eval nth]. change (<[S i := x]> (y :: l)) with (y :: <[i := x]> l).
    cbn [eval]. rewrite IH by lia. rewrite pow_S. ring.
Qed.

Lemma in_base_insert (l : list Z) i x :
  in_base B l -> 0 <= x < B -> in_base B (<[i := x]> l).
Proof using Type. intros. by apply Forall_insert. Qed.

Lemma trimmed_cons_inv x (l : list Z) : trimmed (x :: l) -> trimmed l.
Proof using Type.
  unfold trimmed. destruct l as [|y l]; [by intros _ [=]|]. done.
Qed.

Lemma trimmed_pos (l : list Z) :
  in_base B l -> trimmed l -> l <> [] ->
  B ^ (Z.of_nat (length l) - 1) <= eval B l.
Proof using HB.
  induction 1 as [|x l Hx Hl IH]; intros Ht Hne; [done|].
  cbn [eval length]. destruct l as [|y l].
  - assert (x <> 0) by (intros ->; by apply Ht). simpl. lia.
  - specialize (IH (trimmed_cons_inv _ _ Ht) ltac:(done)).
    replace (Z.of_nat (S (length (y :: l))) - 1)
      with (Z.succ (Z.of_nat (length (y :: l)) - 1)) by (cbn [length]; lia).
    rewrite Z.pow_succ_r by (cbn [length]; lia).
    pose proof (eval_bounds _ Hl). nia.
Qed.

(** A trimmed list of smaller value is no longer. *)
Lemma trimmed_length_le (l1 l2 : list Z) :
  in_base B l1 -> in_base B l2 -> trimmed l1 ->
  eval B l1 <= eval B l2 -> (length l1 <= length l2)%nat.
Proof using HB.
  intros H1 H2 Ht Hle. destruct l1 as [|x l1]; [simpl; lia|].
  pose proof (trimmed_pos _ H1 Ht ltac:(done)) as Hp.
  pose proof (eval_bounds _ H2) as Hb.
  assert (Z.of_nat (length (x :: l1)) - 1 < Z.of_nat (length l2)); [|lia].
  apply (Z.pow_lt_mono_r_iff B); lia.
Qed.

Lemma trimmed_length_lt (l : list Z) n :
  in_base B l -> trimmed l -> eval B l < B ^ Z.of_nat n -> (length l <= n)%nat.
Proof using HB.
  intros H1 Ht Hlt. destruct l as [|x l]; [simpl; lia|].
  pose proof (trimmed_pos _ H1 Ht ltac:(done)) as Hp.
  assert (Z.of_nat (length (x :: l)) - 1 < Z.of_nat n); [|lia].
  apply (Z.pow_lt_mono_r_iff B); lia.
Qed.

Lemma trimmed_zero (l : list Z) : in_base B l -> trimmed l -> eval B l = 0 -> l = [].
Proof using HB.
  intros H Ht He. destruct l as [|x l]; [done|].
  pose proof (trimmed_pos _ H Ht ltac:(done)) as Hp. rewrite He in Hp.
  assert (0 < B ^ (Z.of_nat (length (x :: l)) - 1)); [|lia].
  apply Z.pow_pos_nonneg; cbn [length]; lia.
Qed.

(** Digit lists of one length are determined by their value. *)
Lemma eval_inj (l1 l2 : list Z) :
  in_base B l1 -> in_base B l2 -> length l1 = length l2 ->
  eval B l1 = eval B l2 -> l1 = l2.
Proof using HB.
  intros H1. revert l2. induction H1 as [|x l1 Hx _ IH]; intros [|y l2] H2 Hl He;
    cbn [length] in Hl; try lia; [done|].
  apply in_base_cons in H2 as [Hy H2]. cbn [eval] in He.
  assert (x = y /\ eval B l1 = eval B l2) as [-> He'].
  { pose proof (Z.mod_unique (x + B * eval B l1) B (eval B l1) x) as M1.
    pose proof (Z.mod_unique (x + B * eval B l1) B (eval B l2) y) as M2.
    assert (x = y) by (rewrite M1, M2 at 1 by lia; lia). subst. nia. }
  f_equal. apply IH; auto.
Qed.

(** Canonical digit lists are determined by their value. *)
Lemma trimmed_inj (l1 l2 : list Z) :
  in_base B l1 -> in_base B l2 -> trimmed l1 -> trimmed l2 ->
  eval B l1 = eval B l2 -> l1 = l2.
Proof using HB.
  intros. apply eval_inj; auto.
  apply Nat.le_antisymm; apply trimmed_length_le; auto; lia.
Qed.

Lemma eval_be_app acc (l1 l2 : list Z) :
  eval_be B acc (l1 ++ l2) = eval_be B (eval_be B acc l1) l2.
Proof using Type. revert acc. induction l1; simpl; auto. Qed.

Lemma eval_be_rev (l : list Z) : eval_be B 0 (rev l) = eval B l.
Proof using Type.
  induction l as [|x l IH]; [done|]. simpl rev. rewrite eval_be_app, IH. simpl. ring.
Qed.

Lemma eval_be_acc acc (l : list Z) :
  eval_be B acc l = acc * B ^ Z.of_nat (length l) + eval_be B 0 l.
Proof using Type.
  revert acc. induction l as [|x l IH]; intros acc; cbn [eval_be length].
  - rewrite Z.pow_0_r. ring.
  - rewrite IH, (IH (0 * B + x)), pow_S. ring.
Qed.

Lemma eval_be_bounds (l : list Z) :
  in_base B l -> 0 <= eval_be B 0 l < B ^ Z.of_nat (length l).
Proof using HB.
  intros H. rewrite <- (rev_involutive l), eval_be_rev, length_rev.
  apply eval_bounds. unfold in_base. by apply Forall_rev.
Qed.

(** A list whose value reaches the weight of its last digit is trimmed. *)
Lemma trimmed_of_bound (l : list Z) :
  in_base B l -> B ^ (Z.of_nat (length l) - 1) <= eval B l -> trimmed l.
Proof using HB.
  intros Hl Hb. unfold trimmed. destruct l as [|x l _] using rev_ind; [done|].
  rewrite last_snoc. intros [= ->].
  rewrite eval_app in Hb by done. simpl in Hb.
  rewrite length_app in Hb. simpl in Hb.
  apply in_base_app in Hl as [Hl _].
  pose proof (eval_bounds _ Hl).
  replace (Z.of_nat (length l + 1) - 1) with (Z.of_nat (length l)) in Hb by lia.
  lia.
Qed.

Lemma take_S_nth (l : list Z) n :
  (n < length l)%nat -> take (S n) l = take n l ++ [nth n l 0].
Proof using Type.
  intros H. apply take_S_r. destruct (lookup_lt_is_Some_2 l n H) as [x Hx].
  rewrite Hx. f_equal. symmetry. by apply nth_lookup_Some.
Qed.

Lemma eval_take_S (l : list Z) n :
  (n < length l)%nat ->
  eval B (take (S n) l) = eval B (take n l) + B ^ Z.of_nat n * nth n l 0.
Proof using HB.
  intros H. rewrite take_S_nth, eval_app by done.
  rewrite length_take, Nat.min_l by lia. cbn [eval]. ring.
Qed.

Lemma eval_take_drop n (l : list Z) :
  (n <= length l)%nat ->
  eval B l = eval B (take n l) + B ^ Z.of_nat n * eval B (drop n l).
Proof using HB.
  intros Hn. rewrite <- (take_drop n l) at 1. rewrite eval_app, length_take, Nat.min_l by lia.
  done.
Qed.

Lemma in_base_drop n (l : list Z) : in_base B l -> in_base B (drop n l).
Proof using Type. apply Forall_drop. Qed.

End EvalFacts.

#[export] Hint Resolve in_base_take in_base_insert : diamond.
