(* ===== verification/CText.v ===== *)
(** * CText: C strings and decimal numbers

    Text is a list of byte values without its terminator; reading at the end
    yields the terminating zero.  The character classes are those of the C
    locale. *)

From S2P Require Import Prelude Digits.
From Stdlib Require Import ZArith Lia Bool List String Ascii.
From stdpp Require Import base numbers list.

Local Open Scope Z_scope.

(** The bytes of a string literal. *)
Definition bytes (s : string) : list Z :=
  map (fun a => Z.of_nat (Ascii.nat_of_ascii a)) (list_ascii_of_string s).

(** [*cursor]. *)
Definition peek (s : list Z) : Z := match s with [] => 0 | c :: _ => c end.

Definition isdigit (c : Z) : bool := (48 <=? c) && (c <=? 57).
Definition isalpha (c : Z) : bool :=
  ((65 <=? c) && (c <=? 90)) || ((97 <=? c) && (c <=? 122)).
Definition isalnum (c : Z) : bool := isdigit c || isalpha c.
Definition isspace (c : Z) : bool := (c =? 32) || ((9 <=? c) && (c <=? 13)).

(** A C string: no zero byte before its end. *)
Definition cstring (s : list Z) : Prop := Forall (fun c => 0 < c < 256) s.

(** ** Decimal digits *)

(** The number of decimal digits of [v]. *)
Fixpoint decimal_width (fuel : nat) (v : Z) : nat :=
  match fuel with
  | O => 1
  | S f => if v <? 10 then 1 else S (decimal_width f (v / 10))
  end.

(** The last [n] decimal digits of [v], most significant first. *)
Fixpoint decimal_run (n : nat) (v : Z) : list Z :=
  match n with
  | O => []
  | S m => decimal_run m (v / 10) ++ [48 + v mod 10]
  end.

(** [%lu]: a 64-bit number has at most twenty digits. *)
Definition printf_lu (v : Z) : list Z := decimal_run (decimal_width 19 v) v.

(** The leading decimal digits of a text, and what follows them. *)
Fixpoint span_digits (s : list Z) : list Z * list Z :=
  match s with
  | [] => ([], [])
  | c :: rest =>
      if isdigit c then let '(ds, tl) := span_digits rest in (c :: ds, tl)
      else ([], s)
  end.

(** ** Decimal text and the number it denotes *)

Definition is_digits (s : list Z) : Prop := Forall (fun c => 48 <= c <= 57) s.

Definition decimal_value (s : list Z) : Z := eval_be 10 0 (map (fun c => c - 48) s).

Lemma decimal_value_app a b :
  decimal_value (a ++ b) = decimal_value a * 10 ^ Z.of_nat (length b) + decimal_value b.
Proof.
  unfold decimal_value. rewrite map_app, eval_be_app, eval_be_acc.
  by rewrite length_map.
Qed.

Lemma decimal_value_bounds s :
  is_digits s -> 0 <= decimal_value s < 10 ^ Z.of_nat (length s).
Proof.
  intros H. unfold decimal_value. rewrite <- (length_map (fun c => c - 48) s).
  apply eval_be_bounds; [lia|]. unfold in_base. apply Forall_map.
  eapply Forall_impl; [exact H|]. simpl. lia.
Qed.

Lemma decimal_run_spec n v :
  0 <= v -> is_digits (decimal_run n v) /\ length (decimal_run n v) = n /\
  decimal_value (decimal_run n v) = v mod 10 ^ Z.of_nat n.
Proof.
  revert v. induction n as [|n IH]; intros v Hv; cbn [decimal_run].
  - split; [constructor|]. split; [done|]. simpl. by rewrite Z.mod_1_r.
  - destruct (IH (v / 10)) as (H1 & H2 & H3); [apply Z.div_pos; lia|].
    pose proof (Z.mod_pos_bound v 10 ltac:(lia)).
    split; [apply Forall_app; split; [done|]; constructor; [lia|constructor]|].
    split; [rewrite length_app, H2; simpl; lia|].
    rewrite decimal_value_app, H3, pow_S. cbn [length Z.of_nat Z.pow].
    unfold decimal_value at 1. cbn [map eval_be].
    rewrite Z.rem_mul_r by (try apply Z.pow_nonzero; try apply Z.pow_pos_nonneg; lia).
    change (10 ^ Z.of_nat 1) with 10. lia.
Qed.

Lemma decimal_width_spec f v :
  0 <= v < 10 ^ Z.of_nat (S f) ->
  (1 <= decimal_width f v)%nat /\ v < 10 ^ Z.of_nat (decimal_width f v) /\
  ((1 < decimal_width f v)%nat -> 10 ^ (Z.of_nat (decimal_width f v) - 1) <= v).
Proof.
  revert v. induction f as [|f IH]; intros v Hv; cbn [decimal_width].
  - split; [lia|]. split; [simpl in *; lia|lia].
  - destruct (Z.ltb_spec v 10) as [H|H].
    + split; [lia|]. split; [simpl; lia|lia].
    + rewrite pow_S in Hv. destruct (IH (v / 10)) as (H1 & H2 & H3).
      { split; [apply Z.div_pos; lia|]. apply Z.div_lt_upper_bound; lia. }
      pose proof (Z.div_mod v 10 ltac:(lia)). pose proof (Z.mod_pos_bound v 10 ltac:(lia)).
      set (w := decimal_width f (v / 10)) in *.
      split; [lia|]. rewrite pow_S. split; [lia|]. intros _.
      destruct (Nat.eq_dec w 1%nat) as [->|]; [simpl; lia|].
      specialize (H3 ltac:(lia)).
      replace (Z.of_nat (S w) - 1) with (Z.succ (Z.of_nat w - 1)) by lia.
      rewrite Z.pow_succ_r by lia. lia.
Qed.

Lemma decimal_width_le f v n :
  0 <= v -> (1 <= n)%nat -> v < 10 ^ Z.of_nat n -> (decimal_width f v <= n)%nat.
Proof.
  revert v n. induction f as [|f IH]; intros v n Hv Hn Hlt; cbn [decimal_width]; [lia|].
  destruct (Z.ltb_spec v 10); [lia|]. destruct n as [|[|n]]; [lia|simpl in Hlt; lia|].
  apply le_n_S. apply IH; [apply Z.div_pos; lia|lia|]. rewrite pow_S in Hlt.
  apply Z.div_lt_upper_bound; lia.
Qed.


(** [strtoul(s, &end, 10)] at a digit: the value saturates at [ULONG_MAX]. *)
Definition strtoul (s : list Z) : Z * list Z :=
  let '(digits, tl) := span_digits s in (Z.min UINT64_MAX (decimal_value digits), tl).

Lemma isdigit_spec c : isdigit c = true <-> 48 <= c <= 57.
Proof. unfold isdigit. rewrite andb_true_iff, !Z.leb_le. done. Qed.

Lemma span_digits_app ds tl :
  is_digits ds -> isdigit (peek tl) = false -> span_digits (ds ++ tl) = (ds, tl).
Proof.
  intros H Ht. induction H as [|c ds Hc H IH]; simpl.
  - destruct tl as [|c tl]; [done|]. simpl in *. by rewrite Ht.
  - apply isdigit_spec in Hc. by rewrite Hc, IH.
Qed.

Lemma span_digits_spec s :
  let '(ds, tl) := span_digits s in
  s = ds ++ tl /\ is_digits ds /\ isdigit (peek tl) = false.
Proof.
  induction s as [|c s IH]; simpl; [repeat split; constructor|].
  destruct (isdigit c) eqn:E.
  - destruct (span_digits s) as [ds tl]. destruct IH as (-> & H & Ht).
    split; [done|]. split; [|done]. constructor; [by apply isdigit_spec|done].
  - split; [done|]. split; [constructor|done].
Qed.

Lemma printf_lu_spec v :
  0 <= v <= UINT64_MAX ->
  is_digits (printf_lu v) /\ decimal_value (printf_lu v) = v /\
  (1 <= length (printf_lu v) <= 20)%nat /\
  (peek (printf_lu v) = 48 -> length (printf_lu v) = 1%nat).
Proof.
  intros Hv. unfold printf_lu.
  assert (H20 : v < 10 ^ Z.of_nat 20) by (unfold_widths; simpl; lia).
  destruct (decimal_width_spec 19 v) as (W1 & W2 & W3); [lia|].
  pose proof (decimal_width_le 19 v 20 ltac:(lia) ltac:(lia) H20).
  set (w := decimal_width 19 v) in *.
  destruct (decimal_run_spec w v ltac:(lia)) as (H1 & H2 & H3).
  rewrite Z.mod_small in H3 by lia.
  split; [done|]. split; [done|]. split; [lia|]. intros E.
  destruct (decimal_run w v) as [|c s] eqn:Er; [done|]. simpl in E. subst c.
  destruct (Nat.eq_dec w 1%nat); [lia|]. exfalso. specialize (W3 ltac:(lia)).
  apply Forall_cons in H1 as [_ H1]. pose proof (decimal_value_bounds s H1) as Hb.
  change (48 :: s) with ([48] ++ s) in H3. rewrite decimal_value_app in H3.
  change (decimal_value [48]) with 0 in H3. cbn [length] in H2.
  replace (Z.of_nat (length s)) with (Z.of_nat w - 1) in Hb by lia. lia.
Qed.
