(* ===== verification/Ordering.v ===== *)
(** * Ordering: total preorders given by a three-way comparison

    [TotalCompare cmp] states what the C comparators promise their callers: the
    two argument orders agree, and the relation "not greater" is transitive.
    The instances build a comparator from comparators of its parts the way the
    sources do, so a composite comparator is an order by instance resolution. *)

From Stdlib Require Import ZArith Lia Bool List.
From stdpp Require Import base numbers list.

Local Open Scope Z_scope.

Class TotalCompare {A} (cmp : A -> A -> comparison) : Prop := {
  cmp_flip x y : cmp y x = CompOpp (cmp x y);
  cmp_trans x y z : cmp x y <> Gt -> cmp y z <> Gt -> cmp x z <> Gt;
}.

Section Facts.

Context {A : Type} (cmp : A -> A -> comparison) `{!TotalCompare cmp}.

Lemma cmp_refl x : cmp x x = Eq.
Proof using TotalCompare0. pose proof (cmp_flip x x) as H. by destruct (cmp x x). Qed.

Lemma cmp_eq_sym x y : cmp x y = Eq -> cmp y x = Eq.
Proof using TotalCompare0. intros H. by rewrite cmp_flip, H. Qed.

Lemma cmp_not_gt_flip x y : cmp y x = Gt -> cmp x y <> Gt.
Proof using TotalCompare0. intros H. rewrite cmp_flip, H. done. Qed.

(** Comparing with one of two equal elements is comparing with the other. *)
Lemma cmp_eq_l x y z : cmp x y = Eq -> cmp x z = cmp y z.
Proof using TotalCompare0.
  intros E. pose proof (cmp_eq_sym _ _ E) as E'.
  assert (T1 : cmp y z <> Gt -> cmp x z <> Gt) by (apply cmp_trans; congruence).
  assert (T2 : cmp x z <> Gt -> cmp y z <> Gt) by (apply cmp_trans; congruence).
  assert (T3 : cmp z x <> Gt -> cmp z y <> Gt)
    by (intros; apply (cmp_trans z x y); congruence).
  assert (T4 : cmp z y <> Gt -> cmp z x <> Gt)
    by (intros; apply (cmp_trans z y x); congruence).
  pose proof (cmp_flip (cmp:=cmp) x z) as F1. pose proof (cmp_flip (cmp:=cmp) y z) as F2.
  rewrite F1, F2 in T3, T4. clear F1 F2.
  destruct (cmp x z), (cmp y z); simpl in *; intuition congruence.
Qed.

Lemma cmp_lt_trans x y z : cmp x y = Lt -> cmp y z = Lt -> cmp x z = Lt.
Proof using TotalCompare0.
  intros H1 H2. destruct (cmp x z) eqn:E; [|done|].
  - pose proof (cmp_eq_l _ _ y E) as H. rewrite H1 in H.
    pose proof (cmp_flip y z) as F. rewrite H2 in F. simpl in F. congruence.
  - exfalso. apply (cmp_trans x y z); congruence.
Qed.

(** The preimage of an order under a key. *)
Lemma TotalCompare_key {B} (key : B -> A) : TotalCompare (fun x y => cmp (key x) (key y)).
Proof using TotalCompare0.
  split; [intros; apply cmp_flip|intros x y z; apply cmp_trans].
Qed.

End Facts.

#[export] Instance TotalCompare_Z : TotalCompare Z.compare.
Proof.
  split; [apply Z.compare_antisym|]. intros x y z.
  intros H1 H2.
  destruct (Z.compare_spec x y), (Z.compare_spec y z), (Z.compare_spec x z); done || lia.
Qed.

(** [if (cmp != 0) return cmp;] before the next comparison. *)
Definition then_compare (c1 c2 : comparison) : comparison :=
  match c1 with Eq => c2 | _ => c1 end.

Definition pair_compare {A B} (cA : A -> A -> comparison) (cB : B -> B -> comparison)
    (x y : A * B) : comparison :=
  then_compare (cA (fst x) (fst y)) (cB (snd x) (snd y)).

#[export] Instance TotalCompare_pair {A B} (cA : A -> A -> comparison) (cB : B -> B -> comparison)
  `{!TotalCompare cA, !TotalCompare cB} : TotalCompare (pair_compare cA cB).
Proof.
  split.
  - intros [a b] [a' b']. unfold pair_compare. simpl.
    rewrite (cmp_flip (cmp:=cA) a a'), (cmp_flip (cmp:=cB) b b'). by destruct (cA a a').
  - intros [a b] [a' b'] [a'' b'']. unfold pair_compare, then_compare. simpl.
    destruct (cA a a') eqn:E1; try done.
    + rewrite (cmp_eq_l cA _ _ a'' E1). destruct (cA a' a''); try done. apply cmp_trans.
    + intros _. destruct (cA a' a'') eqn:E2; try done.
      * apply (cmp_eq_sym cA) in E2. intros _.
        pose proof (cmp_eq_l cA a'' a' a E2) as H. rewrite (cmp_flip (cmp:=cA) a a''), (cmp_flip (cmp:=cA) a a') in H.
        rewrite E1 in H. destruct (cA a a''); done.
      * intros _. by rewrite (cmp_lt_trans cA _ _ _ E1 E2).
Qed.

(** Lexicographic comparison: a proper prefix comes first. *)
Fixpoint lex_compare {A} (cmp : A -> A -> comparison) (l1 l2 : list A) : comparison :=
  match l1, l2 with
  | [], [] => Eq
  | [], _ :: _ => Lt
  | _ :: _, [] => Gt
  | x :: l1, y :: l2 => then_compare (cmp x y) (lex_compare cmp l1 l2)
  end.

#[export] Instance TotalCompare_list {A} (cmp : A -> A -> comparison) `{!TotalCompare cmp} :
  TotalCompare (lex_compare cmp).
Proof.
  split.
  - intros l1. induction l1 as [|x l1 IH]; intros [|y l2]; try done. simpl.
    rewrite IH, (cmp_flip (cmp:=cmp) x y). by destruct (cmp x y).
  - intros l1. induction l1 as [|x l1 IH]; intros [|y l2] [|z l3]; try done. simpl.
    unfold then_compare.
    destruct (cmp x y) eqn:E1; try done.
    + rewrite (cmp_eq_l cmp _ _ z E1). destruct (cmp y z); try done. apply IH.
    + intros _. destruct (cmp y z) eqn:E2; try done.
      * apply (cmp_eq_sym cmp) in E2. intros _.
        pose proof (cmp_eq_l cmp z y x E2) as H. rewrite (cmp_flip (cmp:=cmp) x z), (cmp_flip (cmp:=cmp) x y) in H.
        rewrite E1 in H. destruct (cmp x z); done.
      * intros _. by rewrite (cmp_lt_trans cmp _ _ _ E1 E2).
Qed.

(** Every left alternative before every right one. *)
Definition sum_compare {A B} (cA : A -> A -> comparison) (cB : B -> B -> comparison)
    (x y : A + B) : comparison :=
  match x, y with
  | inl a, inl a' => cA a a'
  | inl _, inr _ => Lt
  | inr _, inl _ => Gt
  | inr b, inr b' => cB b b'
  end.

#[export] Instance TotalCompare_sum {A B} (cA : A -> A -> comparison) (cB : B -> B -> comparison)
  `{!TotalCompare cA, !TotalCompare cB} : TotalCompare (sum_compare cA cB).
Proof.
  split.
  - intros [] []; simpl; try done; apply cmp_flip.
  - intros [] [] []; simpl; try done; apply cmp_trans.
Qed.
