(* ===== verification/Magnitude.v ===== *)
(** * Magnitude: the sign-less limb arithmetic of src/bignum.c

    A magnitude is a little-endian list of base-10^9 limbs (a C
    [uint32_t *limbs, size_t count] pair).  Each [magnitude_*] function below
    is the C function of that name: loops over limbs are recursions that
    consume the operands limb by limb and produce the limbs stored in
    [result], with the [uint64_t]/[uint32_t] conversions of the source.
    [magnitude_multiply] and [magnitude_divide_limbs] write at computed indices
    of a caller-sized buffer; there the writes are checked, and [None] stands
    for an access outside the buffer.

    The specifications relate each function to the integer its limbs denote
    ([eval BASE]) and show that it preserves the limb range and trims. *)

From S2P Require Import Prelude Digits.
From Stdlib Require Import ZArith Lia Bool List.
From stdpp Require Import base numbers list.

Local Open Scope Z_scope.
Local Open Scope c_scope.

Definition DIAMOND_BIGNUM_BASE : Z := 1000000000.
Abbreviation BASE := DIAMOND_BIGNUM_BASE.

(** [while (count > 0 && limbs[count - 1] == 0) count--]. *)
Fixpoint magnitude_trim (limbs : list Z) (count : nat) : nat :=
  match count with
  | O => O
  | S c => if nth c limbs 0 =? 0 then magnitude_trim limbs c else S c
  end.

(** The limbs a caller keeps after trimming a buffer. *)
Definition trim_limbs (limbs : list Z) : list Z :=
  take (magnitude_trim limbs (length limbs)) limbs.

Fixpoint magnitude_compare_loop (a b : list Z) (i : nat) : Z :=
  match i with
  | O => 0
  | S j =>
      if negb (nth j a 0 =? nth j b 0)
      then (if nth j a 0 <? nth j b 0 then -1 else 1)
      else magnitude_compare_loop a b j
  end.

Definition magnitude_compare (a b : list Z) : Z :=
  if negb (length a =? length b)%nat
  then (if (length a <? length b)%nat then -1 else 1)
  else magnitude_compare_loop a b (length a).

(** [if (index < count) sum += limbs[index]] at the list's current position. *)
Definition add_limb (sum : Z) (limbs : list Z) : Z :=
  match limbs with
  | x :: _ => to_u64 (sum + x)
  | [] => sum
  end.

Fixpoint magnitude_add_loop (n : nat) (a b : list Z) (carry : Z) : list Z * Z :=
  match n with
  | O => ([], carry)
  | S n' =>
      let sum := add_limb (add_limb carry a) b in
      let '(r, c) := magnitude_add_loop n' (tail a) (tail b) (sum / BASE) in
      (to_u32 (sum mod BASE) :: r, c)
  end.

Definition magnitude_add (a b : list Z) : list Z :=
  let '(r, carry) := magnitude_add_loop (Nat.max (length a) (length b)) a b 0 in
  if carry =? 0 then r else r ++ [to_u32 carry].

Fixpoint magnitude_subtract_loop (a b : list Z) (borrow : Z) : list Z :=
  match a with
  | [] => []
  | x :: a' =>
      let diff := to_i64 (to_i64 (x - borrow) -
                          match b with y :: _ => y | [] => 0 end) in
      if diff <? 0
      then to_u32 (to_i64 (diff + BASE)) :: magnitude_subtract_loop a' (tail b) 1
      else to_u32 diff :: magnitude_subtract_loop a' (tail b) 0
  end.

Definition magnitude_subtract (a b : list Z) : list Z :=
  trim_limbs (magnitude_subtract_loop a b 0).

Fixpoint magnitude_multiply_scalar_loop (a : list Z) (scalar carry : Z)
    : list Z * Z :=
  match a with
  | [] => ([], carry)
  | x :: a' =>
      let product := to_u64 (to_u64 (x * scalar) + carry) in
      let '(r, c) := magnitude_multiply_scalar_loop a' scalar (product / BASE) in
      (to_u32 (product mod BASE) :: r, c)
  end.

Definition magnitude_multiply_scalar (a : list Z) (scalar : Z) : list Z :=
  let '(r, carry) := magnitude_multiply_scalar_loop a scalar 0 in
  trim_limbs (if carry =? 0 then r else r ++ [to_u32 carry]).

(** The inner [j] loop of [magnitude_multiply]: [k] is [i + j]. *)
Fixpoint magnitude_multiply_row (ai : Z) (b : list Z) (k : nat) (carry : Z)
    (result : list Z) : option (list Z * Z * nat) :=
  match b with
  | [] => Some (result, carry, k)
  | bj :: b' =>
      let? rk := array_read result k in
      let product := to_u64 (to_u64 (to_u64 (ai * bj) + rk) + carry) in
      let? result' := array_write result k (to_u32 (product mod BASE)) in
      magnitude_multiply_row ai b' (S k) (product / BASE) result'
  end.

(** The [while (carry)] loop; it leaves the buffer before [fuel], its length
    plus one, runs out. *)
Fixpoint magnitude_multiply_carry (fuel : nat) (k : nat) (carry : Z)
    (result : list Z) : option (list Z) :=
  if carry =? 0 then Some result else
  match fuel with
  | O => None
  | S f =>
      let? rk := array_read result k in
      let sum := to_u64 (rk + carry) in
      let? result' := array_write result k (to_u32 (sum mod BASE)) in
      magnitude_multiply_carry f (S k) (sum / BASE) result'
  end.

Fixpoint magnitude_multiply_loop (a b : list Z) (i : nat) (result : list Z)
    : option (list Z) :=
  match a with
  | [] => Some result
  | ai :: a' =>
      let? row := magnitude_multiply_row ai b i 0 result in
      let '(result1, carry, k) := row in
      let? result2 :=
        magnitude_multiply_carry (S (length result1)) k carry result1 in
      magnitude_multiply_loop a' b (S i) result2
  end.

Definition magnitude_multiply (a b : list Z) : option (list Z) :=
  let? result :=
    magnitude_multiply_loop a b 0 (replicate (length a + length b) 0) in
  Some (trim_limbs result).

(** The binary search for one quotient digit. *)
Fixpoint magnitude_divide_digit (fuel : nat) (b remainder : list Z)
    (low high digit : Z) : option Z :=
  match fuel with
  | O => None
  | S f =>
      if low <=? high then
        let mid := to_u32 (low + to_u32 (high - low) / 2) in
        let scratch := magnitude_multiply_scalar b mid in
        if magnitude_compare scratch remainder <=? 0 then
          if mid =? BASE - 1 then Some mid
          else magnitude_divide_digit f b remainder (to_u32 (mid + 1)) high mid
        else if mid =? 0 then Some digit
        else magnitude_divide_digit f b remainder low (to_u32 (mid - 1)) digit
      else Some digit
  end.

(** Halving an interval of [BASE] candidates is over after 31 rounds. *)
Definition divide_digit_fuel : nat := 31.

(** One round of the outer loop of [magnitude_divide] for every limb of [a],
    most significant first.  [remainder] holds at most [length b + 1] limbs. *)
Fixpoint magnitude_divide_loop (a b : list Z) (i : nat)
    (remainder quotient : list Z) : option (list Z * list Z) :=
  match i with
  | O => Some (quotient, remainder)
  | S j =>
      if (length remainder <? length b + 1)%nat then
        let rem1 := trim_limbs (nth j a 0 :: remainder) in
        let? digit :=
          magnitude_divide_digit divide_digit_fuel b rem1 0 (BASE - 1) 0 in
        let rem2 := magnitude_subtract rem1 (magnitude_multiply_scalar b digit) in
        magnitude_divide_loop a b j rem2 (digit :: quotient)
      else None
  end.

(** [magnitude_divide] after its scratch allocation: quotient and remainder. *)
Definition magnitude_divide_limbs (a b : list Z) : option (list Z * list Z) :=
  let? qr := magnitude_divide_loop a b (length a) [] [] in
  Some (trim_limbs (fst qr), snd qr).

(** [while (value > 0) { limbs[count++] = value % BASE; value /= BASE; }], the
    limb-storing loop of [int64_to_magnitude] and [magnitude_multiply_add], with
    [room] limbs left in the buffer: one more store would overflow it. *)
Fixpoint store_limbs (room : nat) (value : Z) : option (list Z) :=
  if value <=? 0 then Some [] else
  match room with
  | O => None
  | S r =>
      let? rest := store_limbs r (value / BASE) in
      Some (to_u32 (value mod BASE) :: rest)
  end.

(** The buffer is [limbs[3]]. *)
Definition int64_to_magnitude (value : Z) : option (list Z) :=
  store_limbs 3
    (if value <? 0 then to_u64 (to_u64 (- (value + 1)) + 1) else to_u64 value).

Fixpoint magnitude_to_int64_loop (limbs : list Z) (i : nat) (magnitude : Z)
    : option Z :=
  match i with
  | O => Some magnitude
  | S j =>
      if magnitude >? (UINT64_MAX - nth j limbs 0) / BASE then None
      else magnitude_to_int64_loop limbs j
             (to_u64 (to_u64 (magnitude * BASE) + nth j limbs 0))
  end.

(** [None] is the C function's [false]. *)
Definition magnitude_to_int64 (limbs : list Z) (negative : bool) : option Z :=
  if (3 <? length limbs)%nat then None else
  let? magnitude := magnitude_to_int64_loop limbs (length limbs) 0 in
  if negative then
    if magnitude >? to_u64 (INT64_MAX + 1) then None
    else Some (if magnitude =? to_u64 (INT64_MAX + 1) then INT64_MIN
               else - to_i64 magnitude)
  else if magnitude >? INT64_MAX then None
  else Some (to_i64 magnitude).

(** ** Specifications *)

Abbreviation limbs_ok := (in_base BASE).
Abbreviation value_of := (eval BASE).

(** A canonical magnitude: limbs in range, no most-significant zero. *)
Definition canonical (l : list Z) : Prop := limbs_ok l /\ trimmed l.

Lemma BASE_gt_1 : 1 < BASE.
Proof. done. Qed.
#[export] Hint Resolve BASE_gt_1 : diamond core.

Ltac base_lia := unfold DIAMOND_BIGNUM_BASE in *; unfold_widths; lia.

Lemma u32_of_mod_base z : to_u32 (z mod BASE) = z mod BASE.
Proof.
  apply to_u32_small. pose proof (Z.mod_pos_bound z BASE). base_lia.
Qed.

Lemma magnitude_trim_le limbs n : (magnitude_trim limbs n <= n)%nat.
Proof. induction n; simpl; [lia|]. case_bools; lia. Qed.

Lemma magnitude_trim_spec B limbs n :
  1 < B -> (n <= length limbs)%nat ->
  let t := magnitude_trim limbs n in
  eval B (take t limbs) = eval B (take n limbs) /\ trimmed (take t limbs).
Proof.
  intros HB.
  induction n as [|n IH]; intros Hn; simpl magnitude_trim.
  - done.
  - destruct (Z.eqb_spec (nth n limbs 0) 0) as [E|E].
    + rewrite eval_take_S, E by (done || lia). destruct IH as [IH1 IH2]; [lia|].
      split; [|done]. rewrite IH1. lia.
    + split; [done|]. unfold trimmed. rewrite take_S_nth by lia.
      rewrite last_snoc. congruence.
Qed.

(** Trimming keeps the value and the digit range in any base. *)
Lemma trim_limbs_in_base B l :
  1 < B -> in_base B l ->
  in_base B (trim_limbs l) /\ trimmed (trim_limbs l) /\
  eval B (trim_limbs l) = eval B l /\ (length (trim_limbs l) <= length l)%nat.
Proof.
  intros HB Hl. unfold trim_limbs.
  destruct (magnitude_trim_spec B l (length l) HB ltac:(lia)) as [Hv Ht].
  rewrite (take_ge l (length l)) in Hv by lia. rewrite length_take.
  split; [by apply in_base_take|]. split; [done|]. split; [done|lia].
Qed.

Lemma trim_limbs_spec l :
  limbs_ok l ->
  canonical (trim_limbs l) /\ value_of (trim_limbs l) = value_of l /\
  (length (trim_limbs l) <= length l)%nat.
Proof.
  intros Hl. destruct (trim_limbs_in_base BASE l BASE_gt_1 Hl) as (H1 & H2 & H3 & H4).
  split; [split; done|]. done.
Qed.

Lemma trim_limbs_canonical l : canonical l -> trim_limbs l = l.
Proof.
  intros [Hl Ht]. destruct (trim_limbs_spec l Hl) as ([Hl' Ht'] & Hv & _).
  apply (trimmed_inj BASE_gt_1); done.
Qed.

Lemma magnitude_compare_loop_spec a b i :
  limbs_ok a -> limbs_ok b -> (i <= length a)%nat -> (i <= length b)%nat ->
  magnitude_compare_loop a b i =
  sign_of (value_of (take i a) ?= value_of (take i b)).
Proof.
  intros Ha Hb. induction i as [|i IH]; intros Hla Hlb; [done|].
  cbn [magnitude_compare_loop]. rewrite sign_of_compare, !eval_take_S by (done || lia).
  pose proof (eval_bounds BASE_gt_1 _ (in_base_take i _ Ha)) as Ba.
  pose proof (eval_bounds BASE_gt_1 _ (in_base_take i _ Hb)) as Bb.
  rewrite length_take, Nat.min_l in Ba, Bb by lia.
  destruct (Z.eqb_spec (nth i a 0) (nth i b 0)) as [E|E]; simpl negb; cbv iota.
  - rewrite IH, sign_of_compare, E by lia. case_bools; lia.
  - case_bools; nia.
Qed.

(** [magnitude_compare] orders canonical magnitudes by value. *)
Lemma magnitude_compare_spec a b :
  canonical a -> canonical b ->
  magnitude_compare a b = sign_of (value_of a ?= value_of b).
Proof.
  intros [Ha Ta] [Hb Tb]. unfold magnitude_compare.
  destruct (Nat.eqb_spec (length a) (length b)) as [E|E]; simpl negb; cbv iota.
  - rewrite magnitude_compare_loop_spec by (auto; lia).
    by rewrite !take_ge by lia.
  - rewrite sign_of_compare.
    pose proof (trimmed_length_le BASE_gt_1 a b Ha Hb Ta).
    pose proof (trimmed_length_le BASE_gt_1 b a Hb Ha Tb).
    case_bools; lia.
Qed.

Lemma eval_head_tail l : value_of l = nth 0 l 0 + BASE * value_of (tail l).
Proof. destruct l; simpl; lia. Qed.

Lemma in_base_tail l : limbs_ok l -> limbs_ok (tail l).
Proof. destruct 1; simpl; [constructor|done]. Qed.

Lemma add_limb_spec s l :
  limbs_ok l -> 0 <= s < two_32 -> add_limb s l = s + nth 0 l 0.
Proof.
  intros Hl Hs. destruct l as [|x l]; simpl; [lia|].
  apply in_base_cons in Hl as [Hx _]. apply to_u64_small. base_lia.
Qed.

Lemma magnitude_add_loop_spec n a b carry :
  limbs_ok a -> limbs_ok b -> 0 <= carry <= 1 ->
  (length a <= n)%nat -> (length b <= n)%nat ->
  let '(r, c) := magnitude_add_loop n a b carry in
  limbs_ok r /\ length r = n /\ 0 <= c <= 1 /\
  value_of r + BASE ^ Z.of_nat n * c = value_of a + value_of b + carry.
Proof.
  revert a b carry. induction n as [|n IH]; intros a b carry Ha Hb Hc La Lb.
  - destruct a, b; simpl in *; try lia. split; [constructor|]. lia.
  - cbn [magnitude_add_loop].
    pose proof (in_base_nth BASE_gt_1 0 a Ha) as Na.
    pose proof (in_base_nth BASE_gt_1 0 b Hb) as Nb.
    rewrite (add_limb_spec carry a) by (auto; base_lia).
    rewrite (add_limb_spec _ b) by (auto; base_lia).
    set (sum := carry + nth 0 a 0 + nth 0 b 0) in *.
    assert (Hq : 0 <= sum / BASE <= 1) by (unfold sum; unfold DIAMOND_BIGNUM_BASE in *; divmod_lia).
    specialize (IH (tail a) (tail b) (sum / BASE) (in_base_tail _ Ha) (in_base_tail _ Hb) Hq).
    rewrite !length_tl in IH. specialize (IH ltac:(lia) ltac:(lia)).
    destruct (magnitude_add_loop n (tail a) (tail b) (sum / BASE)) as [r c].
    destruct IH as (Hr & Lr & Hc' & Hv).
    rewrite u32_of_mod_base, pow_S. cbn [length eval].
    split; [apply in_base_cons; split; [apply Z.mod_pos_bound; done|done]|].
    split; [lia|]. split; [done|].
    rewrite (eval_head_tail a), (eval_head_tail b).
    pose proof (Z.div_mod sum BASE ltac:(done)). unfold sum in *. nia.
Qed.

(** [magnitude_add] adds; its result fits [max(a_count, b_count) + 1] limbs. *)
Lemma magnitude_add_spec a b :
  limbs_ok a -> limbs_ok b ->
  let r := magnitude_add a b in
  limbs_ok r /\ value_of r = value_of a + value_of b /\
  (length r <= Nat.max (length a) (length b) + 1)%nat /\
  (trimmed a -> trimmed b -> trimmed r).
Proof.
  intros Ha Hb. unfold magnitude_add. simpl.
  pose proof (magnitude_add_loop_spec (Nat.max (length a) (length b)) a b 0
                Ha Hb ltac:(lia) ltac:(lia) ltac:(lia)) as H.
  set (n := Nat.max (length a) (length b)) in *.
  destruct (magnitude_add_loop _ a b 0) as [r c]. destruct H as (Hr & Lr & Hc & Hv).
  destruct (Z.eqb_spec c 0) as [->|Hc0].
  - split; [done|]. split; [lia|]. split; [lia|]. intros Ta Tb.
    apply (trimmed_of_bound BASE_gt_1); [done|].
    pose proof (eval_bounds BASE_gt_1 _ Ha). pose proof (eval_bounds BASE_gt_1 _ Hb).
    destruct (Nat.max_spec (length a) (length b)) as [[Hm E]|[Hm E]].
    + destruct b as [|y b]; [simpl in Hm; lia|].
      pose proof (trimmed_pos BASE_gt_1 _ Hb Tb ltac:(done)). rewrite Lr. unfold n. rewrite E. lia.
    + destruct a as [|y a].
      * destruct b; [|simpl in Hm; lia]. rewrite Lr. unfold n. simpl. lia.
      * pose proof (trimmed_pos BASE_gt_1 _ Ha Ta ltac:(done)). rewrite Lr. unfold n. rewrite E. lia.
  - assert (c = 1) as -> by lia. rewrite to_u32_small by base_lia.
    rewrite eval_app, length_app by done. cbn [eval length].
    split; [apply in_base_app; split; [done|]; apply in_base_cons; split; [base_lia|constructor]|].
    split; [rewrite Lr; lia|]. split; [lia|]. intros _ _. unfold trimmed.
    by rewrite last_snoc.
Qed.

Lemma magnitude_subtract_loop_spec a b borrow :
  limbs_ok a -> limbs_ok b -> 0 <= borrow <= 1 -> (length b <= length a)%nat ->
  value_of b + borrow <= value_of a ->
  let r := magnitude_subtract_loop a b borrow in
  limbs_ok r /\ length r = length a /\
  value_of r = value_of a - value_of b - borrow.
Proof.
  intros Ha. revert b borrow. induction Ha as [|x a Hx Ha IH]; intros b borrow Hb Hbo Hl Hle.
  - destruct b; simpl in *; [|lia]. split; [constructor|]. lia.
  - cbn [magnitude_subtract_loop length]. cbn [length] in Hl.
    pose proof (in_base_nth BASE_gt_1 0 b Hb) as Nb.
    pose proof (in_base_tail _ Hb) as Htb.
    replace (match b with [] => 0 | y :: _ => y end) with (nth 0 b 0) by (by destruct b).
    rewrite (to_i64_small (x - borrow)) by base_lia.
    rewrite (to_i64_small (x - borrow - _)) by base_lia.
    rewrite (eval_head_tail b) in *. cbn [eval] in *.
    assert (Hlt : (length (tail b) <= length a)%nat) by (rewrite length_tl; lia).
    destruct (Z.ltb_spec (x - borrow - nth 0 b 0) 0) as [E|E].
    + rewrite to_i64_small by base_lia. rewrite to_u32_small by base_lia.
      destruct (IH (tail b) 1 Htb ltac:(lia) Hlt ltac:(nia)) as (Hr & Lr & Hv).
      cbn [length eval]. rewrite Lr, Hv.
      split; [apply in_base_cons; split; [lia|done]|]. split; [done|]. ring.
    + rewrite to_u32_small by base_lia.
      destruct (IH (tail b) 0 Htb ltac:(lia) Hlt ltac:(nia)) as (Hr & Lr & Hv).
      cbn [length eval]. rewrite Lr, Hv.
      split; [apply in_base_cons; split; [lia|done]|]. split; [done|]. ring.
Qed.

(** [magnitude_subtract] subtracts and trims, for [b <= a]. *)
Lemma magnitude_subtract_spec a b :
  limbs_ok a -> canonical b -> value_of b <= value_of a ->
  let r := magnitude_subtract a b in
  canonical r /\ value_of r = value_of a - value_of b /\
  (length r <= length a)%nat.
Proof.
  intros Ha [Hb Tb] Hle. unfold magnitude_subtract. simpl.
  destruct (magnitude_subtract_loop_spec a b 0 Ha Hb ltac:(lia)) as (Hr & Lr & Hv).
  { by apply (trimmed_length_le BASE_gt_1). }
  { lia. }
  destruct (trim_limbs_spec _ Hr) as (Hc & Hv' & Hl').
  split; [done|]. split; [lia|]. by rewrite <- Lr.
Qed.

Lemma magnitude_multiply_scalar_loop_spec a s carry :
  limbs_ok a -> 0 <= s <= BASE -> 0 <= carry < Z.max s 1 ->
  let '(r, c) := magnitude_multiply_scalar_loop a s carry in
  limbs_ok r /\ length r = length a /\ 0 <= c < Z.max s 1 /\
  value_of r + BASE ^ Z.of_nat (length a) * c = s * value_of a + carry.
Proof.
  intros Ha Hs. revert carry. induction Ha as [|x a Hx Ha IH]; intros carry Hc.
  - simpl. split; [constructor|]. lia.
  - cbn [magnitude_multiply_scalar_loop length].
    assert (Hp : 0 <= x * s <= (BASE - 1) * s) by nia.
    rewrite (to_u64_small (x * s)) by base_lia.
    rewrite (to_u64_small (x * s + carry)) by base_lia.
    set (p := x * s + carry) in *.
    assert (Hq : 0 <= p / BASE < Z.max s 1).
    { split; [apply Z.div_pos; [lia|done]|]. apply Z.div_lt_upper_bound; [done|].
      unfold p. nia. }
    specialize (IH _ Hq). destruct (magnitude_multiply_scalar_loop a s (p / BASE)) as [r c].
    destruct IH as (Hr & Lr & Hc' & Hv).
    rewrite u32_of_mod_base, pow_S. cbn [length eval].
    split; [apply in_base_cons; split; [apply Z.mod_pos_bound; done|done]|].
    split; [lia|]. split; [done|].
    pose proof (Z.div_mod p BASE ltac:(done)). unfold p in *. nia.
Qed.

(** [magnitude_multiply_scalar] multiplies by a digit and trims, in
    [a_count + 1] limbs. *)
Lemma magnitude_multiply_scalar_spec a s :
  limbs_ok a -> 0 <= s <= BASE ->
  let r := magnitude_multiply_scalar a s in
  canonical r /\ value_of r = s * value_of a /\ (length r <= length a + 1)%nat.
Proof.
  intros Ha Hs. unfold magnitude_multiply_scalar. simpl.
  pose proof (magnitude_multiply_scalar_loop_spec a s 0 Ha Hs ltac:(lia)) as H.
  destruct (magnitude_multiply_scalar_loop a s 0) as [r c].
  destruct H as (Hr & Lr & Hc & Hv).
  set (r' := if c =? 0 then r else r ++ [to_u32 c]).
  assert (Hr' : limbs_ok r' /\ value_of r' = s * value_of a /\
                (length r' <= length a + 1)%nat).
  { unfold r'. destruct (Z.eqb_spec c 0) as [->|E].
    - split; [done|]. split; [lia|lia].
    - rewrite to_u32_small by base_lia. rewrite eval_app, length_app by done.
      cbn [eval length]. rewrite Lr.
      split; [apply in_base_app; split; [done|];
              apply in_base_cons; split; [lia|constructor]|].
      split; lia. }
  destruct Hr' as (H1 & H2 & H3). destruct (trim_limbs_spec _ H1) as (T1 & T2 & T3).
  split; [done|]. split; lia.
Qed.

Lemma pow_add_nat n m : BASE ^ Z.of_nat (n + m) = BASE ^ Z.of_nat n * BASE ^ Z.of_nat m.
Proof. rewrite Nat2Z.inj_add, Z.pow_add_r by lia. done. Qed.

(** One checked store of a loop that keeps [value_of result + carry * BASE^k]:
    the digit written and the carry left split [total]. *)
Lemma store_digit_spec r k total :
  limbs_ok r -> (k < length r)%nat -> 0 <= total ->
  let r' := <[k := total mod BASE]> r in
  array_write r k (to_u32 (total mod BASE)) = Some r' /\
  limbs_ok r' /\ length r' = length r /\
  value_of r' + BASE ^ Z.of_nat (S k) * (total / BASE) =
    value_of r + BASE ^ Z.of_nat k * (total - nth k r 0).
Proof.
  intros Hr Hk Ht. simpl. rewrite u32_of_mod_base, array_write_in by done.
  split; [done|].
  split; [apply in_base_insert; [done|]; apply Z.mod_pos_bound; done|].
  split; [apply length_insert|].
  rewrite eval_insert, pow_S by done.
  pose proof (Z.div_mod total BASE ltac:(done)). nia.
Qed.

Lemma magnitude_multiply_row_spec ai b k carry r :
  limbs_ok b -> limbs_ok r -> 0 <= ai < BASE -> 0 <= carry < BASE ->
  (k + length b <= length r)%nat ->
  exists r' c',
    magnitude_multiply_row ai b k carry r = Some (r', c', (k + length b)%nat) /\
    limbs_ok r' /\ length r' = length r /\ 0 <= c' < BASE /\
    value_of r' + BASE ^ Z.of_nat (k + length b) * c' =
      value_of r + BASE ^ Z.of_nat k * (carry + ai * value_of b).
Proof.
  intros Hb. revert k carry r. induction Hb as [|y b Hy Hb IH];
    intros k carry r Hr Hai Hc Hl.
  - exists r, carry. simpl. rewrite Nat.add_0_r. repeat split; auto; try lia.
  - cbn [magnitude_multiply_row length] in *.
    rewrite array_read_in by lia.
    pose proof (in_base_nth BASE_gt_1 k r Hr) as Hn.
    assert (Hp : 0 <= ai * y <= (BASE - 1) * (BASE - 1)) by nia.
    rewrite (to_u64_small (ai * y)) by base_lia.
    rewrite (to_u64_small (ai * y + nth k r 0)) by base_lia.
    rewrite (to_u64_small (ai * y + nth k r 0 + carry)) by base_lia.
    destruct (store_digit_spec r k (ai * y + nth k r 0 + carry) Hr ltac:(lia) ltac:(lia))
      as (W & Hr1 & L1 & V1).
    rewrite W. set (r1 := <[k := _]> r) in *.
    set (c1 := (ai * y + nth k r 0 + carry) / BASE) in *.
    assert (Hc1 : 0 <= c1 < BASE).
    { split; [apply Z.div_pos; [lia|done]|]. apply Z.div_lt_upper_bound; [done|]. nia. }
    destruct (IH (S k) c1 r1 Hr1 Hai Hc1 ltac:(lia)) as (r' & c' & E & Hr' & L' & Hc' & V').
    exists r', c'. rewrite E. rewrite <- Nat.add_succ_comm.
    split; [done|]. split; [done|]. split; [lia|]. split; [done|].
    rewrite V'. cbn [eval]. rewrite pow_S in V1 |- *. nia.
Qed.

Lemma magnitude_multiply_carry_spec fuel k carry r :
  limbs_ok r -> 0 <= carry < BASE ->
  value_of r + BASE ^ Z.of_nat k * carry < BASE ^ Z.of_nat (length r) ->
  (length r < fuel + k)%nat ->
  exists r', magnitude_multiply_carry fuel k carry r = Some r' /\
    limbs_ok r' /\ length r' = length r /\
    value_of r' = value_of r + BASE ^ Z.of_nat k * carry.
Proof.
  revert k carry r. induction fuel as [|f IH]; intros k carry r Hr Hc Hv Hf;
    cbn [magnitude_multiply_carry]; destruct (Z.eqb_spec carry 0) as [->|E];
    try (exists r; repeat split; auto; lia).
  - pose proof (eval_bounds BASE_gt_1 _ Hr).
    assert (BASE ^ Z.of_nat k < BASE ^ Z.of_nat (length r)) by nia.
    assert (Z.of_nat k < Z.of_nat (length r)); [|lia].
    apply (Z.pow_lt_mono_r_iff BASE); [done|lia|done].
  - pose proof (eval_bounds BASE_gt_1 _ Hr).
    assert (Hk : (k < length r)%nat).
    { assert (BASE ^ Z.of_nat k < BASE ^ Z.of_nat (length r)) by nia.
      assert (Z.of_nat k < Z.of_nat (length r)); [|lia].
      apply (Z.pow_lt_mono_r_iff BASE); [done|lia|done]. }
    rewrite array_read_in by lia.
    pose proof (in_base_nth BASE_gt_1 k r Hr) as Hn.
    rewrite (to_u64_small (nth k r 0 + carry)) by base_lia.
    destruct (store_digit_spec r k (nth k r 0 + carry) Hr ltac:(lia) ltac:(lia))
      as (W & Hr1 & L1 & V1).
    rewrite W. set (r1 := <[k := _]> r) in *.
    set (c1 := (nth k r 0 + carry) / BASE) in *.
    assert (Hc1 : 0 <= c1 < BASE).
    { split; [apply Z.div_pos; [lia|done]|]. apply Z.div_lt_upper_bound; [done|].
      base_lia. }
    destruct (IH (S k) c1 r1 Hr1 Hc1) as (r' & E' & Hr' & L' & V').
    { rewrite V1, L1. lia. }
    { lia. }
    exists r'. rewrite E', V', V1. repeat split; auto; lia.
Qed.

Lemma magnitude_multiply_loop_spec a b i r :
  limbs_ok a -> limbs_ok b -> limbs_ok r ->
  (i + length a + length b <= length r)%nat ->
  value_of r + BASE ^ Z.of_nat i * (value_of a * value_of b) < BASE ^ Z.of_nat (length r) ->
  exists r', magnitude_multiply_loop a b i r = Some r' /\
    limbs_ok r' /\ length r' = length r /\
    value_of r' = value_of r + BASE ^ Z.of_nat i * (value_of a * value_of b).
Proof.
  intros Ha Hb. revert i r. induction Ha as [|x a Hx Ha IH]; intros i r Hr Hl Hv.
  - exists r. cbn. repeat split; auto; lia.
  - cbn [magnitude_multiply_loop length eval] in *.
    destruct (magnitude_multiply_row_spec x b i 0 r Hb Hr Hx ltac:(base_lia) ltac:(lia))
      as (r1 & c1 & E1 & Hr1 & L1 & Hc1 & V1).
    rewrite E1.
    pose proof (eval_bounds BASE_gt_1 _ Hb). pose proof (eval_bounds BASE_gt_1 _ Ha).
    pose proof (base_pow_pos BASE_gt_1 i).
    assert (0 <= BASE ^ Z.of_nat i * (BASE * value_of a * value_of b)) by
      (repeat apply Z.mul_nonneg_nonneg; lia || done).
    destruct (magnitude_multiply_carry_spec (S (length r1)) (i + length b) c1 r1 Hr1 Hc1)
      as (r2 & E2 & Hr2 & L2 & V2).
    { rewrite V1, L1. lia. }
    { lia. }
    rewrite E2.
    destruct (IH (S i) r2 Hr2 ltac:(lia)) as (r' & E' & Hr' & L' & V').
    { rewrite V2, V1, L2, L1, pow_S. lia. }
    exists r'. rewrite E', V', V2, V1, pow_S. repeat split; auto; lia.
Qed.

(** [magnitude_multiply] never leaves its [a_count + b_count] limb buffer, and
    computes the product. *)
Lemma magnitude_multiply_spec a b :
  limbs_ok a -> limbs_ok b ->
  exists r, magnitude_multiply a b = Some r /\ canonical r /\
    value_of r = value_of a * value_of b /\
    (length r <= length a + length b)%nat.
Proof.
  intros Ha Hb. unfold magnitude_multiply.
  pose proof (eval_bounds BASE_gt_1 _ Hb). pose proof (eval_bounds BASE_gt_1 _ Ha).
  destruct (magnitude_multiply_loop_spec a b 0 (replicate (length a + length b) 0) Ha Hb)
    as (r & E & Hr & L & V).
  - apply in_base_zeros. done.
  - rewrite length_replicate. lia.
  - rewrite eval_zeros, length_replicate, pow_add_nat. simpl. nia.
  - rewrite E. exists (trim_limbs r). destruct (trim_limbs_spec r Hr) as (T1 & T2 & T3).
    rewrite eval_zeros in V. rewrite length_replicate in L. simpl Z.of_nat in V.
    repeat split; try apply T1; lia.
Qed.

Section Divide.

Context (b : list Z) (Hb : canonical b) (Hpos : 0 < value_of b).

(** The trial product of [mid] exceeds the remainder exactly when [mid] is
    above the true quotient digit. *)
Lemma trial_product_le mid remainder :
  canonical remainder -> 0 <= mid < BASE ->
  (magnitude_compare (magnitude_multiply_scalar b mid) remainder <=? 0) =
  (mid <=? value_of remainder / value_of b).
Proof using Hb Hpos.
  intros Hr Hm.
  destruct (magnitude_multiply_scalar_spec b mid (proj1 Hb) ltac:(lia)) as (Hc & Hv & _).
  rewrite magnitude_compare_spec, Hv, sign_of_compare by done.
  pose proof (Z.div_mod (value_of remainder) (value_of b) ltac:(lia)) as Hd.
  pose proof (Z.mod_pos_bound (value_of remainder) (value_of b) Hpos) as Hm'.
  set (q := value_of remainder / value_of b) in *.
  case_bools; try lia; nia.
Qed.

Lemma magnitude_divide_digit_spec f remainder low high digit :
  canonical remainder -> value_of remainder < BASE * value_of b ->
  0 <= low -> high <= BASE - 1 ->
  let q := value_of remainder / value_of b in
  low <= q + 1 -> q <= high ->
  (low = 0 /\ digit = 0 \/ digit = low - 1) ->
  high - low + 1 < 2 ^ Z.of_nat f ->
  magnitude_divide_digit (S f) b remainder low high digit = Some q.
Proof using Hb Hpos.
  intros Hr Hlt. simpl. set (q := value_of remainder / value_of b).
  assert (Hq : 0 <= q < BASE).
  { pose proof (eval_bounds BASE_gt_1 _ (proj1 Hr)). unfold q. split.
    - apply Z.div_pos; lia.
    - apply Z.div_lt_upper_bound; lia. }
  revert low high digit.
  induction f as [|f IH]; intros low high digit Hlow Hhigh H1 H2 Hd Hf.
  - simpl in Hf. cbn [magnitude_divide_digit].
    destruct (Z.leb_spec low high); [lia|]. f_equal. lia.
  - rewrite Nat2Z.inj_succ, Z.pow_succ_r in Hf by lia.
    remember (S f) as g eqn:Eg. cbn [magnitude_divide_digit]. subst g.
    destruct (Z.leb_spec low high) as [Hlh|Hlh]; [|f_equal; lia].
    rewrite (to_u32_small (high - low)) by base_lia.
    assert (Hmid : low <= low + (high - low) / 2 <= high) by divmod_lia.
    assert (Hhalf : (high - low) / 2 * 2 <= high - low < (high - low) / 2 * 2 + 2) by divmod_lia.
    set (half := (high - low) / 2) in *.
    rewrite (to_u32_small (low + half)) by base_lia.
    set (mid := low + half) in *.
    rewrite trial_product_le by (done || lia). fold q.
    destruct (Z.leb_spec mid q) as [Hmq|Hmq].
    + destruct (Z.eqb_spec mid (BASE - 1)) as [E|E]; [f_equal; lia|].
      rewrite to_u32_small by base_lia. apply IH; unfold mid in *; lia.
    + destruct (Z.eqb_spec mid 0) as [E|E]; [lia|].
      rewrite to_u32_small by base_lia. apply IH; unfold mid in *; lia.
Qed.

(** One outer round: shifting in a limb and taking out a digit. *)
Lemma divide_round_spec x remainder :
  0 <= x < BASE -> canonical remainder -> value_of remainder < value_of b ->
  let rem1 := trim_limbs (x :: remainder) in
  exists digit,
    magnitude_divide_digit divide_digit_fuel b rem1 0 (BASE - 1) 0 = Some digit /\
    0 <= digit < BASE /\
    let rem2 := magnitude_subtract rem1 (magnitude_multiply_scalar b digit) in
    canonical rem2 /\ 0 <= value_of rem2 < value_of b /\
    x + BASE * value_of remainder = digit * value_of b + value_of rem2.
Proof using Hb Hpos.
  intros Hx Hr Hlt rem1.
  assert (Hxr : limbs_ok (x :: remainder)) by (apply in_base_cons; split; [done|apply Hr]).
  destruct (trim_limbs_spec _ Hxr) as (Hc1 & Hv1 & _). fold rem1 in Hc1, Hv1.
  cbn [eval] in Hv1.
  assert (Hb1 : value_of rem1 < BASE * value_of b) by nia.
  pose proof (eval_bounds BASE_gt_1 _ (proj1 Hc1)) as Hn1.
  exists (value_of rem1 / value_of b).
  assert (Hq : 0 <= value_of rem1 / value_of b < BASE).
  { split; [apply Z.div_pos; lia|apply Z.div_lt_upper_bound; lia]. }
  split; [apply (magnitude_divide_digit_spec 30); auto; simpl; base_lia|].
  split; [done|]. simpl.
  destruct (magnitude_multiply_scalar_spec b (value_of rem1 / value_of b) (proj1 Hb) ltac:(lia))
    as (Hc & Hv & _).
  pose proof (Z.div_mod (value_of rem1) (value_of b) ltac:(lia)) as Hd.
  pose proof (Z.mod_pos_bound (value_of rem1) (value_of b) Hpos) as Hm.
  destruct (magnitude_subtract_spec rem1 _ (proj1 Hc1) Hc ltac:(lia)) as (Hc2 & Hv2 & _).
  split; [done|]. split; lia.
Qed.

Lemma magnitude_divide_loop_spec a i remainder quotient :
  limbs_ok a -> (i <= length a)%nat ->
  canonical remainder -> value_of remainder < value_of b ->
  exists qs rem',
    magnitude_divide_loop a b i remainder quotient = Some (qs ++ quotient, rem') /\
    limbs_ok qs /\ length qs = i /\ canonical rem' /\ 0 <= value_of rem' < value_of b /\
    value_of (take i a) + BASE ^ Z.of_nat i * value_of remainder =
      value_of b * value_of qs + value_of rem'.
Proof using Hb Hpos.
  intros Ha. revert remainder quotient.
  induction i as [|i IH]; intros remainder quotient Hi Hr Hlt.
  - exists [], remainder. pose proof (eval_bounds BASE_gt_1 _ (proj1 Hr)).
    repeat split; try done; try apply Hr; try constructor; simpl; lia.
  - cbn [magnitude_divide_loop].
    assert (Hlen : (length remainder <= length b)%nat).
    { apply (trimmed_length_le BASE_gt_1); try apply Hr; try apply Hb. lia. }
    destruct (Nat.ltb_spec (length remainder) (length b + 1)) as [_|]; [|lia].
    destruct (divide_round_spec (nth i a 0) remainder (in_base_nth BASE_gt_1 i a Ha) Hr Hlt)
      as (digit & E & Hd & Hc2 & Hv2 & Heq).
    rewrite E.
    destruct (IH _ (digit :: quotient) ltac:(lia) Hc2 (proj2 Hv2))
      as (qs & rem' & E' & Hqs & Lqs & Hr' & Hv' & Heq').
    exists (qs ++ [digit]), rem'. rewrite E', <- app_assoc. simpl.
    split; [done|].
    split; [apply in_base_app; split; [done|]; apply in_base_cons; split; [lia|constructor]|].
    split; [rewrite length_app; simpl; lia|]. split; [done|]. split; [done|].
    rewrite eval_app, Lqs, eval_take_S by (done || lia). cbn [eval].
    rewrite pow_S. nia.
Qed.

(** [magnitude_divide] stays inside its [b_count + 1] limb remainder buffer and
    computes quotient and remainder. *)
Lemma magnitude_divide_spec a :
  limbs_ok a ->
  exists q r, magnitude_divide_limbs a b = Some (q, r) /\
    canonical q /\ canonical r /\ (length q <= length a)%nat /\
    value_of q = value_of a / value_of b /\ value_of r = value_of a mod value_of b.
Proof using Hb Hpos.
  intros Ha. unfold magnitude_divide_limbs.
  assert (H0 : canonical []) by (split; [constructor|done]).
  destruct (magnitude_divide_loop_spec a (length a) [] [] Ha ltac:(lia) H0 ltac:(simpl; lia))
    as (qs & r & E & Hqs & Lqs & Hr & Hv & Heq).
  rewrite E, app_nil_r. simpl fst. simpl snd.
  destruct (trim_limbs_spec qs Hqs) as (T1 & T2 & T3).
  rewrite take_ge in Heq by lia. cbn [eval] in Heq. rewrite Z.mul_0_r, Z.add_0_r in Heq.
  exists (trim_limbs qs), r. split; [done|]. split; [done|]. split; [done|].
  split; [lia|]. rewrite T2. split.
  - apply (Z.div_unique _ _ _ (value_of r)); lia.
  - apply (Z.mod_unique _ _ (value_of qs)); lia.
Qed.

End Divide.

(** ** Conversions between [int64_t] and magnitudes *)

Lemma canonical_cons x l : 0 <= x < BASE -> canonical l -> value_of (x :: l) <> 0 ->
  canonical (x :: l).
Proof.
  intros Hx [Hl Ht] Hv. split; [by apply in_base_cons|].
  unfold trimmed in *. destruct l; [|done]. simpl in *. intros [= ->]. lia.
Qed.

Lemma store_limbs_spec fuel m :
  0 <= m < BASE ^ Z.of_nat fuel ->
  exists l, store_limbs fuel m = Some l /\ canonical l /\
    value_of l = m /\ (length l <= fuel)%nat.
Proof.
  revert m. induction fuel as [|f IH]; intros m Hm; cbn [store_limbs].
  - simpl in Hm. assert (m = 0) as -> by lia. exists []. repeat split; try constructor; done.
  - rewrite pow_S in Hm. destruct (Z.leb_spec m 0) as [H0|H0].
    + assert (m = 0) as -> by lia. exists []. repeat split; try constructor; simpl; done || lia.
    + destruct (IH (m / BASE)) as (l & E & Hc & Hv & Hl).
      { split; [apply Z.div_pos; [lia|done]|]. apply Z.div_lt_upper_bound; [done|lia]. }
      rewrite E, u32_of_mod_base. exists (m mod BASE :: l).
      pose proof (Z.div_mod m BASE ltac:(done)).
      assert (Hval : value_of (m mod BASE :: l) = m) by (cbn [eval]; lia).
      split; [done|]. split; [apply canonical_cons; [apply Z.mod_pos_bound; done|done|lia]|].
      split; [done|]. simpl. lia.
Qed.

(** Every [int64_t], [INT64_MIN] included, fits the three-limb buffer. *)
Lemma int64_to_magnitude_spec v :
  in_i64 v ->
  exists l, int64_to_magnitude v = Some l /\ canonical l /\ value_of l = Z.abs v /\
    (length l <= 3)%nat.
Proof.
  intros Hv. unfold int64_to_magnitude.
  replace (if v <? 0 then to_u64 (to_u64 (- (v + 1)) + 1) else to_u64 v) with (Z.abs v).
  - apply store_limbs_spec. simpl. base_lia.
  - destruct (Z.ltb_spec v 0).
    + rewrite (to_u64_small (- (v + 1))), to_u64_small by base_lia. lia.
    + rewrite to_u64_small by base_lia. lia.
Qed.

Lemma magnitude_to_int64_loop_spec l i m :
  limbs_ok l -> (i <= length l)%nat -> 0 <= m < two_64 ->
  magnitude_to_int64_loop l i m =
    let total := BASE ^ Z.of_nat i * m + value_of (take i l) in
    if total <? two_64 then Some total else None.
Proof.
  intros Hl. revert m. induction i as [|i IH]; intros m Hi Hm; cbn [magnitude_to_int64_loop].
  - cbn. destruct m as [|p|p]; try lia; simpl; case_bools; f_equal; lia.
  - pose proof (in_base_nth BASE_gt_1 i l Hl) as Hn.
    pose proof (eval_bounds BASE_gt_1 _ (in_base_take i _ Hl)) as He.
    rewrite length_take, Nat.min_l in He by lia.
    pose proof (base_pow_pos BASE_gt_1 i) as Hp.
    rewrite Z.gtb_ltb. simpl. rewrite eval_take_S, pow_S by (done || lia).
    set (x := nth i l 0) in *.
    assert (Hdiv : (UINT64_MAX - x) / BASE < m <-> two_64 <= m * BASE + x).
    { unfold UINT64_MAX.
      pose proof (Z.div_mod (two_64 - 1 - x) BASE ltac:(done)).
      pose proof (Z.mod_pos_bound (two_64 - 1 - x) BASE ltac:(done)). nia. }
    destruct (Z.ltb_spec ((UINT64_MAX - x) / BASE) m) as [H1|H1].
    + apply Hdiv in H1. case_bools; [nia|done].
    + assert (m * BASE + x < two_64) by lia.
      rewrite (to_u64_small (m * BASE)) by base_lia.
      rewrite to_u64_small by base_lia.
      rewrite IH by (lia || base_lia). simpl.
      replace (BASE ^ Z.of_nat i * (m * BASE + x) + value_of (take i l))
        with (BASE * BASE ^ Z.of_nat i * m + (value_of (take i l) + BASE ^ Z.of_nat i * x))
        by ring. done.
Qed.

(** [magnitude_to_int64] succeeds exactly when the signed value fits. *)
Lemma magnitude_to_int64_spec l (negative : bool) :
  canonical l ->
  let v := if negative then - value_of l else value_of l in
  magnitude_to_int64 l negative =
    if (INT64_MIN <=? v) && (v <=? INT64_MAX) then Some v else None.
Proof.
  intros [Hl Ht] v. unfold magnitude_to_int64.
  pose proof (eval_bounds BASE_gt_1 _ Hl) as Hb.
  assert (Hbig : (3 < length l)%nat -> BASE ^ 3 <= value_of l).
  { intros H. destruct l as [|x l]; [simpl in H; lia|].
    pose proof (trimmed_pos BASE_gt_1 _ Hl Ht ltac:(done)).
    assert (BASE ^ 3 <= BASE ^ (Z.of_nat (length (x :: l)) - 1)); [|lia].
    apply Z.pow_le_mono_r; [done|lia]. }
  destruct (Nat.ltb_spec 3 (length l)) as [H3|H3].
  - specialize (Hbig H3). unfold v. destruct negative; unfold_widths;
      case_bools; simpl; try done; unfold DIAMOND_BIGNUM_BASE in *; lia.
  - rewrite magnitude_to_int64_loop_spec by (done || lia || base_lia).
    rewrite take_ge, Z.mul_0_r, Z.add_0_l by lia. cbv zeta.
    set (w := value_of l) in *. clearbody w. clear Hbig H3 Hl Ht.
    unfold v. rewrite (to_u64_small (INT64_MAX + 1)) by base_lia.
    destruct (Z.ltb_spec w two_64) as [H64|H64].
    + rewrite !Z.gtb_ltb. destruct negative; unfold INT64_MAX, INT64_MIN.
      * case_bools; simpl; try done; try base_lia; f_equal; try lia;
          rewrite ?to_i64_small by base_lia; try lia; base_lia.
      * case_bools; simpl; try done; try base_lia; f_equal;
          rewrite ?to_i64_small by base_lia; lia.
    + destruct negative; case_bools; simpl; try done; base_lia.
Qed.
