(* ===== verification/Value.v ===== *)
(** * Value: runtime values, and what Int arithmetic needs from the VM

    [DiamondValue] is the tagged union of src/value.h, [DiamondBignum] the heap
    object of src/object.h that carries an Int outside [int64_t].  A bignum is
    immutable once allocated, so a value holds it directly instead of through
    an address.

    [VmHeap] is the interface between src/bignum.c and the rest of the VM: the
    C library's [malloc]/[calloc], [maybe_collect] (src/vm_limits.c) and the
    linking of a new object into [vm->young_objects].  Client theorems are
    proved against the interface and its law class [PlentyHeap]; [ScriptedHeap]
    is an executable instance whose allocation outcomes are given in advance. *)

From S2P Require Import Prelude.
From Stdlib Require Import ZArith Lia Bool List.
From stdpp Require Import base numbers list.

Local Open Scope Z_scope.

Record DiamondBignum := {
  negative : bool;
  limbs : list Z;   (* little-endian base-10^9 limbs; limb_count is its length *)
}.

(** Heap objects a value can point to; kinds other than bignums only matter
    here as "not a bignum", and keep their kind and an identity. *)
Inductive DiamondObject :=
  | OBJECT_BIGNUM (bignum : DiamondBignum)
  | OBJECT_OTHER (kind : Z) (address : Z).

Inductive DiamondValue :=
  | DIAMOND_NIL
  | DIAMOND_BOOL (boolean : bool)
  | DIAMOND_INT (integer : Z)
  | DIAMOND_FLOAT (real_bits : Z)
  | DIAMOND_OBJECT (object : DiamondObject)
  | DIAMOND_UNDEFINED
  | DIAMOND_CLASS (class_index : Z).

Definition value_is_bignum (value : DiamondValue) : bool :=
  match value with
  | DIAMOND_OBJECT (OBJECT_BIGNUM _) => true
  | _ => false
  end.

Definition is_int_value (value : DiamondValue) : bool :=
  match value with
  | DIAMOND_INT _ => true
  | _ => value_is_bignum value
  end.

Definition is_nil (value : DiamondValue) : bool :=
  match value with DIAMOND_NIL => true | _ => false end.

#[global] Instance DiamondBignum_eq_dec : EqDecision DiamondBignum.
Proof. solve_decision. Defined.

#[global] Instance DiamondObject_eq_dec : EqDecision DiamondObject.
Proof. solve_decision. Defined.

#[global] Instance DiamondValue_eq_dec : EqDecision DiamondValue.
Proof. solve_decision. Defined.

(** ** State passing

    [VM S A]: code that runs in a VM state [S] and returns an [A]; [None] is
    undefined behaviour, never an error the program reports. *)

Definition VM (S A : Type) : Type := S -> option (A * S).

Definition vm_ret {S A} (a : A) : VM S A := fun s => Some (a, s).

Definition vm_bind {S A B} (m : VM S A) (k : A -> VM S B) : VM S B :=
  fun s => match m s with Some (a, s') => k a s' | None => None end.

Definition vm_lift {S A} (o : option A) : VM S A :=
  fun s => match o with Some a => Some (a, s) | None => None end.

Notation "'let!' x ':=' m 'in' k" := (vm_bind m (fun x => k))
  (at level 10, x pattern, m at level 100, k at level 200) : c_scope.

(** ** The allocation interface *)

Class VmHeap (S : Type) := {
  (** [malloc]/[calloc] of a number of bytes: whether it succeeded *)
  malloc : Z -> S -> bool * S;
  (** [maybe_collect(vm)]: false when the memory budget refuses *)
  maybe_collect : S -> bool * S;
  (** link a new object into [young_objects], adding its size to
      [bytes_allocated] *)
  link_young : DiamondObject -> Z -> S -> S;
}.

Definition vm_malloc {S} `{VmHeap S} (bytes : Z) : VM S bool :=
  fun s => Some (malloc bytes s).

Definition vm_maybe_collect {S} `{VmHeap S} : VM S bool :=
  fun s => Some (maybe_collect s).

Definition vm_link_young {S} `{VmHeap S} (o : DiamondObject) (bytes : Z) : VM S unit :=
  fun s => Some (tt, link_young o bytes s).

(** States in which allocation keeps succeeding. *)
Class PlentyHeap (S : Type) `{VmHeap S} (plenty : S -> Prop) := {
  plenty_malloc n s :
    plenty s -> fst (malloc n s) = true /\ plenty (snd (malloc n s));
  plenty_maybe_collect s :
    plenty s -> fst (maybe_collect s) = true /\ plenty (snd (maybe_collect s));
  plenty_link_young o n s : plenty s -> plenty (link_young o n s);
}.

(** ** An executable instance: allocation outcomes listed in advance

    Once the list is used up every request succeeds. *)

Record ScriptedHeap := {
  outcomes : list bool;
  young_objects : list DiamondObject;
  bytes_allocated : Z;
}.

Definition next_outcome (s : ScriptedHeap) : bool * ScriptedHeap :=
  match outcomes s with
  | [] => (true, s)
  | b :: rest =>
      (b, {| outcomes := rest; young_objects := young_objects s;
             bytes_allocated := bytes_allocated s |})
  end.

#[global] Instance scripted_heap : VmHeap ScriptedHeap := {
  malloc _ := next_outcome;
  maybe_collect := next_outcome;
  link_young o n s :=
    {| outcomes := outcomes s; young_objects := o :: young_objects s;
       bytes_allocated := bytes_allocated s + n |};
}.

Definition scripted (l : list bool) : ScriptedHeap :=
  {| outcomes := l; young_objects := []; bytes_allocated := 0 |}.

#[global] Instance scripted_plenty :
  PlentyHeap ScriptedHeap (fun s => outcomes s = []).
Proof.
  split; intros *; simpl; unfold next_outcome.
  - intros H. rewrite H. done.
  - intros H. rewrite H. done.
  - done.
Qed.

Section Monad.

Context {S : Type}.

Lemma vm_bind_ret {A B} (a : A) (k : A -> VM S B) s : vm_bind (vm_ret a) k s = k a s.
Proof. done. Qed.

Lemma vm_bind_lift_Some {A B} (a : A) (k : A -> VM S B) s :
  vm_bind (vm_lift (Some a)) k s = k a s.
Proof. done. Qed.

End Monad.

(** ** Reasoning about code that allocates in a plentiful heap *)

Section Plenty.

Context {S : Type} `{!VmHeap S} (plenty : S -> Prop) `{!PlentyHeap S plenty}.

(** A computation that keeps the heap plentiful. *)
Definition wpp {A} (m : VM S A) (s : S) (Q : A -> Prop) : Prop :=
  wp (m s) (fun r => Q (fst r) /\ plenty (snd r)).

Lemma wpp_bind {A B} (m : VM S A) (k : A -> VM S B) s Q :
  wpp m s (fun a => forall s', plenty s' -> wpp (k a) s' Q) -> wpp (vm_bind m k) s Q.
Proof. unfold wpp, vm_bind. destruct (m s) as [[a s']|]; simpl; [|done]. intros [H P]. auto. Qed.

Lemma wpp_mono {A} (m : VM S A) s (Q Q' : A -> Prop) :
  wpp m s Q -> (forall a, Q a -> Q' a) -> wpp m s Q'.
Proof. unfold wpp. destruct (m s) as [[a s']|]; simpl; [|done]. intros [H P] Hm. auto. Qed.

Lemma wpp_ret {A} (a : A) s (Q : A -> Prop) : plenty s -> Q a -> wpp (vm_ret a) s Q.
Proof. done. Qed.

Lemma wpp_lift {A} (o : option A) s (Q : A -> Prop) : plenty s -> wp o Q -> wpp (vm_lift o) s Q.
Proof. unfold wpp, vm_lift. by destruct o. Qed.

Lemma wpp_malloc n s (Q : bool -> Prop) : plenty s -> Q true -> wpp (vm_malloc n) s Q.
Proof using PlentyHeap0.
  intros P HQ. unfold wpp, vm_malloc. destruct (plenty_malloc n s P) as [E P'].
  destruct (malloc n s); simpl in *. by subst.
Qed.

End Plenty.
