(* ===== verification/Bignum.v ===== *)
(** * Bignum: arbitrary-precision Int arithmetic (src/bignum.c)

    An Int is either a [DIAMOND_INT] (an [int64_t]) or a [DiamondBignum]; the
    sign-aware operations here work on a [DiamondIntView] of either and
    canonicalize their result.  [int_value] is the integer an Int denotes and
    [canonical_int] the representation invariant (a bignum only ever holds a
    value outside [int64_t]).  The theorems state that every operation returns
    the canonical Int of the exact integer result, or [DIAMOND_NIL] when one of
    its allocations failed, and that it never leaves its buffers. *)

From S2P Require Import Prelude Digits Magnitude Value.
From Stdlib Require Import ZArith Lia Bool List.
From stdpp Require Import base numbers list.

Local Open Scope Z_scope.
Local Open Scope c_scope.

Record DiamondIntView := {
  view_negative : bool;
  view_limbs : list Z;
}.

(** [sizeof(DiamondBignum)] without its flexible array, on LP64. *)
Definition sizeof_DiamondBignum : Z := 32.

Definition limbs_bytes (count : nat) : Z := Z.of_nat count * 4.

Section Operations.

Context {S : Type} `{!VmHeap S}.

Definition bignum_alloc (negative : bool) (limbs : list Z) : VM S (option DiamondBignum) :=
  let! room := vm_maybe_collect in
  if negb room then vm_ret None else
  let bytes := sizeof_DiamondBignum + limbs_bytes (length limbs) in
  let! ok := vm_malloc bytes in
  if negb ok then vm_ret None else
  let bignum := {| Value.negative := negative; Value.limbs := limbs |} in
  let! _ := vm_link_young (OBJECT_BIGNUM bignum) bytes in
  vm_ret (Some bignum).

Definition bignum_canonicalize (negative : bool) (limbs : list Z) : VM S DiamondValue :=
  if (length limbs =? 0)%nat then vm_ret (DIAMOND_INT 0) else
  match magnitude_to_int64 limbs negative with
  | Some small => vm_ret (DIAMOND_INT small)
  | None =>
      let! bignum := bignum_alloc negative limbs in
      match bignum with
      | None => vm_ret DIAMOND_NIL
      | Some b => vm_ret (DIAMOND_OBJECT (OBJECT_BIGNUM b))
      end
  end.

Definition diamond_int_view_int64 (value : Z) : option DiamondIntView :=
  let? l := int64_to_magnitude value in
  Some {| view_negative := value <? 0; view_limbs := l |}.

(** Defined on Int values only: on any other value the C function would read
    the wrong union member. *)
Definition diamond_int_view (value : DiamondValue) : option DiamondIntView :=
  match value with
  | DIAMOND_OBJECT (OBJECT_BIGNUM bignum) =>
      Some {| view_negative := Value.negative bignum;
              view_limbs := Value.limbs bignum |}
  | DIAMOND_INT integer => diamond_int_view_int64 integer
  | _ => None
  end.

Definition diamond_bignum_add (left right : DiamondIntView) : VM S DiamondValue :=
  let capacity :=
    (Nat.max (length (view_limbs left)) (length (view_limbs right)) + 1)%nat in
  let! ok := vm_malloc (limbs_bytes capacity) in
  if negb ok then vm_ret DIAMOND_NIL else
  if eqb (view_negative left) (view_negative right) then
    bignum_canonicalize (view_negative left)
      (magnitude_add (view_limbs left) (view_limbs right))
  else
    let comparison := magnitude_compare (view_limbs left) (view_limbs right) in
    if comparison =? 0 then vm_ret (DIAMOND_INT 0)
    else if comparison >? 0 then
      bignum_canonicalize (view_negative left)
        (magnitude_subtract (view_limbs left) (view_limbs right))
    else
      bignum_canonicalize (view_negative right)
        (magnitude_subtract (view_limbs right) (view_limbs left)).

Definition diamond_bignum_subtract (left right : DiamondIntView) : VM S DiamondValue :=
  diamond_bignum_add left
    {| view_negative := negb (view_negative right); view_limbs := view_limbs right |}.

Definition diamond_bignum_negate (value : DiamondIntView) : VM S DiamondValue :=
  bignum_canonicalize (negb (view_negative value)) (view_limbs value).

Definition diamond_bignum_multiply (left right : DiamondIntView) : VM S DiamondValue :=
  let capacity := (length (view_limbs left) + length (view_limbs right))%nat in
  let! ok := vm_malloc (limbs_bytes (if (capacity =? 0)%nat then 1 else capacity)) in
  if negb ok then vm_ret DIAMOND_NIL else
  let! result := vm_lift (magnitude_multiply (view_limbs left) (view_limbs right)) in
  bignum_canonicalize (xorb (view_negative left) (view_negative right)) result.

(** [magnitude_divide]: [None] is its [false] (no scratch buffer). *)
Definition magnitude_divide (a b : list Z) : VM S (option (list Z * list Z)) :=
  let! ok := vm_malloc (limbs_bytes (length b + 1)) in
  if negb ok then vm_ret None else
  let! qr := vm_lift (magnitude_divide_limbs a b) in
  vm_ret (Some qr).

Definition diamond_bignum_divide_floored (left right : DiamondIntView) : VM S DiamondValue :=
  let! quotient_ok := vm_malloc (limbs_bytes (length (view_limbs left) + 1)) in
  let! remainder_ok := vm_malloc (limbs_bytes (length (view_limbs right) + 1)) in
  if negb quotient_ok || negb remainder_ok then vm_ret DIAMOND_NIL else
  let! ok := magnitude_divide (view_limbs left) (view_limbs right) in
  match ok with
  | None => vm_ret DIAMOND_NIL
  | Some (quotient, remainder) =>
      let negative := xorb (view_negative left) (view_negative right) in
      let quotient :=
        if negative && negb (magnitude_trim remainder (length remainder) =? 0)%nat
        then magnitude_add quotient [1] else quotient in
      bignum_canonicalize negative quotient
  end.

Definition diamond_bignum_modulo_floored (left right : DiamondIntView) : VM S DiamondValue :=
  let left_count := length (view_limbs left) in
  let right_count := length (view_limbs right) in
  let! quotient_ok := vm_malloc (limbs_bytes (if (left_count =? 0)%nat then 1 else left_count)) in
  let! remainder_ok := vm_malloc (limbs_bytes (right_count + 1)) in
  let! complement_ok := vm_malloc (limbs_bytes (right_count + 1)) in
  if negb quotient_ok || negb remainder_ok || negb complement_ok
  then vm_ret DIAMOND_NIL else
  let! ok := magnitude_divide (view_limbs left) (view_limbs right) in
  match ok with
  | None => vm_ret DIAMOND_NIL
  | Some (_, remainder) =>
      let remainder := take (magnitude_trim remainder (length remainder)) remainder in
      if (length remainder =? 0)%nat then vm_ret (DIAMOND_INT 0)
      else if eqb (view_negative left) (view_negative right) then
        bignum_canonicalize (view_negative right) remainder
      else
        bignum_canonicalize (view_negative right)
          (magnitude_subtract (view_limbs right) remainder)
  end.

End Operations.

Definition diamond_bignum_compare (left right : DiamondIntView) : Z :=
  if negb (eqb (view_negative left) (view_negative right))
  then (if view_negative left then -1 else 1)
  else
    let magnitude_comparison := magnitude_compare (view_limbs left) (view_limbs right) in
    if view_negative left then - magnitude_comparison else magnitude_comparison.

(** [hash ^= limb; hash *= K; hash ^= hash >> 33] over the limbs. *)
Fixpoint bignum_hash_loop (limbs : list Z) (hash : Z) : Z :=
  match limbs with
  | [] => hash
  | x :: rest =>
      let hash := Z.lxor hash x in
      let hash := to_u64 (hash * 18397679294719823053) in
      let hash := Z.lxor hash (Z.shiftr hash 33) in
      bignum_hash_loop rest hash
  end.

Definition diamond_bignum_hash (value : DiamondBignum) : Z :=
  bignum_hash_loop (Value.limbs value)
    (if Value.negative value then 11400714819323198485 else 15485907386658061715).

(** ** What an Int denotes *)

Definition signed (negative : bool) (z : Z) : Z := if negative then - z else z.

Definition view_value (v : DiamondIntView) : Z :=
  signed (view_negative v) (value_of (view_limbs v)).

(** A usable view: canonical limbs.  [view_ok] also excludes a negative zero,
    which [diamond_int_view] never builds. *)
Definition view_canonical (v : DiamondIntView) : Prop := canonical (view_limbs v).

Definition view_ok (v : DiamondIntView) : Prop :=
  view_canonical v /\ (view_limbs v = [] -> view_negative v = false).

Definition int_value (v : DiamondValue) : option Z :=
  match v with
  | DIAMOND_INT z => Some z
  | DIAMOND_OBJECT (OBJECT_BIGNUM b) =>
      Some (signed (Value.negative b) (value_of (Value.limbs b)))
  | _ => None
  end.

(** The representation invariant of src/bignum.h: a bignum is canonical and
    never holds a value that fits [int64_t]. *)
Definition canonical_int (v : DiamondValue) : Prop :=
  match v with
  | DIAMOND_INT z => in_i64 z
  | DIAMOND_OBJECT (OBJECT_BIGNUM b) =>
      canonical (Value.limbs b) /\
      ~ in_i64 (signed (Value.negative b) (value_of (Value.limbs b)))
  | _ => False
  end.

(** [v] is the Int [z]. *)
Definition represents (v : DiamondValue) (z : Z) : Prop :=
  canonical_int v /\ int_value v = Some z.

(** [m] returns the Int [z], or [DIAMOND_NIL] when an allocation failed; it
    always returns, and with plenty of memory it returns the Int. *)
Definition may_return {S} (m : VM S DiamondValue) (z : Z) : Prop :=
  forall s, exists v s', m s = Some (v, s') /\ (v = DIAMOND_NIL \/ represents v z).

Definition will_return {S} `{!VmHeap S} (m : VM S DiamondValue) (z : Z) : Prop :=
  forall plenty, PlentyHeap S plenty -> forall s, plenty s ->
  exists v s', m s = Some (v, s') /\ represents v z /\ plenty s'.

Definition computes {S} `{!VmHeap S} (m : VM S DiamondValue) (z : Z) : Prop :=
  may_return m z /\ will_return m z.

Lemma value_nonneg l : canonical l -> 0 <= value_of l.
Proof. intros [Hl _]. apply (eval_bounds BASE_gt_1 _ Hl). Qed.

(** Canonical representations are unique: Int equality is structural. *)
Lemma represents_unique v1 v2 z : represents v1 z -> represents v2 z -> v1 = v2.
Proof.
  intros [C1 I1] [C2 I2].
  destruct v1 as [| |z1| |[[n1 l1]|]| |]; try done;
  destruct v2 as [| |z2| |[[n2 l2]|]| |]; try done; simpl in *;
  injection I1 as E1; injection I2 as E2; subst z.
  - congruence.
  - destruct C2 as [_ C2]. exfalso. apply C2. by rewrite E2.
  - destruct C1 as [_ C1]. exfalso. apply C1. by rewrite <- E2.
  - destruct C1 as [C1 N1], C2 as [C2 N2].
    pose proof (value_nonneg _ C1). pose proof (value_nonneg _ C2).
    assert (value_of l1 = value_of l2 /\ n1 = n2) as [E ->].
    { unfold signed in *. destruct n1, n2; try (split; [lia|done]);
        exfalso; apply N1; base_lia. }
    destruct C1, C2.
    rewrite (trimmed_inj BASE_gt_1 l1 l2); done.
Qed.

Section Rules.

Context {S : Type} `{!VmHeap S}.

Lemma computes_ret v z : represents v z -> computes (S:=S) (vm_ret v) z.
Proof using Type. split; [|intros plenty HP]; intros s; eauto 10. Qed.

Lemma may_return_nil z : may_return (S:=S) (vm_ret DIAMOND_NIL) z.
Proof using Type. intros s. eauto 10. Qed.

(** A request for memory: the continuation may answer NIL when it fails. *)
Lemma computes_malloc n (k : bool -> VM S DiamondValue) z :
  computes (k true) z -> may_return (k false) z -> computes (vm_bind (vm_malloc n) k) z.
Proof using Type.
  intros [M W] F. split; [|intros plenty HP]; intros s; unfold vm_bind, vm_malloc.
  - destruct (malloc n s) as [[] s']; [apply M|apply F].
  - intros Hs. destruct (plenty_malloc n s Hs) as [E Hs'].
    destruct (malloc n s) as [b s']. simpl in *. subst. by apply W.
Qed.

Lemma may_return_malloc n (k : bool -> VM S DiamondValue) z :
  (forall b, may_return (k b) z) -> may_return (vm_bind (vm_malloc n) k) z.
Proof using Type.
  intros F s. unfold vm_bind, vm_malloc. destruct (malloc n s) as [b s']. apply F.
Qed.

Lemma computes_lift {A} (o : option A) a (k : A -> VM S DiamondValue) z :
  o = Some a -> computes (k a) z -> computes (vm_bind (vm_lift o) k) z.
Proof using Type.
  intros -> [M W]. split; [apply M|apply W].
Qed.

Lemma in_i64_dec v :
  (INT64_MIN <=? v) && (v <=? INT64_MAX) = true <-> in_i64 v.
Proof using Type.
  unfold in_i64. rewrite andb_true_iff, !Z.leb_le. done.
Qed.

(** Canonicalization yields the unique canonical Int of a sign and magnitude. *)
Lemma bignum_canonicalize_computes negative l :
  canonical l -> computes (bignum_canonicalize (S:=S) negative l) (signed negative (value_of l)).
Proof using Type.
  intros Hc. unfold bignum_canonicalize.
  destruct (Nat.eqb_spec (length l) 0) as [E0|_].
  { destruct l; [|done]. apply computes_ret. split; [simpl; base_lia|].
    by destruct negative. }
  rewrite magnitude_to_int64_spec by done. cbv zeta.
  change (if negative then - value_of l else value_of l)
    with (signed negative (value_of l)).
  destruct ((INT64_MIN <=? signed negative (value_of l)) &&
            (signed negative (value_of l) <=? INT64_MAX)) eqn:E.
  - apply computes_ret. apply in_i64_dec in E. done.
  - assert (HN : ~ in_i64 (signed negative (value_of l))).
    { intros H. apply in_i64_dec in H. congruence. }
    unfold bignum_alloc. split; [|intros plenty HP]; intros s;
      unfold vm_bind, vm_maybe_collect, vm_malloc, vm_link_young, vm_ret; simpl.
    + destruct (maybe_collect s) as [[] s1]; simpl; [|eauto].
      destruct (malloc _ s1) as [[] s2]; simpl; [|eauto].
      eexists _, _. split; [done|]. right. split; done.
    + intros Hs. destruct (plenty_maybe_collect s Hs) as [E1 H1].
      destruct (maybe_collect s) as [b1 s1]. simpl in *. subst b1. simpl.
      destruct (plenty_malloc (sizeof_DiamondBignum + limbs_bytes (length l)) s1 H1) as [E2 H2].
      destruct (malloc _ s1) as [b2 s2]. simpl in *. subst b2. simpl.
      eexists _, _. split; [done|]. split; [split; done|]. by apply plenty_link_young.
Qed.

End Rules.

(** ** Views *)

Lemma diamond_int_view_spec v z :
  represents v z ->
  exists view, diamond_int_view v = Some view /\ view_ok view /\ view_value view = z.
Proof.
  intros [Hc Hi]. destruct v as [| |i| |[b|]| |]; try done; simpl in *; injection Hi as Hz.
  - subst i. unfold diamond_int_view_int64.
    destruct (int64_to_magnitude_spec z Hc) as (l & E & Hl & Hv & _). rewrite E.
    eexists. split; [done|]. unfold view_ok, view_canonical, view_value. simpl. split.
    + split; [done|]. intros ->. simpl in Hv. destruct (Z.ltb_spec z 0); [lia|done].
    + rewrite Hv. unfold signed. destruct (Z.ltb_spec z 0); lia.
  - destruct Hc as [Hc Hn]. eexists. split; [done|].
    unfold view_ok, view_canonical, view_value. simpl. split; [split; [done|]|done].
    intros E. rewrite E in Hn. exfalso. apply Hn. destruct (Value.negative b); simpl; base_lia.
Qed.

Lemma view_value_pos v : view_canonical v -> view_negative v = false -> 0 <= view_value v.
Proof. intros Hc Hn. unfold view_value. rewrite Hn. by apply value_nonneg. Qed.

(** [diamond_bignum_compare] orders views by the integers they denote. *)
Lemma diamond_bignum_compare_spec left right :
  view_ok left -> view_ok right ->
  diamond_bignum_compare left right = sign_of (view_value left ?= view_value right).
Proof.
  intros [Hl Zl] [Hr Zr]. unfold diamond_bignum_compare, view_value, view_canonical in *.
  pose proof (value_nonneg _ Hl) as Pl. pose proof (value_nonneg _ Hr) as Pr.
  assert (Nl : view_negative left = true -> value_of (view_limbs left) <> 0).
  { intros E Hz. rewrite (trimmed_zero BASE_gt_1 _ (proj1 Hl) (proj2 Hl) Hz) in Zl.
    rewrite Zl in E; done. }
  assert (Nr : view_negative right = true -> value_of (view_limbs right) <> 0).
  { intros E Hz. rewrite (trimmed_zero BASE_gt_1 _ (proj1 Hr) (proj2 Hr) Hz) in Zr.
    rewrite Zr in E; done. }
  rewrite magnitude_compare_spec by done. rewrite !sign_of_compare. unfold signed.
  destruct (view_negative left), (view_negative right); simpl; try specialize (Nl eq_refl);
    try specialize (Nr eq_refl); case_bools; lia.
Qed.

(** ** The arithmetic operations *)

Section Arithmetic.

Context {S : Type} `{!VmHeap S}.

Lemma diamond_bignum_add_computes left right :
  view_canonical left -> view_canonical right ->
  computes (diamond_bignum_add (S:=S) left right) (view_value left + view_value right).
Proof using Type.
  intros Hl Hr. unfold view_canonical in *.
  apply computes_malloc; [|apply may_return_nil]. simpl.
  unfold view_value. pose proof (value_nonneg _ Hl). pose proof (value_nonneg _ Hr).
  destruct (eqb (view_negative left) (view_negative right)) eqn:E.
  - apply eqb_prop in E. rewrite <- E.
    destruct (magnitude_add_spec _ _ (proj1 Hl) (proj1 Hr)) as (H1 & H2 & _ & H4).
    replace (signed _ _ + signed _ _) with (signed (view_negative left)
      (value_of (magnitude_add (view_limbs left) (view_limbs right))))
      by (rewrite H2; unfold signed; destruct (view_negative left); lia).
    apply bignum_canonicalize_computes. split; [done|]. apply H4; [apply Hl|apply Hr].
  - apply eqb_false_iff in E.
    rewrite magnitude_compare_spec, sign_of_compare by done.
    set (x := value_of (view_limbs left)) in *. set (y := value_of (view_limbs right)) in *.
    destruct (Z.ltb_spec x y) as [Hxy|Hxy]; [|destruct (Z.eqb_spec x y) as [Exy|Nxy]]; simpl.
    + destruct (magnitude_subtract_spec _ _ (proj1 Hr) Hl ltac:(lia)) as (H1 & H2 & _).
      replace (signed _ _ + signed _ _) with (signed (view_negative right)
        (value_of (magnitude_subtract (view_limbs right) (view_limbs left)))).
      { by apply bignum_canonicalize_computes. }
      rewrite H2. fold x y. unfold signed.
      destruct (view_negative left), (view_negative right); congruence || lia.
    + apply computes_ret. split; [simpl; base_lia|]. simpl. f_equal. unfold signed.
      destruct (view_negative left), (view_negative right); congruence || lia.
    + destruct (magnitude_subtract_spec _ _ (proj1 Hl) Hr ltac:(lia)) as (H1 & H2 & _).
      replace (signed _ _ + signed _ _) with (signed (view_negative left)
        (value_of (magnitude_subtract (view_limbs left) (view_limbs right)))).
      { by apply bignum_canonicalize_computes. }
      rewrite H2. fold x y. unfold signed.
      destruct (view_negative left), (view_negative right); congruence || lia.
Qed.

Lemma signed_negb n z : signed (negb n) z = - signed n z.
Proof using Type. destruct n; simpl; lia. Qed.

Lemma diamond_bignum_subtract_computes left right :
  view_canonical left -> view_canonical right ->
  computes (diamond_bignum_subtract (S:=S) left right) (view_value left - view_value right).
Proof using Type.
  intros Hl Hr. unfold diamond_bignum_subtract.
  replace (view_value left - view_value right) with (view_value left +
    view_value {| view_negative := negb (view_negative right); view_limbs := view_limbs right |}).
  - by apply diamond_bignum_add_computes.
  - unfold view_value. simpl. rewrite signed_negb. lia.
Qed.

Lemma diamond_bignum_negate_computes v :
  view_canonical v -> computes (diamond_bignum_negate (S:=S) v) (- view_value v).
Proof using Type.
  intros Hv. unfold diamond_bignum_negate, view_value. rewrite <- signed_negb.
  by apply bignum_canonicalize_computes.
Qed.

Lemma signed_mul n m x y : signed n x * signed m y = signed (xorb n m) (x * y).
Proof using Type. destruct n, m; simpl; lia. Qed.

Lemma diamond_bignum_multiply_computes left right :
  view_canonical left -> view_canonical right ->
  computes (diamond_bignum_multiply (S:=S) left right) (view_value left * view_value right).
Proof using Type.
  intros Hl Hr. apply computes_malloc; [|apply may_return_nil]. simpl.
  destruct (magnitude_multiply_spec _ _ (proj1 Hl) (proj1 Hr)) as (r & E & Hc & Hv & _).
  apply (computes_lift _ r); [done|]. unfold view_value.
  rewrite signed_mul, <- Hv. by apply bignum_canonicalize_computes.
Qed.

(** Dividing magnitudes: the continuation of [magnitude_divide]. *)
Lemma computes_magnitude_divide a b (k : option (list Z * list Z) -> VM S DiamondValue) z :
  canonical a -> canonical b -> 0 < value_of b ->
  (forall q r, canonical q -> canonical r ->
     value_of q = value_of a / value_of b -> value_of r = value_of a mod value_of b ->
     computes (k (Some (q, r))) z) ->
  may_return (k None) z ->
  computes (vm_bind (magnitude_divide a b) k) z.
Proof using Type.
  intros Ha Hb Hpos HS HN.
  destruct (magnitude_divide_spec b Hb Hpos a (proj1 Ha)) as (q & r & E & Hq & Hr & _ & Vq & Vr).
  destruct (HS q r Hq Hr Vq Vr) as [M W].
  assert (Hrun : forall s, vm_bind (magnitude_divide a b) k s =
    let '(ok, s') := malloc (limbs_bytes (length b + 1)) s in
    if ok then k (Some (q, r)) s' else k None s').
  { intros s. unfold magnitude_divide, vm_bind, vm_malloc, vm_lift, vm_ret.
    destruct (malloc _ s) as [[] s']; simpl; [by rewrite E|done]. }
  split; [|intros plenty HP]; intros s; [|intros Hs]; rewrite Hrun.
  - destruct (malloc _ s) as [[] s']; [apply M|apply HN].
  - destruct (plenty_malloc (limbs_bytes (length b + 1)) s Hs) as [Em Hs'].
    destruct (malloc _ s) as [ok s']. simpl in *. subst ok. by apply W.
Qed.

Lemma canonical_one : canonical [1].
Proof using Type.
  split; [apply in_base_cons; split; [base_lia|constructor]|]. done.
Qed.

(** A canonical magnitude is trimmed to nothing exactly when it is zero. *)
Lemma magnitude_trim_zero l :
  canonical l -> (magnitude_trim l (length l) =? 0)%nat = (value_of l =? 0).
Proof using Type.
  intros Hl. pose proof (trim_limbs_canonical l Hl) as E. unfold trim_limbs in E.
  apply (f_equal length) in E. rewrite length_take in E.
  pose proof (magnitude_trim_le l (length l)).
  destruct (Z.eqb_spec (value_of l) 0) as [E0|N0].
  - rewrite (trimmed_zero BASE_gt_1 l (proj1 Hl) (proj2 Hl) E0). done.
  - destruct l; [done|]. apply Nat.eqb_neq. simpl length in *. lia.
Qed.

Lemma view_nonzero v : view_canonical v -> view_value v <> 0 -> 0 < value_of (view_limbs v).
Proof using Type.
  intros Hv Hne. pose proof (value_nonneg _ Hv). unfold view_value, signed in Hne.
  destruct (view_negative v); lia.
Qed.

(** Floored division from the truncated quotient of magnitudes. *)
Lemma floored_divide_signs n m x y :
  0 <= x -> 0 < y ->
  signed n x / signed m y =
  signed (xorb n m) (x / y + (if xorb n m && negb (x mod y =? 0) then 1 else 0)).
Proof using Type.
  intros Hx Hy. pose proof (Z.div_mod x y ltac:(lia)).
  pose proof (Z.mod_pos_bound x y Hy).
  destruct n, m; simpl.
  - rewrite Z.div_opp_opp by lia. lia.
  - destruct (Z.eqb_spec (x mod y) 0) as [E|E]; simpl.
    + rewrite Z.div_opp_l_z by lia. lia.
    + rewrite Z.div_opp_l_nz by lia. lia.
  - destruct (Z.eqb_spec (x mod y) 0) as [E|E]; simpl.
    + rewrite Z.div_opp_r_z by lia. lia.
    + rewrite Z.div_opp_r_nz by lia. lia.
  - lia.
Qed.

Lemma floored_modulo_signs n m x y :
  0 <= x -> 0 < y ->
  signed n x mod signed m y =
  signed m (if x mod y =? 0 then 0 else if eqb n m then x mod y else y - x mod y).
Proof using Type.
  intros Hx Hy. pose proof (Z.mod_pos_bound x y Hy).
  destruct n, m; simpl; destruct (Z.eqb_spec (x mod y) 0) as [E|E].
  - rewrite Z.mod_opp_opp by lia. lia.
  - rewrite Z.mod_opp_opp by lia. lia.
  - rewrite Z.mod_opp_l_z by lia. lia.
  - rewrite Z.mod_opp_l_nz by lia. lia.
  - rewrite Z.mod_opp_r_z by lia. lia.
  - rewrite Z.mod_opp_r_nz by lia. lia.
  - lia.
  - lia.
Qed.

Lemma diamond_bignum_divide_floored_computes left right :
  view_canonical left -> view_canonical right -> view_value right <> 0 ->
  computes (diamond_bignum_divide_floored (S:=S) left right)
    (view_value left / view_value right).
Proof using Type.
  intros Hl Hr Hne. pose proof (view_nonzero _ Hr Hne) as Hpos.
  unfold diamond_bignum_divide_floored.
  apply computes_malloc; [|apply may_return_malloc; intros []; apply may_return_nil].
  apply computes_malloc; [|apply may_return_nil]. simpl.
  apply computes_magnitude_divide; [done|done|done| |apply may_return_nil].
  intros q r Hq Hrem Vq Vr. rewrite magnitude_trim_zero, Vr by done.
  unfold view_value. rewrite floored_divide_signs by (try apply value_nonneg; done).
  destruct (xorb _ _ && negb _).
  - destruct (magnitude_add_spec q [1] (proj1 Hq) (proj1 canonical_one)) as (H1 & H2 & _ & H4).
    replace (_ / _ + 1) with (value_of (magnitude_add q [1])) by (rewrite H2, Vq; simpl; lia).
    apply bignum_canonicalize_computes. split; [done|]. apply H4; [apply Hq|apply canonical_one].
  - rewrite Z.add_0_r, <- Vq. by apply bignum_canonicalize_computes.
Qed.

Lemma diamond_bignum_modulo_floored_computes left right :
  view_canonical left -> view_canonical right -> view_value right <> 0 ->
  computes (diamond_bignum_modulo_floored (S:=S) left right)
    (view_value left mod view_value right).
Proof using Type.
  intros Hl Hr Hne. pose proof (view_nonzero _ Hr Hne) as Hpos.
  unfold diamond_bignum_modulo_floored.
  apply computes_malloc;
    [|repeat (apply may_return_malloc; intros []); apply may_return_nil].
  apply computes_malloc; [|apply may_return_malloc; intros []; apply may_return_nil].
  apply computes_malloc; [|apply may_return_nil]. simpl.
  apply computes_magnitude_divide; [done|done|done| |apply may_return_nil].
  intros q r Hq Hrem Vq Vr.
  change (take (magnitude_trim r (length r)) r) with (trim_limbs r).
  rewrite trim_limbs_canonical by done.
  unfold view_value. rewrite floored_modulo_signs by (try apply value_nonneg; done).
  rewrite <- Vr.
  destruct (Nat.eqb_spec (length r) 0) as [E|E].
  - destruct r; [|done]. simpl. apply computes_ret. split; [simpl; base_lia|].
    by destruct (view_negative right).
  - destruct (Z.eqb_spec (value_of r) 0) as [E0|N0].
    { rewrite (trimmed_zero BASE_gt_1 r (proj1 Hrem) (proj2 Hrem) E0) in E. done. }
    destruct (eqb _ _).
    + by apply bignum_canonicalize_computes.
    + pose proof (Z.mod_pos_bound (value_of (view_limbs left)) _ Hpos).
      destruct (magnitude_subtract_spec (view_limbs right) r (proj1 Hr) Hrem ltac:(lia))
        as (H1 & H2 & _).
      rewrite <- H2. by apply bignum_canonicalize_computes.
Qed.

End Arithmetic.
