(* ===== verification/BignumBits.v ===== *)
(** * BignumBits: bitwise operators and shifts of src/bignum.c

    The limbs are converted to little-endian base-2^32 words, combined, and
    converted back.  Negative operands follow infinite two's complement, so the
    specification of each operator is the [Z] operator of the same name. *)

From S2P Require Import Prelude Digits Magnitude Value Bignum.
From Stdlib Require Import ZArith Lia Bool List.
From stdpp Require Import base numbers list.

Local Open Scope Z_scope.
Local Open Scope c_scope.

(** The loop of [magnitude_divide_word]: the quotient limbs and the remainder
    of a division by 2^32, most significant limb first. *)
Fixpoint magnitude_divide_word_loop (limbs : list Z) : list Z * Z :=
  match limbs with
  | [] => ([], 0)
  | x :: rest =>
      let '(q, remainder) := magnitude_divide_word_loop rest in
      let current := to_u64 (to_u64 (remainder * BASE) + x) in
      (to_u32 (Z.shiftr current 32) :: q, Z.land current 4294967295)
  end.

Definition magnitude_divide_word (limbs : list Z) : list Z * Z :=
  let '(q, remainder) := magnitude_divide_word_loop limbs in
  (trim_limbs q, to_u32 remainder).

(** [while (remaining > 0) words[produced++] = magnitude_divide_word(...)] with
    [room] words left in the buffer. *)
Fixpoint magnitude_to_words_loop (room : nat) (scratch : list Z) : option (list Z) :=
  if (length scratch =? 0)%nat then Some [] else
  match room with
  | O => None
  | S r =>
      let '(q, word) := magnitude_divide_word scratch in
      let? rest := magnitude_to_words_loop r q in
      Some (word :: rest)
  end.

Definition words_capacity (count : nat) : nat := ((count * 30 + 31) / 32 + 2)%nat.

(** Replaces [limbs], in a buffer of [capacity] limbs, with
    [limbs * scalar + addend]. *)
Fixpoint magnitude_multiply_add_loop (limbs : list Z) (scalar carry : Z) : list Z * Z :=
  match limbs with
  | [] => ([], carry)
  | x :: rest =>
      let product := to_u64 (to_u64 (x * scalar) + carry) in
      let '(r, c) := magnitude_multiply_add_loop rest scalar (product / BASE) in
      (to_u32 (product mod BASE) :: r, c)
  end.

Definition magnitude_multiply_add (capacity : nat) (limbs : list Z) (scalar addend : Z)
    : option (list Z) :=
  let '(r, carry) := magnitude_multiply_add_loop limbs scalar addend in
  let? more := store_limbs (capacity - length r) carry in
  Some (r ++ more).

(** The carry loop of [words_to_value]; [room] limbs from [index] on. *)
Fixpoint words_add_carry (room : nat) (limbs : list Z) (carry : Z) : option (list Z) :=
  if carry <=? 0 then Some limbs else
  match room with
  | O => None
  | S r =>
      let '(x, tl) := match limbs with [] => (0, []) | x :: tl => (x, tl) end in
      let sum := to_u64 (x + carry) in
      let? rest := words_add_carry r tl (sum / BASE) in
      Some (to_u32 (sum mod BASE) :: rest)
  end.

(** One word of [words_to_value]: [limbs * 2^32 + word]. *)
Definition words_push (capacity : nat) (limbs : list Z) (word : Z) : option (list Z) :=
  let? l1 := magnitude_multiply_add capacity limbs 65536 0 in
  let? l2 := magnitude_multiply_add capacity l1 65536 0 in
  words_add_carry capacity l2 word.

(** All words, most significant first. *)
Fixpoint words_to_limbs (capacity : nat) (words : list Z) : option (list Z) :=
  match words with
  | [] => Some []
  | w :: rest =>
      let? limbs := words_to_limbs capacity rest in
      words_push capacity limbs w
  end.

(** [out[i] = ~out[i] + carry], starting from a carry of one. *)
Fixpoint twos_complement_negate (words : list Z) (carry : Z) : list Z :=
  match words with
  | [] => []
  | w :: rest =>
      let sum := to_u64 (to_u32 (Z.lnot w) + carry) in
      to_u32 sum :: twos_complement_negate rest (Z.shiftr sum 32)
  end.

Definition view_word_count (view : DiamondIntView) : nat :=
  words_capacity (length (view_limbs view)).

Inductive DiamondBignumBitwiseOp :=
  | DIAMOND_BIGNUM_BITWISE_AND
  | DIAMOND_BIGNUM_BITWISE_OR
  | DIAMOND_BIGNUM_BITWISE_XOR.

Definition bitwise_word (op : DiamondBignumBitwiseOp) (x y : Z) : Z :=
  match op with
  | DIAMOND_BIGNUM_BITWISE_AND => Z.land x y
  | DIAMOND_BIGNUM_BITWISE_OR => Z.lor x y
  | DIAMOND_BIGNUM_BITWISE_XOR => Z.lxor x y
  end.

(** [for i: shifted[i + whole] |= spread; shifted[i + whole + 1] |= spread >> 32]. *)
Fixpoint shift_left_loop (words : list Z) (k : nat) (part : Z) (shifted : list Z)
    : option (list Z) :=
  match words with
  | [] => Some shifted
  | w :: rest =>
      let spread := to_u64 (Z.shiftl w part) in
      let? lo := array_read shifted k in
      let? shifted1 := array_write shifted k (Z.lor lo (to_u32 spread)) in
      let? hi := array_read shifted1 (S k) in
      let? shifted2 := array_write shifted1 (S k) (Z.lor hi (to_u32 (Z.shiftr spread 32))) in
      shift_left_loop rest (S k) part shifted2
  end.

(** [lost |= words[i] != 0] for [i < whole]. *)
Definition words_lost (words : list Z) (whole : nat) : bool :=
  existsb (fun w => negb (w =? 0)) (take whole words).

(** [result[count++] = words[i] >> part | words[i + 1] << (32 - part)]. *)
Fixpoint shift_right_loop (words : list Z) (part : Z) : list Z :=
  match words with
  | [] => []
  | w :: rest =>
      let current := Z.shiftr w part in
      let current :=
        match rest with
        | next :: _ =>
            if negb (part =? 0)
            then Z.lor current
                   (Z.land (to_u64 (Z.shiftl next (32 - part))) 4294967295)
            else current
        | [] => current
        end in
      to_u32 current :: shift_right_loop rest part
  end.

(** [if (++result[index] != 0) break], storing a final 1 when all overflow. *)
Fixpoint words_increment (words : list Z) : list Z :=
  match words with
  | [] => [1]
  | w :: rest =>
      let w' := to_u32 (w + 1) in
      if w' =? 0 then w' :: words_increment rest else w' :: rest
  end.

Section Operations.

Context {S : Type} `{!VmHeap S}.

(** [None] is the C function's [SIZE_MAX]. *)
Definition magnitude_to_words (limbs : list Z) : VM S (option (list Z)) :=
  let count := length limbs in
  let! words_ok := vm_malloc (limbs_bytes (words_capacity count)) in
  let! scratch_ok := vm_malloc (limbs_bytes (if (count =? 0)%nat then 1 else count)) in
  if negb words_ok || negb scratch_ok then vm_ret None else
  let! words :=
    vm_lift (magnitude_to_words_loop (words_capacity count) (trim_limbs limbs)) in
  vm_ret (Some words).

Definition words_to_value (negative : bool) (words : list Z) : VM S DiamondValue :=
  let words := trim_limbs words in
  let word_count := length words in
  if (word_count =? 0)%nat then vm_ret (DIAMOND_INT 0) else
  let capacity := (word_count * 2 + 3)%nat in
  let! ok := vm_malloc (limbs_bytes capacity) in
  if negb ok then vm_ret DIAMOND_NIL else
  let! limbs := vm_lift (words_to_limbs capacity words) in
  bignum_canonicalize negative (trim_limbs limbs).

(** [None] is the C function's [false]. *)
Definition value_to_twos_complement (view : DiamondIntView) (width : nat)
    : VM S (option (list Z)) :=
  let! words := magnitude_to_words (view_limbs view) in
  match words with
  | None => vm_ret None
  | Some words =>
      let out := take width words ++ replicate (width - length words) 0 in
      vm_ret (Some (if view_negative view then twos_complement_negate out 1 else out))
  end.

Definition diamond_bignum_bitwise (op : DiamondBignumBitwiseOp)
    (left right : DiamondIntView) : VM S DiamondValue :=
  let width := Nat.max (view_word_count left) (view_word_count right) in
  let! a_ok := vm_malloc (limbs_bytes width) in
  let! b_ok := vm_malloc (limbs_bytes width) in
  if negb a_ok || negb b_ok then vm_ret DIAMOND_NIL else
  let! a := value_to_twos_complement left width in
  match a with
  | None => vm_ret DIAMOND_NIL
  | Some a =>
      let! b := value_to_twos_complement right width in
      match b with
      | None => vm_ret DIAMOND_NIL
      | Some b =>
          let r := zip_with (bitwise_word op) a b in
          let negative := negb (Z.land (nth (width - 1) r 0) 2147483648 =? 0) in
          words_to_value negative (if negative then twos_complement_negate r 1 else r)
      end
  end.

Definition diamond_bignum_shift_left (value : DiamondIntView) (bits : Z) : VM S DiamondValue :=
  let! words := magnitude_to_words (view_limbs value) in
  match words with
  | None => vm_ret DIAMOND_NIL
  | Some words =>
      let used := length words in
      if (used =? 0)%nat then vm_ret (DIAMOND_INT 0) else
      let whole := Z.to_nat (bits / 32) in
      let part := bits mod 32 in
      let width := (used + whole + 2)%nat in
      let! ok := vm_malloc (limbs_bytes width) in
      if negb ok then vm_ret DIAMOND_NIL else
      let! shifted := vm_lift (shift_left_loop words whole part (replicate width 0)) in
      words_to_value (view_negative value) shifted
  end.

Definition diamond_bignum_shift_right (value : DiamondIntView) (bits : Z) : VM S DiamondValue :=
  let! words := magnitude_to_words (view_limbs value) in
  match words with
  | None => vm_ret DIAMOND_NIL
  | Some words =>
      let used := length words in
      if (used =? 0)%nat then vm_ret (DIAMOND_INT 0) else
      let whole := if bits / 32 >? Z.of_nat used then used else Z.to_nat (bits / 32) in
      let part := bits mod 32 in
      let lost := words_lost words whole in
      let lost :=
        if (whole <? used)%nat && negb (part =? 0)
        then lost || negb (Z.land (nth whole words 0) (Z.shiftl 1 part - 1) =? 0)
        else lost in
      let! ok := vm_malloc (limbs_bytes (used + 1)) in
      if negb ok then vm_ret DIAMOND_NIL else
      let result := shift_right_loop (drop whole words) part in
      let result := if view_negative value && lost then words_increment result else result in
      words_to_value (view_negative value) result
  end.

End Operations.

(** ** Conversion to and from base-2^32 words *)

Abbreviation words_ok := (in_base two_32).
Abbreviation words_value := (eval two_32).

Lemma two_32_gt_1 : 1 < two_32.
Proof. done. Qed.

Lemma land_u32_mask z : Z.land z 4294967295 = z mod two_32.
Proof. change 4294967295 with (Z.ones 32). apply Z.land_ones. lia. Qed.

Lemma shiftr_32 z : Z.shiftr z 32 = z / two_32.
Proof. apply Z.shiftr_div_pow2. lia. Qed.

Lemma magnitude_divide_word_loop_spec l :
  limbs_ok l ->
  let '(q, r) := magnitude_divide_word_loop l in
  limbs_ok q /\ 0 <= r < two_32 /\ length q = length l /\
  value_of l = two_32 * value_of q + r.
Proof.
  induction 1 as [|x l Hx Hl IH]; cbn [magnitude_divide_word_loop].
  - split; [constructor|]. split; [done|]. done.
  - destruct (magnitude_divide_word_loop l) as [q r]. destruct IH as (Hq & Hr & Lq & Hv).
    rewrite (to_u64_small (r * BASE)) by base_lia.
    rewrite (to_u64_small (r * BASE + x)) by base_lia.
    rewrite land_u32_mask, shiftr_32.
    set (c := r * BASE + x) in *.
    pose proof (Z.mod_pos_bound c two_32 ltac:(done)).
    pose proof (Z.div_mod c two_32 ltac:(done)).
    assert (0 <= c / two_32 < BASE).
    { split; [apply Z.div_pos; [unfold c; base_lia|done]|].
      apply Z.div_lt_upper_bound; [done|]. unfold c. base_lia. }
    rewrite to_u32_small by base_lia.
    split; [by apply in_base_cons|]. split; [done|]. split; [simpl; lia|].
    cbn [eval]. rewrite Hv. unfold c in *. lia.
Qed.

Lemma magnitude_divide_word_spec l :
  limbs_ok l ->
  let '(q, w) := magnitude_divide_word l in
  canonical q /\ 0 <= w < two_32 /\ value_of l = two_32 * value_of q + w.
Proof.
  intros Hl. unfold magnitude_divide_word.
  pose proof (magnitude_divide_word_loop_spec l Hl) as H.
  destruct (magnitude_divide_word_loop l) as [q r]. destruct H as (Hq & Hr & _ & Hv).
  destruct (trim_limbs_spec q Hq) as (Hc & Hv' & _).
  rewrite to_u32_small by done. split; [done|]. split; [done|]. lia.
Qed.

Lemma magnitude_to_words_loop_spec room l :
  canonical l -> value_of l < two_32 ^ Z.of_nat room ->
  exists ws, magnitude_to_words_loop room l = Some ws /\ words_ok ws /\ trimmed ws /\
    words_value ws = value_of l /\ (length ws <= room)%nat.
Proof.
  revert l. induction room as [|n IH]; intros l Hc Hv; cbn [magnitude_to_words_loop].
  - simpl in Hv. pose proof (value_nonneg _ Hc).
    rewrite (trimmed_zero BASE_gt_1 l (proj1 Hc) (proj2 Hc) ltac:(lia)).
    exists []. repeat split; try constructor; done.
  - destruct (Nat.eqb_spec (length l) 0) as [E|E].
    { destruct l; [|done]. exists []. repeat split; try constructor; simpl; done || lia. }
    pose proof (magnitude_divide_word_spec l (proj1 Hc)) as H.
    destruct (magnitude_divide_word l) as [q w]. destruct H as (Hq & Hw & Heq).
    rewrite pow_S in Hv.
    destruct (IH q Hq) as (ws & E' & Hws & Ht & Hv' & Hlen).
    { pose proof (value_nonneg _ Hq). nia. }
    rewrite E'. exists (w :: ws).
    assert (Hval : words_value (w :: ws) = value_of l) by (cbn [eval]; lia).
    split; [done|]. split; [by apply in_base_cons|]. split; [|split; [done|simpl; lia]].
    destruct ws as [|w' ws]; [|done]. cbn [eval] in Hval. intros [= ->].
    apply E. rewrite (trimmed_zero BASE_gt_1 l (proj1 Hc) (proj2 Hc) ltac:(lia)). done.
Qed.

(** A limb holds less than 30 bits, so [words_capacity] words are enough. *)
Lemma words_capacity_bound l :
  limbs_ok l -> 2 * value_of l < 2 ^ (32 * Z.of_nat (words_capacity (length l)) - 32).
Proof.
  intros Hl. pose proof (eval_bounds BASE_gt_1 _ Hl) as Hb.
  set (n := length l) in *.
  assert (HB : BASE ^ Z.of_nat n <= 2 ^ (30 * Z.of_nat n)).
  { rewrite Z.pow_mul_r by lia. apply Z.pow_le_mono_l. done. }
  assert (2 ^ (30 * Z.of_nat n + 1) <= 2 ^ (32 * Z.of_nat (words_capacity n) - 32)).
  { apply Z.pow_le_mono_r; [lia|]. unfold words_capacity.
    rewrite Nat2Z.inj_add, Nat2Z.inj_div, Nat2Z.inj_add, Nat2Z.inj_mul. divmod_lia. }
  rewrite Z.pow_add_r in * by lia. lia.
Qed.

Lemma two_32_pow n : two_32 ^ Z.of_nat n = 2 ^ (32 * Z.of_nat n).
Proof. rewrite Z.pow_mul_r by lia. done. Qed.

(** The word conversion of a canonical magnitude. *)
Lemma magnitude_to_words_limbs l :
  canonical l ->
  exists ws, magnitude_to_words_loop (words_capacity (length l)) (trim_limbs l) = Some ws /\
    words_ok ws /\ trimmed ws /\ words_value ws = value_of l /\
    (length ws <= words_capacity (length l))%nat.
Proof.
  intros Hc. rewrite trim_limbs_canonical by done. apply magnitude_to_words_loop_spec; [done|].
  pose proof (words_capacity_bound l (proj1 Hc)). pose proof (value_nonneg _ Hc).
  rewrite two_32_pow.
  assert (2 ^ (32 * Z.of_nat (words_capacity (length l)) - 32) <=
          2 ^ (32 * Z.of_nat (words_capacity (length l)))).
  { apply Z.pow_le_mono_r; lia. }
  lia.
Qed.

Lemma magnitude_multiply_add_loop_spec l s carry :
  limbs_ok l -> 0 <= s < two_32 -> 0 <= carry < two_32 ->
  let '(r, c) := magnitude_multiply_add_loop l s carry in
  limbs_ok r /\ length r = length l /\ 0 <= c < two_64 /\
  value_of r + BASE ^ Z.of_nat (length l) * c = s * value_of l + carry.
Proof.
  intros Hl Hs. revert carry. induction Hl as [|x l Hx Hl IH]; intros carry Hc.
  - simpl. split; [constructor|]. base_lia.
  - cbn [magnitude_multiply_add_loop length].
    assert (Hp : 0 <= x * s <= (BASE - 1) * (two_32 - 1)) by nia.
    rewrite (to_u64_small (x * s)) by base_lia.
    rewrite (to_u64_small (x * s + carry)) by base_lia.
    set (p := x * s + carry) in *.
    assert (Hq : 0 <= p / BASE < two_32).
    { split; [apply Z.div_pos; [lia|done]|]. apply Z.div_lt_upper_bound; [done|].
      unfold p. base_lia. }
    specialize (IH _ Hq). destruct (magnitude_multiply_add_loop l s (p / BASE)) as [r c].
    destruct IH as (Hr & Lr & Hc' & Hv).
    rewrite u32_of_mod_base, pow_S. cbn [length eval].
    split; [apply in_base_cons; split; [apply Z.mod_pos_bound; done|done]|].
    split; [lia|]. split; [done|].
    pose proof (Z.div_mod p BASE ltac:(done)). unfold p in *. nia.
Qed.

(** [magnitude_multiply_add] stays in its buffer whenever the result fits it. *)
Lemma magnitude_multiply_add_spec capacity l s addend :
  canonical l -> 0 < s < two_32 -> 0 <= addend < two_32 ->
  s * value_of l + addend < BASE ^ Z.of_nat capacity ->
  exists r, magnitude_multiply_add capacity l s addend = Some r /\
    canonical r /\ value_of r = s * value_of l + addend.
Proof.
  intros Hc Hs Ha Hb. unfold magnitude_multiply_add.
  pose proof (magnitude_multiply_add_loop_spec l s addend (proj1 Hc) ltac:(lia) Ha) as H.
  destruct (magnitude_multiply_add_loop l s addend) as [r c].
  destruct H as (Hr & Lr & Hc' & Hv).
  pose proof (eval_bounds BASE_gt_1 _ Hr) as Hrb. pose proof (value_nonneg _ Hc) as Hl0.
  assert (Hlen : (length l <= capacity)%nat).
  { apply (trimmed_length_lt BASE_gt_1); [apply Hc|apply Hc|nia]. }
  assert (Hcb : 0 <= c < BASE ^ Z.of_nat (capacity - length l)).
  { split; [lia|]. pose proof (base_pow_pos BASE_gt_1 (length l)).
    replace capacity with (length l + (capacity - length l))%nat in Hb by lia.
    rewrite pow_add_nat in Hb. nia. }
  rewrite Lr. destruct (store_limbs_spec _ c Hcb) as (m & E & Hm & Vm & _). rewrite E.
  exists (r ++ m). split; [done|].
  assert (Hval : value_of (r ++ m) = s * value_of l + addend)
    by (rewrite eval_app, Lr by done; lia).
  assert (Hok : limbs_ok (r ++ m)) by (apply in_base_app; split; [done|apply Hm]).
  split; [|done]. split; [done|]. apply (trimmed_of_bound BASE_gt_1); [done|].
  rewrite Hval, length_app, Lr. destruct m as [|x m].
  - rewrite Nat.add_0_r. destruct l as [|y l].
    + simpl. lia.
    + pose proof (trimmed_pos BASE_gt_1 _ (proj1 Hc) (proj2 Hc) ltac:(done)).
      pose proof (Z.mul_le_mono_nonneg_r 1 s _ Hl0 ltac:(lia)). lia.
  - pose proof (trimmed_pos BASE_gt_1 _ (proj1 Hm) (proj2 Hm) ltac:(done)) as Hp.
    rewrite Vm in Hp.
    replace (Z.of_nat (length l + length (x :: m)) - 1)
      with (Z.of_nat (length l) + (Z.of_nat (length (x :: m)) - 1)) by lia.
    rewrite Z.pow_add_r by (cbn [length]; lia).
    pose proof (base_pow_pos BASE_gt_1 (length l)).
    pose proof (Z.mul_le_mono_nonneg_l _ _ (BASE ^ Z.of_nat (length l)) ltac:(lia) Hp). lia.
Qed.

Lemma words_add_carry_spec room l carry :
  canonical l -> 0 <= carry < two_64 - BASE ->
  value_of l + carry < BASE ^ Z.of_nat room ->
  exists r, words_add_carry room l carry = Some r /\
    canonical r /\ value_of r = value_of l + carry.
Proof.
  revert l carry. induction room as [|n IH]; intros l carry Hc Hca Hb;
    cbn [words_add_carry]; destruct (Z.leb_spec carry 0) as [H0|H0].
  - exists l. repeat split; try apply Hc; lia.
  - pose proof (value_nonneg _ Hc). simpl in Hb. lia.
  - exists l. repeat split; try apply Hc; lia.
  - assert (Hx : exists x tl, match l with [] => (0, []) | x :: tl => (x, tl) end = (x, tl) /\
      0 <= x < BASE /\ canonical tl /\ value_of l = x + BASE * value_of tl).
    { destruct l as [|x tl].
      - exists 0, []. repeat split; try constructor; simpl; done || base_lia.
      - exists x, tl. destruct Hc as [Hl Ht]. apply in_base_cons in Hl as [Hx Hl].
        repeat split; try done; try lia. by apply (trimmed_cons_inv x). }
    destruct Hx as (x & tl & -> & Hx & Htl & Hv). cbv beta iota.
    rewrite (to_u64_small (x + carry)) by base_lia. rewrite u32_of_mod_base.
    pose proof (Z.div_mod (x + carry) BASE ltac:(done)).
    pose proof (Z.mod_pos_bound (x + carry) BASE ltac:(done)).
    rewrite pow_S in Hb.
    destruct (IH tl ((x + carry) / BASE) Htl) as (r & E & Hr & Vr).
    + split; [apply Z.div_pos; [lia|done]|]. apply Z.div_lt_upper_bound; [done|]. base_lia.
    + nia.
    + rewrite E. eexists. split; [done|].
      assert (value_of ((x + carry) mod BASE :: r) = value_of l + carry) as Hval
        by (cbn [eval]; lia).
      pose proof (value_nonneg _ Hc).
      split; [|done]. apply canonical_cons; [lia|done|lia].
Qed.

(** Pushing words on the limbs, from the most significant one down. *)
Lemma words_to_limbs_spec capacity ws :
  words_ok ws -> (length ws * 2 <= capacity)%nat ->
  exists l, words_to_limbs capacity ws = Some l /\ canonical l /\
    value_of l = words_value ws.
Proof.
  intros Hw. induction Hw as [|w ws Hx Hws IH]; intros Hcap; cbn [words_to_limbs].
  - exists []. repeat split; try constructor; done.
  - cbn [length] in Hcap. destruct (IH ltac:(lia)) as (l & E & Hl & Hv). rewrite E.
    pose proof (eval_bounds two_32_gt_1 _ Hws) as Hb. rewrite <- Hv in Hb.
    assert (Hfit : two_32 * value_of l + w < BASE ^ Z.of_nat capacity).
    { assert (two_32 * value_of l + w < two_32 ^ Z.of_nat (S (length ws))) by (rewrite pow_S; base_lia).
      assert (two_32 ^ Z.of_nat (S (length ws)) <= (BASE ^ 2) ^ Z.of_nat (S (length ws)))
        by (apply Z.pow_le_mono_l; done).
      rewrite <- Z.pow_mul_r in * by lia.
      assert (BASE ^ (2 * Z.of_nat (S (length ws))) <= BASE ^ Z.of_nat capacity)
        by (apply Z.pow_le_mono_r; [done|lia]).
      lia. }
    unfold words_push.
    destruct (magnitude_multiply_add_spec capacity l 65536 0 Hl) as (l1 & E1 & Hl1 & V1);
      [done|done|base_lia|]. rewrite E1.
    destruct (magnitude_multiply_add_spec capacity l1 65536 0 Hl1) as (l2 & E2 & Hl2 & V2);
      [done|done|base_lia|]. rewrite E2.
    destruct (words_add_carry_spec capacity l2 w Hl2) as (l3 & E3 & Hl3 & V3);
      [base_lia|base_lia|].
    exists l3. split; [done|]. split; [done|]. cbn [eval]. base_lia.
Qed.

(** ** Infinite two's complement *)

Lemma to_u32_lnot w : 0 <= w < two_32 -> to_u32 (Z.lnot w) = two_32 - 1 - w.
Proof.
  intros Hw. unfold to_u32, Z.lnot.
  symmetry. apply (Z.mod_unique _ _ (-1)); lia.
Qed.

Lemma twos_complement_negate_carry ws carry :
  words_ok ws -> 0 <= carry <= 1 ->
  let r := twos_complement_negate ws carry in
  words_ok r /\ length r = length ws /\
  exists c, 0 <= c <= 1 /\
    words_value r + two_32 ^ Z.of_nat (length ws) * c =
      two_32 ^ Z.of_nat (length ws) - 1 - words_value ws + carry.
Proof.
  intros Hw. revert carry. induction Hw as [|w ws Hx Hw IH]; intros carry Hc.
  - simpl. split; [constructor|]. split; [done|]. exists carry. lia.
  - cbn [twos_complement_negate length].
    rewrite to_u32_lnot by done. rewrite (to_u64_small (_ + carry)) by base_lia.
    rewrite shiftr_32. set (sum := two_32 - 1 - w + carry).
    pose proof (Z.div_mod sum two_32 ltac:(done)).
    pose proof (Z.mod_pos_bound sum two_32 ltac:(done)).
    assert (Hq : 0 <= sum / two_32 <= 1).
    { split; [apply Z.div_pos; [unfold sum; base_lia|done]|].
      assert (sum / two_32 < 2); [|lia].
      apply Z.div_lt_upper_bound; [done|]. unfold sum. base_lia. }
    destruct (IH _ Hq) as (Hr & Lr & c & Hc' & Hv).
    unfold to_u32 at 1 2. cbn [length eval].
    split; [by apply in_base_cons|]. split; [by rewrite Lr|].
    exists c. split; [done|]. rewrite !pow_S. unfold sum in *.
    set (P := two_32 ^ Z.of_nat (length ws)) in *.
    set (R := words_value (twos_complement_negate ws _)) in *.
    replace (_ + two_32 * R + two_32 * P * c) with
      ((two_32 - 1 - w + carry) mod two_32 + two_32 * (R + P * c)) by ring.
    rewrite Hv. lia.
Qed.

(** Negating [n] words negates the value modulo [2^(32n)]. *)
Lemma twos_complement_negate_spec ws :
  words_ok ws ->
  let r := twos_complement_negate ws 1 in
  words_ok r /\ length r = length ws /\
  words_value r = (- words_value ws) mod two_32 ^ Z.of_nat (length ws).
Proof.
  intros Hw. destruct (twos_complement_negate_carry ws 1 Hw ltac:(lia))
    as (Hr & Lr & c & Hc & Hv).
  split; [done|]. split; [done|].
  pose proof (eval_bounds two_32_gt_1 _ Hr) as Hb. rewrite Lr in Hb.
  apply (Z.mod_unique _ _ (c - 1)); [lia|]. lia.
Qed.

Section BitwiseOperator.

Context (op : DiamondBignumBitwiseOp).

Definition bit_function (x y : bool) : bool :=
  match op with
  | DIAMOND_BIGNUM_BITWISE_AND => x && y
  | DIAMOND_BIGNUM_BITWISE_OR => x || y
  | DIAMOND_BIGNUM_BITWISE_XOR => xorb x y
  end.

Lemma bitwise_testbit x y n :
  Z.testbit (bitwise_word op x y) n = bit_function (Z.testbit x n) (Z.testbit y n).
Proof using Type.
  unfold bitwise_word, bit_function. destruct op.
  - apply Z.land_spec.
  - apply Z.lor_spec.
  - apply Z.lxor_spec.
Qed.

Lemma bit_function_false : bit_function false false = false.
Proof using Type. unfold bit_function. by destruct op. Qed.

Lemma bitwise_mod_pow2 x y n :
  0 <= n ->
  bitwise_word op (x mod 2 ^ n) (y mod 2 ^ n) = bitwise_word op x y mod 2 ^ n.
Proof using Type.
  intros Hn. apply Z.bits_inj'. intros i Hi. rewrite bitwise_testbit.
  destruct (Z.lt_ge_cases i n).
  - rewrite !Z.mod_pow2_bits_low by lia. by rewrite bitwise_testbit.
  - rewrite !Z.mod_pow2_bits_high by lia. apply bit_function_false.
Qed.

Lemma bitwise_div_pow2 x y n :
  0 <= n ->
  bitwise_word op x y / 2 ^ n = bitwise_word op (x / 2 ^ n) (y / 2 ^ n).
Proof using Type.
  intros Hn. rewrite <- !Z.shiftr_div_pow2 by done. unfold bitwise_word.
  destruct op; [apply Z.shiftr_land|apply Z.shiftr_lor|apply Z.shiftr_lxor].
Qed.

Lemma bitwise_cons x y X Y :
  0 <= x < two_32 -> 0 <= y < two_32 ->
  0 <= bitwise_word op x y < two_32 /\
  bitwise_word op (x + two_32 * X) (y + two_32 * Y) =
    bitwise_word op x y + two_32 * bitwise_word op X Y.
Proof using Type.
  intros Hx Hy. change two_32 with (2 ^ 32) in *.
  assert (Hm : forall a A, 0 <= a < 2 ^ 32 -> (a + 2 ^ 32 * A) mod 2 ^ 32 = a /\
                                     (a + 2 ^ 32 * A) / 2 ^ 32 = A).
  { intros a A Ha. split; symmetry.
    - apply (Z.mod_unique _ _ A); lia.
    - apply (Z.div_unique _ _ _ a); lia. }
  destruct (Hm x X Hx) as [Mx Dx]. destruct (Hm y Y Hy) as [My Dy].
  assert (E : bitwise_word op x y =
    bitwise_word op (x + 2 ^ 32 * X) (y + 2 ^ 32 * Y) mod 2 ^ 32).
  { rewrite <- bitwise_mod_pow2, Mx, My by lia. done. }
  split; [rewrite E; apply Z.mod_pos_bound; lia|].
  rewrite (Z.div_mod (bitwise_word op (x + _) (y + _)) (2 ^ 32)) by done.
  rewrite <- E, bitwise_div_pow2, Dx, Dy by lia. lia.
Qed.

Lemma bitwise_zip a b :
  words_ok a -> words_ok b -> length a = length b ->
  let r := zip_with (bitwise_word op) a b in
  words_ok r /\ length r = length a /\
  words_value r = bitwise_word op (words_value a) (words_value b).
Proof using Type.
  intros Ha. revert b. induction Ha as [|x a Hx Ha IH]; intros [|y b] Hb Hl; try done.
  - split; [constructor|]. split; [done|]. by destruct op.
  - apply in_base_cons in Hb as [Hy Hb]. injection Hl as Hl.
    destruct (IH b Hb Hl) as (Hr & Lr & Hv). simpl zip_with. cbn [eval length].
    destruct (bitwise_cons x y (words_value a) (words_value b) Hx Hy) as [Hz E].
    split; [by apply in_base_cons|]. split; [lia|]. rewrite E, Hv. done.
Qed.

(** A bitwise operator keeps its operands' two's-complement range. *)
Lemma bitwise_range x y n :
  0 <= n -> - 2 ^ n <= x < 2 ^ n -> - 2 ^ n <= y < 2 ^ n ->
  - 2 ^ n <= bitwise_word op x y < 2 ^ n.
Proof using Type.
  intros Hn Hx Hy. assert (Hp : 0 < 2 ^ n) by (apply Z.pow_pos_nonneg; lia).
  assert (Hd : forall z, - 2 ^ n <= z < 2 ^ n <-> z / 2 ^ n = 0 \/ z / 2 ^ n = -1).
  { intros z. pose proof (Z.div_mod z (2 ^ n) ltac:(lia)).
    pose proof (Z.mod_pos_bound z (2 ^ n) Hp). split; [|nia].
    intros Hz. assert (-1 <= z / 2 ^ n < 1); [|lia].
    split; [apply Z.div_le_lower_bound; lia|apply Z.div_lt_upper_bound; lia]. }
  rewrite Hd, bitwise_div_pow2 by done. apply Hd in Hx as [->| ->], Hy as [->| ->];
    destruct op; vm_compute; auto.
Qed.

End BitwiseOperator.

(** The sign test [a[width - 1] & 0x80000000]. *)
Lemma land_sign_bit t :
  0 <= t < two_32 -> negb (Z.land t 2147483648 =? 0) = (two_32 / 2 <=? t).
Proof.
  intros Ht. change (two_32 / 2) with (2 ^ 31). change 2147483648 with (2 ^ 31).
  destruct (Z.leb_spec (2 ^ 31) t) as [H|H].
  - apply negb_true_iff, Z.eqb_neq. intros E.
    assert (Z.testbit (Z.land t (2 ^ 31)) 31 = false) as B by (rewrite E; apply Z.bits_0).
    rewrite Z.land_spec, Z.pow2_bits_true, andb_true_r in B by lia.
    apply Z.testbit_false in B; [|lia]. change two_32 with (2 * 2 ^ 31) in Ht.
    assert (t / 2 ^ 31 = 1) as D by (symmetry; apply (Z.div_unique _ _ _ (t - 2 ^ 31)); lia).
    rewrite D in B. done.
  - apply negb_false_iff, Z.eqb_eq. apply Z.bits_inj_0. intros n.
    rewrite Z.land_spec. destruct (Z.eq_dec n 31) as [->|Hn].
    + rewrite <- (Z.mod_small t (2 ^ 31)) by lia.
      rewrite Z.mod_pow2_bits_high by lia. done.
    + rewrite (Z.pow2_bits_false 31 n) by lia. apply andb_false_r.
Qed.

(** ** The operators *)

Section Computes.

Context {S : Type} `{!VmHeap S}.

(** Two requests in a row, both needed. *)
Lemma computes_malloc2 n m (k : bool -> bool -> VM S DiamondValue) z :
  computes (k true true) z ->
  (forall b1 b2, b1 && b2 = false -> may_return (k b1 b2) z) ->
  computes (let! b1 := vm_malloc n in let! b2 := vm_malloc m in k b1 b2) z.
Proof using Type.
  intros H F. apply computes_malloc.
  - apply computes_malloc; [done|]. by apply F.
  - apply may_return_malloc. intros b. by apply F.
Qed.

Lemma computes_magnitude_to_words l (k : option (list Z) -> VM S DiamondValue) z :
  canonical l ->
  (forall ws, words_ok ws -> trimmed ws -> words_value ws = value_of l ->
     (length ws <= words_capacity (length l))%nat -> computes (k (Some ws)) z) ->
  may_return (k None) z ->
  computes (vm_bind (magnitude_to_words l) k) z.
Proof using Type.
  intros Hc HS HN.
  destruct (magnitude_to_words_limbs l Hc) as (ws & E & H1 & H2 & H3 & H4).
  destruct (HS ws H1 H2 H3 H4) as [M W].
  assert (Hrun : forall s, vm_bind (magnitude_to_words l) k s =
    (let! b1 := vm_malloc (limbs_bytes (words_capacity (length l))) in
     let! b2 := vm_malloc (limbs_bytes (if (length l =? 0)%nat then 1 else length l)) in
     (fun b1 b2 => if b1 && b2 then k (Some ws) else k None) b1 b2) s).
  { intros s. unfold magnitude_to_words, vm_bind, vm_malloc, vm_lift, vm_ret.
    destruct (malloc _ s) as [[] s1]; destruct (malloc _ s1) as [[] s2];
      simpl; try done. by rewrite E. }
  destruct (computes_malloc2 (limbs_bytes (words_capacity (length l)))
    (limbs_bytes (if (length l =? 0)%nat then 1 else length l))
    (fun b1 b2 => if b1 && b2 then k (Some ws) else k None) z) as [M2 W2].
  - split; done.
  - intros b1 b2 E2. rewrite E2. done.
  - split; [|intros plenty HP]; intros s; [|intros Hs]; rewrite Hrun.
    + apply M2.
    + by apply W2.
Qed.

Lemma words_to_value_computes negative ws :
  words_ok ws ->
  computes (words_to_value (S:=S) negative ws) (signed negative (words_value ws)).
Proof using Type.
  intros Hw. unfold words_to_value.
  destruct (trim_limbs_in_base two_32 ws two_32_gt_1 Hw) as (Ht & _ & Hv & _).
  rewrite <- Hv. set (t := trim_limbs ws) in *. clearbody t.
  destruct (Nat.eqb_spec (length t) 0) as [E|E].
  - destruct t; [|done]. apply computes_ret. split; [simpl; base_lia|].
    by destruct negative.
  - apply computes_malloc; [|apply may_return_nil]. simpl.
    destruct (words_to_limbs_spec (length t * 2 + 3) t Ht ltac:(lia)) as (l & El & Hl & Vl).
    apply (computes_lift _ l); [done|]. rewrite trim_limbs_canonical, <- Vl by done.
    by apply bignum_canonicalize_computes.
Qed.

Lemma computes_twos_complement view width (k : option (list Z) -> VM S DiamondValue) z :
  view_canonical view -> (view_word_count view <= width)%nat ->
  (forall out, words_ok out -> length out = width ->
     words_value out = view_value view mod two_32 ^ Z.of_nat width ->
     computes (k (Some out)) z) ->
  may_return (k None) z ->
  computes (vm_bind (value_to_twos_complement view width) k) z.
Proof using Type.
  intros Hc Hw HS HN. unfold value_to_twos_complement.
  set (k' := fun words : option (list Z) =>
    vm_bind (match words with
             | None => vm_ret None
             | Some ws =>
                 let out := take width ws ++ replicate (width - length ws) 0 in
                 vm_ret (Some (if view_negative view then twos_complement_negate out 1 else out))
             end) k).
  assert (Hrun : forall s,
    vm_bind (vm_bind (magnitude_to_words (view_limbs view)) (fun words =>
       match words with
       | None => vm_ret None
       | Some ws =>
           let out := take width ws ++ replicate (width - length ws) 0 in
           vm_ret (Some (if view_negative view then twos_complement_negate out 1 else out))
       end)) k s = vm_bind (magnitude_to_words (view_limbs view)) k' s).
  { intros s. unfold vm_bind at 1 2 3. destruct (magnitude_to_words _ s) as [[w s']|]; done. }
  enough (computes (vm_bind (magnitude_to_words (view_limbs view)) k') z) as [M W].
  { split; [|intros plenty HP]; intros s; [|intros Hs]; rewrite Hrun; [apply M|by apply W]. }
  apply computes_magnitude_to_words; [done| |done].
  intros ws Hws _ Hv Hlen. unfold k'. cbv zeta. rewrite take_ge by (unfold view_word_count in *; lia).
  set (out := ws ++ replicate (width - length ws) 0).
  assert (Hout : words_ok out) by (apply in_base_app; split; [done|by apply in_base_zeros]).
  assert (Lout : length out = width).
  { unfold out. rewrite length_app, length_replicate. unfold view_word_count in *. lia. }
  assert (Vout : words_value out = value_of (view_limbs view)).
  { unfold out. rewrite eval_app, eval_zeros by done. lia. }
  pose proof (eval_bounds two_32_gt_1 _ Hout) as Hb. rewrite Lout in Hb.
  unfold view_value in HS. destruct (view_negative view).
  - destruct (twos_complement_negate_spec out Hout) as (Hr & Lr & Vr).
    apply HS; [done|lia|]. rewrite Vr, Lout, Vout. done.
  - apply HS; [done|done|]. simpl. rewrite <- Vout, Z.mod_small; done.
Qed.

Lemma view_value_range view width :
  view_canonical view -> (view_word_count view <= width)%nat ->
  - 2 ^ (32 * Z.of_nat width - 32 ) <= view_value view < 2 ^ (32 * Z.of_nat width - 32).
Proof using Type.
  intros Hc Hw. pose proof (words_capacity_bound _ (proj1 Hc)) as Hb.
  pose proof (value_nonneg _ Hc).
  assert (2 ^ (32 * Z.of_nat (words_capacity (length (view_limbs view))) - 32) <=
          2 ^ (32 * Z.of_nat width - 32)).
  { apply Z.pow_le_mono_r; [lia|]. unfold view_word_count in Hw. lia. }
  unfold view_value, signed. destruct (view_negative view); lia.
Qed.

(** Reading [n] two's-complement words back: the sign test and negation of
    [diamond_bignum_bitwise] recover a value of the signed range. *)
Lemma twos_complement_decode r n v :
  words_ok r -> length r = Datatypes.S n ->
  - (two_32 ^ Z.of_nat n * (two_32 / 2)) <= v < two_32 ^ Z.of_nat n * (two_32 / 2) ->
  words_value r = v mod two_32 ^ Z.of_nat (Datatypes.S n) ->
  let negative := negb (Z.land (nth n r 0) 2147483648 =? 0) in
  let r' := if negative then twos_complement_negate r 1 else r in
  words_ok r' /\ signed negative (words_value r') = v.
Proof using Type.
  intros Hr Lr Hv Er. simpl.
  pose proof (in_base_nth two_32_gt_1 n r Hr) as Hn.
  rewrite land_sign_bit by done.
  pose proof (eval_take_S two_32_gt_1 r n ltac:(lia)) as Hs.
  rewrite take_ge in Hs by lia.
  pose proof (eval_bounds two_32_gt_1 _ (in_base_take n _ Hr)) as Hb.
  rewrite length_take, Nat.min_l in Hb by lia.
  set (P := two_32 ^ Z.of_nat n) in *. set (t := nth n r 0) in *.
  set (low := words_value (take n r)) in *.
  rewrite pow_S in Er. fold P in Er.
  change (two_32 / 2) with 2147483648 in *.
  assert (Hlt : forall c, P * t + low < P * c -> t < c) by (intros; nia).
  destruct (Z.leb_spec 2147483648 t) as [Ht|Ht].
  - assert (Hneg : v < 0).
    { destruct (Z.lt_ge_cases v 0); [done|]. rewrite Z.mod_small in Er by base_lia.
      assert (t < 2147483648) by (apply Hlt; lia). lia. }
    assert (Er' : words_value r = v + two_32 * P).
    { rewrite Er. symmetry. apply (Z.mod_unique _ _ (-1)); base_lia. }
    destruct (twos_complement_negate_spec r Hr) as (Hr' & _ & Vr').
    split; [done|]. simpl. rewrite Vr', Lr, pow_S. fold P. rewrite Er'.
    rewrite <- (Z.mod_unique (- (v + two_32 * P)) (two_32 * P) (-1) (- v)); [lia|base_lia|lia].
  - split; [done|]. simpl. rewrite Er. apply Z.mod_small.
    destruct (Z.lt_ge_cases v 0) as [Hneg|]; [|base_lia]. exfalso.
    assert (Er' : words_value r = v + two_32 * P).
    { rewrite Er. symmetry. apply (Z.mod_unique _ _ (-1)); base_lia. }
    assert (P * t + P <= P * 2147483648) by nia. base_lia.
Qed.

Lemma diamond_bignum_bitwise_computes op left right :
  view_canonical left -> view_canonical right ->
  computes (diamond_bignum_bitwise (S:=S) op left right)
    (bitwise_word op (view_value left) (view_value right)).
Proof using Type.
  intros Hl Hr. unfold diamond_bignum_bitwise.
  set (width := Nat.max (view_word_count left) (view_word_count right)).
  apply computes_malloc2.
  2:{ intros [] [] E; try done; apply may_return_nil. }
  simpl. apply computes_twos_complement; [done|unfold width; lia| |apply may_return_nil].
  intros a Ha La Va.
  apply computes_twos_complement; [done|unfold width; lia| |apply may_return_nil].
  intros b Hb Lb Vb.
  destruct (bitwise_zip op a b Ha Hb ltac:(lia)) as (Hz & Lz & Vz).
  set (r := zip_with (bitwise_word op) a b) in *.
  assert (Hw : exists n, width = Datatypes.S n).
  { assert (1 <= width)%nat by (unfold width, view_word_count, words_capacity; lia).
    exists (width - 1)%nat. lia. }
  destruct Hw as [n Hn].
  destruct (twos_complement_decode r n (bitwise_word op (view_value left) (view_value right)))
    as [Hok Hdec].
  - done.
  - lia.
  - replace (two_32 ^ Z.of_nat n * (two_32 / 2)) with (2 ^ (32 * Z.of_nat width - 1)).
    2:{ rewrite two_32_pow. change (two_32 / 2) with (2 ^ 31).
        rewrite <- Z.pow_add_r by lia. f_equal. lia. }
    pose proof (view_value_range left width Hl ltac:(unfold width; lia)).
    pose proof (view_value_range right width Hr ltac:(unfold width; lia)).
    assert (2 ^ (32 * Z.of_nat width - 32) <= 2 ^ (32 * Z.of_nat width - 1))
      by (apply Z.pow_le_mono_r; lia).
    apply bitwise_range; lia.
  - rewrite Vz, Va, Vb, <- Hn, two_32_pow. apply bitwise_mod_pow2. lia.
  - replace (width - 1)%nat with n by lia. rewrite <- Hdec.
    by apply words_to_value_computes.
Qed.

End Computes.

(** ** Shifts *)

Lemma lor_disjoint a b p :
  0 <= p -> 0 <= a < 2 ^ p -> Z.lor a (b * 2 ^ p) = a + b * 2 ^ p.
Proof.
  intros Hp Ha. assert (Z.land a (b * 2 ^ p) = 0) as E.
  { apply Z.bits_inj'. intros n Hn. rewrite Z.land_spec, Z.bits_0.
    destruct (Z.lt_ge_cases n p).
    - rewrite Z.mul_pow2_bits_low by lia. apply andb_false_r.
    - rewrite <- (Z.mod_small a (2 ^ p)) by lia.
      rewrite Z.mod_pow2_bits_high by lia. done. }
  rewrite Z.add_nocarry_lxor by done. symmetry. by apply Z.lxor_lor.
Qed.

Lemma nth_weight_le ws i :
  words_ok ws -> (i < length ws)%nat ->
  two_32 ^ Z.of_nat i * nth i ws 0 <= words_value ws.
Proof.
  intros Hw Hi. pose proof (eval_insert (B:=two_32) ws i 0 Hi) as E.
  assert (0 <= words_value (<[i := 0]> ws)).
  { apply (eval_bounds two_32_gt_1). apply in_base_insert; done. }
  lia.
Qed.

(** A value below [2^(32k) * c] leaves room in digit [k] and nothing above. *)
Lemma digits_above ws k c :
  words_ok ws -> (S k < length ws)%nat -> 0 < c <= two_32 ->
  words_value ws < two_32 ^ Z.of_nat k * c ->
  nth k ws 0 < c /\ nth (S k) ws 0 = 0.
Proof.
  intros Hw Hk Hc Hv.
  pose proof (base_pow_pos two_32_gt_1 k) as Hp.
  pose proof (nth_weight_le ws k Hw ltac:(lia)) as H1.
  pose proof (nth_weight_le ws (S k) Hw Hk) as H2. rewrite pow_S in H2.
  pose proof (in_base_nth two_32_gt_1 (S k) ws Hw) as H3.
  set (P := two_32 ^ Z.of_nat k) in *. clearbody P. split; [nia|].
  destruct (Z.le_gt_cases 1 (nth (S k) ws 0)) as [H4|H4]; [exfalso|lia].
  assert (P <= P * nth (S k) ws 0) by nia.
  assert (P * c <= P * two_32) by (apply Z.mul_le_mono_nonneg_l; lia).
  base_lia.
Qed.

Lemma nth_insert_ne (l : list Z) i j x :
  i <> j -> nth j (<[i := x]> l) 0 = nth j l 0.
Proof. intros H. by rewrite !nth_lookup, list_lookup_insert_ne. Qed.

Lemma shift_left_loop_spec ws k part buf :
  words_ok ws -> words_ok buf -> 0 <= part < 32 ->
  (k + length ws < length buf)%nat ->
  words_value buf < two_32 ^ Z.of_nat k * 2 ^ part ->
  exists buf', shift_left_loop ws k part buf = Some buf' /\ words_ok buf' /\
    words_value buf' = words_value buf + two_32 ^ Z.of_nat k * 2 ^ part * words_value ws.
Proof.
  intros Hw. revert k buf. induction Hw as [|w ws Hx Hw IH]; intros k buf Hb Hpart Hlen Hv.
  - exists buf. split; [done|]. split; [done|]. simpl. lia.
  - cbn [shift_left_loop length] in *.
    assert (Hpp : 0 < 2 ^ part <= 2 ^ 31).
    { split; [apply Z.pow_pos_nonneg; lia|apply Z.pow_le_mono_r; lia]. }
    rewrite Z.shiftl_mul_pow2 by lia.
    assert (Hwp : 0 <= w * 2 ^ part <= (two_32 - 1) * 2 ^ 31) by nia.
    rewrite (to_u64_small (w * 2 ^ part)) by base_lia.
    rewrite array_read_in by lia. cbv beta iota.
    destruct (digits_above buf k (2 ^ part) Hb ltac:(lia) ltac:(base_lia) Hv) as [Hlo Hhi].
    pose proof (in_base_nth two_32_gt_1 k buf Hb) as Hk.
    assert (Elow : to_u32 (w * 2 ^ part) = (w mod 2 ^ (32 - part)) * 2 ^ part).
    { unfold to_u32. change two_32 with (2 ^ 32).
      replace (2 ^ 32) with (2 ^ (32 - part) * 2 ^ part)
        by (rewrite <- Z.pow_add_r by lia; f_equal; lia).
      apply Z.mul_mod_distr_r; lia. }
    rewrite Elow, lor_disjoint by lia. rewrite <- Elow.
    set (spread := w * 2 ^ part) in *.
    assert (Hsp : 0 <= spread < two_32 * 2 ^ 31) by (unfold spread; nia).
    assert (Hlow : 0 <= nth k buf 0 + to_u32 spread < two_32).
    { rewrite Elow. pose proof (Z.mod_pos_bound w (2 ^ (32 - part)) ltac:(lia)).
      assert (two_32 = 2 ^ (32 - part) * 2 ^ part)
        by (rewrite <- Z.pow_add_r by lia; replace (32 - part + part) with 32 by lia; done).
      nia. }
    rewrite array_write_in by lia.
    set (buf1 := <[k := nth k buf 0 + to_u32 spread]> buf).
    assert (L1 : length buf1 = length buf) by apply length_insert.
    assert (Hb1 : words_ok buf1) by (by apply in_base_insert).
    assert (N1 : nth (S k) buf1 0 = 0).
    { unfold buf1. rewrite nth_insert_ne by lia. done. }
    rewrite array_read_in by lia. rewrite N1, Z.lor_0_l, shiftr_32.
    assert (Hq : 0 <= spread / two_32 < two_32).
    { split; [apply Z.div_pos; [lia|done]|]. apply Z.div_lt_upper_bound; [done|]. base_lia. }
    rewrite (to_u32_small (spread / two_32)) by done.
    rewrite array_write_in by lia.
    set (buf2 := <[S k := spread / two_32]> buf1).
    assert (L2 : length buf2 = length buf1) by apply length_insert.
    assert (V2 : words_value buf2 = words_value buf + two_32 ^ Z.of_nat k * spread).
    { unfold buf2. rewrite eval_insert, N1, pow_S by lia.
      unfold buf1. rewrite eval_insert by lia. unfold to_u32.
      pose proof (Z.div_mod spread two_32 ltac:(done)). nia. }
    destruct (IH (S k) buf2) as (buf' & E & Hb' & V').
    + by apply in_base_insert.
    + done.
    + lia.
    + rewrite V2, pow_S. unfold spread.
      pose proof (base_pow_pos two_32_gt_1 k). nia.
    + exists buf'. split; [done|]. split; [done|]. rewrite V', V2, pow_S. cbn [eval].
      unfold spread. ring.
Qed.

Lemma shift_right_loop_spec ws part :
  words_ok ws -> 0 <= part < 32 ->
  words_ok (shift_right_loop ws part) /\
  words_value (shift_right_loop ws part) = words_value ws / 2 ^ part.
Proof.
  intros Hw Hpart. assert (Hpp : 0 < 2 ^ part) by (apply Z.pow_pos_nonneg; lia).
  assert (H32 : two_32 = 2 ^ (32 - part) * 2 ^ part)
    by (rewrite <- Z.pow_add_r by lia; replace (32 - part + part) with 32 by lia; done).
  assert (Hq : 0 < 2 ^ (32 - part)) by (apply Z.pow_pos_nonneg; lia).
  induction Hw as [|w ws Hx Hw [IH1 IH2]]; cbn [shift_right_loop].
  { split; [constructor|]. simpl. by rewrite Z.div_0_l by lia. }
  set (current := match ws with [] => _ | _ => _ end).
  assert (Hcur : current = w / 2 ^ part + 2 ^ (32 - part) * (words_value ws mod 2 ^ part)).
  { unfold current. rewrite Z.shiftr_div_pow2 by lia. destruct ws as [|next rest].
    - simpl. rewrite Z.mod_0_l by lia. lia.
    - destruct (Z.eqb_spec part 0) as [->|Hp0]; cbn [negb].
      + rewrite Z.pow_0_r, !Z.mod_1_r. lia.
      + apply in_base_cons in Hw as [Hn _].
        assert (2 ^ (32 - part) < two_32)
          by (change two_32 with (2 ^ 32); apply Z.pow_lt_mono_r; lia).
        assert (Hnp : 0 <= next * 2 ^ (32 - part) <= (two_32 - 1) * (two_32 - 1)) by nia.
        rewrite Z.shiftl_mul_pow2 by lia. rewrite to_u64_small by base_lia.
        rewrite land_u32_mask.
        assert (E1 : (next * 2 ^ (32 - part)) mod two_32 = (next mod 2 ^ part) * 2 ^ (32 - part)).
        { rewrite H32, (Z.mul_comm (2 ^ (32 - part)) (2 ^ part)). apply Z.mul_mod_distr_r; lia. }
        assert (E2 : words_value (next :: rest) mod 2 ^ part = next mod 2 ^ part).
        { cbn [eval]. generalize (words_value rest). intros R. rewrite H32.
          replace (next + 2 ^ (32 - part) * 2 ^ part * R)
            with (next + (2 ^ (32 - part) * R) * 2 ^ part) by ring.
          apply Z.mod_add. lia. }
        rewrite E1, E2, lor_disjoint; [lia|lia|].
        split; [apply Z.div_pos; lia|]. apply Z.div_lt_upper_bound; lia. }
  pose proof (Z.mod_pos_bound (words_value ws) (2 ^ part) Hpp) as Hm.
  assert (Hwq : 0 <= w / 2 ^ part < 2 ^ (32 - part)).
  { split; [apply Z.div_pos; lia|]. apply Z.div_lt_upper_bound; lia. }
  assert (Hc32 : 0 <= current < two_32) by (rewrite Hcur; nia).
  rewrite to_u32_small by done.
  split; [by apply in_base_cons|]. cbn [eval]. rewrite IH2, Hcur.
  generalize (words_value ws). intros R.
  replace (w + two_32 * R) with (w + (2 ^ (32 - part) * R) * 2 ^ part) by (rewrite H32; ring).
  rewrite Z.div_add by lia.
  pose proof (Z.div_mod R (2 ^ part) ltac:(lia)). rewrite H32. nia.
Qed.

Lemma words_increment_spec ws :
  words_ok ws ->
  words_ok (words_increment ws) /\ words_value (words_increment ws) = words_value ws + 1.
Proof.
  induction 1 as [|w ws Hx Hw [IH1 IH2]]; cbn [words_increment].
  - split; [apply in_base_cons; split; [done|constructor]|done].
  - destruct (Z.eq_dec w (two_32 - 1)) as [->|Hne].
    + replace (to_u32 (two_32 - 1 + 1)) with 0 by done. simpl Z.eqb. cbv iota.
      split; [apply in_base_cons; split; [done|done]|]. cbn [eval]. rewrite IH2. lia.
    + rewrite to_u32_small by lia. destruct (Z.eqb_spec (w + 1) 0); [lia|].
      split; [apply in_base_cons; split; [lia|done]|]. cbn [eval]. lia.
Qed.

Lemma words_lost_spec ws n :
  words_ok ws -> words_lost ws n = negb (words_value (take n ws) =? 0).
Proof.
  intros Hw. unfold words_lost. pose proof (in_base_take n _ Hw) as Ht.
  revert Ht. generalize (take n ws). intros l Hl.
  induction Hl as [|w l Hx Hl IH]; [done|]. cbn [existsb eval]. rewrite IH.
  pose proof (eval_bounds two_32_gt_1 _ Hl).
  destruct (Z.eqb_spec w 0), (Z.eqb_spec (words_value l) 0); simpl;
    case_bools; simpl; try done; base_lia.
Qed.

Lemma split_bits bits :
  0 <= bits -> 2 ^ bits = two_32 ^ Z.of_nat (Z.to_nat (bits / 32)) * 2 ^ (bits mod 32).
Proof.
  intros Hb. pose proof (Z.div_pos bits 32 Hb ltac:(lia)).
  pose proof (Z.mod_pos_bound bits 32 ltac:(lia)).
  rewrite two_32_pow, Z2Nat.id, <- Z.pow_add_r by lia. f_equal. apply Z.div_mod. lia.
Qed.

(** Dividing by [2^part] after dropping [n] whole words divides by
    [2^(32 n + part)], and the bits that fall off are the low words and the low
    bits of word [n]. *)
Lemma shift_words ws n part :
  words_ok ws -> (n < length ws)%nat -> 0 <= part < 32 ->
  words_value (drop n ws) / 2 ^ part = words_value ws / (two_32 ^ Z.of_nat n * 2 ^ part) /\
  (words_lost ws n || negb (nth n ws 0 mod 2 ^ part =? 0)) =
  negb (words_value ws mod (two_32 ^ Z.of_nat n * 2 ^ part) =? 0).
Proof.
  intros Hw Hn Hpart. assert (Hpp : 0 < 2 ^ part) by (apply Z.pow_pos_nonneg; lia).
  pose proof (base_pow_pos two_32_gt_1 n) as HP.
  rewrite words_lost_spec by done.
  pose proof (eval_take_drop two_32_gt_1 n ws ltac:(lia)) as Hsplit.
  pose proof (eval_bounds two_32_gt_1 _ (in_base_take n _ Hw)) as Hlow.
  rewrite length_take, Nat.min_l in Hlow by lia.
  assert (Hd : words_value (drop n ws) mod 2 ^ part = nth n ws 0 mod 2 ^ part).
  { rewrite (drop_S ws (nth n ws 0) n).
    2:{ rewrite nth_lookup. destruct (lookup_lt_is_Some_2 ws n Hn) as [x Hx].
        rewrite Hx. done. }
    cbn [eval]. generalize (words_value (drop (S n) ws)). intros R.
    assert (H32 : two_32 = 2 ^ (32 - part) * 2 ^ part)
      by (rewrite <- Z.pow_add_r by lia; replace (32 - part + part) with 32 by lia; done).
    rewrite H32. replace (2 ^ (32 - part) * 2 ^ part * R)
      with ((2 ^ (32 - part) * R) * 2 ^ part) by ring.
    apply Z.mod_add. lia. }
  rewrite <- Hd. set (P := two_32 ^ Z.of_nat n) in *.
  set (lo := words_value (take n ws)) in *. set (hi := words_value (drop n ws)) in *.
  rewrite Hsplit.
  assert (Ediv : (lo + P * hi) / P = hi).
  { symmetry. apply (Z.div_unique _ _ _ lo); lia. }
  split.
  - rewrite <- Z.div_div, Ediv by lia. done.
  - rewrite Z.rem_mul_r by lia. rewrite Ediv.
    rewrite (Z.mul_comm P hi), Z.mod_add, (Z.mod_small lo P) by lia.
    pose proof (Z.mod_pos_bound hi (2 ^ part) Hpp).
    destruct (Z.eqb_spec lo 0), (Z.eqb_spec (hi mod 2 ^ part) 0); simpl; case_bools;
      simpl; try done; nia.
Qed.

Lemma land_low_mask x part : 0 <= part -> Z.land x (Z.shiftl 1 part - 1) = x mod 2 ^ part.
Proof.
  intros H. rewrite Z.shiftl_1_l. rewrite <- Z.land_ones by done. f_equal.
  rewrite Z.ones_equiv. lia.
Qed.

Section Shifts.

Context {S : Type} `{!VmHeap S}.

Lemma diamond_bignum_shift_left_computes view bits :
  view_canonical view -> 0 <= bits ->
  computes (diamond_bignum_shift_left (S:=S) view bits) (Z.shiftl (view_value view) bits).
Proof using Type.
  intros Hc Hb. unfold diamond_bignum_shift_left. rewrite Z.shiftl_mul_pow2 by done.
  apply computes_magnitude_to_words; [done| |apply may_return_nil].
  intros ws Hws Ht Hv Hlen. unfold view_value. rewrite <- Hv.
  destruct (Nat.eqb_spec (length ws) 0) as [E|E].
  { destruct ws; [|done]. apply computes_ret. split; [simpl; base_lia|].
    by destruct (view_negative view). }
  apply computes_malloc; [|apply may_return_nil]. simpl.
  destruct (shift_left_loop_spec ws (Z.to_nat (bits / 32)) (bits mod 32)
    (replicate (length ws + Z.to_nat (bits / 32) + 2) 0)) as (buf & Eb & Hbuf & Vb).
  - done.
  - by apply in_base_zeros.
  - apply Z.mod_pos_bound. lia.
  - rewrite length_replicate. lia.
  - rewrite eval_zeros, <- split_bits by done. by apply Z.pow_pos_nonneg.
  - apply (computes_lift _ buf); [done|].
    rewrite eval_zeros, <- split_bits in Vb by done.
    replace (signed _ _ * 2 ^ bits) with (signed (view_negative view) (words_value buf))
      by (rewrite Vb; unfold signed; destruct (view_negative view); ring).
    by apply words_to_value_computes.
Qed.

(** What [diamond_bignum_shift_right] rounds: the floor of a signed magnitude. *)
Lemma signed_floor negative m d :
  0 < d ->
  signed negative m / d =
  signed negative (m / d + (if negative && negb (m mod d =? 0) then 1 else 0)).
Proof using Type.
  intros Hd. destruct negative; simpl; [|f_equal; lia].
  destruct (Z.eqb_spec (m mod d) 0); simpl.
  - rewrite Z.div_opp_l_z by lia. lia.
  - rewrite Z.div_opp_l_nz by lia. lia.
Qed.

Lemma words_value_lt_pow ws bits :
  words_ok ws -> Z.of_nat (length ws) <= bits / 32 -> 0 <= bits ->
  0 <= words_value ws < 2 ^ bits.
Proof using Type.
  intros Hw Hl Hb. pose proof (eval_bounds two_32_gt_1 _ Hw) as H.
  rewrite two_32_pow in H.
  assert (2 ^ (32 * Z.of_nat (length ws)) <= 2 ^ bits); [|lia].
  apply Z.pow_le_mono_r; [lia|]. divmod_lia.
Qed.

Lemma diamond_bignum_shift_right_computes view bits :
  view_canonical view -> 0 <= bits ->
  computes (diamond_bignum_shift_right (S:=S) view bits) (Z.shiftr (view_value view) bits).
Proof using Type.
  intros Hc Hb. unfold diamond_bignum_shift_right. rewrite Z.shiftr_div_pow2 by done.
  assert (Hpow : 0 < 2 ^ bits) by (by apply Z.pow_pos_nonneg).
  apply computes_magnitude_to_words; [done| |apply may_return_nil].
  intros ws Hws Ht Hv Hlen. unfold view_value. rewrite <- Hv, signed_floor by done.
  destruct (Nat.eqb_spec (length ws) 0) as [E|E].
  { destruct ws; [|done]. apply computes_ret. split; [simpl; base_lia|].
    cbn [int_value eval]. rewrite Z.mod_0_l, Z.div_0_l by lia. simpl. rewrite andb_false_r.
    by destruct (view_negative view). }
  apply computes_malloc; [|apply may_return_nil]. simpl.
  pose proof (Z.mod_pos_bound bits 32 ltac:(lia)) as Hpart.
  pose proof (Z.div_pos bits 32 Hb ltac:(lia)) as Hdiv.
  set (whole := if bits / 32 >? Z.of_nat (length ws) then length ws else Z.to_nat (bits / 32)).
  set (lost := if (whole <? length ws)%nat && negb (bits mod 32 =? 0) then _ else _).
  assert (Hlost : lost = negb (words_value ws mod 2 ^ bits =? 0) /\
    words_value (drop whole ws) / 2 ^ (bits mod 32) = words_value ws / 2 ^ bits).
  { unfold lost, whole. rewrite Z.gtb_ltb.
    destruct (Z.lt_ge_cases (bits / 32) (Z.of_nat (length ws))) as [Hlt|Hge].
    - destruct (Z.ltb_spec (Z.of_nat (length ws)) (bits / 32)); [lia|].
      destruct (shift_words ws (Z.to_nat (bits / 32)) (bits mod 32)) as [H1 H2];
        [done|lia|done|].
      rewrite (split_bits bits Hb), H1. split; [|done]. rewrite <- H2.
      rewrite land_low_mask by lia.
      destruct (Nat.ltb_spec (Z.to_nat (bits / 32)) (length ws)); [|lia]. simpl.
      destruct (Z.eqb_spec (bits mod 32) 0) as [->|]; simpl; [|done].
      rewrite Z.mod_1_r. simpl. by rewrite orb_false_r.
    - replace (if Z.of_nat (length ws) <? bits / 32 then length ws else Z.to_nat (bits / 32))
        with (length ws) by (case_bools; lia).
      rewrite Nat.ltb_irrefl. simpl.
      pose proof (words_value_lt_pow ws bits Hws Hge Hb).
      rewrite words_lost_spec, take_ge, drop_ge by (done || lia).
      rewrite (Z.mod_small (words_value ws)), (Z.div_small (words_value ws)) by done.
      split; [done|]. simpl. by rewrite Z.div_0_l by (apply Z.pow_nonzero; lia). }
  destruct Hlost as [-> Hq]. rewrite <- Hq.
  destruct (shift_right_loop_spec (drop whole ws) (bits mod 32)) as [Hr Vr];
    [by apply in_base_drop|done|].
  rewrite <- Vr. destruct (view_negative view && negb (words_value ws mod 2 ^ bits =? 0)).
  - destruct (words_increment_spec _ Hr) as [Hi Vi]. rewrite <- Vi.
    by apply words_to_value_computes.
  - rewrite Z.add_0_r. by apply words_to_value_computes.
Qed.

End Shifts.
