(* ===== verification/BignumLaws.v ===== *)
(** * BignumLaws: what the public functions of src/bignum.c compute

    The contracts of src/bignum.h, stated for Int values in either
    representation: each function returns on every heap, returns
    [DIAMOND_NIL] only when an allocation failed, and otherwise returns the one
    canonical representation of the mathematical result ([computes]). *)

From S2P Require Import Prelude Digits Magnitude Value Bignum BignumBits.
From Stdlib Require Import ZArith Lia Bool List.
From stdpp Require Import base numbers list.

Local Open Scope Z_scope.

(** Both operands seen through [diamond_int_view]. *)
Definition viewed (l r : DiamondValue) (P : DiamondIntView -> DiamondIntView -> Prop) : Prop :=
  exists vl vr, diamond_int_view l = Some vl /\ diamond_int_view r = Some vr /\ P vl vr.

Lemma viewed_intro l r a b (P : DiamondIntView -> DiamondIntView -> Prop) :
  represents l a -> represents r b ->
  (forall vl vr, view_ok vl -> view_ok vr -> view_value vl = a -> view_value vr = b -> P vl vr) ->
  viewed l r P.
Proof.
  intros Hl Hr HP.
  destruct (diamond_int_view_spec l a Hl) as (vl & El & Ol & Vl).
  destruct (diamond_int_view_spec r b Hr) as (vr & Er & Or & Vr).
  exists vl, vr. eauto.
Qed.

(** The operation of a [DiamondBignumBitwiseOp] on one bit. *)
Definition bit_operation (op : DiamondBignumBitwiseOp) : bool -> bool -> bool :=
  match op with
  | DIAMOND_BIGNUM_BITWISE_AND => andb
  | DIAMOND_BIGNUM_BITWISE_OR => orb
  | DIAMOND_BIGNUM_BITWISE_XOR => xorb
  end.

(** 10^20. *)
Definition ten_to_the_20 : DiamondValue :=
  DIAMOND_OBJECT (OBJECT_BIGNUM {| negative := false; limbs := [0; 0; 100] |}).

Lemma ten_to_the_20_represents : represents ten_to_the_20 100000000000000000000.
Proof.
  split; [|reflexivity]. split.
  - split; [repeat constructor; vm_compute; congruence|vm_compute; congruence].
  - vm_compute. intros [_ H]. by apply H.
Defined.

Lemma minus_seven_represents : represents (DIAMOND_INT (-7)) (-7).
Proof. split; [|reflexivity]. simpl. unfold_widths. lia. Defined.

(** C27: Addition, subtraction, multiplication, negation and comparison of Ints,
    small or big, are exact: no operation loses a carry, leaves its buffers or
    returns a second representation of a value. *)
Theorem bignum_arithmetic_exact {S : Type} {VH : VmHeap S} (l r : DiamondValue) (a b : Z) :
  represents l a -> represents r b ->
  viewed l r (fun vl vr =>
    computes (S:=S) (diamond_bignum_add vl vr) (a + b) /\
    computes (S:=S) (diamond_bignum_subtract vl vr) (a - b) /\
    computes (S:=S) (diamond_bignum_multiply vl vr) (a * b) /\
    computes (S:=S) (diamond_bignum_negate vl) (- a) /\
    diamond_bignum_compare vl vr = sign_of (a ?= b)).
Proof.
  intros Hl Hr. apply (viewed_intro l r a b _ Hl Hr). intros vl vr Ol Or <- <-.
  pose proof (proj1 Ol). pose proof (proj1 Or).
  split_and!; auto using diamond_bignum_add_computes, diamond_bignum_subtract_computes,
    diamond_bignum_multiply_computes, diamond_bignum_negate_computes,
    diamond_bignum_compare_spec.
Qed.

Lemma bignum_arithmetic_exact_witness :
  viewed ten_to_the_20 (DIAMOND_INT (-7)) (fun vl vr =>
    computes (S:=ScriptedHeap) (diamond_bignum_multiply vl vr) (-700000000000000000000) /\
    diamond_bignum_compare vl vr = 1).
Proof.
  destruct (bignum_arithmetic_exact (S:=ScriptedHeap) ten_to_the_20 (DIAMOND_INT (-7)) _ _
    ten_to_the_20_represents minus_seven_represents) as (vl & vr & El & Er & _ & _ & Hm & _ & Hc).
  exists vl, vr. split; [exact El|]. split; [exact Er|]. split; [exact Hm|exact Hc].
Defined.

(** C28: Division and modulo of Ints by a non-zero Int are floored: the long
    division finds every quotient limb within its fuel, and the sign corrections
    give Ruby's rounding towards minus infinity. *)
Theorem bignum_division_floored {S : Type} {VH : VmHeap S} (l r : DiamondValue) (a b : Z) :
  represents l a -> represents r b -> b <> 0 ->
  viewed l r (fun vl vr =>
    computes (S:=S) (diamond_bignum_divide_floored vl vr) (a / b) /\
    computes (S:=S) (diamond_bignum_modulo_floored vl vr) (a mod b)).
Proof.
  intros Hl Hr Hb. apply (viewed_intro l r a b _ Hl Hr). intros vl vr Ol Or <- Vr.
  pose proof (proj1 Ol). pose proof (proj1 Or). subst b.
  auto using diamond_bignum_divide_floored_computes, diamond_bignum_modulo_floored_computes.
Qed.

Lemma bignum_division_floored_witness :
  viewed ten_to_the_20 (DIAMOND_INT (-7)) (fun vl vr =>
    computes (S:=ScriptedHeap) (diamond_bignum_divide_floored vl vr) (-14285714285714285715) /\
    computes (S:=ScriptedHeap) (diamond_bignum_modulo_floored vl vr) (-5)).
Proof.
  exact (bignum_division_floored (S:=ScriptedHeap) ten_to_the_20 (DIAMOND_INT (-7)) _ _
    ten_to_the_20_represents minus_seven_represents ltac:(lia)).
Defined.

(** C29: The bitwise operators act on infinite two's complement: every bit of
    the result is the operation on the bits of the operands, negative ones
    included. *)
Theorem bignum_bitwise_twos_complement {S : Type} {VH : VmHeap S}
    (op : DiamondBignumBitwiseOp) (l r : DiamondValue) (a b : Z) :
  represents l a -> represents r b ->
  viewed l r (fun vl vr => exists z,
    computes (S:=S) (diamond_bignum_bitwise op vl vr) z /\
    forall k, 0 <= k -> Z.testbit z k = bit_operation op (Z.testbit a k) (Z.testbit b k)).
Proof.
  intros Hl Hr. apply (viewed_intro l r a b _ Hl Hr). intros vl vr Ol Or <- <-.
  exists (bitwise_word op (view_value vl) (view_value vr)). split.
  - apply diamond_bignum_bitwise_computes; [apply Ol|apply Or].
  - intros k Hk. destruct op; simpl; [apply Z.land_spec|apply Z.lor_spec|apply Z.lxor_spec].
Qed.

Lemma bignum_bitwise_twos_complement_witness :
  viewed ten_to_the_20 (DIAMOND_INT (-7)) (fun vl vr => exists z,
    computes (S:=ScriptedHeap) (diamond_bignum_bitwise DIAMOND_BIGNUM_BITWISE_AND vl vr) z /\
    Z.testbit z 66 = true).
Proof.
  destruct (bignum_bitwise_twos_complement (S:=ScriptedHeap) DIAMOND_BIGNUM_BITWISE_AND
    ten_to_the_20 (DIAMOND_INT (-7)) _ _ ten_to_the_20_represents minus_seven_represents)
    as (vl & vr & El & Er & z & Hz & Hbits).
  exists vl, vr. split; [exact El|]. split; [exact Er|]. exists z. split; [exact Hz|].
  rewrite (Hbits 66 ltac:(lia)). reflexivity.
Defined.

(** Shifts of Ints multiply and divide by powers of two, the right shift
    flooring, for every shift amount. *)
Theorem bignum_shifts {S : Type} {VH : VmHeap S} (l : DiamondValue) (a bits : Z) :
  represents l a -> 0 <= bits ->
  viewed l l (fun vl _ =>
    computes (S:=S) (diamond_bignum_shift_left vl bits) (a * 2 ^ bits) /\
    computes (S:=S) (diamond_bignum_shift_right vl bits) (a / 2 ^ bits)).
Proof.
  intros Hl Hb. apply (viewed_intro l l a a _ Hl Hl). intros vl vr Ol _ <- _.
  rewrite <- Z.shiftl_mul_pow2, <- Z.shiftr_div_pow2 by done.
  split; [apply diamond_bignum_shift_left_computes|apply diamond_bignum_shift_right_computes];
    first [apply Ol|done].
Qed.

Lemma bignum_shifts_witness :
  viewed (DIAMOND_INT (-7)) (DIAMOND_INT (-7)) (fun vl _ =>
    computes (S:=ScriptedHeap) (diamond_bignum_shift_left vl 100) (-7 * 2 ^ 100) /\
    computes (S:=ScriptedHeap) (diamond_bignum_shift_right vl 100) (-1)).
Proof.
  exact (bignum_shifts (S:=ScriptedHeap) (DIAMOND_INT (-7)) (-7) 100
    minus_seven_represents ltac:(lia)).
Defined.
