(* ===== verification/BignumText.v ===== *)
(** * BignumText: decimal and radix text of Ints (src/bignum.c)

    Characters are their ASCII codes.  An output buffer of fixed size is a list
    that may not grow past that size: a store outside it is [None]. *)

From S2P Require Import Prelude Digits CText Magnitude Value Bignum BignumBits.
From Stdlib Require Import ZArith Lia Bool List.
From stdpp Require Import base numbers list.

Local Open Scope Z_scope.
Local Open Scope c_scope.

(** ** [snprintf] of an unsigned integer *)

(** The text of [%0<width>u]; a [uint32_t] has at most ten digits. *)
Definition printf_u (width : nat) (v : Z) : list Z :=
  decimal_run (Nat.max width (decimal_width 10 v)) v.

(** [snprintf(out + position, size, "%0<width>u", v)] in a buffer of [out_size]
    bytes, terminator included.  A text that [size] would truncate is [None]:
    the callers advance by the untruncated length. *)
Definition snprintf_u (out_size : nat) (out : list Z) (size width : nat) (v : Z)
    : option (list Z) :=
  let text := printf_u width v in
  if (length text <? size)%nat && (length out + length text <? out_size)%nat
  then Some (out ++ text) else None.

(** ** Decimal *)

Definition diamond_bignum_string_length (value : DiamondBignum) : nat :=
  ((if Value.negative value then 1 else 0) + length (Value.limbs value) * 9 + 1)%nat.

Fixpoint bignum_to_string_loop (out_size : nat) (limbs : list Z) (i : nat) (out : list Z)
    : option (list Z) :=
  match i with
  | O => Some out
  | S j =>
      let? limb := array_read limbs j in
      let? out := snprintf_u out_size out 10 9 limb in
      bignum_to_string_loop out_size limbs j out
  end.

Definition diamond_bignum_to_string (value : DiamondBignum) (out_size : nat)
    : option (list Z) :=
  let limbs := Value.limbs value in
  let? out := (if Value.negative value
               then (if (0 <? out_size)%nat then Some [45] else None)
               else Some []) in
  let? top := array_read limbs (length limbs - 1) in
  let? out := snprintf_u out_size out 21 1 top in
  bignum_to_string_loop out_size limbs (length limbs - 1) out.

(** [chunk = chunk * 10 + (digits[i] - '0')]. *)
Fixpoint chunk_value (chunk : Z) (digits : list Z) : Z :=
  match digits with
  | [] => chunk
  | c :: rest => chunk_value (to_u32 (to_u32 (chunk * 10) + to_u32 (c - 48))) rest
  end.

(** The 9-digit chunks of [digits[0..stop)], least significant first. *)
Fixpoint decimal_limbs_loop (room : nat) (digits : list Z) (stop : nat)
    : option (list Z) :=
  if (stop =? 0)%nat then Some [] else
  match room with
  | O => None
  | S r =>
      let chunk_length := if (9 <=? stop)%nat then 9%nat else stop in
      let start := (stop - chunk_length)%nat in
      let chunk := chunk_value 0 (take chunk_length (drop start digits)) in
      let? rest := decimal_limbs_loop r digits start in
      Some (chunk :: rest)
  end.

(** ** Radix 2 to 36 *)

(** [static const char digits[]]. *)
Definition radix_digits : list Z := seqZ 48 10 ++ seqZ 97 26.

Fixpoint magnitude_divide_radix (radix : Z) (limbs : list Z) : list Z * Z :=
  match limbs with
  | [] => ([], 0)
  | x :: rest =>
      let '(q, carry) := magnitude_divide_radix radix rest in
      let current := to_u64 (to_u64 (carry * BASE) + x) in
      (to_u32 (current / to_u32 radix) :: q, current mod to_u32 radix)
  end.

(** [while (remaining > 0)]: the digits, least significant first. *)
Fixpoint radix_string_loop (room : nat) (radix : Z) (scratch : list Z)
    : option (list Z) :=
  if (length scratch =? 0)%nat then Some [] else
  match room with
  | O => None
  | S r =>
      let '(q, carry) := magnitude_divide_radix radix scratch in
      let? c := array_read radix_digits (Z.to_nat carry) in
      let? rest := radix_string_loop r radix (trim_limbs q) in
      Some (c :: rest)
  end.

(** Append a character to a buffer of [capacity] bytes. *)
Definition push_char (capacity : nat) (out : list Z) (c : Z) : option (list Z) :=
  if (length out <? capacity)%nat then Some (out ++ [c]) else None.

(** [for (i = 0; i < produced / 2; i++) swap(reversed[i], reversed[produced - 1 - i])],
    from [i] on with [n] rounds to go. *)
Fixpoint reverse_loop (n i : nat) (buf : list Z) : option (list Z) :=
  match n with
  | O => Some buf
  | S m =>
      let? swap := array_read buf i in
      let? other := array_read buf (length buf - 1 - i) in
      let? buf := array_write buf i other in
      let? buf := array_write buf (length buf - 1 - i) swap in
      reverse_loop m (S i) buf
  end.

Definition radix_digit (c : Z) : Z :=
  if (48 <=? c) && (c <=? 57) then to_u32 (c - 48)
  else if (97 <=? c) && (c <=? 122) then to_u32 (c - 97 + 10)
  else to_u32 (c - 65 + 10).

Fixpoint radix_limbs_loop (capacity : nat) (radix : Z) (digits limbs : list Z)
    : option (list Z) :=
  match digits with
  | [] => Some limbs
  | c :: rest =>
      let? limbs := magnitude_multiply_add capacity limbs radix (radix_digit c) in
      radix_limbs_loop capacity radix rest limbs
  end.

Section Operations.

Context {S : Type} `{!VmHeap S}.

Definition diamond_bignum_from_decimal_digits (digits : list Z) (negative : bool)
    : VM S DiamondValue :=
  let limb_capacity := (length digits / 9 + 1)%nat in
  let! ok := vm_malloc (limbs_bytes limb_capacity) in
  if negb ok then vm_ret DIAMOND_NIL else
  let! limbs := vm_lift (decimal_limbs_loop limb_capacity digits (length digits)) in
  bignum_canonicalize negative (trim_limbs limbs).

(** [None] is the C function's [nullptr]. *)
Definition diamond_bignum_to_radix_string (value : DiamondIntView) (radix : Z)
    : VM S (option (list Z)) :=
  let limb_count := length (view_limbs value) in
  let capacity := (limb_count * 30 + 3)%nat in
  let! reversed_ok := vm_malloc (Z.of_nat capacity) in
  let! scratch_ok := vm_malloc (limbs_bytes (if (limb_count =? 0)%nat then 1 else limb_count)) in
  if negb reversed_ok || negb scratch_ok then vm_ret None else
  let! reversed := vm_lift (radix_string_loop capacity radix (trim_limbs (view_limbs value))) in
  let! reversed := vm_lift (if (length reversed =? 0)%nat then push_char capacity reversed 48
                            else Some reversed) in
  let! reversed := vm_lift (if view_negative value then push_char capacity reversed 45
                            else Some reversed) in
  let! text := vm_lift (reverse_loop (length reversed / 2) 0 reversed) in
  let! _ := vm_lift (push_char capacity text 0) in
  vm_ret (Some text).

Definition diamond_bignum_from_radix_digits (digits : list Z) (radix : Z) (negative : bool)
    : VM S DiamondValue :=
  let capacity := (length digits * 6 / 29 + 3)%nat in
  let! ok := vm_malloc (limbs_bytes capacity) in
  if negb ok then vm_ret DIAMOND_NIL else
  let! limbs := vm_lift (radix_limbs_loop capacity (to_u32 radix) digits []) in
  bignum_canonicalize negative (trim_limbs limbs).

End Operations.

(** ** Decimal text of limbs *)

Lemma base_digits : BASE = 10 ^ Z.of_nat 9.
Proof. done. Qed.

(** The text of one limb, with and without padding. *)
Lemma printf_padded v :
  0 <= v < BASE ->
  is_digits (printf_u 9 v) /\ length (printf_u 9 v) = 9%nat /\ decimal_value (printf_u 9 v) = v.
Proof.
  intros Hv. unfold printf_u. rewrite base_digits in Hv.
  rewrite Nat.max_l by (apply decimal_width_le; lia).
  destruct (decimal_run_spec 9 v ltac:(lia)) as (H1 & H2 & H3).
  split; [done|]. split; [done|]. rewrite H3. apply Z.mod_small. lia.
Qed.

Lemma printf_plain v :
  0 < v < BASE ->
  is_digits (printf_u 1 v) /\ (1 <= length (printf_u 1 v) <= 9)%nat /\
  decimal_value (printf_u 1 v) = v /\ head (printf_u 1 v) <> Some 48.
Proof.
  intros Hv. unfold printf_u.
  destruct (decimal_width_spec 10 v) as (W1 & W2 & W3); [base_lia|].
  pose proof (decimal_width_le 10 v 9 ltac:(lia) ltac:(lia) ltac:(rewrite <- base_digits; lia)).
  rewrite Nat.max_r by lia. set (w := decimal_width 10 v) in *.
  destruct (decimal_run_spec w v ltac:(lia)) as (H1 & H2 & H3).
  rewrite Z.mod_small in H3 by lia.
  split; [done|]. split; [lia|]. split; [done|].
  destruct (decimal_run w v) as [|c s] eqn:E; [done|]. intros [= ->].
  apply Forall_cons in H1 as [_ H1]. pose proof (decimal_value_bounds s H1) as Hb.
  change (48 :: s) with ([48] ++ s) in H3. rewrite decimal_value_app in H3.
  change (decimal_value [48]) with 0 in H3. cbn [length] in H2.
  replace (length s) with (w - 1)%nat in Hb by lia.
  destruct (Nat.eq_dec w 1%nat) as [Ew|Nw].
  - rewrite Ew in Hb. simpl in Hb. lia.
  - specialize (W3 ltac:(lia)). replace (Z.of_nat (w - 1)) with (Z.of_nat w - 1) in Hb by lia. lia.
Qed.

Lemma bignum_to_string_loop_spec cap limbs j out :
  limbs_ok limbs -> (j <= length limbs)%nat -> (length out + 9 * j < cap)%nat ->
  exists s, bignum_to_string_loop cap limbs j out = Some (out ++ s) /\
    is_digits s /\ length s = (9 * j)%nat /\ decimal_value s = value_of (take j limbs).
Proof.
  intros Hl. revert out. induction j as [|j IH]; intros out Hj Hcap;
    cbn [bignum_to_string_loop].
  - exists []. rewrite app_nil_r. repeat split; constructor.
  - rewrite array_read_in by lia.
    pose proof (in_base_nth BASE_gt_1 j limbs Hl) as Hx.
    destruct (printf_padded _ Hx) as (P1 & P2 & P3). unfold snprintf_u. cbv zeta.
    rewrite P2. destruct (Nat.ltb_spec (length out + 9) cap); [|lia]. simpl.
    destruct (IH (out ++ printf_u 9 (nth j limbs 0))) as (s & E & H1 & H2 & H3);
      [lia|rewrite length_app, P2; lia|].
    rewrite E. exists (printf_u 9 (nth j limbs 0) ++ s). rewrite app_assoc.
    split; [done|]. split; [by apply Forall_app|].
    split; [rewrite length_app; lia|].
    rewrite decimal_value_app, P3, H3, H2, (eval_take_S BASE_gt_1) by lia.
    replace (10 ^ Z.of_nat (9 * j)) with (BASE ^ Z.of_nat j); [ring|].
    rewrite base_digits, <- Z.pow_mul_r by lia. f_equal. lia.
Qed.

(** The sign a printed Int starts with. *)
Definition sign_text (negative : bool) : list Z := if negative then [45] else [].

(** [diamond_bignum_to_string] fits the buffer [diamond_bignum_string_length]
    asks for and writes the sign and the magnitude's decimal digits, without
    leading zeros. *)
Lemma diamond_bignum_to_string_spec value :
  canonical (Value.limbs value) -> Value.limbs value <> [] ->
  exists digits,
    diamond_bignum_to_string value (diamond_bignum_string_length value) =
      Some (sign_text (Value.negative value) ++ digits) /\
    is_digits digits /\ head digits <> Some 48 /\
    decimal_value digits = value_of (Value.limbs value).
Proof.
  destruct value as [neg l]. simpl. intros [Hl Ht] Hne.
  unfold diamond_bignum_to_string, diamond_bignum_string_length. simpl.
  assert (Hlen : (0 < length l)%nat) by (destruct l; simpl; [done|lia]).
  set (cap := ((if neg then 1 else 0) + length l * 9 + 1)%nat).
  replace (if neg then (if (0 <? cap)%nat then Some [45] else None) else Some [])
    with (Some (sign_text neg)) by (by destruct neg).
  rewrite array_read_in by lia.
  assert (Htop : 0 < nth (length l - 1) l 0 < BASE).
  { pose proof (in_base_nth BASE_gt_1 (length l - 1) l Hl).
    assert (nth (length l - 1) l 0 <> 0); [|lia]. intros E. apply Ht.
    rewrite last_lookup. rewrite <- E. replace (pred (length l)) with (length l - 1)%nat by lia.
    destruct (lookup_lt_is_Some_2 l (length l - 1) ltac:(lia)) as [x Hx]. rewrite Hx.
    by rewrite nth_lookup, Hx. }
  destruct (printf_plain _ Htop) as (P1 & P2 & P3 & P4).
  assert (Hs : length (sign_text neg) = (if neg then 1 else 0)%nat) by (by destruct neg).
  unfold snprintf_u. cbv zeta. rewrite Hs.
  destruct (Nat.ltb_spec (length (printf_u 1 (nth (length l - 1) l 0))) 21); [|lia].
  match goal with |- context [Nat.ltb ?a ?b] => destruct (Nat.ltb_spec a b) end;
    [|unfold cap in *; lia]. simpl.
  destruct (bignum_to_string_loop_spec cap l (length l - 1)
    (sign_text neg ++ printf_u 1 (nth (length l - 1) l 0))) as (s & E & H1 & H2 & H3);
    [done|lia|rewrite length_app; unfold cap; lia|].
  rewrite E. eexists. rewrite <- app_assoc. split; [done|].
  split; [by apply Forall_app|]. split.
  { destruct (printf_u 1 (nth (length l - 1) l 0)); [simpl in P2; lia|done]. }
  rewrite decimal_value_app, P3, H3, H2.
  pose proof (eval_take_S BASE_gt_1 l (length l - 1) ltac:(lia)) as Ht'.
  replace (S (length l - 1)) with (length l) in Ht' by lia.
  rewrite take_ge in Ht' by lia. rewrite Ht'.
  replace (10 ^ Z.of_nat (9 * (length l - 1))) with (BASE ^ Z.of_nat (length l - 1)); [ring|].
  rewrite base_digits, <- Z.pow_mul_r by lia. f_equal. lia.
Qed.

Lemma chunk_value_spec acc s :
  is_digits s -> 0 <= acc -> (acc + 1) * 10 ^ Z.of_nat (length s) <= two_32 ->
  chunk_value acc s = eval_be 10 acc (map (fun c => c - 48) s).
Proof.
  intros Hs. revert acc. induction Hs as [|c s Hc Hs IH]; intros acc Ha Hb; [done|].
  cbn [chunk_value map eval_be length] in *. rewrite pow_S in Hb.
  pose proof (Z.pow_pos_nonneg 10 (Z.of_nat (length s)) ltac:(lia) ltac:(lia)).
  assert (acc * 10 + 10 <= two_32) by nia.
  rewrite (to_u32_small (acc * 10)), (to_u32_small (c - 48)) by lia.
  rewrite to_u32_small by lia. apply IH; [lia|]. nia.
Qed.

Lemma decimal_limbs_loop_spec room digits stop :
  is_digits digits -> (stop <= length digits)%nat -> (stop <= 9 * room)%nat ->
  exists l, decimal_limbs_loop room digits stop = Some l /\ limbs_ok l /\
    value_of l = decimal_value (take stop digits).
Proof.
  intros Hd. revert stop. induction room as [|room IH]; intros stop Hs Hr;
    cbn [decimal_limbs_loop]; destruct (Nat.eqb_spec stop 0) as [->|Hn];
    try (exists []; repeat split; constructor); [lia|].
  set (n := if (9 <=? stop)%nat then 9%nat else stop).
  assert (Hnb : (n <= 9 /\ 1 <= n <= stop)%nat) by (unfold n; case_bools; lia).
  assert (Hrest : (stop - n <= 9 * room)%nat) by (unfold n; case_bools; lia).
  set (chunk := take n (drop (stop - n) digits)).
  assert (Hchunk : is_digits chunk) by (by apply Forall_take, Forall_drop).
  assert (Lchunk : length chunk = n) by (unfold chunk; rewrite length_take, length_drop; lia).
  pose proof (decimal_value_bounds chunk Hchunk) as Hcb. rewrite Lchunk in Hcb.
  assert (Hp9 : 10 ^ Z.of_nat n <= 10 ^ 9) by (apply Z.pow_le_mono_r; lia).
  rewrite chunk_value_spec; [|done|lia|rewrite Lchunk; base_lia].
  fold (decimal_value chunk).
  destruct (IH (stop - n)%nat) as (l & -> & Hl & Hv); [lia|lia|].
  eexists. split; [done|]. split; [apply in_base_cons; split; [base_lia|done]|].
  cbn [eval]. rewrite Hv.
  assert (Esplit : take stop digits = take (stop - n) digits ++ chunk).
  { unfold chunk. rewrite <- (take_drop (stop - n) (take stop digits)).
    rewrite take_take, Nat.min_l by lia. f_equal.
    rewrite skipn_firstn_comm. f_equal. lia. }
  rewrite Esplit, decimal_value_app, Lchunk.
  destruct (Nat.eq_dec n 9%nat) as [->|Hn9].
  - rewrite <- base_digits. ring.
  - assert (stop - n = 0)%nat as -> by (unfold n in *; case_bools; lia).
    rewrite take_0. change (decimal_value []) with 0. ring.
Qed.

Section Decimal.

Context {S : Type} `{!VmHeap S}.

Lemma diamond_bignum_from_decimal_digits_computes digits negative :
  is_digits digits ->
  computes (diamond_bignum_from_decimal_digits (S:=S) digits negative)
    (signed negative (decimal_value digits)).
Proof using Type.
  intros Hd. apply computes_malloc; [|apply may_return_nil]. simpl.
  destruct (decimal_limbs_loop_spec (length digits / 9 + 1) digits (length digits))
    as (l & E & Hl & Hv); [done|lia| |].
  { pose proof (Nat.div_mod (length digits) 9 ltac:(lia)).
    pose proof (Nat.mod_upper_bound (length digits) 9 ltac:(lia)). lia. }
  apply (computes_lift _ l); [done|]. rewrite take_ge in Hv by lia. rewrite <- Hv.
  destruct (trim_limbs_spec l Hl) as (Hc & <- & _). by apply bignum_canonicalize_computes.
Qed.

End Decimal.

(** ** Radix text *)

(** The value of a radix digit string, most significant first. *)
Definition radix_value (radix : Z) (s : list Z) : Z := eval_be radix 0 (map radix_digit s).

(** Digits of [radix] in either case, as the parser's callers validate them. *)
Definition is_radix_digit (radix c : Z) : Prop :=
  (48 <= c <= 57 \/ 97 <= c <= 122 \/ 65 <= c <= 90) /\ radix_digit c < radix.

Lemma radix_digit_range radix c : is_radix_digit radix c -> 0 <= radix_digit c < radix.
Proof.
  intros [H1 H2]. split; [|done]. unfold radix_digit in *.
  destruct ((48 <=? c) && (c <=? 57)), ((97 <=? c) && (c <=? 122)); apply to_u32_range.
Qed.

(** The table and the parser agree on every digit. *)
Lemma radix_digits_lookup d :
  0 <= d < 36 -> exists c, array_read radix_digits (Z.to_nat d) = Some c /\
    radix_digit c = d /\ (48 <= c <= 57 \/ 97 <= c <= 122).
Proof.
  intros Hd. unfold array_read, radix_digits.
  destruct (Z.lt_ge_cases d 10).
  - rewrite lookup_app_l by (rewrite length_seqZ; lia).
    rewrite lookup_seqZ_lt by lia. eexists. split; [done|]. unfold radix_digit.
    rewrite Z2Nat.id by lia. case_bools; simpl; try lia.
    rewrite to_u32_small by base_lia. split; lia.
  - rewrite lookup_app_r by (rewrite length_seqZ; lia). rewrite length_seqZ.
    rewrite lookup_seqZ_lt by lia. eexists. split; [done|]. unfold radix_digit.
    case_bools; simpl; try lia; rewrite to_u32_small by base_lia; split; lia.
Qed.

Section Radix.

Context (radix : Z) (Hradix : 2 <= radix <= 36).

Lemma radix_gt_1 : 1 < radix.
Proof using Hradix. lia. Qed.

Lemma magnitude_divide_radix_spec l :
  limbs_ok l ->
  let '(q, r) := magnitude_divide_radix radix l in
  limbs_ok q /\ 0 <= r < radix /\ value_of l = radix * value_of q + r.
Proof using Hradix.
  assert (E32 : to_u32 radix = radix) by (apply to_u32_small; base_lia).
  induction 1 as [|x l Hx Hl IH]; cbn [magnitude_divide_radix].
  - split; [constructor|]. simpl. lia.
  - destruct (magnitude_divide_radix radix l) as [q r]. destruct IH as (Hq & Hr & Hv).
    rewrite E32, (to_u64_small (r * BASE)) by base_lia.
    rewrite (to_u64_small (r * BASE + x)) by base_lia.
    set (c := r * BASE + x) in *.
    pose proof (Z.mod_pos_bound c radix ltac:(lia)).
    pose proof (Z.div_mod c radix ltac:(lia)).
    assert (0 <= c / radix < BASE).
    { split; [apply Z.div_pos; [unfold c; base_lia|lia]|].
      apply Z.div_lt_upper_bound; [lia|]. unfold c. nia. }
    rewrite to_u32_small by base_lia.
    split; [by apply in_base_cons|]. split; [done|].
    cbn [eval]. rewrite Hv. unfold c in *. lia.
Qed.

(** The digits the loop stores, least significant first, evaluate back to the
    magnitude; the buffer has room because a limb is below [2^30]. *)
Lemma radix_string_loop_spec room l :
  canonical l -> value_of l < radix ^ Z.of_nat room ->
  exists s, radix_string_loop room radix l = Some s /\
    Forall (is_radix_digit radix) s /\
    eval radix (map radix_digit s) = value_of l /\
    trimmed (map radix_digit s) /\ (length s <= room)%nat.
Proof using Hradix.
  revert l. induction room as [|n IH]; intros l Hc Hv; cbn [radix_string_loop].
  - simpl in Hv. pose proof (value_nonneg _ Hc).
    rewrite (trimmed_zero BASE_gt_1 l (proj1 Hc) (proj2 Hc) ltac:(lia)).
    exists []. repeat split; try constructor; done.
  - destruct (Nat.eqb_spec (length l) 0) as [E|E].
    { destruct l; [|done]. exists []. repeat split; try constructor; simpl; done || lia. }
    pose proof (magnitude_divide_radix_spec l (proj1 Hc)) as H.
    destruct (magnitude_divide_radix radix l) as [q r]. destruct H as (Hq & Hr & Heq).
    destruct (radix_digits_lookup r ltac:(lia)) as (c & -> & Hd & Hcase).
    destruct (trim_limbs_spec q Hq) as (Hcq & Vq & _). rewrite pow_S in Hv.
    destruct (IH (trim_limbs q) Hcq) as (s & -> & Hs & Vs & Ts & Ls).
    { rewrite Vq. pose proof (eval_bounds BASE_gt_1 _ Hq). nia. }
    exists (c :: s). split; [done|].
    split; [constructor; [split; [tauto|lia]|done]|].
    assert (Hval : eval radix (map radix_digit (c :: s)) = value_of l)
      by (cbn [map eval]; rewrite Vs, Vq, Hd; lia).
    split; [done|]. split; [|simpl; lia].
    destruct s as [|c' s]; [|done]. cbn [map eval] in Hval |- *. intros [= E0].
    apply E. rewrite (trimmed_zero BASE_gt_1 l (proj1 Hc) (proj2 Hc) ltac:(lia)). done.
Qed.

Lemma radix_capacity l : limbs_ok l -> value_of l < radix ^ Z.of_nat (length l * 30).
Proof using Hradix.
  intros Hl. pose proof (eval_bounds BASE_gt_1 _ Hl).
  assert (BASE ^ Z.of_nat (length l) <= (2 ^ 30) ^ Z.of_nat (length l))
    by (apply Z.pow_le_mono_l; done).
  rewrite <- Z.pow_mul_r in * by lia.
  assert (2 ^ (30 * Z.of_nat (length l)) <= radix ^ (30 * Z.of_nat (length l)))
    by (apply Z.pow_le_mono_l; lia).
  replace (Z.of_nat (length l * 30)) with (30 * Z.of_nat (length l)) by lia. lia.
Qed.

Lemma radix_limbs_loop_spec capacity s l :
  Forall (is_radix_digit radix) s -> canonical l ->
  (value_of l + 1) * radix ^ Z.of_nat (length s) <= BASE ^ Z.of_nat capacity ->
  exists r, radix_limbs_loop capacity radix s l = Some r /\ canonical r /\
    value_of r = eval_be radix (value_of l) (map radix_digit s).
Proof using Hradix.
  intros Hs. revert l. induction Hs as [|c s Hc Hs IH]; intros l Hl Hb;
    cbn [radix_limbs_loop].
  - exists l. done.
  - cbn [length] in Hb. rewrite pow_S in Hb.
    pose proof (base_pow_pos radix_gt_1 (length s)). pose proof (value_nonneg _ Hl).
    pose proof (radix_digit_range _ _ Hc).
    assert (Hstep : (radix * value_of l + radix_digit c + 1) * radix ^ Z.of_nat (length s)
                    <= BASE ^ Z.of_nat capacity).
    { eapply Z.le_trans; [|exact Hb].
      replace ((value_of l + 1) * (radix * radix ^ Z.of_nat (length s)))
        with (((value_of l + 1) * radix) * radix ^ Z.of_nat (length s)) by ring.
      apply Z.mul_le_mono_nonneg_r; lia. }
    destruct (magnitude_multiply_add_spec capacity l radix (radix_digit c) Hl)
      as (l1 & -> & Hl1 & V1); [base_lia|base_lia|nia|].
    destruct (IH l1 Hl1) as (r & -> & Hr & Vr); [rewrite V1; exact Hstep|].
    exists r. split; [done|]. split; [done|]. cbn [map eval_be]. rewrite Vr, V1. f_equal. ring.
Qed.

(** A radix digit carries at most six bits and a limb at least 29. *)
Lemma radix_limb_capacity n :
  radix ^ Z.of_nat n <= BASE ^ Z.of_nat (n * 6 / 29 + 3).
Proof using Hradix.
  assert (radix ^ Z.of_nat n <= (2 ^ 6) ^ Z.of_nat n) by (apply Z.pow_le_mono_l; lia).
  assert ((2 ^ 29) ^ Z.of_nat (n * 6 / 29 + 3) <= BASE ^ Z.of_nat (n * 6 / 29 + 3))
    by (apply Z.pow_le_mono_l; done).
  rewrite <- !Z.pow_mul_r in * by lia.
  assert (2 ^ (6 * Z.of_nat n) <= 2 ^ (29 * Z.of_nat (n * 6 / 29 + 3))); [|lia].
  apply Z.pow_le_mono_r; [lia|].
  pose proof (Nat.div_mod (n * 6) 29 ltac:(lia)).
  pose proof (Nat.mod_upper_bound (n * 6) 29 ltac:(lia)). lia.
Qed.

Lemma diamond_bignum_from_radix_digits_computes {S} `{!VmHeap S} digits negative :
  Forall (is_radix_digit radix) digits ->
  computes (diamond_bignum_from_radix_digits (S:=S) digits radix negative)
    (signed negative (radix_value radix digits)).
Proof using Hradix.
  intros Hd. apply computes_malloc; [|apply may_return_nil]. simpl.
  rewrite to_u32_small by base_lia.
  destruct (radix_limbs_loop_spec (length digits * 6 / 29 + 3) digits [])
    as (r & E & Hr & Vr); [done|by split; [constructor|]| |].
  { pose proof (radix_limb_capacity (length digits)). cbn [eval]. lia. }
  apply (computes_lift _ r); [done|]. rewrite trim_limbs_canonical by done.
  unfold radix_value. cbn [eval] in Vr. rewrite <- Vr. by apply bignum_canonicalize_computes.
Qed.

End Radix.

(** ** The in-place reversal *)

Lemma array_read_swap (buf : list Z) i j a b :
  buf !! i = Some a -> buf !! j = Some b ->
  exists buf', (let? buf := array_write buf i b in array_write buf j a) = Some buf' /\
    length buf' = length buf /\
    forall k, buf' !! k = if decide (k = j) then Some a else if decide (k = i) then Some b
                          else buf !! k.
Proof.
  intros Hi Hj. pose proof (lookup_lt_Some _ _ _ Hi). pose proof (lookup_lt_Some _ _ _ Hj).
  rewrite array_write_in by done. rewrite array_write_in by (rewrite length_insert; done).
  eexists. split; [done|]. split; [by rewrite !length_insert|]. intros k.
  destruct (decide (k = j)) as [->|Hkj].
  - apply list_lookup_insert_eq. by rewrite length_insert.
  - rewrite list_lookup_insert_ne by done. destruct (decide (k = i)) as [->|Hki].
    + by apply list_lookup_insert_eq.
    + by rewrite list_lookup_insert_ne.
Qed.

(** With the outer [i] pairs of [orig] already swapped, the remaining rounds
    finish the reversal. *)
Lemma reverse_loop_spec n i (orig buf : list Z) :
  length buf = length orig -> (i + n = length orig / 2)%nat ->
  (forall k, buf !! k = if decide (k < i \/ length orig - i <= k < length orig)%nat
                        then orig !! (length orig - 1 - k)%nat else orig !! k) ->
  reverse_loop n i buf = Some (rev orig).
Proof.
  revert i buf. set (L := length orig). induction n as [|n IH]; intros i buf Hlen Hin Hbuf;
    cbn [reverse_loop].
  - pose proof (Nat.div_mod L 2 ltac:(lia)). pose proof (Nat.mod_upper_bound L 2 ltac:(lia)).
    f_equal. apply list_eq. intros k. rewrite Hbuf.
    destruct (Nat.lt_ge_cases k L) as [Hk|Hk].
    + rewrite rev_alt. change (rev_append orig []) with (reverse orig).
      rewrite reverse_lookup by done. fold L.
      replace (L - S k)%nat with (L - 1 - k)%nat by lia.
      destruct (decide _) as [|Hno]; [done|]. f_equal. lia.
    + destruct (decide _); [lia|]. rewrite !lookup_ge_None_2; [done|rewrite length_rev; done|done].
  - pose proof (Nat.div_mod L 2 ltac:(lia)). pose proof (Nat.mod_upper_bound L 2 ltac:(lia)).
    unfold array_read. rewrite Hlen. fold L. 
    destruct (lookup_lt_is_Some_2 buf i ltac:(fold L in Hlen; lia)) as [a Ha].
    destruct (lookup_lt_is_Some_2 buf (L - 1 - i) ltac:(fold L in Hlen; lia)) as [b Hb].
    rewrite Ha, Hb.
    destruct (array_read_swap buf i (L - 1 - i) a b Ha Hb) as (buf' & E & L' & Hbuf').
    rewrite array_write_in in E |- * by (fold L in Hlen; lia).
    rewrite length_insert, Hlen. fold L. rewrite E.
    apply IH; [lia|lia|]. intros k. rewrite Hbuf', Hbuf.
    rewrite Hbuf in Ha, Hb.
    destruct (decide (i < i \/ _)%nat) in Ha; [lia|].
    destruct (decide (L - 1 - i < i \/ _)%nat) in Hb; [lia|].
    destruct (decide (k = L - 1 - i)%nat) as [->|Hk1].
    + destruct (decide _); [|lia]. rewrite <- Ha. f_equal. lia.
    + destruct (decide (k = i)) as [->|Hk2].
      * destruct (decide _); [|lia]. rewrite <- Hb. f_equal.
      * destruct (decide (k < i \/ _)%nat), (decide (k < S i \/ _)%nat); try done; lia.
Qed.

Lemma reverse_in_place l : reverse_loop (length l / 2) 0 l = Some (rev l).
Proof.
  apply reverse_loop_spec; [done|done|]. intros k. destruct (decide _); [lia|done].
Qed.

Section RadixText.

Context (radix : Z) (Hradix : 2 <= radix <= 36).
Context {S : Type} `{!VmHeap S}.

(** What [diamond_bignum_to_radix_string] writes: the sign, then the digits of
    the magnitude, without leading zeros unless the Int is zero. *)
Definition radix_text (view : DiamondIntView) (digits : list Z) : Prop :=
  Forall (is_radix_digit radix) digits /\ digits <> [] /\
  radix_value radix digits = value_of (view_limbs view) /\
  (length digits <> 1%nat -> head (map radix_digit digits) <> Some 0).

Lemma radix_text_exists view :
  view_canonical view ->
  exists reversed,
    radix_string_loop (length (view_limbs view) * 30 + 3) radix (trim_limbs (view_limbs view))
      = Some reversed /\
    (length reversed <= length (view_limbs view) * 30)%nat /\
    radix_text view (rev (match reversed with [] => [48] | _ => reversed end)).
Proof using Hradix.
  intros Hc. rewrite trim_limbs_canonical by done. unfold view_canonical in Hc.
  set (l := view_limbs view) in *.
  pose proof (radix_capacity radix Hradix l (proj1 Hc)) as Hcap.
  destruct (radix_string_loop_spec radix Hradix (length l * 30 + 3) l Hc)
    as (s & E & Hs & Vs & Ts & _).
  { pose proof (radix_gt_1 radix Hradix).
    assert (radix ^ Z.of_nat (length l * 30) <= radix ^ Z.of_nat (length l * 30 + 3))
      by (apply Z.pow_le_mono_r; lia). lia. }
  exists s. split; [done|].
  assert (Hin : in_base radix (map radix_digit s)).
  { unfold in_base. apply Forall_map. eapply Forall_impl; [exact Hs|].
    simpl. apply radix_digit_range. }
  split.
  { rewrite <- (length_map radix_digit).
    apply (trimmed_length_lt (radix_gt_1 radix Hradix)); [done|done|]. lia. }
  unfold radix_text, radix_value. fold l. rewrite map_rev, eval_be_rev, <- Vs.
  destruct s as [|c s].
  - split; [apply Forall_rev; constructor; [|constructor]; split;
      [lia|change (radix_digit 48) with 0; lia]|].
    split; [done|]. split; [cbn [map eval]; change (radix_digit 48) with 0; lia|]. simpl. lia.
  - split; [by apply Forall_rev|]. split; [simpl; by destruct (rev s)|]. split; [done|].
    intros _. rewrite rev_alt. change (rev_append _ []) with (reverse (map radix_digit (c :: s))).
    by rewrite head_reverse.
Qed.

Lemma diamond_bignum_to_radix_string_spec view :
  view_canonical view ->
  exists digits, radix_text view digits /\
  forall s : S,
    let '(ok1, s1) := malloc (Z.of_nat (length (view_limbs view) * 30 + 3)) s in
    let '(ok2, s2) := malloc (limbs_bytes (if (length (view_limbs view) =? 0)%nat then 1
                                           else length (view_limbs view))) s1 in
    diamond_bignum_to_radix_string view radix s =
      Some (if ok1 && ok2 then Some (sign_text (view_negative view) ++ digits) else None, s2).
Proof using Hradix.
  intros Hc. destruct (radix_text_exists view Hc) as (r & E & Hlen & Ht).
  set (r' := match r with [] => [48] | _ => r end) in *.
  assert (Hlen' : (length r' <= length (view_limbs view) * 30 + 1)%nat).
  { destruct r; unfold r'; simpl in *; lia. }
  exists (rev r'). split; [done|]. intros s.
  destruct (malloc _ s) as [ok1 s1] eqn:E1. destruct (malloc _ s1) as [ok2 s2] eqn:E2.
  unfold diamond_bignum_to_radix_string. cbv zeta.
  set (cap := (length (view_limbs view) * 30 + 3)%nat) in *.
  unfold vm_bind at 1. unfold vm_malloc at 1. rewrite E1.
  unfold vm_bind at 1. unfold vm_malloc at 1. rewrite E2.
  destruct ok1, ok2; try done. cbn [negb orb andb].
  rewrite E. unfold vm_bind, vm_lift.
  assert (Er : (if (length r =? 0)%nat then push_char cap r 48 else Some r) = Some r').
  { destruct r; [|done]. unfold push_char. simpl.
    destruct (Nat.ltb_spec 0 cap); [done|unfold cap in *; lia]. }
  rewrite Er.
  set (r2 := r' ++ sign_text (view_negative view)).
  assert (Er2 : (if view_negative view then push_char cap r' 45 else Some r') = Some r2).
  { unfold r2, push_char. destruct (view_negative view); simpl; [|by rewrite app_nil_r].
    destruct (Nat.ltb_spec (length r') cap); [done|unfold cap in *; lia]. }
  rewrite Er2, reverse_in_place. unfold r2. rewrite rev_app_distr.
  replace (rev (sign_text (view_negative view))) with (sign_text (view_negative view))
    by (by destruct (view_negative view)).
  unfold push_char. rewrite length_app, length_rev.
  assert (length (sign_text (view_negative view)) <= 1)%nat
    by (destruct (view_negative view); simpl; lia).
  match goal with |- context [Nat.ltb ?a ?b] => destruct (Nat.ltb_spec a b) end;
    [done|unfold cap in *; lia].
Qed.

End RadixText.

(** ** Round trips *)

(** C30: Printing an Int outside the 64-bit range into a buffer of
    [diamond_bignum_string_length] bytes stays inside it, yields a sign and
    decimal digits with no leading zero, and parsing those digits back gives the
    same Int. *)
Theorem decimal_round_trip {S} `{!VmHeap S} value z :
  represents (DIAMOND_OBJECT (OBJECT_BIGNUM value)) z ->
  exists digits,
    diamond_bignum_to_string value (diamond_bignum_string_length value) =
      Some (sign_text (Value.negative value) ++ digits) /\
    is_digits digits /\ head digits <> Some 48 /\
    computes (S:=S) (diamond_bignum_from_decimal_digits digits (Value.negative value)) z.
Proof.
  intros [[Hc Hn] [= Hz]].
  assert (Hne : Value.limbs value <> []).
  { intros E. rewrite E in Hn. apply Hn. destruct (Value.negative value); simpl; base_lia. }
  destruct (diamond_bignum_to_string_spec value Hc Hne) as (d & E & Hd & Hh & Hv).
  exists d. split; [done|]. split; [done|]. split; [done|].
  rewrite <- Hz, <- Hv. by apply diamond_bignum_from_decimal_digits_computes.
Qed.

Lemma decimal_round_trip_witness :
  exists digits,
    diamond_bignum_to_string {| negative := true; limbs := [7; 0; 42] |} 29 =
      Some (45 :: digits) /\
    computes (S:=ScriptedHeap)
      (diamond_bignum_from_decimal_digits digits true) (-42000000000000000007).
Proof.
  destruct (decimal_round_trip (S:=ScriptedHeap) {| negative := true; limbs := [7; 0; 42] |}
    (-42000000000000000007)) as (d & E & _ & _ & H).
  - split; [|reflexivity]. split.
    + split; [repeat constructor; vm_compute; congruence|vm_compute; congruence].
    + vm_compute. intros [H _]. by apply H.
  - exists d. split; [exact E|exact H].
Defined.

(** In every radix from 2 to 36, the text of an Int is its sign and digits
    of the radix (written within the allocated buffer, reversed in place), and
    parsing the digits back gives the same Int. *)
Theorem radix_round_trip {S} `{!VmHeap S} v z radix :
  represents v z -> 2 <= radix <= 36 ->
  exists view digits, diamond_int_view v = Some view /\
    (forall plenty, PlentyHeap S plenty -> forall s, plenty s ->
       exists s', diamond_bignum_to_radix_string view radix s =
         Some (Some (sign_text (z <? 0) ++ digits), s')) /\
    Forall (is_radix_digit radix) digits /\
    computes (S:=S) (diamond_bignum_from_radix_digits digits radix (z <? 0)) z.
Proof.
  intros Hv Hr. destruct (diamond_int_view_spec v z Hv) as (view & Ev & [Hc H0] & Hval).
  destruct (diamond_bignum_to_radix_string_spec (S:=S) radix Hr view Hc) as (d & Ht & Hrun).
  assert (Hneg : view_negative view = (z <? 0)).
  { unfold view_value in Hval. pose proof (value_nonneg _ Hc).
    destruct (view_negative view); simpl in Hval; destruct (Z.ltb_spec z 0); try done; [|lia].
    assert (view_limbs view = []) as E; [|by apply H0 in E].
    apply (trimmed_zero BASE_gt_1); [apply Hc|apply Hc|lia]. }
  exists view, d. split; [done|]. destruct Ht as (Hd & _ & Hvd & _).
  split; [|split; [done|]].
  - intros plenty HP s Hs. specialize (Hrun s).
    destruct (plenty_malloc (Z.of_nat (length (view_limbs view) * 30 + 3)) s Hs) as [E1 Hs1].
    destruct (malloc (Z.of_nat _) s) as [ok1 s1]. simpl in E1, Hs1. subst ok1.
    match type of Hrun with context [malloc ?n s1] =>
      destruct (plenty_malloc n s1 Hs1) as [E2 Hs2]; destruct (malloc n s1) as [ok2 s2] end.
    simpl in E2. subst ok2. rewrite Hrun, Hneg. eauto.
  - unfold view_value in Hval. rewrite Hneg, <- Hvd in Hval. rewrite <- Hval at 2.
    by apply diamond_bignum_from_radix_digits_computes.
Qed.

Lemma radix_round_trip_witness :
  exists view digits, diamond_int_view (DIAMOND_INT (-255)) = Some view /\
    computes (S:=ScriptedHeap) (diamond_bignum_from_radix_digits digits 16 true) (-255).
Proof.
  destruct (radix_round_trip (S:=ScriptedHeap) (DIAMOND_INT (-255)) (-255) 16)
    as (view & d & E & _ & _ & H).
  - split; [vm_compute; split; congruence|reflexivity].
  - lia.
  - exists view, d. split; [exact E|exact H].
Defined.
