(* ===== verification/IntOps.v ===== *)
(** * IntOps: the Int instructions of the interpreter

    The handlers of src/vm_run_chunk.c for arithmetic, comparison, bitwise and
    shift instructions with their slow paths in src/vm_operators.c: plain
    [int64_t] fast paths, promotion to bignums on overflow, and the bytecode
    rewriting of quickening and deoptimization.

    Operands that are not both Ints leave this file through the parameter
    [other_operands] (Float, String, Array, Time and user-defined operators);
    every theorem is about Int operands and holds for any such parameter. *)

From S2P Require Import Prelude Digits Magnitude Value Bignum BignumBits.
From Stdlib Require Import ZArith Lia Bool List.
From stdpp Require Import base numbers list.

Local Open Scope Z_scope.
Local Open Scope c_scope.

Inductive DiamondVmStatus :=
  | DIAMOND_VM_OK | DIAMOND_VM_INVALID_BYTECODE | DIAMOND_VM_TYPE_ERROR
  | DIAMOND_VM_INTEGER_OVERFLOW | DIAMOND_VM_DIVISION_BY_ZERO
  | DIAMOND_VM_OUT_OF_MEMORY
  (** the statuses no Int instruction returns, by their enumerator value *)
  | DIAMOND_VM_OTHER (status : Z).

#[global] Instance DiamondVmStatus_eq_dec : EqDecision DiamondVmStatus.
Proof. solve_decision. Defined.

(** The opcodes of the Int instructions. *)
Inductive DiamondOpCode :=
  | DIAMOND_OP_ADD | DIAMOND_OP_SUBTRACT | DIAMOND_OP_MULTIPLY | DIAMOND_OP_DIVIDE
  | DIAMOND_OP_ADD_INT | DIAMOND_OP_SUBTRACT_INT | DIAMOND_OP_MULTIPLY_INT
  | DIAMOND_OP_DIVIDE_INT
  | DIAMOND_OP_MODULO | DIAMOND_OP_NEGATE
  | DIAMOND_OP_SHIFT_LEFT | DIAMOND_OP_SHIFT_RIGHT
  | DIAMOND_OP_BITWISE_AND | DIAMOND_OP_BITWISE_OR | DIAMOND_OP_BITWISE_XOR
  | DIAMOND_OP_EQUAL | DIAMOND_OP_NOT_EQUAL
  | DIAMOND_OP_EQUAL_INT | DIAMOND_OP_NOT_EQUAL_INT
  | DIAMOND_OP_LESS | DIAMOND_OP_LESS_EQUAL | DIAMOND_OP_GREATER | DIAMOND_OP_GREATER_EQUAL
  | DIAMOND_OP_LESS_INT | DIAMOND_OP_LESS_EQUAL_INT | DIAMOND_OP_GREATER_INT
  | DIAMOND_OP_GREATER_EQUAL_INT
  | DIAMOND_OP_COMPARE
  | DIAMOND_OP_ADD_INT_K | DIAMOND_OP_SUBTRACT_INT_K | DIAMOND_OP_MULTIPLY_INT_K
  | DIAMOND_OP_MODULO_INT_K
  | DIAMOND_OP_LESS_INT_K | DIAMOND_OP_LESS_EQUAL_INT_K | DIAMOND_OP_GREATER_INT_K
  | DIAMOND_OP_GREATER_EQUAL_INT_K | DIAMOND_OP_EQUAL_INT_K | DIAMOND_OP_NOT_EQUAL_INT_K.

#[global] Instance DiamondOpCode_eq_dec : EqDecision DiamondOpCode.
Proof. solve_decision. Defined.

(** The part of [DiamondVm] and of the running chunk the handlers touch. *)
Record Machine (S : Type) := {
  heap : S;
  code : list DiamondOpCode;       (* the opcode byte of each instruction site *)
  constants : list DiamondValue;
  registers : list DiamondValue;
  quickening : bool;
  quickening_threshold : Z;
  quickening_observations : Z;
  quickened_sites : Z;
  deoptimized_sites : Z;
}.

Arguments heap {S}. Arguments code {S}. Arguments constants {S}. Arguments registers {S}.
Arguments quickening {S}. Arguments quickening_threshold {S}.
Arguments quickening_observations {S}. Arguments quickened_sites {S}.
Arguments deoptimized_sites {S}.

Definition with_heap {S} (m : Machine S) (h : S) : Machine S :=
  {| heap := h; code := code m; constants := constants m; registers := registers m;
     quickening := quickening m; quickening_threshold := quickening_threshold m;
     quickening_observations := quickening_observations m;
     quickened_sites := quickened_sites m; deoptimized_sites := deoptimized_sites m |}.

Definition with_registers {S} (m : Machine S) (r : list DiamondValue) : Machine S :=
  {| heap := heap m; code := code m; constants := constants m; registers := r;
     quickening := quickening m; quickening_threshold := quickening_threshold m;
     quickening_observations := quickening_observations m;
     quickened_sites := quickened_sites m; deoptimized_sites := deoptimized_sites m |}.

Definition with_code {S} (m : Machine S) (c : list DiamondOpCode)
    (observations quickened deoptimized : Z) : Machine S :=
  {| heap := heap m; code := c; constants := constants m; registers := registers m;
     quickening := quickening m; quickening_threshold := quickening_threshold m;
     quickening_observations := observations;
     quickened_sites := quickened; deoptimized_sites := deoptimized |}.

(** A handler either produces the value to store in its destination register
    or leaves [run_chunk] with an error status. *)
Inductive VmResult :=
  | Value_ (value : DiamondValue)
  | Status_ (status : DiamondVmStatus).

(** ** Machine arithmetic *)

(** C23's checked arithmetic: the overflow flag and the wrapped result. *)
Definition ckd_add (a b : Z) : bool * Z :=
  (negb ((INT64_MIN <=? a + b) && (a + b <=? INT64_MAX)), to_i64 (a + b)).
Definition ckd_sub (a b : Z) : bool * Z :=
  (negb ((INT64_MIN <=? a - b) && (a - b <=? INT64_MAX)), to_i64 (a - b)).
Definition ckd_mul (a b : Z) : bool * Z :=
  (negb ((INT64_MIN <=? a * b) && (a * b <=? INT64_MAX)), to_i64 (a * b)).

Definition diamond_int_floor_divide (left right : Z) : Z :=
  let quotient := Z.quot left right in
  quotient -
    (if negb (Z.rem left right =? 0) && (Z.lxor left right <? 0) then 1 else 0).

(** [remainder = a % b; if (remainder != 0 && (remainder < 0) != (b < 0)) remainder += b]. *)
Definition int_floor_modulo (left right : Z) : Z :=
  let remainder := Z.rem left right in
  if negb (remainder =? 0) && negb (eqb (remainder <? 0) (right <? 0))
  then remainder + right else remainder.

Definition DIAMOND_MAX_SHIFT_BITS : Z := 1048576.

(** The generic opcode of an [_INT] register form (other opcodes unchanged). *)
Definition generic_opcode (opcode : DiamondOpCode) : DiamondOpCode :=
  match opcode with
  | DIAMOND_OP_ADD_INT => DIAMOND_OP_ADD
  | DIAMOND_OP_SUBTRACT_INT => DIAMOND_OP_SUBTRACT
  | DIAMOND_OP_MULTIPLY_INT => DIAMOND_OP_MULTIPLY
  | DIAMOND_OP_DIVIDE_INT => DIAMOND_OP_DIVIDE
  | DIAMOND_OP_EQUAL_INT => DIAMOND_OP_EQUAL
  | DIAMOND_OP_NOT_EQUAL_INT => DIAMOND_OP_NOT_EQUAL
  | DIAMOND_OP_LESS_INT => DIAMOND_OP_LESS
  | DIAMOND_OP_LESS_EQUAL_INT => DIAMOND_OP_LESS_EQUAL
  | DIAMOND_OP_GREATER_INT => DIAMOND_OP_GREATER
  | DIAMOND_OP_GREATER_EQUAL_INT => DIAMOND_OP_GREATER_EQUAL
  | _ => opcode
  end.

(** The [_INT] form quickening writes over a generic opcode. *)
Definition specialized_opcode (opcode : DiamondOpCode) : DiamondOpCode :=
  match opcode with
  | DIAMOND_OP_ADD => DIAMOND_OP_ADD_INT
  | DIAMOND_OP_SUBTRACT => DIAMOND_OP_SUBTRACT_INT
  | DIAMOND_OP_MULTIPLY => DIAMOND_OP_MULTIPLY_INT
  | DIAMOND_OP_DIVIDE => DIAMOND_OP_DIVIDE_INT
  | DIAMOND_OP_EQUAL => DIAMOND_OP_EQUAL_INT
  | DIAMOND_OP_NOT_EQUAL => DIAMOND_OP_NOT_EQUAL_INT
  | DIAMOND_OP_LESS => DIAMOND_OP_LESS_INT
  | DIAMOND_OP_LESS_EQUAL => DIAMOND_OP_LESS_EQUAL_INT
  | DIAMOND_OP_GREATER => DIAMOND_OP_GREATER_INT
  | DIAMOND_OP_GREATER_EQUAL => DIAMOND_OP_GREATER_EQUAL_INT
  | _ => opcode
  end.

Definition is_plain_int (v : DiamondValue) : bool :=
  match v with DIAMOND_INT _ => true | _ => false end.

Definition is_float (v : DiamondValue) : bool :=
  match v with DIAMOND_FLOAT _ => true | _ => false end.

(** The relation a comparison opcode tests, on a three-way result. *)
Definition comparison_holds (generic : DiamondOpCode) (comparison : Z) : bool :=
  match generic with
  | DIAMOND_OP_LESS => comparison <? 0
  | DIAMOND_OP_LESS_EQUAL => comparison <=? 0
  | DIAMOND_OP_GREATER => comparison >? 0
  | _ => comparison >=? 0
  end.

(** The relation a comparison opcode tests, on two [int64_t]. *)
Definition int_comparison (generic : DiamondOpCode) (a b : Z) : bool :=
  match generic with
  | DIAMOND_OP_LESS => a <? b
  | DIAMOND_OP_LESS_EQUAL => a <=? b
  | DIAMOND_OP_GREATER => a >? b
  | _ => a >=? b
  end.

Section Handlers.

Context {S : Type} `{!VmHeap S}.

(** What the interpreter does with operands that are not both Ints. *)
Context (other_operands :
  DiamondOpCode -> DiamondValue -> DiamondValue -> VM (Machine S) VmResult).

(** [values_equal] on values that are not both Ints. *)
Context (other_equal : DiamondValue -> DiamondValue -> bool).

Definition on_heap {A} (c : VM S A) : VM (Machine S) A :=
  fun m => match c (heap m) with
           | Some (a, h) => Some (a, with_heap m h)
           | None => None
           end.

(** Run a bignum operation; NIL means it ran out of memory. *)
Definition promote (c : VM S DiamondValue) : VM (Machine S) VmResult :=
  let! bignum_result := on_heap c in
  vm_ret (if is_nil bignum_result then Status_ DIAMOND_VM_OUT_OF_MEMORY
          else Value_ bignum_result).

(** [if (vm->quickening && guard && ++observations >= threshold)] rewrite the
    site to the specialized opcode. *)
Definition quicken (guard : bool) (site : nat) (opcode : DiamondOpCode)
    : VM (Machine S) DiamondOpCode :=
  fun m =>
    if quickening m && guard then
      let observations := to_u64 (quickening_observations m + 1) in
      if observations >=? quickening_threshold m then
        let? c := array_write (code m) site (specialized_opcode opcode) in
        Some (specialized_opcode opcode,
              with_code m c observations (to_u64 (quickened_sites m + 1)) (deoptimized_sites m))
      else Some (opcode, with_code m (code m) observations (quickened_sites m)
                           (deoptimized_sites m))
    else Some (opcode, m).

(** Rewrite the site back to its generic opcode. *)
Definition deoptimize (site : nat) (generic : DiamondOpCode) : VM (Machine S) unit :=
  fun m =>
    let? c := array_write (code m) site generic in
    Some (tt, with_code m c (quickening_observations m) (quickened_sites m)
                (to_u64 (deoptimized_sites m + 1))).

Definition both_views (left right : DiamondValue)
    : VM (Machine S) (DiamondIntView * DiamondIntView) :=
  let! left_view := vm_lift (diamond_int_view left) in
  let! right_view := vm_lift (diamond_int_view right) in
  vm_ret (left_view, right_view).

Definition some_bignum (left right : DiamondValue) : bool :=
  is_int_value left && is_int_value right &&
  (value_is_bignum left || value_is_bignum right).

Definition add_fallback (left right : DiamondValue) : VM (Machine S) VmResult :=
  if some_bignum left right then
    let! views := both_views left right in
    promote (diamond_bignum_add (fst views) (snd views))
  else other_operands DIAMOND_OP_ADD left right.

Definition modulo_slow (left right : DiamondValue) : VM (Machine S) VmResult :=
  match left, right with
  | DIAMOND_INT left_int, DIAMOND_INT right_int =>
      vm_ret (if right_int =? 0 then Status_ DIAMOND_VM_DIVISION_BY_ZERO
              else if right_int =? -1 then Value_ (DIAMOND_INT 0)
              else Value_ (DIAMOND_INT (int_floor_modulo left_int right_int)))
  | _, _ =>
      if is_int_value left && is_int_value right then
        let! views := both_views left right in
        let! zero_view := vm_lift (diamond_int_view_int64 0) in
        if diamond_bignum_compare (snd views) zero_view =? 0
        then vm_ret (Status_ DIAMOND_VM_DIVISION_BY_ZERO)
        else promote (diamond_bignum_modulo_floored (fst views) (snd views))
      else other_operands DIAMOND_OP_MODULO left right
  end.

Definition int_arith_slow (site : nat) (opcode : DiamondOpCode)
    (left right : DiamondValue) : VM (Machine S) VmResult :=
  if decide (opcode = DIAMOND_OP_MODULO) then modulo_slow left right else
  let kind_mismatch := negb (is_plain_int left) || negb (is_plain_int right) in
  let generic := generic_opcode opcode in
  let! _ := (if kind_mismatch && bool_decide (generic <> opcode)
             then deoptimize site generic else vm_ret tt) in
  if kind_mismatch then
    if decide (generic = DIAMOND_OP_ADD) then add_fallback left right
    else if some_bignum left right then
      let! views := both_views left right in
      if decide (generic = DIAMOND_OP_SUBTRACT)
      then promote (diamond_bignum_subtract (fst views) (snd views))
      else if decide (generic = DIAMOND_OP_MULTIPLY)
      then promote (diamond_bignum_multiply (fst views) (snd views))
      else
        let! zero_view := vm_lift (diamond_int_view_int64 0) in
        if diamond_bignum_compare (snd views) zero_view =? 0
        then vm_ret (Status_ DIAMOND_VM_DIVISION_BY_ZERO)
        else promote (diamond_bignum_divide_floored (fst views) (snd views))
    else other_operands generic left right
  else
    match left, right with
    | DIAMOND_INT left_int, DIAMOND_INT right_int =>
        if decide (generic = DIAMOND_OP_DIVIDE) then
          if right_int =? 0 then vm_ret (Status_ DIAMOND_VM_DIVISION_BY_ZERO)
          else if (left_int =? INT64_MIN) && (right_int =? -1) then
            let! left_view := vm_lift (diamond_int_view left) in
            promote (diamond_bignum_negate left_view)
          else vm_ret (Value_ (DIAMOND_INT (diamond_int_floor_divide left_int right_int)))
        else
          let! views := both_views left right in
          if decide (generic = DIAMOND_OP_ADD)
          then promote (diamond_bignum_add (fst views) (snd views))
          else if decide (generic = DIAMOND_OP_SUBTRACT)
          then promote (diamond_bignum_subtract (fst views) (snd views))
          else promote (diamond_bignum_multiply (fst views) (snd views))
    | _, _ => vm_lift None
    end.

Definition compare_int_slow (site : nat) (opcode : DiamondOpCode)
    (left right : DiamondValue) : VM (Machine S) VmResult :=
  let generic := generic_opcode opcode in
  let! _ := (if bool_decide (generic <> opcode) then deoptimize site generic else vm_ret tt) in
  if some_bignum left right then
    let! views := both_views left right in
    let comparison := diamond_bignum_compare (fst views) (snd views) in
    vm_ret (Value_ (DIAMOND_BOOL (comparison_holds generic comparison)))
  else other_operands generic left right.

(** [values_equal_at_depth] with the Int cases spelled out. *)
Definition values_equal (left right : DiamondValue) : option bool :=
  if value_is_bignum left || value_is_bignum right then
    if is_float left || is_float right then Some false
    else if negb (is_int_value left) || negb (is_int_value right) then Some false
    else
      let? left_view := diamond_int_view left in
      let? right_view := diamond_int_view right in
      Some (diamond_bignum_compare left_view right_view =? 0)
  else
    match left, right with
    | DIAMOND_INT a, DIAMOND_INT b => Some (a =? b)
    | _, _ => Some (other_equal left right)
    end.

(** The tail of [EQUAL]; an Instance receiver may override [==]. *)
Definition diamond_jit_equal_general (left right : DiamondValue) (negate : bool)
    : VM (Machine S) VmResult :=
  if is_int_value left then
    let! equal := vm_lift (values_equal left right) in
    vm_ret (Value_ (DIAMOND_BOOL (if negate then negb equal else equal)))
  else other_operands (if negate then DIAMOND_OP_NOT_EQUAL else DIAMOND_OP_EQUAL) left right.

(** ** One definition per handler label *)

Definition op_ADD (site : nat) (left right : DiamondValue) : VM (Machine S) VmResult :=
  match left, right with
  | DIAMOND_INT a, DIAMOND_INT b =>
      let! _ := quicken true site DIAMOND_OP_ADD in
      let '(overflow, sum) := ckd_add a b in
      if overflow then
        let! views := both_views left right in
        promote (diamond_bignum_add (fst views) (snd views))
      else vm_ret (Value_ (DIAMOND_INT sum))
  | DIAMOND_FLOAT _, DIAMOND_FLOAT _ => other_operands DIAMOND_OP_ADD left right
  | _, _ => add_fallback left right
  end.

(** SUBTRACT, MULTIPLY, DIVIDE and DIVIDE_INT, which is also where the [_INT]
    fast paths go when they do not answer. *)
Definition op_SUBTRACT (opcode : DiamondOpCode) (site : nat) (left right : DiamondValue)
    : VM (Machine S) VmResult :=
  let! opcode :=
    quicken (bool_decide (opcode = DIAMOND_OP_SUBTRACT \/ opcode = DIAMOND_OP_MULTIPLY \/
                          opcode = DIAMOND_OP_DIVIDE) &&
             is_plain_int left && is_plain_int right) site opcode in
  match left, right with
  | DIAMOND_INT left_value, DIAMOND_INT right_value =>
      let divide := bool_decide (opcode = DIAMOND_OP_DIVIDE_INT \/ opcode = DIAMOND_OP_DIVIDE) in
      let '(overflow, result_value) :=
        match opcode with
        | DIAMOND_OP_ADD_INT => ckd_add left_value right_value
        | DIAMOND_OP_SUBTRACT_INT | DIAMOND_OP_SUBTRACT => ckd_sub left_value right_value
        | DIAMOND_OP_MULTIPLY_INT | DIAMOND_OP_MULTIPLY => ckd_mul left_value right_value
        | _ => (false, 0)
        end in
      if negb divide && negb overflow then vm_ret (Value_ (DIAMOND_INT result_value))
      else if divide && negb (right_value =? 0) &&
              negb ((left_value =? INT64_MIN) && (right_value =? -1))
      then vm_ret (Value_ (DIAMOND_INT (diamond_int_floor_divide left_value right_value)))
      else int_arith_slow site opcode left right
  | DIAMOND_FLOAT _, DIAMOND_FLOAT _ =>
      if bool_decide (generic_opcode opcode = opcode) then other_operands opcode left right
      else int_arith_slow site opcode left right
  | _, _ => int_arith_slow site opcode left right
  end.

(** ADD_INT, SUBTRACT_INT, MULTIPLY_INT. *)
Definition int_register_arithmetic (checked : Z -> Z -> bool * Z) (opcode : DiamondOpCode)
    (site : nat) (left right : DiamondValue) : VM (Machine S) VmResult :=
  match left, right with
  | DIAMOND_INT a, DIAMOND_INT b =>
      let '(overflow, r_value) := checked a b in
      if negb overflow then vm_ret (Value_ (DIAMOND_INT r_value))
      else op_SUBTRACT opcode site left right
  | _, _ => op_SUBTRACT opcode site left right
  end.

Definition op_EQUAL (opcode : DiamondOpCode) (site : nat) (left right : DiamondValue)
    : VM (Machine S) VmResult :=
  let integer_operands := is_plain_int left && is_plain_int right in
  let! opcode :=
    quicken (integer_operands &&
             bool_decide (opcode = DIAMOND_OP_EQUAL \/ opcode = DIAMOND_OP_NOT_EQUAL))
      site opcode in
  let! opcode :=
    (if bool_decide (opcode = DIAMOND_OP_EQUAL_INT \/ opcode = DIAMOND_OP_NOT_EQUAL_INT) &&
        negb integer_operands
     then let! _ := deoptimize site (generic_opcode opcode) in vm_ret (generic_opcode opcode)
     else vm_ret opcode) in
  let negate := bool_decide (opcode = DIAMOND_OP_NOT_EQUAL_INT \/ opcode = DIAMOND_OP_NOT_EQUAL) in
  match left, right with
  | DIAMOND_INT a, DIAMOND_INT b =>
      vm_ret (Value_ (DIAMOND_BOOL (if negate then negb (a =? b) else a =? b)))
  | _, _ => diamond_jit_equal_general left right (bool_decide (opcode = DIAMOND_OP_NOT_EQUAL))
  end.

Definition op_LESS (opcode : DiamondOpCode) (site : nat) (left right : DiamondValue)
    : VM (Machine S) VmResult :=
  let! opcode :=
    quicken (bool_decide (generic_opcode opcode = opcode) &&
             is_plain_int left && is_plain_int right) site opcode in
  match left, right with
  | DIAMOND_INT a, DIAMOND_INT b =>
      vm_ret (Value_ (DIAMOND_BOOL (int_comparison (generic_opcode opcode) a b)))
  | _, _ => compare_int_slow site opcode left right
  end.

(** LESS_INT to GREATER_EQUAL_INT, and EQUAL_INT, NOT_EQUAL_INT. *)
Definition int_register_comparison (compare : Z -> Z -> bool)
    (family : DiamondOpCode -> nat -> DiamondValue -> DiamondValue -> VM (Machine S) VmResult)
    (opcode : DiamondOpCode) (site : nat) (left right : DiamondValue)
    : VM (Machine S) VmResult :=
  match left, right with
  | DIAMOND_INT a, DIAMOND_INT b => vm_ret (Value_ (DIAMOND_BOOL (compare a b)))
  | _, _ => family opcode site left right
  end.

Definition op_SHIFT_LEFT (left right : DiamondValue) : VM (Machine S) VmResult :=
  if is_int_value left && is_int_value right then
    match right with
    | DIAMOND_INT shift_amount =>
        if (shift_amount <? 0) || (shift_amount >? DIAMOND_MAX_SHIFT_BITS)
        then vm_ret (Status_ DIAMOND_VM_INTEGER_OVERFLOW) else
        let slow :=
          let! left_view := vm_lift (diamond_int_view left) in
          promote (diamond_bignum_shift_left left_view (to_u64 shift_amount)) in
        match left with
        | DIAMOND_INT left_value =>
            if shift_amount <? 64 then
              let result_value := to_i64 (to_u64 (Z.shiftl (to_u64 left_value) shift_amount)) in
              if Z.shiftr result_value shift_amount =? left_value
              then vm_ret (Value_ (DIAMOND_INT result_value)) else slow
            else slow
        | _ => slow
        end
    | _ => vm_ret (Status_ DIAMOND_VM_INTEGER_OVERFLOW)
    end
  else other_operands DIAMOND_OP_SHIFT_LEFT left right.

Definition op_SHIFT_RIGHT (left right : DiamondValue) : VM (Machine S) VmResult :=
  if negb (is_int_value left) || negb (is_int_value right)
  then vm_ret (Status_ DIAMOND_VM_TYPE_ERROR) else
  match right with
  | DIAMOND_INT shift_amount =>
      if shift_amount <? 0 then vm_ret (Status_ DIAMOND_VM_INTEGER_OVERFLOW) else
      match left with
      | DIAMOND_INT left_value =>
          vm_ret (Value_ (DIAMOND_INT (if shift_amount >=? 64
                                       then (if left_value <? 0 then -1 else 0)
                                       else Z.shiftr left_value shift_amount)))
      | _ =>
          let! left_view := vm_lift (diamond_int_view left) in
          promote (diamond_bignum_shift_right left_view (to_u64 shift_amount))
      end
  | _ => vm_ret (Status_ DIAMOND_VM_INTEGER_OVERFLOW)
  end.

Definition bitwise_op (opcode : DiamondOpCode) : DiamondBignumBitwiseOp :=
  match opcode with
  | DIAMOND_OP_BITWISE_AND => DIAMOND_BIGNUM_BITWISE_AND
  | DIAMOND_OP_BITWISE_OR => DIAMOND_BIGNUM_BITWISE_OR
  | _ => DIAMOND_BIGNUM_BITWISE_XOR
  end.

Definition op_BITWISE (opcode : DiamondOpCode) (left right : DiamondValue)
    : VM (Machine S) VmResult :=
  match left, right with
  | DIAMOND_INT a, DIAMOND_INT b =>
      vm_ret (Value_ (DIAMOND_INT (bitwise_word (bitwise_op opcode) a b)))
  | _, _ =>
      if is_int_value left && is_int_value right then
        let! views := both_views left right in
        promote (diamond_bignum_bitwise (bitwise_op opcode) (fst views) (snd views))
      else other_operands opcode left right
  end.

Definition op_MODULO (site : nat) (left right : DiamondValue) : VM (Machine S) VmResult :=
  let slow := int_arith_slow site DIAMOND_OP_MODULO left right in
  match left, right with
  | DIAMOND_INT left_value, DIAMOND_INT right_value =>
      if negb (right_value =? 0) && negb (right_value =? -1)
      then vm_ret (Value_ (DIAMOND_INT (int_floor_modulo left_value right_value)))
      else slow
  | _, _ => slow
  end.

Definition op_COMPARE (left right : DiamondValue) : VM (Machine S) VmResult :=
  if is_int_value left && is_int_value right then
    if value_is_bignum left || value_is_bignum right then
      let! views := both_views left right in
      let comparison := diamond_bignum_compare (fst views) (snd views) in
      vm_ret (Value_ (DIAMOND_INT (if comparison <? 0 then -1
                                   else if comparison >? 0 then 1 else 0)))
    else
      match left, right with
      | DIAMOND_INT a, DIAMOND_INT b =>
          vm_ret (Value_ (DIAMOND_INT (if a <? b then -1 else if a >? b then 1 else 0)))
      | _, _ => vm_lift None
      end
  else other_operands DIAMOND_OP_COMPARE left right.

Definition op_NEGATE (operand : DiamondValue) : VM (Machine S) VmResult :=
  if value_is_bignum operand then
    let! operand_view := vm_lift (diamond_int_view operand) in
    promote (diamond_bignum_negate operand_view)
  else
    match operand with
    | DIAMOND_INT z =>
        let '(overflow, result_value) := ckd_sub 0 z in
        if overflow then
          let! operand_view := vm_lift (diamond_int_view operand) in
          promote (diamond_bignum_negate operand_view)
        else vm_ret (Value_ (DIAMOND_INT result_value))
    | _ => other_operands DIAMOND_OP_NEGATE operand operand
    end.

(** [int_constant_slow]: the generic path of an [_INT_K] form. *)
Definition int_constant_slow (site : nat) (opcode : DiamondOpCode)
    (left right : DiamondValue) : VM (Machine S) VmResult :=
  match opcode with
  | DIAMOND_OP_ADD_INT_K => int_arith_slow site DIAMOND_OP_ADD left right
  | DIAMOND_OP_SUBTRACT_INT_K => int_arith_slow site DIAMOND_OP_SUBTRACT left right
  | DIAMOND_OP_MULTIPLY_INT_K => int_arith_slow site DIAMOND_OP_MULTIPLY left right
  | DIAMOND_OP_MODULO_INT_K => int_arith_slow site DIAMOND_OP_MODULO left right
  | DIAMOND_OP_LESS_INT_K => compare_int_slow site DIAMOND_OP_LESS left right
  | DIAMOND_OP_LESS_EQUAL_INT_K => compare_int_slow site DIAMOND_OP_LESS_EQUAL left right
  | DIAMOND_OP_GREATER_INT_K => compare_int_slow site DIAMOND_OP_GREATER left right
  | DIAMOND_OP_GREATER_EQUAL_INT_K => compare_int_slow site DIAMOND_OP_GREATER_EQUAL left right
  | DIAMOND_OP_EQUAL_INT_K => diamond_jit_equal_general left right false
  | DIAMOND_OP_NOT_EQUAL_INT_K => diamond_jit_equal_general left right true
  | _ => vm_ret (Status_ DIAMOND_VM_INVALID_BYTECODE)
  end.

(** ADD_INT_K, SUBTRACT_INT_K, MULTIPLY_INT_K. *)
Definition int_k_arithmetic (checked : Z -> Z -> bool * Z) (opcode : DiamondOpCode)
    (site : nat) (k_left k_right : DiamondValue) : VM (Machine S) VmResult :=
  match k_left, k_right with
  | DIAMOND_INT k_a, DIAMOND_INT k_b =>
      let '(overflow, k_value) := checked k_a k_b in
      if negb overflow then vm_ret (Value_ (DIAMOND_INT k_value))
      else int_constant_slow site opcode k_left k_right
  | _, _ => int_constant_slow site opcode k_left k_right
  end.

Definition op_MODULO_INT_K (site : nat) (k_left k_right : DiamondValue)
    : VM (Machine S) VmResult :=
  match k_left, k_right with
  | DIAMOND_INT k_a, DIAMOND_INT k_b =>
      if negb (k_b =? 0) && negb (k_b =? -1)
      then vm_ret (Value_ (DIAMOND_INT (int_floor_modulo k_a k_b)))
      else int_constant_slow site DIAMOND_OP_MODULO_INT_K k_left k_right
  | _, _ => int_constant_slow site DIAMOND_OP_MODULO_INT_K k_left k_right
  end.

(** The dispatch on the opcode at [site]. *)
Definition exec_binary (opcode : DiamondOpCode) (site : nat) (left right : DiamondValue)
    : VM (Machine S) VmResult :=
  match opcode with
  | DIAMOND_OP_ADD => op_ADD site left right
  | DIAMOND_OP_SUBTRACT | DIAMOND_OP_MULTIPLY | DIAMOND_OP_DIVIDE | DIAMOND_OP_DIVIDE_INT =>
      op_SUBTRACT opcode site left right
  | DIAMOND_OP_ADD_INT => int_register_arithmetic ckd_add opcode site left right
  | DIAMOND_OP_SUBTRACT_INT => int_register_arithmetic ckd_sub opcode site left right
  | DIAMOND_OP_MULTIPLY_INT => int_register_arithmetic ckd_mul opcode site left right
  | DIAMOND_OP_MODULO => op_MODULO site left right
  | DIAMOND_OP_NEGATE => op_NEGATE left
  | DIAMOND_OP_SHIFT_LEFT => op_SHIFT_LEFT left right
  | DIAMOND_OP_SHIFT_RIGHT => op_SHIFT_RIGHT left right
  | DIAMOND_OP_BITWISE_AND | DIAMOND_OP_BITWISE_OR | DIAMOND_OP_BITWISE_XOR =>
      op_BITWISE opcode left right
  | DIAMOND_OP_EQUAL | DIAMOND_OP_NOT_EQUAL => op_EQUAL opcode site left right
  | DIAMOND_OP_EQUAL_INT => int_register_comparison Z.eqb op_EQUAL opcode site left right
  | DIAMOND_OP_NOT_EQUAL_INT =>
      int_register_comparison (fun a b => negb (a =? b)) op_EQUAL opcode site left right
  | DIAMOND_OP_LESS | DIAMOND_OP_LESS_EQUAL | DIAMOND_OP_GREATER | DIAMOND_OP_GREATER_EQUAL =>
      op_LESS opcode site left right
  | DIAMOND_OP_LESS_INT => int_register_comparison Z.ltb op_LESS opcode site left right
  | DIAMOND_OP_LESS_EQUAL_INT => int_register_comparison Z.leb op_LESS opcode site left right
  | DIAMOND_OP_GREATER_INT => int_register_comparison Z.gtb op_LESS opcode site left right
  | DIAMOND_OP_GREATER_EQUAL_INT => int_register_comparison Z.geb op_LESS opcode site left right
  | DIAMOND_OP_COMPARE => op_COMPARE left right
  | DIAMOND_OP_ADD_INT_K => int_k_arithmetic ckd_add opcode site left right
  | DIAMOND_OP_SUBTRACT_INT_K => int_k_arithmetic ckd_sub opcode site left right
  | DIAMOND_OP_MULTIPLY_INT_K => int_k_arithmetic ckd_mul opcode site left right
  | DIAMOND_OP_MODULO_INT_K => op_MODULO_INT_K site left right
  | DIAMOND_OP_LESS_INT_K => int_register_comparison Z.ltb
      (fun o s => int_constant_slow s o) opcode site left right
  | DIAMOND_OP_LESS_EQUAL_INT_K => int_register_comparison Z.leb
      (fun o s => int_constant_slow s o) opcode site left right
  | DIAMOND_OP_GREATER_INT_K => int_register_comparison Z.gtb
      (fun o s => int_constant_slow s o) opcode site left right
  | DIAMOND_OP_GREATER_EQUAL_INT_K => int_register_comparison Z.geb
      (fun o s => int_constant_slow s o) opcode site left right
  | DIAMOND_OP_EQUAL_INT_K => int_register_comparison Z.eqb
      (fun o s => int_constant_slow s o) opcode site left right
  | DIAMOND_OP_NOT_EQUAL_INT_K => int_register_comparison (fun a b => negb (a =? b))
      (fun o s => int_constant_slow s o) opcode site left right
  end.

(** Store a handler's value in its destination register, or leave with its
    status. *)
Definition store_result (destination : nat) (r : VmResult) : VM (Machine S) DiamondVmStatus :=
  match r with
  | Value_ v => fun m =>
      let? regs := array_write (registers m) destination v in
      Some (DIAMOND_VM_OK, with_registers m regs)
  | Status_ status => vm_ret status
  end.

Definition is_constant_form (opcode : DiamondOpCode) : bool :=
  match opcode with
  | DIAMOND_OP_ADD_INT_K | DIAMOND_OP_SUBTRACT_INT_K | DIAMOND_OP_MULTIPLY_INT_K
  | DIAMOND_OP_MODULO_INT_K | DIAMOND_OP_LESS_INT_K | DIAMOND_OP_LESS_EQUAL_INT_K
  | DIAMOND_OP_GREATER_INT_K | DIAMOND_OP_GREATER_EQUAL_INT_K | DIAMOND_OP_EQUAL_INT_K
  | DIAMOND_OP_NOT_EQUAL_INT_K => true
  | _ => false
  end.

(** One instruction.  A register form names [destination], [left], [right]
    (NEGATE only [destination] and its operand); a constant form names
    [destination], [left], [scratch] and a constant, and stores the constant in
    [scratch] before it reads [left]. *)
Definition step (site destination left third constant : nat)
    : VM (Machine S) DiamondVmStatus :=
  fun m =>
    let? opcode := array_read (code m) site in
    if is_constant_form opcode then
      if (length (constants m) <=? constant)%nat
      then Some (DIAMOND_VM_INVALID_BYTECODE, m) else
      let? k_right := array_read (constants m) constant in
      let? regs := array_write (registers m) third k_right in
      let? k_left := array_read regs left in
      vm_bind (exec_binary opcode site k_left k_right) (store_result destination)
        (with_registers m regs)
    else if bool_decide (opcode = DIAMOND_OP_NEGATE) then
      let? v := array_read (registers m) left in
      vm_bind (exec_binary opcode site v v) (store_result destination) m
    else
      let? l := array_read (registers m) left in
      let? r := array_read (registers m) third in
      vm_bind (exec_binary opcode site l r) (store_result destination) m.

End Handlers.

(** ** The specification: Int instructions are integer arithmetic *)

Inductive SpecOutcome :=
  | SpecInt (z : Z)
  | SpecBool (b : bool)
  | SpecError (status : DiamondVmStatus).

(** The register form an [_INT_K] form computes. *)
Definition register_form (opcode : DiamondOpCode) : DiamondOpCode :=
  match opcode with
  | DIAMOND_OP_ADD_INT_K => DIAMOND_OP_ADD
  | DIAMOND_OP_SUBTRACT_INT_K => DIAMOND_OP_SUBTRACT
  | DIAMOND_OP_MULTIPLY_INT_K => DIAMOND_OP_MULTIPLY
  | DIAMOND_OP_MODULO_INT_K => DIAMOND_OP_MODULO
  | DIAMOND_OP_LESS_INT_K => DIAMOND_OP_LESS
  | DIAMOND_OP_LESS_EQUAL_INT_K => DIAMOND_OP_LESS_EQUAL
  | DIAMOND_OP_GREATER_INT_K => DIAMOND_OP_GREATER
  | DIAMOND_OP_GREATER_EQUAL_INT_K => DIAMOND_OP_GREATER_EQUAL
  | DIAMOND_OP_EQUAL_INT_K => DIAMOND_OP_EQUAL
  | DIAMOND_OP_NOT_EQUAL_INT_K => DIAMOND_OP_NOT_EQUAL
  | _ => generic_opcode opcode
  end.

(** What an instruction means on the integers [a] and [b]: unbounded
    arithmetic with floored division, infinite two's complement for the bitwise
    operators, and the two documented error conditions. *)
Definition int_spec (opcode : DiamondOpCode) (a b : Z) : SpecOutcome :=
  match register_form opcode with
  | DIAMOND_OP_ADD => SpecInt (a + b)
  | DIAMOND_OP_SUBTRACT => SpecInt (a - b)
  | DIAMOND_OP_MULTIPLY => SpecInt (a * b)
  | DIAMOND_OP_DIVIDE =>
      if b =? 0 then SpecError DIAMOND_VM_DIVISION_BY_ZERO else SpecInt (a / b)
  | DIAMOND_OP_MODULO =>
      if b =? 0 then SpecError DIAMOND_VM_DIVISION_BY_ZERO else SpecInt (a mod b)
  | DIAMOND_OP_NEGATE => SpecInt (- a)
  | DIAMOND_OP_SHIFT_LEFT =>
      if (0 <=? b) && (b <=? DIAMOND_MAX_SHIFT_BITS) then SpecInt (Z.shiftl a b)
      else SpecError DIAMOND_VM_INTEGER_OVERFLOW
  | DIAMOND_OP_SHIFT_RIGHT =>
      if (0 <=? b) && (b <=? INT64_MAX) then SpecInt (Z.shiftr a b)
      else SpecError DIAMOND_VM_INTEGER_OVERFLOW
  | DIAMOND_OP_BITWISE_AND => SpecInt (Z.land a b)
  | DIAMOND_OP_BITWISE_OR => SpecInt (Z.lor a b)
  | DIAMOND_OP_BITWISE_XOR => SpecInt (Z.lxor a b)
  | DIAMOND_OP_EQUAL => SpecBool (a =? b)
  | DIAMOND_OP_NOT_EQUAL => SpecBool (negb (a =? b))
  | DIAMOND_OP_LESS => SpecBool (a <? b)
  | DIAMOND_OP_LESS_EQUAL => SpecBool (a <=? b)
  | DIAMOND_OP_GREATER => SpecBool (a >? b)
  | DIAMOND_OP_GREATER_EQUAL => SpecBool (a >=? b)
  | DIAMOND_OP_COMPARE => SpecInt (sign_of (a ?= b))
  | _ => SpecError DIAMOND_VM_INVALID_BYTECODE
  end.

(** A handler's result is what the specification says. *)
Definition meets (r : VmResult) (o : SpecOutcome) : Prop :=
  match o, r with
  | SpecInt z, Value_ v => represents v z
  | SpecBool b, Value_ v => v = DIAMOND_BOOL b
  | SpecError e, Status_ s => s = e
  | _, _ => False
  end.
