(* ===== verification/IntRefinement.v ===== *)
(** * IntRefinement: the Int instructions implement integer arithmetic

    Every handler of IntOps.v delivers the outcome of [int_spec], or reports that
    it is out of memory; programs of Int instructions simulate an abstract
    machine on mathematical integers whose code never changes, so quickening and
    deoptimization are invisible. *)

From S2P Require Import Prelude Digits Magnitude Value Bignum BignumBits IntOps.
From Stdlib Require Import ZArith Lia Bool List.
From stdpp Require Import base numbers list.

Local Open Scope Z_scope.
Local Open Scope c_scope.

(** ** Machine arithmetic is exact where it is used *)

Lemma in_range_b z : (INT64_MIN <=? z) && (z <=? INT64_MAX) = true <-> in_i64 z.
Proof. unfold in_i64. rewrite andb_true_iff, !Z.leb_le. done. Qed.

Lemma plain_int_represents z : in_i64 z -> represents (DIAMOND_INT z) z.
Proof. done. Qed.

(** A checked operation that does not report overflow is exact. *)
Definition checked_exact (checked : Z -> Z -> bool * Z) (f : Z -> Z -> Z) : Prop :=
  forall a b, fst (checked a b) = false -> in_i64 (f a b) /\ snd (checked a b) = f a b.

Lemma ckd_add_exact : checked_exact ckd_add Z.add.
Proof.
  intros a b. simpl. rewrite negb_false_iff, in_range_b. intros H.
  split; [done|]. by apply to_i64_small.
Qed.

Lemma ckd_sub_exact : checked_exact ckd_sub Z.sub.
Proof.
  intros a b. simpl. rewrite negb_false_iff, in_range_b. intros H.
  split; [done|]. by apply to_i64_small.
Qed.

Lemma ckd_mul_exact : checked_exact ckd_mul Z.mul.
Proof.
  intros a b. simpl. rewrite negb_false_iff, in_range_b. intros H.
  split; [done|]. by apply to_i64_small.
Qed.

Lemma lxor_neg a b : (Z.lxor a b <? 0) = negb (eqb (a <? 0) (b <? 0)).
Proof.
  pose proof (Z.lxor_nonneg a b) as H.
  destruct (Z.ltb_spec (Z.lxor a b) 0), (Z.ltb_spec a 0), (Z.ltb_spec b 0); simpl; try done; lia.
Qed.

Lemma diamond_int_floor_divide_spec a b :
  b <> 0 -> diamond_int_floor_divide a b = a / b.
Proof.
  intros Hb. unfold diamond_int_floor_divide. rewrite lxor_neg.
  pose proof (Z.quot_rem' a b) as E.
  destruct (Z.eqb_spec (Z.rem a b) 0) as [H0|H0]; simpl.
  - rewrite Z.sub_0_r. apply (Z.div_unique_exact a b (Z.quot a b)); lia.
  - pose proof (Z.rem_bound_abs a b Hb).
    assert (Hs : 0 <= a -> 0 <= Z.rem a b) by (intros; by apply Z.rem_nonneg).
    assert (Hs' : a <= 0 -> Z.rem a b <= 0) by (intros; by apply Z.rem_nonpos).
    destruct (Z.ltb_spec a 0), (Z.ltb_spec b 0); simpl;
      solve [apply (Z.div_unique _ _ _ (Z.rem a b)); lia
            |apply (Z.div_unique _ _ _ (Z.rem a b + b)); lia].
Qed.

Lemma int_floor_modulo_spec a b : b <> 0 -> int_floor_modulo a b = a mod b.
Proof.
  intros Hb. unfold int_floor_modulo. pose proof (Z.quot_rem' a b) as E.
  pose proof (Z.rem_bound_abs a b Hb).
  destruct (Z.eqb_spec (Z.rem a b) 0) as [H0|H0]; simpl.
  - apply (Z.mod_unique _ _ (Z.quot a b)); lia.
  - destruct (Z.ltb_spec (Z.rem a b) 0), (Z.ltb_spec b 0); simpl;
      solve [apply (Z.mod_unique _ _ (Z.quot a b)); lia
            |apply (Z.mod_unique _ _ (Z.quot a b - 1)); lia].
Qed.

(** ** The refinement judgement *)

Section Refinement.

Context {S : Type} `{!VmHeap S}.

(** The opcode at [site] is [generic] up to quickening. *)
Definition site_is (generic : DiamondOpCode) (site : nat) (m : Machine S) : Prop :=
  exists op, code m !! site = Some op /\ generic_opcode op = generic.

(** A handler changes the heap, the counters and the opcode of its own site. *)
Definition frame (site : nat) (m m' : Machine S) : Prop :=
  registers m' = registers m /\ constants m' = constants m /\
  length (code m') = length (code m) /\
  (forall j, j <> site -> code m' !! j = code m !! j).

(** [c] delivers [o], or reports that it is out of memory, and leaves the site
    in the same opcode family; with plenty of memory it delivers [o]. *)
Definition refines (generic : DiamondOpCode) (site : nat)
    (c : VM (Machine S) VmResult) (o : SpecOutcome) : Prop :=
  forall m, site_is generic site m ->
  exists r m', c m = Some (r, m') /\ frame site m m' /\ site_is generic site m' /\
    (r = Status_ DIAMOND_VM_OUT_OF_MEMORY \/ meets r o) /\
    (forall plenty, PlentyHeap S plenty -> plenty (heap m) -> meets r o /\ plenty (heap m')).

Lemma frame_refl site m : frame site m m.
Proof using Type. done. Qed.

Lemma frame_trans site m1 m2 m3 : frame site m1 m2 -> frame site m2 m3 -> frame site m1 m3.
Proof using Type.
  intros (A1 & A2 & A3 & A4) (B1 & B2 & B3 & B4). repeat split; try congruence.
  intros j Hj. rewrite B4, A4; done.
Qed.

Lemma generic_idempotent op : generic_opcode (generic_opcode op) = generic_opcode op.
Proof using Type. by destruct op. Qed.

Lemma generic_specialized op : generic_opcode (specialized_opcode op) = generic_opcode op.
Proof using Type. by destruct op. Qed.

Context {g : DiamondOpCode} {site : nat}.

Lemma refines_ret r o : meets r o -> refines g site (vm_ret r) o.
Proof using Type. intros H m Hs. exists r, m. repeat split; auto. Qed.

(** Steps that only compute. *)
Lemma refines_skip {A} (x : A) (k : A -> VM (Machine S) VmResult) o :
  refines g site (k x) o -> refines g site (vm_bind (vm_ret x) k) o.
Proof using Type. done. Qed.

Lemma refines_lift {A} (x : A) (k : A -> VM (Machine S) VmResult) o :
  refines g site (k x) o -> refines g site (vm_bind (vm_lift (Some x)) k) o.
Proof using Type. done. Qed.

Lemma refines_assoc {A B} (c : VM (Machine S) A) (f : A -> VM (Machine S) B) k o :
  refines g site (let! x := c in vm_bind (f x) k) o ->
  refines g site (vm_bind (vm_bind c f) k) o.
Proof using Type.
  intros H m Hs. replace (vm_bind (vm_bind c f) k m) with ((let! x := c in vm_bind (f x) k) m).
  - by apply H.
  - unfold vm_bind. by destruct (c m) as [[]|].
Qed.

Lemma refines_promote c z : computes c z -> refines g site (promote c) (SpecInt z).
Proof using Type.
  intros [M W] m Hs. unfold promote, vm_bind, on_heap, vm_ret.
  destruct (M (heap m)) as (v & h & E & Hv). rewrite E.
  eexists _, _. split; [done|]. split; [done|]. split; [done|]. split.
  - destruct Hv as [->|Hv]; [by left|]. right. destruct v; try exact Hv. by destruct Hv as [[] _].
  - intros plenty HP Hh. destruct (W plenty HP (heap m) Hh) as (v' & h' & E' & Hv' & Hh').
    rewrite E in E'. injection E' as <- <-. split; [|done].
    destruct v; try exact Hv'. by destruct Hv' as [[] _].
Qed.

Lemma refines_view v z (k : DiamondIntView -> VM (Machine S) VmResult) o :
  represents v z ->
  (forall view, view_ok view -> view_value view = z -> refines g site (k view) o) ->
  refines g site (vm_bind (vm_lift (diamond_int_view v)) k) o.
Proof using Type.
  intros Hv Hk. destruct (diamond_int_view_spec v z Hv) as (view & E & Ho & Hz).
  rewrite E. exact (Hk view Ho Hz).
Qed.

Lemma refines_views l r a b (k : DiamondIntView * DiamondIntView -> VM (Machine S) VmResult) o :
  represents l a -> represents r b ->
  (forall lv rv, view_ok lv -> view_ok rv -> view_value lv = a -> view_value rv = b ->
     refines g site (k (lv, rv)) o) ->
  refines g site (vm_bind (both_views l r) k) o.
Proof using Type.
  intros Hl Hr Hk.
  destruct (diamond_int_view_spec l a Hl) as (lv & El & Hlo & Hlz).
  destruct (diamond_int_view_spec r b Hr) as (rv & Er & Hro & Hrz).
  intros m Hs. unfold both_views. rewrite El, Er. apply (Hk lv rv Hlo Hro Hlz Hrz m Hs).
Qed.

(** Storing an opcode of the same family at the site. *)
Lemma site_write m c obs q d op :
  site_is g site m -> generic_opcode op = g -> c = <[site := op]> (code m) ->
  frame site m (with_code m c obs q d) /\ site_is g site (with_code m c obs q d).
Proof using Type.
  intros (op0 & E & _) Hg ->. pose proof (lookup_lt_Some _ _ _ E). split.
  - split; [done|]. split; [done|]. simpl. split; [apply length_insert|].
    intros j Hj. by apply list_lookup_insert_ne.
  - exists op. split; [|done]. simpl. by apply list_lookup_insert_eq.
Qed.

Lemma refines_bind_at {A} (c : VM (Machine S) A) k o m :
  site_is g site m ->
  (exists a m1, c m = Some (a, m1) /\ frame site m m1 /\ site_is g site m1 /\
     heap m1 = heap m /\ refines g site (k a) o) ->
  exists r m', vm_bind c k m = Some (r, m') /\ frame site m m' /\ site_is g site m' /\
    (r = Status_ DIAMOND_VM_OUT_OF_MEMORY \/ meets r o) /\
    (forall plenty, PlentyHeap S plenty -> plenty (heap m) -> meets r o /\ plenty (heap m')).
Proof using Type.
  intros _ (a & m1 & E & F & H1 & Hh & Hk). unfold vm_bind. rewrite E.
  destruct (Hk m1 H1) as (r & m' & E' & F' & H' & Hr & Hp).
  exists r, m'. split; [done|]. split; [by eapply frame_trans|]. split; [done|].
  split; [done|]. rewrite <- Hh. done.
Qed.

Lemma refines_quicken guard op (k : DiamondOpCode -> VM (Machine S) VmResult) o :
  generic_opcode op = g ->
  refines g site (k op) o ->
  (guard = true -> refines g site (k (specialized_opcode op)) o) ->
  refines g site (vm_bind (quicken guard site op) k) o.
Proof using Type.
  intros Hg H1 H2 m Hs. apply refines_bind_at; [done|]. unfold quicken.
  destruct (quickening m && guard) eqn:Eq.
  2:{ exists op, m. repeat split; auto. }
  apply andb_prop in Eq as [_ Hguard]. destruct (_ >=? _).
  - destruct Hs as (op0 & E & Hop). pose proof (lookup_lt_Some _ _ _ E) as Hlt.
    rewrite array_write_in by done.
    eexists _, _. split; [done|].
    edestruct (site_write m) as [F Hs']; [by exists op0| |done|].
    2:{ split; [exact F|]. split; [exact Hs'|]. split; [done|]. by apply H2. }
    by rewrite generic_specialized.
  - eexists _, _. split; [done|]. repeat split; auto.
Qed.

Lemma refines_deoptimize (k : unit -> VM (Machine S) VmResult) o :
  generic_opcode g = g -> refines g site (k tt) o ->
  refines g site (vm_bind (deoptimize site g) k) o.
Proof using Type.
  intros Hg Hk m Hs. apply refines_bind_at; [done|]. unfold deoptimize.
  destruct Hs as (op0 & E & Hop). pose proof (lookup_lt_Some _ _ _ E) as Hlt.
  rewrite array_write_in by done.
  eexists _, _. split; [done|].
  edestruct (site_write m) as [F Hs']; [by exists op0|exact Hg|done|].
  split; [exact F|]. split; [exact Hs'|]. split; [done|done].
Qed.

End Refinement.

(** ** Every handler refines its specification *)

Lemma represents_cases v z :
  represents v z ->
  (v = DIAMOND_INT z /\ in_i64 z) \/
  (exists b, v = DIAMOND_OBJECT (OBJECT_BIGNUM b) /\ ~ in_i64 z).
Proof.
  intros [Hc Hi]. destruct v as [| |i| |[b|]| |]; try done; simpl in *.
  - injection Hi as ->. by left.
  - right. exists b. split; [done|]. injection Hi as <-. apply Hc.
Qed.

(** Split an Int operand into a plain Int and a bignum. *)
Ltac int_cases H b :=
  let E := fresh "E" in let R := fresh "R" in
  pose proof H as R; destruct (represents_cases _ _ H) as [[E ?]|(b & E & ?)];
  subst; [clear R|clear H].

Lemma represents_is_int v z : represents v z -> is_int_value v = true.
Proof. intros H. destruct (represents_cases v z H) as [[-> _]|(b & -> & _)]; done. Qed.

Lemma some_bignum_spec l r a b :
  represents l a -> represents r b ->
  some_bignum l r = negb (is_plain_int l && is_plain_int r).
Proof.
  intros Hl Hr. unfold some_bignum.
  rewrite (represents_is_int _ _ Hl), (represents_is_int _ _ Hr). simpl.
  destruct (represents_cases l a Hl) as [[-> _]|(b1 & -> & _)],
    (represents_cases r b Hr) as [[-> _]|(b2 & -> & _)]; done.
Qed.

Lemma zero_view_spec rv :
  view_ok rv -> exists zv, diamond_int_view_int64 0 = Some zv /\
    (diamond_bignum_compare rv zv =? 0) = (view_value rv =? 0).
Proof.
  intros Hr. exists {| view_negative := false; view_limbs := [] |}. split; [reflexivity|].
  rewrite diamond_bignum_compare_spec; [|done|split; [split; [constructor|done]|done]].
  change (view_value {| view_negative := false; view_limbs := [] |}) with 0.
  rewrite sign_of_compare.
  destruct (Z.ltb_spec (view_value rv) 0), (Z.eqb_spec (view_value rv) 0); done || lia.
Qed.

Section ViewRefinement.

Context {S : Type} `{!VmHeap S}.
Context {g : DiamondOpCode} {site : nat} {l r : DiamondValue} {a b : Z}.
Context (Hl : represents l a) (Hr : represents r b).

(** Promotion of a binary operator, for any operands. *)
Lemma promote_views (f : DiamondIntView -> DiamondIntView -> VM S DiamondValue) op :
  (forall lv rv, view_ok lv -> view_ok rv -> computes (f lv rv) (op (view_value lv) (view_value rv))) ->
  refines g site (let! views := both_views l r in promote (f (fst views) (snd views)))
    (SpecInt (op a b)).
Proof using Hl Hr.
  intros Hf. eapply refines_views; [exact Hl|exact Hr|].
  intros lv rv Hlv Hrv <- <-. apply refines_promote. by apply Hf.
Qed.

Lemma promote_divisor (f : DiamondIntView -> DiamondIntView -> VM S DiamondValue) op :
  (forall lv rv, view_ok lv -> view_ok rv -> view_value rv <> 0 ->
     computes (f lv rv) (op (view_value lv) (view_value rv))) ->
  refines g site
    (let! views := both_views l r in
     let! zero_view := vm_lift (diamond_int_view_int64 0) in
     if diamond_bignum_compare (snd views) zero_view =? 0
     then vm_ret (Status_ DIAMOND_VM_DIVISION_BY_ZERO)
     else promote (f (fst views) (snd views)))
    (if b =? 0 then SpecError DIAMOND_VM_DIVISION_BY_ZERO else SpecInt (op a b)).
Proof using Hl Hr.
  intros Hf. eapply refines_views; [exact Hl|exact Hr|].
  intros lv rv Hlv Hrv <- <-. destruct (zero_view_spec rv Hrv) as (zv & Ez & Hz).
  rewrite Ez. apply refines_lift. cbn [fst snd].
  rewrite Hz. destruct (Z.eqb_spec (view_value rv) 0).
  - by apply refines_ret.
  - apply refines_promote. by apply Hf.
Qed.

Lemma add_views : refines g site
  (let! views := both_views l r in promote (diamond_bignum_add (fst views) (snd views)))
  (SpecInt (a + b)).
Proof using Hl Hr.
  apply (promote_views diamond_bignum_add Z.add).
  intros lv rv [] []. by apply diamond_bignum_add_computes.
Qed.

Lemma subtract_views : refines g site
  (let! views := both_views l r in promote (diamond_bignum_subtract (fst views) (snd views)))
  (SpecInt (a - b)).
Proof using Hl Hr.
  apply (promote_views diamond_bignum_subtract Z.sub).
  intros lv rv [] []. by apply diamond_bignum_subtract_computes.
Qed.

Lemma multiply_views : refines g site
  (let! views := both_views l r in promote (diamond_bignum_multiply (fst views) (snd views)))
  (SpecInt (a * b)).
Proof using Hl Hr.
  apply (promote_views diamond_bignum_multiply Z.mul).
  intros lv rv [] []. by apply diamond_bignum_multiply_computes.
Qed.

Lemma divide_views : refines g site
  (let! views := both_views l r in
   let! zero_view := vm_lift (diamond_int_view_int64 0) in
   if diamond_bignum_compare (snd views) zero_view =? 0
   then vm_ret (Status_ DIAMOND_VM_DIVISION_BY_ZERO)
   else promote (diamond_bignum_divide_floored (fst views) (snd views)))
  (int_spec DIAMOND_OP_DIVIDE a b).
Proof using Hl Hr.
  apply (promote_divisor diamond_bignum_divide_floored Z.div).
  intros lv rv [] []. by apply diamond_bignum_divide_floored_computes.
Qed.

Lemma modulo_views : refines g site
  (let! views := both_views l r in
   let! zero_view := vm_lift (diamond_int_view_int64 0) in
   if diamond_bignum_compare (snd views) zero_view =? 0
   then vm_ret (Status_ DIAMOND_VM_DIVISION_BY_ZERO)
   else promote (diamond_bignum_modulo_floored (fst views) (snd views)))
  (int_spec DIAMOND_OP_MODULO a b).
Proof using Hl Hr.
  apply (promote_divisor diamond_bignum_modulo_floored Z.modulo).
  intros lv rv [] []. by apply diamond_bignum_modulo_floored_computes.
Qed.

End ViewRefinement.

Section HandlerRefinement.

Context {S : Type} `{!VmHeap S}.
Context (other_operands :
  DiamondOpCode -> DiamondValue -> DiamondValue -> VM (Machine S) VmResult).
Context (other_equal : DiamondValue -> DiamondValue -> bool).
Context {g : DiamondOpCode} {site : nat} {l r : DiamondValue} {a b : Z}.
Context (Hl : represents l a) (Hr : represents r b).

Lemma plain_or_bignum :
  (l = DIAMOND_INT a /\ r = DIAMOND_INT b /\ in_i64 a /\ in_i64 b) \/
  (is_plain_int l && is_plain_int r = false /\ some_bignum l r = true /\
   (value_is_bignum l || value_is_bignum r = true)).
Proof using Hl Hr.
  rewrite (some_bignum_spec _ _ _ _ Hl Hr).
  destruct (represents_cases l a Hl) as [[-> ?]|(b1 & -> & _)],
    (represents_cases r b Hr) as [[-> ?]|(b2 & -> & _)]; simpl; auto.
Qed.

Lemma add_fallback_refines :
  some_bignum l r = true -> refines g site (add_fallback other_operands l r) (SpecInt (a + b)).
Proof using Hl Hr. intros E. unfold add_fallback. rewrite E. apply (add_views Hl Hr). Qed.

(** The modulus of two [int64_t] is an [int64_t]. *)
Lemma mod_in_i64 x y : in_i64 x -> in_i64 y -> y <> 0 -> in_i64 (x mod y).
Proof using Type.
  intros Hx Hy H0. unfold in_i64 in *. destruct (Z.lt_ge_cases y 0).
  - pose proof (Z.mod_neg_bound x y ltac:(lia)). unfold_widths. lia.
  - pose proof (Z.mod_pos_bound x y ltac:(lia)). unfold_widths. lia.
Qed.

(** So is the quotient, but for the one overflowing case. *)
Lemma div_in_i64 x y :
  in_i64 x -> in_i64 y -> y <> 0 -> ~ (x = INT64_MIN /\ y = -1) -> in_i64 (x / y).
Proof using Type.
  intros Hx Hy H0 Hno. unfold in_i64 in *.
  pose proof (Z.div_mod x y H0) as E.
  destruct (Z.lt_ge_cases y 0).
  - pose proof (Z.mod_neg_bound x y ltac:(lia)). unfold_widths. split; nia.
  - pose proof (Z.mod_pos_bound x y ltac:(lia)). unfold_widths. split; nia.
Qed.

Lemma modulo_slow_refines :
  refines g site (modulo_slow other_operands l r) (int_spec DIAMOND_OP_MODULO a b).
Proof using Hl Hr.
  destruct plain_or_bignum as [(-> & -> & Ha & Hb)|(E & Eb & _)].
  - apply refines_ret. unfold int_spec. simpl.
    destruct (Z.eqb_spec b 0) as [->|H0]; [done|].
    destruct (Z.eqb_spec b (-1)) as [->|H1].
    + simpl. replace (a mod -1) with 0 by (apply (Z.mod_unique _ _ (- a)); lia).
      apply plain_int_represents. unfold_widths. lia.
    + simpl. rewrite int_floor_modulo_spec by done. apply plain_int_represents.
      by apply mod_in_i64.
  - pose proof (modulo_views (g:=g) (site:=site) Hl Hr) as H. unfold modulo_slow.
    rewrite (represents_is_int _ _ Hl), (represents_is_int _ _ Hr). simpl andb. cbv iota.
    destruct l as [| | | | | |], r as [| | | | | |]; exact H || done.
Qed.

Definition arith_opcode (op : DiamondOpCode) : Prop :=
  match op with
  | DIAMOND_OP_ADD | DIAMOND_OP_SUBTRACT | DIAMOND_OP_MULTIPLY | DIAMOND_OP_DIVIDE
  | DIAMOND_OP_ADD_INT | DIAMOND_OP_SUBTRACT_INT | DIAMOND_OP_MULTIPLY_INT
  | DIAMOND_OP_DIVIDE_INT => True
  | _ => False
  end.

Lemma int_arith_slow_refines op :
  arith_opcode op -> (generic_opcode op = op \/ g = generic_opcode op) ->
  refines g site (int_arith_slow other_operands site op l r) (int_spec op a b).
Proof using Hl Hr.
  intros Hop Hg. unfold int_arith_slow.
  destruct (decide (op = DIAMOND_OP_MODULO)) as [->|_]; [done|].
  destruct plain_or_bignum as [(-> & -> & Ha & Hb)|(E & Eb & _)].
  - destruct op; try done; simpl; apply refines_skip;
      try apply (add_views Hl Hr); try apply (subtract_views Hl Hr);
      try apply (multiply_views Hl Hr);
      (unfold int_spec; simpl; destruct (Z.eqb_spec b 0); [by apply refines_ret|];
       destruct ((a =? INT64_MIN) && (b =? -1)) eqn:Em;
       [|apply refines_ret; simpl; rewrite diamond_int_floor_divide_spec by done;
         apply plain_int_represents, div_in_i64; try done; intros [-> ->]; done]).
    all: apply andb_prop in Em as [Ea%Z.eqb_eq Eb%Z.eqb_eq]; subst;
      apply (refines_view _ _ _ _ Hl); intros view [Hv _] Hz;
      replace (INT64_MIN / -1) with (- view_value view) by (rewrite Hz; done);
      apply refines_promote; by apply diamond_bignum_negate_computes.
  - rewrite <- negb_andb, E, Eb. cbn [negb andb].
    assert (Hcore : refines g site
      (if decide (generic_opcode op = DIAMOND_OP_ADD) then add_fallback other_operands l r
       else let! views := both_views l r in
         if decide (generic_opcode op = DIAMOND_OP_SUBTRACT)
         then promote (diamond_bignum_subtract (fst views) (snd views))
         else if decide (generic_opcode op = DIAMOND_OP_MULTIPLY)
         then promote (diamond_bignum_multiply (fst views) (snd views))
         else
           let! zero_view := vm_lift (diamond_int_view_int64 0) in
           if diamond_bignum_compare (snd views) zero_view =? 0
           then vm_ret (Status_ DIAMOND_VM_DIVISION_BY_ZERO)
           else promote (diamond_bignum_divide_floored (fst views) (snd views)))
      (int_spec op a b)).
    { destruct op; try done; simpl;
        try (by apply add_fallback_refines); try apply (subtract_views Hl Hr);
        try apply (multiply_views Hl Hr); apply (divide_views Hl Hr). }
    destruct (bool_decide (generic_opcode op <> op)) eqn:Ed.
    + apply bool_decide_eq_true in Ed. destruct Hg as [Hg|Hg]; [done|subst g].
      apply refines_deoptimize; [apply generic_idempotent|exact Hcore].
    + apply refines_skip. exact Hcore.
Qed.

Lemma op_ADD_refines :
  g = DIAMOND_OP_ADD -> refines g site (op_ADD other_operands site l r) (int_spec DIAMOND_OP_ADD a b).
Proof using Hl Hr.
  intros Hg. destruct plain_or_bignum as [(-> & -> & Ha & Hb)|(E & Eb & _)].
  - assert (Hk : forall op : DiamondOpCode, refines g site
      (let '(overflow, sum) := ckd_add a b in
       if overflow then
         let! views := both_views (DIAMOND_INT a) (DIAMOND_INT b) in
         promote (diamond_bignum_add (fst views) (snd views))
       else vm_ret (Value_ (DIAMOND_INT sum))) (SpecInt (a + b))).
    { intros _. pose proof (ckd_add_exact a b) as Hx. destruct (ckd_add a b) as [[] s].
      - apply (add_views Hl Hr).
      - destruct (Hx eq_refl) as [Hi Hs]. simpl in Hs. subst s. by apply refines_ret. }
    apply (refines_quicken true DIAMOND_OP_ADD); [done| |intros _];
      apply (Hk DIAMOND_OP_ADD).
  - pose proof (add_fallback_refines Eb) as H.
    destruct l as [| | | | | |], r as [| | | | | |]; exact H || done.
Qed.

(** The shared arithmetic handler after its quickening step. *)
Lemma arithmetic_body op :
  arith_opcode op -> op <> DIAMOND_OP_ADD -> g = generic_opcode op ->
  refines g site
    (match l, r with
     | DIAMOND_INT left_value, DIAMOND_INT right_value =>
         let divide := bool_decide (op = DIAMOND_OP_DIVIDE_INT \/ op = DIAMOND_OP_DIVIDE) in
         let '(overflow, result_value) :=
           match op with
           | DIAMOND_OP_ADD_INT => ckd_add left_value right_value
           | DIAMOND_OP_SUBTRACT_INT | DIAMOND_OP_SUBTRACT => ckd_sub left_value right_value
           | DIAMOND_OP_MULTIPLY_INT | DIAMOND_OP_MULTIPLY => ckd_mul left_value right_value
           | _ => (false, 0)
           end in
         if negb divide && negb overflow then vm_ret (Value_ (DIAMOND_INT result_value))
         else if divide && negb (right_value =? 0) &&
                 negb ((left_value =? INT64_MIN) && (right_value =? -1))
         then vm_ret (Value_ (DIAMOND_INT (diamond_int_floor_divide left_value right_value)))
         else int_arith_slow other_operands site op l r
     | DIAMOND_FLOAT _, DIAMOND_FLOAT _ =>
         if bool_decide (generic_opcode op = op) then other_operands op l r
         else int_arith_slow other_operands site op l r
     | _, _ => int_arith_slow other_operands site op l r
     end) (int_spec op a b).
Proof using Hl Hr.
  intros Hop Hne Hg. pose proof (int_arith_slow_refines op Hop (or_intror Hg)) as Hslow.
  destruct plain_or_bignum as [(-> & -> & Ha & Hb)|(E & Eb & _)].
  2:{ destruct l as [| | | | | |], r as [| | | | | |]; exact Hslow || done. }
  assert (Hchecked : forall checked f, checked_exact checked f ->
    int_spec op a b = SpecInt (f a b) ->
    refines g site
      (let '(overflow, result_value) := checked a b in
       if negb overflow then vm_ret (Value_ (DIAMOND_INT result_value))
       else int_arith_slow other_operands site op (DIAMOND_INT a) (DIAMOND_INT b))
      (int_spec op a b)).
  { intros checked f Hx E. specialize (Hx a b). destruct (checked a b) as [[] z]; [exact Hslow|].
    destruct (Hx eq_refl) as [Hi Hs]. simpl in Hs. subst z. rewrite E. by apply refines_ret. }
  assert (Hdivide : generic_opcode op = DIAMOND_OP_DIVIDE -> refines g site
      (if negb (b =? 0) && negb ((a =? INT64_MIN) && (b =? -1))
       then vm_ret (Value_ (DIAMOND_INT (diamond_int_floor_divide a b)))
       else int_arith_slow other_operands site op (DIAMOND_INT a) (DIAMOND_INT b))
      (int_spec op a b)).
  { intros Eop. destruct (negb (b =? 0) && _) eqn:Eg; [|exact Hslow].
    apply andb_prop in Eg as [E1 E2]. apply negb_true_iff, Z.eqb_neq in E1.
    replace (int_spec op a b) with (SpecInt (a / b)).
    2:{ destruct op; try done; unfold int_spec; simpl; apply Z.eqb_neq in E1; by rewrite E1. }
    apply refines_ret. simpl. rewrite diamond_int_floor_divide_spec by done.
    apply plain_int_represents, div_in_i64; try done. intros [-> ->]. done. }
  destruct op; try done;
    first [by apply (Hchecked ckd_add Z.add ckd_add_exact)
          |by apply (Hchecked ckd_sub Z.sub ckd_sub_exact)
          |by apply (Hchecked ckd_mul Z.mul ckd_mul_exact)
          |by apply Hdivide].
Qed.

Lemma int_spec_specialized op : int_spec (specialized_opcode op) = int_spec op.
Proof using Type. by destruct op. Qed.

Lemma op_SUBTRACT_refines op :
  arith_opcode op -> op <> DIAMOND_OP_ADD -> g = generic_opcode op ->
  refines g site (op_SUBTRACT other_operands op site l r) (int_spec op a b).
Proof using Hl Hr.
  intros Hop Hne Hg. apply refines_quicken; [done| |intros _].
  - by apply arithmetic_body.
  - rewrite <- int_spec_specialized. apply arithmetic_body.
    + by destruct op.
    + by destruct op.
    + by rewrite generic_specialized.
Qed.

Lemma int_register_arithmetic_refines checked f op :
  checked_exact checked f -> int_spec op a b = SpecInt (f a b) ->
  arith_opcode op -> op <> DIAMOND_OP_ADD -> g = generic_opcode op ->
  refines g site (int_register_arithmetic other_operands checked op site l r) (int_spec op a b).
Proof using Hl Hr.
  intros Hx Es Hop Hne Hg. pose proof (op_SUBTRACT_refines op Hop Hne Hg) as Hslow.
  unfold int_register_arithmetic.
  destruct plain_or_bignum as [(-> & -> & Ha & Hb)|(E & Eb & _)].
  - specialize (Hx a b). destruct (checked a b) as [[] z]; [exact Hslow|].
    destruct (Hx eq_refl) as [Hi Hs]. simpl in Hs. subst z. rewrite Es. by apply refines_ret.
  - destruct l as [| | | | | |], r as [| | | | | |]; exact Hslow || done.
Qed.

Lemma op_MODULO_refines :
  refines g site (op_MODULO other_operands site l r) (int_spec DIAMOND_OP_MODULO a b).
Proof using Hl Hr.
  assert (Hslow : refines g site (int_arith_slow other_operands site DIAMOND_OP_MODULO l r)
                    (int_spec DIAMOND_OP_MODULO a b)) by apply modulo_slow_refines.
  unfold op_MODULO. destruct plain_or_bignum as [(-> & -> & Ha & Hb)|(E & Eb & _)].
  - destruct (negb (b =? 0) && negb (b =? -1)) eqn:Eg; [|exact Hslow].
    apply andb_prop in Eg as [E1 _]. apply negb_true_iff in E1.
    unfold int_spec. simpl. rewrite E1. apply Z.eqb_neq in E1.
    apply refines_ret. simpl. rewrite int_floor_modulo_spec by done.
    by apply plain_int_represents, mod_in_i64.
  - destruct l as [| | | | | |], r as [| | | | | |]; exact Hslow || done.
Qed.

(** Three-way comparison of the views of two Ints. *)
Lemma compare_views (k : Z -> VmResult) o :
  (meets (k (sign_of (a ?= b))) o) ->
  refines g site
    (let! views := both_views l r in
     vm_ret (k (diamond_bignum_compare (fst views) (snd views)))) o.
Proof using Hl Hr.
  intros Hk. eapply refines_views; [exact Hl|exact Hr|].
  intros lv rv Hlv Hrv <- <-. apply refines_ret. cbn [fst snd].
  by rewrite diamond_bignum_compare_spec.
Qed.

Lemma op_COMPARE_refines :
  refines g site (op_COMPARE other_operands l r) (int_spec DIAMOND_OP_COMPARE a b).
Proof using Hl Hr.
  unfold op_COMPARE. rewrite (represents_is_int _ _ Hl), (represents_is_int _ _ Hr).
  cbn [andb].
  assert (Hres : forall z, z = sign_of (a ?= b) ->
    meets (Value_ (DIAMOND_INT z)) (int_spec DIAMOND_OP_COMPARE a b)).
  { intros z ->. apply plain_int_represents. destruct (a ?= b); unfold_widths; simpl; lia. }
  destruct plain_or_bignum as [(-> & -> & Ha & Hb)|(E & Eb & ->)].
  - apply refines_ret. apply Hres. rewrite sign_of_compare, Z.gtb_ltb. case_bools; lia.
  - apply (compare_views (fun c => Value_ (DIAMOND_INT (if c <? 0 then -1 else if c >? 0 then 1 else 0)))).
    apply Hres. by destruct (a ?= b).
Qed.

Lemma bitwise_word_in_i64 op x y : in_i64 x -> in_i64 y -> in_i64 (bitwise_word op x y).
Proof using Type.
  intros Hx Hy. pose proof (bitwise_range op x y 63 ltac:(lia)) as H.
  unfold_widths. change (2 ^ 63) with 9223372036854775808 in H. lia.
Qed.

Lemma op_BITWISE_refines op :
  bool_decide (op = DIAMOND_OP_BITWISE_AND \/ op = DIAMOND_OP_BITWISE_OR \/
               op = DIAMOND_OP_BITWISE_XOR) = true ->
  refines g site (op_BITWISE other_operands op l r) (int_spec op a b).
Proof using Hl Hr.
  intros Hop. assert (Es : int_spec op a b = SpecInt (bitwise_word (bitwise_op op) a b))
    by (by destruct op). rewrite Es.
  pose proof (promote_views (g:=g) (site:=site) Hl Hr
    (diamond_bignum_bitwise (bitwise_op op)) (bitwise_word (bitwise_op op))) as Hv.
  unfold op_BITWISE. destruct plain_or_bignum as [(-> & -> & Ha & Hb)|(E & Eb & _)].
  - apply refines_ret. by apply plain_int_represents, bitwise_word_in_i64.
  - rewrite (represents_is_int _ _ Hl), (represents_is_int _ _ Hr). cbn [andb].
    assert (H : refines g site (let! views := both_views l r in
      promote (diamond_bignum_bitwise (bitwise_op op) (fst views) (snd views)))
      (SpecInt (bitwise_word (bitwise_op op) a b))).
    { apply Hv. intros lv rv [] []. by apply diamond_bignum_bitwise_computes. }
    destruct l as [| | | | | |], r as [| | | | | |]; exact H || done.
Qed.

(** The shift-back test of SHIFT_LEFT accepts exactly the results that did not
    lose bits. *)
Lemma shift_left_exact x k :
  0 <= k < 64 ->
  let result := to_i64 (to_u64 (Z.shiftl (to_u64 x) k)) in
  in_i64 result /\ (Z.shiftr result k = x -> result = Z.shiftl x k).
Proof using Type.
  intros Hk result.
  assert (Hi : in_i64 result).
  { unfold result, in_i64, to_i64. pose proof (Z.mod_pos_bound
      (to_u64 (Z.shiftl (to_u64 x) k) + two_63) two_64 ltac:(done)). unfold_widths. lia. }
  split; [done|]. rewrite Z.shiftr_div_pow2, Z.shiftl_mul_pow2 by lia. intros Hback.
  assert (Hp : 0 < 2 ^ k <= two_63).
  { split; [apply Z.pow_pos_nonneg; lia|]. change two_63 with (2 ^ 63).
    apply Z.pow_le_mono_r; lia. }
  pose proof (Z.div_mod result (2 ^ k) ltac:(lia)) as E. rewrite Hback in E.
  pose proof (Z.mod_pos_bound result (2 ^ k) ltac:(lia)) as Hm.
  assert (Hcong : exists q, result = x * 2 ^ k + q * two_64).
  { unfold result, to_i64, to_u64. rewrite Z.shiftl_mul_pow2 by lia.
    set (y := (x mod two_64 * 2 ^ k) mod two_64).
    exists (- ((y + two_63) / two_64) - (x mod two_64 * 2 ^ k) / two_64 - 2 ^ k * (x / two_64)).
    pose proof (Z.div_mod (y + two_63) two_64 ltac:(done)).
    pose proof (Z.div_mod (x mod two_64 * 2 ^ k) two_64 ltac:(done)) as H1. fold y in H1.
    pose proof (Z.div_mod x two_64 ltac:(done)).
    set (xm := x mod two_64) in *. set (xd := x / two_64) in *. nia. }
  destruct Hcong as [q Hq]. unfold_widths. nia.
Qed.

Lemma op_SHIFT_LEFT_refines :
  refines g site (op_SHIFT_LEFT other_operands l r) (int_spec DIAMOND_OP_SHIFT_LEFT a b).
Proof using Hl Hr.
  unfold op_SHIFT_LEFT. rewrite (represents_is_int _ _ Hl), (represents_is_int _ _ Hr).
  cbn [andb]. unfold int_spec. cbn [register_form generic_opcode].
  destruct (represents_cases r b Hr) as [[-> Hb]|(b2 & -> & Hb)].
  2:{ assert ((0 <=? b) && (b <=? DIAMOND_MAX_SHIFT_BITS) = false) as ->; [|by apply refines_ret].
      unfold DIAMOND_MAX_SHIFT_BITS. unfold_widths. case_bools; simpl; try done; lia. }
  rewrite Z.gtb_ltb. destruct (Z.ltb_spec b 0), (Z.ltb_spec DIAMOND_MAX_SHIFT_BITS b),
    (Z.leb_spec 0 b), (Z.leb_spec b DIAMOND_MAX_SHIFT_BITS); cbn [orb andb];
    try lia; try (by apply refines_ret).
  assert (Hslow : refines g site (let! left_view := vm_lift (diamond_int_view l) in
    promote (diamond_bignum_shift_left left_view (to_u64 b))) (SpecInt (Z.shiftl a b))).
  { eapply refines_view; [exact Hl|]. intros view [Hv _] <-.
    rewrite to_u64_small by (unfold DIAMOND_MAX_SHIFT_BITS in *; unfold_widths; lia).
    apply refines_promote. by apply diamond_bignum_shift_left_computes. }
  destruct (represents_cases l a Hl) as [[-> Ha]|(b1 & -> & _)]; [|exact Hslow].
  destruct (Z.ltb_spec b 64); [|exact Hslow]. cbv zeta.
  destruct (shift_left_exact a b ltac:(lia)) as [Hi Hx].
  destruct (Z.eqb_spec (Z.shiftr (to_i64 (to_u64 (Z.shiftl (to_u64 a) b))) b) a) as [E|];
    [|exact Hslow].
  apply refines_ret. simpl. rewrite Hx in Hi |- * by done. by apply plain_int_represents.
Qed.

(** Arithmetic right shift of an [int64_t]. *)
Lemma shift_right_plain x k :
  in_i64 x -> 0 <= k ->
  in_i64 (x / 2 ^ k) /\ (64 <= k -> x / 2 ^ k = if x <? 0 then -1 else 0).
Proof using Type.
  intros Hx Hk. unfold in_i64 in *.
  assert (Hp : 0 < 2 ^ k) by (apply Z.pow_pos_nonneg; lia).
  pose proof (Z.div_mod x (2 ^ k) ltac:(lia)). pose proof (Z.mod_pos_bound x (2 ^ k) Hp).
  split.
  - unfold_widths. split; nia.
  - intros H64. assert (two_64 <= 2 ^ k)
      by (change two_64 with (2 ^ 64); apply Z.pow_le_mono_r; lia).
    unfold_widths. destruct (Z.ltb_spec x 0); nia.
Qed.

Lemma op_SHIFT_RIGHT_refines :
  refines g site (op_SHIFT_RIGHT l r) (int_spec DIAMOND_OP_SHIFT_RIGHT a b).
Proof using Hl Hr.
  unfold op_SHIFT_RIGHT. rewrite (represents_is_int _ _ Hl), (represents_is_int _ _ Hr).
  cbn [orb negb]. unfold int_spec. cbn [register_form generic_opcode].
  destruct (represents_cases r b Hr) as [[-> Hb]|(b2 & -> & Hb)].
  2:{ assert ((0 <=? b) && (b <=? INT64_MAX) = false) as ->; [|by apply refines_ret].
      unfold in_i64 in Hb. unfold_widths. case_bools; simpl; try done; lia. }
  destruct (Z.ltb_spec b 0), (Z.leb_spec 0 b); cbn [andb]; try lia; [by apply refines_ret|].
  destruct (Z.leb_spec b INT64_MAX); [|unfold in_i64 in Hb; lia].
  destruct (represents_cases l a Hl) as [[-> Ha]|(b1 & -> & _)].
  - apply refines_ret. simpl. rewrite Z.geb_leb, Z.shiftr_div_pow2 by lia.
    destruct (shift_right_plain a b Ha ltac:(lia)) as [Hi Hbig].
    destruct (Z.leb_spec 64 b); [|by apply plain_int_represents].
    rewrite <- Hbig in * by done. by apply plain_int_represents.
  - eapply refines_view; [exact Hl|]. intros view [Hv _] <-.
    rewrite to_u64_small by (unfold in_i64 in Hb; unfold_widths; lia).
    apply refines_promote. by apply diamond_bignum_shift_right_computes.
Qed.

Lemma op_NEGATE_refines :
  refines g site (op_NEGATE other_operands l) (int_spec DIAMOND_OP_NEGATE a b).
Proof using Hl.
  assert (Hslow : refines g site (let! operand_view := vm_lift (diamond_int_view l) in
    promote (diamond_bignum_negate operand_view)) (SpecInt (- a))).
  { eapply refines_view; [exact Hl|]. intros view [Hv _] <-.
    apply refines_promote. by apply diamond_bignum_negate_computes. }
  unfold op_NEGATE. destruct (represents_cases l a Hl) as [[-> Ha]|(b1 & -> & _)]; [|exact Hslow].
  cbn [value_is_bignum]. pose proof (ckd_sub_exact 0 a) as Hx.
  destruct (ckd_sub 0 a) as [[] z]; [exact Hslow|]. destruct (Hx eq_refl) as [Hi Hs].
  simpl in Hs. subst z. apply refines_ret. by apply plain_int_represents.
Qed.

Lemma values_equal_spec : values_equal other_equal l r = Some (a =? b).
Proof using Hl Hr.
  unfold values_equal. destruct plain_or_bignum as [(-> & -> & _)|(_ & _ & Hbig)]; [done|].
  rewrite Hbig, (represents_is_int _ _ Hl), (represents_is_int _ _ Hr). cbn [negb orb].
  destruct (diamond_int_view_spec l a Hl) as (lv & El & Hlo & <-).
  destruct (diamond_int_view_spec r b Hr) as (rv & Er & Hro & <-).
  rewrite El, Er, diamond_bignum_compare_spec, sign_of_compare by done.
  assert (is_float l || is_float r = false) as ->.
  { destruct (represents_cases l _ Hl) as [[-> _]|(? & -> & _)],
      (represents_cases r _ Hr) as [[-> _]|(? & -> & _)]; done. }
  f_equal. destruct (Z.ltb_spec (view_value lv) (view_value rv)),
    (Z.eqb_spec (view_value lv) (view_value rv)); done || lia.
Qed.

Lemma equal_general_refines (negate : bool) :
  refines g site (diamond_jit_equal_general other_operands other_equal l r negate)
    (SpecBool (if negate then negb (a =? b) else a =? b)).
Proof using Hl Hr.
  unfold diamond_jit_equal_general. rewrite (represents_is_int _ _ Hl), values_equal_spec.
  apply refines_lift. by apply refines_ret.
Qed.

Lemma int_spec_equal op :
  generic_opcode op = DIAMOND_OP_EQUAL \/ generic_opcode op = DIAMOND_OP_NOT_EQUAL ->
  int_spec op a b = SpecBool (if bool_decide (generic_opcode op = DIAMOND_OP_NOT_EQUAL)
                              then negb (a =? b) else a =? b).
Proof using Type. intros [H|H]; destruct op; done. Qed.

Lemma op_EQUAL_refines op :
  generic_opcode op = DIAMOND_OP_EQUAL \/ generic_opcode op = DIAMOND_OP_NOT_EQUAL ->
  g = generic_opcode op ->
  refines g site (op_EQUAL other_operands other_equal op site l r) (int_spec op a b).
Proof using Hl Hr.
  intros Hop Hg. unfold op_EQUAL. rewrite int_spec_equal by done.
  set (k := fun opcode : DiamondOpCode => match l, r with DIAMOND_INT _, DIAMOND_INT _ => _ | _, _ => _ end).
  destruct plain_or_bignum as [(El & Er & _)|(Enp & _)].
  - assert (Hk : forall op', generic_opcode op' = generic_opcode op ->
      refines g site (vm_bind (if bool_decide (op' = DIAMOND_OP_EQUAL_INT \/
          op' = DIAMOND_OP_NOT_EQUAL_INT) && negb (is_plain_int l && is_plain_int r)
        then let! _ := deoptimize site (generic_opcode op') in vm_ret (generic_opcode op')
        else vm_ret op') k)
      (SpecBool (if bool_decide (generic_opcode op = DIAMOND_OP_NOT_EQUAL)
                 then negb (a =? b) else a =? b))).
    { intros op' E'. rewrite <- E'. rewrite El, Er. cbn [is_plain_int andb negb].
      rewrite andb_false_r. apply refines_skip. unfold k. rewrite El, Er.
      apply refines_ret. rewrite <- E' in Hop. destruct op'; destruct Hop; done. }
    apply refines_quicken; [done|by apply Hk|intros _; apply Hk, generic_specialized].
  - rewrite Enp. apply refines_quicken; [done| |done]. cbn [negb].
    assert (Hk : forall op', generic_opcode op' = op' ->  op' = generic_opcode op ->
      refines g site (k op') (SpecBool (if bool_decide (generic_opcode op = DIAMOND_OP_NOT_EQUAL)
                 then negb (a =? b) else a =? b))).
    { intros op' E1 ->. pose proof (equal_general_refines
        (bool_decide (generic_opcode op = DIAMOND_OP_NOT_EQUAL))) as Hgen.
      unfold k. destruct l as [| | | | | |], r as [| | | | | |]; exact Hgen || done. }
    destruct (bool_decide (op = DIAMOND_OP_EQUAL_INT \/ op = DIAMOND_OP_NOT_EQUAL_INT)) eqn:Eop;
      cbn [andb].
    + apply refines_assoc. rewrite <- Hg at 1.
      apply refines_deoptimize; [rewrite Hg; apply generic_idempotent|]. apply refines_skip.
      apply Hk; [apply generic_idempotent|done].
    + apply refines_skip. apply bool_decide_eq_false in Eop.
      apply Hk; destruct op; destruct Hop; done || (exfalso; apply Eop; auto).
Qed.

Definition order_opcode (op : DiamondOpCode) : Prop :=
  match generic_opcode op with
  | DIAMOND_OP_LESS | DIAMOND_OP_LESS_EQUAL | DIAMOND_OP_GREATER
  | DIAMOND_OP_GREATER_EQUAL => True
  | _ => False
  end.

Lemma int_spec_order op :
  order_opcode op -> int_spec op a b = SpecBool (int_comparison (generic_opcode op) a b).
Proof using Type. by destruct op. Qed.

Lemma comparison_holds_spec op :
  order_opcode op ->
  comparison_holds (generic_opcode op) (sign_of (a ?= b)) = int_comparison (generic_opcode op) a b.
Proof using Type.
  intros Hop. rewrite sign_of_compare.
  destruct op; try done; simpl; rewrite ?Z.gtb_ltb, ?Z.geb_leb;
    destruct (Z.ltb_spec a b), (Z.eqb_spec a b); simpl; case_bools; done || lia.
Qed.

Lemma compare_int_slow_refines op :
  order_opcode op -> (generic_opcode op = op \/ g = generic_opcode op) ->
  some_bignum l r = true ->
  refines g site (compare_int_slow other_operands site op l r) (int_spec op a b).
Proof using Hl Hr.
  intros Hop Hg Hbig. unfold compare_int_slow. rewrite Hbig, int_spec_order by done.
  assert (Hcore : refines g site (let! views := both_views l r in
      vm_ret (Value_ (DIAMOND_BOOL (comparison_holds (generic_opcode op)
        (diamond_bignum_compare (fst views) (snd views))))))
      (SpecBool (int_comparison (generic_opcode op) a b))).
  { apply (compare_views (fun c => Value_ (DIAMOND_BOOL (comparison_holds (generic_opcode op) c)))).
    simpl. by rewrite comparison_holds_spec. }
  destruct (bool_decide (generic_opcode op <> op)) eqn:Ed.
  - apply bool_decide_eq_true in Ed. destruct Hg as [Hg|Hg]; [done|]. rewrite <- Hg at 1.
    apply refines_deoptimize; [rewrite Hg; apply generic_idempotent|]. exact Hcore.
  - apply refines_skip. exact Hcore.
Qed.

Lemma op_LESS_refines op :
  order_opcode op -> g = generic_opcode op ->
  refines g site (op_LESS other_operands op site l r) (int_spec op a b).
Proof using Hl Hr.
  intros Hop Hg. unfold op_LESS.
  assert (Hk : forall op', order_opcode op' -> g = generic_opcode op' -> refines g site
    match l, r with
    | DIAMOND_INT a, DIAMOND_INT b =>
        vm_ret (Value_ (DIAMOND_BOOL (int_comparison (generic_opcode op') a b)))
    | _, _ => compare_int_slow other_operands site op' l r
    end (int_spec op' a b)).
  { intros op' Ho Hg'. destruct plain_or_bignum as [(-> & -> & _)|(Enp & Eb & _)].
    - rewrite int_spec_order by done. by apply refines_ret.
    - pose proof (compare_int_slow_refines op' Ho (or_intror Hg') Eb) as H.
      destruct l as [| | | | | |], r as [| | | | | |]; exact H || done. }
  apply refines_quicken; [done|by apply Hk|intros _]. rewrite <- int_spec_specialized.
  apply Hk; [by destruct op|by rewrite generic_specialized].
Qed.

(** The forms with an inline comparison, whatever path they fall back to. *)
Lemma int_register_comparison_refines compare family op :
  int_spec op a b = SpecBool (compare a b) ->
  (some_bignum l r = true -> refines g site (family op site l r) (int_spec op a b)) ->
  refines g site (int_register_comparison compare family op site l r) (int_spec op a b).
Proof using Hl Hr.
  intros Es Hf. unfold int_register_comparison.
  destruct plain_or_bignum as [(-> & -> & _)|(Enp & Eb & _)].
  - rewrite Es. by apply refines_ret.
  - specialize (Hf Eb). destruct l as [| | | | | |], r as [| | | | | |]; exact Hf || done.
Qed.

Lemma int_constant_slow_refines op :
  is_constant_form op = true -> (order_opcode (register_form op) -> some_bignum l r = true) ->
  refines g site (int_constant_slow other_operands other_equal site op l r) (int_spec op a b).
Proof using Hl Hr.
  intros Hop Hbig.
  destruct op; try done; simpl;
    try (by apply (int_arith_slow_refines DIAMOND_OP_ADD I (or_introl eq_refl)));
    try (by apply (int_arith_slow_refines DIAMOND_OP_SUBTRACT I (or_introl eq_refl)));
    try (by apply (int_arith_slow_refines DIAMOND_OP_MULTIPLY I (or_introl eq_refl)));
    try (by apply modulo_slow_refines);
    try (by apply (equal_general_refines false)); try (by apply (equal_general_refines true));
    specialize (Hbig I).
  - exact (compare_int_slow_refines DIAMOND_OP_LESS I (or_introl eq_refl) Hbig).
  - exact (compare_int_slow_refines DIAMOND_OP_LESS_EQUAL I (or_introl eq_refl) Hbig).
  - exact (compare_int_slow_refines DIAMOND_OP_GREATER I (or_introl eq_refl) Hbig).
  - exact (compare_int_slow_refines DIAMOND_OP_GREATER_EQUAL I (or_introl eq_refl) Hbig).
Qed.

Lemma int_k_arithmetic_refines checked f op :
  checked_exact checked f -> int_spec op a b = SpecInt (f a b) ->
  is_constant_form op = true -> ~ order_opcode (register_form op) ->
  refines g site (int_k_arithmetic other_operands other_equal checked op site l r) (int_spec op a b).
Proof using Hl Hr.
  intros Hx Es Hop Hno. pose proof (int_constant_slow_refines op Hop) as Hslow.
  specialize (Hslow ltac:(done)). unfold int_k_arithmetic.
  destruct plain_or_bignum as [(-> & -> & Ha & Hb)|(E & Eb & _)].
  - specialize (Hx a b). destruct (checked a b) as [[] z]; [exact Hslow|].
    destruct (Hx eq_refl) as [Hi Hs]. simpl in Hs. subst z. rewrite Es. by apply refines_ret.
  - destruct l as [| | | | | |], r as [| | | | | |]; exact Hslow || done.
Qed.

Lemma op_MODULO_INT_K_refines :
  refines g site (op_MODULO_INT_K other_operands other_equal site l r)
    (int_spec DIAMOND_OP_MODULO_INT_K a b).
Proof using Hl Hr. exact op_MODULO_refines. Qed.

(** Every Int instruction refines its specification. *)
Lemma exec_binary_refines op :
  g = generic_opcode op ->
  refines g site (exec_binary other_operands other_equal op site l r) (int_spec op a b).
Proof using Hl Hr.
  intros Hg. destruct op; cbn [exec_binary];
  solve
  [ by apply op_ADD_refines | by apply op_SUBTRACT_refines
  | by apply (int_register_arithmetic_refines ckd_add Z.add _ ckd_add_exact)
  | by apply (int_register_arithmetic_refines ckd_sub Z.sub _ ckd_sub_exact)
  | by apply (int_register_arithmetic_refines ckd_mul Z.mul _ ckd_mul_exact)
  | apply op_MODULO_refines | apply op_NEGATE_refines
  | apply op_SHIFT_LEFT_refines | apply op_SHIFT_RIGHT_refines
  | by apply op_BITWISE_refines
  | apply op_EQUAL_refines; [by (left + right)|done]
  | apply int_register_comparison_refines; [done|intros Hbig];
    first [apply op_EQUAL_refines; [by (left + right)|done] | by apply op_LESS_refines
          |by apply int_constant_slow_refines]
  | by apply op_LESS_refines | apply op_COMPARE_refines
  | by apply (int_k_arithmetic_refines ckd_add Z.add _ ckd_add_exact); auto
  | by apply (int_k_arithmetic_refines ckd_sub Z.sub _ ckd_sub_exact); auto
  | by apply (int_k_arithmetic_refines ckd_mul Z.mul _ ckd_mul_exact); auto
  | apply op_MODULO_INT_K_refines ].
Qed.

End HandlerRefinement.

(** ** Programs of Int instructions

    The abstract machine works on mathematical integers and booleans and never
    rewrites its code; the interpreter simulates it. *)

Inductive AbsValue :=
  | AInt (z : Z)
  | ABool (b : bool).

Record Instruction := {
  i_site : nat; i_destination : nat; i_left : nat; i_third : nat; i_constant : nat;
}.

Definition abs_result (o : SpecOutcome) : option AbsValue :=
  match o with SpecInt z => Some (AInt z) | SpecBool b => Some (ABool b) | SpecError _ => None end.

(** The effect of an instruction whose operands are the integers [a], [b];
    [None] when an operand is not an Int. *)
Definition abs_apply (op : DiamondOpCode) (destination : nat) (regs : list AbsValue)
    (l r : AbsValue) : option (DiamondVmStatus * list AbsValue) :=
  match l, r with
  | AInt a, AInt b =>
      match int_spec op a b with
      | SpecInt z => let? regs := array_write regs destination (AInt z) in
                     Some (DIAMOND_VM_OK, regs)
      | SpecBool x => let? regs := array_write regs destination (ABool x) in
                      Some (DIAMOND_VM_OK, regs)
      | SpecError e => Some (e, regs)
      end
  | _, _ => None
  end.

Definition abs_step (code : list DiamondOpCode) (constants : list AbsValue)
    (i : Instruction) (regs : list AbsValue) : option (DiamondVmStatus * list AbsValue) :=
  let? op := array_read code (i_site i) in
  if is_constant_form op then
    let? k := array_read constants (i_constant i) in
    let? regs := array_write regs (i_third i) k in
    let? l := array_read regs (i_left i) in
    abs_apply op (i_destination i) regs l k
  else if bool_decide (op = DIAMOND_OP_NEGATE) then
    let? l := array_read regs (i_left i) in
    abs_apply op (i_destination i) regs l l
  else
    let? l := array_read regs (i_left i) in
    let? r := array_read regs (i_third i) in
    abs_apply op (i_destination i) regs l r.

(** Instructions in order, until one fails. *)
Fixpoint abs_run (code : list DiamondOpCode) (constants : list AbsValue)
    (program : list Instruction) (regs : list AbsValue)
    : option (DiamondVmStatus * list AbsValue) :=
  match program with
  | [] => Some (DIAMOND_VM_OK, regs)
  | i :: rest =>
      let? (status, regs) := abs_step code constants i regs in
      match status with
      | DIAMOND_VM_OK => abs_run code constants rest regs
      | _ => Some (status, regs)
      end
  end.

Section Programs.

Context {S : Type} `{!VmHeap S}.
Context (other_operands :
  DiamondOpCode -> DiamondValue -> DiamondValue -> VM (Machine S) VmResult).
Context (other_equal : DiamondValue -> DiamondValue -> bool).

Fixpoint run (program : list Instruction) : VM (Machine S) DiamondVmStatus :=
  match program with
  | [] => vm_ret DIAMOND_VM_OK
  | i :: rest =>
      let! status := step other_operands other_equal (i_site i) (i_destination i)
                       (i_left i) (i_third i) (i_constant i) in
      match status with
      | DIAMOND_VM_OK => run rest
      | _ => vm_ret status
      end
  end.

Definition abs_rel (v : DiamondValue) (x : AbsValue) : Prop :=
  match x with
  | AInt z => represents v z
  | ABool b => v = DIAMOND_BOOL b
  end.

(** The machine's code is the program's code up to quickening, and its
    registers and constants hold the abstract values. *)
Record simulates (code0 : list DiamondOpCode) (constants0 : list AbsValue)
    (m : Machine S) (regs : list AbsValue) : Prop := {
  sim_registers : Forall2 abs_rel (registers m) regs;
  sim_constants : Forall2 abs_rel (constants m) constants0;
  sim_code : Forall2 (fun op op0 => generic_opcode op = generic_opcode op0) (code m) code0;
}.

(** [c] ends in a state that simulates [regs] with [status], or runs out of
    memory; with plenty of memory it does not run out. *)
Definition reaches (code0 : list DiamondOpCode) (constants0 : list AbsValue)
    (c : VM (Machine S) DiamondVmStatus) (m : Machine S)
    (status : DiamondVmStatus) (regs : list AbsValue) : Prop :=
  exists s m', c m = Some (s, m') /\
    (s = DIAMOND_VM_OUT_OF_MEMORY \/ (s = status /\ simulates code0 constants0 m' regs)) /\
    (forall plenty, PlentyHeap S plenty -> plenty (heap m) ->
       s = status /\ simulates code0 constants0 m' regs /\ plenty (heap m')).

Lemma generic_same_spec op op' :
  generic_opcode op = generic_opcode op' ->
  (forall a b, int_spec op a b = int_spec op' a b) /\
  is_constant_form op = is_constant_form op' /\
  bool_decide (op = DIAMOND_OP_NEGATE) = bool_decide (op' = DIAMOND_OP_NEGATE).
Proof using Type. destruct op, op'; done. Qed.

Lemma simulates_frame code0 constants0 m m' regs site op0 :
  simulates code0 constants0 m regs -> frame site m m' ->
  code0 !! site = Some op0 -> site_is (generic_opcode op0) site m' ->
  simulates code0 constants0 m' regs.
Proof using Type.
  intros [H1 H2 H3] (F1 & F2 & F3 & F4) E0 (op & E & Eg). split.
  - by rewrite F1.
  - by rewrite F2.
  - apply Forall2_same_length_lookup_2.
    + rewrite F3. by eapply Forall2_length.
    + intros j x y Hx Hy. destruct (decide (j = site)) as [->|Hj].
      * rewrite E in Hx. rewrite E0 in Hy. congruence.
      * rewrite F4 in Hx by done. by eapply (Forall2_lookup_lr _ _ _ _ _ _ H3).
Qed.

(** One instruction on Int operands. *)
Lemma exec_store_reaches code0 constants0 op op0 site destination m regs l r x y st regs' :
  simulates code0 constants0 m regs ->
  code m !! site = Some op -> code0 !! site = Some op0 ->
  abs_rel l x -> abs_rel r y ->
  abs_apply op0 destination regs x y = Some (st, regs') ->
  reaches code0 constants0
    (vm_bind (exec_binary other_operands other_equal op site l r) (store_result destination))
    m st regs'.
Proof using Type.
  intros Hsim Eop E0 Hl Hr Happ.
  assert (Hg : generic_opcode op = generic_opcode op0)
    by (apply (Forall2_lookup_lr _ _ _ _ _ _ (sim_code _ _ _ _ Hsim) Eop E0)).
  destruct x as [a|bx], y as [b|by_]; try done. unfold abs_apply in Happ.
  rewrite <- (proj1 (generic_same_spec op op0 Hg)) in Happ.
  destruct (exec_binary_refines other_operands other_equal (g:=generic_opcode op) (site:=site)
    Hl Hr op eq_refl m) as (res & m' & E & F & Hs & Hres & Hp); [by exists op|].
  assert (Hsim' : simulates code0 constants0 m' regs)
    by (eapply simulates_frame; [exact Hsim|exact F|exact E0|by rewrite <- Hg]).
  assert (Hfin : meets res (int_spec op a b) ->
    exists m2, store_result destination res m' = Some (st, m2) /\
      simulates code0 constants0 m2 regs' /\ heap m2 = heap m').
  { intros Hm.
    assert (Hstore : forall v z, abs_rel v z ->
      (let? regs := array_write regs destination z in Some (DIAMOND_VM_OK, regs)) = Some (st, regs') ->
      exists m2, store_result destination (Value_ v) m' = Some (st, m2) /\
        simulates code0 constants0 m2 regs' /\ heap m2 = heap m').
    { intros v z Hv Hw. unfold array_write in Hw. simpl. unfold array_write.
      destruct Hsim' as [H1 H2 H3]. rewrite (Forall2_length _ _ _ H1).
      destruct (destination <? length regs)%nat; [|done]. injection Hw as <- <-.
      eexists. split; [done|]. split; [|done]. split; simpl; [|done|done].
      by apply Forall2_insert. }
    destruct (int_spec op a b) as [z|x|e] eqn:Es; destruct res as [v|s]; try done.
    - by apply (Hstore v (AInt z)).
    - by apply (Hstore v (ABool x)).
    - simpl in Hm. subst s. injection Happ as <- <-. exists m'. done. }
  unfold reaches, vm_bind. rewrite E. destruct Hres as [->|Hm].
  - exists DIAMOND_VM_OUT_OF_MEMORY, m'. split; [done|]. split; [by left|].
    intros plenty HP Hh. destruct (Hp plenty HP Hh) as [Hm Hh'].
    destruct (Hfin Hm) as (m2 & E2 & Hs2 & Eh). simpl in E2. injection E2 as <- <-. auto.
  - destruct (Hfin Hm) as (m2 & E2 & Hs2 & Eh). exists st, m2. split; [done|].
    split; [by right|]. intros plenty HP Hh. destruct (Hp plenty HP Hh) as [_ Hh'].
    rewrite Eh. auto.
Qed.

Lemma forall2_read {A B} (P : A -> B -> Prop) l k i y :
  Forall2 P l k -> array_read k i = Some y -> exists x, array_read l i = Some x /\ P x y.
Proof using Type. intros H E. apply (Forall2_lookup_r _ _ _ _ _ H E). Qed.

Lemma step_reaches code0 constants0 i m regs st regs' :
  simulates code0 constants0 m regs ->
  abs_step code0 constants0 i regs = Some (st, regs') ->
  reaches code0 constants0
    (step other_operands other_equal (i_site i) (i_destination i) (i_left i) (i_third i)
       (i_constant i)) m st regs'.
Proof using Type.
  intros Hsim Habs. unfold abs_step in Habs. unfold reaches, step.
  destruct (array_read code0 (i_site i)) as [op0|] eqn:E0; [|done].
  destruct (forall2_read _ _ _ _ _ (sim_code _ _ _ _ Hsim) E0) as (op & Eop & Hg).
  rewrite Eop. destruct (generic_same_spec op op0 Hg) as (_ & -> & ->).
  destruct (is_constant_form op0).
  - destruct (array_read constants0 (i_constant i)) as [k|] eqn:Ek; [|done].
    destruct (forall2_read _ _ _ _ _ (sim_constants _ _ _ _ Hsim) Ek) as (kv & Ekv & Hk).
    rewrite Ekv. pose proof (lookup_lt_Some _ _ _ Ekv).
    destruct (Nat.leb_spec (length (constants m)) (i_constant i)); [lia|].
    destruct Hsim as [H1 H2 H3]. unfold array_write in *.
    rewrite (Forall2_length _ _ _ H1). destruct (i_third i <? length regs)%nat; [|done].
    assert (Hsim1 : simulates code0 constants0
      (with_registers m (<[i_third i := kv]> (registers m))) (<[i_third i := k]> regs)).
    { split; simpl; [by apply Forall2_insert|done|done]. }
    destruct (array_read (<[i_third i := k]> regs) (i_left i)) as [x|] eqn:Ex; [|done].
    destruct (forall2_read _ _ _ _ _ (sim_registers _ _ _ _ Hsim1) Ex) as (lv & Elv & Hlv).
    simpl in Elv. rewrite Elv.
    destruct (exec_store_reaches code0 constants0 op op0 (i_site i) (i_destination i)
      _ _ lv kv x k st regs' Hsim1 Eop E0 Hlv Hk Habs) as (s & m' & E & Hr & Hp).
    exists s, m'. split; [exact E|]. split; [exact Hr|exact Hp].
  - assert (Hfetch : forall j x, array_read regs j = Some x ->
      exists v, array_read (registers m) j = Some v /\ abs_rel v x)
      by (intros j x; apply (forall2_read _ _ _ _ _ (sim_registers _ _ _ _ Hsim))).
    destruct (bool_decide (op0 = DIAMOND_OP_NEGATE));
      (destruct (array_read regs (i_left i)) as [x|] eqn:Ex; [|done]);
      destruct (Hfetch _ _ Ex) as (lv & -> & Hlv).
    + exact (exec_store_reaches code0 constants0 op op0 _ _ m regs lv lv x x st regs'
        Hsim Eop E0 Hlv Hlv Habs).
    + destruct (array_read regs (i_third i)) as [y|] eqn:Ey; [|done].
      destruct (Hfetch _ _ Ey) as (rv & -> & Hrv).
      exact (exec_store_reaches code0 constants0 op op0 _ _ m regs lv rv x y st regs'
        Hsim Eop E0 Hlv Hrv Habs).
Qed.

End Programs.

(** ** Theorems *)

Section Theorems.

Context {S : Type} `{!VmHeap S}.
Context (other_operands :
  DiamondOpCode -> DiamondValue -> DiamondValue -> VM (Machine S) VmResult).
Context (other_equal : DiamondValue -> DiamondValue -> bool).

Lemma run_reaches code0 constants0 program m regs st regs' :
  simulates code0 constants0 m regs ->
  abs_run code0 constants0 program regs = Some (st, regs') ->
  reaches code0 constants0 (run other_operands other_equal program) m st regs'.
Proof using Type.
  revert m regs. induction program as [|i rest IH]; intros m regs Hsim Habs; simpl in Habs.
  - injection Habs as <- <-. exists DIAMOND_VM_OK, m. split; [done|]. auto.
  - destruct (abs_step code0 constants0 i regs) as [[s1 regs1]|] eqn:E1; [|done].
    destruct (step_reaches other_operands other_equal code0 constants0 i m regs s1 regs1 Hsim E1)
      as (s & m1 & Erun & Hr & Hp).
    unfold reaches. cbn [run]. unfold vm_bind at 1. rewrite Erun.
    destruct (decide (s = DIAMOND_VM_OUT_OF_MEMORY)) as [->|Hne].
    + exists DIAMOND_VM_OUT_OF_MEMORY, m1. split; [done|]. split; [by left|].
      intros plenty HP Hh. destruct (Hp plenty HP Hh) as (<- & Hs & Hh').
      injection Habs as <- <-. auto.
    + destruct Hr as [|[-> Hs1]]; [done|]. destruct s1; try
        (injection Habs as <- <-; eexists _, m1; split; [done|]; split; [by right|];
         intros plenty HP Hh; destruct (Hp plenty HP Hh) as (_ & ? & ?); auto).
      destruct (IH m1 regs1 Hs1 Habs) as (s2 & m2 & E2 & Hr2 & Hp2).
      exists s2, m2. split; [done|]. split; [done|].
      intros plenty HP Hh. destruct (Hp plenty HP Hh) as (_ & _ & Hh'). by apply Hp2.
Qed.

Lemma abs_rel_unique v1 v2 x : abs_rel v1 x -> abs_rel v2 x -> v1 = v2.
Proof using Type.
  destruct x; simpl; [apply represents_unique|congruence].
Qed.

Lemma registers_unique l1 l2 regs :
  Forall2 abs_rel l1 regs -> Forall2 abs_rel l2 regs -> l1 = l2.
Proof using Type.
  intros H. revert l2. induction H as [|v x l1 regs Hv H IH]; intros l2 H2; inversion H2; subst.
  - done.
  - f_equal; [by eapply abs_rel_unique|by apply IH].
Qed.

(** C1: Any program of Int instructions computes on the interpreter what it
    computes on mathematical integers: every instruction terminates inside its
    buffers, stores the exact unbounded result (canonically represented), the
    boolean of the comparison, or stops with the error of the specification;
    the only other outcome is running out of memory, which does not happen with
    plenty of it.  Quickening may rewrite any of the sites meanwhile. *)
Theorem int_program_refines code0 constants0 program m regs st regs' :
  simulates code0 constants0 m regs ->
  abs_run code0 constants0 program regs = Some (st, regs') ->
  exists s m', run other_operands other_equal program m = Some (s, m') /\
    (s = DIAMOND_VM_OUT_OF_MEMORY \/ (s = st /\ simulates code0 constants0 m' regs')) /\
    (forall plenty, PlentyHeap S plenty -> plenty (heap m) ->
       s = st /\ simulates code0 constants0 m' regs' /\ plenty (heap m')).
Proof using Type. intros Hsim Habs. exact (run_reaches _ _ _ _ _ _ _ Hsim Habs). Qed.

(** C25: Quickening is invisible: two machines that start with the same registers,
    constants and program, whatever their quickening flags, thresholds, counters
    and already-rewritten sites, end with the same status and the very same
    register values, when memory suffices and the operands are Ints wherever
    the abstract run needs them. *)
Theorem quickening_invisible code0 constants0 program m1 m2 regs st regs' plenty :
  PlentyHeap S plenty -> plenty (heap m1) -> plenty (heap m2) ->
  simulates code0 constants0 m1 regs -> simulates code0 constants0 m2 regs ->
  abs_run code0 constants0 program regs = Some (st, regs') ->
  exists m1' m2',
    run other_operands other_equal program m1 = Some (st, m1') /\
    run other_operands other_equal program m2 = Some (st, m2') /\
    registers m1' = registers m2'.
Proof using Type.
  intros HP P1 P2 S1 S2 Habs.
  destruct (run_reaches _ _ _ _ _ _ _ S1 Habs) as (s1 & m1' & E1 & _ & H1).
  destruct (run_reaches _ _ _ _ _ _ _ S2 Habs) as (s2 & m2' & E2 & _ & H2).
  destruct (H1 plenty HP P1) as (-> & [R1 _ _] & _).
  destruct (H2 plenty HP P2) as (-> & [R2 _ _] & _).
  exists m1', m2'. split; [done|]. split; [done|]. by eapply registers_unique.
Qed.

(** [values_equal] on Ints, plain or big, decides equality of the integers,
    which is also structural equality of the values: an Int has one
    representation. *)
Theorem int_equality v1 v2 a b :
  represents v1 a -> represents v2 b ->
  values_equal other_equal v1 v2 = Some (a =? b) /\ (a = b <-> v1 = v2).
Proof using Type.
  intros H1 H2. split; [by apply values_equal_spec|]. split.
  - intros ->. by eapply represents_unique.
  - intros <-. destruct H1 as [_ H1], H2 as [_ H2]. congruence.
Qed.

(** Division and modulo of Ints are floored and satisfy
    [(a / b) * b + a % b == a]; a zero divisor is DIVISION_BY_ZERO for both. *)
Theorem divide_modulo_identity l r a b site :
  represents l a -> represents r b ->
  exists q m,
    refines DIAMOND_OP_DIVIDE site
      (exec_binary other_operands other_equal DIAMOND_OP_DIVIDE site l r) q /\
    refines DIAMOND_OP_MODULO site
      (exec_binary other_operands other_equal DIAMOND_OP_MODULO site l r) m /\
    (b = 0 -> q = SpecError DIAMOND_VM_DIVISION_BY_ZERO /\
              m = SpecError DIAMOND_VM_DIVISION_BY_ZERO) /\
    (b <> 0 -> exists zq zm, q = SpecInt zq /\ m = SpecInt zm /\
       zq * b + zm = a /\ (0 <= zm < b \/ b < zm <= 0)).
Proof using Type.
  intros Hl Hr. exists (int_spec DIAMOND_OP_DIVIDE a b), (int_spec DIAMOND_OP_MODULO a b).
  split; [by apply exec_binary_refines|]. split; [by apply exec_binary_refines|].
  unfold int_spec. cbn [register_form generic_opcode]. split.
  - intros ->. done.
  - intros Hb. apply Z.eqb_neq in Hb as Hb'. rewrite Hb'. eexists _, _. split; [done|].
    split; [done|]. pose proof (Z.div_mod a b Hb). split; [lia|]. apply Z.mod_bound_or, Hb.
Qed.

End Theorems.

(** ** Examples and witnesses *)

(** Branches outside the model, for the executable examples. *)
Definition no_other {S} : DiamondOpCode -> DiamondValue -> DiamondValue -> VM (Machine S) VmResult :=
  fun _ _ _ => vm_ret (Status_ DIAMOND_VM_TYPE_ERROR).

Definition example_code : list DiamondOpCode :=
  [DIAMOND_OP_MULTIPLY; DIAMOND_OP_SUBTRACT_INT_K; DIAMOND_OP_DIVIDE; DIAMOND_OP_LESS].

Definition example_program : list Instruction :=
  [ {| i_site := 0; i_destination := 2; i_left := 0; i_third := 1; i_constant := 0 |};
    {| i_site := 1; i_destination := 3; i_left := 2; i_third := 4; i_constant := 0 |};
    {| i_site := 2; i_destination := 3; i_left := 3; i_third := 1; i_constant := 0 |};
    {| i_site := 3; i_destination := 4; i_left := 3; i_third := 0; i_constant := 0 |} ].

Definition example_machine (q : bool) (threshold : Z) : Machine ScriptedHeap :=
  {| heap := scripted []; code := example_code; constants := [DIAMOND_INT 5];
     registers := [DIAMOND_INT INT64_MAX; DIAMOND_INT (-7); DIAMOND_INT 0; DIAMOND_INT 0;
                   DIAMOND_INT 0];
     quickening := q; quickening_threshold := threshold; quickening_observations := 0;
     quickened_sites := 0; deoptimized_sites := 0 |}.

Definition example_regs : list AbsValue := [AInt INT64_MAX; AInt (-7); AInt 0; AInt 0; AInt 0].

Lemma example_simulates q t :
  simulates example_code [AInt 5] (example_machine q t) example_regs.
Proof.
  split; simpl; repeat constructor; vm_compute; congruence.
Defined.

Lemma int_program_refines_witness :
  exists s m', run no_other (fun _ _ => false) example_program (example_machine true 1) =
      Some (s, m') /\ s = DIAMOND_VM_OK.
Proof.
  destruct (int_program_refines no_other (fun _ _ => false) example_code [AInt 5]
    example_program (example_machine true 1) example_regs DIAMOND_VM_OK
    [AInt INT64_MAX; AInt (-7); AInt (INT64_MAX * -7); AInt 9223372036854775807; ABool false]
    (example_simulates true 1) ltac:(vm_compute; reflexivity)) as (s & m' & E & _ & H).
  exists s, m'. split; [exact E|]. exact (proj1 (H _ scripted_plenty eq_refl)).
Defined.

Lemma quickening_invisible_witness :
  exists m1' m2',
    run no_other (fun _ _ => false) example_program (example_machine true 1) =
      Some (DIAMOND_VM_OK, m1') /\
    run no_other (fun _ _ => false) example_program (example_machine false 0) =
      Some (DIAMOND_VM_OK, m2') /\ registers m1' = registers m2'.
Proof.
  exact (quickening_invisible no_other (fun _ _ => false) example_code [AInt 5] example_program
    (example_machine true 1) (example_machine false 0) example_regs DIAMOND_VM_OK
    [AInt INT64_MAX; AInt (-7); AInt (INT64_MAX * -7); AInt 9223372036854775807; ABool false]
    _ scripted_plenty eq_refl eq_refl (example_simulates true 1) (example_simulates false 0)
    ltac:(vm_compute; reflexivity)).
Defined.

Definition two_to_the_64 : DiamondValue :=
  DIAMOND_OBJECT (OBJECT_BIGNUM {| negative := false; limbs := [709551616; 446744073; 18] |}).

Lemma two_to_the_64_represents : represents two_to_the_64 18446744073709551616.
Proof.
  split; [|reflexivity]. split.
  - split; [repeat constructor; vm_compute; congruence|vm_compute; congruence].
  - vm_compute. intros [_ H]. by apply H.
Defined.

Lemma int_equality_witness :
  values_equal (fun _ _ => false) two_to_the_64 (DIAMOND_INT 5) = Some false.
Proof.
  exact (proj1 (int_equality (fun _ _ => false) two_to_the_64 (DIAMOND_INT 5) _ 5
    two_to_the_64_represents (plain_int_represents 5 ltac:(unfold_widths; lia)))).
Defined.

Lemma divide_modulo_identity_witness :
  exists q m,
    refines DIAMOND_OP_DIVIDE 0 (exec_binary (S:=ScriptedHeap) no_other (fun _ _ => false)
      DIAMOND_OP_DIVIDE 0 two_to_the_64 (DIAMOND_INT (-7))) (SpecInt q) /\
    refines DIAMOND_OP_MODULO 0 (exec_binary (S:=ScriptedHeap) no_other (fun _ _ => false)
      DIAMOND_OP_MODULO 0 two_to_the_64 (DIAMOND_INT (-7))) (SpecInt m) /\
    q * -7 + m = 18446744073709551616.
Proof.
  destruct (divide_modulo_identity (S:=ScriptedHeap) no_other (fun _ _ => false)
    two_to_the_64 (DIAMOND_INT (-7)) 18446744073709551616 (-7) 0
    two_to_the_64_represents (plain_int_represents (-7) ltac:(unfold_widths; lia)))
    as (q & m & Hq & Hm & _ & H).
  destruct (H ltac:(lia)) as (zq & zm & -> & -> & E & _). eauto.
Defined.
