(* ===== verification/Semver.v ===== *)
(** * Semver: versions and constraints of the package manager (src/semver.c)

    Parsing and printing of Semantic Versioning 2.0.0 versions, their precedence,
    and range constraints with satisfaction and intersection.  A function that
    returns [false] in C is [None] (parsers, printers, intersection) or a
    boolean (satisfaction); a fuel that ran out is [None] and never happens. *)

From S2P Require Import Prelude Digits CText Ordering.
From Stdlib Require Import ZArith Lia Bool List.
From stdpp Require Import base numbers list.

Local Open Scope Z_scope.
Local Open Scope c_scope.

Definition SEMVER_MAX_IDENTIFIERS : nat := 256.

Record Semver := {
  major : Z; minor : Z; patch : Z;
  prerelease : list Z;
  build : list Z;
}.

Definition is_identifier_char (c : Z) : bool := isalnum c || (c =? 45).

Definition is_all_digits (text : list Z) : bool :=
  if (length text =? 0)%nat then false else forallb isdigit text.

(** The number at the cursor and the text after it. *)
Definition parse_numeric_field (cursor : list Z) : option (Z * list Z) :=
  if negb (isdigit (peek cursor)) then None
  else if (peek cursor =? 48) && isdigit (peek (tail cursor)) then None
  else
    let '(value, rest) := strtoul cursor in
    if (length rest =? length cursor)%nat then None else Some (value, rest).

(** The two rejections at the end of an identifier. *)
Definition bad_identifier (check_leading_zero : bool) (identifier : list Z) : bool :=
  (length identifier =? 0)%nat ||
  (check_leading_zero && is_all_digits identifier && (1 <? length identifier)%nat &&
   (peek identifier =? 48)).

(** The scan of [copy_identifier_run]: [identifier] is the text since
    [identifier_start], [total] the text since [start]. *)
Fixpoint identifier_run (stop : Z) (check_leading_zero : bool)
    (cursor identifier total : list Z) : option (list Z * list Z) :=
  let finish :=
    if bad_identifier check_leading_zero identifier then None else Some (total, cursor) in
  match cursor with
  | [] => finish
  | c :: rest =>
      if c =? stop then finish
      else if c =? 46 then
        if bad_identifier check_leading_zero identifier then None
        else identifier_run stop check_leading_zero rest [] (total ++ [c])
      else if negb (is_identifier_char c) then None
      else identifier_run stop check_leading_zero rest (identifier ++ [c]) (total ++ [c])
  end.

Definition copy_identifier_run (cursor : list Z) (stop : Z) (check_leading_zero : bool)
    (buffer_size : nat) : option (list Z * list Z) :=
  let? (total, rest) := identifier_run stop check_leading_zero cursor [] [] in
  if (length total =? 0)%nat || (buffer_size <=? length total)%nat then None
  else Some (total, rest).

(** [if ( *cursor == c) cursor++], when the grammar requires it. *)
Definition expect (c : Z) (cursor : list Z) : option (list Z) :=
  if peek cursor =? c then Some (tail cursor) else None.

(** [semver_parse] after the optional tag prefix. *)
Definition semver_parse_fields (cursor : list Z) : option Semver :=
  let? (major, cursor) := parse_numeric_field cursor in
  let? cursor := expect 46 cursor in
  let? (minor, cursor) := parse_numeric_field cursor in
  let? cursor := expect 46 cursor in
  let? (patch, cursor) := parse_numeric_field cursor in
  let? (prerelease, cursor) :=
    (if peek cursor =? 45
     then copy_identifier_run (tail cursor) 43 true SEMVER_MAX_IDENTIFIERS
     else Some ([], cursor)) in
  let? (build, cursor) :=
    (if peek cursor =? 43
     then copy_identifier_run (tail cursor) 0 false SEMVER_MAX_IDENTIFIERS
     else Some ([], cursor)) in
  if peek cursor =? 0
  then Some {| major := major; minor := minor; patch := patch;
               prerelease := prerelease; build := build |}
  else None.

Definition semver_parse (text : list Z) : option Semver :=
  semver_parse_fields
    (if (peek text =? 118) || (peek text =? 86) then tail text else text).

(** The text [snprintf] produces; [None] when it does not fit the buffer. *)
Definition semver_text (v : Semver) : list Z :=
  printf_lu (major v) ++ [46] ++ printf_lu (minor v) ++ [46] ++ printf_lu (patch v) ++
  (if peek (prerelease v) =? 0 then [] else [45]) ++ prerelease v ++
  (if peek (build v) =? 0 then [] else [43]) ++ build v.

Definition semver_format (v : Semver) (buffer_size : nat) : option (list Z) :=
  if (length (semver_text v) <? buffer_size)%nat then Some (semver_text v) else None.

(** ** Precedence *)

Definition compare_unsigned_long (a b : Z) : Z :=
  if a <? b then -1 else if a >? b then 1 else 0.

(** [memcmp] of the first [n] bytes, as its sign. *)
Fixpoint memcmp (a b : list Z) (n : nat) : Z :=
  match n, a, b with
  | S m, x :: a', y :: b' => if x =? y then memcmp a' b' m else if x <? y then -1 else 1
  | _, _, _ => 0
  end.

Definition compare_prerelease_identifier (a b : list Z) : Z :=
  let a_numeric := is_all_digits a in
  let b_numeric := is_all_digits b in
  if a_numeric && b_numeric then
    compare_unsigned_long (fst (strtoul (take 31 a))) (fst (strtoul (take 31 b)))
  else if negb (eqb a_numeric b_numeric) then (if a_numeric then -1 else 1)
  else
    let shorter := if (length a <? length b)%nat then length a else length b in
    let cmp := memcmp a b shorter in
    if negb (cmp =? 0) then (if cmp <? 0 then -1 else 1)
    else compare_unsigned_long (Z.of_nat (length a)) (Z.of_nat (length b)).

(** [while ( *cursor != '\0' && *cursor != '.') cursor++]. *)
Fixpoint next_identifier (cursor : list Z) : list Z * list Z :=
  match cursor with
  | [] => ([], [])
  | c :: rest =>
      if c =? 46 then ([], cursor)
      else let '(identifier, tl) := next_identifier rest in (c :: identifier, tl)
  end.

(** [if ( *cursor == '.') cursor++]. *)
Definition skip_dot (cursor : list Z) : list Z :=
  if peek cursor =? 46 then tail cursor else cursor.

Fixpoint compare_prerelease_loop (fuel : nat) (a_cursor b_cursor : list Z) : option Z :=
  match fuel with
  | O => None
  | S f =>
      let a_done := (length a_cursor =? 0)%nat in
      let b_done := (length b_cursor =? 0)%nat in
      if a_done && b_done then Some 0
      else if a_done then Some (-1)
      else if b_done then Some 1
      else
        let '(a_identifier, a_rest) := next_identifier a_cursor in
        let '(b_identifier, b_rest) := next_identifier b_cursor in
        let cmp := compare_prerelease_identifier a_identifier b_identifier in
        if negb (cmp =? 0) then Some cmp
        else compare_prerelease_loop f (skip_dot a_rest) (skip_dot b_rest)
  end.

(** Every round consumes a byte of both texts. *)
Definition compare_prerelease (a b : list Z) : option Z :=
  compare_prerelease_loop (S (length a)) a b.

Definition semver_compare (a b : Semver) : option Z :=
  let cmp := compare_unsigned_long (major a) (major b) in
  if negb (cmp =? 0) then Some cmp else
  let cmp := compare_unsigned_long (minor a) (minor b) in
  if negb (cmp =? 0) then Some cmp else
  let cmp := compare_unsigned_long (patch a) (patch b) in
  if negb (cmp =? 0) then Some cmp else
  let a_has_prerelease := negb (peek (prerelease a) =? 0) in
  let b_has_prerelease := negb (peek (prerelease b) =? 0) in
  if negb (eqb a_has_prerelease b_has_prerelease)
  then Some (if a_has_prerelease then -1 else 1)
  else if negb a_has_prerelease then Some 0
  else compare_prerelease (prerelease a) (prerelease b).

(** ** Constraints *)

Definition caret_upper_bound (v : Semver) : Semver :=
  if major v >? 0 then
    {| major := to_u64 (major v + 1); minor := 0; patch := 0; prerelease := []; build := [] |}
  else if minor v >? 0 then
    {| major := major v; minor := to_u64 (minor v + 1); patch := 0;
       prerelease := []; build := [] |}
  else
    {| major := major v; minor := minor v; patch := to_u64 (patch v + 1);
       prerelease := []; build := [] |}.

Definition tilde_upper_bound (v : Semver) : Semver :=
  {| major := major v; minor := to_u64 (minor v + 1); patch := 0;
     prerelease := []; build := [] |}.

Inductive CompareOp :=
  | COMPARE_OP_EXACT | COMPARE_OP_GTE | COMPARE_OP_LTE | COMPARE_OP_GT | COMPARE_OP_LT.

(** [has_min], [min] and [min_inclusive] are set together: a bound is an
    optional version with its inclusivity. *)
Record SemverConstraint := {
  c_min : option (Semver * bool);
  c_max : option (Semver * bool);
}.

Definition parse_comparator_term (term : list Z) : option (CompareOp * Semver) :=
  let with_op op text := let? v := semver_parse text in Some (op, v) in
  match term with
  | 62 :: 61 :: rest => with_op COMPARE_OP_GTE rest
  | 60 :: 61 :: rest => with_op COMPARE_OP_LTE rest
  | 62 :: rest => with_op COMPARE_OP_GT rest
  | 60 :: rest => with_op COMPARE_OP_LT rest
  | 61 :: rest => with_op COMPARE_OP_EXACT rest
  | _ => with_op COMPARE_OP_EXACT term
  end.

Definition apply_comparator (out : SemverConstraint) (op : CompareOp) (version : Semver)
    : option SemverConstraint :=
  match op with
  | COMPARE_OP_EXACT =>
      match c_min out, c_max out with
      | None, None => Some {| c_min := Some (version, true); c_max := Some (version, true) |}
      | _, _ => None
      end
  | COMPARE_OP_GTE | COMPARE_OP_GT =>
      match c_min out with
      | Some _ => None
      | None =>
          Some {| c_min := Some (version, match op with COMPARE_OP_GTE => true | _ => false end);
                  c_max := c_max out |}
      end
  | COMPARE_OP_LTE | COMPARE_OP_LT =>
      match c_max out with
      | Some _ => None
      | None =>
          Some {| c_min := c_min out;
                  c_max := Some (version, match op with COMPARE_OP_LTE => true | _ => false end) |}
      end
  end.

Fixpoint skip_spaces (cursor : list Z) : list Z :=
  match cursor with
  | [] => []
  | c :: rest => if isspace c then skip_spaces rest else cursor
  end.

Fixpoint next_term (cursor : list Z) : list Z * list Z :=
  match cursor with
  | [] => ([], [])
  | c :: rest =>
      if isspace c then ([], cursor)
      else let '(term, tl) := next_term rest in (c :: term, tl)
  end.

Definition MAX_TERMS : nat := 4.

(** The loop over comparator terms; [term_count] terms were folded into [out].
    At most [MAX_TERMS] terms pass the count check, so [fuel] rounds suffice. *)
Fixpoint constraint_terms (fuel term_count : nat) (cursor : list Z) (out : SemverConstraint)
    : option (nat * SemverConstraint) :=
  match fuel with
  | O => None
  | S f =>
      let cursor := skip_spaces cursor in
      if (length cursor =? 0)%nat then Some (term_count, out) else
      let '(term, rest) := next_term cursor in
      if (term_count =? MAX_TERMS)%nat then None else
      let? (op, version) := parse_comparator_term term in
      let? out := apply_comparator out op version in
      if (length rest =? 0)%nat then Some (S term_count, out)
      else constraint_terms f (S term_count) (tail rest) out
  end.

Definition semver_constraint_parse (text : list Z) : option SemverConstraint :=
  let text := skip_spaces text in
  if (length text =? 0)%nat then None
  else if (peek text =? 94) || (peek text =? 126) then
    let caret := peek text =? 94 in
    let? version := semver_parse (tail text) in
    Some {| c_min := Some (version, true);
            c_max := Some (if caret then caret_upper_bound version
                           else tilde_upper_bound version, false) |}
  else if (256 <=? length text)%nat then None
  else
    let? (term_count, out) :=
      constraint_terms (MAX_TERMS + 1) 0 text {| c_min := None; c_max := None |} in
    if (0 <? term_count)%nat then Some out else None.

Definition semver_satisfies (version : Semver) (constraint : SemverConstraint) : option bool :=
  if negb (peek (prerelease version) =? 0) then Some false else
  let? above :=
    (match c_min constraint with
     | None => Some true
     | Some (min, inclusive) =>
         let? cmp := semver_compare version min in
         Some (negb (cmp <? 0) && negb ((cmp =? 0) && negb inclusive))
     end) in
  if negb above then Some false else
  match c_max constraint with
  | None => Some true
  | Some (max, inclusive) =>
      let? cmp := semver_compare version max in
      Some (negb (cmp >? 0) && negb ((cmp =? 0) && negb inclusive))
  end.

(** The tighter of two bounds; [sense] is 1 for lower and -1 for upper bounds. *)
Definition intersect_bound (sense : Z) (a b : option (Semver * bool))
    : option (option (Semver * bool)) :=
  match a, b with
  | Some (va, ia), Some (vb, ib) =>
      let? cmp := semver_compare va vb in
      Some (Some (if sense * cmp >? 0 then (va, ia)
                  else if sense * cmp <? 0 then (vb, ib)
                  else (va, ia && ib)))
  | Some _, None => Some a
  | None, _ => Some b
  end.

(** The inner [None] is the C function's [false]: the intersection is empty. *)
Definition semver_constraint_intersect (a b : SemverConstraint)
    : option (option SemverConstraint) :=
  let? lo := intersect_bound 1 (c_min a) (c_min b) in
  let? hi := intersect_bound (-1) (c_max a) (c_max b) in
  let result := {| c_min := lo; c_max := hi |} in
  match lo, hi with
  | Some (min, min_inclusive), Some (max, max_inclusive) =>
      let? cmp := semver_compare min max in
      Some (if (cmp >? 0) || ((cmp =? 0) && negb (min_inclusive && max_inclusive))
            then None else Some result)
  | _, _ => Some (Some result)
  end.

Definition bound_text (inclusive_op strict_op : list Z) (bound : Semver * bool)
    : option (list Z) :=
  let? text := semver_format (fst bound) (SEMVER_MAX_IDENTIFIERS * 2) in
  Some ((if snd bound then inclusive_op else strict_op) ++ text).

Definition fits (text : list Z) (buffer_size : nat) : option (list Z) :=
  if (length text <? buffer_size)%nat then Some text else None.

Definition semver_constraint_format (constraint : SemverConstraint) (buffer_size : nat)
    : option (list Z) :=
  let ranges :=
    match c_min constraint, c_max constraint with
    | None, None => if (buffer_size <? 2)%nat then None else Some [42]
    | Some lo, Some hi =>
        let? lo_text := bound_text [62; 61] [62] lo in
        let? hi_text := bound_text [60; 61] [60] hi in
        fits (lo_text ++ [32] ++ hi_text) buffer_size
    | Some lo, None => let? t := bound_text [62; 61] [62] lo in fits t buffer_size
    | None, Some hi => let? t := bound_text [60; 61] [60] hi in fits t buffer_size
    end in
  match c_min constraint, c_max constraint with
  | Some (min, true), Some (max, true) =>
      let? cmp := semver_compare min max in
      if cmp =? 0 then semver_format min buffer_size else ranges
  | _, _ => ranges
  end.

(** ** Precedence is a total preorder

    The precedence of semver.org section 11 as an order built from its parts;
    numeric identifiers are read the way the code reads them, from at most 31
    digits and saturating. *)

Definition identifier_key (a : list Z) : Z + list Z :=
  if is_all_digits a then inl (fst (strtoul (take 31 a))) else inr a.

Definition identifier_compare (a b : list Z) : comparison :=
  sum_compare Z.compare (lex_compare Z.compare) (identifier_key a) (identifier_key b).

(** The dot-separated fields the comparison walks over. *)
Fixpoint fields_from (current s : list Z) : list (list Z) :=
  match s with
  | [] => [current]
  | c :: rest =>
      if c =? 46 then
        current :: (match rest with [] => [] | _ :: _ => fields_from [] rest end)
      else fields_from (current ++ [c]) rest
  end.

Definition fields (s : list Z) : list (list Z) :=
  match s with [] => [] | _ :: _ => fields_from [] s end.

Definition has_prerelease (v : Semver) : bool := negb (peek (prerelease v) =? 0).

Definition version_key (v : Semver) : Z * (Z * (Z * (Z * list (list Z)))) :=
  (major v, (minor v, (patch v,
    (if has_prerelease v then (0, fields (prerelease v)) else (1, []))))).

Definition version_compare (a b : Semver) : comparison :=
  pair_compare Z.compare (pair_compare Z.compare (pair_compare Z.compare
    (pair_compare Z.compare (lex_compare identifier_compare))))
    (version_key a) (version_key b).

#[export] Instance identifier_order : TotalCompare identifier_compare.
Proof. apply (TotalCompare_key (sum_compare Z.compare (lex_compare Z.compare)) identifier_key). Qed.

#[export] Instance version_order : TotalCompare version_compare.
Proof. apply (TotalCompare_key (pair_compare _ _) version_key). Qed.

Lemma compare_unsigned_long_spec a b : compare_unsigned_long a b = sign_of (a ?= b).
Proof. unfold compare_unsigned_long. rewrite sign_of_compare, Z.gtb_ltb. case_bools; lia. Qed.

Lemma sign_of_eq0 c : (sign_of c =? 0) = match c with Eq => true | _ => false end.
Proof. by destruct c. Qed.

(** [memcmp] of the common length, then the lengths: lexicographic order. *)
Lemma memcmp_lexicographic a b :
  (let cmp := memcmp a b (if (length a <? length b)%nat then length a else length b) in
   if negb (cmp =? 0) then (if cmp <? 0 then -1 else 1)
   else compare_unsigned_long (Z.of_nat (length a)) (Z.of_nat (length b)))
  = sign_of (lex_compare Z.compare a b).
Proof.
  rewrite compare_unsigned_long_spec.
  revert b. induction a as [|x a IH]; intros [|y b]; try done.
  specialize (IH b). cbn [length lex_compare].
  replace (if (S (length a) <? S (length b))%nat then S (length a) else S (length b))
    with (S (if (length a <? length b)%nat then length a else length b))
    by (change (S (length a) <? S (length b))%nat with (length a <? length b)%nat;
        by destruct (length a <? length b)%nat).
  cbn [memcmp]. unfold then_compare. destruct (Z.eqb_spec x y) as [->|Hne].
  - rewrite Z.compare_refl, <- IH. cbv zeta.
    replace (Z.of_nat (S (length a)) ?= Z.of_nat (S (length b)))
      with (Z.of_nat (length a) ?= Z.of_nat (length b)); [done|].
    rewrite !Nat2Z.inj_succ. symmetry. apply Zcompare_succ_compat.
  - destruct (Z.ltb_spec x y); destruct (Z.compare_spec x y); done || lia.
Qed.

Lemma compare_prerelease_identifier_spec a b :
  compare_prerelease_identifier a b = sign_of (identifier_compare a b).
Proof.
  unfold compare_prerelease_identifier, identifier_compare, identifier_key.
  destruct (is_all_digits a), (is_all_digits b); cbn [andb negb eqb sum_compare].
  - apply compare_unsigned_long_spec.
  - done.
  - done.
  - apply memcmp_lexicographic.
Qed.

Lemma next_identifier_fields current s :
  let '(identifier, rest) := next_identifier s in
  fields_from current s = (current ++ identifier) :: fields (skip_dot rest) /\
  (length (skip_dot rest) + length identifier <= length s)%nat /\
  (s <> [] -> (length (skip_dot rest) < length s)%nat).
Proof.
  revert current. induction s as [|c s IH]; intros current; cbn [next_identifier fields_from].
  - rewrite app_nil_r. done.
  - destruct (Z.eqb_spec c 46) as [->|Hc].
    + unfold skip_dot. cbn [peek tail Z.eqb]. rewrite app_nil_r. simpl. repeat split; lia.
    + specialize (IH (current ++ [c])). destruct (next_identifier s) as [i r].
      destruct IH as (E & H1 & _). rewrite E, <- app_assoc. simpl. repeat split; lia.
Qed.

Lemma compare_prerelease_loop_spec fuel a b :
  (length a < fuel)%nat ->
  compare_prerelease_loop fuel a b =
  Some (sign_of (lex_compare identifier_compare (fields a) (fields b))).
Proof.
  revert a b. induction fuel as [|f IH]; intros a b Hf; [lia|].
  cbn [compare_prerelease_loop].
  destruct a as [|ca a], b as [|cb b]; cbn [length Nat.eqb andb]; try done.
  1,2: cbn [fields]; match goal with |- context [fields_from [] ?s] =>
    pose proof (next_identifier_fields [] s) as H; destruct (next_identifier s) end;
    destruct H as [-> _]; done.
  pose proof (next_identifier_fields [] (ca :: a)) as Ha.
  pose proof (next_identifier_fields [] (cb :: b)) as Hb.
  destruct (next_identifier (ca :: a)) as [ia ra], (next_identifier (cb :: b)) as [ib rb].
  destruct Ha as (Ea & _ & La), Hb as (Eb & _ & _). unfold fields.
  rewrite Ea, Eb, compare_prerelease_identifier_spec, sign_of_eq0. cbn [app lex_compare].
  specialize (La ltac:(done)).
  destruct (identifier_compare ia ib); cbn [negb then_compare]; try done.
  apply IH. cbn [length] in *. lia.
Qed.

(** [semver_compare] always returns, with the sign of the precedence order. *)
Lemma semver_compare_spec a b : semver_compare a b = Some (sign_of (version_compare a b)).
Proof.
  unfold semver_compare, version_compare, version_key, pair_compare.
  rewrite !compare_unsigned_long_spec, !sign_of_eq0. cbn [fst snd].
  destruct (major a ?= major b); cbn [negb then_compare]; try done.
  destruct (minor a ?= minor b); cbn [negb then_compare]; try done.
  destruct (patch a ?= patch b); cbn [negb then_compare]; try done.
  unfold has_prerelease.
  destruct (peek (prerelease a) =? 0), (peek (prerelease b) =? 0); try done.
  cbn [negb eqb fst snd then_compare]. unfold compare_prerelease.
  by rewrite compare_prerelease_loop_spec by lia.
Qed.

(** ** Satisfaction and intersection *)

Definition above (v : Semver) (bound : option (Semver * bool)) : bool :=
  match bound with
  | None => true
  | Some (m, inclusive) =>
      match version_compare v m with Gt => true | Eq => inclusive | Lt => false end
  end.

Definition below (v : Semver) (bound : option (Semver * bool)) : bool :=
  match bound with
  | None => true
  | Some (m, inclusive) =>
      match version_compare v m with Lt => true | Eq => inclusive | Gt => false end
  end.

Lemma semver_satisfies_spec v c :
  semver_satisfies v c = Some (negb (has_prerelease v) && above v (c_min c) && below v (c_max c)).
Proof.
  unfold semver_satisfies. fold (has_prerelease v). destruct (has_prerelease v); [done|].
  assert (Hmin : forall m i, semver_compare v m = Some (sign_of (version_compare v m)) /\
    negb (sign_of (version_compare v m) <? 0) &&
      negb ((sign_of (version_compare v m) =? 0) && negb i) = above v (Some (m, i))).
  { intros m i. split; [apply semver_compare_spec|]. simpl.
    by destruct (version_compare v m), i. }
  assert (Hmax : forall m i,
    negb (sign_of (version_compare v m) >? 0) &&
      negb ((sign_of (version_compare v m) =? 0) && negb i) = below v (Some (m, i))).
  { intros m i. simpl. by destruct (version_compare v m), i. }
  cbn [negb]. destruct (c_min c) as [[lo li]|].
  - destruct (Hmin lo li) as [-> ->]. destruct (above v (Some (lo, li))); cbn [negb andb]; [|done].
    destruct (c_max c) as [[hi hi']|]; [|done]. by rewrite semver_compare_spec, Hmax.
  - cbn [negb andb above]. destruct (c_max c) as [[hi hi']|]; [|done].
    by rewrite semver_compare_spec, Hmax.
Qed.

(** Facts of the precedence order in the form the bounds need. *)
Lemma version_flip a b : version_compare b a = CompOpp (version_compare a b).
Proof. apply (cmp_flip (cmp:=version_compare)). Qed.

Lemma version_gt_trans a b c :
  version_compare a b <> Lt -> version_compare b c = Gt -> version_compare a c = Gt.
Proof.
  intros H1 H2. rewrite version_flip.
  assert (E : version_compare c b = Lt) by (rewrite version_flip, H2; done).
  assert (version_compare c a = Lt) as ->; [|done].
  destruct (version_compare a b) eqn:Eab; try done.
  - apply (cmp_eq_l version_compare) with (z := c) in Eab as Heq.
    rewrite version_flip, Heq, H2. done.
  - apply (cmp_lt_trans version_compare _ b); [done|]. rewrite version_flip, Eab. done.
Qed.

Lemma version_lt_trans a b c :
  version_compare a b <> Gt -> version_compare b c = Lt -> version_compare a c = Lt.
Proof.
  intros H1 H2. destruct (version_compare a b) eqn:E; try done.
  - rewrite <- H2. by apply (cmp_eq_l version_compare).
  - by apply (cmp_lt_trans version_compare _ b).
Qed.

Lemma version_eq_r a b v : version_compare a b = Eq -> version_compare v a = version_compare v b.
Proof.
  intros E. rewrite (version_flip a v), (version_flip b v). f_equal.
  by apply (cmp_eq_l version_compare).
Qed.

Lemma intersect_min_spec a b :
  exists r, intersect_bound 1 a b = Some r /\ forall v, above v r = above v a && above v b.
Proof.
  destruct a as [[va ia]|], b as [[vb ib]|]; simpl; try (by eexists).
  2:{ eexists. split; [done|]. intros v. by rewrite andb_true_r. }
  rewrite semver_compare_spec. eexists. split; [done|]. intros v.
  destruct (version_compare va vb) eqn:E; cbn [sign_of Z.mul Z.gtb Z.ltb Z.compare]; simpl.
  - rewrite (version_eq_r _ _ v E). by destruct (version_compare v vb).
  - pose proof (version_gt_trans v vb va) as T. rewrite (version_flip va vb), E in T.
    destruct (version_compare v vb) eqn:Ev; try (rewrite T by done); try done.
    by rewrite andb_false_r.
  - pose proof (version_gt_trans v va vb) as T.
    destruct (version_compare v va) eqn:Ev; try (rewrite T by done); try done.
    by rewrite andb_true_r.
Qed.

Lemma intersect_max_spec a b :
  exists r, intersect_bound (-1) a b = Some r /\ forall v, below v r = below v a && below v b.
Proof.
  destruct a as [[va ia]|], b as [[vb ib]|]; simpl; try (by eexists).
  2:{ eexists. split; [done|]. intros v. by rewrite andb_true_r. }
  rewrite semver_compare_spec. eexists. split; [done|]. intros v.
  destruct (version_compare va vb) eqn:E; cbn [sign_of]; simpl.
  - rewrite (version_eq_r _ _ v E). by destruct (version_compare v vb).
  - pose proof (version_lt_trans v va vb) as T.
    destruct (version_compare v va) eqn:Ev; try (rewrite T by done); try done.
    by rewrite andb_true_r.
  - pose proof (version_lt_trans v vb va) as T. rewrite (version_flip va vb), E in T.
    destruct (version_compare v vb) eqn:Ev; try (rewrite T by done); try done.
    by rewrite andb_false_r.
Qed.

(** Crossing bounds leave no version between them. *)
Lemma bounds_crossed v lo li hi hi' :
  version_compare lo hi = Gt \/ (version_compare lo hi = Eq /\ li && hi' = false) ->
  above v (Some (lo, li)) && below v (Some (hi, hi')) = false.
Proof.
  simpl. intros [E|[E Hi]].
  - destruct (version_compare v lo) eqn:Ev; [|done|].
    all: rewrite (version_gt_trans v lo hi); [by rewrite andb_false_r|congruence|done].
  - rewrite (version_eq_r _ _ v E). by destruct (version_compare v hi), li, hi'.
Qed.

(** ** Theorems on precedence and constraints *)

(** C34: [semver_compare] returns for every pair of versions, and what it returns
    is a total preorder: swapping the arguments negates the sign, a version
    equals itself, and "not greater" is transitive. *)
Theorem semver_compare_order a b c :
  exists ab ba ac bc,
    semver_compare a b = Some ab /\ semver_compare b a = Some ba /\
    semver_compare a c = Some ac /\ semver_compare b c = Some bc /\
    semver_compare a a = Some 0 /\
    ba = - ab /\ (ab <= 0 -> bc <= 0 -> ac <= 0).
Proof.
  rewrite !semver_compare_spec. eexists _, _, _, _. do 4 (split; [done|]).
  rewrite (cmp_refl version_compare), (version_flip a b). split; [done|].
  split; [by destruct (version_compare a b)|]. intros H1 H2.
  pose proof (cmp_trans (cmp:=version_compare) a b c) as T.
  destruct (version_compare a b), (version_compare b c), (version_compare a c);
    simpl in *; try lia; exfalso; apply T; done.
Qed.

(** Intersection is conjunction. *)
Lemma intersect_spec a b :
  exists r, semver_constraint_intersect a b = Some r /\
  forall v, exists sa sb, semver_satisfies v a = Some sa /\ semver_satisfies v b = Some sb /\
    match r with
    | Some c => semver_satisfies v c = Some (sa && sb)
    | None => sa && sb = false
    end.
Proof.
  unfold semver_constraint_intersect.
  destruct (intersect_min_spec (c_min a) (c_min b)) as (lo & -> & Hlo).
  destruct (intersect_max_spec (c_max a) (c_max b)) as (hi & -> & Hhi).
  assert (Hboth : forall v,
    (negb (has_prerelease v) && above v (c_min a) && below v (c_max a)) &&
    (negb (has_prerelease v) && above v (c_min b) && below v (c_max b)) =
    negb (has_prerelease v) && (above v lo && below v hi)).
  { intros v. rewrite Hlo, Hhi. destruct (has_prerelease v); simpl; [done|].
    by destruct (above v (c_min a)), (below v (c_max a)), (above v (c_min b)), (below v (c_max b)). }
  assert (Hsome : forall v, semver_satisfies v {| c_min := lo; c_max := hi |} =
    Some (negb (has_prerelease v) && (above v lo && below v hi)))
    by (intros v; by rewrite semver_satisfies_spec, andb_assoc).
  destruct lo as [[lo li]|], hi as [[hi hi']|]; try rewrite semver_compare_spec;
    (eexists; split; [reflexivity|]); intros v;
    (eexists _, _; split; [apply semver_satisfies_spec|split; [apply semver_satisfies_spec|]]);
    rewrite ?Hboth; try apply Hsome.
  pose proof (bounds_crossed v lo li hi hi') as Hcross.
  destruct (version_compare lo hi) eqn:E; [destruct (li && hi') eqn:Ei|..].
  - apply Hsome.
  - rewrite Hcross by auto. apply andb_false_r.
  - apply Hsome.
  - rewrite Hcross by auto. apply andb_false_r.
Qed.

(** C18: Intersection is conjunction: the constraint [semver_constraint_intersect]
    returns is satisfied by exactly the versions that satisfy both arguments,
    and when it reports an empty intersection no version satisfies both. *)
Theorem semver_intersect_correct a b :
  exists r, semver_constraint_intersect a b = Some r /\
  forall v, exists sa sb, semver_satisfies v a = Some sa /\ semver_satisfies v b = Some sb /\
    match r with
    | Some c => semver_satisfies v c = Some (sa && sb)
    | None => sa && sb = false
    end.
Proof. apply intersect_spec. Qed.

(** The range a caret constraint promises: nothing below [x], and the left-most
    non-zero component of [x] unchanged. *)
Definition caret_allows (x v : Semver) : Prop :=
  has_prerelease v = false /\ version_compare v x <> Lt /\
  major v = major x /\
  (major x = 0 -> minor v = minor x /\ (minor x = 0 -> patch v = patch x)).

Definition in_ulong (v : Semver) : Prop :=
  0 <= major v <= UINT64_MAX /\ 0 <= minor v <= UINT64_MAX /\ 0 <= patch v <= UINT64_MAX.

(** No component is the largest [unsigned long]. *)
Definition below_ulong_max (v : Semver) : Prop :=
  major v < UINT64_MAX /\ minor v < UINT64_MAX /\ patch v < UINT64_MAX.

Lemma release_compare v u :
  has_prerelease v = false -> has_prerelease u = false ->
  version_compare v u =
  then_compare (major v ?= major u) (then_compare (minor v ?= minor u) (patch v ?= patch u)).
Proof.
  intros Hv Hu. unfold version_compare, version_key, pair_compare. rewrite Hv, Hu. cbn [fst snd].
  destruct (major v ?= major u), (minor v ?= minor u), (patch v ?= patch u); done.
Qed.

Lemma version_ge_components v x :
  version_compare v x <> Lt ->
  major x <= major v /\ (major x = major v -> minor x <= minor v /\
    (minor x = minor v -> patch x <= patch v)).
Proof.
  unfold version_compare, pair_compare, version_key. cbn [fst snd]. intros H.
  destruct (Z.compare_spec (major v) (major x)); cbn [then_compare] in H; [|done|lia].
  split; [lia|]. intros _.
  destruct (Z.compare_spec (minor v) (minor x)); cbn [then_compare] in H; [|done|lia].
  split; [lia|]. intros _.
  destruct (Z.compare_spec (patch v) (patch x)); cbn [then_compare] in H; [lia|done|lia].
Qed.

Lemma caret_satisfies x v :
  in_ulong x -> in_ulong v -> below_ulong_max x ->
  (negb (has_prerelease v) && above v (Some (x, true)) &&
   below v (Some (caret_upper_bound x, false)) = true <-> caret_allows x v).
Proof.
  intros Hx Hv Hmax. unfold caret_allows.
  destruct (has_prerelease v) eqn:Hp; [split; [done|intros [? _]; done]|].
  assert (Ha : above v (Some (x, true)) = true <-> version_compare v x <> Lt)
    by (simpl; destruct (version_compare v x); split; congruence).
  assert (Hu : has_prerelease (caret_upper_bound x) = false)
    by (unfold caret_upper_bound; destruct (major x >? 0), (minor x >? 0); done).
  assert (Hb : below v (Some (caret_upper_bound x, false)) = true <->
    version_compare v (caret_upper_bound x) = Lt)
    by (simpl; destruct (version_compare v (caret_upper_bound x)); split; congruence).
  rewrite !andb_true_iff, Ha, Hb, (release_compare v (caret_upper_bound x)) by done. clear Ha Hb Hu.
  unfold in_ulong, below_ulong_max in *.
  assert (Hlt : forall a b c, then_compare a (then_compare b c) = Lt <->
    a = Lt \/ (a = Eq /\ (b = Lt \/ (b = Eq /\ c = Lt)))) by (intros [] [] []; simpl; intuition congruence).
  rewrite Hlt, !Z.compare_lt_iff, !Z.compare_eq_iff.
  split.
  - intros [[_ Hge] Hlt']. pose proof (version_ge_components v x Hge) as Hc.
    split; [done|]. split; [done|].
    unfold caret_upper_bound in Hlt'. rewrite !Z.gtb_ltb in Hlt'.
    destruct (Z.ltb_spec 0 (major x)), (Z.ltb_spec 0 (minor x)); cbn [major minor patch] in Hlt';
      rewrite to_u64_small in Hlt' by (unfold_widths; lia); lia.
  - intros (_ & Hge & Hm & Hrest). pose proof (version_ge_components v x Hge) as Hc.
    split; [done|]. unfold caret_upper_bound. rewrite !Z.gtb_ltb.
    destruct (Z.ltb_spec 0 (major x)), (Z.ltb_spec 0 (minor x)); cbn [major minor patch];
      rewrite to_u64_small by (unfold_widths; lia); lia.
Qed.

(** C35: A caret constraint accepts exactly the release versions that are not
    below it and keep its left-most non-zero component, as long as no component
    is the largest [unsigned long]. *)
Theorem caret_constraint_correct text x v :
  semver_parse text = Some x -> in_ulong x -> in_ulong v -> below_ulong_max x ->
  exists c, semver_constraint_parse (94 :: text) = Some c /\
    (semver_satisfies v c = Some true <-> caret_allows x v).
Proof.
  intros Hp Hx Hv Hmax. unfold semver_constraint_parse. simpl. rewrite Hp.
  eexists. split; [done|]. rewrite semver_satisfies_spec. cbn [c_min c_max].
  rewrite <- (caret_satisfies x v Hx Hv Hmax).
  generalize (negb (has_prerelease v) && above v (Some (x, true)) &&
    below v (Some (caret_upper_bound x, false))). split; congruence.
Qed.

(** The text of [1.4.2]. *)
Definition text_1_4_2 : list Z := [49; 46; 52; 46; 50].

Definition version_1_9_0 : Semver :=
  {| major := 1; minor := 9; patch := 0; prerelease := []; build := [] |}.

Lemma caret_constraint_correct_witness :
  exists c, semver_constraint_parse (94 :: text_1_4_2) = Some c /\
    semver_satisfies version_1_9_0 c = Some true.
Proof.
  destruct (caret_constraint_correct text_1_4_2
    {| major := 1; minor := 4; patch := 2; prerelease := []; build := [] |} version_1_9_0
    ltac:(vm_compute; reflexivity) ltac:(unfold in_ulong; unfold_widths; simpl; lia)
    ltac:(unfold in_ulong; unfold_widths; simpl; lia)
    ltac:(unfold below_ulong_max; unfold_widths; simpl; lia)) as (c & E & H).
  exists c. split; [exact E|]. apply H.
  split; [reflexivity|]. split; [vm_compute; congruence|]. split; [reflexivity|].
  vm_compute. congruence.
Defined.

(** At the largest [unsigned long] the exclusive upper bound of a caret wraps
    to zero: the constraint on such a version rejects that version itself. *)
Theorem caret_wraps_at_ulong_max :
  exists c,
    semver_constraint_parse
      (94 :: [49;56;52;52;54;55;52;52;48;55;51;55;48;57;53;53;49;54;49;53] ++ [46; 48; 46; 48])
      = Some c /\
    semver_satisfies
      {| major := UINT64_MAX; minor := 0; patch := 0; prerelease := []; build := [] |} c
      = Some false.
Proof. eexists. split; vm_compute; reflexivity. Qed.

(** ** Round trips *)

(** The dot-separated identifiers of a run, empty ones included. *)
Fixpoint split_from (current s : list Z) : list (list Z) :=
  match s with
  | [] => [current]
  | c :: rest =>
      if c =? 46 then current :: split_from [] rest else split_from (current ++ [c]) rest
  end.

(** The grammar of a prerelease ([check]) or build run. *)
Definition identifiers_ok (check : bool) (s : list Z) : Prop :=
  Forall (fun c => is_identifier_char c = true \/ c = 46) s /\
  Forall (fun i => bad_identifier check i = false) (split_from [] s).

Definition run_ok (check : bool) (s : list Z) : Prop :=
  s = [] \/ (identifiers_ok check s /\ (length s < SEMVER_MAX_IDENTIFIERS)%nat).

Definition wf_version (v : Semver) : Prop :=
  in_ulong v /\ run_ok true (prerelease v) /\ run_ok false (build v).

Lemma identifier_run_accepts stop check s tl current total :
  Forall (fun c => is_identifier_char c = true \/ c = 46) s ->
  is_identifier_char stop = false -> stop <> 46 ->
  tl = [] \/ peek tl = stop -> (stop = 0 -> tl = []) ->
  Forall (fun i => bad_identifier check i = false) (split_from current s) ->
  identifier_run stop check (s ++ tl) current total = Some (total ++ s, tl).
Proof.
  intros Hs Hstop Hdot Htl H0. revert current total.
  induction Hs as [|c s Hc Hs IH]; intros current total Hgood; cbn [app split_from] in *.
  - apply Forall_cons in Hgood as [Hg _]. rewrite app_nil_r.
    destruct tl as [|c tl]; cbn [identifier_run]; rewrite Hg; [done|].
    destruct Htl as [|Htl]; [done|]. cbn [peek] in Htl. rewrite Htl, Z.eqb_refl. done.
  - cbn [identifier_run].
    assert (c <> stop) as Hne by (intros ->; destruct Hc; congruence).
    apply Z.eqb_neq in Hne. rewrite Hne. destruct (Z.eqb_spec c 46) as [->|Hc46].
    + apply Forall_cons in Hgood as [-> Hgood]. rewrite IH by done. by rewrite <- app_assoc.
    + destruct Hc as [->|]; [|done]. cbn [negb]. rewrite IH by done. by rewrite <- app_assoc.
Qed.

Lemma identifier_run_sound stop check cursor current total t rest :
  identifier_run stop check cursor current total = Some (t, rest) ->
  exists s, cursor = s ++ rest /\ t = total ++ s /\ (rest = [] \/ peek rest = stop) /\
    Forall (fun c => is_identifier_char c = true \/ c = 46) s /\
    Forall (fun i => bad_identifier check i = false) (split_from current s).
Proof.
  revert current total. induction cursor as [|c cursor IH]; intros current total H;
    cbn [identifier_run] in H.
  - destruct (bad_identifier check current) eqn:Eb; [done|]. injection H as <- <-.
    exists []. rewrite (app_nil_r total). split; [done|]. split; [done|]. split; [by auto|].
      split; [constructor|]. constructor; [done|constructor].
  - destruct (Z.eqb_spec c stop) as [->|Hne].
    { destruct (bad_identifier check current) eqn:Eb; [done|]. injection H as <- <-.
      exists []. rewrite (app_nil_r total). split; [done|]. split; [done|]. split; [by auto|].
      split; [constructor|]. constructor; [done|constructor]. }
    destruct (Z.eqb_spec c 46) as [->|Hc].
    + destruct (bad_identifier check current) eqn:Eb; [done|].
      destruct (IH _ _ H) as (s & -> & -> & Hr & Hs & Hg). exists (46 :: s).
      rewrite <- app_assoc. split; [done|]. split; [done|]. split; [done|].
      split; [constructor; auto|]. cbn [split_from Z.eqb]. by constructor.
    + destruct (is_identifier_char c) eqn:Ei; cbn [negb] in H; [|done].
      destruct (IH _ _ H) as (s & -> & -> & Hr & Hs & Hg). exists (c :: s).
      rewrite <- app_assoc. split; [done|]. split; [done|]. split; [done|].
      split; [constructor; auto|]. cbn [split_from]. apply Z.eqb_neq in Hc. by rewrite Hc.
Qed.

Lemma peek_app (a b : list Z) : a <> [] -> peek (a ++ b) = peek a.
Proof. by destruct a. Qed.

Lemma parse_numeric_print v tl :
  0 <= v <= UINT64_MAX -> isdigit (peek tl) = false ->
  parse_numeric_field (printf_lu v ++ tl) = Some (v, tl).
Proof.
  intros Hv Ht. destruct (printf_lu_spec v Hv) as (Hd & Hval & Hlen & Hz).
  unfold parse_numeric_field, strtoul. rewrite span_digits_app by done.
  destruct (printf_lu v) as [|c s] eqn:E; [simpl in Hlen; lia|].
  apply Forall_cons in Hd as [Hc Hd]. apply isdigit_spec in Hc as Hc'.
  cbn [app peek tail]. rewrite Hc'. cbn [negb].
  assert (Hzero : (c =? 48) && isdigit (peek (s ++ tl)) = false).
  { destruct (Z.eqb_spec c 48) as [->|]; [|done]. specialize (Hz eq_refl).
    destruct s; [done|simpl in Hz; lia]. }
  rewrite Hzero, Hval, Z.min_r by lia. cbn [length].
  destruct (Nat.eqb_spec (length tl) (S (length (s ++ tl)))) as [El|]; [|done].
  rewrite length_app in El. lia.
Qed.

Lemma copy_run_accepts s tl stop check :
  run_ok check s -> s <> [] -> is_identifier_char stop = false -> stop <> 46 ->
  tl = [] \/ peek tl = stop -> (stop = 0 -> tl = []) ->
  copy_identifier_run (s ++ tl) stop check SEMVER_MAX_IDENTIFIERS = Some (s, tl).
Proof.
  intros [|[[H1 H2] Hlen]] Hne Hstop Hdot Htl H0; [done|]. unfold copy_identifier_run.
  rewrite identifier_run_accepts by done. cbn [app].
  destruct (Nat.eqb_spec (length s) 0); [by destruct s|]. cbn [orb].
  destruct (Nat.leb_spec SEMVER_MAX_IDENTIFIERS (length s)); [lia|done].
Qed.

Lemma run_ok_peek check s : run_ok check s -> peek s = 0 <-> s = [].
Proof.
  intros [->|[[H _] _]]; [done|]. destruct s as [|c s]; [done|]. simpl.
  apply Forall_cons in H as [Hc _]. split; [|done]. intros ->. by destruct Hc.
Qed.

Lemma digit_head v tl :
  0 <= v <= UINT64_MAX -> 48 <= peek (printf_lu v ++ tl) <= 57.
Proof.
  intros Hv. destruct (printf_lu_spec v Hv) as (Hd & _ & Hlen & _).
  destruct (printf_lu v); [simpl in Hlen; lia|]. by apply Forall_cons in Hd as [? _].
Qed.

Lemma semver_parse_fields_text v :
  wf_version v -> semver_parse_fields (semver_text v) = Some v.
Proof.
  intros ((Hma & Hmi & Hpa) & Hpre & Hbuild).
  unfold semver_text, semver_parse_fields.
  rewrite parse_numeric_print by done. cbn [app]. unfold expect. cbn [peek tail Z.eqb Pos.eqb].
  rewrite parse_numeric_print by done. cbn [app peek tail Z.eqb Pos.eqb].
  set (btext := (if peek (build v) =? 0 then [] else [43]) ++ build v).
  set (ptext := (if peek (prerelease v) =? 0 then [] else [45]) ++ prerelease v ++ btext).
  assert (Hbt : btext = match build v with [] => [] | _ => 43 :: build v end).
  { unfold btext. pose proof (run_ok_peek _ _ Hbuild) as H. destruct (build v) as [|c b]; [done|].
    destruct (Z.eqb_spec (peek (c :: b)) 0) as [E|]; [by apply H in E|done]. }
  assert (Hpt : ptext = match prerelease v with [] => btext | _ => 45 :: prerelease v ++ btext end).
  { unfold ptext. pose proof (run_ok_peek _ _ Hpre) as H. destruct (prerelease v) as [|c b]; [done|].
    destruct (Z.eqb_spec (peek (c :: b)) 0) as [E|]; [by apply H in E|done]. }
  assert (Hbhead : btext = [] \/ peek btext = 43) by (rewrite Hbt; destruct (build v); auto).
  rewrite parse_numeric_print; [|done|].
  2:{ rewrite Hpt. destruct (prerelease v); [|done]. by destruct Hbhead as [->| ->]. }
  assert (Hp : (if peek ptext =? 45
     then copy_identifier_run (tail ptext) 43 true SEMVER_MAX_IDENTIFIERS
     else Some ([], ptext)) = Some (prerelease v, btext)).
  { rewrite Hpt. destruct (prerelease v) as [|c p] eqn:Ep.
    - by destruct Hbhead as [->| ->].
    - cbn [peek tail Z.eqb Pos.eqb]. by apply copy_run_accepts. }
  rewrite Hp.
  assert (Hb : (if peek btext =? 43
     then copy_identifier_run (tail btext) 0 false SEMVER_MAX_IDENTIFIERS
     else Some ([], btext)) = Some (build v, [])).
  { rewrite Hbt. destruct (build v) as [|c b] eqn:Eb; [done|]. cbn [peek tail Z.eqb Pos.eqb].
    rewrite <- (app_nil_r (c :: b)) at 1. apply copy_run_accepts; done || auto. }
  rewrite Hb. by destruct v.
Qed.

(** C36: Printing a well-formed version and parsing the text gives the version
    back, with or without the tag prefix. *)
Theorem semver_parse_format v :
  wf_version v ->
  semver_parse (semver_text v) = Some v /\ semver_parse (118 :: semver_text v) = Some v.
Proof.
  intros Hwf. pose proof (semver_parse_fields_text v Hwf) as H. split; [|exact H].
  unfold semver_parse.
  assert ((peek (semver_text v) =? 118) || (peek (semver_text v) =? 86) = false) as ->; [|exact H].
  destruct Hwf as ((Hma & _) & _). unfold semver_text.
  match goal with |- context [peek (printf_lu ?x ++ ?tl)] => pose proof (digit_head x tl Hma) end.
  case_bools; simpl; done || lia.
Qed.

(** [1.4.2-rc.1+5]. *)
Definition version_rc : Semver :=
  {| major := 1; minor := 4; patch := 2; prerelease := [114; 99; 46; 49]; build := [53] |}.

Lemma semver_parse_format_witness :
  semver_parse (semver_text version_rc) = Some version_rc.
Proof.
  apply (semver_parse_format version_rc). split; [|split].
  - unfold in_ulong. unfold_widths. simpl. lia.
  - right. split; [split|vm_compute; lia].
    + repeat (constructor; [vm_compute; auto|]). constructor.
    + repeat (constructor; [reflexivity|]). constructor.
  - right. split; [split|vm_compute; lia].
    + repeat (constructor; [vm_compute; auto|]). constructor.
    + repeat (constructor; [reflexivity|]). constructor.
Defined.

(** A digit string without superfluous leading zeros is what its value prints. *)
Definition plain_number (ds : list Z) : Prop :=
  is_digits ds /\ ds <> [] /\ (peek ds = 48 -> length ds = 1%nat).

Lemma plain_number_length ds :
  plain_number ds -> (1 < length ds)%nat ->
  10 ^ (Z.of_nat (length ds) - 1) <= decimal_value ds.
Proof.
  intros (Hd & Hne & Hz) Hlen. destruct ds as [|c s]; [done|].
  apply Forall_cons in Hd as [Hc Hs]. cbn [length] in *.
  assert (c <> 48) by (intros ->; specialize (Hz eq_refl); lia).
  change (c :: s) with ([c] ++ s). rewrite decimal_value_app.
  pose proof (decimal_value_bounds s Hs) as Hb.
  replace (decimal_value [c]) with (c - 48) by (unfold decimal_value; simpl; lia).
  replace (Z.of_nat (S (length s)) - 1) with (Z.of_nat (length s)) by lia. nia.
Qed.

Lemma plain_number_unique a b :
  plain_number a -> plain_number b -> decimal_value a = decimal_value b -> a = b.
Proof.
  intros Ha Hb E.
  assert (Hlen : length a = length b).
  { pose proof (decimal_value_bounds _ (proj1 Ha)) as Ba.
    pose proof (decimal_value_bounds _ (proj1 Hb)) as Bb.
    assert (Hle : forall x y, plain_number x -> plain_number y ->
      decimal_value x = decimal_value y -> (length x <= length y)%nat).
    { intros x y Hx Hy Exy. destruct (Nat.le_gt_cases (length x) (length y)); [done|].
      assert (1 <= length y)%nat by (destruct Hy as (_ & ? & _); destruct y; simpl; [done|lia]).
      pose proof (plain_number_length x Hx ltac:(lia)).
      pose proof (decimal_value_bounds _ (proj1 Hy)).
      assert (10 ^ Z.of_nat (length y) <= 10 ^ (Z.of_nat (length x) - 1))
        by (apply Z.pow_le_mono_r; lia). lia. }
    pose proof (Hle a b Ha Hb E). pose proof (Hle b a Hb Ha ltac:(done)). lia. }
  destruct Ha as [Ha _], Hb as [Hb _]. clear -Ha Hb E Hlen. revert b Hb E Hlen.
  induction Ha as [|c s Hc Hs IH]; intros [|c' s'] Hb E Hlen; try done.
  apply Forall_cons in Hb as [Hc' Hs']. cbn [length] in Hlen.
  change (c :: s) with ([c] ++ s) in E. change (c' :: s') with ([c'] ++ s') in E.
  rewrite !decimal_value_app in E. replace (length s') with (length s) in E by lia.
  pose proof (decimal_value_bounds s Hs) as B1. pose proof (decimal_value_bounds s' Hs') as B2.
  replace (length s') with (length s) in B2 by lia.
  replace (decimal_value [c]) with (c - 48) in E by (unfold decimal_value; simpl; lia).
  replace (decimal_value [c']) with (c' - 48) in E by (unfold decimal_value; simpl; lia).
  assert (c = c') as -> by nia. f_equal. apply IH; [done|lia|lia].
Qed.

Lemma parse_numeric_sound cursor v rest :
  parse_numeric_field cursor = Some (v, rest) ->
  exists ds, cursor = ds ++ rest /\ plain_number ds /\ v = Z.min UINT64_MAX (decimal_value ds).
Proof.
  unfold parse_numeric_field, strtoul. intros H.
  pose proof (span_digits_spec cursor) as Hs. destruct (span_digits cursor) as [ds tl].
  destruct Hs as (-> & Hd & Ht).
  destruct (isdigit (peek (ds ++ tl))) eqn:E1; cbn [negb] in H; [|done].
  destruct ((peek (ds ++ tl) =? 48) && isdigit (peek (tail (ds ++ tl)))) eqn:E2; [done|].
  destruct (Nat.eqb_spec (length tl) (length (ds ++ tl))) as [|Hl]; [done|].
  injection H as <- <-. exists ds. split; [done|]. split; [|done].
  assert (ds <> []) by (intros ->; done). split; [done|]. split; [done|].
  intros E48. destruct ds as [|c [|c' ds]]; [done|done|].
  apply Forall_cons in Hd as [_ Hd]. apply Forall_cons in Hd as [Hc' _].
  apply isdigit_spec in Hc'. simpl in E48, E2. subst c. simpl in E2. congruence.
Qed.

Lemma printed_number v ds :
  plain_number ds -> v = Z.min UINT64_MAX (decimal_value ds) ->
  0 <= v <= UINT64_MAX /\ (v < UINT64_MAX -> ds = printf_lu v).
Proof.
  intros Hp ->. pose proof (decimal_value_bounds _ (proj1 Hp)).
  split; [unfold_widths; lia|]. intros Hlt.
  assert (E : Z.min UINT64_MAX (decimal_value ds) = decimal_value ds) by lia. rewrite E in *.
  destruct (printf_lu_spec (decimal_value ds) ltac:(lia)) as (H1 & H2 & H3 & H4).
  apply plain_number_unique; [done| |done]. split; [done|]. split; [|done].
  intros En. rewrite En in H3. simpl in H3. lia.
Qed.

Lemma copy_run_sound cursor stop check s rest :
  copy_identifier_run cursor stop check SEMVER_MAX_IDENTIFIERS = Some (s, rest) ->
  cursor = s ++ rest /\ run_ok check s /\ s <> [] /\ (rest = [] \/ peek rest = stop).
Proof.
  unfold copy_identifier_run. intros H.
  destruct (identifier_run stop check cursor [] []) as [[t r]|] eqn:E; [|done].
  destruct ((length t =? 0)%nat || (SEMVER_MAX_IDENTIFIERS <=? length t)%nat) eqn:El; [done|].
  injection H as <- <-. apply orb_false_iff in El as [E0 E1].
  apply Nat.eqb_neq in E0. apply Nat.leb_gt in E1.
  destruct (identifier_run_sound _ _ _ _ _ _ _ E) as (s & -> & Es & Hr & H1 & H2).
  simpl in Es. subst t. split; [done|]. split; [right; split; [by split|done]|].
  split; [by destruct s|done].
Qed.

Lemma expect_sound c cursor rest :
  c <> 0 -> expect c cursor = Some rest -> cursor = c :: rest.
Proof.
  intros Hc. unfold expect. destruct cursor as [|x tl]; cbn [peek tail].
  - destruct (Z.eqb_spec 0 c); [lia|done].
  - destruct (Z.eqb_spec x c) as [->|]; [|done]. by intros [= ->].
Qed.

(** An optional run introduced by [mark]. *)
Lemma optional_run_sound mark stop check cursor s rest :
  mark <> 0 ->
  (if peek cursor =? mark then copy_identifier_run (tail cursor) stop check SEMVER_MAX_IDENTIFIERS
   else Some ([], cursor)) = Some (s, rest) ->
  run_ok check s /\ cursor = (if peek s =? 0 then [] else [mark]) ++ s ++ rest /\
  (s <> [] -> rest = [] \/ peek rest = stop).
Proof.
  intros Hm. destruct (Z.eqb_spec (peek cursor) mark) as [E|]; intros H.
  - destruct (copy_run_sound _ _ _ _ _ H) as (Et & Hok & Hne & Hr).
    split; [done|]. split; [|done].
    destruct (Z.eqb_spec (peek s) 0) as [E0|]; [by apply (run_ok_peek _ _ Hok) in E0|].
    destruct cursor as [|c cursor]; [simpl in E; congruence|]. simpl in *. congruence.
  - injection H as <- <-. split; [by left|]. done.
Qed.

(** Whatever [semver_parse] accepts is a well-formed version, and unless a
    component reached the largest [unsigned long] the text was exactly the
    version's printed form, up to the tag prefix: there are no other spellings. *)
Theorem semver_parse_strict text v :
  cstring text -> semver_parse text = Some v ->
  wf_version v /\
  (below_ulong_max v ->
     text = semver_text v \/ text = 118 :: semver_text v \/ text = 86 :: semver_text v).
Proof.
  intros Hcs Hp.
  assert (Hcore : forall cursor, cstring cursor -> semver_parse_fields cursor = Some v ->
    wf_version v /\ (below_ulong_max v -> cursor = semver_text v)).
  { clear text Hcs Hp. intros cursor Hcs H. unfold semver_parse_fields in H.
    destruct (parse_numeric_field cursor) as [[ma c1]|] eqn:E1; [|done].
    destruct (expect 46 c1) as [c2|] eqn:E2; [|done].
    destruct (parse_numeric_field c2) as [[mi c3]|] eqn:E3; [|done].
    destruct (expect 46 c3) as [c4|] eqn:E4; [|done].
    destruct (parse_numeric_field c4) as [[pa c5]|] eqn:E5; [|done].
    destruct (if peek c5 =? 45 then _ else _) as [[pre c6]|] eqn:E6; [|done].
    destruct (if peek c6 =? 43 then _ else _) as [[bu c7]|] eqn:E7; [|done].
    destruct (Z.eqb_spec (peek c7) 0) as [E8|]; [|done]. injection H as <-.
    destruct (parse_numeric_sound _ _ _ E1) as (d1 & -> & P1 & V1).
    apply expect_sound in E2; [|done]. apply expect_sound in E4; [|done]. subst c1 c3.
    destruct (parse_numeric_sound _ _ _ E3) as (d2 & -> & P2 & V2).
    destruct (parse_numeric_sound _ _ _ E5) as (d3 & -> & P3 & V3).
    destruct (optional_run_sound 45 43 true _ _ _ ltac:(done) E6) as (R6 & -> & _).
    destruct (optional_run_sound 43 0 false _ _ _ ltac:(done) E7) as (R7 & -> & _).
    destruct (printed_number ma d1 P1 V1) as [B1 T1].
    destruct (printed_number mi d2 P2 V2) as [B2 T2].
    destruct (printed_number pa d3 P3 V3) as [B3 T3].
    split; [done|]. unfold below_ulong_max. cbn [major minor patch]. intros (L1 & L2 & L3).
    assert (c7 = []) as ->.
    { destruct c7 as [|c c7]; [done|]. simpl in E8. subst c. exfalso.
      unfold cstring in Hcs. rewrite !Forall_app, !Forall_cons, !Forall_app in Hcs.
      rewrite !Forall_cons, !Forall_app, !Forall_cons in Hcs. 
      destruct Hcs as (_ & _ & _ & _ & _ & _ & _ & _ & _ & Hcs & _). lia. }
    unfold semver_text. cbn [major minor patch prerelease build].
    rewrite <- T1, <- T2, <- T3, app_nil_r by done. done. }
  unfold semver_parse in Hp. destruct ((peek text =? 118) || (peek text =? 86)) eqn:E.
  - destruct text as [|c text]; [done|]. apply Forall_cons in Hcs as [_ Hcs]. cbn [tail] in Hp.
    destruct (Hcore text Hcs Hp) as [Hwf Ht]. split; [done|]. intros Hb. rewrite (Ht Hb).
    cbn [peek] in E. apply orb_prop in E as [->%Z.eqb_eq| ->%Z.eqb_eq]; auto.
  - destruct (Hcore text Hcs Hp) as [Hwf Ht]. split; [done|]. auto.
Qed.

Lemma semver_parse_strict_witness : wf_version
  {| major := 1; minor := 4; patch := 2; prerelease := []; build := [] |}.
Proof.
  apply (semver_parse_strict text_1_4_2).
  - repeat (constructor; [lia|]). constructor.
  - vm_compute. reflexivity.
Defined.
