(* ===== verification/Lexer.v ===== *)
(** * Lexer: the tokenizer of src/lexer.c

    The source text is a C string; every read of [source[i]] is checked to stay
    at or before its terminating zero, so a theorem that a call returns [Some] is
    a theorem that it reads no byte past the source and that its loops end.
    Loops carry a fuel of [S (length source)] rounds: each round consumes a
    byte. *)

From S2P Require Import Prelude Digits CText.
From Stdlib Require Import ZArith Lia Bool List String.
From stdpp Require Import base numbers list.

Local Open Scope Z_scope.
Local Open Scope c_scope.

Record DiamondSpan := {
  span_start : nat; span_length : nat; span_line : Z; span_column : Z;
}.

Inductive DiamondTokenKind :=
  | DIAMOND_TOKEN_EOF | DIAMOND_TOKEN_ERROR | DIAMOND_TOKEN_INTEGER | DIAMOND_TOKEN_FLOAT
  | DIAMOND_TOKEN_STRING | DIAMOND_TOKEN_SYMBOL | DIAMOND_TOKEN_IDENTIFIER
  | DIAMOND_TOKEN_INSTANCE_VARIABLE | DIAMOND_TOKEN_CLASS_VARIABLE | DIAMOND_TOKEN_NEWLINE
  | DIAMOND_TOKEN_LEFT_PAREN | DIAMOND_TOKEN_RIGHT_PAREN | DIAMOND_TOKEN_LEFT_BRACKET
  | DIAMOND_TOKEN_RIGHT_BRACKET | DIAMOND_TOKEN_LEFT_BRACE | DIAMOND_TOKEN_RIGHT_BRACE
  | DIAMOND_TOKEN_COMMA | DIAMOND_TOKEN_DOT | DIAMOND_TOKEN_DOT_DOT
  | DIAMOND_TOKEN_DOT_DOT_DOT | DIAMOND_TOKEN_COLON | DIAMOND_TOKEN_DOUBLE_COLON
  | DIAMOND_TOKEN_QUESTION | DIAMOND_TOKEN_PIPE | DIAMOND_TOKEN_AMPERSAND
  | DIAMOND_TOKEN_BANG | DIAMOND_TOKEN_NOT | DIAMOND_TOKEN_AND_AND | DIAMOND_TOKEN_OR_OR
  | DIAMOND_TOKEN_AND | DIAMOND_TOKEN_OR | DIAMOND_TOKEN_PLUS | DIAMOND_TOKEN_MINUS
  | DIAMOND_TOKEN_ARROW | DIAMOND_TOKEN_FAT_ARROW | DIAMOND_TOKEN_STAR
  | DIAMOND_TOKEN_SLASH | DIAMOND_TOKEN_PERCENT | DIAMOND_TOKEN_CARET
  | DIAMOND_TOKEN_PLUS_EQUAL | DIAMOND_TOKEN_MINUS_EQUAL | DIAMOND_TOKEN_STAR_EQUAL
  | DIAMOND_TOKEN_SLASH_EQUAL | DIAMOND_TOKEN_PERCENT_EQUAL | DIAMOND_TOKEN_OR_OR_EQUAL
  | DIAMOND_TOKEN_AND_AND_EQUAL | DIAMOND_TOKEN_EQUAL | DIAMOND_TOKEN_EQUAL_EQUAL
  | DIAMOND_TOKEN_BANG_EQUAL | DIAMOND_TOKEN_LESS | DIAMOND_TOKEN_LESS_EQUAL
  | DIAMOND_TOKEN_LESS_LESS | DIAMOND_TOKEN_SPACESHIP | DIAMOND_TOKEN_GREATER
  | DIAMOND_TOKEN_GREATER_EQUAL | DIAMOND_TOKEN_GREATER_GREATER | DIAMOND_TOKEN_IF
  | DIAMOND_TOKEN_UNLESS | DIAMOND_TOKEN_THEN | DIAMOND_TOKEN_ELSE | DIAMOND_TOKEN_ELSIF
  | DIAMOND_TOKEN_CASE | DIAMOND_TOKEN_WHEN | DIAMOND_TOKEN_END | DIAMOND_TOKEN_WHILE
  | DIAMOND_TOKEN_UNTIL | DIAMOND_TOKEN_DO | DIAMOND_TOKEN_LOOP | DIAMOND_TOKEN_TRUE
  | DIAMOND_TOKEN_FALSE | DIAMOND_TOKEN_NIL | DIAMOND_TOKEN_DEF | DIAMOND_TOKEN_CLOSURE
  | DIAMOND_TOKEN_CLASS | DIAMOND_TOKEN_SEALED | DIAMOND_TOKEN_STRUCT
  | DIAMOND_TOKEN_INTERFACE | DIAMOND_TOKEN_MODULE | DIAMOND_TOKEN_INCLUDE
  | DIAMOND_TOKEN_PRIVATE | DIAMOND_TOKEN_PROTECTED | DIAMOND_TOKEN_PUBLIC
  | DIAMOND_TOKEN_ATTR_READER | DIAMOND_TOKEN_ATTR_WRITER | DIAMOND_TOKEN_ATTR_ACCESSOR
  | DIAMOND_TOKEN_ATTR_PREDICATE | DIAMOND_TOKEN_ATTR | DIAMOND_TOKEN_MODULE_FUNCTION
  | DIAMOND_TOKEN_ALIAS_METHOD | DIAMOND_TOKEN_DELEGATE | DIAMOND_TOKEN_SELF
  | DIAMOND_TOKEN_SUPER | DIAMOND_TOKEN_RETURN | DIAMOND_TOKEN_BREAK | DIAMOND_TOKEN_NEXT
  | DIAMOND_TOKEN_REDO | DIAMOND_TOKEN_RAISE | DIAMOND_TOKEN_RETRY | DIAMOND_TOKEN_YIELD
  | DIAMOND_TOKEN_BEGIN | DIAMOND_TOKEN_RESCUE | DIAMOND_TOKEN_ENSURE | DIAMOND_TOKEN_IS
  | DIAMOND_TOKEN_REGEX.

Record DiamondToken := { kind : DiamondTokenKind; span : DiamondSpan }.

Record DiamondLexer := {
  start : nat;
  current : nat;
  line : Z;
  column : Z;
  token_line : Z;
  token_column : Z;
  previous : DiamondTokenKind;
}.

(** ** Character classes *)

Definition identifier_start (c : Z) : bool :=
  ((97 <=? c) && (c <=? 122)) || ((65 <=? c) && (c <=? 90)) || (c =? 95).

Definition identifier_part (c : Z) : bool :=
  identifier_start c || ((48 <=? c) && (c <=? 57)).

Definition is_base_digit (c base : Z) : bool :=
  if base =? 16 then
    ((48 <=? c) && (c <=? 57)) || ((97 <=? c) && (c <=? 102)) || ((65 <=? c) && (c <=? 70))
  else (48 <=? c) && (c <? 48 + base).

(** The keywords [identifier_kind] tests, except [sealed]. *)
Definition keywords : list (list Z * DiamondTokenKind) :=
  [ (bytes "if", DIAMOND_TOKEN_IF);
    (bytes "unless", DIAMOND_TOKEN_UNLESS);
    (bytes "then", DIAMOND_TOKEN_THEN);
    (bytes "else", DIAMOND_TOKEN_ELSE);
    (bytes "elsif", DIAMOND_TOKEN_ELSIF);
    (bytes "case", DIAMOND_TOKEN_CASE);
    (bytes "when", DIAMOND_TOKEN_WHEN);
    (bytes "end", DIAMOND_TOKEN_END);
    (bytes "while", DIAMOND_TOKEN_WHILE);
    (bytes "until", DIAMOND_TOKEN_UNTIL);
    (bytes "do", DIAMOND_TOKEN_DO);
    (bytes "loop", DIAMOND_TOKEN_LOOP);
    (bytes "true", DIAMOND_TOKEN_TRUE);
    (bytes "false", DIAMOND_TOKEN_FALSE);
    (bytes "nil", DIAMOND_TOKEN_NIL);
    (bytes "not", DIAMOND_TOKEN_NOT);
    (bytes "and", DIAMOND_TOKEN_AND);
    (bytes "or", DIAMOND_TOKEN_OR);
    (bytes "def", DIAMOND_TOKEN_DEF);
    (bytes "closure", DIAMOND_TOKEN_CLOSURE);
    (bytes "class", DIAMOND_TOKEN_CLASS);
    (bytes "struct", DIAMOND_TOKEN_STRUCT);
    (bytes "interface", DIAMOND_TOKEN_INTERFACE);
    (bytes "module", DIAMOND_TOKEN_MODULE);
    (bytes "include", DIAMOND_TOKEN_INCLUDE);
    (bytes "private", DIAMOND_TOKEN_PRIVATE);
    (bytes "protected", DIAMOND_TOKEN_PROTECTED);
    (bytes "public", DIAMOND_TOKEN_PUBLIC);
    (bytes "attr_reader", DIAMOND_TOKEN_ATTR_READER);
    (bytes "attr_writer", DIAMOND_TOKEN_ATTR_WRITER);
    (bytes "attr_accessor", DIAMOND_TOKEN_ATTR_ACCESSOR);
    (bytes "attr_predicate", DIAMOND_TOKEN_ATTR_PREDICATE);
    (bytes "attr", DIAMOND_TOKEN_ATTR);
    (bytes "module_function", DIAMOND_TOKEN_MODULE_FUNCTION);
    (bytes "alias_method", DIAMOND_TOKEN_ALIAS_METHOD);
    (bytes "delegate", DIAMOND_TOKEN_DELEGATE);
    (bytes "self", DIAMOND_TOKEN_SELF);
    (bytes "super", DIAMOND_TOKEN_SUPER);
    (bytes "return", DIAMOND_TOKEN_RETURN);
    (bytes "break", DIAMOND_TOKEN_BREAK);
    (bytes "next", DIAMOND_TOKEN_NEXT);
    (bytes "redo", DIAMOND_TOKEN_REDO);
    (bytes "raise", DIAMOND_TOKEN_RAISE);
    (bytes "retry", DIAMOND_TOKEN_RETRY);
    (bytes "yield", DIAMOND_TOKEN_YIELD);
    (bytes "begin", DIAMOND_TOKEN_BEGIN);
    (bytes "rescue", DIAMOND_TOKEN_RESCUE);
    (bytes "ensure", DIAMOND_TOKEN_ENSURE);
    (bytes "is", DIAMOND_TOKEN_IS) ].

Section Lexer.

Context (source : list Z).

(** [source[i]]: the terminator is readable, nothing past it is. *)
Definition char_at (i : nat) : option Z :=
  if (i <=? length source)%nat then Some (nth i source 0) else None.

Definition loop_fuel : nat := S (length source).

Definition at_end (lexer : DiamondLexer) : option bool :=
  let? c := char_at (current lexer) in Some (c =? 0).

Definition advance (lexer : DiamondLexer) : option (Z * DiamondLexer) :=
  let? character := char_at (current lexer) in
  Some (character,
    {| start := start lexer; current := S (current lexer);
       line := if character =? 10 then line lexer + 1 else line lexer;
       column := if character =? 10 then 1 else column lexer + 1;
       token_line := token_line lexer; token_column := token_column lexer;
       previous := previous lexer |}).

Definition match_char (lexer : DiamondLexer) (expected : Z) : option (bool * DiamondLexer) :=
  let? c := char_at (current lexer) in
  if negb (c =? expected) then Some (false, lexer)
  else let? (_, lexer) := advance lexer in Some (true, lexer).

(** [while (p(source[current])) advance(lexer)]. *)
Fixpoint advance_while (fuel : nat) (p : Z -> bool) (lexer : DiamondLexer)
    : option DiamondLexer :=
  match fuel with
  | O => None
  | S f =>
      let? c := char_at (current lexer) in
      if p c then let? (_, lexer) := advance lexer in advance_while f p lexer
      else Some lexer
  end.

(** [if (p(source[current])) advance(lexer)]. *)
Definition advance_if (p : Z -> bool) (lexer : DiamondLexer) : option DiamondLexer :=
  let? c := char_at (current lexer) in
  if p c then let? (_, lexer) := advance lexer in Some lexer else Some lexer.

Definition text_equals (lexer : DiamondLexer) (text : list Z) : bool :=
  (current lexer - start lexer =? length text)%nat &&
  bool_decide (take (length text) (drop (start lexer) source) = text).

(** Does [text] stand at index [i]?  Compares byte by byte, stopping at the
    first difference. *)
Fixpoint text_at (i : nat) (text : list Z) : option bool :=
  match text with
  | [] => Some true
  | t :: rest =>
      let? c := char_at i in
      if c =? t then text_at (S i) rest else Some false
  end.

Fixpoint skip_blanks_from (fuel i : nat) : option nat :=
  match fuel with
  | O => None
  | S f =>
      let? c := char_at i in
      if (c =? 32) || (c =? 9) then skip_blanks_from f (S i) else Some i
  end.

Definition followed_by_class (lexer : DiamondLexer) : option bool :=
  let? index := skip_blanks_from loop_fuel (current lexer) in
  let? found := text_at index (bytes "class") in
  if negb found then Some false
  else let? c := char_at (index + 5) in Some (negb (identifier_part c)).

Definition identifier_kind (lexer : DiamondLexer) : option DiamondTokenKind :=
  match find (fun k => text_equals lexer (fst k)) keywords with
  | Some (_, k) => Some k
  | None =>
      if text_equals lexer (bytes "sealed") then
        let? sealed := followed_by_class lexer in
        Some (if sealed then DIAMOND_TOKEN_SEALED else DIAMOND_TOKEN_IDENTIFIER)
      else Some DIAMOND_TOKEN_IDENTIFIER
  end.

Definition token (lexer : DiamondLexer) (k : DiamondTokenKind) : DiamondToken :=
  {| kind := k;
     span := {| span_start := start lexer; span_length := current lexer - start lexer;
                span_line := token_line lexer; span_column := token_column lexer |} |}.

(** A token ends a scan together with the lexer's state. *)
Definition done_ (lexer : DiamondLexer) (k : DiamondTokenKind)
    : option (DiamondToken * DiamondLexer) := Some (token lexer k, lexer).

(** To the end of a comment line. *)
Fixpoint skip_line_from (fuel i : nat) : option nat :=
  match fuel with
  | O => None
  | S f =>
      let? c := char_at i in
      if negb (c =? 0) && negb (c =? 10) then skip_line_from f (S i) else Some i
  end.

Fixpoint newline_continues_chain_loop (fuel index : nat) : option bool :=
  match fuel with
  | O => None
  | S f =>
      let? next := char_at index in
      if (next =? 32) || (next =? 9) || (next =? 13) || (next =? 10)
      then newline_continues_chain_loop f (S index)
      else if next =? 35 then
        let? reset := text_at index (bytes "#line 1") in
        if reset then Some false
        else
          let? index := skip_line_from loop_fuel index in
          newline_continues_chain_loop f index
      else if negb (next =? 46) then Some false
      else
        let? after := char_at (S index) in
        Some (negb (after =? 46) && negb ((48 <=? after) && (after <=? 57)))
  end.

Definition newline_continues_chain (lexer : DiamondLexer) : option bool :=
  newline_continues_chain_loop loop_fuel (current lexer).

Definition regex_allowed (lexer : DiamondLexer) : bool :=
  match previous lexer with
  | DIAMOND_TOKEN_IDENTIFIER | DIAMOND_TOKEN_INTEGER | DIAMOND_TOKEN_FLOAT
  | DIAMOND_TOKEN_STRING | DIAMOND_TOKEN_SYMBOL
  | DIAMOND_TOKEN_INSTANCE_VARIABLE | DIAMOND_TOKEN_CLASS_VARIABLE
  | DIAMOND_TOKEN_RIGHT_PAREN | DIAMOND_TOKEN_RIGHT_BRACKET
  | DIAMOND_TOKEN_RIGHT_BRACE | DIAMOND_TOKEN_END | DIAMOND_TOKEN_TRUE
  | DIAMOND_TOKEN_FALSE | DIAMOND_TOKEN_NIL | DIAMOND_TOKEN_SELF
  | DIAMOND_TOKEN_DEF | DIAMOND_TOKEN_DOT | DIAMOND_TOKEN_REGEX => false
  | _ => true
  end.

(** The index of the closing slash, or [None] inside when the line ends first. *)
Fixpoint regex_close (fuel index : nat) : option (option nat) :=
  match fuel with
  | O => None
  | S f =>
      let? character := char_at index in
      if character =? 47 then Some (Some index)
      else if (character =? 0) || (character =? 10) then Some None
      else if character =? 92 then
        let? next := char_at (S index) in
        regex_close f (if negb (next =? 0) then S (S index) else S index)
      else regex_close f (S index)
  end.

Fixpoint regex_flags (fuel index : nat) : option nat :=
  match fuel with
  | O => None
  | S f =>
      let? c := char_at index in
      if (c =? 105) || (c =? 109) || (c =? 120) then regex_flags f (S index) else Some index
  end.

(** [while (lexer->current < index) advance(lexer)]. *)
Fixpoint advance_to (fuel index : nat) (lexer : DiamondLexer) : option DiamondLexer :=
  match fuel with
  | O => None
  | S f =>
      if (current lexer <? index)%nat
      then let? (_, lexer) := advance lexer in advance_to f index lexer
      else Some lexer
  end.

Definition scan_regex_literal (lexer : DiamondLexer) : option (bool * DiamondLexer) :=
  let? close := regex_close loop_fuel (current lexer) in
  match close with
  | None => Some (false, lexer)
  | Some index =>
      let? index := regex_flags loop_fuel (S index) in
      let? lexer := advance_to loop_fuel index lexer in
      Some (true, lexer)
  end.

Definition with_line (lexer : DiamondLexer) (l : Z) : DiamondLexer :=
  {| start := start lexer; current := current lexer; line := l; column := column lexer;
     token_line := token_line lexer; token_column := token_column lexer;
     previous := previous lexer |}.

(** The [#line 1] marker at the cursor. *)
Definition line_reset (lexer : DiamondLexer) : option DiamondLexer :=
  let? reset := text_at (current lexer) (bytes "#line 1") in
  if reset then
    let? after := char_at (current lexer + 7) in
    Some (if (after =? 10) || (after =? 0) then with_line lexer 0 else lexer)
  else Some lexer.

Fixpoint skip_whitespace_and_comments (fuel : nat) (lexer : DiamondLexer)
    : option DiamondLexer :=
  match fuel with
  | O => None
  | S f =>
      let? character := char_at (current lexer) in
      if character =? 0 then Some lexer
      else if (character =? 32) || (character =? 9) || (character =? 13) then
        let? (_, lexer) := advance lexer in skip_whitespace_and_comments f lexer
      else if character =? 35 then
        let? lexer := line_reset lexer in
        let? lexer :=
          advance_while loop_fuel (fun c => negb (c =? 0) && negb (c =? 10)) lexer in
        skip_whitespace_and_comments f lexer
      else Some lexer
  end.

Fixpoint scan_decimal_digits (fuel : nat) (lexer : DiamondLexer)
    : option (bool * DiamondLexer) :=
  match fuel with
  | O => None
  | S f =>
      let? next := char_at (current lexer) in
      if (48 <=? next) && (next <=? 57) then
        let? (_, lexer) := advance lexer in scan_decimal_digits f lexer
      else if next =? 95 then
        let? after := char_at (S (current lexer)) in
        let? (_, lexer) := advance lexer in
        if (after <? 48) || (after >? 57) then Some (false, lexer)
        else scan_decimal_digits f lexer
      else Some (true, lexer)
  end.

Fixpoint prefixed_digits (fuel : nat) (base : Z) (lexer : DiamondLexer)
    : option (DiamondToken * DiamondLexer) :=
  match fuel with
  | O => None
  | S f =>
      let? next := char_at (current lexer) in
      if is_base_digit next base then
        let? (_, lexer) := advance lexer in prefixed_digits f base lexer
      else if next =? 95 then
        let? (_, lexer) := advance lexer in
        let? c := char_at (current lexer) in
        if negb (is_base_digit c base) then done_ lexer DIAMOND_TOKEN_ERROR
        else prefixed_digits f base lexer
      else done_ lexer DIAMOND_TOKEN_INTEGER
  end.

Definition prefix_base (prefix : Z) : Z :=
  if (prefix =? 120) || (prefix =? 88) then 16
  else if (prefix =? 98) || (prefix =? 66) then 2
  else if (prefix =? 111) || (prefix =? 79) then 8 else 0.

(** The inner [None] is the C function's [false]. *)
Definition scan_prefixed_integer (lexer : DiamondLexer)
    : option (option (DiamondToken * DiamondLexer)) :=
  let? prefix := char_at (current lexer) in
  let base := prefix_base prefix in
  if base =? 0 then Some None
  else
    let? c := char_at (S (current lexer)) in
    if is_base_digit c base then
      let? (_, lexer) := advance lexer in
      let? r := prefixed_digits loop_fuel base lexer in
      Some (Some r)
    else Some None.

Definition isdecimal (c : Z) : bool := (48 <=? c) && (c <=? 57).
Definition is_sign (c : Z) : bool := (c =? 43) || (c =? 45).

(** The fraction: whether it was scanned, [None] inside for an error token. *)
Definition scan_fraction (lexer : DiamondLexer) : option (option bool * DiamondLexer) :=
  let? c := char_at (current lexer) in
  if c =? 46 then
    let? after_dot := char_at (S (current lexer)) in
    if isdecimal after_dot then
      let? (_, lexer) := advance lexer in
      let? (ok, lexer) := scan_decimal_digits loop_fuel lexer in
      Some (if ok : bool then Some true else None, lexer)
    else Some (Some false, lexer)
  else Some (Some false, lexer).

Definition scan_exponent (lexer : DiamondLexer) : option (option bool * DiamondLexer) :=
  let? c := char_at (current lexer) in
  if (c =? 101) || (c =? 69) then
    let? sign := char_at (S (current lexer)) in
    let peek := if is_sign sign then S (S (current lexer)) else S (current lexer) in
    let? digit := char_at peek in
    if isdecimal digit then
      let? (_, lexer) := advance lexer in
      let? lexer := advance_if is_sign lexer in
      let? (ok, lexer) := scan_decimal_digits loop_fuel lexer in
      Some (if ok : bool then Some true else None, lexer)
    else Some (Some false, lexer)
  else Some (Some false, lexer).

Definition scan_number (lexer : DiamondLexer) : option (DiamondToken * DiamondLexer) :=
  let? (ok, lexer) := scan_decimal_digits loop_fuel lexer in
  if negb ok then done_ lexer DIAMOND_TOKEN_ERROR else
  let? (fraction, lexer) := scan_fraction lexer in
  match fraction with
  | None => done_ lexer DIAMOND_TOKEN_ERROR
  | Some is_float =>
      let? (exponent, lexer) := scan_exponent lexer in
      match exponent with
      | None => done_ lexer DIAMOND_TOKEN_ERROR
      | Some exponent =>
          done_ lexer (if is_float || exponent then DIAMOND_TOKEN_FLOAT else DIAMOND_TOKEN_INTEGER)
      end
  end.

(** One string character: a backslash takes the next one with it. *)
Definition advance_escaped (lexer : DiamondLexer) : option DiamondLexer :=
  let? c := char_at (current lexer) in
  let? lexer :=
    (if c =? 92 then
       let? next := char_at (S (current lexer)) in
       if negb (next =? 0) then let? (_, lexer) := advance lexer in Some lexer else Some lexer
     else Some lexer) in
  let? (_, lexer) := advance lexer in Some lexer.

(** Up to the closing quote of a string inside an interpolation. *)
Fixpoint skip_embedded_string (fuel : nat) (lexer : DiamondLexer) : option DiamondLexer :=
  match fuel with
  | O => None
  | S f =>
      let? c := char_at (current lexer) in
      if negb (c =? 0) && negb (c =? 34)
      then let? lexer := advance_escaped lexer in skip_embedded_string f lexer
      else Some lexer
  end.

(** [while (!at_end(lexer) && depth > 0)]: the depth left and the lexer. *)
Fixpoint skip_interpolation (fuel : nat) (depth : Z) (lexer : DiamondLexer)
    : option (Z * DiamondLexer) :=
  match fuel with
  | O => None
  | S f =>
      let? c := char_at (current lexer) in
      if negb (c =? 0) && (depth >? 0) then
        let? (embedded, lexer) := advance lexer in
        if embedded =? 34 then
          let? lexer := skip_embedded_string loop_fuel lexer in
          let? lexer := advance_if (fun c => negb (c =? 0)) lexer in
          skip_interpolation f depth lexer
        else if embedded =? 123 then skip_interpolation f (depth + 1) lexer
        else if embedded =? 125 then skip_interpolation f (depth - 1) lexer
        else skip_interpolation f depth lexer
      else Some (depth, lexer)
  end.

Fixpoint scan_string (fuel : nat) (lexer : DiamondLexer)
    : option (DiamondToken * DiamondLexer) :=
  match fuel with
  | O => None
  | S f =>
      let? c := char_at (current lexer) in
      if negb (c =? 0) && negb (c =? 34) then
        let? opens :=
          (if c =? 35 then let? next := char_at (S (current lexer)) in Some (next =? 123)
           else Some false) in
        if opens : bool then
          let? (_, lexer) := advance lexer in
          let? (_, lexer) := advance lexer in
          let? (depth, lexer) := skip_interpolation loop_fuel 1 lexer in
          if negb (depth =? 0) then done_ lexer DIAMOND_TOKEN_ERROR
          else scan_string f lexer
        else
          let? lexer := advance_escaped lexer in
          scan_string f lexer
      else if c =? 0 then done_ lexer DIAMOND_TOKEN_ERROR
      else let? (_, lexer) := advance lexer in done_ lexer DIAMOND_TOKEN_STRING
  end.

Definition is_suffix (c : Z) : bool := (c =? 63) || (c =? 33).

(** The optional [?], [!] or writer [=] of a Symbol. *)
Definition symbol_suffix (lexer : DiamondLexer) : option DiamondLexer :=
  let? c := char_at (current lexer) in
  if is_suffix c then let? (_, lexer) := advance lexer in Some lexer
  else if c =? 61 then
    let? next := char_at (S (current lexer)) in
    if negb (next =? 61) && negb (next =? 62) && negb (next =? 126)
    then let? (_, lexer) := advance lexer in Some lexer
    else Some lexer
  else Some lexer.

Definition scan_colon (lexer : DiamondLexer) : option (DiamondToken * DiamondLexer) :=
  let? (double, lexer) := match_char lexer 58 in
  if double : bool then done_ lexer DIAMOND_TOKEN_DOUBLE_COLON else
  let? glued :=
    (if (0 <? start lexer)%nat then
       let? before := char_at (start lexer - 1) in
       Some (identifier_part before || (before =? 41) || (before =? 93) || (before =? 125) ||
             (before =? 34))
     else Some false) in
  let? c := char_at (current lexer) in
  if negb glued && identifier_start c then
    let? lexer := advance_while loop_fuel identifier_part lexer in
    let? lexer := symbol_suffix lexer in
    done_ lexer DIAMOND_TOKEN_SYMBOL
  else done_ lexer DIAMOND_TOKEN_COLON.

(** A token that is longer when [expected] follows. *)
Definition either (lexer : DiamondLexer) (expected : Z) (longer shorter : DiamondTokenKind)
    : option (DiamondToken * DiamondLexer) :=
  let? (matched, lexer) := match_char lexer expected in
  done_ lexer (if matched : bool then longer else shorter).

(** The punctuation of [lexer_scan]'s switch, newline apart. *)
Definition scan_punctuation (character : Z) (lexer : DiamondLexer)
    : option (DiamondToken * DiamondLexer) :=
  if character =? 40 then done_ lexer DIAMOND_TOKEN_LEFT_PAREN
  else if character =? 41 then done_ lexer DIAMOND_TOKEN_RIGHT_PAREN
  else if character =? 91 then done_ lexer DIAMOND_TOKEN_LEFT_BRACKET
  else if character =? 93 then done_ lexer DIAMOND_TOKEN_RIGHT_BRACKET
  else if character =? 123 then done_ lexer DIAMOND_TOKEN_LEFT_BRACE
  else if character =? 125 then done_ lexer DIAMOND_TOKEN_RIGHT_BRACE
  else if character =? 44 then done_ lexer DIAMOND_TOKEN_COMMA
  else if character =? 46 then
    let? (dots, lexer) := match_char lexer 46 in
    if dots : bool then either lexer 46 DIAMOND_TOKEN_DOT_DOT_DOT DIAMOND_TOKEN_DOT_DOT
    else done_ lexer DIAMOND_TOKEN_DOT
  else if character =? 58 then scan_colon lexer
  else if character =? 63 then done_ lexer DIAMOND_TOKEN_QUESTION
  else if character =? 124 then
    let? (double, lexer) := match_char lexer 124 in
    if double : bool then either lexer 61 DIAMOND_TOKEN_OR_OR_EQUAL DIAMOND_TOKEN_OR_OR
    else done_ lexer DIAMOND_TOKEN_PIPE
  else if character =? 38 then
    let? (double, lexer) := match_char lexer 38 in
    if double : bool then either lexer 61 DIAMOND_TOKEN_AND_AND_EQUAL DIAMOND_TOKEN_AND_AND
    else done_ lexer DIAMOND_TOKEN_AMPERSAND
  else if character =? 43 then either lexer 61 DIAMOND_TOKEN_PLUS_EQUAL DIAMOND_TOKEN_PLUS
  else if character =? 45 then
    let? (eq, lexer) := match_char lexer 61 in
    if eq : bool then done_ lexer DIAMOND_TOKEN_MINUS_EQUAL
    else either lexer 62 DIAMOND_TOKEN_ARROW DIAMOND_TOKEN_MINUS
  else if character =? 42 then either lexer 61 DIAMOND_TOKEN_STAR_EQUAL DIAMOND_TOKEN_STAR
  else if character =? 47 then
    let? (regex, lexer) :=
      (if regex_allowed lexer then scan_regex_literal lexer else Some (false, lexer)) in
    if regex : bool then done_ lexer DIAMOND_TOKEN_REGEX
    else either lexer 61 DIAMOND_TOKEN_SLASH_EQUAL DIAMOND_TOKEN_SLASH
  else if character =? 37 then either lexer 61 DIAMOND_TOKEN_PERCENT_EQUAL DIAMOND_TOKEN_PERCENT
  else if character =? 94 then done_ lexer DIAMOND_TOKEN_CARET
  else if character =? 59 then done_ lexer DIAMOND_TOKEN_NEWLINE
  else if character =? 61 then
    let? (double, lexer) := match_char lexer 61 in
    if double : bool then done_ lexer DIAMOND_TOKEN_EQUAL_EQUAL
    else either lexer 62 DIAMOND_TOKEN_FAT_ARROW DIAMOND_TOKEN_EQUAL
  else if character =? 33 then either lexer 61 DIAMOND_TOKEN_BANG_EQUAL DIAMOND_TOKEN_BANG
  else if character =? 60 then
    let? (eq, lexer) := match_char lexer 61 in
    if eq : bool then either lexer 62 DIAMOND_TOKEN_SPACESHIP DIAMOND_TOKEN_LESS_EQUAL
    else either lexer 60 DIAMOND_TOKEN_LESS_LESS DIAMOND_TOKEN_LESS
  else if character =? 62 then
    let? (eq, lexer) := match_char lexer 61 in
    if eq : bool then done_ lexer DIAMOND_TOKEN_GREATER_EQUAL
    else either lexer 62 DIAMOND_TOKEN_GREATER_GREATER DIAMOND_TOKEN_GREATER
  else done_ lexer DIAMOND_TOKEN_ERROR.

Definition scan_identifier (lexer : DiamondLexer) : option (DiamondToken * DiamondLexer) :=
  let? lexer := advance_while loop_fuel identifier_part lexer in
  let? lexer := advance_if is_suffix lexer in
  let? k := identifier_kind lexer in
  done_ lexer k.

(** The variable after [@@] or [@]; [None] inside when there is none. *)
Definition scan_variable (lexer : DiamondLexer)
    : option (option (DiamondToken * DiamondLexer)) :=
  let? c := char_at (current lexer) in
  let? class_variable :=
    (if c =? 64 then let? next := char_at (S (current lexer)) in Some (identifier_start next)
     else Some false) in
  if class_variable : bool then
    let? (_, lexer) := advance lexer in
    let? lexer := advance_while loop_fuel identifier_part lexer in
    let? r := done_ lexer DIAMOND_TOKEN_CLASS_VARIABLE in Some (Some r)
  else if identifier_start c then
    let? lexer := advance_while loop_fuel identifier_part lexer in
    let? r := done_ lexer DIAMOND_TOKEN_INSTANCE_VARIABLE in Some (Some r)
  else Some None.

(** [lexer_scan] once a character was consumed, with the newline case aside. *)
Definition scan_character (character : Z) (lexer : DiamondLexer)
    : option (DiamondToken * DiamondLexer) :=
  let? prefixed :=
    (if character =? 48 then scan_prefixed_integer lexer else Some None) in
  match prefixed with
  | Some r => Some r
  | None =>
      if isdecimal character then scan_number lexer
      else if character =? 34 then scan_string loop_fuel lexer
      else if identifier_start character then scan_identifier lexer
      else
        let? variable := (if character =? 64 then scan_variable lexer else Some None) in
        match variable with
        | Some r => Some r
        | None => scan_punctuation character lexer
        end
  end.

Definition begin_token (lexer : DiamondLexer) : DiamondLexer :=
  {| start := current lexer; current := current lexer; line := line lexer;
     column := column lexer; token_line := line lexer; token_column := column lexer;
     previous := previous lexer |}.

Definition with_previous (lexer : DiamondLexer) (k : DiamondTokenKind) : DiamondLexer :=
  {| start := start lexer; current := current lexer; line := line lexer;
     column := column lexer; token_line := token_line lexer;
     token_column := token_column lexer; previous := k |}.

(** [lexer_scan] and [diamond_lexer_next], which call each other when a newline
    continues a method chain; each such call consumed the newline. *)
Fixpoint lexer_scan (fuel : nat) (lexer : DiamondLexer)
    : option (DiamondToken * DiamondLexer) :=
  match fuel with
  | O => None
  | S f =>
      let? lexer := skip_whitespace_and_comments loop_fuel lexer in
      let lexer := begin_token lexer in
      let? ended := at_end lexer in
      if ended : bool then done_ lexer DIAMOND_TOKEN_EOF else
      let? (character, lexer) := advance lexer in
      if character =? 10 then
        let? continues := newline_continues_chain lexer in
        if continues : bool then
          let? (scanned, lexer) := lexer_scan f lexer in
          Some (scanned, with_previous lexer (kind scanned))
        else done_ lexer DIAMOND_TOKEN_NEWLINE
      else scan_character character lexer
  end.

Definition diamond_lexer_next (lexer : DiamondLexer) : option (DiamondToken * DiamondLexer) :=
  let? (scanned, lexer) := lexer_scan loop_fuel lexer in
  Some (scanned, with_previous lexer (kind scanned)).

(** The tokens of a whole source, the end-of-file token last. *)
Fixpoint tokenize (fuel : nat) (lexer : DiamondLexer) : option (list DiamondToken) :=
  match fuel with
  | O => None
  | S f =>
      let? (t, lexer) := diamond_lexer_next lexer in
      match kind t with
      | DIAMOND_TOKEN_EOF => Some [t]
      | _ => let? rest := tokenize f lexer in Some (t :: rest)
      end
  end.

End Lexer.

Definition diamond_lexer_init : DiamondLexer :=
  {| start := 0; current := 0; line := 1; column := 1; token_line := 1; token_column := 1;
     previous := DIAMOND_TOKEN_EOF |}.

(** ** The lexer stays inside its source *)

Section Safety.

Context (source : list Z) (Hsource : cstring source).

Abbreviation len := (length source).
Abbreviation char_at := (char_at source).
Abbreviation advance := (advance source).

(** The cursor only moves forward, up to the terminator. *)
Definition mv (l l' : DiamondLexer) : Prop :=
  (current l <= current l' <= len)%nat /\ start l' = start l /\
  token_line l' = token_line l /\ token_column l' = token_column l /\
  previous l' = previous l.

Lemma mv_refl l : (current l <= len)%nat -> mv l l.
Proof using Type. intros. repeat split; lia. Qed.

Lemma mv_trans l1 l2 l3 : mv l1 l2 -> mv l2 l3 -> mv l1 l3.
Proof using Type.
  intros (A1 & A2 & A3 & A4 & A5) (B1 & B2 & B3 & B4 & B5). repeat split; lia || congruence.
Qed.

Lemma mv_bound l l' : mv l l' -> (current l' <= len)%nat.
Proof using Type. intros [H _]. lia. Qed.

(** Only the terminator is zero. *)
Lemma wp_char i (Q : Z -> Prop) :
  (i <= len)%nat ->
  (forall c, c = nth i source 0 -> (c = 0 -> i = len) -> (c <> 0 -> (i < len)%nat) -> Q c) ->
  wp (char_at i) Q.
Proof using Hsource.
  intros Hi HQ. unfold Lexer.char_at. destruct (Nat.leb_spec i len); [|lia]. simpl.
  apply HQ; [done| |].
  - intros E. destruct (decide (i = len)) as [|Hne]; [done|]. exfalso.
    destruct (lookup_lt_is_Some_2 source i ltac:(lia)) as [x Hx].
    rewrite nth_lookup, Hx in E. simpl in E. subst x.
    pose proof (Forall_lookup_1 _ _ _ _ Hsource Hx). simpl in *. lia.
  - intros E. destruct (decide (i = len)) as [->|Hne]; [|lia]. exfalso. apply E.
    apply nth_overflow. lia.
Qed.

Lemma wp_advance l (Q : Z * DiamondLexer -> Prop) :
  (current l < len)%nat ->
  (forall l', mv l l' -> current l' = S (current l) -> Q (nth (current l) source 0, l')) ->
  wp (advance l) Q.
Proof using Hsource.
  intros Hi HQ. unfold Lexer.advance. apply wp_bind. apply wp_char; [lia|]. intros c -> _ _.
  apply HQ; [|done]. split; [simpl; lia|]. done.
Qed.

Lemma wp_advance_while fuel p l (Q : DiamondLexer -> Prop) :
  (current l <= len)%nat -> (len - current l < fuel)%nat -> p 0 = false ->
  (forall l', mv l l' -> p (nth (current l') source 0) = false ->
     (forall i, (current l <= i < current l')%nat -> p (nth i source 0) = true) -> Q l') ->
  wp (advance_while source fuel p l) Q.
Proof using Hsource.
  intros Hl Hf Hp. revert l Hl Hf. induction fuel as [|f IH]; intros l Hl Hf HQ; [lia|].
  cbn [advance_while]. apply wp_bind. apply wp_char; [done|]. intros c Ec E0 E1.
  destruct (p c) eqn:Epc.
  - assert (c <> 0) by congruence. apply wp_bind. apply wp_advance; [auto|].
    intros l' Hmv Hc. apply IH; [lia|lia|]. intros l2 Hmv2 Hp2 Hall.
    apply HQ; [by eapply mv_trans|done|]. intros i Hi.
    destruct (decide (i = current l)) as [->|]; [congruence|]. apply Hall. lia.
  - apply HQ; [by apply mv_refl|congruence|]. intros i Hi. lia.
Qed.

Lemma wp_advance_if p l (Q : DiamondLexer -> Prop) :
  (current l <= len)%nat -> p 0 = false -> (forall l', mv l l' -> Q l') ->
  wp (advance_if source p l) Q.
Proof using Hsource.
  intros Hl Hp HQ. unfold advance_if. apply wp_bind. apply wp_char; [done|]. intros c _ _ E1.
  destruct (p c) eqn:Epc; [|by apply HQ, mv_refl].
  apply wp_bind. apply wp_advance; [apply E1; congruence|]. intros l' Hmv _. by apply HQ.
Qed.

Lemma wp_match_char expected l (Q : bool * DiamondLexer -> Prop) :
  (current l <= len)%nat -> expected <> 0 -> (forall b l', mv l l' -> Q (b, l')) ->
  wp (match_char source l expected) Q.
Proof using Hsource.
  intros Hl He HQ. unfold match_char. apply wp_bind. apply wp_char; [done|]. intros c _ _ E1.
  destruct (Z.eqb_spec c expected) as [->|]; cbn [negb]; [|by apply HQ, mv_refl].
  apply wp_bind. apply wp_advance; [by apply E1|]. intros l' Hmv _. by apply HQ.
Qed.

Lemma wp_text_at text i (Q : bool -> Prop) :
  cstring text -> (i <= len)%nat ->
  (forall b, (b = true -> (i + length text <= len)%nat) -> Q b) -> wp (text_at source i text) Q.
Proof using Hsource.
  intros Ht. revert i. induction Ht as [|t text Htc Ht IH]; intros i Hi HQ; cbn [text_at].
  - apply HQ. simpl. lia.
  - apply wp_bind. apply wp_char; [done|]. intros c _ _ E1.
    destruct (Z.eqb_spec c t) as [->|]; [|by apply HQ].
    assert (i < len)%nat by (apply E1; lia). apply IH; [lia|]. intros b Hb. apply HQ.
    intros E. specialize (Hb E). cbn [length]. lia.
Qed.

Ltac literal_bytes :=
  match goal with |- cstring (bytes ?s) =>
    let b := eval vm_compute in (bytes s) in change (bytes s) with b end;
  repeat (constructor; [lia|]); constructor.

Lemma cstring_bytes_class : cstring (bytes "class").
Proof using Type. literal_bytes. Qed.

Lemma cstring_bytes_line : cstring (bytes "#line 1").
Proof using Type. literal_bytes. Qed.

(** A loop that only moves an index. *)
Lemma wp_skip_blanks fuel i (Q : nat -> Prop) :
  (i <= len)%nat -> (len - i < fuel)%nat -> (forall j, (i <= j <= len)%nat -> Q j) ->
  wp (skip_blanks_from source fuel i) Q.
Proof using Hsource.
  revert i. induction fuel as [|f IH]; intros i Hi Hf HQ; [lia|]. cbn [skip_blanks_from].
  apply wp_bind. apply wp_char; [done|]. intros c _ _ E1.
  destruct ((c =? 32) || (c =? 9)) eqn:E; [|apply HQ; lia].
  assert (i < len)%nat by (apply E1; intros ->; done).
  apply IH; [lia|lia|]. intros j Hj. apply HQ. lia.
Qed.

Lemma wp_skip_line fuel i (Q : nat -> Prop) :
  (i <= len)%nat -> (len - i < fuel)%nat ->
  (forall j, (i <= j <= len)%nat -> (nth i source 0 = 35 -> (i < j)%nat) -> Q j) ->
  wp (skip_line_from source fuel i) Q.
Proof using Hsource.
  revert i. induction fuel as [|f IH]; intros i Hi Hf HQ; [lia|]. cbn [skip_line_from].
  apply wp_bind. apply wp_char; [done|]. intros c Ec E0 E1.
  destruct (negb (c =? 0) && negb (c =? 10)) eqn:E.
  - assert (i < len)%nat by (apply E1; intros ->; done).
    apply IH; [lia|lia|]. intros j Hj _. apply HQ; lia.
  - apply HQ; [lia|]. intros E35. exfalso. rewrite <- Ec in E35. subst c. by rewrite E35 in E.
Qed.

Lemma wp_followed_by_class l (Q : bool -> Prop) :
  (current l <= len)%nat -> (forall b, Q b) -> wp (followed_by_class source l) Q.
Proof using Hsource.
  intros Hl HQ. unfold followed_by_class. apply wp_bind. apply wp_skip_blanks; [done|unfold loop_fuel; lia|].
  intros j Hj. apply wp_bind. apply wp_text_at; [apply cstring_bytes_class|lia|].
  intros [] Hb; cbn [negb]; [|apply HQ]. specialize (Hb eq_refl). apply wp_bind.
  apply wp_char; [exact Hb|]. intros. apply HQ.
Qed.

Lemma wp_newline_continues fuel i (Q : bool -> Prop) :
  (i <= len)%nat -> (len - i < fuel)%nat -> (forall b, Q b) ->
  wp (newline_continues_chain_loop source fuel i) Q.
Proof using Hsource.
  revert i. induction fuel as [|f IH]; intros i Hi Hf HQ; [lia|].
  cbn [newline_continues_chain_loop]. apply wp_bind. apply wp_char; [done|]. intros c Ec E0 E1.
  destruct ((c =? 32) || (c =? 9) || (c =? 13) || (c =? 10)) eqn:E.
  { assert (i < len)%nat by (apply E1; intros ->; done). apply IH; [lia|lia|done]. }
  destruct (Z.eqb_spec c 35) as [->|H35].
  { apply wp_bind. apply wp_text_at; [apply cstring_bytes_line|done|]. intros b _.
    destruct b; [apply HQ|]. apply wp_bind. apply wp_skip_line; [done|unfold loop_fuel; lia|].
    intros j Hj Hlt. specialize (Hlt (eq_sym Ec)). apply IH; [lia|lia|done]. }
  destruct (Z.eqb_spec c 46) as [->|]; cbn [negb]; [|apply HQ].
  apply wp_bind. apply wp_char; [assert (i < len)%nat by (by apply E1); lia|]. intros. apply HQ.
Qed.

Lemma wp_regex_close fuel i (Q : option nat -> Prop) :
  (i <= len)%nat -> (len - i < fuel)%nat -> Q None ->
  (forall j, (i <= j < len)%nat -> Q (Some j)) ->
  wp (regex_close source fuel i) Q.
Proof using Hsource.
  revert i. induction fuel as [|f IH]; intros i Hi Hf HN HQ; [lia|].
  cbn [regex_close]. apply wp_bind. apply wp_char; [done|]. intros c Ec E0 E1.
  destruct (Z.eqb_spec c 47) as [->|]; [apply HQ; assert (i < len)%nat by (by apply E1); lia|].
  destruct ((c =? 0) || (c =? 10)) eqn:E; [done|].
  assert (i < len)%nat by (apply E1; intros ->; done).
  destruct (Z.eqb_spec c 92) as [->|].
  - apply wp_bind. apply wp_char; [lia|]. intros c2 _ _ F1.
    destruct (Z.eqb_spec c2 0) as [->|Hc2]; cbn [negb].
    + apply IH; [lia|lia|done|]. intros j Hj. apply HQ. lia.
    + specialize (F1 Hc2). apply IH; [lia|lia|done|]. intros j Hj. apply HQ. lia.
  - apply IH; [lia|lia|done|]. intros j Hj. apply HQ. lia.
Qed.

Lemma wp_regex_flags fuel i (Q : nat -> Prop) :
  (i <= len)%nat -> (len - i < fuel)%nat -> (forall j, (i <= j <= len)%nat -> Q j) ->
  wp (regex_flags source fuel i) Q.
Proof using Hsource.
  revert i. induction fuel as [|f IH]; intros i Hi Hf HQ; [lia|]. cbn [regex_flags].
  apply wp_bind. apply wp_char; [done|]. intros c _ _ E1.
  destruct ((c =? 105) || (c =? 109) || (c =? 120)) eqn:E; [|apply HQ; lia].
  assert (i < len)%nat by (apply E1; intros ->; done).
  apply IH; [lia|lia|]. intros j Hj. apply HQ. lia.
Qed.

Lemma wp_advance_to fuel i l (Q : DiamondLexer -> Prop) :
  (current l <= len)%nat -> (i <= len)%nat -> (len - current l < fuel)%nat ->
  (forall l', mv l l' -> Q l') -> wp (advance_to source fuel i l) Q.
Proof using Hsource.
  revert l. induction fuel as [|f IH]; intros l Hl Hi Hf HQ; [lia|]. cbn [advance_to].
  destruct (Nat.ltb_spec (current l) i); [|by apply HQ, mv_refl].
  apply wp_bind. apply wp_advance; [lia|]. intros l1 H1 Hc. apply IH; [lia|lia|lia|].
  intros l2 H2. apply HQ. by eapply mv_trans.
Qed.

Lemma wp_scan_regex l (Q : bool * DiamondLexer -> Prop) :
  (current l <= len)%nat -> (forall b l', mv l l' -> Q (b, l')) -> wp (scan_regex_literal source l) Q.
Proof using Hsource.
  intros Hl HQ. unfold scan_regex_literal. apply wp_bind.
  apply wp_regex_close; [done|unfold loop_fuel; lia|by apply HQ, mv_refl|].
  intros j Hj. cbv beta iota. apply wp_bind. apply wp_regex_flags; [lia|unfold loop_fuel; lia|].
  intros k Hk. apply wp_bind. apply wp_advance_to; [lia|lia|unfold loop_fuel; lia|].
  intros l' H'. by apply HQ.
Qed.

Lemma wp_decimal_digits fuel l (Q : bool * DiamondLexer -> Prop) :
  (current l <= len)%nat -> (len - current l < fuel)%nat ->
  (forall b l', mv l l' -> Q (b, l')) -> wp (scan_decimal_digits source fuel l) Q.
Proof using Hsource.
  revert l. induction fuel as [|f IH]; intros l Hl Hf HQ; [lia|]. cbn [scan_decimal_digits].
  apply wp_bind. apply wp_char; [done|]. intros c _ _ E1.
  destruct ((48 <=? c) && (c <=? 57)) eqn:E.
  - assert (current l < len)%nat by (apply E1; intros ->; done).
    apply wp_bind. apply wp_advance; [done|]. intros l1 H1 Hc. apply IH; [lia|lia|].
    intros b l2 H2. apply HQ. by eapply mv_trans.
  - destruct (Z.eqb_spec c 95) as [->|]; [|by apply HQ, mv_refl].
    assert (current l < len)%nat by (by apply E1).
    apply wp_bind. apply wp_char; [lia|]. intros c2 _ _ _. apply wp_bind.
    apply wp_advance; [done|]. intros l1 H1 Hc. destruct ((c2 <? 48) || (c2 >? 57)); [by apply HQ|].
    apply IH; [lia|lia|]. intros b l2 H2. apply HQ. by eapply mv_trans.
Qed.

(** ** Every scan ends in a token at the cursor *)

Definition scans (l : DiamondLexer) (o : option (DiamondToken * DiamondLexer)) : Prop :=
  wp o (fun r => mv l (snd r) /\ exists k, k <> DIAMOND_TOKEN_EOF /\ fst r = token (snd r) k).

Lemma scans_done l l' k : mv l l' -> k <> DIAMOND_TOKEN_EOF -> scans l (done_ l' k).
Proof using Type. intros. split; [done|]. by exists k. Qed.

Lemma scans_mv l l1 o : mv l l1 -> scans l1 o -> scans l o.
Proof using Type.
  intros H Hs. eapply wp_mono; [exact Hs|]. intros r [Hr Hk]. split; [|done]. by eapply mv_trans.
Qed.

Lemma scans_prefixed_digits fuel base l :
  base = 16 \/ base = 8 \/ base = 2 ->
  (current l <= len)%nat -> (len - current l < fuel)%nat -> scans l (prefixed_digits source fuel base l).
Proof using Hsource.
  intros Hb. assert (Hz : is_base_digit 0 base = false) by (by destruct Hb as [->|[->| ->]]).
  revert l. induction fuel as [|f IH]; intros l Hl Hf; [lia|]. cbn [prefixed_digits].
  apply wp_bind. apply wp_char; [done|]. intros c _ _ E1. destruct (is_base_digit c base) eqn:E.
  - assert (current l < len)%nat by (apply E1; congruence).
    apply wp_bind. apply wp_advance; [done|]. intros l1 H1 Hc.
    apply (scans_mv l l1 _ H1). apply IH; lia.
  - destruct (Z.eqb_spec c 95) as [->|]; [|by apply scans_done; [apply mv_refl|]].
    apply wp_bind. apply wp_advance; [by apply E1|]. intros l1 H1 Hc.
    apply wp_bind. apply wp_char; [by eapply mv_bound|]. intros c2 _ _ _.
    destruct (is_base_digit c2 base); cbn [negb]; [|by apply scans_done].
    assert (current l < len)%nat by (by apply E1).
    apply (scans_mv l l1 _ H1). apply IH; lia.
Qed.

Lemma wp_fraction l (Q : option bool * DiamondLexer -> Prop) :
  (current l <= len)%nat -> (forall b l', mv l l' -> Q (b, l')) -> wp (scan_fraction source l) Q.
Proof using Hsource.
  intros Hl HQ. unfold scan_fraction. apply wp_bind. apply wp_char; [done|]. intros c _ _ E1.
  destruct (Z.eqb_spec c 46) as [->|]; [|by apply HQ, mv_refl].
  assert (current l < len)%nat by (by apply E1). apply wp_bind. apply wp_char; [lia|].
  intros c2 _ _ _. destruct (isdecimal c2); [|by apply HQ, mv_refl].
  apply wp_bind. apply wp_advance; [done|]. intros l1 H1 Hc. apply wp_bind.
  apply wp_decimal_digits; [lia|unfold loop_fuel; lia|]. intros b l2 H2. apply HQ.
  by eapply mv_trans.
Qed.

Lemma wp_exponent l (Q : option bool * DiamondLexer -> Prop) :
  (current l <= len)%nat -> (forall b l', mv l l' -> Q (b, l')) -> wp (scan_exponent source l) Q.
Proof using Hsource.
  intros Hl HQ. unfold scan_exponent. apply wp_bind. apply wp_char; [done|]. intros c _ _ E1.
  destruct ((c =? 101) || (c =? 69)) eqn:E; [|by apply HQ, mv_refl].
  assert (current l < len)%nat by (apply E1; intros ->; done).
  apply wp_bind. apply wp_char; [lia|]. intros sg _ _ F1. cbv zeta. apply wp_bind.
  apply wp_char.
  { destruct (is_sign sg) eqn:Es; [|lia]. assert (S (current l) < len)%nat; [|lia].
    apply F1. intros ->. done. }
  intros dg _ _ _. destruct (isdecimal dg); [|by apply HQ, mv_refl].
  apply wp_bind. apply wp_advance; [done|]. intros l1 H1 Hc. apply wp_bind.
  apply wp_advance_if; [lia|done|]. intros l2 H2. apply wp_bind.
  pose proof (mv_bound _ _ H2).
  apply wp_decimal_digits; [lia|unfold loop_fuel; lia|]. intros b l3 H3. apply HQ.
  eapply mv_trans; [exact H1|]. by eapply mv_trans.
Qed.

Lemma scans_number l : (current l <= len)%nat -> scans l (scan_number source l).
Proof using Hsource.
  intros Hl. unfold scan_number. apply wp_bind.
  apply wp_decimal_digits; [done|unfold loop_fuel; lia|]. intros ok l1 H1.
  destruct ok; cbn [negb]; [|by apply scans_done].
  apply wp_bind. apply wp_fraction; [by eapply mv_bound|]. intros fr l2 H2.
  assert (H02 : mv l l2) by (by eapply mv_trans).
  destruct fr as [fl|]; [|by apply scans_done].
  apply wp_bind. apply wp_exponent; [by eapply mv_bound|]. intros ex l3 H3.
  assert (H03 : mv l l3) by (by eapply mv_trans).
  destruct ex as [e|]; [|by apply scans_done]. apply scans_done; [done|]. by destruct (fl || e).
Qed.


Lemma wp_advance_escaped l (Q : DiamondLexer -> Prop) :
  (current l < len)%nat -> (forall l', mv l l' -> (current l < current l')%nat -> Q l') ->
  wp (advance_escaped source l) Q.
Proof using Hsource.
  intros Hl HQ. unfold advance_escaped. apply wp_bind. apply wp_char; [lia|]. intros c _ _ E1.
  assert (Hlast : forall l1, mv l l1 -> (current l1 < len)%nat ->
    wp (let? (_, lexer) := advance l1 in Some lexer) Q).
  { intros l1 H1 Hlt. apply wp_bind. apply wp_advance; [done|]. intros l2 H2 Hc.
    destruct H1 as (? & ?). apply HQ; [by eapply mv_trans|lia]. }
  destruct (Z.eqb_spec c 92) as [->|].
  - apply wp_bind. apply wp_bind. apply wp_char; [lia|]. intros c2 _ _ F1.
    destruct (Z.eqb_spec c2 0) as [->|Hc2]; cbn [negb].
    + apply Hlast; [apply mv_refl; lia|done].
    + apply wp_bind. apply wp_advance; [done|]. intros l1 H1 Hc. apply Hlast; [done|].
      specialize (F1 Hc2). lia.
  - apply (Hlast l); [apply mv_refl; lia|done].
Qed.

Lemma wp_embedded_string fuel l (Q : DiamondLexer -> Prop) :
  (current l <= len)%nat -> (len - current l < fuel)%nat -> (forall l', mv l l' -> Q l') ->
  wp (skip_embedded_string source fuel l) Q.
Proof using Hsource.
  revert l. induction fuel as [|f IH]; intros l Hl Hf HQ; [lia|]. cbn [skip_embedded_string].
  apply wp_bind. apply wp_char; [done|]. intros c _ _ E1.
  destruct (negb (c =? 0) && negb (c =? 34)) eqn:E; [|by apply HQ, mv_refl].
  assert (current l < len)%nat by (apply E1; intros ->; done).
  apply wp_bind. apply wp_advance_escaped; [done|]. intros l1 H1 Hc.
  pose proof (mv_bound _ _ H1). apply IH; [lia|lia|]. intros l2 H2. apply HQ. by eapply mv_trans.
Qed.

Lemma wp_interpolation fuel depth l (Q : Z * DiamondLexer -> Prop) :
  (current l <= len)%nat -> (len - current l < fuel)%nat ->
  (forall d l', mv l l' -> Q (d, l')) -> wp (skip_interpolation source fuel depth l) Q.
Proof using Hsource.
  revert depth l. induction fuel as [|f IH]; intros depth l Hl Hf HQ; [lia|].
  cbn [skip_interpolation]. apply wp_bind. apply wp_char; [done|]. intros c _ _ E1.
  destruct (negb (c =? 0) && (depth >? 0)) eqn:E; [|by apply HQ, mv_refl].
  assert (current l < len)%nat by (apply E1; intros ->; done).
  apply wp_bind. apply wp_advance; [done|]. intros l1 H1 Hc.
  assert (Hrec : forall d l2, mv l1 l2 -> wp (skip_interpolation source f d l2) Q).
  { intros d l2 H2. pose proof (mv_bound _ _ H2). destruct H2 as (Hle & Hrest) eqn:?.
    apply IH; [lia|lia|]. intros d' l3 H3. apply HQ. eapply mv_trans; [exact H1|].
    by eapply mv_trans. }
  pose proof (mv_refl l1 (mv_bound _ _ H1)) as Hrefl. cbv beta iota.
  destruct (_ =? 34).
  - apply wp_bind. apply wp_embedded_string; [lia|unfold loop_fuel; lia|]. intros l2 H2.
    apply wp_bind. apply wp_advance_if; [by eapply mv_bound|done|]. intros l3 H3.
    apply Hrec. by eapply mv_trans.
  - destruct (_ =? 123); [by apply Hrec|]. destruct (_ =? 125); by apply Hrec.
Qed.

Lemma scans_string fuel l :
  (current l <= len)%nat -> (len - current l < fuel)%nat -> scans l (scan_string source fuel l).
Proof using Hsource.
  revert l. induction fuel as [|f IH]; intros l Hl Hf; [lia|]. cbn [scan_string].
  apply wp_bind. apply wp_char; [done|]. intros c Ec E0 E1.
  destruct (negb (c =? 0) && negb (c =? 34)) eqn:E.
  2:{ destruct (Z.eqb_spec c 0) as [->|Hc0]; [by apply scans_done; [apply mv_refl|]|].
      apply wp_bind. apply wp_advance; [by apply E1|]. intros l1 H1 _. by apply scans_done. }
  assert (Hlt : (current l < len)%nat) by (apply E1; intros ->; done).
  apply wp_bind.
  assert (Hopens : forall Q : bool -> Prop,
    ((S (current l) < len)%nat -> Q true) -> Q false ->
    wp (if c =? 35 then let? next := char_at (S (current l)) in Some (next =? 123)
        else Some false) Q).
  { intros Q HT HF. destruct (c =? 35); [|done]. apply wp_bind. apply wp_char; [lia|].
    intros c2 _ _ F1. simpl. destruct (Z.eqb_spec c2 123) as [->|]; [|done]. apply HT. by apply F1. }
  apply Hopens.
  - intros Hlt2. apply wp_bind. apply wp_advance; [done|]. intros l1 H1 C1. apply wp_bind.
    apply wp_advance; [lia|]. intros l2 H2 C2. apply wp_bind.
    pose proof (mv_bound _ _ H2).
    apply wp_interpolation; [lia|unfold loop_fuel; lia|]. intros d l3 H3.
    assert (H03 : mv l l3) by (eapply mv_trans; [exact H1|]; by eapply mv_trans).
    destruct (d =? 0); cbn [negb]; [|by apply scans_done].
    apply (scans_mv l l3 _ H03). pose proof (mv_bound _ _ H3). destruct H3 as (Hle & _).
    apply IH; lia.
  - apply wp_bind. apply wp_advance_escaped; [done|]. intros l1 H1 C1.
    apply (scans_mv l l1 _ H1). pose proof (mv_bound _ _ H1). apply IH; lia.
Qed.

Lemma wp_symbol_suffix l (Q : DiamondLexer -> Prop) :
  (current l <= len)%nat -> (forall l', mv l l' -> Q l') -> wp (symbol_suffix source l) Q.
Proof using Hsource.
  intros Hl HQ. unfold symbol_suffix. apply wp_bind. apply wp_char; [done|]. intros c _ _ E1.
  assert (Hadv : c <> 0 -> wp (let? (_, lexer) := advance l in Some lexer) Q).
  { intros H0. apply wp_bind. apply wp_advance; [by apply E1|]. intros l' H' _. by apply HQ. }
  destruct (is_suffix c) eqn:Es; [apply Hadv; intros ->; done|].
  destruct (Z.eqb_spec c 61) as [->|]; [|by apply HQ, mv_refl].
  assert (current l < len)%nat by (by apply E1). apply wp_bind. apply wp_char; [lia|].
  intros c2 _ _ _. destruct (negb (c2 =? 61) && negb (c2 =? 62) && negb (c2 =? 126));
    [by apply Hadv|by apply HQ, mv_refl].
Qed.

Lemma scans_colon l :
  (start l <= current l <= len)%nat -> scans l (scan_colon source l).
Proof using Hsource.
  intros Hl. unfold scan_colon. apply wp_bind. apply wp_match_char; [lia|done|].
  intros [] l1 H1; [by apply scans_done|]. pose proof (mv_bound _ _ H1).
  assert (Hglued : forall Q : bool -> Prop, (forall b, Q b) ->
    wp (if (0 <? start l1)%nat then
       let? before := char_at (start l1 - 1) in
       Some (identifier_part before || (before =? 41) || (before =? 93) || (before =? 125) ||
             (before =? 34))
     else Some false) Q).
  { intros Q HQ. destruct (0 <? start l1)%nat; [|apply HQ]. apply wp_bind.
    destruct H1 as (_ & -> & _). apply wp_char; [lia|]. intros. apply HQ. }
  apply wp_bind. apply Hglued. intros glued. apply wp_bind. apply wp_char; [done|]. intros c _ _ _.
  destruct (negb glued && identifier_start c); [|by apply scans_done].
  apply wp_bind. apply wp_advance_while; [done|unfold loop_fuel; lia|done|]. intros l2 H2 _ _.
  assert (H02 : mv l l2) by (by eapply mv_trans).
  apply wp_bind. apply wp_symbol_suffix; [by eapply mv_bound|]. intros l3 H3.
  apply scans_done; [by eapply mv_trans|done].
Qed.

Lemma scans_either l l1 e k1 k2 :
  mv l l1 -> e <> 0 -> k1 <> DIAMOND_TOKEN_EOF -> k2 <> DIAMOND_TOKEN_EOF ->
  scans l (either source l1 e k1 k2).
Proof using Hsource.
  intros H1 He Hk1 Hk2. unfold either. apply wp_bind.
  apply wp_match_char; [by eapply mv_bound|done|]. intros b l2 H2.
  apply scans_done; [by eapply mv_trans|]. by destruct b.
Qed.

(** An optional second character, then two scans. *)
Lemma scans_match l e o1 o2 :
  (current l <= len)%nat -> e <> 0 ->
  (forall l1, mv l l1 -> scans l (o1 l1)) -> (forall l1, mv l l1 -> scans l (o2 l1)) ->
  scans l (let? (b, l1) := match_char source l e in if b : bool then o1 l1 else o2 l1).
Proof using Hsource.
  intros Hl He H1 H2. apply wp_bind. apply wp_match_char; [done|done|].
  intros [] l1 Hm; [by apply H1|by apply H2].
Qed.

Lemma scans_punctuation c l :
  (start l <= current l <= len)%nat -> scans l (scan_punctuation source c l).
Proof using Hsource.
  intros Hl. assert (Hr : mv l l) by (apply mv_refl; lia).
  unfold scan_punctuation.
  repeat match goal with
  | |- scans _ (if ?b then _ else _) => destruct b
  | |- scans _ (done_ _ _) => by apply scans_done
  | |- scans _ (either _ _ _ _ _) => by apply scans_either
  | |- scans _ (scan_colon _ _) => by apply scans_colon
  | |- scans _ (let? _ := match_char _ _ _ in _) =>
      apply scans_match; [lia|done|intros|intros]
  end.
  apply wp_bind.
  assert (Hre : forall Q : bool * DiamondLexer -> Prop, (forall b l', mv l l' -> Q (b, l')) ->
    wp (if regex_allowed l then scan_regex_literal source l else Some (false, l)) Q).
  { intros Q HQ. destruct (regex_allowed l); [apply wp_scan_regex; [lia|done]|by apply HQ]. }
  apply Hre. intros [] l1 H1; [by apply scans_done|by apply scans_either].
Qed.

Lemma wp_identifier_kind l (Q : DiamondTokenKind -> Prop) :
  (current l <= len)%nat -> (forall k, k <> DIAMOND_TOKEN_EOF -> Q k) ->
  wp (identifier_kind source l) Q.
Proof using Hsource.
  intros Hl HQ. unfold identifier_kind.
  destruct (find _ keywords) as [[t k]|] eqn:Ef.
  - apply HQ. apply find_some in Ef as [Hin _].
    repeat (destruct Hin as [[= _ <-]|Hin]; [done|]). destruct Hin.
  - destruct (text_equals source l (bytes "sealed")); [|by apply HQ].
    apply wp_bind. apply wp_followed_by_class; [done|]. intros []; by apply HQ.
Qed.

Lemma scans_identifier l : (current l <= len)%nat -> scans l (scan_identifier source l).
Proof using Hsource.
  intros Hl. unfold scan_identifier. apply wp_bind.
  apply wp_advance_while; [done|unfold loop_fuel; lia|done|]. intros l1 H1 _ _.
  apply wp_bind. apply wp_advance_if; [by eapply mv_bound|done|]. intros l2 H2.
  apply wp_bind. apply wp_identifier_kind; [by eapply mv_bound|]. intros k Hk.
  apply scans_done; [by eapply mv_trans|done].
Qed.

Lemma wp_variable l (Q : option (DiamondToken * DiamondLexer) -> Prop) :
  (current l <= len)%nat -> Q None ->
  (forall l' k, mv l l' -> k <> DIAMOND_TOKEN_EOF -> Q (Some (token l' k, l'))) ->
  wp (scan_variable source l) Q.
Proof using Hsource.
  intros Hl HN HQ. unfold scan_variable. apply wp_bind. apply wp_char; [done|]. intros c _ _ E1.
  assert (Hcv : forall P : bool -> Prop, ((current l < len)%nat -> P true) -> P false ->
    wp (if c =? 64 then let? next := char_at (S (current l)) in Some (identifier_start next)
        else Some false) P).
  { intros P HT HF. destruct (Z.eqb_spec c 64) as [->|]; [|done].
    assert (current l < len)%nat by (by apply E1). apply wp_bind. apply wp_char; [lia|].
    intros c2 _ _ _. simpl. destruct (identifier_start c2); auto. }
  apply wp_bind. apply Hcv.
  - intros Hlt. apply wp_bind. apply wp_advance; [done|]. intros l1 H1 C1. apply wp_bind.
    apply wp_advance_while; [lia|unfold loop_fuel; lia|done|]. intros l2 H2 _ _.
    apply HQ; [by eapply mv_trans|done].
  - destruct (identifier_start c); [|done]. apply wp_bind.
    apply wp_advance_while; [lia|unfold loop_fuel; lia|done|]. intros l2 H2 _ _. by apply HQ.
Qed.

Lemma wp_prefixed_integer l (Q : option (DiamondToken * DiamondLexer) -> Prop) :
  (current l <= len)%nat -> Q None ->
  (forall l' k, mv l l' -> k <> DIAMOND_TOKEN_EOF -> Q (Some (token l' k, l'))) ->
  wp (scan_prefixed_integer source l) Q.
Proof using Hsource.
  intros Hl HN HQ. unfold scan_prefixed_integer. apply wp_bind. apply wp_char; [done|].
  intros c _ _ E1. cbv zeta. destruct (Z.eqb_spec (prefix_base c) 0) as [|Hb]; [done|].
  assert (Hlt : (current l < len)%nat) by (apply E1; intros ->; done).
  assert (Hbase : prefix_base c = 16 \/ prefix_base c = 8 \/ prefix_base c = 2).
  { unfold prefix_base in *. destruct ((c =? 120) || (c =? 88)); [auto|].
    destruct ((c =? 98) || (c =? 66)); [auto|]. destruct ((c =? 111) || (c =? 79)); auto. done. }
  apply wp_bind. apply wp_char; [lia|]. intros c2 _ _ _.
  destruct (is_base_digit c2 (prefix_base c)); [|done].
  apply wp_bind. apply wp_advance; [done|]. intros l1 H1 C1. apply wp_bind.
  eapply wp_mono; [apply scans_prefixed_digits; [exact Hbase|lia|unfold loop_fuel; lia]|].
  intros [t l2] [H2 (k & Hk & Et)]. simpl in *. subst t. apply HQ; [by eapply mv_trans|done].
Qed.


Lemma scans_character c l :
  (start l <= current l <= len)%nat -> scans l (scan_character source c l).
Proof using Hsource.
  intros Hl. unfold scan_character. apply wp_bind.
  assert (Hpre : forall Q : option (DiamondToken * DiamondLexer) -> Prop, Q None ->
    (forall l' k, mv l l' -> k <> DIAMOND_TOKEN_EOF -> Q (Some (token l' k, l'))) ->
    wp (if c =? 48 then scan_prefixed_integer source l else Some None) Q).
  { intros Q HN HQ. destruct (c =? 48); [apply wp_prefixed_integer; [lia|done|done]|done]. }
  apply Hpre; [|intros l' k H' Hk; split; [done|by exists k]].
  destruct (isdecimal c); [apply scans_number; lia|].
  destruct (c =? 34); [apply scans_string; [lia|unfold loop_fuel; lia]|].
  destruct (identifier_start c); [apply scans_identifier; lia|].
  apply wp_bind.
  assert (Hvar : forall Q : option (DiamondToken * DiamondLexer) -> Prop, Q None ->
    (forall l' k, mv l l' -> k <> DIAMOND_TOKEN_EOF -> Q (Some (token l' k, l'))) ->
    wp (if c =? 64 then scan_variable source l else Some None) Q).
  { intros Q HN HQ. destruct (c =? 64); [apply wp_variable; [lia|done|done]|done]. }
  apply Hvar; [by apply scans_punctuation|]. intros l' k H' Hk. split; [done|by exists k].
Qed.

(** ** What lies between tokens

    Blanks, newlines, and comments up to the end of their line. *)
Inductive blank_between : nat -> nat -> Prop :=
  | blank_refl i : blank_between i i
  | blank_space i j c :
      nth i source 0 = c -> (i < len)%nat -> c = 32 \/ c = 9 \/ c = 13 \/ c = 10 ->
      blank_between (S i) j -> blank_between i j
  | blank_comment i k j :
      nth i source 0 = 35 -> (i < k <= len)%nat ->
      (forall m, (i <= m < k)%nat -> nth m source 0 <> 10) ->
      k = len \/ nth k source 0 = 10 ->
      blank_between k j -> blank_between i j.

Lemma blank_trans i j k : blank_between i j -> blank_between j k -> blank_between i k.
Proof using Type.
  induction 1 as [|i j c Hc Hi Hw H IH|i m j Hc Hm Hno Hend H IH]; intros H2; [done| |].
  - eapply blank_space; eauto.
  - eapply blank_comment; eauto.
Qed.

Lemma wp_skip_whitespace fuel l (Q : DiamondLexer -> Prop) :
  (current l <= len)%nat -> (len - current l < fuel)%nat ->
  (forall l', mv l l' -> blank_between (current l) (current l') -> Q l') ->
  wp (skip_whitespace_and_comments source fuel l) Q.
Proof using Hsource.
  revert l. induction fuel as [|f IH]; intros l Hl Hf HQ; [lia|].
  cbn [skip_whitespace_and_comments]. apply wp_bind. apply wp_char; [done|]. intros c Ec E0 E1.
  destruct (Z.eqb_spec c 0) as [|H0]; [apply HQ; [by apply mv_refl|constructor]|].
  assert (Hlt : (current l < len)%nat) by auto.
  destruct ((c =? 32) || (c =? 9) || (c =? 13)) eqn:E.
  { apply wp_bind. apply wp_advance; [done|]. intros l1 H1 C1. apply IH; [lia|lia|].
    intros l2 H2 B2. apply HQ; [by eapply mv_trans|].
    apply (blank_space _ _ c); [done|done| |by rewrite <- C1].
    apply orb_true_iff in E as [E|E%Z.eqb_eq]; [|auto].
    apply orb_true_iff in E as [E%Z.eqb_eq|E%Z.eqb_eq]; auto. }
  destruct (Z.eqb_spec c 35) as [->|]; [|apply HQ; [by apply mv_refl|constructor]].
  apply wp_bind.
  assert (Hreset : forall P : DiamondLexer -> Prop,
    (forall l1, mv l l1 -> current l1 = current l -> P l1) -> wp (line_reset source l) P).
  { intros P HP. unfold line_reset. apply wp_bind.
    apply wp_text_at; [apply cstring_bytes_line|done|]. intros b Hb.
    destruct b; [|by apply HP; [apply mv_refl|]]. specialize (Hb eq_refl). apply wp_bind.
    apply wp_char; [exact Hb|]. intros a _ _ _. simpl.
    destruct ((a =? 10) || (a =? 0)); [apply HP; [by repeat split|done]|by apply HP; [apply mv_refl|]]. }
  apply Hreset. intros l1 H1 C1. apply wp_bind.
  apply wp_advance_while; [lia|unfold loop_fuel; lia|done|]. intros l2 H2 Hend Hall.
  pose proof (mv_bound _ _ H2) as Hb2.
  assert (Hmoved : (current l < current l2)%nat).
  { destruct H2 as (Hle & _). destruct (decide (current l2 = current l)) as [Eq|]; [|lia].
    rewrite Eq, <- Ec in Hend. done. }
  apply IH; [lia|lia|]. intros l3 H3 B3.
  apply HQ; [eapply mv_trans; [exact H1|]; by eapply mv_trans|].
  apply (blank_comment _ (current l2)); [done|lia| | |done].
  - intros m Hm Em. specialize (Hall m ltac:(lia)). rewrite Em in Hall. done.
  - destruct (decide (current l2 = len)) as [|Hne]; [by left|right].
    destruct (lookup_lt_is_Some_2 source (current l2) ltac:(lia)) as [x Hx].
    rewrite nth_lookup, Hx in *. simpl in *.
    pose proof (Forall_lookup_1 _ _ _ _ Hsource Hx) as Hxr. simpl in Hxr.
    destruct (Z.eqb_spec x 10); [done|]. destruct (Z.eqb_spec x 0); [lia|done].
Qed.

(** What one call of the lexer guarantees, from the cursor [i]. *)
Definition next_token (i : nat) (t : DiamondToken) (l' : DiamondLexer) : Prop :=
  blank_between i (span_start (span t)) /\ (i <= span_start (span t))%nat /\
  (span_start (span t) + span_length (span t) = current l')%nat /\
  (current l' <= len)%nat /\
  ((kind t = DIAMOND_TOKEN_EOF /\ span_length (span t) = 0%nat /\ current l' = len) \/
   (kind t <> DIAMOND_TOKEN_EOF /\ (0 < span_length (span t))%nat)).

Lemma lexer_scan_next fuel l :
  (current l <= len)%nat -> (len - current l < fuel)%nat ->
  wp (lexer_scan source fuel l) (fun r => next_token (current l) (fst r) (snd r)).
Proof using Hsource.
  revert l. induction fuel as [|f IH]; intros l Hl Hf; [lia|]. cbn [lexer_scan].
  apply wp_bind. apply wp_skip_whitespace; [done|unfold loop_fuel; lia|]. intros l1 H1 B1. cbv zeta.
  pose proof (mv_bound _ _ H1) as Hb1. destruct H1 as (Hle & _).
  set (l2 := begin_token l1). change (current l1) with (current l2) in *.
  unfold at_end. apply wp_bind. apply wp_bind. apply wp_char; [done|]. intros c Ec E0 E1.
  cbn [wp]. destruct (Z.eqb_spec c 0) as [Hc|Hc].
  { cbn [wp done_]. unfold next_token, token. cbn [fst snd span kind span_start span_length].
    change (start l2) with (current l2).
    specialize (E0 Hc). split; [done|]. split; [lia|]. split; [lia|].
    split; [done|]. left. split; [done|]. split; [lia|done]. }
  specialize (E1 Hc). apply wp_bind. apply wp_advance; [done|]. intros l3 H3 C3.
  rewrite <- Ec. cbv beta iota.
  assert (Hscan : forall o, scans l3 o ->
    wp o (fun r => next_token (current l) (fst r) (snd r))).
  { intros o Ho. eapply wp_mono; [exact Ho|]. intros [t l4] [H4 (k & Hk & Et)].
    cbn [fst snd] in *. subst t. pose proof (mv_bound _ _ H4).
    destruct H3 as (_ & S3 & _), H4 as (L4 & S4 & _).
    unfold next_token, token. cbn [span kind span_start span_length].
    rewrite S4, S3. change (start l2) with (current l2).
    split; [done|]. split; [lia|]. split; [lia|]. split; [done|]. right. split; [done|lia]. }
  assert (Hl3 : (start l3 <= current l3 <= len)%nat).
  { pose proof (mv_bound _ _ H3). destruct H3 as (_ & -> & _). change (start l2) with (current l2). lia. }
  destruct (Z.eqb_spec c 10) as [->|]; [|by apply Hscan, scans_character].
  apply wp_bind. unfold newline_continues_chain.
  apply wp_newline_continues; [lia|unfold loop_fuel; lia|]. intros [].
  - apply wp_bind. eapply wp_mono; [apply (IH l3); lia|]. intros [t l4] (B & R1 & R2 & R3 & R4).
    cbn [fst snd wp] in *. split; [|split; [lia|]].
    + eapply blank_trans; [exact B1|]. apply (blank_space _ _ 10); [done|done|auto|].
      by rewrite <- C3.
    + split; [done|]. split; [done|]. exact R4.
  - apply Hscan. apply scans_done; [apply mv_refl; lia|done].
Qed.

Lemma diamond_lexer_next_token l :
  (current l <= len)%nat ->
  wp (diamond_lexer_next source l) (fun r => next_token (current l) (fst r) (snd r)).
Proof using Hsource.
  intros Hl. unfold diamond_lexer_next. apply wp_bind.
  eapply wp_mono; [apply lexer_scan_next; [done|unfold loop_fuel; lia]|].
  intros [t l'] H. exact H.
Qed.

(** From byte [i] on, the source is blanks and the tokens' texts, in order, up
    to the end-of-file token at its end. *)
Inductive tiles : nat -> list DiamondToken -> Prop :=
  | tiles_eof i t :
      blank_between i len -> kind t = DIAMOND_TOKEN_EOF ->
      span_start (span t) = len -> span_length (span t) = 0%nat -> tiles i [t]
  | tiles_token i t ts :
      kind t <> DIAMOND_TOKEN_EOF -> blank_between i (span_start (span t)) ->
      (0 < span_length (span t))%nat ->
      (span_start (span t) + span_length (span t) <= len)%nat ->
      tiles (span_start (span t) + span_length (span t)) ts -> tiles i (t :: ts).

Lemma tokenize_tiles fuel l :
  (current l <= len)%nat -> (len - current l < fuel)%nat ->
  wp (tokenize source fuel l) (tiles (current l)).
Proof using Hsource.
  revert l. induction fuel as [|f IH]; intros l Hl Hf; [lia|]. cbn [tokenize].
  apply wp_bind. eapply wp_mono; [by apply diamond_lexer_next_token|].
  intros [t l'] (B & R1 & R2 & R3 & R4). cbn [fst snd] in *.
  destruct R4 as [(Ek & El & Ec)|[Hk Hlen]].
  - rewrite Ek. cbn [wp]. assert (E : span_start (span t) = len) by lia.
    apply tiles_eof; [by rewrite <- E|done|done|done].
  - assert (Hrec : wp (let? rest := tokenize source f l' in Some (t :: rest)) (tiles (current l))).
    { apply wp_bind. eapply wp_mono; [apply (IH l'); lia|]. intros ts Hts. cbn [wp].
      rewrite <- R2 in Hts. apply tiles_token; [done|done|done|lia|done]. }
    destruct (kind t); (exact Hrec || done).
Qed.

End Safety.

(** ** Theorems *)

(** C19: Tokenizing any source text ends, never reads a byte past its terminator,
    and loses nothing: from the first byte to the end of file, every byte of the
    source lies in exactly one token's span or in the blanks and comments
    between two tokens, and every token but the last is non-empty. *)
Theorem tokenize_source source :
  cstring source ->
  exists tokens, tokenize source (S (length source)) diamond_lexer_init = Some tokens /\
    tiles source 0 tokens.
Proof.
  intros Hs. apply wp_some.
  apply (tokenize_tiles source Hs (S (length source)) diamond_lexer_init); simpl; lia.
Qed.

Definition example_source : list Z := bytes "x = 0x1F + y.foo? # note".

Lemma tokenize_source_witness :
  exists tokens, tokenize example_source 25 diamond_lexer_init = Some tokens /\
    tiles example_source 0 tokens.
Proof.
  apply (tokenize_source example_source).
  unfold example_source.
  match goal with |- cstring (bytes ?s) =>
    let b := eval vm_compute in (bytes s) in change (bytes s) with b end.
  repeat (constructor; [lia|]). constructor.
Defined.

(** A regex literal broken over two lines by a trailing backslash. *)
Definition broken_regex : list Z := [47; 97; 92; 10; 98; 47].

(** A backslash at the end of a line hides the newline from
    [scan_regex_literal]: a literal that is closed on the next line is accepted
    as one REGEX token, although it is not closed on its own line. *)
Theorem regex_literal_crosses_line :
  exists t l', diamond_lexer_next broken_regex diamond_lexer_init = Some (t, l') /\
    kind t = DIAMOND_TOKEN_REGEX /\ span_length (span t) = length broken_regex /\
    nth 3 broken_regex 0 = 10 /\ line l' = 2.
Proof. eexists _, _. split; [vm_compute; reflexivity|]. done. Qed.

(** A comment that merely starts with [#line 1], such as [#line 12], stops a
    method chain from continuing on the next line, where any other comment
    does not. *)
Theorem line_comment_ends_chain :
  let chain comment := bytes "a" ++ [10] ++ bytes comment ++ [10] ++ bytes ".b" in
  match tokenize (chain "#line 12"%string) 20 diamond_lexer_init,
        tokenize (chain "#lines"%string) 20 diamond_lexer_init with
  | Some t1, Some t2 =>
      (exists t, In t t1 /\ kind t = DIAMOND_TOKEN_NEWLINE) /\
      (forall t, In t t2 -> kind t <> DIAMOND_TOKEN_NEWLINE)
  | _, _ => False
  end.
Proof.
  vm_compute. split.
  - eexists. split; [right; left; reflexivity|reflexivity].
  - intros t H. repeat (destruct H as [<-|H]; [done|]). destruct H.
Qed.
