(* ===== verification/RegexExec.v ===== *)
(** * RegexExec: the NFA simulations of the regex engine (reginold/exec.c)

    The graph of reginold/nfa.h is its arena: a state is named by its index,
    which is its [id]; a null pointer is [None].  Tier 1 is the Thompson
    simulation with a visited bitset, Tier 2 the tagged simulation that carries a
    register vector per state.

    The recursion of the epsilon closure carries a fuel.  In Tier 1 every nested
    call marks a new state, so [S num_states] levels are enough on any graph; in
    Tier 2 nothing bounds it, and a graph with an epsilon cycle exhausts every
    fuel. *)

From S2P Require Import Prelude CText Value.
From Stdlib Require Import ZArith Lia Bool List.
From stdpp Require Import base numbers list.

Local Open Scope Z_scope.
Local Open Scope c_scope.

Inductive NfaAnchorType :=
  | NFA_ANCH_BOL | NFA_ANCH_EOL | NFA_ANCH_BOF | NFA_ANCH_EOF | NFA_ANCH_SEOF
  | NFA_ANCH_WBOUND | NFA_ANCH_NWBOUND | NFA_ANCH_POS.

Inductive CType :=
  | CTYPE_WORD | CTYPE_DIGIT | CTYPE_SPACE | CTYPE_UPPER | CTYPE_LOWER | CTYPE_ALPHA
  | CTYPE_ALNUM | CTYPE_PRINT | CTYPE_PUNCT | CTYPE_CNTRL | CTYPE_XDIGIT
  | CTYPE_OTHER (ctype : Z).

(** The state types with the payload of their union member. *)
Inductive NfaStateType :=
  | NFA_ACCEPT
  | NFA_SPLIT
  | NFA_CHAR (byte : Z)
  | NFA_CHARCLASS (bitmap : list Z) (negative : bool)
  | NFA_ANY
  | NFA_ANY_ML
  | NFA_CTYPE (ctype : CType) (negative : bool)
  | NFA_ANCHOR (which : NfaAnchorType)
  | NFA_SAVE (save_idx : Z).

Record NfaState := { type : NfaStateType; out1 : option nat; out2 : option nat }.

Record NfaGraph := {
  g_start : nat;
  g_accept : nat;
  num_saves : nat;
  arena : list NfaState;
}.

Definition num_states (g : NfaGraph) : nat := length (arena g).

(** ** Characters and anchors *)

Definition cclass_matches_byte (bitmap : list Z) (negative : bool) (byte : Z) : bool :=
  let word := Z.to_nat (byte / 32) in
  let bit := byte mod 32 in
  let hit := negb (Z.land (Z.shiftr (nth word bitmap 0) bit) 1 =? 0) in
  if negative then negb hit else hit.

Definition isupper (c : Z) : bool := (65 <=? c) && (c <=? 90).
Definition islower (c : Z) : bool := (97 <=? c) && (c <=? 122).
Definition isprint (c : Z) : bool := (32 <=? c) && (c <=? 126).
Definition iscntrl (c : Z) : bool := (c <=? 31) || (c =? 127).
Definition ispunct (c : Z) : bool := isprint c && negb (isalnum c) && negb (c =? 32).
Definition isxdigit (c : Z) : bool :=
  isdigit c || ((65 <=? c) && (c <=? 70)) || ((97 <=? c) && (c <=? 102)).
Definition is_word (c : Z) : bool := isalnum c || (c =? 95).

Definition ctype_matches_byte (ctype : CType) (negative : bool) (byte : Z) : bool :=
  let r :=
    match ctype with
    | CTYPE_WORD => is_word byte
    | CTYPE_DIGIT => isdigit byte
    | CTYPE_SPACE => isspace byte
    | CTYPE_UPPER => isupper byte
    | CTYPE_LOWER => islower byte
    | CTYPE_ALPHA => isalpha byte
    | CTYPE_ALNUM => isalnum byte
    | CTYPE_PRINT => isprint byte
    | CTYPE_PUNCT => ispunct byte
    | CTYPE_CNTRL => iscntrl byte
    | CTYPE_XDIGIT => isxdigit byte
    | CTYPE_OTHER _ => false
    end in
  if negative then negb r else r.

Definition state_matches_byte (s : NfaState) (byte : Z) : bool :=
  match type s with
  | NFA_CHAR b => b =? byte
  | NFA_CHARCLASS bitmap negative => cclass_matches_byte bitmap negative byte
  | NFA_ANY => negb (byte =? 10)
  | NFA_ANY_ML => true
  | NFA_CTYPE ctype negative => ctype_matches_byte ctype negative byte
  | _ => false
  end.

(** A position between characters of the subject. *)
Record AnchorCtx := { a_str : list Z; a_pos : nat }.

Definition anchor_matches (which : NfaAnchorType) (a : AnchorCtx) : bool :=
  let pos := a_pos a in
  let len := length (a_str a) in
  let at_ i := nth i (a_str a) 0 in
  let pre := (0 <? pos)%nat && is_word (at_ (pos - 1)%nat) in
  let cur := (pos <? len)%nat && is_word (at_ pos) in
  match which with
  | NFA_ANCH_BOF => (pos =? 0)%nat
  | NFA_ANCH_EOF => (pos =? len)%nat
  | NFA_ANCH_SEOF => (pos =? len)%nat || ((S pos =? len)%nat && (at_ pos =? 10))
  | NFA_ANCH_BOL => (pos =? 0)%nat || (at_ (pos - 1)%nat =? 10)
  | NFA_ANCH_EOL => (pos =? len)%nat || (at_ pos =? 10)
  | NFA_ANCH_POS => true
  | NFA_ANCH_WBOUND => negb (eqb pre cur)
  | NFA_ANCH_NWBOUND => eqb pre cur
  end.

(** ** Tier 1 *)

Record T1Set := { q : list nat; cap : nat; visited : list Z }.

Definition nvis_bytes (n_states : nat) : nat := ((n_states + 7) / 8)%nat.

Definition t1set_empty (n_states : nat) : T1Set :=
  {| q := []; cap := n_states; visited := replicate (nvis_bytes n_states) 0 |}.

Definition t1set_reset (s : T1Set) : T1Set :=
  {| q := []; cap := cap s; visited := replicate (length (visited s)) 0 |}.

(** [visited[id >> 3] & (1u << (id & 7))]. *)
Definition visited_test (s : T1Set) (id : nat) : option bool :=
  let? b := array_read (visited s) (id / 8) in
  Some (negb (Z.land b (Z.shiftl 1 (Z.of_nat (id mod 8))) =? 0)).

Definition visited_mark (s : T1Set) (id : nat) : option T1Set :=
  let? b := array_read (visited s) (id / 8) in
  let? v := array_write (visited s) (id / 8) (Z.lor b (Z.shiftl 1 (Z.of_nat (id mod 8)))) in
  Some {| q := q s; cap := cap s; visited := v |}.

(** [s->q[s->count++] = state]. *)
Definition enqueue (s : T1Set) (id : nat) : option T1Set :=
  if (length (q s) <? cap s)%nat
  then Some {| q := q s ++ [id]; cap := cap s; visited := visited s |} else None.

Fixpoint t1_eps_add (fuel : nat) (g : NfaGraph) (ctx : AnchorCtx) (s : T1Set)
    (state : option nat) : option T1Set :=
  match state with
  | None => Some s
  | Some id =>
      match fuel with
      | O => None
      | S f =>
          let? seen := visited_test s id in
          if seen : bool then Some s else
          let? s := visited_mark s id in
          let? st := array_read (arena g) id in
          match type st with
          | NFA_SPLIT =>
              let? s := t1_eps_add f g ctx s (out1 st) in
              t1_eps_add f g ctx s (out2 st)
          | NFA_SAVE _ => t1_eps_add f g ctx s (out1 st)
          | NFA_ANCHOR which =>
              if anchor_matches which ctx then t1_eps_add f g ctx s (out1 st) else Some s
          | _ => enqueue s id
          end
      end
  end.

Definition eps_fuel (g : NfaGraph) : nat := S (num_states g).

(** Advance every queued state over [byte]. *)
Fixpoint t1_step (g : NfaGraph) (ctx : AnchorCtx) (byte : Z) (queue : list nat) (nxt : T1Set)
    : option T1Set :=
  match queue with
  | [] => Some nxt
  | id :: rest =>
      let? st := array_read (arena g) id in
      let? nxt :=
        (if state_matches_byte st byte then t1_eps_add (eps_fuel g) g ctx nxt (out1 st)
         else Some nxt) in
      t1_step g ctx byte rest nxt
  end.

(** Does the queue hold an ACCEPT state? *)
Fixpoint t1_accepts (g : NfaGraph) (queue : list nat) : option bool :=
  match queue with
  | [] => Some false
  | id :: rest =>
      let? st := array_read (arena g) id in
      let? r := t1_accepts g rest in
      Some (match type st with NFA_ACCEPT => true | _ => r end)
  end.

(** [for (pos = start_pos; cur.count > 0; pos++)]; [found] is the last accepting
    position so far. *)
Fixpoint run_t1_loop (fuel : nat) (g : NfaGraph) (str : list Z) (pos : nat)
    (cur nxt : T1Set) (found : option nat) : option (option nat) :=
  match fuel with
  | O => None
  | S f =>
      if (length (q cur) =? 0)%nat then Some found else
      let? accepted := t1_accepts g (q cur) in
      let found := if accepted : bool then Some pos else found in
      if (length str <=? pos)%nat then Some found else
      let? byte := array_read str pos in
      let? nxt := t1_step g {| a_str := str; a_pos := S pos |} byte (q cur) (t1set_reset nxt) in
      run_t1_loop f g str (S pos) nxt cur found
  end.

(** ** Tier 2 *)

(** One optional register vector per state. *)
Abbreviation T2Map := (list (option (list Z))).

Section Engine.

Context {S : Type} `{!VmHeap S}.

Definition t1set_init (n_states : nat) : VM S (option T1Set) :=
  let! q_ok := vm_malloc (8 * Z.of_nat n_states) in
  let! visited_ok := vm_malloc (Z.of_nat (nvis_bytes n_states)) in
  vm_ret (if q_ok && visited_ok then Some (t1set_empty n_states) else None).

(** [None] is -1 (no memory); [Some None] is 0; [Some (Some end)] is 1. *)
Definition run_t1 (g : NfaGraph) (str : list Z) (start_pos : nat)
    : VM S (option (option nat)) :=
  let! cur := t1set_init (num_states g) in
  match cur with
  | None => vm_ret None
  | Some cur =>
      let! nxt := t1set_init (num_states g) in
      match nxt with
      | None => vm_ret None
      | Some nxt =>
          let! cur := vm_lift (t1_eps_add (eps_fuel g) g
                        {| a_str := str; a_pos := start_pos |} cur (Some (g_start g))) in
          let! r := vm_lift (run_t1_loop (Datatypes.S (Datatypes.S (length str - start_pos)))
                      g str start_pos cur nxt None) in
          vm_ret (Some r)
      end
  end.

Definition regs_alloc (nsaves : nat) : VM S (option (list Z)) :=
  let! ok := vm_malloc (8 * Z.of_nat nsaves) in
  vm_ret (if ok : bool then Some (replicate nsaves (-1)) else None).

Definition regs_clone (src : list Z) : VM S (option (list Z)) :=
  let! ok := vm_malloc (8 * Z.of_nat (length src)) in
  vm_ret (if ok : bool then Some src else None).

(** [if (idx >= 0 && idx < nsaves) regs[idx] = pos]. *)
Definition write_save (regs : list Z) (idx : Z) (pos : nat) : list Z :=
  if (0 <=? idx) && (idx <? Z.of_nat (length regs))
  then <[Z.to_nat idx := Z.of_nat pos]> regs else regs.

Fixpoint t2_eps_add (fuel : nat) (g : NfaGraph) (ctx : AnchorCtx) (target : T2Map)
    (state : option nat) (regs : option (list Z)) (pos : nat) : VM S T2Map :=
  match state, regs with
  | Some id, Some regs =>
      match fuel with
      | O => vm_lift None
      | Datatypes.S f =>
          let! st := vm_lift (array_read (arena g) id) in
          match type st with
          | NFA_SPLIT =>
              let! regs2 := regs_clone regs in
              match regs2 with
              | None => vm_ret target
              | Some regs2 =>
                  let! target := t2_eps_add f g ctx target (out1 st) (Some regs) pos in
                  t2_eps_add f g ctx target (out2 st) (Some regs2) pos
              end
          | NFA_SAVE idx =>
              t2_eps_add f g ctx target (out1 st) (Some (write_save regs idx pos)) pos
          | NFA_ANCHOR which =>
              if anchor_matches which ctx
              then t2_eps_add f g ctx target (out1 st) (Some regs) pos
              else vm_ret target
          | _ => vm_lift (array_write target id (Some regs))
          end
      end
  | _, _ => vm_ret target
  end.

(** [for (i = 0; i < num_states; i++)]: advance the occupants over [byte]. The
    outer [None] is undefined behaviour, the inner one a failed allocation. *)
Fixpoint t2_step (fuel : nat) (g : NfaGraph) (ctx : AnchorCtx) (byte : Z) (pos : nat)
    (i : nat) (cur : T2Map) (nxt : T2Map) : VM S (option T2Map) :=
  match cur with
  | [] => vm_ret (Some nxt)
  | None :: rest => t2_step fuel g ctx byte pos (Datatypes.S i) rest nxt
  | Some regs :: rest =>
      let! st := vm_lift (array_read (arena g) i) in
      if state_matches_byte st byte then
        let! nr := regs_clone regs in
        match nr with
        | None => vm_ret None
        | Some nr =>
            let! nxt := t2_eps_add fuel g ctx nxt (out1 st) (Some nr) (Datatypes.S pos) in
            t2_step fuel g ctx byte pos (Datatypes.S i) rest nxt
        end
      else t2_step fuel g ctx byte pos (Datatypes.S i) rest nxt
  end.

Definition t2_active (cur : T2Map) : bool :=
  existsb (fun r => match r with Some _ => true | None => false end) cur.

(** The accepting registers with the overall match in slots 0 and 1. *)
Definition accept_regs (regs : list Z) (start_pos pos : nat) : option (list Z) :=
  let? regs := array_write regs 0 (Z.of_nat start_pos) in
  array_write regs 1 (Z.of_nat pos).

(** [for (pos = start_pos; ; pos++)]; [found] is the last accepted vector.  The
    result's [None] is -1. *)
Fixpoint run_t2_loop (fuel eps : nat) (g : NfaGraph) (str : list Z) (start_pos pos : nat)
    (cur : T2Map) (found : option (list Z)) : VM S (option (option (list Z))) :=
  match fuel with
  | O => vm_lift None
  | Datatypes.S f =>
      let! accepted := vm_lift (array_read cur (g_accept g)) in
      let! found := vm_lift
        (match accepted with
         | Some regs => let? out_regs := accept_regs regs start_pos pos in Some (Some out_regs)
         | None => Some found
         end) in
      if (length str <=? pos)%nat then vm_ret (Some found) else
      if negb (t2_active cur) then vm_ret (Some found) else
      let! byte := vm_lift (array_read str pos) in
      let! nxt := t2_step eps g {| a_str := str; a_pos := Datatypes.S pos |} byte pos 0 cur
                    (replicate (num_states g) None) in
      match nxt with
      | None => vm_ret None
      | Some nxt => run_t2_loop f eps g str start_pos (Datatypes.S pos) nxt found
      end
  end.

Definition run_t2 (eps : nat) (g : NfaGraph) (str : list Z) (start_pos nsaves : nat)
    : VM S (option (option (list Z))) :=
  let! cur_ok := vm_malloc (8 * Z.of_nat (num_states g)) in
  if negb cur_ok then vm_ret None else
  let! nxt_ok := vm_malloc (8 * Z.of_nat (num_states g)) in
  if negb nxt_ok then vm_ret None else
  let! init := regs_alloc nsaves in
  match init with
  | None => vm_ret None
  | Some init =>
      let! cur := t2_eps_add eps g {| a_str := str; a_pos := start_pos |}
                    (replicate (num_states g) None) (Some (g_start g)) (Some init) start_pos in
      run_t2_loop (Datatypes.S (length str - start_pos)) eps g str start_pos start_pos cur None
  end.

End Engine.

(** ** Matching and searching *)

Inductive RegTier := REG_TIER_1 | REG_TIER_2 | REG_TIER_3.

#[global] Instance RegTier_eq_dec : EqDecision RegTier.
Proof. solve_decision. Defined.

Inductive ExecResult :=
  | EXEC_MATCH (match_start match_end : Z)
  | EXEC_MISMATCH
  | EXEC_ERROR.

(** Capture positions, group 0 first. *)
Definition ExecCaptures : Type := list (Z * Z).

(** The captures Tier 2 reads from its registers for [num] entries. *)
Definition captures_of_regs (regs : list Z) (num : nat) : ExecCaptures :=
  map (fun i => (nth (2 * i) regs (-1), nth (2 * i + 1) regs (-1))) (seq 0 num).

Section Api.

Context {S : Type} `{!VmHeap S}.

Definition exec_match (eps : nat) (g : NfaGraph) (tier : RegTier) (str : list Z) (pos : nat)
    (caps : option ExecCaptures) : VM S (ExecResult * option ExecCaptures) :=
  match tier with
  | REG_TIER_1 =>
      let! r := run_t1 g str pos in
      vm_ret
        (match r with
         | None => (EXEC_ERROR, caps)
         | Some None => (EXEC_MISMATCH, caps)
         | Some (Some stop) =>
             (EXEC_MATCH (Z.of_nat pos) (Z.of_nat stop),
              match caps with
              | Some (_ :: rest) => Some ((Z.of_nat pos, Z.of_nat stop) :: rest)
              | _ => caps
              end)
         end)
  | _ =>
      let nsaves := if (num_saves g =? 0)%nat then 2%nat else num_saves g in
      let! regs := regs_alloc nsaves in
      match regs with
      | None => vm_ret (EXEC_ERROR, caps)
      | Some _ =>
          let! r := run_t2 eps g str pos nsaves in
          vm_ret
            (match r with
             | None => (EXEC_ERROR, caps)
             | Some None => (EXEC_MISMATCH, caps)
             | Some (Some regs) =>
                 (EXEC_MATCH (nth 0 regs (-1)) (nth 1 regs (-1)),
                  match caps with
                  | Some c => Some (captures_of_regs regs (length c))
                  | None => None
                  end)
             end)
      end
  end.

Fixpoint exec_search_loop (fuel eps : nat) (g : NfaGraph) (tier : RegTier) (str : list Z)
    (pos : nat) (caps : option ExecCaptures) : VM S (ExecResult * option ExecCaptures) :=
  match fuel with
  | O => vm_lift None
  | Datatypes.S f =>
      if (pos <=? length str)%nat then
        let! r := exec_match eps g tier str pos caps in
        match fst r with
        | EXEC_MISMATCH =>
            if (length str <=? pos)%nat then vm_ret (EXEC_MISMATCH, snd r)
            else exec_search_loop f eps g tier str (Datatypes.S pos) (snd r)
        | _ => vm_ret r
        end
      else vm_ret (EXEC_MISMATCH, caps)
  end.

Definition exec_search (eps : nat) (g : NfaGraph) (tier : RegTier) (str : list Z)
    (start_pos : nat) (caps : option ExecCaptures) : VM S (ExecResult * option ExecCaptures) :=
  exec_search_loop (Datatypes.S (Datatypes.S (length str - start_pos))) eps g tier str
    start_pos caps.

End Api.
