(* ===== verification/RegexGraph.v ===== *)
(** * RegexGraph: what an NFA graph accepts, independently of any simulation

    [graph_ok] is the well-formedness the builder of reginold/nfa.c establishes:
    every pointer stays in the arena and the one ACCEPT state is [g_accept].
    [accepts_from] is the language reading of the graph, a relation between a
    state, a position of the subject and the position where a run that starts
    there may stop.  The theorems about the two simulations are stated against
    it. *)

From S2P Require Import Prelude CText Value RegexExec.
From Stdlib Require Import ZArith Lia Bool List.
From stdpp Require Import base numbers list gmap.

Local Open Scope nat_scope.

Definition pointer_ok (g : NfaGraph) (p : option nat) : bool :=
  match p with Some id => id <? num_states g | None => true end.

Definition is_accept (st : NfaState) : bool :=
  match type st with NFA_ACCEPT => true | _ => false end.

(** Every index of the arena with an ACCEPT state is [g_accept]. *)
Definition accept_ok (g : NfaGraph) : bool :=
  forallb (fun id => match arena g !! id with
                     | Some st => eqb (is_accept st) (id =? g_accept g)
                     | None => true
                     end) (seq 0 (num_states g)).

Definition graph_ok (g : NfaGraph) : bool :=
  (g_start g <? num_states g) && (g_accept g <? num_states g) && accept_ok g &&
  forallb (fun st => pointer_ok g (out1 st) && pointer_ok g (out2 st)) (arena g).

(** The states that [t1_eps_add] follows without consuming a byte. *)
Definition is_epsilon (st : NfaState) : bool :=
  match type st with NFA_SPLIT | NFA_SAVE _ | NFA_ANCHOR _ => true | _ => false end.

Definition pointer_list (p : option nat) : list nat :=
  match p with Some id => [id] | None => [] end.

(** Epsilon successors of a state at a position. *)
Definition state_succ (ctx : AnchorCtx) (st : NfaState) : list nat :=
  match type st with
  | NFA_SPLIT => pointer_list (out1 st) ++ pointer_list (out2 st)
  | NFA_SAVE _ => pointer_list (out1 st)
  | NFA_ANCHOR which => if anchor_matches which ctx then pointer_list (out1 st) else []
  | _ => []
  end.

Definition eps_succ (g : NfaGraph) (ctx : AnchorCtx) (id : nat) : list nat :=
  match arena g !! id with Some st => state_succ ctx st | None => [] end.

Definition consuming (g : NfaGraph) (id : nat) : Prop :=
  exists st, arena g !! id = Some st /\ is_epsilon st = false.

Definition eps_edge (g : NfaGraph) (ctx : AnchorCtx) (i j : nat) : Prop := j ∈ eps_succ g ctx i.

Definition eps_reach (g : NfaGraph) (ctx : AnchorCtx) : nat -> nat -> Prop :=
  rtc (eps_edge g ctx).

Abbreviation at_pos str pos := {| a_str := str; a_pos := pos |}.

(** The states a queue moves to over [byte]. *)
Definition state_targets (byte : Z) (st : NfaState) : list nat :=
  if state_matches_byte st byte then pointer_list (out1 st) else [].

Definition byte_succ (g : NfaGraph) (byte : Z) (id : nat) : list nat :=
  match arena g !! id with Some st => state_targets byte st | None => [] end.

(** [accepts_from g str id pos stop]: from state [id] at [pos] some run of the
    graph over [str] reaches ACCEPT at [stop]. *)
Inductive accepts_from (g : NfaGraph) (str : list Z) : nat -> nat -> nat -> Prop :=
  | accept_here pos : accepts_from g str (g_accept g) pos pos
  | accept_epsilon id j pos stop :
      j ∈ eps_succ g (at_pos str pos) id -> accepts_from g str j pos stop ->
      accepts_from g str id pos stop
  | accept_byte id j pos byte stop :
      str !! pos = Some byte -> j ∈ byte_succ g byte id ->
      accepts_from g str j (S pos) stop -> accepts_from g str id pos stop.

Create HintDb regex.
#[export] Hint Constructors accepts_from : regex.

(** The language of the graph on a subject from a position. *)
Definition matches_at (g : NfaGraph) (str : list Z) (pos stop : nat) : Prop :=
  accepts_from g str (g_start g) pos stop.

(** [stop] is the longest match that starts at [pos]. *)
Definition longest_match (g : NfaGraph) (str : list Z) (pos stop : nat) : Prop :=
  matches_at g str pos stop /\ forall stop', matches_at g str pos stop' -> stop' <= stop.

Section Graph.

Context (g : NfaGraph).
Context (Hok : graph_ok g = true).

Lemma start_in_range : g_start g < num_states g.
Proof using Hok. unfold graph_ok in Hok. rewrite !andb_true_iff, !Nat.ltb_lt in Hok. tauto. Qed.

Lemma accept_in_range : g_accept g < num_states g.
Proof using Hok. unfold graph_ok in Hok. rewrite !andb_true_iff, !Nat.ltb_lt in Hok. tauto. Qed.

Lemma state_at id : id < num_states g -> exists st, arena g !! id = Some st.
Proof. apply lookup_lt_is_Some_2. Qed.

Lemma is_accept_iff id st : arena g !! id = Some st -> is_accept st = true <-> id = g_accept g.
Proof using Hok.
  intros Hid. unfold graph_ok, accept_ok in Hok. rewrite !andb_true_iff in Hok.
  destruct Hok as [[_ Ha] _]. rewrite forallb_forall in Ha.
  specialize (Ha id). rewrite Hid, eqb_true_iff in Ha. rewrite Ha, Nat.eqb_eq; [done|].
  apply in_seq. apply lookup_lt_Some in Hid. unfold num_states. lia.
Qed.

Lemma pointers_in_range id st j :
  arena g !! id = Some st -> j ∈ pointer_list (out1 st) ++ pointer_list (out2 st) ->
  j < num_states g.
Proof using Hok.
  intros Hid Hj. unfold graph_ok in Hok. rewrite !andb_true_iff in Hok.
  destruct Hok as [_ Hp]. rewrite forallb_forall in Hp.
  specialize (Hp st). rewrite andb_true_iff in Hp.
  destruct Hp as [H1 H2]; [eapply list_elem_of_In, list_elem_of_lookup_2; eauto|].
  rewrite elem_of_app in Hj. unfold pointer_ok in *.
  destruct Hj as [Hj|Hj]; [destruct (out1 st)|destruct (out2 st)]; simpl in Hj;
    try apply list_elem_of_singleton in Hj; try set_solver; subst; by apply Nat.ltb_lt.
Qed.

Lemma state_succ_pointers ctx st j :
  j ∈ state_succ ctx st -> j ∈ pointer_list (out1 st) ++ pointer_list (out2 st).
Proof.
  unfold state_succ. destruct (type st) as [| | | | | | |which|]; try set_solver.
  destruct (anchor_matches which ctx); set_solver.
Qed.

Lemma eps_succ_range ctx id j : j ∈ eps_succ g ctx id -> j < num_states g.
Proof using Hok.
  unfold eps_succ. destruct (arena g !! id) as [st|] eqn:E; [|set_solver].
  intros Hj. eapply pointers_in_range; eauto using state_succ_pointers.
Qed.

Lemma byte_succ_range byte id j : j ∈ byte_succ g byte id -> j < num_states g.
Proof using Hok.
  unfold byte_succ, state_targets. destruct (arena g !! id) as [st|] eqn:E; [|set_solver].
  destruct (state_matches_byte st byte); [|set_solver].
  intros Hj. eapply pointers_in_range; [eauto|set_solver].
Qed.

Lemma consuming_no_succ ctx id : consuming g id -> eps_succ g ctx id = [].
Proof.
  intros (st & Hid & Hst). unfold eps_succ. rewrite Hid. unfold state_succ.
  unfold is_epsilon in Hst. by destruct (type st).
Qed.

Lemma epsilon_no_byte byte id st :
  arena g !! id = Some st -> is_epsilon st = true -> byte_succ g byte id = [].
Proof.
  intros Hid Hst. unfold byte_succ, state_targets, state_matches_byte. rewrite Hid.
  unfold is_epsilon in Hst. by destruct (type st).
Qed.

Lemma accept_consuming : consuming g (g_accept g).
Proof using Hok.
  destruct (state_at _ accept_in_range) as [st Hst]. exists st. split; [done|].
  pose proof (proj2 (is_accept_iff _ _ Hst) eq_refl) as Ha.
  unfold is_accept, is_epsilon in *. by destruct (type st).
Qed.

Lemma accept_no_byte byte : byte_succ g byte (g_accept g) = [].
Proof using Hok.
  destruct (state_at _ accept_in_range) as [st Hst].
  pose proof (proj2 (is_accept_iff _ _ Hst) eq_refl) as Ha.
  unfold byte_succ, state_targets, state_matches_byte. rewrite Hst.
  unfold is_accept in Ha. by destruct (type st).
Qed.

(** Acceptance moves backwards along epsilon paths. *)
Lemma accepts_reach str pos i j stop :
  eps_reach g (at_pos str pos) i j -> accepts_from g str j pos stop ->
  accepts_from g str i pos stop.
Proof. induction 1; eauto with regex. Qed.

Lemma accepts_ge str id pos stop : accepts_from g str id pos stop -> pos <= stop.
Proof. induction 1; lia. Qed.

(** One byte of a consuming state. *)
Lemma accepts_consuming str id pos stop :
  consuming g id ->
  accepts_from g str id pos stop <->
  (id = g_accept g /\ stop = pos) \/
  (exists byte j, str !! pos = Some byte /\ j ∈ byte_succ g byte id /\
     accepts_from g str j (S pos) stop).
Proof using Type.
  clear Hok. intros Hc. split.
  - destruct 1 as [pos|id j pos stop Hj|id j pos byte stop]; [by left| |right; eauto].
    rewrite consuming_no_succ in Hj by done. set_solver.
  - intros [[-> ->]|(byte & j & Hb & Hj & Ha)]; eauto with regex.
Qed.

(** The set of states with an accepting run, seen through any set that is
    closed under epsilon moves: only its consuming members matter. *)
Lemma accepts_closed str pos (V Q : nat -> Prop) id stop :
  (forall j k, V j -> k ∈ eps_succ g (at_pos str pos) j -> V k) ->
  (forall j, V j -> consuming g j -> Q j) -> (forall j, V j -> j < num_states g) ->
  V id -> accepts_from g str id pos stop ->
  exists j, Q j /\ consuming g j /\ accepts_from g str j pos stop.
Proof using Hok.
  intros Hclosed Hq Hr Hv Ha. revert Hclosed Hv.
  induction Ha as [pos|id j pos stop Hj Ha IH|id j pos byte stop Hb Hj Ha IH]; intros Hclosed Hv.
  - exists (g_accept g). eauto using accept_consuming with regex.
  - apply IH; eauto.
  - exists id. destruct (state_at id (Hr _ Hv)) as [st Hst].
    assert (consuming g id) as Hc.
    { exists st. split; [done|]. destruct (is_epsilon st) eqn:E; [|done].
      rewrite (epsilon_no_byte _ _ _ Hst E) in Hj. set_solver. }
    eauto with regex.
Qed.

End Graph.
