(* ===== verification/RegexTier1.v ===== *)
(** * RegexTier1: the bitset simulation finds the longest match

    The visited bitset of [T1Set] is tied to a finite set of states by
    [set_rep].  [t1_eps_add] is a depth-first search: [added] is its contract,
    for a list of roots, and composes along the list.  On a well-formed graph
    the search neither leaves its buffers nor runs out of fuel, cycles of
    epsilon edges included, and [run_t1] returns the longest match. *)

From S2P Require Import Prelude CText Value RegexExec RegexGraph.
From Stdlib Require Import ZArith Lia Bool List.
From stdpp Require Import base numbers list gmap.

Local Open Scope nat_scope.
Local Open Scope c_scope.

(** ** The visited bitset *)

Lemma land_bit_test (b : Z) (k : nat) :
  negb (Z.land b (Z.shiftl 1 (Z.of_nat k)) =? 0)%Z = Z.testbit b (Z.of_nat k).
Proof.
  rewrite Z.shiftl_1_l. destruct (Z.eqb_spec (Z.land b (2 ^ Z.of_nat k)) 0) as [E|E]; simpl.
  - symmetry. apply (f_equal (fun z => Z.testbit z (Z.of_nat k))) in E.
    rewrite Z.land_spec, Z.pow2_bits_true, Z.bits_0 in E by lia. by rewrite andb_true_r in E.
  - symmetry. apply not_false_iff_true. intros F. apply E. apply Z.bits_inj'. intros n Hn.
    rewrite Z.land_spec, Z.bits_0, Z.pow2_bits_eqb by lia.
    destruct (Z.eqb_spec (Z.of_nat k) n); [subst; by rewrite F|by rewrite andb_false_r].
Qed.

Lemma lor_bit_test (b : Z) (k j : nat) :
  Z.testbit (Z.lor b (Z.shiftl 1 (Z.of_nat k))) (Z.of_nat j) =
  Z.testbit b (Z.of_nat j) || (j =? k).
Proof.
  rewrite Z.lor_spec, Z.shiftl_1_l, Z.pow2_bits_eqb by lia. f_equal.
  destruct (Nat.eqb_spec j k), (Z.eqb_spec (Z.of_nat k) (Z.of_nat j)); lia || done.
Qed.

Lemma vis_byte_in_range n id : id < n -> id / 8 < nvis_bytes n.
Proof.
  intros H. unfold nvis_bytes. apply Nat.lt_le_trans with (id / 8 + 1); [lia|].
  replace (id / 8 + 1) with ((id + 1 * 8) / 8) by (rewrite Nat.div_add; lia).
  apply Nat.Div0.div_le_mono. lia.
Qed.

(** [visited_test] sees exactly what [visited_mark] recorded. *)
Lemma visited_mark_spec n s id :
  length (visited s) = nvis_bytes n -> id < n ->
  wp (visited_mark s id) (fun s' =>
    q s' = q s /\ cap s' = cap s /\ length (visited s') = nvis_bytes n /\
    forall j b, j < n -> visited_test s j = Some b ->
      visited_test s' j = Some (b || (j =? id))).
Proof.
  intros Hlen Hid. unfold visited_mark.
  pose proof (vis_byte_in_range _ _ Hid) as Hb.
  rewrite array_read_in by lia. cbn [wp]. rewrite array_write_in by lia. cbn [wp].
  split_and!; [done|done|by simpl; rewrite length_insert|].
  intros j b Hj. pose proof (vis_byte_in_range _ _ Hj). unfold visited_test; cbn [visited].
  rewrite !array_read_in by (rewrite ?length_insert; lia). rewrite !land_bit_test.
  intros Hs. apply Some_inj in Hs as <-. f_equal.
  destruct (decide (id / 8 = j / 8)) as [E|E].
  - rewrite <- E, (nth_lookup (<[_ := _]> _)), list_lookup_insert_eq by lia. cbn [from_option Datatypes.id].
    rewrite lor_bit_test. f_equal.
    destruct (Nat.eqb_spec (j mod 8) (id mod 8)) as [Em|Em], (Nat.eqb_spec j id) as [Ej|Ej];
      try done; exfalso; [|by subst].
    apply Ej. rewrite (Nat.div_mod_eq j 8), (Nat.div_mod_eq id 8). lia.
  - rewrite nth_lookup, list_lookup_insert_ne, <- nth_lookup by done.
    destruct (Nat.eqb_spec j id); [congruence|by rewrite orb_false_r].
Qed.

Section Closure.

Context (g : NfaGraph).
Context (Hok : graph_ok g = true).

(** The bitset of [s] holds the set [V]; its queue is a duplicate-free part. *)
Record set_rep (s : T1Set) (V : gset nat) : Prop := {
  rep_cap : cap s = num_states g;
  rep_bytes : length (visited s) = nvis_bytes (num_states g);
  rep_visited id : id < num_states g -> visited_test s id = Some (bool_decide (id ∈ V));
  rep_range id : id ∈ V -> id < num_states g;
  rep_nodup : NoDup (q s);
  rep_queue id : id ∈ q s -> id ∈ V;
}.

Lemma size_bound (V : gset nat) :
  (forall id, id ∈ V -> id < num_states g) -> size V <= num_states g.
Proof.
  intros H. replace (num_states g) with (size (list_to_set (seq 0 (num_states g)) : gset nat)).
  - apply subseteq_size. intros x Hx. apply elem_of_list_to_set, elem_of_seq. specialize (H x Hx). lia.
  - rewrite size_list_to_set by apply NoDup_seq. apply length_seq.
Qed.

Lemma queue_size (V : gset nat) (l : list nat) :
  NoDup l -> (forall id, id ∈ l -> id ∈ V) -> length l <= size V.
Proof.
  intros Hl H. rewrite <- (size_list_to_set (C := gset nat) l) by done.
  apply subseteq_size. intros x Hx. apply H. by apply elem_of_list_to_set in Hx.
Qed.

Lemma mark_rep s V id :
  set_rep s V -> id < num_states g -> id ∉ V ->
  wp (visited_mark s id) (fun s' => set_rep s' ({[id]} ∪ V) /\ q s' = q s).
Proof.
  intros R Hid Hnew. destruct R as [Rc Rb Rv Rr Rn Rq].
  eapply wp_mono; [by apply visited_mark_spec|].
  intros s' (Hq & Hc & Hl & Hv). split; [|done]. constructor.
  - congruence.
  - done.
  - intros j Hj. rewrite (Hv j _ Hj (Rv j Hj)). f_equal.
    destruct (Nat.eqb_spec j id); repeat case_bool_decide; simpl; try done; set_solver.
  - intros j Hj. apply elem_of_union in Hj as [Hj|Hj]; [set_solver|auto].
  - by rewrite Hq.
  - intros j. rewrite Hq. set_solver.
Qed.

Lemma enqueue_rep s V id :
  set_rep s V -> id ∈ V -> id ∉ q s ->
  wp (enqueue s id) (fun s' => set_rep s' V /\ q s' = q s ++ [id]).
Proof.
  intros R Hid Hnew. destruct R as [Rc Rb Rv Rr Rn Rq]. unfold enqueue.
  assert (NoDup (q s ++ [id])) as Hnd.
  { apply NoDup_app. split_and!; [done|set_solver|apply NoDup_singleton]. }
  assert (forall j, j ∈ q s ++ [id] -> j ∈ V) as Hin by set_solver.
  pose proof (queue_size V _ Hnd Hin) as Hs. pose proof (size_bound V Rr).
  rewrite length_app in Hs; simpl in Hs.
  destruct (Nat.ltb_spec (length (q s)) (cap s)); [|lia].
  cbn [wp]. split; [|done]. by constructor.
Qed.

(** What a depth-first search from [roots] does to a set. *)
Record added (ctx : AnchorCtx) (roots : list nat) (s : T1Set) (V : gset nat)
    (s' : T1Set) (V' : gset nat) : Prop := {
  add_rep : set_rep s' V';
  add_mono : V ⊆ V';
  add_roots r : r ∈ roots -> r ∈ V';
  add_reach j : j ∈ V' -> j ∉ V -> exists r, r ∈ roots /\ eps_reach g ctx r j;
  add_closed j k : j ∈ V' -> j ∉ V -> k ∈ eps_succ g ctx j -> k ∈ V';
  add_queue j : j ∈ q s' <-> j ∈ q s \/ (j ∈ V' /\ j ∉ V /\ consuming g j);
}.

Lemma added_nil ctx s V : set_rep s V -> added ctx [] s V s V.
Proof. intros. constructor; set_solver. Qed.

Lemma added_trans ctx r1 r2 s1 V1 s2 V2 s3 V3 :
  added ctx r1 s1 V1 s2 V2 -> added ctx r2 s2 V2 s3 V3 -> added ctx (r1 ++ r2) s1 V1 s3 V3.
Proof.
  intros [A1 A2 A3 A4 A5 A6] [B1 B2 B3 B4 B5 B6]. constructor; [done|set_solver|set_solver| | |].
  - intros j Hj Hn. destruct (decide (j ∈ V2)) as [H|H].
    + destruct (A4 j H Hn) as (r & Hr & ?). exists r. set_solver.
    + destruct (B4 j Hj H) as (r & Hr & ?). exists r. set_solver.
  - intros j k Hj Hn Hk. destruct (decide (j ∈ V2)) as [H|H]; [apply B2|]; eauto.
  - intros j. rewrite B6, A6. destruct (decide (j ∈ V2)); set_solver.
Qed.

(** A state that was already marked. *)
Lemma added_seen ctx id s V : set_rep s V -> id ∈ V -> added ctx [id] s V s V.
Proof. intros. constructor; set_solver. Qed.

(** A consuming state: marked and queued. *)
Lemma added_leaf ctx id s V s' :
  consuming g id -> id ∉ V -> set_rep s' ({[id]} ∪ V) -> q s' = q s ++ [id] ->
  added ctx [id] s V s' ({[id]} ∪ V).
Proof.
  intros Hc Hn R Hq. constructor; [done|set_solver|set_solver| | |].
  - intros j Hj Hnj. exists id. assert (j = id) as -> by set_solver.
    split; [set_solver|apply rtc_refl].
  - intros j k Hj Hnj Hk. assert (j = id) as -> by set_solver.
    rewrite consuming_no_succ in Hk by done. set_solver.
  - intros j. rewrite Hq. assert (j ∈ [id] -> consuming g j) by set_solver. set_solver.
Qed.

(** An epsilon state: marked, then its successors searched. *)
Lemma added_node ctx id s V s1 s' V' :
  ~ consuming g id -> id ∉ V -> q s1 = q s ->
  added ctx (eps_succ g ctx id) s1 ({[id]} ∪ V) s' V' -> added ctx [id] s V s' V'.
Proof.
  intros Hc Hn Hq [A1 A2 A3 A4 A5 A6]. constructor; [done|set_solver|set_solver| | |].
  - intros j Hj Hnj. exists id. split; [set_solver|].
    destruct (decide (j = id)) as [->|Hne]; [apply rtc_refl|].
    destruct (A4 j Hj) as (r & Hr & Hp); [set_solver|]. by eapply rtc_l.
  - intros j k Hj Hnj Hk. destruct (decide (j = id)) as [->|Hne]; [auto|].
    eapply A5; eauto. set_solver.
  - intros j. rewrite A6, Hq. destruct (decide (j = id)) as [->|]; [|set_solver].
    assert (id ∉ {[id]} ∪ V -> False) by set_solver. tauto.
Qed.

(** The search over a list of roots. *)
Fixpoint t1_add_all (fuel : nat) (ctx : AnchorCtx) (s : T1Set) (ids : list nat) : option T1Set :=
  match ids with
  | [] => Some s
  | id :: rest =>
      let? s := t1_eps_add fuel g ctx s (Some id) in t1_add_all fuel ctx s rest
  end.

(** The size of what is still unmarked is below the fuel. *)
Definition enough (fuel : nat) (V : gset nat) : Prop := num_states g < fuel + size V.

Lemma add_all_spec fuel ctx ids :
  (forall s V id, set_rep s V -> id < num_states g -> enough fuel V ->
     wp (t1_eps_add fuel g ctx s (Some id)) (fun s' => exists V', added ctx [id] s V s' V')) ->
  forall s V, set_rep s V -> (forall id, id ∈ ids -> id < num_states g) -> enough fuel V ->
  wp (t1_add_all fuel ctx s ids) (fun s' => exists V', added ctx ids s V s' V').
Proof.
  intros Hone. induction ids as [|id ids IH]; intros s V R Hr He; simpl.
  - exists V. by apply added_nil.
  - apply wp_bind. eapply wp_mono; [eapply Hone; eauto; set_solver|].
    intros s1 (V1 & A1). eapply wp_mono.
    + apply (IH s1 V1); [by destruct A1|set_solver|]. unfold enough in *.
      assert (size V <= size V1) by (apply subseteq_size; by destruct A1). lia.
    + intros s2 (V2 & A2). exists V2. change (id :: ids) with ([id] ++ ids).
      by eapply added_trans.
Qed.

Lemma add_pointer fuel ctx s p :
  t1_eps_add fuel g ctx s p = t1_add_all fuel ctx s (pointer_list p).
Proof. destruct p; simpl; [by destruct (t1_eps_add _ _ _ _ _)|by destruct fuel]. Qed.

Lemma add_all_app fuel ctx s l1 l2 :
  t1_add_all fuel ctx s (l1 ++ l2) =
  (let? s := t1_add_all fuel ctx s l1 in t1_add_all fuel ctx s l2).
Proof.
  revert s. induction l1 as [|x l1 IH]; intros s; simpl; [done|].
  destruct (t1_eps_add _ _ _ _ _); [apply IH|done].
Qed.

Lemma t1_eps_add_unfold fuel ctx s id st :
  arena g !! id = Some st ->
  t1_eps_add (S fuel) g ctx s (Some id) =
  (let? seen := visited_test s id in
   if seen : bool then Some s else
   let? s := visited_mark s id in
   if is_epsilon st then t1_add_all fuel ctx s (eps_succ g ctx id) else enqueue s id).
Proof.
  intros Hst. simpl. destruct (visited_test s id) as [[]|]; try done.
  destruct (visited_mark s id) as [s1|]; try done.
  unfold array_read, eps_succ, is_epsilon. rewrite Hst. unfold state_succ.
  destruct (type st) as [| | | | | | |which|]; try done;
    rewrite ?add_all_app, ?add_pointer; try done.
  - destruct (t1_add_all fuel ctx s1 (pointer_list (out1 st))); [by rewrite add_pointer|done].
  - by destruct (anchor_matches which ctx).
Qed.

(** The depth-first search of [t1_eps_add]: it stays in its buffers, ends
    within the fuel, and adds exactly what is reachable. *)
Lemma t1_eps_add_spec fuel : forall ctx s V id,
  set_rep s V -> id < num_states g -> enough fuel V ->
  wp (t1_eps_add fuel g ctx s (Some id)) (fun s' => exists V', added ctx [id] s V s' V').
Proof using Hok.
  induction fuel as [|fuel IH]; intros ctx s V id R Hid He.
  { exfalso. unfold enough in He. pose proof (size_bound V (rep_range _ _ R)). lia. }
  destruct (state_at g id Hid) as [st Hst]. rewrite (t1_eps_add_unfold _ _ _ _ _ Hst).
  rewrite (rep_visited _ _ R) by done. case_bool_decide as Hv.
  { exists V. by apply added_seen. }
  apply wp_bind. eapply wp_mono; [by apply (mark_rep s V)|]. intros s1 [R1 Hq].
  destruct (is_epsilon st) eqn:Heps.
  - eapply wp_mono.
    + eapply add_all_spec; [apply IH|exact R1|by apply eps_succ_range|].
      unfold enough in *. rewrite size_union, size_singleton by set_solver. lia.
    + intros s2 (V2 & A). exists V2. eapply added_node; eauto.
      intros (st' & Hst' & E). congruence.
  - assert (consuming g id) as Hc by (by exists st).
    eapply wp_mono; [apply (enqueue_rep s1); [done|set_solver|]|].
    + rewrite Hq. intros Hin. by apply Hv, (rep_queue _ _ R).
    + intros s2 [R2 Hq2]. exists ({[id]} ∪ V). eapply added_leaf; eauto. congruence.
Qed.

Lemma t1_roots_spec ctx s V ids :
  set_rep s V -> (forall id, id ∈ ids -> id < num_states g) ->
  wp (t1_add_all (eps_fuel g) ctx s ids) (fun s' => exists V', added ctx ids s V s' V').
Proof using Hok.
  intros R Hr. apply add_all_spec; auto using t1_eps_add_spec. unfold enough, eps_fuel. lia.
Qed.

(** ** Stepping over a byte *)

Definition targets (byte : Z) (queue : list nat) : list nat :=
  flat_map (byte_succ g byte) queue.

Lemma elem_of_targets byte queue j :
  j ∈ targets byte queue <-> exists i, i ∈ queue /\ j ∈ byte_succ g byte i.
Proof. setoid_rewrite list_elem_of_In. apply in_flat_map. Qed.

Lemma targets_range byte queue j : j ∈ targets byte queue -> j < num_states g.
Proof using Hok. rewrite elem_of_targets. intros (i & _ & H). by eapply byte_succ_range. Qed.

Lemma t1_step_targets ctx byte queue : forall s,
  (forall id, id ∈ queue -> id < num_states g) ->
  t1_step g ctx byte queue s = t1_add_all (eps_fuel g) ctx s (targets byte queue).
Proof.
  induction queue as [|id queue IH]; intros s Hr; cbn [t1_step targets flat_map]; [done|].
  destruct (state_at g id) as [st Hst]; [set_solver|].
  unfold array_read. rewrite Hst. rewrite add_all_app.
  unfold byte_succ at 1. rewrite Hst. unfold state_targets.
  destruct (state_matches_byte st byte); cbn [t1_add_all].
  - rewrite add_pointer. destruct (t1_add_all _ _ _ _); [|done]. apply IH. set_solver.
  - apply IH. set_solver.
Qed.

Lemma t1_accepts_spec queue :
  (forall id, id ∈ queue -> id < num_states g) ->
  t1_accepts g queue = Some (bool_decide (g_accept g ∈ queue)).
Proof using Hok.
  induction queue as [|id queue IH]; intros Hr; simpl; [done|].
  destruct (state_at g id) as [st Hst]; [set_solver|].
  unfold array_read. rewrite Hst, IH by set_solver. f_equal.
  transitivity (is_accept st || bool_decide (g_accept g ∈ queue)).
  { unfold is_accept. by destruct (type st). }
  pose proof (is_accept_iff g Hok _ _ Hst) as Ha.
  destruct (is_accept st); repeat case_bool_decide; simpl; try done; set_solver.
Qed.

Lemma rep_empty s :
  cap s = num_states g -> length (visited s) = nvis_bytes (num_states g) -> q s = [] ->
  (forall b, b ∈ visited s -> b = 0%Z) -> set_rep s ∅.
Proof.
  intros Hc Hl Hq Hz.
  constructor; [done|done| |by intros id ?%elem_of_empty|rewrite Hq; constructor
               |rewrite Hq; by intros id ?%elem_of_nil].
  intros id Hid. unfold visited_test. pose proof (vis_byte_in_range _ _ Hid).
  rewrite array_read_in by lia.
  rewrite (Hz (nth (id / 8) (visited s) 0%Z)); [done|].
  apply list_elem_of_In, nth_In. lia.
Qed.

Lemma reset_rep s V : set_rep s V -> set_rep (t1set_reset s) ∅.
Proof.
  intros [Rc Rb _ _ _ _]. apply rep_empty; simpl; rewrite ?length_replicate; try done.
  intros b Hb. by apply elem_of_replicate in Hb as [-> _].
Qed.

Lemma empty_rep : set_rep (t1set_empty (num_states g)) ∅.
Proof.
  apply rep_empty; simpl; rewrite ?length_replicate; try done.
  intros b Hb. by apply elem_of_replicate in Hb as [-> _].
Qed.

(** ** The main loop *)

Section Run.

Context (str : list Z) (start_pos : nat).

Abbreviation ends stop := (matches_at g str start_pos stop).

(** The queue carries exactly the runs that can still stop at [pos] or later. *)
Record queue_at (s : T1Set) (pos : nat) : Prop := {
  at_consuming j : j ∈ q s -> consuming g j;
  at_sound j stop : j ∈ q s -> accepts_from g str j pos stop -> ends stop;
  at_complete stop : ends stop -> pos <= stop ->
    exists j, j ∈ q s /\ accepts_from g str j pos stop;
}.

(** [found] is the longest match that stops before [pos]. *)
Definition found_before (found : option nat) (pos : nat) : Prop :=
  match found with
  | Some stop => ends stop /\ stop < pos /\ forall e, ends e -> e < pos -> e <= stop
  | None => forall e, ends e -> pos <= e
  end.

(** What the loop returns. *)
Definition t1_result (r : option nat) : Prop :=
  match r with
  | Some stop => longest_match g str start_pos stop
  | None => forall e, ~ ends e
  end.

(** A search from [roots] in an empty set carries the runs of the roots. *)
Lemma added_queue_at roots pos s0 s V :
  q s0 = [] -> added (at_pos str pos) roots s0 ∅ s V ->
  (forall r stop, r ∈ roots -> accepts_from g str r pos stop -> ends stop) ->
  (forall stop, ends stop -> pos <= stop ->
     exists r, r ∈ roots /\ accepts_from g str r pos stop) ->
  queue_at s pos.
Proof using Hok.
  intros Hq0 [A1 A2 A3 A4 A5 A6] Hsound Hcomplete. rewrite Hq0 in A6.
  constructor.
  - intros j Hj. apply A6 in Hj as [Hj|(_ & _ & ?)]; [set_solver|done].
  - intros j stop Hj Ha. apply A6 in Hj as [Hj|(Hj & Hn & _)]; [set_solver|].
    destruct (A4 j Hj Hn) as (r & Hr & Hp). eapply Hsound, accepts_reach; eauto.
  - intros stop He Hle. destruct (Hcomplete stop He Hle) as (r & Hr & Ha).
    destruct (accepts_closed g Hok str pos (.∈ V) (.∈ q s) r stop) as (j & Hj & _ & Haj);
      [set_solver| |apply A1|auto|done|by exists j].
    intros j Hj Hc. apply A6. set_solver.
Qed.

(** One round: the ACCEPT check, then the step over a byte. *)
Lemma queue_accept s pos V :
  set_rep s V -> queue_at s pos ->
  t1_accepts g (q s) = Some (bool_decide (g_accept g ∈ q s)) /\
  (g_accept g ∈ q s <-> ends pos).
Proof using Hok.
  intros R [Q1 Q2 Q3]. split.
  - apply t1_accepts_spec. intros id Hid. by apply (rep_range _ _ R), (rep_queue _ _ R).
  - split.
    + intros H. eapply Q2; eauto with regex.
    + intros He. destruct (Q3 pos He) as (j & Hj & Ha); [lia|].
      apply accepts_consuming in Ha as [[-> _]|(b & k & _ & _ & Ha)]; [done| |auto].
      apply accepts_ge in Ha. lia.
Qed.

Lemma queue_step s pos byte V s0 V0 :
  set_rep s V -> queue_at s pos -> str !! pos = Some byte -> set_rep s0 V0 ->
  wp (t1_step g (at_pos str (S pos)) byte (q s) (t1set_reset s0)) (fun s' =>
    (exists V', set_rep s' V') /\ queue_at s' (S pos)).
Proof using Hok.
  intros R [Q1 Q2 Q3] Hb R0. rewrite t1_step_targets.
  2: { intros id Hid. by apply (rep_range _ _ R), (rep_queue _ _ R). }
  eapply wp_mono; [apply t1_roots_spec; [by eapply reset_rep|by apply targets_range]|].
  intros s' (V' & A). split; [exists V'; by destruct A|].
  eapply added_queue_at; [|exact A| |]; [done| |].
  - intros r stop (i & Hi & Hr)%elem_of_targets Ha. eapply Q2; eauto with regex.
  - intros stop He Hle. destruct (Q3 stop He) as (j & Hj & Ha); [lia|].
    apply accepts_consuming in Ha as [[_ ->]|(b & k & Hb' & Hk & Ha)]; [lia| |auto].
    exists k. rewrite Hb in Hb'. injection Hb' as <-. split; [|done].
    apply elem_of_targets. eauto.
Qed.

Lemma found_step found pos (hit : Prop) `{!Decision hit} :
  found_before found pos -> (hit <-> ends pos) ->
  found_before (if bool_decide hit then Some pos else found) (S pos).
Proof.
  intros Hf Hh. case_bool_decide as H.
  - split_and!; [by apply Hh|lia|intros; lia].
  - assert (forall e, ends e -> e < S pos -> e < pos) as Hlt.
    { intros e He Hle. destruct (decide (e = pos)) as [->|]; [tauto|lia]. }
    destruct found as [f|]; simpl in *.
    + destruct Hf as (? & ? & Hmax). split_and!; [done|lia|eauto].
    + intros e He. specialize (Hf e He). specialize (Hlt e He). lia.
Qed.

Lemma found_final found pos :
  found_before found pos -> (forall e, ends e -> e < pos) -> t1_result found.
Proof.
  destruct found as [f|]; simpl.
  - intros (Hf & _ & Hmax) Hall. split; [done|]. intros e He. by apply Hmax, Hall.
  - intros Hnone Hall e He. specialize (Hnone e He). specialize (Hall e He). lia.
Qed.

Lemma ends_range stop : ends stop -> start_pos <= length str -> stop <= length str.
Proof.
  intros He Hs. unfold matches_at in He. induction He as [| |id j pos byte stop Hb]; auto.
  apply IHHe. apply lookup_lt_Some in Hb. lia.
Qed.

Lemma run_t1_loop_spec fuel : forall pos cur nxt found V V0,
  set_rep cur V -> set_rep nxt V0 -> queue_at cur pos -> found_before found pos ->
  start_pos <= length str -> pos <= length str -> length str - pos + 1 < fuel ->
  wp (run_t1_loop fuel g str pos cur nxt found) t1_result.
Proof using Hok.
  induction fuel as [|fuel IH]; intros pos cur nxt found V V0 R R0 Q F Hs Hp Hfuel; [lia|].
  cbn [run_t1_loop]. destruct (Nat.eqb_spec (length (q cur)) 0) as [E|E].
  - apply (found_final found pos F). intros e He.
    destruct (decide (pos <= e)) as [Hle|]; [|lia]. exfalso.
    destruct (at_complete _ _ Q e He Hle) as (j & Hj & _).
    apply length_zero_iff_nil in E. rewrite E in Hj. set_solver.
  - destruct (queue_accept cur pos V R Q) as [-> Hends].
    pose proof (found_step found pos _ F Hends) as F'.
    destruct (Nat.leb_spec (length str) pos) as [Hlen|Hlen].
    + apply (found_final _ (S pos) F'). intros e He. pose proof (ends_range e He). lia.
    + destruct (lookup_lt_is_Some_2 str pos Hlen) as [byte Hb].
      unfold array_read. rewrite Hb. apply wp_bind.
      eapply wp_mono; [by eapply queue_step|]. intros s' [[V' R'] Q'].
      eapply IH; eauto; lia.
Qed.

(** The seed: the closure of the start state. *)
Lemma seed_spec :
  wp (t1_eps_add (eps_fuel g) g (at_pos str start_pos) (t1set_empty (num_states g))
        (Some (g_start g)))
     (fun s => (exists V, set_rep s V) /\ queue_at s start_pos).
Proof using Hok.
  eapply wp_mono.
  - apply t1_eps_add_spec; [apply empty_rep|by apply start_in_range|].
    unfold enough, eps_fuel. lia.
  - intros s (V & A). split; [exists V; by destruct A|].
    eapply added_queue_at; [|exact A| |]; [done| |].
    + intros r stop ->%list_elem_of_singleton. done.
    + intros stop He _. exists (g_start g). split; [set_solver|done].
Qed.

End Run.

End Closure.

Section Engine1.

Context {S : Type} `{!VmHeap S}.

(** [run_t1] on any heap: no undefined behaviour; -1 only for want of memory,
    otherwise the longest match or the absence of one. *)
Lemma run_t1_spec g str start_pos (s : S) :
  graph_ok g = true -> start_pos <= length str ->
  wp (run_t1 g str start_pos s) (fun r =>
    match fst r with Some r => t1_result g str start_pos r | None => True end).
Proof.
  intros Hok Hs. unfold run_t1, t1set_init, vm_bind, vm_ret, vm_malloc, vm_lift.
  repeat (destruct (malloc _ _) as [[] ?]; cbn [fst snd andb]); try done.
  pose proof (seed_spec g Hok str start_pos) as Hseed.
  destruct (t1_eps_add _ _ _ _ _) as [cur|]; [|done]. destruct Hseed as [[V R] Q].
  pose proof (run_t1_loop_spec g Hok str start_pos
    (Datatypes.S (Datatypes.S (length str - start_pos))) start_pos cur _ None V ∅ R
    (empty_rep g) Q) as Hl.
  destruct (run_t1_loop _ _ _ _ _ _ _); simpl in *.
  - apply Hl; try lia. intros e He. by eapply accepts_ge.
  - apply Hl; try lia. intros e He. by eapply accepts_ge.
Qed.

Context (plenty : S -> Prop) `{!PlentyHeap S plenty}.

Lemma run_t1_plenty g str start_pos (s : S) :
  graph_ok g = true -> start_pos <= length str -> plenty s ->
  wp (run_t1 g str start_pos s) (fun r =>
    exists stop, fst r = Some stop /\ t1_result g str start_pos stop /\ plenty (snd r)).
Proof using Type*.
  intros Hok Hs P. pose proof (run_t1_spec g str start_pos s Hok Hs) as Hr. revert Hr.
  unfold run_t1, t1set_init, vm_bind, vm_ret, vm_malloc, vm_lift.
  repeat match goal with
  | |- context [malloc ?n ?s] =>
      let H := fresh in
      assert (plenty s) as H by assumption; apply (plenty_malloc n) in H;
      destruct (malloc n s) as [? ?]; cbn [fst snd andb] in *; destruct H as [-> ?]
  end.
  cbn [fst snd andb].
  destruct (t1_eps_add _ _ _ _ _) as [cur|]; [|done].
  destruct (run_t1_loop _ _ _ _ _ _ _) as [r|]; simpl; [eauto|done].
Qed.

End Engine1.
