(* ===== verification/RegexTier2.v ===== *)
(** * RegexTier2: the tagged simulation

    On a graph whose epsilon paths are bounded ([eps_bounded]) the tagged
    simulation returns the same extent as Tier 1 and registers that a run of the
    graph wrote.  Its epsilon closure keeps no visited set: on a cycle of
    epsilon states it uses up every fuel. *)

From S2P Require Import Prelude CText Value RegexExec RegexGraph RegexTier1.
From Stdlib Require Import ZArith Lia Bool List.
From stdpp Require Import base numbers list gmap.

Local Open Scope nat_scope.
Local Open Scope c_scope.

(** Epsilon pointers whatever the position. *)
Definition eps_pointers (g : NfaGraph) (id : nat) : list nat :=
  match arena g !! id with
  | Some st =>
      match type st with
      | NFA_SPLIT => pointer_list (out1 st) ++ pointer_list (out2 st)
      | NFA_SAVE _ | NFA_ANCHOR _ => pointer_list (out1 st)
      | _ => []
      end
  | None => []
  end.

(** No epsilon path from [id] is [d] edges long. *)
Fixpoint eps_bounded (g : NfaGraph) (d : nat) (id : nat) : bool :=
  match d with
  | O => false
  | S d => forallb (eps_bounded g d) (eps_pointers g id)
  end.

(** No epsilon path of the graph is [d] edges long. *)
Definition all_bounded (g : NfaGraph) (d : nat) : bool :=
  forallb (eps_bounded g d) (seq 0 (num_states g)).

(** ** Tagged runs *)

(** The registers after passing through a state. *)
Definition tagged (st : NfaState) (regs : list Z) (pos : nat) : list Z :=
  match type st with NFA_SAVE idx => write_save regs idx pos | _ => regs end.

(** An epsilon move that carries registers. *)
Inductive tag_edge (g : NfaGraph) (str : list Z) (pos : nat)
    : nat * list Z -> nat * list Z -> Prop :=
  | tag_epsilon id st j regs :
      arena g !! id = Some st -> j ∈ state_succ (at_pos str pos) st ->
      tag_edge g str pos (id, regs) (j, tagged st regs pos).

(** A move of a tagged run: state, position and registers. *)
Inductive tag_step (g : NfaGraph) (str : list Z) : nat * nat * list Z -> nat * nat * list Z -> Prop :=
  | tag_step_epsilon id j pos regs regs' :
      tag_edge g str pos (id, regs) (j, regs') ->
      tag_step g str (id, pos, regs) (j, pos, regs')
  | tag_step_byte id j pos byte regs :
      str !! pos = Some byte -> j ∈ byte_succ g byte id ->
      tag_step g str (id, pos, regs) (j, S pos, regs).

(** [captured_run]: a run over the graph from the start state at [start_pos],
    registers unset, that stops in ACCEPT at [stop] with [regs]. *)
Definition captured_run (g : NfaGraph) (str : list Z) (nsaves start_pos stop : nat)
    (regs : list Z) : Prop :=
  rtc (tag_step g str) (g_start g, start_pos, replicate nsaves (-1)%Z)
    (g_accept g, stop, regs).

Lemma write_save_length regs idx pos : length (write_save regs idx pos) = length regs.
Proof. unfold write_save. destruct (_ && _); [apply length_insert|done]. Qed.

Lemma tagged_length st regs pos : length (tagged st regs pos) = length regs.
Proof. unfold tagged. destruct (type st); auto using write_save_length. Qed.

Lemma tag_steps_length g str a b : rtc (tag_step g str) a b -> length b.2 = length a.2.
Proof.
  induction 1 as [|a b c Hs _ IH]; [done|]. rewrite IH.
  destruct Hs as [id j pos regs regs' He|]; [|done].
  inversion He; subst. apply tagged_length.
Qed.

Lemma tag_edges_steps g str pos a b :
  rtc (tag_edge g str pos) a b ->
  rtc (tag_step g str) (a.1, pos, a.2) (b.1, pos, b.2).
Proof.
  induction 1 as [|[i ri] [j rj] c He _ IH]; [constructor|].
  eapply rtc_l; [constructor; eassumption|done].
Qed.

Lemma tag_edges_reach g str pos a b :
  rtc (tag_edge g str pos) a b -> eps_reach g (at_pos str pos) a.1 b.1.
Proof.
  induction 1 as [|a b c He _ IH]; [constructor|]. eapply rtc_l; [|exact IH].
  inversion He as [id st j regs Hst Hj]; subst. unfold eps_edge, eps_succ. simpl. by rewrite Hst.
Qed.

(** A tagged run is a run. *)
Lemma tag_steps_accept g str a b stop :
  rtc (tag_step g str) a b -> accepts_from g str b.1.1 b.1.2 stop ->
  accepts_from g str a.1.1 a.1.2 stop.
Proof.
  induction 1 as [|a b c Hs _ IH]; [done|]. intros Ha. specialize (IH Ha).
  destruct Hs as [id j pos regs regs' He|]; simpl in *; [|eauto with regex].
  inversion He as [? st ? ? Hst Hj]; subst.
  eapply accept_epsilon; [|exact IH]. unfold eps_succ. by rewrite Hst.
Qed.

Definition occupied (m : T2Map) (i : nat) : Prop := exists regs, m !! i = Some (Some regs).

(** The threads that the occupants of [cur], the first of them at [i], start. *)
Fixpoint t2_targets (g : NfaGraph) (byte : Z) (i : nat) (cur : T2Map) : list (nat * list Z) :=
  match cur with
  | [] => []
  | None :: rest => t2_targets g byte (S i) rest
  | Some regs :: rest =>
      map (fun j => (j, regs)) (byte_succ g byte i) ++ t2_targets g byte (S i) rest
  end.

Lemma elem_of_t2_targets g byte cur : forall i r,
  r ∈ t2_targets g byte i cur <->
  exists k, cur !! k = Some (Some r.2) /\ r.1 ∈ byte_succ g byte (i + k).
Proof.
  induction cur as [|[regs|] cur IH]; intros i r; simpl.
  - split; [set_solver|]. by intros (k & ? & _).
  - rewrite elem_of_app, IH, list_elem_of_fmap. split.
    + intros [(j & -> & Hj)|(k & Hk & Hr)].
      * exists 0. by rewrite Nat.add_0_r.
      * exists (S k). by rewrite <- plus_n_Sm.
    + intros ([|k] & Hk & Hr); simpl in Hk.
      * left. rewrite Nat.add_0_r in Hr. exists r.1. destruct r. simpl in *. by simplify_eq.
      * right. exists k. by rewrite <- plus_n_Sm in Hr.
  - rewrite IH. split.
    + intros (k & Hk & Hr). exists (S k). by rewrite <- plus_n_Sm.
    + intros ([|k] & Hk & Hr); [done|]. exists k. by rewrite <- plus_n_Sm in Hr.
Qed.

Section Closure2.

Context (g : NfaGraph) (str : list Z) (pos : nat).
Context (Hok : graph_ok g = true).

Abbreviation ctx := (at_pos str pos).

(** What adding threads at [roots] does to a map. *)
Record t2_added (roots : list (nat * list Z)) (m m' : T2Map) : Prop := {
  t2_len : length m = num_states g -> length m' = num_states g;
  t2_occ i : occupied m' i <->
    occupied m i \/ (consuming g i /\ exists r, r ∈ roots /\ eps_reach g ctx r.1 i);
  t2_regs i regs : m' !! i = Some (Some regs) ->
    m !! i = Some (Some regs) \/
    exists r, r ∈ roots /\ rtc (tag_edge g str pos) r (i, regs);
}.

Lemma t2_added_nil m : t2_added [] m m.
Proof.
  constructor; [done| |auto]. intros i. split; [auto|].
  intros [?|(_ & r & Hr & _)]; [done|set_solver].
Qed.

Lemma t2_added_trans r1 r2 m1 m2 m3 :
  t2_added r1 m1 m2 -> t2_added r2 m2 m3 -> t2_added (r1 ++ r2) m1 m3.
Proof.
  intros [A1 A2 A3] [B1 B2 B3]. constructor; [auto| |].
  - intros i. rewrite B2, A2. setoid_rewrite elem_of_app. split.
    + intros [[H|(Hc & r & Hr & Hp)]|(Hc & r & Hr & Hp)]; eauto 6.
    + intros [H|(Hc & r & [Hr|Hr] & Hp)]; eauto 7.
  - intros i regs H. setoid_rewrite elem_of_app.
    destruct (B3 i regs H) as [H2|(r & Hr & Hp)]; [|eauto].
    destruct (A3 i regs H2) as [H1|(r & Hr & Hp)]; eauto.
Qed.

Lemma t2_added_leaf id regs m :
  consuming g id -> length m = num_states g -> id < num_states g ->
  t2_added [(id, regs)] m (<[id := Some regs]> m).
Proof.
  intros Hc Hl Hid.
  assert (forall i, eps_reach g ctx id i -> i = id) as Hself.
  { intros i Hi. inversion Hi as [|? j ? He]; subst; [done|].
    unfold eps_edge in He. rewrite consuming_no_succ in He by done. set_solver. }
  constructor.
  - by rewrite length_insert.
  - intros i. unfold occupied. destruct (decide (i = id)) as [->|Hne].
    + rewrite list_lookup_insert_eq by lia. split; [|eauto].
      intros _. right. split; [done|]. exists (id, regs). split; [set_solver|constructor].
    + rewrite list_lookup_insert_ne by done. split; [auto|].
      intros [H|(_ & r & ->%list_elem_of_singleton & Hp)]; [done|].
      simpl in Hp. apply Hself in Hp. congruence.
  - intros i regs' H. destruct (decide (i = id)) as [->|Hne].
    + rewrite list_lookup_insert_eq in H by lia. injection H as <-.
      right. exists (id, regs). split; [set_solver|constructor].
    + rewrite list_lookup_insert_ne in H by done. auto.
Qed.

Lemma t2_added_node id st regs m m' :
  arena g !! id = Some st -> is_epsilon st = true ->
  t2_added (map (fun j => (j, tagged st regs pos)) (state_succ ctx st)) m m' ->
  t2_added [(id, regs)] m m'.
Proof.
  intros Hst Heps [A1 A2 A3].
  assert (forall r, r ∈ map (fun j => (j, tagged st regs pos)) (state_succ ctx st) ->
            tag_edge g str pos (id, regs) r) as Hr.
  { intros r (j & -> & Hj)%list_elem_of_fmap. by constructor. }
  constructor; [done| |].
  - intros i. rewrite A2. split; (intros [H|(Hc & r & Hin & Hp)]; [by left|right; split; [done|]]).
    + exists (id, regs). split; [set_solver|].
      apply Hr in Hin. inversion Hin as [? st' j ? Hst' Hj]; subst.
      simpl in *. eapply rtc_l; [|exact Hp]. unfold eps_edge, eps_succ. by rewrite Hst'.
    + apply list_elem_of_singleton in Hin as ->. simpl in Hp.
      inversion Hp as [|? j ? He Hrest]; subst.
      * destruct Hc as (st' & Hst' & E). congruence.
      * unfold eps_edge, eps_succ in He. rewrite Hst in He.
        exists (j, tagged st regs pos). split; [|done]. apply list_elem_of_fmap. eauto.
  - intros i regs' H. destruct (A3 i regs' H) as [?|(r & Hin & Hp)]; [by left|right].
    exists (id, regs). split; [set_solver|]. eapply rtc_l; [apply Hr, Hin|done].
Qed.

Lemma bounded_succ d id st j :
  arena g !! id = Some st -> eps_bounded g (S d) id = true -> j ∈ state_succ ctx st ->
  eps_bounded g d j = true.
Proof.
  intros Hst Hb Hj. simpl in Hb. rewrite forallb_forall in Hb. apply Hb.
  apply list_elem_of_In. unfold eps_pointers. rewrite Hst. unfold state_succ in Hj.
  destruct (type st) as [| | | | | | |which|]; try done.
  destruct (anchor_matches which ctx); [done|set_solver].
Qed.

Context {S : Type} `{!VmHeap S} (plenty : S -> Prop) `{!PlentyHeap S plenty}.

Lemma wpp_clone regs s (Q : option (list Z) -> Prop) :
  plenty s -> Q (Some regs) -> wpp plenty (regs_clone regs) s Q.
Proof using PlentyHeap0.
  intros P HQ. apply wpp_bind. apply (wpp_malloc plenty); [done|]. by intros.
Qed.

Definition t2_eps_correct (d id : nat) : Prop :=
  forall m regs s, length m = num_states g -> plenty s ->
  wpp plenty (t2_eps_add d g ctx m (Some id) (Some regs) pos) s
    (fun m' => t2_added [(id, regs)] m m').

(** A pointer of a state that has been shown correct one level down. *)
Lemma t2_pointer_spec d p m regs s :
  (forall j, j ∈ pointer_list p -> t2_eps_correct d j) ->
  length m = num_states g -> plenty s ->
  wpp plenty (t2_eps_add d g ctx m p (Some regs) pos) s
    (fun m' => t2_added (map (fun j => (j, regs)) (pointer_list p)) m m').
Proof.
  intros Hc Hl P. destruct p as [j|].
  - apply Hc; [set_solver|done|done].
  - destruct d; (apply wpp_ret; [done|apply t2_added_nil]).
Qed.

Lemma t2_eps_add_spec d : forall id,
  id < num_states g -> eps_bounded g d id = true -> t2_eps_correct d id.
Proof using Hok PlentyHeap0.
  induction d as [|d IH]; intros id Hid Hb; [done|]. intros m regs s Hl P.
  destruct (state_at g id Hid) as [st Hst]. cbn [t2_eps_add].
  apply wpp_bind, wpp_lift; [done|]. unfold array_read. rewrite Hst. cbn [wp]. intros s1 P1.
  assert (forall j, j ∈ state_succ ctx st -> t2_eps_correct d j) as Hsucc.
  { intros j Hj. apply IH; [|by eapply bounded_succ].
    eapply pointers_in_range; eauto using state_succ_pointers. }
  assert (forall m', t2_added (map (fun j => (j, tagged st regs pos)) (state_succ ctx st)) m m' ->
            is_epsilon st = true -> t2_added [(id, regs)] m m') as Hnode
    by eauto using t2_added_node.
  assert (is_epsilon st = false ->
          wpp plenty (vm_lift (array_write m id (Some regs))) s1 (t2_added [(id, regs)] m)) as Hleaf.
  { intros E. apply wpp_lift; [done|]. rewrite array_write_in by lia. cbn [wp].
    apply t2_added_leaf; [by exists st|done|done]. }
  unfold state_succ, tagged, is_epsilon in *.
  destruct (type st) as [| | | | | | |which|idx]; auto.
  - apply wpp_bind, wpp_clone; [done|]. intros s2 P2. apply wpp_bind.
    eapply wpp_mono; [apply t2_pointer_spec; [set_solver|done|done]|].
    intros m1 A1 s3 P3. eapply wpp_mono.
    + apply t2_pointer_spec; [set_solver| |done]. by apply A1.
    + intros m2 A2. apply Hnode; [|done]. rewrite map_app. by eapply t2_added_trans.
  - destruct (anchor_matches which ctx).
    + eapply wpp_mono; [by apply t2_pointer_spec|]. auto.
    + apply wpp_ret; [done|]. apply Hnode; [apply t2_added_nil|done].
  - eapply wpp_mono; [by apply t2_pointer_spec|]. auto.
Qed.

(** ** A step over a byte *)

Context (d : nat).
Context (Hb : all_bounded g d = true).

Lemma bounded_all id : id < num_states g -> eps_bounded g d id = true.
Proof using Hb.
  intros H. unfold all_bounded in Hb. rewrite forallb_forall in Hb.
  apply Hb, in_seq. lia.
Qed.

Lemma t2_step_spec byte p cur : forall i m s,
  pos = Datatypes.S p -> i + length cur = num_states g -> length m = num_states g -> plenty s ->
  wpp plenty (t2_step d g ctx byte p i cur m) s (fun r =>
    exists m', r = Some m' /\ t2_added (t2_targets g byte i cur) m m').
Proof using Hok Hb PlentyHeap0.
  induction cur as [|[regs|] cur IH]; intros i m s Hp Hi Hl P; cbn [t2_step t2_targets length] in *.
  - apply wpp_ret; [done|]. exists m. split; [done|apply t2_added_nil].
  - destruct (state_at g i) as [st Hst]; [lia|].
    apply wpp_bind, wpp_lift; [done|]. unfold array_read. rewrite Hst. cbn [wp].
    intros s1 P1. unfold byte_succ. rewrite Hst. unfold state_targets.
    destruct (state_matches_byte st byte) eqn:E; [|apply IH; auto; lia].
    apply wpp_bind, wpp_clone; [done|]. intros s2 P2. apply wpp_bind. rewrite <- Hp.
    eapply wpp_mono; [apply t2_pointer_spec; [|done|done]|].
    + intros j Hj.
      assert (j < num_states g) by (eapply pointers_in_range; [done|exact Hst|set_solver]).
      by apply t2_eps_add_spec, bounded_all.
    + intros m1 A1 s3 P3. eapply wpp_mono; [apply IH; auto; [lia|by apply A1]|].
      intros r (m' & -> & A2). exists m'. split; [done|]. by eapply t2_added_trans.
  - apply IH; auto; lia.
Qed.

End Closure2.

(** ** The main loop *)

Section Run2.

Context (g : NfaGraph) (str : list Z) (start_pos nsaves d : nat).
Context (Hok : graph_ok g = true) (Hb : all_bounded g d = true) (Hn : 2 <= nsaves).
Context {S : Type} `{!VmHeap S} (plenty : S -> Prop) `{!PlentyHeap S plenty}.

Abbreviation ends stop := (matches_at g str start_pos stop).
Abbreviation seed := (g_start g, start_pos, replicate nsaves (-1)%Z).

(** The map at [pos]: its threads are tagged runs from the seed, and it misses
    no run that can still stop at [pos] or later. *)
Record map_at (m : T2Map) (pos : nat) : Prop := {
  map_len : length m = num_states g;
  map_consuming i : occupied m i -> consuming g i;
  map_regs i regs : m !! i = Some (Some regs) ->
    rtc (tag_step g str) seed (i, pos, regs);
  map_complete stop : ends stop -> pos <= stop ->
    exists i, occupied m i /\ accepts_from g str i pos stop;
}.

Lemma map_sound m pos i stop :
  map_at m pos -> occupied m i -> accepts_from g str i pos stop -> ends stop.
Proof.
  intros M [regs Hi] Ha. unfold matches_at.
  apply (tag_steps_accept g str seed (i, pos, regs)); [by apply (map_regs m pos M)|done].
Qed.

Lemma map_accept m pos :
  map_at m pos -> occupied m (g_accept g) <-> ends pos.
Proof.
  intros M. split.
  - intros H. eapply map_sound; eauto with regex.
  - intros He. destruct (map_complete m pos M pos He) as (i & Hi & Ha); [lia|].
    apply accepts_consuming in Ha as [[-> _]|(b & k & _ & _ & Ha)];
      [done| |by apply (map_consuming m pos M)].
    apply accepts_ge in Ha. lia.
Qed.

(** Threads added to an empty map from [roots]. *)
Lemma added_map_at roots pos m :
  t2_added g str pos roots (replicate (num_states g) None) m ->
  (forall r, r ∈ roots -> r.1 < num_states g /\ rtc (tag_step g str) seed (r.1, pos, r.2)) ->
  (forall stop, ends stop -> pos <= stop ->
     exists r, r ∈ roots /\ accepts_from g str r.1 pos stop) ->
  map_at m pos.
Proof using Hok.
  intros [A1 A2 A3] Hroots Hcomplete.
  assert (forall i, ~ occupied (replicate (num_states g) None) i) as Hempty.
  { intros i [regs Hi]. by apply lookup_replicate in Hi as [? _]. }
  constructor.
  - apply A1, length_replicate.
  - intros i Hi. apply A2 in Hi as [Hi|[? _]]; [by apply Hempty in Hi|done].
  - intros i regs Hi. destruct (A3 i regs Hi) as [Hr|(r & Hr & Hp)].
    { exfalso. eapply Hempty. by exists regs. }
    etransitivity; [by apply Hroots|]. apply (tag_edges_steps g str pos r (i, regs) Hp).
  - intros stop He Hle. destruct (Hcomplete stop He Hle) as (r & Hr & Ha).
    destruct (accepts_closed g Hok str pos
      (fun i => i < num_states g /\ eps_reach g (at_pos str pos) r.1 i) (occupied m) r.1 stop)
      as (j & Hj & _ & Haj); [| |tauto| |done|by exists j].
    + intros j k [_ Hp] Hk. split; [by eapply eps_succ_range|]. by eapply rtc_r.
    + intros j [_ Hp] Hc. apply A2. eauto.
    + split; [by apply Hroots|constructor].
Qed.

Lemma seed_map s :
  plenty s ->
  wpp plenty (t2_eps_add d g (at_pos str start_pos) (replicate (num_states g) None)
    (Some (g_start g)) (Some (replicate nsaves (-1)%Z)) start_pos) s
    (fun m => map_at m start_pos).
Proof using Hok Hb Hn PlentyHeap0.
  intros P. pose proof (start_in_range g Hok) as Hs. eapply wpp_mono.
  - apply (t2_eps_add_spec g str start_pos Hok plenty); auto using length_replicate.
    by apply (bounded_all g).
  - intros m A. eapply added_map_at; [exact A| |].
    + intros r ->%list_elem_of_singleton. split; [done|constructor].
    + intros stop He _. eexists. split; [by apply list_elem_of_singleton|done].
Qed.

Lemma step_map m pos byte s :
  map_at m pos -> str !! pos = Some byte -> plenty s ->
  wpp plenty (t2_step d g (at_pos str (Datatypes.S pos)) byte pos 0 m
                (replicate (num_states g) None)) s
    (fun r => exists m', r = Some m' /\ map_at m' (Datatypes.S pos)).
Proof using Hok Hb Hn PlentyHeap0.
  intros M Hbyte P. eapply wpp_mono.
  - apply (t2_step_spec g str (Datatypes.S pos) Hok plenty d Hb);
      auto using length_replicate. by apply (map_len m pos M).
  - intros r (m' & -> & A). exists m'. split; [done|].
    eapply added_map_at; [exact A| |].
    + intros r (k & Hk & Hr)%elem_of_t2_targets. simpl in Hr.
      split; [by eapply byte_succ_range|].
      eapply rtc_r; [by apply (map_regs m pos M)|]. by econstructor.
    + intros stop He Hle. destruct (map_complete m pos M stop He) as (i & [regs Hi] & Ha); [lia|].
      apply accepts_consuming in Ha as [[_ ->]|(b & k & Hb' & Hk & Ha)];
        [lia| |apply (map_consuming m pos M); by exists regs].
      rewrite Hbyte in Hb'. injection Hb' as <-.
      exists (k, regs). split; [|done]. apply elem_of_t2_targets. by exists i.
Qed.

(** Registers of a match that stops at [stop]. *)
Definition regs_of_match (stop : nat) (regs : list Z) : Prop :=
  exists run_regs, captured_run g str nsaves start_pos stop run_regs /\
    accept_regs run_regs start_pos stop = Some regs.

Definition found2 (found : option (list Z)) (pos : nat) : Prop :=
  match found with
  | Some regs => exists stop, found_before g str start_pos (Some stop) pos /\
                   regs_of_match stop regs
  | None => found_before g str start_pos None pos
  end.

Definition t2_result (r : option (list Z)) : Prop :=
  match r with
  | Some regs => exists stop, longest_match g str start_pos stop /\ regs_of_match stop regs
  | None => forall e, ~ ends e
  end.

Lemma found2_final found pos :
  found2 found pos -> (forall e, ends e -> e < pos) -> t2_result found.
Proof.
  destruct found as [regs|]; simpl.
  - intros (stop & Hf & Hr) Hall. exists stop. split; [|done].
    by apply (found_final g str start_pos (Some stop) pos).
  - intros Hf Hall. by apply (found_final g str start_pos None pos).
Qed.

Lemma accept_regs_defined regs pos : length regs = nsaves ->
  exists out, accept_regs regs start_pos pos = Some out.
Proof using Hn.
  intros Hl. unfold accept_regs. rewrite array_write_in by lia.
  rewrite array_write_in by (rewrite length_insert; lia). eauto.
Qed.

(** The ACCEPT check of a round. *)
Lemma found2_step m pos found :
  map_at m pos -> found2 found pos ->
  exists acc, array_read m (g_accept g) = Some acc /\
  wp (match acc with
      | Some regs => let? out_regs := accept_regs regs start_pos pos in Some (Some out_regs)
      | None => Some found
      end) (fun found' => found2 found' (Datatypes.S pos)).
Proof using Hok Hn.
  intros M F. pose proof (map_accept m pos M) as Hacc.
  destruct (lookup_lt_is_Some_2 m (g_accept g)) as [acc Hm].
  { rewrite (map_len m pos M). by apply accept_in_range. }
  exists acc. split; [done|].
  destruct acc as [regs|].
  - pose proof (map_regs m pos M _ _ Hm) as Hrun.
    destruct (accept_regs_defined regs pos) as [out Hout].
    { apply tag_steps_length in Hrun. simpl in Hrun. by rewrite Hrun, length_replicate. }
    rewrite Hout. cbn [wp]. exists pos. split; [|by exists regs].
    split_and!; [apply Hacc; by exists regs|lia|intros; lia].
  - assert (~ ends pos) as Hno.
    { rewrite <- Hacc. intros [regs Hr]. congruence. }
    assert (forall e, ends e -> e < Datatypes.S pos -> e < pos) as Hlt.
    { intros e He Hle. destruct (decide (e = pos)) as [->|]; [done|lia]. }
    cbn [wp]. destruct found as [regs|]; simpl in *.
    + destruct F as (stop & (H1 & H2 & H3) & Hr). exists stop.
      split_and!; [done|lia|intros e He Hle; apply H3; auto|done].
    + intros e He. specialize (F e He). specialize (Hlt e He). lia.
Qed.

Lemma inactive_empty m i : t2_active m = false -> ~ occupied m i.
Proof.
  unfold t2_active. intros H [regs Hi]. apply not_true_iff_false in H. apply H.
  apply existsb_exists. exists (Some regs). split; [|done].
  eapply list_elem_of_In, list_elem_of_lookup_2; eauto.
Qed.

Lemma run_t2_loop_spec fuel : forall pos m found s,
  map_at m pos -> found2 found pos -> start_pos <= length str -> pos <= length str ->
  length str - pos < fuel -> plenty s ->
  wpp plenty (run_t2_loop fuel d g str start_pos pos m found) s (fun r =>
    exists r', r = Some r' /\ t2_result r').
Proof using Hok Hb Hn PlentyHeap0.
  induction fuel as [|fuel IH]; intros pos m found s M F Hs Hp Hfuel P; [lia|].
  cbn [run_t2_loop]. destruct (found2_step m pos found M F) as (acc & Hacc & Hf).
  apply wpp_bind, wpp_lift; [done|]. rewrite Hacc. cbn [wp]. intros s1 P1.
  apply wpp_bind, wpp_lift; [done|]. eapply wp_mono; [exact Hf|]. intros found' F' s2 P2.
  destruct (Nat.leb_spec (length str) pos) as [Hlen|Hlen].
  { apply wpp_ret; [done|]. eexists. split; [done|]. apply (found2_final _ _ F').
    intros e He. pose proof (ends_range g str start_pos e He Hs). lia. }
  destruct (t2_active m) eqn:Hact; simpl.
  - destruct (lookup_lt_is_Some_2 str pos Hlen) as [byte Hbyte].
    apply wpp_bind, wpp_lift; [done|]. unfold array_read. rewrite Hbyte. cbn [wp]. intros s3 P3.
    apply wpp_bind. eapply wpp_mono; [by apply step_map|]. intros r (m' & -> & M') s4 P4.
    apply IH; auto; lia.
  - apply wpp_ret; [done|]. eexists. split; [done|]. apply (found2_final _ _ F').
    intros e He. destruct (decide (pos <= e)) as [Hle|]; [|lia].
    destruct (map_complete m pos M e He Hle) as (i & Hi & _).
    by apply inactive_empty with (i := i) in Hact.
Qed.

Lemma run_t2_spec s :
  start_pos <= length str -> plenty s ->
  wpp plenty (run_t2 d g str start_pos nsaves) s (fun r => exists r', r = Some r' /\ t2_result r').
Proof using Hok Hb Hn PlentyHeap0.
  intros Hs P. unfold run_t2, regs_alloc.
  apply wpp_bind, (wpp_malloc plenty); [done|]. intros s1 P1. cbn [negb].
  apply wpp_bind, (wpp_malloc plenty); [done|]. intros s2 P2. cbn [negb].
  apply wpp_bind, wpp_bind, (wpp_malloc plenty); [done|]. intros s3 P3.
  apply wpp_ret; [done|]. intros s4 P4.
  apply wpp_bind. eapply wpp_mono; [by apply seed_map|]. intros m M s5 P5.
  apply run_t2_loop_spec; auto.
  intros e He. by eapply accepts_ge.
Qed.

End Run2.
