(* ===== verification/RegexSearch.v ===== *)
(** * RegexSearch: the public entry points of the regex simulations

    [exec_match] and [exec_search] (reginold/exec.c) against the language of the
    graph: extents, captures, the agreement of the two tiers, and the two ways in
    which Tier 2 departs from Tier 1 (an epsilon cycle, a failed clone). *)

From S2P Require Import Prelude CText Value RegexExec RegexGraph RegexTier1 RegexTier2.
From Stdlib Require Import ZArith Lia Bool List.
From stdpp Require Import base numbers list gmap.

Local Open Scope nat_scope.
Local Open Scope c_scope.

(** What [exec_match] promises at a position. *)
Definition match_spec (g : NfaGraph) (str : list Z) (pos : nat) (r : ExecResult) : Prop :=
  match r with
  | EXEC_MATCH ms me => ms = Z.of_nat pos /\
      exists stop, me = Z.of_nat stop /\ longest_match g str pos stop
  | EXEC_MISMATCH => forall stop, ~ matches_at g str pos stop
  | EXEC_ERROR => False
  end.

(** What [exec_search] promises from a position: the leftmost match, and the
    longest one there. *)
Definition search_spec (g : NfaGraph) (str : list Z) (pos : nat) (r : ExecResult) : Prop :=
  match r with
  | EXEC_MATCH ms me =>
      exists b e, ms = Z.of_nat b /\ me = Z.of_nat e /\ pos <= b <= length str /\
        longest_match g str b e /\
        forall p e', pos <= p < b -> ~ matches_at g str p e'
  | EXEC_MISMATCH => forall p e, pos <= p <= length str -> ~ matches_at g str p e
  | EXEC_ERROR => False
  end.

(** Graphs a tier can run: Tier 2 needs bounded epsilon paths and room for the
    two registers of the overall match. *)
Definition runnable (g : NfaGraph) (tier : RegTier) (eps : nat) : bool :=
  graph_ok g &&
  match tier with
  | REG_TIER_1 => true
  | _ => all_bounded g eps && negb (num_saves g =? 1)
  end.

Definition nsaves_of (g : NfaGraph) : nat := if num_saves g =? 0 then 2 else num_saves g.

Section Api2.

Context {S : Type} `{!VmHeap S} (plenty : S -> Prop) `{!PlentyHeap S plenty}.
Context (g : NfaGraph) (str : list Z) (eps : nat).

Lemma accept_regs_bounds regs b e out :
  accept_regs regs b e = Some out -> nth 0 out (-1)%Z = Z.of_nat b /\ nth 1 out (-1)%Z = Z.of_nat e.
Proof.
  unfold accept_regs, array_write. destruct regs as [|x [|y regs]]; simpl; intros [= <-]; done.
Qed.

Lemma runnable_tier2 tier :
  tier <> REG_TIER_1 -> runnable g tier eps = true ->
  graph_ok g = true /\ all_bounded g eps = true /\ 2 <= nsaves_of g.
Proof.
  unfold runnable, nsaves_of. intros Ht H. apply andb_true_iff in H as [Hg H].
  destruct tier; [done| |]; apply andb_true_iff in H as [Hb Hn];
    apply negb_true_iff, Nat.eqb_neq in Hn;
    destruct (Nat.eqb_spec (num_saves g) 0); split_and!; auto; lia.
Qed.

(** Tier 2 through [exec_match], captures included. *)
Lemma exec_match_tier2 tier pos caps s :
  tier <> REG_TIER_1 -> runnable g tier eps = true -> pos <= length str -> plenty s ->
  wpp plenty (exec_match eps g tier str pos caps) s (fun r =>
    match_spec g str pos (fst r) /\
    forall ms me, fst r = EXEC_MATCH ms me ->
      exists stop run_regs regs, me = Z.of_nat stop /\
        captured_run g str (nsaves_of g) pos stop run_regs /\
        accept_regs run_regs pos stop = Some regs /\
        snd r = match caps with
                | Some c => Some (captures_of_regs regs (length c))
                | None => None
                end).
Proof using PlentyHeap0.
  intros Ht Hr Hpos P. destruct (runnable_tier2 tier Ht Hr) as (Hok & Hb & Hn).
  unfold exec_match. destruct tier; [done| |].
  all: apply wpp_bind; unfold regs_alloc; apply wpp_bind, (wpp_malloc plenty); [done|];
    intros s1 P1; apply wpp_ret; [done|]; intros s2 P2; apply wpp_bind;
    eapply wpp_mono; [by apply (run_t2_spec g str pos (nsaves_of g) eps Hok Hb Hn plenty)|];
    intros r (r' & -> & Hres) s3 P3; apply wpp_ret; [done|];
    destruct r' as [regs|]; cbn [t2_result fst snd] in *;
    [|by split; [|intros ? ? [=]]];
    destruct Hres as (stop & Hlong & run_regs & Hrun & Hout);
    destruct (accept_regs_bounds _ _ _ _ Hout) as [E0 E1]; rewrite E0, E1;
    (split; [split; [done|by exists stop]|intros ms me [= <- <-]; by exists stop, run_regs, regs]).
Qed.

Lemma exec_match_spec tier pos caps s :
  runnable g tier eps = true -> pos <= length str -> plenty s ->
  wpp plenty (exec_match eps g tier str pos caps) s (fun r => match_spec g str pos (fst r)).
Proof using PlentyHeap0.
  intros Hr Hpos P. destruct (decide (tier = REG_TIER_1)) as [->|Ht].
  - apply andb_true_iff in Hr as [Hok _]. unfold exec_match. apply wpp_bind.
    eapply wp_mono; [by apply (run_t1_plenty plenty g str pos s Hok)|].
    intros r (stop & Hf & Hres & P'). split; [|done]. intros s' Ps'. rewrite Hf.
    apply wpp_ret; [done|]. destruct stop as [stop|]; simpl in *; [|done].
    split; [done|]. by exists stop.
  - eapply wpp_mono; [by apply exec_match_tier2|]. by intros r [H _].
Qed.

Lemma exec_search_loop_spec tier fuel : forall pos caps s,
  runnable g tier eps = true -> pos <= length str -> length str - pos < fuel -> plenty s ->
  wpp plenty (exec_search_loop fuel eps g tier str pos caps) s
    (fun r => search_spec g str pos (fst r)).
Proof using PlentyHeap0.
  induction fuel as [|fuel IH]; intros pos caps s Hr Hpos Hfuel P; [lia|].
  cbn [exec_search_loop]. destruct (Nat.leb_spec pos (length str)) as [_|]; [|lia].
  apply wpp_bind. eapply wpp_mono; [by apply exec_match_spec|].
  intros r Hm s1 P1. cbv beta in Hm. destruct (fst r) as [ms me| |] eqn:E; simpl in Hm; [| |done].
  - apply wpp_ret; [done|]. rewrite E. destruct Hm as (-> & stop & -> & Hl).
    exists pos, stop. split_and!; try done. intros p e' Hp. lia.
  - destruct (Nat.leb_spec (length str) pos) as [Hlen|Hlen].
    + apply wpp_ret; [done|]. intros p e Hp. assert (p = pos) as -> by lia. apply Hm.
    + eapply wpp_mono; [apply IH; auto; lia|]. intros r' Hs. cbv beta in Hs |- *.
      assert (forall p e, pos <= p -> ~ Datatypes.S pos <= p -> ~ matches_at g str p e) as Hhere.
      { intros p e H1 H2. assert (p = pos) as -> by lia. apply Hm. }
      destruct (fst r') as [ms me| |]; simpl in *; [|intros p e Hp|done].
      * destruct Hs as (b & e & -> & -> & Hb & Hl & Hleft). exists b, e.
        split_and!; try done; try lia. intros p e' Hp.
        destruct (decide (Datatypes.S pos <= p)); [apply Hleft; lia|apply Hhere; lia].
      * destruct (decide (Datatypes.S pos <= p)); [apply Hs; lia|apply Hhere; lia].
Qed.

End Api2.

(** ** Epsilon cycles *)

(** From every state of [loop] an epsilon move stays in [loop]. *)
Definition eps_cycle (g : NfaGraph) (ctx : AnchorCtx) (loop : list nat) : bool :=
  forallb (fun i => existsb (fun j => bool_decide (j ∈ loop)) (eps_succ g ctx i)) loop.

Section Diverge.

Context {S : Type} `{!VmHeap S} (plenty : S -> Prop) `{!PlentyHeap S plenty}.
Context (g : NfaGraph) (ctx : AnchorCtx) (loop : list nat).

(** [m] diverges, or returns and leaves the heap plentiful. *)
Definition keeps_plenty {A} (m : VM S A) (s : S) : Prop :=
  forall a s', m s = Some (a, s') -> plenty s'.

Lemma keeps_plenty_eps fuel : forall m p regs pos s,
  plenty s -> keeps_plenty (t2_eps_add fuel g ctx m p regs pos) s.
Proof using PlentyHeap0.
  induction fuel as [|fuel IH]; intros m p regs pos s P a s' H;
    destruct p as [id|], regs as [regs|]; cbn [t2_eps_add] in H;
    unfold vm_bind, vm_lift, vm_ret, regs_clone, vm_malloc in H; try (by simplify_eq).
  destruct (array_read (arena g) id) as [st|]; [|done].
  assert (forall o : option T2Map,
            match o with Some a => Some (a, s) | None => None end = Some (a, s') -> plenty s') as Hl
    by (intros [?|] ?; by simplify_eq/=).
  destruct (type st) as [| | | | | | |which|idx]; eauto.
  - unfold vm_bind, vm_ret in H. destruct (plenty_malloc (8 * Z.of_nat (length regs)) s P) as [E P1].
    destruct (malloc _ s) as [b s1]; simpl in *; subst.
    destruct (t2_eps_add fuel g ctx m (out1 st) (Some regs) pos s1) as [[m1 s2]|] eqn:E1; [|done].
    eapply IH; [|exact H]. by eapply IH.
  - destruct (anchor_matches which ctx); [by eapply IH|by simplify_eq].
  - by eapply IH.
Qed.

Lemma t2_eps_cycle fuel : forall m id regs pos s,
  eps_cycle g ctx loop = true -> id ∈ loop -> plenty s ->
  t2_eps_add fuel g ctx m (Some id) (Some regs) pos s = None.
Proof using PlentyHeap0.
  induction fuel as [|fuel IH]; intros m id regs pos s Hloop Hid P; [done|].
  pose proof Hloop as Hall. unfold eps_cycle in Hall. rewrite forallb_forall in Hall.
  specialize (Hall id (proj1 (list_elem_of_In _ _) Hid)).
  apply existsb_exists in Hall as (j & Hj & Hin). apply bool_decide_eq_true in Hin.
  apply list_elem_of_In in Hj. unfold eps_succ in Hj.
  cbn [t2_eps_add]. unfold vm_bind at 1, vm_lift at 1, array_read.
  destruct (arena g !! id) as [st|]; [|done].
  assert (forall p m regs s, plenty s -> j ∈ pointer_list p ->
            t2_eps_add fuel g ctx m p (Some regs) pos s = None) as Hp.
  { intros [k|] ? ? ? ? Hk; simpl in Hk; [|set_solver].
    apply list_elem_of_singleton in Hk as ->. by apply IH. }
  unfold state_succ in Hj.
  destruct (type st) as [| | | | | | |which|idx]; try (by apply elem_of_nil in Hj).
  - unfold vm_bind, regs_clone, vm_malloc, vm_bind, vm_ret.
    destruct (plenty_malloc (8 * Z.of_nat (length regs)) s P) as [E P1].
    destruct (malloc _ s) as [b s1]; simpl in *; subst.
    apply elem_of_app in Hj as [Hj|Hj]; [by rewrite Hp|].
    destruct (t2_eps_add fuel g ctx m (out1 st) (Some regs) pos s1) as [[m1 s2]|] eqn:E1; [|done].
    apply Hp; [|done]. by eapply keeps_plenty_eps.
  - destruct (anchor_matches which ctx); [by apply Hp|set_solver].
  - by apply Hp.
Qed.

Lemma run_t2_cycle eps str start_pos nsaves s :
  ctx = at_pos str start_pos ->
  eps_cycle g ctx loop = true -> g_start g ∈ loop -> plenty s ->
  run_t2 eps g str start_pos nsaves s = None.
Proof using PlentyHeap0.
  intros Hctx Hloop Hs P. unfold run_t2, regs_alloc, vm_bind, vm_malloc, vm_ret; cbv beta iota.
  repeat match goal with
  | |- context [malloc ?n ?s] =>
      let H := fresh in
      assert (plenty s) as H by assumption; apply (plenty_malloc n) in H;
      destruct (malloc n s) as [? ?]; cbn [fst snd negb] in *; destruct H as [-> ?];
      cbv beta iota; cbn [negb]; cbv beta iota
  end.
  rewrite <- Hctx. by rewrite t2_eps_cycle.
Qed.

End Diverge.

(** ** The graphs of two patterns, for concrete runs *)

Definition nfa (ty : NfaStateType) (o1 o2 : option nat) : NfaState :=
  {| type := ty; out1 := o1; out2 := o2 |}.

(** A captured run of [a], then [b]. *)
Definition graph_star_b : NfaGraph :=
  {| g_start := 0; g_accept := 5; num_saves := 4;
     arena := [nfa (NFA_SAVE 2) (Some 1) None; nfa NFA_SPLIT (Some 2) (Some 3);
               nfa (NFA_CHAR 97) (Some 1) None; nfa (NFA_SAVE 3) (Some 4) None;
               nfa (NFA_CHAR 98) (Some 5) None; nfa NFA_ACCEPT None None] |}.

(** A captured star below a star, the null checks of both loops skipped. *)
Definition graph_star_star : NfaGraph :=
  {| g_start := 0; g_accept := 5; num_saves := 4;
     arena := [nfa NFA_SPLIT (Some 1) (Some 5); nfa (NFA_SAVE 2) (Some 2) None;
               nfa NFA_SPLIT (Some 3) (Some 4); nfa (NFA_CHAR 97) (Some 2) None;
               nfa (NFA_SAVE 3) (Some 0) None; nfa NFA_ACCEPT None None] |}.

Definition subject_caab : list Z := [99; 97; 97; 98]%Z.

(** ** Claims *)

(** C24: [exec_search] on a graph its tier can run (in Tier 2 epsilon paths are
    bounded), with memory available: it never leaves its buffers and returns; the match it reports is the leftmost one from
    [start_pos], extended as far as possible, and it reports a mismatch exactly
    when no position has a match. *)
Theorem regex_search_leftmost_longest {S : Type} {VH : VmHeap S} (plenty : S -> Prop)
    {PH : PlentyHeap S plenty} (eps : nat) (g : NfaGraph) (tier : RegTier) (str : list Z)
    (start_pos : nat) (caps : option ExecCaptures) (s : S) :
  runnable g tier eps = true -> start_pos <= length str -> plenty s ->
  wp (exec_search eps g tier str start_pos caps s)
     (fun r => search_spec g str start_pos (fst (fst r))).
Proof.
  intros Hr Hs P. eapply wp_mono.
  - apply (exec_search_loop_spec plenty g str eps tier); auto; lia.
  - by intros r [H _].
Qed.

Lemma regex_search_leftmost_longest_witness :
  exec_search 5 graph_star_b REG_TIER_2 subject_caab 0 (Some [(0, 0); (0, 0)]%Z) (scripted [])
  = Some ((EXEC_MATCH 1 4, Some [(1, 4); (1, 3)]%Z), scripted []) /\
  search_spec graph_star_b subject_caab 0 (EXEC_MATCH 1 4).
Proof.
  split; [vm_compute; reflexivity|].
  assert (runnable graph_star_b REG_TIER_2 5 = true) as Hr by reflexivity.
  assert (0 <= length subject_caab) as Hl by (simpl; lia).
  exact (regex_search_leftmost_longest (fun s => outcomes s = []) 5 graph_star_b REG_TIER_2
           subject_caab 0 (Some [(0, 0); (0, 0)]%Z) (scripted []) Hr Hl eq_refl).
Defined.

(** C32: [exec_match] in Tier 1 on any well-formed graph, epsilon cycles
    included, and whatever the allocations do: no undefined behaviour, and the
    result is either EXEC_ERROR or the longest match at the position (a
    mismatch when there is none). *)
Theorem regex_tier1_any_heap {S : Type} {VH : VmHeap S} (eps : nat) (g : NfaGraph)
    (str : list Z) (pos : nat) (caps : option ExecCaptures) (s : S) :
  graph_ok g = true -> pos <= length str ->
  wp (exec_match eps g REG_TIER_1 str pos caps s) (fun r =>
    fst (fst r) = EXEC_ERROR \/ match_spec g str pos (fst (fst r))).
Proof.
  intros Hok Hpos. pose proof (run_t1_spec g str pos s Hok Hpos) as Hr.
  unfold exec_match, vm_bind. destruct (run_t1 g str pos s) as [[r s']|]; simpl in *; [|done].
  destruct r as [[stop|]|]; simpl in *; eauto.
Qed.

Lemma regex_tier1_any_heap_witness :
  exec_match 0 graph_star_star REG_TIER_1 subject_caab 1 None (scripted [])
  = Some ((EXEC_MATCH 1 3, None), scripted []) /\
  (EXEC_MATCH 1 3 = EXEC_ERROR \/ match_spec graph_star_star subject_caab 1 (EXEC_MATCH 1 3)).
Proof.
  split; [vm_compute; reflexivity|].
  assert (1 <= length subject_caab) as Hl by (simpl; lia).
  exact (regex_tier1_any_heap 0 graph_star_star subject_caab 1 None (scripted []) eq_refl Hl).
Defined.

(** The two simulations agree: on a graph with bounded epsilon paths
    [exec_match] reports the same result in Tier 1 and in Tier 2, so carrying
    registers changes no match. *)
Theorem regex_tiers_agree {S : Type} {VH : VmHeap S} (plenty : S -> Prop)
    {PH : PlentyHeap S plenty} (eps : nat) (g : NfaGraph) (str : list Z) (pos : nat)
    (caps1 caps2 : option ExecCaptures) (s : S) :
  runnable g REG_TIER_2 eps = true -> pos <= length str -> plenty s ->
  exists r c1 c2 s1 s2,
    exec_match eps g REG_TIER_1 str pos caps1 s = Some ((r, c1), s1) /\
    exec_match eps g REG_TIER_2 str pos caps2 s = Some ((r, c2), s2).
Proof.
  intros Hr Hpos P.
  assert (runnable g REG_TIER_1 eps = true) as Hr1.
  { unfold runnable in *. apply andb_true_iff in Hr as [-> _]. done. }
  pose proof (exec_match_spec plenty g str eps REG_TIER_1 pos caps1 s Hr1 Hpos P) as H1.
  pose proof (exec_match_spec plenty g str eps REG_TIER_2 pos caps2 s Hr Hpos P) as H2.
  apply wp_some in H1 as ([[r1 c1] s1] & -> & M1 & _), H2 as ([[r2 c2] s2] & -> & M2 & _).
  enough (r1 = r2) as -> by eauto 10.
  destruct r1 as [a b| |], r2 as [a' b'| |]; simpl in *; try done.
  - destruct M1 as (-> & e & -> & He & Hmax), M2 as (-> & e' & -> & He' & Hmax').
    f_equal. specialize (Hmax e' He'). specialize (Hmax' e He). lia.
  - destruct M1 as (_ & e & _ & He & _). by destruct (M2 e).
  - destruct M2 as (_ & e & _ & He & _). by destruct (M1 e).
Qed.

Lemma regex_tiers_agree_witness :
  exists r c1 c2 s1 s2,
    exec_match 5 graph_star_b REG_TIER_1 subject_caab 1 None (scripted []) = Some ((r, c1), s1) /\
    exec_match 5 graph_star_b REG_TIER_2 subject_caab 1 None (scripted []) = Some ((r, c2), s2).
Proof.
  assert (1 <= length subject_caab) as Hl by (simpl; lia).
  exact (regex_tiers_agree (fun s => outcomes s = []) 5 graph_star_b subject_caab 1 None None
           (scripted []) eq_refl Hl eq_refl).
Defined.

(** C31: captures of a Tier 2 match, on a graph with bounded epsilon paths and
    with memory available: they are read from the registers that one
    run of the graph wrote, a run that starts at the match start with all
    registers unset and stops in ACCEPT at the match end; group 0 is the match
    itself. *)
Theorem regex_captures_from_run {S : Type} {VH : VmHeap S} (plenty : S -> Prop)
    {PH : PlentyHeap S plenty} (eps : nat) (g : NfaGraph) (str : list Z) (pos : nat)
    (caps : ExecCaptures) (s : S) :
  runnable g REG_TIER_2 eps = true -> pos <= length str -> plenty s ->
  wp (exec_match eps g REG_TIER_2 str pos (Some caps) s) (fun r =>
    forall ms me, fst (fst r) = EXEC_MATCH ms me ->
    exists stop run_regs regs, me = Z.of_nat stop /\
      captured_run g str (nsaves_of g) pos stop run_regs /\
      accept_regs run_regs pos stop = Some regs /\
      snd (fst r) = Some (captures_of_regs regs (length caps))).
Proof.
  intros Hr Hpos P. eapply wp_mono.
  - apply (exec_match_tier2 plenty g str eps REG_TIER_2 pos (Some caps) s); done.
  - intros r [[_ H] _]. exact H.
Qed.

Lemma regex_captures_from_run_witness :
  exists stop run_regs regs, 4%Z = Z.of_nat stop /\
    captured_run graph_star_b subject_caab 4 1 stop run_regs /\
    accept_regs run_regs 1 stop = Some regs /\
    Some [(1, 4); (1, 3)]%Z = Some (captures_of_regs regs 2).
Proof.
  assert (1 <= length subject_caab) as Hl by (simpl; lia).
  exact (regex_captures_from_run (fun s => outcomes s = []) 5 graph_star_b subject_caab 1
           [(0, 0); (0, 0)]%Z (scripted []) eq_refl Hl eq_refl 1%Z 4%Z eq_refl).
Defined.

(** Tier 2 on a graph whose start state lies on an epsilon cycle does not
    return: [t2_eps_add] recurses past every depth, at a position where Tier 1
    answers. *)
Theorem tier2_epsilon_cycle_diverges {S : Type} {VH : VmHeap S} (plenty : S -> Prop)
    {PH : PlentyHeap S plenty} (g : NfaGraph) (str : list Z) (pos : nat) (loop : list nat)
    (caps : option ExecCaptures) (s : S) :
  graph_ok g = true -> pos <= length str -> plenty s ->
  eps_cycle g (at_pos str pos) loop = true -> g_start g ∈ loop ->
  (forall eps, exec_match eps g REG_TIER_2 str pos caps s = None) /\
  wp (exec_match 0 g REG_TIER_1 str pos caps s) (fun r => match_spec g str pos (fst (fst r))).
Proof.
  intros Hok Hpos P Hloop Hs. split.
  - intros eps. unfold exec_match, regs_alloc, vm_bind, vm_malloc, vm_ret.
    set (n := if num_saves g =? 0 then 2 else num_saves g).
    destruct (plenty_malloc (8 * Z.of_nat n)%Z s P) as [E P1].
    destruct (malloc (8 * Z.of_nat n)%Z s) as [b s1]; simpl in *; subst.
    by rewrite (run_t2_cycle plenty g _ loop eps str pos n s1 eq_refl).
  - eapply wp_mono; [apply (exec_match_spec plenty g str 0 REG_TIER_1 pos caps s); try done|].
    + unfold runnable. by rewrite Hok.
    + by intros r [H _].
Qed.

Lemma tier2_epsilon_cycle_diverges_witness :
  (forall eps, exec_match eps graph_star_star REG_TIER_2 subject_caab 1 None (scripted []) = None) /\
  match_spec graph_star_star subject_caab 1 (EXEC_MATCH 1 3).
Proof.
  assert (1 <= length subject_caab) as Hl by (simpl; lia).
  assert (g_start graph_star_star ∈ [0; 1; 2; 4]) as Hs by (by left).
  exact (tier2_epsilon_cycle_diverges (fun s => outcomes s = []) graph_star_star subject_caab 1
           [0; 1; 2; 4] None (scripted []) eq_refl Hl eq_refl eq_refl Hs).
Defined.

(** A failed register clone in Tier 2 is not reported: when the [malloc] of
    a SPLIT fails, [t2_eps_add] drops both branches and [exec_match] answers
    EXEC_MISMATCH on a subject that matches, where its contract says
    EXEC_ERROR. *)
Theorem tier2_failed_clone_hides_match :
  exec_match 5 graph_star_b REG_TIER_2 [98]%Z 0 None (scripted [true; true; true; true; false])
  = Some ((EXEC_MISMATCH, None), scripted []) /\
  matches_at graph_star_b [98]%Z 0 1.
Proof.
  split; [vm_compute; reflexivity|]. unfold matches_at.
  apply accept_epsilon with 1; [by left|]. apply accept_epsilon with 3; [by right; left|].
  apply accept_epsilon with 4; [by left|]. apply accept_byte with 5 98%Z; [done|by left|].
  constructor.
Qed.
