(* ===== verification/RegexBytecode.v ===== *)
(** * RegexBytecode: compiled patterns as reginold reads them

    [regex_t] is the part of Onigmo's compiled pattern that reginold/classify.c
    and reginold/nfa.c look at.  Opcodes are bytes, numbered by the [enum OpCode]
    of the vendored regint.h; operands are little-endian machine integers read
    by [PLATFORM_GET_INC].  A read outside the program is undefined ([None]). *)

From S2P Require Import Prelude.
From Stdlib Require Import ZArith Lia Bool List.
From stdpp Require Import base numbers list.

Local Open Scope Z_scope.
Local Open Scope c_scope.

Inductive OpCode :=
  | OP_FINISH | OP_END
  | OP_EXACT1 | OP_EXACT2 | OP_EXACT3 | OP_EXACT4 | OP_EXACT5 | OP_EXACTN
  | OP_EXACTMB2N1 | OP_EXACTMB2N2 | OP_EXACTMB2N3 | OP_EXACTMB2N | OP_EXACTMB3N | OP_EXACTMBN
  | OP_EXACT1_IC | OP_EXACTN_IC
  | OP_CCLASS | OP_CCLASS_MB | OP_CCLASS_MIX | OP_CCLASS_NOT | OP_CCLASS_MB_NOT
  | OP_CCLASS_MIX_NOT
  | OP_ANYCHAR | OP_ANYCHAR_ML | OP_ANYCHAR_STAR | OP_ANYCHAR_ML_STAR
  | OP_ANYCHAR_STAR_PEEK_NEXT | OP_ANYCHAR_ML_STAR_PEEK_NEXT
  | OP_WORD | OP_NOT_WORD | OP_WORD_BOUND | OP_NOT_WORD_BOUND | OP_WORD_BEGIN | OP_WORD_END
  | OP_ASCII_WORD | OP_NOT_ASCII_WORD | OP_ASCII_WORD_BOUND | OP_NOT_ASCII_WORD_BOUND
  | OP_ASCII_WORD_BEGIN | OP_ASCII_WORD_END
  | OP_BEGIN_BUF | OP_END_BUF | OP_BEGIN_LINE | OP_END_LINE | OP_SEMI_END_BUF
  | OP_BEGIN_POSITION
  | OP_BACKREF1 | OP_BACKREF2 | OP_BACKREFN | OP_BACKREFN_IC | OP_BACKREF_MULTI
  | OP_BACKREF_MULTI_IC | OP_BACKREF_WITH_LEVEL
  | OP_MEMORY_START | OP_MEMORY_START_PUSH | OP_MEMORY_END_PUSH | OP_MEMORY_END_PUSH_REC
  | OP_MEMORY_END | OP_MEMORY_END_REC
  | OP_KEEP
  | OP_FAIL | OP_JUMP | OP_PUSH | OP_POP | OP_PUSH_OR_JUMP_EXACT1 | OP_PUSH_IF_PEEK_NEXT
  | OP_REPEAT | OP_REPEAT_NG | OP_REPEAT_INC | OP_REPEAT_INC_NG | OP_REPEAT_INC_SG
  | OP_REPEAT_INC_NG_SG
  | OP_NULL_CHECK_START | OP_NULL_CHECK_END | OP_NULL_CHECK_END_MEMST
  | OP_NULL_CHECK_END_MEMST_PUSH
  | OP_PUSH_POS | OP_POP_POS | OP_PUSH_POS_NOT | OP_FAIL_POS | OP_PUSH_STOP_BT
  | OP_POP_STOP_BT | OP_LOOK_BEHIND | OP_PUSH_LOOK_BEHIND_NOT | OP_FAIL_LOOK_BEHIND_NOT
  | OP_PUSH_ABSENT_POS | OP_ABSENT | OP_ABSENT_END
  | OP_CALL | OP_RETURN | OP_CONDITION
  | OP_STATE_CHECK_PUSH | OP_STATE_CHECK_PUSH_OR_JUMP | OP_STATE_CHECK
  | OP_STATE_CHECK_ANYCHAR_STAR | OP_STATE_CHECK_ANYCHAR_ML_STAR
  | OP_SET_OPTION_PUSH | OP_SET_OPTION.

#[global] Instance OpCode_eq_dec : EqDecision OpCode.
Proof. solve_decision. Defined.

(** The enumerators in order: the position is the opcode's byte. *)
Definition opcodes : list OpCode :=
  [OP_FINISH; OP_END; OP_EXACT1; OP_EXACT2; OP_EXACT3; OP_EXACT4; OP_EXACT5; OP_EXACTN;
   OP_EXACTMB2N1; OP_EXACTMB2N2; OP_EXACTMB2N3; OP_EXACTMB2N; OP_EXACTMB3N; OP_EXACTMBN;
   OP_EXACT1_IC; OP_EXACTN_IC;
   OP_CCLASS; OP_CCLASS_MB; OP_CCLASS_MIX; OP_CCLASS_NOT; OP_CCLASS_MB_NOT; OP_CCLASS_MIX_NOT;
   OP_ANYCHAR; OP_ANYCHAR_ML; OP_ANYCHAR_STAR; OP_ANYCHAR_ML_STAR;
   OP_ANYCHAR_STAR_PEEK_NEXT; OP_ANYCHAR_ML_STAR_PEEK_NEXT;
   OP_WORD; OP_NOT_WORD; OP_WORD_BOUND; OP_NOT_WORD_BOUND; OP_WORD_BEGIN; OP_WORD_END;
   OP_ASCII_WORD; OP_NOT_ASCII_WORD; OP_ASCII_WORD_BOUND; OP_NOT_ASCII_WORD_BOUND;
   OP_ASCII_WORD_BEGIN; OP_ASCII_WORD_END;
   OP_BEGIN_BUF; OP_END_BUF; OP_BEGIN_LINE; OP_END_LINE; OP_SEMI_END_BUF; OP_BEGIN_POSITION;
   OP_BACKREF1; OP_BACKREF2; OP_BACKREFN; OP_BACKREFN_IC; OP_BACKREF_MULTI;
   OP_BACKREF_MULTI_IC; OP_BACKREF_WITH_LEVEL;
   OP_MEMORY_START; OP_MEMORY_START_PUSH; OP_MEMORY_END_PUSH; OP_MEMORY_END_PUSH_REC;
   OP_MEMORY_END; OP_MEMORY_END_REC;
   OP_KEEP;
   OP_FAIL; OP_JUMP; OP_PUSH; OP_POP; OP_PUSH_OR_JUMP_EXACT1; OP_PUSH_IF_PEEK_NEXT;
   OP_REPEAT; OP_REPEAT_NG; OP_REPEAT_INC; OP_REPEAT_INC_NG; OP_REPEAT_INC_SG;
   OP_REPEAT_INC_NG_SG;
   OP_NULL_CHECK_START; OP_NULL_CHECK_END; OP_NULL_CHECK_END_MEMST;
   OP_NULL_CHECK_END_MEMST_PUSH;
   OP_PUSH_POS; OP_POP_POS; OP_PUSH_POS_NOT; OP_FAIL_POS; OP_PUSH_STOP_BT; OP_POP_STOP_BT;
   OP_LOOK_BEHIND; OP_PUSH_LOOK_BEHIND_NOT; OP_FAIL_LOOK_BEHIND_NOT;
   OP_PUSH_ABSENT_POS; OP_ABSENT; OP_ABSENT_END;
   OP_CALL; OP_RETURN; OP_CONDITION;
   OP_STATE_CHECK_PUSH; OP_STATE_CHECK_PUSH_OR_JUMP; OP_STATE_CHECK;
   OP_STATE_CHECK_ANYCHAR_STAR; OP_STATE_CHECK_ANYCHAR_ML_STAR;
   OP_SET_OPTION_PUSH; OP_SET_OPTION].

(** [(enum OpCode)byte]; [None] is a value outside the enumeration. *)
Definition opcode_of_byte (byte : Z) : option OpCode := opcodes !! Z.to_nat byte.

Fixpoint index_of (op : OpCode) (l : list OpCode) : nat :=
  match l with
  | [] => 0
  | x :: l => if decide (x = op) then 0 else S (index_of op l)
  end.

Definition byte_of_opcode (op : OpCode) : Z := Z.of_nat (index_of op opcodes).

Lemma opcode_byte_round_trip op : opcode_of_byte (byte_of_opcode op) = Some op.
Proof. by destruct op. Qed.

(** ** Compiled patterns *)

Record regex_t := {
  reg_p : list Z;                       (* the [used] bytes at [p] *)
  num_mem : Z;
  num_call : Z;
  repeat_range : list (Z * Z);          (* lower, upper *)
  ignorecase : bool;                    (* options & ONIG_OPTION_IGNORECASE *)
  mbc_maxlen : Z;                       (* ONIGENC_MBC_MAXLEN(enc) *)
}.

Definition SIZE_BITSET : Z := 32.
Definition SIZE_MEMNUM : Z := 2.
Definition SIZE_RELADDR : Z := 4.
Definition SIZE_LENGTH : Z := 4.
Definition SIZE_OPTION : Z := 4.

(** ** Reading the program *)

Definition read_at (code : list Z) (p : Z) : option Z :=
  if p <? 0 then None else array_read code (Z.to_nat p).

Fixpoint read_bytes (code : list Z) (p : Z) (n : nat) : option (list Z) :=
  match n with
  | O => Some []
  | S n =>
      let? b := read_at code p in
      let? rest := read_bytes code (p + 1) n in
      Some (b :: rest)
  end.

Fixpoint le_value (bytes : list Z) : Z :=
  match bytes with [] => 0 | b :: rest => b + 256 * le_value rest end.

(** The two's complement reading of an unsigned [w]-bit value. *)
Definition signed_of (w : Z) (u : Z) : Z := if u <? 2 ^ (w - 1) then u else u - 2 ^ w.

(** [GET_LENGTH_INC], [GET_RELADDR_INC]: an [int]. *)
Definition get_int (code : list Z) (p : Z) : option Z :=
  let? bs := read_bytes code p 4 in Some (signed_of 32 (le_value bs)).

(** [GET_MEMNUM_INC]: a [short int]. *)
Definition get_short (code : list Z) (p : Z) : option Z :=
  let? bs := read_bytes code p 2 in Some (signed_of 16 (le_value bs)).

(** A product computed in [int]: overflow is undefined. *)
Definition int_mul (a b : Z) : option Z :=
  if (- 2 ^ 31 <=? a * b) && (a * b <? 2 ^ 31) then Some (a * b) else None.

(** ** The reading functions on an assembled program *)

Lemma read_bytes_app pre bs suf n :
  n = length bs -> read_bytes (pre ++ bs ++ suf) (Z.of_nat (length pre)) n = Some bs.
Proof.
  intros ->. revert pre. induction bs as [|b bs IH]; intros pre; [done|].
  cbn [length read_bytes app]. unfold read_at.
  destruct (Z.ltb_spec (Z.of_nat (length pre)) 0); [lia|].
  rewrite Nat2Z.id. unfold array_read.
  rewrite lookup_app_r, Nat.sub_diag by lia. cbn.
  specialize (IH (pre ++ [b])). rewrite <- app_assoc, length_app in IH.
  cbn [app length] in IH.
  replace (Z.of_nat (length pre) + 1) with (Z.of_nat (length pre + 1)) by lia.
  by rewrite IH.
Qed.

(** A 32-bit operand in little-endian order. *)
Definition int_bytes (z : Z) : list Z :=
  let u := z mod 2 ^ 32 in [u mod 256; u / 256 mod 256; u / 65536 mod 256; u / 16777216 mod 256].

Lemma int_bytes_value z : - 2 ^ 31 <= z < 2 ^ 31 -> signed_of 32 (le_value (int_bytes z)) = z.
Proof.
  intros Hz. unfold int_bytes, signed_of. cbn [le_value].
  set (u := z mod 2 ^ 32).
  replace (u mod 256 + 256 * (u / 256 mod 256 + 256 * (u / 65536 mod 256 +
    256 * (u / 16777216 mod 256 + 256 * 0)))) with u.
  - unfold u. change (2 ^ (32 - 1)) with 2147483648. change (2 ^ 32) with 4294967296 in *.
    change (2 ^ 31) with 2147483648 in *.
    destruct (Z.ltb_spec (z mod 4294967296) 2147483648); divmod_lia.
  - assert (0 <= u < 4294967296) as Hu by (apply Z.mod_pos_bound; lia). clearbody u.
    divmod_lia.
Qed.
