(* ===== verification/RegexClassify.v ===== *)
(** * RegexClassify: the tier of a compiled pattern (reginold/classify.c)

    [reg_classify] scans the bytecode linearly.  Its correctness rests on the
    invariant its comments name, that no opcode is ever read from an operand
    byte: [classify_program] states it against programs given as instruction
    lists, assembled by [encode]. *)

From S2P Require Import Prelude RegexExec RegexBytecode.
From Stdlib Require Import ZArith Lia Bool List.
From stdpp Require Import base numbers list.

Local Open Scope Z_scope.
Local Open Scope c_scope.

Record RegClassification := {
  tier : RegTier;
  has_captures : bool;
  is_multibyte : bool;
  is_ignorecase : bool;
  tier3_reason : Z;
}.

Definition REG_T3_BACKREF : Z := 1.
Definition REG_T3_LOOKAHEAD : Z := 2.
Definition REG_T3_LOOKBEHIND : Z := 3.
Definition REG_T3_ABSENT : Z := 4.
Definition REG_T3_SUBEXP_CALL : Z := 5.
Definition REG_T3_CONDITION : Z := 6.
Definition REG_T3_STATE_CHECK : Z := 7.
Definition REG_T3_REPEAT_SG : Z := 8.
Definition REG_T3_BYTECODE_ERR : Z := 9.

Definition tier3 (reason : Z) : RegClassification :=
  {| tier := REG_TIER_3; has_captures := false; is_multibyte := false;
     is_ignorecase := false; tier3_reason := reason |}.

(** What one turn of the loop's switch decides. *)
Inductive Verdict :=
  | Stop                       (* goto done *)
  | Reject (reason : Z)        (* return tier3(reason) *)
  | Next (p : Z).              (* break, with p past the operands *)

Section Classify.

(** [enclen(reg->enc, p, pend)]: the length of the character at the head of the
    bytes from [p] on. *)
Context (enclen : list Z -> Z).

(** [GET_LENGTH_INC(len, p); p += len * unit]. *)
Definition skip_counted (code : list Z) (p unit : Z) : option Verdict :=
  let? len := get_int code p in
  let? bytes := int_mul len unit in
  Some (Next (p + SIZE_LENGTH + bytes)).

(** Literals, classes and wildcards; [p] is past the opcode. *)
Definition classify_atom (code : list Z) (op : OpCode) (p : Z) : option Verdict :=
  match op with
  | OP_EXACT1 => Some (Next (p + 1))
  | OP_EXACT2 => Some (Next (p + 2))
  | OP_EXACT3 => Some (Next (p + 3))
  | OP_EXACT4 => Some (Next (p + 4))
  | OP_EXACT5 => Some (Next (p + 5))
  | OP_EXACTN => skip_counted code p 1
  | OP_EXACTMB2N1 => Some (Next (p + 2))
  | OP_EXACTMB2N2 => Some (Next (p + 4))
  | OP_EXACTMB2N3 => Some (Next (p + 6))
  | OP_EXACTMB2N => skip_counted code p 2
  | OP_EXACTMB3N => skip_counted code p 3
  | OP_EXACTMBN =>
      let? mb_len := get_int code p in
      let? len := get_int code (p + SIZE_LENGTH) in
      let? bytes := int_mul mb_len len in
      Some (Next (p + SIZE_LENGTH + SIZE_LENGTH + bytes))
  | OP_EXACT1_IC => Some (Next (p + enclen (drop (Z.to_nat p) code)))
  | OP_EXACTN_IC => skip_counted code p 1
  | OP_CCLASS | OP_CCLASS_NOT => Some (Next (p + SIZE_BITSET))
  | OP_CCLASS_MB | OP_CCLASS_MB_NOT => skip_counted code p 1
  | OP_CCLASS_MIX | OP_CCLASS_MIX_NOT => skip_counted code (p + SIZE_BITSET) 1
  | OP_ANYCHAR | OP_ANYCHAR_ML | OP_ANYCHAR_STAR | OP_ANYCHAR_ML_STAR => Some (Next p)
  | OP_ANYCHAR_STAR_PEEK_NEXT | OP_ANYCHAR_ML_STAR_PEEK_NEXT => Some (Next (p + 1))
  | _ => Some (Next p)
  end.

(** The whole switch. *)
Definition classify_op (code : list Z) (op : OpCode) (p : Z) : option Verdict :=
  match op with
  | OP_FINISH | OP_END => Some Stop
  | OP_BACKREF1 | OP_BACKREF2 | OP_BACKREFN | OP_BACKREFN_IC | OP_BACKREF_MULTI
  | OP_BACKREF_MULTI_IC | OP_BACKREF_WITH_LEVEL => Some (Reject REG_T3_BACKREF)
  | OP_MEMORY_START | OP_MEMORY_START_PUSH | OP_MEMORY_END_PUSH | OP_MEMORY_END_PUSH_REC
  | OP_MEMORY_END | OP_MEMORY_END_REC => Some (Next (p + SIZE_MEMNUM))
  | OP_FAIL => Some (Next p)
  | OP_JUMP | OP_PUSH => Some (Next (p + SIZE_RELADDR))
  | OP_POP => Some (Next p)
  | OP_PUSH_OR_JUMP_EXACT1 | OP_PUSH_IF_PEEK_NEXT => Some (Next (p + SIZE_RELADDR + 1))
  | OP_REPEAT | OP_REPEAT_NG => Some (Next (p + SIZE_MEMNUM + SIZE_RELADDR))
  | OP_REPEAT_INC | OP_REPEAT_INC_NG => Some (Next (p + SIZE_MEMNUM))
  | OP_REPEAT_INC_SG | OP_REPEAT_INC_NG_SG => Some (Reject REG_T3_REPEAT_SG)
  | OP_NULL_CHECK_START | OP_NULL_CHECK_END | OP_NULL_CHECK_END_MEMST
  | OP_NULL_CHECK_END_MEMST_PUSH => Some (Next (p + SIZE_MEMNUM))
  | OP_PUSH_POS | OP_PUSH_POS_NOT | OP_POP_POS | OP_FAIL_POS => Some (Reject REG_T3_LOOKAHEAD)
  | OP_LOOK_BEHIND | OP_PUSH_LOOK_BEHIND_NOT | OP_FAIL_LOOK_BEHIND_NOT =>
      Some (Reject REG_T3_LOOKBEHIND)
  | OP_PUSH_STOP_BT | OP_POP_STOP_BT => Some (Next p)
  | OP_PUSH_ABSENT_POS | OP_ABSENT | OP_ABSENT_END => Some (Reject REG_T3_ABSENT)
  | OP_CALL | OP_RETURN => Some (Reject REG_T3_SUBEXP_CALL)
  | OP_CONDITION => Some (Reject REG_T3_CONDITION)
  | OP_STATE_CHECK_PUSH | OP_STATE_CHECK_PUSH_OR_JUMP | OP_STATE_CHECK
  | OP_STATE_CHECK_ANYCHAR_STAR | OP_STATE_CHECK_ANYCHAR_ML_STAR =>
      Some (Reject REG_T3_STATE_CHECK)
  | OP_SET_OPTION_PUSH | OP_SET_OPTION => Some (Next (p + SIZE_OPTION))
  | _ => classify_atom code op p
  end.

(** [while (p < pend)]; the result is the rejection, if any. *)
Fixpoint classify_loop (fuel : nat) (code : list Z) (p : Z) : option (option Z) :=
  if p <? Z.of_nat (length code) then
    match fuel with
    | O => None
    | S fuel =>
        let? byte := read_at code p in
        match opcode_of_byte byte with
        | None => Some (Some REG_T3_BYTECODE_ERR)
        | Some op =>
            let? verdict := classify_op code op (p + 1) in
            match verdict with
            | Stop => Some None
            | Reject reason => Some (Some reason)
            | Next p => classify_loop fuel code p
            end
        end
    end
  else Some None.

(** The result at [done]. *)
Definition classified (reg : regex_t) : RegClassification :=
  {| tier := if 0 <? num_mem reg then REG_TIER_2 else REG_TIER_1;
     has_captures := 0 <? num_mem reg;
     is_multibyte := 1 <? mbc_maxlen reg;
     is_ignorecase := ignorecase reg;
     tier3_reason := 0 |}.

Definition reg_classify (reg : regex_t) : option RegClassification :=
  if 0 <? num_call reg then Some (tier3 REG_T3_SUBEXP_CALL) else
  let? rejected := classify_loop (length (reg_p reg)) (reg_p reg) 0 in
  Some (match rejected with Some reason => tier3 reason | None => classified reg end).

(** ** Assembled programs *)

Record Instruction := { i_op : OpCode; i_operands : list Z }.

Definition encode (i : Instruction) : list Z := byte_of_opcode (i_op i) :: i_operands i.

Definition assemble (program : list Instruction) : list Z := flat_map encode program.

(** The shapes of operands in the instruction stream. *)
Inductive Format :=
  | Fixed (bytes : nat)
  | Counted (prefix unit : nat)     (* [prefix] bytes, an int count, count * unit bytes *)
  | CountedTwice                    (* an int width, an int count, width * count bytes *)
  | OneCharacter                    (* one character of the encoding *)
  | Unread.                         (* the scan ends here *)

Definition format (op : OpCode) : Format :=
  match op with
  | OP_EXACT1 | OP_ANYCHAR_STAR_PEEK_NEXT | OP_ANYCHAR_ML_STAR_PEEK_NEXT => Fixed 1
  | OP_EXACT2 | OP_EXACTMB2N1 => Fixed 2
  | OP_EXACT3 => Fixed 3
  | OP_EXACT4 | OP_EXACTMB2N2 => Fixed 4
  | OP_EXACT5 => Fixed 5
  | OP_EXACTMB2N3 => Fixed 6
  | OP_EXACTN | OP_EXACTN_IC | OP_CCLASS_MB | OP_CCLASS_MB_NOT => Counted 0 1
  | OP_EXACTMB2N => Counted 0 2
  | OP_EXACTMB3N => Counted 0 3
  | OP_CCLASS_MIX | OP_CCLASS_MIX_NOT => Counted 32 1
  | OP_EXACTMBN => CountedTwice
  | OP_EXACT1_IC => OneCharacter
  | OP_CCLASS | OP_CCLASS_NOT => Fixed 32
  | OP_MEMORY_START | OP_MEMORY_START_PUSH | OP_MEMORY_END_PUSH | OP_MEMORY_END_PUSH_REC
  | OP_MEMORY_END | OP_MEMORY_END_REC
  | OP_REPEAT_INC | OP_REPEAT_INC_NG
  | OP_NULL_CHECK_START | OP_NULL_CHECK_END | OP_NULL_CHECK_END_MEMST
  | OP_NULL_CHECK_END_MEMST_PUSH => Fixed 2
  | OP_JUMP | OP_PUSH | OP_SET_OPTION_PUSH | OP_SET_OPTION => Fixed 4
  | OP_PUSH_OR_JUMP_EXACT1 | OP_PUSH_IF_PEEK_NEXT => Fixed 5
  | OP_REPEAT | OP_REPEAT_NG => Fixed 6
  | OP_ANYCHAR | OP_ANYCHAR_ML | OP_ANYCHAR_STAR | OP_ANYCHAR_ML_STAR
  | OP_WORD | OP_NOT_WORD | OP_WORD_BOUND | OP_NOT_WORD_BOUND | OP_WORD_BEGIN | OP_WORD_END
  | OP_ASCII_WORD | OP_NOT_ASCII_WORD | OP_ASCII_WORD_BOUND | OP_NOT_ASCII_WORD_BOUND
  | OP_ASCII_WORD_BEGIN | OP_ASCII_WORD_END
  | OP_BEGIN_BUF | OP_END_BUF | OP_BEGIN_LINE | OP_END_LINE | OP_SEMI_END_BUF
  | OP_BEGIN_POSITION | OP_KEEP | OP_FAIL | OP_POP | OP_PUSH_STOP_BT | OP_POP_STOP_BT => Fixed 0
  | _ => Unread
  end.

(** Operands in the shape of their opcode; [rest] is what follows them. *)
Definition operands_ok (f : Format) (operands rest : list Z) : Prop :=
  match f with
  | Fixed n => length operands = n
  | Counted prefix unit => exists count head payload,
      length head = prefix /\ operands = head ++ int_bytes (Z.of_nat count) ++ payload /\
      length payload = (count * unit)%nat /\ Z.of_nat (count * unit) < 2 ^ 31 /\
      Z.of_nat count < 2 ^ 31
  | CountedTwice => exists width count payload,
      operands = int_bytes (Z.of_nat width) ++ int_bytes (Z.of_nat count) ++ payload /\
      length payload = (width * count)%nat /\ Z.of_nat (width * count) < 2 ^ 31 /\
      Z.of_nat width < 2 ^ 31 /\ Z.of_nat count < 2 ^ 31
  | OneCharacter => enclen (operands ++ rest) = Z.of_nat (length operands)
  | Unread => True
  end.

Fixpoint program_ok (program : list Instruction) : Prop :=
  match program with
  | [] => True
  | i :: rest => operands_ok (format (i_op i)) (i_operands i) (assemble rest) /\ program_ok rest
  end.

(** The construct that rules an instruction out, by its opcode. *)
Definition disqualifies (op : OpCode) : option Z :=
  match op with
  | OP_BACKREF1 | OP_BACKREF2 | OP_BACKREFN | OP_BACKREFN_IC | OP_BACKREF_MULTI
  | OP_BACKREF_MULTI_IC | OP_BACKREF_WITH_LEVEL => Some REG_T3_BACKREF
  | OP_PUSH_POS | OP_PUSH_POS_NOT | OP_POP_POS | OP_FAIL_POS => Some REG_T3_LOOKAHEAD
  | OP_LOOK_BEHIND | OP_PUSH_LOOK_BEHIND_NOT | OP_FAIL_LOOK_BEHIND_NOT => Some REG_T3_LOOKBEHIND
  | OP_PUSH_ABSENT_POS | OP_ABSENT | OP_ABSENT_END => Some REG_T3_ABSENT
  | OP_CALL | OP_RETURN => Some REG_T3_SUBEXP_CALL
  | OP_CONDITION => Some REG_T3_CONDITION
  | OP_STATE_CHECK_PUSH | OP_STATE_CHECK_PUSH_OR_JUMP | OP_STATE_CHECK
  | OP_STATE_CHECK_ANYCHAR_STAR | OP_STATE_CHECK_ANYCHAR_ML_STAR => Some REG_T3_STATE_CHECK
  | OP_REPEAT_INC_SG | OP_REPEAT_INC_NG_SG => Some REG_T3_REPEAT_SG
  | _ => None
  end.

Definition terminates (op : OpCode) : bool :=
  match op with OP_FINISH | OP_END => true | _ => false end.

(** The first disqualifying instruction before a terminator. *)
Fixpoint rejection (program : list Instruction) : option Z :=
  match program with
  | [] => None
  | i :: rest =>
      if terminates (i_op i) then None else
      match disqualifies (i_op i) with
      | Some reason => Some reason
      | None => rejection rest
      end
  end.

(** The switch, seen through the operand formats. *)
Lemma classify_op_format code op p :
  match format op with
  | Fixed n => classify_op code op p = Some (Next (p + Z.of_nat n))
  | Counted prefix unit =>
      classify_op code op p = skip_counted code (p + Z.of_nat prefix) (Z.of_nat unit)
  | CountedTwice => op = OP_EXACTMBN
  | OneCharacter => op = OP_EXACT1_IC
  | Unread =>
      classify_op code op p =
      Some (match disqualifies op with Some reason => Reject reason | None => Stop end) /\
      (disqualifies op = None -> terminates op = true)
  end.
Proof.
  destruct op; cbn -[Z.add]; try done; unfold SIZE_MEMNUM, SIZE_RELADDR, SIZE_OPTION, SIZE_BITSET;
    try (split; [done|discriminate]);
    first [apply (f_equal Some), (f_equal Next); lia | f_equal; lia].
Qed.

Lemma format_reads op : format op <> Unread -> disqualifies op = None /\ terminates op = false.
Proof. by destruct op. Qed.

Lemma get_int_at pre z suf :
  - 2 ^ 31 <= z < 2 ^ 31 ->
  get_int (pre ++ int_bytes z ++ suf) (Z.of_nat (length pre)) = Some z.
Proof.
  intros Hz. unfold get_int. rewrite read_bytes_app by done. by rewrite int_bytes_value.
Qed.

Lemma skip_counted_at pre count unit suf :
  Z.of_nat (count * unit) < 2 ^ 31 -> Z.of_nat count < 2 ^ 31 ->
  skip_counted (pre ++ int_bytes (Z.of_nat count) ++ suf) (Z.of_nat (length pre)) (Z.of_nat unit) =
  Some (Next (Z.of_nat (length pre + 4 + count * unit))).
Proof.
  intros Hm Hc. unfold skip_counted. rewrite get_int_at by lia. unfold int_mul.
  rewrite <- Nat2Z.inj_mul.
  destruct (Z.leb_spec (- 2 ^ 31) (Z.of_nat (count * unit))); [|lia].
  destruct (Z.ltb_spec (Z.of_nat (count * unit)) (2 ^ 31)); [|lia].
  cbn [andb]. unfold SIZE_LENGTH. do 2 f_equal. lia.
Qed.

(** An instruction in the shape of its opcode is skipped as a whole. *)
Lemma classify_op_next op pre operands rest :
  format op <> Unread -> operands_ok (format op) operands rest ->
  classify_op (pre ++ operands ++ rest) op (Z.of_nat (length pre)) =
  Some (Next (Z.of_nat (length pre + length operands))).
Proof.
  intros Hf Ho. pose proof (classify_op_format (pre ++ operands ++ rest) op (Z.of_nat (length pre))) as E.
  destruct (format op) as [n|prefix unit| | |]; cbn [operands_ok] in Ho; [| | | |done].
  - rewrite E, Ho. do 2 f_equal. lia.
  - rewrite E. destruct Ho as (count & head & payload & Hh & -> & Hp & Hm & Hc).
    replace (pre ++ (head ++ int_bytes (Z.of_nat count) ++ payload) ++ rest)
      with ((pre ++ head) ++ int_bytes (Z.of_nat count) ++ payload ++ rest)
      by (by rewrite <- !app_assoc).
    replace (Z.of_nat (length pre) + Z.of_nat prefix) with (Z.of_nat (length (pre ++ head)))
      by (rewrite length_app; lia).
    rewrite skip_counted_at by done. do 2 f_equal. rewrite !length_app, Hp, Hh. simpl. lia.
  - subst op. destruct Ho as (width & count & payload & -> & Hp & Hm & Hw & Hc).
    cbn [classify_op classify_atom].
    rewrite <- !app_assoc, get_int_at by lia.
    change SIZE_LENGTH with (Z.of_nat 4).
    replace (Z.of_nat (length pre) + Z.of_nat 4)
      with (Z.of_nat (length (pre ++ int_bytes (Z.of_nat width))))
      by (rewrite length_app; simpl; lia).
    rewrite (app_assoc pre), get_int_at by lia. unfold int_mul. rewrite <- Nat2Z.inj_mul.
    destruct (Z.leb_spec (- 2 ^ 31) (Z.of_nat (width * count))); [|lia].
    destruct (Z.ltb_spec (Z.of_nat (width * count)) (2 ^ 31)); [|lia].
    cbn [andb]. do 2 f_equal. rewrite !length_app, Hp. simpl. lia.
  - subst op. cbn [classify_op classify_atom]. rewrite Nat2Z.id, drop_app_length, Ho.
    do 2 f_equal. lia.
Qed.

Lemma read_at_app pre b suf : read_at (pre ++ b :: suf) (Z.of_nat (length pre)) = Some b.
Proof.
  unfold read_at. destruct (Z.ltb_spec (Z.of_nat (length pre)) 0); [lia|].
  unfold array_read. by rewrite Nat2Z.id, lookup_app_r, Nat.sub_diag by lia.
Qed.

Lemma classify_loop_program program : forall fuel pre,
  program_ok program -> (length (assemble program) <= fuel)%nat ->
  classify_loop fuel (pre ++ assemble program) (Z.of_nat (length pre)) = Some (rejection program).
Proof.
  induction program as [|i program IH]; intros fuel pre Hok Hfuel.
  - rewrite app_nil_r. destruct fuel; cbn [classify_loop];
      destruct (Z.ltb_spec (Z.of_nat (length pre)) (Z.of_nat (length pre))); done || lia.
  - destruct Hok as [Ho Hok]. cbn [assemble flat_map] in *. fold (assemble program) in *.
    unfold encode in *. cbn [app length] in *.
    rewrite length_app in Hfuel. destruct fuel as [|fuel]; [lia|].
    cbn [classify_loop rejection].
    destruct (Z.ltb_spec (Z.of_nat (length pre))
      (Z.of_nat (length (pre ++ byte_of_opcode (i_op i) :: i_operands i ++ assemble program))));
      [|rewrite length_app in *; simpl in *; lia].
    rewrite read_at_app, opcode_byte_round_trip.
    replace (Z.of_nat (length pre) + 1) with (Z.of_nat (length (pre ++ [byte_of_opcode (i_op i)])))
      by (rewrite length_app; simpl; lia).
    replace (pre ++ byte_of_opcode (i_op i) :: i_operands i ++ assemble program)
      with ((pre ++ [byte_of_opcode (i_op i)]) ++ i_operands i ++ assemble program)
      by (by rewrite <- !app_assoc).
    set (pre' := pre ++ [byte_of_opcode (i_op i)]) in *. clearbody pre'.
    destruct (format (i_op i)) eqn:Ef.
    5: { pose proof (classify_op_format (pre' ++ i_operands i ++ assemble program) (i_op i)
           (Z.of_nat (length pre'))) as E. rewrite Ef in E. destruct E as [-> Ht].
         destruct (disqualifies (i_op i)) eqn:Ed.
         - destruct (terminates (i_op i)) eqn:Et; [by destruct (i_op i)|done].
         - by rewrite Ht. }
    all: assert (format (i_op i) <> Unread) as Hf by congruence;
      destruct (format_reads _ Hf) as [-> ->]; rewrite <- Ef in Ho;
      rewrite classify_op_next by done; rewrite <- length_app, app_assoc; apply IH; [done|lia].
Qed.

(** C33: the classifier never mistakes an operand byte for an opcode: on any
    program of well-shaped instructions the linear scan returns, and the tier is
    that of the instruction list: Tier 3 with the reason of the first
    disqualifying instruction before the terminator (or a subexpression call in
    the header), otherwise Tier 2 or 1 by whether there are captures. *)
Theorem classify_program (reg : regex_t) (program : list Instruction) :
  reg_p reg = assemble program -> program_ok program ->
  reg_classify reg =
  Some (if 0 <? num_call reg then tier3 REG_T3_SUBEXP_CALL
        else match rejection program with
             | Some reason => tier3 reason
             | None => classified reg
             end).
Proof.
  intros Hp Hok. unfold reg_classify. destruct (0 <? num_call reg); [done|].
  rewrite Hp. rewrite (classify_loop_program program _ [] Hok) by done.
  by destruct (rejection program).
Qed.

End Classify.

(** ** Examples *)

Definition ins (op : OpCode) (operands : list Z) : Instruction :=
  {| i_op := op; i_operands := operands |}.

(** A captured literal whose bytes are the opcodes of BACKREF1, CALL and others. *)
Definition tricky_program : list Instruction :=
  [ins OP_MEMORY_START [1; 0]; ins OP_EXACT2 [46; 88];
   ins OP_EXACTN (int_bytes 3 ++ [76; 77; 78]); ins OP_MEMORY_END [1; 0]; ins OP_END []].

Definition pattern (program : list Instruction) (mem : Z) (ranges : list (Z * Z)) : regex_t :=
  {| reg_p := assemble program; num_mem := mem; num_call := 0; repeat_range := ranges;
     ignorecase := false; mbc_maxlen := 1 |}.

Lemma tricky_program_ok : program_ok (fun _ => 1) tricky_program.
Proof.
  repeat split; simpl; try done.
  exists 3%nat, [], [76; 77; 78]. repeat split; lia.
Defined.

Lemma classify_program_witness :
  reg_classify (fun _ => 1) (pattern tricky_program 1 []) =
  Some (classified (pattern tricky_program 1 [])) /\
  tier (classified (pattern tricky_program 1 [])) = REG_TIER_2.
Proof.
  split; [|reflexivity].
  exact (classify_program (fun _ => 1) (pattern tricky_program 1 []) tricky_program
           eq_refl tricky_program_ok).
Defined.
