(* ===== verification/RegexBuild.v ===== *)
(** * RegexBuild: the NFA builder (reginold/nfa.c)

    [nfa_build] walks Onigmo bytecode and grows a graph in an arena, connecting
    fragments through lists of dangling output slots.  The builder's state is
    the arena with its capacity and liveness (a [realloc] that moves the block
    leaves [g->arena] dangling), the multibyte buffer's sizes, the error flag and
    the heap.  [None] is undefined behaviour: a read outside the bytecode, a
    touch of a dead arena, a write past [outs\[MAX_DANGLING\]] (the assertion is
    compiled out of release builds), or an exhausted fuel.

    [build_sequence] and [build_frag] recurse into each other; one fuel bounds
    the depth of the whole recursion. *)

From S2P Require Import Prelude Value RegexExec RegexBytecode.
From Stdlib Require Import ZArith Lia Bool List.
From stdpp Require Import base numbers list.

Local Open Scope Z_scope.
Local Open Scope c_scope.

Definition MAX_UNROLL : Z := 20.
Definition ARENA_INIT_CAP : nat := 64.
Definition MB_ARENA_INIT : Z := 256.
Definition MAX_DANGLING : nat := 64.
Definition MAX_DEPTH : Z := 64.
Definition sizeof_NfaState : Z := 80.
Definition sizeof_NfaGraph : Z := 72.

(** [(int)ONIG_INFINITE_DISTANCE], the truncation of [~(size_t)0]. *)
Definition INFINITE_INT : Z := -1.

(** The outcomes of [realloc]. *)
Inductive Resized := REALLOC_NULL | REALLOC_SAME | REALLOC_MOVED.

Class ReallocHeap (S : Type) := { realloc : Z -> S -> Resized * S }.

(** An output slot of a state: [&s->out1] or [&s->out2]. *)
Inductive Slot := Out1 (id : nat) | Out2 (id : nat).

Definition slot_state (s : Slot) : nat := match s with Out1 id | Out2 id => id end.

Record NfaFrag := { f_start : option nat; f_outs : list Slot }.

Definition frag_make (start : option nat) (out_slot : option Slot) : NfaFrag :=
  {| f_start := start; f_outs := match out_slot with Some s => [s] | None => [] end |}.

Definition frag_empty : NfaFrag := {| f_start := None; f_outs := [] |}.

(** Element by element, each store checked against the array's size. *)
Fixpoint frag_merge_outs (dst src : list Slot) : option (list Slot) :=
  match src with
  | [] => Some dst
  | s :: src =>
      if (length dst <? MAX_DANGLING)%nat then frag_merge_outs (dst ++ [s]) src else None
  end.

Record Builder (S : Type) := {
  b_arena : list NfaState;
  b_cap : nat;
  b_live : bool;                (* [g->arena] points at the block *)
  b_mb_used : Z;
  b_mb_cap : Z;
  b_error : bool;
  b_heap : S;
}.

Arguments b_arena {S}. Arguments b_cap {S}. Arguments b_live {S}. Arguments b_mb_used {S}.
Arguments b_mb_cap {S}. Arguments b_error {S}. Arguments b_heap {S}.

Definition with_arena {S} (b : Builder S) (arena : list NfaState) : Builder S :=
  {| b_arena := arena; b_cap := b_cap b; b_live := b_live b; b_mb_used := b_mb_used b;
     b_mb_cap := b_mb_cap b; b_error := b_error b; b_heap := b_heap b |}.

Definition with_block {S} (b : Builder S) (cap : nat) (live : bool) (h : S) : Builder S :=
  {| b_arena := b_arena b; b_cap := cap; b_live := live; b_mb_used := b_mb_used b;
     b_mb_cap := b_mb_cap b; b_error := b_error b; b_heap := h |}.

Definition with_mb {S} (b : Builder S) (used cap : Z) (h : S) : Builder S :=
  {| b_arena := b_arena b; b_cap := b_cap b; b_live := b_live b; b_mb_used := used;
     b_mb_cap := cap; b_error := b_error b; b_heap := h |}.

Definition with_error {S} (b : Builder S) : Builder S :=
  {| b_arena := b_arena b; b_cap := b_cap b; b_live := b_live b; b_mb_used := b_mb_used b;
     b_mb_cap := b_mb_cap b; b_error := true; b_heap := b_heap b |}.

Section Build.

Context {S : Type} `{!VmHeap S, !ReallocHeap S}.
Context (enclen : list Z -> Z).
Context (reg : regex_t).

Abbreviation B := (VM (Builder S)).
Abbreviation code := (reg_p reg).
Abbreviation pend := (Z.of_nat (length (reg_p reg))).

(** ** The arena *)

(** [s = &g->arena\[g->arena_used++\]; memset(s, 0, sizeof *s)]: a zeroed state has
    type NFA_ACCEPT, the first enumerator. *)
Definition arena_push (b : Builder S) : nat * Builder S :=
  (length (b_arena b),
   with_arena b (b_arena b ++ [{| type := NFA_ACCEPT; out1 := None; out2 := None |}])).

Definition arena_alloc : B (option nat) :=
  fun b =>
    if negb (b_live b) then None else
    if (b_cap b <=? length (b_arena b))%nat then
      let new_cap := (b_cap b * 2)%nat in
      match realloc (Z.of_nat new_cap * sizeof_NfaState) (b_heap b) with
      | (REALLOC_NULL, h) => Some (None, with_block b (b_cap b) true h)
      | (REALLOC_MOVED, h) => Some (None, with_block b (b_cap b) false h)
      | (REALLOC_SAME, h) =>
          let '(id, b) := arena_push (with_block b new_cap true h) in Some (Some id, b)
      end
    else let '(id, b) := arena_push b in Some (Some id, b).

(** [while (new_cap < needed) new_cap *= 2]. *)
Fixpoint double_until (fuel : nat) (new_cap needed : Z) : option Z :=
  match fuel with
  | O => None
  | Datatypes.S fuel =>
      if new_cap <? needed then double_until fuel (new_cap * 2) needed else Some new_cap
  end.

(** Whether [len] bytes could be reserved. *)
Definition mb_arena_alloc (len : Z) : B bool :=
  fun b =>
    if b_mb_cap b <? b_mb_used b + len then
      let? new_cap := double_until (Z.to_nat (b_mb_used b + len) + 1) (b_mb_cap b * 2)
                        (b_mb_used b + len) in
      match realloc new_cap (b_heap b) with
      | (REALLOC_NULL, h) => Some (false, with_mb b (b_mb_used b) (b_mb_cap b) h)
      | (_, h) => Some (true, with_mb b (b_mb_used b + len) new_cap h)
      end
    else Some (true, with_mb b (b_mb_used b + len) (b_mb_cap b) (b_heap b)).

Definition set_type (id : nat) (ty : NfaStateType) : B unit :=
  fun b =>
    if negb (b_live b) then None else
    let? st := array_read (b_arena b) id in
    let? a := array_write (b_arena b) id {| type := ty; out1 := out1 st; out2 := out2 st |} in
    Some (tt, with_arena b a).

(** [*slot = target]. *)
Definition set_slot (slot : Slot) (target : option nat) : B unit :=
  fun b =>
    if negb (b_live b) then None else
    let? st := array_read (b_arena b) (slot_state slot) in
    let? a := array_write (b_arena b) (slot_state slot)
                (match slot with
                 | Out1 _ => {| type := type st; out1 := target; out2 := out2 st |}
                 | Out2 _ => {| type := type st; out1 := out1 st; out2 := target |}
                 end) in
    Some (tt, with_arena b a).

(** [make_accept], [make_split], [make_char], [make_any], [make_anchor],
    [make_save], [make_ctype]: allocate a state and give it its type. *)
Definition make_state (ty : NfaStateType) : B (option nat) :=
  let! s := arena_alloc in
  match s with
  | None => vm_ret None
  | Some id => let! _ := set_type id ty in vm_ret (Some id)
  end.

(** [memcpy(bitmap, bs, SIZE_BITSET)]: 32 bytes as eight 32-bit words. *)
Fixpoint bitmap_words (n : nat) (bytes : list Z) : list Z :=
  match n with
  | O => []
  | Datatypes.S n => le_value (take 4 bytes) :: bitmap_words n (drop 4 bytes)
  end.

(** [bs] is the position of the bitmap in the program, [None] the all-zero
    bitmap; [mb_len] bytes of multibyte data at [mb_p] are copied when there are
    any.  A negative length is a huge [size_t]. *)
Definition make_cclass (bs : option Z) (negative : bool) (mb_p mb_len : Z) : B (option nat) :=
  let! s := arena_alloc in
  match s with
  | None => vm_ret None
  | Some id =>
      let! bitmap := vm_lift (match bs with
                              | Some p => read_bytes code p 32
                              | None => Some (repeat 0 32)
                              end) in
      let! _ := set_type id (NFA_CHARCLASS (bitmap_words 8 bitmap) negative) in
      if mb_len <? 0 then vm_lift None else
      if mb_len =? 0 then vm_ret (Some id) else
      let! ok := mb_arena_alloc mb_len in
      if negb ok then vm_ret None else
      let! _ := vm_lift (read_bytes code mb_p (Z.to_nat mb_len)) in
      vm_ret (Some id)
  end.

(** ** Fragments *)

Fixpoint patch_slots (slots : list Slot) (target : option nat) : B unit :=
  match slots with
  | [] => vm_ret tt
  | slot :: slots => let! _ := set_slot slot target in patch_slots slots target
  end.

Definition frag_patch (f : NfaFrag) (target : option nat) : B unit :=
  patch_slots (f_outs f) target.

Definition frag_merge (dst src : NfaFrag) : B NfaFrag :=
  let! outs := vm_lift (frag_merge_outs (f_outs dst) (f_outs src)) in
  vm_ret {| f_start := f_start dst; f_outs := outs |}.

(** Patch the outputs of [acc] to [f], or start with [f]:
    [if (acc.start == NULL) acc = f; else { frag_patch(&acc, f.start); acc.outs = f.outs; }]. *)
Definition frag_append (acc f : NfaFrag) : B NfaFrag :=
  match f_start acc with
  | None => vm_ret f
  | Some _ =>
      let! _ := frag_patch acc (f_start f) in
      vm_ret {| f_start := f_start acc; f_outs := f_outs f |}
  end.

Definition get_error : B bool := fun b => Some (b_error b, b).

Definition raise_error : B unit := fun b => Some (tt, with_error b).

(** [FAIL()]: [b->error = 1; *pp = p; return frag_empty()]. *)
Definition fail (p : Z) : B (NfaFrag * Z) :=
  let! _ := raise_error in vm_ret (frag_empty, p).

(** [NEED(s)]. *)
Definition need (s : option nat) (p : Z) (k : nat -> B (NfaFrag * Z)) : B (NfaFrag * Z) :=
  match s with None => fail p | Some id => k id end.

(** [if (b->error) FAIL();] *)
Definition check_error (p : Z) (k : B (NfaFrag * Z)) : B (NfaFrag * Z) :=
  let! e := get_error in if e : bool then fail p else k.

(** [s = make...; NEED(s); *pp = p; return frag_make(s, &s->out1)]. *)
Definition emit (make : B (option nat)) (p : Z) : B (NfaFrag * Z) :=
  let! s := make in
  need s p (fun id => vm_ret (frag_make (Some id) (Some (Out1 id)), p)).

(** ** Literals *)

(** [for (i = 0; i < n; i++) { s = make_char(g, *p++); NEED(s); ... }], the
    chain of OP_EXACT2 to OP_EXACTN. *)
Fixpoint char_chain (n : nat) (p : Z) (acc : NfaFrag) : B (NfaFrag * Z) :=
  match n with
  | O => vm_ret (acc, p)
  | Datatypes.S n =>
      let! byte := vm_lift (read_at code p) in
      let! s := make_state (NFA_CHAR byte) in
      need s (p + 1) (fun id =>
        let! acc := frag_append acc (frag_make (Some id) (Some (Out1 id))) in
        char_chain n (p + 1) acc)
  end.

(** [goto unsupported_mb] with [*pp = p]. *)
Definition unsupported_mb (p : Z) : B (NfaFrag * Z) := fail p.

Definition build_literal (op : OpCode) (p : Z) : B (NfaFrag * Z) :=
  match op with
  | OP_EXACT1 => char_chain 1 p frag_empty
  | OP_EXACT2 => char_chain 2 p frag_empty
  | OP_EXACT3 => char_chain 3 p frag_empty
  | OP_EXACT4 => char_chain 4 p frag_empty
  | OP_EXACT5 => char_chain 5 p frag_empty
  | OP_EXACTN =>
      let! len := vm_lift (get_int code p) in
      char_chain (Z.to_nat len) (p + SIZE_LENGTH) frag_empty
  | OP_EXACTMB2N1 =>
      let! byte0 := vm_lift (read_at code p) in
      let! s := make_state (NFA_CHAR byte0) in
      need s p (fun s =>
        let! byte1 := vm_lift (read_at code (p + 1)) in
        let! s2 := make_state (NFA_CHAR byte1) in
        need s2 p (fun s2 =>
          let! _ := set_slot (Out1 s) (Some s2) in
          vm_ret (frag_make (Some s2) (Some (Out1 s2)), p + 2)))
  | OP_EXACTMB2N2 => unsupported_mb (p + 4)
  | OP_EXACTMB2N3 => unsupported_mb (p + 6)
  | OP_EXACTMB2N =>
      let! len := vm_lift (get_int code p) in
      let! n := vm_lift (int_mul len 2) in unsupported_mb (p + SIZE_LENGTH + n)
  | OP_EXACTMB3N =>
      let! len := vm_lift (get_int code p) in
      let! n := vm_lift (int_mul len 3) in unsupported_mb (p + SIZE_LENGTH + n)
  | OP_EXACTMBN =>
      let! mb_len := vm_lift (get_int code p) in
      let! len := vm_lift (get_int code (p + SIZE_LENGTH)) in
      let! n := vm_lift (int_mul mb_len len) in
      unsupported_mb (p + SIZE_LENGTH + SIZE_LENGTH + n)
  | OP_EXACT1_IC =>
      let clen := enclen (drop (Z.to_nat p) code) in
      let! byte := vm_lift (read_at code p) in
      let! s := make_state (NFA_CHAR byte) in
      need s p (fun id => vm_ret (frag_make (Some id) (Some (Out1 id)), p + clen))
  | _ (* OP_EXACTN_IC *) =>
      let! len := vm_lift (get_int code p) in
      let p := p + SIZE_LENGTH in
      let! byte := vm_lift (read_at code p) in
      let! s := make_state (NFA_CHAR byte) in
      need s p (fun id => vm_ret (frag_make (Some id) (Some (Out1 id)), p + len))
  end.

(** ** Character classes and wildcards *)

(** [SPLIT] and [ANY] tied into the loop of [.*]. *)
Definition build_any_star (ml : bool) (p : Z) : B (NfaFrag * Z) :=
  let! split := make_state NFA_SPLIT in
  let! any := make_state (if ml then NFA_ANY_ML else NFA_ANY) in
  need split p (fun split =>
  need any p (fun any =>
    let! _ := set_slot (Out1 split) (Some any) in
    let! _ := set_slot (Out1 any) (Some split) in
    vm_ret (frag_make (Some split) (Some (Out2 split)), p))).

Definition build_class (op : OpCode) (p : Z) : B (NfaFrag * Z) :=
  match op with
  | OP_CCLASS | OP_CCLASS_NOT =>
      let! s := make_cclass (Some p) (bool_decide (op = OP_CCLASS_NOT)) 0 0 in
      need s p (fun id => vm_ret (frag_make (Some id) (Some (Out1 id)), p + SIZE_BITSET))
  | OP_CCLASS_MB | OP_CCLASS_MB_NOT =>
      let! len := vm_lift (get_int code p) in
      let p := p + SIZE_LENGTH in
      let! s := make_cclass None (bool_decide (op = OP_CCLASS_MB_NOT)) p len in
      need s p (fun id => vm_ret (frag_make (Some id) (Some (Out1 id)), p + len))
  | OP_CCLASS_MIX | OP_CCLASS_MIX_NOT =>
      let bm := p in
      let p := p + SIZE_BITSET in
      let! len := vm_lift (get_int code p) in
      let p := p + SIZE_LENGTH in
      let! s := make_cclass (Some bm) (bool_decide (op = OP_CCLASS_MIX_NOT)) p len in
      need s p (fun id => vm_ret (frag_make (Some id) (Some (Out1 id)), p + len))
  | OP_ANYCHAR => emit (make_state NFA_ANY) p
  | OP_ANYCHAR_ML => emit (make_state NFA_ANY_ML) p
  | OP_ANYCHAR_STAR => build_any_star false p
  | OP_ANYCHAR_ML_STAR => build_any_star true p
  | OP_ANYCHAR_STAR_PEEK_NEXT => build_any_star false (p + 1)
  | OP_ANYCHAR_ML_STAR_PEEK_NEXT => build_any_star true (p + 1)
  | OP_WORD | OP_ASCII_WORD => emit (make_state (NFA_CTYPE CTYPE_WORD false)) p
  | _ (* OP_NOT_WORD, OP_NOT_ASCII_WORD *) => emit (make_state (NFA_CTYPE CTYPE_WORD true)) p
  end.

(** ** Anchors and captures *)

Definition anchor_of (op : OpCode) : NfaAnchorType :=
  match op with
  | OP_BEGIN_BUF => NFA_ANCH_BOF
  | OP_END_BUF => NFA_ANCH_EOF
  | OP_BEGIN_LINE => NFA_ANCH_BOL
  | OP_END_LINE => NFA_ANCH_EOL
  | OP_SEMI_END_BUF => NFA_ANCH_SEOF
  | OP_BEGIN_POSITION => NFA_ANCH_POS
  | OP_NOT_WORD_BOUND | OP_NOT_ASCII_WORD_BOUND => NFA_ANCH_NWBOUND
  | _ (* the other word boundaries, starts and ends *) => NFA_ANCH_WBOUND
  end.

(** A SAVE node for a group's start ([side] 0) or end ([side] 1). *)
Definition build_save (side p : Z) : B (NfaFrag * Z) :=
  let! mem := vm_lift (get_short code p) in
  emit (make_state (NFA_SAVE (2 * mem + side))) (p + SIZE_MEMNUM).

(** ** Control flow; [rec] is [build_sequence] one level down *)

Section Recursion.

Context (rec : Z -> Z -> B (NfaFrag * Z)).

Definition build_push (p depth : Z) : B (NfaFrag * Z) :=
  let! rel := vm_lift (get_int code p) in
  let p := p + SIZE_RELADDR in
  let target := p + rel in
  let! split := make_state NFA_SPLIT in
  need split p (fun split =>
    let! (branch1, p) := rec (depth + 1) p in
    check_error p
   (let! (branch2, _) := rec (depth + 1) target in
    check_error p
   (let! _ := set_slot (Out1 split) (f_start branch1) in
    let! _ := set_slot (Out2 split) (f_start branch2) in
    let! result := frag_merge (frag_make (Some split) None) branch1 in
    let! result := frag_merge result branch2 in
    vm_ret (result, p)))).

Definition build_push_or_jump (p depth : Z) : B (NfaFrag * Z) :=
  let! rel := vm_lift (get_int code p) in
  let p := p + SIZE_RELADDR in
  let! byte := vm_lift (read_at code p) in
  let p := p + 1 in
  let target := p + rel - 1 in
  let! split := make_state NFA_SPLIT in
  let! ch := make_state (NFA_CHAR byte) in
  need split p (fun split =>
  need ch p (fun ch =>
    let! _ := set_slot (Out1 split) (Some ch) in
    let! (body, p) := rec (depth + 1) p in
    check_error p
   (let! _ := set_slot (Out1 ch) (f_start body) in
    let! (skip, _) := rec (depth + 1) target in
    check_error p
   (let! _ := set_slot (Out2 split) (f_start skip) in
    let! result := frag_merge (frag_make (Some split) None) body in
    let! result := frag_merge result skip in
    vm_ret (result, p))))).

Definition build_push_if_peek (p depth : Z) : B (NfaFrag * Z) :=
  let! _ := vm_lift (get_int code p) in
  let p := p + SIZE_RELADDR + 1 in
  let! split := make_state NFA_SPLIT in
  need split p (fun split =>
    let! (b1, p) := rec (depth + 1) p in
    check_error p
   (let! _ := set_slot (Out1 split) (f_start b1) in
    let! result := frag_merge (frag_make (Some split) (Some (Out2 split))) b1 in
    vm_ret (result, p))).

(** ** Quantifiers *)

(** The slot of a quantifier's SPLIT that enters the body, and the one that
    skips it. *)
Definition enter_slot (greedy : bool) (split : nat) : Slot :=
  if greedy then Out1 split else Out2 split.
Definition skip_slot (greedy : bool) (split : nat) : Slot :=
  if greedy then Out2 split else Out1 split.

(** [a?] *)
Definition build_optional (greedy : bool) (p depth : Z) : B (NfaFrag * Z) :=
  let! split := make_state NFA_SPLIT in
  need split p (fun split =>
    let! (body, p) := rec (depth + 1) p in
    check_error p
   (let! _ := set_slot (enter_slot greedy split) (f_start body) in
    let! result := frag_merge (frag_make (Some split) (Some (skip_slot greedy split))) body in
    vm_ret (result, p))).

(** The star: SPLIT, body, back to SPLIT. *)
Definition build_star (greedy : bool) (p depth : Z) : B (NfaFrag * Z) :=
  let! split := make_state NFA_SPLIT in
  need split p (fun split =>
    let! (body, p) := rec (depth + 1) p in
    check_error p
   (let! _ := frag_patch body (Some split) in
    let! _ := set_slot (enter_slot greedy split) (f_start body) in
    vm_ret (frag_make (Some split) (Some (skip_slot greedy split)), p))).

(** [a+]: the body, then SPLIT, a second copy of the body, back to SPLIT. *)
Definition build_plus (greedy : bool) (body_start depth : Z) : B (NfaFrag * Z) :=
  let! (first, p) := rec (depth + 1) body_start in
  check_error p
 (let! split := make_state NFA_SPLIT in
  need split p (fun split =>
    let! _ := frag_patch first (Some split) in
    let! (loop_body, _) := rec (depth + 1) body_start in
    check_error p
   (let! _ := frag_patch loop_body (Some split) in
    let! _ := set_slot (enter_slot greedy split) (f_start loop_body) in
    vm_ret (frag_make (f_start first) (Some (skip_slot greedy split)), p)))).

(** [n] mandatory copies of the body. *)
Fixpoint repeat_build_copies (n : nat) (body_start depth : Z) (acc : NfaFrag) : B NfaFrag :=
  match n with
  | O => vm_ret acc
  | Datatypes.S n =>
      let! (copy, _) := rec (depth + 1) body_start in
      let! e := get_error in
      if (e : bool) || bool_decide (f_start copy = None)
      then let! _ := raise_error in vm_ret frag_empty
      else
        let! acc := frag_append acc copy in
        repeat_build_copies n body_start depth acc
  end.

(** [n] optional copies, each behind a SPLIT; [None] when the builder failed. *)
Fixpoint optional_copies (n : nat) (greedy : bool) (body_start depth : Z) (acc : NfaFrag)
    : B (option NfaFrag) :=
  match n with
  | O => vm_ret (Some acc)
  | Datatypes.S n =>
      let! split := make_state NFA_SPLIT in
      match split with
      | None => vm_ret None
      | Some split =>
          let! (opt, _) := rec (depth + 1) body_start in
          let! e := get_error in
          if e : bool then vm_ret None else
          let! _ := set_slot (enter_slot greedy split) (f_start opt) in
          let! sf := frag_merge (frag_make (Some split) (Some (skip_slot greedy split))) opt in
          let! acc := frag_append acc sf in
          optional_copies n greedy body_start depth acc
      end
  end.

(** The real loop behind the capped unrolling of an unbounded repeat. *)
Definition build_tail_loop (acc : NfaFrag) (body_start p depth : Z) : B (NfaFrag * Z) :=
  let! split := make_state NFA_SPLIT in
  need split p (fun split =>
    let! (loop_b, _) := rec (depth + 1) body_start in
    check_error p
   (let! _ := frag_patch loop_b (Some split) in
    let! _ := set_slot (Out1 split) (f_start loop_b) in
    let! _ := frag_patch acc (Some split) in
    vm_ret ({| f_start := f_start acc; f_outs := [Out2 split] |}, p))).

(** [{lower,upper}] with small bounds. *)
Definition build_unrolled (greedy is_star : bool) (lower upper body_start body_end_ref depth : Z)
    : B (NfaFrag * Z) :=
  let! acc :=
    (if 0 <? lower then repeat_build_copies (Z.to_nat lower) body_start depth frag_empty
     else vm_ret frag_empty) in
  let! failed := (if 0 <? lower then get_error else vm_ret false) in
  if failed : bool then fail body_start else
  let! p :=
    (if lower =? 0 then let! (_, skip_p) := rec (depth + 1) body_start in vm_ret skip_p
     else vm_ret body_end_ref) in
  let opt_count := Z.min (if is_star then MAX_UNROLL else upper - lower) MAX_UNROLL in
  let! acc := optional_copies (Z.to_nat opt_count) greedy body_start depth acc in
  match acc with
  | None => fail p
  | Some acc => if is_star then build_tail_loop acc body_start p depth else vm_ret (acc, p)
  end.

Definition build_repeat (greedy : bool) (p depth : Z) : B (NfaFrag * Z) :=
  let! mem := vm_lift (get_short code p) in
  let p := p + SIZE_MEMNUM in
  let! rel := vm_lift (get_int code p) in
  let p := p + SIZE_RELADDR in
  let body_start := p in
  let body_end_ref := p + rel in
  let! (lower, upper) :=
    vm_lift (if mem <? 0 then None else array_read (repeat_range reg) (Z.to_nat mem)) in
  let is_star := upper =? INFINITE_INT in
  if (lower =? 0) && (upper =? 1) then build_optional greedy p depth
  else if (lower =? 0) && is_star then build_star greedy p depth
  else if (lower =? 1) && is_star then build_plus greedy body_start depth
  else if (lower <=? MAX_UNROLL) && (is_star || (upper <=? MAX_UNROLL))
  then build_unrolled greedy is_star lower upper body_start body_end_ref depth
  else fail p.

(** The control instructions; the last group is the one the classifier filters
    out. *)
Definition build_control (op : OpCode) (p depth : Z) : B (NfaFrag * Z) :=
  match op with
  | OP_FINISH | OP_END | OP_POP | OP_POP_STOP_BT => vm_ret (frag_empty, p)
  | OP_FAIL => vm_ret (frag_make (Some 0%nat) None, p)
  | OP_JUMP =>
      let! rel := vm_lift (get_int code p) in
      rec (depth + 1) (p + SIZE_RELADDR + rel)
  | OP_PUSH => build_push p depth
  | OP_PUSH_OR_JUMP_EXACT1 => build_push_or_jump p depth
  | OP_PUSH_IF_PEEK_NEXT => build_push_if_peek p depth
  | OP_REPEAT => build_repeat true p depth
  | OP_REPEAT_NG => build_repeat false p depth
  | OP_REPEAT_INC | OP_REPEAT_INC_NG
  | OP_NULL_CHECK_START | OP_NULL_CHECK_END | OP_NULL_CHECK_END_MEMST
  | OP_NULL_CHECK_END_MEMST_PUSH =>
      let! _ := vm_lift (get_short code p) in vm_ret (frag_empty, p + SIZE_MEMNUM)
  | OP_PUSH_STOP_BT => rec (depth + 1) p
  | OP_SET_OPTION_PUSH | OP_SET_OPTION => vm_ret (frag_empty, p + SIZE_OPTION)
  | _ => fail p
  end.

(** One instruction at [pp]. *)
Definition build_frag (pp depth : Z) : B (NfaFrag * Z) :=
  if (MAX_DEPTH <? depth) || (pend <=? pp) then fail pp else
  let! byte := vm_lift (read_at code pp) in
  let p := pp + 1 in
  match opcode_of_byte byte with
  | None => fail p
  | Some op =>
      match op with
      | OP_EXACT1 | OP_EXACT2 | OP_EXACT3 | OP_EXACT4 | OP_EXACT5 | OP_EXACTN
      | OP_EXACTMB2N1 | OP_EXACTMB2N2 | OP_EXACTMB2N3 | OP_EXACTMB2N | OP_EXACTMB3N
      | OP_EXACTMBN | OP_EXACT1_IC | OP_EXACTN_IC => build_literal op p
      | OP_CCLASS | OP_CCLASS_NOT | OP_CCLASS_MB | OP_CCLASS_MB_NOT | OP_CCLASS_MIX
      | OP_CCLASS_MIX_NOT | OP_ANYCHAR | OP_ANYCHAR_ML | OP_ANYCHAR_STAR
      | OP_ANYCHAR_ML_STAR | OP_ANYCHAR_STAR_PEEK_NEXT | OP_ANYCHAR_ML_STAR_PEEK_NEXT
      | OP_WORD | OP_NOT_WORD | OP_ASCII_WORD | OP_NOT_ASCII_WORD => build_class op p
      | OP_BEGIN_BUF | OP_END_BUF | OP_BEGIN_LINE | OP_END_LINE | OP_SEMI_END_BUF
      | OP_BEGIN_POSITION | OP_WORD_BOUND | OP_NOT_WORD_BOUND | OP_WORD_BEGIN | OP_WORD_END
      | OP_ASCII_WORD_BOUND | OP_NOT_ASCII_WORD_BOUND | OP_ASCII_WORD_BEGIN
      | OP_ASCII_WORD_END => emit (make_state (NFA_ANCHOR (anchor_of op))) p
      | OP_KEEP => emit (make_state (NFA_SAVE (-1))) p
      | OP_MEMORY_START | OP_MEMORY_START_PUSH => build_save 0 p
      | OP_MEMORY_END | OP_MEMORY_END_PUSH | OP_MEMORY_END_PUSH_REC | OP_MEMORY_END_REC =>
          build_save 1 p
      | _ => build_control op p depth
      end
  end.

End Recursion.

(** [while ( *pp < b->pend && !b->error)]. *)
Fixpoint build_sequence (fuel : nat) (seq : NfaFrag) (depth pp : Z) : B (NfaFrag * Z) :=
  match fuel with
  | O => vm_lift None
  | Datatypes.S fuel =>
      let! e := get_error in
      if (pp <? pend) && negb e then
        let! (f, pp) := build_frag (build_sequence fuel frag_empty) pp depth in
        let! e := get_error in
        if e : bool then vm_ret (frag_empty, pp) else
        match f_start f with
        | None => vm_ret (seq, pp)
        | Some _ => let! seq := frag_append seq f in build_sequence fuel seq depth pp
        end
      else vm_ret (seq, pp)
  end.

End Build.

(** ** The public entry points *)

Section Nfa.

Context {S : Type} `{!VmHeap S, !ReallocHeap S}.

(** [free(g->arena)]: a second free when the block is already gone. *)
Definition nfa_graph_free (b : Builder S) : option (option NfaGraph * S) :=
  if b_live b then Some (None, b_heap b) else None.

Definition initial_builder (h : S) : Builder S :=
  {| b_arena := []; b_cap := ARENA_INIT_CAP; b_live := true; b_mb_used := 0;
     b_mb_cap := MB_ARENA_INIT; b_error := false; b_heap := h |}.

Definition nfa_build (fuel : nat) (enclen : list Z -> Z) (reg : regex_t)
    : VM S (option NfaGraph) :=
  let! g_ok := vm_malloc sizeof_NfaGraph in
  if negb g_ok then vm_ret None else
  let! arena_ok := vm_malloc (Z.of_nat ARENA_INIT_CAP * sizeof_NfaState) in
  if negb arena_ok then vm_ret None else
  let! mb_ok := vm_malloc MB_ARENA_INIT in
  if negb mb_ok then vm_ret None else
  fun h =>
    let? (accept, b) := make_state NFA_ACCEPT (initial_builder h) in
    match accept with
    | None => nfa_graph_free b
    | Some accept =>
        let? (root, b) := build_sequence enclen reg fuel frag_empty 0 0 b in
        match b_error b, f_start (fst root) with
        | false, Some start =>
            let? (_, b) := frag_patch (fst root) (Some accept) b in
            Some (Some {| g_start := start; g_accept := accept;
                          num_saves := Z.to_nat (2 * (num_mem reg + 1));
                          arena := b_arena b |}, b_heap b)
        | _, _ => nfa_graph_free b
        end
    end.

End Nfa.
