(* ===== verification/RegexBuildOk.v ===== *)
(** * RegexBuildOk: the builder delivers what the simulations need

    A Hoare-style proof about [nfa_build] with two switches.  [strict] turns on
    totality: the bytecode has a layout ([layout_ok]: instruction boundaries
    with complete operands and forward targets) and [realloc] refuses, and then
    the builder is defined and ends.  [acyclic] turns on the bound on epsilon
    paths: no repeat range has the upper bound that the builder takes for
    infinity.  Without the switches the shape of every returned graph is still
    established. *)

From S2P Require Import Prelude Value RegexExec RegexGraph RegexTier2 RegexBytecode RegexBuild.
From Stdlib Require Import ZArith Lia Bool List.
From stdpp Require Import base numbers list.

Local Open Scope Z_scope.
Local Open Scope c_scope.

(** ** Layouts of bytecode *)

Section Layout.

Context (enclen : list Z -> Z).
Context (reg : regex_t).

Abbreviation code := (reg_p reg).
Abbreviation pend := (Z.of_nat (length (reg_p reg))).

Definition nonneg (z : Z) : option Z := if z <? 0 then None else Some z.

(** Where the builder continues after the instruction [op] with operands at
    [p]; [None] when the operands are incomplete. *)
Definition next_positions (op : OpCode) (p : Z) : option (list Z) :=
  match op with
  | OP_EXACT1 => let? _ := read_bytes code p 1 in Some [p + 1]
  | OP_EXACT2 => let? _ := read_bytes code p 2 in Some [p + 2]
  | OP_EXACT3 => let? _ := read_bytes code p 3 in Some [p + 3]
  | OP_EXACT4 => let? _ := read_bytes code p 4 in Some [p + 4]
  | OP_EXACT5 => let? _ := read_bytes code p 5 in Some [p + 5]
  | OP_EXACTN =>
      let? len := get_int code p in
      let? len := nonneg len in
      let? _ := read_bytes code (p + 4) (Z.to_nat len) in Some [p + 4 + len]
  | OP_EXACTMB2N1 => let? _ := read_bytes code p 2 in Some [p + 2]
  | OP_EXACTMB2N => let? len := get_int code p in let? _ := int_mul len 2 in Some []
  | OP_EXACTMB3N => let? len := get_int code p in let? _ := int_mul len 3 in Some []
  | OP_EXACTMBN =>
      let? mb_len := get_int code p in
      let? len := get_int code (p + 4) in
      let? _ := int_mul mb_len len in Some []
  | OP_EXACT1_IC =>
      let? _ := read_at code p in
      let? clen := nonneg (enclen (drop (Z.to_nat p) code)) in Some [p + clen]
  | OP_EXACTN_IC =>
      let? len := get_int code p in
      let? len := nonneg len in
      let? _ := read_at code (p + 4) in Some [p + 4 + len]
  | OP_CCLASS | OP_CCLASS_NOT => let? _ := read_bytes code p 32 in Some [p + 32]
  | OP_CCLASS_MB | OP_CCLASS_MB_NOT =>
      let? len := get_int code p in
      let? len := nonneg len in
      let? _ := read_bytes code (p + 4) (Z.to_nat len) in Some [p + 4 + len]
  | OP_CCLASS_MIX | OP_CCLASS_MIX_NOT =>
      let? _ := read_bytes code p 32 in
      let? len := get_int code (p + 32) in
      let? len := nonneg len in
      let? _ := read_bytes code (p + 32 + 4) (Z.to_nat len) in Some [p + 32 + 4 + len]
  | OP_ANYCHAR_STAR_PEEK_NEXT | OP_ANYCHAR_ML_STAR_PEEK_NEXT => Some [p + 1]
  | OP_MEMORY_START | OP_MEMORY_START_PUSH | OP_MEMORY_END_PUSH | OP_MEMORY_END_PUSH_REC
  | OP_MEMORY_END | OP_MEMORY_END_REC | OP_REPEAT_INC | OP_REPEAT_INC_NG
  | OP_NULL_CHECK_START | OP_NULL_CHECK_END | OP_NULL_CHECK_END_MEMST
  | OP_NULL_CHECK_END_MEMST_PUSH => let? _ := get_short code p in Some [p + 2]
  | OP_JUMP => let? rel := get_int code p in Some [p + 4 + rel]
  | OP_PUSH => let? rel := get_int code p in Some [p + 4; p + 4 + rel]
  | OP_PUSH_OR_JUMP_EXACT1 =>
      let? rel := get_int code p in
      let? _ := read_at code (p + 4) in Some [p + 4 + 1; p + 4 + 1 + rel - 1]
  | OP_PUSH_IF_PEEK_NEXT => let? _ := get_int code p in Some [p + 4 + 1]
  | OP_REPEAT | OP_REPEAT_NG =>
      let? mem := get_short code p in
      let? mem := nonneg mem in
      let? rel := get_int code (p + 2) in
      let? _ := array_read (repeat_range reg) (Z.to_nat mem) in
      Some [p + 2 + 4; p + 2 + 4 + rel]
  | OP_SET_OPTION_PUSH | OP_SET_OPTION => Some [p + 4]
  | _ => Some [p]
  end.

(** [boundaries] are instruction positions: every instruction there is complete,
    and continues at later boundaries or past the end. *)
Definition layout_ok (boundaries : list Z) : bool :=
  forallb (fun p =>
    match read_at code p with
    | None => false
    | Some byte =>
        match opcode_of_byte byte with
        | None => true
        | Some op =>
            match next_positions op (p + 1) with
            | None => false
            | Some l => forallb (fun q => (p <? q) && (bool_decide (q ∈ boundaries) || (pend <=? q))) l
            end
        end
    end) boundaries.

End Layout.

(** ** The invariant *)

Section Proof.

Context {S : Type} `{!VmHeap S, !ReallocHeap S}.
Context (enclen : list Z -> Z).
Context (reg : regex_t).
Context (boundaries : list Z).
Context (strict acyclic : bool).

Abbreviation code := (reg_p reg).
Abbreviation pend := (Z.of_nat (length (reg_p reg))).
Abbreviation size b := (length (b_arena b)).

Context (Hlayout : strict = true -> layout_ok enclen reg boundaries = true).
Context (Hrefuse : strict = true -> forall n (s : S), fst (realloc n s) = REALLOC_NULL).
Context (Hfinite : acyclic = true -> forall r, r ∈ repeat_range reg -> r.2 <> INFINITE_INT).

#[local] Set Default Proof Using "All".

(** Weakest precondition: undefined behaviour only without [strict]. *)
Definition bwp {A} (m : VM (Builder S) A) (b : Builder S) (Q : A -> Builder S -> Prop) : Prop :=
  match m b with Some (a, b') => Q a b' | None => strict = false end.

Lemma bwp_ret {A} (a : A) b (Q : A -> Builder S -> Prop) : Q a b -> bwp (vm_ret a) b Q.
Proof. done. Qed.

Lemma bwp_bind {A C} (m : VM (Builder S) A) (k : A -> VM (Builder S) C) b Q :
  bwp m b (fun a b' => bwp (k a) b' Q) -> bwp (vm_bind m k) b Q.
Proof. unfold bwp, vm_bind. by destruct (m b) as [[a b']|]. Qed.

Lemma bwp_mono {A} (m : VM (Builder S) A) b (P Q : A -> Builder S -> Prop) :
  bwp m b P -> (forall a b', P a b' -> Q a b') -> bwp m b Q.
Proof. unfold bwp. destruct (m b) as [[a b']|]; auto. Qed.

Lemma bwp_lift {A} (o : option A) b (Q : A -> Builder S -> Prop) :
  (o = None -> strict = false) -> (forall a, o = Some a -> Q a b) -> bwp (vm_lift o) b Q.
Proof. unfold bwp, vm_lift. destruct o; auto. Qed.

(** A pointer of a state that the epsilon order allows. *)
Definition ordered (id : nat) (target : option nat) : Prop :=
  forall j, target = Some j -> j = 0%nat \/ (id < j)%nat.

Definition in_arena (b : Builder S) (target : option nat) : Prop :=
  forall j, target = Some j -> (j < size b)%nat.

Definition state_ok (b : Builder S) (id : nat) (st : NfaState) : Prop :=
  in_arena b (out1 st) /\ in_arena b (out2 st) /\
  is_accept st = (id =? 0)%nat /\
  (acyclic = true -> is_epsilon st = true -> ordered id (out1 st) /\ ordered id (out2 st)).

Record inv (b : Builder S) : Prop := {
  inv_states id st : b_arena b !! id = Some st -> state_ok b id st;
  inv_live : strict = true -> b_live b = true;
  inv_cap : strict = true -> b_cap b = ARENA_INIT_CAP /\ (size b <= ARENA_INIT_CAP)%nat;
  inv_mb : 0 < b_mb_cap b /\ 0 <= b_mb_used b;
  inv_size : (1 <= size b)%nat;
}.

(** A fragment whose dangling states were made at sizes [lo] to [hi]. *)
Record frag_in (lo hi : nat) (f : NfaFrag) : Prop := {
  in_start s : f_start f = Some s -> (s < hi)%nat /\ (s = 0 \/ lo <= s)%nat;
  in_nodup : NoDup (map slot_state (f_outs f));
  in_outs o : o ∈ f_outs f -> (lo <= slot_state o < hi)%nat;
}.

Definition pos_ok (p : Z) : Prop := strict = true -> p ∈ boundaries \/ pend <= p.

(** The contract of [build_frag] and [build_sequence]: entered at [lo], with
    [n0] states in the arena. *)
Definition good (lo : Z) (n0 : nat) (r : NfaFrag * Z) (b : Builder S) : Prop :=
  inv b /\ (n0 <= size b)%nat /\ frag_in n0 (size b) (fst r) /\
  (strict = true -> b_error b = false -> lo < snd r /\ pos_ok (snd r)).

Lemma frag_in_weaken lo hi lo' hi' f :
  frag_in lo hi f -> (lo' <= lo)%nat -> (hi <= hi')%nat -> frag_in lo' hi' f.
Proof.
  intros [F1 F2 F3] Hl Hh. constructor; [|done|].
  - intros s Hs. destruct (F1 s Hs). lia.
  - intros o Ho. specialize (F3 o Ho). lia.
Qed.

Lemma frag_in_empty lo hi : frag_in lo hi frag_empty.
Proof. constructor; [done|constructor|]. by intros o ?%elem_of_nil. Qed.

Lemma frag_in_make lo hi id slot :
  (lo <= id < hi)%nat -> slot_state slot = id -> frag_in lo hi (frag_make (Some id) (Some slot)).
Proof.
  intros Hid <-. constructor; simpl.
  - intros s [= <-]. lia.
  - apply NoDup_singleton.
  - intros o ->%list_elem_of_singleton. lia.
Qed.

(** ** The primitive operations *)

Lemma state_ok_grow b b' id st :
  state_ok b id st -> (size b <= size b')%nat -> state_ok b' id st.
Proof.
  intros (H1 & H2 & H3 & H4) Hs. split_and!; [| |done|done];
    intros j Hj; [specialize (H1 j Hj)|specialize (H2 j Hj)]; lia.
Qed.

(** A fresh state of a type other than ACCEPT at the end of the arena. *)
Definition fresh (ty : NfaStateType) : NfaState := {| type := ty; out1 := None; out2 := None |}.

Lemma inv_push b ty cap h :
  inv b -> is_accept (fresh ty) = false -> (strict = true -> (size b < ARENA_INIT_CAP)%nat) ->
  (strict = true -> cap = ARENA_INIT_CAP) ->
  inv (with_arena (with_block b cap true h) (b_arena b ++ [fresh ty])).
Proof.
  intros [I1 I2 I3 I4 I5] Hty Hs Hc. constructor; simpl.
  - intros id st Hid. apply lookup_app_Some in Hid as [Hid|[Hge Hid]].
    + eapply state_ok_grow; [by apply I1|]. simpl. rewrite length_app. lia.
    + apply list_lookup_singleton_Some in Hid as [Hd <-].
      split_and!; try done. rewrite Hty. symmetry. apply Nat.eqb_neq. lia.
  - done.
  - intros Hst. rewrite length_app. simpl. specialize (Hs Hst). auto with lia.
  - done.
  - rewrite length_app. simpl. lia.
Qed.

Lemma inv_heap b cap live h :
  inv b -> (strict = true -> cap = ARENA_INIT_CAP /\ live = true) -> inv (with_block b cap live h).
Proof.
  intros [I1 I2 I3 I4 I5] H. constructor; simpl; auto.
  - intros Hs. by apply H.
  - intros Hs. split; [by apply H|by apply I3].
Qed.

(** What [arena_alloc] followed by a choice of type gives. *)
Definition allocated (ty : NfaStateType) (b : Builder S) (r : option nat) (b' : Builder S)
    : Prop :=
  inv b' /\
  match r with
  | Some id => id = size b /\ b_arena b' = b_arena b ++ [fresh ty] /\ b_error b' = b_error b
  | None => (size b <= size b')%nat
  end.

Lemma arena_alloc_spec b (ty : NfaStateType) :
  inv b -> is_accept (fresh ty) = false ->
  bwp arena_alloc b (fun r b' =>
    match r with
    | Some id => exists cap h, id = size b /\ b_live b' = true /\
        b' = with_arena (with_block b cap true h) (b_arena b ++ [fresh NFA_ACCEPT]) /\
        inv (with_arena (with_block b cap true h) (b_arena b ++ [fresh ty]))
    | None => inv b' /\ size b' = size b
    end).
Proof.
  intros I Hty. unfold bwp, arena_alloc.
  destruct (b_live b) eqn:Hlive; simpl.
  2: { destruct strict eqn:Hs; [|done]. pose proof (inv_live b I Hs). congruence. }
  destruct (Nat.leb_spec (b_cap b) (size b)) as [Hcap|Hcap].
  - pose proof (fun Hs => Hrefuse Hs (Z.of_nat (b_cap b * 2) * sizeof_NfaState) (b_heap b)) as Hn.
    destruct (realloc _ (b_heap b)) as [[] h]; simpl in Hn; simpl.
    + split; [|done]. apply inv_heap; [done|]. intros Hs. split; [by apply (inv_cap b I)|done].
    + exists (b_cap b * 2)%nat, h. split_and!; try done.
      apply inv_push; try done; intros Hs; by specialize (Hn Hs).
    + split; [|done]. apply inv_heap; [done|]. intros Hs. by specialize (Hn Hs).
  - exists (b_cap b), (b_heap b). split_and!; try done.
    + unfold with_block, with_arena. simpl. by rewrite <- Hlive.
    + apply inv_push; try done; intros Hs; destruct (inv_cap b I Hs); [lia|done].
Qed.

Lemma set_type_fresh b cap h ty :
  bwp (set_type (size b) ty) (with_arena (with_block b cap true h) (b_arena b ++ [fresh NFA_ACCEPT]))
    (fun _ b' => b' = with_arena (with_block b cap true h) (b_arena b ++ [fresh ty])).
Proof.
  unfold bwp, set_type. simpl. unfold array_read.
  rewrite lookup_app_r, Nat.sub_diag by lia. simpl.
  rewrite array_write_in by (rewrite length_app; simpl; lia). simpl.
  rewrite insert_app_r_alt, Nat.sub_diag by lia. done.
Qed.

Lemma make_state_spec b ty :
  inv b -> is_accept (fresh ty) = false -> bwp (make_state ty) b (allocated ty b).
Proof.
  intros I Hty. apply bwp_bind. eapply bwp_mono; [by apply (arena_alloc_spec b ty)|].
  intros [id|] b'.
  - intros (cap & h & -> & _ & -> & I'). apply bwp_bind.
    eapply bwp_mono; [apply set_type_fresh|]. intros _ b' ->. apply bwp_ret.
    done.
  - intros [I' Hs]. apply bwp_ret. split; [done|]. simpl. lia.
Qed.

(** What may be stored in a slot. *)
Definition target_ok (b : Builder S) (o : Slot) (target : option nat) : Prop :=
  (slot_state o < size b)%nat /\ in_arena b target /\
  (acyclic = true -> forall st, b_arena b !! slot_state o = Some st ->
     is_epsilon st = true -> ordered (slot_state o) target).

(** The arena after stores into slots: same states, other pointers. *)
Definition rewired (b b' : Builder S) : Prop :=
  inv b' /\ size b' = size b /\ b_error b' = b_error b /\
  forall id, type <$> b_arena b' !! id = type <$> b_arena b !! id.

Lemma rewired_refl b : inv b -> rewired b b.
Proof. done. Qed.

Lemma rewired_trans b1 b2 b3 : rewired b1 b2 -> rewired b2 b3 -> rewired b1 b3.
Proof.
  intros (_ & S1 & E1 & T1) (I2 & S2 & E2 & T2). split_and!; [done|lia|congruence|].
  intros id. by rewrite T2.
Qed.

Lemma is_epsilon_type st st' : type st = type st' -> is_epsilon st = is_epsilon st'.
Proof. unfold is_epsilon. by intros ->. Qed.

Lemma is_accept_type st st' : type st = type st' -> is_accept st = is_accept st'.
Proof. unfold is_accept. by intros ->. Qed.

Lemma target_ok_rewired b b' o target :
  rewired b b' -> target_ok b o target -> target_ok b' o target.
Proof.
  intros (_ & Hs & _ & Ht) (H1 & H2 & H3). split_and!; [lia| |].
  - intros j Hj. rewrite Hs. by apply H2.
  - intros Ha st Hst He. specialize (Ht (slot_state o)). rewrite Hst in Ht.
    destruct (b_arena b !! slot_state o) as [st0|] eqn:E; [|done]. simpl in Ht.
    injection Ht as Ht. apply (H3 Ha st0); [done|].
    by rewrite (is_epsilon_type st0 st).
Qed.

(** The state a store leaves behind. *)
Definition stored (o : Slot) (target : option nat) (st : NfaState) : NfaState :=
  match o with
  | Out1 _ => {| type := type st; out1 := target; out2 := out2 st |}
  | Out2 _ => {| type := type st; out1 := out1 st; out2 := target |}
  end.

Lemma set_slot_spec b o target :
  inv b -> target_ok b o target -> bwp (set_slot o target) b (fun _ => rewired b).
Proof.
  intros I (Hid & Ht & Ho). unfold bwp, set_slot.
  destruct (b_live b) eqn:Hlive; simpl.
  2: { destruct strict eqn:Hs; [|done]. pose proof (inv_live b I Hs). congruence. }
  destruct (lookup_lt_is_Some_2 (b_arena b) (slot_state o) Hid) as [st Hst].
  unfold array_read. rewrite Hst, array_write_in by done. fold (stored o target st).
  assert (type (stored o target st) = type st) as Hty by (by destruct o).
  destruct I as [I1 I2 I3 I4 I5]. split_and!; simpl.
  - constructor; simpl; rewrite ?length_insert; try done.
    intros id st' Hst'. destruct (decide (id = slot_state o)) as [->|Hne].
    + rewrite list_lookup_insert_eq in Hst' by done. injection Hst' as <-.
      destruct (I1 _ _ Hst) as (S1 & S2 & S3 & S4).
      assert (forall t, in_arena b t -> in_arena
        (with_arena b (<[slot_state o := stored o target st]> (b_arena b))) t) as Hgrow.
      { intros t H j Hj. simpl. rewrite length_insert. by apply H. }
      split_and!; [| | by rewrite (is_accept_type _ st)|].
      * destruct o; simpl; by apply Hgrow.
      * destruct o; simpl; by apply Hgrow.
      * intros Ha He. rewrite (is_epsilon_type _ st) in He by done.
        destruct (S4 Ha He). specialize (Ho Ha st Hst He). by destruct o.
    + rewrite list_lookup_insert_ne in Hst' by done.
      eapply state_ok_grow; [by apply I1|]. simpl. by rewrite length_insert.
  - by rewrite length_insert.
  - done.
  - intros id. destruct (decide (id = slot_state o)) as [->|Hne].
    + rewrite list_lookup_insert_eq, Hst by done. simpl. by rewrite Hty.
    + by rewrite list_lookup_insert_ne.
Qed.

Lemma patch_slots_spec target slots : forall b,
  inv b -> (forall o, o ∈ slots -> target_ok b o target) ->
  bwp (patch_slots slots target) b (fun _ => rewired b).
Proof.
  induction slots as [|o slots IH]; intros b I H; cbn [patch_slots].
  - by apply bwp_ret, rewired_refl.
  - apply bwp_bind. eapply bwp_mono; [apply set_slot_spec; [done|apply H; by left]|].
    intros [] b1 R1. eapply bwp_mono; [apply IH|].
    + by destruct R1.
    + intros o' Ho'. eapply target_ok_rewired; [done|]. apply H. by right.
    + intros [] b2 R2. by eapply rewired_trans.
Qed.

(** Dangling outputs of an older fragment may point at a newer one. *)
Lemma older_target lo hi f b target :
  frag_in lo hi f -> (hi <= size b)%nat ->
  (forall t, target = Some t -> (t < size b)%nat /\ (t = 0 \/ hi <= t)%nat) ->
  forall o, o ∈ f_outs f -> target_ok b o target.
Proof.
  intros F Hhi Ht o Ho. pose proof (in_outs _ _ _ F o Ho). split_and!; [lia| |].
  - intros j Hj. by apply Ht.
  - intros _ st _ _ j Hj. destruct (Ht j Hj) as [_ [->|]]; [by left|right; lia].
Qed.

Lemma frag_append_spec lo mid acc f b :
  inv b -> frag_in lo mid acc -> frag_in mid (size b) f -> (lo <= mid <= size b)%nat ->
  bwp (frag_append acc f) b (fun r b' => rewired b b' /\ frag_in lo (size b') r).
Proof.
  intros I Fa Ff Hm. unfold frag_append. destruct (f_start acc) as [s|] eqn:Es.
  - apply bwp_bind. eapply bwp_mono.
    + apply patch_slots_spec; [done|]. apply (older_target lo mid); [done|lia|].
      intros t Ht. apply (in_start _ _ _ Ff t Ht).
    + intros [] b' R. apply bwp_ret. split; [done|]. destruct R as (_ & -> & _).
      constructor; simpl.
      * intros t [= <-]. destruct (in_start _ _ _ Fa s Es). lia.
      * apply (in_nodup _ _ _ Ff).
      * intros o Ho. pose proof (in_outs _ _ _ Ff o Ho). lia.
  - apply bwp_ret. split; [by apply rewired_refl|]. eapply frag_in_weaken; [done|lia|lia].
Qed.

Lemma merge_outs_spec src : forall dst,
  (length dst + length src <= MAX_DANGLING)%nat ->
  frag_merge_outs dst src = Some (dst ++ src).
Proof.
  induction src as [|s src IH]; intros dst H; cbn [frag_merge_outs length] in *.
  - by rewrite app_nil_r.
  - destruct (Nat.ltb_spec (length dst) MAX_DANGLING); [|lia].
    rewrite IH by (rewrite length_app; simpl; lia). by rewrite <- app_assoc.
Qed.

Lemma merge_outs_app src : forall dst r, frag_merge_outs dst src = Some r -> r = dst ++ src.
Proof.
  induction src as [|s src IH]; intros dst r; cbn [frag_merge_outs].
  - intros [= <-]. by rewrite app_nil_r.
  - destruct (_ <? _)%nat; [|done]. intros H. apply IH in H. by rewrite <- app_assoc in H.
Qed.

Lemma frag_in_length lo hi f : frag_in lo hi f -> (length (f_outs f) <= hi - lo)%nat.
Proof.
  intros [_ F2 F3]. rewrite <- (length_map slot_state).
  replace (hi - lo)%nat with (length (seq lo (hi - lo))) by apply length_seq.
  apply submseteq_length, NoDup_submseteq; [done|].
  intros x Hx. apply list_elem_of_fmap in Hx as (o & -> & Ho). apply elem_of_seq.
  specialize (F3 o Ho). lia.
Qed.

Lemma frag_in_app lo mid hi f1 f2 s :
  frag_in lo mid f1 -> frag_in mid hi f2 -> (lo <= mid <= hi)%nat -> f_start f1 = s ->
  frag_in lo hi {| f_start := s; f_outs := f_outs f1 ++ f_outs f2 |}.
Proof.
  intros F1 F2 Hm <-. constructor; simpl.
  - intros t Ht. destruct (in_start _ _ _ F1 t Ht). lia.
  - rewrite map_app. apply NoDup_app. split_and!; [apply F1| |apply F2].
    intros x H1 H2. apply list_elem_of_fmap in H1 as (o1 & -> & H1), H2 as (o2 & E & H2).
    pose proof (in_outs _ _ _ F1 o1 H1). pose proof (in_outs _ _ _ F2 o2 H2). lia.
  - intros o [Ho|Ho]%elem_of_app;
      [pose proof (in_outs _ _ _ F1 o Ho)|pose proof (in_outs _ _ _ F2 o Ho)]; lia.
Qed.

Lemma frag_merge_spec lo mid hi b f1 f2 (Q : NfaFrag -> Builder S -> Prop) :
  inv b -> frag_in lo mid f1 -> frag_in mid hi f2 -> (lo <= mid <= hi)%nat -> (hi <= size b)%nat ->
  (forall r, frag_in lo hi r -> Q r b) ->
  bwp (frag_merge f1 f2) b Q.
Proof.
  intros I F1 F2 Hm Hh HQ. apply bwp_bind, bwp_lift.
  - intros H. apply not_true_is_false. intros Hs.
    pose proof (frag_in_length _ _ _ F1). pose proof (frag_in_length _ _ _ F2).
    destruct (inv_cap b I Hs) as [_ Hc]. unfold ARENA_INIT_CAP in Hc.
    rewrite merge_outs_spec in H; [done|]. unfold MAX_DANGLING. lia.
  - intros outs H. apply merge_outs_app in H as ->. apply bwp_ret, HQ.
    by eapply frag_in_app.
Qed.

(** ** Building blocks of the contracts *)

Lemma fail_spec p b lo n0 : inv b -> (n0 <= size b)%nat -> bwp (fail p) b (good lo n0).
Proof.
  intros I Hn. unfold bwp, fail, vm_bind, raise_error, vm_ret.
  split_and!; [|done|apply frag_in_empty|done].
  destruct I as [I1 I2 I3 I4 I5]. by constructor.
Qed.

Lemma check_error_spec p k b lo n0 :
  inv b -> (n0 <= size b)%nat -> (b_error b = false -> bwp k b (good lo n0)) ->
  bwp (check_error p k) b (good lo n0).
Proof.
  intros I Hn Hk. unfold check_error. apply bwp_bind. unfold bwp at 1, get_error.
  destruct (b_error b) eqn:E; [by apply fail_spec|auto].
Qed.

(** [s = make...; NEED(s); k]. *)
Lemma make_spec ty p k b lo n0 :
  inv b -> (n0 <= size b)%nat -> is_accept (fresh ty) = false ->
  (forall b', inv b' -> b_arena b' = b_arena b ++ [fresh ty] -> size b' = Datatypes.S (size b) ->
     bwp (k (size b)) b' (good lo n0)) ->
  bwp (vm_bind (make_state ty) (fun s => need s p k)) b (good lo n0).
Proof.
  intros I Hn Hty Hk. apply bwp_bind. eapply bwp_mono; [by apply make_state_spec|].
  intros [id|] b' [I' H]; simpl.
  - destruct H as (-> & Ha & _). apply Hk; [done|done|]. rewrite Ha, length_app. simpl. lia.
  - apply fail_spec; [done|lia].
Qed.

(** The end of a fragment: one new state with one dangling slot. *)
Lemma good_make id o p b lo n0 :
  inv b -> (n0 <= id < size b)%nat -> slot_state o = id ->
  (strict = true -> lo < p /\ pos_ok p) ->
  good lo n0 (frag_make (Some id) (Some o), p) b.
Proof. intros I Hid Ho Hp. split_and!; [done|lia|by apply frag_in_make|auto]. Qed.

Lemma emit_spec ty p b lo :
  inv b -> is_accept (fresh ty) = false -> (strict = true -> lo < p /\ pos_ok p) ->
  bwp (emit (make_state ty) p) b (good lo (size b)).
Proof.
  intros I Hty Hp. apply make_spec; [done|lia|done|].
  intros b' I' _ Hs. apply bwp_ret, good_make; [done|lia|done|done].
Qed.

(** Control transfers of the instruction whose operands start at [p]. *)
Definition continues (lo : Z) (op : OpCode) (p : Z) : Prop :=
  strict = true -> exists l, next_positions enclen reg op p = Some l /\
    forall q, q ∈ l -> lo < q /\ pos_ok q.

Lemma double_until_some needed fuel : forall c,
  0 < c -> needed - c < Z.of_nat fuel -> (0 < fuel)%nat ->
  exists r, double_until fuel c needed = Some r /\ 0 < r.
Proof.
  induction fuel as [|fuel IH]; intros c Hc Hf Hpos; [lia|]. cbn [double_until].
  destruct (Z.ltb_spec c needed); [apply IH; lia|eauto].
Qed.

Lemma inv_with_mb b used cap h : inv b -> 0 <= used -> 0 < cap -> inv (with_mb b used cap h).
Proof. intros [I1 I2 I3 I4 I5] Hu Hc. by constructor. Qed.

Lemma mb_arena_alloc_spec b len :
  inv b -> 0 <= len ->
  bwp (mb_arena_alloc len) b (fun _ b' =>
    inv b' /\ b_arena b' = b_arena b /\ b_error b' = b_error b).
Proof.
  intros I Hl. unfold bwp, mb_arena_alloc. destruct (inv_mb b I) as [Hc Hu].
  destruct (Z.ltb_spec (b_mb_cap b) (b_mb_used b + len)).
  - destruct (double_until_some (b_mb_used b + len) (Z.to_nat (b_mb_used b + len) + 1)
      (b_mb_cap b * 2)) as (r & -> & Hr); [lia|lia|lia|].
    destruct (realloc r (b_heap b)) as [[] h]; split_and!; try done;
      apply inv_with_mb; try done; lia.
  - split_and!; try done. apply inv_with_mb; try done; lia.
Qed.

(** [s = make_cclass(...); NEED(s); k]. *)
Lemma make_cclass_spec bs negative mb_p mb_len p b lo q :
  inv b ->
  (strict = true -> match bs with Some a => read_bytes code a 32 <> None | None => True end) ->
  (strict = true -> 0 <= mb_len /\ read_bytes code mb_p (Z.to_nat mb_len) <> None) ->
  (strict = true -> lo < q /\ pos_ok q) ->
  bwp (vm_bind (make_cclass reg bs negative mb_p mb_len) (fun s =>
         need s p (fun id => vm_ret (frag_make (Some id) (Some (Out1 id)), q)))) b
    (good lo (size b)).
Proof.
  intros I Hbs Hmb Hq. apply bwp_bind. unfold make_cclass. apply bwp_bind.
  eapply bwp_mono; [by apply (arena_alloc_spec b (NFA_CHARCLASS [] negative))|].
  intros [id|] b'.
  2: { intros [I' Hs]. apply bwp_ret. simpl. apply fail_spec; [done|lia]. }
  intros (cap & h & -> & _ & -> & I'). apply bwp_bind, bwp_lift.
  { intros E. apply not_true_is_false. intros Hs. specialize (Hbs Hs). by destruct bs. }
  intros bitmap _. apply bwp_bind. eapply bwp_mono; [apply set_type_fresh|].
  intros [] b' ->.
  assert (inv (with_arena (with_block b cap true h)
    (b_arena b ++ [fresh (NFA_CHARCLASS (bitmap_words 8 bitmap) negative)]))) as I2.
  { apply inv_push; try done.
    - intros Hs. destruct (inv_cap _ I' Hs) as [_ H]. simpl in H. rewrite length_app in H.
      simpl in H. lia.
    - intros Hs. by destruct (inv_cap _ I' Hs). }
  destruct (Z.ltb_spec mb_len 0).
  { unfold bwp, vm_lift. apply not_true_is_false. intros Hs. destruct (Hmb Hs). lia. }
  destruct (Z.eqb_spec mb_len 0).
  - apply bwp_ret. simpl. apply bwp_ret, good_make; try done. simpl. rewrite length_app. simpl. lia.
  - apply bwp_bind. eapply bwp_mono; [by apply mb_arena_alloc_spec|].
    intros [] b2 (I3 & Ha & He); simpl.
    + apply bwp_bind, bwp_lift.
      { intros E. apply not_true_is_false. intros Hs. by destruct (Hmb Hs). }
      intros _ _. apply bwp_ret. simpl. apply bwp_ret, good_make; try done.
      rewrite Ha. simpl. rewrite length_app. simpl. lia.
    + apply bwp_ret. simpl. apply fail_spec; [done|]. rewrite Ha. simpl. rewrite length_app. lia.
Qed.

(** ** Literals *)

Lemma char_chain_spec lo n0 n : forall p acc b,
  inv b -> (n0 <= size b)%nat -> frag_in n0 (size b) acc ->
  (strict = true -> read_bytes code p n <> None) ->
  (strict = true -> lo < p + Z.of_nat n /\ pos_ok (p + Z.of_nat n)) ->
  bwp (char_chain reg n p acc) b (good lo n0).
Proof.
  induction n as [|n IH]; intros p acc b I Hn F Hr Hp; cbn [char_chain].
  - apply bwp_ret. split_and!; try done. intros Hs _. rewrite Z.add_0_r in Hp. by apply Hp.
  - apply bwp_bind, bwp_lift.
    { intros E. apply not_true_is_false. intros Hs. apply (Hr Hs). cbn [read_bytes]. by rewrite E. }
    intros byte Hbyte. apply make_spec; [done|done|done|].
    intros b1 I1 Ha Hsz. apply bwp_bind. eapply bwp_mono.
    + apply (frag_append_spec n0 (size b)); [done|done| |lia].
      apply frag_in_make; [lia|done].
    + intros acc' b2 [(I2 & Hs2 & _ & _) F2]. apply IH; [done|lia|done| |].
      * intros Hs E. apply (Hr Hs). cbn [read_bytes]. by rewrite Hbyte, E.
      * intros Hs. replace (p + 1 + Z.of_nat n) with (p + Z.of_nat (Datatypes.S n)) by lia. auto.
Qed.

Lemma nonneg_some z y : nonneg z = Some y -> y = z /\ 0 <= z.
Proof. unfold nonneg. destruct (Z.ltb_spec z 0); [done|]. intros [= <-]. done. Qed.

(** Open the layout of the instruction at hand, in strict mode [Hs]: its reads
    succeed, and [Hl] knows its continuations. *)
Ltac open_layout Hc Hs :=
  let l := fresh "l" in let El := fresh "El" in
  destruct (Hc Hs) as (l & El & Hl); cbn [next_positions] in El;
  unfold SIZE_LENGTH, SIZE_BITSET, SIZE_MEMNUM, SIZE_RELADDR, SIZE_OPTION in *;
  repeat match goal with
  | Hr : ?t = Some _ |- _ =>
      lazymatch Hr with El => fail | _ => idtac end;
      match type of El with context [t] => rewrite Hr in El end
  end;
  repeat match type of El with
  | context [match ?t with Some _ => _ | None => _ end] =>
      let E := fresh "E" in destruct t eqn:E; [|discriminate El]
  end;
  injection El as <-;
  repeat match goal with
  | E : nonneg _ = Some _ |- _ => apply nonneg_some in E as [-> ?]
  end.

(** A read the layout covers. *)
Ltac covered Hc :=
  let E := fresh "E" in let Hs := fresh "Hs" in
  intros E; apply not_true_is_false; intros Hs; open_layout Hc Hs; congruence.

(** A continuation the layout covers. *)
Ltac continues_at Hc :=
  let Hs := fresh "Hs" in
  intros Hs; open_layout Hc Hs;
  match goal with
  | Hl : forall q, q ∈ ?l -> _ |- ?lo < ?q /\ _ =>
      first [apply Hl; by left | apply Hl; right; by left]
  end.

(** A counted literal of [n] bytes. *)
Lemma exact_spec op n p b lo :
  inv b -> continues lo op p ->
  (next_positions enclen reg op p = let? _ := read_bytes code p n in Some [p + Z.of_nat n]) ->
  bwp (char_chain reg n p frag_empty) b (good lo (size b)).
Proof.
  intros I Hc Hop. apply char_chain_spec; [done|done|apply frag_in_empty| |];
    intros Hs; destruct (Hc Hs) as (l & El & Hl); rewrite Hop in El;
    destruct (read_bytes code p n); [done|done| |done].
  injection El as <-. apply Hl. by left.
Qed.

(** The instructions of [build_literal] and of [build_class]. *)
Definition is_literal (op : OpCode) : bool :=
  match op with
  | OP_EXACT1 | OP_EXACT2 | OP_EXACT3 | OP_EXACT4 | OP_EXACT5 | OP_EXACTN
  | OP_EXACTMB2N1 | OP_EXACTMB2N2 | OP_EXACTMB2N3 | OP_EXACTMB2N | OP_EXACTMB3N
  | OP_EXACTMBN | OP_EXACT1_IC | OP_EXACTN_IC => true
  | _ => false
  end.

Definition is_class (op : OpCode) : bool :=
  match op with
  | OP_CCLASS | OP_CCLASS_NOT | OP_CCLASS_MB | OP_CCLASS_MB_NOT | OP_CCLASS_MIX
  | OP_CCLASS_MIX_NOT | OP_ANYCHAR | OP_ANYCHAR_ML | OP_ANYCHAR_STAR
  | OP_ANYCHAR_ML_STAR | OP_ANYCHAR_STAR_PEEK_NEXT | OP_ANYCHAR_ML_STAR_PEEK_NEXT
  | OP_WORD | OP_NOT_WORD | OP_ASCII_WORD | OP_NOT_ASCII_WORD => true
  | _ => false
  end.

Lemma exactn_spec p b lo :
  inv b -> continues lo OP_EXACTN p ->
  bwp (build_literal enclen reg OP_EXACTN p) b (good lo (size b)).
Proof.
  intros I Hc. apply bwp_bind, bwp_lift; [covered Hc|]. intros len Hlen.
  apply char_chain_spec; [done|done|apply frag_in_empty| |].
  - intros Hs. open_layout Hc Hs. congruence.
  - intros Hs. open_layout Hc Hs. rewrite Z2Nat.id by done. apply Hl. by left.
Qed.

Lemma exactmb2n1_spec p b lo :
  inv b -> continues lo OP_EXACTMB2N1 p ->
  bwp (build_literal enclen reg OP_EXACTMB2N1 p) b (good lo (size b)).
Proof.
  intros I Hc.
  assert (strict = true -> read_at code p <> None /\ read_at code (p + 1) <> None) as Hr.
  { intros Hs. destruct (Hc Hs) as (l & El & _). cbn [next_positions read_bytes] in El.
    destruct (read_at code p); [|done]. by destruct (read_at code (p + 1)). }
  apply bwp_bind, bwp_lift.
  { intros E. apply not_true_is_false. intros Hs. by destruct (Hr Hs). }
  intros byte0 _. apply make_spec; [done|done|done|]. intros b1 I1 _ S1.
  apply bwp_bind, bwp_lift.
  { intros E. apply not_true_is_false. intros Hs. by destruct (Hr Hs). }
  intros byte1 _. apply make_spec; [done|lia|done|]. intros b2 I2 _ S2.
  apply bwp_bind. eapply bwp_mono.
  - apply set_slot_spec; [done|]. split_and!; simpl; [lia|intros j [= <-]; lia|].
    intros _ st _ _ j [= <-]. lia.
  - intros [] b3 (I3 & S3 & _). apply bwp_ret, good_make; [done|lia|done|].
    continues_at Hc.
Qed.

Lemma build_literal_spec op p b lo :
  inv b -> is_literal op = true -> continues lo op p ->
  bwp (build_literal enclen reg op p) b (good lo (size b)).
Proof.
  intros I Hop Hc. destruct op; try discriminate Hop;
    first [ by apply exactn_spec | by apply exactmb2n1_spec
          | cbn [build_literal]; first [by eapply exact_spec | by apply fail_spec | idtac] ].
  - apply bwp_bind, bwp_lift; [covered Hc|]. intros len Hlen.
    apply bwp_bind, bwp_lift; [covered Hc|]. intros n Hn. by apply fail_spec.
  - apply bwp_bind, bwp_lift; [covered Hc|]. intros len Hlen.
    apply bwp_bind, bwp_lift; [covered Hc|]. intros n Hn. by apply fail_spec.
  - apply bwp_bind, bwp_lift; [covered Hc|]. intros len Hlen.
    apply bwp_bind, bwp_lift; [covered Hc|]. intros len2 Hlen2.
    apply bwp_bind, bwp_lift; [covered Hc|]. intros n Hn. by apply fail_spec.
  - apply bwp_bind, bwp_lift; [covered Hc|]. intros byte Hbyte.
    apply make_spec; [done|done|done|]. intros b1 I1 _ S1.
    apply bwp_ret, good_make; [done|lia|done|continues_at Hc].
  - apply bwp_bind, bwp_lift; [covered Hc|]. intros len Hlen.
    apply bwp_bind, bwp_lift; [covered Hc|]. intros byte Hbyte.
    apply make_spec; [done|done|done|]. intros b1 I1 _ S1.
    apply bwp_ret, good_make; [done|lia|done|continues_at Hc].
Qed.

(** ** Classes, wildcards, saves *)

Lemma build_any_star_spec ml p b lo :
  inv b -> (strict = true -> lo < p /\ pos_ok p) ->
  bwp (build_any_star ml p) b (good lo (size b)).
Proof.
  intros I Hp. unfold build_any_star. apply bwp_bind.
  eapply bwp_mono; [by apply make_state_spec|]. intros split b1 [I1 H1].
  set (ty := if ml then NFA_ANY_ML else NFA_ANY).
  apply bwp_bind. eapply bwp_mono; [apply (make_state_spec b1 ty); [done|by destruct ml]|].
  intros any b2 [I2 H2]. destruct split as [split|]; simpl.
  2: { apply fail_spec; [done|]. destruct any; [|lia]. destruct H2 as (_ & -> & _).
       rewrite length_app. lia. }
  destruct H1 as (-> & H1 & _). apply (f_equal length) in H1. rewrite length_app in H1.
  simpl in H1.
  destruct any as [any|]; simpl; [|apply fail_spec; [done|lia]].
  destruct H2 as (-> & H2 & _). pose proof (f_equal length H2) as L2. rewrite length_app in L2.
  simpl in L2.
  apply bwp_bind. eapply bwp_mono.
  { apply set_slot_spec; [done|]. split_and!; simpl; [lia|intros j [= <-]; lia|].
    intros _ st _ _ j [= <-]. lia. }
  intros [] b3 (I3 & S3 & _ & T3). apply bwp_bind. eapply bwp_mono.
  { apply set_slot_spec; [done|]. split_and!; simpl; [lia|intros j [= <-]; lia|].
    intros _ st Hst He. specialize (T3 (size b1)). rewrite Hst, H2 in T3.
    rewrite lookup_app_r, Nat.sub_diag in T3 by lia. simpl in T3. injection T3 as T3.
    unfold is_epsilon in He. rewrite T3 in He. unfold ty in He. by destruct ml. }
  intros [] b4 (I4 & S4 & _). apply bwp_ret, good_make; [done|lia|done|done].
Qed.

Lemma build_class_spec op p b lo :
  inv b -> is_class op = true -> continues lo op p ->
  bwp (build_class reg op p) b (good lo (size b)).
Proof.
  intros I Hop Hc. destruct op; try discriminate Hop; cbn [build_class];
    try (apply emit_spec; [done|done|continues_at Hc]);
    try (apply build_any_star_spec; [done|continues_at Hc]).
  all: try (apply bwp_bind, bwp_lift; [covered Hc|]; intros len Hlen).
  all: apply make_cclass_spec; [done| | |continues_at Hc].
  all: try done; intros Hs; open_layout Hc Hs; try (split; [done|]); simpl; congruence.
Qed.

Lemma build_save_spec op side p b lo :
  inv b -> continues lo op p ->
  next_positions enclen reg op p = (let? _ := get_short code p in Some [p + 2]) ->
  bwp (build_save reg side p) b (good lo (size b)).
Proof.
  intros I Hc Hop. apply bwp_bind, bwp_lift.
  - intros E. apply not_true_is_false. intros Hs. destruct (Hc Hs) as (l & El & _).
    by rewrite Hop, E in El.
  - intros mem Hm. apply emit_spec; [done|done|]. intros Hs. destruct (Hc Hs) as (l & El & Hl).
    rewrite Hop, Hm in El. injection El as <-. apply Hl. by left.
Qed.

(** ** Control flow *)

(** A slot of an older state may point at a newer fragment. *)
Lemma newer_target lo hi f b o :
  frag_in lo hi f -> (slot_state o < lo)%nat -> (lo <= hi <= size b)%nat ->
  target_ok b o (f_start f).
Proof.
  intros F Ho Hh. split_and!; [lia| |].
  - intros j Hj. destruct (in_start _ _ _ F j Hj). lia.
  - intros _ st _ _ j Hj. destruct (in_start _ _ _ F j Hj) as [_ [->|]]; [by left|right; lia].
Qed.

Lemma frag_in_bare lo hi id : (lo <= id < hi)%nat -> frag_in lo hi (frag_make (Some id) None).
Proof.
  intros H. constructor; simpl; [|constructor|by intros o ?%elem_of_nil].
  intros s [= <-]. lia.
Qed.

Section Rec.

Context (rec : Z -> Z -> VM (Builder S) (NfaFrag * Z)).
Context (lo : Z).
Context (Hrec : forall depth pp b, inv b -> (strict = true -> lo < pp /\ pos_ok pp) ->
           bwp (rec depth pp) b (fun r b' => good (pp - 1) (size b) r b' /\
             (b_error b = true -> b_error b' = true))).

Lemma rec_bind_error {A} depth pp b (K : NfaFrag * Z -> VM (Builder S) A) Q :
  inv b -> (strict = true -> lo < pp /\ pos_ok pp) ->
  (forall f p b', inv b' -> (size b <= size b')%nat -> frag_in (size b) (size b') f ->
     (strict = true -> b_error b' = false -> lo < p /\ pos_ok p) ->
     (b_error b = true -> b_error b' = true) -> bwp (K (f, p)) b' Q) ->
  bwp (vm_bind (rec depth pp) K) b Q.
Proof.
  intros I Hp HK. apply bwp_bind. eapply bwp_mono; [by apply Hrec|].
  intros [f p] b' [(I' & Hs & F & Hpos) He]. apply HK; try done.
  intros St Hf. destruct (Hp St). destruct (Hpos St Hf). simpl in *. split; [lia|done].
Qed.

Lemma rec_bind {A} depth pp b (K : NfaFrag * Z -> VM (Builder S) A) Q :
  inv b -> (strict = true -> lo < pp /\ pos_ok pp) ->
  (forall f p b', inv b' -> (size b <= size b')%nat -> frag_in (size b) (size b') f ->
     (strict = true -> b_error b' = false -> lo < p /\ pos_ok p) -> bwp (K (f, p)) b' Q) ->
  bwp (vm_bind (rec depth pp) K) b Q.
Proof. intros I Hp HK. by apply rec_bind_error; eauto. Qed.

Lemma rec_tail depth pp b :
  inv b -> (strict = true -> lo < pp /\ pos_ok pp) -> bwp (rec depth pp) b (good lo (size b)).
Proof.
  intros I Hp. eapply bwp_mono; [by apply Hrec|].
  intros r b' [(I' & S' & F' & P') _]. split_and!; try done. intros Hs He.
  destruct (P' Hs He), (Hp Hs). split; [lia|done].
Qed.

Lemma build_push_spec p depth b :
  inv b -> continues lo OP_PUSH p -> bwp (build_push reg rec p depth) b (good lo (size b)).
Proof.
  intros I Hc. apply bwp_bind, bwp_lift; [covered Hc|]. intros rel Hrel.
  apply make_spec; [done|done|done|]. intros b0 I0 _ S0.
  apply rec_bind; [done|continues_at Hc|]. intros f1 p1 b1 I1 S1 F1 P1.
  apply check_error_spec; [done|lia|]. intros E1.
  apply rec_bind; [done|continues_at Hc|]. intros f2 p2 b2 I2 S2 F2 _.
  apply check_error_spec; [done|lia|]. intros _.
  apply bwp_bind. eapply bwp_mono.
  { apply set_slot_spec; [done|]. eapply newer_target; [exact F1|simpl; lia|lia]. }
  intros [] b3 (I3 & S3 & _). apply bwp_bind. eapply bwp_mono.
  { apply set_slot_spec; [done|]. eapply newer_target; [exact F2|simpl; lia|lia]. }
  intros [] b4 (I4 & S4 & _). apply bwp_bind.
  apply (frag_merge_spec (size b) (size b0) (size b1));
    [done|apply frag_in_bare; lia|done|lia|lia|]. intros r Fr. apply bwp_bind.
  apply (frag_merge_spec (size b) (size b1) (size b4)); [done|done| |lia|lia|].
  { by rewrite S4, S3. }
  intros r' Fr'. apply bwp_ret. split_and!; [done|lia|done|]. intros Hs _. by apply P1.
Qed.

Lemma build_push_or_jump_spec p depth b :
  inv b -> continues lo OP_PUSH_OR_JUMP_EXACT1 p ->
  bwp (build_push_or_jump reg rec p depth) b (good lo (size b)).
Proof.
  intros I Hc. apply bwp_bind, bwp_lift; [covered Hc|]. intros rel Hrel.
  apply bwp_bind, bwp_lift; [covered Hc|]. intros byte Hbyte.
  apply bwp_bind. eapply bwp_mono; [by apply make_state_spec|]. intros split b0 [I0 H0].
  apply bwp_bind. eapply bwp_mono; [by apply (make_state_spec b0 (NFA_CHAR byte))|].
  intros ch b1 [I1 H1]. destruct split as [split|]; simpl.
  2: { apply fail_spec; [done|]. destruct ch; [|lia]. destruct H1 as (_ & -> & _).
       rewrite length_app. lia. }
  destruct H0 as (-> & H0 & _). apply (f_equal length) in H0. rewrite length_app in H0.
  simpl in H0. destruct ch as [ch|]; simpl; [|apply fail_spec; [done|lia]].
  destruct H1 as (-> & H1 & _). apply (f_equal length) in H1. rewrite length_app in H1.
  simpl in H1. apply bwp_bind. eapply bwp_mono.
  { apply set_slot_spec; [done|]. split_and!; simpl; [lia|intros j [= <-]; lia|].
    intros _ st _ _ j [= <-]. lia. }
  intros [] b2 (I2 & S2 & _).
  apply rec_bind; [done|continues_at Hc|]. intros body p1 b3 I3 S3 F3 P3.
  apply check_error_spec; [done|lia|]. intros E3. apply bwp_bind. eapply bwp_mono.
  { apply set_slot_spec; [done|]. eapply newer_target; [exact F3|simpl; lia|lia]. }
  intros [] b4 (I4 & S4 & _).
  apply rec_bind; [done|continues_at Hc|]. intros skip p2 b5 I5 S5 F5 _.
  apply check_error_spec; [done|lia|]. intros _. apply bwp_bind. eapply bwp_mono.
  { apply set_slot_spec; [done|]. eapply newer_target; [exact F5|simpl; lia|lia]. }
  intros [] b6 (I6 & S6 & _). apply bwp_bind.
  apply (frag_merge_spec (size b) (size b2) (size b3));
    [done|apply frag_in_bare; lia|done|lia|lia|]. intros r Fr. apply bwp_bind.
  apply (frag_merge_spec (size b) (size b3) (size b6)); [done|done| |lia|lia|].
  { by rewrite S6, <- S4. }
  intros r' Fr'. apply bwp_ret. split_and!; [done|lia|done|]. intros Hs _. by apply P3.
Qed.

(** One SPLIT in front of a body: the shape of PUSH_IF_PEEK_NEXT and of the
    optional quantifier. *)
Lemma split_body_spec enter skip pp p depth b :
  (forall id, slot_state (enter id) = id) -> (forall id, slot_state (skip id) = id) ->
  inv b -> (strict = true -> lo < p /\ pos_ok p) ->
  bwp (vm_bind (make_state NFA_SPLIT) (fun split => need split pp (fun split =>
    vm_bind (rec (depth + 1) p) (fun '(b1, p) =>
    check_error p
   (vm_bind (set_slot (enter split) (f_start b1)) (fun _ =>
    vm_bind (frag_merge (frag_make (Some split) (Some (skip split))) b1) (fun result =>
    vm_ret (result, p)))))))) b (good lo (size b)).
Proof.
  intros He Hk I Hp. apply make_spec; [done|done|done|]. intros b0 I0 _ S0.
  apply rec_bind; [done|done|]. intros f p1 b1 I1 S1 F1 P1.
  apply check_error_spec; [done|lia|]. intros E1. apply bwp_bind. eapply bwp_mono.
  { apply set_slot_spec; [done|]. eapply newer_target; [exact F1|rewrite He; lia|lia]. }
  intros [] b2 (I2 & S2 & _). apply bwp_bind.
  apply (frag_merge_spec (size b) (size b0) (size b1));
    [done|apply frag_in_make; [lia|apply Hk]|done|lia|lia|].
  intros r Fr. apply bwp_ret. split_and!; [done|lia|by rewrite S2|]. intros Hs _. by apply P1.
Qed.

(** ** Quantifiers *)

Lemma enter_slot_state greedy id : slot_state (enter_slot greedy id) = id.
Proof. by destruct greedy. Qed.

Lemma skip_slot_state greedy id : slot_state (skip_slot greedy id) = id.
Proof. by destruct greedy. Qed.

(** Loops back are only built for unbounded ranges. *)
Lemma loop_target lo' hi f b split :
  acyclic = false -> frag_in lo' hi f -> (hi <= size b)%nat -> (split < size b)%nat ->
  forall o, o ∈ f_outs f -> target_ok b o (Some split).
Proof.
  intros Ha F Hh Hs o Ho. pose proof (in_outs _ _ _ F o Ho). split_and!; [lia| |].
  - intros j [= <-]. done.
  - intros Ha'. congruence.
Qed.

Lemma build_star_spec greedy p depth b :
  acyclic = false -> inv b -> (strict = true -> lo < p /\ pos_ok p) ->
  bwp (build_star rec greedy p depth) b (good lo (size b)).
Proof.
  intros Ha I Hp. apply make_spec; [done|done|done|]. intros b0 I0 _ S0.
  apply rec_bind; [done|done|]. intros f p1 b1 I1 S1 F1 P1.
  apply check_error_spec; [done|lia|]. intros E1. apply bwp_bind. eapply bwp_mono.
  { apply patch_slots_spec; [done|]. eapply loop_target; [done|exact F1|lia|lia]. }
  intros [] b2 (I2 & S2 & _). apply bwp_bind. eapply bwp_mono.
  { apply set_slot_spec; [done|].
    eapply newer_target; [exact F1|rewrite enter_slot_state; lia|lia]. }
  intros [] b3 (I3 & S3 & _). apply bwp_ret, good_make; [done|lia|apply skip_slot_state|].
  intros Hs. by apply P1.
Qed.

Lemma build_plus_spec greedy body_start depth b :
  acyclic = false -> inv b -> (strict = true -> lo < body_start /\ pos_ok body_start) ->
  bwp (build_plus rec greedy body_start depth) b (good lo (size b)).
Proof.
  intros Ha I Hp. apply rec_bind; [done|done|]. intros f p b1 I1 S1 F1 P1.
  apply check_error_spec; [done|lia|]. intros E1.
  apply make_spec; [done|lia|done|]. intros b2 I2 _ S2. apply bwp_bind. eapply bwp_mono.
  { apply patch_slots_spec; [done|]. eapply loop_target; [done|exact F1|lia|lia]. }
  intros [] b3 (I3 & S3 & _). apply rec_bind; [done|done|]. intros f2 p2 b4 I4 S4 F4 _.
  apply check_error_spec; [done|lia|]. intros _. apply bwp_bind. eapply bwp_mono.
  { apply patch_slots_spec; [done|]. eapply loop_target; [done|exact F4|lia|lia]. }
  intros [] b5 (I5 & S5 & _). apply bwp_bind. eapply bwp_mono.
  { apply set_slot_spec; [done|].
    eapply newer_target; [exact F4|rewrite enter_slot_state; lia|lia]. }
  intros [] b6 (I6 & S6 & _). apply bwp_ret. split_and!; [done|simpl; lia| |].
  - constructor; simpl.
    + intros s Hs. destruct (in_start _ _ _ F1 s Hs). lia.
    + apply NoDup_singleton.
    + intros o ->%list_elem_of_singleton. rewrite skip_slot_state. lia.
  - intros Hs _. by apply P1.
Qed.

Lemma repeat_build_copies_spec n0 n : forall body_start depth acc b,
  inv b -> (n0 <= size b)%nat -> frag_in n0 (size b) acc ->
  (strict = true -> lo < body_start /\ pos_ok body_start) ->
  bwp (repeat_build_copies rec n body_start depth acc) b (fun r b' =>
    inv b' /\ (n0 <= size b')%nat /\ frag_in n0 (size b') r).
Proof.
  induction n as [|n IH]; intros body_start depth acc b I Hn F Hp; cbn [repeat_build_copies].
  - by apply bwp_ret.
  - apply rec_bind; [done|done|]. intros f p b1 I1 S1 F1 _. apply bwp_bind.
    unfold bwp at 1, get_error. destruct (_ || _).
    + unfold bwp, vm_bind, raise_error, vm_ret. split_and!; [|simpl; lia|apply frag_in_empty].
      destruct I1 as [J1 J2 J3 J4 J5]. by constructor.
    + apply bwp_bind. eapply bwp_mono.
      * apply (frag_append_spec n0 (size b)); [done|done|done|lia].
      * intros acc' b2 [(I2 & S2 & _) F2]. apply IH; [done|lia|done|done].
Qed.

Lemma optional_copies_spec n0 n : forall greedy body_start depth acc b,
  inv b -> (n0 <= size b)%nat -> frag_in n0 (size b) acc ->
  (strict = true -> lo < body_start /\ pos_ok body_start) ->
  bwp (optional_copies rec n greedy body_start depth acc) b (fun r b' =>
    inv b' /\ (n0 <= size b')%nat /\
    match r with Some f => frag_in n0 (size b') f | None => True end).
Proof.
  induction n as [|n IH]; intros greedy body_start depth acc b I Hn F Hp; cbn [optional_copies].
  - by apply bwp_ret.
  - apply bwp_bind. eapply bwp_mono; [by apply make_state_spec|].
    intros [split|] b0 [I0 H0]; [|apply bwp_ret; split_and!; [done|lia|done]].
    destruct H0 as (-> & H0 & _). apply (f_equal length) in H0. rewrite length_app in H0.
    simpl in H0. apply rec_bind; [done|done|]. intros f p b1 I1 S1 F1 _. apply bwp_bind.
    unfold bwp at 1, get_error. destruct (b_error b1).
    { apply bwp_ret. split_and!; [done|lia|done]. }
    apply bwp_bind. eapply bwp_mono.
    { apply set_slot_spec; [done|].
      eapply newer_target; [exact F1|rewrite enter_slot_state; lia|lia]. }
    intros [] b2 (I2 & S2 & _). apply bwp_bind.
    apply (frag_merge_spec (size b) (size b0) (size b2));
      [done|apply frag_in_make; [lia|apply skip_slot_state]|by rewrite S2|lia|lia|].
    intros sf Fsf. apply bwp_bind. eapply bwp_mono.
    + apply (frag_append_spec n0 (size b)); [done|done|done|lia].
    + intros acc' b3 [(I3 & S3 & _) F3]. apply IH; [done|lia|done|done].
Qed.

(** Once the builder has failed, no further copy is added. *)
Lemma optional_copies_error n0 n greedy body_start depth acc b :
  inv b -> (n0 <= size b)%nat -> b_error b = true ->
  (strict = true -> lo < body_start /\ pos_ok body_start) ->
  bwp (optional_copies rec (Datatypes.S n) greedy body_start depth acc) b (fun r b' =>
    inv b' /\ (n0 <= size b')%nat /\ r = None).
Proof.
  intros I Hn He Hp. cbn [optional_copies].
  apply bwp_bind. eapply bwp_mono; [by apply make_state_spec|].
  intros [split|] b0 [I0 H0]; [|apply bwp_ret; split_and!; [done|lia|done]].
  destruct H0 as (-> & H0 & E0). apply (f_equal length) in H0. rewrite length_app in H0.
  simpl in H0. apply rec_bind_error; [done|done|]. intros f p b1 I1 S1 F1 _ E1. apply bwp_bind.
  unfold bwp at 1, get_error. rewrite E1 by congruence.
  apply bwp_ret. split_and!; [done|lia|done].
Qed.

Lemma build_tail_loop_spec n0 acc body_start p depth b :
  acyclic = false -> inv b -> (n0 <= size b)%nat -> frag_in n0 (size b) acc ->
  (strict = true -> lo < body_start /\ pos_ok body_start) ->
  (strict = true -> lo < p /\ pos_ok p) ->
  bwp (build_tail_loop rec acc body_start p depth) b (good lo n0).
Proof.
  intros Ha I Hn F Hb Hp. apply make_spec; [done|done|done|]. intros b0 I0 _ S0.
  apply rec_bind; [done|done|]. intros f p1 b1 I1 S1 F1 P1.
  apply check_error_spec; [done|lia|]. intros E1. apply bwp_bind. eapply bwp_mono.
  { apply patch_slots_spec; [done|]. eapply loop_target; [done|exact F1|lia|lia]. }
  intros [] b2 (I2 & S2 & _). apply bwp_bind. eapply bwp_mono.
  { apply set_slot_spec; [done|]. eapply newer_target; [exact F1|simpl; lia|lia]. }
  intros [] b3 (I3 & S3 & _). apply bwp_bind. eapply bwp_mono.
  { apply patch_slots_spec; [done|]. eapply older_target; [exact F|lia|].
    intros t [= <-]. lia. }
  intros [] b4 (I4 & S4 & _). apply bwp_ret. split_and!; [done|simpl; lia| |].
  - constructor; simpl.
    + intros s Hs. destruct (in_start _ _ _ F s Hs). lia.
    + apply NoDup_singleton.
    + intros o ->%list_elem_of_singleton. simpl. lia.
  - intros Hs _. by apply Hp.
Qed.

(** The optional part of an unrolled repeat, from a state that may have
    failed. *)
Lemma unrolled_tail_spec n0 n greedy (is_star : bool) acc body_start p depth b :
  (is_star = true -> acyclic = false /\ n <> 0%nat) ->
  inv b -> (n0 <= size b)%nat -> frag_in n0 (size b) acc ->
  (strict = true -> lo < body_start /\ pos_ok body_start) ->
  (strict = true -> b_error b = false -> lo < p /\ pos_ok p) ->
  bwp (vm_bind (optional_copies rec n greedy body_start depth acc) (fun acc =>
    match acc with
    | None => fail p
    | Some acc => if is_star then build_tail_loop rec acc body_start p depth
                  else vm_ret (acc, p)
    end)) b (good lo n0).
Proof.
  intros Hstar I Hn F Hb Hp. destruct (b_error b) eqn:Eb.
  - destruct n as [|n].
    + apply bwp_bind, bwp_ret. destruct is_star; [by destruct (Hstar eq_refl)|].
      apply bwp_ret. split_and!; try done. intros Hs Hf. simpl in *. congruence.
    + apply bwp_bind. eapply bwp_mono; [by apply (optional_copies_error n0)|].
      intros r b' (I' & Hs & ->). by apply fail_spec.
  - apply bwp_bind. eapply bwp_mono; [by apply (optional_copies_spec n0)|].
    intros [acc'|] b' (I' & Hs & F'); [|by apply fail_spec].
    destruct is_star.
    + apply build_tail_loop_spec; try done; [by apply Hstar|by auto].
    + apply bwp_ret. split_and!; try done. intros St _. by apply Hp.
Qed.

Lemma build_unrolled_spec greedy is_star lower upper body_start body_end_ref depth b :
  (is_star = true -> acyclic = false) -> inv b ->
  (strict = true -> lo < body_start /\ pos_ok body_start) ->
  (strict = true -> lo < body_end_ref /\ pos_ok body_end_ref) ->
  bwp (build_unrolled rec greedy is_star lower upper body_start body_end_ref depth) b
    (good lo (size b)).
Proof.
  intros Hstar I Hb He. unfold build_unrolled.
  set (n := Z.to_nat (Z.min _ _)).
  assert (is_star = true -> acyclic = false /\ n <> 0%nat) as Hstar'.
  { intros Hs. split; [auto|]. unfold n. rewrite Hs. unfold MAX_UNROLL. simpl. lia. }
  clearbody n. apply bwp_bind.
  eapply (bwp_mono _ _ (fun r b' => inv b' /\ (size b <= size b')%nat /\ frag_in (size b) (size b') r)).
  { destruct (0 <? lower).
    - apply repeat_build_copies_spec; [done|done|apply frag_in_empty|done].
    - apply bwp_ret. split_and!; [done|done|apply frag_in_empty]. }
  intros acc b1 (I1 & S1 & F1). apply bwp_bind.
  eapply (bwp_mono _ _ (fun _ b' => b' = b1)).
  { destruct (0 <? lower); unfold bwp, get_error, vm_ret; done. }
  intros failed b' ->. destruct failed; [by apply fail_spec|].
  apply bwp_bind. destruct (lower =? 0).
  - apply rec_bind; [done|done|]. intros f p b2 I2 S2 F2 P2. apply bwp_ret.
    apply unrolled_tail_spec; try done; [lia|]. eapply frag_in_weaken; [done|lia|lia].
  - apply bwp_ret. apply unrolled_tail_spec; try done. auto.
Qed.

Lemma build_repeat_spec op greedy p depth b :
  op = OP_REPEAT \/ op = OP_REPEAT_NG -> inv b -> continues lo op p ->
  bwp (build_repeat reg rec greedy p depth) b (good lo (size b)).
Proof.
  intros Hop I Hc. assert (continues lo OP_REPEAT p) as Hc' by (by destruct Hop as [-> | ->]).
  clear Hc Hop. unfold build_repeat.
  apply bwp_bind, bwp_lift; [covered Hc'|]. intros mem Hmem.
  apply bwp_bind, bwp_lift; [covered Hc'|]. intros rel Hrel.
  apply bwp_bind, bwp_lift.
  { intros E. apply not_true_is_false. intros Hs. open_layout Hc' Hs.
    destruct (Z.ltb_spec mem 0); [lia|]. congruence. }
  intros [lower upper] Hrange.
  assert ((upper =? INFINITE_INT) = true -> acyclic = false) as Hstar.
  { intros E. apply Z.eqb_eq in E. apply not_true_is_false. intros Ha.
    destruct (mem <? 0); [done|]. apply list_elem_of_lookup_2 in Hrange.
    by apply (Hfinite Ha _ Hrange). }
  assert (strict = true -> lo < p + SIZE_MEMNUM + SIZE_RELADDR /\
            pos_ok (p + SIZE_MEMNUM + SIZE_RELADDR)) as Hbody by continues_at Hc'.
  assert (strict = true -> lo < p + SIZE_MEMNUM + SIZE_RELADDR + rel /\
            pos_ok (p + SIZE_MEMNUM + SIZE_RELADDR + rel)) as Hend by continues_at Hc'.
  destruct ((lower =? 0) && (upper =? 1)).
  { apply split_body_spec; auto using enter_slot_state, skip_slot_state. }
  destruct ((lower =? 0) && (upper =? INFINITE_INT)) eqn:E1.
  { apply andb_true_iff in E1 as [_ E1]. apply build_star_spec; auto. }
  destruct ((lower =? 1) && (upper =? INFINITE_INT)) eqn:E2.
  { apply andb_true_iff in E2 as [_ E2]. apply build_plus_spec; auto. }
  destruct ((lower <=? MAX_UNROLL) && _); [|by apply fail_spec].
  by apply build_unrolled_spec.
Qed.

Lemma build_control_spec op p depth b :
  inv b -> continues lo op p -> bwp (build_control reg rec op p depth) b (good lo (size b)).
Proof.
  intros I Hc.
  assert (forall q, (strict = true -> lo < q /\ pos_ok q) -> good lo (size b) (frag_empty, q) b)
    as Hempty.
  { intros q Hq. split_and!; [done|done|apply frag_in_empty|auto]. }
  destruct op; cbn [build_control]; try (by apply fail_spec);
    try (apply bwp_ret, Hempty; continues_at Hc);
    try (by apply build_push_spec); try (by apply build_push_or_jump_spec);
    try (eapply build_repeat_spec; eauto; done);
    try (apply bwp_bind, bwp_lift; [covered Hc|]; intros z Hz; apply bwp_ret, Hempty;
         continues_at Hc).
  - apply bwp_ret. split_and!; [done|done| |].
    + constructor; simpl; [|constructor|by intros o ?%elem_of_nil].
      intros s [= <-]. pose proof (inv_size b I). lia.
    + intros Hs _. revert Hs. continues_at Hc.
  - apply bwp_bind, bwp_lift; [covered Hc|]. intros rel Hrel.
    apply rec_tail; [done|continues_at Hc].
  - apply bwp_bind, bwp_lift; [covered Hc|]. intros rel Hrel.
    apply (split_body_spec Out1 Out2); [done|done|done|continues_at Hc].
  - apply rec_tail; [done|continues_at Hc].
Qed.

(** One instruction at a position the layout knows. *)
Lemma build_frag_spec pp depth b :
  inv b -> (strict = true -> pp ∈ boundaries \/ pend <= pp) -> lo = pp ->
  bwp (build_frag enclen reg rec pp depth) b (good lo (size b)).
Proof.
  intros I Hpp Elo. unfold build_frag.
  destruct (Z.ltb_spec MAX_DEPTH depth); [by apply fail_spec|].
  destruct (Z.leb_spec pend pp) as [|Hlt]; [by apply fail_spec|]. simpl.
  apply bwp_bind, bwp_lift.
  { intros E. apply not_true_is_false. intros Hs. destruct (Hpp Hs) as [Hin|]; [|lia].
    specialize (Hlayout Hs). unfold layout_ok in Hlayout. rewrite forallb_forall in Hlayout.
    specialize (Hlayout pp (proj1 (list_elem_of_In _ _) Hin)). by rewrite E in Hlayout. }
  intros byte Hbyte. destruct (opcode_of_byte byte) as [op|] eqn:Hop; [|by apply fail_spec].
  assert (continues lo op (pp + 1)) as Hc.
  { intros Hs. destruct (Hpp Hs) as [Hin|]; [|lia].
    specialize (Hlayout Hs). unfold layout_ok in Hlayout. rewrite forallb_forall in Hlayout.
    specialize (Hlayout pp (proj1 (list_elem_of_In _ _) Hin)). rewrite Hbyte, Hop in Hlayout.
    destruct (next_positions enclen reg op (pp + 1)) as [l|]; [|done]. exists l. split; [done|].
    intros q Hq. rewrite forallb_forall in Hlayout.
    specialize (Hlayout q (proj1 (list_elem_of_In _ _) Hq)).
    rewrite andb_true_iff, orb_true_iff, Z.ltb_lt, Z.leb_le, bool_decide_eq_true in Hlayout.
    split; [lia|]. intros _. tauto. }
  destruct op; first
    [ by apply build_literal_spec | by apply build_class_spec | by apply build_control_spec
    | by eapply build_save_spec
    | apply emit_spec; [done|done|continues_at Hc] ].
Qed.

End Rec.

(** ** The whole builder *)

Lemma build_sequence_spec fuel : forall n0 seq depth pp b,
  inv b -> (n0 <= size b)%nat -> frag_in n0 (size b) seq ->
  (strict = true -> pos_ok pp) ->
  (strict = true -> pend - pp < Z.of_nat fuel /\ (0 < fuel)%nat) ->
  bwp (build_sequence enclen reg fuel seq depth pp) b (fun r b' => good (pp - 1) n0 r b' /\
    (b_error b = true -> b_error b' = true)).
Proof.
  induction fuel as [|fuel IH]; intros n0 seq depth pp b I Hn F Hp Hf; cbn [build_sequence].
  { unfold bwp, vm_lift. apply not_true_is_false. intros Hs. destruct (Hf Hs). lia. }
  apply bwp_bind. unfold bwp at 1, get_error.
  destruct (Z.ltb_spec pp pend) as [Hlt|Hge]; simpl.
  2: { apply bwp_ret. split; [|done]. split_and!; [done|done|done|].
       intros Hs _. cbn [snd]. split; [lia|auto]. }
  destruct (b_error b) eqn:Eb; simpl.
  { apply bwp_ret. split; [|done]. split_and!; [done|done|done|]. intros Hs He. congruence. }
  apply bwp_bind. eapply bwp_mono.
  { apply (build_frag_spec _ pp); [|done| |done].
    - intros depth' pp' b' I' Hpp'. apply IH; [done|done|apply frag_in_empty| |].
      + intros Hs. by apply Hpp'.
      + intros Hs. destruct (Hpp' Hs), (Hf Hs). lia.
    - intros Hs. by apply Hp. }
  intros [f pp'] b1 (I1 & S1 & F1 & P1). simpl in F1, P1. apply bwp_bind.
  unfold bwp at 1, get_error. destruct (b_error b1) eqn:E1.
  { apply bwp_ret. split; [|done]. split_and!; [done|lia|apply frag_in_empty|].
    intros _ He. congruence. }
  destruct (f_start f) as [st|] eqn:Est.
  2: { apply bwp_ret. split; [|done]. split_and!; [done|lia|eapply frag_in_weaken; [done|lia|lia]|].
       intros Hs _. destruct (P1 Hs eq_refl). simpl. split; [lia|done]. }
  apply bwp_bind. eapply bwp_mono.
  { apply (frag_append_spec n0 (size b)); [done|done|done|lia]. }
  intros seq' b2 [(I2 & S2 & E2 & _) F2]. eapply bwp_mono.
  - apply (IH n0); [done|lia|done| |].
    + intros Hs. by apply P1.
    + intros Hs. destruct (P1 Hs eq_refl), (Hf Hs). lia.
  - intros r b3 [(I3 & S3 & F3 & P3) _]. split; [|congruence]. split_and!; try done.
    intros Hs He. destruct (P3 Hs He), (P1 Hs eq_refl). split; [lia|done].
Qed.

(** What the builder returns. *)
Definition built_ok (g : NfaGraph) : Prop :=
  graph_ok g = true /\ num_saves g = Z.to_nat (2 * (num_mem reg + 1)) /\
  (acyclic = true -> all_bounded g (Datatypes.S (num_states g)) = true).

Lemma arena_graph_ok b start saves :
  inv b -> (start < size b)%nat ->
  graph_ok {| g_start := start; g_accept := 0; num_saves := saves; arena := b_arena b |} = true.
Proof.
  intros I Hs. unfold graph_ok, accept_ok, num_states. simpl.
  rewrite !andb_true_iff, !Nat.ltb_lt, !forallb_forall.
  pose proof (inv_size b I). split_and!; [done|lia| |].
  - intros id _. destruct (b_arena b !! id) as [st|] eqn:E; [|done].
    destruct (inv_states b I id st E) as (_ & _ & -> & _). by rewrite eqb_reflx.
  - intros st Hst. apply list_elem_of_In, list_elem_of_lookup in Hst as [id Hid].
    destruct (inv_states b I id st Hid) as (H1 & H2 & _). apply andb_true_iff.
    unfold pointer_ok, num_states. simpl.
    split; [destruct (out1 st) as [j|]|destruct (out2 st) as [j|]]; try done;
      apply Nat.ltb_lt; [by apply H1|by apply H2].
Qed.

Lemma eps_pointers_spec b g id j :
  inv b -> arena g = b_arena b -> acyclic = true -> j ∈ eps_pointers g id ->
  (j < size b)%nat /\ (j = 0 \/ id < j)%nat /\ id <> 0%nat.
Proof.
  intros I Hg Ha Hj. unfold eps_pointers in Hj. rewrite Hg in Hj.
  destruct (b_arena b !! id) as [st|] eqn:E; [|by apply elem_of_nil in Hj].
  destruct (inv_states b I id st E) as (H1 & H2 & H3 & H4).
  assert (is_epsilon st = true /\ (out1 st = Some j \/ out2 st = Some j)) as [He Ho].
  { unfold is_epsilon. destruct (type st); try (by apply elem_of_nil in Hj); split; try done;
      try (apply elem_of_app in Hj as [Hj|Hj]; [left|right]); try left;
      destruct (out1 st), (out2 st); simpl in Hj;
      by first [apply list_elem_of_singleton in Hj as -> | apply elem_of_nil in Hj]. }
  destruct (H4 Ha He) as [O1 O2]. split_and!.
  - destruct Ho as [Ho|Ho]; [by apply H1|by apply H2].
  - destruct Ho as [Ho|Ho]; [by apply O1|by apply O2].
  - intros ->. unfold is_accept in H3. unfold is_epsilon in He. by destruct (type st).
Qed.

Lemma eps_bounded_spec b g d : forall id,
  inv b -> arena g = b_arena b -> acyclic = true -> (0 < d)%nat ->
  (id = 0 \/ size b - id < d)%nat -> (id < size b)%nat -> eps_bounded g d id = true.
Proof.
  induction d as [|d IH]; intros id I Hg Ha Hd Hid Hs; [lia|]. cbn [eps_bounded].
  apply forallb_forall. intros j Hj. apply list_elem_of_In in Hj.
  destruct (eps_pointers_spec b g id j I Hg Ha Hj) as (H1 & H2 & H3).
  apply IH; try done; lia.
Qed.

Lemma built_all_bounded b g :
  inv b -> arena g = b_arena b -> acyclic = true ->
  all_bounded g (Datatypes.S (num_states g)) = true.
Proof.
  intros I Hg Ha. unfold all_bounded, num_states. rewrite Hg. apply forallb_forall.
  intros id Hid. apply in_seq in Hid. apply (eps_bounded_spec b); try done; lia.
Qed.

Lemma initial_accept h :
  make_state NFA_ACCEPT (initial_builder (S:=S) h) =
  Some (Some 0%nat, with_arena (initial_builder h) [fresh NFA_ACCEPT]).
Proof. done. Qed.

Lemma initial_inv h : inv (with_arena (initial_builder (S:=S) h) [fresh NFA_ACCEPT]).
Proof.
  constructor; simpl; try done.
  - intros id st Hid. apply list_lookup_singleton_Some in Hid as [-> <-]. by split_and!.
  - intros _. split; [done|]. unfold ARENA_INIT_CAP. lia.
Qed.

Lemma nfa_build_spec fuel (s : S) :
  (strict = true -> 0 ∈ boundaries \/ pend <= 0) ->
  (strict = true -> (length (reg_p reg) < fuel)%nat) ->
  match nfa_build fuel enclen reg s with
  | None => strict = false
  | Some (None, _) => True
  | Some (Some g, _) => built_ok g
  end.
Proof.
  intros H0 Hf. unfold nfa_build, vm_bind, vm_malloc, vm_ret.
  do 3 (destruct (malloc _ _) as [[] ?]; cbn [negb]; [|done]).
  rewrite initial_accept.
  set (b := with_arena _ _). pose proof (initial_inv s2) as I. fold b in I.
  pose proof (build_sequence_spec fuel (size b) frag_empty 0 0 b I ltac:(done)
    (frag_in_empty _ _) ltac:(intros Hs _; by apply H0)
    ltac:(intros Hs; specialize (Hf Hs); lia)) as H. unfold bwp in H.
  destruct (build_sequence _ _ _ _ _ _ b) as [[root b1]|]; [|done].
  destruct H as [(I1 & S1 & F1 & _) _].
  assert (match nfa_graph_free b1 with
          | None => strict = false | Some (None, _) => True | Some (Some g, _) => built_ok g
          end) as Hfree.
  { unfold nfa_graph_free. destruct (b_live b1) eqn:El; [done|].
    apply not_true_is_false. intros Hs. rewrite (inv_live b1 I1 Hs) in El. done. }
  destruct (b_error b1); [done|]. destruct (f_start (fst root)) as [start|] eqn:Est; [|done].
  pose proof (patch_slots_spec (Some 0%nat) (f_outs (fst root)) b1 I1) as H. unfold bwp in H.
  unfold frag_patch.
  destruct (patch_slots (f_outs (fst root)) (Some 0%nat) b1) as [[[] b2]|].
  2: { apply H. eapply older_target; [exact F1|done|]. intros t [= <-].
       pose proof (inv_size b1 I1). lia. }
  destruct H as (I2 & S2 & _).
  { eapply older_target; [exact F1|done|]. intros t [= <-]. pose proof (inv_size b1 I1). lia. }
  split_and!; [|done|].
  - apply arena_graph_ok; [done|]. destruct (in_start _ _ _ F1 start Est). lia.
  - intros Ha. by apply (built_all_bounded b2).
Qed.

End Proof.
