(* ===== verification/RegexPattern.v ===== *)
(** * RegexPattern: patterns, their meaning, and their bytecode

    A pattern is the structure that Onigmo's compiler flattens into bytecode:
    atoms, counted repeats with a body, and forward branches (PUSH tries the next
    instruction and the target, JUMP goes to the target) that count the items
    they skip.  [matches] gives its meaning on a subject without reference to any
    automaton; [program] assembles the bytes reginold reads.  [pattern_ok] lists
    what the NFA builder relies on: complete operands, non-empty alternatives,
    and no branch inside the body of a counted repeat. *)

From S2P Require Import Prelude RegexExec RegexBytecode RegexClassify.
From Stdlib Require Import ZArith Lia Bool List.
From stdpp Require Import base numbers list.

Local Open Scope Z_scope.

Inductive Atom :=
  | Exact (bytes : list Z)                    (* OP_EXACT1 to OP_EXACT5 *)
  | ExactN (bytes : list Z)
  | Class (negative : bool) (words : list Z)  (* eight 32-bit words of the bit set *)
  | AnyChar (multiline : bool)
  | AnyStar (multiline : bool)
  | Word (negative ascii : bool)
  | Anchor (which : NfaAnchorType)
  | Group (side : bool) (mem : nat).          (* start or end of a capture *)

Inductive Item :=
  | Single (a : Atom)
  | Repeat (greedy : bool) (mem lower upper : nat) (body : list Item)
  | Push (skip : nat)
  | Jump (skip : nat).

(** ** Meaning *)

Section Meaning.

Context (str : list Z).

Definition any_byte (multiline : bool) (byte : Z) : Prop := multiline = true \/ byte <> 10.

(** [atom_matches a i k]: the atom matches the subject from [i] to [k]. *)
Definition atom_matches (a : Atom) (i k : nat) : Prop :=
  match a with
  | Exact bytes | ExactN bytes =>
      take (length bytes) (drop i str) = bytes /\ k = (i + length bytes)%nat
  | Class negative words =>
      exists byte, str !! i = Some byte /\ k = S i /\
        xorb negative (Z.testbit (nth (Z.to_nat (byte / 32)) words 0) (byte mod 32)) = true
  | AnyChar multiline => exists byte, str !! i = Some byte /\ k = S i /\ any_byte multiline byte
  | AnyStar multiline =>
      (i <= k)%nat /\
      forall j, (i <= j < k)%nat -> exists byte, str !! j = Some byte /\ any_byte multiline byte
  | Word negative _ =>
      exists byte, str !! i = Some byte /\ k = S i /\ xorb negative (is_word byte) = true
  | Anchor which => k = i /\ anchor_matches which {| a_str := str; a_pos := i |} = true
  | Group _ _ => k = i
  end.

Inductive matches : list Item -> nat -> nat -> Prop :=
  | matches_nil i : matches [] i i
  | matches_single a rest i k j :
      atom_matches a i k -> matches rest k j -> matches (Single a :: rest) i j
  | matches_repeat greedy mem lower upper body rest n i k j :
      (lower <= n <= upper)%nat -> repeats body n i k -> matches rest k j ->
      matches (Repeat greedy mem lower upper body :: rest) i j
  | matches_next skip rest i j : matches rest i j -> matches (Push skip :: rest) i j
  | matches_target skip rest i j : matches (drop skip rest) i j -> matches (Push skip :: rest) i j
  | matches_jump skip rest i j : matches (drop skip rest) i j -> matches (Jump skip :: rest) i j
with repeats : list Item -> nat -> nat -> nat -> Prop :=
  | repeats_none body i : repeats body 0 i i
  | repeats_more body n i k j :
      matches body i k -> repeats body n k j -> repeats body (S n) i j.

End Meaning.

(** ** Bytecode *)

(** A 16-bit operand in little-endian order. *)
Definition short_bytes (z : Z) : list Z :=
  let u := z mod 2 ^ 16 in [u mod 256; u / 256 mod 256].

Definition exact_opcode (n : nat) : OpCode :=
  match n with
  | 1%nat => OP_EXACT1 | 2%nat => OP_EXACT2 | 3%nat => OP_EXACT3 | 4%nat => OP_EXACT4
  | _ => OP_EXACT5
  end.

Definition anchor_opcode (which : NfaAnchorType) : OpCode :=
  match which with
  | NFA_ANCH_BOF => OP_BEGIN_BUF
  | NFA_ANCH_EOF => OP_END_BUF
  | NFA_ANCH_BOL => OP_BEGIN_LINE
  | NFA_ANCH_EOL => OP_END_LINE
  | NFA_ANCH_SEOF => OP_SEMI_END_BUF
  | NFA_ANCH_POS => OP_BEGIN_POSITION
  | NFA_ANCH_WBOUND => OP_WORD_BOUND
  | NFA_ANCH_NWBOUND => OP_NOT_WORD_BOUND
  end.

Definition word_opcode (negative ascii : bool) : OpCode :=
  match negative, ascii with
  | false, false => OP_WORD
  | true, false => OP_NOT_WORD
  | false, true => OP_ASCII_WORD
  | true, true => OP_NOT_ASCII_WORD
  end.

Definition atom_instruction (a : Atom) : RegexClassify.Instruction :=
  match a with
  | Exact bytes => ins (exact_opcode (length bytes)) bytes
  | ExactN bytes => ins OP_EXACTN (int_bytes (Z.of_nat (length bytes)) ++ bytes)
  | Class negative words =>
      ins (if negative then OP_CCLASS_NOT else OP_CCLASS) (flat_map int_bytes words)
  | AnyChar multiline => ins (if multiline then OP_ANYCHAR_ML else OP_ANYCHAR) []
  | AnyStar multiline => ins (if multiline then OP_ANYCHAR_ML_STAR else OP_ANYCHAR_STAR) []
  | Word negative ascii => ins (word_opcode negative ascii) []
  | Anchor which => ins (anchor_opcode which) []
  | Group side mem =>
      ins (if side then OP_MEMORY_END else OP_MEMORY_START) (short_bytes (Z.of_nat mem))
  end.

Definition inc_code (greedy : bool) (mem : nat) : list Z :=
  encode (ins (if greedy then OP_REPEAT_INC else OP_REPEAT_INC_NG) (short_bytes (Z.of_nat mem))).

(** The bytes of an item; [rest] are the bytes of the items behind it, which a
    branch measures its distance in. *)
Fixpoint chunk (it : Item) (rest : list (list Z)) : list Z :=
  let distance skip := int_bytes (Z.of_nat (length (concat (take skip rest)))) in
  match it with
  | Single a => encode (atom_instruction a)
  | Repeat greedy mem _ _ body =>
      let code := concat
        ((fix chunks (its : list Item) : list (list Z) :=
            match its with
            | [] => []
            | it :: its => chunk it (chunks its) :: chunks its
            end) body) in
      encode (ins (if greedy then OP_REPEAT else OP_REPEAT_NG)
                (short_bytes (Z.of_nat mem) ++ int_bytes (Z.of_nat (length code + 3)))) ++
      code ++ inc_code greedy mem
  | Push skip => encode (ins OP_PUSH (distance skip))
  | Jump skip => encode (ins OP_JUMP (distance skip))
  end.

Fixpoint chunks (its : list Item) : list (list Z) :=
  match its with
  | [] => []
  | it :: its => chunk it (chunks its) :: chunks its
  end.

Definition items_code (its : list Item) : list Z := concat (chunks its).

Definition program (its : list Item) : list Z := items_code its ++ [byte_of_opcode OP_END].

(** ** Well-formed patterns *)

Definition atom_ok (a : Atom) : bool :=
  match a with
  | Exact bytes => (1 <=? length bytes)%nat && (length bytes <=? 5)%nat
  | ExactN bytes => (1 <=? length bytes)%nat
  | Class _ words =>
      (length words =? 8)%nat && forallb (fun w => (0 <=? w) && (w <? 2 ^ 32)) words
  | Group _ mem => Z.of_nat mem <? 2 ^ 15
  | _ => true
  end.

(** Items without branches: what a repeat may contain. *)
Fixpoint plain (ranges : list (Z * Z)) (it : Item) : bool :=
  match it with
  | Single a => atom_ok a
  | Repeat _ mem lower upper body =>
      bool_decide (ranges !! mem = Some (Z.of_nat lower, Z.of_nat upper)) &&
      (Z.of_nat mem <? 2 ^ 15) && (1 <=? upper)%nat && (lower <=? upper)%nat &&
      (1 <=? length body)%nat && forallb (plain ranges) body
  | _ => false
  end.

(** Whether the items behind [skip] others begin with something to match. *)
Fixpoint starts_after (skip : nat) (its : list Item) : bool :=
  match its with
  | [] => false
  | it :: rest =>
      match skip with
      | S skip => starts_after skip rest
      | O => match it with Jump skip => starts_after skip rest | _ => true end
      end
  end.

Abbreviation starts := (starts_after 0).

Fixpoint items_ok (ranges : list (Z * Z)) (its : list Item) : bool :=
  match its with
  | [] => true
  | it :: rest =>
      (match it with
       | Push skip => (skip <=? length rest)%nat && starts rest && starts_after skip rest
       | Jump skip => (skip <=? length rest)%nat
       | _ => plain ranges it
       end) && items_ok ranges rest
  end.

Definition pattern_ok (ranges : list (Z * Z)) (its : list Item) : bool :=
  items_ok ranges its && (Z.of_nat (length (program its)) <? 2 ^ 31).

(** ** Facts about patterns *)

Lemma chunks_drop k its : chunks (drop k its) = drop k (chunks its).
Proof. revert k. induction its as [|it its IH]; intros [|k]; simpl; auto. Qed.

Lemma starts_after_drop k its : starts_after k its = starts (drop k its).
Proof. revert k. induction its as [|it its IH]; intros [|k]; simpl; auto. Qed.

Lemma items_ok_drop ranges k its : items_ok ranges its = true -> items_ok ranges (drop k its) = true.
Proof.
  revert k. induction its as [|it its IH]; intros [|k]; simpl; auto.
  intros H. apply andb_true_iff in H as [_ H]. auto.
Qed.

Lemma plain_starts ranges it rest : plain ranges it = true -> starts (it :: rest) = true.
Proof. by destruct it. Qed.

Lemma items_code_cons it rest : items_code (it :: rest) = chunk it (chunks rest) ++ items_code rest.
Proof. done. Qed.

Lemma items_code_split k its :
  items_code its = concat (take k (chunks its)) ++ items_code (drop k its).
Proof. unfold items_code. by rewrite chunks_drop, <- concat_app, take_drop. Qed.

Lemma chunk_repeat greedy mem lower upper body rest :
  chunk (Repeat greedy mem lower upper body) rest =
  encode (ins (if greedy then OP_REPEAT else OP_REPEAT_NG)
            (short_bytes (Z.of_nat mem) ++ int_bytes (Z.of_nat (length (items_code body) + 3)))) ++
  items_code body ++ inc_code greedy mem.
Proof. done. Qed.

Lemma short_bytes_value z : - 2 ^ 15 <= z < 2 ^ 15 -> signed_of 16 (le_value (short_bytes z)) = z.
Proof.
  intros Hz. unfold short_bytes, signed_of. cbn [le_value].
  change (2 ^ (16 - 1)) with 32768. change (2 ^ 16) with 65536. change (2 ^ 15) with 32768 in Hz.
  set (u := z mod 65536).
  replace (u mod 256 + 256 * (u / 256 mod 256 + 256 * 0)) with u.
  - unfold u. destruct (Z.ltb_spec (z mod 65536) 32768); divmod_lia.
  - assert (0 <= u < 65536) as Hu by (apply Z.mod_pos_bound; lia). clearbody u. divmod_lia.
Qed.

Lemma get_short_at pre z suf :
  - 2 ^ 15 <= z < 2 ^ 15 ->
  get_short (pre ++ short_bytes z ++ suf) (Z.of_nat (length pre)) = Some z.
Proof.
  intros Hz. unfold get_short. rewrite read_bytes_app by done. by rewrite short_bytes_value.
Qed.

Section Matching.

Context (str : list Z).

(** What a pattern that begins with nothing matches. *)
Lemma matches_empty its i j : starts its = false -> matches str its i j <-> i = j.
Proof.
  remember (length its) as n eqn:Hn. revert its Hn.
  induction (lt_wf n) as [n _ IH]. intros its -> Hs.
  destruct its as [|it rest].
  - split; [by inversion 1|intros ->; constructor].
  - destruct it as [| | |skip]; try done. simpl in Hs. rewrite starts_after_drop in Hs.
    rewrite <- (IH (length (drop skip rest)) ltac:(rewrite length_drop; simpl; lia) _ eq_refl Hs).
    split; [by inversion 1|by constructor].
Qed.

Lemma matches_single_iff a rest i j :
  matches str (Single a :: rest) i j <-> exists k, atom_matches str a i k /\ matches str rest k j.
Proof. split; [inversion 1; eauto|]. intros (k & H1 & H2). by econstructor. Qed.

Lemma matches_push_iff skip rest i j :
  matches str (Push skip :: rest) i j <->
  matches str rest i j \/ matches str (drop skip rest) i j.
Proof. split; [inversion 1; auto|]. intros [H|H]; [by apply matches_next|by apply matches_target]. Qed.

Lemma matches_jump_iff skip rest i j :
  matches str (Jump skip :: rest) i j <-> matches str (drop skip rest) i j.
Proof. split; [by inversion 1|by apply matches_jump]. Qed.

Lemma matches_repeat_iff greedy mem lower upper body rest i j :
  matches str (Repeat greedy mem lower upper body :: rest) i j <->
  exists k, (exists n, (lower <= n <= upper)%nat /\ repeats str body n i k) /\ matches str rest k j.
Proof.
  split.
  - inversion 1; subst. eauto 8.
  - intros (k & (n & Hn & Hr) & Hm). by eapply matches_repeat.
Qed.

End Matching.
