(* ===== verification/RegexWalk.v ===== *)
(** * RegexWalk: the language of a fragment under construction

    While nfa.c builds a graph, some output slots dangle.  [walk] is the runs of
    such a partial graph: from a state and a position, out through a slot at a
    later position, following the pointers that are already set.  A fragment
    occupies a region of the arena that is closed under pointers
    ([frag_means]), so what it matches cannot change while other states are
    added, and patching its dangling outputs composes the languages. *)

From S2P Require Import Prelude RegexExec RegexGraph RegexBytecode RegexBuild.
From Stdlib Require Import ZArith Lia Bool List.
From stdpp Require Import base numbers list.

Local Open Scope nat_scope.

#[global] Instance Slot_eq_dec : EqDecision Slot.
Proof. solve_decision. Defined.

Definition pointer_of (st : NfaState) (o : Slot) : option nat :=
  match o with Out1 _ => out1 st | Out2 _ => out2 st end.

(** The pointer stored in a slot. *)
Definition slot_ptr (a : list NfaState) (o : Slot) : option nat :=
  match a !! slot_state o with Some st => pointer_of st o | None => None end.

(** [a'] is [a] with [target] stored in the slots [outs]. *)
Record patched (a a' : list NfaState) (outs : list Slot) (target : option nat) : Prop := {
  patched_length : length a' = length a;
  patched_type id : type <$> a' !! id = type <$> a !! id;
  patched_in o : o ∈ outs -> slot_ptr a' o = target;
  patched_out o : o ∉ outs -> slot_ptr a' o = slot_ptr a o;
}.

Lemma state_eq st st' :
  type st = type st' -> out1 st = out1 st' -> out2 st = out2 st' -> st = st'.
Proof. destruct st, st'. simpl. by intros -> -> ->. Qed.

(** States none of whose slots are written stay as they are. *)
Lemma patched_lookup a a' outs target id :
  patched a a' outs target -> (forall o, o ∈ outs -> slot_state o <> id) -> a' !! id = a !! id.
Proof.
  intros P Hid. pose proof (patched_type _ _ _ _ P id) as Ht.
  pose proof (patched_out _ _ _ _ P (Out1 id)) as H1.
  pose proof (patched_out _ _ _ _ P (Out2 id)) as H2.
  unfold slot_ptr in *. simpl in *.
  destruct (a !! id) as [st|] eqn:E, (a' !! id) as [st'|] eqn:E'; simpl in Ht; try done.
  injection Ht as Ht. f_equal.
  apply state_eq; [done|apply H1|apply H2]; intros Ho; by apply (Hid _ Ho).
Qed.

(** Relations between positions of the subject. *)
Abbreviation lang := (nat -> nat -> Prop).

Section Walk.

Context (str : list Z).

(** From a state the run can leave through slot [o] at position [k]. *)
Definition leaves (st : NfaState) (id i : nat) (o : Slot) (k : nat) : Prop :=
  match type st with
  | NFA_ACCEPT => False
  | NFA_SPLIT => (o = Out1 id \/ o = Out2 id) /\ k = i
  | NFA_SAVE _ => o = Out1 id /\ k = i
  | NFA_ANCHOR which => o = Out1 id /\ k = i /\ anchor_matches which (at_pos str i) = true
  | _ => o = Out1 id /\ k = S i /\
         exists byte, str !! i = Some byte /\ state_matches_byte st byte = true
  end.

Definition moves (a : list NfaState) (id i : nat) (o : Slot) (k : nat) : Prop :=
  exists st, a !! id = Some st /\ leaves st id i o k.

Inductive walk (a : list NfaState) : nat -> nat -> Slot -> nat -> Prop :=
  | walk_out id i o k : moves a id i o k -> walk a id i o k
  | walk_step id i o k t o' k' :
      moves a id i o k -> slot_ptr a o = Some t -> walk a t k o' k' -> walk a id i o' k'.

Lemma leaves_type st st' id i o k : type st = type st' -> leaves st id i o k -> leaves st' id i o k.
Proof. unfold leaves, state_matches_byte. by intros ->. Qed.

Lemma leaves_slot st id i o k : leaves st id i o k -> slot_state o = id.
Proof.
  unfold leaves. destruct (type st); try done; try (by intros [-> _]).
  by intros [[->| ->] _].
Qed.

Lemma moves_slot a id i o k : moves a id i o k -> slot_state o = id.
Proof. intros (st & _ & H). by eapply leaves_slot. Qed.

Lemma moves_types a a' id i o k :
  type <$> a' !! id = type <$> a !! id -> moves a id i o k -> moves a' id i o k.
Proof.
  intros Ht (st & Hst & H). rewrite Hst in Ht.
  destruct (a' !! id) as [st'|] eqn:E; [|done]. injection Ht as Ht.
  exists st'. split; [done|]. by eapply leaves_type.
Qed.

(** ** Regions *)

(** The states from [lo] to [hi] point only at each other. *)
Definition closed (a : list NfaState) (lo hi : nat) : Prop :=
  forall o t, lo <= slot_state o < hi -> slot_ptr a o = Some t -> lo <= t < hi.

Definition agree (a a' : list NfaState) (lo hi : nat) : Prop :=
  forall id, lo <= id < hi -> a' !! id = a !! id.

Lemma agree_sym a a' lo hi : agree a a' lo hi -> agree a' a lo hi.
Proof. intros H id Hid. symmetry. auto. Qed.

Lemma agree_ptr a a' lo hi o :
  agree a a' lo hi -> lo <= slot_state o < hi -> slot_ptr a' o = slot_ptr a o.
Proof. intros H Ho. unfold slot_ptr. by rewrite (H _ Ho). Qed.

Lemma closed_agree a a' lo hi : agree a a' lo hi -> closed a lo hi -> closed a' lo hi.
Proof. intros H C o t Ho Ht. rewrite (agree_ptr _ _ _ _ _ H Ho) in Ht. by apply (C o t). Qed.

Lemma walk_region a lo hi id i o k :
  closed a lo hi -> lo <= id < hi -> walk a id i o k -> lo <= slot_state o < hi.
Proof.
  intros C Hid W. induction W as [id i o k M|id i o k t o' k' M Ht W IH].
  - by rewrite (moves_slot _ _ _ _ _ M).
  - apply IH. apply (C o t); [|done]. by rewrite (moves_slot _ _ _ _ _ M).
Qed.

Lemma walk_agree a a' lo hi id i o k :
  agree a a' lo hi -> closed a lo hi -> lo <= id < hi -> walk a id i o k -> walk a' id i o k.
Proof.
  intros H C Hid W. induction W as [id i o k M|id i o k t o' k' M Ht W IH].
  - constructor. eapply moves_types; [|done]. by rewrite (H id Hid).
  - pose proof (moves_slot _ _ _ _ _ M) as Ho. eapply walk_step.
    + eapply moves_types; [|done]. by rewrite (H id Hid).
    + rewrite (agree_ptr a a' lo hi); [done|done|lia].
    + apply IH. apply (C o t); [lia|done].
Qed.

Lemma walk_agree_iff a a' lo hi id i o k :
  agree a a' lo hi -> closed a lo hi -> lo <= id < hi -> walk a id i o k <-> walk a' id i o k.
Proof.
  intros H C Hid. split; [by eapply walk_agree|].
  eapply walk_agree; [by apply agree_sym| |done]. by eapply closed_agree.
Qed.

(** ** Patching *)

Section Patch.

Context (a a' : list NfaState) (outs : list Slot) (target : option nat).
Context (P : patched a a' outs target).
Context (Hnull : forall o, o ∈ outs -> slot_ptr a o = None).

#[local] Set Default Proof Using "All".

Lemma walk_grow id i o k : walk a id i o k -> walk a' id i o k.
Proof.
  induction 1 as [id i o k M|id i o k t o' k' M Ht W IH].
  - constructor. eapply moves_types; [apply (patched_type _ _ _ _ P)|done].
  - eapply walk_step; [eapply moves_types; [apply (patched_type _ _ _ _ P)|done]| |done].
    rewrite (patched_out _ _ _ _ P); [done|]. intros Ho. by rewrite (Hnull o Ho) in Ht.
Qed.

(** A run of the patched graph is a run of the old one, or goes through one of
    the new pointers. *)
Lemma walk_patched id i o k :
  walk a' id i o k <->
  walk a id i o k \/
  exists o1 k1 t, o1 ∈ outs /\ target = Some t /\ walk a id i o1 k1 /\ walk a' t k1 o k.
Proof.
  split.
  - induction 1 as [id i o k M|id i o k t o' k' M Ht W IH].
    + left. constructor. eapply moves_types; [symmetry; apply (patched_type _ _ _ _ P)|done].
    + assert (moves a id i o k) as M0
        by (eapply moves_types; [symmetry; apply (patched_type _ _ _ _ P)|done]).
      destruct (decide (o ∈ outs)) as [Ho|Ho].
      * right. rewrite (patched_in _ _ _ _ P o Ho) in Ht.
        exists o, k, t. split_and!; try done. by constructor.
      * rewrite (patched_out _ _ _ _ P o Ho) in Ht.
        destruct IH as [W0|(o1 & k1 & t1 & H1 & H2 & H3 & H4)].
        -- left. by eapply walk_step.
        -- right. exists o1, k1, t1. split_and!; try done. by eapply walk_step.
  - intros [W|(o1 & k1 & t & Ho & Ht & W1 & W2)]; [by apply walk_grow|].
    apply walk_grow in W1. clear Hnull.
    induction W1 as [id i o1 k1 M|id i o0 k0 t0 o1 k1 M Ht0 W1 IH].
    + eapply walk_step; [done| |done]. by rewrite (patched_in _ _ _ _ P).
    + eapply walk_step; [done|done|]. by apply IH.
Qed.

Lemma patched_closed lo hi :
  (forall t, target = Some t -> lo <= t < hi) -> closed a lo hi -> closed a' lo hi.
Proof.
  intros Ht C o t Ho Hp. destruct (decide (o ∈ outs)) as [Hin|Hin].
  - rewrite (patched_in _ _ _ _ P o Hin) in Hp. auto.
  - rewrite (patched_out _ _ _ _ P o Hin) in Hp. by apply (C o).
Qed.

Lemma patched_agree lo hi :
  (forall o, o ∈ outs -> ~ lo <= slot_state o < hi) -> agree a a' lo hi.
Proof.
  intros Ho id Hid. eapply patched_lookup; [done|]. intros o Hin <-. by apply (Ho o Hin).
Qed.

End Patch.

(** ** Fragments *)

Definition frag_runs (a : list NfaState) (f : NfaFrag) (i k : nat) : Prop :=
  exists s o, f_start f = Some s /\ o ∈ f_outs f /\ walk a s i o k.

(** The fragment lives in the region from [lo] to [hi] and matches [L]. *)
Record frag_means (a : list NfaState) (lo hi : nat) (f : NfaFrag) (L : lang) : Prop := {
  fm_start s : f_start f = Some s -> lo <= s < hi;
  fm_outs o : o ∈ f_outs f -> lo <= slot_state o < hi /\ slot_ptr a o = None;
  fm_closed : closed a lo hi;
  fm_hi : lo <= hi <= length a;
  fm_lang i k : frag_runs a f i k <-> L i k;
}.

(** A sequence so far: nothing yet, or a fragment. *)
Definition seq_means (a : list NfaState) (lo hi : nat) (f : NfaFrag) (L : lang) : Prop :=
  match f_start f with
  | Some _ => frag_means a lo hi f L
  | None => f_outs f = [] /\ closed a lo hi /\ lo <= hi <= length a /\ forall i k, L i k <-> i = k
  end.

Definition then_ (L1 L2 : lang) : lang := fun i j => exists k, L1 i k /\ L2 k j.
Definition or_ (L1 L2 : lang) : lang := fun i j => L1 i j \/ L2 i j.
Definition same_lang (L1 L2 : lang) : Prop := forall i j, L1 i j <-> L2 i j.

Lemma frag_means_ext a lo hi f L L' :
  same_lang L L' -> frag_means a lo hi f L -> frag_means a lo hi f L'.
Proof. intros H [F1 F2 F3 F4 F5]. constructor; auto. intros i k. by rewrite F5. Qed.

Lemma seq_means_ext a lo hi f L L' :
  same_lang L L' -> seq_means a lo hi f L -> seq_means a lo hi f L'.
Proof.
  unfold seq_means. intros H. destruct (f_start f); [by apply frag_means_ext|].
  intros (H1 & H2 & H3 & H4). split_and!; try done; try lia. intros i k. by rewrite <- (H i k).
Qed.

Lemma frag_means_agree a a' lo hi f L :
  agree a a' lo hi -> hi <= length a' -> frag_means a lo hi f L -> frag_means a' lo hi f L.
Proof.
  intros H Hl [F1 F2 F3 F4 F5]. constructor; auto.
  - intros o Ho. destruct (F2 o Ho) as [H1 H2]. split; [done|].
    by rewrite (agree_ptr a a' lo hi).
  - by eapply closed_agree.
  - lia.
  - intros i k. rewrite <- F5. unfold frag_runs.
    split; intros (s & o & Hs & Ho & W); exists s, o; split_and!; try done;
      apply (walk_agree_iff a a' lo hi); auto.
Qed.

Lemma seq_means_agree a a' lo hi f L :
  agree a a' lo hi -> hi <= length a' -> seq_means a lo hi f L -> seq_means a' lo hi f L.
Proof.
  unfold seq_means. intros H Hl. destruct (f_start f); [by apply frag_means_agree|].
  intros (H1 & H2 & H3 & H4). split_and!; try done; try lia. by eapply closed_agree.
Qed.

Lemma closed_app a lo mid hi : closed a lo mid -> closed a mid hi -> lo <= mid <= hi -> closed a lo hi.
Proof.
  intros C1 C2 Hm o t Ho Ht. destruct (decide (slot_state o < mid)).
  - specialize (C1 o t ltac:(lia) Ht). lia.
  - specialize (C2 o t ltac:(lia) Ht). lia.
Qed.

(** Concatenation: patch the outputs of [f1] to the start of [f2]. *)
Lemma frag_means_cat a a' lo mid hi f1 f2 L1 L2 s :
  frag_means a lo mid f1 L1 -> frag_means a mid hi f2 L2 -> f_start f2 = Some s ->
  patched a a' (f_outs f1) (Some s) ->
  frag_means a' lo hi {| f_start := f_start f1; f_outs := f_outs f2 |} (then_ L1 L2).
Proof.
  intros F1 F2 Hs P.
  pose proof (fm_start _ _ _ _ _ F2 s Hs) as Hsr.
  pose proof (fm_hi _ _ _ _ _ F1). pose proof (fm_hi _ _ _ _ _ F2).
  assert (forall o, o ∈ f_outs f1 -> slot_ptr a o = None) as Hnull
    by (intros o Ho; by apply (fm_outs _ _ _ _ _ F1)).
  assert (agree a a' mid hi) as Ag.
  { apply (patched_agree _ _ _ _ P Hnull). intros o Ho.
    destruct (fm_outs _ _ _ _ _ F1 o Ho). lia. }
  constructor; simpl.
  - intros t Ht. pose proof (fm_start _ _ _ _ _ F1 t Ht). lia.
  - intros o Ho. destruct (fm_outs _ _ _ _ _ F2 o Ho) as [Hr Hp]. split; [lia|].
    by rewrite (agree_ptr a a' mid hi).
  - apply (patched_closed _ _ _ _ P Hnull); [intros t [= <-]; lia|].
    eapply closed_app; [apply (fm_closed _ _ _ _ _ F1)|apply (fm_closed _ _ _ _ _ F2)|lia].
  - rewrite (patched_length _ _ _ _ P). lia.
  - intros i k. unfold frag_runs, then_. simpl. split.
    + intros (t & o & Ht & Ho & W). destruct (fm_outs _ _ _ _ _ F2 o Ho) as [Hor _].
      pose proof (fm_start _ _ _ _ _ F1 t Ht) as Htr.
      apply (walk_patched _ _ _ _ P Hnull) in W as [W|(o1 & k1 & t1 & Ho1 & [= <-] & W1 & W2)].
      * pose proof (walk_region _ _ _ _ _ _ _ (fm_closed _ _ _ _ _ F1) Htr W). lia.
      * exists k1. split; [apply (fm_lang _ _ _ _ _ F1); by exists t, o1|].
        apply (fm_lang _ _ _ _ _ F2). exists s, o. split_and!; try done.
        apply (walk_agree_iff a a' mid hi); eauto using fm_closed.
    + intros (k1 & H1 & H2).
      apply (fm_lang _ _ _ _ _ F1) in H1 as (t & o1 & Ht & Ho1 & W1).
      apply (fm_lang _ _ _ _ _ F2) in H2 as (s' & o & Hs' & Ho & W2).
      assert (s' = s) as -> by congruence. exists t, o. split_and!; try done.
      apply (walk_patched _ _ _ _ P Hnull). right. exists o1, k1, s. split_and!; try done.
      apply (walk_agree_iff a a' mid hi); eauto using fm_closed.
Qed.

End Walk.

(** ** Fragments of one state, and splits *)

Section Shapes.

Context (str : list Z).

Definition dangling (ty : NfaStateType) : NfaState := {| type := ty; out1 := None; out2 := None |}.

(** A fresh state points nowhere. *)
Lemma dangling_ptr a ty o : slot_state o = length a -> slot_ptr (a ++ [dangling ty]) o = None.
Proof.
  intros Ho. unfold slot_ptr. rewrite Ho, lookup_app_r, Nat.sub_diag by lia. by destruct o.
Qed.

Lemma dangling_closed a ty : closed (a ++ [dangling ty]) (length a) (S (length a)).
Proof. intros o t Ho. rewrite dangling_ptr by lia. done. Qed.

Lemma agree_app a ext lo : agree a (a ++ ext) lo (length a).
Proof. intros id Hid. rewrite lookup_app_l by lia. done. Qed.

Lemma frag_means_single a ty L :
  ty <> NFA_SPLIT ->
  (forall i k, leaves str (dangling ty) (length a) i (Out1 (length a)) k <-> L i k) ->
  frag_means str (a ++ [dangling ty]) (length a) (S (length a))
    (frag_make (Some (length a)) (Some (Out1 (length a)))) L.
Proof.
  intros Hty HL. constructor; simpl.
  - intros s [= <-]. lia.
  - intros o ->%list_elem_of_singleton. split; [simpl; lia|]. by apply dangling_ptr.
  - apply dangling_closed.
  - rewrite length_app. simpl. lia.
  - intros i k. rewrite <- HL. unfold frag_runs. simpl. split.
    + intros (s & o & [= <-] & ->%list_elem_of_singleton & W).
      inversion W as [id i' o k' M|id i' o k0 t o' k' M Ht W']; subst.
      * destruct M as (st & Hst & Hl). rewrite lookup_app_r, Nat.sub_diag in Hst by lia.
        by injection Hst as <-.
      * rewrite dangling_ptr in Ht by (by rewrite (moves_slot _ _ _ _ _ _ M)). done.
    + intros Hl. exists (length a), (Out1 (length a)). split_and!; [done|by left|].
      constructor. exists (dangling ty). split; [|done].
      by rewrite lookup_app_r, Nat.sub_diag by lia.
Qed.

(** The runs from a SPLIT. *)
Lemma walk_split a id st i o k :
  a !! id = Some st -> type st = NFA_SPLIT ->
  walk str a id i o k <->
  (slot_state o = id /\ k = i) \/
  (exists t, (slot_ptr a (Out1 id) = Some t \/ slot_ptr a (Out2 id) = Some t) /\ walk str a t i o k).
Proof.
  intros Hst Hty.
  assert (forall o k, moves str a id i o k <-> (o = Out1 id \/ o = Out2 id) /\ k = i) as Hm.
  { intros o' k'. unfold moves, leaves. split.
    - intros (st' & Hst' & H). assert (st' = st) as -> by congruence. by rewrite Hty in H.
    - intros H. exists st. by rewrite Hty. }
  split.
  - intros W. inversion W as [id' i' o' k' M|id' i' o' k0 t o'' k' M Ht W']; subst.
    + left. apply Hm in M as [[->| ->] ->]; done.
    + right. exists t. apply Hm in M as [[->| ->] ->]; auto.
  - intros [[Ho ->]|(t & [Ht|Ht] & W)].
    + constructor. apply Hm. split; [|done]. destruct o; simpl in Ho; subst; auto.
    + eapply walk_step; [apply Hm; split; [by left|done]|done|done].
    + eapply walk_step; [apply Hm; split; [by right|done]|done|done].
Qed.

(** PUSH: a split before two fragments. *)
Lemma frag_means_push a mid hi n st f1 f2 s1 s2 L1 L2 :
  a !! n = Some st -> type st = NFA_SPLIT ->
  frag_means str a (S n) mid f1 L1 -> frag_means str a mid hi f2 L2 ->
  f_start f1 = Some s1 -> f_start f2 = Some s2 ->
  slot_ptr a (Out1 n) = Some s1 -> slot_ptr a (Out2 n) = Some s2 ->
  frag_means str a n hi {| f_start := Some n; f_outs := f_outs f1 ++ f_outs f2 |} (or_ L1 L2).
Proof.
  intros Hst Hty F1 F2 H1 H2 P1 P2.
  pose proof (fm_start _ _ _ _ _ _ F1 s1 H1) as R1. pose proof (fm_start _ _ _ _ _ _ F2 s2 H2) as R2.
  pose proof (fm_hi _ _ _ _ _ _ F1). pose proof (fm_hi _ _ _ _ _ _ F2).
  assert (forall o, o ∈ f_outs f1 ++ f_outs f2 -> S n <= slot_state o < hi /\ slot_ptr a o = None)
    as Houts.
  { intros o [Ho|Ho]%elem_of_app; [destruct (fm_outs _ _ _ _ _ _ F1 o Ho)
                                  |destruct (fm_outs _ _ _ _ _ _ F2 o Ho)]; split; auto; lia. }
  constructor; simpl.
  - intros s [= <-]. lia.
  - intros o Ho. destruct (Houts o Ho). split; [lia|done].
  - intros o t Ho Ht. destruct (decide (slot_state o = n)) as [E|].
    + destruct o; simpl in E; subst; rewrite Ht in *; simplify_eq; lia.
    + assert (closed a (S n) hi) as C by (eapply closed_app; eauto using fm_closed; lia).
      specialize (C o t ltac:(lia) Ht). lia.
  - lia.
  - intros i k. unfold or_. rewrite <- (fm_lang _ _ _ _ _ _ F1 i k), <- (fm_lang _ _ _ _ _ _ F2 i k).
    unfold frag_runs. simpl. split.
    + intros (s & o & [= <-] & Ho & W). destruct (Houts o Ho) as [Hr _].
      apply (walk_split a n st) in W as [[Hs _]|(t & Ht & W)]; [lia| |done|done].
      rewrite P1, P2 in Ht. destruct Ht as [[= <-]|[= <-]].
      * left. exists s1, o. split_and!; try done.
        pose proof (walk_region _ _ _ _ _ _ _ _ (fm_closed _ _ _ _ _ _ F1) R1 W).
        apply elem_of_app in Ho as [Ho|Ho]; [done|].
        destruct (fm_outs _ _ _ _ _ _ F2 o Ho). lia.
      * right. exists s2, o. split_and!; try done.
        pose proof (walk_region _ _ _ _ _ _ _ _ (fm_closed _ _ _ _ _ _ F2) R2 W).
        apply elem_of_app in Ho as [Ho|Ho]; [|done].
        destruct (fm_outs _ _ _ _ _ _ F1 o Ho). lia.
    + intros [(s & o & Hs & Ho & W)|(s & o & Hs & Ho & W)]; exists n, o;
        (split_and!; [done|apply elem_of_app; auto|]); apply (walk_split a n st); try done;
        right; exists s; (split; [|done]); rewrite P1, P2, <- H1, <- H2; auto.
Qed.

(** An optional fragment: a split that enters it or is left through [skip]. *)
Lemma frag_means_optional a hi n st f s L enter skip :
  a !! n = Some st -> type st = NFA_SPLIT ->
  frag_means str a (S n) hi f L -> f_start f = Some s ->
  (enter = Out1 n /\ skip = Out2 n \/ enter = Out2 n /\ skip = Out1 n) ->
  slot_ptr a enter = Some s -> slot_ptr a skip = None ->
  frag_means str a n hi {| f_start := Some n; f_outs := [skip] ++ f_outs f |} (or_ eq L).
Proof.
  intros Hst Hty F Hs Hes Pe Ps.
  pose proof (fm_start _ _ _ _ _ _ F s Hs) as R. pose proof (fm_hi _ _ _ _ _ _ F).
  assert (slot_state skip = n /\ forall t,
    (slot_ptr a (Out1 n) = Some t \/ slot_ptr a (Out2 n) = Some t) <-> t = s) as [Hskip Hptr].
  { destruct Hes as [[-> ->]|[-> ->]]; (split; [done|]); intros t; rewrite Pe, Ps;
      split; intros; naive_solver. }
  constructor; simpl.
  - intros t [= <-]. lia.
  - intros o [->|Ho]%elem_of_cons; [split; [lia|done]|].
    destruct (fm_outs _ _ _ _ _ _ F o Ho). split; [lia|done].
  - intros o t Ho Ht. destruct (decide (slot_state o = n)) as [E|].
    + assert (t = s) as -> by (apply Hptr; destruct o; simpl in E; subst; auto). lia.
    + pose proof (fm_closed _ _ _ _ _ _ F o t ltac:(lia) Ht). lia.
  - lia.
  - intros i k. unfold or_. rewrite <- (fm_lang _ _ _ _ _ _ F i k). unfold frag_runs. simpl. split.
    + intros (t & o & [= <-] & Ho & W).
      apply (walk_split a n st) in W as [[Hn ->]|(t & Ht & W)]; [by left| |done|done].
      apply Hptr in Ht as ->. right. exists s, o. split_and!; try done.
      pose proof (walk_region _ _ _ _ _ _ _ _ (fm_closed _ _ _ _ _ _ F) R W).
      apply elem_of_cons in Ho as [->|Ho]; [lia|done].
    + intros [->|(t & o & Ht & Ho & W)].
      * exists n, skip. split_and!; [done|by left|]. apply (walk_split a n st); auto.
      * exists n, o. split_and!; [done|by right|]. apply (walk_split a n st); try done.
        right. exists t. split; [|done]. apply Hptr. congruence.
Qed.

(** [.*]: a split and a wildcard that point at each other. *)
Section Star.

Context (a : list NfaState) (n : nat) (st st' : NfaState) (ok : Z -> Prop).
Context (Hst : a !! n = Some st) (Hty : type st = NFA_SPLIT) (Hst' : a !! S n = Some st').
Context (Hl : forall i o k, leaves str st' (S n) i o k <->
     o = Out1 (S n) /\ k = S i /\ exists byte, str !! i = Some byte /\ ok byte).
Context (P1 : slot_ptr a (Out1 n) = Some (S n)) (P2 : slot_ptr a (Out2 n) = None).
Context (P3 : slot_ptr a (Out1 (S n)) = Some n) (P4 : slot_ptr a (Out2 (S n)) = None).

#[local] Set Default Proof Using "All".

Definition star_lang : lang :=
  fun i k => i <= k /\ forall j, i <= j < k -> exists byte, str !! j = Some byte /\ ok byte.

Lemma star_split_moves i o k : moves str a n i o k -> (o = Out1 n \/ o = Out2 n) /\ k = i.
Proof.
  intros (s & Hs & H). assert (s = st) as -> by congruence. unfold leaves in H. by rewrite Hty in H.
Qed.

Lemma star_any_moves i o k :
  moves str a (S n) i o k <->
  o = Out1 (S n) /\ k = S i /\ exists byte, str !! i = Some byte /\ ok byte.
Proof.
  rewrite <- Hl. split; [|by exists st'].
  intros (s & Hs & H). by assert (s = st') as <- by congruence.
Qed.

Lemma star_walk_sound id i o k :
  walk str a id i o k -> o = Out2 n ->
  (id = n -> star_lang i k) /\ (id = S n -> i < k /\ star_lang i k).
Proof.
  unfold star_lang.
  induction 1 as [id i o k M|id i o k t o' k' M Ht W IH]; intros ->.
  - pose proof (moves_slot _ _ _ _ _ _ M) as <-. simpl in *. split; [|lia].
    intros _. apply star_split_moves in M as [_ ->]. split; [lia|]. intros j Hj. lia.
  - specialize (IH eq_refl). split; intros ->.
    + apply star_split_moves in M as [[->| ->] ->]; [|congruence].
      assert (t = S n) as -> by congruence. by apply IH.
    + apply star_any_moves in M as (-> & -> & Hb). assert (t = n) as -> by congruence.
      destruct (proj1 IH eq_refl) as [H1 H2]. split_and!; [lia|lia|].
      intros j Hj. destruct (decide (j = i)) as [->|]; [done|]. apply H2. lia.
Qed.

Lemma star_walk_complete i k : star_lang i k -> walk str a n i (Out2 n) k.
Proof.
  intros [Hik Hall]. remember (k - i) as d eqn:Hd. revert i Hik Hall Hd.
  induction d as [|d IH]; intros i Hik Hall Hd; apply (walk_split a n st); try done.
  - left. simpl. lia.
  - right. exists (S n). split; [by left|]. eapply walk_step; [|exact P3|].
    + apply star_any_moves. split_and!; [done|done|]. apply Hall. lia.
    + apply IH; [lia| |lia]. intros j Hj. apply Hall. lia.
Qed.

Lemma frag_means_star :
  frag_means str a n (S (S n)) {| f_start := Some n; f_outs := [Out2 n] |} star_lang.
Proof.
  constructor; simpl.
  - intros s [= <-]. lia.
  - intros o ->%list_elem_of_singleton. simpl. split; [lia|done].
  - intros o t Ho Ht. destruct (decide (slot_state o = n)) as [E|].
    + destruct o; simpl in E; subst; rewrite Ht in *; simplify_eq; lia.
    + assert (slot_state o = S n) as E by lia.
      destruct o; simpl in E; subst; rewrite Ht in *; simplify_eq; lia.
  - apply lookup_lt_Some in Hst'. lia.
  - intros i k. unfold frag_runs. simpl. split.
    + intros (s & o & [= <-] & ->%list_elem_of_singleton & W).
      exact (proj1 (star_walk_sound _ _ _ _ W eq_refl) eq_refl).
    + intros H. exists n, (Out2 n). split_and!; [done|by left|]. by apply star_walk_complete.
Qed.

End Star.

End Shapes.

(** ** The finished graph *)

Section Finished.

Context (str : list Z) (g : NfaGraph).

Lemma eps_succ_moves i id j :
  j ∈ eps_succ g (at_pos str i) id ->
  exists o, moves str (arena g) id i o i /\ slot_ptr (arena g) o = Some j.
Proof.
  unfold eps_succ, moves, slot_ptr, leaves. destruct (arena g !! id) as [st|] eqn:E;
    [|by intros ?%elem_of_nil].
  unfold state_succ, pointer_list. intros Hj.
  assert (forall p, j ∈ match p with Some x => [x] | None => [] end -> p = Some j) as Hp.
  { intros [x|] H; [by apply list_elem_of_singleton in H as ->|by apply elem_of_nil in H]. }
  destruct (type st) eqn:Et; try (by apply elem_of_nil in Hj).
  - apply elem_of_app in Hj as [Hj|Hj]; apply Hp in Hj;
      [exists (Out1 id)|exists (Out2 id)]; simpl; rewrite E; (split; [|done]);
      exists st; rewrite Et; auto.
  - destruct (anchor_matches which _) eqn:Ea; [|by apply elem_of_nil in Hj]. apply Hp in Hj.
    exists (Out1 id). simpl. rewrite E. split; [|done]. exists st. rewrite Et. auto.
  - apply Hp in Hj. exists (Out1 id). simpl. rewrite E. split; [|done]. exists st. rewrite Et. auto.
Qed.

Lemma byte_succ_moves i byte id j :
  str !! i = Some byte -> j ∈ byte_succ g byte id ->
  exists o, moves str (arena g) id i o (S i) /\ slot_ptr (arena g) o = Some j.
Proof.
  unfold byte_succ, moves, slot_ptr, leaves, state_targets.
  destruct (arena g !! id) as [st|] eqn:E; [|by intros _ ?%elem_of_nil].
  destruct (state_matches_byte st byte) eqn:Em; [|by intros _ ?%elem_of_nil].
  intros Hb Hj. exists (Out1 id). simpl. rewrite E. split.
  - exists st. split; [done|]. revert Em. unfold state_matches_byte.
    destruct (type st) eqn:Et; try done; intros; split_and!; eauto; exists byte; rewrite ?Et; auto.
  - unfold pointer_list in Hj. destruct (out1 st); simpl; [|by apply elem_of_nil in Hj].
    by apply list_elem_of_singleton in Hj as ->.
Qed.

Lemma moves_accepts id i o k t stop :
  moves str (arena g) id i o k -> slot_ptr (arena g) o = Some t ->
  accepts_from g str t k stop -> accepts_from g str id i stop.
Proof.
  intros (st & Hst & Hl) Hp Ha. pose proof (leaves_slot _ _ _ _ _ _ Hl) as Ho.
  unfold slot_ptr in Hp. rewrite Ho, Hst in Hp. unfold leaves in Hl.
  assert (forall k, k = S i -> o = Out1 id -> accepts_from g str t k stop ->
    (exists byte, str !! i = Some byte /\ state_matches_byte st byte = true) ->
    accepts_from g str id i stop) as Hbyte.
  { intros k' -> -> Ha' (byte & Hb & Hm). eapply accept_byte; [done| |done].
    unfold byte_succ, state_targets. rewrite Hst, Hm. simpl in Hp. rewrite Hp. by left. }
  destruct (type st) eqn:Et; try done;
    try (by destruct Hl as (-> & -> & Hm); eapply Hbyte).
  - destruct Hl as [Hl ->]. eapply accept_epsilon; [|done].
    unfold eps_succ, state_succ. rewrite Hst, Et.
    destruct Hl as [->| ->]; simpl in Hp; rewrite Hp; apply elem_of_app; [left|right]; by left.
  - destruct Hl as (-> & -> & Hm). eapply accept_epsilon; [|done].
    unfold eps_succ, state_succ. rewrite Hst, Et, Hm. simpl in Hp. rewrite Hp. by left.
  - destruct Hl as (-> & ->). eapply accept_epsilon; [|done].
    unfold eps_succ, state_succ. rewrite Hst, Et. simpl in Hp. rewrite Hp. by left.
Qed.

(** With every dangling output at ACCEPT, the graph accepts what the fragment
    matches. *)
Lemma accepts_means a lo hi f L s i stop :
  frag_means str a lo hi f L -> patched a (arena g) (f_outs f) (Some (g_accept g)) ->
  g_accept g < lo -> arena g !! g_accept g = Some (dangling NFA_ACCEPT) -> f_start f = Some s ->
  accepts_from g str s i stop <-> L i stop.
Proof.
  intros F P Hlo Hacc Hs. rewrite <- (fm_lang _ _ _ _ _ _ F).
  pose proof (fm_start _ _ _ _ _ _ F s Hs) as Hsr.
  assert (forall o, o ∈ f_outs f -> slot_ptr a o = None) as Hnull
    by (intros o Ho; by apply (fm_outs _ _ _ _ _ _ F)).
  assert (forall i stop, accepts_from g str (g_accept g) i stop -> stop = i) as Hstop.
  { intros i' stop' H. inversion H as [|id j p e Hj|id j p byte e Hb Hj]; subst; [done| |].
    - unfold eps_succ in Hj. rewrite Hacc in Hj. by apply elem_of_nil in Hj.
    - unfold byte_succ in Hj. rewrite Hacc in Hj. by apply elem_of_nil in Hj. }
  assert (forall id i o k t stop, lo <= id < hi -> moves str (arena g) id i o k ->
    slot_ptr (arena g) o = Some t -> accepts_from g str t k stop ->
    (lo <= t < hi -> exists o', o' ∈ f_outs f /\ walk str a t k o' stop) ->
    exists o', o' ∈ f_outs f /\ walk str a id i o' stop) as Hstep.
  { intros id i' o k t stop' Hid M Ht Ha IH.
    assert (moves str a id i' o k) as M0
      by (eapply moves_types; [symmetry; apply (patched_type _ _ _ _ P)|done]).
    destruct (decide (o ∈ f_outs f)) as [Ho|Ho].
    - rewrite (patched_in _ _ _ _ P o Ho) in Ht. injection Ht as <-.
      apply Hstop in Ha as ->. exists o. split; [done|by constructor].
    - rewrite (patched_out _ _ _ _ P o Ho) in Ht.
      destruct IH as (o' & Ho' & W).
      { apply (fm_closed _ _ _ _ _ _ F o t); [|done]. by rewrite (moves_slot _ _ _ _ _ _ M). }
      exists o'. split; [done|]. by eapply walk_step. }
  split.
  - intros Ha. assert (exists o', o' ∈ f_outs f /\ walk str a s i o' stop) as (o & Ho & W).
    { clear Hs. induction Ha as [pos|id j pos stop Hj Ha IH|id j pos byte stop Hb Hj Ha IH].
      - lia.
      - apply eps_succ_moves in Hj as (o & M & Hp). by eapply Hstep.
      - destruct (byte_succ_moves _ _ _ _ Hb Hj) as (o & M & Hp). by eapply Hstep. }
    by exists s, o.
  - intros (s' & o & Hs' & Ho & W). assert (s' = s) as -> by congruence. clear Hs' Hs Hsr.
    apply (walk_grow str _ _ _ _ P Hnull) in W.
    induction W as [id i o k M|id i o k t o' k' M Ht W IH].
    + eapply moves_accepts; [done|by apply (patched_in _ _ _ _ P)|constructor].
    + eapply moves_accepts; [done|done|]. by apply IH.
Qed.

End Finished.
