(* ===== verification/RegexLanguage.v ===== *)
(** * RegexLanguage: the builder preserves the meaning of a pattern

    Partial-correctness proof of reginold/nfa.c against the meaning of patterns
    (RegexPattern.v): whenever [nfa_build] returns a graph for the bytecode of a
    well-formed pattern, the graph accepts exactly what the pattern matches.
    [runs m b Q] says that every result of [m] satisfies [Q]; the postconditions
    are guarded by the error flag, which no operation clears. *)

From S2P Require Import Prelude Value RegexExec RegexGraph RegexBytecode RegexClassify RegexBuild.
From S2P Require Import RegexPattern RegexWalk.
From Stdlib Require Import ZArith Lia Bool List.
From stdpp Require Import base numbers list.

Local Open Scope Z_scope.
Local Open Scope c_scope.

Section Language.

Context {S : Type} `{!VmHeap S, !ReallocHeap S}.
Context (enclen : list Z -> Z).
Context (reg : regex_t).
Context (str : list Z).

Abbreviation code := (reg_p reg).
Abbreviation size b := (length (b_arena b)).

(** ** The primitive operations *)

Definition runs {A} (m : VM (Builder S) A) (b : Builder S) (Q : A -> Builder S -> Prop) : Prop :=
  forall a b', m b = Some (a, b') -> Q a b'.

Lemma runs_bind {A C} (m : VM (Builder S) A) (k : A -> VM (Builder S) C) b Q :
  runs m b (fun a b' => runs (k a) b' Q) -> runs (vm_bind m k) b Q.
Proof.
  unfold runs, vm_bind. intros H a b'. destruct (m b) as [[x b1]|]; [|done]. by apply H.
Qed.

Lemma runs_mono {A} (m : VM (Builder S) A) b (P Q : A -> Builder S -> Prop) :
  runs m b P -> (forall a b', P a b' -> Q a b') -> runs m b Q.
Proof. unfold runs. eauto. Qed.

Lemma runs_ret {A} (a : A) b (Q : A -> Builder S -> Prop) : Q a b -> runs (vm_ret a) b Q.
Proof. by intros H x b' [= <- <-]. Qed.

Lemma runs_lift {A} (o : option A) b (Q : A -> Builder S -> Prop) :
  (forall a, o = Some a -> Q a b) -> runs (vm_lift o) b Q.
Proof. intros H a b'. unfold vm_lift. destruct o; [|done]. intros [= <- <-]. by apply H. Qed.

(** A read whose result is known. *)
Lemma runs_known {A C} (o : option A) x (k : A -> VM (Builder S) C) b Q :
  o = Some x -> runs (k x) b Q -> runs (vm_bind (vm_lift o) k) b Q.
Proof. intros -> H. apply runs_bind, runs_lift. by intros a [= <-]. Qed.

Lemma runs_get_error {C} (k : bool -> VM (Builder S) C) b Q :
  runs (k (b_error b)) b Q -> runs (vm_bind get_error k) b Q.
Proof. done. Qed.

Lemma runs_fail p b (Q : NfaFrag * Z -> Builder S -> Prop) :
  runs (fail p) b (fun r b' => b_error b' = false -> Q r b').
Proof. by intros r b' [= <- <-]. Qed.

Lemma runs_check_error p k b (Q : NfaFrag * Z -> Builder S -> Prop) :
  (b_error b = false -> runs k b (fun r b' => b_error b' = false -> Q r b')) ->
  runs (check_error p k) b (fun r b' => b_error b' = false -> Q r b').
Proof.
  intros H. apply runs_get_error. destruct (b_error b); [by apply runs_fail|by apply H].
Qed.

Definition added (b b' : Builder S) (ty : NfaStateType) : Prop :=
  b_error b' = b_error b /\ b_arena b' = b_arena b ++ [dangling ty].

Lemma runs_alloc b :
  runs arena_alloc b (fun r b' =>
    b_error b' = b_error b /\
    match r with
    | Some id => id = size b /\ b_live b' = true /\ b_arena b' = b_arena b ++ [dangling NFA_ACCEPT]
    | None => True
    end).
Proof.
  intros r b'. unfold arena_alloc. destruct (b_live b) eqn:El; [|done]. simpl.
  destruct (b_cap b <=? size b)%nat.
  - destruct (realloc _ _) as [[] h]; intros [= <- <-]; done.
  - intros [= <- <-]. done.
Qed.

Lemma runs_set_type b id ty st :
  b_arena b !! id = Some st ->
  runs (set_type id ty) b (fun _ b' => b_error b' = b_error b /\
    b_arena b' = <[id := {| type := ty; out1 := out1 st; out2 := out2 st |}]> (b_arena b)).
Proof.
  intros Hst r b'. unfold set_type. destruct (negb (b_live b)); [done|].
  unfold array_read. rewrite Hst. rewrite array_write_in by (by eapply lookup_lt_Some).
  by intros [= <- <-].
Qed.

Lemma set_fresh_type a ty :
  <[length a := {| type := ty; out1 := None; out2 := None |}]> (a ++ [dangling NFA_ACCEPT]) =
  a ++ [dangling ty].
Proof. by rewrite insert_app_r_alt, Nat.sub_diag by lia. Qed.

Lemma runs_make ty b :
  runs (make_state ty) b (fun r b' =>
    match r with
    | Some id => id = size b /\ added b b' ty
    | None => b_error b' = b_error b
    end).
Proof.
  apply runs_bind. eapply runs_mono; [apply runs_alloc|].
  intros [id|] b1; [|intros [He _]; by apply runs_ret].
  intros (He & -> & _ & Ha). apply runs_bind. eapply runs_mono.
  - apply (runs_set_type _ _ _ (dangling NFA_ACCEPT)).
    by rewrite Ha, lookup_app_r, Nat.sub_diag by lia.
  - intros [] b2 [He2 Ha2]. apply runs_ret. split; [done|]. split; [congruence|].
    by rewrite Ha2, Ha, set_fresh_type.
Qed.

(** [make; NEED]: continue with the new state. *)
Lemma runs_need ty p k b (Q : NfaFrag * Z -> Builder S -> Prop) :
  (forall b', added b b' ty -> runs (k (size b)) b' (fun r b' => b_error b' = false -> Q r b')) ->
  runs (let! s := make_state ty in need s p k) b (fun r b' => b_error b' = false -> Q r b').
Proof.
  intros H. apply runs_bind. eapply runs_mono; [apply runs_make|].
  intros [id|] b1; simpl; [|intros _; by apply runs_fail].
  intros [-> Ha]. by apply H.
Qed.

Lemma patched_cons a a1 a2 o outs target :
  patched a a1 [o] target -> patched a1 a2 outs target -> patched a a2 (o :: outs) target.
Proof.
  intros [L1 T1 I1 O1] [L2 T2 I2 O2]. constructor.
  - congruence.
  - intros id. by rewrite T2.
  - intros o'. rewrite elem_of_cons. intros Ho. destruct (decide (o' ∈ outs)) as [Hin|Hin].
    + by apply I2.
    + rewrite O2 by done. apply I1. destruct Ho as [->|]; [by left|done].
  - intros o'. rewrite not_elem_of_cons. intros [Hne Hin]. rewrite O2 by done. apply O1.
    by rewrite list_elem_of_singleton.
Qed.

Lemma patched_nil a target : patched a a [] target.
Proof. constructor; try done. by intros o ?%elem_of_nil. Qed.

Lemma runs_set_slot o target b :
  runs (set_slot o target) b (fun _ b' =>
    b_error b' = b_error b /\ patched (b_arena b) (b_arena b') [o] target).
Proof.
  intros [] b'. unfold set_slot, array_read. destruct (negb (b_live b)); [done|].
  destruct (b_arena b !! slot_state o) as [st|] eqn:E; [|done].
  pose proof (lookup_lt_Some _ _ _ E) as Hlt. rewrite array_write_in by done.
  intros [= <-]. split; [done|]. simpl. constructor.
  - by rewrite length_insert.
  - intros id. destruct (decide (id = slot_state o)) as [->|].
    + rewrite list_lookup_insert_eq, E by done. by destruct o.
    + by rewrite list_lookup_insert_ne.
  - intros o' ->%list_elem_of_singleton. unfold slot_ptr.
    rewrite list_lookup_insert_eq by done. by destruct o.
  - intros o'. rewrite list_elem_of_singleton. intros Hne. unfold slot_ptr.
    destruct (decide (slot_state o' = slot_state o)) as [Es|].
    + rewrite Es, list_lookup_insert_eq, E by done.
      destruct o, o'; simpl in *; subst; done.
    + by rewrite list_lookup_insert_ne.
Qed.

Lemma runs_patch target outs : forall b,
  runs (patch_slots outs target) b (fun _ b' =>
    b_error b' = b_error b /\ patched (b_arena b) (b_arena b') outs target).
Proof.
  induction outs as [|o outs IH]; intros b; cbn [patch_slots].
  - apply runs_ret. split; [done|apply patched_nil].
  - apply runs_bind. eapply runs_mono; [apply runs_set_slot|].
    intros [] b1 [E1 P1]. eapply runs_mono; [apply IH|].
    intros [] b2 [E2 P2]. split; [congruence|]. by eapply patched_cons.
Qed.

Lemma merge_outs_is_app src : forall dst r, frag_merge_outs dst src = Some r -> r = dst ++ src.
Proof.
  induction src as [|s src IH]; intros dst r; cbn [frag_merge_outs].
  - intros [= <-]. by rewrite app_nil_r.
  - destruct (length dst <? MAX_DANGLING)%nat; [|done]. intros H. apply IH in H as ->.
    by rewrite <- app_assoc.
Qed.

Lemma runs_merge {C} f1 f2 (k : NfaFrag -> VM (Builder S) C) b Q :
  runs (k {| f_start := f_start f1; f_outs := f_outs f1 ++ f_outs f2 |}) b Q ->
  runs (vm_bind (frag_merge f1 f2) k) b Q.
Proof.
  intros H. apply runs_bind. unfold frag_merge. apply runs_bind, runs_lift.
  intros outs ->%merge_outs_is_app. by apply runs_ret.
Qed.

(** ** What building establishes *)

(** The builder's state grew past [lo], and nothing below [lo] changed. *)
Record grown (lo : nat) (b b' : Builder S) : Prop := {
  grown_agree : agree (b_arena b) (b_arena b') 0 lo;
  grown_size : (size b <= size b')%nat;
}.

Lemma grown_refl lo b : grown lo b b.
Proof. split; [|lia]. by intros id _. Qed.

Lemma grown_trans lo b1 b2 b3 : grown lo b1 b2 -> grown lo b2 b3 -> grown lo b1 b3.
Proof.
  intros [A1 L1] [A2 L2]. split; [|lia]. intros id Hid. by rewrite (A2 id Hid), (A1 id Hid).
Qed.

Lemma grown_le lo lo' b b' : (lo <= lo')%nat -> grown lo' b b' -> grown lo b b'.
Proof. intros Hl [A L]. split; [|done]. intros id Hid. apply A. lia. Qed.

Lemma added_grown b b' ty : added b b' ty -> grown (size b) b b'.
Proof. intros [_ Ha]. split; rewrite Ha; [apply agree_app|rewrite length_app; lia]. Qed.

Lemma patched_grown lo b b' outs target :
  patched (b_arena b) (b_arena b') outs target ->
  (forall o, o ∈ outs -> (lo <= slot_state o)%nat) -> grown lo b b'.
Proof.
  intros P Ho. split; [|by rewrite (patched_length _ _ _ _ P)].
  intros id Hid. eapply patched_lookup; [done|]. intros o Hin <-. specialize (Ho o Hin). lia.
Qed.

(** A fragment built from an arena of [size b] states, ending at [stop]. *)
Definition builds (b : Builder S) (L : lang) (must : bool) (stop : Z) (r : NfaFrag * Z)
    (b' : Builder S) : Prop :=
  b_error b' = false ->
  b_error b = false /\ grown (size b) b b' /\ snd r = stop /\
  seq_means str (b_arena b') (size b) (size b') (fst r) L /\
  (must = true -> f_start (fst r) <> None).

Lemma builds_frag b L stop r b' :
  builds b L true stop r b' -> b_error b' = false ->
  b_error b = false /\ grown (size b) b b' /\ snd r = stop /\
  exists s, f_start (fst r) = Some s /\
    frag_means str (b_arena b') (size b) (size b') (fst r) L.
Proof.
  intros H He. destruct (H He) as (E & G & P & M & Hm). split_and!; try done.
  unfold seq_means in M. destruct (f_start (fst r)) as [s|]; [by exists s|].
  by destruct (Hm eq_refl).
Qed.

Lemma seq_means_empty a n : (n <= length a)%nat -> seq_means str a n n frag_empty eq.
Proof. intros Hn. split_and!; try done. intros o t Ho. lia. Qed.

Lemma then_eq L : same_lang (then_ eq L) L.
Proof. intros i j. split; [by intros (k & -> & H)|]. by exists i. Qed.

Lemma then_eq_r L : same_lang (then_ L eq) L.
Proof. intros i j. split; [by intros (k & H & ->)|]. by exists j. Qed.

Lemma then_assoc L1 L2 L3 : same_lang (then_ (then_ L1 L2) L3) (then_ L1 (then_ L2 L3)).
Proof. unfold then_. intros i j. split; [intros (k & (m & ? & ?) & ?)|intros (k & ? & m & ? & ?)]; eauto. Qed.

Lemma then_same L1 L1' L2 L2' :
  same_lang L1 L1' -> same_lang L2 L2' -> same_lang (then_ L1 L2) (then_ L1' L2').
Proof.
  unfold then_. intros H1 H2 i j. split; intros (k & A & B); exists k;
    (split; [by apply H1|by apply H2]).
Qed.

(** Appending a fragment to a sequence. *)
Lemma runs_append lo mid acc f L1 L2 s b :
  seq_means str (b_arena b) lo mid acc L1 ->
  frag_means str (b_arena b) mid (size b) f L2 -> f_start f = Some s ->
  runs (frag_append acc f) b (fun r b' =>
    b_error b' = b_error b /\ grown lo b b' /\ size b' = size b /\
    seq_means str (b_arena b') lo (size b) r (then_ L1 L2) /\ f_start r <> None).
Proof.
  intros M F Hs. unfold frag_append, seq_means in *.
  destruct (f_start acc) as [s1|] eqn:E1.
  - apply runs_bind. eapply runs_mono; [apply runs_patch|].
    intros [] b1 [He P]. apply runs_ret. rewrite Hs in P. simpl.
    split_and!; [done| |by apply (patched_length _ _ _ _ P)| |done].
    + eapply patched_grown; [done|]. intros o Ho.
      destruct (fm_outs _ _ _ _ _ _ M o Ho). lia.
    + rewrite <- E1. by eapply frag_means_cat.
  - destruct M as (_ & C & Hb & HL). apply runs_ret. rewrite Hs. split_and!; try done.
    eapply frag_means_ext; [|destruct F as [F1 F2 F3 F4 F5]; constructor; try done].
    + intros i j. rewrite <- (then_eq L2 i j). unfold then_.
      split; intros (k & A & B); exists k; (split; [|done]); by apply HL.
    + intros t Ht. specialize (F1 t Ht). lia.
    + intros o Ho. destruct (F2 o Ho). split; [lia|done].
    + eapply closed_app; [done|done|lia].
    + lia.
Qed.

(** ** Single states *)

Lemma single_means b b' ty L :
  added b b' ty -> ty <> NFA_SPLIT ->
  (forall i k, leaves str (dangling ty) (size b) i (Out1 (size b)) k <-> L i k) ->
  frag_means str (b_arena b') (size b) (size b')
    (frag_make (Some (size b)) (Some (Out1 (size b)))) L.
Proof.
  intros [_ Ha] Hty HL. rewrite Ha, length_app, Nat.add_1_r. by apply frag_means_single.
Qed.

Lemma builds_single b b' ty L p :
  added b b' ty -> ty <> NFA_SPLIT ->
  (forall i k, leaves str (dangling ty) (size b) i (Out1 (size b)) k <-> L i k) ->
  builds b L true p (frag_make (Some (size b)) (Some (Out1 (size b))), p) b'.
Proof.
  intros A Hty HL He. split_and!; try done.
  - by destruct A as [<- _].
  - apply (added_grown _ _ _ A).
  - by apply (single_means b b' ty).
Qed.

Lemma runs_emit ty p b L :
  ty <> NFA_SPLIT ->
  (forall id i k, leaves str (dangling ty) id i (Out1 id) k <-> L i k) ->
  runs (emit (make_state ty) p) b (builds b L true p).
Proof.
  intros Hty HL. apply runs_need. intros b1 A. apply runs_ret.
  by apply (builds_single _ _ ty).
Qed.

(** ** Literals *)

Definition literal (bytes : list Z) : lang :=
  fun i k => take (length bytes) (drop i str) = bytes /\ k = (i + length bytes)%nat.

Lemma literal_cons byte bytes i k :
  literal (byte :: bytes) i k <-> str !! i = Some byte /\ literal bytes (Datatypes.S i) k.
Proof.
  unfold literal. simpl. rewrite <- (Nat.add_1_r i), <- drop_drop.
  rewrite <- (Nat.add_0_r i) at 3. rewrite <- lookup_drop.
  destruct (drop i str) as [|x l]; simpl; [naive_solver|]. rewrite drop_0.
  split; [intros [[= -> ?] ->]|intros ([= ->] & ? & ->)]; split_and!; try done; try lia.
  by f_equal.
Qed.

(** A sequence from [lo] on, after more building. *)
Definition extends (lo : nat) (b : Builder S) (L : lang) (stop : Z) (r : NfaFrag * Z)
    (b' : Builder S) : Prop :=
  b_error b' = false ->
  b_error b = false /\ grown lo b b' /\ snd r = stop /\
  seq_means str (b_arena b') lo (size b') (fst r) L.

Lemma seq_bounds a lo hi f L : seq_means str a lo hi f L -> (lo <= hi)%nat.
Proof.
  unfold seq_means. destruct (f_start f); [intros F; pose proof (fm_hi _ _ _ _ _ _ F); lia|].
  intros (_ & _ & H & _). lia.
Qed.

Lemma added_seq_means lo b b' ty f L :
  added b b' ty -> seq_means str (b_arena b) lo (size b) f L ->
  seq_means str (b_arena b') lo (size b) f L.
Proof.
  intros [_ Ha] M. eapply seq_means_agree; [| |done].
  - rewrite Ha. apply agree_app.
  - rewrite Ha, length_app. lia.
Qed.

Lemma pos_snoc (pre : list Z) x : Z.of_nat (length pre) + 1 = Z.of_nat (length (pre ++ [x])).
Proof. rewrite length_app. simpl. lia. Qed.

Lemma runs_chain bytes : forall pre suf acc L lo b,
  reg_p reg = pre ++ bytes ++ suf ->
  seq_means str (b_arena b) lo (size b) acc L ->
  runs (char_chain reg (length bytes) (Z.of_nat (length pre)) acc) b (fun r b' =>
    extends lo b (then_ L (literal bytes)) (Z.of_nat (length (pre ++ bytes))) r b' /\
    (b_error b' = false -> bytes <> [] \/ f_start acc <> None -> f_start (fst r) <> None)).
Proof.
  induction bytes as [|byte bytes IH]; intros pre suf acc L lo b Hc M.
  - apply runs_ret. split; [|by intros _ [|]]. intros He.
    split_and!; try done; [by rewrite app_nil_r|].
    eapply seq_means_ext; [|done]. intros i j. unfold then_, literal. simpl. split.
    + intros H. exists j. split_and!; [done|done|lia].
    + intros (k & H & _ & ->). by rewrite Nat.add_0_r.
  - cbn [length char_chain]. eapply runs_known; [rewrite Hc; apply read_at_app|].
    apply runs_bind. eapply runs_mono; [apply runs_make|].
    intros [id|] b1; simpl need; [|intros _ r b' [= <- <-]; by split].
    intros [-> A]. apply runs_bind.
    eapply runs_mono; [eapply (runs_append lo (size b)); [by eapply added_seq_means| |done]|].
    { apply (single_means _ _ (NFA_CHAR byte) (literal [byte]) A); [done|].
      intros i k. rewrite literal_cons. unfold leaves, literal, state_matches_byte. simpl. split.
      - intros (_ & -> & x & Hx & E). apply Z.eqb_eq in E as ->. split_and!; try done; lia.
      - intros (Hx & _ & ->). split_and!; [done|lia|]. exists byte. by rewrite Z.eqb_refl. }
    intros acc' b2 (E2 & G2 & S2 & M2 & N2). rewrite (pos_snoc pre byte).
    rewrite <- S2 in M2. eapply runs_mono.
    { eapply (IH (pre ++ [byte]) suf acc' _ lo b2); [by rewrite <- app_assoc|exact M2]. }
    intros r b3 [H3 N3]. split; [|intros He _; by apply N3; [|right]].
    intros He. destruct (H3 He) as (E3 & G3 & P3 & M3). split_and!.
    + destruct A as [A _]. congruence.
    + eapply grown_trans; [|done]. eapply grown_trans; [|done].
      eapply grown_le; [|by eapply added_grown]. by eapply seq_bounds.
    + by rewrite <- app_assoc in P3.
    + eapply seq_means_ext; [|done]. intros i j. rewrite (then_assoc _ _ _ i j).
      apply then_same; [done|]. intros i' j'. rewrite literal_cons. unfold then_. split.
      * intros (k & H1 & H2). apply literal_cons in H1 as [Hx [_ ->]]. simpl in H2.
        by rewrite Nat.add_0_r in H2.
      * intros [Hx H2]. exists (Datatypes.S i'). split; [|done].
        apply literal_cons. split; [done|]. split; [done|simpl; lia].
Qed.

(** ** Atoms *)

Lemma extends_builds b L L' stop r b' must :
  extends (size b) b L stop r b' -> same_lang L L' ->
  (b_error b' = false -> must = true -> f_start (fst r) <> None) -> builds b L' must stop r b'.
Proof.
  intros H HL Hm He. destruct (H He) as (E & G & P & M). split_and!; try done; [|by apply Hm].
  by eapply seq_means_ext.
Qed.

(** A whole literal from an empty accumulator. *)
Lemma runs_literal bytes pre suf b :
  reg_p reg = pre ++ bytes ++ suf -> bytes <> [] ->
  runs (char_chain reg (length bytes) (Z.of_nat (length pre)) frag_empty) b
    (builds b (literal bytes) true (Z.of_nat (length (pre ++ bytes)))).
Proof.
  intros Hc Hne. eapply runs_mono.
  - apply (runs_chain bytes pre suf frag_empty eq (size b)); [done|]. by apply seq_means_empty.
  - intros r b' [H N]. eapply extends_builds; [done|apply then_eq|]. intros He _. apply N; auto.
Qed.

Lemma bitmap_words_encoded n : forall words,
  length words = n -> Forall (fun w => 0 <= w < 2 ^ 32) words ->
  bitmap_words n (flat_map int_bytes words) = words.
Proof.
  induction n as [|n IH]; intros [|w words] Hn Hw; try done.
  apply Forall_cons in Hw as [Hw Hws]. cbn [flat_map bitmap_words].
  rewrite take_app_length' by done. rewrite drop_app_length' by done.
  rewrite IH by (try done; simpl in Hn; lia). f_equal.
  unfold int_bytes. cbn [le_value]. change (2 ^ 32) with 4294967296 in *.
  rewrite (Z.mod_small w) by lia. divmod_lia.
Qed.

Lemma cclass_is_testbit words negative byte :
  cclass_matches_byte words negative byte =
  xorb negative (Z.testbit (nth (Z.to_nat (byte / 32)) words 0) (byte mod 32)).
Proof.
  unfold cclass_matches_byte.
  assert (forall w n, 0 <= n -> negb (Z.land (Z.shiftr w n) 1 =? 0) = Z.testbit w n) as H.
  { intros w n Hn. change 1 with (Z.ones 1). rewrite Z.land_ones by lia. change (2 ^ 1) with 2.
    rewrite <- Z.bit0_mod, Z.shiftr_spec by lia. rewrite Z.add_0_l.
    by destruct (Z.testbit w n). }
  rewrite H by (apply Z.mod_pos_bound; lia). by destruct negative.
Qed.

Lemma runs_cclass p negative b words :
  read_bytes code p 32 = Some (flat_map int_bytes words) ->
  length words = 8%nat -> Forall (fun w => 0 <= w < 2 ^ 32) words ->
  runs (make_cclass reg (Some p) negative 0 0) b (fun r b' =>
    match r with
    | Some id => id = size b /\ added b b' (NFA_CHARCLASS words negative)
    | None => True
    end).
Proof.
  intros Hr Hn Hw. apply runs_bind. eapply runs_mono; [apply runs_alloc|].
  intros [id|] b1; [|intros _; by apply runs_ret].
  intros (He & -> & _ & Ha). eapply runs_known; [done|]. apply runs_bind.
  eapply runs_mono.
  - apply (runs_set_type _ _ _ (dangling NFA_ACCEPT)).
    by rewrite Ha, lookup_app_r, Nat.sub_diag by lia.
  - intros [] b2 [He2 Ha2]. apply runs_ret. split; [done|]. split; [congruence|].
    rewrite bitmap_words_encoded in Ha2 by done. by rewrite Ha2, Ha, set_fresh_type.
Qed.

Lemma runs_any_star ml p b :
  runs (build_any_star ml p) b (builds b (atom_matches str (AnyStar ml)) true p).
Proof.
  apply runs_bind. eapply runs_mono; [apply runs_make|]. intros split b1 H1.
  apply runs_bind. eapply runs_mono; [apply runs_make|]. intros any b2 H2.
  destruct split as [split|]; simpl need; [|by apply runs_fail].
  destruct any as [any|]; simpl need; [|by apply runs_fail].
  destruct H1 as [-> [E1 A1]], H2 as [-> [E2 A2]].
  apply runs_bind. eapply runs_mono; [apply runs_set_slot|]. intros [] b3 [E3 P3].
  apply runs_bind. eapply runs_mono; [apply runs_set_slot|]. intros [] b4 [E4 P4].
  apply runs_ret. intros He.
  rewrite A1, length_app, Nat.add_1_r in P3, P4.
  assert (b_arena b2 = b_arena b ++ [dangling NFA_SPLIT;
            dangling (if ml then NFA_ANY_ML else NFA_ANY)]) as Ha
    by (by rewrite A2, A1, <- app_assoc).
  assert (size b4 = Datatypes.S (Datatypes.S (size b))) as Hs.
  { rewrite (patched_length _ _ _ _ P4), (patched_length _ _ _ _ P3), Ha, length_app. simpl. lia. }
  assert (forall o, slot_ptr (b_arena b4) o =
    if decide (o = Out1 (Datatypes.S (size b))) then Some (size b)
    else if decide (o = Out1 (size b)) then Some (Datatypes.S (size b))
    else slot_ptr (b_arena b2) o) as Hptr.
  { intros o. repeat case_decide; subst.
    - apply (patched_in _ _ _ _ P4). by left.
    - rewrite (patched_out _ _ _ _ P4) by (by rewrite list_elem_of_singleton).
      apply (patched_in _ _ _ _ P3). by left.
    - rewrite (patched_out _ _ _ _ P4) by (by rewrite list_elem_of_singleton).
      by rewrite (patched_out _ _ _ _ P3) by (by rewrite list_elem_of_singleton). }
  assert (forall id, type <$> b_arena b4 !! id = type <$> b_arena b2 !! id) as Hty.
  { intros id. by rewrite (patched_type _ _ _ _ P4), (patched_type _ _ _ _ P3). }
  split_and!; try done; [congruence| |].
  - split; [|rewrite Hs; lia]. intros id Hid.
    rewrite (patched_lookup _ _ _ _ id P4), (patched_lookup _ _ _ _ id P3).
    + rewrite Ha, lookup_app_l by lia. done.
    + intros o ->%list_elem_of_singleton. simpl. lia.
    + intros o ->%list_elem_of_singleton. simpl. lia.
  - unfold seq_means. simpl. rewrite Hs.
    pose proof (Hty (size b)) as T1. pose proof (Hty (Datatypes.S (size b))) as T2.
    rewrite Ha in T1, T2. rewrite lookup_app_r, Nat.sub_diag in T1 by lia.
    rewrite lookup_app_r in T2 by lia.
    replace (Datatypes.S (size b) - size b)%nat with 1%nat in T2 by lia. simpl in T1, T2.
    destruct (b_arena b4 !! size b) as [st|] eqn:St1; [|done].
    destruct (b_arena b4 !! Datatypes.S (size b)) as [st'|] eqn:St2; [|done].
    injection T1 as T1. injection T2 as T2.
    apply (frag_means_star str _ _ st st' (any_byte ml)); try done.
    + intros i o k. unfold leaves, state_matches_byte, any_byte. rewrite T2.
      destruct ml; split; intros (H1 & H2 & byte & H3 & H4); split_and!; try done;
        exists byte; split; auto.
      * right. by apply negb_true_iff, Z.eqb_neq in H4.
      * destruct H4; [done|]. by apply negb_true_iff, Z.eqb_neq.
    + rewrite Hptr. repeat case_decide; simplify_eq; try done; lia.
    + rewrite Hptr. repeat case_decide; simplify_eq; try done.
      unfold slot_ptr. rewrite Ha. simpl. by rewrite lookup_app_r, Nat.sub_diag by lia.
    + rewrite Hptr. by case_decide.
    + rewrite Hptr. repeat case_decide; simplify_eq; try done.
      unfold slot_ptr. rewrite Ha. simpl. rewrite lookup_app_r by lia.
      by replace (Datatypes.S (size b) - size b)%nat with 1%nat by lia.
Qed.

Section Frag.

Context (rec : Z -> Z -> VM (Builder S) (NfaFrag * Z)).

(** Read the opcode at [pre] and dispatch on it. *)
Ltac enter_frag Hc :=
  unfold encode in *; cbn [atom_instruction i_op i_operands ins app] in *;
  unfold build_frag;
  match goal with
  | |- context [if ?c then fail _ else _] => destruct c; [by apply runs_fail|]
  end;
  eapply runs_known; [rewrite Hc; apply read_at_app|]; cbv zeta;
  rewrite opcode_byte_round_trip; cbv iota;
  match type of Hc with
  | _ = ?pre ++ ?byte :: _ => rewrite (pos_snoc pre byte)
  end.

Ltac shift_code Hc :=
  match type of Hc with
  | _ = ?pre ++ ?x :: ?l => change (x :: l) with ([x] ++ l) in Hc; rewrite app_assoc in Hc
  end.

Lemma builds_stop b L must p p' r b' : p = p' -> builds b L must p r b' -> builds b L must p' r b'.
Proof. by intros ->. Qed.

Lemma runs_exact op bytes pre suf depth b :
  reg_p reg = pre ++ byte_of_opcode op :: bytes ++ suf ->
  op = exact_opcode (length bytes) -> (1 <= length bytes <= 5)%nat ->
  runs (build_frag enclen reg rec (Z.of_nat (length pre)) depth) b
    (builds b (literal bytes) true (Z.of_nat (length (pre ++ byte_of_opcode op :: bytes)))).
Proof.
  intros Hc -> Hb.
  assert (forall op n, n = length bytes -> reg_p reg = pre ++ byte_of_opcode op :: bytes ++ suf ->
    runs (char_chain reg n (Z.of_nat (length (pre ++ [byte_of_opcode op]))) frag_empty) b
      (builds b (literal bytes) true (Z.of_nat (length (pre ++ byte_of_opcode op :: bytes))))) as H.
  { intros op n -> H. shift_code H. rewrite (app_assoc pre [_] bytes : pre ++ _ :: bytes = _).
    apply (runs_literal _ _ suf); [done|]. destruct bytes; simpl in *; [lia|done]. }
  destruct (length bytes) as [|[|[|[|[|[|]]]]]] eqn:El; try lia; cbn [exact_opcode] in *;
    enter_frag Hc; by apply H.
Qed.

Lemma runs_exactn bytes pre suf depth b :
  reg_p reg = pre ++ encode (atom_instruction (ExactN bytes)) ++ suf ->
  (1 <= length bytes)%nat -> Z.of_nat (length code) < 2 ^ 31 ->
  runs (build_frag enclen reg rec (Z.of_nat (length pre)) depth) b
    (builds b (literal bytes) true
       (Z.of_nat (length (pre ++ encode (atom_instruction (ExactN bytes)))))).
Proof.
  intros Hc Hb Hlen. enter_frag Hc. cbn [build_literal]. set (op := byte_of_opcode OP_EXACTN) in *.
  set (count := int_bytes (Z.of_nat (length bytes))) in *.
  assert (reg_p reg = (pre ++ [op]) ++ count ++ bytes ++ suf) as Hc1
    by (rewrite Hc; by rewrite <- !app_assoc).
  assert (reg_p reg = (pre ++ op :: count) ++ bytes ++ suf) as Hc2
    by (rewrite Hc; by rewrite <- !app_assoc).
  eapply runs_known.
  { rewrite Hc1. apply get_int_at. rewrite Hc2, !length_app in Hlen. lia. }
  rewrite Nat2Z.id.
  replace (Z.of_nat (length (pre ++ [op])) + SIZE_LENGTH)
    with (Z.of_nat (length (pre ++ op :: count)))
    by (rewrite !length_app; unfold SIZE_LENGTH; simpl; lia).
  eapply runs_mono.
  - apply (runs_literal _ _ suf _ Hc2). destruct bytes; simpl in Hb; [lia|done].
  - intros r b'. apply builds_stop. by rewrite <- app_assoc.
Qed.

Lemma runs_class negative words pre suf depth b :
  reg_p reg = pre ++ encode (atom_instruction (Class negative words)) ++ suf ->
  length words = 8%nat -> Forall (fun w => 0 <= w < 2 ^ 32) words ->
  runs (build_frag enclen reg rec (Z.of_nat (length pre)) depth) b
    (builds b (atom_matches str (Class negative words)) true
       (Z.of_nat (length (pre ++ encode (atom_instruction (Class negative words)))))).
Proof.
  intros Hc Hn Hw. unfold encode in *. cbn [atom_instruction i_op i_operands ins app] in *.
  assert (length (flat_map int_bytes words) = 32%nat) as Hl.
  { clear -Hn. do 8 (destruct words as [|? words]; [done|]). by destruct words. }
  assert (forall op, reg_p reg = pre ++ byte_of_opcode op :: flat_map int_bytes words ++ suf ->
    let p := Z.of_nat (length (pre ++ [byte_of_opcode op])) in
    runs (let! s := make_cclass reg (Some p) negative 0 0 in
          need s p (fun id =>
            vm_ret (frag_make (Some id) (Some (Out1 id)), p + SIZE_BITSET))) b
      (builds b (atom_matches str (Class negative words)) true
        (Z.of_nat (length (pre ++ byte_of_opcode op :: flat_map int_bytes words))))) as H.
  { intros op Hop. shift_code Hop. apply runs_bind.
    eapply runs_mono; [apply (runs_cclass _ _ _ words); try done|].
    { rewrite Hop. by apply read_bytes_app. }
    intros [id|] b1; simpl need; [|by intros _; apply runs_fail].
    intros [-> A]. apply runs_ret. eapply builds_stop.
    2: { apply (builds_single _ _ _ _ _ A); [done|].
         intros i k. unfold leaves, state_matches_byte. simpl. split.
         - intros (_ & -> & byte & Hx & Hm). rewrite cclass_is_testbit in Hm. eauto.
         - intros (byte & Hx & -> & Hm). split_and!; [done|done|]. exists byte.
           by rewrite cclass_is_testbit. }
    rewrite !length_app. simpl. rewrite Hl. unfold SIZE_BITSET. lia. }
  destruct negative; enter_frag Hc; by apply H.
Qed.

Lemma runs_group side mem pre suf depth b :
  reg_p reg = pre ++ encode (atom_instruction (Group side mem)) ++ suf -> Z.of_nat mem < 2 ^ 15 ->
  runs (build_frag enclen reg rec (Z.of_nat (length pre)) depth) b
    (builds b (fun i k => k = i) true
       (Z.of_nat (length (pre ++ encode (atom_instruction (Group side mem)))))).
Proof.
  intros Hc Hm. unfold encode in *. cbn [atom_instruction i_op i_operands ins app] in *.
  assert (reg_p reg = (pre ++ [byte_of_opcode (if side then OP_MEMORY_END else OP_MEMORY_START)])
    ++ short_bytes (Z.of_nat mem) ++ suf) as Hc1
    by (rewrite Hc; destruct side; by rewrite <- !app_assoc).
  destruct side; enter_frag Hc; (eapply runs_known; [rewrite Hc1; apply get_short_at; lia|]);
    (eapply runs_mono; [apply (runs_emit _ _ _ (fun i k => k = i)); [done|]|]);
    try (intros id i k; unfold leaves; simpl; naive_solver);
    intros r b'; apply builds_stop; rewrite !length_app; unfold SIZE_MEMNUM; simpl; lia.
Qed.

Lemma runs_atom a pre suf depth b :
  reg_p reg = pre ++ encode (atom_instruction a) ++ suf -> atom_ok a = true ->
  Z.of_nat (length code) < 2 ^ 31 ->
  runs (build_frag enclen reg rec (Z.of_nat (length pre)) depth) b
    (builds b (atom_matches str a) true
       (Z.of_nat (length (pre ++ encode (atom_instruction a))))).
Proof.
  intros Hc Hok Hlen.
  destruct a as [bytes|bytes|negative words|ml|ml|negative ascii|which|side mem];
    cbn [atom_ok] in Hok.
  - apply andb_true_iff in Hok as [H1 H2]. apply Nat.leb_le in H1, H2.
    by apply (runs_exact _ _ _ suf).
  - apply Nat.leb_le in Hok. by apply (runs_exactn _ _ suf).
  - apply andb_true_iff in Hok as [H1 H2]. apply Nat.eqb_eq in H1.
    apply (runs_class _ _ _ suf); try done. apply Forall_forall. intros w Hin.
    rewrite forallb_forall in H2. specialize (H2 w ltac:(by apply list_elem_of_In)). lia.
  - destruct ml; enter_frag Hc; (apply runs_emit; [done|]);
      intros id i k; unfold leaves, state_matches_byte; simpl; unfold any_byte; split.
    + intros (_ & -> & byte & Hx & _). exists byte. auto.
    + intros (byte & Hx & -> & _). eauto.
    + intros (_ & -> & byte & Hx & Hm). apply negb_true_iff, Z.eqb_neq in Hm.
      exists byte. auto.
    + intros (byte & Hx & -> & [|Hm]); [done|]. split_and!; [done|done|].
      exists byte. split; [done|]. by apply negb_true_iff, Z.eqb_neq.
  - destruct ml; enter_frag Hc; apply runs_any_star.
  - destruct negative, ascii; enter_frag Hc; (apply runs_emit; [done|]);
      intros id i k; unfold leaves, state_matches_byte; simpl; split;
      try (intros (_ & -> & byte & Hx & Hm); by eauto);
      intros (byte & Hx & -> & Hm); eauto.
  - destruct which; enter_frag Hc; (apply runs_emit; [done|]);
      intros id i k; unfold leaves; cbn [type dangling anchor_of atom_matches]; naive_solver.
  - apply Z.ltb_lt in Hok. by apply (runs_group _ _ _ suf).
Qed.

(** ** Blocks *)

(** Where a sequence ends: at the end of the program, or at the increment of
    the repeat whose body it is. *)
Inductive Block := Top | Body (greedy : bool) (mem : nat).

Definition exit_code (blk : Block) : list Z :=
  match blk with Top => [byte_of_opcode OP_END] | Body greedy mem => inc_code greedy mem end.

Definition block_ok (blk : Block) (its : list Item) : Prop :=
  match blk with
  | Top => items_ok (repeat_range reg) its = true
  | Body _ mem => forallb (plain (repeat_range reg)) its = true /\ Z.of_nat mem < 2 ^ 15
  end.

(** The items lie at [pre] in the program, followed by the exit of their block. *)
Record placed (blk : Block) (pre : list Z) (its : list Item) (post : list Z) : Prop := {
  placed_code : reg_p reg = pre ++ items_code its ++ exit_code blk ++ post;
  placed_ok : block_ok blk its;
  placed_top : blk = Top -> post = [];
}.

Definition stop_of (blk : Block) (pre : list Z) (its : list Item) : Z :=
  Z.of_nat (length (pre ++ items_code its ++ exit_code blk)).

(** The items behind the first one and [k] more. *)
Lemma placed_drop blk pre it rest post k :
  placed blk pre (it :: rest) post ->
  placed blk (pre ++ chunk it (chunks rest) ++ concat (take k (chunks rest))) (drop k rest) post.
Proof.
  intros [H1 H2 H3]. constructor; [| |done].
  - rewrite H1, items_code_cons, (items_code_split k rest). by rewrite <- !app_assoc.
  - destruct blk; simpl in H2 |- *.
    + apply items_ok_drop. by apply andb_true_iff in H2 as [_ H2].
    + destruct H2 as [H2 Hm]. split; [|done]. apply andb_true_iff in H2 as [_ H2].
      rewrite forallb_forall in H2 |- *. intros x Hx. apply H2.
      apply list_elem_of_In in Hx. apply list_elem_of_In. rewrite <- (take_drop k rest), elem_of_app. by right.
Qed.

Lemma stop_of_drop blk pre it rest k :
  stop_of blk (pre ++ chunk it (chunks rest) ++ concat (take k (chunks rest))) (drop k rest) =
  stop_of blk pre (it :: rest).
Proof.
  unfold stop_of. rewrite items_code_cons, (items_code_split k rest). by rewrite <- !app_assoc.
Qed.

Lemma placed_next blk pre it rest post :
  placed blk pre (it :: rest) post -> placed blk (pre ++ chunk it (chunks rest)) rest post.
Proof. intros H. apply (placed_drop _ _ _ _ _ 0) in H. by rewrite app_nil_r, drop_0 in H. Qed.

Lemma stop_of_next blk pre it rest :
  stop_of blk (pre ++ chunk it (chunks rest)) rest = stop_of blk pre (it :: rest).
Proof. rewrite <- (stop_of_drop blk pre it rest 0). by rewrite app_nil_r, drop_0. Qed.

(** The end of a block. *)
Lemma runs_exit blk pre post depth b :
  placed blk pre [] post ->
  runs (build_frag enclen reg rec (Z.of_nat (length pre)) depth) b (fun r b' =>
    b_error b' = false -> b' = b /\ r = (frag_empty, stop_of blk pre [])).
Proof.
  intros [Hc Hok _]. unfold stop_of, exit_code in *.
  change (items_code []) with (@nil Z) in *. cbn [app] in *.
  destruct blk as [|greedy mem].
  - cbn [app] in Hc. enter_frag Hc. by apply runs_ret.
  - destruct Hok as [_ Hm]. unfold inc_code in *.
    assert (reg_p reg = (pre ++ [byte_of_opcode (if greedy then OP_REPEAT_INC else OP_REPEAT_INC_NG)])
      ++ short_bytes (Z.of_nat mem) ++ post) as Hc1
      by (rewrite Hc; destruct greedy; by rewrite <- !app_assoc).
    destruct greedy; enter_frag Hc; (eapply runs_known; [rewrite Hc1; apply get_short_at; lia|]);
      apply runs_ret; intros _; (split; [done|]); f_equal;
      rewrite !length_app; unfold SIZE_MEMNUM; simpl; lia.
Qed.

Context (Hlen : Z.of_nat (length code) < 2 ^ 31).
Context (Hrec : forall blk pre its post depth b, placed blk pre its post ->
  runs (rec depth (Z.of_nat (length pre))) b
    (builds b (matches str its) (starts its) (stop_of blk pre its))).

(** The distance of a branch is read back. *)
Lemma branch_distance op pre rest post k :
  reg_p reg = pre ++ items_code (op :: rest) ++ post ->
  - 2 ^ 31 <= Z.of_nat (length (concat (take k (chunks rest)))) < 2 ^ 31.
Proof.
  intros Hc. rewrite Hc, items_code_cons, (items_code_split k rest), !length_app in Hlen. lia.
Qed.

Lemma runs_jump pre k rest post depth b :
  placed Top pre (Jump k :: rest) post ->
  runs (build_frag enclen reg rec (Z.of_nat (length pre)) depth) b
    (builds b (matches str (Jump k :: rest)) (starts (Jump k :: rest))
       (stop_of Top pre (Jump k :: rest))).
Proof using Hlen Hrec.
  intros H. pose proof (placed_drop _ _ _ _ _ k H) as Ht. destruct H as [Hc _ _].
  pose proof (branch_distance _ _ _ _ k Hc) as Hd.
  rewrite items_code_cons in Hc. cbn [chunk] in Hc. enter_frag Hc. cbn [build_control].
  rewrite <- app_assoc in Hc.
  assert (reg_p reg = (pre ++ [byte_of_opcode OP_JUMP]) ++
    int_bytes (Z.of_nat (length (concat (take k (chunks rest))))) ++
    items_code rest ++ exit_code Top ++ post) as Hc1 by (rewrite Hc; by rewrite <- !app_assoc).
  eapply runs_known; [rewrite Hc1; by apply get_int_at|].
  match goal with |- runs (rec _ ?p) _ _ => replace p with
    (Z.of_nat (length (pre ++ chunk (Jump k) (chunks rest) ++ concat (take k (chunks rest))))) end.
  2: { rewrite !length_app. unfold SIZE_RELADDR. simpl. lia. }
  eapply runs_mono; [exact (Hrec Top _ _ _ _ _ Ht)|]. intros r b' Hb He.
  destruct (Hb He) as (E & G & P & M & N). split_and!; try done.
  - by rewrite <- (stop_of_drop Top pre (Jump k) rest k).
  - eapply seq_means_ext; [|done]. intros i j. by rewrite matches_jump_iff.
  - intros Hs. apply N. simpl in Hs. by rewrite starts_after_drop in Hs.
Qed.

(** ** Splits around what [rec] builds *)

Lemma added_split b b1 :
  added b b1 NFA_SPLIT ->
  size b1 = Datatypes.S (size b) /\ b_arena b1 !! size b = Some (dangling NFA_SPLIT).
Proof.
  intros [_ Ha]. rewrite Ha, length_app. simpl. split; [lia|].
  by rewrite lookup_app_r, Nat.sub_diag by lia.
Qed.

(** The split itself is out of reach of what is built behind it. *)
Lemma split_kept b b1 b2 :
  added b b1 NFA_SPLIT -> grown (size b1) b1 b2 ->
  b_arena b2 !! size b = Some (dangling NFA_SPLIT) /\ grown (size b) b b2.
Proof.
  intros A G. destruct (added_split _ _ A) as [S1 L1]. split.
  - rewrite (grown_agree _ _ _ G); [done|]. lia.
  - eapply grown_trans; [by eapply added_grown|]. eapply grown_le; [|done]. lia.
Qed.

Lemma patched_split a a' n o target :
  patched a a' [o] target -> slot_state o = n ->
  a !! n = Some (dangling NFA_SPLIT) ->
  exists st, a' !! n = Some st /\ type st = NFA_SPLIT.
Proof.
  intros P Ho Ha. pose proof (patched_type _ _ _ _ P n) as Ht. rewrite Ha in Ht.
  destruct (a' !! n) as [st|]; [|done]. exists st. by injection Ht as Ht.
Qed.

Lemma slots_below_agree a a' n o target hi :
  patched a a' [o] target -> slot_state o = n -> agree a a' (Datatypes.S n) hi.
Proof.
  intros P Ho id Hid. eapply patched_lookup; [done|].
  intros o' ->%list_elem_of_singleton. lia.
Qed.

(** A split over two fragments built one after the other. *)
Lemma push_builds (b b1 b2 b3 b4 b5 : Builder S) f1 f2 p1 p2 q1 q2 L1 L2 :
  added b b1 NFA_SPLIT ->
  builds b1 L1 true q1 (f1, p1) b2 -> b_error b2 = false ->
  builds b2 L2 true q2 (f2, p2) b3 -> b_error b3 = false ->
  patched (b_arena b3) (b_arena b4) [Out1 (size b)] (f_start f1) ->
  patched (b_arena b4) (b_arena b5) [Out2 (size b)] (f_start f2) ->
  builds b (or_ L1 L2) true q1
    ({| f_start := Some (size b); f_outs := f_outs f1 ++ f_outs f2 |}, p1) b5.
Proof.
  intros A1 B1 E2 B2 E3 P4 P5 _.
  destruct (builds_frag _ _ _ _ _ B1 E2) as (Ea & G1 & Hp1 & s1 & Hf1 & F1).
  destruct (builds_frag _ _ _ _ _ B2 E3) as (_ & G2 & _ & s2 & Hf2 & F2).
  cbn [fst snd] in *. rewrite Hf1 in P4. rewrite Hf2 in P5.
  destruct (added_split _ _ A1) as [S1 _].
  pose proof (grown_size _ _ _ G1). pose proof (grown_size _ _ _ G2).
  destruct (split_kept _ _ b3 A1) as [L3 G3].
  { eapply grown_trans; [done|]. by eapply grown_le; [|done]. }
  pose proof (patched_length _ _ _ _ P4) as N4. pose proof (patched_length _ _ _ _ P5) as N5.
  assert (agree (b_arena b3) (b_arena b5) (Datatypes.S (size b)) (size b3)) as Ag.
  { intros id Hid. rewrite (slots_below_agree _ _ (size b) _ _ (size b3) P5 eq_refl id Hid).
    by rewrite (slots_below_agree _ _ (size b) _ _ (size b3) P4 eq_refl id Hid). }
  assert (exists st, b_arena b5 !! size b = Some st /\ type st = NFA_SPLIT) as (st & Hst & Hty).
  { pose proof (patched_type _ _ _ _ P5 (size b)) as T5.
    rewrite (patched_type _ _ _ _ P4), L3 in T5.
    destruct (b_arena b5 !! size b) as [st|]; [|done]. exists st. by injection T5 as T5. }
  rewrite S1 in F1. split_and!; try done.
  - by destruct A1 as [<- _].
  - eapply grown_trans; [done|]. eapply grown_trans; [eapply patched_grown; [exact P4|]|
      eapply patched_grown; [exact P5|]]; intros o ->%list_elem_of_singleton; simpl; lia.
  - unfold seq_means. cbn [fst f_start]. rewrite N5, N4.
    apply (frag_means_push str _ (size b2) (size b3) (size b) st f1 f2 s1 s2); try done.
    + apply (frag_means_agree _ (b_arena b2)); [|lia|done]. intros id Hid.
      rewrite <- (grown_agree _ _ _ G2 id) by lia. apply Ag. lia.
    + eapply frag_means_agree; [| |exact F2]; [intros id Hid; apply Ag; lia|lia].
    + rewrite (patched_out _ _ _ _ P5) by (by rewrite list_elem_of_singleton).
      apply (patched_in _ _ _ _ P4). by left.
    + apply (patched_in _ _ _ _ P5). by left.
Qed.

Lemma runs_push pre k rest post depth b :
  placed Top pre (Push k :: rest) post ->
  runs (build_frag enclen reg rec (Z.of_nat (length pre)) depth) b
    (builds b (matches str (Push k :: rest)) true (stop_of Top pre (Push k :: rest))).
Proof using Hlen Hrec.
  intros H. pose proof (placed_drop _ _ _ _ _ k H) as Ht. pose proof (placed_next _ _ _ _ _ H) as Hn.
  destruct H as [Hc Hok _]. pose proof (branch_distance _ _ _ _ k Hc) as Hd.
  simpl in Hok. rewrite !andb_true_iff, (starts_after_drop k) in Hok.
  destruct Hok as [[[_ Hs1] Hs2] _].
  rewrite items_code_cons in Hc. cbn [chunk] in Hc. enter_frag Hc. cbn [build_control].
  rewrite <- app_assoc in Hc.
  assert (reg_p reg = (pre ++ [byte_of_opcode OP_PUSH]) ++
    int_bytes (Z.of_nat (length (concat (take k (chunks rest))))) ++
    items_code rest ++ exit_code Top ++ post) as Hc1 by (rewrite Hc; by rewrite <- !app_assoc).
  unfold build_push. eapply runs_known; [rewrite Hc1; by apply get_int_at|]. cbv zeta.
  replace (Z.of_nat (length (pre ++ [byte_of_opcode OP_PUSH])) + SIZE_RELADDR)
    with (Z.of_nat (length (pre ++ chunk (Push k) (chunks rest))))
    by (rewrite !length_app; unfold SIZE_RELADDR; simpl; lia).
  replace (Z.of_nat (length (pre ++ chunk (Push k) (chunks rest))) +
           Z.of_nat (length (concat (take k (chunks rest)))))
    with (Z.of_nat (length (pre ++ chunk (Push k) (chunks rest) ++ concat (take k (chunks rest)))))
    by (rewrite !length_app; lia).
  apply runs_need. intros b1 A1.
  apply runs_bind. eapply runs_mono; [exact (Hrec Top _ _ _ _ _ Hn)|].
  intros [f1 p1] b2 B1. apply runs_check_error. intros E2.
  apply runs_bind. eapply runs_mono; [exact (Hrec Top _ _ _ _ _ Ht)|].
  intros [f2 p2] b3 B2. apply runs_check_error. intros E3.
  apply runs_bind. eapply runs_mono; [apply runs_set_slot|]. intros [] b4 [_ P4].
  apply runs_bind. eapply runs_mono; [apply runs_set_slot|]. intros [] b5 [_ P5].
  apply runs_merge, runs_merge, runs_ret.
  rewrite Hs1 in B1. rewrite Hs2 in B2. rewrite stop_of_next in B1. intros He.
  destruct (push_builds _ _ _ _ _ _ _ _ _ _ _ _ _ _ A1 B1 E2 B2 E3 P4 P5 He)
    as (H1 & H2 & H3 & H4 & H5).
  split_and!; try done. eapply seq_means_ext; [|exact H4].
  intros i j. symmetry. apply matches_push_iff.
Qed.

(** ** Repeats *)

(** One optional copy: a split that enters what [rec] built. *)
Lemma optional_builds greedy (b b1 b2 b3 : Builder S) f p q L :
  added b b1 NFA_SPLIT -> builds b1 L true q (f, p) b2 -> b_error b2 = false ->
  patched (b_arena b2) (b_arena b3) [enter_slot greedy (size b)] (f_start f) ->
  b_error b = false /\ grown (size b) b b3 /\ size b3 = size b2 /\ p = q /\
  frag_means str (b_arena b3) (size b) (size b3)
    {| f_start := Some (size b); f_outs := [skip_slot greedy (size b)] ++ f_outs f |} (or_ eq L).
Proof.
  intros A1 B1 E2 P3.
  destruct (builds_frag _ _ _ _ _ B1 E2) as (Ea & G1 & Hp1 & s & Hf & F).
  cbn [fst snd] in *. rewrite Hf in P3. destruct (added_split _ _ A1) as [S1 _].
  destruct (split_kept _ _ _ A1 G1) as [L2 G2].
  assert (slot_state (enter_slot greedy (size b)) = size b) as Hes by (by destruct greedy).
  pose proof (patched_length _ _ _ _ P3) as N3. pose proof (grown_size _ _ _ G1).
  destruct (patched_split _ _ _ _ _ P3 Hes L2) as (st & Hst & Hty).
  rewrite S1 in F. split_and!; try done.
  - by destruct A1 as [<- _].
  - eapply grown_trans; [done|]. eapply patched_grown; [exact P3|].
    intros o ->%list_elem_of_singleton. lia.
  - apply (frag_means_optional str _ _ _ st f s L (enter_slot greedy (size b))); try done.
    + eapply frag_means_agree; [| |rewrite N3; exact F]; [|lia].
      rewrite N3. by eapply slots_below_agree.
    + destruct greedy; auto.
    + apply (patched_in _ _ _ _ P3). by left.
    + rewrite (patched_out _ _ _ _ P3).
      * unfold slot_ptr. replace (slot_state (skip_slot greedy (size b))) with (size b)
          by (by destruct greedy). rewrite L2. by destruct greedy.
      * rewrite list_elem_of_singleton. by destruct greedy.
Qed.

Fixpoint power (L : lang) (n : nat) : lang :=
  match n with O => eq | Datatypes.S n => then_ L (power L n) end.

Lemma power_repeats body n : same_lang (repeats str body n) (power (matches str body) n).
Proof.
  induction n as [|n IH]; intros i j.
  - split; [by inversion 1|]. intros <-. constructor.
  - split.
    + inversion 1; subst. eexists. split; [done|]. by apply IH.
    + intros (k & H1 & H2). econstructor; [done|]. by apply IH.
Qed.

Lemma power_add L a c : same_lang (power L (a + c)) (then_ (power L a) (power L c)).
Proof.
  induction a as [|a IH]; intros i j; cbn [power Nat.add]; [symmetry; apply then_eq|].
  etransitivity; [by apply then_same|]. symmetry. apply then_assoc.
Qed.

(** [m] optional copies are at most [m] copies. *)
Lemma power_optional L m i j :
  power (or_ eq L) m i j <-> exists n, (n <= m)%nat /\ power L n i j.
Proof.
  revert i. induction m as [|m IH]; intros i; cbn [power].
  - split; [intros ->; by exists O|]. intros (n & Hn & H). by destruct n; [|lia].
  - split.
    + intros (k & [<-|Hk] & H); apply IH in H as (n & Hn & H).
      * exists n. split; [lia|done].
      * exists (Datatypes.S n). split; [lia|]. by exists k.
    + intros ([|n] & Hn & H).
      * exists i. split; [by left|]. apply IH. exists O. split; [lia|done].
      * destruct H as (k & Hk & H). exists k. split; [by right|]. apply IH. exists n.
        split; [lia|done].
Qed.

(** Mandatory and optional copies together. *)
Lemma power_range L lower upper i j :
  (lower <= upper)%nat ->
  then_ (power L lower) (power (or_ eq L) (upper - lower)) i j <->
  exists n, (lower <= n <= upper)%nat /\ power L n i j.
Proof.
  intros Hle. split.
  - intros (k & H1 & H2). apply power_optional in H2 as (n & Hn & H2).
    exists (lower + n)%nat. split; [lia|]. apply power_add. by exists k.
  - intros (n & Hn & H). replace n with (lower + (n - lower))%nat in H by lia.
    apply power_add in H as (k & H1 & H2). exists k. split; [done|].
    apply power_optional. exists (n - lower)%nat. split; [lia|done].
Qed.

Section Copies.

Context (blk : Block) (pre : list Z) (body : list Item) (post : list Z).
Context (Hbody : placed blk pre body post) (Hstarts : starts body = true).

Abbreviation start := (Z.of_nat (length pre)).
Abbreviation Lb := (matches str body).

(** Appending one more built fragment to a sequence. *)
Lemma runs_append_built lo acc f L L' s b b1 :
  seq_means str (b_arena b) lo (size b) acc L -> grown (size b) b b1 ->
  frag_means str (b_arena b1) (size b) (size b1) f L' -> f_start f = Some s ->
  runs (frag_append acc f) b1 (fun r b2 =>
    b_error b2 = b_error b1 /\ grown lo b b2 /\
    seq_means str (b_arena b2) lo (size b2) r (then_ L L') /\ f_start r <> None).
Proof.
  intros M G F Hs. eapply runs_mono.
  - apply (runs_append lo (size b) acc f L L' s); [|done|done].
    eapply seq_means_agree; [| |done].
    + intros id Hid. apply (grown_agree _ _ _ G). lia.
    + apply (grown_size _ _ _ G).
  - intros r b2 (E2 & G2 & S2 & M2 & N2). rewrite <- S2 in M2. split_and!; try done.
    eapply grown_trans; [|done]. eapply grown_le; [|done]. by eapply seq_bounds.
Qed.

Lemma runs_copies n : forall depth acc L lo b,
  seq_means str (b_arena b) lo (size b) acc L ->
  runs (repeat_build_copies rec n start depth acc) b (fun r b' =>
    b_error b' = false ->
    b_error b = false /\ grown lo b b' /\
    seq_means str (b_arena b') lo (size b') r (then_ L (power Lb n)) /\
    ((0 < n)%nat \/ f_start acc <> None -> f_start r <> None)).
Proof using Hbody Hstarts Hrec.
  induction n as [|n IH]; intros depth acc L lo b M; cbn [repeat_build_copies power].
  - apply runs_ret. intros E. split_and!; [done|apply grown_refl| |by intros [?|?]; [lia|]].
    eapply seq_means_ext; [|done]. intros i j. symmetry. apply then_eq_r.
  - apply runs_bind. eapply runs_mono; [exact (Hrec _ _ _ _ _ _ Hbody)|].
    intros [f p] b1 B. apply runs_get_error. rewrite Hstarts in B.
    destruct (b_error b1) eqn:E1; cbn [orb].
    { by intros r b' [= <- <-]. }
    destruct (builds_frag _ _ _ _ _ B E1) as (E & G & _ & s & Hs & F).
    cbn [fst snd] in *. rewrite Hs. simpl.
    apply runs_bind. eapply runs_mono; [by eapply runs_append_built|].
    intros acc' b2 (E2 & G2 & M2 & N2).
    eapply runs_mono; [apply (IH depth acc' (then_ L Lb) lo b2 M2)|].
    intros r b3 H3 E3. destruct (H3 E3) as (_ & G3 & M3 & N3).
    split_and!; [done|by eapply grown_trans| |intros _; apply N3; by right].
    eapply seq_means_ext; [|done]. intros i j. apply then_assoc.
Qed.

Lemma runs_optional_copies n : forall greedy depth acc L lo b,
  (b_error b = false -> seq_means str (b_arena b) lo (size b) acc L) ->
  runs (optional_copies rec n greedy start depth acc) b (fun r b' =>
    match r with
    | None => True
    | Some r =>
        b_error b' = false ->
        b_error b = false /\ grown lo b b' /\
        seq_means str (b_arena b') lo (size b') r (then_ L (power (or_ eq Lb) n)) /\
        ((0 < n)%nat \/ f_start acc <> None -> f_start r <> None)
    end).
Proof using Hbody Hstarts Hrec.
  induction n as [|n IH]; intros greedy depth acc L lo b M; cbn [optional_copies power].
  - apply runs_ret. intros E. split_and!; [done|apply grown_refl| |by intros [?|?]; [lia|]].
    eapply seq_means_ext; [|by apply M]. intros i j. symmetry. apply then_eq_r.
  - apply runs_bind. eapply runs_mono; [apply runs_make|].
    intros [split|] b1; [|intros _; by apply runs_ret]. intros [-> A].
    apply runs_bind. eapply runs_mono; [exact (Hrec _ _ _ _ _ _ Hbody)|].
    intros [f p] b2 B. apply runs_get_error. rewrite Hstarts in B.
    destruct (b_error b2) eqn:E2; [by apply runs_ret|].
    apply runs_bind. eapply runs_mono; [apply runs_set_slot|]. intros [] b3 [E3 P3].
    destruct (optional_builds greedy _ _ _ _ _ _ _ _ A B E2 P3) as (E & G & _ & _ & F).
    apply runs_merge, runs_bind. cbn [f_start f_outs frag_make].
    eapply runs_mono; [by eapply (runs_append_built lo acc); [apply M| | |]|].
    intros acc' b4 (E4 & G4 & M4 & N4).
    eapply runs_mono; [apply (IH greedy depth acc' (then_ L (or_ eq Lb)) lo b4); done|].
    intros [r|] b5; [|done]. intros H5 E5. destruct (H5 E5) as (_ & G5 & M5 & N5).
    split_and!; [done|by eapply grown_trans| |intros _; apply N5; by right].
    eapply seq_means_ext; [|done]. intros i j. apply then_assoc.
Qed.

(** The optional copies behind the mandatory ones. *)
Lemma runs_suffix greedy lower upper depth acc p b b1 :
  (lower <= upper <= 20)%nat -> (lower < upper)%nat \/ f_start acc <> None ->
  (b_error b1 = false -> b_error b = false /\ grown (size b) b b1 /\
     seq_means str (b_arena b1) (size b) (size b1) acc (power Lb lower)) ->
  (b_error b1 = false -> p = stop_of blk pre body) ->
  runs (let! acc := optional_copies rec
          (Z.to_nat (Z.min (Z.of_nat upper - Z.of_nat lower) MAX_UNROLL)) greedy start depth acc in
        match acc with None => fail p | Some acc => vm_ret (acc, p) end) b1
    (builds b (fun i k => exists n, (lower <= n <= upper)%nat /\ power Lb n i k) true
       (stop_of blk pre body)).
Proof using Hbody Hstarts Hrec.
  intros Hb Hne M Hp. replace (Z.to_nat _) with (upper - lower)%nat by (unfold MAX_UNROLL; lia).
  apply runs_bind. eapply runs_mono.
  { apply (runs_optional_copies _ greedy depth acc (power Lb lower) (size b) b1).
    intros E. by apply M. }
  intros [r|] b2 H; [|by apply runs_fail]. apply runs_ret. intros E2.
  destruct (H E2) as (E1 & G & M2 & N). destruct (M E1) as (E & G1 & _).
  split_and!; [done|by eapply grown_trans|by apply Hp| |intros _; apply N].
  - eapply seq_means_ext; [|done]. intros i j. apply power_range. lia.
  - destruct Hne; [left; lia|by right].
Qed.

Lemma runs_unrolled greedy lower upper depth b :
  (lower <= upper <= 20)%nat -> (1 <= upper)%nat ->
  runs (build_unrolled rec greedy false (Z.of_nat lower) (Z.of_nat upper) start
          (stop_of blk pre body) depth) b
    (builds b (fun i k => exists n, (lower <= n <= upper)%nat /\ power Lb n i k) true
       (stop_of blk pre body)).
Proof using Hbody Hstarts Hrec.
  intros Hb Hu. unfold build_unrolled. destruct lower as [|lower].
  - cbn [Z.of_nat Z.ltb Z.compare Z.eqb].
    apply runs_bind, runs_ret, runs_bind, runs_ret, runs_bind, runs_bind.
    eapply runs_mono; [exact (Hrec _ _ _ _ _ _ Hbody)|].
    intros [f p] b1 B. apply runs_ret. apply (runs_suffix greedy 0 upper); [lia|left; lia| |].
    + intros E1. destruct (B E1) as (E & G & _ & M & _). split_and!; try done.
      assert (closed (b_arena b1) (size b) (size b1)) as C.
      { unfold seq_means in M. destruct (f_start _); [by eapply fm_closed|]. by destruct M as (_ & ? & _). }
      pose proof (grown_size _ _ _ G). split_and!; try done; lia.
    + intros E1. by destruct (B E1) as (_ & _ & ? & _).
  - destruct (Z.ltb_spec 0 (Z.of_nat (Datatypes.S lower))); [|lia].
    destruct (Z.eqb_spec (Z.of_nat (Datatypes.S lower)) 0); [lia|].
    rewrite Nat2Z.id. apply runs_bind. eapply runs_mono.
    { apply (runs_copies _ depth frag_empty eq (size b) b). by apply seq_means_empty. }
    intros acc b1 H1. apply runs_get_error. destruct (b_error b1) eqn:E1; [by apply runs_fail|].
    destruct (H1 E1) as (E & G & M & N).
    apply runs_bind, runs_ret. apply (runs_suffix greedy (Datatypes.S lower) upper); try done.
    + right. apply N. left. lia.
    + intros _. split_and!; try done. eapply seq_means_ext; [apply then_eq|done].
Qed.

End Copies.

Lemma optional_range L : same_lang (or_ eq L) (fun i k => exists n, (0 <= n <= 1)%nat /\ power L n i k).
Proof.
  intros i j. split.
  - intros [->|H]; [exists O; split; [lia|done]|].
    exists 1%nat. split; [lia|]. by exists j.
  - intros (n & Hn & H). destruct n as [|[|]]; [by left| |lia].
    destruct H as (k & H & <-). by right.
Qed.

Lemma runs_build_repeat greedy mem lower upper body pre p post rel depth b :
  get_short code p = Some (Z.of_nat mem) -> get_int code (p + 2) = Some rel ->
  p + 2 + 4 = Z.of_nat (length pre) ->
  Z.of_nat (length pre) + rel = stop_of (Body greedy mem) pre body ->
  repeat_range reg !! mem = Some (Z.of_nat lower, Z.of_nat upper) ->
  placed (Body greedy mem) pre body post -> starts body = true ->
  (1 <= upper)%nat -> (lower <= upper)%nat ->
  runs (build_repeat reg rec greedy p depth) b
    (builds b (fun i k => exists n, (lower <= n <= upper)%nat /\ power (matches str body) n i k)
       true (stop_of (Body greedy mem) pre body)).
Proof using Hrec.
  intros Hm Hi Hp Hstop Hr Hbody Hs Hu Hl. unfold build_repeat, SIZE_MEMNUM, SIZE_RELADDR.
  eapply runs_known; [done|]. eapply runs_known; [done|]. rewrite Hp, Hstop.
  eapply runs_known with (x := (Z.of_nat lower, Z.of_nat upper)).
  { destruct (Z.ltb_spec (Z.of_nat mem) 0); [lia|]. unfold array_read. by rewrite Nat2Z.id. }
  cbv beta iota zeta. unfold INFINITE_INT.
  destruct (Z.eqb_spec (Z.of_nat upper) (-1)); [lia|]. rewrite !andb_false_r.
  destruct (Z.eqb_spec (Z.of_nat lower) 0), (Z.eqb_spec (Z.of_nat upper) 1);
    cbn [andb]; [|try (destruct ((_ <=? _) && _) eqn:Hc; [|by apply runs_fail];
      cbn [orb] in Hc; unfold MAX_UNROLL in Hc; apply (runs_unrolled _ _ _ post); try done; lia)..].
  assert (lower = O) as -> by lia. assert (upper = 1%nat) as -> by lia.
  apply runs_need. intros b1 A. apply runs_bind.
  eapply runs_mono; [exact (Hrec _ _ _ _ _ _ Hbody)|].
  intros [f q] b2 B. apply runs_check_error. intros E2. rewrite Hs in B.
  apply runs_bind. eapply runs_mono; [apply runs_set_slot|]. intros [] b3 [E3 P3].
  destruct (optional_builds greedy _ _ _ _ _ _ _ _ A B E2 P3) as (E & G & _ & -> & F).
  apply runs_merge, runs_ret. intros _. split_and!; try done.
  eapply frag_means_ext; [apply optional_range|done].
Qed.

Lemma runs_repeat greedy mem lower upper body pre suf depth b :
  let it := Repeat greedy mem lower upper body in
  reg_p reg = pre ++ chunk it [] ++ suf -> plain (repeat_range reg) it = true ->
  runs (build_frag enclen reg rec (Z.of_nat (length pre)) depth) b
    (builds b (fun i k => exists n, (lower <= n <= upper)%nat /\ repeats str body n i k) true
       (Z.of_nat (length (pre ++ chunk it [])))).
Proof using Hlen Hrec.
  cbv zeta. intros Hc Hok. rewrite chunk_repeat in *.
  cbn [plain] in Hok. rewrite !andb_true_iff in Hok.
  destruct Hok as [[[[[Hr Hm] Hu] Hl] Hb] Hp].
  apply bool_decide_eq_true in Hr. apply Z.ltb_lt in Hm.
  apply Nat.leb_le in Hu, Hl, Hb.
  set (distance := int_bytes (Z.of_nat (length (items_code body) + 3))) in *.
  set (op := if greedy then OP_REPEAT else OP_REPEAT_NG) in *.
  set (pre' := pre ++ encode (ins op (short_bytes (Z.of_nat mem) ++ distance))).
  assert (placed (Body greedy mem) pre' body suf) as Hbody.
  { constructor; [|done|done]. rewrite Hc. unfold pre'. by rewrite <- !app_assoc. }
  assert (starts body = true) as Hstarts.
  { destruct body as [|it body]; [simpl in Hb; lia|].
    simpl in Hp. apply andb_true_iff in Hp as [Hp _]. by eapply plain_starts. }
  assert (Z.of_nat (length (pre ++ encode (ins op (short_bytes (Z.of_nat mem) ++ distance)) ++
            items_code body ++ inc_code greedy mem)) = stop_of (Body greedy mem) pre' body) as Hstop.
  { unfold stop_of, pre'. by rewrite <- !app_assoc. }
  rewrite Hstop.
  eapply runs_mono with
    (P := builds b (fun i k => exists n, (lower <= n <= upper)%nat /\ power (matches str body) n i k)
            true (stop_of (Body greedy mem) pre' body)).
  - assert (reg_p reg = pre ++ byte_of_opcode op :: (short_bytes (Z.of_nat mem) ++ distance) ++
      items_code body ++ inc_code greedy mem ++ suf) as Hc0
      by (rewrite Hc; unfold encode; cbn [ins i_op i_operands app]; by rewrite <- !app_assoc).
    assert (forall depth, runs (build_repeat reg rec greedy
      (Z.of_nat (length (pre ++ [byte_of_opcode op]))) depth) b
      (builds b (fun i k => exists n, (lower <= n <= upper)%nat /\ power (matches str body) n i k)
         true (stop_of (Body greedy mem) pre' body))) as Hrep.
    { intros depth'. apply (runs_build_repeat greedy mem lower upper _ pre' _ suf
        (Z.of_nat (length (items_code body) + 3))); try done.
      - rewrite Hc0. change (byte_of_opcode op :: ?l) with ([byte_of_opcode op] ++ l).
        rewrite app_assoc, <- (app_assoc (short_bytes _)). apply get_short_at. lia.
      - rewrite Hc0.
        replace (pre ++ byte_of_opcode op :: (short_bytes (Z.of_nat mem) ++ distance) ++
          items_code body ++ inc_code greedy mem ++ suf) with
          ((pre ++ [byte_of_opcode op] ++ short_bytes (Z.of_nat mem)) ++ distance ++
           items_code body ++ inc_code greedy mem ++ suf) by (by rewrite <- !app_assoc).
        replace (Z.of_nat (length (pre ++ [byte_of_opcode op])) + 2) with
          (Z.of_nat (length (pre ++ [byte_of_opcode op] ++ short_bytes (Z.of_nat mem))))
          by (rewrite !length_app; simpl; lia).
        apply get_int_at. rewrite Hc0, !length_app in Hlen. simpl in Hlen.
        rewrite !length_app in Hlen. unfold inc_code in Hlen. simpl in Hlen. lia.
      - unfold pre', encode. rewrite !length_app. simpl. lia.
      - unfold stop_of. rewrite !length_app. unfold exit_code, inc_code. simpl. lia. }
    subst op. destruct greedy; enter_frag Hc0; apply Hrep.
  - intros r b' H He. destruct (H He) as (E & G & P & M & N). split_and!; try done.
    eapply seq_means_ext; [|done]. intros i j.
    split; intros (n & Hn & Hpow); exists n; (split; [done|]); by apply power_repeats.
Qed.

(** ** Sequences *)

(** An item that consumes its own bytes only. *)
Definition item_lang (it : Item) : lang := matches str [it].

Lemma runs_item blk pre it rest post depth b :
  placed blk pre (it :: rest) post -> plain (repeat_range reg) it = true ->
  runs (build_frag enclen reg rec (Z.of_nat (length pre)) depth) b
    (builds b (item_lang it) true (Z.of_nat (length (pre ++ chunk it (chunks rest))))).
Proof using Hlen Hrec.
  intros [Hc _ _] Hp. rewrite items_code_cons, <- app_assoc in Hc.
  eapply runs_mono with (P := builds b
    (match it with
     | Single a => atom_matches str a
     | Repeat _ _ lower upper body =>
         fun i k => exists n, (lower <= n <= upper)%nat /\ repeats str body n i k
     | _ => item_lang it
     end) true (Z.of_nat (length (pre ++ chunk it (chunks rest))))).
  - destruct it as [a|greedy mem lower upper body| |]; try done.
    + by eapply runs_atom.
    + by eapply (runs_repeat greedy mem lower upper body).
  - intros r b' H He. destruct (H He) as (E & G & P & M & N). split_and!; try done.
    eapply seq_means_ext; [|done]. intros i j. unfold item_lang. destruct it; try done.
    + rewrite matches_single_iff. split; [intros ?; exists j; split; [done|constructor]|].
      intros (k & ? & Hk). by inversion Hk; subst.
    + rewrite matches_repeat_iff. split; [intros ?; exists j; split; [done|constructor]|].
      intros (k & ? & Hk). by inversion Hk; subst.
Qed.

Lemma item_then it rest :
  plain (repeat_range reg) it = true ->
  same_lang (then_ (item_lang it) (matches str rest)) (matches str (it :: rest)).
Proof.
  intros Hp i j. unfold then_, item_lang. destruct it; try done.
  - rewrite matches_single_iff. setoid_rewrite matches_single_iff. split.
    + intros (k & (m & H1 & H2) & H3). inversion H2; subst. eauto.
    + intros (k & H1 & H2). exists k. split; [|done]. exists k. split; [done|constructor].
  - rewrite matches_repeat_iff. setoid_rewrite matches_repeat_iff. split.
    + intros (k & (m & H1 & H2) & H3). inversion H2; subst. eauto.
    + intros (k & H1 & H2). exists k. split; [|done]. exists k. split; [done|constructor].
Qed.

Lemma block_plain blk it rest :
  block_ok blk (it :: rest) ->
  plain (repeat_range reg) it = true \/
  (blk = Top /\ ((exists k, it = Push k) \/ (exists k, it = Jump k))).
Proof.
  destruct blk; simpl.
  - intros H. apply andb_true_iff in H as [H _]. destruct it; eauto 6.
  - intros [H _]. apply andb_true_iff in H as [H _]. by left.
Qed.

Lemma plain_not_branch it : plain (repeat_range reg) it = true -> forall k, it <> Jump k.
Proof. by intros H k ->. Qed.

End Frag.

(** What a whole sequence adds to the one in progress. *)
Definition sequenced (lo : nat) (seq : NfaFrag) (L : lang) (blk : Block) (pre : list Z)
    (its : list Item) (b : Builder S) (r : NfaFrag * Z) (b' : Builder S) : Prop :=
  extends lo b (then_ L (matches str its)) (stop_of blk pre its) r b' /\
  (b_error b' = false -> f_start (fst r) = None -> f_start seq = None /\ starts its = false).

Lemma runs_at_end fuel seq depth pp b :
  Z.of_nat (length code) <= pp ->
  runs (build_sequence enclen reg fuel seq depth pp) b (fun r b' => r = (seq, pp) /\ b' = b).
Proof.
  intros Hpp. destruct fuel as [|fuel]; [by apply runs_lift|]. cbn [build_sequence].
  apply runs_get_error. destruct (Z.ltb_spec pp (Z.of_nat (length code))); [lia|].
  by apply runs_ret.
Qed.

Lemma stop_is_end pre its post :
  placed Top pre its post -> stop_of Top pre its = Z.of_nat (length code).
Proof.
  intros [H1 _ H3]. rewrite H1, (H3 eq_refl), app_nil_r. done.
Qed.

Lemma position_inside blk pre its post :
  placed blk pre its post -> Z.of_nat (length pre) < Z.of_nat (length code).
Proof.
  intros [H _ _]. rewrite H, !length_app.
  assert (0 < length (exit_code blk))%nat by (by destruct blk; simpl; lia). lia.
Qed.

(** States behind a fragment that it does not point at. *)
Lemma seq_means_widen a lo mid hi f L :
  seq_means str a lo mid f L -> closed a mid hi -> (mid <= hi <= length a)%nat ->
  seq_means str a lo hi f L.
Proof.
  intros M C Hh. unfold seq_means in *. destruct (f_start f) as [s|].
  - destruct M as [F1 F2 F3 F4 F5]. constructor; try done.
    + intros t Ht. specialize (F1 t Ht). lia.
    + intros o Ho. destruct (F2 o Ho). split; [lia|done].
    + eapply closed_app; [done|done|lia].
    + lia.
  - destruct M as (H1 & H2 & H3 & H4). split_and!; try done; try lia.
    eapply closed_app; [done|done|lia].
Qed.

(** A fragment that reaches the end of the program closes the sequence. *)
Lemma runs_last fuel lo seq L pre its post depth b f p b1 :
  placed Top pre its post -> seq_means str (b_arena b) lo (size b) seq L ->
  builds b (matches str its) (starts its) (stop_of Top pre its) (f, p) b1 ->
  b_error b1 = false ->
  runs (match f_start f with
        | None => vm_ret (seq, p)
        | Some _ =>
            let! seq := frag_append seq f in build_sequence enclen reg fuel seq depth p
        end) b1 (sequenced lo seq L Top pre its b).
Proof.
  intros Hpl M B E1. destruct (B E1) as (E & G & Hp & MF & N). cbn [fst snd] in *.
  unfold seq_means in MF. destruct (f_start f) as [s|] eqn:Hs.
  - apply runs_bind. eapply runs_mono; [by eapply (runs_append_built lo seq)|].
    intros seq' b2 (E2 & G2 & M2 & N2). eapply runs_mono.
    { apply runs_at_end. rewrite Hp, (stop_is_end _ _ _ Hpl). lia. }
    intros r b3 [-> ->]. split; [|done]. intros E3. by split_and!.
  - apply runs_ret. destruct MF as (_ & C & Hb & HL). split.
    + intros _. split_and!; try done.
      * eapply grown_le; [|done]. by eapply seq_bounds.
      * eapply seq_means_ext; [|eapply seq_means_widen; [|exact C|lia]].
        -- intros i j. rewrite <- (then_eq_r L i j). apply then_same; [done|].
           intros i' j'. by rewrite HL.
        -- eapply seq_means_agree; [| |exact M]; [|lia].
           intros id Hid. apply (grown_agree _ _ _ G). lia.
    + intros _ Hn. split; [done|]. destruct (starts its) eqn:St; [|done]. by destruct N.
Qed.

Lemma runs_sequence fuel : forall blk pre its post seq L lo depth b,
  Z.of_nat (length code) < 2 ^ 31 ->
  placed blk pre its post -> seq_means str (b_arena b) lo (size b) seq L ->
  runs (build_sequence enclen reg fuel seq depth (Z.of_nat (length pre))) b
    (sequenced lo seq L blk pre its b).
Proof.
  induction fuel as [|fuel IH]; intros blk pre its post seq L lo depth b Hlen Hpl M;
    [by apply runs_lift|].
  assert (forall blk pre its post depth b, placed blk pre its post ->
    runs (build_sequence enclen reg fuel frag_empty depth (Z.of_nat (length pre))) b
      (builds b (matches str its) (starts its) (stop_of blk pre its))) as Hrec.
  { intros blk' pre' its' post' depth' b' H.
    eapply runs_mono; [apply (IH _ _ _ _ _ eq (size b') depth' b' Hlen H); by apply seq_means_empty|].
    intros r b2 [H1 H2]. eapply extends_builds; [done|apply then_eq|].
    intros E Hs Hn. destruct (H2 E Hn). congruence. }
  cbn [build_sequence]. apply runs_get_error. destruct (b_error b) eqn:E.
  { rewrite andb_false_r. apply runs_ret. split; intros; congruence. }
  pose proof (position_inside _ _ _ _ Hpl).
  destruct (Z.ltb_spec (Z.of_nat (length pre)) (Z.of_nat (length code))); [|lia]. cbn [andb negb].
  apply runs_bind. destruct its as [|it rest].
  - eapply runs_mono; [by eapply runs_exit|]. intros [f p] b1 H1. apply runs_get_error.
    destruct (b_error b1) eqn:E1; [apply runs_ret; split; congruence|].
    destruct (H1 eq_refl) as [-> [= -> ->]]. cbn [f_start frag_empty]. apply runs_ret. split.
    + intros _. split_and!; try done. eapply seq_means_ext; [|done]. intros i j.
      rewrite <- (then_eq_r L i j). apply then_same; [done|]. intros i' j'. symmetry.
      by apply matches_empty.
    + by intros _ Hn.
  - destruct (block_plain _ _ _ (placed_ok _ _ _ _ Hpl)) as [Hp|[-> Hbr]].
    + eapply runs_mono; [by eapply runs_item|]. intros [f p] b1 B. apply runs_get_error.
      destruct (b_error b1) eqn:E1; [apply runs_ret; split; congruence|].
      destruct (builds_frag _ _ _ _ _ B E1) as (_ & G & Hpos & s & Hs & F).
      cbn [fst snd] in *. rewrite Hs. subst p.
      apply runs_bind. eapply runs_mono; [by eapply (runs_append_built lo seq)|].
      intros seq' b2 (E2 & G2 & M2 & N2).
      eapply runs_mono; [exact (IH _ _ _ _ _ _ lo depth b2 Hlen (placed_next _ _ _ _ _ Hpl) M2)|].
      intros r b3 [H3 N3]. split; [|intros E3 Hn; by destruct (N3 E3 Hn)].
      intros E3. destruct (H3 E3) as (_ & G3 & P3 & M3).
      split_and!; [done|by eapply grown_trans|by rewrite P3, stop_of_next|].
      eapply seq_means_ext; [|done]. intros i j. rewrite (then_assoc _ _ _ i j).
      apply then_same; [done|]. by apply item_then.
    + eapply runs_mono with (P := builds b (matches str (it :: rest)) (starts (it :: rest))
                                    (stop_of Top pre (it :: rest))).
      { destruct Hbr as [[k ->]|[k ->]]; [by eapply runs_push|by eapply runs_jump]. }
      intros [f p] b1 B. apply runs_get_error.
      destruct (b_error b1) eqn:E1; [apply runs_ret; split; congruence|].
      by eapply runs_last.
Qed.

(** ** The whole builder *)

Lemma built_language fuel its (s s' : S) g :
  reg_p reg = program its -> pattern_ok (repeat_range reg) its = true ->
  nfa_build fuel enclen reg s = Some (Some g, s') ->
  forall i j, matches_at g str i j <-> matches str its i j.
Proof.
  intros Hc Hok. apply andb_true_iff in Hok as [Hok Hlen]. apply Z.ltb_lt in Hlen.
  rewrite <- Hc in Hlen.
  unfold nfa_build, vm_bind, vm_malloc, vm_ret.
  do 3 (destruct (malloc _ _) as [[] ?]; cbn [negb]; [|done]).
  change (make_state NFA_ACCEPT (initial_builder ?h)) with
    (Some (Some 0%nat, with_arena (initial_builder h) [dangling NFA_ACCEPT])).
  cbv beta iota. set (b := with_arena _ _).
  assert (placed Top [] its []) as Hpl.
  { constructor; [|done|done]. rewrite Hc. unfold program. by rewrite app_nil_r. }
  pose proof (runs_sequence fuel Top [] its [] frag_empty eq 1 0 b Hlen Hpl
    (seq_means_empty (b_arena b) 1 ltac:(done))) as Hseq.
  change (Z.of_nat (length (@nil Z))) with 0 in Hseq.
  destruct (build_sequence _ _ _ _ _ _ b) as [[root b1]|] eqn:Eb; [|done].
  destruct (Hseq _ _ Eb) as [H _].
  assert (forall r, nfa_graph_free b1 = Some (Some r, s') -> False) as Hfree
    by (intros r; unfold nfa_graph_free; by destruct (b_live b1)).
  destruct (b_error b1) eqn:E1; [by intros ?%Hfree|].
  destruct (f_start (fst root)) as [start|] eqn:Hs; [|by intros ?%Hfree].
  destruct (H E1) as (_ & G & _ & M). unfold seq_means in M. rewrite Hs in M.
  pose proof (runs_patch (Some 0%nat) (f_outs (fst root)) b1) as P.
  unfold frag_patch. destruct (patch_slots _ _ b1) as [[[] b2]|] eqn:Ep; [|done].
  destruct (P _ _ Ep) as [_ P2]. intros [= <- _] i j. unfold matches_at. cbn [g_start].
  rewrite (accepts_means str _ (b_arena b1) 1 (size b1) (fst root) _ start i j M); try done.
  - apply then_eq.
  - cbn [g_accept]. lia.
  - cbn [arena g_accept]. rewrite (patched_lookup _ _ _ _ 0 P2).
    + by rewrite (grown_agree _ _ _ G) by lia.
    + intros o Ho. destruct (fm_outs _ _ _ _ _ _ M o Ho). lia.
Qed.

End Language.
