(* ===== verification/RegexPipeline.v ===== *)
(** * RegexPipeline: from bytecode to matches

    The builder of reginold/nfa.c composed with the simulations of
    reginold/exec.c: the graphs it returns meet the preconditions of the search
    theorems and accept what the pattern matches.  The second half states what
    the builder does outside the conditions of [pattern_ok] and on inputs where
    its comments promise something else. *)

From S2P Require Import Prelude Value RegexExec RegexGraph RegexTier1 RegexTier2 RegexSearch.
From S2P Require Import RegexBytecode RegexClassify RegexBuild RegexBuildOk RegexPattern.
From S2P Require Import RegexWalk RegexLanguage.
From Stdlib Require Import ZArith Lia Bool List.
From stdpp Require Import base numbers list.

Local Open Scope Z_scope.
Local Open Scope c_scope.

(** No repeat range has the upper bound the builder reads as infinity. *)
Definition finite_ranges (reg : regex_t) : bool :=
  forallb (fun r => negb (snd r =? INFINITE_INT)) (repeat_range reg).

Lemma finite_ranges_spec reg :
  finite_ranges reg = true -> forall r, r ∈ repeat_range reg -> r.2 <> INFINITE_INT.
Proof.
  unfold finite_ranges. rewrite forallb_forall. intros H r Hr.
  apply list_elem_of_In in Hr. specialize (H r Hr).
  by apply negb_true_iff, Z.eqb_neq in H.
Qed.

(** ** Heaps for concrete runs *)

(** An arena that can never grow. *)
#[global] Instance scripted_realloc : ReallocHeap ScriptedHeap :=
  { realloc _ s := (REALLOC_NULL, s) }.

(** Allocation succeeds, [realloc] follows a list of outcomes, then refuses. *)
Record GrowthScript := { growth : list Resized }.

#[global] Instance growth_heap : VmHeap GrowthScript := {
  malloc _ s := (true, s);
  maybe_collect s := (true, s);
  link_young _ _ s := s;
}.

#[global] Instance growth_realloc : ReallocHeap GrowthScript := {
  realloc _ s :=
    match growth s with
    | [] => (REALLOC_NULL, s)
    | r :: rest => (r, {| growth := rest |})
    end
}.

(** ** Example programs *)

(** [a|bc] followed by one or two [d]. *)
Definition alternation_program : list RegexClassify.Instruction :=
  [ins OP_PUSH (int_bytes 7); ins OP_EXACT1 [97]; ins OP_JUMP (int_bytes 3);
   ins OP_EXACT2 [98; 99];
   ins OP_REPEAT ([0; 0] ++ int_bytes 5); ins OP_EXACT1 [100]; ins OP_REPEAT_INC [0; 0];
   ins OP_END []].

Definition alternation : regex_t := pattern alternation_program 0 [(1, 2)].

Definition alternation_boundaries : list Z := [0; 5; 7; 12; 15; 22; 24; 27].

Definition one_byte : list Z -> Z := fun _ => 1.

(** The same program as a pattern. *)
Definition alternation_items : list Item :=
  [Push 2; Single (Exact [97]); Jump 1; Single (Exact [98; 99]);
   Repeat true 0 1 2 [Single (Exact [100])]].

Lemma alternation_assembled : reg_p alternation = program alternation_items.
Proof. reflexivity. Qed.

Definition compiled (its : list Item) (ranges : list (Z * Z)) : regex_t :=
  {| reg_p := program its; num_mem := 0; num_call := 0; repeat_range := ranges;
     ignorecase := false; mbc_maxlen := 1 |}.

(** [x] and an optional [a] at the end of the pattern. *)
Definition trailing_optional : list Item := [Single (Exact [120]); Push 1; Single (Exact [97])].

(** Three times [a] or [b], then [c]. *)
Definition repeated_alternation : list Item :=
  [Repeat true 0 3 3 [Push 2; Single (Exact [97]); Jump 1; Single (Exact [98])];
   Single (Exact [99])].

(** A mismatch reported by Tier 1 on a well-formed graph is one. *)
Lemma tier1_mismatch g str s :
  graph_ok g = true ->
  exec_match 0 g REG_TIER_1 str 0 None (scripted []) = Some ((EXEC_MISMATCH, None), s) ->
  forall stop, ~ matches_at g str 0 stop.
Proof.
  intros Hok H. pose proof (exec_match_spec (S:=ScriptedHeap) (fun s => outcomes s = []) g str 0
    REG_TIER_1 0 None (scripted [])) as Hm.
  unfold wpp in Hm. rewrite H in Hm. apply Hm; [by unfold runnable; rewrite Hok|lia|done].
Qed.

(** A literal of 64 bytes. *)
Definition long_literal : regex_t :=
  pattern [ins OP_EXACTN (int_bytes 64 ++ repeat 97 64); ins OP_END []] 0 [].

(** [n] alternatives, each an optional byte: 17 bytes of body behind a PUSH, the
    last one without. *)
Fixpoint optional_alternatives (n : nat) : list RegexClassify.Instruction :=
  let optional := [ins OP_REPEAT ([0; 0] ++ int_bytes 5); ins OP_EXACT1 [97];
                   ins OP_REPEAT_INC [0; 0]] in
  match n with
  | O => optional
  | S n =>
      ins OP_PUSH (int_bytes 17) :: optional ++
      ins OP_JUMP (int_bytes (22 * Z.of_nat n + 12)) :: optional_alternatives n
  end.

Definition optional_pattern (n : nat) : regex_t :=
  pattern (optional_alternatives n ++ [ins OP_END []]) 0 [(0, 1)].



(** ** Claims *)

(** C7: the builder preserves meaning: a graph that [nfa_build] returns for the
    bytecode of a well-formed pattern accepts, on every subject and between all
    positions, exactly what the pattern matches; repeats are unrolled into as
    many copies, branches into their alternatives. *)
Theorem regex_pattern_language {S : Type} {VH : VmHeap S} {RH : ReallocHeap S} (fuel : nat)
    (enclen : list Z -> Z) (reg : regex_t) (its : list Item) (s s' : S) (g : NfaGraph) :
  reg_p reg = program its -> pattern_ok (repeat_range reg) its = true ->
  nfa_build fuel enclen reg s = Some (Some g, s') ->
  forall str i j, matches_at g str i j <-> matches str its i j.
Proof. intros Hc Hok Hb str. by apply (built_language enclen reg str fuel its s s'). Qed.

Lemma regex_pattern_language_witness :
  exists g, nfa_build (S:=ScriptedHeap) 29 one_byte alternation (scripted []) =
    Some (Some g, scripted []) /\
  (forall str i j, matches_at g str i j <-> matches str alternation_items i j).
Proof.
  assert (exists g, nfa_build (S:=ScriptedHeap) 29 one_byte alternation (scripted []) =
    Some (Some g, scripted [])) as (g & Hg) by (eexists; vm_compute; reflexivity).
  exists g. split; [exact Hg|].
  exact (regex_pattern_language 29 one_byte alternation alternation_items _ _ g
           alternation_assembled eq_refl Hg).
Defined.



(** C26: whatever the bytecode and the heap, a graph that [nfa_build] returns is
    well formed: its start and every pointer lie in the arena, it has exactly
    one ACCEPT state, and it has registers for every group and the match. *)
Theorem nfa_build_graph_ok {S : Type} {VH : VmHeap S} {RH : ReallocHeap S} (fuel : nat)
    (enclen : list Z -> Z) (reg : regex_t) (s s' : S) (g : NfaGraph) :
  nfa_build fuel enclen reg s = Some (Some g, s') ->
  graph_ok g = true /\ num_saves g = Z.to_nat (2 * (num_mem reg + 1)).
Proof.
  intros H.
  pose proof (nfa_build_spec enclen reg [] false false ltac:(done) ltac:(done) ltac:(done)
    fuel s ltac:(done) ltac:(done)) as Hs.
  rewrite H in Hs. by destruct Hs as (H1 & H2 & _).
Qed.

Lemma nfa_build_graph_ok_witness :
  exists g, nfa_build (S:=ScriptedHeap) 29 one_byte alternation (scripted []) =
    Some (Some g, scripted []) /\ graph_ok g = true /\ num_states g = 11%nat.
Proof.
  assert (exists g, nfa_build (S:=ScriptedHeap) 29 one_byte alternation (scripted []) =
    Some (Some g, scripted []) /\ num_states g = 11%nat) as (g & Hg & Hn)
    by (eexists; split; vm_compute; reflexivity).
  exists g. split; [exact Hg|]. split; [|exact Hn].
  exact (proj1 (nfa_build_graph_ok 29 one_byte alternation _ _ g Hg)).
Defined.

(** The whole pipeline on bytecode with a forward layout and finite repeat
    bounds, in an arena that does not grow: [nfa_build] is defined and returns,
    and when it returns a graph rather than NULL (the fallback to Onigmo),
    [exec_search] on that graph in either tier finds the leftmost longest match,
    or none when there is none.  The graph has no epsilon cycle, so the number
    of its states bounds the recursion of Tier 2. *)
Theorem regex_build_and_search {S : Type} {VH : VmHeap S} {RH : ReallocHeap S}
    (plenty : S -> Prop) {PH : PlentyHeap S plenty} (enclen : list Z -> Z) (reg : regex_t)
    (boundaries : list Z) (s : S) :
  layout_ok enclen reg boundaries = true -> 0 ∈ boundaries -> finite_ranges reg = true ->
  0 <= num_mem reg -> (forall n (s : S), fst (realloc n s) = REALLOC_NULL) ->
  exists r s', nfa_build (Datatypes.S (length (reg_p reg))) enclen reg s = Some (r, s') /\
  forall g, r = Some g ->
  forall tier str start caps s2, (start <= length str)%nat -> plenty s2 ->
    wp (exec_search (Datatypes.S (num_states g)) g tier str start caps s2)
       (fun r => search_spec g str start (fst (fst r))).
Proof.
  intros Hl H0 Hf Hm Hr.
  pose proof (nfa_build_spec enclen reg boundaries true true (fun _ => Hl) (fun _ => Hr)
    (fun _ => finite_ranges_spec reg Hf) (Datatypes.S (length (reg_p reg))) s
    (fun _ => or_introl H0) ltac:(intros _; lia)) as Hb.
  destruct (nfa_build _ enclen reg s) as [[r s']|]; [|done].
  exists r, s'. split; [done|]. intros g -> tier str start caps s2 Hs P.
  destruct Hb as (Hok & Hsaves & Hbound).
  eapply wp_mono; [apply (exec_search_loop_spec plenty g str _ tier); try done; try lia|].
  - unfold runnable. rewrite Hok. destruct tier; [done| |];
      rewrite Hbound by done; simpl; apply negb_true_iff, Nat.eqb_neq; lia.
  - by intros r [H _].
Qed.

Lemma regex_build_and_search_witness :
  exists g, nfa_build (S:=ScriptedHeap) 29 one_byte alternation (scripted []) =
    Some (Some g, scripted []) /\
  exec_search 12 g REG_TIER_1 [120; 98; 99; 100; 100] 0 None (scripted []) =
    Some ((EXEC_MATCH 1 5, None), scripted []) /\
  search_spec g [120; 98; 99; 100; 100] 0 (EXEC_MATCH 1 5).
Proof.
  eexists. split; [vm_compute; reflexivity|]. split; [vm_compute; reflexivity|].
  destruct (regex_build_and_search (S:=ScriptedHeap) (fun s => outcomes s = []) one_byte
    alternation alternation_boundaries (scripted []) eq_refl ltac:(by left) eq_refl
    ltac:(vm_compute; congruence) ltac:(done)) as (r & s' & Hb & H).
  vm_compute in Hb. injection Hb as <- _.
  exact (H _ eq_refl REG_TIER_1 [120; 98; 99; 100; 100] 0%nat None (scripted [])
           ltac:(simpl; lia) eq_refl).
Defined.

(** When growing the arena moves it, the failure path frees it twice: a
    literal of 64 bytes needs 65 states, [arena_alloc] sees the block move and
    returns NULL, the builder stops with its error flag, and [nfa_graph_free]
    then frees the block that [realloc] had already released.  With a [realloc]
    that refuses instead, the same pattern falls back cleanly. *)
Theorem moved_arena_freed_twice :
  (exists r b, build_sequence (S:=GrowthScript) one_byte long_literal 71 frag_empty 0 0
      (with_arena (initial_builder {| growth := [REALLOC_MOVED] |})
         [{| type := NFA_ACCEPT; out1 := None; out2 := None |}]) = Some (r, b) /\
    b_error b = true /\ b_live b = false /\ nfa_graph_free b = None) /\
  nfa_build 71 one_byte long_literal {| growth := [REALLOC_MOVED] |} = None /\
  nfa_build 71 one_byte long_literal {| growth := [] |} = Some (None, {| growth := [] |}).
Proof.
  split_and!; [|vm_compute; reflexivity|vm_compute; reflexivity].
  eexists _, _. split_and!; vm_compute; reflexivity.
Qed.

(** The dangling-output array can be overrun: with an arena that grows in
    place, 33 optional alternatives leave 66 dangling outputs for an array of
    64, a store past the end that only an assertion guards; 32 alternatives
    fit. *)
Theorem dangling_outputs_overrun :
  nfa_build 1000 one_byte (optional_pattern 32) {| growth := [REALLOC_SAME] |} = None /\
  nfa_build 1000 one_byte (optional_pattern 32) {| growth := [] |} = Some (None, {| growth := [] |}) /\
  exists g, nfa_build 1000 one_byte (optional_pattern 31) {| growth := [REALLOC_SAME] |} =
    Some (Some g, {| growth := [] |}) /\ num_states g = 96%nat.
Proof.
  split_and!; [vm_compute; reflexivity|vm_compute; reflexivity|].
  eexists. split; vm_compute; reflexivity.
Qed.

(** OP_FAIL is not a dead end: the fragment built for it starts at ACCEPT,
    so a path that runs into it matches; the program "a, then fail" accepts the
    subject "a". *)
Theorem fail_opcode_accepts :
  exists g, nfa_build 8 one_byte (pattern [ins OP_EXACT1 [97]; ins OP_FAIL []; ins OP_END []] 0 [])
      {| growth := [] |} = Some (Some g, {| growth := [] |}) /\ matches_at g [97] 0 1.
Proof.
  eexists. split; [vm_compute; reflexivity|].
  apply accept_byte with 0%nat 97; [done|by left|constructor].
Qed.

(** Null-check, option and POP instructions end the sequence they stand in
    instead of being skipped: the program "b, null check, a" builds the graph of
    "b" alone and matches the subject "b". *)
Theorem null_check_truncates :
  exists g, nfa_build 20 one_byte
      (pattern [ins OP_EXACT1 [98]; ins OP_NULL_CHECK_START [0; 0]; ins OP_EXACT1 [97];
                ins OP_END []] 0 []) {| growth := [] |} = Some (Some g, {| growth := [] |}) /\
    matches_at g [98] 0 1.
Proof.
  eexists. split; [vm_compute; reflexivity|].
  apply accept_byte with 0%nat 98; [done|by left|constructor].
Qed.

(** An empty alternative is dropped: a branch whose target is the end of the
    pattern gets a null pointer instead of a dangling output, so an optional
    atom that ends the pattern becomes mandatory; the pattern matches the
    subject "x" and the graph does not. *)
Theorem trailing_optional_lost :
  exists g, nfa_build 12 one_byte (compiled trailing_optional []) {| growth := [] |} =
    Some (Some g, {| growth := [] |}) /\
  matches [120] trailing_optional 0 1 /\ forall stop, ~ matches_at g [120] 0 stop.
Proof.
  eexists. split_and!.
  - vm_compute; reflexivity.
  - apply matches_single with 1%nat; [by split|]. apply matches_target. constructor.
  - eapply tier1_mismatch; vm_compute; reflexivity.
Qed.

(** A branch inside a counted repeat runs past the end of the body: both of
    its alternatives stop at the increment, but the sequence that contains the
    branch goes on behind it and copies what follows the repeat into the body.
    Three times [a] or [b], then [c], matches the subject "abac"; the graph does
    not match it, and matches "acbcacc" instead. *)
Theorem repeated_alternation_misbuilt :
  exists g, nfa_build 40 one_byte (compiled repeated_alternation [(3, 3)]) {| growth := [] |} =
    Some (Some g, {| growth := [] |}) /\
  matches [97; 98; 97; 99] repeated_alternation 0 4 /\
  (forall stop, ~ matches_at g [97; 98; 97; 99] 0 stop) /\
  exec_match 0 g REG_TIER_1 [97; 99; 98; 99; 97; 99; 99] 0 None (scripted []) =
    Some ((EXEC_MATCH 0 7, None), scripted []).
Proof.
  eexists. split_and!.
  - vm_compute; reflexivity.
  - apply matches_repeat with 3%nat 3%nat; [lia| |].
    + repeat first [apply repeats_none | eapply repeats_more];
        [apply matches_next | apply matches_target | apply matches_next];
        repeat first [apply matches_nil | apply matches_jump |
          eapply matches_single; [by split|]].
    + eapply matches_single; [by split|]. constructor.
  - eapply tier1_mismatch; vm_compute; reflexivity.
  - vm_compute; reflexivity.
Qed.
