(* ===== verification/GcHeap.v ===== *)
(** * GcHeap: the object heap the collector works on

    The heap of one VM as src/object.h and src/vm.h lay it out: objects with
    the header bits of the generational collector and a payload per kind, the
    native structures behind handles (fibers, threads), the frames and the
    other roots of [DiamondVm], the two object lists, the remembered set, the
    pools of swept blocks, and the byte counters.

    An object pointer is an address; [None] is [nullptr].  The intrusive lists
    ([DiamondObject.next]) are lists of addresses, head first.  A struct size
    is a parameter ([Layout]): no theorem depends on the padding of an ABI. *)

From S2P Require Import Prelude.
From Stdlib Require Import ZArith Lia Bool List SpecFloat.
From stdpp Require Import base numbers list gmap.

Local Open Scope Z_scope.
Local Open Scope c_scope.

Definition Addr := positive.
Definition FiberId := positive.

(** [DiamondValue] of src/value.h, with object pointers kept as pointers and a
    double as its IEEE value. *)
Inductive Value :=
  | VALUE_NIL
  | VALUE_BOOL (boolean : bool)
  | VALUE_INT (integer : Z)
  | VALUE_FLOAT (real : spec_float)
  | VALUE_OBJECT (object : option Addr)
  | VALUE_UNDEFINED
  | VALUE_CLASS (class_index : Z).

#[global] Instance spec_float_eq_dec : EqDecision spec_float.
Proof. solve_decision. Defined.

#[global] Instance Value_eq_dec : EqDecision Value.
Proof. solve_decision. Defined.

(** ** Frames and fibers *)

Inductive PendingKind :=
  | PENDING_NONE | PENDING_NORMAL | PENDING_RETURN | PENDING_EXCEPTION
  | PENDING_NONLOCAL | PENDING_JUMP.

#[global] Instance PendingKind_eq_dec : EqDecision PendingKind.
Proof. solve_decision. Defined.

Record PendingUnwind := { pending_kind : PendingKind; pending_value : Value }.

Inductive HandlerKind := HANDLER_RESCUE | HANDLER_ENSURE | HANDLER_ACTIVE_ENSURE.

#[global] Instance HandlerKind_eq_dec : EqDecision HandlerKind.
Proof. solve_decision. Defined.

Record UnwindHandler := {
  handler_kind : HandlerKind;
  saved_pending : PendingUnwind;
}.

(** One activation of [run_chunk]; [pending] and [handlers] may be null. *)
Record DiamondFrame := {
  registers : list Value;
  extra_roots : list Value;
  pending : option PendingUnwind;
  handlers : option (list UnwindHandler);
}.

(** [frame->previous] links give a chain, innermost frame first. *)
Definition FrameChain := list DiamondFrame.

Inductive FiberState :=
  | FIBER_NEW | FIBER_RUNNABLE | FIBER_RUNNING | FIBER_SUSPENDED
  | FIBER_COMPLETED | FIBER_FAILED.

#[global] Instance FiberState_eq_dec : EqDecision FiberState.
Proof. solve_decision. Defined.

Record DiamondFiber := {
  state : FiberState;
  result : Value;
  native_frames : FrameChain;
  resume_value : Value;
  entry_closure : option Addr;
  resumer_frames : FrameChain;
}.

(** The part of [DiamondThread] the collector reads. *)
Record DiamondThread := {
  joined : bool;
  internal_failure : bool;
  thread_result : Value;
}.

(** ** Objects *)

Record HashEntry := { key : Value; value : Value; hash : Z }.

(** [payload] of an object, by kind.  [count] of an Array or Hash is the
    length of its list; [capacity] the slots of its buffer; [cards] its dirty
    card table, null until the first index write after promotion.  A bucket
    holding [SIZE_MAX] is [None].  A native resource is an opaque identity. *)
Inductive Payload :=
  | STRING (chars : list Z)
  | SYMBOL (chars : list Z)
  | BIGNUM (negative : bool) (limbs : list Z)
  | TENSOR (rows cols : nat)
  | INSTANCE (type_parameter_count : nat) (fields : list Value)
  | ARRAY (values : list Value) (capacity : nat) (cards : option (list bool))
  | HASH (entries : list HashEntry) (capacity : nat)
      (buckets : list (option nat)) (cards : option (list bool))
  | CLOSURE (captures : list Value) (type_binding_count : nat)
  | CELL (contents : Value)
  | FIBER (fiber : option FiberId)
  | THREAD (thread : option DiamondThread)
  | PROCESS_RESULT (stdout_value stderr_value : Value)
  | PROCESS_HANDLE (pid : Z) (reaped : bool)
      (stdout_stream stderr_stream stdin_stream : Value)
  | PROCESS_STREAM (fd : Z)
  | FILE (stream write_stream : option Z)
  | LISTENER (fd : Z) (tls_context : option Z)
  | SOCKET (fd : Z)
  | UDP_SOCKET (fd : Z)
  | TLS_SOCKET (ssl : option Z) (handshake_pending : bool) (fd : Z)
      (received_session : option Z)
  | REGEXP (handle : Z)
  | PROGRAM_BUILDER (source_bundle : option Z) (program : Z)
  | CHANNEL (channel : Z)
  | SUPERVISOR (supervisor : Z)
  | SQLITE3 (db : option Z)
  | SQLITE3_STATEMENT (stmt : option Z)
  | POSTGRES (conn : option Z)
  | MYSQL (conn : option Z)
  | TIME (epoch : spec_float).

(** [DiamondObject]: the header bits and the payload behind them. *)
Record Object := {
  marked : bool;
  old : bool;
  remembered : bool;
  frozen : bool;
  payload : Payload;
}.

Definition with_marked (b : bool) (o : Object) : Object :=
  {| marked := b; old := old o; remembered := remembered o;
     frozen := frozen o; payload := payload o |}.

Definition with_old (b : bool) (o : Object) : Object :=
  {| marked := marked o; old := b; remembered := remembered o;
     frozen := frozen o; payload := payload o |}.

Definition with_remembered (b : bool) (o : Object) : Object :=
  {| marked := marked o; old := old o; remembered := b;
     frozen := frozen o; payload := payload o |}.

Definition with_payload (p : Payload) (o : Object) : Object :=
  {| marked := marked o; old := old o; remembered := remembered o;
     frozen := frozen o; payload := p |}.

Notation Heap := (gmap Addr Object).

(** ** Children

    The values an object holds, in the order the collector visits them. *)

Definition frame_values (f : DiamondFrame) : list Value :=
  registers f ++ extra_roots f ++
  match pending f with
  | Some p => if decide (pending_kind p = PENDING_NONE) then [] else [pending_value p]
  | None => []
  end ++
  match handlers f with
  | Some hs =>
      (fun h => pending_value (saved_pending h)) <$>
        filter (fun h => handler_kind h = HANDLER_ACTIVE_ENSURE) hs
  | None => []
  end.

Definition chain_values (fs : FrameChain) : list Value := fs ≫= frame_values.

Definition fiber_values (f : DiamondFiber) : list Value :=
  (if decide (state f = FIBER_RUNNING) then [] else chain_values (native_frames f))
  ++ [result f; resume_value f]
  ++ match entry_closure f with Some c => [VALUE_OBJECT (Some c)] | None => [] end.

Definition entry_values (e : HashEntry) : list Value := [key e; value e].

Definition payload_values (fibers : gmap FiberId DiamondFiber) (p : Payload)
    : list Value :=
  match p with
  | INSTANCE _ fields => fields
  | ARRAY values _ _ => values
  | HASH entries _ _ _ => entries ≫= entry_values
  | CLOSURE captures _ => captures
  | CELL v => [v]
  | FIBER (Some f) => from_option fiber_values [] (fibers !! f)
  | THREAD (Some t) =>
      if joined t && negb (internal_failure t) then [thread_result t] else []
  | PROCESS_RESULT out err => [out; err]
  | PROCESS_HANDLE _ _ out err inp => [out; err; inp]
  | _ => []
  end.

Definition pointer (v : Value) : option Addr :=
  match v with VALUE_OBJECT o => o | _ => None end.

(** The objects a list of values points to. *)
Definition pointers (vs : list Value) : list Addr := omap pointer vs.

Definition children (fibers : gmap FiberId DiamondFiber) (o : Object) : list Addr :=
  pointers (payload_values fibers (payload o)).

(** ** The virtual machine *)

Record Roots := {
  has_exception : bool;
  exception : Value;
  nonlocal_value : Value;
  adopted_programs : list (list Value);     (* bound values of each program *)
  argv_value : Value;
  env_value : Value;
  gc_protected : list Value;
  namespace_constants : list (bool * Value); (* initialized?, value *)
  class_variables : option (list Value);
  trapped_signal_handlers : list Value;
  frames : FrameChain;
  running_fibers : list FiberId;             (* innermost first, by resumer_fiber *)
  root_queue : option (list FiberId);
  vm_extra_roots : list Value;
}.

(** Calls the collector makes to release what an unreached object owns. *)
Inductive Release :=
  | Fclose (stream : Z) | CloseFd (fd : Z) | SslCtxFree (context : Z)
  | SslShutdown (ssl : Z) | SslFree (ssl : Z) | SslSessionFree (session : Z)
  | FiberFree (fiber : option FiberId) | ThreadFree (thread : option DiamondThread)
  | ChannelRelease (channel : Z) | SupervisorRelease (supervisor : Z)
  | RegexFree (handle : Z) | SourceBundleFree (bundle : Z) | ProgramFree (program : Z)
  | SqliteClose (db : Z) | SqliteFinalize (stmt : Z) | PqFinish (conn : Z)
  | MysqlClose (conn : Z) | WaitNoHang (pid : Z).

(** The free lists of swept blocks: [string_pool[i]], [instance_pool[n]] and
    [array_pool]. *)
Inductive Pool :=
  | STRING_POOL (index : nat)
  | INSTANCE_POOL (field_count : nat)
  | ARRAY_POOL.

#[global] Instance Pool_eq_dec : EqDecision Pool.
Proof. solve_decision. Defined.

#[global] Instance Pool_countable : Countable Pool.
Proof.
  refine (inj_countable'
    (fun p => match p with
     | STRING_POOL i => inl (inl i) | INSTANCE_POOL n => inl (inr n) | ARRAY_POOL => inr tt
     end)
    (fun s => match s with
     | inl (inl i) => STRING_POOL i | inl (inr n) => INSTANCE_POOL n | inr _ => ARRAY_POOL
     end) _).
  by intros [].
Defined.

Record Vm := {
  objects : Heap;
  fibers : gmap FiberId DiamondFiber;
  roots : Roots;
  young_objects : list Addr;
  old_objects : list Addr;
  remembered_set : list Addr;
  remembered_capacity : nat;
  bytes_allocated : Z;
  next_gc : Z;
  bytes_allocated_at_last_minor_gc : Z;
  minor_gc_threshold_bytes : Z;
  pool_bytes : Z;
  pools : gmap Pool (list Addr);
  released : list Release;                   (* latest first *)
}.

(** ** Struct sizes *)

Inductive Struct :=
  | DiamondValue_t | DiamondHashEntry_t | DiamondTypeBinding_t | size_t | uint32_t
  | double_t | DiamondString_t | DiamondSymbol_t | DiamondBignum_t | DiamondTensor_t
  | DiamondInstance_t | DiamondArray_t | DiamondHash_t | DiamondClosure_t | DiamondCell_t
  | DiamondFiberHandle_t | DiamondThreadHandle_t | DiamondProcessResult_t
  | DiamondProcessHandle_t | DiamondProcessStream_t | DiamondFileHandle_t
  | DiamondListenerHandle_t | DiamondSocketHandle_t | DiamondUdpSocketHandle_t
  | DiamondTlsSocketHandle_t | DiamondRegexp_t | DiamondProgramBuilder_t
  | DiamondProgram_t | DiamondChannelHandle_t | DiamondSupervisorHandle_t
  | DiamondSqlite3Handle_t | DiamondSqlite3StatementHandle_t | DiamondPostgresHandle_t
  | DiamondMysqlHandle_t | DiamondTime_t | DiamondFunction_t | pointer_t.

(** The ABI, and whether the build pools swept blocks (not under ASan). *)
Class Layout := {
  sizeof : Struct -> Z;
  sizeof_positive : forall t, 0 < sizeof t;
  sizeof_small : forall t, sizeof t < two_32;
  pooling : bool;
}.

(** The bytes an object counts for in [bytes_allocated]. *)
Definition object_size `{Layout} (p : Payload) : Z :=
  match p with
  | STRING chars => sizeof DiamondString_t + Z.of_nat (length chars) + 1
  | SYMBOL chars => sizeof DiamondSymbol_t + Z.of_nat (length chars) + 1
  | BIGNUM _ limbs => sizeof DiamondBignum_t + Z.of_nat (length limbs) * sizeof uint32_t
  | TENSOR rows cols =>
      sizeof DiamondTensor_t + Z.of_nat rows * Z.of_nat cols * sizeof double_t
  | INSTANCE type_parameter_count fields =>
      sizeof DiamondInstance_t + Z.of_nat (length fields) * sizeof DiamondValue_t +
      Z.of_nat type_parameter_count * sizeof DiamondTypeBinding_t
  | ARRAY _ capacity _ =>
      sizeof DiamondArray_t + Z.of_nat capacity * sizeof DiamondValue_t
  | HASH _ capacity buckets _ =>
      sizeof DiamondHash_t + Z.of_nat capacity * sizeof DiamondHashEntry_t +
      Z.of_nat (length buckets) * sizeof size_t
  | CLOSURE captures type_binding_count =>
      sizeof DiamondClosure_t + Z.of_nat (length captures) * sizeof DiamondValue_t +
      Z.of_nat type_binding_count * sizeof DiamondTypeBinding_t
  | CELL _ => sizeof DiamondCell_t
  | FIBER _ => sizeof DiamondFiberHandle_t
  | THREAD _ => sizeof DiamondThreadHandle_t
  | PROCESS_RESULT _ _ => sizeof DiamondProcessResult_t
  | PROCESS_HANDLE _ _ _ _ _ => sizeof DiamondProcessHandle_t
  | PROCESS_STREAM _ => sizeof DiamondProcessStream_t
  | FILE _ _ => sizeof DiamondFileHandle_t
  | LISTENER _ _ => sizeof DiamondListenerHandle_t
  | SOCKET _ => sizeof DiamondSocketHandle_t
  | UDP_SOCKET _ => sizeof DiamondUdpSocketHandle_t
  | TLS_SOCKET _ _ _ _ => sizeof DiamondTlsSocketHandle_t
  | REGEXP _ => sizeof DiamondRegexp_t
  | PROGRAM_BUILDER _ _ => sizeof DiamondProgramBuilder_t + sizeof DiamondProgram_t
  | CHANNEL _ => sizeof DiamondChannelHandle_t
  | SUPERVISOR _ => sizeof DiamondSupervisorHandle_t
  | SQLITE3 _ => sizeof DiamondSqlite3Handle_t
  | SQLITE3_STATEMENT _ => sizeof DiamondSqlite3StatementHandle_t
  | POSTGRES _ => sizeof DiamondPostgresHandle_t
  | MYSQL _ => sizeof DiamondMysqlHandle_t
  | TIME _ => sizeof DiamondTime_t
  end.

Lemma object_size_positive `{Layout} p : 0 < object_size p.
Proof.
  destruct p; simpl; repeat match goal with
  | |- context [sizeof ?t] =>
      lazymatch goal with
      | _ : 0 < sizeof t |- _ => fail
      | _ => pose proof (sizeof_positive t)
      end
  end; nia.
Qed.

(** The pool a swept object of this payload goes to, if any, and the bytes of
    its block. *)
Definition INSTANCE_POOL_FIELDS : nat := 8.
Definition STRING_POOL_CLASSES : nat := 8.

Definition instance_pool_index `{Layout} (field_count : nat) (generic : bool)
    : option nat :=
  if negb pooling || generic || (INSTANCE_POOL_FIELDS <? field_count)%nat then None
  else Some field_count.

Definition string_pool_index `{Layout} (length : nat) : option nat :=
  if negb pooling || (STRING_POOL_CLASSES * 16 <? length)%nat then None
  else
    let units := Z.to_nat ((sizeof DiamondString_t + Z.of_nat length + 1 + 15) / 16) in
    if (units <=? STRING_POOL_CLASSES)%nat then Some (units - 1)%nat else None.

Definition block_size `{Layout} (pool : Pool) : Z :=
  match pool with
  | STRING_POOL index => (Z.of_nat index + 1) * 16
  | INSTANCE_POOL field_count =>
      sizeof DiamondInstance_t + Z.of_nat field_count * sizeof DiamondValue_t
  | ARRAY_POOL => sizeof DiamondArray_t
  end.

Definition object_pool `{Layout} (p : Payload) : option Pool :=
  match p with
  | STRING chars => STRING_POOL <$> string_pool_index (length chars)
  | INSTANCE type_parameter_count fields =>
      INSTANCE_POOL <$>
        instance_pool_index (length fields) (negb (type_parameter_count =? 0)%nat)
  | ARRAY _ _ _ => if pooling then Some ARRAY_POOL else None
  | _ => None
  end.
