(* ===== verification/HashTable.v ===== *)
(** * HashTable: the Hash of src/vm_values.c

    A Hash keeps its entries in insertion order and finds them through a
    separate table of bucket indices with linear probing, a power of two long
    and never more than three quarters full.  There are no tombstones: deletion
    closes the gap in the entries and rebuilds the table.

    The operations are written against the key interface [HashKey]: what
    [hash_value] and [values_equal] promise each other on the keys in use. *)

From S2P Require Import Prelude GcHeap.
From Stdlib Require Import ZArith Lia Bool List.
From stdpp Require Import base numbers list relations.

Local Open Scope Z_scope.
Local Open Scope c_scope.

(** [DiamondHash] without its header, constraints and card table.  [count] is
    the length of [entries], [bucket_capacity] that of [buckets]; a bucket that
    holds [SIZE_MAX] is [None]. *)
Record DiamondHash := {
  entries : list HashEntry;
  hash_capacity : nat;
  buckets : list (option nat);
}.

Definition empty_hash : DiamondHash :=
  {| entries := []; hash_capacity := 0; buckets := [] |}.

Definition with_buckets (bs : list (option nat)) (h : DiamondHash) : DiamondHash :=
  {| entries := entries h; hash_capacity := hash_capacity h; buckets := bs |}.

Definition with_entries (es : list HashEntry) (h : DiamondHash) : DiamondHash :=
  {| entries := es; hash_capacity := hash_capacity h; buckets := buckets h |}.

Definition with_value (v : Value) (e : HashEntry) : HashEntry :=
  {| key := key e; value := v; hash := hash e |}.

(** [h & (capacity-1)] *)
Definition bucket_of (h : Z) (capacity : nat) : nat :=
  Z.to_nat (Z.land h (Z.of_nat capacity - 1)).

Definition next_bucket (slot capacity : nat) : nat := bucket_of (Z.of_nat slot + 1) capacity.

(** [while(buckets[slot]!=SIZE_MAX)slot=(slot+1)&(capacity-1);] *)
Fixpoint free_bucket {A} (fuel : nat) (bs : list (option A)) (slot : nat) : option nat :=
  match fuel with
  | O => None
  | S fuel =>
      let? b := array_read bs slot in
      match b with
      | None => Some slot
      | Some _ => free_bucket fuel bs (next_bucket slot (length bs))
      end
  end.

(** Puts entry [index] with hash [h] in the table. *)
Definition bucket_insert (h : Z) (index : nat) (bs : list (option nat))
    : option (list (option nat)) :=
  let? slot := free_bucket (length bs) bs (bucket_of h (length bs)) in
  array_write bs slot (Some index).

(** The entries from [index] on, put in the table. *)
Fixpoint fill_buckets (es : list HashEntry) (index : nat) (bs : list (option nat))
    : option (list (option nat)) :=
  match es with
  | [] => Some bs
  | e :: es =>
      let? bs := bucket_insert (hash e) index bs in
      fill_buckets es (S index) bs
  end.

Definition hash_rehash (malloc_ok : bool) (new_capacity : nat) (h : DiamondHash)
    : option (bool * DiamondHash) :=
  if negb malloc_ok then Some (false, h)
  else
    let? bs := fill_buckets (entries h) 0 (replicate new_capacity None) in
    Some (true, with_buckets bs h).

(** What the table asks of its keys. *)
Class KeyOps := {
  hash_value : Value -> Z;
  values_equal : Value -> Value -> bool;
}.

Section Operations.
Context `{KeyOps}.

Definition entry_matches (key_hash : Z) (k : Value) (e : HashEntry) : bool :=
  (hash e =? key_hash) && values_equal (key e) k.

(** The probe loop of [hash_find], [probes] rounds of it. *)
Fixpoint hash_probe (matches : HashEntry -> bool) (h : DiamondHash) (probes slot : nat)
    : option (option nat) :=
  match probes with
  | O => Some None
  | S probes =>
      let? b := array_read (buckets h) slot in
      match b with
      | None => Some None
      | Some index =>
          let? e := array_read (entries h) index in
          if matches e then Some (Some index)
          else hash_probe matches h probes (next_bucket slot (length (buckets h)))
      end
  end.

(** [hash_find]; the inner [None] is the result -1. *)
Definition hash_find (h : DiamondHash) (k : Value) : option (option nat) :=
  let bucket_capacity := length (buckets h) in
  if (bucket_capacity =? 0)%nat then Some None
  else
    let key_hash := hash_value k in
    hash_probe (entry_matches key_hash k) h bucket_capacity
      (bucket_of key_hash bucket_capacity).

(** How [hash_set] ended: the entry to report to the write barrier, or [false]. *)
Inductive SetOutcome := Stored (index : nat) | SetFailed.

(** [if(hash->count==hash->capacity)]: room for one more entry. *)
Definition grow_entries (realloc_ok : bool) (h : DiamondHash) : bool * DiamondHash :=
  if (length (entries h) =? hash_capacity h)%nat then
    if realloc_ok then
      (true, {| entries := entries h;
                hash_capacity :=
                  (if hash_capacity h <? 8 then 8 else hash_capacity h * 2)%nat;
                buckets := buckets h |})
    else (false, h)
  else (true, h).

(** The load factor is kept below 0.75. *)
Definition grow_buckets (malloc_ok : bool) (h : DiamondHash) : option (bool * DiamondHash) :=
  let bucket_capacity := length (buckets h) in
  if (bucket_capacity =? 0)%nat
     || (bucket_capacity * 3 <=? (length (entries h) + 1) * 4)%nat
  then
    hash_rehash malloc_ok
      (if bucket_capacity =? 0 then 8 else bucket_capacity * 2)%nat h
  else Some (true, h).

Definition hash_set (realloc_ok malloc_ok : bool) (k v : Value) (h : DiamondHash)
    : option (SetOutcome * DiamondHash) :=
  let? existing := hash_find h k in
  match existing with
  | Some index =>
      Some (Stored index, with_entries (alter (with_value v) index (entries h)) h)
  | None =>
      match grow_entries realloc_ok h with
      | (false, h) => Some (SetFailed, h)
      | (true, h) =>
          let? (ok, h) := grow_buckets malloc_ok h in
          if negb ok then Some (SetFailed, h)
          else
            let key_hash := hash_value k in
            let new_index := length (entries h) in
            let h := with_entries
              (entries h ++ [{| key := k; value := v; hash := key_hash |}]) h in
            let? bs := bucket_insert key_hash new_index (buckets h) in
            Some (Stored new_index, with_buckets bs h)
      end
  end.

(** How [hash_delete] ended: the key is absent; its entry was removed, its
    value and index reported; or the rehash failed after the removal. *)
Inductive DeleteOutcome :=
  | Absent
  | Removed (v : Value) (index : nat)
  | DeleteFailed (v : Value).

Definition hash_delete (malloc_ok : bool) (k : Value) (h : DiamondHash)
    : option (DeleteOutcome * DiamondHash) :=
  let? existing := hash_find h k in
  match existing with
  | None => Some (Absent, h)
  | Some index =>
      let? e := array_read (entries h) index in
      let h := with_entries (delete index (entries h)) h in
      let? (ok, h) := hash_rehash malloc_ok (length (buckets h)) h in
      Some (if ok : bool then Removed (value e) index else DeleteFailed (value e), h)
  end.

(** [hash_clone_contents] into a fresh hash. *)
Definition hash_clone_contents (entries_ok buckets_ok : bool) (source : DiamondHash)
    : bool * DiamondHash :=
  if (length (entries source) =? 0)%nat then (true, empty_hash)
  else if negb entries_ok || negb buckets_ok then (false, empty_hash)
  else
    (true, {| entries := entries source; hash_capacity := length (entries source);
              buckets := buckets source |}).
End Operations.
