(* ===== verification/HashTableOk.v ===== *)
(** * HashTableOk: the table refines an ordered map

    The bucket table is a correct index of the entries ([indexed]): every entry
    is found by probing from its home bucket without meeting a gap.  With the
    load factor below three quarters the probe loops end, and every operation
    acts on the entries as the same operation of an insertion-ordered
    association list does. *)

From S2P Require Import Prelude GcHeap HashTable.
From Stdlib Require Import ZArith Lia Bool List.
From stdpp Require Import base numbers list relations.

Local Open Scope Z_scope.
Local Open Scope c_scope.

(** ** Bucket arithmetic *)

(** The bucket [d] steps after the home bucket of hash [h]. *)
Definition step_bucket (capacity slot d : nat) : nat := ((slot + d) mod capacity)%nat.

Lemma bucket_of_mod h n : 0 <= h -> bucket_of h (2 ^ n) = Z.to_nat (h mod 2 ^ Z.of_nat n).
Proof.
  intros Hh. unfold bucket_of. f_equal.
  rewrite <-Z.land_ones by lia. f_equal. rewrite Z.ones_equiv.
  rewrite Nat2Z.inj_pow. simpl. lia.
Qed.

Lemma pow2_pos n : (0 < 2 ^ n)%nat.
Proof. apply Nat.neq_0_lt_0, Nat.pow_nonzero. lia. Qed.

Lemma bucket_of_lt h n : 0 <= h -> (bucket_of h (2 ^ n) < 2 ^ n)%nat.
Proof.
  intros Hh. rewrite bucket_of_mod by done.
  pose proof (Z.mod_pos_bound h (2 ^ Z.of_nat n)).
  apply Nat2Z.inj_lt. rewrite Z2Nat.id by lia. rewrite Nat2Z.inj_pow. simpl. lia.
Qed.

Lemma next_bucket_mod slot n :
  next_bucket slot (2 ^ n) = step_bucket (2 ^ n) slot 1.
Proof.
  unfold next_bucket, step_bucket. rewrite bucket_of_mod by lia.
  apply Nat2Z.inj. rewrite Z2Nat.id by (apply Z.mod_pos_bound; lia).
  rewrite Nat2Z.inj_mod, Nat2Z.inj_pow, Nat2Z.inj_add. done.
Qed.

Lemma step_bucket_lt capacity slot d :
  (0 < capacity)%nat -> (step_bucket capacity slot d < capacity)%nat.
Proof. intros. apply Nat.mod_upper_bound. lia. Qed.

Lemma step_bucket_0 capacity slot : (slot < capacity)%nat -> step_bucket capacity slot 0 = slot.
Proof. intros. unfold step_bucket. rewrite Nat.add_0_r. by apply Nat.mod_small. Qed.

Lemma step_bucket_S capacity slot d :
  step_bucket capacity (step_bucket capacity slot 1) d = step_bucket capacity slot (S d).
Proof.
  destruct (decide (capacity = 0)%nat) as [->|Hc].
  - unfold step_bucket. simpl. lia.
  - unfold step_bucket. rewrite Nat.Div0.add_mod_idemp_l. f_equal. lia.
Qed.

(** Every bucket is some number of steps away. *)
Lemma step_bucket_onto capacity slot s :
  (slot < capacity)%nat -> (s < capacity)%nat ->
  exists d, (d < capacity)%nat /\ step_bucket capacity slot d = s.
Proof.
  intros Hslot Hs. unfold step_bucket. destruct (decide (slot <= s)%nat) as [H|H].
  - exists (s - slot)%nat. split; [lia|].
    replace (slot + (s - slot))%nat with s by lia. by apply Nat.mod_small.
  - exists (capacity - slot + s)%nat. split; [lia|].
    replace (slot + (capacity - slot + s))%nat with (s + 1 * capacity)%nat by lia.
    rewrite Nat.Div0.mod_add. by apply Nat.mod_small.
Qed.

(** ** The probe for a free bucket *)

(** Bucket [s] holds an entry. *)
Definition occupied {A} (bs : list (option A)) (s : nat) : Prop :=
  exists i, bs !! s = Some (Some i).

Lemma free_bucket_found {A} n (bs : list (option A)) slot d fuel :
  length bs = (2 ^ n)%nat -> (slot < length bs)%nat -> (d < fuel)%nat ->
  bs !! step_bucket (length bs) slot d = Some None ->
  (forall d', (d' < d)%nat -> occupied bs (step_bucket (length bs) slot d')) ->
  free_bucket fuel bs slot = Some (step_bucket (length bs) slot d).
Proof.
  intros Hn. revert slot d. induction fuel as [|fuel IH]; intros slot d Hs Hd Hf Ho; [lia|].
  cbn [free_bucket]. unfold array_read. destruct d as [|d].
  - rewrite step_bucket_0 in * by done. by rewrite Hf.
  - destruct (Ho 0%nat) as [i Hi]; [lia|]. rewrite step_bucket_0 in Hi by done.
    rewrite Hi. rewrite Hn at 1. rewrite next_bucket_mod, <-Hn.
    rewrite (IH _ d).
    + by rewrite step_bucket_S.
    + apply step_bucket_lt. lia.
    + lia.
    + by rewrite step_bucket_S.
    + intros d' Hd'. rewrite step_bucket_S. apply Ho. lia.
Qed.

(** The first free bucket from [slot], when there is one. *)
Lemma first_free `{EqDecision A} n (bs : list (option A)) slot s :
  length bs = (2 ^ n)%nat -> (slot < length bs)%nat -> bs !! s = Some None ->
  exists d, (d < length bs)%nat /\ bs !! step_bucket (length bs) slot d = Some None /\
    forall d', (d' < d)%nat -> occupied bs (step_bucket (length bs) slot d').
Proof.
  intros Hn Hslot Hs.
  destruct (step_bucket_onto (length bs) slot s) as (d & Hd & Es); [done| |].
  { by eapply lookup_lt_Some. }
  rewrite <-Es in Hs. clear Es s. revert Hs.
  induction d as [d IH] using lt_wf_ind. intros Hs.
  destruct (decide (Exists (fun d' => bs !! step_bucket (length bs) slot d' = Some None)
    (seq 0 d))) as [He|He].
  - apply Exists_exists in He as (d' & Hd' & Hf). apply elem_of_seq in Hd'.
    apply (IH d'); [lia|lia|done].
  - exists d. split_and!; [done|done|]. intros d' Hd'.
    destruct (lookup_lt_is_Some_2 bs (step_bucket (length bs) slot d')) as [[i|] Hi].
    + apply step_bucket_lt. lia.
    + by exists i.
    + exfalso. apply He, Exists_exists. exists d'. split; [|done]. apply elem_of_seq. lia.
Qed.

(** ** Linear probing

    A table of keys, each reached from its home bucket over occupied buckets.
    Shared by the bucket index of a Hash and by the pairs [values_equal] has
    met. *)
Section Placement.
Context `{EqDecision K}.

Record placed (home : K -> nat) (keys : list K) (bs : list (option K)) : Prop := {
  pl_in : forall s k, bs !! s = Some (Some k) -> k ∈ keys;
  pl_once : forall s s' k, bs !! s = Some (Some k) -> bs !! s' = Some (Some k) -> s = s';
  pl_path : forall k, k ∈ keys ->
    exists d, (d < length bs)%nat /\
      bs !! step_bucket (length bs) (home k) d = Some (Some k) /\
      forall d', (d' < d)%nat -> occupied bs (step_bucket (length bs) (home k) d');
}.

Lemma placed_empty home n : placed home [] (replicate n None).
Proof.
  split.
  - intros s i Hs. by apply lookup_replicate in Hs as [? _].
  - intros s s' i Hs. by apply lookup_replicate in Hs as [? _].
  - intros i Hi. by apply elem_of_nil in Hi.
Qed.

Lemma placed_ext home home' keys bs :
  (forall k, k ∈ keys -> home' k = home k) -> placed home keys bs -> placed home' keys bs.
Proof.
  intros He [P1 P2 P3]. split; [done|done|]. intros k Hk. rewrite He by done. by apply P3.
Qed.

(** A table with more buckets than keys has a free one. *)
Lemma placed_free home keys bs :
  placed home keys bs -> (length keys < length bs)%nat -> exists s, bs !! s = Some None.
Proof.
  intros P Hlt. destruct (decide (None ∈ bs)) as [Hin|Hno].
  { by apply list_elem_of_lookup in Hin. }
  exfalso.
  assert (E : exists l, bs = Some <$> l).
  { clear P Hlt. induction bs as [|[i|] bs IH].
    - by exists [].
    - destruct IH as [l ->]; [|by exists (i :: l)]. intros H. apply Hno. by constructor.
    - exfalso. apply Hno. constructor. }
  destruct E as [l ->]. rewrite length_fmap in Hlt.
  assert (Hl : forall s i, l !! s = Some i -> (Some <$> l) !! s = Some (Some i)).
  { intros s i Hs. by rewrite list_lookup_fmap, Hs. }
  assert (Hnd : NoDup l).
  { apply NoDup_alt. intros s s' i Hs Hs'. eapply (pl_once _ _ _ P); by apply Hl. }
  assert (Hsub : l ⊆+ keys).
  { apply NoDup_submseteq; [done|]. intros k Hk.
    apply list_elem_of_lookup in Hk as [s Hs]. by eapply (pl_in _ _ _ P), Hl. }
  apply submseteq_length in Hsub. lia.
Qed.

Lemma occupied_insert (bs : list (option K)) s i s' :
  occupied bs s' -> occupied (<[s := Some i]> bs) s'.
Proof using Type.
  intros [j Hj]. pose proof (lookup_lt_Some _ _ _ Hj).
  destruct (decide (s = s')) as [<-|Hne].
  - exists i. by apply list_lookup_insert_eq.
  - exists j. by rewrite list_lookup_insert_ne.
Qed.

(** A new key in the first free bucket from its home. *)
Lemma placed_at home keys bs k d :
  placed home keys bs -> k ∉ keys -> (d < length bs)%nat ->
  bs !! step_bucket (length bs) (home k) d = Some None ->
  (forall d', (d' < d)%nat -> occupied bs (step_bucket (length bs) (home k) d')) ->
  placed home (keys ++ [k]) (<[step_bucket (length bs) (home k) d := Some k]> bs).
Proof.
  intros P Hnew Hd Hf Ho. set (t := step_bucket (length bs) (home k) d) in *.
  assert (Ht : (t < length bs)%nat) by (by eapply lookup_lt_Some).
  assert (Hcase : forall s j, <[t := Some k]> bs !! s = Some (Some j) ->
    (s = t /\ j = k) \/ (s <> t /\ bs !! s = Some (Some j))).
  { intros s j Hj. destruct (decide (t = s)) as [<-|Hne].
    - rewrite list_lookup_insert_eq in Hj by done. injection Hj as <-. by left.
    - rewrite list_lookup_insert_ne in Hj by done. right. by split. }
  split; rewrite ?length_insert.
  - intros s j [[_ ->]|[_ Hj]]%Hcase; rewrite elem_of_app; [right; by constructor|left].
    by eapply (pl_in _ _ _ P).
  - intros s s' j [[-> ->]|[_ Hj]]%Hcase [[-> E]|[_ Hj']]%Hcase; try done.
    + by apply (pl_in _ _ _ P) in Hj'.
    + subst. by apply (pl_in _ _ _ P) in Hj.
    + by eapply (pl_once _ _ _ P).
  - intros j [Hj|Hj%list_elem_of_singleton]%elem_of_app.
    + destruct (pl_path _ _ _ P j Hj) as (e & He & Hfe & Hoe). exists e.
      split_and!; [done| |].
      * rewrite list_lookup_insert_ne; [done|]. intros E. rewrite <-E, Hf in Hfe. done.
      * intros d' Hd'. by apply occupied_insert, Hoe.
    + subst j. exists d. split_and!; [done|by apply list_lookup_insert_eq|].
      intros d' Hd'. by apply occupied_insert, Ho.
Qed.

(** The search for a free bucket places the key. *)
Lemma placed_insert home keys bs n k :
  length bs = (2 ^ n)%nat -> placed home keys bs -> (length keys < length bs)%nat ->
  k ∉ keys -> (home k < length bs)%nat ->
  exists s, free_bucket (length bs) bs (home k) = Some s /\ (s < length bs)%nat /\
    placed home (keys ++ [k]) (<[s := Some k]> bs).
Proof.
  intros Hn P Hlt Hnew Hb. destruct (placed_free home keys bs P Hlt) as [s Hs].
  destruct (first_free n bs _ s Hn Hb Hs) as (d & Hd & Hf & Ho).
  exists (step_bucket (length bs) (home k) d). split_and!.
  - by apply (free_bucket_found n).
  - by eapply lookup_lt_Some.
  - by apply placed_at.
Qed.
End Placement.

(** ** A correct index *)

Definition home_of (hashes : list Z) (capacity i : nat) : nat :=
  bucket_of (default 0 (hashes !! i)) capacity.

(** [bs] indexes entries with the given hashes. *)
Definition indexed (hashes : list Z) (bs : list (option nat)) : Prop :=
  placed (home_of hashes (length bs)) (seq 0 (length hashes)) bs.

Lemma ix_in hashes bs : indexed hashes bs ->
  forall s i, bs !! s = Some (Some i) -> (i < length hashes)%nat.
Proof. intros P s i Hs. apply (pl_in _ _ _ P) in Hs. apply elem_of_seq in Hs. lia. Qed.

Lemma ix_path hashes bs : indexed hashes bs -> forall i h, hashes !! i = Some h ->
  exists d, (d < length bs)%nat /\
    bs !! step_bucket (length bs) (bucket_of h (length bs)) d = Some (Some i) /\
    forall d', (d' < d)%nat ->
      occupied bs (step_bucket (length bs) (bucket_of h (length bs)) d').
Proof.
  intros P i h Hi. destruct (pl_path _ _ _ P i) as (d & Hd).
  { apply elem_of_seq. apply lookup_lt_Some in Hi. lia. }
  exists d. unfold home_of in Hd. by rewrite Hi in Hd.
Qed.

Lemma indexed_empty n : indexed [] (replicate n None).
Proof. apply placed_empty. Qed.

Lemma bucket_insert_indexed hashes bs n h :
  length bs = (2 ^ n)%nat -> indexed hashes bs -> (length hashes < length bs)%nat -> 0 <= h ->
  exists bs', bucket_insert h (length hashes) bs = Some bs' /\
    length bs' = length bs /\ indexed (hashes ++ [h]) bs'.
Proof.
  intros Hn I Hlt Hh.
  assert (Eh : home_of (hashes ++ [h]) (length bs) (length hashes) = bucket_of h (length bs)).
  { unfold home_of. by rewrite lookup_app_r, Nat.sub_diag by done. }
  destruct (placed_insert (home_of (hashes ++ [h]) (length bs)) (seq 0 (length hashes)) bs n
    (length hashes)) as (s & Ef & Hs & P); [done| |by rewrite length_seq| | |].
  - eapply placed_ext; [|exact I]. intros i Hi%elem_of_seq. unfold home_of.
    rewrite lookup_app_l by lia. done.
  - rewrite elem_of_seq. lia.
  - rewrite Eh, Hn. by apply bucket_of_lt.
  - rewrite Eh in Ef. exists (<[s := Some (length hashes)]> bs).
    unfold bucket_insert. rewrite Ef. split_and!.
    + by apply array_write_in.
    + by rewrite length_insert.
    + unfold indexed. rewrite length_insert, length_app. simpl. by rewrite seq_app.
Qed.

Lemma fill_buckets_indexed n (es : list HashEntry) hashes bs :
  length bs = (2 ^ n)%nat -> indexed hashes bs ->
  (length hashes + length es < length bs)%nat -> Forall (fun e => 0 <= hash e) es ->
  exists bs', fill_buckets es (length hashes) bs = Some bs' /\
    length bs' = length bs /\ indexed (hashes ++ (hash <$> es)) bs'.
Proof.
  intros Hn I Hlt Hh. revert hashes bs Hn I Hlt. induction Hh as [|e es He _ IH];
    intros hashes bs Hn I Hlt.
  - exists bs. rewrite fmap_nil, app_nil_r. done.
  - cbn [length] in Hlt.
    destruct (bucket_insert_indexed hashes bs n (hash e)) as (b1 & E1 & L1 & I1);
      [done|done|lia|done|].
    destruct (IH (hashes ++ [hash e]) b1) as (b2 & E2 & L2 & I2).
    { by rewrite L1. } { done. } { rewrite length_app. simpl. lia. }
    exists b2. cbn [fill_buckets]. rewrite E1.
    rewrite length_app in E2. simpl in E2. rewrite Nat.add_1_r in E2. rewrite E2.
    split_and!; [done|lia|]. by rewrite <-app_assoc in I2.
Qed.

(** ** Probing for an entry *)

Section Probe.
Context (matches : HashEntry -> bool) (h : DiamondHash) (n : nat).
Hypothesis Hn : length (buckets h) = (2 ^ n)%nat.
Hypothesis I : indexed (hash <$> entries h) (buckets h).

Lemma probe_entry s i : buckets h !! s = Some (Some i) -> exists e, entries h !! i = Some e.
Proof.
  intros Hs. apply (ix_in _ _ I) in Hs. rewrite length_fmap in Hs.
  by apply lookup_lt_is_Some_2 in Hs as [e He]; exists e.
Qed.

(** The probe reaches the only matching entry over occupied buckets. *)
Lemma probe_found i e d slot probes :
  entries h !! i = Some e -> matches e = true ->
  (forall j f, entries h !! j = Some f -> matches f = true -> j = i) ->
  (slot < length (buckets h))%nat -> (d < probes)%nat ->
  buckets h !! step_bucket (length (buckets h)) slot d = Some (Some i) ->
  (forall d', (d' < d)%nat -> occupied (buckets h) (step_bucket (length (buckets h)) slot d')) ->
  hash_probe matches h probes slot = Some (Some i).
Proof.
  intros He Hm Hu. revert slot d. induction probes as [|probes IH];
    intros slot d Hs Hd Hf Ho; [lia|].
  cbn [hash_probe]. unfold array_read. destruct d as [|d].
  - rewrite step_bucket_0 in Hf by done. by rewrite Hf, He, Hm.
  - destruct (Ho 0%nat) as [j Hj]; [lia|]. rewrite step_bucket_0 in Hj by done.
    destruct (probe_entry _ _ Hj) as [f Hf']. rewrite Hj, Hf'.
    destruct (matches f) eqn:Ef; [by rewrite (Hu j f Hf' Ef)|].
    rewrite Hn at 1. rewrite next_bucket_mod, <-Hn. apply (IH _ d).
    + apply step_bucket_lt. lia.
    + lia.
    + by rewrite step_bucket_S.
    + intros d' Hd'. rewrite step_bucket_S. apply Ho. lia.
Qed.

Lemma probe_missed slot probes :
  (forall j f, entries h !! j = Some f -> matches f = false) ->
  (slot < length (buckets h))%nat -> hash_probe matches h probes slot = Some None.
Proof.
  intros Hno. revert slot. induction probes as [|probes IH]; intros slot Hs; [done|].
  cbn [hash_probe]. unfold array_read.
  destruct (lookup_lt_is_Some_2 (buckets h) slot Hs) as [[i|] Hi]; rewrite Hi; [|done].
  destruct (probe_entry _ _ Hi) as [f Hf]. rewrite Hf, (Hno i f Hf).
  apply IH. rewrite Hn at 1. rewrite next_bucket_mod, <-Hn. apply step_bucket_lt. lia.
Qed.
End Probe.

(** ** Keys *)

(** The contract between [hash_value] and [values_equal], on the keys in use. *)
Class KeyLaws `{KeyOps} (good : Value -> Prop) := {
  hash_nonneg : forall k, good k -> 0 <= hash_value k;
  equal_refl : forall k, good k -> values_equal k k = true;
  equal_sym : forall j k, good j -> good k ->
    values_equal j k = true -> values_equal k j = true;
  equal_trans : forall i j k, good i -> good j -> good k ->
    values_equal i j = true -> values_equal j k = true -> values_equal i k = true;
  equal_hash : forall j k, good j -> good k ->
    values_equal j k = true -> hash_value j = hash_value k;
}.

(** ** The ordered map a Hash stands for *)

Definition Map := list (Value * Value).

Definition pairs (h : DiamondHash) : Map := (fun e => (key e, value e)) <$> entries h.

Section Refinement.
Context `{KeyLaws}.

Definition find_key (k : Value) (m : Map) : option nat :=
  fst <$> list_find (fun p => values_equal (fst p) k = true) m.

Definition map_get (k : Value) (m : Map) : option Value :=
  (fun p => snd (snd p)) <$> list_find (fun p => values_equal (fst p) k = true) m.

Definition map_set (k v : Value) (m : Map) : Map :=
  match find_key k m with
  | Some i => alter (fun p => (fst p, v)) i m
  | None => m ++ [(k, v)]
  end.

Definition map_delete (k : Value) (m : Map) : Map :=
  match find_key k m with Some i => delete i m | None => m end.

Record hash_ok (h : DiamondHash) : Prop := {
  ok_good : forall i e, entries h !! i = Some e -> good (key e);
  ok_hash : forall i e, entries h !! i = Some e -> hash e = hash_value (key e);
  ok_distinct : forall i j e f, entries h !! i = Some e -> entries h !! j = Some f ->
    values_equal (key e) (key f) = true -> i = j;
  ok_capacity : (length (entries h) <= hash_capacity h)%nat;
  ok_index : (buckets h = [] /\ entries h = []) \/
    exists n, length (buckets h) = (2 ^ (3 + n))%nat /\
      indexed (hash <$> entries h) (buckets h) /\
      (length (entries h) * 4 < length (buckets h) * 3)%nat;
}.

Lemma empty_hash_ok : hash_ok empty_hash.
Proof. split; simpl; try done. by left. Qed.

Lemma pairs_lookup h i : pairs h !! i = (fun e => (key e, value e)) <$> entries h !! i.
Proof. apply list_lookup_fmap. Qed.

Lemma find_key_Some k h i :
  hash_ok h -> good k -> find_key k (pairs h) = Some i <->
  exists e, entries h !! i = Some e /\ values_equal (key e) k = true.
Proof.
  intros K Hk. unfold find_key. split.
  - destruct (list_find _ _) as [[j p]|] eqn:E; [|done]. intros [= ->].
    apply list_find_Some in E as (Hp & Hm & _). rewrite pairs_lookup in Hp.
    destruct (entries h !! i) as [e|]; [|done]. simpl in Hp. injection Hp as <-. eauto.
  - intros (e & He & Hm).
    destruct (list_find (fun p => values_equal (fst p) k = true) (pairs h))
      as [[j p]|] eqn:E; simpl.
    + apply list_find_Some in E as (Hp & Hj & _). rewrite pairs_lookup in Hp.
      destruct (entries h !! j) as [f|] eqn:Ef; [|done]. simpl in Hp. injection Hp as <-.
      simpl in Hj. f_equal. eapply (ok_distinct _ K); [done|done|].
      pose proof (ok_good _ K _ _ He). pose proof (ok_good _ K _ _ Ef).
      eapply equal_trans; [done|exact Hk|done|done|]. by apply equal_sym.
    + apply list_find_None in E. rewrite Forall_lookup in E.
      exfalso. apply (E i (key e, value e)); [|done]. by rewrite pairs_lookup, He.
Qed.

Lemma find_key_None k h :
  find_key k (pairs h) = None <->
  forall i e, entries h !! i = Some e -> values_equal (key e) k = false.
Proof.
  unfold find_key. rewrite fmap_None, list_find_None, Forall_lookup. split.
  - intros Hn i e He. apply not_true_is_false. intros Hm.
    apply (Hn i (key e, value e)); [by rewrite pairs_lookup, He|done].
  - intros Hn i p Hp. rewrite pairs_lookup in Hp.
    destruct (entries h !! i) as [e|] eqn:He; [|done]. simpl in Hp. injection Hp as <-.
    simpl. by rewrite (Hn i e He).
Qed.

Lemma bucket_bound h n k :
  length (buckets h) = (2 ^ n)%nat -> good k ->
  (bucket_of (hash_value k) (length (buckets h)) < length (buckets h))%nat.
Proof. intros -> Hk. apply bucket_of_lt. by apply hash_nonneg. Qed.

(** [hash_find] is the search of the map. *)
Lemma hash_find_spec h k :
  hash_ok h -> good k -> hash_find h k = Some (find_key k (pairs h)).
Proof.
  intros K Hk. unfold hash_find. destruct (ok_index _ K) as [[Eb Ee]|(n & Hn & Ix & Hl)].
  { rewrite Eb. simpl. unfold pairs. by rewrite Ee. }
  pose proof (pow2_pos (3 + n)). destruct (Nat.eqb_spec (length (buckets h)) 0); [lia|].
  destruct (find_key k (pairs h)) as [i|] eqn:E.
  - apply find_key_Some in E as (e & He & Hm); [|done..].
    assert (Ehash : hash e = hash_value k).
    { rewrite (ok_hash _ K _ _ He). apply equal_hash; [by eapply ok_good|done|done]. }
    destruct (ix_path _ _ Ix i (hash e)) as (d & Hd & Hf & Ho).
    { by rewrite list_lookup_fmap, He. }
    rewrite Ehash in Hf, Ho.
    eapply (probe_found _ h (3 + n) Hn Ix i e d); try done.
    + unfold entry_matches. by rewrite Ehash, Z.eqb_refl.
    + intros j f Hf' Hj. unfold entry_matches in Hj. apply andb_true_iff in Hj as [_ Hj].
      eapply (ok_distinct _ K); [done|done|].
      pose proof (ok_good _ K _ _ He). pose proof (ok_good _ K _ _ Hf').
      eapply equal_trans; [done|exact Hk|done|done|]. by apply equal_sym.
    + by eapply bucket_bound.
  - rewrite find_key_None in E. apply (probe_missed _ h (3 + n) Hn Ix).
    + intros j f Hf. unfold entry_matches. by rewrite (E j f Hf), andb_false_r.
    + by eapply bucket_bound.
Qed.

(** ** Growth *)

Lemma entries_hash_nonneg h : hash_ok h -> Forall (fun e => 0 <= hash e) (entries h).
Proof.
  intros K. apply Forall_lookup. intros i e He. rewrite (ok_hash _ K _ _ He).
  by eapply hash_nonneg, ok_good.
Qed.

(** Rebuilding at a capacity that keeps the load factor. *)
Lemma hash_rehash_ok malloc_ok n (h : DiamondHash) :
  Forall (fun e => 0 <= hash e) (entries h) -> (length (entries h) * 4 < 2 ^ (3 + n) * 3)%nat ->
  exists ok h', hash_rehash malloc_ok (2 ^ (3 + n)) h = Some (ok, h') /\
    entries h' = entries h /\ hash_capacity h' = hash_capacity h /\ ok = malloc_ok /\
    (ok = false -> h' = h) /\
    (ok = true -> length (buckets h') = (2 ^ (3 + n))%nat /\
      indexed (hash <$> entries h') (buckets h')).
Proof.
  intros Hh Hl. unfold hash_rehash. destruct malloc_ok; simpl negb; cbv iota.
  - destruct (fill_buckets_indexed (3 + n) (entries h) [] (replicate (2 ^ (3 + n)) None))
      as (bs & E & L & Ix).
    + apply length_replicate.
    + apply indexed_empty.
    + rewrite length_replicate. change (length (@nil Z)) with 0%nat. lia.
    + done.
    + cbn [length] in E. rewrite E. rewrite length_replicate in L.
      eexists _, _. split; [done|]. cbn [entries hash_capacity buckets with_buckets].
      split_and!; try done.
  - eexists _, _. split; [done|]. split_and!; done.
Qed.

Lemma grow_entries_ok realloc_ok h ok h' :
  hash_ok h -> grow_entries realloc_ok h = (ok, h') ->
  hash_ok h' /\ entries h' = entries h /\ buckets h' = buckets h /\
  (ok = true -> (length (entries h') < hash_capacity h')%nat) /\
  (ok = false -> realloc_ok = false).
Proof.
  intros K. pose proof (ok_capacity _ K). unfold grow_entries.
  destruct (Nat.eqb_spec (length (entries h)) (hash_capacity h)) as [E|E].
  - destruct realloc_ok; intros [= <- <-]; [|split_and!; done].
    assert (Hc : (hash_capacity h <
      if hash_capacity h <? 8 then 8 else hash_capacity h * 2)%nat).
    { destruct (Nat.ltb_spec (hash_capacity h) 8); lia. }
    cbn [entries hash_capacity buckets]. split_and!; try done; [|intros _; lia].
    destruct K. split; cbn [entries hash_capacity buckets]; try done. lia.
  - intros [= <- <-]. split_and!; try done. intros _. lia.
Qed.

Lemma grow_buckets_ok malloc_ok h :
  hash_ok h -> exists ok h', grow_buckets malloc_ok h = Some (ok, h') /\
    hash_ok h' /\ entries h' = entries h /\ hash_capacity h' = hash_capacity h /\
    (ok = true -> (buckets h' <> []) /\
       ((length (entries h') + 1) * 4 < length (buckets h') * 3)%nat) /\
    (ok = false -> malloc_ok = false).
Proof.
  intros K. unfold grow_buckets.
  destruct ((length (buckets h) =? 0)%nat || _) eqn:Eg.
  - assert (Hn : exists n, (if length (buckets h) =? 0 then 8 else length (buckets h) * 2)%nat
      = (2 ^ (3 + n))%nat /\ ((length (entries h) + 1) * 4 < 2 ^ (3 + n) * 3)%nat).
    { destruct (ok_index _ K) as [[-> ->]|(n & Hn & _ & Hl)].
      - exists 0%nat. simpl. split; [done|lia].
      - pose proof (pow2_pos (3 + n)). destruct (Nat.eqb_spec (length (buckets h)) 0); [lia|].
        exists (S n). rewrite Nat.add_succ_r, Nat.pow_succ_r'. rewrite Hn in *.
        split; [lia|]. cbn [Nat.add Nat.pow] in Hl |- *. lia. }
    destruct Hn as (n & En & Hl). rewrite En.
    destruct (hash_rehash_ok malloc_ok n h (entries_hash_nonneg h K))
      as (ok & h' & E & Ee & Ec & Eo & Hf & Ht); [lia|].
    exists ok, h'. rewrite E. split; [done|].
    assert (K' : hash_ok h').
    { destruct ok; [|by rewrite Hf]. destruct (Ht eq_refl) as [Lb Ix]. destruct K.
      split; rewrite ?Ee, ?Ec; try done. right. exists n. rewrite Lb.
      rewrite Ee in Ix. split_and!; [done|done|lia]. }
    split_and!; try done.
    + intros ->. destruct (Ht eq_refl) as [Lb _]. rewrite Ee, Lb. split; [|lia].
      intros Eb. rewrite Eb in Lb. simpl in Lb. pose proof (pow2_pos (3 + n)). simpl in *. lia.
    + intros ->. done.
  - exists true, h. apply orb_false_iff in Eg as [E0 El]. apply Nat.eqb_neq in E0.
    apply Nat.leb_gt in El. split_and!; try done. intros _. split; [|done].
    intros E. by rewrite E in E0.
Qed.

(** ** The operations refine those of the map *)

Lemma pairs_alter v i (es : list HashEntry) :
  (fun e => (key e, value e)) <$> alter (with_value v) i es =
  alter (fun p => (fst p, v)) i ((fun e => (key e, value e)) <$> es).
Proof.
  apply list_eq. intros j. rewrite list_lookup_fmap, !list_lookup_alter, !list_lookup_fmap.
  destruct (decide (i = j)) as [<-|]; [|done]. by destruct (es !! i).
Qed.

Lemma update_entry_ok h i v :
  hash_ok h -> hash_ok (with_entries (alter (with_value v) i (entries h)) h).
Proof.
  intros K. assert (Hl : forall j e, alter (with_value v) i (entries h) !! j = Some e ->
    exists f, entries h !! j = Some f /\ key e = key f /\ hash e = hash f).
  { intros j e. rewrite list_lookup_alter. destruct (decide (i = j)) as [<-|Hne].
    - destruct (entries h !! i) as [f|]; [|done]. intros [= <-]. by exists f.
    - intros He. by exists e. }
  assert (Hh : hash <$> alter (with_value v) i (entries h) = hash <$> entries h).
  { apply list_eq. intros j. rewrite !list_lookup_fmap, list_lookup_alter.
    destruct (decide (i = j)) as [<-|]; [|done]. by destruct (entries h !! i). }
  destruct K as [K1 K2 K3 K4 K5]. split; cbn [entries buckets hash_capacity with_entries].
  - intros j e (f & Hf & -> & _)%Hl. by eapply K1.
  - intros j e (f & Hf & -> & ->)%Hl. by eapply K2.
  - intros j j' e e' (f & Hf & -> & _)%Hl (f' & Hf' & -> & _)%Hl. by eapply K3.
  - by rewrite length_alter.
  - rewrite Hh, length_alter. destruct K5 as [[Eb Ee]|K5]; [|by right].
    left. split; [done|]. by rewrite Ee.
Qed.

Lemma append_entry_ok h k v :
  hash_ok h -> good k -> find_key k (pairs h) = None ->
  (length (entries h) < hash_capacity h)%nat -> buckets h <> [] ->
  ((length (entries h) + 1) * 4 < length (buckets h) * 3)%nat ->
  let e := {| key := k; value := v; hash := hash_value k |} in
  exists bs, bucket_insert (hash_value k) (length (entries h)) (buckets h) = Some bs /\
    hash_ok (with_buckets bs (with_entries (entries h ++ [e]) h)).
Proof.
  intros K Hk Hn Hc Hb Hl e. pose proof (hash_nonneg k Hk).
  destruct (ok_index _ K) as [[Eb _]|(n & Ln & Ix & _)]; [done|].
  destruct (bucket_insert_indexed (hash <$> entries h) (buckets h) (3 + n) (hash_value k))
    as (bs & E & L & Ix'); [done|done|rewrite length_fmap; lia|done|].
  rewrite length_fmap in E. exists bs. split; [done|].
  rewrite find_key_None in Hn.
  assert (Hlk : forall i f, (entries h ++ [e]) !! i = Some f ->
    entries h !! i = Some f \/ i = length (entries h) /\ f = e).
  { intros i f [Hf|[Hle Hf]]%lookup_app_Some; [by left|right].
    apply list_lookup_singleton_Some in Hf as [Hi <-]. split; [lia|done]. }
  destruct K as [K1 K2 K3 K4 K5].
  split; cbn [entries buckets hash_capacity with_entries with_buckets].
  - intros i f [Hf|[_ ->]]%Hlk; [by eapply K1|done].
  - intros i f [Hf|[_ ->]]%Hlk; [by eapply K2|done].
  - intros i j f g [Hf|[-> ->]]%Hlk [Hg|[-> ->]]%Hlk Heq; [by eapply K3| | |done].
    + simpl in Heq. by rewrite (Hn i f Hf) in Heq.
    + simpl in Heq. apply equal_sym in Heq; [|done|by eapply K1].
      by rewrite (Hn j g Hg) in Heq.
  - rewrite length_app. simpl. lia.
  - right. exists n. rewrite fmap_app, length_app. simpl. rewrite L.
    split_and!; [done|done|lia].
Qed.

(** [hash_set] sets the key in the map, or fails for want of memory and leaves
    the map as it was. *)
Lemma hash_set_ok realloc_ok malloc_ok k v h :
  hash_ok h -> good k ->
  exists r h', hash_set realloc_ok malloc_ok k v h = Some (r, h') /\ hash_ok h' /\
    match r with
    | Stored i => pairs h' = map_set k v (pairs h) /\ find_key k (pairs h') = Some i
    | SetFailed => pairs h' = pairs h /\ realloc_ok && malloc_ok = false
    end.
Proof.
  intros K Hk. unfold hash_set. rewrite (hash_find_spec h k K Hk).
  destruct (find_key k (pairs h)) as [i|] eqn:Ef.
  - eexists _, _. split; [done|]. pose proof (update_entry_ok h i v K) as K'.
    split; [done|]. unfold map_set. rewrite Ef. split; [apply pairs_alter|].
    apply find_key_Some; [done|done|]. apply find_key_Some in Ef as (e & He & Hm); [|done..].
    exists (with_value v e). cbn [entries with_entries]. split; [|done].
    by rewrite list_lookup_alter, decide_True, He.
  - destruct (grow_entries realloc_ok h) as [ok1 h1] eqn:E1.
    destruct (grow_entries_ok _ _ _ _ K E1) as (K1 & Ee1 & Eb1 & Hc1 & Hf1).
    destruct ok1; [|eexists _, _; split; [done|]; split; [done|];
      unfold pairs; rewrite Ee1, Hf1 by done; by split].
    destruct (grow_buckets_ok malloc_ok h1 K1) as (ok2 & h2 & E2 & K2 & Ee2 & Ec2 & Hb2 & Hf2).
    rewrite E2. destruct ok2; simpl negb; cbv iota; [|eexists _, _; split; [done|];
      split; [done|]; unfold pairs; rewrite Ee2, Ee1, Hf2 by done;
      split; [done|apply andb_false_r]].
    assert (Ep : pairs h2 = pairs h) by (unfold pairs; by rewrite Ee2, Ee1).
    destruct (Hb2 eq_refl) as [Hb Hl].
    destruct (append_entry_ok h2 k v) as (bs & E3 & K3); [done|done|by rewrite Ep| |done|done|].
    { rewrite Ee2, Ec2. by apply Hc1. }
    cbn [entries buckets with_entries]. rewrite E3. eexists _, _. split; [done|].
    split; [done|].
    assert (Ep' : pairs (with_buckets bs (with_entries (entries h2 ++
      [{| key := k; value := v; hash := hash_value k |}]) h2)) = pairs h ++ [(k, v)]).
    { unfold pairs. cbn [entries with_buckets with_entries].
      by rewrite fmap_app, Ee2, Ee1. }
    unfold map_set. rewrite Ef. split; [done|].
    apply find_key_Some; [done|done|]. eexists. cbn [entries with_buckets with_entries].
    split; [by rewrite lookup_app_r, Nat.sub_diag by done|]. by apply equal_refl.
Qed.

Lemma delete_lookup {A} (l : list A) i j x : delete i l !! j = Some x ->
  l !! (if decide (j < i)%nat then j else S j) = Some x.
Proof.
  intros Hx. destruct (decide (j < i)%nat).
  - by rewrite list_lookup_delete_lt in Hx.
  - by rewrite list_lookup_delete_ge in Hx by lia.
Qed.

Lemma length_delete_le {A} (l : list A) i : (length (delete i l) <= length l)%nat.
Proof.
  revert i. induction l as [|x l IH]; intros [|i]; simpl; try lia.
  specialize (IH i). unfold delete in *. lia.
Qed.

(** Removing an entry and rebuilding the table. *)
Lemma delete_entry_ok h i malloc_ok :
  hash_ok h -> buckets h <> [] ->
  let h1 := with_entries (delete i (entries h)) h in
  exists h2, hash_rehash malloc_ok (length (buckets h1)) h1 = Some (malloc_ok, h2) /\
    (malloc_ok = true -> hash_ok h2 /\ entries h2 = delete i (entries h)).
Proof.
  intros K Hb h1. destruct (ok_index _ K) as [[Eb _]|(n & Ln & Ix & Hl)]; [done|].
  pose proof (length_delete_le (entries h) i) as Hd.
  assert (Hh : Forall (fun e => 0 <= hash e) (entries h1)).
  { apply Forall_lookup. intros j e He%delete_lookup.
    pose proof (entries_hash_nonneg h K) as F. rewrite Forall_lookup in F. by eapply F. }
  replace (length (buckets h1)) with (2 ^ (3 + n))%nat by (by rewrite <-Ln).
  destruct (hash_rehash_ok malloc_ok n h1 Hh) as (ok & h2 & E & Ee & Ec & -> & _ & Ht).
  { cbn [entries h1 with_entries]. rewrite <-Ln. lia. }
  exists h2. split; [done|]. intros ->. destruct (Ht eq_refl) as [Lb Ix2].
  split; [|done]. destruct K as [K1 K2 K3 K4 K5]. rewrite Ee in Ix2.
  cbn [entries hash_capacity h1 with_entries] in Ee, Ec, Ix2. split; rewrite ?Ee, ?Ec.
  - intros j e He%delete_lookup. by eapply K1.
  - intros j e He%delete_lookup. by eapply K2.
  - intros j j' e e' He%delete_lookup He'%delete_lookup Hq.
    pose proof (K3 _ _ _ _ He He' Hq) as E3.
    destruct (decide (j < i)%nat), (decide (j' < i)%nat); lia.
  - lia.
  - right. exists n. rewrite Lb. split_and!; [done|done|]. rewrite <-Ln. lia.
Qed.

Lemma pairs_delete i (es : list HashEntry) :
  (fun e => (key e, value e)) <$> delete i es =
  delete i ((fun e => (key e, value e)) <$> es).
Proof.
  revert i. induction es as [|e es IH]; intros [|i]; try done.
  simpl. f_equal. apply IH.
Qed.

(** [hash_delete] deletes the key from the map and reports its value. *)
Lemma hash_delete_ok malloc_ok k h :
  hash_ok h -> good k ->
  exists r h', hash_delete malloc_ok k h = Some (r, h') /\
    match r with
    | Absent => h' = h /\ map_get k (pairs h) = None
    | Removed v i => hash_ok h' /\ map_get k (pairs h) = Some v /\
        find_key k (pairs h) = Some i /\ pairs h' = map_delete k (pairs h)
    | DeleteFailed v => malloc_ok = false /\ map_get k (pairs h) = Some v
    end.
Proof.
  intros K Hk. unfold hash_delete. rewrite (hash_find_spec h k K Hk).
  assert (Hg : forall i e, find_key k (pairs h) = Some i -> entries h !! i = Some e ->
    map_get k (pairs h) = Some (value e)).
  { intros i e Ef He. unfold find_key, map_get in *.
    destruct (list_find _ _) as [[j p]|] eqn:E; [|done]. simpl in Ef |- *.
    injection Ef as ->. apply list_find_Some in E as (Hp & _ & _).
    rewrite pairs_lookup, He in Hp. simpl in Hp. by injection Hp as <-. }
  destruct (find_key k (pairs h)) as [i|] eqn:Ef.
  - pose proof Ef as Ef'. apply find_key_Some in Ef' as (e & He & Hm); [|done..].
    unfold array_read. rewrite He.
    destruct (delete_entry_ok h i malloc_ok K) as (h2 & E & Ht).
    { destruct (ok_index _ K) as [[_ Ee]|(n & Ln & _)]; [by rewrite Ee in He|].
      intros Eb. rewrite Eb in Ln. pose proof (pow2_pos (3 + n)). simpl in *. lia. }
    rewrite E. eexists _, _. split; [done|]. destruct malloc_ok.
    + destruct (Ht eq_refl) as [K2 Ee]. split_and!; [done|by eapply Hg|done|].
      unfold map_delete. rewrite Ef. unfold pairs at 1. rewrite Ee. apply pairs_delete.
    + split; [done|]. by eapply Hg.
  - eexists _, _. split; [done|]. split; [done|].
    unfold find_key in Ef. unfold map_get. by destruct (list_find _ _).
Qed.

(** A clone has the same map. *)
Lemma hash_clone_ok entries_ok buckets_ok h h' :
  hash_ok h -> hash_clone_contents entries_ok buckets_ok h = (true, h') ->
  hash_ok h' /\ pairs h' = pairs h.
Proof.
  intros K. unfold hash_clone_contents.
  destruct (Nat.eqb_spec (length (entries h)) 0) as [E|E].
  - intros [= <-]. split; [apply empty_hash_ok|]. unfold pairs.
    by apply nil_length_inv in E as ->.
  - destruct (_ || _); [done|]. intros [= <-]. split; [|done].
    destruct K. split; cbn [entries hash_capacity buckets]; try done.
Qed.

(** ** Programs over a Hash *)

Inductive HashOp :=
  | OpGet (k : Value)
  | OpSet (k v : Value)
  | OpDelete (k : Value)
  | OpClone.

Inductive HashResult :=
  | Got (v : option Value)
  | Done
  | OutOfMemory.

Definition op_key_ok (op : HashOp) : Prop :=
  match op with OpGet k | OpSet k _ | OpDelete k => good k | OpClone => True end.

(** An operation on the table, with the outcomes of its two allocations. *)
Definition hash_step (op : HashOp) (a b : bool) (h : DiamondHash)
    : option (HashResult * DiamondHash) :=
  match op with
  | OpGet k =>
      let? found := hash_find h k in
      match found with
      | None => Some (Got None, h)
      | Some i => let? e := array_read (entries h) i in Some (Got (Some (value e)), h)
      end
  | OpSet k v =>
      let? (r, h) := hash_set a b k v h in
      Some (match r with Stored _ => Done | SetFailed => OutOfMemory end, h)
  | OpDelete k =>
      let? (r, h) := hash_delete b k h in
      Some (match r with
            | Absent => Got None
            | Removed v _ => Got (Some v)
            | DeleteFailed _ => OutOfMemory
            end, h)
  | OpClone =>
      let '(ok, copy) := hash_clone_contents a b h in
      Some (if ok then (Done, copy) else (OutOfMemory, h))
  end.

(** The same operation on the map. *)
Definition map_step (op : HashOp) (m : Map) : HashResult * Map :=
  match op with
  | OpGet k => (Got (map_get k m), m)
  | OpSet k v => (Done, map_set k v m)
  | OpDelete k => (Got (map_get k m), map_delete k m)
  | OpClone => (Done, m)
  end.

Lemma map_get_find h k :
  map_get k (pairs h) = (find_key k (pairs h) ≫= fun i => value <$> entries h !! i).
Proof.
  unfold map_get, find_key. destruct (list_find _ _) as [[i p]|] eqn:E; [|done].
  apply list_find_Some in E as (Hp & _ & _). rewrite pairs_lookup in Hp. simpl.
  destruct (entries h !! i) as [e|]; [|done]. simpl in *. by injection Hp as <-.
Qed.

Lemma map_delete_absent k m : map_get k m = None -> map_delete k m = m.
Proof. unfold map_get, map_delete, find_key. by destruct (list_find _ _). Qed.

(** Either the operation does what the map's does, or it ran out of memory;
    then the map is unchanged, and the table is fit for use unless the
    operation was a deletion. *)
Lemma hash_step_refines op a b h :
  hash_ok h -> op_key_ok op ->
  exists r h', hash_step op a b h = Some (r, h') /\
    ((hash_ok h' /\ (r, pairs h') = map_step op (pairs h)) \/
     (r = OutOfMemory /\ a && b = false /\
      ((exists k, op = OpDelete k) \/ (hash_ok h' /\ pairs h' = pairs h)))).
Proof.
  intros K Hop. destruct op as [k|k v|k|]; simpl in Hop; cbn [hash_step map_step].
  - rewrite (hash_find_spec h k K Hop), map_get_find. unfold array_read.
    destruct (find_key k (pairs h)) as [i|] eqn:Ef; simpl.
    + apply find_key_Some in Ef as (e & He & _); [|done..]. rewrite He. simpl. eauto 6.
    + eauto 6.
  - destruct (hash_set_ok a b k v h K Hop) as (r & h' & -> & K' & Hr).
    eexists _, _. split; [done|]. destruct r.
    + left. destruct Hr as [-> _]. done.
    + right. destruct Hr as [-> Hab]. auto.
  - destruct (hash_delete_ok b k h K Hop) as (r & h' & -> & Hr).
    eexists _, _. split; [done|]. destruct r as [|v i|v].
    + destruct Hr as [-> Hg]. left. by rewrite Hg, map_delete_absent.
    + destruct Hr as (K' & Hg & _ & Hp). left. by rewrite Hg, Hp.
    + destruct Hr as [-> _]. right. rewrite andb_false_r. eauto 6.
  - destruct (hash_clone_contents a b h) as [[] copy] eqn:E.
    + destruct (hash_clone_ok _ _ _ _ K E) as [K' Hp]. eexists _, _. split; [done|].
      left. by rewrite Hp.
    + eexists _, _. split; [done|]. right. split_and!; [done| |by right].
      unfold hash_clone_contents in E. by destruct (_ =? _)%nat, a, b.
Qed.

(** A program: operations with the outcomes of their allocations.  It ends at a
    deletion that ran out of memory. *)
Fixpoint hash_run (ops : list (HashOp * (bool * bool))) (h : DiamondHash)
    : option (list HashResult * DiamondHash) :=
  match ops with
  | [] => Some ([], h)
  | (op, (a, b)) :: ops =>
      let? (r, h) := hash_step op a b h in
      match op, r with
      | OpDelete _, OutOfMemory => Some ([OutOfMemory], h)
      | _, _ => let? (rs, h) := hash_run ops h in Some (r :: rs, h)
      end
  end.

(** The program's run on a map: results in order, an operation out of memory
    having no effect. *)
Inductive map_run : list HashOp -> list HashResult -> Map -> Map -> Prop :=
  | run_nil m : map_run [] [] m m
  | run_step op ops r rs m m' m'' :
      map_step op m = (r, m') -> map_run ops rs m' m'' -> map_run (op :: ops) (r :: rs) m m''
  | run_failed op ops rs m m' :
      map_run ops rs m m' -> map_run (op :: ops) (OutOfMemory :: rs) m m'
  | run_stopped k ops m : map_run (OpDelete k :: ops) [OutOfMemory] m m.

Lemma hash_run_refines ops h :
  hash_ok h -> Forall (fun o => op_key_ok (fst o)) ops ->
  exists rs h' m, hash_run ops h = Some (rs, h') /\ map_run (fst <$> ops) rs (pairs h) m /\
    ((hash_ok h' /\ pairs h' = m) \/
     exists i k, fst <$> ops !! i = Some (OpDelete k) /\ rs !! i = Some OutOfMemory) /\
    (Forall (fun o => snd o = (true, true)) ops -> OutOfMemory ∉ rs).
Proof.
  intros K F. revert h K. induction F as [|[op [a b]] ops Hop F IH]; intros h K.
  { exists [], h, (pairs h). split_and!; try done.
    - constructor.
    - by left.
    - intros _. apply not_elem_of_nil. }
  simpl in Hop. destruct (hash_step_refines op a b h K Hop)
    as (r & h1 & E & [[K1 S1]|(-> & Hab & Hc)]).
  - destruct (IH h1 K1) as (rs & h' & m & Er & Mr & Hend & Hall).
    assert (Hnot : r <> OutOfMemory) by (by destruct op; injection S1 as -> _).
    exists (r :: rs), h', m. cbn [hash_run]. rewrite E, Er. split_and!.
    + by destruct op, r.
    + eapply run_step; [by symmetry|done].
    + destruct Hend as [Hend|(i & k & Hend)]; [by left|right]. by exists (S i), k.
    + intros Hf. inversion Hf as [|? ? _ Hf']; subst. rewrite not_elem_of_cons. auto.
  - assert (Hno : Forall (fun o : HashOp * (bool * bool) => snd o = (true, true))
      ((op, (a, b)) :: ops) -> False).
    { intros Hf. inversion Hf as [|? ? Hs _]; subst. simpl in Hs. by injection Hs as -> ->. }
    destruct Hc as [[k ->]|[K1 P1]].
    + exists [OutOfMemory], h1, (pairs h). cbn [hash_run]. rewrite E.
      split_and!; [done|apply run_stopped| |intros Hf; by destruct (Hno Hf)].
      right. by exists 0%nat, k.
    + destruct (IH h1 K1) as (rs & h' & m & Er & Mr & Hend & _). cbn [hash_run]. rewrite E.
      assert (Hd : (exists k, op = OpDelete k) \/ forall k, op <> OpDelete k)
        by (destruct op; naive_solver).
      destruct Hd as [[k ->]|Hnd].
      * exists [OutOfMemory], h1, (pairs h).
        split_and!; [done|apply run_stopped| |intros Hf; by destruct (Hno Hf)].
        right. by exists 0%nat, k.
      * exists (OutOfMemory :: rs), h', m. rewrite Er. split_and!.
        -- destruct op; try done. by destruct (Hnd k).
        -- apply run_failed. by rewrite <-P1.
        -- destruct Hend as [Hend|(i & k & Hend)]; [by left|right]. by exists (S i), k.
        -- intros Hf. by destruct (Hno Hf).
Qed.
End Refinement.
