(* ===== verification/ValueEqual.v ===== *)
(** * ValueEqual: equality and hashing of values, src/vm_values.c

    [values_equal] compares by value: numbers, Strings, Symbols, Times, and the
    structure of Arrays and Hashes; everything else by identity.  It recurses
    to a fixed depth; a comparison that is too deep is redone with an explicit
    stack, remembering container pairs past another depth so that cyclic
    structures end.  [hash_value] is the hash of Hash keys. *)

From S2P Require Import Prelude Value Bignum GcHeap HashTable.
From Stdlib Require Import ZArith Lia Bool List SpecFloat.
From stdpp Require Import base numbers list gmap.

Local Open Scope Z_scope.
Local Open Scope c_scope.

(** ** Doubles *)

(** [(double)integer] *)
Definition double_of_int (z : Z) : spec_float := binary_normalize 53 1024 z 0 false.

(** The bits of a double ([memcpy] into a [uint64_t]); a NaN is the quiet one. *)
Definition double_bits (x : spec_float) : Z :=
  let sign (s : bool) := if s then two_63 else 0 in
  match x with
  | S754_zero s => sign s
  | S754_infinity s => sign s + 2047 * 2 ^ 52
  | S754_nan => 2047 * 2 ^ 52 + 2 ^ 51
  | S754_finite s m e =>
      sign s + (if Z.pos m <? 2 ^ 52 then Z.pos m
                else (e + 1075) * 2 ^ 52 + (Z.pos m - 2 ^ 52))
  end.

(** [(int64_t)real] of a double in range: truncation towards zero. *)
Definition int_of_double (x : spec_float) : Z :=
  match x with
  | S754_finite s m e =>
      let magnitude := if 0 <=? e then Z.pos m * 2 ^ e else Z.pos m / 2 ^ (- e) in
      if s then - magnitude else magnitude
  | _ => 0
  end.

(** [-2^63 <= real < 2^63], false for a NaN or an infinity. *)
Definition double_in_int64 (x : spec_float) : bool :=
  SFleb (double_of_int INT64_MIN) x && SFltb x (double_of_int two_63).

(** ** Kinds *)

(** [DiamondObjectKind] *)
Definition payload_kind (p : Payload) : nat :=
  match p with
  | STRING _ => 0 | INSTANCE _ _ => 1 | ARRAY _ _ _ => 2 | HASH _ _ _ _ => 3
  | CLOSURE _ _ => 4 | CELL _ => 5 | FIBER _ => 6 | FILE _ _ => 7 | LISTENER _ _ => 8
  | SOCKET _ => 9 | UDP_SOCKET _ => 10 | TLS_SOCKET _ _ _ _ => 11 | BIGNUM _ _ => 12
  | SYMBOL _ => 13 | REGEXP _ => 14 | PROGRAM_BUILDER _ _ => 15 | THREAD _ => 16
  | SQLITE3 _ => 17 | SQLITE3_STATEMENT _ => 18 | POSTGRES _ => 19 | MYSQL _ => 20
  | TIME _ => 21 | PROCESS_RESULT _ _ => 22 | PROCESS_HANDLE _ _ _ _ _ => 23
  | PROCESS_STREAM _ => 24 | TENSOR _ _ => 25 | CHANNEL _ => 26 | SUPERVISOR _ => 27
  end%nat.

Definition is_float (v : GcHeap.Value) : bool :=
  match v with VALUE_FLOAT _ => true | _ => false end.

(** ** Comparing one pair of values

    What [values_equal_at_depth] makes of a pair before it looks inside
    containers: a verdict, or two distinct containers of one kind. *)
Inductive Pair :=
  | DECIDED (equal : bool)
  | ARRAYS (left right : list GcHeap.Value)
  | HASHES (left right : DiamondHash).

Definition compare_objects (a b : Addr) (p q : Payload) : Pair :=
  if negb (payload_kind p =? payload_kind q)%nat then DECIDED false
  else
    match p, q with
    | INSTANCE _ _, _ => DECIDED (bool_decide (a = b))
    | _, _ =>
        if bool_decide (a = b) then DECIDED true
        else
          match p, q with
          | ARRAY xs _ _, ARRAY ys _ _ => ARRAYS xs ys
          | HASH es c bs _, HASH es' c' bs' _ =>
              HASHES {| entries := es; hash_capacity := c; buckets := bs |}
                     {| entries := es'; hash_capacity := c'; buckets := bs' |}
          | SYMBOL c, SYMBOL d => DECIDED (bool_decide (c = d))
          | TIME e, TIME f => DECIDED (SFeqb e f)
          | STRING c, STRING d => DECIDED (bool_decide (c = d))
          | _, _ => DECIDED (bool_decide (a = b))
          end
    end.

Section Equality.
Context (h : Heap).

(** The payload behind a value: [Some None] if it is no object. *)
Definition payload_of (v : GcHeap.Value) : option (option Payload) :=
  match v with
  | VALUE_OBJECT (Some a) => let? o := h !! a in Some (Some (payload o))
  | VALUE_OBJECT None => None
  | _ => Some None
  end.

(** [is_int_value] and [diamond_int_view]. *)
Definition int_view (v : GcHeap.Value) (p : option Payload) : option (option DiamondIntView) :=
  match v, p with
  | VALUE_INT z, _ => let? view := diamond_int_view_int64 z in Some (Some view)
  | _, Some (BIGNUM n l) => Some (Some {| view_negative := n; view_limbs := l |})
  | _, _ => Some None
  end.

Definition payload_is_bignum (p : option Payload) : bool :=
  match p with Some (BIGNUM _ _) => true | _ => false end.

Definition compare_pair (l r : GcHeap.Value) : option Pair :=
  let? lp := payload_of l in
  let? rp := payload_of r in
  if payload_is_bignum lp || payload_is_bignum rp then
    if is_float l || is_float r then Some (DECIDED false)
    else
      let? lv := int_view l lp in
      let? rv := int_view r rp in
      Some (DECIDED
        match lv, rv with
        | Some lv, Some rv => diamond_bignum_compare lv rv =? 0
        | _, _ => false
        end)
  else
    Some match l, r with
    | VALUE_INT z, VALUE_FLOAT x => DECIDED (SFeqb (double_of_int z) x)
    | VALUE_FLOAT x, VALUE_INT z => DECIDED (SFeqb x (double_of_int z))
    | VALUE_NIL, VALUE_NIL | VALUE_UNDEFINED, VALUE_UNDEFINED => DECIDED true
    | VALUE_BOOL a, VALUE_BOOL b => DECIDED (eqb a b)
    | VALUE_INT a, VALUE_INT b => DECIDED (a =? b)
    | VALUE_FLOAT x, VALUE_FLOAT y => DECIDED (SFeqb x y)
    | VALUE_CLASS a, VALUE_CLASS b => DECIDED (a =? b)
    | VALUE_OBJECT (Some a), VALUE_OBJECT (Some b) =>
        match lp, rp with
        | Some p, Some q => compare_objects a b p q
        | _, _ => DECIDED false
        end
    | _, _ => DECIDED false
    end.

(** ** The recursive comparison *)

(** [TOO_DEEP] is [false] with [equal_too_deep] set. *)
Inductive Verdict := EQUAL | UNEQUAL | TOO_DEEP.

(** The first verdict that is not [EQUAL]. *)
Fixpoint all_equal {A} (f : A -> option Verdict) (l : list A) : option Verdict :=
  match l with
  | [] => Some EQUAL
  | x :: l =>
      let? v := f x in
      match v with EQUAL => all_equal f l | v => Some v end
  end.

Context (find : DiamondHash -> GcHeap.Value -> option (option nat)).

(** [values_equal_at_depth] with [n] levels left. *)
Fixpoint values_equal_at_depth (n : nat) (l r : GcHeap.Value) : option Verdict :=
  let? p := compare_pair l r in
  match p with
  | DECIDED b => Some (if b then EQUAL else UNEQUAL)
  | ARRAYS xs ys =>
      match n with
      | O => Some TOO_DEEP
      | S n =>
          if negb (length xs =? length ys)%nat then Some UNEQUAL
          else all_equal (fun p => values_equal_at_depth n (fst p) (snd p)) (combine xs ys)
      end
  | HASHES s t =>
      match n with
      | O => Some TOO_DEEP
      | S n =>
          if negb (length (entries s) =? length (entries t))%nat then Some UNEQUAL
          else
            all_equal (fun e =>
              let? found := find t (key e) in
              match found with
              | None => Some UNEQUAL
              | Some j =>
                  let? f := array_read (entries t) j in
                  values_equal_at_depth n (value e) (value f)
              end) (entries s)
      end
  end.
End Equality.

(** ** The pairs met, past a depth *)

(** [EqualSeen]: pairs by open addressing; [capacity] is the length of [slots]. *)
Record EqualSeen := { slots : list (option (Addr * Addr)); seen_count : nat }.

Definition equal_seen_slot (p : Addr * Addr) (capacity : nat) : nat :=
  let mixed := Z.lxor (to_u64 (Z.pos (fst p) * 11400714819323198485))
                      (to_u64 (Z.pos (snd p) * 14029467366897019727)) in
  bucket_of (Z.lxor mixed (Z.shiftr mixed 29)) capacity.

(** Puts a pair in its first free slot, as growing the table does. *)
Definition seen_insert (p : Addr * Addr) (ss : list (option (Addr * Addr)))
    : option (list (option (Addr * Addr))) :=
  let? slot := free_bucket (length ss) ss (equal_seen_slot p (length ss)) in
  array_write ss slot (Some p).

Fixpoint seen_refill (old : list (option (Addr * Addr))) (ss : list (option (Addr * Addr)))
    : option (list (option (Addr * Addr))) :=
  match old with
  | [] => Some ss
  | None :: old => seen_refill old ss
  | Some p :: old => let? ss := seen_insert p ss in seen_refill old ss
  end.

Inductive SeenResult := ADDED | PRESENT | SEEN_FAILED.

(** [while(slots[slot]!=nullptr) { if(same pair) return 0; slot=...; }] *)
Fixpoint seen_probe (fuel : nat) (ss : list (option (Addr * Addr))) (p : Addr * Addr)
    (slot : nat) : option (bool * nat) :=
  match fuel with
  | O => None
  | S fuel =>
      let? s := array_read ss slot in
      match s with
      | None => Some (false, slot)
      | Some q =>
          if bool_decide (q = p) then Some (true, slot)
          else seen_probe fuel ss p (next_bucket slot (length ss))
      end
  end.

Definition equal_seen_add (calloc_ok : bool) (p : Addr * Addr) (seen : EqualSeen)
    : option (SeenResult * EqualSeen) :=
  let full := (length (slots seen) <? (seen_count seen + 1) * 2)%nat in
  if full && negb calloc_ok then Some (SEEN_FAILED, seen)
  else
    let? ss :=
      if full then
        seen_refill (slots seen)
          (replicate (if length (slots seen) =? 0 then 64 else length (slots seen) * 2)%nat None)
      else Some (slots seen) in
    let? (found, slot) := seen_probe (length ss) ss p (equal_seen_slot p (length ss)) in
    if found : bool then Some (PRESENT, {| slots := ss; seen_count := seen_count seen |})
    else
      let? ss := array_write ss slot (Some p) in
      Some (ADDED, {| slots := ss; seen_count := S (seen_count seen) |}).

(** ** The iterative comparison *)

Definition EQUAL_FAST_DEPTH : nat := 32.
Definition STRUCTURAL_MAX_DEPTH : nat := 256.

Record EqualPair := { left : GcHeap.Value; right : GcHeap.Value; depth : nat }.

Record EqualState := {
  stack : list EqualPair;               (* top first *)
  stack_room : nat;                     (* its capacity *)
  seen : EqualSeen;
  stack_allocs : nat;                   (* reallocations of the stack so far *)
  seen_allocs : nat;
}.

Section Iterative.
Context (h : Heap) (find : DiamondHash -> GcHeap.Value -> option (option nat)).
Context (realloc_ok calloc_ok : nat -> bool).

(** [equal_stack_push] *)
Definition equal_stack_push (p : EqualPair) (s : EqualState) : bool * EqualState :=
  if (length (stack s) =? stack_room s)%nat then
    let ok := realloc_ok (stack_allocs s) in
    (ok, {| stack := if ok then p :: stack s else stack s;
            stack_room :=
              if ok then (if stack_room s =? 0 then 64 else stack_room s * 2)%nat
              else stack_room s;
            seen := seen s; stack_allocs := S (stack_allocs s);
            seen_allocs := seen_allocs s |})
  else
    (true, {| stack := p :: stack s; stack_room := stack_room s; seen := seen s;
              stack_allocs := stack_allocs s; seen_allocs := seen_allocs s |}).

(** Pushes the pairs, in order, until a push fails. *)
Fixpoint push_all (ps : list EqualPair) (s : EqualState) : bool * EqualState :=
  match ps with
  | [] => (true, s)
  | p :: ps =>
      let '(ok, s) := equal_stack_push p s in
      if ok then push_all ps s else (false, s)
  end.

(** The entries of [s] against those [find] gives of [t], pushed in order. *)
Fixpoint push_entries (es : list HashEntry) (t : DiamondHash) (d : nat) (s : EqualState)
    : option (bool * EqualState) :=
  match es with
  | [] => Some (true, s)
  | e :: es =>
      let? found := find t (key e) in
      match found with
      | None => Some (false, s)
      | Some j =>
          let? f := array_read (entries t) j in
          let '(ok, s) := equal_stack_push
            {| left := value e; right := value f; depth := d |} s in
          if ok then push_entries es t d s else Some (false, s)
      end
  end.

(** The cycle check of a container pair: [None] goes on with the pair,
    [Some b] is the outcome of the round. *)
Definition note_pair (p : EqualPair) (s : EqualState) : option (option bool * EqualState) :=
  if (STRUCTURAL_MAX_DEPTH <=? depth p)%nat then
    match left p, right p with
    | VALUE_OBJECT (Some a), VALUE_OBJECT (Some b) =>
        let? (r, seen') := equal_seen_add (calloc_ok (seen_allocs s)) (a, b) (seen s) in
        let s := {| stack := stack s; stack_room := stack_room s; seen := seen';
                    stack_allocs := stack_allocs s; seen_allocs := S (seen_allocs s) |} in
        Some (match r with
              | SEEN_FAILED => Some false
              | PRESENT => Some true
              | ADDED => None
              end, s)
    | _, _ => None
    end
  else Some (None, s).

(** One round of the loop, on the pair popped: whether to go on. *)
Definition equal_round (p : EqualPair) (s : EqualState) : option (bool * EqualState) :=
  let? c := compare_pair h (left p) (right p) in
  match c with
  | DECIDED b => Some (b, s)
  | ARRAYS xs ys =>
      let? (noted, s) := note_pair p s in
      match noted with
      | Some b => Some (b, s)
      | None =>
          if negb (length xs =? length ys)%nat then Some (false, s)
          else Some (push_all
            ((fun xy => {| left := fst xy; right := snd xy; depth := S (depth p) |})
               <$> combine xs ys) s)
      end
  | HASHES u t =>
      let? (noted, s) := note_pair p s in
      match noted with
      | Some b => Some (b, s)
      | None =>
          if negb (length (entries u) =? length (entries t))%nat then Some (false, s)
          else push_entries (entries u) t (S (depth p)) s
      end
  end.

Definition with_stack (l : list EqualPair) (s : EqualState) : EqualState :=
  {| stack := l; stack_room := stack_room s; seen := seen s;
     stack_allocs := stack_allocs s; seen_allocs := seen_allocs s |}.

(** [while(equal&&count>0)] *)
Fixpoint equal_loop (fuel : nat) (s : EqualState) : option bool :=
  match fuel with
  | O => None
  | S fuel =>
      match stack s with
      | [] => Some true
      | p :: rest =>
          let? (ok, s) := equal_round p (with_stack rest s) in
          if ok : bool then equal_loop fuel s else Some false
      end
  end.

Definition values_equal_iterative (fuel reentry : nat) (l r : GcHeap.Value) : option bool :=
  if (STRUCTURAL_MAX_DEPTH <=? reentry)%nat then Some false
  else
    let s := {| stack := []; stack_room := 0; seen := {| slots := []; seen_count := 0 |};
                stack_allocs := 0; seen_allocs := 0 |} in
    let '(ok, s) := equal_stack_push {| left := l; right := r; depth := 0 |} s in
    if ok then equal_loop fuel s else Some false.
End Iterative.

(** ** Hashing *)

(** [hash_mix64] *)
Definition hash_mix64 (v : Z) : Z :=
  let v := Z.lxor v (Z.shiftr v 33) in
  let v := to_u64 (v * 18397679294719823053) in
  let v := Z.lxor v (Z.shiftr v 33) in
  let v := to_u64 (v * 14181476777654086739) in
  Z.lxor v (Z.shiftr v 33).

(** [hash_bytes]: FNV-1a *)
Fixpoint hash_bytes_loop (data : list Z) (hash : Z) : Z :=
  match data with
  | [] => hash
  | c :: data => hash_bytes_loop data (to_u64 (Z.lxor hash c * 1099511628211))
  end.

Definition hash_bytes (data : list Z) : Z := hash_bytes_loop data 14695981039346656037.

Definition hash_double (x : spec_float) : Z :=
  if double_in_int64 x && SFeqb x (double_of_int (int_of_double x))
  then hash_mix64 (to_u64 (int_of_double x))
  else hash_mix64 (double_bits x).

Section Hashing.
Context (h : Heap).

(** The running hash of an Array's elements. *)
Fixpoint hash_elements (hash_of : GcHeap.Value -> option Z) (vs : list GcHeap.Value)
    (running : Z) : option Z :=
  match vs with
  | [] => Some running
  | v :: vs =>
      let? x := hash_of v in
      hash_elements hash_of vs (hash_mix64 (Z.lxor running x))
  end.

(** The hashes of a Hash's entries, combined in any order. *)
Fixpoint hash_entries (hash_of : GcHeap.Value -> option Z) (es : list HashEntry)
    (combined : Z) : option Z :=
  match es with
  | [] => Some combined
  | e :: es =>
      let? k := hash_of (key e) in
      let? x := hash_of (value e) in
      hash_entries hash_of es (Z.lxor combined (hash_mix64 (Z.lxor k (hash_mix64 x))))
  end.

(** [hash_value_at_depth] with [n] levels left. *)
Fixpoint hash_value_at_depth (n : nat) (v : GcHeap.Value) : option Z :=
  match v with
  | VALUE_NIL => Some (hash_mix64 0)
  | VALUE_UNDEFINED => Some (hash_mix64 UINT64_MAX)
  | VALUE_BOOL b => Some (hash_mix64 (if b then 1 else 2))
  | VALUE_INT z => Some (hash_mix64 (to_u64 z))
  | VALUE_CLASS c => Some (hash_mix64 (to_u64 c))
  | VALUE_FLOAT x => Some (hash_double x)
  | VALUE_OBJECT None => None
  | VALUE_OBJECT (Some a) =>
      let? o := h !! a in
      match payload o with
      | ARRAY values _ _ =>
          let running := hash_mix64 (Z.of_nat (length values)) in
          match n with
          | O => Some running
          | S n => hash_elements (hash_value_at_depth n) values running
          end
      | HASH entries _ _ _ =>
          let? combined :=
            match n with
            | O => Some 0
            | S n => hash_entries (hash_value_at_depth n) entries 0
            end in
          Some (hash_mix64 (Z.lxor combined (Z.of_nat (length entries))))
      | BIGNUM n l => Some (diamond_bignum_hash {| negative := n; limbs := l |})
      | TIME epoch => Some (hash_mix64 (double_bits epoch))
      | SYMBOL chars | STRING chars => Some (hash_bytes chars)
      | _ => Some (hash_mix64 (to_u64 (Z.pos a)))
      end
  end.
End Hashing.

(** ** The operations as Hash uses them

    [hash_find] on a Hash of [values_equal] calls back into [values_equal] for
    its keys; [nest] bounds that nesting, [fuel] the rounds of the iterative
    comparison, [reentry] is [equal_reentry]. *)
Section Keys.
Context (h : Heap) (realloc_ok calloc_ok : nat -> bool) (fuel : nat).

Definition keys_with (equal : GcHeap.Value -> GcHeap.Value -> option bool) : KeyOps :=
  {| hash_value v := default 0 (hash_value_at_depth h STRUCTURAL_MAX_DEPTH v);
     values_equal l r := default false (equal l r) |}.

Fixpoint values_equal_in (nest reentry : nat) (l r : GcHeap.Value) : option bool :=
  match nest with
  | O => None
  | S nest =>
      let find reentry := @hash_find (keys_with (values_equal_in nest reentry)) in
      let? v := values_equal_at_depth h (find reentry) EQUAL_FAST_DEPTH l r in
      match v with
      | EQUAL => Some true
      | UNEQUAL => Some false
      | TOO_DEEP =>
          values_equal_iterative h (find (S reentry)) realloc_ok calloc_ok fuel reentry l r
      end
  end.
End Keys.

(** The key operations of a heap, two levels of nesting deep: enough for keys
    that are no Arrays or Hashes. *)
Definition heap_keys (h : Heap) : KeyOps :=
  keys_with h (values_equal_in h (fun _ => true) (fun _ => true) 0 2 0).

(** [hash_find_string_bytes] *)
Definition string_entry_matches (h : Heap) (chars : list Z) (e : HashEntry) : bool :=
  (hash e =? hash_bytes chars) &&
  match key e with
  | VALUE_OBJECT (Some a) =>
      match payload <$> h !! a with
      | Some (STRING c) => bool_decide (c = chars)
      | _ => false
      end
  | _ => false
  end.

Definition hash_find_string_bytes (h : Heap) (t : DiamondHash) (chars : list Z)
    : option (option nat) :=
  let bucket_capacity := length (buckets t) in
  if (bucket_capacity =? 0)%nat then Some None
  else
    hash_probe (string_entry_matches h chars) t bucket_capacity
      (bucket_of (hash_bytes chars) bucket_capacity).
