(* ===== verification/ValueKeys.v ===== *)
(** * ValueKeys: the keys on which equality and hashing agree

    On keys that are numbers other than Floats, texts, classes, booleans or
    objects compared by identity, [values_equal] is an equivalence and equal
    keys have equal hashes, so a Hash is an ordered map.  A Float breaks the
    contract: an Int beyond 2^53 equals the Float nearest to it, and hashes
    differently. *)

From S2P Require Import Prelude Digits Magnitude Value Bignum GcHeap HashTable HashTableOk.
From S2P Require Import ValueEqual.
From Stdlib Require Import ZArith Lia Bool List SpecFloat.
From stdpp Require Import base numbers list gmap.

Local Open Scope Z_scope.
Local Open Scope c_scope.

(** What a key is compared by. *)
Inductive KeyView :=
  | KNil
  | KUndefined
  | KBool (b : bool)
  | KInt (z : Z)
  | KClass (c : Z)
  | KString (chars : list Z)
  | KSymbol (chars : list Z)
  | KObject (a : Addr).

Section Keys.
Context (h : Heap).

Definition object_view (a : Addr) (p : Payload) : KeyView :=
  match p with
  | STRING c => KString c
  | SYMBOL c => KSymbol c
  | BIGNUM n l => KInt (signed n (value_of l))
  | _ => KObject a
  end.

Definition key_view (v : GcHeap.Value) : KeyView :=
  match v with
  | VALUE_NIL => KNil
  | VALUE_UNDEFINED => KUndefined
  | VALUE_BOOL b => KBool b
  | VALUE_INT z => KInt z
  | VALUE_CLASS c => KClass c
  | VALUE_FLOAT _ => KNil
  | VALUE_OBJECT None => KNil
  | VALUE_OBJECT (Some a) => from_option (fun o => object_view a (payload o)) KNil (h !! a)
  end.

(** No Float, Time, Array or Hash, and a canonical bignum. *)
Definition payload_good (p : Payload) : Prop :=
  match p with
  | ARRAY _ _ _ | HASH _ _ _ _ | TIME _ => False
  | BIGNUM n l => canonical_int (DIAMOND_OBJECT (OBJECT_BIGNUM {| negative := n; limbs := l |}))
  | STRING c | SYMBOL c => Forall (fun x => 0 <= x < 256) c
  | _ => True
  end.

Definition good_key (v : GcHeap.Value) : Prop :=
  match v with
  | VALUE_INT z => in_i64 z
  | VALUE_FLOAT _ | VALUE_OBJECT None => False
  | VALUE_OBJECT (Some a) => exists o, h !! a = Some o /\ payload_good (payload o)
  | _ => True
  end.

(** The Int a key is, as a value of src/value.h. *)
Lemma int_view_good v p z :
  good_key v -> payload_of h v = Some p -> key_view v = KInt z ->
  exists view, int_view v p = Some (Some view) /\ view_ok view /\ view_value view = z.
Proof.
  intros G Ep E. destruct v as [| |i| |[a|]| |]; simpl in *; try done.
  - injection E as <-. destruct (diamond_int_view_spec (DIAMOND_INT i) i) as (w & Ew & Hw);
      [by split|]. simpl in Ew. rewrite Ew. eauto.
  - destruct G as (o & Ho & G). rewrite Ho in *. simpl in *. injection Ep as <-.
    destruct (payload o) as [| |n l| | | | | | | | | | | | | | | | | | | | | | | | |];
      simpl in *; try done. injection E as <-.
    destruct (diamond_int_view_spec (DIAMOND_OBJECT (OBJECT_BIGNUM {| negative := n; limbs := l |}))
      (signed n (value_of l))) as (w & Ew & Hw); [by split|].
    simpl in Ew. injection Ew as <-. eauto.
Qed.

Lemma int_view_none v p :
  good_key v -> payload_of h v = Some p -> (forall z, key_view v <> KInt z) ->
  int_view v p = Some None.
Proof.
  intros G Ep E. destruct v as [| |i| |[a|]| |]; simpl in *; try done;
    try (injection Ep as <-; done); [by destruct (E i)|].
  destruct G as (o & Ho & G). rewrite Ho in *. simpl in *. injection Ep as <-.
  destruct (payload o); simpl in *; try done. by destruct (E (signed negative (value_of limbs))).
Qed.

Lemma good_payload_of v : good_key v -> exists p, payload_of h v = Some p.
Proof.
  destruct v as [| | | |[a|]| |]; simpl; try eauto; [|done]. intros (o & -> & _). eauto.
Qed.

(** Objects other than bignums. *)
Lemma compare_objects_good a b p q o o' :
  h !! a = Some o -> payload o = p -> h !! b = Some o' -> payload o' = q ->
  payload_good p -> payload_good q ->
  payload_is_bignum (Some p) = false -> payload_is_bignum (Some q) = false ->
  exists e, compare_objects a b p q = DECIDED e /\
    (e = true <-> object_view a p = object_view b q).
Proof.
  intros Ho Ep Ho' Eq Gp Gq Bp Bq. unfold compare_objects.
  destruct (decide (a = b)) as [->|Hne].
  - assert (q = p) as -> by congruence. rewrite Nat.eqb_refl. simpl.
    rewrite (bool_decide_true (b = b)) by done. exists true. by destruct p.
  - rewrite (bool_decide_false (a = b)) by done. clear o o' Ho Ep Ho' Eq.
    destruct p, q; simpl in *; try done;
      try (exists false; split; [done|]; split; [done|]; intros E; congruence);
      eexists; (split; [done|]); rewrite bool_decide_eq_true; split; congruence.
Qed.

Definition is_KInt (k : KeyView) : bool := match k with KInt _ => true | _ => false end.

Lemma bignum_view v p :
  good_key v -> payload_of h v = Some p -> payload_is_bignum p = true -> is_KInt (key_view v) = true.
Proof.
  intros G Ep Hb. destruct v as [| | | |[a|]| |]; simpl in *;
    try (injection Ep as <-; done); [|done].
  destruct G as (o & Ho & G). rewrite Ho in *. simpl in *. injection Ep as <-.
  by destruct (payload o).
Qed.

Definition is_object_view (k : KeyView) : bool :=
  match k with KString _ | KSymbol _ | KObject _ => true | _ => false end.

(** A good key that is no bignum: an object, with an object's view, or not. *)
Lemma plain_key_view v p :
  good_key v -> payload_of h v = Some p -> payload_is_bignum p = false ->
  (exists a o, v = VALUE_OBJECT (Some a) /\ h !! a = Some o /\ p = Some (payload o) /\
     payload_good (payload o) /\ key_view v = object_view a (payload o) /\
     is_object_view (key_view v) = true) \/
  (p = None /\ is_object_view (key_view v) = false /\
   forall a, v <> VALUE_OBJECT a).
Proof.
  intros G Ep Hb. destruct v as [| |z| |[a|]| |]; simpl in Ep;
    try (injection Ep as <-; right; split_and!; done); [|done].
  destruct G as (o & Ho & G). rewrite Ho in Ep. injection Ep as <-. left. exists a, o.
  cbn [key_view]. rewrite Ho. simpl. split_and!; try done. by destruct (payload o).
Qed.

Lemma compare_plain l r lp rp :
  good_key l -> good_key r -> payload_of h l = Some lp -> payload_of h r = Some rp ->
  payload_is_bignum lp = false -> payload_is_bignum rp = false ->
  exists e, Some match l, r with
    | VALUE_INT z, VALUE_FLOAT x => DECIDED (SFeqb (double_of_int z) x)
    | VALUE_FLOAT x, VALUE_INT z => DECIDED (SFeqb x (double_of_int z))
    | VALUE_NIL, VALUE_NIL | VALUE_UNDEFINED, VALUE_UNDEFINED => DECIDED true
    | VALUE_BOOL a, VALUE_BOOL b => DECIDED (eqb a b)
    | VALUE_INT a, VALUE_INT b => DECIDED (a =? b)
    | VALUE_FLOAT x, VALUE_FLOAT y => DECIDED (SFeqb x y)
    | VALUE_CLASS a, VALUE_CLASS b => DECIDED (a =? b)
    | VALUE_OBJECT (Some a), VALUE_OBJECT (Some b) =>
        match lp, rp with
        | Some p, Some q => compare_objects a b p q
        | _, _ => DECIDED false
        end
    | _, _ => DECIDED false
    end = Some (DECIDED e) /\ (e = true <-> key_view l = key_view r).
Proof.
  intros Gl Gr El Er Bl Br.
  destruct (plain_key_view l lp Gl El Bl)
    as [(a & o & -> & Ho & -> & Go & Va & Ia)|(-> & Ia & Na)],
           (plain_key_view r rp Gr Er Br)
    as [(b & o' & -> & Ho' & -> & Go' & Vb & Ib)|(-> & Ib & Nb)].
  - rewrite Va, Vb.
    destruct (compare_objects_good a b (payload o) (payload o') o o') as (e & -> & He); eauto.
  - exists false. split; [|split; [done|]; intros E; congruence].
    destruct r; try done. by destruct (Nb object).
  - exists false. split; [|split; [done|]; intros E; congruence].
    destruct l; try done. by destruct (Na object).
  - clear El Er Bl Br Ia Ib.
    destruct l as [|x|x|x|x| |x]; try (by destruct (Na x)); try done;
    destruct r as [|y|y|y|y| |y]; try (by destruct (Nb y)); try done;
    (eexists; split; [reflexivity|]; cbn [key_view];
     rewrite ?eqb_true_iff, ?Z.eqb_eq; split; [congruence|intros E; by inversion E]).
Qed.

(** [values_equal] on good keys compares their views. *)
Lemma compare_good l r :
  good_key l -> good_key r ->
  exists e, compare_pair h l r = Some (DECIDED e) /\ (e = true <-> key_view l = key_view r).
Proof.
  intros Gl Gr. destruct (good_payload_of l Gl) as [lp El], (good_payload_of r Gr) as [rp Er].
  unfold compare_pair. rewrite El, Er.
  destruct (payload_is_bignum lp || payload_is_bignum rp) eqn:Eb.
  - assert (is_float l || is_float r = false) as -> by (by destruct l, r).
    assert (Hi : forall v p, good_key v -> payload_of h v = Some p ->
      (exists z w, key_view v = KInt z /\ int_view v p = Some (Some w) /\ view_ok w /\
         view_value w = z) \/
      (is_KInt (key_view v) = false /\ int_view v p = Some None)).
    { intros v p G E. destruct (key_view v) as [| | |z| | | |] eqn:Ek;
        try (right; split; [done|]; apply int_view_none; [done|done|by rewrite Ek]).
      left. destruct (int_view_good v p z G E Ek) as (w & Hw). by exists z, w. }
    destruct (Hi l lp Gl El) as [(z & w & Ez & -> & Hw & <-)|[Nl ->]],
             (Hi r rp Gr Er) as [(z' & w' & Ez' & -> & Hw' & <-)|[Nr ->]].
    + eexists. split; [done|]. rewrite Ez, Ez', diamond_bignum_compare_spec by done.
      rewrite Z.eqb_eq. destruct (Z.compare_spec (view_value w) (view_value w')); simpl;
        (split; [intros ?; (lia || (f_equal; lia))|intros [= ?]; lia]).
    + exists false. split; [done|]. rewrite Ez. destruct (key_view r); naive_solver.
    + exists false. split; [done|]. rewrite Ez'. destruct (key_view l); naive_solver.
    + exfalso. apply orb_true_iff in Eb as [Eb|Eb].
      * by rewrite (bignum_view l lp) in Nl.
      * by rewrite (bignum_view r rp) in Nr.
  - apply orb_false_iff in Eb as [Bl Br].
    by apply compare_plain.
Qed.

(** ** Hashes *)

Lemma hash_mix64_nonneg v : 0 <= v -> 0 <= hash_mix64 v.
Proof.
  intros Hv. unfold hash_mix64. apply Z.lxor_nonneg. rewrite Z.shiftr_nonneg.
  split; intros _; apply to_u64_range.
Qed.

Lemma hash_bytes_loop_nonneg data x : 0 <= x -> 0 <= hash_bytes_loop data x.
Proof.
  revert x. induction data as [|c data IH]; intros x Hx; [done|]. simpl. apply IH, to_u64_range.
Qed.

Lemma bignum_hash_nonneg b : 0 <= diamond_bignum_hash b.
Proof.
  unfold diamond_bignum_hash.
  assert (H : forall l x, 0 <= x -> 0 <= bignum_hash_loop l x).
  { induction l as [|y l IH]; intros x Hx; [done|]. simpl. apply IH.
    apply Z.lxor_nonneg. rewrite Z.shiftr_nonneg. split; intros _; apply to_u64_range. }
  apply H. by destruct (negative b).
Qed.

Lemma hash_good n v : good_key v ->
  exists x, hash_value_at_depth h n v = Some x /\ 0 <= x.
Proof.
  assert (Hm : forall x, 0 <= x -> exists y, Some (hash_mix64 x) = Some y /\ 0 <= y).
  { intros x Hx. eexists. split; [done|]. by apply hash_mix64_nonneg. }
  destruct n; (destruct v as [|b|z|x|[a|]| |c]; simpl;
    [by intros _; apply Hm|intros _; apply Hm; by destruct b|intros _; apply Hm, to_u64_range
    |done| |done|by intros _; apply Hm|intros _; apply Hm, to_u64_range]);
  intros (o & -> & G); destruct (payload o); simpl in G; try done;
  try (by apply Hm, to_u64_range);
  (eexists; split; [done|]); by (apply hash_bytes_loop_nonneg || apply bignum_hash_nonneg).
Qed.

(** The hash of an object by its view. *)
Lemma hash_object n a o : h !! a = Some o -> payload_good (payload o) ->
  hash_value_at_depth h n (VALUE_OBJECT (Some a)) =
  Some match payload o with
       | STRING c | SYMBOL c => hash_bytes c
       | BIGNUM n l => diamond_bignum_hash {| negative := n; limbs := l |}
       | _ => hash_mix64 (to_u64 (Z.pos a))
       end.
Proof. intros Ho G. destruct n; simpl; rewrite Ho; by destruct (payload o). Qed.

(** An object never has the view of a value that is none. *)
Lemma object_not_scalar v a o :
  good_key v -> (forall x, v <> VALUE_OBJECT x) -> h !! a = Some o -> payload_good (payload o) ->
  key_view v <> object_view a (payload o).
Proof.
  intros G Hv Ho Go. destruct v as [|b|z|x|x| |c]; simpl in *; try (by destruct (Hv x));
    destruct (payload o); simpl in *; try done.
  intros [= ->]. by destruct Go as [_ Go].
Qed.

Lemma hash_same_view n l r :
  good_key l -> good_key r -> key_view l = key_view r ->
  hash_value_at_depth h n l = hash_value_at_depth h n r.
Proof.
  assert (Hcase : forall v, good_key v -> (forall x, v <> VALUE_OBJECT x) \/
    exists a o, v = VALUE_OBJECT (Some a) /\ h !! a = Some o /\ payload_good (payload o) /\
      key_view v = object_view a (payload o)).
  { intros [| | | |[a|]| |] G; try (by left). right. destruct G as (o & Ho & G).
    exists a, o. simpl. by rewrite Ho. }
  intros Gl Gr E.
  destruct (Hcase l Gl) as [Nl|(a & o & -> & Ho & Go & Va)],
           (Hcase r Gr) as [Nr|(a' & o' & -> & Ho' & Go' & Va')].
  - destruct l as [|b|z|x|x| |c]; try (by destruct (Nl x));
    destruct r as [|b'|z'|x'|x'| |c']; try (by destruct (Nr x'));
    simpl in E; try congruence; by destruct n.
  - exfalso. apply (object_not_scalar l a' o' Gl Nl Ho' Go'). congruence.
  - exfalso. apply (object_not_scalar r a o Gr Nr Ho Go). congruence.
  - rewrite Va, Va' in E. rewrite (hash_object n a o), (hash_object n a' o') by done. f_equal.
    destruct (payload o) eqn:Ep, (payload o') eqn:Ep'; simpl in E; try congruence.
    injection E as E. assert (Eb : DIAMOND_OBJECT (OBJECT_BIGNUM
      {| negative := negative; limbs := limbs |}) =
      DIAMOND_OBJECT (OBJECT_BIGNUM {| negative := negative0; limbs := limbs0 |})).
    { apply (represents_unique _ _ (signed negative (value_of limbs))).
      - by split.
      - split; [done|]. simpl. by rewrite E. }
    by injection Eb as -> ->.
Qed.

(** ** Good keys obey the laws *)

Lemma at_depth_decided find n l r e :
  compare_pair h l r = Some (DECIDED e) ->
  values_equal_at_depth h find n l r = Some (if e then EQUAL else UNEQUAL).
Proof. intros E. destruct n; cbn [values_equal_at_depth]; by rewrite E. Qed.

Lemma values_equal_in_decided realloc_ok calloc_ok fuel nest reentry l r e :
  compare_pair h l r = Some (DECIDED e) ->
  values_equal_in h realloc_ok calloc_ok fuel (S nest) reentry l r = Some e.
Proof.
  intros E. cbn [values_equal_in]. rewrite (at_depth_decided _ _ _ _ e) by done. by destruct e.
Qed.

Lemma heap_keys_equal l r : good_key l -> good_key r ->
  @values_equal (heap_keys h) l r = true <-> key_view l = key_view r.
Proof.
  intros Gl Gr. destruct (compare_good l r Gl Gr) as (e & E & He). rewrite <-He.
  change (@values_equal (heap_keys h) l r) with
    (default false (values_equal_in h (fun _ => true) (fun _ => true) 0 2 0 l r)).
  by rewrite (values_equal_in_decided _ _ 0 1 0 l r e).
Qed.

#[export] Instance good_key_laws : @KeyLaws (heap_keys h) good_key.
Proof.
  split.
  - intros k G. cbn [heap_keys keys_with hash_value].
    destruct (hash_good STRUCTURAL_MAX_DEPTH k G) as (x & -> & Hx). done.
  - intros k G. by apply heap_keys_equal.
  - intros j k Gj Gk. rewrite !heap_keys_equal by done. congruence.
  - intros i j k Gi Gj Gk. rewrite !heap_keys_equal by done. congruence.
  - intros j k Gj Gk. rewrite heap_keys_equal by done. intros E.
    cbn [heap_keys keys_with hash_value]. by rewrite (hash_same_view _ j k).
Qed.

(** ** Looking up a literal's bytes *)

Lemma hash_probe_ext f g t probes slot :
  (forall e, e ∈ entries t -> f e = g e) ->
  hash_probe f t probes slot = hash_probe g t probes slot.
Proof.
  intros Hfg. revert slot. induction probes as [|probes IH]; intros slot; [done|].
  cbn [hash_probe]. unfold array_read. destruct (buckets t !! slot) as [[i|]|]; try done.
  destruct (entries t !! i) as [e|] eqn:He; [|done].
  rewrite Hfg by (by eapply list_elem_of_lookup_2). by rewrite IH.
Qed.

Lemma string_bytes_agree t a o chars :
  (forall i e, entries t !! i = Some e -> good_key (key e)) ->
  h !! a = Some o -> payload o = STRING chars -> Forall (fun x => 0 <= x < 256) chars ->
  hash_find_string_bytes h t chars = @hash_find (heap_keys h) t (VALUE_OBJECT (Some a)).
Proof.
  intros Hgood Ho Ep Hc.
  assert (G : good_key (VALUE_OBJECT (Some a))) by (exists o; by rewrite Ep).
  assert (Eh : @hash_value (heap_keys h) (VALUE_OBJECT (Some a)) = hash_bytes chars).
  { cbn [heap_keys keys_with hash_value].
    rewrite (hash_object _ a o Ho); [by rewrite Ep|by rewrite Ep]. }
  unfold hash_find_string_bytes, hash_find. rewrite Eh. destruct (_ =? _)%nat; [done|].
  apply hash_probe_ext. intros e He. apply list_elem_of_lookup in He as [i He].
  unfold string_entry_matches, entry_matches. f_equal. apply eq_true_iff_eq.
  rewrite heap_keys_equal by eauto. cbn [key_view]. rewrite Ho. simpl. rewrite Ep. simpl.
  specialize (Hgood i e He). destruct (key e) as [| |z|x|[b|]| |c]; simpl; try done.
  destruct Hgood as (o' & Ho' & G'). rewrite Ho'. simpl.
  destruct (payload o'); simpl; try done. rewrite bool_decide_eq_true. split; congruence.
Qed.
End Keys.

(** ** A Hash is an ordered map *)

(** C5: A Hash refines an insertion-ordered map: any program of lookups,
    assignments, deletions and copies, on keys that are no Floats, Times,
    Arrays or Hashes, stays inside the table's buffers, ends every probe loop,
    and returns what the same program returns on an association list in
    insertion order (updates keep their place, deletions close the gap).  An
    operation that runs out of memory has no effect, a deletion excepted; with
    every allocation succeeding no operation runs out of memory. *)
Theorem hash_refines_map (h : Heap) (ops : list (HashOp * (bool * bool))) :
  Forall (fun o => op_key_ok (good := good_key h) (fst o)) ops ->
  exists rs t m, hash_run (H := heap_keys h) ops empty_hash = Some (rs, t) /\
    map_run (H := heap_keys h) (fst <$> ops) rs [] m /\
    (pairs t = m \/
     exists i k, fst <$> ops !! i = Some (OpDelete k) /\ rs !! i = Some OutOfMemory) /\
    (Forall (fun o => snd o = (true, true)) ops -> OutOfMemory ∉ rs).
Proof.
  intros F. destruct (hash_run_refines (H := heap_keys h) (good := good_key h) ops empty_hash)
    as (rs & t & m & E & M & [[_ P]|S] & A); [apply empty_hash_ok|done| |].
  - exists rs, t, m. auto.
  - exists rs, t, m. auto.
Qed.

Definition key_object (p : Payload) : Object :=
  {| marked := false; old := false; remembered := false; frozen := false; payload := p |}.

(** Two Strings with the same bytes and a Symbol with them too. *)
Definition key_heap : Heap :=
  <[1%positive := key_object (STRING [97; 98])]>
  (<[2%positive := key_object (STRING [97; 98])]>
  (<[3%positive := key_object (SYMBOL [97; 98])]> ∅)).

Definition key_at (a : Addr) : GcHeap.Value := VALUE_OBJECT (Some a).

Definition key_program : list (HashOp * (bool * bool)) :=
  (fun op => (op, (true, true))) <$>
  [OpSet (key_at 1%positive) (VALUE_INT 10); OpSet (key_at 3%positive) (VALUE_INT 11);
   OpSet (VALUE_INT 7) (VALUE_INT 12); OpSet (key_at 2%positive) (VALUE_INT 13);
   OpGet (key_at 1%positive); OpDelete (key_at 3%positive); OpClone; OpGet (key_at 3%positive); OpGet (VALUE_INT 7)].

Lemma key_heap_good a : a ∈ [1; 2; 3]%positive -> good_key key_heap (key_at a).
Proof.
  intros Ha. repeat (apply elem_of_cons in Ha as [->|Ha]); [..|by apply elem_of_nil in Ha];
    (eexists; split; [reflexivity|]); simpl; repeat constructor; lia.
Qed.

Lemma key_program_good :
  Forall (fun o => op_key_ok (good := good_key key_heap) (fst o)) key_program.
Proof.
  pose proof (key_heap_good 1%positive ltac:(set_solver)).
  pose proof (key_heap_good 2%positive ltac:(set_solver)).
  pose proof (key_heap_good 3%positive ltac:(set_solver)).
  repeat constructor; simpl; auto; unfold_widths; lia.
Qed.

Lemma hash_refines_map_witness :
  exists rs t, hash_run (H := heap_keys key_heap) key_program empty_hash = Some (rs, t) /\
    rs = [Done; Done; Done; Done; Got (Some (VALUE_INT 13)); Got (Some (VALUE_INT 11)); Done;
          Got None; Got (Some (VALUE_INT 12))] /\
    pairs t = [(key_at 1%positive, VALUE_INT 13); (VALUE_INT 7, VALUE_INT 12)].
Proof.
  destruct (hash_refines_map key_heap key_program key_program_good) as (rs & t & m & E & _).
  exists rs, t. split; [exact E|]. vm_compute in E. injection E as <- <-. split; reflexivity.
Defined.

(** The lookup of a String literal by its bytes, which allocates no key, is
    the lookup of a String with those bytes, in every Hash with well-behaved
    keys (a Symbol with the same bytes is a different key). *)
Theorem find_string_bytes_agrees (h : Heap) (t : DiamondHash) (a : Addr) (o : Object)
    (chars : list Z) :
  (forall i e, entries t !! i = Some e -> good_key h (key e)) ->
  h !! a = Some o -> payload o = STRING chars -> Forall (fun x => 0 <= x < 256) chars ->
  hash_find_string_bytes h t chars = hash_find (H := heap_keys h) t (VALUE_OBJECT (Some a)).
Proof. apply string_bytes_agree. Qed.

Definition key_table : DiamondHash :=
  from_option snd empty_hash (hash_run (H := heap_keys key_heap) (take 4 key_program) empty_hash).

Lemma find_string_bytes_agrees_witness :
  hash_find_string_bytes key_heap key_table [97; 98] = Some (Some 0%nat) /\
  hash_find (H := heap_keys key_heap) key_table (key_at 2%positive) = Some (Some 0%nat).
Proof.
  assert (E : hash_find_string_bytes key_heap key_table [97; 98] = Some (Some 0%nat))
    by (vm_compute; reflexivity).
  split; [exact E|]. rewrite <-E. symmetry.
  apply (find_string_bytes_agrees key_heap key_table 2%positive (key_object (STRING [97; 98]))).
  - intros i e He. assert (Hk : key e ∈ [key_at 1%positive; key_at 3%positive; VALUE_INT 7]).
    { apply (list_elem_of_lookup_2 _ i).
      assert (Ek : key <$> entries key_table = [key_at 1%positive; key_at 3%positive; VALUE_INT 7])
        by (vm_compute; reflexivity).
      rewrite <-Ek, list_lookup_fmap, He. reflexivity. }
    clear E He. revert Hk. generalize (key e). clear e. intros k Hk.
    apply elem_of_cons in Hk as [->|Hk]; [apply key_heap_good; set_solver|].
    apply elem_of_cons in Hk as [->|Hk]; [apply key_heap_good; set_solver|].
    apply list_elem_of_singleton in Hk as ->. simpl. unfold_widths. lia.
  - reflexivity.
  - reflexivity.
  - repeat constructor; lia.
Defined.

(** Equality and hashing disagree on Floats: 2^53 + 1 and the Float 2^53 are
    equal but hash differently, so a Hash that holds the Float as a key does not
    find the equal Int; and equality is not transitive through that Float. *)
Theorem float_key_splits :
  let K := heap_keys ∅ in
  let f := VALUE_FLOAT (double_of_int 9007199254740992) in
  let i := VALUE_INT 9007199254740993 in
  let j := VALUE_INT 9007199254740992 in
  values_equal f i = true /\ hash_value f <> hash_value i /\
  values_equal i f = true /\ values_equal f j = true /\ values_equal i j = false /\
  hash_run [(OpSet f VALUE_NIL, (true, true)); (OpGet i, (true, true))] empty_hash =
    Some ([Done; Got None],
          from_option snd empty_hash (hash_run [(OpSet f VALUE_NIL, (true, true))] empty_hash)).
Proof. vm_compute. split_and!; try reflexivity. discriminate. Qed.

(** A deletion whose table rebuild cannot allocate reports failure after it
    has moved the entries: the old buckets stay, and the next lookup of the
    last key reads an entry past [count]. *)
Theorem failed_delete_reads_past_count :
  let K := heap_keys ∅ in
  exists t, hash_run [(OpSet (VALUE_INT 1) VALUE_NIL, (true, true));
                      (OpSet (VALUE_INT 2) VALUE_NIL, (true, true));
                      (OpDelete (VALUE_INT 1), (true, false))] empty_hash =
              Some ([Done; Done; OutOfMemory], t) /\
    length (entries t) = 1%nat /\ Some 1%nat ∈ buckets t /\
    hash_find t (VALUE_INT 2) = None.
Proof.
  eexists. split; [vm_compute; reflexivity|]. split; [reflexivity|].
  split; [|vm_compute; reflexivity].
  apply (list_elem_of_lookup_2 _ (bucket_of (hash_value (KeyOps := heap_keys ∅) (VALUE_INT 2)) 8)).
  vm_compute. reflexivity.
Qed.
