(* ===== verification/ValueEqualOk.v ===== *)
(** * ValueEqualOk: values_equal decides structural equality

    Two values are structurally equal when some relation that contains them
    relates only equal leaves, Arrays of related elements, and Hashes with
    related values under equal keys: the coinductive reading, in which cyclic
    structures of one shape are equal.  [values_equal] decides it. *)

From S2P Require Import Prelude Value Bignum GcHeap HashTable HashTableOk ValueEqual ValueKeys.
From Stdlib Require Import ZArith Lia Bool List SpecFloat.
From stdpp Require Import base numbers list gmap.

Local Open Scope Z_scope.
Local Open Scope c_scope.

(** ** The pairs met *)

Lemma seen_slot_lt p n : (equal_seen_slot p (2 ^ n) < 2 ^ n)%nat.
Proof.
  unfold equal_seen_slot. apply bucket_of_lt.
  set (m := Z.lxor (to_u64 _) (to_u64 _)).
  assert (Hm : 0 <= m) by (apply Z.lxor_nonneg; split; intros _; apply to_u64_range).
  apply Z.lxor_nonneg. rewrite Z.shiftr_nonneg. done.
Qed.

(** The table holds exactly [ps], at most half full. *)
Record seen_ok (ps : list (Addr * Addr)) (seen : EqualSeen) : Prop := {
  sn_nodup : NoDup ps;
  sn_count : seen_count seen = length ps;
  sn_table : (slots seen = [] /\ ps = []) \/
    exists n, length (slots seen) = (2 ^ (6 + n))%nat /\
      (length ps * 2 <= length (slots seen))%nat /\
      placed (fun p => equal_seen_slot p (length (slots seen))) ps (slots seen);
}.

(** The keys of a table, in bucket order. *)
Definition table_keys {A} (ss : list (option A)) : list A := omap id ss.

Lemma placed_keys `{EqDecision K} home (ks : list K) bs k :
  placed home ks bs -> k ∈ ks <-> k ∈ table_keys bs.
Proof.
  intros P. unfold table_keys. rewrite list_elem_of_omap. split.
  - intros Hk. destruct (pl_path _ _ _ P k Hk) as (d & _ & Hs & _).
    exists (Some k). split; [by eapply list_elem_of_lookup_2|done].
  - intros (x & Hx & E). simpl in E. subst.
    apply list_elem_of_lookup in Hx as [s Hs]. by eapply (pl_in _ _ _ P).
Qed.

Lemma placed_keys_nodup `{EqDecision K} home (ks : list K) bs :
  placed home ks bs -> NoDup (table_keys bs).
Proof.
  intros P. assert (Ho := pl_once _ _ _ P). clear P. unfold table_keys.
  induction bs as [|[k|] bs IH]; simpl; [constructor| |].
  - constructor.
    + intros Hk. apply list_elem_of_omap in Hk as (x & Hx & E). simpl in E. subst.
      apply list_elem_of_lookup in Hx as [s Hs].
      by specialize (Ho 0%nat (S s) k eq_refl Hs).
    + apply IH. intros s s' j Hs Hs'. specialize (Ho (S s) (S s') j Hs Hs'). lia.
  - apply IH. intros s s' j Hs Hs'. specialize (Ho (S s) (S s') j Hs Hs'). lia.
Qed.

Lemma seen_refill_placed n old ks ss :
  length ss = (2 ^ n)%nat -> placed (fun p => equal_seen_slot p (length ss)) ks ss ->
  (length ks + length (table_keys old) < length ss)%nat ->
  NoDup (table_keys old) -> (forall k, k ∈ table_keys old -> k ∉ ks) ->
  exists ss', seen_refill old ss = Some ss' /\ length ss' = length ss /\
    placed (fun p => equal_seen_slot p (length ss)) (ks ++ table_keys old) ss'.
Proof.
  revert ks ss. induction old as [|[p|] old IH]; intros ks ss Hn P Hlt Hnd Hnew.
  - exists ss. simpl. by rewrite app_nil_r.
  - simpl in Hlt, Hnd. apply NoDup_cons in Hnd as [Hp Hnd].
    assert (Hnp : p ∉ ks) by (apply Hnew; constructor).
    destruct (placed_insert (fun p => equal_seen_slot p (length ss)) ks ss n p)
      as (s & Ef & Hs & P'); [done|done|lia|done| |].
    { rewrite Hn. apply seen_slot_lt. }
    cbn [seen_refill]. unfold seen_insert. rewrite Ef, array_write_in by done.
    destruct (IH (ks ++ [p]) (<[s := Some p]> ss)) as (ss' & E & L & P'').
    + by rewrite length_insert.
    + by rewrite length_insert.
    + rewrite length_insert, length_app. simpl. unfold table_keys in *. lia.
    + done.
    + intros k Hk. rewrite elem_of_app, list_elem_of_singleton. intros [Hin| ->]; [|done].
      apply (Hnew k); [by constructor|done].
    + rewrite length_insert in L, P''. exists ss'. split_and!; [done|done|].
      rewrite <-app_assoc in P''. done.
  - simpl in *. by apply IH.
Qed.

Lemma next_bucket_step {A} (ss : list A) n slot :
  length ss = (2 ^ n)%nat -> next_bucket slot (length ss) = step_bucket (length ss) slot 1.
Proof. intros ->. apply next_bucket_mod. Qed.

(** The probe of [equal_seen_add]. *)
Lemma seen_probe_found n ss p slot d fuel :
  length ss = (2 ^ n)%nat -> (slot < length ss)%nat -> (d < fuel)%nat ->
  ss !! step_bucket (length ss) slot d = Some (Some p) ->
  (forall d', (d' < d)%nat -> occupied ss (step_bucket (length ss) slot d')) ->
  exists s, seen_probe fuel ss p slot = Some (true, s).
Proof.
  intros Hn. revert slot d. induction fuel as [|fuel IH]; intros slot d Hs Hd Hf Ho; [lia|].
  cbn [seen_probe]. unfold array_read. destruct d as [|d].
  - rewrite step_bucket_0 in Hf by done. rewrite Hf, bool_decide_true by done. eauto.
  - destruct (Ho 0%nat) as [q Hq]; [lia|]. rewrite step_bucket_0 in Hq by done. rewrite Hq.
    case_bool_decide; [eauto|]. rewrite (next_bucket_step ss n) by done.
    apply (IH _ d).
    + apply step_bucket_lt. lia.
    + lia.
    + by rewrite step_bucket_S.
    + intros d' Hd'. rewrite step_bucket_S. apply Ho. lia.
Qed.

Lemma seen_probe_missed n ss p slot d fuel :
  length ss = (2 ^ n)%nat -> (slot < length ss)%nat -> (d < fuel)%nat -> Some p ∉ ss ->
  ss !! step_bucket (length ss) slot d = Some None ->
  (forall d', (d' < d)%nat -> occupied ss (step_bucket (length ss) slot d')) ->
  seen_probe fuel ss p slot = Some (false, step_bucket (length ss) slot d).
Proof.
  intros Hn. revert slot d. induction fuel as [|fuel IH]; intros slot d Hs Hd Hp Hf Ho; [lia|].
  cbn [seen_probe]. unfold array_read. destruct d as [|d].
  - rewrite step_bucket_0 in * by done. by rewrite Hf.
  - destruct (Ho 0%nat) as [q Hq]; [lia|]. rewrite step_bucket_0 in Hq by done. rewrite Hq.
    rewrite bool_decide_false by (intros ->; apply Hp; by eapply list_elem_of_lookup_2).
    rewrite (next_bucket_step ss n) by done. rewrite (IH _ d).
    + by rewrite step_bucket_S.
    + apply step_bucket_lt. lia.
    + lia.
    + done.
    + by rewrite step_bucket_S.
    + intros d' Hd'. rewrite step_bucket_S. apply Ho. lia.
Qed.

(** The table after growth, if it was needed. *)
Lemma seen_grown ps seen :
  seen_ok ps seen ->
  exists n ss, length ss = (2 ^ (6 + n))%nat /\ (length ps * 2 + 2 <= length ss)%nat /\
    placed (fun p => equal_seen_slot p (length ss)) ps ss /\
    (if (length (slots seen) <? (seen_count seen + 1) * 2)%nat then
       seen_refill (slots seen)
         (replicate (if length (slots seen) =? 0 then 64 else length (slots seen) * 2)%nat None)
     else Some (slots seen)) = Some ss.
Proof.
  intros [Hnd Hc Ht]. rewrite Hc. destruct Ht as [[Es ->]|(n & Hn & Hl & P)].
  - rewrite Es. exists 0%nat, (replicate 64 None). simpl length at 3.
    split_and!; [done|simpl; lia| |done]. apply placed_empty.
  - pose proof (pow2_pos (6 + n)).
    destruct (Nat.ltb_spec (length (slots seen)) ((length ps + 1) * 2)) as [Hf|Hf].
    + destruct (Nat.eqb_spec (length (slots seen)) 0) as [E0|_]; [lia|].
      assert (Hlen : length (table_keys (slots seen)) = length ps).
      { apply Permutation_length, NoDup_Permutation; [by eapply placed_keys_nodup|done|].
        intros x. symmetry. by eapply placed_keys. }
      assert (H2 : (length (slots seen) * 2 = 2 ^ (6 + S n))%nat).
      { rewrite Nat.add_succ_r, Nat.pow_succ_r', Hn. lia. }
      destruct (seen_refill_placed (6 + S n) (slots seen) []
        (replicate (length (slots seen) * 2) None)) as (ss & E & L & P').
      * by rewrite length_replicate.
      * apply placed_empty.
      * rewrite length_replicate, Hlen. simpl length at 1. lia.
      * by eapply placed_keys_nodup.
      * intros k _. apply not_elem_of_nil.
      * rewrite length_replicate in L, P'. exists (S n), ss.
        split_and!; [by rewrite L|rewrite L; lia| |done]. rewrite L.
        destruct P' as [P1 P2 P3]. split.
        -- intros s k Hs. eapply placed_keys; [exact P|]. by apply (P1 s).
        -- done.
        -- intros k Hk. apply P3. simpl. by eapply placed_keys in Hk.
    + exists n, (slots seen). split_and!; [done|lia|done|done].
Qed.

(** [equal_seen_add] is insertion into a set. *)
Lemma equal_seen_add_spec calloc_ok p ps seen :
  seen_ok ps seen ->
  exists r seen', equal_seen_add calloc_ok p seen = Some (r, seen') /\
    match r with
    | SEEN_FAILED => calloc_ok = false
    | PRESENT => p ∈ ps /\ seen_ok ps seen'
    | ADDED => p ∉ ps /\ seen_ok (ps ++ [p]) seen'
    end.
Proof.
  intros K. unfold equal_seen_add.
  destruct (seen_grown ps seen K) as (n & ss & Hn & Hl & P & E).
  destruct K as [Hnd Hc _]. pose proof (pow2_pos (6 + n)).
  destruct (_ && negb calloc_ok) eqn:Ef.
  { apply andb_true_iff in Ef as [_ Ef]. eexists _, _. split; [done|]. by destruct calloc_ok. }
  cbv zeta. rewrite E.
  assert (Hs : (equal_seen_slot p (length ss) < length ss)%nat).
  { rewrite Hn. apply seen_slot_lt. }
  destruct (decide (p ∈ ps)) as [Hin|Hout].
  - destruct (pl_path _ _ _ P p Hin) as (d & Hd & Hf & Ho).
    destruct (seen_probe_found (6 + n) ss p _ d (length ss) Hn Hs Hd Hf Ho) as [s ->].
    eexists _, _. split; [done|]. split; [done|]. split; [done|done|]. right. exists n.
    cbn [slots]. split_and!; [done|lia|done].
  - destruct (placed_free _ ps ss P) as [f Hf]; [lia|].
    destruct (first_free (6 + n) ss _ f Hn Hs Hf) as (d & Hd & Hfd & Ho).
    rewrite (seen_probe_missed (6 + n) ss p _ d); try done.
    + rewrite array_write_in by (by eapply lookup_lt_Some).
      eexists _, _. split; [done|]. split; [done|]. split.
      * apply NoDup_app. split_and!; [done| |apply NoDup_singleton].
        intros x Hx ->%list_elem_of_singleton. done.
      * simpl. rewrite length_app. simpl. lia.
      * right. exists n. cbn [slots]. rewrite length_insert, length_app.
        change (length [p]) with 1%nat. split_and!; [done|lia|].
        by apply (placed_at (fun q => equal_seen_slot q (length ss))).
    + intros Hp. apply list_elem_of_lookup in Hp as [s Hp]. by apply (pl_in _ _ _ P) in Hp.
Qed.

(** ** Structural equality *)

Section Structural.
Context (h : Heap) (find : DiamondHash -> GcHeap.Value -> option (option nat)).

(** What [R] must say of the parts of a pair. *)
Definition parts_related (R : GcHeap.Value -> GcHeap.Value -> Prop) (l r : GcHeap.Value)
    : Prop :=
  match compare_pair h l r with
  | Some (DECIDED b) => b = true
  | Some (ARRAYS xs ys) => Forall2 R xs ys
  | Some (HASHES s t) =>
      length (entries s) = length (entries t) /\
      forall e, e ∈ entries s -> exists j f,
        find t (key e) = Some (Some j) /\ entries t !! j = Some f /\ R (value e) (value f)
  | None => False
  end.

Definition bisimulation (R : GcHeap.Value -> GcHeap.Value -> Prop) : Prop :=
  forall l r, R l r -> parts_related R l r.

Definition structurally_equal (l r : GcHeap.Value) : Prop :=
  exists R, bisimulation R /\ R l r.

Lemma parts_related_mono (R R' : GcHeap.Value -> GcHeap.Value -> Prop) l r :
  (forall x y, R x y -> R' x y) -> parts_related R l r -> parts_related R' l r.
Proof.
  intros HR. unfold parts_related. destruct (compare_pair h l r) as [[|xs ys|s t]|]; try done.
  - intros F. eapply Forall2_impl; [exact F|done].
  - intros [L F]. split; [done|]. intros e He. destruct (F e He) as (j & f & ? & ? & ?). eauto 6.
Qed.

(** Structural equality is the largest bisimulation. *)
Lemma structurally_equal_parts l r :
  structurally_equal l r <-> parts_related structurally_equal l r.
Proof.
  split.
  - intros (R & HR & H). eapply parts_related_mono; [|by apply HR]. intros x y Hxy. by exists R.
  - intros H. exists (fun x y => structurally_equal x y \/ x = l /\ y = r). split; [|by right].
    assert (Hm : forall x y, parts_related structurally_equal x y -> parts_related
      (fun x y => structurally_equal x y \/ x = l /\ y = r) x y)
      by (intros x y; apply parts_related_mono; auto).
    intros x y [(R & HR & Hxy)|[-> ->]]; [|by apply Hm].
    apply Hm. eapply parts_related_mono; [|by apply HR]. intros x' y' Hxy'. by exists R.
Qed.

(** ** Heaps on which the comparison is defined *)

Definition fine (v : GcHeap.Value) : Prop :=
  is_Some (payload_of h v) /\ forall z, v = VALUE_INT z -> in_i64 z.

Definition hash_in_heap (t : DiamondHash) : Prop :=
  exists a o cards, h !! a = Some o /\
    payload o = HASH (entries t) (hash_capacity t) (buckets t) cards.

(** No dangling pointer in a container, and lookups by the keys of one Hash in
    another are defined. *)
Record heap_fine : Prop := {
  hf_array : forall a o xs c cards, h !! a = Some o -> payload o = ARRAY xs c cards ->
    Forall fine xs;
  hf_hash : forall t e, hash_in_heap t -> e ∈ entries t -> fine (value e);
  hf_find : forall s t e, hash_in_heap s -> hash_in_heap t -> e ∈ entries s ->
    exists r, find t (key e) = Some r /\ forall j, r = Some j -> is_Some (entries t !! j);
}.

(** Two distinct containers come from the heap. *)
Lemma compare_container l r :
  match compare_pair h l r with
  | Some (ARRAYS xs ys) => exists a b o o' c c' cs cs',
      l = VALUE_OBJECT (Some a) /\ r = VALUE_OBJECT (Some b) /\
      h !! a = Some o /\ payload o = ARRAY xs c cs /\ h !! b = Some o' /\ payload o' = ARRAY ys c' cs'
  | Some (HASHES s t) => hash_in_heap s /\ hash_in_heap t /\ exists a b,
      l = VALUE_OBJECT (Some a) /\ r = VALUE_OBJECT (Some b) /\
      is_Some (h !! a) /\ is_Some (h !! b)
  | _ => True
  end.
Proof.
  unfold compare_pair.
  destruct (payload_of h l) as [lp|] eqn:El; [|done].
  destruct (payload_of h r) as [rp|] eqn:Er; [|done].
  destruct (_ || _).
  { destruct (_ || _); [done|]. destruct (int_view l lp); [|done]. by destruct (int_view r rp). }
  destruct l as [| | | |[a|]| |], r as [| | | |[b|]| |]; try done.
  simpl in El, Er. destruct (h !! a) as [o|] eqn:Ho; [|done]. injection El as <-.
  destruct (h !! b) as [o'|] eqn:Ho'; [|done]. injection Er as <-.
  unfold compare_objects. destruct (negb _); [done|].
  destruct (payload o) eqn:Ep; try (by destruct (bool_decide _)); try done;
    (destruct (bool_decide (a = b)); [done|]); destruct (payload o') eqn:Ep'; try done.
  - by exists a, b, o, o', capacity, capacity0, cards, cards0.
  - split_and!; [by exists a, o, cards|by exists b, o', cards0|]. exists a, b. eauto.
Qed.

Lemma compare_defined l r : fine l -> fine r -> is_Some (compare_pair h l r).
Proof.
  intros [[lp El] Hl] [[rp Er] Hr]. unfold compare_pair. rewrite El, Er.
  assert (Hv : forall v p, (forall z, v = VALUE_INT z -> in_i64 z) ->
    is_Some (int_view v p)).
  { intros v p Hz. destruct v as [| |z| | | |]; simpl; try (by destruct p as [[]|]; eauto).
    destruct (diamond_int_view_spec (DIAMOND_INT z) z) as (w & Ew & _).
    - split; [|done]. by apply Hz.
    - simpl in Ew. rewrite Ew. eauto. }
  destruct (_ || _); [|eauto]. destruct (_ || _); [eauto|].
  destruct (Hv l lp Hl) as [lv ->]. destruct (Hv r rp Hr) as [rv ->]. eauto.
Qed.

Context (HF : heap_fine).

Lemma arrays_fine l r xs ys :
  compare_pair h l r = Some (ARRAYS xs ys) -> Forall fine xs /\ Forall fine ys.
Proof.
  intros E. pose proof (compare_container l r) as H. rewrite E in H.
  destruct H as (a & b & o & o' & c & c' & cs & cs' & _ & _ & Ho & Ep & Ho' & Ep').
  split; [by eapply (hf_array HF a o)|by eapply (hf_array HF b o')].
Qed.

Lemma combine_fine (xs ys : list GcHeap.Value) p :
  Forall fine xs -> Forall fine ys -> p ∈ combine xs ys -> fine (fst p) /\ fine (snd p).
Proof.
  intros Fx Fy Hp. destruct p as [x y]. rewrite Forall_forall in Fx, Fy.
  apply list_elem_of_In in Hp. split.
  - apply Fx, list_elem_of_In. by eapply in_combine_l.
  - apply Fy, list_elem_of_In. by eapply in_combine_r.
Qed.

Lemma Forall2_combine (R : GcHeap.Value -> GcHeap.Value -> Prop) xs ys :
  Forall2 R xs ys <-> length xs = length ys /\ Forall (fun p => R (fst p) (snd p)) (combine xs ys).
Proof.
  revert ys. induction xs as [|x xs IH]; intros [|y ys]; simpl.
  - split; [by split|constructor].
  - split; [by intros H; inversion H|by intros [? _]].
  - split; [by intros H; inversion H|by intros [? _]].
  - rewrite Forall2_cons, IH, Forall_cons. simpl. naive_solver.
Qed.

(** ** The recursive comparison *)

(** A verdict is right about [P]. *)
Definition verdict_ok (v : Verdict) (P : Prop) : Prop :=
  match v with EQUAL => P | UNEQUAL => ~ P | TOO_DEEP => True end.

#[local] Instance verdict_ok_proper v : Proper (iff ==> iff) (verdict_ok v).
Proof. intros P Q E. by destruct v; simpl; rewrite ?E. Qed.

Lemma all_equal_ok {A} (f : A -> option Verdict) (P : A -> Prop) (l : list A) :
  (forall x, x ∈ l -> exists v, f x = Some v /\ verdict_ok v (P x)) ->
  exists v, all_equal f l = Some v /\ verdict_ok v (Forall P l).
Proof.
  induction l as [|x l IH]; intros Hf.
  - exists EQUAL. split; [done|]. by constructor.
  - destruct (Hf x) as (v & Ev & Hv); [by constructor|]. cbn [all_equal]. rewrite Ev.
    destruct v; simpl in Hv.
    + destruct IH as (w & -> & Hw); [intros y Hy; apply Hf; by constructor|].
      exists w. split; [done|]. destruct w; simpl in *; try done.
      * by constructor.
      * intros H. apply Hw. by inversion H.
    + exists UNEQUAL. split; [done|]. intros H. apply Hv. by inversion H.
    + by exists TOO_DEEP.
Qed.

Lemma values_equal_at_depth_ok n l r :
  fine l -> fine r ->
  exists v, values_equal_at_depth h find n l r = Some v /\ verdict_ok v (structurally_equal l r).
Proof.
  revert l r. induction n as [|n IH]; intros l r Fl Fr;
    destruct (compare_defined l r Fl Fr) as [p Ep]; cbn [values_equal_at_depth]; rewrite Ep;
    pose proof (structurally_equal_parts l r) as Hse; unfold parts_related in Hse;
    rewrite Ep in Hse; destruct p as [b|xs ys|s t].
  - eexists. split; [done|]. destruct b; simpl; by rewrite Hse.
  - by exists TOO_DEEP.
  - by exists TOO_DEEP.
  - eexists. split; [done|]. destruct b; simpl; by rewrite Hse.
  - rewrite Forall2_combine in Hse. destruct (arrays_fine l r xs ys Ep) as [Fx Fy].
    destruct (Nat.eqb_spec (length xs) (length ys)) as [El|El]; simpl negb; cbv iota.
    + destruct (all_equal_ok (fun p => values_equal_at_depth h find n (fst p) (snd p))
        (fun p => structurally_equal (fst p) (snd p)) (combine xs ys)) as (v & -> & Hv).
      { intros p Hp. destruct (combine_fine xs ys p Fx Fy Hp). by apply IH. }
      exists v. split; [done|]. rewrite Hse. destruct v; simpl in *; naive_solver.
    + exists UNEQUAL. split; [done|]. simpl. rewrite Hse. naive_solver.
  - pose proof (compare_container l r) as Hc. rewrite Ep in Hc. destruct Hc as (Hs & Ht & _).
    destruct (Nat.eqb_spec (length (entries s)) (length (entries t))) as [El|El];
      simpl negb; cbv iota; [|exists UNEQUAL; split; [done|]; simpl; rewrite Hse; naive_solver].
    destruct (all_equal_ok (fun e =>
        let? found := find t (key e) in
        match found with
        | None => Some UNEQUAL
        | Some j => let? f := array_read (entries t) j in
            values_equal_at_depth h find n (value e) (value f)
        end) (fun e => exists j f, find t (key e) = Some (Some j) /\ entries t !! j = Some f /\
          structurally_equal (value e) (value f)) (entries s)) as (v & -> & Hv).
    { intros e He. destruct (hf_find HF s t e Hs Ht He) as (found & Ef & Hj). rewrite Ef.
      destruct found as [j|].
      - destruct (Hj j eq_refl) as [f Hf]. unfold array_read. rewrite Hf.
        destruct (IH (value e) (value f)) as (v & -> & Hv).
        { by apply (hf_hash HF s). }
        { apply (hf_hash HF t); [done|]. by eapply list_elem_of_lookup_2. }
        exists v. split; [done|]. destruct v; simpl in *; [eauto| |done].
        intros (j' & f' & [= <-] & Hf' & Hse'). rewrite Hf in Hf'. injection Hf' as <-. done.
      - exists UNEQUAL. split; [done|]. by intros (j & f & ? & _). }
    exists v. split; [done|]. rewrite Hse. rewrite Forall_forall in Hv.
    destruct v; simpl in *; naive_solver.
Qed.
End Structural.

(** ** The iterative comparison *)

Definition in_stack (st : list EqualPair) (x y : GcHeap.Value) : Prop :=
  exists p, p ∈ st /\ left p = x /\ right p = y.

(** The slots of a container. *)
Definition payload_width (p : Payload) : nat :=
  match p with ARRAY xs _ _ => length xs | HASH es _ _ _ => length es | _ => 0 end.

Definition heap_width (h : Heap) : nat :=
  max_list ((fun ao => payload_width (payload (snd ao))) <$> map_to_list h).

Lemma heap_width_le (h : Heap) a o :
  h !! a = Some o -> (payload_width (payload o) <= heap_width h)%nat.
Proof.
  intros Ho. apply max_list_elem_of_le, list_elem_of_fmap. exists (a, o).
  split; [done|]. by apply elem_of_map_to_list.
Qed.

(** The rounds a pair with [k] levels to the cycle check can still cause. *)
Fixpoint pair_weight (width k : nat) : nat :=
  match k with O => 1 | S k => 1 + width * pair_weight width k end.

Section Loop.
Context (h : Heap) (find : DiamondHash -> GcHeap.Value -> option (option nat)).
Context (HF : heap_fine h find).
Context (realloc_ok calloc_ok : nat -> bool) (l0 r0 : GcHeap.Value).

Abbreviation same := (structurally_equal h find).
Abbreviation parts := (parts_related h find).

(** Some allocation failed. *)
Definition alloc_failed : Prop :=
  (exists n, realloc_ok n = false) \/ (exists n, calloc_ok n = false).

(** [D]: the pairs compared so far; [ps]: the container pairs remembered. *)
Record loop_inv (D : GcHeap.Value -> GcHeap.Value -> Prop) (ps : list (Addr * Addr))
    (s : EqualState) : Prop := {
  li_done : forall x y, D x y -> parts (fun x y => D x y \/ in_stack (stack s) x y) x y;
  li_seen : seen_ok ps (seen s);
  li_met : forall a b, (a, b) ∈ ps -> D (VALUE_OBJECT (Some a)) (VALUE_OBJECT (Some b)) /\
    is_Some (h !! a) /\ is_Some (h !! b);
  li_fine : forall p, p ∈ stack s -> fine h (left p) /\ fine h (right p);
  li_root : D l0 r0 \/ in_stack (stack s) l0 r0;
  li_same : same l0 r0 -> forall p, p ∈ stack s -> same (left p) (right p);
}.

Definition item_weight (p : EqualPair) : nat :=
  pair_weight (heap_width h) (STRUCTURAL_MAX_DEPTH - depth p).

Definition loop_measure (ps : list (Addr * Addr)) (st : list EqualPair) : nat :=
  (size h * size h - length ps) * (heap_width h + 1) + sum_list_with item_weight st.

(** Remembered pairs are pairs of heap objects. *)
Lemma met_bound ps :
  NoDup ps -> (forall a b, (a, b) ∈ ps -> is_Some (h !! a) /\ is_Some (h !! b)) ->
  (length ps <= size h * size h)%nat.
Proof.
  intros Hnd Hin. set (d := (map_to_list h).*1).
  assert (Hd : length d = size h).
  { unfold d. by rewrite length_fmap, length_map_to_list. }
  assert (Hm : forall a, is_Some (h !! a) -> a ∈ d).
  { intros a [o Ho]. apply list_elem_of_fmap. exists (a, o). split; [done|].
    by apply elem_of_map_to_list. }
  rewrite <-Hd, <-length_prod. apply submseteq_length, NoDup_submseteq; [done|].
  intros [a b] Hab. destruct (Hin a b Hab) as [Ha Hb].
  apply list_elem_of_In, in_prod; by apply list_elem_of_In, Hm.
Qed.

(** The loop ends with the pairs compared a bisimulation. *)
Lemma loop_finished D ps s : loop_inv D ps s -> stack s = [] -> same l0 r0.
Proof.
  intros K E. exists D. destruct (li_root _ _ _ K) as [H|(p & Hp & _)].
  - split; [|done]. intros x y Hxy. eapply parts_related_mono; [|by apply (li_done _ _ _ K)].
    intros x' y' [?|(p & Hp & _)]; [done|]. rewrite E in Hp. by apply elem_of_nil in Hp.
  - rewrite E in Hp. by apply elem_of_nil in Hp.
Qed.

(** ** Pushing *)

Lemma equal_stack_push_spec p s ok s' :
  equal_stack_push realloc_ok p s = (ok, s') ->
  seen s' = seen s /\ ((ok = true /\ stack s' = p :: stack s) \/ (ok = false /\ alloc_failed)).
Proof.
  unfold equal_stack_push. destruct (_ =? _)%nat; intros [= <- <-]; simpl.
  - split; [done|]. destruct (realloc_ok (stack_allocs s)) eqn:E; [by left|right].
    split; [done|]. left. eauto.
  - split; [done|]. by left.
Qed.

Lemma push_all_spec qs s ok s' :
  push_all realloc_ok qs s = (ok, s') ->
  seen s' = seen s /\
  ((ok = true /\ stack s' = reverse qs ++ stack s) \/ (ok = false /\ alloc_failed)).
Proof.
  revert s. induction qs as [|q qs IH]; intros s; cbn [push_all].
  - intros [= <- <-]. split; [done|]. by left.
  - destruct (equal_stack_push realloc_ok q s) as [ok1 s1] eqn:E1.
    apply equal_stack_push_spec in E1 as [Es1 [[-> St1]|[-> F]]].
    + intros [Es H]%IH. rewrite Es, Es1. split; [done|].
      destruct H as [[-> St]|H]; [left|by right]. split; [done|].
      by rewrite St, St1, reverse_cons, <-app_assoc.
    + intros [= <- <-]. split; [done|]. by right.
Qed.

(** The entry pairs of two Hashes. *)
Definition entry_pair (t : DiamondHash) (d : nat) (e : HashEntry) (q : EqualPair) : Prop :=
  exists j f, find t (key e) = Some (Some j) /\ entries t !! j = Some f /\
    left q = value e /\ right q = value f /\ depth q = d.

Lemma push_entries_spec u t d es s :
  hash_in_heap h u -> hash_in_heap h t -> (forall e, e ∈ es -> e ∈ entries u) ->
  exists ok s', push_entries find realloc_ok es t d s = Some (ok, s') /\ seen s' = seen s /\
    ((ok = true /\ exists qs, Forall2 (entry_pair t d) es qs /\ stack s' = reverse qs ++ stack s) \/
     (ok = false /\ (alloc_failed \/ exists e, e ∈ es /\ find t (key e) = Some None))).
Proof.
  intros Hu Ht. revert s. induction es as [|e es IH]; intros s Hes; cbn [push_entries].
  - eexists _, _. split_and!; [done|done|]. left. split; [done|]. exists []. by split.
  - destruct (hf_find _ _ HF u t e Hu Ht) as (found & Ef & Hj); [apply Hes; by constructor|].
    rewrite Ef. destruct found as [j|].
    + destruct (Hj j eq_refl) as [f Hf]. unfold array_read. rewrite Hf.
      destruct (equal_stack_push realloc_ok _ s) as [ok1 s1] eqn:E1.
      apply equal_stack_push_spec in E1 as [Es1 [[-> St1]|[-> F]]].
      * destruct (IH s1) as (ok & s' & E & Es & H); [intros e' He'; apply Hes, elem_of_cons; by right|].
        exists ok, s'. rewrite E, Es, Es1. split_and!; [done|done|].
        destruct H as [[-> (qs & Fq & St)]|[-> H]].
        -- left. split; [done|]. exists ({| left := value e; right := value f; depth := d |} :: qs).
           split; [apply Forall2_cons; split; [by exists j, f|done]|].
           by rewrite St, St1, reverse_cons, <-app_assoc.
        -- right. split; [done|]. destruct H as [?|(e' & He' & H)]; [by left|right].
           exists e'. split; [apply elem_of_cons; by right|done].
      * eexists _, _. split_and!; [done|done|]. right. split; [done|]. by left.
    + eexists _, _. split_and!; [done|done|]. right. split; [done|]. right.
      exists e. split; [by constructor|done].
Qed.

(** The cycle check of a pair of containers. *)
Lemma note_pair_spec p a b ps s :
  left p = VALUE_OBJECT (Some a) -> right p = VALUE_OBJECT (Some b) -> seen_ok ps (seen s) ->
  exists noted s', note_pair calloc_ok p s = Some (noted, s') /\ stack s' = stack s /\
    match noted with
    | Some false => alloc_failed
    | Some true => (a, b) ∈ ps /\ seen_ok ps (seen s')
    | None =>
        ((depth p < STRUCTURAL_MAX_DEPTH)%nat /\ seen_ok ps (seen s')) \/
        ((STRUCTURAL_MAX_DEPTH <= depth p)%nat /\ (a, b) ∉ ps /\
         seen_ok (ps ++ [(a, b)]) (seen s'))
    end.
Proof.
  intros El Er K. unfold note_pair.
  destruct (Nat.leb_spec STRUCTURAL_MAX_DEPTH (depth p)) as [Hd|Hd].
  - rewrite El, Er.
    destruct (equal_seen_add_spec (calloc_ok (seen_allocs s)) (a, b) ps (seen s) K)
      as (r & seen' & -> & Hr).
    eexists _, _. split; [done|]. split; [done|]. destruct r; simpl.
    + right. by destruct Hr.
    + done.
    + right. eauto.
  - eexists _, _. split; [done|]. split; [done|]. by left.
Qed.

(** ** One round *)

(** The pair [p] was popped and its parts are covered: the invariant with [p]
    among the pairs compared. *)
Lemma inv_step D ps ps' p rest s s' qs :
  loop_inv D ps s -> stack s = p :: rest ->
  stack s' = reverse qs ++ rest -> seen_ok ps' (seen s') ->
  (forall a b, (a, b) ∈ ps' -> (a, b) ∈ ps \/
     (left p = VALUE_OBJECT (Some a) /\ right p = VALUE_OBJECT (Some b) /\
      is_Some (h !! a) /\ is_Some (h !! b))) ->
  (forall q, q ∈ qs -> fine h (left q) /\ fine h (right q)) ->
  parts (fun x y => D x y \/ in_stack qs x y) (left p) (right p) ->
  (same l0 r0 -> forall q, q ∈ qs -> same (left q) (right q)) ->
  loop_inv (fun x y => D x y \/ (x = left p /\ y = right p)) ps' s'.
Proof.
  intros K Es Es' Sn Hps Fq Hp Hsame.
  assert (Hq : forall x y, in_stack qs x y -> in_stack (stack s') x y).
  { intros x y (q & Hq & Hxy). exists q. split; [|done].
    rewrite Es', elem_of_app. left. by apply elem_of_reverse. }
  assert (Hst : forall x y, in_stack (stack s) x y ->
    (x = left p /\ y = right p) \/ in_stack (stack s') x y).
  { intros x y (q & Hq' & <- & <-). rewrite Es in Hq'.
    apply elem_of_cons in Hq' as [->|Hq']; [by left|right].
    exists q. split; [|done]. rewrite Es', elem_of_app. by right. }
  split.
  - intros x y [Hxy|[-> ->]].
    + eapply parts_related_mono; [|by apply (li_done _ _ _ K)]. intros x' y' [?|H]; [auto|].
      destruct (Hst x' y' H); auto.
    + eapply parts_related_mono; [|exact Hp]. intros x' y' [?|H]; auto.
  - done.
  - intros a b Hab. destruct (Hps a b Hab) as [H|(E1 & E2 & Ha & Hb)].
    + destruct (li_met _ _ _ K a b H) as (? & ? & ?). auto.
    + split; [|done]. right. by rewrite E1, E2.
  - intros q Hin. rewrite Es' in Hin. apply elem_of_app in Hin as [Hin|Hin].
    + apply Fq. by apply elem_of_reverse.
    + apply (li_fine _ _ _ K). rewrite Es. apply elem_of_cons. by right.
  - destruct (li_root _ _ _ K) as [H|H]; [auto|]. destruct (Hst _ _ H); auto.
  - intros H q Hin. rewrite Es' in Hin. apply elem_of_app in Hin as [Hin|Hin].
    + apply Hsame; [done|]. by apply elem_of_reverse.
    + apply (li_same _ _ _ K); [done|]. rewrite Es. apply elem_of_cons. by right.
Qed.

Lemma sum_weights_le qs d w :
  (forall q, q ∈ qs -> depth q = d) -> (length qs <= w)%nat ->
  (sum_list_with item_weight qs <= w * pair_weight (heap_width h) (STRUCTURAL_MAX_DEPTH - d))%nat.
Proof.
  intros Hd Hl.
  assert (E : sum_list_with item_weight qs =
    (length qs * pair_weight (heap_width h) (STRUCTURAL_MAX_DEPTH - d))%nat).
  { clear Hl. induction qs as [|q qs IH]; [done|]. simpl.
    rewrite IH by (intros q' Hq'; apply Hd, elem_of_cons; by right).
    unfold item_weight at 1. rewrite (Hd q) by (by constructor). lia. }
  rewrite E. by apply Nat.mul_le_mono_r.
Qed.

Lemma sum_reverse_app qs rest :
  sum_list_with item_weight (reverse qs ++ rest) =
  (sum_list_with item_weight qs + sum_list_with item_weight rest)%nat.
Proof. by rewrite sum_list_with_app, sum_list_with_reverse. Qed.

(** The measure falls: by one level, or by one remembered pair. *)
Lemma measure_falls ps ps' p rest qs :
  (length qs <= heap_width h)%nat -> (forall q, q ∈ qs -> depth q = S (depth p)) ->
  ((depth p < STRUCTURAL_MAX_DEPTH)%nat /\ ps' = ps) \/
  (length ps' = S (length ps) /\ (length ps' <= size h * size h)%nat /\
   (STRUCTURAL_MAX_DEPTH <= depth p)%nat) \/ (qs = [] /\ ps' = ps) ->
  (loop_measure ps' (reverse qs ++ rest) < loop_measure ps (p :: rest))%nat.
Proof.
  intros Hl Hd Hcase. unfold loop_measure. rewrite sum_reverse_app. cbn [sum_list_with].
  pose proof (sum_weights_le qs (S (depth p)) (heap_width h) Hd Hl) as Hs.
  assert (Hpos : forall k, (1 <= pair_weight (heap_width h) k)%nat) by (intros []; simpl; lia).
  unfold item_weight at 3.
  destruct Hcase as [[Hlt ->]|[(E & Hb & Hge)|[-> ->]]].
  - replace (STRUCTURAL_MAX_DEPTH - depth p)%nat
      with (S (STRUCTURAL_MAX_DEPTH - S (depth p))) by lia.
    cbn [pair_weight]. lia.
  - replace (STRUCTURAL_MAX_DEPTH - S (depth p))%nat with 0%nat in Hs by lia.
    cbn [pair_weight] in Hs. specialize (Hpos (STRUCTURAL_MAX_DEPTH - depth p)%nat).
    rewrite E in *. nia.
  - specialize (Hpos (STRUCTURAL_MAX_DEPTH - depth p)%nat). simpl. lia.
Qed.

(** What a round does to a state with [p] on top. *)
Definition round_ok (ps : list (Addr * Addr)) (p : EqualPair) (rest : list EqualPair)
    (r : bool * EqualState) : Prop :=
  let '(ok, s') := r in
  if ok : bool then exists D' ps', loop_inv D' ps' s' /\
    (loop_measure ps' (stack s') < loop_measure ps (p :: rest))%nat
  else ~ same l0 r0 \/ alloc_failed.

(** The end of a round on a pair of containers, its parts pushed. *)
Lemma round_pushed D ps p rest s s' qs a b :
  loop_inv D ps s -> stack s = p :: rest -> stack s' = reverse qs ++ rest ->
  left p = VALUE_OBJECT (Some a) -> right p = VALUE_OBJECT (Some b) ->
  is_Some (h !! a) -> is_Some (h !! b) ->
  ((depth p < STRUCTURAL_MAX_DEPTH)%nat /\ seen_ok ps (seen s')) \/
  ((STRUCTURAL_MAX_DEPTH <= depth p)%nat /\ (a, b) ∉ ps /\ seen_ok (ps ++ [(a, b)]) (seen s')) ->
  (length qs <= heap_width h)%nat -> (forall q, q ∈ qs -> depth q = S (depth p)) ->
  (forall q, q ∈ qs -> fine h (left q) /\ fine h (right q)) ->
  parts (in_stack qs) (left p) (right p) ->
  (same l0 r0 -> forall q, q ∈ qs -> same (left q) (right q)) ->
  round_ok ps p rest (true, s').
Proof.
  intros K Es Es' El Er Ha Hb Hseen Hl Hd Fq Hp Hs.
  assert (Hp' : parts (fun x y => D x y \/ in_stack qs x y) (left p) (right p)).
  { eapply parts_related_mono; [|exact Hp]. auto. }
  destruct Hseen as [[Hlt Sn]|(Hge & Hnew & Sn)]; eexists _, _;
    (split; [eapply inv_step; try done|rewrite Es'; apply measure_falls; try done]).
  - auto.
  - by left.
  - intros a' b' [Hin|[= -> ->]%list_elem_of_singleton]%elem_of_app; auto.
  - right. left. rewrite length_app, Nat.add_1_r. split_and!; [done| |done].
    pose proof (met_bound (ps ++ [(a, b)]) (sn_nodup _ _ Sn)) as Hm.
    rewrite length_app, Nat.add_1_r in Hm. apply Hm.
    intros a' b' [Hin|[= -> ->]%list_elem_of_singleton]%elem_of_app; [|done].
    by destruct (li_met _ _ _ K a' b' Hin).
Qed.

(** A pair met before, or decided equal: nothing is pushed. *)
Lemma round_continues D ps p rest s s' :
  loop_inv D ps s -> stack s = p :: rest -> stack s' = rest -> seen_ok ps (seen s') ->
  parts (fun x y => D x y \/ in_stack [] x y) (left p) (right p) ->
  round_ok ps p rest (true, s').
Proof.
  intros K Es Es' Sn Hp. exists (fun x y => D x y \/ (x = left p /\ y = right p)), ps. split.
  - eapply (inv_step D ps ps p rest s s' []); try done.
    + auto.
    + intros q Hq. by apply elem_of_nil in Hq.
    + intros _ q Hq. by apply elem_of_nil in Hq.
  - rewrite Es'. apply (measure_falls ps ps p rest []).
    + simpl. lia.
    + intros q Hq. by apply elem_of_nil in Hq.
    + auto.
Qed.

Lemma round_failed ps p rest s' : ~ same l0 r0 \/ alloc_failed -> round_ok ps p rest (false, s').
Proof. done. Qed.

(** A pair on the stack, taken apart, if the roots are structurally equal. *)
Lemma top_same D ps p rest s :
  loop_inv D ps s -> stack s = p :: rest -> same l0 r0 -> parts same (left p) (right p).
Proof.
  intros K Es H. apply structurally_equal_parts, (li_same _ _ _ K); [done|].
  rewrite Es. by constructor.
Qed.

Lemma met_parts D ps p s a b rest :
  loop_inv D ps s -> stack s = p :: rest -> (a, b) ∈ ps ->
  left p = VALUE_OBJECT (Some a) -> right p = VALUE_OBJECT (Some b) ->
  loop_inv D ps (with_stack rest s).
Proof.
  intros K Es Hin El Er. destruct (li_met _ _ _ K a b Hin) as (HD & _ & _).
  rewrite <-El, <-Er in HD.
  assert (Hst : forall x y, in_stack (stack s) x y -> D x y \/ in_stack rest x y).
  { intros x y (q & Hq & <- & <-). rewrite Es in Hq.
    apply elem_of_cons in Hq as [->|Hq]; [by left|right]. by exists q. }
  destruct K as [K1 K2 K3 K4 K5 K6]. split; cbn [stack seen with_stack]; try done.
  - intros x y Hxy. eapply parts_related_mono; [|by apply K1]. intros x' y' [?|H]; auto.
  - intros q Hq. apply K4. rewrite Es. apply elem_of_cons. by right.
  - destruct K5 as [?|H]; auto.
  - intros H q Hq. apply K6; [done|]. rewrite Es. apply elem_of_cons. by right.
Qed.

(** A pair met before is skipped. *)
Lemma round_met D ps p rest s s' a b :
  loop_inv D ps s -> stack s = p :: rest -> stack s' = rest -> seen_ok ps (seen s') ->
  (a, b) ∈ ps -> left p = VALUE_OBJECT (Some a) -> right p = VALUE_OBJECT (Some b) ->
  round_ok ps p rest (true, s').
Proof.
  intros K Es Es' Sn Hin El Er. exists D, ps. split.
  - destruct (met_parts D ps p s a b rest K Es Hin El Er) as [K1 K2 K3 K4 K5 K6].
    cbn [stack seen with_stack] in *. split; rewrite ?Es'; done.
  - rewrite Es'. apply (measure_falls ps ps p rest []).
    + simpl. lia.
    + intros q Hq. by apply elem_of_nil in Hq.
    + auto.
Qed.

Lemma array_round D ps p rest s xs ys :
  loop_inv D ps s -> stack s = p :: rest ->
  compare_pair h (left p) (right p) = Some (ARRAYS xs ys) ->
  wp (equal_round h find realloc_ok calloc_ok p (with_stack rest s)) (round_ok ps p rest).
Proof.
  intros K Es Ep. pose proof (compare_container h (left p) (right p)) as Hc. rewrite Ep in Hc.
  destruct Hc as (a & b & o & o' & c & c' & cs & cs' & El & Er & Ho & Po & Ho' & Po').
  unfold equal_round. rewrite Ep.
  destruct (note_pair_spec p a b ps (with_stack rest s) El Er (li_seen _ _ _ K))
    as (noted & s1 & -> & Es1 & Hn). cbn [stack with_stack] in Es1.
  destruct noted as [[]|].
  - destruct Hn as [Hin Sn]. by eapply round_met.
  - apply round_failed. by right.
  - destruct (Nat.eqb_spec (length xs) (length ys)) as [Elen|Elen]; simpl negb; cbv iota.
    2: { apply round_failed. left. intros H. apply (top_same D ps p rest s K Es) in H.
         unfold parts_related in H. rewrite Ep in H. by apply Forall2_length in H. }
    set (qs := (fun xy => {| left := fst xy; right := snd xy; depth := S (depth p) |})
      <$> combine xs ys).
    destruct (push_all realloc_ok qs s1) as [ok s2] eqn:E2.
    apply push_all_spec in E2 as [Sn2 [[-> St2]|[-> F]]]; [|apply round_failed; by right].
    destruct (arrays_fine h find HF _ _ xs ys Ep) as [Fx Fy].
    assert (Hq : forall q, q ∈ qs -> exists xy, xy ∈ combine xs ys /\
      left q = fst xy /\ right q = snd xy /\ depth q = S (depth p)).
    { intros q (xy & -> & Hxy)%list_elem_of_fmap. by exists xy. }
    eapply (round_pushed D ps p rest s s2 qs a b); try done.
    + by rewrite St2, Es1.
    + by rewrite Sn2.
    + unfold qs. rewrite length_fmap, length_combine. pose proof (heap_width_le h a o Ho) as W.
      rewrite Po in W. simpl in W. lia.
    + intros q (xy & _ & _ & _ & ?)%Hq. done.
    + intros q (xy & Hxy & -> & -> & _)%Hq. by apply (combine_fine h xs ys xy).
    + unfold parts_related. rewrite Ep, Forall2_combine. split; [done|].
      apply Forall_forall. intros xy Hxy. eexists. split; [by apply list_elem_of_fmap; eauto|done].
    + intros H q (xy & Hxy & -> & -> & _)%Hq. apply (top_same D ps p rest s K Es) in H.
      unfold parts_related in H. rewrite Ep, Forall2_combine in H. destruct H as [_ H].
      rewrite Forall_forall in H. by apply H.
Qed.

Lemma hash_round D ps p rest s u t :
  loop_inv D ps s -> stack s = p :: rest ->
  compare_pair h (left p) (right p) = Some (HASHES u t) ->
  wp (equal_round h find realloc_ok calloc_ok p (with_stack rest s)) (round_ok ps p rest).
Proof.
  intros K Es Ep. pose proof (compare_container h (left p) (right p)) as Hc. rewrite Ep in Hc.
  destruct Hc as (Hu & Ht & a & b & El & Er & Ha & Hb).
  unfold equal_round. rewrite Ep.
  destruct (note_pair_spec p a b ps (with_stack rest s) El Er (li_seen _ _ _ K))
    as (noted & s1 & -> & Es1 & Hn). cbn [stack with_stack] in Es1.
  destruct noted as [[]|].
  - destruct Hn as [Hin Sn]. by eapply round_met.
  - apply round_failed. by right.
  - assert (Hsame : same l0 r0 -> length (entries u) = length (entries t) /\
      forall e, e ∈ entries u -> exists j f, find t (key e) = Some (Some j) /\
        entries t !! j = Some f /\ same (value e) (value f)).
    { intros H. apply (top_same D ps p rest s K Es) in H. unfold parts_related in H.
      by rewrite Ep in H. }
    destruct (Nat.eqb_spec (length (entries u)) (length (entries t))) as [Elen|Elen];
      simpl negb; cbv iota; [|apply round_failed; left; naive_solver].
    destruct (push_entries_spec u t (S (depth p)) (entries u) s1 Hu Ht)
      as (ok & s2 & -> & Sn2 & [[-> (qs & Fq & St2)]|[-> F]]); [done| |].
    2: { apply round_failed. destruct F as [?|(e & He & Ef)]; [by right|left].
         intros H. destruct (Hsame H) as [_ Hall].
         destruct (Hall e He) as (j & f & ? & _). congruence. }
    assert (Hq : forall q, q ∈ qs -> exists e, e ∈ entries u /\ entry_pair t (S (depth p)) e q).
    { intros q Hq. apply list_elem_of_lookup in Hq as [i Hq].
      destruct (Forall2_lookup_r _ _ _ _ _ Fq Hq) as (e & He & Hp).
      exists e. split; [by eapply list_elem_of_lookup_2|done]. }
    eapply (round_pushed D ps p rest s s2 qs a b); try done.
    + by rewrite St2, Es1.
    + by rewrite Sn2.
    + rewrite <-(Forall2_length _ _ _ Fq). destruct Hu as (a' & o & cs & Ho & Po).
      pose proof (heap_width_le h a' o Ho) as W. rewrite Po in W. done.
    + intros q (e & _ & j & f & _ & _ & _ & _ & ?)%Hq. done.
    + intros q (e & He & j & f & _ & Hf & -> & -> & _)%Hq.
      split; [by apply (hf_hash _ _ HF u)|]. apply (hf_hash _ _ HF t); [done|].
      by eapply list_elem_of_lookup_2.
    + unfold parts_related. rewrite Ep. split; [done|]. intros e He.
      apply list_elem_of_lookup in He as [i He].
      destruct (Forall2_lookup_l _ _ _ _ _ Fq He) as (q & Hqi & j & f & ? & ? & ? & ? & _).
      exists j, f. split_and!; [done|done|]. exists q.
      split; [by eapply list_elem_of_lookup_2|done].
    + intros H q (e & He & j & f & Ef & Hf & -> & -> & _)%Hq.
      destruct (Hsame H) as [_ Hall]. destruct (Hall e He) as (j' & f' & Ef' & Hf' & ?).
      rewrite Ef in Ef'. injection Ef' as <-. rewrite Hf in Hf'. by injection Hf' as <-.
Qed.

Lemma equal_round_ok D ps p rest s :
  loop_inv D ps s -> stack s = p :: rest ->
  wp (equal_round h find realloc_ok calloc_ok p (with_stack rest s)) (round_ok ps p rest).
Proof.
  intros K Es. destruct (li_fine _ _ _ K p) as [Fl Fr]; [rewrite Es; by constructor|].
  destruct (compare_defined h _ _ Fl Fr) as [[b|xs ys|u t] Ep].
  - unfold equal_round. rewrite Ep. destruct b.
    + eapply (round_continues D ps p rest s); try done; [apply K|].
      unfold parts_related. by rewrite Ep.
    + apply round_failed. left. intros H. apply (top_same D ps p rest s K Es) in H.
      unfold parts_related in H. by rewrite Ep in H.
  - by eapply array_round.
  - by eapply hash_round.
Qed.

(** The loop ends, with the right answer unless an allocation failed. *)
Lemma equal_loop_ok fuel D ps s :
  loop_inv D ps s -> (loop_measure ps (stack s) < fuel)%nat ->
  exists b, equal_loop h find realloc_ok calloc_ok fuel s = Some b /\
    (b = true -> same l0 r0) /\ (b = false -> ~ same l0 r0 \/ alloc_failed).
Proof.
  revert D ps s. induction fuel as [|fuel IH]; intros D ps s K Hm; [lia|].
  cbn [equal_loop]. destruct (stack s) as [|p rest] eqn:Es.
  - exists true. split_and!; [done| |done]. intros _. by eapply loop_finished.
  - pose proof (equal_round_ok D ps p rest s K Es) as W.
    apply wp_some in W as ([ok s'] & -> & Hr). destruct ok; simpl in Hr.
    + destruct Hr as (D' & ps' & K' & Hlt). eapply IH; [done|lia].
    + by exists false.
Qed.
End Loop.

Lemma values_equal_iterative_ok h find realloc_ok calloc_ok fuel reentry l r :
  heap_fine h find -> fine h l -> fine h r -> (reentry < STRUCTURAL_MAX_DEPTH)%nat ->
  (size h * size h * (heap_width h + 1) +
     pair_weight (heap_width h) STRUCTURAL_MAX_DEPTH < fuel)%nat ->
  exists b, values_equal_iterative h find realloc_ok calloc_ok fuel reentry l r = Some b /\
    (b = true -> structurally_equal h find l r) /\
    (b = false -> ~ structurally_equal h find l r \/ alloc_failed realloc_ok calloc_ok).
Proof.
  intros HF Fl Fr Hre Hf. unfold values_equal_iterative.
  destruct (Nat.leb_spec STRUCTURAL_MAX_DEPTH reentry); [lia|]. cbv zeta.
  set (p := {| left := l; right := r; depth := 0 |}).
  destruct (equal_stack_push realloc_ok p _) as [ok s] eqn:E.
  apply (equal_stack_push_spec realloc_ok calloc_ok) in E as [Es [[-> St]|[-> F]]].
  2: { exists false. split_and!; [done|done|]. intros _. by right. }
  apply (equal_loop_ok h find HF realloc_ok calloc_ok l r fuel (fun _ _ => False) []).
  - cbn [stack] in St. split; rewrite ?St.
    + done.
    + rewrite Es. split; [constructor|done|by left].
    + intros a b Hab. by apply elem_of_nil in Hab.
    + intros q ->%list_elem_of_singleton. done.
    + right. exists p. split; [by constructor|done].
    + intros Hs q ->%list_elem_of_singleton. done.
  - cbn [stack] in St. rewrite St. unfold loop_measure.
    change (length (@nil (Addr * Addr))) with 0%nat. rewrite Nat.sub_0_r.
    cbn [sum_list_with]. unfold item_weight. change (depth p) with 0%nat.
    rewrite Nat.sub_0_r. lia.
Qed.

(** Structural equality asks [find] about keys of the heap only. *)
Lemma structurally_equal_ext h find find' l r :
  (forall s t e, hash_in_heap h s -> hash_in_heap h t -> e ∈ entries s ->
     find' t (key e) = find t (key e)) ->
  structurally_equal h find l r -> structurally_equal h find' l r.
Proof.
  intros Hext (R & HR & H). exists R. split; [|done]. intros x y Hxy.
  specialize (HR x y Hxy). unfold parts_related in *.
  pose proof (compare_container h x y) as Hc.
  destruct (compare_pair h x y) as [[|xs ys|s t]|]; try done.
  destruct HR as [L F]. destruct Hc as (Hs & Ht & _). split; [done|]. intros e He.
  destruct (F e He) as (j & f & Ef & Hf & Hr). exists j, f. by rewrite (Hext s t e).
Qed.

(** Two lookups that hash alike differ only in the answers of the equality. *)
Lemma hash_find_ext (hv : Value -> Z) eq eq' t k :
  (forall f, f ∈ entries t -> eq (key f) k = eq' (key f) k) ->
  @hash_find {| hash_value := hv; values_equal := eq |} t k =
  @hash_find {| hash_value := hv; values_equal := eq' |} t k.
Proof.
  intros Heq. unfold hash_find. destruct (_ =? _)%nat; [done|]. apply hash_probe_ext.
  intros f Hf. unfold entry_matches. cbn [values_equal hash_value]. by rewrite Heq.
Qed.

(** ** Heaps whose Hashes have well-behaved keys *)

Record equality_heap (h : Heap) : Prop := {
  eh_array : forall a o xs c cards, h !! a = Some o -> payload o = ARRAY xs c cards ->
    Forall (fine h) xs;
  eh_hash : forall t e, hash_in_heap h t -> e ∈ entries t -> fine h (value e);
  eh_table : forall t, hash_in_heap h t -> hash_ok (H := heap_keys h) (good := good_key h) t;
}.

Abbreviation heap_find h := (@hash_find (heap_keys h)).

Section Whole.
Context (h : Heap) (realloc_ok calloc_ok : nat -> bool) (fuel : nat).
Context (E : equality_heap h).

(** The nested lookup is the lookup of the heap. *)
Lemma nested_find nest reentry s t e :
  hash_in_heap h s -> hash_in_heap h t -> e ∈ entries s ->
  @hash_find (keys_with h (values_equal_in h realloc_ok calloc_ok fuel (S nest) reentry))
    t (key e) = heap_find h t (key e).
Proof.
  intros Hs Ht He. apply list_elem_of_lookup in He as [i He].
  assert (G : good_key h (key e)) by (by eapply (ok_good _ (eh_table h E s Hs))).
  unfold heap_keys, keys_with. apply hash_find_ext. intros f Hf.
  apply list_elem_of_lookup in Hf as [j Hf].
  assert (Gf : good_key h (key f)) by (by eapply (ok_good _ (eh_table h E t Ht))).
  destruct (compare_good h (key f) (key e) Gf G) as (b & Eb & _).
  rewrite (values_equal_in_decided h realloc_ok calloc_ok fuel nest reentry _ _ b Eb).
  by rewrite (values_equal_in_decided h (fun _ => true) (fun _ => true) 0 1 0 _ _ b Eb).
Qed.

Lemma heap_find_defined s t e :
  hash_in_heap h s -> hash_in_heap h t -> e ∈ entries s ->
  exists r, heap_find h t (key e) = Some r /\ forall j, r = Some j -> is_Some (entries t !! j).
Proof.
  intros Hs Ht He. apply list_elem_of_lookup in He as [i He].
  pose proof (eh_table h E t Ht) as Kt.
  assert (G : good_key h (key e)) by (by eapply (ok_good _ (eh_table h E s Hs))).
  eexists. split; [by apply (hash_find_spec (good := good_key h))|].
  intros j Hj. apply (find_key_Some (good := good_key h)) in Hj as (f & Hf & _); [|done|done].
  eauto.
Qed.

Lemma nested_fine nest reentry :
  heap_fine h (@hash_find
    (keys_with h (values_equal_in h realloc_ok calloc_ok fuel (S nest) reentry))).
Proof.
  split; [apply (eh_array h E)|apply (eh_hash h E)|]. intros s t e Hs Ht He.
  rewrite (nested_find nest reentry s t e) by done. exact (heap_find_defined s t e Hs Ht He).
Qed.

Lemma nested_same nest reentry l r :
  structurally_equal h (@hash_find
    (keys_with h (values_equal_in h realloc_ok calloc_ok fuel (S nest) reentry))) l r <->
  structurally_equal h (heap_find h) l r.
Proof.
  split; apply structurally_equal_ext; intros s t e Hs Ht He; by rewrite (nested_find nest reentry s t e).
Qed.

Lemma values_equal_in_ok nest reentry l r :
  fine h l -> fine h r -> (reentry < STRUCTURAL_MAX_DEPTH)%nat ->
  (size h * size h * (heap_width h + 1) +
     pair_weight (heap_width h) STRUCTURAL_MAX_DEPTH < fuel)%nat ->
  exists b, values_equal_in h realloc_ok calloc_ok fuel (S (S nest)) reentry l r = Some b /\
    (b = true -> structurally_equal h (heap_find h) l r) /\
    (b = false -> ~ structurally_equal h (heap_find h) l r \/
       alloc_failed realloc_ok calloc_ok).
Proof.
  intros Fl Fr Hre Hf.
  destruct (values_equal_at_depth_ok h _ (nested_fine nest reentry) EQUAL_FAST_DEPTH l r Fl Fr)
    as (v & Ev & Hv).
  assert (Eq : values_equal_in h realloc_ok calloc_ok fuel (S (S nest)) reentry l r =
    match v with
    | EQUAL => Some true
    | UNEQUAL => Some false
    | TOO_DEEP => values_equal_iterative h (@hash_find (keys_with h
        (values_equal_in h realloc_ok calloc_ok fuel (S nest) (S reentry))))
        realloc_ok calloc_ok fuel reentry l r
    end).
  { revert Ev. generalize (S nest). intros m Ev. cbn [values_equal_in]. by rewrite Ev. }
  rewrite Eq. clear Eq Ev. destruct v; cbn [verdict_ok] in Hv.
  - exists true. split_and!; [reflexivity| |discriminate].
    intros _. exact (proj1 (nested_same nest reentry l r) Hv).
  - exists false. split_and!; [reflexivity|discriminate|].
    intros _. left. intros Hs. exact (Hv (proj2 (nested_same nest reentry l r) Hs)).
  - destruct (values_equal_iterative_ok h _ realloc_ok calloc_ok fuel reentry l r
      (nested_fine nest (S reentry)) Fl Fr Hre Hf) as (b & Eb & B1 & B2).
    exists b. split; [exact Eb|]. clear Eb.
    split; [intros Hb; exact (proj1 (nested_same nest (S reentry) l r) (B1 Hb))|].
    intros Hb. destruct (B2 Hb) as [N|F]; [left|right; exact F].
    intros Hs. exact (N (proj2 (nested_same nest (S reentry) l r) Hs)).
Qed.
End Whole.

(** C8: values_equal decides structural equality.  On a heap without dangling
    references whose Hashes have intact tables and well-behaved keys (no Float,
    Time, Array or Hash among them), it terminates (the rounds of
    the explicit-stack comparison are bounded by the heap's size and width, on
    cyclic structures too) and its answer true means that the two values are
    related by a relation of equal leaves, Arrays with related elements and
    Hashes with related values under equal keys; it answers false only for
    values that are not so related, or after a failed allocation. *)
Theorem values_equal_structural (h : Heap) (realloc_ok calloc_ok : nat -> bool)
    (fuel nest reentry : nat) (l r : GcHeap.Value) :
  equality_heap h -> fine h l -> fine h r -> (reentry < STRUCTURAL_MAX_DEPTH)%nat ->
  (size h * size h * (heap_width h + 1) +
     pair_weight (heap_width h) STRUCTURAL_MAX_DEPTH < fuel)%nat ->
  exists b, values_equal_in h realloc_ok calloc_ok fuel (S (S nest)) reentry l r = Some b /\
    (b = true -> structurally_equal h (heap_find h) l r) /\
    ((forall n, realloc_ok n = true) -> (forall n, calloc_ok n = true) ->
     structurally_equal h (heap_find h) l r -> b = true).
Proof.
  intros E Fl Fr Hre Hf.
  destruct (values_equal_in_ok h realloc_ok calloc_ok fuel E nest reentry l r Fl Fr Hre Hf)
    as (b & Eb & B1 & B2).
  exists b. split_and!; [exact Eb|exact B1|]. intros Ar Ac Hs. destruct b; [done|].
  destruct (B2 eq_refl) as [N|[[n F]|[n F]]]; [by destruct (N Hs)| |].
  - by rewrite Ar in F.
  - by rewrite Ac in F.
Qed.

(** An Array that contains itself, and two Arrays that contain each other. *)
Definition cyclic_heap : Heap :=
  <[1%positive := key_object (ARRAY [key_at 1%positive] 8 None)]>
  (<[2%positive := key_object (ARRAY [key_at 3%positive] 8 None)]>
  (<[3%positive := key_object (ARRAY [key_at 2%positive] 8 None)]> ∅)).

Lemma cyclic_heap_array a o :
  cyclic_heap !! a = Some o ->
  exists v, payload o = ARRAY [v] 8 None /\ fine cyclic_heap v.
Proof.
  unfold cyclic_heap. rewrite !lookup_insert_Some, lookup_empty.
  intros [[<- <-]|[_ [[<- <-]|[_ [[<- <-]|[_ [=]]]]]]];
    (eexists; split; [reflexivity|split; [by eexists|done]]).
Qed.

Lemma cyclic_heap_ok : equality_heap cyclic_heap.
Proof.
  assert (No : forall t, ~ hash_in_heap cyclic_heap t).
  { intros t (a & o & cards & Ho & Ep).
    destruct (cyclic_heap_array a o Ho) as (v & Ev & _). congruence. }
  split; [|intros t e Ht; by destruct (No t)|intros t Ht; by destruct (No t)].
  intros a o xs c cards Ho Ep. destruct (cyclic_heap_array a o Ho) as (v & Ev & Fv).
  rewrite Ev in Ep. injection Ep as <- _ _. by constructor.
Qed.

Lemma values_equal_structural_witness :
  values_equal_in cyclic_heap (fun _ => true) (fun _ => true) 300 2 0
    (key_at 1%positive) (key_at 2%positive) = Some true /\
  structurally_equal cyclic_heap (heap_find cyclic_heap) (key_at 1%positive) (key_at 2%positive).
Proof.
  destruct (values_equal_structural cyclic_heap (fun _ => true) (fun _ => true) 300 0 0
    (key_at 1%positive) (key_at 2%positive)) as (b & Eb & B & _).
  - exact cyclic_heap_ok.
  - split; [by eexists|done].
  - split; [by eexists|done].
  - unfold STRUCTURAL_MAX_DEPTH. lia.
  - apply Nat.ltb_lt. vm_compute. reflexivity.
  - assert (Ev : values_equal_in cyclic_heap (fun _ => true) (fun _ => true) 300 2 0
      (key_at 1%positive) (key_at 2%positive) = Some true) by (vm_compute; reflexivity).
    split; [exact Ev|]. apply B. rewrite Ev in Eb. injection Eb as <-. reflexivity.
Defined.
