(* ===== verification/GcMarkOk.v ===== *)
(** * GcMarkOk: correctness of marking

    The walks of GcMark are walks of value lists; [mark_object] on any heap
    whose pointers are valid returns, changes nothing but mark bits, and marks
    a set closed under the children of what it newly marked. *)

From S2P Require Import Prelude GcHeap GcMark.
From Stdlib Require Import ZArith Lia Bool List.
From stdpp Require Import base numbers list gmap sets.

Local Open Scope nat_scope.
Local Open Scope c_scope.

(** ** The walks as walks of lists *)

(** A fiber handle points to a fiber that exists. *)
Definition fiber_ok (fibers : gmap FiberId DiamondFiber) (p : Payload) : Prop :=
  match p with FIBER (Some id) => is_Some (fibers !! id) | _ => True end.

Definition constant_values (cs : list (bool * Value)) : list Value :=
  cs ≫= (fun c => if fst c : bool then [snd c] else []).

Definition resumer_values (fibers : gmap FiberId DiamondFiber) (ids : list FiberId)
    : list Value :=
  ids ≫= (fun id => from_option (fun f => chain_values (resumer_frames f)) [] (fibers !! id)).

Definition queue_values (fibers : gmap FiberId DiamondFiber) (ids : list FiberId)
    : list Value :=
  ids ≫= (fun id => from_option
    (fun f => if decide (state f = FIBER_RUNNING) then [] else chain_values (native_frames f))
    [] (fibers !! id)).

(** The values of the root set, in the order of [mark_roots]. *)
Definition root_values (fibers : gmap FiberId DiamondFiber) (r : Roots) : list Value :=
  (if has_exception r then [exception r] else []) ++ [nonlocal_value r] ++
  mjoin (adopted_programs r) ++ [argv_value r] ++ [env_value r] ++ gc_protected r ++
  constant_values (namespace_constants r) ++ from_option id [] (class_variables r) ++
  trapped_signal_handlers r ++ chain_values (frames r) ++
  resumer_values fibers (running_fibers r) ++
  from_option (queue_values fibers) [] (root_queue r) ++ vm_extra_roots r.

(** The fibers the root walk reads exist. *)
Definition root_fibers_ok (fibers : gmap FiberId DiamondFiber) (r : Roots) : Prop :=
  Forall (fun id => is_Some (fibers !! id)) (running_fibers r) /\
  Forall (fun id => is_Some (fibers !! id)) (from_option id [] (root_queue r)).

Section WalkLaws.
Context {St : Type} (visit : option Addr -> St -> option St).

Lemma mark_values_app vs ws s :
  mark_values visit (vs ++ ws) s =
  (let? s := mark_values visit vs s in mark_values visit ws s).
Proof.
  revert s. induction vs as [|v vs IH]; intros s; simpl; [done|].
  destruct (mark_value visit v s); [apply IH|done].
Qed.

Lemma mark_values_one v s : mark_values visit [v] s = mark_value visit v s.
Proof. simpl. by destruct (mark_value visit v s). Qed.

Lemma mark_entries_values es s :
  mark_entries visit es s = mark_values visit (es ≫= entry_values) s.
Proof.
  revert s. induction es as [|e es IH]; intros s; simpl; [done|].
  destruct (mark_value visit (key e) s); simpl; [|done].
  by destruct (mark_value visit (value e) _).
Qed.

Lemma mark_handlers_values hs s :
  mark_handlers visit hs s =
  mark_values visit ((fun h => pending_value (saved_pending h)) <$>
    filter (fun h => handler_kind h = HANDLER_ACTIVE_ENSURE) hs) s.
Proof.
  revert s. induction hs as [|h hs IH]; intros s; simpl; [done|].
  rewrite filter_cons. destruct (decide _); simpl; [|done].
  by destruct (mark_value _ _ _).
Qed.

Lemma mark_frame_chain_values fs s :
  mark_frame_chain visit fs s = mark_values visit (chain_values fs) s.
Proof.
  revert s. induction fs as [|f fs IH]; intros s; simpl; [done|].
  unfold chain_values in *. simpl. unfold frame_values at 1.
  rewrite <-!app_assoc, mark_values_app.
  destruct (mark_values visit (registers f) s) as [s1|]; simpl; [|done].
  rewrite mark_values_app.
  destruct (mark_values visit (extra_roots f) s1) as [s2|]; simpl; [|done].
  assert (Hp : match pending f with
    | Some p => if decide (pending_kind p = PENDING_NONE) then Some s2
                else mark_value visit (pending_value p) s2
    | None => Some s2 end =
    mark_values visit match pending f with
    | Some p => if decide (pending_kind p = PENDING_NONE) then [] else [pending_value p]
    | None => [] end s2).
  { destruct (pending f); simpl; [|done].
    destruct (decide _); simpl; [done|]. by destruct (mark_value _ _ _). }
  rewrite Hp, mark_values_app. clear Hp.
  destruct (mark_values visit _ s2) as [s3|]; simpl; [|done].
  rewrite mark_values_app.
  destruct (handlers f); simpl; [|apply IH].
  rewrite mark_handlers_values. by destruct (mark_values visit _ s3).
Qed.

Lemma mark_fiber_values f s :
  mark_fiber visit f s =
  mark_values visit (if decide (state f = FIBER_RUNNING) then []
                     else chain_values (native_frames f)) s.
Proof.
  unfold mark_fiber. destruct (decide _); [done|]. apply mark_frame_chain_values.
Qed.

Lemma mark_object_children_values fibers p s :
  fiber_ok fibers p ->
  mark_object_children visit fibers p s = mark_values visit (payload_values fibers p) s.
Proof.
  intros Hf. destruct p; simpl; try done.
  - apply mark_entries_values.
  - by destruct (mark_value _ _ _).
  - destruct fiber as [id|]; [|done]. destruct Hf as [f Hf]. rewrite Hf. simpl.
    unfold fiber_values. rewrite mark_fiber_values, mark_values_app.
    destruct (mark_values visit _ s) as [s1|]; simpl; [|done].
    destruct (mark_value visit (result f) s1) as [s2|]; simpl; [|done].
    destruct (mark_value visit (resume_value f) s2) as [s3|]; simpl; [|done].
    destruct (entry_closure f); simpl; [|done]. by destruct (visit _ s3).
  - destruct thread as [t|]; [|done]. destruct (_ && _); simpl; [|done].
    by destruct (mark_value _ _ _).
  - destruct (mark_value visit stdout_value s); simpl; [|done].
    by destruct (mark_value _ _ _).
  - destruct (mark_value visit stdout_stream s) as [s1|]; simpl; [|done].
    destruct (mark_value visit stderr_stream s1) as [s2|]; simpl; [|done].
    by destruct (mark_value _ _ _).
Qed.

Lemma mark_adopted_values l s :
  mark_adopted_programs visit l s = mark_values visit (mjoin l) s.
Proof.
  revert s. induction l as [|vs l IH]; intros s; simpl; [done|].
  rewrite mark_values_app. by destruct (mark_values visit vs s).
Qed.

Lemma mark_constants_values cs s :
  mark_constants visit cs s = mark_values visit (constant_values cs) s.
Proof.
  revert s. induction cs as [|[b v] cs IH]; intros s; simpl; [done|].
  destruct b; simpl; [|apply IH]. by destruct (mark_value _ _ _).
Qed.

Lemma mark_resumers_values fibers ids s :
  Forall (fun id => is_Some (fibers !! id)) ids ->
  mark_resumers visit fibers ids s = mark_values visit (resumer_values fibers ids) s.
Proof.
  intros H. revert s. induction H as [|id ids [f Hf] _ IH]; intros s; simpl; [done|].
  unfold resumer_values. simpl. rewrite Hf. simpl.
  rewrite mark_frame_chain_values, mark_values_app. by destruct (mark_values visit _ s).
Qed.

Lemma mark_queue_values fibers ids s :
  Forall (fun id => is_Some (fibers !! id)) ids ->
  mark_queue visit fibers ids s = mark_values visit (queue_values fibers ids) s.
Proof.
  intros H. revert s. induction H as [|id ids [f Hf] _ IH]; intros s; simpl; [done|].
  unfold queue_values. simpl. rewrite Hf. simpl.
  rewrite mark_fiber_values, mark_values_app. by destruct (mark_values visit _ s).
Qed.

Lemma mark_root_values_eq fibers r s :
  root_fibers_ok fibers r ->
  mark_root_values visit fibers r s = mark_values visit (root_values fibers r) s.
Proof.
  intros [Hr Hq]. unfold mark_root_values, root_values.
  rewrite mark_values_app.
  assert (He : (if has_exception r then mark_value visit (exception r) s else Some s) =
    mark_values visit (if has_exception r then [exception r] else []) s)
    by (destruct (has_exception r); simpl; [by destruct (mark_value _ _ _)|done]).
  rewrite He. clear He. destruct (mark_values visit _ s) as [s1|]; simpl; [|done].
  destruct (mark_value visit (nonlocal_value r) s1) as [s2|]; simpl; [|done].
  rewrite mark_adopted_values, mark_values_app.
  destruct (mark_values visit _ s2) as [s3|]; simpl; [|done].
  destruct (mark_value visit (argv_value r) s3) as [s4|]; simpl; [|done].
  destruct (mark_value visit (env_value r) s4) as [s5|]; simpl; [|done].
  rewrite mark_values_app. destruct (mark_values visit _ s5) as [s6|]; simpl; [|done].
  rewrite mark_constants_values, mark_values_app.
  destruct (mark_values visit _ s6) as [s7|]; simpl; [|done].
  rewrite mark_values_app.
  replace (match class_variables r with Some vs => mark_values visit vs s7
           | None => Some s7 end)
    with (mark_values visit (from_option id [] (class_variables r)) s7)
    by (by destruct (class_variables r)).
  destruct (mark_values visit _ s7) as [s8|]; simpl; [|done].
  rewrite mark_values_app. destruct (mark_values visit _ s8) as [s9|]; simpl; [|done].
  rewrite mark_frame_chain_values, mark_values_app.
  destruct (mark_values visit _ s9) as [s10|]; simpl; [|done].
  rewrite mark_resumers_values, mark_values_app by done.
  destruct (mark_values visit _ s10) as [s11|]; simpl; [|done].
  rewrite mark_values_app. destruct (root_queue r); simpl in *; [|done].
  by rewrite mark_queue_values.
Qed.
End WalkLaws.

(** ** The graph of a heap *)

(** Two objects that differ at most in their mark bit and card table. *)
Record alike (o o' : Object) : Prop := {
  alike_old : old o' = old o;
  alike_remembered : remembered o' = remembered o;
  alike_frozen : frozen o' = frozen o;
  alike_payload : payload o' = set_cards (payload_cards (payload o')) (payload o);
}.

Definition heaps_alike (h h' : Heap) : Prop :=
  forall a, option_Forall2 alike (h !! a) (h' !! a).

(** [h'] is [h] with more mark bits set. *)
Definition grows (h h' : Heap) : Prop :=
  forall a, option_Forall2
    (fun o o' => o' = with_marked (marked o') o /\ (marked o = true -> marked o' = true))
    (h !! a) (h' !! a).

Definition is_marked (h : Heap) (a : Addr) : bool := from_option marked false (h !! a).
Definition is_old (h : Heap) (a : Addr) : bool := from_option old false (h !! a).

Definition kids (fibers : gmap FiberId DiamondFiber) (h : Heap) (a : Addr) : list Addr :=
  from_option (children fibers) [] (h !! a).

(** Objects whose children and fiber are all in the heap. *)
Definition heap_closed (fibers : gmap FiberId DiamondFiber) (h : Heap) : Prop :=
  forall a o, h !! a = Some o ->
    fiber_ok fibers (payload o) /\ forall c, c ∈ children fibers o -> is_Some (h !! c).

(** [traced minor r a]: [a] is found from [r] without passing an old object in
    a minor collection. *)
Inductive traced (fibers : gmap FiberId DiamondFiber) (minor : bool) (h : Heap)
    : Addr -> Addr -> Prop :=
  | traced_here a :
      is_Some (h !! a) -> minor && is_old h a = false -> traced fibers minor h a a
  | traced_step r a c :
      traced fibers minor h r a -> c ∈ kids fibers h a -> is_Some (h !! c) ->
      minor && is_old h c = false -> traced fibers minor h r c.

Lemma alike_refl o : alike o o.
Proof.
  split; try done. destruct (payload o); done.
Qed.

Lemma alike_trans o1 o2 o3 : alike o1 o2 -> alike o2 o3 -> alike o1 o3.
Proof.
  intros [A B C D] [A' B' C' D']. split; try congruence.
  rewrite D' at 1. rewrite D at 1. by destruct (payload o1).
Qed.

Lemma payload_values_cards fibers cards p :
  payload_values fibers (set_cards cards p) = payload_values fibers p.
Proof. by destruct p. Qed.

Lemma alike_children fibers o o' : alike o o' -> children fibers o' = children fibers o.
Proof.
  intros [_ _ _ H]. unfold children. by rewrite H, payload_values_cards.
Qed.

Lemma alike_fiber_ok fibers o o' :
  alike o o' -> fiber_ok fibers (payload o) -> fiber_ok fibers (payload o').
Proof. intros [_ _ _ H]. rewrite H. by destruct (payload o). Qed.

Lemma alike_marked b o : alike o (with_marked b o).
Proof. split; try done. simpl. by destruct (payload o). Qed.

Lemma heaps_alike_refl h : heaps_alike h h.
Proof. intros a. destruct (h !! a); constructor. apply alike_refl. Qed.

Lemma heaps_alike_trans h1 h2 h3 :
  heaps_alike h1 h2 -> heaps_alike h2 h3 -> heaps_alike h1 h3.
Proof.
  intros A B a. specialize (A a). specialize (B a).
  destruct A as [o1 o2 A|]; inversion B; subst; constructor.
  by eapply alike_trans.
Qed.

Lemma grows_alike h h' : grows h h' -> heaps_alike h h'.
Proof.
  intros H a. destruct (H a) as [o o' [-> _]|]; constructor. apply alike_marked.
Qed.

Lemma grows_refl h : grows h h.
Proof. intros a. destruct (h !! a) as [[]|]; by constructor. Qed.

Lemma grows_trans h1 h2 h3 : grows h1 h2 -> grows h2 h3 -> grows h1 h3.
Proof.
  intros A B a. specialize (A a). specialize (B a).
  destruct A as [o1 o2 [A1 A2]|]; inversion B as [? ? [B1 B2]|]; subst; constructor.
  split; [|auto]. rewrite B1. rewrite A1 at 1. done.
Qed.

Lemma grows_is_marked h h' a : grows h h' -> is_marked h a = true -> is_marked h' a = true.
Proof. intros H. unfold is_marked. destruct (H a) as [o o' [_ ?]|]; simpl; auto. Qed.

Lemma alike_is_Some h h' a : heaps_alike h h' -> is_Some (h !! a) <-> is_Some (h' !! a).
Proof. intros H. destruct (H a); split; intros [? ?]; try done; eauto. Qed.

Lemma alike_is_old h h' a : heaps_alike h h' -> is_old h' a = is_old h a.
Proof. intros H. unfold is_old. destruct (H a) as [? ? []|]; done. Qed.

Lemma alike_kids fibers h h' a :
  heaps_alike h h' -> kids fibers h' a = kids fibers h a.
Proof.
  intros H. unfold kids. destruct (H a); simpl; [by apply alike_children|done].
Qed.

Lemma pointers_cons v vs : pointers (v :: vs) = option_list (pointer v) ++ pointers vs.
Proof. unfold pointers. simpl. by destruct (pointer v). Qed.

Lemma traced_start fibers minor h r a :
  traced fibers minor h r a -> traced fibers minor h r r.
Proof. induction 1; [by constructor|done]. Qed.

Lemma traced_end fibers minor h r a :
  traced fibers minor h r a -> is_Some (h !! a) /\ minor && is_old h a = false.
Proof. by destruct 1. Qed.

Lemma traced_append fibers minor h r a b :
  traced fibers minor h r a -> traced fibers minor h a b -> traced fibers minor h r b.
Proof.
  intros Hr H. induction H as [a Hs Ho|a b c H IH Hc Hs Ho]; [done|].
  eapply traced_step; [by apply IH|done..].
Qed.

Lemma traced_prepend fibers minor h i r a :
  traced fibers minor h i i -> r ∈ kids fibers h i ->
  traced fibers minor h r a -> traced fibers minor h i a.
Proof.
  intros Hi Hr H. induction H as [r Hs Ho|r b c H IH Hc Hs Ho].
  - by eapply traced_step.
  - eapply traced_step; [by apply IH|done..].
Qed.

(** ** Counting unmarked objects *)

Definition unmarked (h : Heap) : nat :=
  size (filter (fun p : Addr * Object => marked (snd p) = false) h).

Lemma alter_insert (h : Heap) a o f : h !! a = Some o -> alter f a h = <[a := f o]> h.
Proof.
  intros H. apply map_eq. intros b. destruct (decide (a = b)) as [->|Hne].
  - rewrite lookup_alter_eq, lookup_insert_eq, H. done.
  - by rewrite lookup_alter_ne, lookup_insert_ne.
Qed.

Lemma unmarked_mark h a o :
  h !! a = Some o -> marked o = false ->
  unmarked h = S (unmarked (alter (with_marked true) a h)).
Proof.
  intros Ha Hm. unfold unmarked. rewrite (alter_insert _ _ _ _ Ha).
  rewrite map_filter_insert_False by (simpl; discriminate).
  rewrite map_filter_delete, map_size_delete.
  assert (Hl : filter (fun p : Addr * Object => marked p.2 = false) h !! a = Some o)
    by (by apply map_lookup_filter_Some).
  rewrite Hl. simpl.
  assert (size (filter (fun p : Addr * Object => marked p.2 = false) h) <> 0).
  { rewrite map_size_non_empty_iff. intros E. rewrite E in Hl. done. }
  lia.
Qed.

Lemma unmarked_size h : unmarked h <= size h.
Proof. apply map_size_filter. Qed.

Lemma grows_mark h a o :
  h !! a = Some o -> grows h (alter (with_marked true) a h).
Proof.
  intros Ha b. destruct (decide (a = b)) as [<-|Hne].
  - rewrite lookup_alter_eq, Ha. by constructor.
  - rewrite lookup_alter_ne by done. apply grows_refl.
Qed.

Lemma is_marked_alter h a b o :
  h !! a = Some o ->
  is_marked (alter (with_marked true) a h) b = (bool_decide (a = b) || is_marked h b).
Proof.
  intros Ha. unfold is_marked. case_bool_decide as Hab; simpl.
  - subst b. by rewrite lookup_alter_eq, Ha.
  - by rewrite lookup_alter_ne.
Qed.

(** ** Correctness of [mark_object]

    Everything is stated against a base heap [h0] that the current heap agrees
    with up to mark bits and card tables. *)

Section Marking.
Context (fibers : gmap FiberId DiamondFiber) (h0 : Heap) (minor : bool).
Context (realloc_succeeds : nat -> bool).
Hypothesis closed : heap_closed fibers h0.

Abbreviation mark := (mark_object realloc_succeeds fibers).
Abbreviation drain := (mark_drain realloc_succeeds fibers).
Abbreviation trace := (traced fibers minor h0).

(** Not to be visited again: marked, or a dead end. *)
Definition handled (h : Heap) (a : Addr) : Prop :=
  is_marked h a = true \/ minor && is_old h0 a = true.

Definition settled (h : Heap) (a : Addr) : Prop :=
  forall c, c ∈ kids fibers h0 a -> handled h c.

(** What a call that visits [rs] guarantees. *)
Record visited (rs : list Addr) (s s' : MarkState) : Prop := {
  v_grows : grows (heap s) (heap s');
  v_stack : exists new, items s' = new ++ items s /\
    Forall (fun a => exists r, r ∈ rs /\ trace r a) new;
  v_draining : draining s' = draining s;
  v_idle : draining s = false -> items s' = items s;
  v_roots : Forall (handled (heap s')) rs;
  v_new : forall a, is_marked (heap s') a = true ->
    is_marked (heap s) a = true \/
    ((a ∈ items s' \/ settled (heap s') a) /\ exists r, r ∈ rs /\ trace r a);
  v_measure : unmarked (heap s') + length (items s') <=
    unmarked (heap s) + length (items s);
  v_unmarked : unmarked (heap s') <= unmarked (heap s);
}.

Lemma handled_mono h h' a : grows h h' -> handled h a -> handled h' a.
Proof. intros Hg [H|H]; [left; by eapply grows_is_marked|by right]. Qed.

Lemma settled_mono h h' a : grows h h' -> settled h a -> settled h' a.
Proof. intros Hg H c Hc. eapply handled_mono; eauto. Qed.

Lemma visited_refl s : visited [] s s.
Proof.
  split; auto.
  - apply grows_refl.
  - exists []. done.
Qed.

Lemma visited_nothing rs s : Forall (handled (heap s)) rs -> visited rs s s.
Proof.
  intros H. split; auto.
  - apply grows_refl.
  - exists []. done.
Qed.

Lemma visited_trans rs rs' s1 s2 s3 :
  visited rs s1 s2 -> visited rs' s2 s3 -> visited (rs ++ rs') s1 s3.
Proof.
  intros A B. split.
  - by eapply grows_trans; [apply A|apply B].
  - destruct (v_stack _ _ _ A) as (n1 & E1 & F1), (v_stack _ _ _ B) as (n2 & E2 & F2).
    exists (n2 ++ n1). rewrite E2, E1. split; [by rewrite app_assoc|].
    apply Forall_app. split; [eapply Forall_impl; [exact F2|]|eapply Forall_impl; [exact F1|]];
      intros a (r & Hr & Ht); exists r; (split; [set_solver|done]).
  - rewrite (v_draining _ _ _ B). apply A.
  - intros H. rewrite (v_idle _ _ _ B), (v_idle _ _ _ A); auto.
    by rewrite (v_draining _ _ _ A).
  - apply Forall_app. split; [|apply B].
    eapply Forall_impl; [apply A|]. intros a. apply handled_mono, B.
  - intros a Ha. destruct (v_new _ _ _ B a Ha) as [H2|[H2 (r & Hr & Ht)]].
    + destruct (v_new _ _ _ A a H2) as [H1|[H1 (r & Hr & Ht)]]; [by left|right].
      split; [|exists r; split; [set_solver|done]].
      destruct H1 as [H1|H1].
      * left. destruct (v_stack _ _ _ B) as (n & -> & _). set_solver.
      * right. eapply settled_mono; [apply B|done].
    + right. split; [done|]. exists r. split; [set_solver|done].
  - pose proof (v_measure _ _ _ A). pose proof (v_measure _ _ _ B). lia.
  - pose proof (v_unmarked _ _ _ A). pose proof (v_unmarked _ _ _ B). lia.
Qed.

(** The states a call may start in. *)
Record ready (s : MarkState) : Prop := {
  r_alike : heaps_alike h0 (heap s);
  r_idle : draining s = false -> items s = [];
}.

Lemma visited_ready rs s s' : ready s -> visited rs s s' -> ready s'.
Proof.
  intros [A B] V. split.
  - eapply heaps_alike_trans; [done|]. apply grows_alike, V.
  - rewrite (v_draining _ _ _ V). intros H. rewrite (v_idle _ _ _ V) by done. auto.
Qed.

(** Fuel that suffices for a call from [s]. *)
Definition need (s : MarkState) : nat :=
  unmarked (heap s) + (if draining s then 1 else 2).

Lemma need_visited rs s s' : visited rs s s' -> need s' <= need s.
Proof.
  intros V. unfold need. rewrite (v_draining _ _ _ V).
  pose proof (v_unmarked _ _ _ V). lia.
Qed.

(** A visitor that guarantees [visited] from every ready state within [bound]. *)
Definition visits (visit : option Addr -> MarkState -> option MarkState) (bound : nat) :=
  forall o s, ready s -> need s <= bound -> (forall a, o = Some a -> is_Some (h0 !! a)) ->
    wp (visit o s) (visited (option_list o) s).

Lemma mark_values_visited visit bound vs s :
  visits visit bound -> ready s -> need s <= bound ->
  (forall a, a ∈ pointers vs -> is_Some (h0 !! a)) ->
  wp (mark_values visit vs s) (visited (pointers vs) s).
Proof.
  intros Hv. revert s.
  induction vs as [|v vs IH]; intros s Hr Hn Hp; cbn [mark_values].
  - apply visited_refl.
  - assert (Hone : wp (mark_value visit v s) (visited (option_list (pointer v)) s)).
    { destruct v; simpl; try apply visited_refl. apply Hv; auto.
      intros a ->. apply Hp. unfold pointers. simpl. set_solver. }
    apply wp_bind. eapply wp_mono; [exact Hone|]. intros s1 V1. cbv beta in V1 |- *.
    eapply wp_mono; [apply IH|].
    + by eapply visited_ready.
    + pose proof (need_visited _ _ _ V1). lia.
    + intros a Ha. apply Hp. unfold pointers in *. simpl.
      destruct (pointer v); set_solver.
    + intros s2 V2. cbv beta in V2.
      rewrite pointers_cons. by eapply visited_trans.
Qed.

Lemma children_visited visit bound a o o0 s :
  visits visit bound -> ready s -> need s <= bound ->
  h0 !! a = Some o0 -> alike o0 o ->
  wp (mark_object_children visit fibers (payload o) s) (visited (kids fibers h0 a) s).
Proof.
  intros Hv Hr Hn Ha Hal. destruct (closed _ _ Ha) as [Hf Hc].
  rewrite mark_object_children_values by (by eapply alike_fiber_ok).
  unfold kids. rewrite Ha. simpl. rewrite <-(alike_children _ _ _ Hal) in *.
  by eapply mark_values_visited.
Qed.

(** What the loop of the outermost call guarantees. *)
Record drained (s s' : MarkState) : Prop := {
  d_grows : grows (heap s) (heap s');
  d_items : items s' = [];
  d_draining : draining s' = false;
  d_settled : Forall (settled (heap s')) (items s);
  d_new : forall a, is_marked (heap s') a = true ->
    is_marked (heap s) a = true \/
    (settled (heap s') a /\ exists r, r ∈ items s /\ trace r a);
  d_unmarked : unmarked (heap s') <= unmarked (heap s);
}.

Lemma drained_step i s s1 s2 :
  trace i i -> visited (kids fibers h0 i) s s1 -> drained s1 s2 ->
  drained (with_items (i :: items s) s) s2.
Proof.
  intros Hi V D. destruct (v_stack _ _ _ V) as (new & E & Hnew).
  pose proof (d_settled _ _ D) as Hs. rewrite E, Forall_app in Hs.
  destruct Hs as [Hs1 Hs2]. rewrite Forall_forall in Hnew, Hs1, Hs2. split; simpl.
  - by eapply grows_trans; [apply V|apply D].
  - apply D.
  - apply D.
  - constructor; [|by apply Forall_forall]. intros c Hc.
    eapply handled_mono; [apply D|].
    pose proof (v_roots _ _ _ V) as Hr. rewrite Forall_forall in Hr. auto.
  - intros a Ha. destruct (d_new _ _ D a Ha) as [H|(H & r & Hr & Ht)].
    + destruct (v_new _ _ _ V a H) as [H1|[H1 (r & Hr & Ht)]]; [by left|right].
      split; [|exists i; split; [set_solver|by eapply traced_prepend]].
      destruct H1 as [H1|H1]; [|by eapply settled_mono; [apply D|]].
      rewrite E in H1. apply elem_of_app in H1 as [H1|H1]; auto.
    + right. split; [done|]. rewrite E in Hr. apply elem_of_app in Hr as [Hr|Hr].
      * destruct (Hnew _ Hr) as (k & Hk & Htk). exists i. split; [set_solver|].
        eapply traced_append; [by eapply traced_prepend|done].
      * exists r. split; [set_solver|done].
  - pose proof (d_unmarked _ _ D). pose proof (v_unmarked _ _ _ V). lia.
Qed.

Lemma traced_alive r a : trace r a -> trace a a.
Proof. intros H. destruct (traced_end _ _ _ _ _ H). by constructor. Qed.

Lemma drain_visited fuel s :
  (forall n, n < fuel -> visits (mark n minor) n) ->
  heaps_alike h0 (heap s) -> draining s = true ->
  Forall (fun a => trace a a) (items s) ->
  unmarked (heap s) + length (items s) + 1 <= fuel ->
  wp (drain fuel minor s) (drained s).
Proof.
  revert s. induction fuel as [|fuel IH]; intros s Hm Hal Hd Hi Hf; [lia|].
  cbn [mark_drain]. destruct (items s) as [|i rest] eqn:Ei.
  - simpl. split; simpl; auto; [apply grows_refl|by rewrite Ei].
  - apply Forall_cons in Hi as [Hi Hrest].
    destruct (traced_end _ _ _ _ _ Hi) as [[o0 Ho0] _].
    assert (Ho : exists o, heap s !! i = Some o /\ alike o0 o).
    { pose proof (Hal i) as H. rewrite Ho0 in H. inversion H; subst; eauto. }
    destruct Ho as (o & Ho & Hao). cbn [with_items heap]. rewrite Ho.
    apply wp_bind. eapply wp_mono.
    { eapply (children_visited (mark fuel minor) fuel i o o0); auto.
      - split; simpl; [done|by rewrite Hd].
      - unfold need. simpl. rewrite Hd. simpl in Hf. lia. }
    intros s1 V. cbv beta in V |- *. simpl in Hf.
    pose proof (v_stack _ _ _ V) as (new & E & Hnew). simpl in E.
    pose proof (v_measure _ _ _ V) as Hme. simpl in Hme.
    eapply wp_mono.
    { apply IH.
      - intros n Hn. apply Hm. lia.
      - eapply heaps_alike_trans; [exact Hal|]. apply (grows_alike (heap s)), V.
      - by rewrite (v_draining _ _ _ V).
      - rewrite E. apply Forall_app. split; [|done]. eapply Forall_impl; [exact Hnew|].
        intros a (r & _ & Ht). by eapply traced_alive.
      - lia. }
    intros s2 D. pose proof (drained_step _ _ _ _ Hi V D) as H.
    destruct s; simpl in *; subst. done.
Qed.

(** [a] is marked in the state [set_mark a s] and was not in [s]. *)
Record just_marked (a : Addr) (s : MarkState) : Prop := {
  j_trace : trace a a;
  j_handled : handled (heap (set_mark a s)) a;
  j_grows : grows (heap s) (heap (set_mark a s));
  j_unmarked : unmarked (heap s) = S (unmarked (heap (set_mark a s)));
  j_only : forall b, is_marked (heap (set_mark a s)) b = true ->
    b = a \/ is_marked (heap s) b = true;
}.

Lemma just_marked_intro a o s :
  heaps_alike h0 (heap s) -> heap s !! a = Some o -> marked o = false ->
  minor && old o = false -> just_marked a s.
Proof.
  intros Hal Ha Hm Ho. split; simpl.
  - constructor; [by apply (alike_is_Some _ _ _ Hal); eauto|].
    rewrite <-(alike_is_old _ _ _ Hal). unfold is_old. by rewrite Ha.
  - left. rewrite (is_marked_alter _ _ _ _ Ha), bool_decide_true by done. done.
  - by eapply grows_mark.
  - by eapply unmarked_mark.
  - intros b. rewrite (is_marked_alter _ _ _ _ Ha).
    intros [H%bool_decide_eq_true|H]%orb_true_iff; auto.
Qed.

(** Marking [a] and then settling it, whatever else is visited. *)
Lemma visited_settle a s s1 :
  just_marked a s ->
  visited (kids fibers h0 a) (set_mark a s) s1 -> visited [a] s s1.
Proof.
  intros [Ht Hh Hg Hu Hb] V. split.
  - by eapply grows_trans; [exact Hg|apply V].
  - destruct (v_stack _ _ _ V) as (new & E & Hn). exists new. split; [exact E|].
    eapply Forall_impl; [exact Hn|]. intros b (r & Hr & Hrb). exists a.
    split; [set_solver|]. by eapply traced_prepend.
  - apply V.
  - apply V.
  - constructor; [|done]. eapply handled_mono; [apply V|done].
  - intros b Hm. destruct (v_new _ _ _ V b Hm) as [H|[H (r & Hr & Hrb)]].
    + destruct (Hb b H) as [->|?]; [right|by left]. split.
      * right. intros c Hc. pose proof (v_roots _ _ _ V) as Hr.
        rewrite Forall_forall in Hr. auto.
      * exists a. split; [set_solver|done].
    + right. split; [done|]. exists a. split; [set_solver|by eapply traced_prepend].
  - pose proof (v_measure _ _ _ V) as H. simpl in *. lia.
  - pose proof (v_unmarked _ _ _ V). lia.
Qed.

Lemma reserve_same s :
  exists b s1, mark_stack_reserve realloc_succeeds s = (b, s1) /\
    heap s1 = heap s /\ items s1 = items s /\ draining s1 = draining s.
Proof.
  unfold mark_stack_reserve. destruct (_ =? _); eexists _, _; split; done.
Qed.

Lemma visited_from s1 s s2 rs :
  heap s1 = heap s -> items s1 = items s -> draining s1 = draining s ->
  visited rs s1 s2 -> visited rs s s2.
Proof. intros Eh Ei Ed [A B C D E F G H]. rewrite Eh, ?Ei, ?Ed in *. by split. Qed.

(** Marking [a] and leaving it on the stack of the running loop. *)
Lemma visited_pushed a s s1 :
  just_marked a s -> draining s = true -> heap s1 = heap (set_mark a s) ->
  items s1 = a :: items s -> draining s1 = true -> visited [a] s s1.
Proof.
  intros [Ht Hh Hg Hu Hb] Hd Eh Ei Ed. split; rewrite ?Eh, ?Ei; auto; try congruence.
  - exists [a]. split; [done|]. constructor; [|done]. exists a. set_solver.
  - intros b Hm. destruct (Hb b Hm) as [->|?]; [right|by left].
    split; [left; set_solver|]. exists a. set_solver.
  - simpl in *. lia.
  - lia.
Qed.

Lemma leaf_kids a o o0 :
  h0 !! a = Some o0 -> alike o0 o -> is_leaf (payload o) = true -> kids fibers h0 a = [].
Proof.
  intros Ha Hal Hl. unfold kids. rewrite Ha. simpl. rewrite <-(alike_children _ _ _ Hal).
  unfold children. by destruct (payload o).
Qed.

(** Marking [a] and draining a stack that held nothing else. *)
Lemma visited_drained a s s1 s2 :
  just_marked a s ->
  draining s = false -> items s = [] ->
  heap s1 = heap (set_mark a s) -> items s1 = [a] -> drained s1 s2 ->
  visited [a] s s2.
Proof.
  intros [Ht Hh Hg Hu Hb] Hd Hi Eh Ei D.
  pose proof (d_grows _ _ D) as G. rewrite Eh in G.
  pose proof (d_unmarked _ _ D) as U. rewrite Eh in U.
  pose proof (d_settled _ _ D) as S. rewrite Ei in S. apply Forall_cons in S as [S _].
  split.
  - by eapply grows_trans.
  - exists []. by rewrite (d_items _ _ D), Hi.
  - by rewrite (d_draining _ _ D).
  - intros _. by rewrite (d_items _ _ D).
  - constructor; [|done]. by eapply handled_mono.
  - intros b Hm. destruct (d_new _ _ D b Hm) as [H|(H & r & Hr & Hrb)].
    + rewrite Eh in H. destruct (Hb b H) as [->|?]; [right|by left].
      split; [by right|]. exists a. split; [set_solver|done].
    + right. rewrite Ei in Hr. split; [by right|]. by exists r.
  - rewrite (d_items _ _ D), Hi. simpl. lia.
  - lia.
Qed.

Lemma mark_object_visits fuel : visits (mark fuel minor) fuel.
Proof.
  induction fuel as [fuel IH] using lt_wf_ind. intros [a|] s Hr Hn Hs; simpl option_list.
  2: { destruct fuel; apply visited_refl. }
  destruct fuel as [|fuel]; [unfold need in Hn; destruct (draining s); lia|].
  destruct (Hs a eq_refl) as [o0 Ho0]. pose proof (r_alike _ Hr a) as H.
  rewrite Ho0 in H. inversion H as [? o Hal E1 Ho|]; subst. clear H.
  cbn [mark_object]. rewrite <-Ho. symmetry in Ho.
  destruct (minor && old o) eqn:Eo.
  { apply visited_nothing. constructor; [right|done].
    rewrite <-(alike_is_old _ _ _ (r_alike _ Hr)). unfold is_old. by rewrite Ho. }
  destruct (marked o) eqn:Em.
  { apply visited_nothing. constructor; [left|done]. unfold is_marked. by rewrite Ho. }
  pose proof (just_marked_intro a o s (r_alike _ Hr) Ho Em Eo) as J.
  destruct (is_leaf (payload o)) eqn:El.
  { apply visited_settle; auto. rewrite (leaf_kids _ _ _ Ho0 Hal El). apply visited_refl. }
  destruct (reserve_same (set_mark a s)) as (b & s1 & Er & Eh & Ei & Ed).
  cbv zeta. rewrite Er. simpl in Ei, Ed.
  assert (Hal1 : heaps_alike h0 (heap s1)).
  { rewrite Eh. eapply heaps_alike_trans; [apply Hr|]. apply grows_alike, J. }
  pose proof (j_unmarked _ _ J) as Hu. rewrite <-Eh in Hu. unfold need in Hn.
  destruct b.
  - cbn [with_items draining]. rewrite Ed. destruct (draining s) eqn:Ed'.
    + apply visited_pushed; simpl; try done; congruence.
    + assert (Ei' : items s1 = []) by (rewrite Ei; by apply Hr).
      eapply wp_mono.
      { apply drain_visited; simpl; [|done|done| |].
        - intros n Hn'. apply IH. lia.
        - rewrite Ei'. constructor; [by apply (j_trace a s)|done].
        - rewrite Ei'. simpl. lia. }
      intros s2 D. eapply visited_drained; [done|done|by apply Hr| | |exact D]; simpl;
        [done|by rewrite Ei'].
  - eapply wp_mono; [eapply (children_visited _ fuel a o o0); eauto|].
    + split; [done|]. rewrite Ed, Ei. apply Hr.
    + unfold need. rewrite Ed. destruct (draining s); lia.
    + intros s2 V. apply visited_settle; [done|].
      by apply (visited_from s1).
Qed.

(** ** Walks from an idle stack *)

(** What a whole walk from [rs] guarantees; the card tables may change. *)
Record walked (rs : list Addr) (h h' : Heap) : Prop := {
  w_alike : heaps_alike h h';
  w_mono : forall a, is_marked h a = true -> is_marked h' a = true;
  w_roots : Forall (handled h') rs;
  w_new : forall a, is_marked h' a = true ->
    is_marked h a = true \/ (settled h' a /\ exists r, r ∈ rs /\ trace r a);
}.

(** An idle state with [bound] fuel left. *)
Record idle (bound : nat) (s : MarkState) : Prop := {
  i_ready : ready s;
  i_draining : draining s = false;
  i_need : need s <= bound;
}.

Lemma handled_more h h' a :
  (forall b, is_marked h b = true -> is_marked h' b = true) -> handled h a -> handled h' a.
Proof. intros Hm [H|H]; [left; auto|by right]. Qed.

Lemma walked_refl h : walked [] h h.
Proof. split; auto. apply heaps_alike_refl. Qed.

Lemma walked_trans rs rs' h1 h2 h3 :
  walked rs h1 h2 -> walked rs' h2 h3 -> walked (rs ++ rs') h1 h3.
Proof.
  clear closed. intros A B. split.
  - by eapply heaps_alike_trans; [apply A|apply B].
  - intros a H. by apply B, A.
  - apply Forall_app. split; [|apply B]. eapply Forall_impl; [apply A|].
    intros a. apply handled_more, B.
  - intros a H. destruct (w_new _ _ _ B a H) as [H2|[H2 (r & Hr & Ht)]].
    + destruct (w_new _ _ _ A a H2) as [H1|[H1 (r & Hr & Ht)]]; [by left|right].
      split; [|exists r; set_solver].
      intros c Hc. eapply handled_more; [apply B|auto].
    + right. split; [done|]. exists r. set_solver.
Qed.

Lemma visited_walked bound rs s s' :
  idle bound s -> visited rs s s' -> idle bound s' /\ walked rs (heap s) (heap s').
Proof.
  intros [Hr Hd Hn] V. split; [split|split].
  - by eapply visited_ready.
  - by rewrite (v_draining _ _ _ V).
  - pose proof (need_visited _ _ _ V). lia.
  - apply grows_alike, V.
  - intros a. apply grows_is_marked, V.
  - apply V.
  - intros a H. destruct (v_new _ _ _ V a H) as [H1|[[H1|H1] H2]]; auto.
    rewrite (v_idle _ _ _ V Hd), (r_idle _ Hr Hd) in H1. by apply elem_of_nil in H1.
Qed.

Lemma values_walked bound vs s :
  idle bound s -> (forall a, a ∈ pointers vs -> is_Some (h0 !! a)) ->
  wp (mark_values (mark bound minor) vs s) (fun s' =>
    idle bound s' /\ walked (pointers vs) (heap s) (heap s') /\ grows (heap s) (heap s')).
Proof.
  intros Hi Hp. eapply wp_mono.
  - eapply mark_values_visited; [apply mark_object_visits|apply Hi|apply Hi|done].
  - intros s' V. cbv beta in V. destruct (visited_walked _ _ _ _ Hi V). split_and!; auto.
    apply V.
Qed.
End Marking.

(** ** Cards *)

Definition card_values (p : Payload) (card : nat) : list Value :=
  match p with
  | ARRAY values _ _ => card_slice card values
  | HASH entries _ _ _ => card_slice card entries ≫= entry_values
  | _ => []
  end.

Definition card_dirty (p : Payload) (card : nat) : bool :=
  default false (payload_cards p ≫= lookup card).

(** What the dirty cards from [card] on, [n] of them, point to. *)
Definition dirty_pointers (p : Payload) (card n : nat) : list Addr :=
  seq card n ≫= (fun c => if card_dirty p c then pointers (card_values p c) else []).

(** What scanning a remembered object visits. *)
Definition remembered_pointers (fibers : gmap FiberId DiamondFiber) (p : Payload)
    : list Addr :=
  match payload_cards p with
  | None => pointers (payload_values fibers p)
  | Some cards =>
      dirty_pointers p 0 (Nat.min (cards_of_capacity (payload_capacity p)) (length cards))
  end.

Lemma mark_card_values {St} (visit : option Addr -> St -> option St) p card s :
  mark_card visit p card s = mark_values visit (card_values p card) s.
Proof. destruct p; try done. apply mark_entries_values. Qed.

Lemma card_slice_subset {A} card (l : list A) x : x ∈ card_slice card l -> x ∈ l.
Proof.
  unfold card_slice. intros (i & Hi & _)%elem_of_take.
  rewrite lookup_drop in Hi. by eapply list_elem_of_lookup_2.
Qed.

Lemma pointers_subset vs ws : vs ⊆ ws -> pointers vs ⊆ pointers ws.
Proof.
  intros H a. unfold pointers. rewrite !list_elem_of_omap. intros (v & Hv & E). eauto.
Qed.

Lemma card_values_subset fibers p card : card_values p card ⊆ payload_values fibers p.
Proof.
  destruct p; simpl; try (intros x H; by apply elem_of_nil in H).
  - intros x. apply card_slice_subset.
  - intros x. rewrite !list_elem_of_bind. intros (e & He & H).
    exists e. split; [done|]. by apply card_slice_subset in H.
Qed.

Lemma dirty_pointers_subset fibers p card n :
  dirty_pointers p card n ⊆ pointers (payload_values fibers p).
Proof.
  intros a. unfold dirty_pointers. rewrite list_elem_of_bind. intros (c & H & _).
  destruct (card_dirty p c); [|by apply elem_of_nil in H].
  eapply pointers_subset; [apply card_values_subset|done].
Qed.

Lemma remembered_pointers_subset fibers p :
  remembered_pointers fibers p ⊆ pointers (payload_values fibers p).
Proof.
  unfold remembered_pointers. destruct (payload_cards p); [apply dirty_pointers_subset|done].
Qed.

(** [clear_card] leaves the later cards of the object. *)
Lemma dirty_pointers_clear p cards card n :
  payload_cards p = Some cards ->
  dirty_pointers (set_cards (Some (<[card := false]> cards)) p) (S card) n =
  dirty_pointers p (S card) n.
Proof.
  intros Hc. unfold dirty_pointers. apply Forall_bind_ext, Forall_forall.
  intros c Hin%elem_of_seq. unfold card_dirty.
  assert (Hcs : payload_cards (set_cards (Some (<[card := false]> cards)) p) =
    Some (<[card := false]> cards)) by (by destruct p).
  rewrite Hcs, Hc. simpl. rewrite list_lookup_insert_ne by lia.
  destruct (default false _); [|done]. by destruct p.
Qed.

Lemma unmarked_ext h h' : (forall a, marked <$> h' !! a = marked <$> h !! a) ->
  unmarked h' = unmarked h.
Proof.
  intros H.
  assert (E : forall h : Heap, unmarked h =
    size (filter (fun p : Addr * bool => snd p = false) (marked <$> h))).
  { intros m. unfold unmarked. rewrite map_filter_fmap. by rewrite map_size_fmap. }
  rewrite !E. f_equal. f_equal. apply map_eq. intros a. by rewrite !lookup_fmap.
Qed.

Definition clear_object_card (card : nat) (o : Object) : Object :=
  with_payload (set_cards ((fun cs => <[card := false]> cs) <$> payload_cards (payload o))
    (payload o)) o.

Lemma lookup_clear a card s b :
  heap (clear_card a card s) !! b =
  (if decide (a = b) then clear_object_card card <$> heap s !! b else heap s !! b).
Proof.
  simpl. destruct (decide (a = b)) as [<-|]; [by rewrite lookup_alter_eq|].
  by rewrite lookup_alter_ne.
Qed.

Lemma alike_clear card o : alike o (clear_object_card card o).
Proof.
  split; try done. unfold clear_object_card. simpl. by destruct (payload o).
Qed.

Section Cards.
Context (fibers : gmap FiberId DiamondFiber) (h0 : Heap) (minor : bool).
Context (realloc_succeeds : nat -> bool).
Hypothesis closed : heap_closed fibers h0.

Abbreviation mark := (mark_object realloc_succeeds fibers).
Abbreviation walk := (walked fibers h0 minor).

Lemma clear_walked a card s :
  walk [] (heap s) (heap (clear_card a card s)) /\
  (forall b, marked <$> heap (clear_card a card s) !! b = marked <$> heap s !! b).
Proof.
  assert (Hm : forall b,
    marked <$> heap (clear_card a card s) !! b = marked <$> heap s !! b).
  { intros b. rewrite lookup_clear. destruct (decide _); [|done].
    by destruct (heap s !! b). }
  assert (Hi : forall b, is_marked (heap (clear_card a card s)) b = is_marked (heap s) b).
  { intros b. unfold is_marked. specialize (Hm b).
    destruct (heap (clear_card a card s) !! b), (heap s !! b); simpl in *; congruence. }
  split; [|done]. split.
  - intros b. rewrite lookup_clear. destruct (decide _); [|apply heaps_alike_refl].
    destruct (heap s !! b); constructor. apply alike_clear.
  - intros b. by rewrite Hi.
  - done.
  - intros b. rewrite Hi. by left.
Qed.

Lemma clear_idle bound a card s :
  idle h0 bound s -> idle h0 bound (clear_card a card s).
Proof.
  intros [[A B] C D]. destruct (clear_walked a card s) as [W Hm]. split; [split|..].
  - eapply heaps_alike_trans; [exact A|apply W].
  - done.
  - done.
  - unfold need in *. simpl in *. by rewrite (unmarked_ext _ _ Hm).
Qed.

(** Only the payload of [a] may differ. *)
Definition others (a : Addr) (h h' : Heap) : Prop :=
  forall b, b <> a -> payload <$> h' !! b = payload <$> h !! b.

Lemma grows_payload h h' b : grows h h' -> payload <$> h' !! b = payload <$> h !! b.
Proof. intros G. destruct (G b) as [o o' [-> _]|]; done. Qed.

Lemma others_trans a h1 h2 h3 : others a h1 h2 -> others a h2 h3 -> others a h1 h3.
Proof. intros A B b Hb. by rewrite B, A. Qed.

Lemma others_clear a card s : others a (heap s) (heap (clear_card a card s)).
Proof. intros b Hb. rewrite lookup_clear. by rewrite decide_False. Qed.

Lemma others_grows a h h' : grows h h' -> others a h h'.
Proof. intros G b _. by apply grows_payload. Qed.

Lemma dirty_cards_walked bound a n card s p cards :
  idle h0 bound s -> payload <$> heap s !! a = Some p -> payload_cards p = Some cards ->
  card + n <= length cards ->
  (forall c, c ∈ pointers (payload_values fibers p) -> is_Some (h0 !! c)) ->
  wp (mark_dirty_cards (mark bound minor) a n card s) (fun s' =>
    idle h0 bound s' /\ walk (dirty_pointers p card n) (heap s) (heap s') /\
    others a (heap s) (heap s')).
Proof.
  revert card s p cards. induction n as [|n IH]; intros card s p cards Hi Hp Hc Hl Hk.
  - simpl. split_and!; [done|apply walked_refl|by intros b _].
  - cbn [mark_dirty_cards]. destruct (heap s !! a) as [o|] eqn:Ho; [|done].
    injection Hp as Hp. rewrite Hp, Hc.
    destruct (lookup_lt_is_Some_2 cards card) as [dirty Hd]; [lia|].
    unfold array_read. rewrite Hd.
    assert (Hsplit : dirty_pointers p card (S n) =
      (if dirty then pointers (card_values p card) else []) ++ dirty_pointers p (S card) n).
    { unfold dirty_pointers, card_dirty. simpl. rewrite Hc. simpl. by rewrite Hd. }
    rewrite Hsplit. destruct dirty; cbn [negb].
    + rewrite mark_card_values. apply wp_bind. eapply wp_mono.
      { apply (values_walked fibers h0 minor realloc_succeeds closed bound); [done|].
        intros c Hin. apply Hk. eapply pointers_subset; [apply card_values_subset|done]. }
      intros s1 (Hi1 & W1 & G1). cbv beta.
      pose proof (grows_payload _ _ a G1) as E. rewrite Ho in E. simpl in E.
      eapply wp_mono; [apply (IH (S card) _
        (set_cards (Some (<[card := false]> cards)) p) (<[card := false]> cards))|].
      * by apply clear_idle.
      * rewrite lookup_clear, decide_True by done.
        destruct (heap s1 !! a) as [o1|]; [|done]. simpl in *. injection E as ->.
        by rewrite Hp, Hc.
      * by destruct p.
      * rewrite length_insert. lia.
      * by rewrite payload_values_cards.
      * intros s2 (Hi2 & W2 & O2). rewrite (dirty_pointers_clear p cards) in W2 by done.
        split_and!; [done| |].
        -- eapply walked_trans; [exact W1|].
           rewrite <-(app_nil_l (dirty_pointers p (S card) n)).
           eapply walked_trans; [apply clear_walked|exact W2].
        -- eapply others_trans; [by apply others_grows|].
           by eapply others_trans; [apply others_clear|].
    + eapply IH; eauto; [by rewrite Ho, <-Hp|lia].
Qed.

Definition remembered_kids (a : Addr) : list Addr :=
  from_option (fun o => remembered_pointers fibers (payload o)) [] (h0 !! a).

Lemma remembered_walked bound a s :
  idle h0 bound s -> is_Some (h0 !! a) ->
  payload <$> heap s !! a = payload <$> h0 !! a ->
  wp (mark_remembered (mark bound minor) fibers a s) (fun s' =>
    idle h0 bound s' /\ walk (remembered_kids a) (heap s) (heap s') /\
    others a (heap s) (heap s')).
Proof.
  intros Hi [o0 Ho0] Hp. rewrite Ho0 in Hp. simpl in Hp.
  destruct (closed _ _ Ho0) as [Hf Hk]. unfold children in Hk.
  unfold mark_remembered, remembered_kids. rewrite Ho0. simpl.
  destruct (heap s !! a) as [o|] eqn:Ho; [|done]. injection Hp as Hp. rewrite Hp.
  unfold remembered_pointers. destruct (payload_cards (payload o0)) as [cards|] eqn:Ec.
  - eapply dirty_cards_walked; eauto; [by rewrite Ho, <-Hp|simpl; lia].
  - rewrite mark_object_children_values by done. eapply wp_mono.
    + by apply (values_walked fibers h0 minor realloc_succeeds closed bound).
    + intros s' (A & B & C). split_and!; auto. by apply others_grows.
Qed.

Lemma remembered_set_walked bound set s :
  idle h0 bound s -> NoDup set ->
  (forall a, a ∈ set -> is_Some (h0 !! a) /\ payload <$> heap s !! a = payload <$> h0 !! a) ->
  wp (mark_remembered_set (mark bound minor) fibers set s) (fun s' =>
    idle h0 bound s' /\ walk (set ≫= remembered_kids) (heap s) (heap s') /\
    forall b, b ∉ set -> payload <$> heap s' !! b = payload <$> heap s !! b).
Proof.
  intros Hi Hnd. revert s Hi. induction Hnd as [|a set Hna Hnd IH]; intros s Hi Hs.
  - simpl. split_and!; [done|apply walked_refl|done].
  - cbn [mark_remembered_set]. apply wp_bind. eapply wp_mono.
    { apply (remembered_walked bound a s); [done|apply Hs; set_solver..]. }
    intros s1 (Hi1 & W1 & O1). cbv beta. eapply wp_mono; [apply IH; [done|]|].
    + intros b Hb. destruct (Hs b) as [A B]; [set_solver|]. split; [done|].
      rewrite <-B. apply O1. set_solver.
    + intros s2 (Hi2 & W2 & O2). cbn [mbind list_bind]. split_and!; [done| |].
      * by eapply walked_trans.
      * intros b Hb. rewrite O2 by set_solver. apply O1. set_solver.
Qed.

(** A walk over an unmarked heap marks exactly what it traces. *)
Lemma walked_exact rs h h' :
  heaps_alike h0 h' -> walk rs h h' -> (forall a, is_marked h a = false) ->
  (forall r, r ∈ rs -> is_Some (h0 !! r)) ->
  forall a, is_marked h' a = true <-> exists r, r ∈ rs /\ traced fibers minor h0 r a.
Proof.
  intros Hal W H0 Hrs a. split.
  - intros Ha. destruct (w_new _ _ _ _ _ _ W a Ha) as [H|[_ H]]; [|done].
    by rewrite H0 in H.
  - intros (r & Hr & Ht). induction Ht as [r Hs Ho|r b c Ht IH Hc Hs Ho].
    + pose proof (w_roots _ _ _ _ _ _ W) as H. rewrite Forall_forall in H.
      destruct (H r Hr) as [?|?]; [done|congruence].
    + specialize (IH Hr). destruct (w_new _ _ _ _ _ _ W b IH) as [H|[H _]];
        [by rewrite H0 in H|].
      destruct (H c Hc) as [?|?]; [done|congruence].
Qed.
End Cards.

(** ** The marking phase *)

Definition roots_closed (vm : Vm) : Prop :=
  root_fibers_ok (fibers vm) (roots vm) /\
  forall a, a ∈ pointers (root_values (fibers vm) (roots vm)) -> is_Some (objects vm !! a).

Definition all_unmarked (h : Heap) : Prop := forall a, is_marked h a = false.

(** Found from the roots, old objects being dead ends if [minor]. *)
Definition reached (minor : bool) (vm : Vm) (a : Addr) : Prop :=
  exists r, r ∈ pointers (root_values (fibers vm) (roots vm)) /\
    traced (fibers vm) minor (objects vm) r a.

(** Found from the scan of the remembered set. *)
Definition remembered_reached (vm : Vm) (a : Addr) : Prop :=
  exists r, r ∈ (remembered_set vm ≫= remembered_kids (fibers vm) (objects vm)) /\
    traced (fibers vm) true (objects vm) r a.

Definition mark_fuel (vm : Vm) : nat := size (objects vm) + 2.

Section MarkRoots.
Context (realloc_succeeds : nat -> bool) (vm : Vm).
Hypothesis closed : heap_closed (fibers vm) (objects vm).
Hypothesis Hroots : roots_closed vm.
Hypothesis Hunmarked : all_unmarked (objects vm).

Lemma start_idle bound :
  mark_fuel vm <= bound ->
  idle (objects vm) bound {| heap := objects vm; items := []; stack_capacity := 0;
    draining := false; reallocs := 0 |}.
Proof.
  intros Hb. split; simpl; [split; simpl; [apply heaps_alike_refl|done]|done|].
  unfold need. simpl. pose proof (unmarked_size (objects vm)).
  unfold mark_fuel in Hb. lia.
Qed.

Lemma mark_roots_major fuel :
  mark_fuel vm <= fuel ->
  exists h, mark_roots realloc_succeeds fuel vm false = Some h /\
    grows (objects vm) h /\ forall a, is_marked h a = true <-> reached false vm a.
Proof.
  intros Hf. apply wp_some. unfold mark_roots.
  rewrite mark_root_values_eq by apply Hroots. apply wp_bind. eapply wp_mono.
  { apply (values_walked (fibers vm) (objects vm) false realloc_succeeds closed fuel);
      [by apply start_idle|apply Hroots]. }
  intros s (Hi & W & G). cbv beta. simpl. split; [done|].
  apply (walked_exact _ _ _ _ _ _ (r_alike _ _ (i_ready _ _ _ Hi)) W Hunmarked).
  apply Hroots.
Qed.

Lemma mark_roots_minor fuel :
  mark_fuel vm <= fuel -> NoDup (remembered_set vm) ->
  Forall (fun a => is_Some (objects vm !! a)) (remembered_set vm) ->
  exists h, mark_roots realloc_succeeds fuel vm true = Some h /\
    heaps_alike (objects vm) h /\
    forall a, is_marked h a = true <-> reached true vm a \/ remembered_reached vm a.
Proof.
  intros Hf Hnd Hr. rewrite Forall_forall in Hr. apply wp_some. unfold mark_roots.
  rewrite mark_root_values_eq by apply Hroots. apply wp_bind. eapply wp_mono.
  { apply (values_walked (fibers vm) (objects vm) true realloc_succeeds closed fuel);
      [by apply start_idle|apply Hroots]. }
  intros s (Hi & W & G). cbv beta. apply wp_bind. eapply wp_mono.
  { apply (remembered_set_walked (fibers vm) (objects vm) true realloc_succeeds closed fuel);
      [done|done|]. intros a Ha. split; [by apply Hr|]. by apply grows_payload. }
  intros s2 (Hi2 & W2 & _). cbv beta. simpl.
  pose proof (r_alike _ _ (i_ready _ _ _ Hi2)) as Hal. split; [done|].
  pose proof (walked_trans _ _ _ _ _ _ _ _ W W2) as W3. intros a.
  rewrite (walked_exact _ _ _ _ _ _ Hal W3 Hunmarked).
  - unfold reached, remembered_reached. setoid_rewrite elem_of_app. naive_solver.
  - intros r [H|H]%elem_of_app; [by apply Hroots|].
    apply list_elem_of_bind in H as (b & H & Hb). destruct (Hr b Hb) as [o Ho].
    unfold remembered_kids in H. rewrite Ho in H. simpl in H.
    apply (closed _ _ Ho). unfold children. by apply remembered_pointers_subset.
Qed.
End MarkRoots.
