(* ===== verification/GcSweep.v ===== *)
(** * GcSweep: the sweep and the two collectors of src/vm_gc.c

    [sweep_list] unlinks the unmarked objects of a list, releases what they
    own, takes their size off [bytes_allocated] and frees their block or keeps
    it in a pool; survivors stay, or are promoted.  [diamond_vm_collect_impl]
    is the major collection, [diamond_vm_collect_minor_impl] the minor one. *)

From S2P Require Import Prelude GcHeap GcMark GcMarkOk.
From Stdlib Require Import ZArith Lia Bool List.
From stdpp Require Import base numbers list gmap sets.

Local Open Scope Z_scope.
Local Open Scope c_scope.

(** ** Field updates of the VM *)

Definition with_objects (h : Heap) (vm : Vm) : Vm :=
  {| objects := h; fibers := fibers vm; roots := roots vm;
     young_objects := young_objects vm; old_objects := old_objects vm;
     remembered_set := remembered_set vm; remembered_capacity := remembered_capacity vm;
     bytes_allocated := bytes_allocated vm; next_gc := next_gc vm;
     bytes_allocated_at_last_minor_gc := bytes_allocated_at_last_minor_gc vm;
     minor_gc_threshold_bytes := minor_gc_threshold_bytes vm;
     pool_bytes := pool_bytes vm; pools := pools vm; released := released vm |}.

Definition with_lists (young olds : list Addr) (vm : Vm) : Vm :=
  {| objects := objects vm; fibers := fibers vm; roots := roots vm;
     young_objects := young; old_objects := olds;
     remembered_set := remembered_set vm; remembered_capacity := remembered_capacity vm;
     bytes_allocated := bytes_allocated vm; next_gc := next_gc vm;
     bytes_allocated_at_last_minor_gc := bytes_allocated_at_last_minor_gc vm;
     minor_gc_threshold_bytes := minor_gc_threshold_bytes vm;
     pool_bytes := pool_bytes vm; pools := pools vm; released := released vm |}.

Definition with_remembered_set (set : list Addr) (capacity : nat) (vm : Vm) : Vm :=
  {| objects := objects vm; fibers := fibers vm; roots := roots vm;
     young_objects := young_objects vm; old_objects := old_objects vm;
     remembered_set := set; remembered_capacity := capacity;
     bytes_allocated := bytes_allocated vm; next_gc := next_gc vm;
     bytes_allocated_at_last_minor_gc := bytes_allocated_at_last_minor_gc vm;
     minor_gc_threshold_bytes := minor_gc_threshold_bytes vm;
     pool_bytes := pool_bytes vm; pools := pools vm; released := released vm |}.

Definition with_counters (bytes next last_minor : Z) (vm : Vm) : Vm :=
  {| objects := objects vm; fibers := fibers vm; roots := roots vm;
     young_objects := young_objects vm; old_objects := old_objects vm;
     remembered_set := remembered_set vm; remembered_capacity := remembered_capacity vm;
     bytes_allocated := bytes; next_gc := next;
     bytes_allocated_at_last_minor_gc := last_minor;
     minor_gc_threshold_bytes := minor_gc_threshold_bytes vm;
     pool_bytes := pool_bytes vm; pools := pools vm; released := released vm |}.

Definition with_pools (bytes : Z) (p : gmap Pool (list Addr)) (vm : Vm) : Vm :=
  {| objects := objects vm; fibers := fibers vm; roots := roots vm;
     young_objects := young_objects vm; old_objects := old_objects vm;
     remembered_set := remembered_set vm; remembered_capacity := remembered_capacity vm;
     bytes_allocated := bytes_allocated vm; next_gc := next_gc vm;
     bytes_allocated_at_last_minor_gc := bytes_allocated_at_last_minor_gc vm;
     minor_gc_threshold_bytes := minor_gc_threshold_bytes vm;
     pool_bytes := bytes; pools := p; released := released vm |}.

Definition with_native (fs : gmap FiberId DiamondFiber) (rel : list Release) (vm : Vm) : Vm :=
  {| objects := objects vm; fibers := fs; roots := roots vm;
     young_objects := young_objects vm; old_objects := old_objects vm;
     remembered_set := remembered_set vm; remembered_capacity := remembered_capacity vm;
     bytes_allocated := bytes_allocated vm; next_gc := next_gc vm;
     bytes_allocated_at_last_minor_gc := bytes_allocated_at_last_minor_gc vm;
     minor_gc_threshold_bytes := minor_gc_threshold_bytes vm;
     pool_bytes := pool_bytes vm; pools := pools vm; released := rel |}.

Definition with_roots (r : Roots) (vm : Vm) : Vm :=
  {| objects := objects vm; fibers := fibers vm; roots := r;
     young_objects := young_objects vm; old_objects := old_objects vm;
     remembered_set := remembered_set vm; remembered_capacity := remembered_capacity vm;
     bytes_allocated := bytes_allocated vm; next_gc := next_gc vm;
     bytes_allocated_at_last_minor_gc := bytes_allocated_at_last_minor_gc vm;
     minor_gc_threshold_bytes := minor_gc_threshold_bytes vm;
     pool_bytes := pool_bytes vm; pools := pools vm; released := released vm |}.

(** ** Releasing what an object owns *)

Definition release_fd (fd : Z) : list Release := if 0 <=? fd then [CloseFd fd] else [].

Definition release_with (f : Z -> Release) (o : option Z) : list Release :=
  match o with Some x => [f x] | None => [] end.

(** The cleanup calls of [sweep_list], in call order. *)
Definition release_of (p : Payload) : list Release :=
  match p with
  | FIBER fiber => [FiberFree fiber]
  | FILE stream write_stream =>
      release_with Fclose write_stream ++ release_with Fclose stream
  | LISTENER fd tls_context => release_fd fd ++ release_with SslCtxFree tls_context
  | SOCKET fd | UDP_SOCKET fd | PROCESS_STREAM fd => release_fd fd
  | TLS_SOCKET ssl handshake_pending fd received_session =>
      match ssl with
      | Some s => (if handshake_pending : bool then [] else [SslShutdown s]) ++ [SslFree s]
      | None => []
      end ++ release_fd fd ++ release_with SslSessionFree received_session
  | REGEXP handle => [RegexFree handle]
  | PROGRAM_BUILDER source_bundle program =>
      release_with SourceBundleFree source_bundle ++ [ProgramFree program]
  | THREAD thread => [ThreadFree thread]
  | CHANNEL channel => [ChannelRelease channel]
  | SUPERVISOR supervisor => [SupervisorRelease supervisor]
  | SQLITE3 db => release_with SqliteClose db
  | SQLITE3_STATEMENT stmt => release_with SqliteFinalize stmt
  | POSTGRES conn => release_with PqFinish conn
  | MYSQL conn => release_with MysqlClose conn
  | PROCESS_HANDLE pid reaped _ _ _ => if reaped : bool then [] else [WaitNoHang pid]
  | _ => []
  end.

(** [diamond_fiber_free] on the fiber behind a handle. *)
Definition free_fiber (p : Payload) (fs : gmap FiberId DiamondFiber)
    : gmap FiberId DiamondFiber :=
  match p with FIBER (Some id) => delete id fs | _ => fs end.

Section Sweep.
Context `{Layout}.

(** Where the block of an unreached object goes. *)
Definition pool_block (p : Payload) (a : Addr) (vm : Vm) : Vm :=
  match object_pool p with
  | Some pool =>
      if to_u64 (pool_bytes vm + block_size pool) <=? minor_gc_threshold_bytes vm then
        with_pools (to_u64 (pool_bytes vm + block_size pool))
          (<[pool := a :: default [] (pools vm !! pool)]> (pools vm)) vm
      else vm
  | None => vm
  end.

(** The body of [sweep_list] for an unmarked object. *)
Definition sweep_unreached (a : Addr) (o : Object) (vm : Vm) : Vm :=
  let vm := with_native (free_fiber (payload o) (fibers vm))
              (rev (release_of (payload o)) ++ released vm) vm in
  let vm := with_counters (to_u64 (bytes_allocated vm - object_size (payload o)))
              (next_gc vm) (bytes_allocated_at_last_minor_gc vm) vm in
  pool_block (payload o) a (with_objects (delete a (objects vm)) vm).

(** [sweep_list]; the result pairs the VM with the objects left in the list. *)
Fixpoint sweep_list (list : list Addr) (promote : bool) (vm : Vm)
    : option (Vm * Datatypes.list Addr) :=
  match list with
  | [] => Some (vm, [])
  | a :: next =>
      let? o := objects vm !! a in
      if marked o then
        let o := with_marked false o in
        if promote then
          let vm := with_objects (<[a := with_old true o]> (objects vm)) vm in
          sweep_list next promote
            (with_lists (young_objects vm) (a :: old_objects vm) vm)
        else
          let? (vm, kept) :=
            sweep_list next promote (with_objects (<[a := o]> (objects vm)) vm) in
          Some (vm, a :: kept)
      else sweep_list next promote (sweep_unreached a o vm)
  end.

(** The entries of the remembered set the marking reached. *)
Fixpoint filter_remembered (h : Heap) (set : list Addr) : option (list Addr) :=
  match set with
  | [] => Some []
  | a :: set =>
      let? o := h !! a in
      let? kept := filter_remembered h set in
      Some (if marked o then a :: kept else kept)
  end.

Context (realloc_succeeds : nat -> bool).

Definition diamond_vm_collect_impl (vm : Vm) : option Vm :=
  let? h := mark_roots realloc_succeeds (mark_fuel vm) vm false in
  let vm := with_objects h vm in
  let? kept_remembered := filter_remembered (objects vm) (remembered_set vm) in
  let vm := with_remembered_set kept_remembered (remembered_capacity vm) vm in
  let? (vm, young) := sweep_list (young_objects vm) false vm in
  let vm := with_lists young (old_objects vm) vm in
  let? (vm, olds) := sweep_list (old_objects vm) false vm in
  let vm := with_lists (young_objects vm) olds vm in
  Some (with_counters (bytes_allocated vm)
    (if bytes_allocated vm <? 1024 then 2048 else to_u64 (bytes_allocated vm * 2))
    (bytes_allocated vm) vm).

Definition diamond_vm_collect_minor_impl (vm : Vm) : option Vm :=
  let? h := mark_roots realloc_succeeds (mark_fuel vm) vm true in
  let vm := with_objects h vm in
  let? (vm, young) := sweep_list (young_objects vm) true vm in
  let vm := with_lists young (old_objects vm) vm in
  Some (with_counters (bytes_allocated vm) (next_gc vm) (bytes_allocated vm) vm).
End Sweep.
