(* ===== verification/GcSweepOk.v ===== *)
(** * GcSweepOk: what a sweep does

    [sweep_list] over a list of distinct live objects: which objects are left,
    in which generation, which resources are released, and the byte and pool
    accounting. *)

From S2P Require Import Prelude GcHeap GcMark GcMarkOk GcSweep.
From Stdlib Require Import ZArith Lia Bool List.
From stdpp Require Import base numbers list gmap sets.

Local Open Scope Z_scope.
Local Open Scope c_scope.

(** ** Accounting *)

Definition total_of {A} (f : A -> Z) (l : list A) : Z := foldr (fun x acc => f x + acc) 0 l.

Lemma total_perm {A} (f : A -> Z) l l' : l ≡ₚ l' -> total_of f l = total_of f l'.
Proof. induction 1; simpl; lia. Qed.

Lemma total_app {A} (f : A -> Z) l l' : total_of f (l ++ l') = total_of f l + total_of f l'.
Proof. induction l; simpl; lia. Qed.

Lemma total_nonneg {A} (f : A -> Z) l : (forall x, 0 <= f x) -> 0 <= total_of f l.
Proof. intros Hf. induction l as [|x l IH]; simpl; [lia|]. specialize (Hf x). lia. Qed.

Section Accounting.
Context `{Layout}.

(** The bytes of the objects of a heap. *)
Definition heap_bytes (h : Heap) : Z :=
  total_of (fun p : Addr * Object => object_size (payload (snd p))) (map_to_list h).

Lemma heap_bytes_delete h a o :
  h !! a = Some o -> heap_bytes h = object_size (payload o) + heap_bytes (delete a h).
Proof.
  intros Ha. unfold heap_bytes.
  rewrite <-(total_perm _ _ _ (map_to_list_delete h a o Ha)). done.
Qed.

Lemma heap_bytes_insert h a o :
  h !! a = None -> heap_bytes (<[a := o]> h) = object_size (payload o) + heap_bytes h.
Proof.
  intros Ha. unfold heap_bytes. by rewrite (total_perm _ _ _ (map_to_list_insert h a o Ha)).
Qed.

Lemma heap_bytes_update h a o o' :
  h !! a = Some o ->
  heap_bytes (<[a := o']> h) =
  heap_bytes h - object_size (payload o) + object_size (payload o').
Proof.
  intros Ha. rewrite <-insert_delete_eq, heap_bytes_insert by apply lookup_delete_eq.
  rewrite (heap_bytes_delete h a o Ha). lia.
Qed.

Lemma heap_bytes_nonneg h : 0 <= heap_bytes h.
Proof. apply total_nonneg. intros x. pose proof (object_size_positive (payload x.2)). lia. Qed.

(** [bytes_allocated] is exact and has not wrapped. *)
Definition bytes_exact (vm : Vm) : Prop :=
  bytes_allocated vm = heap_bytes (objects vm) /\ bytes_allocated vm < two_64.

(** The bytes of the pooled blocks. *)
Definition pools_bytes (ps : gmap Pool (list Addr)) : Z :=
  total_of (fun p : Pool * list Addr => block_size (fst p) * Z.of_nat (length (snd p)))
    (map_to_list ps).

Definition pooled (ps : gmap Pool (list Addr)) (a : Addr) : Prop :=
  exists pool l, ps !! pool = Some l /\ a ∈ l.

Lemma block_size_positive pool : 0 < block_size pool.
Proof.
  pose proof (sizeof_positive DiamondInstance_t). pose proof (sizeof_positive DiamondArray_t).
  pose proof (sizeof_positive DiamondValue_t). destruct pool; simpl; nia.
Qed.

Lemma pools_bytes_insert ps pool l l' :
  default [] (ps !! pool) = l ->
  pools_bytes (<[pool := l']> ps) =
  pools_bytes ps - block_size pool * Z.of_nat (length l)
                 + block_size pool * Z.of_nat (length l').
Proof.
  intros Hl. unfold pools_bytes. rewrite <-(insert_delete_eq ps pool l').
  rewrite (total_perm _ _ _ (map_to_list_insert (delete pool ps) pool l'
    (lookup_delete_eq ps pool))).
  destruct (ps !! pool) as [k|] eqn:E; simpl in Hl; subst l.
  - rewrite <-(total_perm _ _ _ (map_to_list_delete ps pool k E)). simpl. lia.
  - rewrite delete_id by done. simpl. lia.
Qed.

(** Pooled blocks are distinct, hold no object, and are counted exactly. *)
Record pools_ok (vm : Vm) : Prop := {
  p_bytes : pool_bytes vm = pools_bytes (pools vm);
  p_bound : pool_bytes vm <= minor_gc_threshold_bytes vm < two_63;
  p_nodup : forall pool l, pools vm !! pool = Some l -> NoDup l;
  p_disjoint : forall p1 p2 l1 l2 a, pools vm !! p1 = Some l1 ->
    pools vm !! p2 = Some l2 -> a ∈ l1 -> a ∈ l2 -> p1 = p2;
  p_free : forall a, pooled (pools vm) a -> objects vm !! a = None;
}.

Lemma pools_bytes_nonneg ps : 0 <= pools_bytes ps.
Proof.
  apply total_nonneg. intros x. pose proof (block_size_positive (fst x)). nia.
Qed.

Lemma object_pool_small p pool : object_pool p = Some pool -> block_size pool < 16 * two_32.
Proof.
  pose proof (sizeof_small DiamondInstance_t). pose proof (sizeof_small DiamondArray_t).
  pose proof (sizeof_small DiamondValue_t). pose proof (sizeof_positive DiamondValue_t).
  unfold object_pool, instance_pool_index, string_pool_index.
  destruct p; try done; simpl.
  - destruct (_ || _); [done|]. destruct (_ <=? _)%nat eqn:E; [|done].
    intros [= <-]. apply Nat.leb_le in E. unfold STRING_POOL_CLASSES in E. simpl.
    unfold_widths. lia.
  - destruct (negb pooling || _); [done|]. simpl. destruct (_ <? _)%nat eqn:E; [done|].
    intros [= <-]. apply Nat.ltb_ge in E. unfold INSTANCE_POOL_FIELDS in E. simpl.
    unfold_widths. nia.
  - destruct pooling; [|done]. intros [= <-]. simpl. unfold_widths. lia.
Qed.

(** Sweeping one unreached object. *)
Lemma sweep_unreached_bytes a o vm :
  objects vm !! a = Some o -> bytes_exact vm -> bytes_exact (sweep_unreached a o vm).
Proof.
  intros Ha [E B]. pose proof (heap_bytes_delete _ _ _ Ha).
  pose proof (heap_bytes_nonneg (delete a (objects vm))).
  pose proof (object_size_positive (payload o)).
  assert (Hb : bytes_exact (with_objects (delete a (objects vm)) (with_counters
    (to_u64 (bytes_allocated vm - object_size (payload o)))
    (next_gc vm) (bytes_allocated_at_last_minor_gc vm) vm))).
  { split; simpl; rewrite to_u64_small; unfold_widths; lia. }
  unfold sweep_unreached, pool_block. simpl.
  destruct (object_pool (payload o)); [|done]. by destruct (_ <=? _).
Qed.

Lemma pooled_push ps pool a b :
  pooled (<[pool := a :: default [] (ps !! pool)]> ps) b <-> b = a \/ pooled ps b.
Proof.
  unfold pooled. split.
  - intros (q & l & Hq & Hb). apply lookup_insert_Some in Hq as [[<- <-]|[Hne Hq]].
    + apply elem_of_cons in Hb as [->|Hb]; [by left|right].
      destruct (ps !! pool) as [k|] eqn:E; simpl in Hb; [eauto|by apply elem_of_nil in Hb].
    + right. eauto.
  - intros [->|(q & l & Hq & Hb)].
    + exists pool, (a :: default [] (ps !! pool)). rewrite lookup_insert_eq. set_solver.
    + destruct (decide (q = pool)) as [->|Hne].
      * exists pool, (a :: l). rewrite Hq, lookup_insert_eq. set_solver.
      * exists q, l. by rewrite lookup_insert_ne.
Qed.

Lemma pools_ok_push vm pool a :
  pools_ok vm -> ~ pooled (pools vm) a -> objects vm !! a = None ->
  pool_bytes vm + block_size pool <= minor_gc_threshold_bytes vm ->
  pools_ok (with_pools (pool_bytes vm + block_size pool)
    (<[pool := a :: default [] (pools vm !! pool)]> (pools vm)) vm).
Proof.
  intros P Hna Ha Hb. split; simpl.
  - rewrite (pools_bytes_insert _ _ (default [] (pools vm !! pool))) by done.
    rewrite (p_bytes _ P). simpl length. lia.
  - pose proof (p_bound _ P). lia.
  - intros q l Hq. apply lookup_insert_Some in Hq as [[<- <-]|[Hne Hq]];
      [|by eapply (p_nodup _ P)].
    destruct (pools vm !! pool) as [k|] eqn:E; simpl; [|by repeat constructor; set_solver].
    constructor; [|by eapply (p_nodup _ P)]. intros Hin. apply Hna. by exists pool, k.
  - assert (Hout : forall q l b, <[pool := a :: default [] (pools vm !! pool)]> (pools vm) !! q
      = Some l -> b ∈ l -> (b = a /\ q = pool) \/ (exists k, pools vm !! q = Some k /\ b ∈ k)).
    { intros q l b Hq Hin. apply lookup_insert_Some in Hq as [[<- <-]|[Hne Hq]]; [|eauto].
      apply elem_of_cons in Hin as [->|Hin]; [by left|right].
      destruct (pools vm !! pool) as [k|]; simpl in Hin; [eauto|by apply elem_of_nil in Hin]. }
    intros p1 p2 l1 l2 b H1 H2 I1 I2.
    destruct (Hout _ _ _ H1 I1) as [[-> ->]|(k1 & K1 & J1)],
             (Hout _ _ _ H2 I2) as [[E2 ->]|(k2 & K2 & J2)]; try done.
    + destruct Hna. by exists p2, k2.
    + subst b. destruct Hna. by exists p1, k1.
    + by eapply (p_disjoint _ P).
  - intros b [->|Hb']%pooled_push; [done|]. by apply (p_free _ P).
Qed.

Lemma sweep_unreached_pools a o vm :
  objects vm !! a = Some o -> pools_ok vm -> pools_ok (sweep_unreached a o vm).
Proof.
  intros Ha P. unfold sweep_unreached. simpl. unfold pool_block. simpl.
  assert (Hna : ~ pooled (pools vm) a)
    by (intros Hp; apply (p_free _ P) in Hp; congruence).
  match goal with |- context [with_objects ?h ?v] => set (vm1 := with_objects h v) end.
  assert (P1 : pools_ok vm1).
  { destruct P as [A B C D E]. split; simpl; auto. intros b Hb.
    destruct (decide (a = b)) as [->|Hne]; [by apply lookup_delete_eq|].
    rewrite lookup_delete_ne by done. auto. }
  destruct (object_pool (payload o)) as [pool|] eqn:Ep; [|done].
  pose proof (object_pool_small _ _ Ep). pose proof (block_size_positive pool).
  pose proof (p_bound _ P). pose proof (p_bytes _ P).
  pose proof (pools_bytes_nonneg (pools vm)).
  rewrite to_u64_small by (unfold_widths; lia).
  destruct (Z.leb_spec (pool_bytes vm + block_size pool) (minor_gc_threshold_bytes vm));
    [|done].
  apply (pools_ok_push vm1); simpl; try done. apply lookup_delete_eq.
Qed.
End Accounting.

(** ** What a sweep leaves *)

Lemma decide_cons_ne {A} (a b : Addr) (l : list Addr) (x y : A) :
  a <> b ->
  (if decide (b ∈ a :: l) then x else y) = (if decide (b ∈ l) then x else y).
Proof. intros Hne. apply decide_ext. rewrite elem_of_cons. naive_solver. Qed.

Lemma filter_agree {A} (P Q : A -> Prop) `{!forall x, Decision (P x), !forall x, Decision (Q x)}
    (l : list A) :
  (forall x, x ∈ l -> P x <-> Q x) -> filter P l = filter Q l.
Proof.
  induction l as [|x l IH]; intros HPQ; [done|]. rewrite !filter_cons.
  rewrite IH by set_solver. specialize (HPQ x ltac:(set_solver)).
  destruct (decide (P x)), (decide (Q x)); naive_solver.
Qed.

Definition survivor (promote : bool) (o : Object) : Object :=
  if promote then with_old true (with_marked false o) else with_marked false o.

(** The outcome of sweeping [o]. *)
Definition sweep_object (promote : bool) (o : Object) : option Object :=
  if marked o then Some (survivor promote o) else None.

Definition marked_of (h : Heap) (l : list Addr) : list Addr :=
  filter (fun a => is_marked h a = true) l.

Definition unmarked_of (h : Heap) (l : list Addr) : list Addr :=
  filter (fun a => is_marked h a = false) l.

(** What sweeping the objects [l] of [h] releases, in order. *)
Definition releases (h : Heap) (l : list Addr) : list Release :=
  unmarked_of h l ≫= (fun a => from_option (fun o => release_of (payload o)) [] (h !! a)).

(** An unmarked handle of [l] owns fiber [id]. *)
Definition fiber_swept (h : Heap) (l : list Addr) (id : FiberId) : Prop :=
  exists a o, a ∈ l /\ h !! a = Some o /\ marked o = false /\ payload o = FIBER (Some id).

(** The fields a sweep leaves alone. *)
Record same_frame (vm vm' : Vm) : Prop := {
  f_roots : roots vm' = roots vm;
  f_young : young_objects vm' = young_objects vm;
  f_remembered : remembered_set vm' = remembered_set vm;
  f_capacity : remembered_capacity vm' = remembered_capacity vm;
  f_next : next_gc vm' = next_gc vm;
  f_last : bytes_allocated_at_last_minor_gc vm' = bytes_allocated_at_last_minor_gc vm;
  f_threshold : minor_gc_threshold_bytes vm' = minor_gc_threshold_bytes vm;
}.

Section SweptSpec.
Context `{Layout}.

Record swept (l : list Addr) (promote : bool) (vm vm' : Vm) (kept : list Addr) : Prop := {
  s_objects : forall b, objects vm' !! b =
    (if decide (b ∈ l) then objects vm !! b ≫= sweep_object promote else objects vm !! b);
  s_kept : kept = if promote then [] else marked_of (objects vm) l;
  s_old : old_objects vm' =
    (if promote then reverse (marked_of (objects vm) l) else []) ++ old_objects vm;
  s_frame : same_frame vm vm';
  s_fibers_sub : fibers vm' ⊆ fibers vm;
  s_fibers_gone : forall id, fiber_swept (objects vm) l id -> fibers vm' !! id = None;
  s_fibers_kept : forall id, ~ fiber_swept (objects vm) l id ->
    fibers vm' !! id = fibers vm !! id;
  s_released : released vm' = reverse (releases (objects vm) l) ++ released vm;
  s_bytes : bytes_exact vm -> bytes_exact vm';
  s_pools : pools_ok vm -> pools_ok vm';
}.

(** A sweep of [l] depends on the objects of [l] only. *)
Definition agree_on (l : list Addr) (h h' : Heap) : Prop :=
  forall a, a ∈ l -> h' !! a = h !! a.

Lemma agree_marked_of l h h' : agree_on l h h' -> marked_of h' l = marked_of h l.
Proof.
  intros A. apply filter_agree. intros a Ha. unfold is_marked. by rewrite A.
Qed.

Lemma agree_releases l h h' : agree_on l h h' -> releases h' l = releases h l.
Proof.
  intros A. unfold releases.
  assert (E : unmarked_of h' l = unmarked_of h l).
  { apply filter_agree. intros a Ha. unfold is_marked. by rewrite A. }
  rewrite E. apply Forall_bind_ext, Forall_forall.
  intros a [_ Ha]%list_elem_of_filter. by rewrite A.
Qed.

Lemma agree_fiber_swept l h h' id :
  agree_on l h h' -> fiber_swept h' l id <-> fiber_swept h l id.
Proof.
  intros A. split; intros (a & o & Ha & Ho & R); exists a, o.
  - by rewrite <-(A a Ha).
  - by rewrite (A a Ha).
Qed.

(** A swept object followed by the sweep of the rest. *)
Lemma swept_cons_survivor a o l (promote : bool) vm vm1 vm2 kept :
  objects vm !! a = Some o -> marked o = true -> a ∉ l ->
  vm1 = with_lists (young_objects vm)
          (if promote then a :: old_objects vm else old_objects vm)
          (with_objects (<[a := survivor promote o]> (objects vm)) vm) ->
  swept l promote vm1 vm2 kept ->
  swept (a :: l) promote vm vm2 (if promote then kept else a :: kept).
Proof.
  intros Ho Hm Hna E S.
  assert (A : agree_on l (objects vm) (objects vm1)).
  { intros b Hb. subst vm1. simpl. rewrite lookup_insert_ne; [done|set_solver]. }
  assert (Hma : marked_of (objects vm) (a :: l) = a :: marked_of (objects vm) l).
  { unfold marked_of. rewrite filter_cons_True; [done|].
    unfold is_marked. by rewrite Ho. }
  assert (Hrel : releases (objects vm) (a :: l) = releases (objects vm) l).
  { unfold releases, unmarked_of. rewrite filter_cons_False; [done|].
    unfold is_marked. rewrite Ho. simpl. congruence. }
  assert (Hf : forall id, fiber_swept (objects vm) (a :: l) id <->
                          fiber_swept (objects vm1) l id).
  { intros id. rewrite (agree_fiber_swept _ _ _ _ A). split.
    - intros (b & p & Hb & Hp & Hn & R). exists b, p.
      apply elem_of_cons in Hb as [->|Hb]; [congruence|done].
    - intros (b & p & Hb & R). exists b, p. split; [set_solver|done]. }
  destruct S as [S1 S2 S3 S4 S0 S5 S6 S7 S8 S9]. split.
  - intros b. rewrite S1. destruct (decide (a = b)) as [<-|Hne].
    + rewrite decide_False by done. rewrite decide_True by set_solver.
      subst vm1. simpl. rewrite lookup_insert_eq, Ho. simpl. unfold sweep_object.
      by rewrite Hm.
    + assert (objects vm1 !! b = objects vm !! b)
        as -> by (subst vm1; simpl; by rewrite lookup_insert_ne).
      by rewrite decide_cons_ne.
  - rewrite S2, Hma, (agree_marked_of _ _ _ A). by destruct promote.
  - rewrite S3, Hma, (agree_marked_of _ _ _ A). subst vm1. simpl.
    destruct promote; simpl; [|done]. by rewrite reverse_cons, <-app_assoc.
  - destruct S4. subst vm1. by split.
  - by subst vm1.
  - intros id Hid. apply S5, Hf, Hid.
  - intros id Hid. rewrite S6 by (by rewrite <-Hf). by subst vm1.
  - rewrite S7, Hrel, (agree_releases _ _ _ A). by subst vm1.
  - intros [B1 B2]. apply S8. subst vm1. split; simpl; [|done].
    rewrite (heap_bytes_update _ _ _ _ Ho). destruct promote; simpl; lia.
  - intros P. apply S9. subst vm1. destruct P as [P1 P2 P3 P4 P5]. split; simpl; auto.
    intros b Hb. apply P5 in Hb. rewrite lookup_insert_ne; [done|]. congruence.
Qed.

Lemma free_fiber_sub p fs : free_fiber p fs ⊆ fs.
Proof. destruct p; try done. destruct fiber; [apply delete_subseteq|done]. Qed.

Lemma free_fiber_other p fs id : p <> FIBER (Some id) -> free_fiber p fs !! id = fs !! id.
Proof.
  intros Hp. destruct p; try done. destruct fiber as [i|]; [|done]. simpl.
  rewrite lookup_delete_ne; [done|]. congruence.
Qed.

Lemma sweep_unreached_fields a o vm :
  objects (sweep_unreached a o vm) = delete a (objects vm) /\
  old_objects (sweep_unreached a o vm) = old_objects vm /\
  fibers (sweep_unreached a o vm) = free_fiber (payload o) (fibers vm) /\
  released (sweep_unreached a o vm) = reverse (release_of (payload o)) ++ released vm /\
  same_frame vm (sweep_unreached a o vm).
Proof.
  unfold sweep_unreached, pool_block. simpl. rewrite rev_alt.
  destruct (object_pool (payload o)); [destruct (_ <=? _)|]; by split_and!.
Qed.

Lemma swept_cons_unreached a o l promote vm vm2 kept :
  objects vm !! a = Some o -> marked o = false -> a ∉ l ->
  swept l promote (sweep_unreached a o vm) vm2 kept ->
  swept (a :: l) promote vm vm2 kept.
Proof.
  intros Ho Hm Hna S.
  destruct (sweep_unreached_fields a o vm) as (Eo & Eold & Ef & Er & Fr).
  set (vm1 := sweep_unreached a o vm) in *.
  assert (A : agree_on l (objects vm) (objects vm1)).
  { intros b Hb. rewrite Eo, lookup_delete_ne; [done|set_solver]. }
  assert (Hma : marked_of (objects vm) (a :: l) = marked_of (objects vm) l).
  { unfold marked_of. rewrite filter_cons_False; [done|].
    unfold is_marked. rewrite Ho. simpl. congruence. }
  assert (Hrel : releases (objects vm) (a :: l) =
    release_of (payload o) ++ releases (objects vm) l).
  { unfold releases, unmarked_of. rewrite filter_cons_True; [simpl; by rewrite Ho|].
    unfold is_marked. by rewrite Ho. }
  assert (Hf : forall id, fiber_swept (objects vm) (a :: l) id <->
    payload o = FIBER (Some id) \/ fiber_swept (objects vm1) l id).
  { intros id. rewrite (agree_fiber_swept _ _ _ _ A). split.
    - intros (b & p & Hb & Hp & Hn & R).
      apply elem_of_cons in Hb as [->|Hb]; [left; congruence|right]. by exists b, p.
    - intros [R|(b & p & Hb & R)]; [exists a, o|exists b, p]; (split; [set_solver|done]). }
  destruct S as [S1 S2 S3 S4 S0 S5 S6 S7 S8 S9]. split.
  - intros b. rewrite S1. destruct (decide (a = b)) as [<-|Hne].
    + rewrite decide_False by done. rewrite decide_True by set_solver.
      rewrite Eo, lookup_delete_eq, Ho. simpl. unfold sweep_object. by rewrite Hm.
    + assert (objects vm1 !! b = objects vm !! b) as -> by (by rewrite Eo, lookup_delete_ne).
      by rewrite decide_cons_ne.
  - by rewrite S2, Hma, (agree_marked_of _ _ _ A).
  - by rewrite S3, Hma, (agree_marked_of _ _ _ A), Eold.
  - destruct S4, Fr. split; congruence.
  - etrans; [exact S0|]. rewrite Ef. apply free_fiber_sub.
  - intros id [R|R]%Hf; [|by apply S5].
    eapply lookup_weaken_None; [|exact S0]. rewrite Ef, R. apply lookup_delete_eq.
  - intros id Hid. rewrite Hf in Hid. rewrite S6 by tauto. rewrite Ef.
    apply free_fiber_other. tauto.
  - rewrite S7, Hrel, (agree_releases _ _ _ A), Er. by rewrite reverse_app, <-app_assoc.
  - intros B. apply S8. by apply sweep_unreached_bytes.
  - intros P. apply S9. by apply sweep_unreached_pools.
Qed.

(** Sweeping distinct objects of the heap. *)
Lemma sweep_list_swept l promote vm :
  NoDup l -> Forall (fun a => is_Some (objects vm !! a)) l ->
  wp (sweep_list l promote vm) (fun r => swept l promote vm (fst r) (snd r)).
Proof.
  intros Hnd. revert vm. induction Hnd as [|a l Hna Hnd IH]; intros vm Hin.
  - simpl. split; simpl; try done.
    + by destruct promote.
    + by destruct promote.
    + intros id (a & o & Ha & _). by apply elem_of_nil in Ha.
  - apply Forall_cons in Hin as [[o Ho] Hin]. cbn [sweep_list]. rewrite Ho.
    assert (Hkeep : forall h : Heap, (forall b, b ∈ l -> h !! b = objects vm !! b) ->
      Forall (fun a => is_Some (h !! a)) l).
    { intros h Hh. rewrite Forall_forall in Hin |- *. intros b Hb. rewrite Hh; auto. }
    destruct (marked o) eqn:Em.
    + assert (Hkeep' : forall x, Forall (fun b => is_Some (<[a := x]> (objects vm) !! b)) l).
      { intros x. apply Hkeep. intros b Hb. apply lookup_insert_ne. set_solver. }
      destruct promote.
      * eapply wp_mono; [apply IH; simpl; apply Hkeep'|]. intros [vm2 kept] S. simpl in *.
        eapply (swept_cons_survivor a o l true); eauto.
      * apply wp_bind. eapply wp_mono; [apply IH; simpl; apply Hkeep'|].
        intros [vm2 kept] S. simpl in *.
        eapply (swept_cons_survivor a o l false); eauto.
    + eapply wp_mono.
      { apply IH. apply Hkeep. intros b Hb.
        rewrite (proj1 (sweep_unreached_fields a o vm)), lookup_delete_ne; [done|set_solver]. }
      intros [vm2 kept] S. simpl in *. by eapply swept_cons_unreached.
Qed.
End SweptSpec.
