(* ===== verification/GcInvariant.v ===== *)
(** * GcInvariant: the heap invariant and the collectors

    [heap_ok] is what the mutator and the collectors maintain between them: no
    dangling pointer anywhere in the heap, every object on the list of its
    generation, and every pointer from an old to a young object found by the
    scan of the remembered set.  A major collection keeps exactly what is
    reachable; a minor one keeps at least that, and promotes it. *)

From S2P Require Import Prelude GcHeap GcMark GcMarkOk GcSweep GcSweepOk.
From Stdlib Require Import ZArith Lia Bool List.
From stdpp Require Import base numbers list gmap sets.

Local Open Scope Z_scope.
Local Open Scope c_scope.

(** An Array or Hash holds at most [capacity] slots. *)
Definition container_ok (p : Payload) : Prop :=
  match p with
  | ARRAY values capacity _ => (length values <= capacity)%nat
  | HASH entries capacity _ _ => (length entries <= capacity)%nat
  | _ => True
  end.

(** The values of each slot of a container, the unit of a dirty card. *)
Definition slots (p : Payload) : list (list Value) :=
  match p with
  | ARRAY values _ _ => (fun v => [v]) <$> values
  | HASH entries _ _ _ => entry_values <$> entries
  | _ => []
  end.

(** Card [c] of a table is dirty. *)
Definition dirty (cards : option (list bool)) (c : nat) : Prop :=
  exists table, cards = Some table /\ table !! c = Some true.

(** Every slot of a container that points to [c] has its card dirty. *)
Definition covered (p : Payload) (c : Addr) : Prop :=
  forall i vs, slots p !! i = Some vs -> c ∈ pointers vs ->
    dirty (payload_cards p) (i / CARD_SIZE)%nat.

(** A reachable object, whatever its generation. *)
Abbreviation reachable := (reached false).

Section Invariant.
Context `{Layout}.

Record heap_ok (vm : Vm) : Prop := {
  h_closed : heap_closed (fibers vm) (objects vm);
  h_roots : roots_closed vm;
  h_unmarked : all_unmarked (objects vm);
  h_lists : NoDup (young_objects vm ++ old_objects vm);
  h_young : forall a, a ∈ young_objects vm <->
    exists o, objects vm !! a = Some o /\ old o = false;
  h_old : forall a, a ∈ old_objects vm <->
    exists o, objects vm !! a = Some o /\ old o = true;
  h_remembered_set : NoDup (remembered_set vm);
  h_remembered : forall a, a ∈ remembered_set vm <->
    exists o, objects vm !! a = Some o /\ remembered o = true;
  h_remembered_old : forall a o, objects vm !! a = Some o -> remembered o = true -> old o = true;
  (* an old object with a young child is remembered, the cards of its slots dirty *)
  h_barrier : forall a o c, objects vm !! a = Some o -> old o = true ->
    c ∈ children (fibers vm) o -> is_old (objects vm) c = false ->
    remembered o = true /\ covered (payload o) c;
  h_containers : forall a o, objects vm !! a = Some o -> container_ok (payload o);
  h_owner : forall a b o p id, objects vm !! a = Some o -> objects vm !! b = Some p ->
    payload o = FIBER (Some id) -> payload p = FIBER (Some id) -> a = b;
  (* the handle of a running or queued fiber is a root: its resumer holds it *)
  h_pinned : forall id a o,
    id ∈ running_fibers (roots vm) ++ default [] (root_queue (roots vm)) ->
    objects vm !! a = Some o -> payload o = FIBER (Some id) ->
    a ∈ pointers (root_values (fibers vm) (roots vm));
  h_bytes : bytes_exact vm;
  h_pools : pools_ok vm;
}.
End Invariant.

(** ** Cards *)

Lemma slot_values (p : Payload) i vs : slots p !! i = Some vs ->
  vs ⊆ card_values p (i / CARD_SIZE).
Proof.
  intros Hi v Hv.
  assert (Hslice : forall {A} (l : list A) x, l !! i = Some x ->
    x ∈ card_slice (i / CARD_SIZE) l).
  { intros A l x Hx. pose proof (lookup_lt_Some _ _ _ Hx). unfold card_slice.
    pose proof (Nat.div_mod_eq i CARD_SIZE). pose proof (Nat.mod_upper_bound i CARD_SIZE).
    unfold CARD_SIZE in *. apply elem_of_take. exists (i mod 64)%nat.
    rewrite lookup_drop. split; [rewrite <-Hx; f_equal; lia|lia]. }
  destruct p; simpl in *; try done; rewrite list_lookup_fmap in Hi.
  - destruct (values !! i) as [x|] eqn:E; [|done]. simpl in Hi. injection Hi as <-.
    apply list_elem_of_singleton in Hv as ->. by apply Hslice.
  - destruct (entries !! i) as [x|] eqn:E; [|done]. simpl in Hi. injection Hi as <-.
    apply list_elem_of_bind. exists x. split; [done|]. by apply Hslice.
Qed.

Lemma slots_values fs p cards v : payload_cards p = Some cards ->
  v ∈ payload_values fs p -> exists i vs, slots p !! i = Some vs /\ v ∈ vs.
Proof.
  intros Hc Hv. destruct p; simpl in *; try done.
  - apply list_elem_of_lookup in Hv as [i Hi]. exists i, [v].
    rewrite list_lookup_fmap, Hi. split; [done|]. by constructor.
  - apply list_elem_of_bind in Hv as (e & Hv & He).
    apply list_elem_of_lookup in He as [i Hi]. exists i, (entry_values e).
    by rewrite list_lookup_fmap, Hi.
Qed.

Lemma slot_bound p i vs : container_ok p -> slots p !! i = Some vs ->
  (i < payload_capacity p)%nat.
Proof.
  intros Hc Hi. apply lookup_lt_Some in Hi.
  destruct p; simpl in *; try lia; rewrite length_fmap in Hi; lia.
Qed.

Lemma card_in_capacity i capacity :
  (i < capacity)%nat -> (i / CARD_SIZE < cards_of_capacity capacity)%nat.
Proof.
  unfold cards_of_capacity, CARD_SIZE. intros Hi.
  pose proof (Nat.div_mod_eq i 64). pose proof (Nat.mod_upper_bound i 64).
  pose proof (Nat.div_mod_eq (capacity + 64 - 1) 64).
  pose proof (Nat.mod_upper_bound (capacity + 64 - 1) 64). lia.
Qed.

Lemma card_dirty_lookup p cards c : payload_cards p = Some cards ->
  card_dirty p c = default false (cards !! c).
Proof. intros Ec. unfold card_dirty. by rewrite Ec. Qed.

(** A covered child is found by the scan. *)
Lemma covered_found fs p c :
  container_ok p -> covered p c -> c ∈ pointers (payload_values fs p) ->
  c ∈ remembered_pointers fs p.
Proof.
  intros Hk Hcov Hc. unfold remembered_pointers.
  destruct (payload_cards p) as [cards|] eqn:Ec; [|done].
  unfold pointers in Hc. apply list_elem_of_omap in Hc as (v & Hv & Hp).
  destruct (slots_values fs p cards v Ec Hv) as (i & vs & Hi & Hvs).
  assert (Hcv : c ∈ pointers vs) by (unfold pointers; apply list_elem_of_omap; eauto).
  destruct (Hcov i vs Hi Hcv) as (cards' & Ec' & Hd). rewrite Ec in Ec'. injection Ec' as <-.
  pose proof (lookup_lt_Some _ _ _ Hd).
  pose proof (card_in_capacity _ _ (slot_bound p i vs Hk Hi)).
  unfold dirty_pointers. apply list_elem_of_bind. exists (i / CARD_SIZE)%nat. split.
  - rewrite (card_dirty_lookup _ _ _ Ec), Hd. cbn [default from_option].
    eapply pointers_subset; [by eapply slot_values|done].
  - apply elem_of_seq. lia.
Qed.

(** ** Reachability *)

Lemma reached_in vm minor a : reached minor vm a -> is_Some (objects vm !! a).
Proof. intros (r & _ & Ht). by destruct (traced_end _ _ _ _ _ Ht). Qed.

Lemma reached_child vm a o c :
  heap_closed (fibers vm) (objects vm) ->
  reachable vm a -> objects vm !! a = Some o -> c ∈ children (fibers vm) o -> reachable vm c.
Proof.
  intros Hc (r & Hr & Ht) Ho Hin. exists r. split; [done|]. eapply traced_step; [exact Ht| | |done].
  - unfold kids. by rewrite Ho.
  - by apply (Hc _ _ Ho).
Qed.

(** Two heaps in which the reachable objects have the same children. *)
Record same_reach (vm vm' : Vm) : Prop := {
  sr_roots : pointers (root_values (fibers vm') (roots vm')) =
             pointers (root_values (fibers vm) (roots vm));
  sr_in : forall a, reachable vm a -> is_Some (objects vm' !! a);
  sr_kids : forall a, reachable vm a ->
    kids (fibers vm') (objects vm') a = kids (fibers vm) (objects vm) a;
}.

Lemma same_reach_iff vm vm' a : same_reach vm vm' -> heap_closed (fibers vm) (objects vm) ->
  roots_closed vm -> reachable vm' a <-> reachable vm a.
Proof.
  intros S Hc Hr. split.
  - intros (r & Hin & Ht). rewrite (sr_roots _ _ S) in Hin.
    assert (Hgo : reachable vm a); [|exact Hgo].
    induction Ht as [r Hs Ho|r b c Ht IH Hk Hs Ho].
    + exists r. split; [done|]. constructor; [by apply Hr|done].
    + specialize (IH Hin). rewrite (sr_kids _ _ S) in Hk by done. unfold kids in Hk.
      destruct (objects vm !! b) as [o|] eqn:E; [|by apply elem_of_nil in Hk].
      by eapply reached_child.
  - intros (r & Hin & Ht). exists r. split; [by rewrite (sr_roots _ _ S)|].
    assert (Hrr : reachable vm r).
    { exists r. split; [done|]. by eapply traced_start. }
    induction Ht as [r Hs Ho|r b c Ht IH Hk Hs Ho].
    + constructor; [by apply (sr_in _ _ S)|done].
    + assert (Hb : reachable vm b) by (exists r; by split).
      eapply traced_step; [by apply IH| | |done].
      * by rewrite (sr_kids _ _ S).
      * apply (sr_in _ _ S). exists r. split; [done|]. by eapply traced_step.
Qed.

(** The root walk reads only the running and queued fibers. *)
Lemma root_values_agree fs fs' r :
  (forall id, id ∈ running_fibers r ++ default [] (root_queue r) -> fs' !! id = fs !! id) ->
  root_values fs' r = root_values fs r.
Proof.
  intros Hf. unfold root_values.
  assert (E1 : resumer_values fs' (running_fibers r) = resumer_values fs (running_fibers r)).
  { unfold resumer_values. apply Forall_bind_ext, Forall_forall. intros id Hid.
    rewrite Hf; [done|]. apply elem_of_app. by left. }
  assert (E2 : from_option (queue_values fs') [] (root_queue r) =
               from_option (queue_values fs) [] (root_queue r)).
  { destruct (root_queue r) as [q|]; [|done]. simpl in *.
    unfold queue_values. apply Forall_bind_ext, Forall_forall. intros id Hid.
    rewrite Hf; [done|]. apply elem_of_app. by right. }
  by rewrite E1, E2.
Qed.

Lemma root_fibers_agree fs fs' r :
  (forall id, id ∈ running_fibers r ++ default [] (root_queue r) -> fs' !! id = fs !! id) ->
  root_fibers_ok fs r -> root_fibers_ok fs' r.
Proof.
  intros Hf [A B]. split; rewrite Forall_forall in *; intros id Hid.
  - rewrite Hf; [by apply A|]. apply elem_of_app. by left.
  - rewrite Hf; [by apply B|]. apply elem_of_app. right. by destruct (root_queue r).
Qed.

(** The children of an object that is not a swept fiber handle. *)
Lemma children_agree fs fs' o :
  (forall id, payload o = FIBER (Some id) -> fs' !! id = fs !! id) ->
  children fs' o = children fs o.
Proof.
  intros Hf. unfold children, payload_values.
  destruct (payload o) as [| | | | | | | | |[id|]| | | | | | | | | | | | | | | | | |]; try done.
  by rewrite Hf.
Qed.

Lemma fiber_ok_agree fs fs' o :
  (forall id, payload o = FIBER (Some id) -> fs' !! id = fs !! id) ->
  fiber_ok fs (payload o) -> fiber_ok fs' (payload o).
Proof.
  intros Hf. unfold fiber_ok.
  destruct (payload o) as [| | | | | | | | |[id|]| | | | | | | | | | | | | | | | | |]; try done.
  by rewrite Hf.
Qed.

Lemma filter_remembered_spec h set :
  Forall (fun a => is_Some (h !! a)) set ->
  filter_remembered h set = Some (marked_of h set).
Proof.
  induction 1 as [|a set [o Ho] _ IH]; [done|].
  cbn [filter_remembered]. rewrite Ho, IH. unfold marked_of. rewrite filter_cons.
  unfold is_marked. rewrite Ho. simpl. by destruct (marked o).
Qed.

Lemma remembered_pointers_agree fs fs' o :
  (forall id, payload o = FIBER (Some id) -> fs' !! id = fs !! id) ->
  remembered_pointers fs' (payload o) = remembered_pointers fs (payload o).
Proof.
  intros Hf. pose proof (children_agree fs fs' o Hf) as E. unfold children in E.
  unfold remembered_pointers. by rewrite E.
Qed.

Lemma with_marked_id o : marked o = false -> with_marked false o = o.
Proof. destruct o. simpl. by intros ->. Qed.

Section Major.
Context `{Layout} (realloc_succeeds : nat -> bool).

(** What the two sweeps of a major collection leave of the marked heap [h]. *)
Record major_swept (h : Heap) (vm vm' : Vm) : Prop := {
  m_objects : forall b, objects vm' !! b =
    (if is_marked h b then objects vm !! b else None);
  m_young : young_objects vm' = marked_of h (young_objects vm);
  m_old : old_objects vm' = marked_of h (old_objects vm);
  m_set : remembered_set vm' = marked_of h (remembered_set vm);
  m_roots : roots vm' = roots vm;
  m_fibers_sub : fibers vm' ⊆ fibers vm;
  m_fibers : forall id, (forall a o, objects vm !! a = Some o ->
      payload o = FIBER (Some id) -> is_marked h a = true) ->
    fibers vm' !! id = fibers vm !! id;
  m_fibers_gone : forall id a o, objects vm !! a = Some o ->
    payload o = FIBER (Some id) -> is_marked h a = false -> fibers vm' !! id = None;
  m_released : released vm' =
    reverse (releases h (young_objects vm ++ old_objects vm)) ++ released vm;
  m_bytes : bytes_exact vm';
  m_pools : pools_ok vm';
  m_next : next_gc vm' =
    if bytes_allocated vm' <? 1024 then 2048 else to_u64 (bytes_allocated vm' * 2);
  m_last : bytes_allocated_at_last_minor_gc vm' = bytes_allocated vm';
}.

Lemma grows_lookup h h' a o :
  grows h h' -> h !! a = Some o -> h' !! a = Some (with_marked (is_marked h' a) o).
Proof.
  intros G Ho. unfold is_marked. pose proof (G a) as E. rewrite Ho in E.
  inversion E as [? o' [Eo _] E1 E2|]; subst. simpl. congruence.
Qed.

Lemma grows_lookup_None h h' a : grows h h' -> h !! a = None -> h' !! a = None.
Proof. intros G Ho. pose proof (G a) as E. rewrite Ho in E. by inversion E. Qed.

Lemma heap_ok_listed vm b o :
  heap_ok vm -> objects vm !! b = Some o -> b ∈ young_objects vm ++ old_objects vm.
Proof.
  intros K Ho. apply elem_of_app. destruct (old o) eqn:E.
  - right. apply (h_old _ K). eauto.
  - left. apply (h_young _ K). eauto.
Qed.

Lemma root_reachable vm a :
  roots_closed vm -> a ∈ pointers (root_values (fibers vm) (roots vm)) -> reachable vm a.
Proof. intros [_ Hr] Ha. exists a. split; [done|]. by constructor; [apply Hr|]. Qed.

Lemma pinned_reachable vm id a o :
  heap_ok vm -> id ∈ running_fibers (roots vm) ++ default [] (root_queue (roots vm)) ->
  objects vm !! a = Some o -> payload o = FIBER (Some id) -> reachable vm a.
Proof. intros K Hid Ho Hp. apply root_reachable; [apply K|]. by eapply (h_pinned _ K). Qed.

Lemma releases_app h l l' : releases h (l ++ l') = releases h l ++ releases h l'.
Proof. unfold releases, unmarked_of. by rewrite filter_app, bind_app. Qed.

Lemma heap_bytes_alike h h' : heaps_alike h h' -> heap_bytes h' = heap_bytes h.
Proof.
  intros A. unfold heap_bytes.
  assert (E : forall m : Heap,
    total_of (fun p : Addr * Object => object_size (payload p.2)) (map_to_list m) =
    total_of snd (map_to_list ((fun o => object_size (payload o)) <$> m))).
  { intros m. rewrite map_to_list_fmap.
    induction (map_to_list m) as [|[a o] l IH]; simpl; [done|]. by rewrite IH. }
  rewrite !E. do 2 f_equal. apply map_eq. intros a. rewrite !lookup_fmap.
  destruct (A a) as [o o' [_ _ _ P]|]; [|done]. simpl. rewrite P.
  by destruct (payload o).
Qed.

Lemma pools_ok_fields vm vm' :
  pools_ok vm -> pool_bytes vm' = pool_bytes vm -> pools vm' = pools vm ->
  minor_gc_threshold_bytes vm' = minor_gc_threshold_bytes vm ->
  (forall a, objects vm !! a = None -> objects vm' !! a = None) -> pools_ok vm'.
Proof.
  intros [A B C D E] E1 E2 E3 E4. split; rewrite ?E1, ?E2, ?E3; auto.
Qed.

Lemma listed_in vm h l :
  heap_ok vm -> grows (objects vm) h ->
  (forall a, a ∈ l -> is_Some (objects vm !! a)) -> Forall (fun a => is_Some (h !! a)) l.
Proof.
  intros K G Hl. apply Forall_forall. intros a Ha.
  apply (alike_is_Some _ _ _ (grows_alike _ _ G)). auto.
Qed.

(** The two sweeps composed: [S1] of the young list, [S2] of the old one. *)
Lemma major_swept_intro vm h vm2 kept1 vm4 kept2 :
  heap_ok vm -> grows (objects vm) h ->
  swept (young_objects vm) false
    (with_remembered_set (marked_of h (remembered_set vm)) (remembered_capacity vm)
       (with_objects h vm)) vm2 kept1 ->
  swept (old_objects vm) false (with_lists kept1 (old_objects vm2) vm2) vm4 kept2 ->
  let vm' := with_lists (young_objects vm4) kept2 vm4 in
  major_swept h vm (with_counters (bytes_allocated vm')
    (if bytes_allocated vm' <? 1024 then 2048 else to_u64 (bytes_allocated vm' * 2))
    (bytes_allocated vm') vm').
Proof.
  intros K G S1 S2.
  pose proof (h_lists _ K) as (_ & Hdis & _)%NoDup_app.
  assert (E2 : agree_on (old_objects vm) h (objects vm2)).
  { intros b Hb. rewrite (s_objects _ _ _ _ _ S1), decide_False; [done|].
    intros Hy. by apply (Hdis b). }
  assert (Hlist : forall b, objects vm4 !! b =
    (if decide (b ∈ young_objects vm ++ old_objects vm)
     then h !! b ≫= sweep_object false else h !! b)).
  { intros b. rewrite (s_objects _ _ _ _ _ S2). simpl.
    destruct (decide (b ∈ old_objects vm)) as [Ho|Ho].
    - rewrite decide_True by (apply elem_of_app; by right). by rewrite E2.
    - rewrite (s_objects _ _ _ _ _ S1). simpl. apply decide_ext.
      rewrite elem_of_app. naive_solver. }
  assert (Hsame : forall id, ~ fiber_swept h (young_objects vm ++ old_objects vm) id ->
    fibers vm4 !! id = fibers vm !! id).
  { intros id Hid. rewrite (s_fibers_kept _ _ _ _ _ S2); simpl.
    - rewrite (s_fibers_kept _ _ _ _ _ S1); [done|]. simpl.
      intros (a & o & Ha & R). apply Hid. exists a, o. rewrite elem_of_app. auto.
    - rewrite (agree_fiber_swept _ _ _ _ E2).
      intros (a & o & Ha & R). apply Hid. exists a, o. rewrite elem_of_app. auto. }
  split; simpl.
  - intros b. rewrite Hlist. destruct (objects vm !! b) as [o|] eqn:Ho.
    + rewrite decide_True by (by eapply heap_ok_listed).
      rewrite (grows_lookup _ _ _ _ G Ho). simpl. unfold sweep_object. simpl.
      destruct (is_marked h b); [|done]. simpl. f_equal.
      apply (with_marked_id o). pose proof (h_unmarked _ K b) as U.
      unfold is_marked in U. by rewrite Ho in U.
    + rewrite (grows_lookup_None _ _ _ G Ho). simpl.
      destruct (decide _), (is_marked h b); done.
  - rewrite (f_young _ _ (s_frame _ _ _ _ _ S2)). simpl.
    by rewrite (s_kept _ _ _ _ _ S1).
  - rewrite (s_kept _ _ _ _ _ S2). simpl. by apply agree_marked_of.
  - rewrite (f_remembered _ _ (s_frame _ _ _ _ _ S2)). simpl.
    by rewrite (f_remembered _ _ (s_frame _ _ _ _ _ S1)).
  - rewrite (f_roots _ _ (s_frame _ _ _ _ _ S2)). simpl.
    by rewrite (f_roots _ _ (s_frame _ _ _ _ _ S1)).
  - etrans; [apply (s_fibers_sub _ _ _ _ _ S2)|apply (s_fibers_sub _ _ _ _ _ S1)].
  - intros id Hm. apply Hsame. intros (a & o & Ha & Ho & Hu & Hp).
    destruct (objects vm !! a) as [o0|] eqn:E0.
    + rewrite (grows_lookup _ _ _ _ G E0) in Ho. injection Ho as <-. simpl in *.
      rewrite (Hm a o0) in Hu; done.
    + rewrite (grows_lookup_None _ _ _ G E0) in Ho. done.
  - intros id a o Ho Hp Hu. pose proof (grows_lookup _ _ _ _ G Ho) as Hh.
    rewrite Hu in Hh. pose proof (heap_ok_listed _ _ _ K Ho) as Hl.
    apply elem_of_app in Hl as [Hl|Hl].
    + eapply lookup_weaken_None; [|apply (s_fibers_sub _ _ _ _ _ S2)].
      apply (s_fibers_gone _ _ _ _ _ S1). by exists a, (with_marked false o).
    + apply (s_fibers_gone _ _ _ _ _ S2). rewrite (agree_fiber_swept _ _ _ _ E2).
      by exists a, (with_marked false o).
  - rewrite (s_released _ _ _ _ _ S2). simpl. rewrite (agree_releases _ _ _ E2).
    rewrite (s_released _ _ _ _ _ S1). simpl. by rewrite releases_app, reverse_app, <-app_assoc.
  - apply (s_bytes _ _ _ _ _ S2), (s_bytes _ _ _ _ _ S1). destruct (h_bytes _ K).
    split; simpl; [|done]. by rewrite (heap_bytes_alike _ _ (grows_alike _ _ G)).
  - apply (pools_ok_fields vm4); [|done..].
    apply (s_pools _ _ _ _ _ S2), (pools_ok_fields vm2); [|done..].
    apply (s_pools _ _ _ _ _ S1), (pools_ok_fields vm); [apply K|done..|].
    intros a. by apply grows_lookup_None.
  - done.
  - done.
Qed.

Lemma major_sweeps vm h :
  heap_ok vm -> grows (objects vm) h ->
  mark_roots realloc_succeeds (mark_fuel vm) vm false = Some h ->
  wp (diamond_vm_collect_impl realloc_succeeds vm) (major_swept h vm).
Proof.
  intros K G Em. unfold diamond_vm_collect_impl. rewrite Em.
  pose proof (h_lists _ K) as (Ny & Hdis & No)%NoDup_app.
  assert (Iy : forall a, a ∈ young_objects vm -> is_Some (objects vm !! a))
    by (intros a Ha; apply (h_young _ K) in Ha as (o & -> & _); eauto).
  assert (Io : forall a, a ∈ old_objects vm -> is_Some (objects vm !! a))
    by (intros a Ha; apply (h_old _ K) in Ha as (o & -> & _); eauto).
  assert (Ir : forall a, a ∈ remembered_set vm -> is_Some (objects vm !! a))
    by (intros a Ha; apply (h_remembered _ K) in Ha as (o & -> & _); eauto).
  cbn [objects with_objects remembered_set].
  rewrite filter_remembered_spec by (by eapply listed_in).
  set (vm1 := with_remembered_set _ _ _).
  apply wp_bind. eapply wp_mono.
  { apply sweep_list_swept; [exact Ny|]. by apply (listed_in vm h). }
  intros [vm2 kept1] S1. simpl in S1.
  set (vm3 := with_lists kept1 (old_objects vm2) vm2).
  assert (Eold : old_objects vm3 = old_objects vm) by (unfold vm3; simpl; by rewrite (s_old _ _ _ _ _ S1)).
  assert (E3 : forall b, b ∉ young_objects vm -> objects vm3 !! b = h !! b).
  { intros b Hb. unfold vm3. simpl. rewrite (s_objects _ _ _ _ _ S1), decide_False; done. }
  apply wp_bind. eapply wp_mono.
  { apply sweep_list_swept; rewrite Eold; [exact No|]. apply Forall_forall. intros a Ha.
    rewrite E3 by (intros Hy; by apply (Hdis a)).
    apply (alike_is_Some _ _ _ (grows_alike _ _ G)). auto. }
  intros [vm4 kept2] S2. rewrite Eold in S2. cbv beta in S2. cbn [fst snd] in S2.
  cbv beta. simpl wp. by eapply major_swept_intro.
Qed.

Section MajorOk.
Context (vm vm' : Vm) (h : Heap).
Hypothesis K : heap_ok vm.
Hypothesis S : major_swept h vm vm'.
Hypothesis Hm : forall a, is_marked h a = true <-> reachable vm a.

Lemma major_lookup a o :
  objects vm' !! a = Some o <-> objects vm !! a = Some o /\ reachable vm a.
Proof.
  rewrite (m_objects _ _ _ S), <-Hm. destruct (is_marked h a); naive_solver.
Qed.

Lemma major_fiber a o id :
  objects vm' !! a = Some o -> payload o = FIBER (Some id) ->
  fibers vm' !! id = fibers vm !! id.
Proof.
  intros [Ho Ha]%major_lookup Hp. apply (m_fibers _ _ _ S). intros b p Hb Hp'.
  apply Hm. by rewrite <-(h_owner _ K a b o p id).
Qed.

Lemma major_pinned id :
  id ∈ running_fibers (roots vm) ++ default [] (root_queue (roots vm)) ->
  fibers vm' !! id = fibers vm !! id.
Proof.
  intros Hid. apply (m_fibers _ _ _ S). intros a o Ho Hp. apply Hm.
  by eapply pinned_reachable.
Qed.

Lemma major_children a o :
  objects vm' !! a = Some o -> children (fibers vm') o = children (fibers vm) o.
Proof. intros Ho. apply children_agree. intros id. by apply major_fiber with (a := a). Qed.

Lemma major_same_reach : same_reach vm vm'.
Proof.
  split.
  - rewrite (m_roots _ _ _ S), (root_values_agree (fibers vm)); [done|].
    exact major_pinned.
  - intros a Ha. destruct (reached_in _ _ _ Ha) as [o Ho]. exists o. by apply major_lookup.
  - intros a Ha. destruct (reached_in _ _ _ Ha) as [o Ho].
    assert (Ho' : objects vm' !! a = Some o) by (by apply major_lookup).
    unfold kids. rewrite Ho, Ho'. by eapply major_children.
Qed.

Lemma marked_of_in l a :
  a ∈ marked_of h l <-> a ∈ l /\ reachable vm a.
Proof. unfold marked_of. rewrite list_elem_of_filter, Hm. tauto. Qed.

Lemma major_heap_ok : heap_ok vm'.
Proof.
  pose proof major_same_reach as R. split.
  - intros a o Ho. destruct (proj1 (major_lookup a o) Ho) as [Ho0 Ha].
    destruct (h_closed _ K a o Ho0) as [Hf Hc]. split.
    + eapply fiber_ok_agree; [|exact Hf]. intros id. by eapply major_fiber.
    + intros c. rewrite (major_children _ _ Ho). intros Hin.
      apply (sr_in _ _ R). by eapply reached_child; [apply K|..].
  - split.
    + rewrite (m_roots _ _ _ S). eapply root_fibers_agree; [exact major_pinned|apply K].
    + rewrite (sr_roots _ _ R). intros a Ha. apply (sr_in _ _ R). exists a. split; [done|].
      constructor; [by apply (h_roots _ K)|done].
  - intros a. unfold is_marked. destruct (objects vm' !! a) as [o|] eqn:E; [|done].
    apply major_lookup in E as [E _]. pose proof (h_unmarked _ K a) as U.
    unfold is_marked in U. by rewrite E in U.
  - rewrite (m_young _ _ _ S), (m_old _ _ _ S). unfold marked_of. rewrite <-filter_app.
    apply NoDup_filter, K.
  - intros a. rewrite (m_young _ _ _ S), marked_of_in, (h_young _ K).
    setoid_rewrite major_lookup. naive_solver.
  - intros a. rewrite (m_old _ _ _ S), marked_of_in, (h_old _ K).
    setoid_rewrite major_lookup. naive_solver.
  - rewrite (m_set _ _ _ S). apply NoDup_filter, K.
  - intros a. rewrite (m_set _ _ _ S), marked_of_in, (h_remembered _ K).
    setoid_rewrite major_lookup. naive_solver.
  - intros a o [Ho _]%major_lookup. by apply (h_remembered_old _ K a).
  - intros a o c Ho Hold Hc Hy. rewrite (major_children _ _ Ho) in Hc.
    destruct (proj1 (major_lookup a o) Ho) as [Ho0 Ha].
    eapply (h_barrier _ K a o c Ho0 Hold Hc).
    destruct (h_closed _ K a o Ho0) as [_ Hcl]. destruct (Hcl c Hc) as [p Hp].
    unfold is_old in *. rewrite Hp.
    assert (Hp' : objects vm' !! c = Some p).
    { apply major_lookup. split; [done|]. by eapply reached_child; [apply K|..]. }
    by rewrite Hp' in Hy.
  - intros a o [Ho _]%major_lookup. by eapply (h_containers _ K).
  - intros a b o p id [Ho _]%major_lookup [Hp _]%major_lookup. by eapply (h_owner _ K).
  - intros id a o Hid [Ho Ha]%major_lookup Hp. rewrite (sr_roots _ _ R).
    rewrite (m_roots _ _ _ S) in Hid. by eapply (h_pinned _ K).
  - apply S.
  - apply S.
Qed.
End MajorOk.

(** The major collection on a well-formed heap. *)
Lemma collect_major vm :
  heap_ok vm ->
  exists vm', diamond_vm_collect_impl realloc_succeeds vm = Some vm' /\ heap_ok vm' /\
    same_reach vm vm' /\ roots vm' = roots vm /\
    (forall a o, objects vm' !! a = Some o <-> objects vm !! a = Some o /\ reachable vm a) /\
    bytes_allocated_at_last_minor_gc vm' = bytes_allocated vm' /\
    next_gc vm' = (if bytes_allocated vm' <? 1024 then 2048
                   else to_u64 (bytes_allocated vm' * 2)) /\
    exists l, (forall a, a ∈ l <-> is_Some (objects vm !! a) /\ ~ reachable vm a) /\ NoDup l /\
      released vm' = reverse (l ≫= fun a => from_option (fun o => release_of (payload o)) []
        (objects vm !! a)) ++ released vm.
Proof.
  intros K.
  destruct (mark_roots_major realloc_succeeds vm (h_closed _ K) (h_roots _ K)
    (h_unmarked _ K) (mark_fuel vm) (Nat.le_refl _)) as (h & Em & G & Hm).
  destruct (proj1 (wp_some _ _) (major_sweeps vm h K G Em)) as (vm' & E & S).
  exists vm'. split_and!; auto.
  - by eapply major_heap_ok.
  - by eapply major_same_reach.
  - apply S.
  - intros a o. by eapply major_lookup.
  - apply S.
  - apply S.
  - exists (unmarked_of h (young_objects vm ++ old_objects vm)). split_and!.
    + intros a. unfold unmarked_of. rewrite list_elem_of_filter. split.
      * intros [Hu Hl]. split.
        -- apply elem_of_app in Hl as [Hl|Hl];
             [apply (h_young _ K) in Hl|apply (h_old _ K) in Hl];
             destruct Hl as (o & -> & _); eauto.
        -- intros Ha%Hm. congruence.
      * intros [[o Ho] Hn]. split; [|by eapply heap_ok_listed].
        destruct (is_marked h a) eqn:Ea; [|done]. by apply Hm in Ea.
    + apply NoDup_filter, K.
    + rewrite (m_released _ _ _ S). unfold releases. do 2 f_equal.
      apply Forall_bind_ext, Forall_forall. intros a _.
      pose proof (G a) as Ga. destruct Ga as [o o' [-> _]|]; done.
Qed.
End Major.

(** ** The minor collection *)

(** [o'] is [o] after a minor collection kept it. *)
Record tenured (o o' : Object) : Prop := {
  t_old : old o' = true;
  t_marked : marked o' = false;
  t_remembered : remembered o' = remembered o;
  t_frozen : frozen o' = frozen o;
  t_payload : payload o' = set_cards (payload_cards (payload o')) (payload o);
}.

Lemma tenured_children fs o o' : tenured o o' -> children fs o' = children fs o.
Proof. intros [_ _ _ _ P]. unfold children. by rewrite P, payload_values_cards. Qed.

Lemma tenured_fiber o o' id :
  tenured o o' -> payload o' = FIBER (Some id) <-> payload o = FIBER (Some id).
Proof. intros [_ _ _ _ P]. rewrite P. by destruct (payload o). Qed.

Section Minor.
Context `{Layout} (realloc_succeeds : nat -> bool).

Section MinorOk.
Context (vm vm2 : Vm) (h : Heap) (kept : list Addr).
Hypothesis K : heap_ok vm.
Hypothesis A : heaps_alike (objects vm) h.
Hypothesis Hm : forall a, is_marked h a = true <->
  reached true vm a \/ remembered_reached vm a.
Hypothesis S : swept (young_objects vm) true (with_objects h vm) vm2 kept.

Definition after_minor : Vm :=
  let vm' := with_lists kept (old_objects vm2) vm2 in
  with_counters (bytes_allocated vm') (next_gc vm') (bytes_allocated vm') vm'.

(** Kept by the collection. *)
Definition survives (a : Addr) : Prop :=
  is_old (objects vm) a = true \/ is_marked h a = true.

Lemma marked_young a : is_marked h a = true -> is_old (objects vm) a = false.
Proof.
  intros [(r & _ & Ht)|(r & _ & Ht)]%Hm; by destruct (traced_end _ _ _ _ _ Ht).
Qed.

Lemma alike_lookup a o : objects vm !! a = Some o ->
  exists o', h !! a = Some o' /\ alike o o'.
Proof.
  intros Ho. pose proof (A a) as E. rewrite Ho in E. inversion E; subst; eauto.
Qed.

Lemma minor_lookup_old a o : objects vm !! a = Some o -> old o = true ->
  exists o', objects vm2 !! a = Some o' /\ tenured o o'.
Proof.
  intros Ho Hold. destruct (alike_lookup a o Ho) as (o' & Ho' & [B1 B2 B3 B4]).
  exists o'. split.
  - rewrite (s_objects _ _ _ _ _ S), decide_False; [done|].
    intros (p & Hp & Hy)%(h_young _ K). congruence.
  - split; try congruence. destruct (marked o') eqn:E; [|done].
    assert (Hma : is_marked h a = true) by (unfold is_marked; by rewrite Ho').
    apply marked_young in Hma. unfold is_old in Hma. rewrite Ho in Hma. simpl in Hma.
    congruence.
Qed.

Lemma minor_lookup_young a o : objects vm !! a = Some o -> old o = false ->
  exists o', alike o o' /\ marked o' = is_marked h a /\
    objects vm2 !! a = sweep_object true o'.
Proof.
  intros Ho Hold. destruct (alike_lookup a o Ho) as (o' & Ho' & B).
  exists o'. split_and!; [done| |].
  - unfold is_marked. by rewrite Ho'.
  - rewrite (s_objects _ _ _ _ _ S), decide_True by (apply (h_young _ K); eauto).
    simpl. by rewrite Ho'.
Qed.

Lemma survives_in a o : objects vm !! a = Some o -> survives a ->
  exists o', objects vm2 !! a = Some o' /\ tenured o o'.
Proof.
  intros Ho Hs. destruct (old o) eqn:Eo; [by apply minor_lookup_old|].
  destruct Hs as [Hs|Hs]; [unfold is_old in Hs; rewrite Ho in Hs; simpl in Hs; congruence|].
  destruct (minor_lookup_young a o Ho Eo) as (o' & [B1 B2 B3 B4] & Em & E).
  rewrite Hs in Em. unfold sweep_object in E. rewrite Em in E.
  eexists. split; [exact E|]. by split.
Qed.

Lemma minor_lookup_inv a o' : objects vm2 !! a = Some o' ->
  exists o, objects vm !! a = Some o /\ tenured o o' /\ survives a.
Proof.
  intros E. destruct (objects vm !! a) as [o|] eqn:Ho.
  - exists o. split; [done|].
    assert (Hs : survives a).
    { unfold survives, is_old. rewrite Ho. simpl. destruct (old o) eqn:Eo; [by left|right].
      destruct (minor_lookup_young a o Ho Eo) as (o1 & _ & Em & E1).
      rewrite E1 in E. unfold sweep_object in E. rewrite <-Em.
      by destruct (marked o1). }
    split; [|done]. destruct (survives_in a o Ho Hs) as (o2 & E2 & T). congruence.
  - exfalso. assert (h !! a = None) as Hh.
    { pose proof (A a) as B. rewrite Ho in B. by inversion B. }
    rewrite (s_objects _ _ _ _ _ S) in E. simpl in E. rewrite Hh in E.
    destruct (decide _) in E; done.
Qed.

(** The barrier makes survival closed under children. *)
Lemma survives_child a o c : objects vm !! a = Some o -> survives a ->
  c ∈ children (fibers vm) o -> survives c.
Proof.
  intros Ho Hs Hc. destruct (h_closed _ K a o Ho) as [_ Hcl].
  destruct (is_old (objects vm) c) eqn:Ec; [by left|right].
  assert (Hk : c ∈ kids (fibers vm) (objects vm) a) by (unfold kids; by rewrite Ho).
  destruct Hs as [Hs|[(r & Hr & Ht)|(r & Hr & Ht)]%Hm]; apply Hm.
  - right. unfold is_old in Hs. rewrite Ho in Hs.
    destruct (h_barrier _ K a o c Ho Hs Hc Ec) as [Hrem Hcov].
    assert (Hin : c ∈ remembered_pointers (fibers vm) (payload o))
      by (apply covered_found; [apply (h_containers _ K a o Ho)|done|done]).
    exists c. split; [|constructor; [auto|by rewrite Ec]].
    apply list_elem_of_bind. exists a. split.
    + unfold remembered_kids. by rewrite Ho.
    + apply (h_remembered _ K). eauto.
  - left. exists r. split; [done|]. eapply traced_step; [done|done|auto|by rewrite Ec].
  - right. exists r. split; [done|]. eapply traced_step; [done|done|auto|by rewrite Ec].
Qed.

Lemma reachable_survives a : reachable vm a -> survives a.
Proof.
  intros (r & Hr & Ht). induction Ht as [r Hs Ho|r b c Ht IH Hk Hs Ho].
  - destruct (is_old (objects vm) r) eqn:E; [by left|right]. apply Hm. left.
    exists r. split; [done|]. constructor; [done|by rewrite E].
  - specialize (IH Hr). unfold kids in Hk.
    destruct (objects vm !! b) as [o|] eqn:Hb; [|by apply elem_of_nil in Hk].
    by eapply survives_child.
Qed.

Lemma minor_fiber id :
  (forall a o, objects vm !! a = Some o -> payload o = FIBER (Some id) -> survives a) ->
  fibers vm2 !! id = fibers vm !! id.
Proof.
  intros Hs. apply (s_fibers_kept _ _ _ _ _ S). intros (a & o' & Hy & Ho' & Hu & Hp).
  simpl in Ho'. destruct (proj1 (h_young _ K a) Hy) as (o & Ho & Hyo).
  destruct (alike_lookup a o Ho) as (o1 & E1 & B). rewrite Ho' in E1.
  injection E1 as <-. destruct B as [_ _ _ B4].
  assert (Hpo : payload o = FIBER (Some id)).
  { rewrite B4 in Hp. by destruct (payload o). }
  destruct (Hs a o Ho Hpo) as [Hs'|Hs'].
  - unfold is_old in Hs'. rewrite Ho in Hs'. simpl in Hs'. congruence.
  - unfold is_marked in Hs'. rewrite Ho' in Hs'. simpl in Hs'. congruence.
Qed.

Lemma minor_owner a o' id :
  objects vm2 !! a = Some o' -> payload o' = FIBER (Some id) ->
  fibers vm2 !! id = fibers vm !! id.
Proof.
  intros (o & Ho & T & Hs)%minor_lookup_inv Hp. rewrite (tenured_fiber _ _ _ T) in Hp.
  apply minor_fiber. intros b p Hb Hp'. by rewrite <-(h_owner _ K a b o p id).
Qed.

Lemma minor_pinned id :
  id ∈ running_fibers (roots vm) ++ default [] (root_queue (roots vm)) ->
  fibers vm2 !! id = fibers vm !! id.
Proof.
  intros Hid. apply minor_fiber. intros a o Ho Hp. apply reachable_survives.
  by eapply pinned_reachable.
Qed.

Lemma minor_children a o o' :
  objects vm !! a = Some o -> objects vm2 !! a = Some o' ->
  children (fibers vm2) o' = children (fibers vm) o.
Proof.
  intros Ho Ho'. rewrite (children_agree (fibers vm)) by (intros id; by eapply minor_owner).
  apply minor_lookup_inv in Ho' as (o1 & Ho1 & T & _).
  rewrite Ho in Ho1. injection Ho1 as <-. by apply tenured_children.
Qed.

Lemma minor_roots : roots vm2 = roots vm.
Proof. by rewrite (f_roots _ _ (s_frame _ _ _ _ _ S)). Qed.

Lemma minor_same_reach : same_reach vm after_minor.
Proof.
  split; simpl.
  - rewrite minor_roots, (root_values_agree (fibers vm)); [done|]. exact minor_pinned.
  - intros a Ha. destruct (reached_in _ _ _ Ha) as [o Ho].
    destruct (survives_in a o Ho (reachable_survives a Ha)) as (o' & E & _). eauto.
  - intros a Ha. destruct (reached_in _ _ _ Ha) as [o Ho].
    destruct (survives_in a o Ho (reachable_survives a Ha)) as (o' & E & _).
    unfold kids. rewrite Ho, E. by eapply minor_children.
Qed.

Lemma minor_lists :
  young_objects after_minor = [] /\
  old_objects after_minor = reverse (marked_of h (young_objects vm)) ++ old_objects vm.
Proof.
  simpl. by rewrite (s_kept _ _ _ _ _ S), (s_old _ _ _ _ _ S).
Qed.

Lemma minor_listed a :
  a ∈ old_objects after_minor <-> is_Some (objects vm2 !! a).
Proof.
  rewrite (proj2 minor_lists), elem_of_app, elem_of_reverse.
  unfold marked_of. rewrite list_elem_of_filter. split.
  - intros [[Hma Hy]|Ho].
    + apply (h_young _ K) in Hy as (o & Ho & _).
      destruct (survives_in a o Ho (or_intror Hma)) as (o' & -> & _). eauto.
    + apply (h_old _ K) in Ho as (o & Ho & Hold).
      destruct (minor_lookup_old a o Ho Hold) as (o' & -> & _). eauto.
  - intros [o' (o & Ho & _ & Hs)%minor_lookup_inv]. destruct (old o) eqn:E.
    + right. apply (h_old _ K). eauto.
    + left. split; [|apply (h_young _ K); eauto].
      destruct Hs as [Hs|Hs]; [|done]. unfold is_old in Hs. rewrite Ho in Hs.
      simpl in Hs. congruence.
Qed.

Lemma minor_heap_ok : heap_ok after_minor.
Proof.
  pose proof minor_same_reach as R.
  assert (Hset : remembered_set after_minor = remembered_set vm)
    by (simpl; by rewrite (f_remembered _ _ (s_frame _ _ _ _ _ S))).
  destruct minor_lists as [Hyoung Hold].
  split.
  - intros a o' Ho'. simpl in *. destruct (minor_lookup_inv a o' Ho') as (o & Ho & T & Hs).
    destruct (h_closed _ K a o Ho) as [Hf Hc]. split.
    + eapply fiber_ok_agree; [intros id; by eapply minor_owner|].
      destruct T as [_ _ _ _ P]. rewrite P. by destruct (payload o).
    + intros c. rewrite (minor_children a o o' Ho Ho'). intros Hin.
      destruct (Hc c Hin) as [p Hp].
      destruct (survives_in c p Hp (survives_child a o c Ho Hs Hin)) as (p' & -> & _).
      eauto.
  - split; simpl.
    + rewrite minor_roots. eapply root_fibers_agree; [exact minor_pinned|apply K].
    + pose proof (sr_roots _ _ R) as E. simpl in E. rewrite E.
      intros a Ha. apply (sr_in _ _ R). exists a. split; [done|].
      constructor; [by apply (h_roots _ K)|done].
  - intros a. unfold is_marked. simpl. destruct (objects vm2 !! a) as [o'|] eqn:E; [|done].
    apply minor_lookup_inv in E as (o & _ & T & _). apply T.
  - rewrite Hyoung, Hold. simpl. pose proof (h_lists _ K) as (Ny & Hdis & No)%NoDup_app.
    apply NoDup_app. split_and!; [by rewrite reverse_Permutation; apply NoDup_filter| |done].
    intros a Ha. apply Hdis. rewrite elem_of_reverse in Ha. unfold marked_of in Ha.
    by apply list_elem_of_filter in Ha as [_ Ha].
  - intros a. rewrite Hyoung. split; [intros Ha; by apply elem_of_nil in Ha|].
    intros (o' & E & Hn). simpl in E. apply minor_lookup_inv in E as (o & _ & T & _).
    destruct T. congruence.
  - intros a. rewrite minor_listed. simpl. split; [|intros (o' & E & _); eauto].
    intros [o' E]. exists o'. split; [done|].
    apply minor_lookup_inv in E as (o & _ & T & _). apply T.
  - rewrite Hset. apply K.
  - intros a. rewrite Hset, (h_remembered _ K). simpl. split.
    + intros (o & Ho & Hrem).
      destruct (minor_lookup_old a o Ho (h_remembered_old _ K a o Ho Hrem)) as (o' & E & T).
      exists o'. split; [done|]. destruct T. congruence.
    + intros (o' & E & Hrem). apply minor_lookup_inv in E as (o & Ho & T & _).
      exists o. split; [done|]. destruct T. congruence.
  - intros a o' E _. simpl in E. apply minor_lookup_inv in E as (o & _ & T & _). apply T.
  - intros a o' c E _ Hc Hy. exfalso. simpl in *.
    destruct (minor_lookup_inv a o' E) as (o & Ho & T & Hs).
    rewrite (minor_children a o o' Ho E) in Hc.
    destruct (h_closed _ K a o Ho) as [_ Hcl]. destruct (Hcl c Hc) as [p Hp].
    destruct (survives_in c p Hp (survives_child a o c Ho Hs Hc)) as (p' & Ep & Tp).
    unfold is_old in Hy. rewrite Ep in Hy. destruct Tp. simpl in Hy. congruence.
  - intros a o' E. simpl in E. apply minor_lookup_inv in E as (o & Ho & T & _).
    pose proof (h_containers _ K a o Ho) as Hc. destruct T as [_ _ _ _ P]. rewrite P.
    by destruct (payload o).
  - intros a b o' p' id Ea Eb. simpl in *.
    apply minor_lookup_inv in Ea as (o & Ho & T & _).
    apply minor_lookup_inv in Eb as (p & Hp & T' & _).
    rewrite (tenured_fiber _ _ _ T), (tenured_fiber _ _ _ T'). by apply (h_owner _ K).
  - intros id a o' Hid E Hp. rewrite (sr_roots _ _ R). simpl in *.
    rewrite minor_roots in Hid. apply minor_lookup_inv in E as (o & Ho & T & _).
    rewrite (tenured_fiber _ _ _ T) in Hp. by eapply (h_pinned _ K).
  - apply (s_bytes _ _ _ _ _ S). destruct (h_bytes _ K). split; simpl; [|done].
    by rewrite (heap_bytes_alike _ _ A).
  - apply (pools_ok_fields vm2); [|done..]. apply (s_pools _ _ _ _ _ S).
    apply (pools_ok_fields vm); [apply K|done..|]. simpl. intros a Ha.
    pose proof (A a) as B. rewrite Ha in B. by inversion B.
Qed.
End MinorOk.

(** The minor collection on a well-formed heap. *)
Lemma collect_minor vm :
  heap_ok vm ->
  exists vm', diamond_vm_collect_minor_impl realloc_succeeds vm = Some vm' /\ heap_ok vm' /\
    same_reach vm vm' /\ roots vm' = roots vm /\ young_objects vm' = [] /\
    (forall a o', objects vm' !! a = Some o' ->
      exists o, objects vm !! a = Some o /\ tenured o o') /\
    (forall a o, objects vm !! a = Some o -> old o = true \/ reachable vm a ->
      is_Some (objects vm' !! a)) /\
    (forall a o, objects vm !! a = Some o -> old o = false ->
      is_Some (objects vm' !! a) -> reached true vm a \/ remembered_reached vm a).
Proof.
  intros K.
  destruct (mark_roots_minor realloc_succeeds vm (h_closed _ K) (h_roots _ K)
    (h_unmarked _ K) (mark_fuel vm) (Nat.le_refl _)) as (h & Em & A & Hm).
  { apply K. }
  { apply Forall_forall. intros a (o & -> & _)%(h_remembered _ K). eauto. }
  assert (Sw : wp (sweep_list (young_objects vm) true (with_objects h vm))
    (fun r => swept (young_objects vm) true (with_objects h vm) (fst r) (snd r))).
  { apply sweep_list_swept; [by pose proof (h_lists _ K) as [? _]%NoDup_app|].
    apply Forall_forall. intros a Ha. simpl. apply (alike_is_Some _ _ _ A).
    apply (h_young _ K) in Ha as (o & -> & _). eauto. }
  apply wp_some in Sw as ([vm2 kept] & E & S). simpl in S.
  exists (after_minor vm2 kept). split_and!.
  - unfold diamond_vm_collect_minor_impl. rewrite Em. cbn [young_objects with_objects].
    by rewrite E.
  - by eapply minor_heap_ok.
  - by eapply minor_same_reach.
  - simpl. by rewrite (f_roots _ _ (s_frame _ _ _ _ _ S)).
  - simpl. by rewrite (s_kept _ _ _ _ _ S).
  - intros a o' Ho'. simpl in Ho'.
    destruct (minor_lookup_inv vm vm2 h kept K A Hm S a o' Ho') as (o & Ho & T & _). eauto.
  - intros a o Ho Hs. simpl. assert (Hsv : survives vm h a).
    { destruct Hs as [Hs|Hs]; [left; unfold is_old; by rewrite Ho|].
      by eapply reachable_survives. }
    destruct (survives_in vm vm2 h kept K A Hm S a o Ho Hsv) as (o' & -> & _). eauto.
  - intros a o Ho Hy [o' Ho']. simpl in Ho'.
    destruct (minor_lookup_inv vm vm2 h kept K A Hm S a o' Ho') as (o1 & Ho1 & _ & [Hs|Hs]).
    + unfold is_old in Hs. rewrite Ho in Hs. simpl in Hs. congruence.
    + by apply Hm.
Qed.
End Minor.
