(* ===== verification/GcBarrier.v ===== *)
(** * GcBarrier: the write barrier of src/vm_gc.c and the stores it guards

    [remember], the three write barriers and the card table, and the mutator
    operations of the VM that store a value into an object that already exists:
    Array pushes and element writes (src/vm_collections.c, src/vm_run_chunk.c),
    cell and instance-variable writes, and the results written back into a
    fiber or a joined thread.  A store that succeeds keeps [heap_ok]; one whose
    barrier fails for lack of memory has already happened, and leaves a pointer
    no minor collection will find. *)

From S2P Require Import Prelude GcHeap GcMark GcMarkOk GcSweep GcSweepOk GcInvariant.
From Stdlib Require Import ZArith Lia Bool List.
From stdpp Require Import base numbers list gmap sets.

Local Open Scope Z_scope.
Local Open Scope c_scope.

Definition set_object (a : Addr) (o : Object) (vm : Vm) : Vm :=
  with_objects (<[a := o]> (objects vm)) vm.

(** ** Barriers

    The booleans say whether the allocation a call may make succeeds:
    [set_ok] growing the remembered set, [card_ok] allocating or growing a card
    table. *)

Definition remember (set_ok : bool) (owner : Addr) (vm : Vm) : bool * Vm :=
  let set := remembered_set vm in
  let capacity := remembered_capacity vm in
  if (length set =? capacity)%nat then
    let grown_capacity := (if capacity =? 0 then 16 else capacity * 2)%nat in
    if set_ok then (true, with_remembered_set (set ++ [owner]) grown_capacity vm)
    else (false, vm)
  else (true, with_remembered_set (set ++ [owner]) capacity vm).

(** [if(!owner->remembered) { if(!remember(vm,owner)) return false;
    owner->remembered=true; }] *)
Definition remember_once (set_ok : bool) (owner : Addr) (o : Object) (vm : Vm)
    : bool * Vm :=
  if remembered o then (true, vm)
  else
    let '(ok, vm) := remember set_ok owner vm in
    (ok, if ok then set_object owner (with_remembered true o) vm else vm).

Definition gc_write_barrier (set_ok : bool) (owner : Addr) (vm : Vm)
    : option (bool * Vm) :=
  let? o := objects vm !! owner in
  if old o then Some (remember_once set_ok owner o vm) else Some (true, vm).

(** The card table of a container, allocated or grown to its capacity. *)
Definition card_table (cards : option (list bool)) (capacity : nat) : list bool :=
  let needed_cards := cards_of_capacity capacity in
  match cards with
  | None => replicate (if (needed_cards =? 0)%nat then 1%nat else needed_cards) false
  | Some table => table ++ replicate (needed_cards - length table) false
  end.

Definition card_table_fits (cards : option (list bool)) (capacity : nat) : bool :=
  match cards with
  | None => false
  | Some table => (cards_of_capacity capacity <=? length table)%nat
  end.

Definition is_container (p : Payload) : bool :=
  match p with ARRAY _ _ _ | HASH _ _ _ _ => true | _ => false end.

Definition mark_card_dirty (card_ok : bool) (owner : Addr) (index : nat) (vm : Vm)
    : option (bool * Vm) :=
  let? o := objects vm !! owner in
  if negb (is_container (payload o)) then None
  else
    let cards := payload_cards (payload o) in
    let capacity := payload_capacity (payload o) in
    if negb (card_table_fits cards capacity) && negb card_ok then Some (false, vm)
    else
      let? table := array_write (card_table cards capacity) (index / CARD_SIZE) true in
      Some (true, set_object owner (with_payload (set_cards (Some table) (payload o)) o) vm).

Definition gc_write_barrier_index (set_ok card_ok : bool) (owner : Addr) (index : nat)
    (vm : Vm) : option (bool * Vm) :=
  let? o := objects vm !! owner in
  if negb (old o) then Some (true, vm)
  else
    match remember_once set_ok owner o vm with
    | (false, vm) => Some (false, vm)
    | (true, vm) => mark_card_dirty card_ok owner index vm
    end.

(** The cards from [card] on, [n] of them. *)
Fixpoint mark_cards_dirty (card_ok : nat -> bool) (owner : Addr) (n card : nat) (vm : Vm)
    : option (bool * Vm) :=
  match n with
  | O => Some (true, vm)
  | S n =>
      let? (ok, vm) := mark_card_dirty (card_ok card) owner (card * CARD_SIZE) vm in
      if ok : bool then mark_cards_dirty card_ok owner n (S card) vm else Some (false, vm)
  end.

Definition gc_write_barrier_range (set_ok : bool) (card_ok : nat -> bool) (owner : Addr)
    (start count : nat) (vm : Vm) : option (bool * Vm) :=
  let? o := objects vm !! owner in
  if negb (old o) then Some (true, vm)
  else
    match remember_once set_ok owner o vm with
    | (false, vm) => Some (false, vm)
    | (true, vm) =>
        if (count =? 0)%nat then Some (true, vm)
        else
          let first_card := (start / CARD_SIZE)%nat in
          let last_card := ((start + count - 1) / CARD_SIZE)%nat in
          mark_cards_dirty card_ok owner (last_card + 1 - first_card) first_card vm
    end.

(** ** Stores *)

Definition SIZE_MAX : Z := two_64 - 1.

(** [array->values[at]=v] and its barrier, as [DIAMOND_OP_INDEX_SET] does them
    for an index in range. *)
Definition array_store (set_ok card_ok : bool) (array : Addr) (at_ : nat) (v : Value)
    (vm : Vm) : option (bool * Vm) :=
  let? o := objects vm !! array in
  match payload o with
  | ARRAY values capacity cards =>
      let? values := array_write values at_ v in
      let vm := set_object array (with_payload (ARRAY values capacity cards) o) vm in
      if old o then gc_write_barrier_index set_ok card_ok array at_ vm
      else Some (true, vm)
  | _ => None
  end.

(** The range assignment of [diamond_jit_index_set]. *)
Fixpoint write_range (values : list Value) (start : nat) (replacement : list Value)
    : option (list Value) :=
  match replacement with
  | [] => Some values
  | v :: replacement =>
      let? values := array_write values start v in
      write_range values (S start) replacement
  end.

Definition array_store_range (set_ok : bool) (card_ok : nat -> bool) (array : Addr)
    (range_start : nat) (replacement : list Value) (vm : Vm) : option (bool * Vm) :=
  let? o := objects vm !! array in
  match payload o with
  | ARRAY values capacity cards =>
      let? values := write_range values range_start replacement in
      let vm := set_object array (with_payload (ARRAY values capacity cards) o) vm in
      gc_write_barrier_range set_ok card_ok array range_start (length replacement) vm
  | _ => None
  end.

Section Push.
Context `{Layout}.

(** [array_push]: [grow_ok] is the outcome of its own [realloc]. *)
Definition array_push (grow_ok set_ok card_ok : bool) (array : Addr) (v : Value)
    (vm : Vm) : option (bool * Vm) :=
  let? o := objects vm !! array in
  match payload o with
  | ARRAY values old_capacity cards =>
      let full := (length values =? old_capacity)%nat in
      if full && ((SIZE_MAX / 2 / sizeof DiamondValue_t <? Z.of_nat old_capacity)
                  || negb grow_ok)
      then Some (false, vm)
      else
        let capacity :=
          if full then (if old_capacity <? 8 then 8 else old_capacity * 2)%nat
          else old_capacity in
        let vm := with_counters
          (to_u64 (bytes_allocated vm +
             Z.of_nat (capacity - old_capacity) * sizeof DiamondValue_t))
          (next_gc vm) (bytes_allocated_at_last_minor_gc vm) vm in
        let new_index := length values in
        let vm := set_object array
          (with_payload (ARRAY (values ++ [v]) capacity cards) o) vm in
        gc_write_barrier_index set_ok card_ok array new_index vm
  | _ => None
  end.
End Push.

(** The statuses a store ends with, of [DiamondVmStatus]. *)
Inductive StoreStatus :=
  | STORE_OK | STORE_TYPE_ERROR | STORE_INDEX_ERROR | STORE_FROZEN_ERROR
  | STORE_INVALID_BYTECODE | STORE_OUT_OF_MEMORY.

(** [if(!barrier)return DIAMOND_VM_OUT_OF_MEMORY; return DIAMOND_VM_OK;] *)
Definition barrier_status (r : option (bool * Vm)) : option (StoreStatus * Vm) :=
  let? (ok, vm) := r in
  Some (if ok : bool then STORE_OK else STORE_OUT_OF_MEMORY, vm).

(** [DIAMOND_OP_SET_CELL], and [DIAMOND_OP_SET_CAPTURE] on the captured value *)
Definition cell_store (set_ok : bool) (cell_value : Value) (v : Value) (vm : Vm)
    : option (StoreStatus * Vm) :=
  match cell_value with
  | VALUE_OBJECT (Some cell) =>
      let? o := objects vm !! cell in
      match payload o with
      | CELL _ =>
          barrier_status
            (gc_write_barrier set_ok cell (set_object cell (with_payload (CELL v) o) vm))
      | _ => Some (STORE_INVALID_BYTECODE, vm)
      end
  | VALUE_OBJECT None => None
  | _ => Some (STORE_INVALID_BYTECODE, vm)
  end.

(** [diamond_jit_set_ivar]; shapes are not represented. *)
Definition set_ivar (set_ok : bool) (receiver : Value) (field : nat) (v : Value) (vm : Vm)
    : option (StoreStatus * Vm) :=
  match receiver with
  | VALUE_OBJECT (Some instance) =>
      let? o := objects vm !! instance in
      match payload o with
      | INSTANCE type_parameter_count fields =>
          if frozen o then Some (STORE_FROZEN_ERROR, vm)
          else if (length fields <=? field)%nat then Some (STORE_INVALID_BYTECODE, vm)
          else
            barrier_status (gc_write_barrier set_ok instance
              (set_object instance
                (with_payload (INSTANCE type_parameter_count (<[field := v]> fields)) o) vm))
      | _ => Some (STORE_TYPE_ERROR, vm)
      end
  | VALUE_OBJECT None => None
  | _ => Some (STORE_TYPE_ERROR, vm)
  end.

(** [Fiber#resume]: [diamond_fiber_run] leaves the fiber as [f], then the
    barrier reaches back to its handle. *)
Definition fiber_store (set_ok : bool) (handle : Addr) (f : DiamondFiber) (vm : Vm)
    : option (bool * Vm) :=
  let? o := objects vm !! handle in
  match payload o with
  | FIBER (Some id) =>
      gc_write_barrier set_ok handle
        (with_native (<[id := f]> (fibers vm)) (released vm) vm)
  | _ => None
  end.

Definition thread_with (t : DiamondThread) (j : bool) (copied : Value) : Payload :=
  THREAD (Some {| joined := j; internal_failure := internal_failure t;
                  thread_result := copied |}).

(** [Thread#join]: the copied result, the barrier, then [joined]. *)
Definition thread_store (set_ok : bool) (handle : Addr) (copied : Value) (vm : Vm)
    : option (bool * Vm) :=
  let? o := objects vm !! handle in
  match payload o with
  | THREAD (Some t) =>
      let vm := set_object handle (with_payload (thread_with t (joined t) copied) o) vm in
      let? (ok, vm) := gc_write_barrier set_ok handle vm in
      if ok : bool then
        let? o := objects vm !! handle in
        Some (true, set_object handle (with_payload (thread_with t true copied) o) vm)
      else Some (false, vm)
  | _ => None
  end.

(** ** Updating one object of a well-formed heap *)

(** [vm] with object [a], the fibers, the remembered set and the byte count
    replaced. *)
Definition updated (a : Addr) (o : Object) (fs : gmap FiberId DiamondFiber)
    (set : list Addr) (capacity : nat) (bytes : Z) (vm : Vm) : Vm :=
  with_counters bytes (next_gc vm) (bytes_allocated_at_last_minor_gc vm)
    (with_remembered_set set capacity
      (with_native fs (released vm) (set_object a o vm))).

Definition pinned_fibers (vm : Vm) : list FiberId :=
  running_fibers (roots vm) ++ default [] (root_queue (roots vm)).

Section Update.
Context `{Layout}.

(** What an update must respect. *)
Record update_ok (vm : Vm) (a : Addr) (o o' : Object) (fs : gmap FiberId DiamondFiber)
    (set : list Addr) (bytes : Z) : Prop := {
  u_old : old o' = old o;
  u_marked : marked o' = false;
  u_owner : forall id, payload o' = FIBER (Some id) -> payload o = FIBER (Some id);
  u_fibers : forall id, payload o <> FIBER (Some id) -> fs !! id = fibers vm !! id;
  u_pinned : forall id, id ∈ pinned_fibers vm -> fs !! id = fibers vm !! id;
  u_fiber_ok : fiber_ok fs (payload o');
  u_children : forall c, c ∈ children fs o' -> is_Some (objects vm !! c);
  u_container : container_ok (payload o');
  u_set_nodup : NoDup set;
  u_set : forall b, b ∈ set <->
    (b <> a /\ b ∈ remembered_set vm) \/ (b = a /\ remembered o' = true);
  u_remembered : remembered o' = true -> old o' = true;
  u_barrier : forall c, old o' = true -> c ∈ children fs o' ->
    is_old (objects vm) c = false -> remembered o' = true /\ covered (payload o') c;
  u_bytes : bytes =
    bytes_allocated vm - object_size (payload o) + object_size (payload o');
  u_bound : bytes < two_64;
}.

Lemma update_is_old vm a o o' c :
  objects vm !! a = Some o -> old o' = old o ->
  is_old (<[a := o']> (objects vm)) c = is_old (objects vm) c.
Proof.
  intros Ho E. unfold is_old. destruct (decide (a = c)) as [<-|Hne].
  - by rewrite lookup_insert_eq, Ho.
  - by rewrite lookup_insert_ne.
Qed.

Lemma update_is_Some vm a o (o' : Object) c :
  objects vm !! a = Some o ->
  is_Some (<[a := o']> (objects vm) !! c) <-> is_Some (objects vm !! c).
Proof.
  intros Ho. rewrite lookup_insert_is_Some. split; [|].
  - intros [->|[_ ?]]; eauto.
  - intros ?. destruct (decide (a = c)); auto.
Qed.

Lemma update_children vm a o o' fs set bytes b p :
  heap_ok vm -> objects vm !! a = Some o -> update_ok vm a o o' fs set bytes ->
  b <> a -> objects vm !! b = Some p ->
  forall id, payload p = FIBER (Some id) -> fs !! id = fibers vm !! id.
Proof.
  intros K Ho U Hne Hp id Hid. apply (u_fibers _ _ _ _ _ _ _ U). intros Hid'.
  apply Hne. by apply (h_owner _ K b a p o id).
Qed.

(** Where an object of the updated heap comes from. *)
Lemma update_lookup vm a o' b p :
  <[a := o']> (objects vm) !! b = Some p ->
  (b = a /\ p = o') \/ (b <> a /\ objects vm !! b = Some p).
Proof. intros [[-> ->]|[Hne Hp]]%lookup_insert_Some; auto. Qed.

Lemma update_roots vm fs :
  (forall id, id ∈ pinned_fibers vm -> fs !! id = fibers vm !! id) ->
  root_values fs (roots vm) = root_values (fibers vm) (roots vm).
Proof. apply root_values_agree. Qed.

Lemma heap_ok_update vm a o o' fs set capacity bytes :
  heap_ok vm -> objects vm !! a = Some o -> update_ok vm a o o' fs set bytes ->
  heap_ok (updated a o' fs set capacity bytes vm).
Proof.
  intros K Ho U.
  assert (Hch : forall b p, b <> a -> objects vm !! b = Some p ->
    forall id, payload p = FIBER (Some id) -> fs !! id = fibers vm !! id)
    by (intros b p; by eapply update_children).
  assert (Hroots : root_values fs (roots vm) = root_values (fibers vm) (roots vm))
    by (apply update_roots, U).
  split; simpl.
  - intros b p Hp. apply update_lookup in Hp as [[-> ->]|[Hne Hp]].
    + split; [apply U|]. intros c Hc. rewrite (update_is_Some _ _ _ _ _ Ho). by apply U.
    + destruct (h_closed _ K b p Hp) as [Hf Hc]. split.
      * eapply fiber_ok_agree; [by eapply Hch|done].
      * rewrite (children_agree (fibers vm)) by (by eapply Hch).
        intros c Hin. rewrite (update_is_Some _ _ _ _ _ Ho). auto.
  - split; simpl.
    + eapply root_fibers_agree; [apply U|apply K].
    + rewrite Hroots. intros c Hc. rewrite (update_is_Some _ _ _ _ _ Ho).
      by apply (h_roots _ K).
  - intros b. unfold is_marked. destruct (decide (a = b)) as [<-|Hne].
    + rewrite lookup_insert_eq. apply U.
    + rewrite lookup_insert_ne by done. apply (h_unmarked _ K).
  - apply K.
  - intros b. rewrite (h_young _ K). setoid_rewrite lookup_insert_Some.
    pose proof (u_old _ _ _ _ _ _ _ U). destruct (decide (a = b)); naive_solver.
  - intros b. rewrite (h_old _ K). setoid_rewrite lookup_insert_Some.
    pose proof (u_old _ _ _ _ _ _ _ U). destruct (decide (a = b)); naive_solver.
  - apply U.
  - intros b. rewrite (u_set _ _ _ _ _ _ _ U), (h_remembered _ K).
    setoid_rewrite lookup_insert_Some. destruct (decide (a = b)); naive_solver.
  - intros b p Hp. apply update_lookup in Hp as [[-> ->]|[Hne Hp]]; [apply U|].
    by apply (h_remembered_old _ K b).
  - intros b p c Hp Hold. rewrite (update_is_old _ _ _ _ _ Ho) by apply U.
    apply update_lookup in Hp as [[-> ->]|[Hne Hp]]; [by apply U|].
    rewrite (children_agree (fibers vm)) by (by eapply Hch).
    by apply (h_barrier _ K b).
  - intros b p Hp. apply update_lookup in Hp as [[-> ->]|[Hne Hp]]; [apply U|].
    by apply (h_containers _ K b).
  - intros b c p q id Hp Hq Ep Eq.
    assert (Hown : forall x r, <[a := o']> (objects vm) !! x = Some r ->
      payload r = FIBER (Some id) ->
      exists r', objects vm !! x = Some r' /\ payload r' = FIBER (Some id)).
    { intros x r Hr Er. apply update_lookup in Hr as [[-> ->]|[Hne Hr]]; [|eauto].
      exists o. split; [done|]. by apply U. }
    destruct (Hown b p Hp Ep) as (p' & Hp' & Ep'), (Hown c q Hq Eq) as (q' & Hq' & Eq').
    by apply (h_owner _ K b c p' q' id).
  - rewrite Hroots. intros id b p Hid Hp Ep.
    apply update_lookup in Hp as [[-> ->]|[Hne Hp]]; [|by apply (h_pinned _ K id b p)].
    apply (h_pinned _ K id a o); [done|done|]. by apply U.
  - split; simpl; [|apply U]. rewrite (heap_bytes_update _ _ _ _ Ho).
    rewrite (u_bytes _ _ _ _ _ _ _ U). destruct (h_bytes _ K) as [-> _]. done.
  - apply (pools_ok_fields vm); [apply K|done..|]. simpl. intros b Hb.
    rewrite lookup_insert_ne; [done|]. congruence.
Qed.
End Update.

(** ** What the barriers do *)

(** The remembered set with [a] added unless [o] says it is there. *)
Definition extend (a : Addr) (o : Object) (set : list Addr) : list Addr :=
  if remembered o then set else set ++ [a].

(** [cards'] keeps the dirty cards of [cards], and those of [T] are dirty. *)
Definition dirtied (cards cards' : option (list bool)) (T : nat -> Prop) : Prop :=
  (forall c, dirty cards c -> dirty cards' c) /\ (forall c, T c -> dirty cards' c).

Lemma dirtied_trans cards1 cards2 cards3 T1 T2 :
  dirtied cards1 cards2 T1 -> dirtied cards2 cards3 T2 ->
  dirtied cards1 cards3 (fun c => T1 c \/ T2 c).
Proof. intros [A B] [C D]. split; naive_solver. Qed.

Lemma with_remembered_id o : remembered o = true -> with_remembered true o = o.
Proof. destruct o. simpl. by intros ->. Qed.

Lemma with_payload_id o : with_payload (payload o) o = o.
Proof. by destruct o. Qed.

Lemma set_object_id a o vm : objects vm !! a = Some o -> set_object a o vm = vm.
Proof.
  intros Ho. unfold set_object, with_objects. rewrite insert_id by done. by destruct vm.
Qed.

Lemma set_object_twice a o1 o2 vm :
  set_object a o2 (set_object a o1 vm) = set_object a o2 vm.
Proof. unfold set_object, with_objects. simpl. by rewrite insert_insert_eq. Qed.

(** The owner is flagged and in the set. *)
Definition remembering (a : Addr) (o : Object) (capacity : nat) (vm : Vm) : Vm :=
  set_object a (with_remembered true o)
    (with_remembered_set (extend a o (remembered_set vm)) capacity vm).

Lemma remember_once_spec set_ok a o vm vm' :
  objects vm !! a = Some o -> remember_once set_ok a o vm = (true, vm') ->
  exists capacity, vm' = remembering a o capacity vm.
Proof.
  intros Ho E. unfold remember_once in E. unfold remembering, extend.
  destruct (remembered o) eqn:Er.
  - injection E as <-. exists (remembered_capacity vm).
    rewrite with_remembered_id by done. rewrite set_object_id by done. by destruct vm.
  - unfold remember in E. destruct (_ =? _)%nat; [destruct set_ok|]; simplify_eq; by eexists.
Qed.

Lemma remember_once_some set_ok a o vm :
  exists ok vm', remember_once set_ok a o vm = (ok, vm') /\
    (set_ok = true -> ok = true) /\ (ok = false -> vm' = vm).
Proof.
  unfold remember_once, remember. destruct (remembered o); [by eexists _, _|].
  destruct (_ =? _)%nat; [destruct set_ok|]; by eexists _, _.
Qed.

Lemma gc_write_barrier_spec set_ok a o vm vm' :
  objects vm !! a = Some o -> gc_write_barrier set_ok a vm = Some (true, vm') ->
  (old o = false /\ vm' = vm) \/
  (old o = true /\ exists capacity, vm' = remembering a o capacity vm).
Proof.
  intros Ho. unfold gc_write_barrier. rewrite Ho. destruct (old o) eqn:Eo.
  - intros [= E]. right. split; [done|]. by eapply remember_once_spec.
  - intros [= <-]. by left.
Qed.

Lemma payload_cards_set cards p :
  is_container p = true -> payload_cards (set_cards cards p) = cards.
Proof. by destruct p. Qed.

Lemma set_cards_twice c1 c2 p : set_cards c2 (set_cards c1 p) = set_cards c2 p.
Proof. by destruct p. Qed.

Lemma payload_capacity_set cards p : payload_capacity (set_cards cards p) = payload_capacity p.
Proof. by destruct p. Qed.

Lemma is_container_set cards p : is_container (set_cards cards p) = is_container p.
Proof. by destruct p. Qed.

Lemma set_cards_id p : set_cards (payload_cards p) p = p.
Proof. by destruct p. Qed.

(** [vm] with the card table of [a] replaced. *)
Definition recarded (a : Addr) (o : Object) (cards : option (list bool)) (vm : Vm) : Vm :=
  set_object a (with_payload (set_cards cards (payload o)) o) vm.

Lemma mark_card_dirty_spec card_ok a o i vm vm' :
  objects vm !! a = Some o -> mark_card_dirty card_ok a i vm = Some (true, vm') ->
  is_container (payload o) = true /\
  exists table, vm' = recarded a o (Some table) vm /\
    dirtied (payload_cards (payload o)) (Some table) (fun c => c = i / CARD_SIZE)%nat.
Proof.
  intros Ho. unfold mark_card_dirty. rewrite Ho.
  destruct (is_container (payload o)) eqn:Ec; [|done]. cbn [negb].
  destruct (_ && _); [done|]. unfold array_write.
  destruct (_ <? _)%nat eqn:El; [|done]. apply Nat.ltb_lt in El.
  intros [= <-]. split; [done|].
  eexists. split; [done|]. split.
  - intros c (table & Et & Hc). rewrite Et. eexists. split; [done|].
    destruct (decide (c = i / CARD_SIZE)%nat) as [->|Hne].
    + rewrite list_lookup_insert_eq; [done|]. by rewrite Et in El.
    + rewrite list_lookup_insert_ne by done. cbn [card_table].
      rewrite lookup_app_l; [done|]. by eapply lookup_lt_Some.
  - intros c ->. eexists. split; [done|]. by rewrite list_lookup_insert_eq.
Qed.

Lemma barrier_index_spec set_ok card_ok a o i vm vm' :
  objects vm !! a = Some o ->
  gc_write_barrier_index set_ok card_ok a i vm = Some (true, vm') ->
  (old o = false /\ vm' = vm) \/
  (old o = true /\ is_container (payload o) = true /\
   exists capacity cards,
     vm' = recarded a (with_remembered true o) cards (remembering a o capacity vm) /\
     dirtied (payload_cards (payload o)) cards (fun c => c = i / CARD_SIZE)%nat).
Proof.
  intros Ho. unfold gc_write_barrier_index. rewrite Ho.
  destruct (old o) eqn:Eo; cbn [negb]; [|intros [= <-]; by left].
  destruct (remember_once set_ok a o vm) as [ok vm1] eqn:Er. destruct ok; [|done].
  apply remember_once_spec in Er as [capacity ->]; [|done].
  intros E. right. split; [done|].
  eapply mark_card_dirty_spec in E as (Hc & table & -> & D); [|apply lookup_insert_eq].
  split; [done|]. by exists capacity, (Some table).
Qed.

Lemma recarded_twice a o c1 c2 vm :
  recarded a (with_payload (set_cards c1 (payload o)) o) c2 (recarded a o c1 vm) =
  recarded a o c2 vm.
Proof.
  unfold recarded. rewrite set_object_twice. simpl. by rewrite set_cards_twice.
Qed.

Lemma mark_cards_dirty_spec card_ok a n card vm vm' o :
  objects vm !! a = Some o -> is_container (payload o) = true ->
  mark_cards_dirty card_ok a n card vm = Some (true, vm') ->
  exists cards, vm' = recarded a o cards vm /\
    dirtied (payload_cards (payload o)) cards (fun c => card <= c < card + n)%nat.
Proof.
  revert card vm o. induction n as [|n IH]; intros card vm o Ho Hc E.
  - injection E as <-. exists (payload_cards (payload o)). split.
    + unfold recarded. by rewrite set_cards_id, with_payload_id, set_object_id.
    + split; [done|]. intros c Hcc. lia.
  - cbn [mark_cards_dirty] in E.
    destruct (mark_card_dirty _ a _ vm) as [[[] vm1]|] eqn:Em; try done.
    apply (mark_card_dirty_spec _ _ o) in Em as (_ & table & -> & D1); [|done].
    eapply IH in E as (cards & -> & D2); [| |].
    2: { apply lookup_insert_eq. }
    2: { simpl. by rewrite is_container_set. }
    exists cards. rewrite recarded_twice. split; [done|]. simpl in D2.
    rewrite payload_cards_set in D2 by done.
    pose proof (dirtied_trans _ _ _ _ _ D1 D2) as [A B]. split; [done|].
    intros c Hcc. apply B. rewrite Nat.div_mul by (unfold CARD_SIZE; lia). lia.
Qed.

Lemma barrier_range_spec set_ok card_ok a o start count vm vm' :
  objects vm !! a = Some o -> is_container (payload o) = true ->
  gc_write_barrier_range set_ok card_ok a start count vm = Some (true, vm') ->
  (old o = false /\ vm' = vm) \/
  (old o = true /\
   exists capacity cards,
     vm' = recarded a (with_remembered true o) cards (remembering a o capacity vm) /\
     dirtied (payload_cards (payload o)) cards (fun c => exists i,
       start <= i < start + count /\ c = i / CARD_SIZE)%nat).
Proof.
  intros Ho Hc. unfold gc_write_barrier_range. rewrite Ho.
  destruct (old o) eqn:Eo; cbn [negb]; [|intros [= <-]; by left].
  destruct (remember_once set_ok a o vm) as [ok vm1] eqn:Er. destruct ok; [|done].
  apply remember_once_spec in Er as [capacity ->]; [|done].
  intros E. right. split; [done|]. exists capacity.
  destruct (Nat.eqb_spec count 0) as [->|Hn].
  - injection E as <-. exists (payload_cards (payload o)). split.
    + unfold recarded. replace (set_cards _ _) with (payload (with_remembered true o))
        by (simpl; by rewrite set_cards_id).
      rewrite with_payload_id, set_object_id; [done|]. apply lookup_insert_eq.
    + split; [done|]. intros c (i & Hi & _). lia.
  - eapply mark_cards_dirty_spec in E as (cards & -> & [A B]);
      [|apply lookup_insert_eq|done].
    exists cards. split; [done|]. split; [done|]. intros c (i & Hi & ->). apply B.
    pose proof (Nat.Div0.div_le_mono start i CARD_SIZE).
    pose proof (Nat.Div0.div_le_mono i (start + count - 1) CARD_SIZE). lia.
Qed.
