(* ===== verification/GcMutator.v ===== *)
(** * GcMutator: stores and allocations keep the heap well formed

    Each store of GcBarrier that reports success keeps [heap_ok]; each
    allocation links a fresh young object.  The transition system of a program
    (stores, allocations, root changes) and the two collectors keeps [heap_ok],
    so no collection ever frees an object the program can reach. *)

From S2P Require Import Prelude GcHeap GcMark GcMarkOk GcSweep GcSweepOk GcInvariant GcBarrier.
From Stdlib Require Import ZArith Lia Bool List.
From stdpp Require Import base numbers list gmap sets.

Local Open Scope Z_scope.
Local Open Scope c_scope.

Section Stores.
Context `{Layout}.

(** A value the program may store: nothing, or a pointer into the heap. *)
Definition value_ok (vm : Vm) (v : Value) : Prop :=
  forall c, pointer v = Some c -> is_Some (objects vm !! c).

Definition plain (p : Payload) : Prop := forall id, p <> FIBER (Some id).

Lemma fiber_ok_plain fs p : plain p -> fiber_ok fs p.
Proof. intros Hp. destruct p; try done. destruct fiber; [|done]. by destruct (Hp f). Qed.

Lemma unmarked_object vm a o : heap_ok vm -> objects vm !! a = Some o -> marked o = false.
Proof.
  intros K Ho. pose proof (h_unmarked _ K a) as U. unfold is_marked in U. by rewrite Ho in U.
Qed.

Lemma extend_ok vm a o :
  heap_ok vm -> objects vm !! a = Some o ->
  NoDup (extend a o (remembered_set vm)) /\
  forall b, b ∈ extend a o (remembered_set vm) <->
    (b <> a /\ b ∈ remembered_set vm) \/ b = a.
Proof.
  intros K Ho. unfold extend. pose proof (h_remembered_set _ K) as Hnd.
  pose proof (h_remembered _ K a) as Ha. destruct (remembered o) eqn:Er.
  - split; [done|]. intros b. destruct (decide (b = a)) as [->|]; [|naive_solver].
    split; [by right|]. intros _. apply Ha. eauto.
  - assert (Hna : a ∉ remembered_set vm) by (intros (p & Hp & Hr)%Ha; congruence).
    split.
    + apply NoDup_app. split_and!; [done|set_solver|]. repeat constructor. set_solver.
    + intros b. rewrite elem_of_app, list_elem_of_singleton.
      destruct (decide (b = a)); naive_solver.
Qed.

(** Nothing remembered about a young object. *)
Lemma young_unremembered vm a o :
  heap_ok vm -> objects vm !! a = Some o -> old o = false -> remembered o = false.
Proof.
  intros K Ho Hy. destruct (remembered o) eqn:E; [|done].
  rewrite (h_remembered_old _ K a o Ho E) in Hy. done.
Qed.

(** Replacing the payload of a young object. *)
Lemma young_store_ok vm a o p capacity bytes :
  heap_ok vm -> objects vm !! a = Some o -> old o = false -> plain (payload o) -> plain p ->
  (forall c, c ∈ pointers (payload_values (fibers vm) p) -> is_Some (objects vm !! c)) ->
  container_ok p ->
  bytes = bytes_allocated vm - object_size (payload o) + object_size p -> bytes < two_64 ->
  heap_ok (updated a (with_payload p o) (fibers vm) (remembered_set vm) capacity bytes vm).
Proof.
  intros K Ho Hy Hpo Hp Hc Hk Hb Hlt.
  pose proof (young_unremembered vm a o K Ho Hy) as Hr.
  apply (heap_ok_update vm a o); [done|done|]. split; try done; simpl.
  - by eapply unmarked_object.
  - intros id E. by destruct (Hp id).
  - by apply fiber_ok_plain.
  - apply K.
  - intros b. rewrite Hr. split; [|naive_solver].
    intros Hin. left. split; [|done]. intros ->.
    apply (h_remembered _ K) in Hin as (q & Hq & Hrq). congruence.
  - congruence.
  - intros c. congruence.
Qed.

(** Replacing the payload of an old object that is then remembered. *)
Lemma old_store_ok vm a o p capacity bytes :
  heap_ok vm -> objects vm !! a = Some o -> old o = true -> plain (payload o) -> plain p ->
  (forall c, c ∈ pointers (payload_values (fibers vm) p) -> is_Some (objects vm !! c)) ->
  container_ok p ->
  (forall c, c ∈ pointers (payload_values (fibers vm) p) ->
    is_old (objects vm) c = false -> covered p c) ->
  bytes = bytes_allocated vm - object_size (payload o) + object_size p -> bytes < two_64 ->
  heap_ok (updated a (with_payload p (with_remembered true o)) (fibers vm)
    (extend a o (remembered_set vm)) capacity bytes vm).
Proof.
  intros K Ho Hold Hpo Hp Hc Hk Hcov Hb Hlt.
  destruct (extend_ok vm a o K Ho) as [Hnd Hin].
  apply (heap_ok_update vm a o); [done|done|]. split; try done; simpl.
  - by eapply unmarked_object.
  - intros id E. by destruct (Hp id).
  - by apply fiber_ok_plain.
  - intros b. rewrite Hin. naive_solver.
  - auto.
Qed.

Lemma updated_store a o1 o2 set capacity bytes vm :
  set_object a o2 (with_remembered_set set capacity
    (set_object a o1 (with_counters bytes (next_gc vm)
      (bytes_allocated_at_last_minor_gc vm) vm))) =
  updated a o2 (fibers vm) set capacity bytes vm.
Proof.
  unfold updated, set_object, with_counters, with_remembered_set, with_native, with_objects.
  simpl. by rewrite insert_insert_eq.
Qed.

Lemma same_counters vm :
  with_counters (bytes_allocated vm) (next_gc vm) (bytes_allocated_at_last_minor_gc vm) vm = vm.
Proof. by destruct vm. Qed.

Lemma updated_young a o bytes vm :
  set_object a o (with_counters bytes (next_gc vm)
    (bytes_allocated_at_last_minor_gc vm) vm) =
  updated a o (fibers vm) (remembered_set vm) (remembered_capacity vm) bytes vm.
Proof. done. Qed.

Lemma updated_remembering a o1 o2 capacity bytes vm :
  remembered o1 = remembered o2 ->
  remembering a o1 capacity (set_object a o2 (with_counters bytes (next_gc vm)
      (bytes_allocated_at_last_minor_gc vm) vm)) =
  updated a (with_remembered true o1) (fibers vm) (extend a o2 (remembered_set vm))
    capacity bytes vm.
Proof.
  intros E. unfold remembering. simpl. rewrite updated_store. unfold extend. by rewrite E.
Qed.

Lemma updated_recarded a o cards set capacity bytes fs vm :
  recarded a o cards (updated a o fs set capacity bytes vm) =
  updated a (with_payload (set_cards cards (payload o)) o) fs set capacity bytes vm.
Proof.
  unfold recarded, updated, set_object, with_counters, with_remembered_set, with_native,
    with_objects. simpl. by rewrite insert_insert_eq.
Qed.

(** A store into a container followed by a barrier that covers the slots [T]
    it touched. *)
Lemma container_store_ok vm a o p (T : nat -> Prop) bytes vm' :
  heap_ok vm -> objects vm !! a = Some o ->
  is_container (payload o) = true -> is_container p = true ->
  payload_cards p = payload_cards (payload o) -> container_ok p ->
  (forall i vs, slots p !! i = Some vs -> T i \/ slots (payload o) !! i = Some vs) ->
  (forall c, c ∈ pointers (payload_values (fibers vm) p) -> is_Some (objects vm !! c)) ->
  bytes = bytes_allocated vm - object_size (payload o) + object_size p -> bytes < two_64 ->
  let vm1 := set_object a (with_payload p o) (with_counters bytes (next_gc vm)
               (bytes_allocated_at_last_minor_gc vm) vm) in
  (old o = false /\ vm' = vm1) \/
  (old o = true /\ exists capacity cards,
     vm' = recarded a (with_remembered true (with_payload p o)) cards
             (remembering a (with_payload p o) capacity vm1) /\
     dirtied (payload_cards p) cards (fun c => exists i, T i /\ c = i / CARD_SIZE)%nat) ->
  heap_ok vm'.
Proof.
  intros K Ho Hc0 Hc Hcards Hk Hslots Hptr Hb Hlt vm1 Hcase.
  assert (Hpo : plain (payload o)) by (intros id E; by rewrite E in Hc0).
  assert (Hp : plain p) by (intros id E; by rewrite E in Hc).
  destruct Hcase as [[Hy ->]|(Hold & capacity & cards & -> & [Dk Dt])].
  - unfold vm1. rewrite updated_young. by apply young_store_ok.
  - unfold vm1. rewrite updated_remembering by done. rewrite updated_recarded. simpl.
    assert (Hvals : payload_values (fibers vm) (set_cards cards p) =
      payload_values (fibers vm) p) by apply payload_values_cards.
    change (heap_ok (updated a (with_payload (set_cards cards p) (with_remembered true o))
      (fibers vm) (extend a o (remembered_set vm)) capacity bytes vm)).
    apply old_store_ok; auto; rewrite ?Hvals; auto.
    + intros id. destruct p; try done.
    + by destruct p.
    + intros c Hin Hy i vs Hi Hcv. rewrite payload_cards_set by done.
      replace (slots (set_cards cards p)) with (slots p) in Hi by (by destruct p).
      destruct (Hslots i vs Hi) as [HT|Hs]; [apply Dt; eauto|].
      apply Dk. rewrite Hcards.
      assert (Hch : c ∈ children (fibers vm) o).
      { unfold children. eapply pointers_subset; [|exact Hcv].
        etrans; [by eapply slot_values|apply card_values_subset]. }
      destruct (h_barrier _ K a o c Ho Hold Hch Hy) as [_ Hcov]. by eapply Hcov.
    + by destruct p.
Qed.

(** A store into an object without cards followed by [gc_write_barrier]. *)
Lemma plain_store_ok set_ok vm a o p vm' :
  heap_ok vm -> objects vm !! a = Some o -> plain (payload o) -> plain p ->
  is_container p = false -> container_ok p ->
  (forall c, c ∈ pointers (payload_values (fibers vm) p) -> is_Some (objects vm !! c)) ->
  object_size p = object_size (payload o) ->
  gc_write_barrier set_ok a (set_object a (with_payload p o) vm) = Some (true, vm') ->
  heap_ok vm'.
Proof.
  intros K Ho Hpo Hp Hnc Hk Hptr Hsz E.
  pose proof (h_bytes _ K) as [_ Hlt].
  eapply gc_write_barrier_spec in E; [|apply lookup_insert_eq].
  rewrite <-(same_counters vm) in E.
  destruct E as [[Hy ->]|(Hold & capacity & ->)]; simpl in *.
  - rewrite updated_young. apply young_store_ok; auto; lia.
  - rewrite updated_remembering by done.
    change (heap_ok (updated a (with_payload p (with_remembered true o))
      (fibers vm) (extend a o (remembered_set vm)) capacity (bytes_allocated vm) vm)).
    apply old_store_ok; auto; try lia.
    intros c _ _ i vs Hi. by destruct p.
Qed.

(** ** The stores *)

Lemma values_insert_ok vm values at_ v :
  value_ok vm v ->
  (forall c, c ∈ pointers values -> is_Some (objects vm !! c)) ->
  forall c, c ∈ pointers (<[at_ := v]> values) -> is_Some (objects vm !! c).
Proof.
  intros Hv Hvs c Hc. unfold pointers in Hc. apply list_elem_of_omap in Hc as (w & Hw & E).
  apply list_elem_of_lookup in Hw as [i Hi]. destruct (decide (i = at_)) as [->|Hne].
  - apply list_lookup_insert_Some in Hi as [(_ & <- & _)|(Hne & _)]; [by apply Hv|done].
  - rewrite list_lookup_insert_ne in Hi by done. apply Hvs. unfold pointers.
    apply list_elem_of_omap. exists w. split; [by eapply list_elem_of_lookup_2|done].
Qed.

Lemma children_ok vm a o c :
  heap_ok vm -> objects vm !! a = Some o ->
  c ∈ pointers (payload_values (fibers vm) (payload o)) -> is_Some (objects vm !! c).
Proof. intros K Ho. by apply (h_closed _ K a o Ho). Qed.

Lemma write_range_spec vm values start vs values' :
  Forall (value_ok vm) vs -> write_range values start vs = Some values' ->
  (forall c, c ∈ pointers values -> is_Some (objects vm !! c)) ->
  length values' = length values /\
  (forall j, ~ (start <= j < start + length vs)%nat -> values' !! j = values !! j) /\
  (forall c, c ∈ pointers values' -> is_Some (objects vm !! c)).
Proof.
  intros Hv. revert values start. induction Hv as [|v vs Hv Hvs IH]; intros values start E Hp.
  - injection E as <-. done.
  - cbn [write_range] in E. unfold array_write in E. destruct (_ <? _)%nat; [|done].
    apply IH in E as (Hl & Hs & Hp'); [|by apply values_insert_ok].
    split_and!; [by rewrite Hl, length_insert| |done].
    simpl. intros j Hj. rewrite Hs by lia. by rewrite list_lookup_insert_ne by lia.
Qed.

Lemma array_store_ok set_ok card_ok a i v vm vm' :
  heap_ok vm -> value_ok vm v ->
  array_store set_ok card_ok a i v vm = Some (true, vm') -> heap_ok vm'.
Proof.
  intros K Hv E. unfold array_store in E.
  destruct (objects vm !! a) as [o|] eqn:Ho; [|done].
  destruct (payload o) eqn:Ep; try done.
  unfold array_write in E. destruct (_ <? _)%nat eqn:El; [|done].
  pose proof (h_containers _ K a o Ho) as Hk. rewrite Ep in Hk. simpl in Hk.
  eapply (container_store_ok vm a o (ARRAY (<[i := v]> values) capacity cards)
    (fun j => j = i) (bytes_allocated vm)); try done; try (by rewrite Ep).
  - simpl. by rewrite length_insert.
  - simpl. intros j vs. rewrite Ep. simpl. rewrite !list_lookup_fmap.
    destruct (decide (j = i)) as [->|Hne]; [by left|right].
    by rewrite list_lookup_insert_ne in * by done.
  - simpl. apply values_insert_ok; [done|]. intros c Hc.
    apply (children_ok vm a o); [done|done|]. by rewrite Ep.
  - rewrite Ep. simpl. lia.
  - apply K.
  - rewrite same_counters. destruct (old o) eqn:Eo; [|left; by injection E as <-].
    eapply barrier_index_spec in E; [|apply lookup_insert_eq].
    destruct E as [[Hy _]|(_ & _ & cap & cs & -> & D1 & D2)]; [simpl in Hy; congruence|].
    right. split; [done|]. exists cap, cs. split; [done|]. split; [done|].
    intros c (j & -> & ->). by apply D2.
Qed.

Lemma array_store_range_ok set_ok card_ok a start vs vm vm' :
  heap_ok vm -> Forall (value_ok vm) vs ->
  array_store_range set_ok card_ok a start vs vm = Some (true, vm') -> heap_ok vm'.
Proof.
  intros K Hv E. unfold array_store_range in E.
  destruct (objects vm !! a) as [o|] eqn:Ho; [|done].
  destruct (payload o) eqn:Ep; try done.
  destruct (write_range values start vs) as [values'|] eqn:Ew; [|done].
  destruct (write_range_spec vm values start vs values') as (Hl & Hs & Hp); [done|done|..].
  { intros c Hc. apply (children_ok vm a o); [done|done|]. by rewrite Ep. }
  pose proof (h_containers _ K a o Ho) as Hk. rewrite Ep in Hk. simpl in Hk.
  eapply (container_store_ok vm a o (ARRAY values' capacity cards)
    (fun j => start <= j < start + length vs)%nat (bytes_allocated vm));
    try done; try (by rewrite Ep).
  - simpl. by rewrite Hl.
  - simpl. intros j ws. rewrite Ep. simpl. rewrite !list_lookup_fmap.
    destruct (decide (start <= j < start + length vs)%nat) as [?|Hne]; [by left|right].
    by rewrite Hs in * by done.
  - rewrite Ep. simpl. lia.
  - apply K.
  - rewrite same_counters.
    eapply barrier_range_spec in E; [|apply lookup_insert_eq|done].
    destruct E as [[Hy ->]|(Hold & cap & cs & -> & D)]; [by left|right].
    split; [done|]. by exists cap, cs.
Qed.

Lemma to_u64_exact z : 0 <= z < two_64 -> to_u64 z = z.
Proof. apply to_u64_small. Qed.

(** The bytes an [array_push] that grows adds. *)
Definition push_growth (values : list Value) (capacity : nat) : Z :=
  if (length values =? capacity)%nat then
    Z.of_nat ((if capacity <? 8 then 8 else capacity * 2) - capacity)%nat *
      sizeof DiamondValue_t
  else 0.

Lemma array_push_ok grow_ok set_ok card_ok a v vm vm' o values capacity cards :
  heap_ok vm -> value_ok vm v ->
  objects vm !! a = Some o -> payload o = ARRAY values capacity cards ->
  bytes_allocated vm + push_growth values capacity < two_64 ->
  array_push grow_ok set_ok card_ok a v vm = Some (true, vm') -> heap_ok vm'.
Proof.
  intros K Hv Ho Ep Hb E. unfold array_push in E. rewrite Ho, Ep in E.
  destruct (_ && _); [done|]. cbv zeta in E.
  pose proof (h_containers _ K a o Ho) as Hk. rewrite Ep in Hk. simpl in Hk.
  pose proof (h_bytes _ K) as [Hbe _]. pose proof (heap_bytes_nonneg (objects vm)).
  pose proof (sizeof_positive DiamondValue_t) as Hsz. unfold push_growth in Hb.
  set (cap := if (length values =? capacity)%nat then _ else capacity) in E.
  assert (Hcap : (capacity <= cap /\ length values < cap)%nat).
  { unfold cap. destruct (Nat.eqb_spec (length values) capacity); [|lia].
    destruct (Nat.ltb_spec capacity 8); lia. }
  assert (Hgrow : Z.of_nat (cap - capacity) * sizeof DiamondValue_t =
    if (length values =? capacity)%nat then
      Z.of_nat ((if capacity <? 8 then 8 else capacity * 2) - capacity)%nat *
        sizeof DiamondValue_t else 0).
  { unfold cap. destruct (_ =? _)%nat; [done|]. by rewrite Nat.sub_diag. }
  rewrite <-Hgrow in Hb.
  assert (Hpos : 0 <= Z.of_nat (cap - capacity) * sizeof DiamondValue_t) by nia.
  set (g := Z.of_nat (cap - capacity) * sizeof DiamondValue_t) in *.
  assert (Eg : g = Z.of_nat cap * sizeof DiamondValue_t -
    Z.of_nat capacity * sizeof DiamondValue_t) by (unfold g; nia).
  rewrite to_u64_small in E by lia. clearbody cap g.
  eapply (container_store_ok vm a o (ARRAY (values ++ [v]) cap cards)
    (fun j => j = length values) (bytes_allocated vm + g)); try done; try (by rewrite Ep).
  - simpl. rewrite length_app. simpl. lia.
  - simpl. intros j ws. rewrite Ep. simpl. rewrite fmap_app.
    destruct (decide (j < length values)%nat) as [Hlt|Hge].
    + rewrite lookup_app_l by (by rewrite length_fmap). by right.
    + rewrite lookup_app_r by (rewrite length_fmap; lia). rewrite length_fmap. simpl.
      intros Hj. left. apply lookup_lt_Some in Hj. simpl in Hj. lia.
  - simpl. intros c. unfold pointers. rewrite omap_app, elem_of_app. intros [Hc|Hc].
    + apply (children_ok vm a o); [done|done|]. by rewrite Ep.
    + apply list_elem_of_omap in Hc as (w & ->%list_elem_of_singleton & Hw). by apply Hv.
  - rewrite Ep. simpl. lia.
  - eapply barrier_index_spec in E; [|apply lookup_insert_eq].
    destruct E as [[Hy ->]|(Hold & _ & cp & cs & -> & D1 & D2)]; [by left|right].
    split; [done|]. exists cp, cs. split; [done|]. split; [done|].
    intros c (j & -> & ->). by apply D2.
Qed.

(** A store that fails before it writes leaves the VM alone; one that writes
    keeps the heap well formed unless its barrier failed. *)
Lemma barrier_status_ok r status vm vm' :
  heap_ok vm -> barrier_status r = Some (status, vm') -> status <> STORE_OUT_OF_MEMORY ->
  (r = Some (true, vm') -> heap_ok vm') -> heap_ok vm'.
Proof.
  intros K E Hs Hr. unfold barrier_status in E. destruct r as [[[] vm1]|]; try done;
    injection E as <- <-; [by apply Hr|done].
Qed.

Lemma cell_store_ok set_ok r v vm status vm' :
  heap_ok vm -> value_ok vm v -> cell_store set_ok r v vm = Some (status, vm') ->
  status <> STORE_OUT_OF_MEMORY -> heap_ok vm'.
Proof.
  intros K Hv E Hst. unfold cell_store in E.
  destruct r as [| | | |[a|]| |]; try done; try (by injection E as <- <-).
  destruct (objects vm !! a) as [o|] eqn:Ho; [|done].
  destruct (payload o) eqn:Ep; try (by injection E as <- <-).
  eapply barrier_status_ok; [done|done|done|]. clear E. intros E.
  eapply (plain_store_ok set_ok vm a o (CELL v)); try done; rewrite ?Ep; try done.
  intros c Hc. simpl in Hc. unfold pointers in Hc. simpl in Hc. apply Hv.
  destruct (pointer v); [|by apply elem_of_nil in Hc].
  by apply list_elem_of_singleton in Hc as ->.
Qed.

Lemma set_ivar_ok set_ok r field v vm status vm' :
  heap_ok vm -> value_ok vm v -> set_ivar set_ok r field v vm = Some (status, vm') ->
  status <> STORE_OUT_OF_MEMORY -> heap_ok vm'.
Proof.
  intros K Hv E Hst. unfold set_ivar in E.
  destruct r as [| | | |[a|]| |]; try done; try (by injection E as <- <-).
  destruct (objects vm !! a) as [o|] eqn:Ho; [|done].
  destruct (payload o) eqn:Ep; try (by injection E as <- <-).
  destruct (frozen o); [by injection E as <- <-|].
  destruct (_ <=? _)%nat; [by injection E as <- <-|].
  eapply barrier_status_ok; [done|done|done|]. clear E. intros E.
  eapply (plain_store_ok set_ok vm a o
    (INSTANCE type_parameter_count (<[field := v]> fields))); try done; rewrite ?Ep; try done.
  - intros c Hc. simpl in Hc. eapply values_insert_ok; [exact Hv| |exact Hc].
    intros b Hb. apply (children_ok vm a o); [done|done|]. by rewrite Ep.
  - simpl. by rewrite length_insert.
Qed.

Lemma updated_native a o fs set capacity vm :
  set_object a o (with_remembered_set set capacity (with_native fs (released vm) vm)) =
  updated a o fs set capacity (bytes_allocated vm) vm.
Proof. done. Qed.

(** The fiber written back by a resume: its values are in the heap, and it is
    neither running nor queued any more. *)
Lemma fiber_store_ok set_ok a f vm vm' id o :
  heap_ok vm -> objects vm !! a = Some o -> payload o = FIBER (Some id) ->
  id ∉ pinned_fibers vm -> Forall (value_ok vm) (fiber_values f) ->
  fiber_store set_ok a f vm = Some (true, vm') -> heap_ok vm'.
Proof.
  intros K Ho Ep Hpin Hv E. unfold fiber_store in E. rewrite Ho, Ep in E.
  pose proof (h_bytes _ K) as [_ Hlt]. destruct (extend_ok vm a o K Ho) as [Hnd Hin].
  assert (Hval : forall c, c ∈ children (<[id := f]> (fibers vm)) o ->
    is_Some (objects vm !! c)).
  { intros c. unfold children. rewrite Ep. simpl. rewrite lookup_insert_eq. simpl.
    unfold pointers. rewrite list_elem_of_omap. intros (v & Hv' & Ec).
    rewrite Forall_forall in Hv. by apply (Hv v). }
  assert (Hother : forall j, payload o <> FIBER (Some j) ->
    <[id := f]> (fibers vm) !! j = fibers vm !! j)
    by (intros j Hj; apply lookup_insert_ne; congruence).
  assert (Hpinned : forall j, j ∈ pinned_fibers vm ->
    <[id := f]> (fibers vm) !! j = fibers vm !! j)
    by (intros j Hj; apply lookup_insert_ne; congruence).
  eapply (gc_write_barrier_spec set_ok a o) in E; [|done].
  destruct E as [[Hy ->]|(Hold & capacity & ->)].
  - rewrite <-(set_object_id a o (with_native _ _ vm)) by done.
    change (heap_ok (updated a o (<[id := f]> (fibers vm)) (remembered_set vm)
      (remembered_capacity vm) (bytes_allocated vm) vm)).
    pose proof (young_unremembered vm a o K Ho Hy) as Hr.
    apply (heap_ok_update vm a o); [done|done|]. split; try done.
    + by eapply unmarked_object.
    + rewrite Ep. simpl. rewrite lookup_insert_eq. eauto.
    + by rewrite Ep.
    + apply K.
    + intros b. rewrite Hr. split; [|naive_solver]. intros Hb. left. split; [|done].
      intros ->. apply (h_remembered _ K) in Hb as (q & Hq & Hrq). congruence.
    + congruence.
    + intros c. congruence.
    + lia.
  - unfold remembering. cbn [remembered_set with_native]. rewrite updated_native.
    apply (heap_ok_update vm a o); [done|done|]. split; try done; simpl.
    + by eapply unmarked_object.
    + rewrite Ep. simpl. rewrite lookup_insert_eq. eauto.
    + by rewrite Ep.
    + intros b. rewrite Hin. naive_solver.
    + intros c _ _ _. split; [done|]. rewrite Ep. intros i vs Hi. done.
    + lia.
Qed.

(** The barrier on an object of a well-formed heap keeps it well formed. *)
Lemma barrier_ok set_ok a o vm vm' :
  heap_ok vm -> objects vm !! a = Some o -> plain (payload o) ->
  is_container (payload o) = false ->
  gc_write_barrier set_ok a vm = Some (true, vm') -> heap_ok vm'.
Proof.
  intros K Ho Hp Hnc E.
  apply (plain_store_ok set_ok vm a o (payload o) vm'); try done.
  - by apply (h_containers _ K a).
  - intros c Hc. by apply (children_ok vm a o).
  - by rewrite with_payload_id, set_object_id.
Qed.

Lemma thread_store_ok set_ok a v vm vm' :
  heap_ok vm -> value_ok vm v -> thread_store set_ok a v vm = Some (true, vm') -> heap_ok vm'.
Proof.
  intros K Hv E. unfold thread_store in E.
  destruct (objects vm !! a) as [o|] eqn:Ho; [|done].
  destruct (payload o) eqn:Ep; try done. destruct thread as [t|]; [|done].
  set (w := fun j => thread_with t j v).
  destruct (gc_write_barrier _ _ _) as [[[] vm1]|] eqn:Eb; try done.
  assert (Hw : forall j c, c ∈ pointers (payload_values (fibers vm) (w j)) ->
    is_Some (objects vm !! c)).
  { intros j c. simpl. destruct (_ && _); [|intros Hc; by apply elem_of_nil in Hc].
    unfold pointers. simpl. intros Hc. apply Hv.
    destruct (pointer v); [|by apply elem_of_nil in Hc].
    by apply list_elem_of_singleton in Hc as ->. }
  (* the two writes and the barrier, as one store of the final payload *)
  assert (Hone : gc_write_barrier set_ok a (set_object a (with_payload (w true) o) vm) =
    Some (true, vm')).
  { revert Eb E. unfold gc_write_barrier, remember_once, remember, set_object. simpl.
    rewrite !lookup_insert_eq. simpl. intros Eb E.
    destruct (old o); [destruct (remembered o);
      [|destruct (_ =? _)%nat; [destruct set_ok|]]|]; simpl in *; try done;
      injection Eb as <-; simpl in E; rewrite lookup_insert_eq in E; injection E as <-;
      unfold with_objects, with_remembered_set, with_payload, with_remembered; simpl;
      by rewrite !insert_insert_eq. }
  eapply (plain_store_ok set_ok vm a o (w true)); try done; rewrite ?Ep; try done.
  apply Hw.
Qed.
End Stores.
