(* ===== verification/GcHash.v ===== *)
(** * GcHash: Hashes in the heap

    [hash_set] and [hash_delete] of src/vm_values.c on a Hash object: the table
    of HashTable, the byte count, and the write barrier for the entry written
    or for every entry that moved. *)

From S2P Require Import Prelude GcHeap GcMark GcMarkOk GcSweep GcSweepOk GcInvariant.
From S2P Require Import GcBarrier GcMutator HashTable HashTableOk.
From Stdlib Require Import ZArith Lia Bool List.
From stdpp Require Import base numbers list gmap sets.

Local Open Scope Z_scope.
Local Open Scope c_scope.

Definition hash_of (entries : list HashEntry) (capacity : nat) (buckets : list (option nat))
    : DiamondHash :=
  {| HashTable.entries := entries; hash_capacity := capacity; HashTable.buckets := buckets |}.

Definition hash_payload (t : DiamondHash) (cards : option (list bool)) : Payload :=
  HASH (HashTable.entries t) (hash_capacity t) (HashTable.buckets t) cards.

Section GcHash.
Context `{Layout} `{KeyOps}.

(** The storage of a Hash besides its header. *)
Definition hash_storage (t : DiamondHash) : Z :=
  Z.of_nat (hash_capacity t) * sizeof DiamondHashEntry_t +
  Z.of_nat (length (HashTable.buckets t)) * sizeof size_t.

(** The Hash at [a] becomes [t]: entries, buckets and [bytes_allocated]. *)
Definition hash_replace (a : Addr) (o : Object) (t t' : DiamondHash)
    (cards : option (list bool)) (vm : Vm) : Vm :=
  set_object a (with_payload (hash_payload t' cards) o)
    (with_counters (to_u64 (bytes_allocated vm + (hash_storage t' - hash_storage t)))
      (next_gc vm) (bytes_allocated_at_last_minor_gc vm) vm).

(** [hash_set] of src/vm_values.c. *)
Definition gc_hash_set (realloc_ok malloc_ok set_ok card_ok : bool) (a : Addr) (k v : Value)
    (vm : Vm) : option (bool * Vm) :=
  let? o := objects vm !! a in
  match payload o with
  | HASH entries capacity buckets cards =>
      let t := hash_of entries capacity buckets in
      let? (r, t') := hash_set realloc_ok malloc_ok k v t in
      let vm := hash_replace a o t t' cards vm in
      match r with
      | Stored index => gc_write_barrier_index set_ok card_ok a index vm
      | SetFailed => Some (false, vm)
      end
  | _ => None
  end.

(** [hash_delete] of src/vm_values.c: its result, [*found] and [*removed]. *)
Definition gc_hash_delete (malloc_ok set_ok : bool) (card_ok : nat -> bool) (a : Addr)
    (k : Value) (vm : Vm) : option (bool * option Value * Vm) :=
  let? o := objects vm !! a in
  match payload o with
  | HASH entries capacity buckets cards =>
      let t := hash_of entries capacity buckets in
      let? (r, t') := hash_delete malloc_ok k t in
      let vm := hash_replace a o t t' cards vm in
      match r with
      | Absent => Some (true, None, vm)
      | DeleteFailed removed => Some (false, Some removed, vm)
      | Removed removed index =>
          let? (ok, vm) := gc_write_barrier_range set_ok card_ok a index
            (length (HashTable.entries t') - index) vm in
          Some (ok, Some removed, vm)
      end
  | _ => None
  end.

(** ** Both keep the heap well formed *)

Lemma hash_storage_size t t' cards cards' :
  object_size (hash_payload t' cards') - object_size (hash_payload t cards) =
  hash_storage t' - hash_storage t.
Proof. unfold hash_storage. simpl. lia. Qed.

(** Growth steps only move entries to larger storage. *)
Lemma grow_entries_entries realloc_ok t ok t' :
  grow_entries realloc_ok t = (ok, t') -> HashTable.entries t' = HashTable.entries t /\
  (hash_capacity t <= hash_capacity t')%nat.
Proof.
  unfold grow_entries. destruct (_ =? _)%nat; [|by intros [= <- <-]].
  destruct realloc_ok; intros [= <- <-]; [|done]. cbn [HashTable.entries hash_capacity].
  split; [done|]. destruct (Nat.ltb_spec (hash_capacity t) 8); lia.
Qed.

Lemma hash_rehash_entries malloc_ok n t ok t' :
  hash_rehash malloc_ok n t = Some (ok, t') -> HashTable.entries t' = HashTable.entries t /\
  hash_capacity t' = hash_capacity t.
Proof.
  unfold hash_rehash. destruct malloc_ok; simpl.
  - destruct (fill_buckets _ _ _); [|done]. by intros [= <- <-].
  - by intros [= <- <-].
Qed.

Lemma grow_buckets_entries malloc_ok t ok t' :
  grow_buckets malloc_ok t = Some (ok, t') -> HashTable.entries t' = HashTable.entries t /\
  hash_capacity t' = hash_capacity t.
Proof.
  unfold grow_buckets. destruct (_ || _); [apply hash_rehash_entries|by intros [= <- <-]].
Qed.

(** What [hash_set] does to the entries, whatever the keys. *)
Lemma hash_set_entries realloc_ok malloc_ok k v t r t' :
  hash_set realloc_ok malloc_ok k v t = Some (r, t') ->
  (length (HashTable.entries t) <= hash_capacity t)%nat ->
  (length (HashTable.entries t') <= hash_capacity t')%nat /\
  match r with
  | SetFailed => HashTable.entries t' = HashTable.entries t
  | Stored i =>
      HashTable.entries t' = alter (with_value v) i (HashTable.entries t) \/
      i = length (HashTable.entries t) /\ HashTable.entries t' = HashTable.entries t ++
        [{| key := k; value := v; hash := hash_value k |}]
  end.
Proof.
  unfold hash_set. intros E Hc. destruct (hash_find t k) as [[i|]|]; [| |done].
  { injection E as <- <-. cbn [HashTable.entries hash_capacity with_entries].
    rewrite length_alter. split; [done|by left]. }
  assert (Hroom : forall ok t1, grow_entries realloc_ok t = (ok, t1) -> ok = true ->
    (length (HashTable.entries t1) < hash_capacity t1)%nat).
  { intros ok t1 E1 ->. unfold grow_entries in E1.
    destruct (Nat.eqb_spec (length (HashTable.entries t)) (hash_capacity t)) as [El|El].
    - destruct realloc_ok; [|done]. injection E1 as <-.
      cbn [HashTable.entries hash_capacity].
      destruct (Nat.ltb_spec (hash_capacity t) 8); lia.
    - injection E1 as <-. lia. }
  destruct (grow_entries realloc_ok t) as [ok1 t1] eqn:E1.
  destruct (grow_entries_entries _ _ _ _ E1) as [Ee1 Hcap1].
  specialize (Hroom ok1 t1 eq_refl). destruct ok1; [|injection E as <- <-; rewrite Ee1; split; [lia|done]].
  specialize (Hroom eq_refl).
  destruct (grow_buckets malloc_ok t1) as [[ok2 t2]|] eqn:E2; [|done].
  destruct (grow_buckets_entries _ _ _ _ E2) as [Ee2 Ec2].
  destruct ok2; simpl in E; [|injection E as <- <-; rewrite Ee2, Ec2; split; [lia|by rewrite Ee1]].
  destruct (bucket_insert _ _ _) as [bs|]; [|done]. injection E as <- <-.
  cbn [HashTable.entries hash_capacity with_entries with_buckets].
  rewrite length_app, Ee2, Ec2. simpl. split; [lia|right]. by rewrite Ee1.
Qed.

Lemma entries_pointers_ok vm a o es cap bs cards :
  heap_ok vm -> objects vm !! a = Some o -> payload o = HASH es cap bs cards ->
  forall e c, e ∈ es -> c ∈ pointers (entry_values e) -> is_Some (objects vm !! c).
Proof.
  intros K Ho Ep e c He Hc. apply (children_ok vm a o); [done|done|]. rewrite Ep.
  simpl. eapply pointers_subset; [|exact Hc]. intros v Hv.
  apply list_elem_of_bind. by exists e.
Qed.

Lemma entry_ok_of vm k v h c :
  value_ok vm k -> value_ok vm v ->
  c ∈ pointers (entry_values {| key := k; value := v; hash := h |}) -> is_Some (objects vm !! c).
Proof.
  intros Hk Hv Hc. unfold pointers in Hc. apply list_elem_of_omap in Hc as (w & Hw & E).
  simpl in Hw. apply elem_of_cons in Hw as [->|Hw%list_elem_of_singleton]; [by apply Hk|].
  subst. by apply Hv.
Qed.

(** The Hash at [a] with new entries that differ in the slots [T] only, each
    holding values of the heap, then a barrier over [T]. *)
Lemma hash_store_ok vm a o es cap bs cards t' (T : nat -> Prop) vm' :
  heap_ok vm -> objects vm !! a = Some o -> payload o = HASH es cap bs cards ->
  (length (HashTable.entries t') <= hash_capacity t')%nat ->
  (forall i e, HashTable.entries t' !! i = Some e -> T i \/ es !! i = Some e) ->
  (forall e c, e ∈ HashTable.entries t' -> c ∈ pointers (entry_values e) ->
     is_Some (objects vm !! c)) ->
  bytes_allocated vm + (hash_storage t' - hash_storage (hash_of es cap bs)) < two_64 ->
  let vm1 := hash_replace a o (hash_of es cap bs) t' cards vm in
  (old o = false /\ vm' = vm1) \/
  (old o = true /\ exists capacity cards',
     vm' = recarded a (with_remembered true (with_payload (hash_payload t' cards) o)) cards'
             (remembering a (with_payload (hash_payload t' cards) o) capacity vm1) /\
     dirtied cards cards' (fun c => exists i, T i /\ c = i / CARD_SIZE)%nat) ->
  heap_ok vm'.
Proof.
  intros K Ho Ep Hc Hs Hp Hb vm1 Hcase. pose proof (h_bytes _ K) as [Hbe _].
  assert (Hpos : 0 <= bytes_allocated vm +
    (hash_storage t' - hash_storage (hash_of es cap bs))).
  { rewrite <-(hash_storage_size _ _ cards cards).
    change (hash_payload (hash_of es cap bs) cards) with (HASH es cap bs cards).
    rewrite <-Ep, Hbe. pose proof (heap_bytes_delete _ _ _ Ho).
    pose proof (heap_bytes_nonneg (delete a (objects vm))).
    pose proof (object_size_positive (hash_payload t' cards)). lia. }
  unfold vm1, hash_replace in Hcase. rewrite to_u64_small in Hcase by lia.
  eapply (container_store_ok vm a o (hash_payload t' cards) T _ vm' K Ho);
    [by rewrite Ep|done|by rewrite Ep|done| | | |done|exact Hcase].
  - intros i vs. rewrite Ep. simpl. rewrite !list_lookup_fmap.
    destruct (HashTable.entries t' !! i) as [e|] eqn:Ee; [|done]. simpl. intros [= <-].
    destruct (Hs i e Ee) as [HT|Hes]; [by left|]. right. by rewrite Hes.
  - intros c Hin. simpl in Hin. unfold pointers in Hin.
    apply list_elem_of_omap in Hin as (w & Hw & E).
    apply list_elem_of_bind in Hw as (e & Hw & He). eapply Hp; [done|].
    unfold pointers. apply list_elem_of_omap. eauto.
  - rewrite Ep. pose proof (hash_storage_size (hash_of es cap bs) t' cards cards) as Hd.
    change (hash_payload (hash_of es cap bs) cards) with (HASH es cap bs cards) in Hd. lia.
Qed.

(** The bytes a [hash_set] may add: the grown entries and a doubled table. *)
Definition set_growth (t : DiamondHash) : Z :=
  Z.of_nat (Nat.max 8 (hash_capacity t * 2)) * sizeof DiamondHashEntry_t +
  Z.of_nat (Nat.max 8 (length (HashTable.buckets t) * 2)) * sizeof size_t.

Lemma array_write_length {A} (l : list A) i x l' :
  array_write l i x = Some l' -> length l' = length l.
Proof.
  unfold array_write. destruct (_ <? _)%nat; [|done]. intros [= <-]. apply length_insert.
Qed.

Lemma bucket_insert_length h i bs bs' :
  bucket_insert h i bs = Some bs' -> length bs' = length bs.
Proof.
  unfold bucket_insert. destruct (free_bucket _ _ _); [|done]. apply array_write_length.
Qed.

Lemma fill_buckets_length es i bs bs' :
  fill_buckets es i bs = Some bs' -> length bs' = length bs.
Proof.
  revert i bs. induction es as [|e es IH]; intros i bs; cbn [fill_buckets].
  - by intros [= <-].
  - destruct (bucket_insert _ _ _) as [b1|] eqn:E1; [|done]. intros E%IH.
    by rewrite E, (bucket_insert_length _ _ _ _ E1).
Qed.

Lemma hash_rehash_length malloc_ok n t ok t' :
  hash_rehash malloc_ok n t = Some (ok, t') ->
  length (HashTable.buckets t') = if ok then n else length (HashTable.buckets t).
Proof.
  unfold hash_rehash. destruct malloc_ok; simpl; [|by intros [= <- <-]].
  destruct (fill_buckets _ _ _) as [bs|] eqn:E; [|done]. intros [= <- <-].
  simpl. by rewrite (fill_buckets_length _ _ _ _ E), length_replicate.
Qed.

Lemma hash_set_storage realloc_ok malloc_ok k v t r t' :
  hash_set realloc_ok malloc_ok k v t = Some (r, t') -> hash_storage t' <= set_growth t.
Proof.
  pose proof (sizeof_positive DiamondHashEntry_t). pose proof (sizeof_positive size_t).
  assert (Hle : forall c b, (c <= Nat.max 8 (hash_capacity t * 2))%nat ->
    (b <= Nat.max 8 (length (HashTable.buckets t) * 2))%nat ->
    Z.of_nat c * sizeof DiamondHashEntry_t + Z.of_nat b * sizeof size_t <= set_growth t)
    by (intros c b Hc Hb; unfold set_growth; nia).
  unfold hash_set. destruct (hash_find t k) as [[i|]|]; [| |done].
  { intros [= _ <-]. apply Hle; simpl; lia. }
  destruct (grow_entries realloc_ok t) as [ok1 t1] eqn:E1.
  assert (Hg1 : (hash_capacity t1 <= Nat.max 8 (hash_capacity t * 2))%nat /\
    HashTable.buckets t1 = HashTable.buckets t).
  { unfold grow_entries in E1. destruct (_ =? _)%nat; [|injection E1 as <- <-; split; [lia|done]].
    destruct realloc_ok; injection E1 as <- <-; cbn [hash_capacity HashTable.buckets];
      (split; [|done]); [|lia]. destruct (Nat.ltb_spec (hash_capacity t) 8); lia. }
  destruct Hg1 as [Hc1 Eb1]. destruct ok1; [|intros [= _ <-]; apply Hle; [done|rewrite Eb1; lia]].
  destruct (grow_buckets malloc_ok t1) as [[ok2 t2]|] eqn:E2; [|done].
  destruct (grow_buckets_entries _ _ _ _ E2) as [_ Ec2].
  assert (Hg2 : (length (HashTable.buckets t2) <=
    Nat.max 8 (length (HashTable.buckets t) * 2))%nat).
  { unfold grow_buckets in E2. rewrite Eb1 in E2. destruct (_ || _).
    - apply hash_rehash_length in E2. rewrite E2. destruct ok2; [|rewrite Eb1; lia].
      destruct (length (HashTable.buckets t) =? 0)%nat; lia.
    - injection E2 as <- <-. rewrite Eb1. lia. }
  destruct ok2; simpl negb; cbv iota; [|intros [= _ <-]; apply Hle; [by rewrite Ec2|done]].
  destruct (bucket_insert _ _ _) as [bs|] eqn:E3; [|done]. intros [= _ <-].
  apply bucket_insert_length in E3. cbn [HashTable.buckets with_entries] in E3.
  apply Hle; cbn [hash_capacity HashTable.buckets with_buckets with_entries];
    [by rewrite Ec2|by rewrite E3].
Qed.

(** A Hash left with the same entries and the same or larger storage. *)
Lemma hash_same_entries_ok vm a o es cap bs cards t' :
  heap_ok vm -> objects vm !! a = Some o -> payload o = HASH es cap bs cards ->
  HashTable.entries t' = es -> (length es <= hash_capacity t')%nat ->
  bytes_allocated vm + (hash_storage t' - hash_storage (hash_of es cap bs)) < two_64 ->
  heap_ok (hash_replace a o (hash_of es cap bs) t' cards vm).
Proof.
  intros K Ho Ep Ee Hc Hb. pose proof (h_bytes _ K) as [Hbe _].
  assert (Hsz : object_size (hash_payload t' cards) - object_size (payload o) =
    hash_storage t' - hash_storage (hash_of es cap bs)).
  { rewrite Ep. apply (hash_storage_size (hash_of es cap bs) t' cards cards). }
  pose proof (heap_bytes_delete _ _ _ Ho).
  pose proof (heap_bytes_nonneg (delete a (objects vm))).
  pose proof (object_size_positive (hash_payload t' cards)).
  unfold hash_replace. rewrite to_u64_small by lia. rewrite updated_young.
  apply (heap_ok_update vm a o); [done|done|].
  destruct (h_closed _ K a o Ho) as [Hf Hch].
  assert (Hkids : children (fibers vm) (with_payload (hash_payload t' cards) o) =
    children (fibers vm) o).
  { unfold children. simpl. by rewrite Ep, Ee. }
  split; cbn [old marked remembered payload with_payload hash_payload]; try done;
    rewrite ?Hkids.
  - by eapply unmarked_object.
  - intros c Hin. by apply Hch.
  - simpl. by rewrite Ee.
  - apply K.
  - intros b. destruct (decide (b = a)) as [->|Hne].
    + rewrite (h_remembered _ K a), Ho. naive_solver.
    + naive_solver.
  - by eapply h_remembered_old.
  - intros c Hold Hin Hy. destruct (h_barrier _ K a o c Ho Hold Hin Hy) as [Hr Hcov].
    split; [done|]. rewrite Ep in Hcov. intros i vs Hi Hcv. simpl in Hi.
    rewrite Ee in Hi. by apply (Hcov i vs).
  - lia.
Qed.

Lemma alter_entry_ok vm (es : list HashEntry) (i : nat) v :
  value_ok vm v ->
  (forall e c, e ∈ es -> c ∈ pointers (entry_values e) -> is_Some (objects vm !! c)) ->
  forall e c, e ∈ alter (with_value v) i es -> c ∈ pointers (entry_values e) ->
    is_Some (objects vm !! c).
Proof.
  intros Hv Hes e c He Hc. apply list_elem_of_lookup in He as [j Hj].
  rewrite list_lookup_alter in Hj. destruct (decide (i = j)) as [<-|Hne].
  - destruct (es !! i) as [f|] eqn:Ef; [|done]. injection Hj as <-.
    apply (entry_ok_of vm (key f) v (hash f) c); [|done|done].
    intros b Hb. apply (Hes f); [by eapply list_elem_of_lookup_2|].
    unfold pointers. simpl. rewrite Hb. constructor.
  - apply (Hes e); [by eapply list_elem_of_lookup_2|done].
Qed.

(** [hash_set] keeps the heap well formed unless its barrier fails. *)
Lemma gc_hash_set_ok realloc_ok malloc_ok set_ok card_ok a k v vm vm' o es cap bs cards :
  heap_ok vm -> value_ok vm k -> value_ok vm v ->
  objects vm !! a = Some o -> payload o = HASH es cap bs cards ->
  bytes_allocated vm + set_growth (hash_of es cap bs) < two_64 ->
  gc_hash_set realloc_ok malloc_ok set_ok card_ok a k v vm = Some (true, vm') -> heap_ok vm'.
Proof.
  intros K Hk Hv Ho Ep Hb E. unfold gc_hash_set in E. rewrite Ho, Ep in E.
  destruct (hash_set realloc_ok malloc_ok k v (hash_of es cap bs)) as [[r t']|] eqn:Es; [|done].
  pose proof (hash_set_storage _ _ _ _ _ _ _ Es) as Hst.
  assert (Hpos : 0 <= hash_storage (hash_of es cap bs)).
  { unfold hash_storage. pose proof (sizeof_positive DiamondHashEntry_t).
    pose proof (sizeof_positive size_t). nia. }
  pose proof (h_containers _ K a o Ho) as Hc. rewrite Ep in Hc. simpl in Hc.
  destruct (hash_set_entries _ _ _ _ _ _ _ Es Hc) as [Hc' Hr].
  pose proof (entries_pointers_ok vm a o es cap bs cards K Ho Ep) as Hes.
  destruct r as [i|]; [|done].
  eapply (hash_store_ok vm a o es cap bs cards t' (fun j => j = i)); try done.
  - cbn [HashTable.entries hash_of] in Hr. intros j e Hj. destruct Hr as [Hr|[-> Hr]];
      rewrite Hr in Hj.
    + rewrite list_lookup_alter in Hj. destruct (decide (i = j)) as [<-|]; auto.
    + apply lookup_app_Some in Hj as [Hj|[Hle Hj]]; [by right|left].
      apply list_lookup_singleton_Some in Hj as [Hj _]. lia.
  - cbn [HashTable.entries hash_of] in Hr. intros e c He Hin. destruct Hr as [Hr|[-> Hr]];
      rewrite Hr in He.
    + by eapply alter_entry_ok.
    + apply elem_of_app in He as [He|He%list_elem_of_singleton]; [by eapply Hes|].
      subst. by apply (entry_ok_of vm k v (hash_value k)).
  - lia.
  - eapply barrier_index_spec in E; [|apply lookup_insert_eq].
    destruct E as [[Hy ->]|(Hold & _ & cp & cs & -> & D1 & D2)]; [by left|right].
    split; [done|]. exists cp, cs. split; [done|]. split; [done|].
    intros c (j & -> & ->). by apply D2.
Qed.

(** [hash_delete] keeps the heap well formed when it reports success. *)
Lemma gc_hash_delete_ok malloc_ok set_ok card_ok a k removed vm vm' :
  heap_ok vm ->
  gc_hash_delete malloc_ok set_ok card_ok a k vm = Some (true, removed, vm') -> heap_ok vm'.
Proof.
  intros K E. unfold gc_hash_delete in E.
  destruct (objects vm !! a) as [o|] eqn:Ho; [|done].
  destruct (payload o) as [| | | | | |es cap bs cards| | | | | | | | | | | | | | | | | | | | |]
    eqn:Ep; try done.
  pose proof (h_containers _ K a o Ho) as Hc. rewrite Ep in Hc. simpl in Hc.
  pose proof (entries_pointers_ok vm a o es cap bs cards K Ho Ep) as Hes.
  pose proof (h_bytes _ K) as [_ Hlt].
  unfold hash_delete in E. destruct (hash_find (hash_of es cap bs) k) as [[i|]|]; [| |done].
  - unfold array_read in E. cbn [HashTable.entries HashTable.buckets hash_of with_entries] in E.
    destruct (es !! i) as [e|] eqn:Ee; [|done].
    destruct (hash_rehash malloc_ok (length bs) _) as [[ok t']|] eqn:Er; [|done].
    destruct (hash_rehash_entries _ _ _ _ _ Er) as [Ee' Ec'].
    pose proof (hash_rehash_length _ _ _ _ _ Er) as El.
    cbn [HashTable.entries HashTable.buckets hash_capacity hash_of with_entries] in *.
    destruct ok; [|done].
    destruct (gc_write_barrier_range _ _ _ _ _ _) as [[[] vm1]|] eqn:Eb; [|done..].
    injection E as <- <-. pose proof (length_delete_le es i) as Hd.
    assert (Hst : hash_storage t' = hash_storage (hash_of es cap bs)).
    { unfold hash_storage. simpl. by rewrite Ec', El. }
    eapply (hash_store_ok vm a o es cap bs cards t'
      (fun j => i <= j < i + (length (delete i es) - i))%nat); try done.
    + rewrite Ee', Ec'. simpl. lia.
    + intros j f Hj. rewrite Ee' in Hj. pose proof (lookup_lt_Some _ _ _ Hj).
      destruct (decide (j < i)%nat).
      * right. by rewrite list_lookup_delete_lt in Hj.
      * left. lia.
    + intros f c Hf Hin. rewrite Ee' in Hf. apply list_elem_of_lookup in Hf as [j Hj].
      apply delete_lookup in Hj. eapply Hes; [by eapply list_elem_of_lookup_2|done].
    + rewrite Hst. lia.
    + eapply barrier_range_spec in Eb; [|apply lookup_insert_eq|done]. rewrite Ee' in Eb.
      destruct Eb as [[Hy ->]|(Hold & cp & cs & -> & D)]; [by left|right].
      split; [done|]. exists cp, cs. by split.
  - injection E as _ <-. apply hash_same_entries_ok; try done. lia.
Qed.

(** The value removed is still an object of the heap. *)
Lemma gc_hash_delete_removed malloc_ok set_ok card_ok a k v vm vm' c :
  heap_ok vm ->
  gc_hash_delete malloc_ok set_ok card_ok a k vm = Some (true, Some v, vm') ->
  pointer v = Some c -> is_Some (objects vm' !! c).
Proof.
  intros K E Hv. unfold gc_hash_delete in E.
  destruct (objects vm !! a) as [o|] eqn:Ho; [|done].
  destruct (payload o) as [| | | | | |es cap bs cards| | | | | | | | | | | | | | | | | | | | |]
    eqn:Ep; try done.
  pose proof (entries_pointers_ok vm a o es cap bs cards K Ho Ep) as Hes.
  unfold hash_delete in E. destruct (hash_find (hash_of es cap bs) k) as [[i|]|]; [|done..].
  unfold array_read in E. cbn [HashTable.entries HashTable.buckets hash_of with_entries] in E.
  destruct (es !! i) as [e|] eqn:Ee; [|done].
  destruct (hash_rehash malloc_ok (length bs) _) as [[[] t']|] eqn:Er; [|done..].
  destruct (gc_write_barrier_range _ _ _ _ _ _) as [[ok vm1]|] eqn:Eb; [|done].
  injection E as -> <- <-.
  assert (Hc : is_Some (objects vm !! c)).
  { apply (Hes e); [by eapply list_elem_of_lookup_2|].
    unfold pointers, entry_values. apply list_elem_of_omap. exists (value e).
    split; [repeat constructor|done]. }
  destruct (decide (c = a)) as [->|Hne].
  - eapply barrier_range_spec in Eb; [|apply lookup_insert_eq|].
    + destruct Eb as [[_ ->]|(_ & cp & cs & -> & _)]; simpl; rewrite ?lookup_insert_eq; eauto.
    + done.
  - eapply barrier_range_spec in Eb; [|apply lookup_insert_eq|].
    + destruct Eb as [[_ ->]|(_ & cp & cs & -> & _)]; simpl; rewrite ?lookup_insert_ne by done; eauto.
    + done.
Qed.
End GcHash.
