(* ===== verification/GcAlloc.v ===== *)
(** * GcAlloc: the allocators of src/vm.c

    Every allocator takes a block, from the pool its size belongs to or from
    [malloc], initialises the object, links it at the head of
    [vm->young_objects] and adds its size to [bytes_allocated].  The collection
    check each of them starts with ([maybe_collect]) is a step of its own. *)

From S2P Require Import Prelude GcHeap GcMark GcMarkOk GcSweep GcSweepOk GcInvariant.
From S2P Require Import GcBarrier GcMutator.
From Stdlib Require Import ZArith Lia Bool List SpecFloat.
From stdpp Require Import base numbers list gmap sets.

Local Open Scope Z_scope.
Local Open Scope c_scope.

Section Alloc.
Context `{Layout}.

(** A block of [pool] if it has one, else what [malloc] returns. *)
Definition take_block (pool : option Pool) (malloc : option Addr) (vm : Vm)
    : option Addr * Vm :=
  match pool with
  | Some q =>
      match pools vm !! q with
      | Some (block :: next) =>
          (Some block,
           with_pools (to_u64 (pool_bytes vm - block_size q)) (<[q := next]> (pools vm)) vm)
      | _ => (malloc, vm)
      end
  | None => (malloc, vm)
  end.

(** A new object: every header bit clear. *)
Definition fresh_object (p : Payload) : Object :=
  {| marked := false; old := false; remembered := false; frozen := false; payload := p |}.

(** [vm->young_objects=&object; vm->bytes_allocated+=size] *)
Definition link_young (p : Payload) (a : Addr) (vm : Vm) : Vm :=
  with_counters (to_u64 (bytes_allocated vm + object_size p)) (next_gc vm)
    (bytes_allocated_at_last_minor_gc vm)
    (with_lists (a :: young_objects vm) (old_objects vm)
      (set_object a (fresh_object p) vm)).

Definition allocate (pool : option Pool) (p : Payload) (malloc : option Addr) (vm : Vm)
    : option Addr * Vm :=
  match take_block pool malloc vm with
  | (None, vm) => (None, vm)
  | (Some a, vm) => (Some a, link_young p a vm)
  end.

Definition allocate_string (chars : list Z) : option Addr -> Vm -> option Addr * Vm :=
  allocate (STRING_POOL <$> string_pool_index (length chars)) (STRING chars).

Definition allocate_symbol (chars : list Z) : option Addr -> Vm -> option Addr * Vm :=
  allocate None (SYMBOL chars).

Definition allocate_instance (field_count type_parameter_count : nat)
    : option Addr -> Vm -> option Addr * Vm :=
  let generic := negb (type_parameter_count =? 0)%nat in
  allocate (INSTANCE_POOL <$> instance_pool_index field_count generic)
    (INSTANCE type_parameter_count (replicate field_count VALUE_NIL)).

(** [allocate_array]; [values_ok] is the outcome of the second [malloc], the
    one for the elements.  When it fails the header is freed. *)
Definition allocate_array (values : list Value) (values_ok : bool) (malloc : option Addr)
    (vm : Vm) : option Addr * Vm :=
  match take_block (Some ARRAY_POOL) malloc vm with
  | (None, vm) => (None, vm)
  | (Some a, vm) =>
      if (0 <? length values)%nat && negb values_ok then (None, vm)
      else (Some a, link_young (ARRAY values (length values) None) a vm)
  end.

Definition allocate_hash : option Addr -> Vm -> option Addr * Vm :=
  allocate None (HASH [] 0 [] None).

(** [captures==nullptr] gives nils. *)
Definition allocate_closure (captures : option (list Value)) (count : nat)
    : option Addr -> Vm -> option Addr * Vm :=
  allocate None (CLOSURE (default (replicate count VALUE_NIL) captures) 0).

Definition allocate_cell (v : Value) : option Addr -> Vm -> option Addr * Vm :=
  allocate None (CELL v).

Definition allocate_fiber_handle (fiber : FiberId) : option Addr -> Vm -> option Addr * Vm :=
  allocate None (FIBER (Some fiber)).

Definition allocate_thread_handle (thread : DiamondThread)
    : option Addr -> Vm -> option Addr * Vm :=
  allocate None (THREAD (Some thread)).

Definition allocate_channel_handle (channel : Z) : option Addr -> Vm -> option Addr * Vm :=
  allocate None (CHANNEL channel).

Definition allocate_supervisor_handle (supervisor : Z)
    : option Addr -> Vm -> option Addr * Vm :=
  allocate None (SUPERVISOR supervisor).

Definition allocate_file_handle (stream : Z) : option Addr -> Vm -> option Addr * Vm :=
  allocate None (FILE (Some stream) None).

Definition allocate_listener_handle (fd : Z) : option Addr -> Vm -> option Addr * Vm :=
  allocate None (LISTENER fd None).

Definition allocate_socket_handle (fd : Z) : option Addr -> Vm -> option Addr * Vm :=
  allocate None (SOCKET fd).

Definition allocate_udp_socket_handle (fd : Z) : option Addr -> Vm -> option Addr * Vm :=
  allocate None (UDP_SOCKET fd).

Definition allocate_tls_socket_handle (ssl fd : Z) : option Addr -> Vm -> option Addr * Vm :=
  allocate None (TLS_SOCKET (Some ssl) false fd None).

Definition allocate_sqlite3_handle (db : Z) : option Addr -> Vm -> option Addr * Vm :=
  allocate None (SQLITE3 (Some db)).

Definition allocate_sqlite3_statement_handle (stmt : Z)
    : option Addr -> Vm -> option Addr * Vm :=
  allocate None (SQLITE3_STATEMENT (Some stmt)).

Definition allocate_postgres_handle (conn : Z) : option Addr -> Vm -> option Addr * Vm :=
  allocate None (POSTGRES (Some conn)).

Definition allocate_mysql_handle (conn : Z) : option Addr -> Vm -> option Addr * Vm :=
  allocate None (MYSQL (Some conn)).

Definition allocate_time (epoch : spec_float) : option Addr -> Vm -> option Addr * Vm :=
  allocate None (TIME epoch).

Definition allocate_process_result : option Addr -> Vm -> option Addr * Vm :=
  allocate None (PROCESS_RESULT VALUE_NIL VALUE_NIL).

Definition allocate_process_stream (fd : Z) : option Addr -> Vm -> option Addr * Vm :=
  allocate None (PROCESS_STREAM fd).

Definition allocate_process_handle (pid : Z) : option Addr -> Vm -> option Addr * Vm :=
  allocate None (PROCESS_HANDLE pid false VALUE_NIL VALUE_NIL VALUE_NIL).

(** [allocate_tensor] checks its size with [ckd_mul] and [ckd_add] first. *)
Definition allocate_tensor (rows cols : nat) (malloc : option Addr) (vm : Vm)
    : option Addr * Vm :=
  let element_count := Z.of_nat rows * Z.of_nat cols in
  let payload_size := element_count * sizeof double_t in
  let size := sizeof DiamondTensor_t + payload_size in
  if (two_64 <=? element_count) || (two_64 <=? payload_size) || (two_64 <=? size)
  then (None, vm)
  else allocate None (TENSOR rows cols) malloc vm.

(** ** What allocation guarantees *)

(** [malloc] returns a block that nothing of the VM occupies. *)
Definition malloc_ok (malloc : option Addr) (vm : Vm) : Prop :=
  forall a, malloc = Some a -> objects vm !! a = None /\ ~ pooled (pools vm) a.

Lemma pools_ok_pop vm q a rest :
  pools_ok vm -> pools vm !! q = Some (a :: rest) ->
  pools_ok (with_pools (to_u64 (pool_bytes vm - block_size q)) (<[q := rest]> (pools vm)) vm)
  /\ ~ pooled (<[q := rest]> (pools vm)) a.
Proof.
  intros P Hq. pose proof (p_nodup _ P q _ Hq) as Hnd. apply NoDup_cons in Hnd as [Hna Hnd].
  pose proof (block_size_positive q).
  assert (Eb : pools_bytes (<[q := rest]> (pools vm)) = pool_bytes vm - block_size q).
  { rewrite (pools_bytes_insert _ _ (a :: rest)) by (by rewrite Hq).
    rewrite (p_bytes _ P). simpl length. lia. }
  pose proof (pools_bytes_nonneg (<[q := rest]> (pools vm))).
  pose proof (p_bound _ P).
  assert (Hsub : forall r l b, <[q := rest]> (pools vm) !! r = Some l -> b ∈ l ->
    exists k, pools vm !! r = Some k /\ b ∈ k).
  { intros r l b Hr Hb. apply lookup_insert_Some in Hr as [[<- <-]|[_ Hr]]; [|eauto].
    exists (a :: rest). split; [done|]. set_solver. }
  split; [split; simpl|].
  - rewrite Eb. apply to_u64_small. unfold_widths. lia.
  - rewrite to_u64_small by (unfold_widths; lia). lia.
  - intros r l Hr. apply lookup_insert_Some in Hr as [[<- <-]|[_ Hr]]; [done|].
    by eapply (p_nodup _ P).
  - intros p1 p2 l1 l2 b A1 A2 I1 I2.
    destruct (Hsub _ _ _ A1 I1) as (k1 & K1 & J1), (Hsub _ _ _ A2 I2) as (k2 & K2 & J2).
    by eapply (p_disjoint _ P).
  - intros b (r & l & Hr & Hb). destruct (Hsub _ _ _ Hr Hb) as (k & Hk & Hbk).
    apply (p_free _ P). by exists r, k.
  - intros (r & l & Hr & Ha). apply lookup_insert_Some in Hr as [[<- <-]|[Hne Hr]]; [done|].
    apply Hne. eapply (p_disjoint _ P q r); [exact Hq|exact Hr| |exact Ha]. set_solver.
Qed.

Lemma heap_ok_pools vm bytes ps :
  heap_ok vm -> pools_ok (with_pools bytes ps vm) -> heap_ok (with_pools bytes ps vm).
Proof. intros K P. destruct K. by split. Qed.

Lemma take_block_ok pool malloc vm r vm1 :
  heap_ok vm -> malloc_ok malloc vm -> take_block pool malloc vm = (r, vm1) ->
  heap_ok vm1 /\ objects vm1 = objects vm /\ fibers vm1 = fibers vm /\
  roots vm1 = roots vm /\ bytes_allocated vm1 = bytes_allocated vm /\ malloc_ok r vm1.
Proof.
  intros K M E. unfold take_block in E.
  assert (Hdone : (r, vm1) = (malloc, vm) -> heap_ok vm1 /\ objects vm1 = objects vm /\
    fibers vm1 = fibers vm /\ roots vm1 = roots vm /\
    bytes_allocated vm1 = bytes_allocated vm /\ malloc_ok r vm1) by (by intros [= -> ->]).
  destruct pool as [q|]; [|by apply Hdone].
  destruct (pools vm !! q) as [[|a rest]|] eqn:Hq; [by apply Hdone| |by apply Hdone].
  injection E as <- <-.
  destruct (pools_ok_pop vm q a rest (h_pools _ K) Hq) as [P Hna].
  split_and!; try done.
  - by apply heap_ok_pools.
  - intros b [= <-]. split; [|done]. apply (p_free _ (h_pools _ K)). exists q, (a :: rest).
    split; [done|]. set_solver.
Qed.

Lemma link_young_lookup p a vm b q :
  objects (link_young p a vm) !! b = Some q ->
  (b = a /\ q = fresh_object p) \/ (b <> a /\ objects vm !! b = Some q).
Proof. simpl. apply update_lookup. Qed.

(** What the payload of a new object must respect. *)
Record payload_ok (vm : Vm) (p : Payload) : Prop := {
  n_fiber : fiber_ok (fibers vm) p;
  n_values : Forall (value_ok vm) (payload_values (fibers vm) p);
  n_container : container_ok p;
  n_owner : forall id b q, p = FIBER (Some id) -> objects vm !! b = Some q ->
    payload q <> FIBER (Some id);
  n_unpinned : forall id, p = FIBER (Some id) -> id ∉ pinned_fibers vm;
}.

Lemma link_young_ok p a vm :
  heap_ok vm -> objects vm !! a = None -> ~ pooled (pools vm) a -> payload_ok vm p ->
  bytes_allocated vm + object_size p < two_64 -> heap_ok (link_young p a vm).
Proof.
  intros K Ha Hna [Nf Nv Nc No Np] Hb.
  assert (Hmono : forall c, is_Some (objects vm !! c) ->
    is_Some (<[a := fresh_object p]> (objects vm) !! c)).
  { intros c Hc. apply lookup_insert_is_Some'. by right. }
  assert (Hne : forall c, is_Some (objects vm !! c) -> c <> a)
    by (intros c [q Hq] ->; congruence).
  pose proof (h_bytes _ K) as [Eb _]. pose proof (heap_bytes_nonneg (objects vm)).
  pose proof (object_size_positive p).
  split; simpl.
  - intros b q Hq. apply update_lookup in Hq as [[-> ->]|[Hn Hq]].
    + split; [done|]. intros c Hc. apply Hmono. unfold children, pointers in Hc.
      apply list_elem_of_omap in Hc as (v & Hv & Ec). rewrite Forall_forall in Nv.
      by apply (Nv v Hv).
    + destruct (h_closed _ K b q Hq). split; auto.
  - split; simpl; [apply K|]. intros c Hc. by apply Hmono, (h_roots _ K).
  - intros b. unfold is_marked. destruct (decide (a = b)) as [<-|Hn];
      [by rewrite lookup_insert_eq|]. rewrite lookup_insert_ne by done.
    apply (h_unmarked _ K).
  - constructor; [|apply K]. intros Hin. apply elem_of_app in Hin as [Hin|Hin];
      [apply (h_young _ K) in Hin|apply (h_old _ K) in Hin];
      destruct Hin as (q & Hq & _); congruence.
  - intros b. rewrite elem_of_cons, (h_young _ K). setoid_rewrite lookup_insert_Some.
    split.
    + intros [->|(q & Hq & Hy)]; [exists (fresh_object p); auto|].
      exists q. split; [right; split; [|done]|done]. symmetry. apply Hne. eauto.
    + intros (q & [[<- <-]|[_ Hq]] & Hy); eauto.
  - intros b. rewrite (h_old _ K). setoid_rewrite lookup_insert_Some. split.
    + intros (q & Hq & Ho). exists q. split; [right; split; [|done]|done].
      symmetry. apply Hne. eauto.
    + intros (q & [[<- <-]|[_ Hq]] & Ho); [done|eauto].
  - apply K.
  - intros b. rewrite (h_remembered _ K). setoid_rewrite lookup_insert_Some. split.
    + intros (q & Hq & Ho). exists q. split; [right; split; [|done]|done].
      symmetry. apply Hne. eauto.
    + intros (q & [[<- <-]|[_ Hq]] & Ho); [done|eauto].
  - intros b q Hq. apply update_lookup in Hq as [[-> ->]|[Hn Hq]]; [done|].
    by apply (h_remembered_old _ K b).
  - intros b q c Hq Hold Hc Hy. apply update_lookup in Hq as [[-> ->]|[Hn Hq]]; [done|].
    apply (h_barrier _ K b q c Hq Hold Hc).
    destruct (h_closed _ K b q Hq) as [_ Hcl]. specialize (Hcl c Hc).
    unfold is_old in *. by rewrite lookup_insert_ne in Hy by (symmetry; auto).
  - intros b q Hq. apply update_lookup in Hq as [[-> ->]|[Hn Hq]]; [done|].
    by apply (h_containers _ K b).
  - intros b c q r id Hq Hr Eq Er.
    apply update_lookup in Hq as [[-> ->]|[Hn Hq]], Hr as [[-> ->]|[Hn' Hr]]; simpl in *.
    + done.
    + by destruct (No id c r).
    + by destruct (No id b q).
    + by apply (h_owner _ K b c q r id).
  - intros id b q Hid Hq Eq. apply update_lookup in Hq as [[-> ->]|[Hn Hq]].
    + by destruct (Np id).
    + by apply (h_pinned _ K id b q).
  - split; simpl; [|apply to_u64_range]. rewrite heap_bytes_insert by done.
    rewrite to_u64_small by lia. simpl. lia.
  - destruct (h_pools _ K) as [P1 P2 P3 P4 P5]. split; simpl; auto. intros b Hpb.
    rewrite lookup_insert_ne by (intros ->; done). auto.
Qed.

(** An allocation that does not fail adds one young object, and leaves a
    well-formed heap. *)
Lemma allocate_ok pool p malloc vm r vm' :
  heap_ok vm -> malloc_ok malloc vm -> payload_ok vm p ->
  bytes_allocated vm + object_size p < two_64 ->
  allocate pool p malloc vm = (r, vm') ->
  heap_ok vm' /\ match r with
  | Some a => objects vm !! a = None /\ objects vm' = <[a := fresh_object p]> (objects vm)
  | None => objects vm' = objects vm
  end.
Proof.
  intros K M N Hb E. unfold allocate in E.
  destruct (take_block pool malloc vm) as [r1 vm1] eqn:Et.
  destruct (take_block_ok _ _ _ _ _ K M Et) as (K1 & Eo & Ef & Er & Eb & M1).
  destruct r1 as [a|]; injection E as <- <-; [|done].
  destruct (M1 a eq_refl) as [Hf Hnp]. split; [|by rewrite <-Eo].
  apply link_young_ok; auto; [|lia].
  destruct N as [N1 N2 N3 N4 N5].
  assert (Ev : value_ok vm1 = value_ok vm) by (unfold value_ok; by rewrite Eo).
  assert (Ep : pinned_fibers vm1 = pinned_fibers vm) by (unfold pinned_fibers; by rewrite Er).
  by split; rewrite ?Ef, ?Eo, ?Ev, ?Ep.
Qed.

Lemma allocate_array_ok values values_ok malloc vm r vm' :
  heap_ok vm -> malloc_ok malloc vm -> Forall (value_ok vm) values ->
  bytes_allocated vm + object_size (ARRAY values (length values) None) < two_64 ->
  allocate_array values values_ok malloc vm = (r, vm') ->
  heap_ok vm' /\ match r with
  | Some a => objects vm !! a = None /\ objects vm' =
      <[a := fresh_object (ARRAY values (length values) None)]> (objects vm)
  | None => objects vm' = objects vm
  end.
Proof.
  intros K M Hv Hb E.
  assert (N : payload_ok vm (ARRAY values (length values) None)) by (by split; simpl).
  pose proof (allocate_ok (Some ARRAY_POOL) (ARRAY values (length values) None) malloc vm r vm') as A.
  unfold allocate in A.
  unfold allocate_array in E.
  destruct (take_block (Some ARRAY_POOL) malloc vm) as [[a|] vm1] eqn:Et.
  - destruct (_ && _).
    + injection E as <- <-.
      destruct (take_block_ok _ _ _ _ _ K M Et) as (K1 & Eo & _). done.
    + by apply A.
  - by apply A.
Qed.

(** A pooled block is large enough for every object allocated in it. *)
Lemma string_block_fits chars i :
  string_pool_index (length chars) = Some i ->
  object_size (STRING chars) <= block_size (STRING_POOL i).
Proof.
  unfold string_pool_index. destruct (_ || _); [done|].
  pose proof (sizeof_positive DiamondString_t).
  set (x := sizeof DiamondString_t + Z.of_nat (length chars) + 1).
  assert (Hx : 1 <= (x + 15) / 16).
  { apply Z.div_le_lower_bound; unfold x; lia. }
  destruct (_ <=? _)%nat eqn:E; [|done]. intros [= <-]. simpl. fold x.
  rewrite Nat2Z.inj_sub by (apply Nat2Z.inj_le; rewrite Z2Nat.id; lia).
  rewrite Z2Nat.id by lia.
  pose proof (Z.div_mod (x + 15) 16). pose proof (Z.mod_pos_bound (x + 15) 16). lia.
Qed.

Lemma instance_block_fits field_count type_parameter_count i fields :
  instance_pool_index field_count (negb (type_parameter_count =? 0)%nat) = Some i ->
  length fields = field_count ->
  object_size (INSTANCE type_parameter_count fields) = block_size (INSTANCE_POOL i).
Proof.
  unfold instance_pool_index. intros E <-. simpl.
  destruct (Nat.eqb_spec type_parameter_count 0) as [->|Hn];
    destruct pooling; simpl in E; try done.
  destruct (_ <? _)%nat; [done|]. injection E as <-. simpl. lia.
Qed.
End Alloc.
