(* ===== verification/GcProgram.v ===== *)
(** * GcProgram: programs and collections, interleaved

    A run of a program, as the heap sees it: stores through the write barrier,
    allocations, changes of the roots, and collections of either kind at any
    point.  Whatever the interleaving, no pointer dangles, both collectors
    return, a major collection keeps exactly what is reachable and a minor one
    at least that. *)

From S2P Require Import Prelude GcHeap GcMark GcMarkOk GcSweep GcSweepOk GcInvariant.
From S2P Require Import GcBarrier GcMutator GcHash GcAlloc HashTable ValueEqual.
From Stdlib Require Import ZArith Lia Bool List.
From stdpp Require Import base numbers list gmap sets relations.

Local Open Scope Z_scope.
Local Open Scope c_scope.

Section Program.
Context `{Layout}.

(** A change of the roots: the program can only put in objects it reaches, or
    the one it has just allocated or removed from a Hash. *)
Record roots_step_ok (vm : Vm) (new : option Addr) (r : Roots) : Prop := {
  rs_fibers : root_fibers_ok (fibers vm) r;
  rs_known : forall a, a ∈ pointers (root_values (fibers vm) r) ->
    reachable vm a \/ new = Some a;
  rs_pinned : forall id a o, id ∈ running_fibers r ++ default [] (root_queue r) ->
    objects vm !! a = Some o -> payload o = FIBER (Some id) ->
    a ∈ pointers (root_values (fibers vm) r);
}.

(** A value the program has: no pointer, or one to an object it reaches. *)
Definition holds (vm : Vm) (v : Value) : Prop :=
  forall c, pointer v = Some c -> reachable vm c.

(** One step of a program or of its collector.  A store is a step when it
    reports success; the failure of a barrier ends the program. *)
Inductive gc_step (vm : Vm) : Vm -> Prop :=
  | step_major realloc_succeeds vm' :
      diamond_vm_collect_impl realloc_succeeds vm = Some vm' -> gc_step vm vm'
  | step_minor realloc_succeeds vm' :
      diamond_vm_collect_minor_impl realloc_succeeds vm = Some vm' -> gc_step vm vm'
  | step_array_store set_ok card_ok a i v vm' :
      holds vm v -> array_store set_ok card_ok a i v vm = Some (true, vm') -> gc_step vm vm'
  | step_array_range set_ok card_ok a i vs vm' :
      Forall (holds vm) vs ->
      array_store_range set_ok card_ok a i vs vm = Some (true, vm') -> gc_step vm vm'
  | step_array_push grow_ok set_ok card_ok a o values capacity cards v vm' :
      holds vm v -> objects vm !! a = Some o -> payload o = ARRAY values capacity cards ->
      bytes_allocated vm + push_growth values capacity < two_64 ->
      array_push grow_ok set_ok card_ok a v vm = Some (true, vm') -> gc_step vm vm'
  | step_cell set_ok cell v status vm' :
      holds vm v -> cell_store set_ok cell v vm = Some (status, vm') ->
      status <> STORE_OUT_OF_MEMORY -> gc_step vm vm'
  | step_ivar set_ok receiver field v status vm' :
      holds vm v -> set_ivar set_ok receiver field v vm = Some (status, vm') ->
      status <> STORE_OUT_OF_MEMORY -> gc_step vm vm'
  | step_fiber set_ok a o id f vm' :
      Forall (holds vm) (fiber_values f) ->
      objects vm !! a = Some o -> payload o = FIBER (Some id) -> id ∉ pinned_fibers vm ->
      fiber_store set_ok a f vm = Some (true, vm') -> gc_step vm vm'
  | step_thread set_ok a v vm' :
      holds vm v -> thread_store set_ok a v vm = Some (true, vm') -> gc_step vm vm'
  | step_allocate pool p malloc new vm' r :
      malloc_ok malloc vm -> payload_ok vm p ->
      bytes_allocated vm + object_size p < two_64 ->
      allocate pool p malloc vm = (new, vm') -> roots_step_ok vm' new r ->
      gc_step vm (with_roots r vm')
  | step_allocate_array values values_ok malloc new vm' r :
      malloc_ok malloc vm -> Forall (holds vm) values ->
      bytes_allocated vm + object_size (ARRAY values (length values) None) < two_64 ->
      allocate_array values values_ok malloc vm = (new, vm') -> roots_step_ok vm' new r ->
      gc_step vm (with_roots r vm')
  | step_hash_set realloc_ok malloc_ok set_ok card_ok a o es capacity buckets cards k v vm' :
      holds vm k -> holds vm v ->
      objects vm !! a = Some o -> payload o = HASH es capacity buckets cards ->
      bytes_allocated vm + set_growth (hash_of es capacity buckets) < two_64 ->
      gc_hash_set (H0 := heap_keys (objects vm)) realloc_ok malloc_ok set_ok card_ok a k v vm =
        Some (true, vm') -> gc_step vm vm'
  | step_hash_delete malloc_ok set_ok card_ok a k removed vm' r :
      gc_hash_delete (H0 := heap_keys (objects vm)) malloc_ok set_ok card_ok a k vm =
        Some (true, removed, vm') ->
      roots_step_ok vm' (removed ≫= pointer) r -> gc_step vm (with_roots r vm')
  | step_roots r :
      roots_step_ok vm None r -> gc_step vm (with_roots r vm).

Lemma holds_ok vm v : holds vm v -> value_ok vm v.
Proof. intros Hv c Hc. by eapply reached_in, Hv. Qed.

Lemma Forall_holds_ok vm vs : Forall (holds vm) vs -> Forall (value_ok vm) vs.
Proof. intros Hv. eapply Forall_impl; [done|]. apply holds_ok. Qed.

Lemma roots_step vm new r :
  heap_ok vm -> roots_step_ok vm new r ->
  (forall a, new = Some a -> is_Some (objects vm !! a)) -> heap_ok (with_roots r vm).
Proof.
  intros K [R1 R2 R3] Hnew. destruct K. split; try done.
  - split; [done|]. simpl. intros a Ha. destruct (R2 a Ha) as [Hr|Hr]; [|auto].
    by apply (reached_in vm false).
  - by apply (pools_ok_fields vm).
Qed.

Lemma gc_step_ok vm vm' : heap_ok vm -> gc_step vm vm' -> heap_ok vm'.
Proof.
  intros K St. destruct St as [r vm' E|r vm' E|s c a i v vm' Hv E|s c a i vs vm' Hv E
    |g s c a o vs cap cs v vm' Hv Ho Ep Hb E|s a v st vm' Hv E Hs|s a f v st vm' Hv E Hs
    |s a o id f vm' Hv Ho Ep Hid E|s a v vm' Hv E|q p m n vm' r Hm Hp Hb E Hr
    |vs ok m n vm' r Hm Hv Hb E Hr|g m s c a o es cap bs cs k v vm' Hk Hv Ho Ep Hb E
    |m s c a k v vm' r E Hr|r Hr].
  - destruct (collect_major r vm K) as (vm1 & E1 & K1 & _). congruence.
  - destruct (collect_minor r vm K) as (vm1 & E1 & K1 & _). congruence.
  - eapply array_store_ok; [done|by apply holds_ok|done].
  - eapply array_store_range_ok; [done|by apply Forall_holds_ok|done].
  - eapply array_push_ok; [done|by apply holds_ok|done..].
  - eapply cell_store_ok; [done|by apply holds_ok|done..].
  - eapply set_ivar_ok; [done|by apply holds_ok|done..].
  - eapply fiber_store_ok; [done|done|done|done|by apply Forall_holds_ok|done].
  - eapply thread_store_ok; [done|by apply holds_ok|done].
  - destruct (allocate_ok q p m vm n vm' K Hm Hp Hb E) as [K' Hn].
    eapply roots_step; [done|done|]. intros a ->. destruct Hn as [_ ->].
    by rewrite lookup_insert_eq.
  - destruct (allocate_array_ok vs ok m vm n vm') as [K' Hn];
      [done|done|by apply Forall_holds_ok|done..|].
    eapply roots_step; [done|done|]. intros a ->. destruct Hn as [_ ->].
    by rewrite lookup_insert_eq.
  - eapply (gc_hash_set_ok (H0 := heap_keys (objects vm)));
      [exact K|exact (holds_ok vm k Hk)|exact (holds_ok vm v Hv)|exact Ho|exact Ep|exact Hb|exact E].
  - eapply roots_step; [by eapply gc_hash_delete_ok|done|].
    intros b Hb. destruct v as [v|]; [|done]. by eapply gc_hash_delete_removed.
  - by eapply roots_step.
Qed.

Lemma gc_steps_ok vm vm' : heap_ok vm -> rtc gc_step vm vm' -> heap_ok vm'.
Proof. intros K St. induction St; eauto using gc_step_ok. Qed.

(** ** The initial VM *)

Definition no_roots : Roots :=
  {| has_exception := false; exception := VALUE_NIL; nonlocal_value := VALUE_NIL;
     adopted_programs := []; argv_value := VALUE_NIL; env_value := VALUE_NIL;
     gc_protected := []; namespace_constants := []; class_variables := None;
     trapped_signal_handlers := []; frames := []; running_fibers := [];
     root_queue := None; vm_extra_roots := [] |}.

(** [diamond_vm_init], before it populates [ARGV] and [ENV]. *)
Definition diamond_vm_init : Vm :=
  {| objects := ∅; fibers := ∅; roots := no_roots; young_objects := [];
     old_objects := []; remembered_set := []; remembered_capacity := 0;
     bytes_allocated := 0; next_gc := 2048; bytes_allocated_at_last_minor_gc := 0;
     minor_gc_threshold_bytes := 1048576; pool_bytes := 0; pools := ∅; released := [] |}.

Lemma initial_ok : heap_ok diamond_vm_init.
Proof.
  split; simpl; try done; try (by setoid_rewrite lookup_empty; naive_solver).
  - split; [by split|]. simpl. intros a Ha. by apply elem_of_nil in Ha.
  - apply NoDup_nil_2.
  - intros a. rewrite elem_of_nil. setoid_rewrite lookup_empty. naive_solver.
  - intros a. rewrite elem_of_nil. setoid_rewrite lookup_empty. naive_solver.
  - apply NoDup_nil_2.
  - intros a. rewrite elem_of_nil. setoid_rewrite lookup_empty. naive_solver.
Qed.
End Program.

(** ** A concrete heap

    The layout of a 64-bit build, and a program of three allocations: a String,
    an Array that holds it, and a File nothing refers to. *)

Definition example_sizeof (t : Struct) : Z :=
  match t with
  | uint32_t => 4
  | size_t | double_t | pointer_t => 8
  | DiamondValue_t => 16
  | DiamondString_t | DiamondSymbol_t => 24
  | DiamondHashEntry_t => 40
  | _ => 64
  end.

#[local] Instance example_layout : Layout.
Proof.
  refine {| sizeof := example_sizeof; pooling := true |}.
  - abstract (by destruct t).
  - abstract (by destruct t).
Defined.

(** Roots that are the registers of one frame. *)
Definition register_roots (vs : list Value) : Roots :=
  {| has_exception := false; exception := VALUE_NIL; nonlocal_value := VALUE_NIL;
     adopted_programs := []; argv_value := VALUE_NIL; env_value := VALUE_NIL;
     gc_protected := []; namespace_constants := []; class_variables := None;
     trapped_signal_handlers := [];
     frames := [{| registers := vs; extra_roots := []; pending := None; handlers := None |}];
     running_fibers := []; root_queue := None; vm_extra_roots := [] |}.

Abbreviation pointer_to a := (VALUE_OBJECT (Some a)).

Definition example_1 : Vm :=
  with_roots (register_roots [pointer_to 2%positive])
    (snd (allocate_string [104; 101; 108; 108; 111] (Some 2%positive) diamond_vm_init)).

Definition example_2 : Vm :=
  with_roots (register_roots [pointer_to 1%positive])
    (snd (allocate_array [pointer_to 2%positive] true (Some 1%positive) example_1)).

Definition example_vm : Vm :=
  with_roots (register_roots [pointer_to 1%positive])
    (snd (allocate_file_handle 7 (Some 3%positive) example_2)).

Lemma register_roots_ok vm new vs :
  (forall a, a ∈ pointers vs -> reachable vm a \/ new = Some a) ->
  roots_step_ok vm new (register_roots vs).
Proof.
  intros Hv. split; simpl; [by split| |].
  - intros a Ha. apply Hv. unfold root_values, chain_values, frame_values in Ha. simpl in Ha.
    unfold pointers in *. simpl in Ha. rewrite !app_nil_r in Ha. done.
  - intros id a o Hid. by apply elem_of_nil in Hid.
Qed.

Lemma registers_reachable vm vs a :
  roots vm = register_roots vs -> a ∈ pointers vs -> is_Some (objects vm !! a) -> reachable vm a.
Proof.
  intros Hr Ha Hs. exists a. split; [|by constructor]. rewrite Hr.
  unfold root_values, chain_values, frame_values. simpl. rewrite !app_nil_r. done.
Qed.

Lemma example_fresh vm a : objects vm !! a = None -> pools vm = ∅ -> malloc_ok (Some a) vm.
Proof. intros Hn Hp b [= <-]. split; [done|]. rewrite Hp. by intros (q & l & Hq & _). Qed.

Lemma example_step_1 : gc_step diamond_vm_init example_1.
Proof.
  apply (step_allocate _ (STRING_POOL <$> string_pool_index 5) (STRING [104; 101; 108; 108; 111])
    (Some 2%positive)
    (Some 2%positive)).
  - by apply example_fresh.
  - by split.
  - done.
  - reflexivity.
  - apply register_roots_ok. intros a Ha. right. apply list_elem_of_singleton in Ha. by subst.
Qed.

Lemma example_step_2 : gc_step example_1 example_2.
Proof.
  apply (step_allocate_array _ [pointer_to 2%positive] true (Some 1%positive)
    (Some 1%positive)).
  - by apply example_fresh.
  - repeat constructor. intros c [= <-].
    apply (registers_reachable _ [pointer_to 2%positive]); [done|by constructor|].
    by exists (fresh_object (STRING [104; 101; 108; 108; 111])).
  - done.
  - reflexivity.
  - apply register_roots_ok. intros a Ha. right. apply list_elem_of_singleton in Ha. by subst.
Qed.

Lemma example_step_3 : gc_step example_2 example_vm.
Proof.
  apply (step_allocate _ None (FILE (Some 7) None) (Some 3%positive) (Some 3%positive)).
  - by apply example_fresh.
  - by split.
  - done.
  - reflexivity.
  - apply register_roots_ok. intros a Ha. left. apply list_elem_of_singleton in Ha. subst.
    exists 1%positive. split; [|by constructor].
    by constructor.
Qed.

Lemma example_run : rtc gc_step diamond_vm_init example_vm.
Proof.
  eapply rtc_l; [exact example_step_1|]. eapply rtc_l; [exact example_step_2|].
  eapply rtc_l; [exact example_step_3|]. apply rtc_refl.
Qed.

Lemma example_ok : heap_ok example_vm.
Proof. eapply gc_steps_ok; [exact initial_ok|exact example_run]. Qed.

(** ** What the collector guarantees *)

(** C4: In every run of a program from [diamond_vm_init], whatever the
    interleaving of its stores, allocations and root changes with minor and
    major collections, no root and no object points to a freed object,
    [bytes_allocated] is exactly the bytes of the live objects and below 2^64,
    and both collectors return at any time, whichever [realloc] calls of the
    mark stack fail. *)
Theorem gc_program_safe `{Layout} (vm : Vm) :
  rtc gc_step diamond_vm_init vm ->
  (forall a, a ∈ pointers (root_values (fibers vm) (roots vm)) -> is_Some (objects vm !! a)) /\
  (forall a o c, objects vm !! a = Some o -> c ∈ children (fibers vm) o ->
     is_Some (objects vm !! c)) /\
  bytes_allocated vm = heap_bytes (objects vm) /\ bytes_allocated vm < two_64 /\
  (forall realloc_succeeds, is_Some (diamond_vm_collect_impl realloc_succeeds vm) /\
     is_Some (diamond_vm_collect_minor_impl realloc_succeeds vm)).
Proof.
  intros St. pose proof (gc_steps_ok _ _ initial_ok St) as K. split_and!.
  - apply (h_roots _ K).
  - intros a o c Ho. by apply (h_closed _ K a o Ho).
  - apply (h_bytes _ K).
  - apply (h_bytes _ K).
  - intros r. destruct (collect_major r vm K) as (v1 & -> & _).
    destruct (collect_minor r vm K) as (v2 & -> & _). eauto.
Qed.

Lemma gc_program_safe_witness :
  bytes_allocated example_vm = heap_bytes (objects example_vm) /\
  is_Some (diamond_vm_collect_minor_impl (fun _ => false) example_vm).
Proof.
  destruct (gc_program_safe example_vm example_run) as (_ & _ & B & _ & C).
  split; [exact B|]. apply C.
Defined.

(** C6: A major collection of a well-formed heap returns, and is exact: the
    objects left are those reachable from the roots, unchanged bit for bit;
    the roots are unchanged; every resource of an unreachable object is
    released exactly once, and nothing else is; [next_gc] is twice the bytes
    left (2048 below 1024 bytes). *)
Theorem gc_major_exact `{Layout} realloc_succeeds (vm : Vm) :
  heap_ok vm ->
  exists vm', diamond_vm_collect_impl realloc_succeeds vm = Some vm' /\ heap_ok vm' /\
    roots vm' = roots vm /\
    (forall a o, objects vm' !! a = Some o <-> objects vm !! a = Some o /\ reachable vm a) /\
    (forall a, reachable vm' a <-> reachable vm a) /\
    next_gc vm' = (if bytes_allocated vm' <? 1024 then 2048
                   else to_u64 (bytes_allocated vm' * 2)) /\
    exists freed, NoDup freed /\
      (forall a, a ∈ freed <-> is_Some (objects vm !! a) /\ ~ reachable vm a) /\
      released vm' =
        reverse (freed ≫= fun a => from_option (fun o => release_of (payload o)) []
          (objects vm !! a)) ++ released vm.
Proof.
  intros K. destruct (collect_major realloc_succeeds vm K)
    as (vm' & E & K' & S & R & O & _ & N & l & L1 & L2 & L3).
  exists vm'. split_and!; auto.
  - intros a. by apply same_reach_iff; [|apply K..].
  - exists l. auto.
Qed.

Lemma gc_major_exact_witness :
  exists vm', diamond_vm_collect_impl (fun _ => true) example_vm = Some vm' /\
    is_Some (objects vm' !! 2%positive) /\ objects vm' !! 3%positive = None /\
    released vm' = [Fclose 7].
Proof.
  destruct (gc_major_exact (fun _ => true) example_vm example_ok) as (vm' & E & _).
  exists vm'. split; [exact E|]. vm_compute in E. injection E as <-.
  split_and!; [eexists; reflexivity|reflexivity|reflexivity].
Defined.

(** C20: A minor collection of a well-formed heap returns and loses nothing the
    program can reach: every reachable object and every old object survives,
    with its contents (card tables apart), its frozen and remembered bits, and
    promoted; the young list is left empty; reachability is unchanged; and a
    young object survives only if the scan of the roots and of the remembered
    set's dirty cards finds it. *)
Theorem gc_minor_safe `{Layout} realloc_succeeds (vm : Vm) :
  heap_ok vm ->
  exists vm', diamond_vm_collect_minor_impl realloc_succeeds vm = Some vm' /\ heap_ok vm' /\
    roots vm' = roots vm /\ young_objects vm' = [] /\
    (forall a, reachable vm' a <-> reachable vm a) /\
    (forall a o, objects vm !! a = Some o -> old o = true \/ reachable vm a ->
      exists o', objects vm' !! a = Some o' /\ tenured o o') /\
    (forall a o, objects vm !! a = Some o -> old o = false -> is_Some (objects vm' !! a) ->
      reached true vm a \/ remembered_reached vm a).
Proof.
  intros K. destruct (collect_minor realloc_succeeds vm K)
    as (vm' & E & K' & S & R & Y & T & O & U).
  exists vm'. split_and!; auto.
  - intros a. by apply same_reach_iff; [|apply K..].
  - intros a o Ho Hs. destruct (O a o Ho Hs) as [o' Ho']. exists o'. split; [done|].
    destruct (T a o' Ho') as (o1 & Ho1 & Ht). congruence.
Qed.

Lemma gc_minor_safe_witness :
  exists vm', diamond_vm_collect_minor_impl (fun _ => false) example_vm = Some vm' /\
    old_objects vm' = [2%positive; 1%positive] /\ young_objects vm' = [] /\
    objects vm' !! 3%positive = None.
Proof.
  destruct (gc_minor_safe (fun _ => false) example_vm example_ok) as (vm' & E & _).
  exists vm'. split; [exact E|]. vm_compute in E. injection E as <-.
  split_and!; reflexivity.
Defined.

Lemma grows_marks_unique h h1 h2 :
  grows h h1 -> grows h h2 -> (forall a, is_marked h1 a = true <-> is_marked h2 a = true) ->
  h1 = h2.
Proof.
  intros G1 G2 Hm. apply map_eq. intros a. destruct (h !! a) as [o|] eqn:Ho.
  - rewrite (grows_lookup h h1 a o), (grows_lookup h h2 a o) by done. do 2 f_equal.
    apply eq_true_iff_eq, Hm.
  - by rewrite (grows_lookup_None h h1 a), (grows_lookup_None h h2 a).
Qed.

(** The explicit mark stack is equivalent to plain recursion: however many
    of its [realloc] calls fail (none, all, or any in between, each failure
    falling back to a recursive walk of that object) and with any fuel at or
    above the object count plus two, marking a well-formed heap produces the
    same heap, in which exactly the reachable objects are marked. *)
Theorem mark_stack_equivalence `{Layout} (vm : Vm) (fuel : nat) (oracle : nat -> bool) :
  heap_ok vm -> (mark_fuel vm <= fuel)%nat ->
  exists h, mark_roots (fun _ => false) (mark_fuel vm) vm false = Some h /\
    mark_roots oracle fuel vm false = Some h /\
    forall a, is_marked h a = true <-> reachable vm a.
Proof.
  intros K Hf.
  destruct (mark_roots_major (fun _ => false) vm (h_closed _ K) (h_roots _ K)
    (h_unmarked _ K) (mark_fuel vm) (Nat.le_refl _)) as (h & E & G & Hm).
  destruct (mark_roots_major oracle vm (h_closed _ K) (h_roots _ K)
    (h_unmarked _ K) fuel Hf) as (h' & E' & G' & Hm').
  exists h. split_and!; [done| |done]. rewrite E'. f_equal.
  eapply grows_marks_unique; [done|done|]. intros a. by rewrite Hm, Hm'.
Qed.

Lemma mark_stack_equivalence_witness :
  exists h, mark_roots (fun _ => true) 5 example_vm false = Some h /\
    mark_roots (fun _ => false) 5 example_vm false = Some h.
Proof.
  destruct (mark_stack_equivalence example_vm 5 (fun _ => true) example_ok) as (h & E1 & E2 & _).
  - vm_compute. repeat constructor.
  - exists h. split; [exact E2|exact E1].
Defined.

(** A block taken from a pool is large enough for the object put in it: a
    pooled String's class holds its header, bytes and terminator, and a pooled
    Instance's block is exactly its header and fields. *)
Theorem pool_blocks_fit `{Layout} (p : Payload) (q : Pool) :
  object_pool p = Some q ->
  match p with
  | STRING _ => object_size p <= block_size q
  | INSTANCE _ _ => object_size p = block_size q
  | _ => q = ARRAY_POOL
  end.
Proof.
  destruct p; simpl; try done.
  - destruct (string_pool_index _) as [i|] eqn:E; [|done]. intros [= <-].
    by apply string_block_fits.
  - destruct (instance_pool_index _ _) as [i|] eqn:E; [|done]. intros [= <-].
    by eapply instance_block_fits.
  - destruct pooling; [|done]. by intros [= <-].
Qed.

Lemma pool_blocks_fit_witness :
  object_pool (STRING [104; 101; 108; 108; 111]) = Some (STRING_POOL 1) /\
  object_size (STRING [104; 101; 108; 108; 111]) <= block_size (STRING_POOL 1).
Proof.
  split; [reflexivity|]. apply (pool_blocks_fit (STRING [104; 101; 108; 108; 111]) (STRING_POOL 1)). reflexivity.
Defined.

(** ** A barrier that fails

    The Array of the example is promoted, a young String is allocated and
    pushed on it, and growing the remembered set fails. *)

Definition promoted_vm : Vm :=
  default diamond_vm_init (diamond_vm_collect_minor_impl (fun _ => true) example_vm).

Definition before_push : Vm :=
  with_roots (register_roots [pointer_to 1%positive; pointer_to 4%positive])
    (snd (allocate_string (repeat 97 200) (Some 4%positive) promoted_vm)).

Definition after_push : option (bool * Vm) :=
  array_push true false true 1%positive (pointer_to 4%positive) before_push.

(** The program that rescues the error no longer holds the String itself. *)
Definition after_rescue : Vm :=
  with_roots (register_roots [pointer_to 1%positive]) (default diamond_vm_init (snd <$> after_push)).

Lemma before_push_run : rtc gc_step diamond_vm_init before_push.
Proof.
  transitivity example_vm; [exact example_run|]. eapply rtc_l.
  - apply (step_minor _ (fun _ => true) promoted_vm). vm_compute. reflexivity.
  - eapply rtc_once.
    apply (step_allocate _ (STRING_POOL <$> string_pool_index 200) (STRING (repeat 97 200))
      (Some 4%positive) (Some 4%positive)).
    + by apply example_fresh.
    + by split.
    + done.
    + reflexivity.
    + apply register_roots_ok. intros a Ha. unfold pointers in Ha. simpl in Ha.
      apply elem_of_cons in Ha as [->|Ha%list_elem_of_singleton]; [left|right; by subst].
      exists 1%positive. split; [by constructor|]. by constructor.
Qed.

(** The barrier runs after the store, and the store is not undone when it
    fails: there is a run of a program in which [array_push] reports failure,
    the element is in the Array all the same, and the next minor collection
    frees that element while the Array, still reachable, points to it. *)
Theorem failed_barrier_dangles :
  rtc gc_step diamond_vm_init before_push /\
  fst <$> after_push = Some false /\
  exists vm' array, diamond_vm_collect_minor_impl (fun _ => true) after_rescue = Some vm' /\
    1%positive ∈ pointers (root_values (fibers vm') (roots vm')) /\
    objects vm' !! 1%positive = Some array /\
    4%positive ∈ children (fibers vm') array /\ objects vm' !! 4%positive = None.
Proof.
  split; [exact before_push_run|]. split; [by vm_compute|].
  eexists _, _. split; [vm_compute; reflexivity|].
  split_and!; [by constructor|reflexivity|by repeat constructor|reflexivity].
Qed.
