(* ===== verification/Limits.v ===== *)
(** * Limits: the process-wide budgets of src/vm_limits.c

    [DIAMOND_MAX_INSTRUCTIONS], [DIAMOND_MAX_WALL_MILLISECONDS] and
    [DIAMOND_MAX_MEMORY_BYTES] bound the whole process: every budgeted VM adds
    its use to shared counters.  A budget fires in two steps, a rescuable error
    and, once a grace allowance is used up, a stop nothing can rescue.  The
    clock, the interrupt flag and the environment are arguments. *)

From S2P Require Import Prelude CText GcHeap GcMark GcSweep.
From Stdlib Require Import ZArith Lia Bool List String.
From stdpp Require Import base numbers list.

Local Open Scope Z_scope.
Local Open Scope c_scope.

(** ** The state *)

(** The limit fields of a [DiamondVm]. *)
Record Limits := {
  max_instructions : Z;
  max_wall_nanoseconds : Z;
  max_memory_bytes : Z;
  grace_instructions : Z;
  grace_wall_nanoseconds : Z;
  grace_memory_bytes : Z;
  instructions_executed : Z;
  start_time_ns : Z;
  resource_limits_active : bool;
  resource_grace_active : bool;
  hard_stop_instruction_count : Z;
  hard_stop_time_ns : Z;
  memory_recheck : bool;
  memory_hard_stopped : bool;
  budgets_registered : bool;
  instructions_flushed : Z;
  memory_published : Z;
  memory_limit_tripped : bool;
}.

(** The counters every VM of the process shares. *)
Record Shared := {
  budget_live_vms : Z;
  budget_instructions : Z;
  budget_bytes : Z;
  budget_start_ns : Z;
}.

Definition initial_shared : Shared :=
  {| budget_live_vms := 0; budget_instructions := 0; budget_bytes := 0; budget_start_ns := 0 |}.

Definition with_executed (executed flushed : Z) (l : Limits) : Limits :=
  {| max_instructions := max_instructions l; max_wall_nanoseconds := max_wall_nanoseconds l;
     max_memory_bytes := max_memory_bytes l; grace_instructions := grace_instructions l;
     grace_wall_nanoseconds := grace_wall_nanoseconds l;
     grace_memory_bytes := grace_memory_bytes l;
     instructions_executed := executed; start_time_ns := start_time_ns l;
     resource_limits_active := resource_limits_active l;
     resource_grace_active := resource_grace_active l;
     hard_stop_instruction_count := hard_stop_instruction_count l;
     hard_stop_time_ns := hard_stop_time_ns l; memory_recheck := memory_recheck l;
     memory_hard_stopped := memory_hard_stopped l; budgets_registered := budgets_registered l;
     instructions_flushed := flushed; memory_published := memory_published l;
     memory_limit_tripped := memory_limit_tripped l |}.

(** The fields [maybe_collect] writes. *)
Definition with_memory (max published : Z) (recheck tripped hard : bool) (l : Limits) : Limits :=
  {| max_instructions := max_instructions l; max_wall_nanoseconds := max_wall_nanoseconds l;
     max_memory_bytes := max; grace_instructions := grace_instructions l;
     grace_wall_nanoseconds := grace_wall_nanoseconds l;
     grace_memory_bytes := grace_memory_bytes l;
     instructions_executed := instructions_executed l; start_time_ns := start_time_ns l;
     resource_limits_active := resource_limits_active l;
     resource_grace_active := resource_grace_active l;
     hard_stop_instruction_count := hard_stop_instruction_count l;
     hard_stop_time_ns := hard_stop_time_ns l; memory_recheck := recheck;
     memory_hard_stopped := hard; budgets_registered := budgets_registered l;
     instructions_flushed := instructions_flushed l; memory_published := published;
     memory_limit_tripped := tripped |}.

(** The fields [resource_limit_trip] and [resource_hard_stop] write. *)
Definition with_hard_stop (max_i max_w : Z) (grace : bool) (count time : Z) (l : Limits)
    : Limits :=
  {| max_instructions := max_i; max_wall_nanoseconds := max_w;
     max_memory_bytes := max_memory_bytes l; grace_instructions := grace_instructions l;
     grace_wall_nanoseconds := grace_wall_nanoseconds l;
     grace_memory_bytes := grace_memory_bytes l;
     instructions_executed := instructions_executed l; start_time_ns := start_time_ns l;
     resource_limits_active := resource_limits_active l; resource_grace_active := grace;
     hard_stop_instruction_count := count; hard_stop_time_ns := time;
     memory_recheck := memory_recheck l; memory_hard_stopped := memory_hard_stopped l;
     budgets_registered := budgets_registered l;
     instructions_flushed := instructions_flushed l; memory_published := memory_published l;
     memory_limit_tripped := memory_limit_tripped l |}.

(** The fields [budget_register] writes. *)
Definition with_registered (start : Z) (l : Limits) : Limits :=
  {| max_instructions := max_instructions l; max_wall_nanoseconds := max_wall_nanoseconds l;
     max_memory_bytes := max_memory_bytes l; grace_instructions := grace_instructions l;
     grace_wall_nanoseconds := grace_wall_nanoseconds l;
     grace_memory_bytes := grace_memory_bytes l;
     instructions_executed := instructions_executed l; start_time_ns := start;
     resource_limits_active := resource_limits_active l;
     resource_grace_active := resource_grace_active l;
     hard_stop_instruction_count := hard_stop_instruction_count l;
     hard_stop_time_ns := hard_stop_time_ns l; memory_recheck := memory_recheck l;
     memory_hard_stopped := memory_hard_stopped l; budgets_registered := true;
     instructions_flushed := instructions_flushed l; memory_published := memory_published l;
     memory_limit_tripped := memory_limit_tripped l |}.

Definition with_budget_bytes (bytes : Z) (s : Shared) : Shared :=
  {| budget_live_vms := budget_live_vms s; budget_instructions := budget_instructions s;
     budget_bytes := bytes; budget_start_ns := budget_start_ns s |}.

Definition with_budget_instructions (n : Z) (s : Shared) : Shared :=
  {| budget_live_vms := budget_live_vms s; budget_instructions := n;
     budget_bytes := budget_bytes s; budget_start_ns := budget_start_ns s |}.

Definition with_live_vms (n : Z) (s : Shared) : Shared :=
  {| budget_live_vms := n; budget_instructions := budget_instructions s;
     budget_bytes := budget_bytes s; budget_start_ns := budget_start_ns s |}.

Definition with_start_ns (t : Z) (s : Shared) : Shared :=
  {| budget_live_vms := budget_live_vms s; budget_instructions := budget_instructions s;
     budget_bytes := budget_bytes s; budget_start_ns := t |}.

(** Signed arithmetic: undefined outside the range. *)
Definition checked_i64 (z : Z) : option Z :=
  if (INT64_MIN <=? z) && (z <=? INT64_MAX) then Some z else None.

(** ** Reading the environment: the limit part of [diamond_vm_init] *)

Fixpoint skip_isspace (s : list Z) : list Z :=
  match s with
  | c :: rest => if isspace c then skip_isspace rest else s
  | [] => []
  end.

(** The sign, and the text after it. *)
Definition strip_sign (s : list Z) : bool * list Z :=
  if peek s =? 45 then (true, tail s) else if peek s =? 43 then (false, tail s) else (false, s).

(** [strtoull(s, &end, 10)]: the number and the text after it, [None] when
    nothing was converted ([end == s]).  A minus sign negates in
    [unsigned long long]; a number out of range gives [ULLONG_MAX]. *)
Definition strtoull (s : list Z) : option (Z * list Z) :=
  let s := skip_isspace s in
  let '(negative, s) := strip_sign s in
  let '(digits, rest) := span_digits s in
  match digits with
  | [] => None
  | _ =>
      let v := decimal_value digits in
      Some (if UINT64_MAX <? v then UINT64_MAX else if negative then to_u64 (- v) else v, rest)
  end.

(** The number of an environment variable, zero when unset, unparseable, zero
    or above [cap]. *)
Definition env_limit (cap : Z) (env : option (list Z)) : Z :=
  match env with
  | None | Some [] => 0
  | Some text =>
      match strtoull text with
      | Some (parsed, []) => if (0 <? parsed) && (parsed <=? cap) then parsed else 0
      | _ => 0
      end
  end.

Definition WALL_MAX : Z := INT64_MAX / 1000000.

Definition read_limits (getenv : string -> option (list Z)) : Limits :=
  let max_i := env_limit UINT64_MAX (getenv "DIAMOND_MAX_INSTRUCTIONS"%string) in
  let max_w := env_limit WALL_MAX (getenv "DIAMOND_MAX_WALL_MILLISECONDS"%string) * 1000000 in
  let max_m := env_limit UINT64_MAX (getenv "DIAMOND_MAX_MEMORY_BYTES"%string) in
  {| max_instructions := max_i; max_wall_nanoseconds := max_w; max_memory_bytes := max_m;
     grace_instructions := env_limit UINT64_MAX (getenv "DIAMOND_GRACE_INSTRUCTIONS"%string);
     grace_wall_nanoseconds :=
       env_limit WALL_MAX (getenv "DIAMOND_GRACE_WALL_MILLISECONDS"%string) * 1000000;
     grace_memory_bytes := env_limit UINT64_MAX (getenv "DIAMOND_GRACE_MEMORY_BYTES"%string);
     instructions_executed := 0; start_time_ns := 0;
     resource_limits_active :=
       negb (max_i =? 0) || negb (max_w =? 0) || negb (max_m =? 0);
     resource_grace_active := false; hard_stop_instruction_count := 0; hard_stop_time_ns := 0;
     memory_recheck := false; memory_hard_stopped := false; budgets_registered := false;
     instructions_flushed := 0; memory_published := 0; memory_limit_tripped := false |}.

(** ** Registration

    [budget_register] in its separate accesses to the shared counters: the
    count, the three resets by the first VM, the exchange that sets the common
    clock origin and the load that reads it. *)
Definition register_count (s : Shared) : bool * Shared :=
  (budget_live_vms s =? 0, with_live_vms (to_u64 (budget_live_vms s + 1)) s).

Definition reset_instructions (s : Shared) : Shared := with_budget_instructions 0 s.
Definition reset_bytes (s : Shared) : Shared := with_budget_bytes 0 s.
Definition reset_start (s : Shared) : Shared := with_start_ns 0 s.

Definition register_clock (now : Z) (s : Shared) : Shared :=
  if budget_start_ns s =? 0 then with_start_ns now s else s.

(** The whole of it, undisturbed by other VMs. *)
Definition budget_register (now : Z) (l : Limits) (s : Shared) : Limits * Shared :=
  let '(first, s) := register_count s in
  let s := if first : bool then reset_start (reset_bytes (reset_instructions s)) else s in
  let l := with_registered (start_time_ns l) l in
  if negb (max_wall_nanoseconds l =? 0) then
    let s := register_clock now s in (with_registered (budget_start_ns s) l, s)
  else (l, s).

(** [budget_release_finished] *)
Definition budget_release_finished (l : Limits) (s : Shared) : Limits * Shared :=
  if negb (budgets_registered l) then (l, s) else
  let s := with_budget_instructions
    (to_u64 (budget_instructions s + to_u64 (instructions_executed l - instructions_flushed l))) s in
  let l := with_executed (instructions_executed l) (instructions_executed l) l in
  let s := with_budget_bytes (to_i64 (budget_bytes s - memory_published l)) s in
  (with_memory 0 0 (memory_recheck l) (memory_limit_tripped l) (memory_hard_stopped l) l, s).

(** [budget_unregister] *)
Definition budget_unregister (l : Limits) (s : Shared) : Shared :=
  if negb (budgets_registered l) then s else
  let s := with_budget_instructions
    (to_u64 (budget_instructions s + to_u64 (instructions_executed l - instructions_flushed l))) s in
  let s := with_budget_bytes (to_i64 (budget_bytes s - memory_published l)) s in
  with_live_vms (to_u64 (budget_live_vms s - 1)) s.

(** ** The memory budget *)

Definition MEMORY_GRACE_MINIMUM_BYTES : Z := 4 * 1024 * 1024.

(** The ceiling after the first overrun. *)
Definition memory_ceiling (l : Limits) : Z :=
  let default_grace :=
    if MEMORY_GRACE_MINIMUM_BYTES <? max_memory_bytes l / 4 then max_memory_bytes l / 4
    else MEMORY_GRACE_MINIMUM_BYTES in
  let grace := if negb (grace_memory_bytes l =? 0) then grace_memory_bytes l
    else default_grace in
  if UINT64_MAX - grace <? max_memory_bytes l then UINT64_MAX else max_memory_bytes l + grace.

(** The budget part of [maybe_collect], for a heap of [bytes] bytes. *)
Definition check_memory (bytes : Z) (l : Limits) (s : Shared)
    : option (bool * Limits * Shared) :=
  if max_memory_bytes l =? 0 then Some (true, l, s) else
  let? delta := checked_i64 (to_i64 bytes - memory_published l) in
  let? total := checked_i64 (budget_bytes s + delta) in
  let s := with_budget_bytes (to_i64 (budget_bytes s + delta)) s in
  let l := with_memory (max_memory_bytes l) (to_i64 bytes) (memory_recheck l)
    (memory_limit_tripped l) (memory_hard_stopped l) l in
  if (total <=? 0) || (total <=? max_memory_bytes l) then Some (true, l, s) else
  if negb (memory_limit_tripped l) then
    Some (false, with_memory (memory_ceiling l) (memory_published l) (memory_recheck l) true
      (memory_hard_stopped l) l, s)
  else
    Some (false, with_memory (max_memory_bytes l) (memory_published l) (memory_recheck l)
      (memory_limit_tripped l) true l, s).

Section Collecting.
Context `{Layout} (realloc_succeeds : nat -> bool) (stress_minor_gc stress_gc : bool).

(** [maybe_collect]: a minor collection, a major one, then the budget. *)
Definition maybe_collect (vm : Vm) (l : Limits) (s : Shared)
    : option (bool * Vm * Limits * Shared) :=
  let l := with_memory (max_memory_bytes l) (memory_published l) false (memory_limit_tripped l)
    (memory_hard_stopped l) l in
  let? vm :=
    if stress_minor_gc ||
       (minor_gc_threshold_bytes vm <=?
          to_u64 (bytes_allocated vm - bytes_allocated_at_last_minor_gc vm))
    then diamond_vm_collect_minor_impl realloc_succeeds vm else Some vm in
  let? vm :=
    if stress_gc || (next_gc vm <=? bytes_allocated vm)
    then diamond_vm_collect_impl realloc_succeeds vm else Some vm in
  let? (ok, l, s) := check_memory (bytes_allocated vm) l s in
  Some (ok, vm, l, s).
End Collecting.

Section Allocating.
Context `{Layout} (realloc_succeeds : nat -> bool) (stress_minor_gc stress_gc : bool).

(** What every [allocate_*] function does before it allocates. *)
Definition allocating (allocate : Vm -> option Addr * Vm) (vm : Vm) (l : Limits) (s : Shared)
    : option (option Addr * Vm * Limits * Shared) :=
  let? (ok, vm, l, s) := maybe_collect realloc_succeeds stress_minor_gc stress_gc vm l s in
  if ok : bool then let '(object, vm) := allocate vm in Some (object, vm, l, s)
  else Some (None, vm, l, s).
End Allocating.

(** [note_storage_growth] *)
Definition note_storage_growth (l : Limits) : Limits :=
  if negb (max_memory_bytes l =? 0) then
    with_memory (max_memory_bytes l) (memory_published l) true (memory_limit_tripped l)
      (memory_hard_stopped l) l
  else l.

(** ** The instruction and wall-clock budgets *)

Definition CLOCK_CHECK_MASK : Z := 4095.
Definition INSTRUCTION_GRACE : Z := 1000000.
Definition WALL_GRACE_MILLISECONDS : Z := 1000.

(** [instruction_budget_exceeded] *)
Definition instruction_budget_exceeded (l : Limits) (s : Shared) : bool * Limits * Shared :=
  let pending := to_u64 (instructions_executed l - instructions_flushed l) in
  let total := to_u64 (budget_instructions s + pending) in
  (max_instructions l <? total,
   with_executed (instructions_executed l) (instructions_executed l) l,
   with_budget_instructions total s).

(** [resource_limit_trip] at time [now]. *)
Definition resource_limit_trip (now : Z) (l : Limits) : option Limits :=
  let count :=
    if negb (max_instructions l =? 0) then
      to_u64 (instructions_executed l +
        (if negb (grace_instructions l =? 0) then grace_instructions l else INSTRUCTION_GRACE))
    else hard_stop_instruction_count l in
  let? time :=
    if negb (max_wall_nanoseconds l =? 0) then
      let? deadline := checked_i64 (start_time_ns l + max_wall_nanoseconds l) in
      checked_i64 ((if deadline <? now then now else deadline) +
        (if negb (grace_wall_nanoseconds l =? 0) then grace_wall_nanoseconds l
         else WALL_GRACE_MILLISECONDS * 1000000))
    else Some (hard_stop_time_ns l) in
  Some (with_hard_stop 0 0 true count time l).

Inductive LimitStatus :=
  LIMIT_OK | RESOURCE_LIMIT_ERROR | RESOURCE_EXHAUSTED | INTERRUPTED | OUT_OF_MEMORY.

#[global] Instance LimitStatus_eq_dec : EqDecision LimitStatus.
Proof. solve_decision. Defined.

(** [resource_hard_stop] *)
Definition resource_hard_stop (l : Limits) : LimitStatus * Limits :=
  (RESOURCE_EXHAUSTED,
   with_hard_stop (max_instructions l) (max_wall_nanoseconds l) (resource_grace_active l) 0 0 l).

(** Whether [exception_class_for_status] gives the status a class a rescue
    clause can name. *)
Definition rescuable (l : Limits) (status : LimitStatus) : bool :=
  match status with
  | RESOURCE_LIMIT_ERROR => true
  | OUT_OF_MEMORY => memory_limit_tripped l && negb (memory_hard_stopped l)
  | _ => false
  end.

Definition clock_check (l : Limits) : bool :=
  Z.land (instructions_executed l) CLOCK_CHECK_MASK =? 0.

(** The soft budgets of the per-instruction block of [run_chunk]: [now] is its
    clock reading, [now'] that of [resource_limit_trip]. *)
Definition check_budgets (now now' : Z) (l : Limits) (s : Shared)
    : option (LimitStatus * Limits * Shared) :=
  let '(exceeded, l, s) :=
    if negb (max_instructions l =? 0) && clock_check l then instruction_budget_exceeded l s
    else (false, l, s) in
  if exceeded : bool then
    let? l := resource_limit_trip now' l in Some (RESOURCE_LIMIT_ERROR, l, s)
  else if negb (max_wall_nanoseconds l =? 0) && clock_check l then
    let? elapsed := checked_i64 (now - start_time_ns l) in
    if max_wall_nanoseconds l <? elapsed then
      let? l := resource_limit_trip now' l in Some (RESOURCE_LIMIT_ERROR, l, s)
    else Some (LIMIT_OK, l, s)
  else Some (LIMIT_OK, l, s).

(** The hard limits of the block, once the grace allowance runs. *)
Definition check_grace (now : Z) (l : Limits) : LimitStatus * Limits :=
  if negb (hard_stop_instruction_count l =? 0) &&
     (hard_stop_instruction_count l <? instructions_executed l)
  then resource_hard_stop l
  else if negb (hard_stop_time_ns l =? 0) && clock_check l && (hard_stop_time_ns l <? now)
  then resource_hard_stop l
  else (LIMIT_OK, l).

(** The block itself up to the memory check. *)
Definition instruction_check (interrupted : bool) (now now' : Z) (l : Limits) (s : Shared)
    : option (LimitStatus * Limits * Shared) :=
  if negb (resource_limits_active l) then Some (LIMIT_OK, l, s) else
  let l := with_executed (to_u64 (instructions_executed l + 1)) (instructions_flushed l) l in
  if interrupted then Some (INTERRUPTED, l, s) else
  if resource_grace_active l then
    let '(status, l) := check_grace now l in Some (status, l, s)
  else check_budgets now now' l s.

Section Instruction.
Context `{Layout} (realloc_succeeds : nat -> bool) (stress_minor_gc stress_gc : bool).

(** The whole per-instruction block. *)
Definition instruction_block (interrupted : bool) (now now' : Z) (vm : Vm) (l : Limits)
    (s : Shared) : option (LimitStatus * Vm * Limits * Shared) :=
  let? (status, l, s) := instruction_check interrupted now now' l s in
  match status with
  | LIMIT_OK =>
      if resource_limits_active l && memory_recheck l then
        let? (ok, vm, l, s) :=
          maybe_collect realloc_succeeds stress_minor_gc stress_gc vm l s in
        Some (if ok : bool then LIMIT_OK else OUT_OF_MEMORY, vm, l, s)
      else Some (LIMIT_OK, vm, l, s)
  | _ => Some (status, vm, l, s)
  end.
End Instruction.

(** ** Waiting *)

(** [wall_budget_limit_ns] *)
Definition wall_budget_limit_ns (l : Limits) : option Z :=
  if negb (max_wall_nanoseconds l =? 0) then
    checked_i64 (start_time_ns l + max_wall_nanoseconds l)
  else if resource_grace_active l && negb (hard_stop_time_ns l =? 0)
  then Some (hard_stop_time_ns l) else Some 0.

Definition INT_MAX : Z := 2147483647.

(** [bound_wait_by_wall_budget]: the timeout, and whether it was bounded. *)
Definition bound_wait_by_wall_budget (now : Z) (l : Limits) (timeout_ms : Z)
    : option (Z * bool) :=
  let? limit := wall_budget_limit_ns l in
  if limit =? 0 then Some (timeout_ms, false) else
  let? remaining_ns := checked_i64 (limit - now) in
  let? remaining_ms :=
    if remaining_ns <=? 0 then Some 0
    else let? sum := checked_i64 (remaining_ns + 999999) in Some (sum / 1000000) in
  let slice := remaining_ms + 1 in
  if (0 <=? timeout_ms) && (timeout_ms <=? slice) then Some (timeout_ms, false)
  else Some (if INT_MAX <? slice then INT_MAX else slice, true).

(** [wall_budget_after_wait] *)
Definition wall_budget_after_wait (now now' : Z) (l : Limits) : option (LimitStatus * Limits) :=
  let? limit := wall_budget_limit_ns l in
  if (limit =? 0) || (now <=? limit) then Some (LIMIT_OK, l)
  else if negb (max_wall_nanoseconds l =? 0) then
    let? l := resource_limit_trip now' l in Some (RESOURCE_LIMIT_ERROR, l)
  else Some (resource_hard_stop l).
