(* ===== verification/ThreadSlots.v ===== *)
(** * ThreadSlots: the cap on live threads

    [Thread.new] and [Supervisor#add_child] claim a slot of the process-wide
    [diamond_active_thread_count] with the compare-and-swap loop of
    [diamond_reserve_thread_slot] (src/vm_limits.c) and give it back when the
    thread is freed.  Creators run concurrently: a step is one access to the
    counter. *)

From S2P Require Import Prelude CText Limits.
From Stdlib Require Import ZArith Lia Bool List String.
From stdpp Require Import base numbers list relations.

Local Open Scope Z_scope.

Definition MAX_THREADS : Z := 64.

(** [diamond_live_thread_limit] *)
Definition diamond_live_thread_limit (env : option (list Z)) : Z :=
  match env with
  | None | Some [] => MAX_THREADS
  | Some text =>
      match strtoull text with
      | Some (parsed, []) =>
          if (parsed =? 0) || (MAX_THREADS <? parsed) then MAX_THREADS else parsed
      | _ => MAX_THREADS
      end
  end.

(** Who creates: the failure path of a thread frees a [DiamondThread], whose
    teardown decrements the count, so it counts it first. *)
Inductive CreatorKind := ThreadNew | AddChild.

Inductive Creator :=
  | Testing                   (** before the early test of the count *)
  | Loading                   (** before the load of [current] *)
  | Swapping (current : Z)    (** in the loop, with the last value read *)
  | Refused                   (** [diamond_reserve_thread_slot] returned false *)
  | Overcounted               (** counted for the benefit of [free_thread] *)
  | Holding                   (** the slot is taken: until [free_thread] *)
  | Rejected                  (** the error has been raised *)
  | Freed.

#[global] Instance Creator_eq_dec : EqDecision Creator.
Proof. solve_decision. Defined.

(** One access to the counter.  A weak compare-and-swap may fail spuriously. *)
Definition creator_step (limit : Z) (spurious : bool) (kind : CreatorKind) (c : Creator)
    (count : Z) : option (Creator * Z) :=
  match c with
  | Testing => Some (if limit <=? count then Rejected else Loading, count)
  | Loading => Some (Swapping count, count)
  | Swapping current =>
      if limit <=? current then Some (Refused, count)
      else if spurious || negb (count =? current) then Some (Swapping count, count)
      else Some (Holding, to_u64 (current + 1))
  | Refused =>
      match kind with
      | ThreadNew => Some (Overcounted, to_u64 (count + 1))
      | AddChild => Some (Rejected, count)
      end
  | Overcounted => Some (Rejected, to_u64 (count - 1))
  | Holding => Some (Freed, to_u64 (count - 1))
  | Rejected | Freed => None
  end.

Record Slots := { active_thread_count : Z; creators : list (CreatorKind * Creator) }.

Definition no_threads : Slots := {| active_thread_count := 0; creators := [] |}.

(** Any creator makes its next access, or a new one appears. *)
Inductive slots_step (limit : Z) (s : Slots) : Slots -> Prop :=
  | slots_new kind :
      Z.of_nat (length (creators s)) + 1 < two_64 ->
      slots_step limit s {| active_thread_count := active_thread_count s;
        creators := creators s ++ [(kind, Testing)] |}
  | slots_access i kind c spurious c' count :
      creators s !! i = Some (kind, c) ->
      creator_step limit spurious kind c (active_thread_count s) = Some (c', count) ->
      slots_step limit s {| active_thread_count := count;
        creators := <[i := (kind, c')]> (creators s) |}.

Definition holding (cs : list (CreatorKind * Creator)) : nat :=
  length (filter (fun c => snd c = Holding) cs).

Definition overcounted (cs : list (CreatorKind * Creator)) : nat :=
  length (filter (fun c => snd c = Overcounted) cs).

(** ** The invariant *)

(** The number of creators in state [x], after one of them moved. *)
Lemma state_update (x : Creator) (cs : list (CreatorKind * Creator)) i k c k' c' :
  cs !! i = Some (k, c) ->
  (length (filter (fun d => snd d = x) (<[i := (k', c')]> cs)) + (if decide (c = x) then 1 else 0) =
   length (filter (fun d => snd d = x) cs) + (if decide (c' = x) then 1 else 0))%nat.
Proof.
  intros Hi. rewrite insert_take_drop by (by eapply lookup_lt_Some).
  rewrite <-(take_drop_middle cs i (k, c) Hi) at 3.
  rewrite !filter_app, !filter_cons, !length_app. simpl.
  destruct (decide (c = x)), (decide (c' = x)); simpl; lia.
Qed.

Lemma state_le x (cs : list (CreatorKind * Creator)) :
  (length (filter (fun d => snd d = x) cs) <= length cs)%nat.
Proof. apply length_filter. Qed.

Lemma state_app x (cs : list (CreatorKind * Creator)) k c :
  length (filter (fun d => snd d = x) (cs ++ [(k, c)])) =
  (length (filter (fun d => snd d = x) cs) + (if decide (c = x) then 1 else 0))%nat.
Proof.
  rewrite filter_app, length_app, filter_cons. simpl.
  destruct (decide (c = x)); simpl; lia.
Qed.

Lemma two_states (cs : list (CreatorKind * Creator)) :
  (holding cs + overcounted cs <= length cs)%nat.
Proof.
  unfold holding, overcounted. induction cs as [|[k c] cs IH]; [done|].
  rewrite !filter_cons. simpl. destruct (decide (c = Holding)), (decide (c = Overcounted));
    simpl; try congruence; lia.
Qed.

(** A creator in the loop has read a value below [2^64]. *)
Record slots_ok (limit : Z) (s : Slots) : Prop := {
  so_count : active_thread_count s = Z.of_nat (holding (creators s) + overcounted (creators s));
  so_bound : Z.of_nat (holding (creators s)) <= limit;
  so_small : Z.of_nat (length (creators s)) < two_64;
}.

Lemma slots_step_ok limit s s' :
  limit < two_64 -> slots_ok limit s -> slots_step limit s s' -> slots_ok limit s'.
Proof.
  intros Hl [C B L] St. pose proof (two_states (creators s)) as T.
  unfold holding, overcounted in *.
  destruct St as [kind Hn|i kind c spurious c' count Hi E].
  - split; cbn; unfold holding, overcounted; rewrite ?state_app, ?length_app; simpl; lia.
  - pose proof (state_update Holding _ i kind c kind c' Hi) as U1.
    pose proof (state_update Overcounted _ i kind c kind c' Hi) as U2.
    assert (Hc : count = Z.of_nat
        (length (filter (fun d => snd d = Holding) (<[i := (kind, c')]> (creators s))) +
         length (filter (fun d => snd d = Overcounted) (<[i := (kind, c')]> (creators s)))) /\
      Z.of_nat (length (filter (fun d => snd d = Holding) (<[i := (kind, c')]> (creators s)))) <=
        limit).
    { destruct c; cbn [creator_step] in E; try done.
      - injection E as <- <-. destruct (limit <=? _); simpl in U1, U2; lia.
      - injection E as <- <-. simpl in U1, U2. lia.
      - destruct (Z.leb_spec limit current); [injection E as <- <-; simpl in U1, U2; lia|].
        destruct spurious; simpl in E; [injection E as <- <-; simpl in U1, U2; lia|].
        destruct (Z.eqb_spec (active_thread_count s) current); simpl in E;
          injection E as <- <-; simpl in U1, U2; [|lia].
        rewrite to_u64_small by lia. lia.
      - destruct kind; injection E as <- <-; simpl in U1, U2; [|lia].
        pose proof (state_update Refused _ i ThreadNew Refused ThreadNew Overcounted Hi) as U3.
        simpl in U3.
        pose proof (two_states (<[i := (ThreadNew, Overcounted)]> (creators s))) as T'.
        unfold holding, overcounted in T'. rewrite length_insert in T'.
        rewrite to_u64_small by lia. lia.
      - injection E as <- <-. simpl in U1, U2. rewrite to_u64_small by lia. lia.
      - injection E as <- <-. simpl in U1, U2. rewrite to_u64_small by lia. lia. }
    destruct Hc as [Hc1 Hc2].
    split; cbn; unfold holding, overcounted; rewrite ?length_insert; done.
Qed.

Lemma live_limit_range env : 1 <= diamond_live_thread_limit env <= MAX_THREADS.
Proof.
  unfold diamond_live_thread_limit, MAX_THREADS. destruct env as [[|c t]|]; try lia.
  destruct (strtoull (c :: t)) as [[parsed [|]]|] eqn:E; try lia.
  assert (0 <= parsed).
  { unfold strtoull in E. destruct (strip_sign _) as [neg u].
    pose proof (span_digits_spec u) as Hs. destruct (span_digits u) as [[|d ds] tl]; [done|].
    destruct Hs as (_ & Hd & _). pose proof (decimal_value_bounds _ Hd).
    injection E as <- _. destruct (Z.ltb_spec UINT64_MAX (decimal_value (d :: ds)));
      [unfold_widths; lia|]. destruct neg; [apply to_u64_range|lia]. }
  destruct (Z.eqb_spec parsed 0), (Z.ltb_spec 64 parsed); simpl; lia.
Qed.

(** C23: However creators of threads interleave, and however often a
    compare-and-swap fails, the threads that hold a slot never exceed
    [DIAMOND_MAX_LIVE_THREADS] (nor the built-in 64), and the shared count is
    exactly the slots held plus the failed creations about to be undone: it
    never wraps below zero. *)
Theorem thread_slots_bounded (env : option (list Z)) (s : Slots) :
  rtc (slots_step (diamond_live_thread_limit env)) no_threads s ->
  active_thread_count s = Z.of_nat (holding (creators s) + overcounted (creators s)) /\
  Z.of_nat (holding (creators s)) <= diamond_live_thread_limit env <= 64.
Proof.
  intros R. pose proof (live_limit_range env) as Hl. unfold MAX_THREADS in Hl.
  assert (K : slots_ok (diamond_live_thread_limit env) s).
  { revert R. generalize (diamond_live_thread_limit env) as limit, Hl. intros limit Hl' R.
    assert (K0 : slots_ok limit no_threads) by (split; [done|cbn; lia|done]).
    induction R as [x|x y z Hxy R IH]; [done|]. apply IH; [..|eapply slots_step_ok; [|done..]]; [done..|].
    unfold two_64. lia. }
  destruct K. split; [done|lia].
Qed.

(** A run with a limit of one: [A] takes the slot, [B], past its early test,
    is refused and counts itself. *)
Definition one_thread : option (list Z) := Some (bytes " 1").

Definition contended : Slots :=
  {| active_thread_count := 2; creators := [(ThreadNew, Holding); (ThreadNew, Overcounted)] |}.

(** The creator [i] makes its next access. *)
Definition access (limit : Z) (i : nat) (s : Slots) : option Slots :=
  match creators s !! i with
  | Some (kind, c) =>
      match creator_step limit false kind c (active_thread_count s) with
      | Some (c', count) =>
          Some {| active_thread_count := count; creators := <[i := (kind, c')]> (creators s) |}
      | None => None
      end
  | None => None
  end.

Fixpoint accesses (limit : Z) (order : list nat) (s : Slots) : option Slots :=
  match order with
  | [] => Some s
  | i :: order => match access limit i s with Some s => accesses limit order s | None => None end
  end.

Lemma accesses_run limit order s s' : accesses limit order s = Some s' -> rtc (slots_step limit) s s'.
Proof.
  revert s. induction order as [|i order IH]; intros s; cbn [accesses]; [by intros [= <-]|].
  unfold access. destruct (creators s !! i) as [[kind c]|] eqn:Hi; [|done].
  destruct (creator_step _ _ _ _ _) as [[c' count]|] eqn:E; [|done]. intros R%IH.
  eapply rtc_l; [by eapply slots_access|done].
Qed.

Lemma contended_run : rtc (slots_step (diamond_live_thread_limit one_thread)) no_threads contended.
Proof.
  eapply rtc_l; [apply (slots_new _ _ ThreadNew); vm_compute; reflexivity|].
  eapply rtc_l; [apply (slots_new _ _ ThreadNew); vm_compute; reflexivity|].
  apply (accesses_run _ [0; 1; 0; 1; 0; 1; 1; 1]%nat). vm_compute. reflexivity.
Qed.

Lemma thread_slots_bounded_witness :
  diamond_live_thread_limit one_thread = 1 /\ active_thread_count contended = 2 /\
  Z.of_nat (holding (creators contended)) <= diamond_live_thread_limit one_thread.
Proof.
  split; [vm_compute; reflexivity|]. split; [reflexivity|].
  apply (thread_slots_bounded one_thread contended contended_run).
Defined.

(** The count overshoots the cap while a refused creation is undone: from
    [contended], once [A]'s thread is freed, no thread is live and a new
    creator is rejected all the same. *)
Lemma overcount_rejects :
  exists s, rtc (slots_step 1) contended s /\ holding (creators s) = 0%nat /\
    creators s !! 2%nat = Some (ThreadNew, Rejected).
Proof.
  eexists. split; [|split].
  - eapply rtc_l; [apply (slots_new _ _ ThreadNew); vm_compute; reflexivity|].
    apply (accesses_run _ [0; 2]%nat). vm_compute. reflexivity.
  - reflexivity.
  - reflexivity.
Qed.
