(* ===== verification/Process.v ===== *)
(** * Process: the VMs of a process and their shared budgets

    A run of a process: VMs start, run instructions, allocate, collect, wait,
    finish and are freed, in any order, each through the operations of Limits
    on its own fields and on the shared counters; a VM that starts registers
    one access at a time, other VMs moving in between.  A VM that returns a status
    no rescue clause can name stops running. *)

From S2P Require Import Prelude CText GcHeap GcMark GcMarkOk GcSweep GcSweepOk GcInvariant.
From S2P Require Import GcBarrier GcMutator GcHash GcAlloc GcProgram Limits.
From Stdlib Require Import ZArith Lia Bool List String.
From stdpp Require Import base numbers list gmap relations.

Local Open Scope Z_scope.
Local Open Scope c_scope.

(** ** Sums over a finite map *)

Definition total {A} (f : A -> Z) (m : gmap positive A) : Z :=
  map_fold (fun _ v acc => f v + acc) 0 m.

Lemma total_empty {A} (f : A -> Z) : total f ∅ = 0.
Proof. apply map_fold_empty. Qed.

Lemma total_insert {A} (f : A -> Z) m k v :
  m !! k = None -> total f (<[k := v]> m) = f v + total f m.
Proof.
  intros Hk. unfold total.
  apply (map_fold_insert_L (fun _ w acc => f w + acc) 0 k v m); [intros; lia|done].
Qed.

Lemma total_delete {A} (f : A -> Z) m k v :
  m !! k = Some v -> total f (delete k m) = total f m - f v.
Proof.
  intros Hk. rewrite <-(insert_delete_id m k v) at 2 by done.
  rewrite total_insert by apply lookup_delete_eq. lia.
Qed.

Lemma total_update {A} (f : A -> Z) m k v v' :
  m !! k = Some v -> total f (<[k := v']> m) = total f m - f v + f v'.
Proof.
  intros Hk. rewrite <-insert_delete_eq, total_insert by apply lookup_delete_eq.
  rewrite (total_delete f m k v) by done. lia.
Qed.

Lemma total_ge_0 {A} (f : A -> Z) m :
  (forall k v, m !! k = Some v -> 0 <= f v) -> 0 <= total f m.
Proof.
  induction m as [|k v m Hk IH] using map_ind; intros Hf; [by rewrite total_empty|].
  rewrite total_insert by done. pose proof (Hf k v (lookup_insert_eq _ _ _)).
  assert (0 <= total f m); [|lia]. apply IH. intros j w Hj. apply (Hf j).
  rewrite lookup_insert_ne; [done|congruence].
Qed.

Lemma total_ge {A} (f : A -> Z) m k v :
  (forall k v, m !! k = Some v -> 0 <= f v) -> m !! k = Some v -> f v <= total f m.
Proof.
  intros Hf Hk. pose proof (total_delete f m k v Hk).
  assert (0 <= total f (delete k m)); [|lia]. apply total_ge_0.
  intros j w [_ Hj]%lookup_delete_Some. by apply (Hf j).
Qed.

Lemma total_mono {A} (f g : A -> Z) m :
  (forall k v, m !! k = Some v -> f v <= g v) -> total f m <= total g m.
Proof.
  intros Hfg. assert (0 <= total (fun v => g v - f v) m) as Hd.
  { apply total_ge_0. intros k v Hk. specialize (Hfg k v Hk). lia. }
  assert (E : total (fun v => g v - f v) m = total g m - total f m); [|lia]. clear.
  induction m as [|k v m Hk IH] using map_ind; [by rewrite !total_empty|].
  rewrite !total_insert by done. lia.
Qed.

Lemma total_size {A} (f : A -> Z) m :
  (forall k v, m !! k = Some v -> f v <= 1) -> total f m <= Z.of_nat (size m).
Proof.
  induction m as [|k v m Hk IH] using map_ind; intros Hf; [by rewrite total_empty, map_size_empty|].
  rewrite total_insert, map_size_insert_None by done.
  pose proof (Hf k v (lookup_insert_eq _ _ _)).
  assert (total f m <= Z.of_nat (size m)); [|lia]. apply IH. intros j w Hj. apply (Hf j).
  rewrite lookup_insert_ne; [done|congruence].
Qed.

Lemma total_zero {A} (f : A -> Z) m :
  (forall k v, m !! k = Some v -> f v = 0) -> total f m = 0.
Proof.
  intros Hf. assert (0 <= total f m) by (apply total_ge_0; intros k v Hk; rewrite (Hf k v Hk); lia).
  assert (0 <= total (fun v => - f v) m)
    by (apply total_ge_0; intros k v Hk; rewrite (Hf k v Hk); lia).
  assert (total (fun v => - f v) m = - total f m); [|lia]. clear.
  induction m as [|k v m Hk IH] using map_ind; [by rewrite !total_empty|].
  rewrite !total_insert by done. lia.
Qed.

Lemma to_i64_add a b : to_i64 (to_i64 a + b) = to_i64 (a + b).
Proof.
  unfold to_i64. f_equal.
  replace ((a + two_63) mod two_64 - two_63 + b + two_63)
    with ((a + two_63) mod two_64 + b) by lia.
  rewrite Zplus_mod_idemp_l. f_equal. lia.
Qed.

(** ** Processes *)

(** A VM: [config] is what [read_limits] read, [running] is false once a status
    has ended it. *)
Record VmState := { heap : Vm; limits : Limits; config : Limits; running : bool }.

(** [counted]: the instructions budgeted VMs have run since the counters were
    last reset. *)
Record Process := { shared : Shared; vms : gmap positive VmState; counted : Z }.

Definition set_vm (id : positive) (v : VmState) (s : Shared) (n : Z) (p : Process) : Process :=
  {| shared := s; vms := <[id := v]> (vms p); counted := n |}.

Definition initial_process : Process :=
  {| shared := initial_shared; vms := ∅; counted := 0 |}.

(** Whether the VM goes on after a status. *)
Definition goes_on (l : Limits) (status : LimitStatus) : bool :=
  bool_decide (status = LIMIT_OK) || rescuable l status.

Definition counts (l : Limits) : Z :=
  if budgets_registered l && resource_limits_active l then 1 else 0.

Section Process.
Context `{Layout}.

(** One step of the VM [id]; an allocation is a [p_collect], then a [p_heap]
    when the first succeeded.  Another VM may move between the check of an
    instruction and the collection that ends its block: that is a [p_check]
    and a [p_collect].  [budget_release_finished] and [budget_unregister] add and
    subtract amounts the VM alone holds and are taken as one step.  Fewer than
    [2^64] instructions are run. *)
Inductive process_step (p : Process) (id : positive) : Process -> Prop :=
  | p_heap v h l :
      vms p !! id = Some v -> running v = true -> gc_step (heap v) h ->
      l = limits v \/ l = note_storage_growth (limits v) ->
      process_step p id (set_vm id {| heap := h; limits := l; config := config v;
        running := true |} (shared p) (counted p) p)
  | p_collect v r stress_minor stress ok h l s :
      vms p !! id = Some v -> running v = true ->
      maybe_collect r stress_minor stress (heap v) (limits v) (shared p) = Some (ok, h, l, s) ->
      process_step p id (set_vm id {| heap := h; limits := l; config := config v;
        running := goes_on l (if ok : bool then LIMIT_OK else OUT_OF_MEMORY) |} s
        (counted p) p)
  | p_check v interrupted now now' status l s :
      vms p !! id = Some v -> running v = true ->
      counted p + 1 < two_64 -> instructions_executed (limits v) + 1 < two_64 ->
      instruction_check interrupted now now' (limits v) (shared p) = Some (status, l, s) ->
      process_step p id (set_vm id {| heap := heap v; limits := l; config := config v;
        running := goes_on l status |} s (counted p + counts (limits v)) p)
  | p_instruction v r stress_minor stress interrupted now now' status h l s :
      vms p !! id = Some v -> running v = true ->
      counted p + 1 < two_64 -> instructions_executed (limits v) + 1 < two_64 ->
      instruction_block r stress_minor stress interrupted now now' (heap v) (limits v)
        (shared p) = Some (status, h, l, s) ->
      process_step p id (set_vm id {| heap := h; limits := l; config := config v;
        running := goes_on l status |} s (counted p + counts (limits v)) p)
  | p_wait v now now' status l :
      vms p !! id = Some v -> running v = true ->
      wall_budget_after_wait now now' (limits v) = Some (status, l) ->
      process_step p id (set_vm id {| heap := heap v; limits := l; config := config v;
        running := goes_on l status |} (shared p) (counted p) p)
  | p_finish v l s :
      vms p !! id = Some v -> budget_release_finished (limits v) (shared p) = (l, s) ->
      process_step p id (set_vm id {| heap := heap v; limits := l; config := config v;
        running := false |} s (counted p) p)
  | p_free v :
      vms p !! id = Some v ->
      process_step p id {| shared := budget_unregister (limits v) (shared p);
        vms := delete id (vms p); counted := counted p |}.

(** ** New VMs

    Registration is not one step: other VMs move between its accesses.  A VM
    inside [diamond_vm_init] is at the access it makes next. *)
Inductive Stage :=
  | RESET_INSTRUCTIONS | RESET_BYTES | RESET_START | CLOCK_EXCHANGE | CLOCK_LOAD.

Record System := { process : Process; registering : gmap positive Stage }.

Definition initial_system : System := {| process := initial_process; registering := ∅ |}.

Definition at_stage (id : positive) (st : option Stage) (stages : gmap positive Stage)
    : gmap positive Stage :=
  match st with Some st => <[id := st]> stages | None => delete id stages end.

(** What follows the resets: the clock, with a wall-clock budget. *)
Definition clock_stage (l : Limits) : option Stage :=
  if negb (max_wall_nanoseconds l =? 0) then Some CLOCK_EXCHANGE else None.

Definition set_shared (s : Shared) (n : Z) (p : Process) : Process :=
  {| shared := s; vms := vms p; counted := n |}.

(** A VM with its limits before it runs. *)
Definition new_vm (c l : Limits) : VmState :=
  {| heap := diamond_vm_init; limits := l; config := c; running := true |}.

(** Where a VM is created: the first one by the program's main thread, every
    other one while a VM that has been set up (the creator's, or the one that
    keeps a supervised child's arguments) is alive. *)
Definition creates (m : System) : Prop :=
  vms (process m) = ∅ \/
  exists id, is_Some (vms (process m) !! id) /\ registering m !! id = None.

(** One step of the process, whose environment is [getenv]: a step of a VM
    that is set up, or one access of a VM inside [diamond_vm_init].  Fewer than
    [2^64] VMs live at a time. *)
Inductive system_step (getenv : string -> option (list Z)) (m : System) : System -> Prop :=
  | m_vm id p :
      registering m !! id = None -> process_step (process m) id p ->
      system_step getenv m {| process := p; registering := registering m |}
  | m_start id :
      creates m -> vms (process m) !! id = None ->
      Z.of_nat (size (vms (process m))) + 1 < two_64 ->
      resource_limits_active (read_limits getenv) = false ->
      system_step getenv m
        {| process := set_vm id (new_vm (read_limits getenv) (read_limits getenv))
             (shared (process m)) (counted (process m)) (process m);
           registering := registering m |}
  | m_count id first s :
      creates m -> vms (process m) !! id = None ->
      Z.of_nat (size (vms (process m))) + 1 < two_64 ->
      resource_limits_active (read_limits getenv) = true ->
      register_count (shared (process m)) = (first, s) ->
      system_step getenv m
        {| process := set_vm id (new_vm (read_limits getenv)
               (with_registered (start_time_ns (read_limits getenv)) (read_limits getenv)))
             s (counted (process m)) (process m);
           registering := at_stage id
             (if first : bool then Some RESET_INSTRUCTIONS else clock_stage (read_limits getenv))
             (registering m) |}
  | m_reset_instructions id :
      registering m !! id = Some RESET_INSTRUCTIONS ->
      system_step getenv m
        {| process := set_shared (reset_instructions (shared (process m))) 0 (process m);
           registering := at_stage id (Some RESET_BYTES) (registering m) |}
  | m_reset_bytes id :
      registering m !! id = Some RESET_BYTES ->
      system_step getenv m
        {| process := set_shared (reset_bytes (shared (process m))) (counted (process m)) (process m);
           registering := at_stage id (Some RESET_START) (registering m) |}
  | m_reset_start id :
      registering m !! id = Some RESET_START ->
      system_step getenv m
        {| process := set_shared (reset_start (shared (process m))) (counted (process m)) (process m);
           registering := at_stage id (clock_stage (read_limits getenv)) (registering m) |}
  | m_clock_exchange id now :
      registering m !! id = Some CLOCK_EXCHANGE ->
      system_step getenv m
        {| process := set_shared (register_clock now (shared (process m)))
             (counted (process m)) (process m);
           registering := at_stage id (Some CLOCK_LOAD) (registering m) |}
  | m_clock_load id v :
      registering m !! id = Some CLOCK_LOAD -> vms (process m) !! id = Some v ->
      system_step getenv m
        {| process := set_vm id
             {| heap := heap v;
                limits := with_registered (budget_start_ns (shared (process m))) (limits v);
                config := config v; running := running v |}
             (shared (process m)) (counted (process m)) (process m);
           registering := at_stage id None (registering m) |}.
End Process.
