(* ===== verification/ProcessOk.v ===== *)
(** * ProcessOk: the invariant of a process

    In every run the shared counters are the sums of what the VMs have added,
    every heap is well formed, and a VM with an instruction budget stays within
    the budget, one flush interval and its grace allowance. *)

From Stdlib Require Import ZArith Lia Bool List String.
From stdpp Require Import base numbers list gmap relations.
From S2P Require Import Prelude CText GcHeap GcMark GcMarkOk GcSweep GcSweepOk GcInvariant.
From S2P Require Import GcBarrier GcMutator GcHash GcAlloc GcProgram Limits Process.

Local Open Scope Z_scope.
Local Open Scope c_scope.

(** ** What the operations change *)

Section Effects.
Context `{Layout}.

(** The collections of [maybe_collect]. *)
Lemma collect_both r (minor major : Vm -> bool) vm :
  heap_ok vm ->
  exists vm1 vm2,
    (if minor vm then diamond_vm_collect_minor_impl r vm else Some vm) = Some vm1 /\
    (if major vm1 then diamond_vm_collect_impl r vm1 else Some vm1) = Some vm2 /\
    heap_ok vm2 /\ roots vm2 = roots vm /\ (forall a, reachable vm2 a <-> reachable vm a) /\
    (forall a, reachable vm a -> is_Some (objects vm2 !! a)).
Proof.
  intros K.
  assert (exists vm1, (if minor vm then diamond_vm_collect_minor_impl r vm else Some vm) = Some vm1 /\
    heap_ok vm1 /\ roots vm1 = roots vm /\ (forall a, reachable vm1 a <-> reachable vm a))
    as (vm1 & E1 & K1 & R1 & S1).
  { destruct (minor vm); [|by exists vm].
    destruct (collect_minor r vm K) as (vm1 & E & K1 & S & R & _). exists vm1.
    split_and!; auto. intros a. by apply same_reach_iff; [|apply K..]. }
  exists vm1. destruct (major vm1).
  - destruct (collect_major r vm1 K1) as (vm2 & E & K2 & S & R & _). exists vm2.
    assert (S2 : forall a, reachable vm2 a <-> reachable vm a).
    { intros a. rewrite <-S1. by apply same_reach_iff; [|apply K1..]. }
    split_and!; auto; [congruence|]. intros a Ha%S2. by eapply (reached_in vm2).
  - exists vm1. split_and!; auto. intros a Ha%S1. by eapply (reached_in vm1).
Qed.

(** The memory fields after a check of [bytes] bytes. *)
Record memory_checked (bytes : Z) (ok : bool) (l l' : Limits) (s s' : Shared) : Prop := {
  mc_limits : exists m pub rc tr hd, l' = with_memory m pub rc tr hd l;
  mc_off : max_memory_bytes l = 0 ->
    ok = true /\ memory_published l' = memory_published l /\ s' = s /\ max_memory_bytes l' = 0;
  mc_on : max_memory_bytes l <> 0 -> memory_published l' = to_i64 bytes /\
    exists total, total = budget_bytes s + (to_i64 bytes - memory_published l) /\ in_i64 total /\
      s' = with_budget_bytes total s /\ (ok = true <-> total <= max_memory_bytes l);
  mc_true : ok = true -> max_memory_bytes l' = max_memory_bytes l /\
    memory_limit_tripped l' = memory_limit_tripped l /\
    memory_hard_stopped l' = memory_hard_stopped l;
  mc_first : ok = false -> memory_limit_tripped l = false ->
    max_memory_bytes l' = memory_ceiling l /\ memory_limit_tripped l' = true /\
    memory_hard_stopped l' = memory_hard_stopped l;
  mc_again : ok = false -> memory_limit_tripped l = true ->
    max_memory_bytes l' = max_memory_bytes l /\ memory_limit_tripped l' = true /\
    memory_hard_stopped l' = true;
}.

Lemma checked_spec z r : checked_i64 z = Some r <-> r = z /\ in_i64 z.
Proof.
  unfold checked_i64, in_i64. destruct (Z.leb_spec INT64_MIN z), (Z.leb_spec z INT64_MAX);
    simpl; split; try naive_solver lia.
Qed.

Lemma check_memory_spec bytes l s ok l' s' :
  0 <= max_memory_bytes l -> check_memory bytes l s = Some (ok, l', s') ->
  memory_checked bytes ok l l' s s' /\ memory_recheck l' = memory_recheck l.
Proof.
  intros Hmax. unfold check_memory. destruct (Z.eqb_spec (max_memory_bytes l) 0) as [E0|E0].
  { intros [= <- <- <-]. split; [|done]. split; cbn; [|done|done|done|done|done].
    exists (max_memory_bytes l), (memory_published l), (memory_recheck l),
      (memory_limit_tripped l), (memory_hard_stopped l). by destruct l. }
  destruct (checked_i64 (to_i64 bytes - _)) as [delta|] eqn:E1; [|done].
  apply checked_spec in E1 as [-> _].
  destruct (checked_i64 (budget_bytes s + _)) as [tot|] eqn:E2; [|done].
  apply checked_spec in E2 as [-> Hin]. rewrite (to_i64_small _ Hin).
  set (tot := budget_bytes s + (to_i64 bytes - memory_published l)) in *.
  cbn [max_memory_bytes with_memory memory_limit_tripped memory_recheck memory_hard_stopped].
  destruct ((tot <=? 0) || (tot <=? max_memory_bytes l)) eqn:Ec.
  - assert (tot <= max_memory_bytes l)
      by (apply orb_true_iff in Ec as [?%Z.leb_le|?%Z.leb_le]; lia).
    intros [= <- <- <-]. split; [|done]. split; cbn; [repeat eexists|done| |done|done|done].
    intros _. split; [done|]. exists tot. done.
  - apply orb_false_iff in Ec as [?%Z.leb_gt ?%Z.leb_gt].
    destruct (memory_limit_tripped l) eqn:Et; cbn [negb]; intros [= <- <- <-]; (split; [|done]);
      (split; cbn; [repeat eexists|done| |done|first [done|congruence]..]);
      (intros _; split; [done|]; exists tot; split_and!; try done; split; [done|lia]).
Qed.

Lemma maybe_collect_spec r sm st vm l s ok vm' l' s' :
  heap_ok vm -> 0 <= max_memory_bytes l ->
  maybe_collect r sm st vm l s = Some (ok, vm', l', s') ->
  heap_ok vm' /\ memory_checked (bytes_allocated vm') ok l l' s s' /\ memory_recheck l' = false.
Proof.
  intros K Hm E. unfold maybe_collect in E.
  set (minor := fun vm => sm || (minor_gc_threshold_bytes vm <=?
    to_u64 (bytes_allocated vm - bytes_allocated_at_last_minor_gc vm))).
  set (major := fun vm => st || (next_gc vm <=? bytes_allocated vm)).
  destruct (collect_both r minor major vm K) as (vm1 & vm2 & E1 & E2 & K2 & _).
  unfold minor in E1. unfold major in E2. rewrite E1, E2 in E.
  destruct (check_memory _ _ _) as [[[ok1 l1] s1]|] eqn:Ec; [|done].
  injection E as <- <- <- <-. apply check_memory_spec in Ec as [[(m & pub & rc & tr & hd & Hl) C2 C3 C4 C5 C6] Hr]; [|done].
  cbn in *. split; [done|]. split; [|done]. split; try done. subst l1. repeat eexists.
Qed.
End Effects.

(** ** The instruction budget of one VM *)

Definition grace_of (c : Limits) : Z :=
  if grace_instructions c =? 0 then INSTRUCTION_GRACE else grace_instructions c.

(** The last instruction a VM configured as [c] may run; the next one stops it. *)
Definition instruction_ceiling (c : Limits) : Z := max_instructions c + 4096 + grace_of c.

(** Before the budget trips: every 4096th instruction has been flushed, and the
    last flush was within the budget. *)
Record armed (c l : Limits) : Prop := {
  ar_grace : resource_grace_active l = false;
  ar_max : max_instructions l = max_instructions c;
  ar_flushed : instructions_flushed l = instructions_executed l - instructions_executed l mod 4096;
  ar_within : instructions_flushed l <= max_instructions c;
}.

(** After it tripped. *)
Record in_grace (c l : Limits) : Prop := {
  ig_grace : resource_grace_active l = true;
  ig_off : max_wall_nanoseconds l = 0;
  ig_set : hard_stop_instruction_count l <> 0;
  ig_within : instructions_executed l <= hard_stop_instruction_count l;
  ig_ceiling : hard_stop_instruction_count l <= instruction_ceiling c;
}.

Record instructions_ok (c l : Limits) (running : bool) : Prop := {
  io_same : grace_instructions l = grace_instructions c;
  io_bound : instructions_executed l <= instruction_ceiling c + 1;
  io_state : running = true -> armed c l \/ in_grace c l;
}.

Lemma instructions_ok_weaken c l b : instructions_ok c l true -> instructions_ok c l b.
Proof. intros [O1 O2 O3]. split; auto. Qed.

Lemma grace_of_positive c : 0 <= grace_instructions c -> 0 < grace_of c.
Proof. unfold grace_of, INSTRUCTION_GRACE. case_bools; lia. Qed.

Lemma clock_check_mod l : clock_check l = true <-> instructions_executed l mod 4096 = 0.
Proof.
  unfold clock_check, CLOCK_CHECK_MASK. change 4095 with (Z.ones 12).
  rewrite Z.land_ones by lia. change (2 ^ 12) with 4096. apply Z.eqb_eq.
Qed.

Lemma armed_bound c l :
  armed c l -> instructions_executed l <= max_instructions c + 4095.
Proof.
  intros [_ _ Hf Hw]. pose proof (Z.mod_pos_bound (instructions_executed l) 4096 ltac:(lia)). lia.
Qed.

(** Tripping moves an armed VM into its grace allowance. *)
Lemma trip_in_grace c l now l' :
  0 <= grace_instructions c -> grace_instructions l = grace_instructions c ->
  max_instructions c <> 0 -> max_instructions l = max_instructions c ->
  0 <= instructions_executed l <= max_instructions c + 4096 -> instruction_ceiling c < two_64 ->
  resource_limit_trip now l = Some l' ->
  in_grace c l' /\ grace_instructions l' = grace_instructions c /\
  instructions_executed l' = instructions_executed l /\
  instructions_flushed l' = instructions_flushed l.
Proof.
  intros Hg Eg HN Em He Hc E. pose proof (grace_of_positive c Hg). unfold resource_limit_trip in E.
  destruct (if negb (max_wall_nanoseconds l =? 0) then _ else _) as [time|]; [|done].
  injection E as <-. rewrite Em, Eg. destruct (Z.eqb_spec (max_instructions c) 0); [done|].
  assert (Hsum : instructions_executed l +
    (if negb (grace_instructions c =? 0) then grace_instructions c else INSTRUCTION_GRACE) =
    instructions_executed l + grace_of c).
  { unfold grace_of. by destruct (grace_instructions c =? 0). }
  cbn [negb]. rewrite Hsum. unfold instruction_ceiling in *.
  rewrite to_u64_small by lia. split_and!; [|done..]. split; cbn; [done|done|lia..|].
  unfold instruction_ceiling. lia.
Qed.

Lemma trip_changes now l l' :
  resource_limit_trip now l = Some l' ->
  exists count time, l' = with_hard_stop 0 0 true count time l.
Proof.
  unfold resource_limit_trip.
  destruct (if negb (max_wall_nanoseconds l =? 0) then _ else _) as [time|]; [|done].
  intros [= <-]. eauto.
Qed.

(** What a check does to the counters: it counts one instruction and flushes,
    or not, and leaves the rest of the shared state alone. *)
Record counted_one (l l' : Limits) (s s' : Shared) : Prop := {
  co_shared : exists x, s' = with_budget_instructions x s;
  co_same : budgets_registered l' = budgets_registered l /\
    resource_limits_active l' = resource_limits_active l /\
    memory_published l' = memory_published l /\ max_memory_bytes l' = max_memory_bytes l;
  co_max : max_instructions l' = max_instructions l \/ max_instructions l' = 0;
  co_executed : instructions_executed l' =
    if resource_limits_active l then to_u64 (instructions_executed l + 1)
    else instructions_executed l;
  co_flushed : (instructions_flushed l' = instructions_flushed l /\ s' = s) \/
    (instructions_flushed l' = instructions_executed l' /\ max_instructions l <> 0 /\
     budget_instructions s' = to_u64 (budget_instructions s +
       to_u64 (instructions_executed l' - instructions_flushed l)));
}.

Lemma trip_counted l1 l2 l s s1 now :
  resource_limit_trip now l1 = Some l2 -> counted_one l l1 s s1 -> counted_one l l2 s s1.
Proof. intros (count & time & ->)%trip_changes []. split; cbn; auto. Qed.

Lemma instruction_check_counts interrupted now now' l s status l' s' :
  instruction_check interrupted now now' l s = Some (status, l', s') -> counted_one l l' s s'.
Proof.
  assert (Hs : exists x, s = with_budget_instructions x s)
    by (exists (budget_instructions s); by destruct s).
  unfold instruction_check. destruct (resource_limits_active l) eqn:Ea; cbn [negb].
  2: { intros [= <- <- <-]. split; rewrite ?Ea; auto. }
  set (l1 := with_executed _ _ l).
  assert (C1 : counted_one l l1 s s) by (split; rewrite ?Ea; auto).
  destruct interrupted; [by intros [= <- <- <-]|].
  destruct (resource_grace_active l1).
  { unfold check_grace. destruct (_ && _); [|destruct (_ && _)]; cbn;
      intros [= <- <- <-]; destruct C1; by split. }
  unfold check_budgets.
  assert (C2 : counted_one l (if negb (max_instructions l1 =? 0) && clock_check l1
      then snd (fst (instruction_budget_exceeded l1 s)) else l1) s
    (if negb (max_instructions l1 =? 0) && clock_check l1
     then snd (instruction_budget_exceeded l1 s) else s)).
  { destruct (Z.eqb_spec (max_instructions l1) 0); [done|].
    destruct (clock_check l1); [|done]. destruct C1. split; cbn; eauto. }
  revert C2. destruct (negb (max_instructions l1 =? 0) && clock_check l1); cbn [fst snd].
  - destruct (instruction_budget_exceeded l1 s) as [[exceeded l2] s2]. cbn [fst snd]. intros C2.
    destruct exceeded.
    { destruct (resource_limit_trip now' l2) eqn:Et; [|done]. intros [= <- <- <-].
      by eapply trip_counted. }
    destruct (_ && _); [|by intros [= <- <- <-]].
    destruct (checked_i64 _); [|done]. destruct (_ <? _); [|by intros [= <- <- <-]].
    destruct (resource_limit_trip now' l2) eqn:Et; [|done]. intros [= <- <- <-].
    by eapply trip_counted.
  - intros C2. destruct (_ && _); [|by intros [= <- <- <-]].
    destruct (checked_i64 _); [|done]. destruct (_ <? _); [|by intros [= <- <- <-]].
    destruct (resource_limit_trip now' l1) eqn:Et; [|done]. intros [= <- <- <-].
    by eapply trip_counted.
Qed.

Lemma instruction_check_same interrupted now now' l s status l' s' :
  instruction_check interrupted now now' l s = Some (status, l', s') ->
  grace_memory_bytes l' = grace_memory_bytes l /\ grace_instructions l' = grace_instructions l.
Proof.
  assert (Ht : forall l1 l2, resource_limit_trip now' l1 = Some l2 ->
    grace_memory_bytes l2 = grace_memory_bytes l1 /\ grace_instructions l2 = grace_instructions l1)
    by (by intros l1 l2 (count & time & ->)%trip_changes).
  unfold instruction_check. destruct (negb _); [by intros [= <- <- <-]|].
  destruct interrupted; [by intros [= <- <- <-]|].
  destruct (resource_grace_active _).
  { unfold check_grace. destruct (_ && _); [|destruct (_ && _)]; by intros [= <- <- <-]. }
  unfold check_budgets, instruction_budget_exceeded.
  destruct (negb _ && _); [destruct (_ <? _)|]; cbv beta iota zeta;
    try (destruct (negb _ && _); [destruct (checked_i64 _); [|done]; destruct (_ <? _)|]);
    try (intros [= <- <- <-]; done);
    (destruct (resource_limit_trip now' _) eqn:Et; [|done]; intros [= <- <- <-]; by apply Ht in Et).
Qed.

(** A VM just past an instruction, its budget not yet checked. *)
Record unchecked (c l : Limits) : Prop := {
  un_grace : resource_grace_active l = false;
  un_max : max_instructions l = max_instructions c;
  un_same : grace_instructions l = grace_instructions c;
  un_executed : 0 < instructions_executed l;
  un_flushed : instructions_flushed l =
    instructions_executed l - 1 - (instructions_executed l - 1) mod 4096;
  un_within : instructions_flushed l <= max_instructions c;
}.

Lemma unchecked_bound c l : unchecked c l -> instructions_executed l <= max_instructions c + 4096.
Proof.
  intros [_ _ _ _ Hf Hw].
  pose proof (Z.mod_pos_bound (instructions_executed l - 1) 4096 ltac:(lia)). lia.
Qed.

(** A flush within the budget, or an instruction between flushes, arms again. *)
Lemma unchecked_flush c l s :
  unchecked c l -> clock_check l = true ->
  instructions_executed l <=
    to_u64 (budget_instructions s + to_u64 (instructions_executed l - instructions_flushed l)) ->
  fst (fst (instruction_budget_exceeded l s)) = false ->
  armed c (snd (fst (instruction_budget_exceeded l s))).
Proof.
  intros [Ug Um Us Ue Uf Uw] Hc%clock_check_mod Ht Hx. cbn in Hx. apply Z.ltb_ge in Hx.
  split; cbn; [done|done|lia|lia].
Qed.

Lemma unchecked_pass c l : unchecked c l -> clock_check l = false -> armed c l.
Proof.
  intros [Ug Um Us Ue Uf Uw] Hc. split; [done|done| |done].
  assert (instructions_executed l mod 4096 <> 0)
    by (intros E%clock_check_mod; congruence).
  rewrite Uf. divmod_lia.
Qed.

Lemma armed_ok c l b :
  grace_instructions l = grace_instructions c -> 0 <= grace_instructions c -> armed c l ->
  instructions_ok c l b.
Proof.
  intros Eg Hg A. pose proof (armed_bound c l A). pose proof (grace_of_positive c Hg).
  split; [done| |by left]. unfold instruction_ceiling. lia.
Qed.

Lemma in_grace_ok c l b :
  grace_instructions l = grace_instructions c -> in_grace c l -> instructions_ok c l b.
Proof. intros Eg G. split; [done| |by right]. destruct G. lia. Qed.

Lemma check_budgets_ok c l s now now' status l' s' :
  0 <= grace_instructions c -> max_instructions c <> 0 -> instruction_ceiling c < two_64 ->
  unchecked c l ->
  instructions_executed l <=
    to_u64 (budget_instructions s + to_u64 (instructions_executed l - instructions_flushed l)) ->
  check_budgets now now' l s = Some (status, l', s') -> instructions_ok c l' true.
Proof.
  intros Hg HN Hc U Ht E. pose proof (unchecked_bound c l U) as Hb. pose proof U as [Ug Um Us Ue Uf Uw].
  assert (Htrip : forall l1 l2, max_instructions l1 = max_instructions c ->
    grace_instructions l1 = grace_instructions c ->
    instructions_executed l1 = instructions_executed l ->
    resource_limit_trip now' l1 = Some l2 -> instructions_ok c l2 true).
  { intros l1 l2 M1 G1 X1 T. destruct (trip_in_grace c l1 now' l2) as (I & G2 & _); try done; [lia|].
    by apply in_grace_ok. }
  assert (Hwall : forall l1 s1, armed c l1 -> grace_instructions l1 = grace_instructions c ->
    instructions_executed l1 = instructions_executed l ->
    (if negb (max_wall_nanoseconds l1 =? 0) && clock_check l1 then
       let? elapsed := checked_i64 (now - start_time_ns l1) in
       if max_wall_nanoseconds l1 <? elapsed then
         let? l2 := resource_limit_trip now' l1 in Some (RESOURCE_LIMIT_ERROR, l2, s1)
       else Some (LIMIT_OK, l1, s1)
     else Some (LIMIT_OK, l1, s1)) = Some (status, l', s') -> instructions_ok c l' true).
  { intros l1 s1 A G1 X1 E1. pose proof (armed_ok c l1 true G1 Hg A) as O1.
    destruct (_ && _); [|by injection E1 as _ <- _].
    destruct (checked_i64 _); [|done]. destruct (_ <? _); [|by injection E1 as _ <- _].
    destruct (resource_limit_trip now' l1) eqn:Et; [|done]. injection E1 as _ <- _.
    eapply Htrip; [..|done]; [apply A|done|done]. }
  unfold check_budgets in E. rewrite Um in E. destruct (Z.eqb_spec (max_instructions c) 0); [done|].
  cbn [negb andb] in E. destruct (clock_check l) eqn:Ec.
  - pose proof (unchecked_flush c l s U Ec Ht) as HA.
    destruct (instruction_budget_exceeded l s) as [[exceeded l1] s1] eqn:Ei.
    cbn [fst snd] in HA. injection Ei as <- <- <-.
    destruct (_ <? _).
    + destruct (resource_limit_trip now' _) eqn:Et; [|done]. injection E as _ <- _.
      by eapply Htrip; [..|exact Et].
    + eapply Hwall; [by apply HA|done|done|exact E].
  - eapply Hwall; [by apply unchecked_pass|done|done|]. rewrite ?Ec in *. exact E.
Qed.

Lemma instructions_next c l :
  0 <= grace_instructions c -> instructions_ok c l true ->
  instructions_executed l <= instruction_ceiling c.
Proof.
  intros Hg [_ _ St]. pose proof (grace_of_positive c Hg).
  destruct (St eq_refl) as [A|G]; [pose proof (armed_bound c l A)|destruct G];
    unfold instruction_ceiling in *; lia.
Qed.

Lemma instruction_check_ok c l s interrupted now now' status l' s' :
  0 <= grace_instructions c -> max_instructions c <> 0 -> instruction_ceiling c < two_64 ->
  0 <= instructions_executed l -> instructions_executed l + 1 < two_64 ->
  instructions_ok c l true ->
  instructions_executed l + 1 <=
    to_u64 (budget_instructions s +
      to_u64 (instructions_executed l + 1 - instructions_flushed l)) ->
  instruction_check interrupted now now' l s = Some (status, l', s') ->
  instructions_ok c l' (goes_on l' status).
Proof.
  intros Hg HN Hc He He1 O Ht E. pose proof (instructions_next c l Hg O) as Hb.
  unfold instruction_check in E. destruct (resource_limits_active l); cbn [negb] in E;
    [|by injection E as <- <- <-].
  rewrite to_u64_small in E by lia. set (l1 := with_executed _ _ l) in E.
  pose proof O as [Os Ob St]. destruct interrupted.
  { injection E as <- <- <-. split; [done|cbn; lia|done]. }
  change (resource_grace_active l1) with (resource_grace_active l) in E.
  destruct (St eq_refl) as [A|G].
  - rewrite (ar_grace c l A) in E.
    apply (instructions_ok_weaken c l'). eapply check_budgets_ok; [..|exact E]; try done.
    destruct A as [A1 A2 A3 A4]. split; cbn; try done; [lia|].
    by replace (instructions_executed l + 1 - 1) with (instructions_executed l) by lia.
  - destruct G as [G1 G0 G2 G3 G4]. rewrite G1 in E.
    destruct (check_grace now l1) as [st l2] eqn:Eg. injection E as <- <- <-.
    unfold check_grace in Eg.
    change (hard_stop_instruction_count l1) with (hard_stop_instruction_count l) in Eg.
    change (instructions_executed l1) with (instructions_executed l + 1) in Eg.
    destruct (Z.eqb_spec (hard_stop_instruction_count l) 0); [done|]. cbn [negb andb] in Eg.
    destruct (Z.ltb_spec (hard_stop_instruction_count l) (instructions_executed l + 1)).
    { injection Eg as <- <-. split; [done|cbn; lia|done]. }
    destruct (_ && _); injection Eg as <- <-; (split; [done|cbn; lia|]); [done|].
    intros _. right. split; cbn; done || lia.
Qed.

Lemma wait_changes now now' l status l' :
  wall_budget_after_wait now now' l = Some (status, l') ->
  l' = l \/ exists mi mw g count time,
    l' = with_hard_stop mi mw g count time l /\ (mi = max_instructions l \/ mi = 0).
Proof.
  unfold wall_budget_after_wait. destruct (wall_budget_limit_ns l); [|done].
  destruct (_ || _); [intros [= <- <-]; by left|]. destruct (negb _).
  - destruct (resource_limit_trip now' l) eqn:Et; [|done]. intros [= <- <-].
    apply trip_changes in Et as (count & time & ->). right. eauto 10.
  - intros [= <- <-]. right. eauto 10.
Qed.

Lemma wait_ok c l now now' status l' :
  0 <= grace_instructions c -> max_instructions c <> 0 -> instruction_ceiling c < two_64 ->
  0 <= instructions_executed l -> instructions_ok c l true ->
  wall_budget_after_wait now now' l = Some (status, l') ->
  instructions_ok c l' (goes_on l' status).
Proof.
  intros Hg HN Hc He O E. unfold wall_budget_after_wait in E.
  destruct (wall_budget_limit_ns l); [|done].
  destruct (_ || _); [by injection E as <- <-|]. pose proof O as [Os Ob St].
  destruct (Z.eqb_spec (max_wall_nanoseconds l) 0) as [Ew|Ew]; cbn [negb] in E.
  - injection E as <- <-. split; [done|done|done].
  - destruct (resource_limit_trip now' l) as [l1|] eqn:Et; [|done]. injection E as <- <-.
    destruct (St eq_refl) as [A|G]; [|by destruct (Ew (ig_off c l G))].
    pose proof (armed_bound c l A).
    destruct (trip_in_grace c l now' l1) as (I & G2 & _); try done; [apply A|lia|].
    by apply in_grace_ok.
Qed.

(** ** The invariant of a process *)

Definition live_of (v : VmState) : Z := if budgets_registered (limits v) then 1 else 0.
Definition published_of (v : VmState) : Z := memory_published (limits v).
Definition executed_of (v : VmState) : Z :=
  if budgets_registered (limits v) then instructions_executed (limits v) else 0.
Definition pending_of (v : VmState) : Z :=
  if budgets_registered (limits v)
  then instructions_executed (limits v) - instructions_flushed (limits v) else 0.

Section Invariant.
Context `{Layout}.

Record vm_ok (v : VmState) : Prop := {
  vo_heap : heap_ok (heap v);
  vo_range : 0 <= instructions_flushed (limits v) <= instructions_executed (limits v);
  vo_small : instructions_executed (limits v) < two_64;
  vo_memory : 0 <= max_memory_bytes (limits v);
  vo_memory_grace : 0 <= grace_memory_bytes (limits v);
  vo_grace : 0 <= grace_instructions (config v);
  vo_active : resource_limits_active (limits v) = resource_limits_active (config v);
  vo_unregistered : budgets_registered (limits v) = false ->
    max_memory_bytes (limits v) = 0 /\ memory_published (limits v) = 0 /\
    max_instructions (limits v) = 0 /\ max_instructions (config v) = 0;
  vo_instructions : max_instructions (config v) <> 0 ->
    instruction_ceiling (config v) < two_64 ->
    instructions_ok (config v) (limits v) (running v);
}.

Record process_ok (p : Process) : Prop := {
  po_vms : forall id v, vms p !! id = Some v -> vm_ok v;
  po_live : budget_live_vms (shared p) = total live_of (vms p);
  po_size : Z.of_nat (size (vms p)) < two_64;
  po_bytes : budget_bytes (shared p) = to_i64 (total published_of (vms p));
  po_counted : total executed_of (vms p) <= counted p < two_64;
  po_instructions : budget_instructions (shared p) = counted p - total pending_of (vms p);
}.

Lemma pending_range v : vm_ok v -> 0 <= pending_of v <= executed_of v.
Proof.
  intros V. pose proof (vo_range v V). unfold pending_of, executed_of.
  destruct (budgets_registered _); lia.
Qed.

Lemma pending_executed p id v :
  process_ok p -> vms p !! id = Some v -> 0 <= pending_of v <= executed_of v.
Proof. intros P Hv. apply pending_range. by apply (po_vms p P id). Qed.

(** A VM of the process changes, and the counters with it. *)
Lemma set_vm_ok p id v v' s n :
  process_ok p -> vms p !! id = Some v -> vm_ok v' ->
  budgets_registered (limits v') = budgets_registered (limits v) ->
  budget_live_vms s = budget_live_vms (shared p) ->
  budget_bytes s = to_i64 (budget_bytes (shared p) + (published_of v' - published_of v)) ->
  executed_of v' - executed_of v <= n - counted p -> n < two_64 ->
  budget_instructions s =
    budget_instructions (shared p) + (n - counted p) - (pending_of v' - pending_of v) ->
  process_ok (set_vm id v' s n p).
Proof.
  intros [P1 P2 P3 P4 P5 P6] Hv V' Hr Hl Hb He Hn Hi.
  split; cbn [shared vms counted set_vm].
  - intros j w [[<- <-]|[_ Hw]]%lookup_insert_Some; [done|by apply (P1 j)].
  - rewrite (total_update live_of _ id v) by done. rewrite Hl, P2. unfold live_of. rewrite Hr. lia.
  - rewrite map_size_insert_Some by eauto. done.
  - rewrite (total_update published_of _ id v) by done. rewrite Hb, P4, to_i64_add. f_equal. lia.
  - rewrite (total_update executed_of _ id v) by done. lia.
  - rewrite (total_update pending_of _ id v) by done. lia.
Qed.

(** What a wait leaves alone. *)
Record max_mem_same (l l' : Limits) : Prop := {
  ms_registered : budgets_registered l' = budgets_registered l;
  ms_published : memory_published l' = memory_published l;
  ms_executed : instructions_executed l' = instructions_executed l;
  ms_flushed : instructions_flushed l' = instructions_flushed l;
  ms_memory : max_memory_bytes l' = max_memory_bytes l;
  ms_grace : grace_memory_bytes l' = grace_memory_bytes l;
  ms_active : resource_limits_active l' = resource_limits_active l;
  ms_max : max_instructions l' = max_instructions l \/ max_instructions l' = 0;
}.

(** *** The memory check *)

Lemma memory_ceiling_nonneg l :
  0 <= max_memory_bytes l -> 0 <= grace_memory_bytes l -> 0 <= memory_ceiling l.
Proof.
  intros Hm Hg. unfold memory_ceiling, MEMORY_GRACE_MINIMUM_BYTES, UINT64_MAX, two_64.
  destruct (negb _); case_bools; lia.
Qed.

Lemma memory_accounts bytes ok l l' s s' x :
  memory_checked bytes ok l l' s s' -> budget_bytes s = to_i64 x ->
  budget_bytes s' = to_i64 (budget_bytes s + (memory_published l' - memory_published l)) /\
  budget_live_vms s' = budget_live_vms s /\ budget_instructions s' = budget_instructions s.
Proof.
  intros M Hx. destruct (decide (max_memory_bytes l = 0)) as [E|E].
  - destruct (mc_off _ _ _ _ _ _ M E) as (_ & -> & -> & _). split; [|done].
    rewrite Hx, to_i64_add. f_equal. lia.
  - destruct (mc_on _ _ _ _ _ _ M E) as (-> & tot & Et & Hin & -> & _). split; [|done].
    cbn. rewrite <-Et. by rewrite to_i64_small.
Qed.

Lemma memory_vm_ok v h bytes ok l' s s' b :
  vm_ok v -> running v = true -> heap_ok h ->
  memory_checked bytes ok (limits v) l' s s' ->
  vm_ok {| heap := h; limits := l'; config := config v; running := b |}.
Proof.
  intros [V1 V2 V3 V4 V5 V6 Va V7 V8] Hr Hh [C1 C2 C3 C4 C5 C6].
  pose proof (memory_ceiling_nonneg (limits v) V4 V5).
  destruct C1 as (m & pub & rc & tr & hd & ->). split; cbn in *; try done.
  - destruct ok; [by rewrite (proj1 (C4 eq_refl))|].
    destruct (memory_limit_tripped (limits v)).
    + by rewrite (proj1 (C6 eq_refl eq_refl)).
    + by rewrite (proj1 (C5 eq_refl eq_refl)).
  - intros Hu. destruct (V7 Hu) as (M & P & I & I'). destruct (C2 M) as (_ & -> & _ & ->). done.
  - intros HN Hc. specialize (V8 HN Hc). rewrite Hr in V8.
    apply instructions_ok_weaken. destruct V8 as [O1 O2 O3]. split; [done|done|].
    intros Ht. destruct (O3 Ht) as [[]|[]]; [left|right]; by split.
Qed.

Lemma collect_step_ok p id v r sm st ok h l s b :
  process_ok p -> vms p !! id = Some v -> running v = true ->
  maybe_collect r sm st (heap v) (limits v) (shared p) = Some (ok, h, l, s) ->
  process_ok (set_vm id {| heap := h; limits := l; config := config v; running := b |} s
    (counted p) p).
Proof.
  intros P Hv Hr E. pose proof (po_vms p P id v Hv) as V.
  destruct (maybe_collect_spec r sm st (heap v) (limits v) (shared p) ok h l s)
    as (Hh & M & _); [apply V|apply V|done|].
  destruct (memory_accounts _ _ _ _ _ _ _ M (po_bytes p P)) as (A1 & A2 & A3).
  destruct (mc_limits _ _ _ _ _ _ M) as (m & pub & rc & tr & hd & El).
  eapply (set_vm_ok p id v); [done|done|by eapply memory_vm_ok|by rewrite El|done|exact A1|..].
  - unfold executed_of. rewrite El. cbn. lia.
  - apply P.
  - unfold pending_of. rewrite El. cbn. lia.
Qed.

(** *** The instruction check *)

(** The shared total never falls below what one VM has flushed. *)
Lemma total_flushed p id v :
  process_ok p -> vms p !! id = Some v -> budgets_registered (limits v) = true ->
  instructions_flushed (limits v) <= budget_instructions (shared p) /\
  budget_instructions (shared p) + pending_of v <= counted p.
Proof.
  intros P Hv Hr. pose proof (pending_executed p) as Hp.
  assert (total (fun w => executed_of w - pending_of w) (vms p) =
    total executed_of (vms p) - total pending_of (vms p)) as Et.
  { generalize (vms p). intros m. induction m as [|k w m Hk IH] using map_ind;
      [by rewrite !total_empty|]. rewrite !total_insert by done. lia. }
  assert (executed_of v - pending_of v <= total (fun w => executed_of w - pending_of w) (vms p)).
  { apply (total_ge (fun w => executed_of w - pending_of w) (vms p) id v); [|done].
    intros k w Hw. specialize (Hp k w P Hw). lia. }
  assert (pending_of v <= total pending_of (vms p)).
  { apply (total_ge pending_of (vms p) id v); [|done]. intros k w Hw. specialize (Hp k w P Hw). lia. }
  destruct P as [_ _ _ _ P5 P6]. unfold executed_of, pending_of in *. rewrite Hr in *. lia.
Qed.

Lemma check_step_ok p id v interrupted now now' status l s :
  process_ok p -> vms p !! id = Some v -> running v = true ->
  counted p + 1 < two_64 -> instructions_executed (limits v) + 1 < two_64 ->
  instruction_check interrupted now now' (limits v) (shared p) = Some (status, l, s) ->
  process_ok (set_vm id {| heap := heap v; limits := l; config := config v;
    running := goes_on l status |} s (counted p + counts (limits v)) p).
Proof.
  intros P Hv Hr Hc He E. pose proof (po_vms p P id v Hv) as V.
  pose proof (total_flushed p id v P Hv) as HT.
  pose proof (instruction_check_counts _ _ _ _ _ _ _ _ E)
    as [[x Es] (S1 & S2 & S3 & S4) Sm Se Sf].
  pose proof (instruction_check_same _ _ _ _ _ _ _ _ E) as Sg.
  pose proof V as [V1 V2 V3 V4 V5 V6 Va V7 V8].
  assert (He' : instructions_executed l = instructions_executed (limits v) +
    (if resource_limits_active (limits v) then 1 else 0)).
  { rewrite Se. destruct (resource_limits_active (limits v)); [apply to_u64_small; lia|lia]. }
  assert (Hfl : (instructions_flushed l = instructions_flushed (limits v) /\ s = shared p) \/
    (instructions_flushed l = instructions_executed l /\
     budgets_registered (limits v) = true /\
     budget_instructions s = budget_instructions (shared p) +
       (instructions_executed l - instructions_flushed (limits v)))).
  { destruct Sf as [Sf|(F1 & F2 & F3)]; [by left|right].
    assert (Eb : budgets_registered (limits v) = true)
      by (apply not_false_iff_true; intros Hu; by destruct (V7 Hu) as (_ & _ & ? & _)).
    destruct (HT Eb) as [T1 T2]. unfold pending_of in T2. rewrite Eb in T2.
    split; [done|]. split; [done|]. rewrite F3.
    destruct (resource_limits_active (limits v));
      rewrite (to_u64_small (instructions_executed l - _)), to_u64_small by lia; lia. }
  clear Sf. eapply (set_vm_ok p id v); [done|done| |done|by rewrite Es| |..].
  - split; cbn; try done.
    + destruct Hfl as [[-> _]|(-> & _)]; destruct (resource_limits_active (limits v)); lia.
    + destruct (resource_limits_active (limits v)); lia.
    + lia.
    + by rewrite (proj1 Sg).
    + by rewrite S2.
    + rewrite S1, S3, S4. intros Hu. destruct (V7 Hu) as (M1 & M2 & M3 & M4).
      split_and!; try done. by destruct Sm as [->| ->].
    + intros HN Hcl. specialize (V8 HN Hcl). rewrite Hr in V8.
      assert (Eb : budgets_registered (limits v) = true)
        by (apply not_false_iff_true; intros Hu; by destruct (V7 Hu) as (_ & _ & _ & ?)).
      destruct (HT Eb) as [T1 T2]. unfold pending_of in T2. rewrite Eb in T2.
      eapply instruction_check_ok; [done|done|done| |done|done| |exact E]; [lia|].
      rewrite (to_u64_small (instructions_executed (limits v) + 1 - _)), to_u64_small by lia. lia.
  - unfold published_of. cbn. rewrite S3, Es. cbn. rewrite (po_bytes p P), to_i64_add. f_equal. lia.
  - unfold executed_of, counts. cbn. rewrite S1, He'.
    destruct (budgets_registered (limits v)), (resource_limits_active (limits v)); cbn; lia.
  - unfold counts. destruct (_ && _); lia.
  - unfold pending_of, counts. cbn. rewrite S1.
    destruct Hfl as [[-> ->]|(-> & -> & ->)].
    + rewrite He'. destruct (budgets_registered (limits v)), (resource_limits_active (limits v)); cbn; lia.
    + rewrite He'. destruct (resource_limits_active (limits v)); cbn; lia.
Qed.

(** A step that leaves the counters of the VM alone. *)
Lemma quiet_step_ok p id v v' :
  process_ok p -> vms p !! id = Some v -> vm_ok v' ->
  budgets_registered (limits v') = budgets_registered (limits v) ->
  memory_published (limits v') = memory_published (limits v) ->
  instructions_executed (limits v') = instructions_executed (limits v) ->
  instructions_flushed (limits v') = instructions_flushed (limits v) ->
  process_ok (set_vm id v' (shared p) (counted p) p).
Proof.
  intros P Hv V' E1 E2 E3 E4. eapply (set_vm_ok p id v); [done|done|done|done|done|..].
  - unfold published_of. rewrite E2, (po_bytes p P), to_i64_add. f_equal. lia.
  - unfold executed_of. rewrite E1, E3. lia.
  - apply P.
  - unfold pending_of. rewrite E1, E3, E4. lia.
Qed.

Lemma heap_step_ok p id v h l :
  process_ok p -> vms p !! id = Some v -> running v = true -> gc_step (heap v) h ->
  l = limits v \/ l = note_storage_growth (limits v) ->
  process_ok (set_vm id {| heap := h; limits := l; config := config v; running := true |}
    (shared p) (counted p) p).
Proof.
  intros P Hv Hr St Hl. pose proof (po_vms p P id v Hv) as [V1 V2 V3 V4 V5 V6 Va V7 V8].
  assert (Hh : heap_ok h) by (by eapply gc_step_ok). rewrite Hr in V8.
  assert (exists rc, l = with_memory (max_memory_bytes (limits v)) (memory_published (limits v))
    rc (memory_limit_tripped (limits v)) (memory_hard_stopped (limits v)) (limits v)) as [rc ->].
  { destruct Hl as [->| ->]; [exists (memory_recheck (limits v)); by destruct (limits v)|].
    unfold note_storage_growth. destruct (negb _); [by exists true|].
    exists (memory_recheck (limits v)). by destruct (limits v). }
  eapply quiet_step_ok; [done|done| |done..]. split; cbn; try done.
  intros HN Hc. destruct (V8 HN Hc) as [O1 O2 O3]. split; [done|done|].
  intros Ht. destruct (O3 Ht) as [[]|[]]; [left|right]; by split.
Qed.

Lemma wait_step_ok p id v now now' status l :
  process_ok p -> vms p !! id = Some v -> running v = true ->
  wall_budget_after_wait now now' (limits v) = Some (status, l) ->
  process_ok (set_vm id {| heap := heap v; limits := l; config := config v;
    running := goes_on l status |} (shared p) (counted p) p).
Proof.
  intros P Hv Hr E. pose proof (po_vms p P id v Hv) as [V1 V2 V3 V4 V5 V6 Va V7 V8].
  rewrite Hr in V8.
  assert (W : max_mem_same (limits v) l).
  { apply wait_changes in E as [->|(mi & mw & g & n & t & -> & Hm)]; split; cbn; auto. }
  destruct W as [W1 W2 W3 W4 W5 W6 Wa W7].
  eapply quiet_step_ok; [done|done| |done..]. split; cbn; rewrite ?W1, ?W2, ?W3, ?W4, ?W5, ?W6, ?Wa;
    try done.
  - intros Hu. destruct (V7 Hu) as (M1 & M2 & M3 & M4). split_and!; try done.
    by destruct W7 as [->| ->].
  - intros HN Hc. eapply (wait_ok (config v) (limits v)); [done|done|done|lia|by apply V8|done].
Qed.

Lemma release_step_ok p id v l s :
  process_ok p -> vms p !! id = Some v ->
  budget_release_finished (limits v) (shared p) = (l, s) ->
  process_ok (set_vm id {| heap := heap v; limits := l; config := config v;
    running := false |} s (counted p) p).
Proof.
  intros P Hv E. pose proof (po_vms p P id v Hv) as [V1 V2 V3 V4 V5 V6 Va V7 V8].
  pose proof (total_flushed p id v P Hv) as HT. pose proof (po_counted p P) as [_ Hc].
  unfold budget_release_finished in E.
  destruct (budgets_registered (limits v)) eqn:Eb; cbn [negb] in E.
  - destruct (HT eq_refl) as [T1 T2]. unfold pending_of in T2. rewrite Eb in T2.
    injection E as <- <-. rewrite (to_u64_small (_ - _)), to_u64_small by lia.
    eapply (set_vm_ok p id v); [done|done| |by rewrite Eb|done| |..]; cbn.
    + split; cbn; try done; [lia|by rewrite Eb|]. intros HN HC.
      destruct (V8 HN HC) as [O1 O2 O3]. by split.
    + unfold published_of. cbn. f_equal.
    + unfold executed_of. cbn. rewrite Eb. lia.
    + done.
    + unfold pending_of. cbn. rewrite Eb. lia.
  - injection E as <- <-. eapply quiet_step_ok; [done|done| |done..].
    split; cbn; try done; [by rewrite Eb|]. intros HN HC.
    destruct (V8 HN HC) as [O1 O2 O3]. by split.
Qed.

Lemma free_step_ok p id v :
  process_ok p -> vms p !! id = Some v ->
  process_ok {| shared := budget_unregister (limits v) (shared p);
    vms := delete id (vms p); counted := counted p |}.
Proof.
  intros P Hv. pose proof (po_vms p P id v Hv) as [V1 V2 V3 V4 V5 V6 Va V7 V8].
  pose proof (total_flushed p id v P Hv) as HT. destruct P as [P1 P2 P3 P4 P5 P6].
  pose proof (total_delete live_of _ id v Hv) as D1.
  pose proof (total_delete published_of _ id v Hv) as D2.
  pose proof (total_delete executed_of _ id v Hv) as D3.
  pose proof (total_delete pending_of _ id v Hv) as D4.
  assert (L : 0 <= total live_of (delete id (vms p))).
  { apply total_ge_0. intros k w _. unfold live_of. destruct (budgets_registered (limits w)); lia. }
  assert (L2 : total live_of (vms p) <= Z.of_nat (size (vms p))).
  { apply total_size. intros k w _. unfold live_of. destruct (budgets_registered (limits w)); lia. }
  assert (Sz : (size (delete id (vms p)) <= size (vms p))%nat).
  { rewrite map_size_delete, Hv. lia. }
  assert (Hex : 0 <= executed_of v) by (unfold executed_of; destruct (budgets_registered (limits v)); lia).
  assert (Ev : live_of v = (if budgets_registered (limits v) then 1 else 0) /\
    published_of v = memory_published (limits v) /\
    pending_of v = (if budgets_registered (limits v)
      then instructions_executed (limits v) - instructions_flushed (limits v) else 0)) by done.
  destruct Ev as (Ev1 & Ev2 & Ev3).
  unfold budget_unregister. destruct (budgets_registered (limits v)) eqn:Eb; cbn [negb].
  - destruct (HT eq_refl) as [T1 T2]. rewrite (to_u64_small (instructions_executed _ - _)) by lia.
    rewrite (to_u64_small (budget_instructions _ + _)) by lia.
    split; cbn; [|rewrite P2, to_u64_small by lia; lia|lia| |lia|lia].
    + intros j w [_ Hw]%lookup_delete_Some. by apply (P1 j).
    + rewrite P4, <-Z.add_opp_r, to_i64_add. f_equal. lia.
  - destruct (V7 eq_refl) as (_ & Z2 & _). split; cbn; [|lia|lia| |lia|lia].
    + intros j w [_ Hw]%lookup_delete_Some. by apply (P1 j).
    + rewrite P4. f_equal. lia.
Qed.

(** *** A new VM *)

Lemma env_limit_nonneg cap env : 0 <= env_limit cap env.
Proof.
  unfold env_limit. destruct env as [[|c t]|]; try done.
  destruct (strtoull (c :: t)) as [[parsed [|]]|]; try done.
  destruct (Z.ltb_spec 0 parsed); cbn [andb]; [|done]. destruct (_ <=? _); lia.
Qed.

Lemma budget_active getenv :
  max_instructions (read_limits getenv) <> 0 -> resource_limits_active (read_limits getenv) = true.
Proof.
  intros HN. unfold read_limits in *. cbn in *. by rewrite (proj2 (Z.eqb_neq _ _) HN).
Qed.

(** A VM before it runs, registered or without limits. *)
Lemma new_vm_ok getenv l :
  let c := read_limits getenv in
  (l = c /\ resource_limits_active c = false) \/ (exists t, l = with_registered t c) ->
  vm_ok (new_vm c l) /\ executed_of (new_vm c l) = 0 /\ pending_of (new_vm c l) = 0 /\
  published_of (new_vm c l) = 0.
Proof.
  intros c E.
  assert (Hm : 0 <= max_memory_bytes c /\ 0 <= grace_memory_bytes c /\
    0 <= grace_instructions c /\ 0 <= max_instructions c)
    by (split_and!; apply env_limit_nonneg).
  destruct Hm as (M1 & M2 & M3 & M4).
  assert (Sh : (l = c \/ exists t, l = with_registered t c)) by (destruct E as [(-> & _)|H1]; auto).
  assert (Zv : memory_published l = 0 /\ instructions_executed l = 0 /\ instructions_flushed l = 0)
    by (by destruct Sh as [->|[t ->]]).
  destruct Zv as (Z1 & Z2 & Z3). split.
  - split; cbn; rewrite ?Z1, ?Z2, ?Z3; try done; try (by destruct Sh as [->|[t ->]]).
    + apply initial_ok.
    + destruct E as [(-> & Ea)|[t ->]]; [|done]. intros _.
      unfold c, read_limits in Ea. cbn in Ea.
      apply orb_false_iff in Ea as [[E1 _]%orb_false_iff E2].
      apply negb_false_iff, Z.eqb_eq in E1, E2. done.
    + intros HN Hc. apply armed_ok; [by destruct Sh as [->|[t ->]]|done|].
      split; rewrite ?Z2, ?Z3; try done; by destruct Sh as [->|[t ->]].
  - unfold executed_of, pending_of, published_of. cbn. rewrite Z1, Z2, Z3.
    by destruct (budgets_registered l).
Qed.

Lemma live_nonneg p (k : positive) v : vms p !! k = Some v -> 0 <= live_of v.
Proof. intros _. unfold live_of. destruct (budgets_registered (limits v)); lia. Qed.

Lemma live_range p : 0 <= total live_of (vms p) <= Z.of_nat (size (vms p)).
Proof.
  split; [apply total_ge_0|apply total_size]; intros k w _; unfold live_of;
    destruct (budgets_registered (limits w)); lia.
Qed.

(** A VM joins the counters. *)
Lemma add_vm_ok p id v s :
  process_ok p -> vms p !! id = None -> Z.of_nat (size (vms p)) + 1 < two_64 ->
  vm_ok v -> executed_of v = 0 -> pending_of v = 0 -> published_of v = 0 ->
  s = with_live_vms (budget_live_vms (shared p) + live_of v) (shared p) ->
  process_ok (set_vm id v s (counted p) p).
Proof.
  intros [P1 P2 P3 P4 P5 P6] Hv Hn V E1 E2 E3 ->.
  split; cbn; rewrite ?total_insert by done; rewrite ?E1, ?E2, ?E3; try done.
  - intros j w [[<- <-]|[_ Hw]]%lookup_insert_Some; [done|by apply (P1 j)].
  - lia.
  - rewrite map_size_insert_None by done. lia.
Qed.

(** The first VM, its counters reset. *)
Lemma only_vm_ok id v s :
  vm_ok v -> executed_of v = 0 -> pending_of v = 0 -> published_of v = 0 ->
  budget_live_vms s = live_of v -> budget_instructions s = 0 -> budget_bytes s = 0 ->
  process_ok {| shared := s; vms := {[id := v]}; counted := 0 |}.
Proof.
  intros V E1 E2 E3 S1 S2 S3.
  assert (Ht : forall f : VmState -> Z, total f {[id := v]} = f v).
  { intros f. unfold singletonM, map_singleton. rewrite total_insert, total_empty by done. lia. }
  split; cbn [shared vms counted]; rewrite ?Ht, ?E1, ?E2, ?E3, ?map_size_singleton; try done.
  by intros j w [<- <-]%lookup_singleton_Some.
Qed.

Lemma process_step_ok p id p' : process_ok p -> process_step p id p' -> process_ok p'.
Proof.
  intros P St. destruct St as [v h l Hv Hr St Hl|v r sm st ok h l s Hv Hr E
    |v int now now' status l s Hv Hr Hc He E
    |v r sm st int now now' status h l s Hv Hr Hc He E
    |v now now' status l Hv Hr E|v l s Hv E|v Hv].
  - by apply heap_step_ok.
  - by eapply collect_step_ok.
  - by eapply check_step_ok.
  - unfold instruction_block in E.
    destruct (instruction_check int now now' (limits v) (shared p)) as [[[st1 l1] s1]|] eqn:E1;
      [|done].
    pose proof (check_step_ok p id v int now now' st1 l1 s1 P Hv Hr Hc He E1) as P1.
    destruct st1; try (injection E as <- <- <- <-; exact P1).
    destruct (_ && _); [|injection E as <- <- <- <-; exact P1].
    destruct (maybe_collect r sm st (heap v) l1 s1) as [[[[ok h2] l2] s2]|] eqn:E2; [|done].
    injection E as <- <- <- <-.
    pose proof (collect_step_ok _ id _ r sm st ok h2 l2 s2
      (goes_on l2 (if ok then LIMIT_OK else OUT_OF_MEMORY)) P1
      (lookup_insert_eq _ _ _) eq_refl E2) as P2.
    unfold set_vm in P2 |- *. cbn in P2. by rewrite insert_insert_eq in P2.
  - by eapply wait_step_ok.
  - by eapply release_step_ok.
  - by apply free_step_ok.
Qed.

Lemma initial_process_ok : process_ok initial_process.
Proof. split; cbn; rewrite ?total_empty; done. Qed.

(** *** What a step of a VM leaves alone *)

Lemma set_vm_same p id v v' s n j w' :
  vms p !! id = Some v -> config v' = config v ->
  budgets_registered (limits v') = budgets_registered (limits v) ->
  vms (set_vm id v' s n p) !! j = Some w' ->
  exists w, vms p !! j = Some w /\ config w' = config w /\
    budgets_registered (limits w') = budgets_registered (limits w).
Proof.
  intros Hv Hc Hr. cbn. intros [[<- <-]|[_ Hw]]%lookup_insert_Some; eauto.
Qed.

Lemma collect_registered r sm st vm l s ok vm' l' s' :
  heap_ok vm -> 0 <= max_memory_bytes l ->
  maybe_collect r sm st vm l s = Some (ok, vm', l', s') ->
  budgets_registered l' = budgets_registered l.
Proof.
  intros K Hm E. destruct (maybe_collect_spec _ _ _ _ _ _ _ _ _ _ K Hm E) as (_ & M & _).
  by destruct (mc_limits _ _ _ _ _ _ M) as (m & pub & rc & tr & hd & ->).
Qed.

Lemma process_step_same p id p' j w' :
  process_ok p -> process_step p id p' -> vms p' !! j = Some w' ->
  exists w, vms p !! j = Some w /\ config w' = config w /\
    budgets_registered (limits w') = budgets_registered (limits w).
Proof.
  intros P St. destruct St as [v h l Hv Hr St Hl|v r sm st ok h l s Hv Hr E
    |v int now now' status l s Hv Hr Hc He E
    |v r sm st int now now' status h l s Hv Hr Hc He E
    |v now now' status l Hv Hr E|v l s Hv E|v Hv];
    try pose proof (po_vms p P id v Hv) as [K _ _ Km _ _ _ _ _];
    try (eapply set_vm_same; [exact Hv|done|cbn]).
  - destruct Hl as [->| ->]; [done|]. unfold note_storage_growth. by destruct (negb _).
  - by eapply collect_registered.
  - apply (co_same _ _ _ _ (instruction_check_counts _ _ _ _ _ _ _ _ E)).
  - unfold instruction_block in E.
    destruct (instruction_check int now now' (limits v) (shared p)) as [[[st1 l1] s1]|] eqn:E1;
      [|done].
    destruct (co_same _ _ _ _ (instruction_check_counts _ _ _ _ _ _ _ _ E1)) as (S1 & _ & _ & S2).
    destruct st1; try (injection E as <- <- <- <-; exact S1).
    destruct (_ && _); [|injection E as <- <- <- <-; exact S1].
    destruct (maybe_collect r sm st (heap v) l1 s1) as [[[[ok h2] l2] s2]|] eqn:E2; [|done].
    injection E as <- <- <- <-. rewrite <-S1. eapply collect_registered; [exact K| |exact E2].
    by rewrite S2.
  - by apply wait_changes in E as [->|(mi & mw & g & n & t & -> & _)].
  - unfold budget_release_finished in E. destruct (negb _); by injection E as <- <-.
  - cbn. intros [_ Hw]%lookup_delete_Some. eauto.
Qed.

(** ** The invariant of a process whose VMs register *)

Definition resetting (st : Stage) : bool :=
  match st with
  | RESET_INSTRUCTIONS | RESET_BYTES | RESET_START => true
  | CLOCK_EXCHANGE | CLOCK_LOAD => false
  end.

(** No VM is between its count and its last reset. *)
Definition settled (m : System) : Prop :=
  forall id st, registering m !! id = Some st -> resetting st = false.

(** The first VM is, and it is alone. *)
Record unsettled (c : Limits) (m : System) (id : positive) (st : Stage) : Prop := {
  us_stage : registering m = {[id := st]};
  us_vm : vms (process m) = {[id := new_vm c (with_registered (start_time_ns c) c)]};
  us_live : budget_live_vms (shared (process m)) = 1;
  us_done : match st with
    | RESET_INSTRUCTIONS => True
    | RESET_BYTES => counted (process m) = 0 /\ budget_instructions (shared (process m)) = 0
    | RESET_START => counted (process m) = 0 /\ budget_instructions (shared (process m)) = 0 /\
        budget_bytes (shared (process m)) = 0
    | CLOCK_EXCHANGE | CLOCK_LOAD => False
    end;
}.

Record system_ok (getenv : string -> option (list Z)) (m : System) : Prop := {
  so_known : forall id, is_Some (registering m !! id) -> is_Some (vms (process m) !! id);
  so_active : forall id, is_Some (registering m !! id) ->
    resource_limits_active (read_limits getenv) = true;
  so_config : forall id v, vms (process m) !! id = Some v -> config v = read_limits getenv /\
    (resource_limits_active (read_limits getenv) = true -> budgets_registered (limits v) = true);
  so_counters : (settled m /\ process_ok (process m)) \/
    (exists id st, unsettled (read_limits getenv) m id st);
}.

Section System.
Context (getenv : string -> option (list Z)).
Let c := read_limits getenv.

Lemma initial_system_ok : system_ok getenv initial_system.
Proof.
  split; cbn.
  - by intros id [st Hst].
  - by intros id [st Hst].
  - done.
  - left. split; [by intros id st Hst|apply initial_process_ok].
Qed.

Lemma system_vm_ok m id v :
  system_ok getenv m -> vms (process m) !! id = Some v -> vm_ok v.
Proof.
  intros [_ _ _ [[_ P]|(j & st & U)]] Hv; [by apply (po_vms _ P id)|].
  rewrite (us_vm _ _ _ _ U) in Hv. apply lookup_singleton_Some in Hv as [<- <-].
  apply new_vm_ok. eauto.
Qed.

(** While the first VM resets, no other VM is there to move. *)
Lemma unsettled_alone m id st j v :
  unsettled c m id st -> registering m !! j = None -> vms (process m) !! j = Some v -> False.
Proof.
  intros [U1 U2 _ _] Hj Hv. rewrite U1 in Hj. rewrite U2 in Hv.
  apply lookup_singleton_Some in Hv as [<- _]. by rewrite lookup_singleton_eq in Hj.
Qed.

Lemma unsettled_creates m id st : unsettled c m id st -> creates m -> False.
Proof.
  intros U [E|(j & [v Hv] & Hj)]; [|by eapply unsettled_alone].
  rewrite (us_vm _ _ _ _ U) in E. by apply map_non_empty_singleton in E.
Qed.

Lemma process_step_vm p id p' : process_step p id p' -> exists v, vms p !! id = Some v.
Proof. intros []; eauto. Qed.

Lemma at_stage_known id st stages (vs : gmap positive VmState) v j :
  (forall j, is_Some (stages !! j) -> is_Some (vs !! j)) ->
  is_Some (at_stage id st stages !! j) -> is_Some (<[id := v]> vs !! j).
Proof.
  intros Hk. destruct (decide (j = id)) as [->|Hne]; [rewrite lookup_insert_eq; eauto|].
  rewrite lookup_insert_ne by done. intros Hj. apply Hk. destruct st; cbn in Hj.
  - by rewrite lookup_insert_ne in Hj by done.
  - by rewrite lookup_delete_ne in Hj by done.
Qed.

Lemma at_stage_settled id st stages :
  (forall j s, stages !! j = Some s -> j <> id -> resetting s = false) ->
  (forall s, st = Some s -> resetting s = false) ->
  forall j s, at_stage id st stages !! j = Some s -> resetting s = false.
Proof.
  intros H1 H2 j s. destruct st as [st|]; cbn.
  - intros [[<- <-]|[Hne Hs]]%lookup_insert_Some; eauto.
  - intros [Hne Hs]%lookup_delete_Some. eauto.
Qed.

Lemma process_step_other p id p' j :
  process_step p id p' -> j <> id -> vms p' !! j = vms p !! j.
Proof.
  intros [] Hne; cbn; first [by rewrite lookup_insert_ne by done|by rewrite lookup_delete_ne by done].
Qed.

Lemma system_vm_step m id p :
  system_ok getenv m -> registering m !! id = None -> process_step (process m) id p ->
  system_ok getenv {| process := p; registering := registering m |}.
Proof.
  intros [K A C [[St P]|(j & st & U)]] Hid Hs.
  2: { destruct (process_step_vm _ _ _ Hs) as [v Hv]. by destruct (unsettled_alone m j st id v). }
  split; cbn.
  - intros j Hj. assert (j <> id) by (intros ->; destruct Hj; congruence).
    rewrite (process_step_other _ _ _ _ Hs) by done. by apply K.
  - done.
  - intros j w' Hw'. destruct (process_step_same _ _ _ _ _ P Hs Hw') as (w & Hw & -> & ->).
    by apply (C j).
  - left. split; [done|by eapply process_step_ok].
Qed.

(** The VMs of a process after one more was created. *)
Lemma created_config m id l s n :
  system_ok getenv m ->
  (resource_limits_active c = true -> budgets_registered l = true) ->
  forall j v, vms (set_vm id (new_vm c l) s n (process m)) !! j = Some v ->
  config v = c /\ (resource_limits_active c = true -> budgets_registered (limits v) = true).
Proof.
  intros S Hl j v. cbn. intros [[<- <-]|[_ Hv]]%lookup_insert_Some; [done|].
  by apply (so_config _ _ S j).
Qed.

Lemma system_start_step m id :
  system_ok getenv m -> creates m -> vms (process m) !! id = None ->
  Z.of_nat (size (vms (process m))) + 1 < two_64 -> resource_limits_active c = false ->
  system_ok getenv {| process := set_vm id (new_vm c c) (shared (process m))
    (counted (process m)) (process m); registering := registering m |}.
Proof.
  intros S Cr Hid Hn Ha. destruct (so_counters _ _ S) as [[St P]|(j & st & U)];
    [|by destruct (unsettled_creates m j st)].
  split; cbn [process registering].
  - intros j Hj. eapply (at_stage_known id (registering m !! id)); [apply S|].
    destruct (registering m !! id) eqn:E; cbn.
    + by rewrite insert_id.
    + by rewrite delete_id.
  - apply S.
  - apply created_config; [done|congruence].
  - left. split; [done|]. destruct (new_vm_ok getenv c) as (V & V1 & V2 & V3); [by left|].
    apply add_vm_ok; [done..|]. unfold live_of. cbn. destruct (shared (process m)).
    unfold with_live_vms. cbn. f_equal. lia.
Qed.

Lemma system_count_step m id first s :
  system_ok getenv m -> creates m -> vms (process m) !! id = None ->
  Z.of_nat (size (vms (process m))) + 1 < two_64 -> resource_limits_active c = true ->
  register_count (shared (process m)) = (first, s) ->
  system_ok getenv
    {| process := set_vm id (new_vm c (with_registered (start_time_ns c) c)) s
         (counted (process m)) (process m);
       registering := at_stage id
         (if first : bool then Some RESET_INSTRUCTIONS else clock_stage c) (registering m) |}.
Proof.
  intros S Cr Hid Hn Ha [= <- <-]. destruct (so_counters _ _ S) as [[St P]|(j & st & U)];
    [|by destruct (unsettled_creates m j st)].
  pose proof (po_live _ P) as HL. pose proof (live_range (process m)) as HR.
  split; cbn [process registering].
  - intros j. apply at_stage_known, S.
  - done.
  - apply created_config; [done|done].
  - destruct Cr as [E|(j & [v Hv] & Hj)].
    + right. exists id, RESET_INSTRUCTIONS.
      assert (Hr : registering m = ∅).
      { apply map_empty. intros j. apply eq_None_not_Some. intros Hj%(so_known _ _ S).
        rewrite E in Hj. by destruct Hj. }
      rewrite E, total_empty in HL. rewrite HL. cbn.
      split; cbn; [by rewrite Hr, insert_empty|by rewrite E, insert_empty|done..].
    + left. assert (1 <= total live_of (vms (process m))) as Hone.
      { destruct (so_config _ _ S j v Hv) as [_ Hreg]. specialize (Hreg Ha).
        assert (E1 : live_of v = 1) by (unfold live_of; by rewrite Hreg).
        pose proof (total_ge live_of _ j v (live_nonneg _) Hv). lia. }
      rewrite (proj2 (Z.eqb_neq _ _)) by lia. split.
      * intros k st. cbn. apply at_stage_settled; [intros; by eapply St|].
        unfold clock_stage. intros st'. destruct (negb _); [by intros [= <-]|done].
      * destruct (new_vm_ok getenv (with_registered (start_time_ns c) c)) as (V & V1 & V2 & V3);
          [eauto|].
        apply add_vm_ok; [done..|]. rewrite to_u64_small by lia. done.
Qed.

(** The resets of the first VM, in their order. *)
Lemma unsettled_stage m id st j st' :
  unsettled c m id st -> registering m !! j = Some st' -> j = id /\ st' = st.
Proof.
  intros U Hj. rewrite (us_stage _ _ _ _ U) in Hj.
  by apply lookup_singleton_Some in Hj as [-> ->].
Qed.

Lemma settled_stage m j st : settled m -> registering m !! j = Some st -> resetting st = true -> False.
Proof. intros St Hj Hr. rewrite (St j st Hj) in Hr. done. Qed.

Lemma set_shared_ok m s n stages :
  system_ok getenv m ->
  (forall j, is_Some (stages !! j) -> is_Some (registering m !! j)) ->
  let m' := {| process := set_shared s n (process m); registering := stages |} in
  (settled m' /\ process_ok (process m')) \/ (exists id st, unsettled c m' id st) ->
  system_ok getenv m'.
Proof.
  intros [K A C _] Hs m' H'. split; cbn; try done.
  - intros j Hj. by apply K, Hs.
  - intros j Hj. by apply (A j), Hs.
Qed.

Lemma at_stage_old id st stages j st0 :
  stages !! id = Some st0 -> is_Some (at_stage id st stages !! j) -> is_Some (stages !! j).
Proof.
  intros Hid [s Hs]. destruct st; cbn in Hs.
  - apply lookup_insert_Some in Hs as [[<- _]|[_ Hs]]; eauto.
  - apply lookup_delete_Some in Hs as [_ Hs]. eauto.
Qed.

Lemma system_reset_instructions m id :
  system_ok getenv m -> registering m !! id = Some RESET_INSTRUCTIONS ->
  system_ok getenv
    {| process := set_shared (reset_instructions (shared (process m))) 0 (process m);
       registering := at_stage id (Some RESET_BYTES) (registering m) |}.
Proof.
  intros S Hid. apply set_shared_ok; [done|intros j; by eapply at_stage_old|].
  destruct (so_counters _ _ S) as [[St _]|(j & st & U)]; [by destruct (settled_stage m id _ St Hid)|].
  destruct (unsettled_stage m j st id _ U Hid) as [<- <-]. right. exists id, RESET_BYTES.
  destruct U as [U1 U2 U3 U4]. split; cbn; [|done..].
  by rewrite U1, insert_singleton_eq.
Qed.

Lemma system_reset_bytes m id :
  system_ok getenv m -> registering m !! id = Some RESET_BYTES ->
  system_ok getenv
    {| process := set_shared (reset_bytes (shared (process m))) (counted (process m)) (process m);
       registering := at_stage id (Some RESET_START) (registering m) |}.
Proof.
  intros S Hid. apply set_shared_ok; [done|intros j; by eapply at_stage_old|].
  destruct (so_counters _ _ S) as [[St _]|(j & st & U)]; [by destruct (settled_stage m id _ St Hid)|].
  destruct (unsettled_stage m j st id _ U Hid) as [<- <-]. right. exists id, RESET_START.
  destruct U as [U1 U2 U3 [U4 U5]]. split; cbn; [|done..].
  by rewrite U1, insert_singleton_eq.
Qed.

Lemma system_reset_start m id :
  system_ok getenv m -> registering m !! id = Some RESET_START ->
  system_ok getenv
    {| process := set_shared (reset_start (shared (process m))) (counted (process m)) (process m);
       registering := at_stage id (clock_stage c) (registering m) |}.
Proof.
  intros S Hid. apply set_shared_ok; [done|intros j; by eapply at_stage_old|].
  destruct (so_counters _ _ S) as [[St _]|(j & st & U)]; [by destruct (settled_stage m id _ St Hid)|].
  destruct (unsettled_stage m j st id _ U Hid) as [<- <-]. left.
  destruct U as [U1 U2 U3 (U4 & U5 & U6)]. split.
  - intros k s. cbn. apply at_stage_settled.
    + rewrite U1. intros j s' [<- _]%lookup_singleton_Some. done.
    + unfold clock_stage. intros s'. destruct (negb _); [by intros [= <-]|done].
  - cbn. unfold set_shared. rewrite U2, U4.
    destruct (new_vm_ok getenv (with_registered (start_time_ns c) c)) as (V & V1 & V2 & V3); [eauto|].
    by apply only_vm_ok.
Qed.

Lemma system_clock_exchange m id now :
  system_ok getenv m -> registering m !! id = Some CLOCK_EXCHANGE ->
  system_ok getenv
    {| process := set_shared (register_clock now (shared (process m)))
         (counted (process m)) (process m);
       registering := at_stage id (Some CLOCK_LOAD) (registering m) |}.
Proof.
  intros S Hid. apply set_shared_ok; [done|intros j; by eapply at_stage_old|].
  destruct (so_counters _ _ S) as [[St P]|(j & st & U)].
  2: { destruct (unsettled_stage m j st id _ U Hid) as [_ <-]. by destruct (us_done _ _ _ _ U). }
  left. split.
  - intros k s. cbn. intros [[<- <-]|[_ Hs]]%lookup_insert_Some; [done|by apply (St k)].
  - cbn. unfold register_clock. destruct (_ =? 0); destruct P; by split.
Qed.

Lemma system_clock_load m id v :
  system_ok getenv m -> registering m !! id = Some CLOCK_LOAD -> vms (process m) !! id = Some v ->
  system_ok getenv
    {| process := set_vm id
         {| heap := heap v; limits := with_registered (budget_start_ns (shared (process m))) (limits v);
            config := config v; running := running v |}
         (shared (process m)) (counted (process m)) (process m);
       registering := at_stage id None (registering m) |}.
Proof.
  intros S Hid Hv. destruct (so_counters _ _ S) as [[St P]|(j & st & U)].
  2: { destruct (unsettled_stage m j st id _ U Hid) as [_ <-]. by destruct (us_done _ _ _ _ U). }
  pose proof (so_active _ _ S id (ex_intro _ _ Hid)) as Ha.
  destruct (so_config _ _ S id v Hv) as [Hc Hreg]. specialize (Hreg Ha).
  split; cbn [process registering].
  - intros k. apply at_stage_known, S.
  - done.
  - intros k w. cbn. intros [[<- <-]|[_ Hw]]%lookup_insert_Some; [done|by apply (so_config _ _ S k)].
  - left. split; [intros k s; cbn; intros [_ Hs]%lookup_delete_Some; by apply (St k)|].
    eapply quiet_step_ok; [done|done| |by rewrite Hreg|done..].
    destruct (po_vms _ P id v Hv) as [V1 V2 V3 V4 V5 V6 Va V7 V8]. split; cbn; try done.
    intros HN Hcl. destruct (V8 HN Hcl) as [O1 O2 O3]. split; [done|done|].
    intros Ht. destruct (O3 Ht) as [[]|[]]; [left|right]; by split.
Qed.

Lemma system_step_ok m m' : system_ok getenv m -> system_step getenv m m' -> system_ok getenv m'.
Proof.
  intros S []; eauto using system_vm_step, system_start_step, system_count_step,
    system_reset_instructions, system_reset_bytes, system_reset_start, system_clock_exchange,
    system_clock_load.
Qed.

Lemma system_steps_ok m : rtc (system_step getenv) initial_system m -> system_ok getenv m.
Proof.
  intros R. pose proof initial_system_ok as S. induction R; eauto using system_step_ok.
Qed.
End System.
End Invariant.
