(* ===== verification/Budgets.v ===== *)
(** * Budgets: what the resource limits guarantee

    The contract of docs/sandbox.md: one set of counters for the process, a
    rescuable error when a budget is exceeded, a stop nothing rescues once the
    grace allowance is used up, and waits that end with the budget. *)

From Stdlib Require Import ZArith Lia Bool List String.
From stdpp Require Import base numbers list gmap relations.
From S2P Require Import Prelude CText GcHeap GcMark GcMarkOk GcSweep GcSweepOk GcInvariant.
From S2P Require Import GcBarrier GcMutator GcHash GcAlloc GcProgram Limits Process.
From S2P Require Import ProcessOk.

Local Open Scope Z_scope.
Local Open Scope c_scope.

(** ** Collections free memory *)

Lemma object_size_cards `{Layout} cards p : object_size (set_cards cards p) = object_size p.
Proof. by destruct p. Qed.

Lemma heap_bytes_mono `{Layout} (h h' : Heap) :
  (forall a o', h' !! a = Some o' ->
     exists o, h !! a = Some o /\ object_size (payload o') = object_size (payload o)) ->
  heap_bytes h' <= heap_bytes h.
Proof.
  revert h. induction h' as [|a o' h' Ha IH] using map_ind; intros h Hh.
  - apply heap_bytes_nonneg.
  - rewrite heap_bytes_insert by done.
    destruct (Hh a o' (lookup_insert_eq _ _ _)) as (o & Ho & ->).
    rewrite (heap_bytes_delete h a o Ho).
    assert (heap_bytes h' <= heap_bytes (delete a h)); [|lia]. apply IH. intros b q Hq.
    assert (b <> a) by congruence.
    destruct (Hh b q) as (q' & Hq' & E); [by rewrite lookup_insert_ne|].
    exists q'. by rewrite lookup_delete_ne.
Qed.

Lemma collect_major_bytes `{Layout} r vm vm' :
  heap_ok vm -> diamond_vm_collect_impl r vm = Some vm' ->
  bytes_allocated vm' <= bytes_allocated vm.
Proof.
  intros K E. destruct (collect_major r vm K) as (vm1 & E1 & K1 & _ & _ & O & _).
  rewrite E in E1. injection E1 as <-.
  rewrite (proj1 (h_bytes _ K)), (proj1 (h_bytes _ K1)). apply heap_bytes_mono.
  intros a o [Ho _]%O. exists o. by split.
Qed.

Lemma collect_minor_bytes `{Layout} r vm vm' :
  heap_ok vm -> diamond_vm_collect_minor_impl r vm = Some vm' ->
  bytes_allocated vm' <= bytes_allocated vm.
Proof.
  intros K E. destruct (collect_minor r vm K) as (vm1 & E1 & K1 & _ & _ & _ & O & _).
  rewrite E in E1. injection E1 as <-.
  rewrite (proj1 (h_bytes _ K)), (proj1 (h_bytes _ K1)). apply heap_bytes_mono.
  intros a o' (o & Ho & T)%O. exists o. split; [done|].
  by rewrite (t_payload _ _ T), object_size_cards.
Qed.

(** ** The memory budget *)

(** Memory a process can address, with room for a sum of two. *)
Definition addressable (z : Z) : Prop := - 2 ^ 61 <= z <= 2 ^ 61.

Lemma check_memory_defined bytes l s :
  to_i64 bytes = bytes -> - 2 ^ 61 <= bytes <= 2 ^ 61 ->
  addressable (memory_published l) -> addressable (budget_bytes s) ->
  exists ok l' s', check_memory bytes l s = Some (ok, l', s').
Proof.
  intros Hto Hb A2 A3. unfold addressable in *.
  assert (Hin : forall z, - 2 ^ 63 <= z < 2 ^ 63 -> checked_i64 z = Some z)
    by (intros z Hz; apply checked_spec; split; [done|];
        unfold in_i64, INT64_MIN, INT64_MAX, two_63; lia).
  unfold check_memory. destruct (_ =? 0); [eauto|]. rewrite Hto, !Hin by lia.
  destruct (_ || _); [eauto|]. destruct (negb _); eauto.
Qed.

(** C22: Before every allocation, [maybe_collect] on a well-formed heap runs and
    loses nothing the program reaches; it publishes the bytes left after the
    collections to the process-wide total; it succeeds exactly when there is no
    budget or the total is within it.  The first overrun is rescuable and
    raises the ceiling by the grace allowance; the next one is not, and no
    later one is. *)
Theorem maybe_collect_budget `{Layout} r stress_minor stress (vm : Vm) (l : Limits) (s : Shared) :
  heap_ok vm -> 0 <= max_memory_bytes l -> addressable (bytes_allocated vm) ->
  addressable (memory_published l) -> addressable (budget_bytes s) ->
  exists ok vm' l' s',
    maybe_collect r stress_minor stress vm l s = Some (ok, vm', l', s') /\
    heap_ok vm' /\ roots vm' = roots vm /\ bytes_allocated vm' <= bytes_allocated vm /\
    (forall a, reachable vm a -> is_Some (objects vm' !! a) /\ reachable vm' a) /\
    (max_memory_bytes l = 0 -> ok = true /\ s' = s) /\
    (max_memory_bytes l <> 0 ->
       memory_published l' = bytes_allocated vm' /\
       budget_bytes s' = budget_bytes s + (bytes_allocated vm' - memory_published l) /\
       (ok = true <-> budget_bytes s' <= max_memory_bytes l)) /\
    (ok = true -> max_memory_bytes l' = max_memory_bytes l) /\
    (ok = false -> max_memory_bytes l' =
       (if memory_limit_tripped l then max_memory_bytes l else memory_ceiling l) /\
       rescuable l' OUT_OF_MEMORY =
         (negb (memory_limit_tripped l) && negb (memory_hard_stopped l))).
Proof.
  intros K Hm A1 A2 A3.
  destruct (collect_both r (fun vm => stress_minor || (minor_gc_threshold_bytes vm <=?
      to_u64 (bytes_allocated vm - bytes_allocated_at_last_minor_gc vm)))
    (fun vm => stress || (next_gc vm <=? bytes_allocated vm)) vm K)
    as (vm1 & vm2 & E1 & E2 & K2 & R2 & S2 & O2).
  assert (K1 : heap_ok vm1).
  { destruct (_ || _) in E1; [|by injection E1 as <-].
    destruct (collect_minor r vm K) as (v & E & Kv & _). congruence. }
  assert (B1 : bytes_allocated vm1 <= bytes_allocated vm).
  { destruct (_ || _) in E1; [by eapply collect_minor_bytes|injection E1 as <-; lia]. }
  assert (B2 : bytes_allocated vm2 <= bytes_allocated vm1).
  { destruct (_ || _) in E2; [by eapply collect_major_bytes|injection E2 as <-; lia]. }
  assert (B3 : 0 <= bytes_allocated vm2)
    by (rewrite (proj1 (h_bytes _ K2)); apply heap_bytes_nonneg).
  assert (Hto : to_i64 (bytes_allocated vm2) = bytes_allocated vm2).
  { apply to_i64_small. unfold addressable in A1. unfold in_i64, INT64_MIN, INT64_MAX, two_63. lia. }
  assert (Ec : exists ok l' s', maybe_collect r stress_minor stress vm l s =
    Some (ok, vm2, l', s')) .
  { unfold maybe_collect. rewrite E1, E2. unfold addressable in A1.
    edestruct (check_memory_defined (bytes_allocated vm2)) as (ok & l' & s' & Ec);
      [..|do 3 eexists; by rewrite Ec]; [done|lia|done|done]. }
  destruct Ec as (ok & l' & s' & Ec). exists ok, vm2, l', s'.
  destruct (maybe_collect_spec _ _ _ _ _ _ _ _ _ _ K Hm Ec) as (_ & [M1 M2 M3 M4 M5 M6] & _).
  split_and!; [done|done|done|lia| | | | |].
  - intros a Ha. split; [by apply O2|by apply S2].
  - intros E0. destruct (M2 E0) as (-> & _ & -> & _). done.
  - intros E0. destruct (M3 E0) as (-> & tot & Et & _ & -> & Hok). rewrite Hto in *.
    split; [done|]. cbn. split; [done|]. done.
  - intros Hok. apply (M4 Hok).
  - intros Hok. destruct (memory_limit_tripped l) eqn:Et.
    + destruct (M6 Hok eq_refl) as (-> & Ht & Hh). cbn. by rewrite Ht, Hh.
    + destruct (M5 Hok eq_refl) as (-> & Ht & Hh). cbn. by rewrite Ht, Hh.
Qed.

(** The environment of a run with a memory budget of 100 bytes, no grace to
    speak of, and an instruction budget of 10000. *)
Definition example_env (name : string) : option (list Z) :=
  if String.eqb name "DIAMOND_MAX_MEMORY_BYTES" then Some (bytes "100")
  else if String.eqb name "DIAMOND_GRACE_MEMORY_BYTES" then Some (bytes "50")
  else if String.eqb name "DIAMOND_MAX_INSTRUCTIONS" then Some (bytes "10000")
  else if String.eqb name "DIAMOND_GRACE_INSTRUCTIONS" then Some (bytes "500")
  else None.

Definition example_limits : Limits := read_limits example_env.

Lemma maybe_collect_budget_witness :
  let H := example_layout in
  exists vm' l' s',
    maybe_collect (fun _ => true) false false example_vm example_limits initial_shared =
      Some (false, vm', l', s') /\
    max_memory_bytes l' = 150 /\ rescuable l' OUT_OF_MEMORY = true /\
    budget_bytes s' = bytes_allocated example_vm.
Proof.
  intros H. destruct (maybe_collect_budget (fun _ => true) false false example_vm example_limits
    initial_shared example_ok) as (ok & vm' & l' & s' & E & _).
  - vm_compute. discriminate.
  - split; vm_compute; discriminate.
  - split; vm_compute; discriminate.
  - split; vm_compute; discriminate.
  - exists vm', l', s'. vm_compute in E. injection E as <- <- <- <-.
    split_and!; vm_compute; reflexivity.
Defined.

(** C21: In every run of a process, whatever the order of the steps of its VMs
    and of the single accesses of those that register, the shared counters are
    exactly the sum of what the VMs hold: the VMs counted are the registered
    ones, the byte total is the bytes they published, and the instruction total
    is the instructions run since the counters were reset less what the VMs
    have not flushed.  The one exception is a process whose only VM is still
    resetting them.  Every VM's heap is well formed.  A run reads one
    environment, creates its first VM alone and every other one while a VM that
    has been set up is alive, and runs fewer than 2^64 instructions. *)
Theorem budget_accounting `{Layout} getenv (m : System) :
  rtc (system_step getenv) initial_system m ->
  let p := process m in
  (budget_live_vms (shared p) = total live_of (vms p) /\
   budget_bytes (shared p) = to_i64 (total published_of (vms p)) /\
   budget_instructions (shared p) = counted p - total pending_of (vms p) \/
   exists id st v, registering m = {[id := st]} /\ resetting st = true /\ vms p = {[id := v]} /\
     instructions_executed (limits v) = 0 /\ memory_published (limits v) = 0) /\
  (forall id v, vms p !! id = Some v -> heap_ok (heap v) /\ 0 <= pending_of v <= executed_of v).
Proof.
  intros R p. pose proof (system_steps_ok getenv m R) as S. split.
  - destruct (so_counters _ _ S) as [[_ P]|(id & st & [U1 U2 U3 U4])].
    + left. split_and!; apply P.
    + right. exists id, st. eexists. split_and!; [done|by destruct st|done..].
  - intros id v Hv. pose proof (system_vm_ok getenv m id v S Hv) as V. split; [apply V|].
    by apply pending_range.
Qed.

(** C10: An instruction budget stops its VM: in every run of a process, however
    often the program rescues the error and whatever other VMs do, a VM with a
    budget of N instructions and a grace of G, with N + 4096 + G below 2^64,
    has run at most N + 4096 + G + 1 of them, and one that is still running at
    most N + 4096 + G; before the budget trips, fewer than 4096 of its
    instructions are missing from the shared total.  A run reads one
    environment, creates its first VM alone and every other one while a VM that
    has been set up is alive, and runs fewer than 2^64 instructions. *)
Theorem instruction_budget_stops `{Layout} getenv (m : System) id v :
  rtc (system_step getenv) initial_system m -> vms (process m) !! id = Some v ->
  let c := read_limits getenv in
  max_instructions c <> 0 -> max_instructions c + 4096 + grace_of c < two_64 ->
  resource_limits_active (limits v) = true /\
  instructions_executed (limits v) <= max_instructions c + 4096 + grace_of c + 1 /\
  (running v = true ->
   instructions_executed (limits v) <= max_instructions c + 4096 + grace_of c) /\
  (running v = true -> resource_grace_active (limits v) = false ->
   instructions_executed (limits v) - instructions_flushed (limits v) < 4096 /\
   instructions_flushed (limits v) <= max_instructions c).
Proof.
  intros R Hv c HN Hc. pose proof (system_steps_ok getenv m R) as S.
  pose proof (system_vm_ok getenv m id v S Hv) as V.
  destruct (so_config _ _ S id v Hv) as [Ec _]. pose proof (vo_instructions v V) as O.
  pose proof (vo_active v V) as A. pose proof (vo_grace v V) as G.
  rewrite Ec in O, A, G. fold c in O, A, G. specialize (O HN Hc).
  split; [rewrite A; by apply budget_active|]. split; [apply O|]. split.
  - intros Hr. rewrite Hr in O. by apply instructions_next.
  - intros Hr Hg. destruct (io_state _ _ _ O Hr) as [[A1 A2 A3 A4]|[G1 _ _ _ _]]; [|congruence].
    split; [|done]. rewrite A3.
    pose proof (Z.mod_pos_bound (instructions_executed (limits v)) 4096 ltac:(lia)). lia.
Qed.

(** A process of one VM that has registered, access by access, and run one
    instruction. *)
Definition example_vm_limits : Limits := with_registered (start_time_ns example_limits) example_limits.

Definition example_counted : Shared := with_live_vms 1 initial_shared.

Definition example_start : Process :=
  set_vm 1%positive (new_vm example_limits example_vm_limits) example_counted 0 initial_process.

Definition example_checked : LimitStatus * Limits * Shared :=
  default (LIMIT_OK, example_limits, initial_shared)
    (instruction_check false 0 0 example_vm_limits example_counted).

Definition example_process : Process :=
  set_vm 1%positive (new_vm example_limits (snd (fst example_checked))) (snd example_checked) 1
    example_start.

Definition example_system : System := {| process := example_process; registering := ∅ |}.

Lemma example_process_run `{Layout} : rtc (system_step example_env) initial_system example_system.
Proof.
  set (at_step := fun st => {| process := example_start; registering := {[1%positive := st]} |}).
  assert (S1 : system_step example_env initial_system (at_step RESET_INSTRUCTIONS)).
  { exact (m_count example_env initial_system 1%positive true example_counted (or_introl eq_refl)
      eq_refl eq_refl eq_refl eq_refl). }
  assert (S2 : system_step example_env (at_step RESET_INSTRUCTIONS) (at_step RESET_BYTES))
    by exact (m_reset_instructions example_env (at_step RESET_INSTRUCTIONS) 1%positive eq_refl).
  assert (S3 : system_step example_env (at_step RESET_BYTES) (at_step RESET_START))
    by exact (m_reset_bytes example_env (at_step RESET_BYTES) 1%positive eq_refl).
  assert (S4 : system_step example_env (at_step RESET_START)
    {| process := example_start; registering := ∅ |})
    by exact (m_reset_start example_env (at_step RESET_START) 1%positive eq_refl).
  assert (S5 : system_step example_env {| process := example_start; registering := ∅ |}
    example_system).
  { apply (m_vm example_env {| process := example_start; registering := ∅ |} 1%positive);
      [done|].
    assert (E : instruction_block (fun _ => true) false false false 0 0 diamond_vm_init
      example_vm_limits (shared example_start) =
      Some (LIMIT_OK, diamond_vm_init, snd (fst example_checked), snd example_checked))
      by (vm_compute; reflexivity).
    exact (p_instruction example_start 1%positive (new_vm example_limits example_vm_limits)
      (fun _ => true) false false false 0 0 LIMIT_OK
      diamond_vm_init _ _ (lookup_insert_eq _ _ _) eq_refl eq_refl eq_refl E). }
  eapply rtc_l; [exact S1|]. eapply rtc_l; [exact S2|]. eapply rtc_l; [exact S3|].
  eapply rtc_l; [exact S4|]. eapply rtc_l; [exact S5|]. apply rtc_refl.
Qed.

Lemma budget_accounting_witness :
  let H := example_layout in
  budget_live_vms (shared example_process) = 1 /\
  budget_instructions (shared example_process) = 0 /\ counted example_process = 1 /\
  total pending_of (vms example_process) = 1 /\
  budget_instructions (shared example_process) =
    counted example_process - total pending_of (vms example_process).
Proof.
  intros H. destruct (budget_accounting example_env example_system example_process_run)
    as ([(_ & _ & E)|(id & st & v & E & _)] & _).
  - split_and!; [vm_compute; reflexivity..|exact E].
  - cbn in E. apply (f_equal (lookup id)) in E. by rewrite lookup_singleton_eq in E.
Defined.

Lemma instruction_budget_stops_witness :
  let H := example_layout in
  exists v, vms example_process !! 1%positive = Some v /\
    instructions_executed (limits v) = 1 /\
    instructions_executed (limits v) <= 10000 + 4096 + 500 + 1.
Proof.
  intros H. eexists. split; [apply lookup_insert_eq|].
  destruct (instruction_budget_stops example_env example_system 1%positive
    (new_vm example_limits (snd (fst example_checked))) example_process_run)
    as (_ & B & _).
  - apply lookup_insert_eq.
  - vm_compute. discriminate.
  - vm_compute. reflexivity.
  - split; [vm_compute; reflexivity|exact B].
Defined.

(** ** Waits *)

(** A wait the wall-clock budget bounds lasts no more than two milliseconds
    past the budget's limit, and when it has run its full length the budget
    check after it does report: the rescuable error first, the final stop in
    the grace allowance. *)
Theorem bounded_wait_reports (now timeout ms later later' : Z) (l : Limits) (limit : Z) :
  wall_budget_limit_ns l = Some limit -> limit <> 0 ->
  bound_wait_by_wall_budget now l timeout = Some (ms, true) -> ms < INT_MAX ->
  (timeout < 0 \/ ms < timeout) /\
  ms * 1000000 <= Z.max 0 (limit - now) + 2000000 /\
  (now + ms * 1000000 <= later ->
   forall status l', wall_budget_after_wait later later' l = Some (status, l') ->
   status = if max_wall_nanoseconds l =? 0 then RESOURCE_EXHAUSTED else RESOURCE_LIMIT_ERROR).
Proof.
  intros El H0 E Hms. unfold bound_wait_by_wall_budget in E. rewrite El in E.
  destruct (Z.eqb_spec limit 0); [done|].
  destruct (checked_i64 (limit - now)) as [ns|] eqn:En; [|done].
  apply checked_spec in En as [-> _].
  assert (Hr : exists r, (if limit - now <=? 0 then Some 0 else
      let? sum := checked_i64 (limit - now + 999999) in Some (sum / 1000000)) = Some r /\
    0 <= r /\ limit - now <= r * 1000000 <= Z.max 0 (limit - now) + 999999).
  { destruct (Z.leb_spec (limit - now) 0); [exists 0; split; [done|lia]|].
    destruct (checked_i64 _) as [sum|] eqn:Ec; [|done]. apply checked_spec in Ec as [-> _].
    eexists. split; [done|]. divmod_lia. }
  destruct Hr as (r & Hr & Hr0 & Hr1). rewrite Hr in E.
  destruct ((0 <=? timeout) && (timeout <=? r + 1)) eqn:Et; [done|].
  assert (Hmr : ms = r + 1).
  { destruct (Z.ltb_spec INT_MAX (r + 1)); injection E as <-; lia. }
  split_and!.
  - apply andb_false_iff in Et as [?%Z.leb_gt|?%Z.leb_gt]; lia.
  - lia.
  - intros Hl status l' Ea. unfold wall_budget_after_wait in Ea. rewrite El in Ea.
    destruct (Z.eqb_spec limit 0); [done|]. destruct (Z.leb_spec later limit); [lia|].
    cbn [orb] in Ea. destruct (Z.eqb_spec (max_wall_nanoseconds l) 0); cbn [negb] in Ea.
    + by injection Ea as <- _.
    + destruct (resource_limit_trip later' l); [|done]. by injection Ea as <- _.
Qed.

(** A VM with 5 ms of wall-clock budget, started at time 1000. *)
Definition example_wall : Limits :=
  with_hard_stop 0 5000000 false 0 0 (with_registered 1000 example_limits).

Lemma bounded_wait_reports_witness :
  bound_wait_by_wall_budget 2000000 example_wall (-1) = Some (5, true) /\
  5 * 1000000 <= Z.max 0 (5001000 - 2000000) + 2000000.
Proof.
  assert (E : bound_wait_by_wall_budget 2000000 example_wall (-1) = Some (5, true))
    by (vm_compute; reflexivity).
  split; [exact E|].
  destruct (bounded_wait_reports 2000000 (-1) 5 7000000 7000000 example_wall 5001000)
    as (_ & B & _); [reflexivity|lia|exact E|reflexivity|exact B].
Defined.

(** ** Corners *)

Definition grace_env (max grace : string) (name : string) : option (list Z) :=
  if String.eqb name "DIAMOND_MAX_INSTRUCTIONS" then Some (bytes max)
  else if String.eqb name "DIAMOND_GRACE_INSTRUCTIONS" then Some (bytes grace) else None.

(** A grace allowance close to 2^64, which the environment parser accepts,
    wraps the hard limit: when the budget trips at instruction 4096 an
    allowance of 2^64 - 4096 leaves no hard limit at all, and one of 2^64 - 1
    a hard limit already in the past. *)
Theorem grace_allowance_wraps :
  let l max grace := with_executed 4096 4096 (read_limits (grace_env max grace)) in
  (exists l', resource_limit_trip 0 (l "100" "18446744073709547520")%string = Some l' /\
     hard_stop_instruction_count l' = 0 /\ resource_grace_active l' = true) /\
  (exists l', resource_limit_trip 0 (l "100" "18446744073709551615")%string = Some l' /\
     hard_stop_instruction_count l' = 4095 /\
     instruction_check false 0 0 l' initial_shared =
       Some (RESOURCE_EXHAUSTED, with_hard_stop 0 0 true 0 0 (with_executed 4097 4096 l'),
         initial_shared)).
Proof.
  split; eexists; (split; [vm_compute; reflexivity|]); split; vm_compute; reflexivity.
Qed.

Definition wall_env (name : string) : option (list Z) :=
  if String.eqb name "DIAMOND_MAX_WALL_MILLISECONDS" then Some (bytes "9223372036854") else None.

(** The largest wall-clock budget the environment parser accepts overflows
    the signed addition of its deadline one second after boot, in every
    bounded wait and in every trip; the per-instruction check, which subtracts
    instead, is defined. *)
Theorem wall_deadline_overflows :
  let l := with_registered 1000000000 (read_limits wall_env) in
  max_wall_nanoseconds l = 9223372036854000000 /\
  (forall now timeout, bound_wait_by_wall_budget now l timeout = None) /\
  (forall now now', wall_budget_after_wait now now' l = None) /\
  (forall now, resource_limit_trip now l = None) /\
  (exists s l', check_budgets 2000000000 2000000000 l initial_shared = Some (LIMIT_OK, l', s)).
Proof.
  split_and!; try (intros; vm_compute; reflexivity).
  do 2 eexists. vm_compute. reflexivity.
Qed.

(** Where the host creates its first two VMs at the same time the counters are
    not the sums: a VM that registers second, before the first one has reset
    the counters, loses what it has published; when it is
    freed the process-wide byte total is negative, so the next VMs may use that
    much more than the budget. *)
Theorem late_reset_forgets_use :
  let l := with_registered 0 example_limits in
  let '(first, s) := register_count initial_shared in
  let '(first', s) := register_count s in
  first = true /\ first' = false /\
  exists l' s', check_memory 90 l s = Some (true, l', s') /\
    let s := budget_unregister l' (reset_start (reset_bytes (reset_instructions s'))) in
    budget_bytes s = -90 /\ budget_live_vms s = 1 /\
    exists l2 s2, check_memory 190 l s = Some (true, l2, s2) /\ max_memory_bytes l2 = 100.
Proof.
  cbv zeta. cbn [register_count initial_shared budget_live_vms].
  split; [reflexivity|]. split; [reflexivity|]. do 2 eexists. split; [vm_compute; reflexivity|].
  split; [vm_compute; reflexivity|]. split; [vm_compute; reflexivity|].
  do 2 eexists. split; vm_compute; reflexivity.
Qed.
