(* ===== verification/Unwind.v ===== *)
(** * Unwind: the handler stack of a frame and the instructions that unwind it

    src/vm_internal.h keeps, per activation of [run_chunk], a stack of at most
    16 [UnwindHandler]s and one [PendingUnwind]; src/vm_exceptions.c and the
    control instructions of src/vm_run_chunk.c (RETURN, RAISE, PUSH_RESCUE,
    POP_RESCUE, PUSH_ENSURE, UNWIND_JUMP, RUN_ENSURE, END_ENSURE, the jumps)
    move them.  Everything here runs on the bytecode as bytes.

    A stack is a list whose head is the top.  [vm->exception] and
    [vm->nonlocal_*] are live only from the moment something is thrown to the
    moment it is caught or leaves the frame, so they are arguments and results
    of the functions that pass them, and a [Machine] between two instructions
    has [vm->has_exception] false.

    [Host] is the rest of the VM: the heap the values live in, the type test,
    the construction of exception instances and every instruction that is not
    a control instruction. *)

From S2P Require Import Prelude.
From S2P Require Import Value.
From Stdlib Require Import ZArith Lia Bool List.
From stdpp Require Import base numbers list.

Local Open Scope Z_scope.
Local Open Scope c_scope.

Inductive DiamondVmStatus :=
  | DIAMOND_VM_OK | DIAMOND_VM_INVALID_BYTECODE | DIAMOND_VM_TYPE_ERROR
  | DIAMOND_VM_INTEGER_OVERFLOW | DIAMOND_VM_DIVISION_BY_ZERO | DIAMOND_VM_ARITY_ERROR
  | DIAMOND_VM_STACK_OVERFLOW | DIAMOND_VM_OUT_OF_MEMORY | DIAMOND_VM_INDEX_ERROR
  | DIAMOND_VM_EXCEPTION | DIAMOND_VM_YIELDED | DIAMOND_VM_YIELD_WITHOUT_FIBER
  | DIAMOND_VM_FIBER_NOT_RESUMABLE | DIAMOND_VM_IO_ERROR | DIAMOND_VM_REGEXP_ERROR
  | DIAMOND_VM_WOULD_BLOCK | DIAMOND_VM_PROGRAM_ERROR | DIAMOND_VM_THREAD_ERROR
  | DIAMOND_VM_SQLITE3_ERROR | DIAMOND_VM_POSTGRES_ERROR | DIAMOND_VM_MYSQL_ERROR
  | DIAMOND_VM_NO_METHOD_ERROR | DIAMOND_VM_JSON_ERROR | DIAMOND_VM_SUPERVISOR_ERROR
  | DIAMOND_VM_SANDBOX_ERROR | DIAMOND_VM_RESOURCE_LIMIT_ERROR | DIAMOND_VM_FROZEN_ERROR
  | DIAMOND_VM_NONLOCAL_EXIT | DIAMOND_VM_CONSTANT_ERROR | DIAMOND_VM_INTERRUPTED
  | DIAMOND_VM_RESOURCE_EXHAUSTED.

#[global] Instance DiamondVmStatus_eq_dec : EqDecision DiamondVmStatus.
Proof. solve_decision. Defined.

(** ** The handler stack *)

(** What an ensure clause resumes when it ends.  [PENDING_JUMP]'s [levels] is
    the struct's [nonlocal_target] field: begin levels still to leave. *)
Inductive PendingUnwind :=
  | PENDING_NONE
  | PENDING_NORMAL (continuation : Z)
  | PENDING_RETURN (value : DiamondValue)
  | PENDING_EXCEPTION (value : DiamondValue)
  | PENDING_NONLOCAL (value : DiamondValue) (nonlocal_target : Z) (nonlocal_is_break : bool)
  | PENDING_JUMP (continuation levels : Z).

Inductive HandlerKind := HANDLER_RESCUE | HANDLER_ENSURE | HANDLER_ACTIVE_ENSURE.

#[global] Instance HandlerKind_eq_dec : EqDecision HandlerKind.
Proof. solve_decision. Defined.

Record UnwindHandler := {
  handler_kind : HandlerKind;
  handler_target : Z;
  handler_destination : Z;
  handler_types : list Z;
  handler_enabled : bool;
  saved_pending : PendingUnwind;
}.

Definition rescue_handler (target destination : Z) (types : list Z) (enabled : bool) :=
  {| handler_kind := HANDLER_RESCUE; handler_target := target;
     handler_destination := destination; handler_types := types;
     handler_enabled := enabled; saved_pending := PENDING_NONE |}.

Definition ensure_handler (target : Z) :=
  {| handler_kind := HANDLER_ENSURE; handler_target := target; handler_destination := 0;
     handler_types := []; handler_enabled := true; saved_pending := PENDING_NONE |}.

(** The pending unwind after [handler] has been popped. *)
Definition pop_unwind_handler (handler : UnwindHandler) (pending : PendingUnwind) : PendingUnwind :=
  match handler_kind handler with
  | HANDLER_ACTIVE_ENSURE => saved_pending handler
  | _ => pending
  end.

(** The handler as [enter_ensure] leaves it; the caller resumes at its target
    with [next] pending. *)
Definition enter_ensure (handler : UnwindHandler) (pending : PendingUnwind) : UnwindHandler :=
  {| handler_kind := HANDLER_ACTIVE_ENSURE; handler_target := handler_target handler;
     handler_destination := handler_destination handler;
     handler_types := handler_types handler; handler_enabled := handler_enabled handler;
     saved_pending := pending |}.

(** A frame's stack and pending unwind, and where execution goes on. *)
Record Landing := { landing_ip : Z; landing_handlers : list UnwindHandler;
                    landing_pending : PendingUnwind }.

(** [ip=enter_ensure(&handlers[count-1],&pending,next)] for a stack whose top
    is [handler]. *)
Definition land_in_ensure handler rest pending next : Landing :=
  {| landing_ip := handler_target handler;
     landing_handlers := enter_ensure handler pending :: rest;
     landing_pending := next |}.

Fixpoint unwind_for_jump (handlers : list UnwindHandler) (pending : PendingUnwind)
    (levels target : Z) : option Landing :=
  if levels <=? 0 then
    Some {| landing_ip := target; landing_handlers := handlers; landing_pending := pending |}
  else
    match handlers with
    | [] => None
    | top :: rest =>
        match handler_kind top with
        | HANDLER_RESCUE => unwind_for_jump rest (pop_unwind_handler top pending) levels target
        | HANDLER_ACTIVE_ENSURE =>
            unwind_for_jump rest (pop_unwind_handler top pending) (levels - 1) target
        | HANDLER_ENSURE =>
            Some (land_in_ensure top rest pending (PENDING_JUMP target (levels - 1)))
        end
    end.

(** [while(handler_count>0&&handlers[handler_count-1].kind!=HANDLER_ENSURE)
    pop_unwind_handler(...)], the loop RETURN, END_ENSURE and
    [nonlocal_exit_arrives] share. *)
Fixpoint pop_to_ensure (handlers : list UnwindHandler) (pending : PendingUnwind) :
    list UnwindHandler * PendingUnwind :=
  match handlers with
  | [] => ([], pending)
  | top :: rest =>
      if decide (handler_kind top = HANDLER_ENSURE) then (handlers, pending)
      else pop_to_ensure rest (pop_unwind_handler top pending)
  end.

(** [catch_exception]: the landing, and the register that receives the
    exception when a rescue clause takes it; [None] when no handler is left. *)
Fixpoint catch_exception (matches : DiamondValue -> Z -> bool) (exception : DiamondValue)
    (handlers : list UnwindHandler) (pending : PendingUnwind) : option (Landing * option Z) :=
  match handlers with
  | [] => None
  | handler :: rest =>
      match handler_kind handler with
      | HANDLER_ENSURE =>
          Some (land_in_ensure handler rest pending (PENDING_EXCEPTION exception), None)
      | HANDLER_ACTIVE_ENSURE =>
          catch_exception matches exception rest (pop_unwind_handler handler pending)
      | HANDLER_RESCUE =>
          let pending := pop_unwind_handler handler pending in
          if negb (handler_enabled handler) then catch_exception matches exception rest pending
          else if match handler_types handler with
                  | [] => true
                  | types => existsb (matches exception) types
                  end
          then Some ({| landing_ip := handler_target handler; landing_handlers := rest;
                        landing_pending := pending |}, Some (handler_destination handler))
          else catch_exception matches exception rest pending
      end
  end.

(** ** Statuses and exception classes *)

Definition DIAMOND_NO_CLASS : Z := 65535.

(** [exception_class_for_status]; classes are [DiamondBuiltinClass] values. *)
Definition exception_class_for_status (memory_limit_tripped memory_hard_stopped : bool)
    (status : DiamondVmStatus) : Z :=
  match status with
  | DIAMOND_VM_OUT_OF_MEMORY =>
      if memory_limit_tripped && negb memory_hard_stopped then 21 else DIAMOND_NO_CLASS
  | DIAMOND_VM_TYPE_ERROR => 3
  | DIAMOND_VM_INTEGER_OVERFLOW => 7
  | DIAMOND_VM_DIVISION_BY_ZERO => 6
  | DIAMOND_VM_ARITY_ERROR => 4
  | DIAMOND_VM_STACK_OVERFLOW => 8
  | DIAMOND_VM_INDEX_ERROR => 5
  | DIAMOND_VM_FIBER_NOT_RESUMABLE | DIAMOND_VM_YIELD_WITHOUT_FIBER => 9
  | DIAMOND_VM_IO_ERROR => 10
  | DIAMOND_VM_REGEXP_ERROR => 11
  | DIAMOND_VM_WOULD_BLOCK => 12
  | DIAMOND_VM_PROGRAM_ERROR | DIAMOND_VM_CONSTANT_ERROR => 2
  | DIAMOND_VM_THREAD_ERROR => 13
  | DIAMOND_VM_SQLITE3_ERROR => 14
  | DIAMOND_VM_POSTGRES_ERROR => 15
  | DIAMOND_VM_MYSQL_ERROR => 16
  | DIAMOND_VM_NO_METHOD_ERROR => 17
  | DIAMOND_VM_JSON_ERROR => 18
  | DIAMOND_VM_SUPERVISOR_ERROR => 19
  | DIAMOND_VM_SANDBOX_ERROR => 20
  | DIAMOND_VM_RESOURCE_LIMIT_ERROR => 21
  | DIAMOND_VM_FROZEN_ERROR => 22
  | _ => DIAMOND_NO_CLASS
  end.

(** What building the exception instance of a failed status yields: no
    instance; an instance whose message or barrier could not be allocated, set
    as [vm->exception] but not thrown; or the exception. *)
Inductive ExceptionMade :=
  | NotMade
  | HalfMade (exception : DiamondValue)
  | Made (exception : DiamondValue).

(** Register files: [run_chunk] starts every register at nil. *)
Definition Registers := Z -> DiamondValue.

Definition write_register (registers : Registers) (r : Z) (value : DiamondValue) : Registers :=
  fun x => if x =? r then value else registers x.

(** How an instruction that is not a control instruction ends. *)
Inductive InstructionResult {host : Type} :=
  | Proceeds (ip : Z) (registers : Registers) (h : host)
  | Raises (exception : DiamondValue) (registers : Registers) (h : host)
      (** [VM_PROPAGATE] of a callee's [DIAMOND_VM_EXCEPTION] *)
  | Fails (status : DiamondVmStatus) (registers : Registers) (h : host)
      (** [VM_RETURN] of a status other than EXCEPTION and NONLOCAL_EXIT *)
  | Exits (value : DiamondValue) (target : Z) (is_break : bool) (registers : Registers) (h : host).
      (** [VM_RETURN(DIAMOND_VM_NONLOCAL_EXIT)] with [vm->nonlocal_*] set *)
Arguments InstructionResult : clear implicits.

(** The rest of the VM, as the control instructions use it. *)
Class Host := {
  host : Type;
  value_matches_type : host -> DiamondValue -> Z -> bool;
  value_is_native_kind : DiamondValue -> Z -> bool;
  class_count : Z;
  memory_limit_tripped : host -> bool;
  memory_hard_stopped : host -> bool;
  make_exception : Z -> host -> ExceptionMade * host;
  raise_capture_backtrace : DiamondValue -> host -> host;
  other_instruction : list Z -> Z -> Registers -> host -> InstructionResult host;
}.

Definition is_truthy (value : DiamondValue) : bool :=
  match value with
  | DIAMOND_NIL => false
  | DIAMOND_BOOL boolean => boolean
  | _ => true
  end.

(** ** Decoding *)

Definition byte_at (code : list Z) (offset : Z) : option Z :=
  if offset <? 0 then None else code !! Z.to_nat offset.

Definition short_at (code : list Z) (offset : Z) : option Z :=
  let? high := byte_at code offset in
  let? low := byte_at code (offset + 1) in
  Some (Z.lor (Z.shiftl high 8) low).

Fixpoint bytes_at (code : list Z) (offset : Z) (count : nat) : option (list Z) :=
  match count with
  | O => Some []
  | S count =>
      let? byte := byte_at code offset in
      let? rest := bytes_at code (offset + 1) count in
      Some (byte :: rest)
  end.

Inductive Instruction :=
  | NIL (destination : Z)
  | MOVE (destination source : Z)
  | JUMP (target : Z)
  | JUMP_IF_FALSE (condition target : Z)
  | JUMP_IF_TRUE (condition target : Z)
  | NOT (destination source : Z)
  | RETURN (source : Z)
  | RAISE (source : Z)
  | PUSH_RESCUE (destination type_count : Z) (types : list Z) (target : Z)
  | POP_RESCUE
  | PUSH_ENSURE (target : Z)
  | RUN_ENSURE (continuation : Z)
  | END_ENSURE
  | IS_TYPE (destination source type : Z)
  | UNWIND_JUMP (levels target : Z)
  | OTHER (opcode : Z).

Definition DIAMOND_OP_NIL := 3.
Definition DIAMOND_OP_BOOL := 4.
Definition DIAMOND_OP_MOVE := 5.
Definition DIAMOND_OP_JUMP := 27.
Definition DIAMOND_OP_JUMP_IF_FALSE := 28.
Definition DIAMOND_OP_NOT := 55.
Definition DIAMOND_OP_JUMP_IF_TRUE := 56.
Definition DIAMOND_OP_RETURN := 57.
Definition DIAMOND_OP_RAISE := 58.
Definition DIAMOND_OP_PUSH_RESCUE := 59.
Definition DIAMOND_OP_POP_RESCUE := 60.
Definition DIAMOND_OP_PUSH_ENSURE := 61.
Definition DIAMOND_OP_RUN_ENSURE := 62.
Definition DIAMOND_OP_END_ENSURE := 63.
Definition DIAMOND_OP_IS_TYPE := 64.
Definition DIAMOND_OP_UNWIND_JUMP := 185.

(** The operand reads of the control instructions: the instruction and the
    offset after it, [None] when the bytecode ends inside it. *)
Definition decode (code : list Z) (offset : Z) : option (Instruction * Z) :=
  let? opcode := byte_at code offset in
  let at1 := offset + 1 in
  if opcode =? DIAMOND_OP_NIL then
    let? d := short_at code at1 in Some (NIL d, at1 + 2)
  else if opcode =? DIAMOND_OP_MOVE then
    let? d := short_at code at1 in let? s := short_at code (at1 + 2) in Some (MOVE d s, at1 + 4)
  else if opcode =? DIAMOND_OP_JUMP then
    let? t := short_at code at1 in Some (JUMP t, at1 + 2)
  else if opcode =? DIAMOND_OP_JUMP_IF_FALSE then
    let? c := short_at code at1 in let? t := short_at code (at1 + 2) in
    Some (JUMP_IF_FALSE c t, at1 + 4)
  else if opcode =? DIAMOND_OP_JUMP_IF_TRUE then
    let? c := short_at code at1 in let? t := short_at code (at1 + 2) in
    Some (JUMP_IF_TRUE c t, at1 + 4)
  else if opcode =? DIAMOND_OP_NOT then
    let? d := short_at code at1 in let? s := short_at code (at1 + 2) in Some (NOT d s, at1 + 4)
  else if opcode =? DIAMOND_OP_RETURN then
    let? s := short_at code at1 in Some (RETURN s, at1 + 2)
  else if opcode =? DIAMOND_OP_RAISE then
    let? s := short_at code at1 in Some (RAISE s, at1 + 2)
  else if opcode =? DIAMOND_OP_PUSH_RESCUE then
    let? d := short_at code at1 in let? n := byte_at code (at1 + 2) in
    let? ts := bytes_at code (at1 + 3) 8 in let? t := short_at code (at1 + 11) in
    Some (PUSH_RESCUE d n ts t, at1 + 13)
  else if opcode =? DIAMOND_OP_POP_RESCUE then Some (POP_RESCUE, at1)
  else if opcode =? DIAMOND_OP_PUSH_ENSURE then
    let? t := short_at code at1 in Some (PUSH_ENSURE t, at1 + 2)
  else if opcode =? DIAMOND_OP_RUN_ENSURE then
    let? t := short_at code at1 in Some (RUN_ENSURE t, at1 + 2)
  else if opcode =? DIAMOND_OP_END_ENSURE then Some (END_ENSURE, at1)
  else if opcode =? DIAMOND_OP_IS_TYPE then
    let? d := short_at code at1 in let? s := short_at code (at1 + 2) in
    let? t := short_at code (at1 + 4) in Some (IS_TYPE d s t, at1 + 6)
  else if opcode =? DIAMOND_OP_UNWIND_JUMP then
    let? l := byte_at code at1 in let? t := short_at code (at1 + 1) in
    Some (UNWIND_JUMP l t, at1 + 3)
  else Some (OTHER opcode, at1).
