(* ===== verification/ControlMachine.v ===== *)
(** * ControlMachine: one activation of [run_chunk], control instruction by instruction

    [step] is one pass through the dispatch loop of src/vm_run_chunk.c for a
    frame: the control instructions are written out, every other opcode is the
    host's [other_instruction], and what VM_RETURN, VM_PROPAGATE,
    [catch_runtime_error] and [nonlocal_exit_arrives] do with a status is
    [vm_return], [raise_exception] and [nonlocal_exit_arrives].  [leads] is
    "execution gets there": through a finite number of steps, to the next
    instruction or out of the frame.

    The signal poll and the budget checks at the top of the loop are not part
    of [step]; file Limits models the budgets. *)

From S2P Require Import Prelude.
From S2P Require Import Value.
From S2P Require Import Unwind.
From Stdlib Require Import ZArith Lia Bool List.
From stdpp Require Import base numbers list relations.

Local Open Scope Z_scope.
Local Open Scope c_scope.

Section Machine.
  Context `{Host}.

Record Frame := {
  ip : Z;
  registers : Registers;
  handlers : list UnwindHandler;
  pending : PendingUnwind;
  heap : host;
}.

(** How a frame ends: a returned value, an exception its caller sees, any
    other status, or a non-local exit passed on. *)
Inductive Departure :=
  | Returns (value : DiamondValue)
  | Throws (exception : DiamondValue)
  | Reports (status : DiamondVmStatus)
  | PassesOn (value : DiamondValue) (target : Z) (is_break : bool).

Inductive Next :=
  | Continues (m : Frame)
  | Leaves (d : Departure) (h : host).

(** What is fixed for an activation: its bytecode, its serial, whether there
    is a frame below it, its register count. *)
Record Activation := {
  code : list Z;
  serial : Z;
  has_previous : bool;
  register_count : Z;
}.

Variable a : Activation.

Definition set_ip (m : Frame) (target : Z) : Frame :=
  {| ip := target; registers := registers m; handlers := handlers m; pending := pending m;
     heap := heap m |}.

Definition set_state (m : Frame) (regs : Registers) (h : host) : Frame :=
  {| ip := ip m; registers := regs; handlers := handlers m; pending := pending m; heap := h |}.

Definition land (m : Frame) (l : Landing) : Frame :=
  {| ip := landing_ip l; registers := registers m; handlers := landing_handlers l;
     pending := landing_pending l; heap := heap m |}.

Definition set_register (m : Frame) (r : Z) (value : DiamondValue) (next : Z) : Frame :=
  {| ip := next; registers := write_register (registers m) r value; handlers := handlers m;
     pending := pending m; heap := heap m |}.

(** An exception thrown in this frame: [catch_exception], else the frame ends
    with DIAMOND_VM_EXCEPTION (by then no handler is left). *)
Definition raise_exception (exception : DiamondValue) (m : Frame) : Next :=
  match catch_exception (value_matches_type (heap m)) exception (handlers m) (pending m) with
  | Some (l, destination) =>
      let m' := land m l in
      Continues match destination with
                | Some d => set_register m' d exception (landing_ip l)
                | None => m'
                end
  | None => Leaves (Throws exception) (heap m)
  end.

(** The part of [catch_runtime_error] before its [catch_exception]: the
    exception instance for [status], if it has a class and can be built. *)
Definition runtime_exception (status : DiamondVmStatus) (h : host) : ExceptionMade * host :=
  let class_index := exception_class_for_status (memory_limit_tripped h)
                       (memory_hard_stopped h) status in
  if (class_index =? DIAMOND_NO_CLASS) || (class_count <=? class_index) then (NotMade, h)
  else make_exception class_index h.

(** [VM_RETURN(status)] for a status other than OK, EXCEPTION and
    NONLOCAL_EXIT. *)
Definition vm_return (status : DiamondVmStatus) (m : Frame) : Next :=
  match handlers m with
  | [] => Leaves (Reports status) (heap m)
  | _ =>
      match runtime_exception status (heap m) with
      | (NotMade, h) => Leaves (Reports status) h
      | (HalfMade exception, h) => Leaves (Throws exception) h
      | (Made exception, h) => raise_exception exception (set_state m (registers m) h)
      end
  end.

(** The unwinding of a return: the next ensure clause runs first, and the
    value leaves the frame when there is none. *)
Definition return_value (value : DiamondValue) (m : Frame) : Next :=
  match pop_to_ensure (handlers m) (pending m) with
  | (top :: rest, pd) => Continues (land m (land_in_ensure top rest pd (PENDING_RETURN value)))
  | ([], _) => Leaves (Returns value) (heap m)
  end.

Definition nonlocal_break_can_land (opcode : Z) : bool :=
  existsb (Z.eqb opcode)
    [29; 30; 32; 39; 40; 41; 42; 43; 111; 130; 140; 141; 142; 143; 145; 146; 147; 148; 149;
     150; 151; 152; 187; 153; 154; 155].

(** [VM_RETURN(DIAMOND_VM_NONLOCAL_EXIT)] at instruction [offset], with
    [vm->nonlocal_*] holding the value, target and kind of the exit; the
    machine's [ip] is past the instruction. *)
Definition nonlocal_exit_arrives (value : DiamondValue) (target : Z) (is_break : bool)
    (offset : Z) (m : Frame) : Next :=
  let here := target =? serial a in
  if here && is_break then
    match byte_at (code a) offset, short_at (code a) (offset + 1) with
    | Some opcode, Some destination =>
        if negb (nonlocal_break_can_land opcode) then vm_return DIAMOND_VM_TYPE_ERROR m
        else if register_count a <=? destination then vm_return DIAMOND_VM_TYPE_ERROR m
        else Continues (set_register m destination value (ip m))
    | _, _ => vm_return DIAMOND_VM_TYPE_ERROR m
    end
  else
    match pop_to_ensure (handlers m) (pending m) with
    | (top :: rest, pd) =>
        Continues (land m (land_in_ensure top rest pd
          (if here then PENDING_RETURN value else PENDING_NONLOCAL value target is_break)))
    | ([], _) =>
        if here then Leaves (Returns value) (heap m)
        else if has_previous a then Leaves (PassesOn value target is_break) (heap m)
        else Leaves (Reports DIAMOND_VM_TYPE_ERROR) (heap m)
    end.

(** [unwind_for_jump] as UNWIND_JUMP and END_ENSURE call it. *)
Definition jump_out (levels target : Z) (m : Frame) : Next :=
  match unwind_for_jump (handlers m) (pending m) levels target with
  | Some l => Continues (land m l)
  | None => vm_return DIAMOND_VM_INVALID_BYTECODE m
  end.

Definition jump_to (target : Z) (m : Frame) : Next :=
  if Z.of_nat (length (code a)) <? target then vm_return DIAMOND_VM_INVALID_BYTECODE m
  else Continues (set_ip m target).

(** DIAMOND_OP_END_ENSURE. *)
Definition end_ensure (offset : Z) (m : Frame) : Next :=
  match handlers m with
  | top :: rest =>
      match handler_kind top with
      | HANDLER_ACTIVE_ENSURE =>
          let popped := {| ip := ip m; registers := registers m; handlers := rest;
                           pending := pop_unwind_handler top (pending m); heap := heap m |} in
          match pending m with
          | PENDING_NORMAL continuation => Continues (set_ip popped continuation)
          | PENDING_JUMP continuation levels => jump_out levels continuation popped
          | PENDING_RETURN value => return_value value popped
          | PENDING_NONLOCAL value target is_break =>
              nonlocal_exit_arrives value target is_break offset popped
          | PENDING_EXCEPTION exception => raise_exception exception popped
          | PENDING_NONE => vm_return DIAMOND_VM_INVALID_BYTECODE popped
          end
      | _ => vm_return DIAMOND_VM_INVALID_BYTECODE m
      end
  | [] => vm_return DIAMOND_VM_INVALID_BYTECODE m
  end.

(** [handlers[handler_count++]=handler], with its guards. *)
Definition push_handler (handler : UnwindHandler) (m : Frame) (next : Z) : Next :=
  if (Z.of_nat (length (handlers m)) =? 16) ||
     (Z.of_nat (length (code a)) <? handler_target handler)
  then vm_return DIAMOND_VM_INVALID_BYTECODE m
  else Continues {| ip := next; registers := registers m; handlers := handler :: handlers m;
                    pending := pending m; heap := heap m |}.

Definition execute (instruction : Instruction) (offset next : Z) (m : Frame) : Next :=
  let r := registers m in
  match instruction with
  | NIL d => Continues (set_register m d DIAMOND_NIL next)
  | MOVE d s => Continues (set_register m d (r s) next)
  | JUMP t => jump_to t m
  | JUMP_IF_FALSE c t =>
      if Z.of_nat (length (code a)) <? t then vm_return DIAMOND_VM_INVALID_BYTECODE m
      else Continues (set_ip m (if is_truthy (r c) then next else t))
  | JUMP_IF_TRUE c t =>
      if Z.of_nat (length (code a)) <? t then vm_return DIAMOND_VM_INVALID_BYTECODE m
      else Continues (set_ip m (if is_truthy (r c) then t else next))
  | NOT d s => Continues (set_register m d (DIAMOND_BOOL (negb (is_truthy (r s)))) next)
  | RETURN s => return_value (r s) m
  | RAISE s => raise_exception (r s) (set_state m r (raise_capture_backtrace (r s) (heap m)))
  | PUSH_RESCUE d n types t =>
      let enabled := Z.land n 128 =? 0 in
      let type_count := Z.land n 127 in
      if 8 <? type_count then vm_return DIAMOND_VM_INVALID_BYTECODE m
      else push_handler (rescue_handler t d (firstn (Z.to_nat type_count) types) enabled) m next
  | POP_RESCUE =>
      match handlers m with
      | top :: rest =>
          match handler_kind top with
          | HANDLER_RESCUE =>
              Continues {| ip := next; registers := r; handlers := rest; pending := pending m;
                           heap := heap m |}
          | _ => vm_return DIAMOND_VM_INVALID_BYTECODE m
          end
      | [] => vm_return DIAMOND_VM_INVALID_BYTECODE m
      end
  | PUSH_ENSURE t => push_handler (ensure_handler t) m next
  | RUN_ENSURE continuation =>
      match handlers m with
      | top :: rest =>
          match handler_kind top with
          | HANDLER_ENSURE =>
              if Z.of_nat (length (code a)) <? continuation
              then vm_return DIAMOND_VM_INVALID_BYTECODE m
              else Continues (land m (land_in_ensure top rest (pending m)
                                        (PENDING_NORMAL continuation)))
          | _ => vm_return DIAMOND_VM_INVALID_BYTECODE m
          end
      | [] => vm_return DIAMOND_VM_INVALID_BYTECODE m
      end
  | END_ENSURE => end_ensure offset (set_ip m next)
  | IS_TYPE d s t =>
      Continues (set_register m d (DIAMOND_BOOL
        (if (57344 <=? t) && (t <? 61440) then value_is_native_kind (r s) (t - 57344)
         else value_matches_type (heap m) (r s) t)) next)
  | UNWIND_JUMP levels t =>
      if Z.of_nat (length (code a)) <? t then vm_return DIAMOND_VM_INVALID_BYTECODE m
      else jump_out levels t m
  | OTHER _ =>
      match other_instruction (code a) offset r (heap m) with
      | Proceeds next r' h => Continues (set_ip (set_state m r' h) next)
      | Raises exception r' h => raise_exception exception (set_state m r' h)
      | Fails status r' h => vm_return status (set_state m r' h)
      | Exits value target is_break r' h =>
          nonlocal_exit_arrives value target is_break offset (set_ip (set_state m r' h) next)
      end
  end.

(** One pass of the dispatch loop; past the end the frame ends with
    DIAMOND_VM_INVALID_BYTECODE (a fiber's outermost frame excepted). *)
Definition step (m : Frame) : Next :=
  if Z.of_nat (length (code a)) <=? ip m then Leaves (Reports DIAMOND_VM_INVALID_BYTECODE) (heap m)
  else match decode (code a) (ip m) with
       | Some (instruction, next) => execute instruction (ip m) next m
       | None => vm_return DIAMOND_VM_INVALID_BYTECODE m
       end.

Fixpoint run (fuel : nat) (m : Frame) : option (Departure * host) :=
  match fuel with
  | O => None
  | S fuel =>
      match step m with
      | Continues m' => run fuel m'
      | Leaves d h => Some (d, h)
      end
  end.

(** The frame [run_chunk] starts with: registers zeroed (nil), the arguments in
    the first of them (one that was not given is left nil), no handlers. *)
Definition argument_registers (arguments : list DiamondValue) : Registers :=
  fun r =>
    if r <? 0 then DIAMOND_NIL
    else match nth (Z.to_nat r) arguments DIAMOND_NIL with
         | DIAMOND_UNDEFINED => DIAMOND_NIL
         | value => value
         end.

Definition initial_frame (arguments : list DiamondValue) (h : host) : Frame :=
  {| ip := 0; registers := argument_registers arguments; handlers := []; pending := PENDING_NONE;
     heap := h |}.

(** ** Reaching *)

Definition steps : Frame -> Frame -> Prop := rtc (fun m m' => step m = Continues m').

Definition leads (m : Frame) (n : Next) : Prop :=
  match n with
  | Continues m' => steps m m'
  | Leaves _ _ => exists m', steps m m' /\ step m' = n
  end.

Lemma steps_refl m : steps m m.
Proof. apply rtc_refl. Qed.

Lemma steps_step m m' n : step m = Continues m' -> leads m' n -> leads m n.
Proof.
  intros Hs Hn. destruct n as [m2|d h]; simpl in *.
  - by eapply rtc_l.
  - destruct Hn as (m1 & H1 & H2). exists m1. split; [by eapply rtc_l | done].
Qed.

Lemma steps_leads m m' n : steps m m' -> leads m' n -> leads m n.
Proof.
  intros Hs. induction Hs as [|x y z Hxy Hyz IH]; [done|]. intros Hn.
  eapply steps_step; [exact Hxy | by apply IH].
Qed.

Lemma step_leads m n : step m = n -> leads m n.
Proof.
  intros Hs. destruct n as [m'|d h]; simpl.
  - apply rtc_once, Hs.
  - exists m. split; [apply rtc_refl | done].
Qed.

(** A departure reached is a departure [run] computes. *)
Lemma leads_run m d h : leads m (Leaves d h) -> exists fuel, run fuel m = Some (d, h).
Proof.
  intros (m' & Hs & Hl). induction Hs as [x|x y z Hxy Hyz IH].
  - exists 1%nat. simpl. by rewrite Hl.
  - destruct (IH Hl) as [fuel Hf]. exists (S fuel). simpl. by rewrite Hxy.
Qed.

End Machine.

#[global] Arguments Leaves {_} _ _.
