(* ===== verification/ControlFlow.v ===== *)
(** * ControlFlow: statements with their structured meaning

    The statements src/compiler.c, src/compiler_flow.c and
    src/compiler_control.c compile into jumps and handlers, as the tree the
    parser follows, and what a program that uses them means: a value, an
    exception, a return, a loop exit, with every ensure clause run on the way.
    This is the specification; nothing in it knows of bytecode.

    [Expressions] is the interface of the rest of the compiler: expressions
    and simple statements (assignments, calls), with the bytes the expression
    compiler emits for them and their value.  A local variable is a slot; the
    exception a begin block catches has a slot of its own, which its rescue
    clauses name. *)

From S2P Require Import Prelude.
From S2P Require Import Value.
From S2P Require Import Unwind.
From S2P Require Import ControlMachine.
From Stdlib Require Import ZArith Lia Bool List.
From stdpp Require Import base numbers list.

Local Open Scope Z_scope.
Local Open Scope c_scope.

(** The locals of a function by slot; an unassigned local is nil. *)
Definition Store := Z -> DiamondValue.

Definition write_slot (st : Store) (slot : Z) (value : DiamondValue) : Store :=
  fun x => if x =? slot then value else st x.

(** How evaluating an expression ends. *)
Inductive ExprResult :=
  | EValue (value : DiamondValue)
  | ERaise (exception : DiamondValue)
  | EFail (status : DiamondVmStatus)
  | EExit (value : DiamondValue) (target : Z) (is_break : bool).

(** What compiling an expression appends: its bytes, the register of its
    value, the locals it introduces, the registers it allocates and, of those,
    the ones it leaves to [run_chunk]'s zero-initialisation. *)
Record ExprCode := {
  expr_bytes : list Z;
  expr_register : Z;
  expr_locals : list (Z * Z);
  expr_next : Z;
  expr_nils : list Z;
}.

Class Expressions `{Host} := {
  expr : Type;
  (** with the locals in scope (slot, register), the next register and the
      offset its code starts at; [None] is a compile error *)
  expr_compile : expr -> list (Z * Z) -> Z -> Z -> option ExprCode;
  (** [None]: not finished within the fuel *)
  expr_eval : nat -> expr -> Store -> host -> option (ExprResult * Store * host);
}.

Section ControlFlow.
  Context `{Expressions}.

Inductive stmt :=
  | SExpr (e : expr)
  | SReturn (e : option expr)
  | SRaise (e : option expr)
  | SRetry
  | SBreak (e : option expr)
  | SNext
  | SRedo
  | SIf (inverted : bool) (condition : expr) (body : stmts) (otherwise : branch)
  | SPostfix (inverted : bool) (condition : expr) (body : stmt)
  | SWhile (inverted : bool) (condition : expr) (body : stmts)
  | SLoop (body : stmts)
  | SBegin (slot : Z) (body : stmts) (rescues : clauses) (otherwise ensure : branch)
with stmts :=
  | BDone
  | BThen (s : stmt) (rest : stmts)
(** The second half of an if, or an else/ensure clause: absent, a block, or
    (in an if only) an elsif chain. *)
with branch :=
  | BNone
  | BBlock (s : stmts)
  | BElsif (s : stmt)
(** [rescue name: T1 | T2]: whether the clause names the exception, and its
    types (none catches everything). *)
with clauses :=
  | CNone
  | CRescue (named : bool) (types : list Z) (body : stmts) (rest : clauses).

Scheme stmt_mut := Induction for stmt Sort Prop
with stmts_mut := Induction for stmts Sort Prop
with branch_mut := Induction for branch Sort Prop
with clauses_mut := Induction for clauses Sort Prop.
Combined Scheme program_mut from stmt_mut, stmts_mut, branch_mut, clauses_mut.

Inductive Outcome :=
  | Normal (value : DiamondValue)
  | Raised (exception : DiamondValue)
  | Failed (status : DiamondVmStatus)
  | Returned (value : DiamondValue)
  | Exited (value : DiamondValue) (target : Z) (is_break : bool)
  | Broke
  | Nexted
  | Redone
  | Retried
  | Crashed (d : Departure).

(** The locals, the value the innermost loop will have, and the rest. *)
Record State := {
  store : Store;
  result : DiamondValue;
  world : host;
}.

Definition set_result (σ : State) (value : DiamondValue) : State :=
  {| store := store σ; result := value; world := world σ |}.

Definition set_store (σ : State) (st : Store) : State :=
  {| store := st; result := result σ; world := world σ |}.

Definition set_world (σ : State) (h : host) : State :=
  {| store := store σ; result := result σ; world := h |}.

Variable serial : Z.

(** A status that fails inside a begin block becomes its exception, or leaves
    at once when it has none. *)
Definition settle (os : Outcome * State) : Outcome * State :=
  let '(o, σ) := os in
  match o with
  | Failed status =>
      match runtime_exception status (world σ) with
      | (NotMade, h) => (Crashed (Reports status), set_world σ h)
      | (HalfMade exception, h) => (Crashed (Throws exception), set_world σ h)
      | (Made exception, h) => (Raised exception, set_world σ h)
      end
  | _ => os
  end.

(** The outcome of a statement when its expression does not give a value. *)
Definition expr_outcome (r : ExprResult) : Outcome :=
  match r with
  | EValue value => Normal value
  | ERaise exception => Raised exception
  | EFail status => Failed status
  | EExit value target is_break =>
      if target =? serial then Returned value else Exited value target is_break
  end.

Definition with_value (fuel : nat) (e : expr) (σ : State)
    (k : DiamondValue -> State -> option (Outcome * State)) : option (Outcome * State) :=
  let? (r, st, h) := expr_eval fuel e (store σ) (world σ) in
  let σ := {| store := st; result := result σ; world := h |} in
  match r with
  | EValue value => k value σ
  | _ => Some (expr_outcome r, σ)
  end.

Definition raise_value (exception : DiamondValue) (σ : State) : Outcome * State :=
  (Raised exception, set_world σ (raise_capture_backtrace exception (world σ))).

(** The first clause that takes the exception. *)
Fixpoint select_clause (h : host) (exception : DiamondValue) (cls : clauses) : option stmts :=
  match cls with
  | CNone => None
  | CRescue _ types body rest =>
      if match types with [] => true | _ => existsb (value_matches_type h exception) types end
      then Some body
      else select_clause h exception rest
  end.

(** The ensure clause [ensure] runs after [os]; an abrupt end of its own
    replaces the outcome it was run for. *)
Definition finish (run_ensure : State -> option (Outcome * State)) (os : Outcome * State) :
    option (Outcome * State) :=
  let '(o, σ) := os in
  match o with
  | Crashed _ => Some os
  | _ =>
      let? os2 := run_ensure σ in
      let '(o2, σ2) := settle os2 in
      match o2 with
      | Normal _ => Some (o, σ2)
      | _ => Some (o2, σ2)
      end
  end.

(** [current] is the slot of the exception a bare [raise] raises. *)
Fixpoint exec_stmt (fuel : nat) (current : option Z) (s : stmt) (σ : State) :
    option (Outcome * State) :=
  match fuel with
  | O => None
  | S fuel =>
      match s with
      | SExpr e => with_value fuel e σ (fun v σ => Some (Normal v, σ))
      | SReturn None => Some (Returned DIAMOND_NIL, σ)
      | SReturn (Some e) => with_value fuel e σ (fun v σ => Some (Returned v, σ))
      | SRaise (Some e) => with_value fuel e σ (fun v σ => Some (raise_value v σ))
      | SRaise None => let? slot := current in Some (raise_value (store σ slot) σ)
      | SRetry => Some (Retried, σ)
      | SBreak None => Some (Broke, σ)
      | SBreak (Some e) => with_value fuel e σ (fun v σ => Some (Broke, set_result σ v))
      | SNext => Some (Nexted, σ)
      | SRedo => Some (Redone, σ)
      | SIf inverted c body otherwise =>
          with_value fuel c σ (fun v σ =>
            if xorb inverted (is_truthy v) then exec_stmts fuel current body DIAMOND_NIL σ
            else exec_branch fuel current otherwise σ)
      | SPostfix inverted c body =>
          with_value fuel c σ (fun v σ =>
            if xorb inverted (is_truthy v) then exec_stmt fuel current body σ
            else Some (Normal DIAMOND_NIL, σ))
      | SWhile inverted c body =>
          let? (o, σ') := exec_top fuel current (Some (inverted, c)) body (set_result σ DIAMOND_NIL) in
          Some (o, set_result σ' (result σ))
      | SLoop body =>
          let? (o, σ') := exec_top fuel current None body (set_result σ DIAMOND_NIL) in
          Some (o, set_result σ' (result σ))
      | SBegin slot body rescues otherwise ensure =>
          exec_begin fuel current slot body rescues otherwise ensure σ
      end
  end
with exec_stmts (fuel : nat) (current : option Z) (ss : stmts) (last : DiamondValue) (σ : State) :
    option (Outcome * State) :=
  match fuel with
  | O => None
  | S fuel =>
      match ss with
      | BDone => Some (Normal last, σ)
      | BThen s rest =>
          let? (o, σ) := exec_stmt fuel current s σ in
          match o with
          | Normal v => exec_stmts fuel current rest v σ
          | _ => Some (o, σ)
          end
      end
  end
with exec_branch (fuel : nat) (current : option Z) (b : branch) (σ : State) :
    option (Outcome * State) :=
  match fuel with
  | O => None
  | S fuel =>
      match b with
      | BNone => Some (Normal DIAMOND_NIL, σ)
      | BBlock s => exec_stmts fuel current s DIAMOND_NIL σ
      | BElsif s => exec_stmt fuel current s σ
      end
  end
(** The top of a loop: the condition, if it has one. *)
with exec_top (fuel : nat) (current : option Z) (c : option (bool * expr)) (body : stmts) (σ : State) :
    option (Outcome * State) :=
  match fuel with
  | O => None
  | S fuel =>
      match c with
      | None => exec_round fuel current c body σ
      | Some (inverted, e) =>
          with_value fuel e σ (fun v σ =>
            if xorb inverted (is_truthy v) then exec_round fuel current c body σ
            else Some (Normal (result σ), σ))
      end
  end
with exec_round (fuel : nat) (current : option Z) (c : option (bool * expr)) (body : stmts) (σ : State) :
    option (Outcome * State) :=
  match fuel with
  | O => None
  | S fuel =>
      let? (o, σ) := exec_stmts fuel current body DIAMOND_NIL σ in
      match o with
      | Normal _ | Nexted => exec_top fuel current c body σ
      | Redone => exec_round fuel current c body σ
      | Broke => Some (Normal (result σ), σ)
      | _ => Some (o, σ)
      end
  end
with exec_begin (fuel : nat) (current : option Z) (slot : Z) (body : stmts) (rescues : clauses)
    (otherwise ensure : branch) (σ : State) : option (Outcome * State) :=
  match fuel with
  | O => None
  | S fuel =>
      let finish := finish (exec_branch fuel current ensure) in
      let? os := exec_stmts fuel current body DIAMOND_NIL σ in
      let '(o, σ) := settle os in
      match o with
      | Normal v =>
          match otherwise with
          | BNone => finish (Normal v, σ)
          | _ => let? os := exec_branch fuel current otherwise σ in finish (settle os)
          end
      | Raised v =>
          match rescues with
          | CNone => finish (Raised v, σ)
          | _ =>
              let σ := set_store σ (write_slot (store σ) slot v) in
              match select_clause (world σ) v rescues with
              | Some clause =>
                  let? os := exec_stmts fuel (Some slot) clause DIAMOND_NIL σ in
                  match settle os with
                  | (Retried, σ) => exec_begin fuel current slot body rescues otherwise ensure σ
                  | os => finish os
                  end
              | None => finish (raise_value (store σ slot) σ)
              end
          end
      | _ => finish (o, σ)
      end
  end.

(** A function body: parameter [i] is slot [i], and falling off the end
    returns the value of the last statement. *)
Definition exec_function (fuel : nat) (ss : stmts) (arguments : list DiamondValue) (h : host) :
    option (Outcome * State) :=
  let? (o, σ) := exec_stmts fuel None ss DIAMOND_NIL
                   {| store := argument_registers arguments; result := DIAMOND_NIL; world := h |} in
  Some (match o with Normal v => Returned v | _ => o end, σ).

End ControlFlow.
