(* ===== verification/ControlCompile.v ===== *)
(** * ControlCompile: the one-pass compiler's control statements

    The emission primitives of src/compiler.c and the control statements of
    src/compiler_flow.c (if, while, until, loop) and src/compiler_control.c
    (return, raise, begin/rescue/else/ensure, retry, break, next, redo) as the
    source writes them: bytes are appended as the tree is walked, forward jumps
    and handler targets are emitted as zero and patched when their target is
    known, and a loop collects the operands its breaks leave open.

    A compile error ([fail]) is [None].  What only feeds diagnostics, the
    editor or the type inference (spans, line tables, known types, narrowing,
    captured locals) is left out; so is the rewriting of a call in tail
    position ([maybe_rewrite_self_tail_call]).  The fields [nils] and [homes]
    are bookkeeping for the proofs: the registers the compiler leaves to the
    zero-initialisation of [run_chunk] and the register of every slot. *)

From S2P Require Import Prelude.
From S2P Require Import Value.
From S2P Require Import Unwind.
From S2P Require Import ControlMachine.
From S2P Require Import ControlFlow.
From Stdlib Require Import ZArith Lia Bool List.
From stdpp Require Import base numbers list.

Local Open Scope Z_scope.
Local Open Scope c_scope.

Record LoopContext := {
  loop_begin_depth : Z;
  continue_target : Z;
  redo_target : Z;
  result_register : Z;
  breaks : list Z;
}.

Record Compiler := {
  emitted : list Z;
  next_register : Z;
  locals : list (Z * Z);
  begin_depth : Z;
  in_function : bool;
  current_exception : option Z;
  current_retry_target : option Z;
  current_loop : option LoopContext;
  nils : list Z;
  homes : list (Z * Z);
}.

Definition code_count (c : Compiler) : Z := Z.of_nat (length (emitted c)).

Definition set_emitted (c : Compiler) (bytes : list Z) : Compiler :=
  {| emitted := bytes; next_register := next_register c; locals := locals c;
     begin_depth := begin_depth c; in_function := in_function c;
     current_exception := current_exception c;
     current_retry_target := current_retry_target c; current_loop := current_loop c;
     nils := nils c; homes := homes c |}.

Definition set_next_register (c : Compiler) (r : Z) : Compiler :=
  {| emitted := emitted c; next_register := r; locals := locals c;
     begin_depth := begin_depth c; in_function := in_function c;
     current_exception := current_exception c;
     current_retry_target := current_retry_target c; current_loop := current_loop c;
     nils := nils c; homes := homes c |}.

Definition set_locals (c : Compiler) (ls : list (Z * Z)) : Compiler :=
  {| emitted := emitted c; next_register := next_register c; locals := ls;
     begin_depth := begin_depth c; in_function := in_function c;
     current_exception := current_exception c;
     current_retry_target := current_retry_target c; current_loop := current_loop c;
     nils := nils c; homes := homes c |}.

Definition set_begin_depth (c : Compiler) (d : Z) : Compiler :=
  {| emitted := emitted c; next_register := next_register c; locals := locals c;
     begin_depth := d; in_function := in_function c;
     current_exception := current_exception c;
     current_retry_target := current_retry_target c; current_loop := current_loop c;
     nils := nils c; homes := homes c |}.

Definition set_rescue (c : Compiler) (exception retry : option Z) : Compiler :=
  {| emitted := emitted c; next_register := next_register c; locals := locals c;
     begin_depth := begin_depth c; in_function := in_function c;
     current_exception := exception;
     current_retry_target := retry; current_loop := current_loop c;
     nils := nils c; homes := homes c |}.

Definition set_loop (c : Compiler) (l : option LoopContext) : Compiler :=
  {| emitted := emitted c; next_register := next_register c; locals := locals c;
     begin_depth := begin_depth c; in_function := in_function c;
     current_exception := current_exception c;
     current_retry_target := current_retry_target c; current_loop := l;
     nils := nils c; homes := homes c |}.

Definition note_nils (c : Compiler) (ns : list Z) : Compiler :=
  {| emitted := emitted c; next_register := next_register c; locals := locals c;
     begin_depth := begin_depth c; in_function := in_function c;
     current_exception := current_exception c;
     current_retry_target := current_retry_target c; current_loop := current_loop c;
     nils := ns ++ nils c; homes := homes c |}.

Definition note_home (c : Compiler) (slot reg : Z) : Compiler :=
  {| emitted := emitted c; next_register := next_register c; locals := locals c;
     begin_depth := begin_depth c; in_function := in_function c;
     current_exception := current_exception c;
     current_retry_target := current_retry_target c; current_loop := current_loop c;
     nils := nils c; homes := (slot, reg) :: homes c |}.

Definition fail {A} : VM Compiler A := fun _ => None.
Definition get_compiler : VM Compiler Compiler := fun c => Some (c, c).
Definition modify (f : Compiler -> Compiler) : VM Compiler unit := fun c => Some (tt, f c).

(** A check on the tree, not on the compiler, which has no counterpart of it: the
    resolved tree gives every declaration a slot of its own, the rescue
    variables of one begin block being one slot.  It does not look at the
    registers. *)
Fixpoint note_homes (hs : list (Z * Z)) : VM Compiler unit :=
  match hs with
  | [] => vm_ret tt
  | (slot, reg) :: rest =>
      let! c := get_compiler in
      if existsb (fun h => fst h =? slot) (homes c) then fail
      else let! _ := modify (fun c => note_home c slot reg) in note_homes rest
  end.

(** ** Emission *)

Definition DIAMOND_MAX_CODE : Z := 65535.
Definition DIAMOND_REGISTER_COUNT : Z := 4096.
Definition DIAMOND_MAX_LOCALS : Z := 64.

Definition emit_byte (byte : Z) : VM Compiler unit :=
  fun c => if code_count c =? DIAMOND_MAX_CODE then None
           else Some (tt, set_emitted c (emitted c ++ [byte])).

Fixpoint emit_bytes (bytes : list Z) : VM Compiler unit :=
  match bytes with
  | [] => vm_ret tt
  | byte :: rest => let! _ := emit_byte byte in emit_bytes rest
  end.

Definition high_byte (z : Z) : Z := Z.land (Z.shiftr z 8) 255.
Definition low_byte (z : Z) : Z := Z.land z 255.
Definition register_bytes (reg : Z) : list Z := [high_byte reg; low_byte reg].

Definition emit_opcode (opcode : Z) : VM Compiler unit := emit_byte opcode.

Definition emit_register (reg : Z) : VM Compiler unit :=
  let! _ := emit_byte (high_byte reg) in emit_byte (low_byte reg).

Fixpoint emit_registers (regs : list Z) : VM Compiler unit :=
  match regs with
  | [] => vm_ret tt
  | reg :: rest => let! _ := emit_register reg in emit_registers rest
  end.

Definition emit_instruction (opcode : Z) (operands : list Z) : VM Compiler unit :=
  let! _ := emit_opcode opcode in emit_registers operands.

Definition allocate_register : VM Compiler Z :=
  fun c => if DIAMOND_REGISTER_COUNT <=? next_register c then None
           else Some (next_register c, set_next_register c (next_register c + 1)).

(** A register nothing writes: it stays nil ([nil_register], and the result
    of an empty block). *)
Definition nil_register : VM Compiler Z :=
  let! reg := allocate_register in
  let! _ := modify (fun c => note_nils c [reg]) in
  vm_ret reg.

(** The offset of the operand to patch. *)
Definition emit_jump (opcode condition : Z) : VM Compiler Z :=
  let conditional := (opcode =? DIAMOND_OP_JUMP_IF_FALSE) || (opcode =? DIAMOND_OP_JUMP_IF_TRUE) in
  let! _ := emit_opcode opcode in
  let! _ := (if conditional then emit_register condition else vm_ret tt) in
  let! c := get_compiler in
  let! _ := emit_byte 0 in
  let! _ := emit_byte 0 in
  vm_ret (code_count c).

Definition patch_byte (offset byte : Z) : VM Compiler unit :=
  modify (fun c => set_emitted c (<[Z.to_nat offset := byte]> (emitted c))).

Definition patch_jump (operand target : Z) : VM Compiler unit :=
  if 65535 <? target then fail
  else let! _ := patch_byte operand (high_byte target) in patch_byte (operand + 1) (low_byte target).

Fixpoint patch_jumps (operands : list Z) (target : Z) : VM Compiler unit :=
  match operands with
  | [] => vm_ret tt
  | operand :: rest => let! _ := patch_jump operand target in patch_jumps rest target
  end.

(** [patch_jump(compiler,operand,compiler->function->code_count)]. *)
Definition patch_here (operand : Z) : VM Compiler unit :=
  let! c := get_compiler in patch_jump operand (code_count c).

Definition emit_absolute_jump (target : Z) : VM Compiler unit :=
  if 65535 <? target then fail
  else
    let! _ := emit_opcode DIAMOND_OP_JUMP in
    let! _ := emit_byte (high_byte target) in
    emit_byte (low_byte target).

(** ** Rescue types *)

Definition DIAMOND_TYPE_CLASS_BASE : Z := 10.
Definition diamond_type_operand_is_native (operand : Z) : bool :=
  (57344 <=? operand) && (operand <? 61440).

(** The walk up the superclass chain from [child], which stops at [ancestor],
    at a class without a superclass, or outside the table; a chain is at most
    as long as the table. *)
Fixpoint walk_superclasses (fuel : nat) (superclasses : list Z) (child ancestor : Z) : Z :=
  match fuel with
  | O => child
  | S fuel =>
      match byte_at superclasses child with
      | Some super =>
          if (child =? ancestor) || (super =? DIAMOND_NO_CLASS) then child
          else walk_superclasses fuel superclasses super ancestor
      | None => child
      end
  end.

Definition rescue_type_handled (superclasses : list Z) (type seen : Z) : bool :=
  (seen =? type) ||
  ((DIAMOND_TYPE_CLASS_BASE <=? seen) && (DIAMOND_TYPE_CLASS_BASE <=? type) &&
   let ancestor := seen - DIAMOND_TYPE_CLASS_BASE in
   walk_superclasses (length superclasses) superclasses (type - DIAMOND_TYPE_CLASS_BASE) ancestor
     =? ancestor).

(** The types of one clause, against those seen so far; the seen types after
    it, or a compile error. *)
Fixpoint check_rescue_types (superclasses : list Z) (count : Z) (types seen : list Z) :
    option (list Z) :=
  match types with
  | [] => Some seen
  | type :: rest =>
      if (count =? 8) || diamond_type_operand_is_native type
         || existsb (rescue_type_handled superclasses type) seen
      then None
      else check_rescue_types superclasses (count + 1) rest (type :: seen)
  end.

Section Compile.
  Context `{Expressions}.
  Variable superclasses : list Z.

Definition parse_expression (e : expr) : VM Compiler Z :=
  let! c := get_compiler in
  match expr_compile e (locals c) (next_register c) (code_count c) with
  | Some ec =>
      let! _ := emit_bytes (expr_bytes ec) in
      let! _ := modify (fun c => set_next_register c (expr_next ec)) in
      let! _ := modify (fun c => set_locals c (expr_locals ec ++ locals c)) in
      let! _ := modify (fun c => note_nils c (expr_nils ec)) in
      let! _ := note_homes (expr_locals ec) in
      vm_ret (expr_register ec)
  | None => fail
  end.

(** The register a branch tests: the condition, or its negation. *)
Definition branch_condition (inverted : bool) (condition : Z) : VM Compiler Z :=
  if inverted then
    let! reg := allocate_register in
    let! _ := emit_instruction DIAMOND_OP_NOT [reg; condition] in
    vm_ret reg
  else vm_ret condition.

Definition compile_return (e : option expr) : VM Compiler Z :=
  let! c := get_compiler in
  if negb (in_function c) then fail
  else
    let! value := (match e with Some e => parse_expression e | None => nil_register end) in
    let! _ := emit_instruction DIAMOND_OP_RETURN [value] in
    vm_ret value.

(** A bare [raise] names the exception's register by [(uint8_t)]. *)
Definition compile_raise (e : option expr) : VM Compiler Z :=
  match e with
  | None =>
      let! c := get_compiler in
      match current_exception c with
      | None => fail
      | Some exception =>
          let! _ := emit_instruction DIAMOND_OP_RAISE [low_byte exception] in
          vm_ret (low_byte exception)
      end
  | Some e =>
      let! value := parse_expression e in
      let! _ := emit_instruction DIAMOND_OP_RAISE [value] in
      vm_ret value
  end.

Definition compile_retry : VM Compiler Z :=
  let! c := get_compiler in
  match current_retry_target c with
  | None => fail
  | Some target => let! _ := emit_absolute_jump target in nil_register
  end.

(** [Some operand] when the target is to be patched. *)
Definition emit_loop_jump (loop : LoopContext) (target : Z) (forward : bool) :
    VM Compiler (option Z) :=
  let! c := get_compiler in
  let levels := if loop_begin_depth loop <? begin_depth c then begin_depth c - loop_begin_depth loop
                else 0 in
  if levels =? 0 then
    if forward then let! operand := emit_jump DIAMOND_OP_JUMP 0 in vm_ret (Some operand)
    else let! _ := emit_absolute_jump target in vm_ret None
  else if (255 <? levels) || (65535 <? target) then fail
  else
    let! _ := emit_opcode DIAMOND_OP_UNWIND_JUMP in
    let! _ := emit_byte levels in
    let! c := get_compiler in
    let! _ := emit_byte (high_byte target) in
    let! _ := emit_byte (low_byte target) in
    vm_ret (Some (code_count c)).

Definition add_break (operand : Z) (c : Compiler) : Compiler :=
  match current_loop c with
  | Some loop =>
      set_loop c (Some {| loop_begin_depth := loop_begin_depth loop;
                          continue_target := continue_target loop;
                          redo_target := redo_target loop;
                          result_register := result_register loop;
                          breaks := breaks loop ++ [operand] |})
  | None => c
  end.

Inductive LoopControl := BREAK (value : option expr) | NEXT | REDO.

Definition compile_loop_control (kind : LoopControl) : VM Compiler Z :=
  let! c := get_compiler in
  match current_loop c with
  | None => fail
  | Some loop =>
      let! _ := (match kind with
        | BREAK value =>
            if Z.of_nat (length (breaks loop)) =? 64 then fail
            else
              let! _ := (match value with
                | Some e =>
                    let! value := parse_expression e in
                    emit_instruction DIAMOND_OP_MOVE [result_register loop; value]
                | None => vm_ret tt
                end) in
              let! operand := emit_loop_jump loop 0 true in
              modify (fun c => match operand with Some o => add_break o c | None => c end)
        | NEXT =>
            let! _ := emit_loop_jump loop (continue_target loop) false in vm_ret tt
        | REDO =>
            let! _ := emit_loop_jump loop (redo_target loop) false in vm_ret tt
        end) in
      nil_register
  end.

(** ** Begin blocks *)

Record BeginFrame := {
  ensure_operand : Z;
  handler_type_operand : Z;
  handler_operand : Z;
  retry_target : Z;
  exception : Z;
}.

(** The handlers a begin block installs; [slot] is the slot of its exception,
    which the resolved tree binds once. *)
Definition open_begin_frame (slot : Z) : VM Compiler BeginFrame :=
  let! _ := modify (fun c => set_begin_depth c (begin_depth c + 1)) in
  let! c := get_compiler in
  let! _ := emit_opcode DIAMOND_OP_PUSH_ENSURE in
  let! _ := emit_byte 0 in
  let! _ := emit_byte 0 in
  let! exc := allocate_register in
  let! _ := note_homes [(slot, exc)] in
  let! c' := get_compiler in
  let! _ := emit_opcode DIAMOND_OP_PUSH_RESCUE in
  let! _ := emit_register exc in
  let! _ := emit_byte 128 in
  let! _ := emit_bytes [0; 0; 0; 0; 0; 0; 0; 0] in
  let! _ := emit_byte 0 in
  let! _ := emit_byte 0 in
  vm_ret {| ensure_operand := code_count c + 1;
            handler_type_operand := code_count c' + 3;
            handler_operand := code_count c' + 12;
            retry_target := code_count c';
            exception := exc |}.

(** The IS_TYPE tests of a clause; the operands of their jumps. *)
Fixpoint emit_type_tests (exc : Z) (types : list Z) : VM Compiler (list Z) :=
  match types with
  | [] => vm_ret []
  | type :: rest =>
      let! matched := allocate_register in
      let! _ := emit_instruction DIAMOND_OP_IS_TYPE [matched; exc; type] in
      let! jump := emit_jump DIAMOND_OP_JUMP_IF_TRUE matched in
      let! jumps := emit_type_tests exc rest in
      vm_ret (jump :: jumps)
  end.

Definition bind_exception (named : bool) (slot exc : Z) : VM Compiler unit :=
  if named then
    let! c := get_compiler in
    if Z.of_nat (length (locals c)) =? DIAMOND_MAX_LOCALS then fail
    else modify (fun c => set_locals c ((slot, exc) :: locals c))
  else vm_ret tt.

Definition loop_breaks (c : Compiler) : list Z :=
  match current_loop c with Some loop => breaks loop | None => [] end.

(** [parse_if], on what compiles its two sides. *)
Definition parse_if (inverted : bool) (condition : expr) (body : VM Compiler Z)
    (false_branch : Z -> VM Compiler unit) : VM Compiler Z :=
  let! condition := parse_expression condition in
  let! branch := branch_condition inverted condition in
  let! false_jump := emit_jump DIAMOND_OP_JUMP_IF_FALSE branch in
  let! destination := allocate_register in
  let! then_result := body in
  let! _ := emit_instruction DIAMOND_OP_MOVE [destination; then_result] in
  let! end_jump := emit_jump DIAMOND_OP_JUMP 0 in
  let! _ := patch_here false_jump in
  let! _ := false_branch destination in
  let! _ := patch_here end_jump in
  vm_ret destination.

(** [body if condition], [body unless condition]. *)
Definition compile_postfix (inverted : bool) (condition : expr) (body : VM Compiler Z) :
    VM Compiler Z :=
  let! postfix_result := allocate_register in
  let! condition := parse_expression condition in
  let! skip_jump := emit_jump
    (if inverted then DIAMOND_OP_JUMP_IF_TRUE else DIAMOND_OP_JUMP_IF_FALSE) condition in
  let! result := body in
  let! _ := emit_instruction DIAMOND_OP_MOVE [postfix_result; result] in
  let! body_exit := emit_jump DIAMOND_OP_JUMP 0 in
  let! _ := patch_here skip_jump in
  let! _ := emit_instruction DIAMOND_OP_NIL [postfix_result] in
  let! _ := patch_here body_exit in
  vm_ret postfix_result.

Definition parse_while (inverted : bool) (condition : expr) (body : VM Compiler Z) :
    VM Compiler Z :=
  let! destination := allocate_register in
  let! _ := emit_instruction DIAMOND_OP_NIL [destination] in
  let! start := get_compiler in
  let! condition := parse_expression condition in
  let! branch := branch_condition inverted condition in
  let! exit_jump := emit_jump DIAMOND_OP_JUMP_IF_FALSE branch in
  let! c := get_compiler in
  let! _ := modify (fun c => set_loop c (Some
    {| loop_begin_depth := begin_depth c; continue_target := code_count start;
       redo_target := code_count c; result_register := destination; breaks := [] |})) in
  let! _ := body in
  let! done := get_compiler in
  let! _ := modify (fun c' => set_loop c' (current_loop c)) in
  let! _ := emit_absolute_jump (code_count start) in
  let! _ := patch_here exit_jump in
  let! c := get_compiler in
  let! _ := patch_jumps (loop_breaks done) (code_count c) in
  vm_ret destination.

Definition parse_loop (body : VM Compiler Z) : VM Compiler Z :=
  let! destination := allocate_register in
  let! _ := emit_instruction DIAMOND_OP_NIL [destination] in
  let! c := get_compiler in
  let! _ := modify (fun c => set_loop c (Some
    {| loop_begin_depth := begin_depth c; continue_target := code_count c;
       redo_target := code_count c; result_register := destination; breaks := [] |})) in
  let! _ := body in
  let! done := get_compiler in
  let! _ := modify (fun c' => set_loop c' (current_loop c)) in
  let! _ := emit_absolute_jump (code_count c) in
  let! c := get_compiler in
  let! _ := patch_jumps (loop_breaks done) (code_count c) in
  vm_ret destination.

(** One rescue clause: the operand of its jump to the end, and the types
    handled so far. *)
Definition compile_rescue (frame : BeginFrame) (slot destination : Z) (named : bool)
    (types : list Z) (body : VM Compiler Z) (rescue_count : Z) (catch_all : bool) (seen : list Z) :
    VM Compiler (Z * list Z) :=
  if catch_all || (rescue_count =? 16) then fail
  else
    let! _ := patch_byte (handler_type_operand frame) 0 in
    let! outer := get_compiler in
    let! _ := bind_exception named slot (exception frame) in
    let! seen := vm_lift (check_rescue_types superclasses 0 types seen) in
    let! match_jumps := emit_type_tests (exception frame) types in
    let! mismatch_jump :=
      (match types with
       | [] => vm_ret None
       | _ => let! jump := emit_jump DIAMOND_OP_JUMP 0 in vm_ret (Some jump)
       end) in
    let! c := get_compiler in
    let! _ := patch_jumps match_jumps (code_count c) in
    let! _ := modify (fun c => set_rescue c (Some (exception frame)) (Some (retry_target frame))) in
    let! rescued := body in
    let! _ := modify (fun c =>
      set_rescue c (current_exception outer) (current_retry_target outer)) in
    let! _ := emit_instruction DIAMOND_OP_MOVE [destination; rescued] in
    let! _ := modify (fun c => set_locals c (locals outer)) in
    let! end_jump := emit_jump DIAMOND_OP_JUMP 0 in
    let! _ := (match mismatch_jump with Some jump => patch_here jump | None => vm_ret tt end) in
    vm_ret (end_jump, seen).

(** What follows the body of a begin block: [rescues] compiles its clauses,
    [otherwise] and [ensure] the bodies of its else and ensure clauses. *)
Definition close_begin_frame (frame : BeginFrame) (body : Z) (saw_rescue : bool)
    (rescues : Z -> VM Compiler (list Z * bool)) (otherwise ensure : option (VM Compiler Z)) :
    VM Compiler Z :=
  let! destination := allocate_register in
  let! _ := emit_instruction DIAMOND_OP_MOVE [destination; body] in
  let! _ := emit_instruction DIAMOND_OP_POP_RESCUE [] in
  let! end_jump := emit_jump DIAMOND_OP_JUMP 0 in
  let! _ := patch_here (handler_operand frame) in
  let! (rescue_end_jumps, catch_all) := rescues destination in
  let! _ := (if saw_rescue && negb catch_all
             then emit_instruction DIAMOND_OP_RAISE [exception frame] else vm_ret tt) in
  let! _ := (match otherwise, ensure with
             | None, Some _ => vm_ret tt
             | _, _ => if saw_rescue then vm_ret tt else fail
             end) in
  let! _ := patch_here end_jump in
  let! _ := (match otherwise with
             | None => vm_ret tt
             | Some clause =>
                 let! normal := clause in
                 emit_instruction DIAMOND_OP_MOVE [destination; normal]
             end) in
  let! c := get_compiler in
  let! _ := patch_jumps rescue_end_jumps (code_count c) in
  let! _ := emit_opcode DIAMOND_OP_RUN_ENSURE in
  let! c := get_compiler in
  let! _ := emit_byte 0 in
  let! _ := emit_byte 0 in
  let! _ := patch_here (ensure_operand frame) in
  let! _ := (match ensure with
             | None => vm_ret tt
             | Some clause => let! _ := clause in vm_ret tt
             end) in
  let! _ := emit_instruction DIAMOND_OP_END_ENSURE [] in
  let! _ := patch_here (code_count c) in
  let! _ := modify (fun c => set_begin_depth c (begin_depth c - 1)) in
  vm_ret destination.

(** Each block is compiled by [compile_sequence]: a register for its value
    when it is empty, then its statements. *)
Fixpoint compile_stmt (s : stmt) : VM Compiler Z :=
  match s with
  | SExpr e => parse_expression e
  | SReturn e => compile_return e
  | SRaise e => compile_raise e
  | SRetry => compile_retry
  | SBreak e => compile_loop_control (BREAK e)
  | SNext => compile_loop_control NEXT
  | SRedo => compile_loop_control REDO
  | SIf inverted condition body otherwise =>
      parse_if inverted condition (vm_bind nil_register (compile_stmts body))
        (fun destination => compile_if_false_branch destination otherwise)
  | SPostfix inverted condition body => compile_postfix inverted condition (compile_stmt body)
  | SWhile inverted condition body =>
      parse_while inverted condition (vm_bind nil_register (compile_stmts body))
  | SLoop body => parse_loop (vm_bind nil_register (compile_stmts body))
  | SBegin slot body rescues otherwise ensure =>
      let! frame := open_begin_frame slot in
      let! body := vm_bind nil_register (compile_stmts body) in
      close_begin_frame frame body (match rescues with CNone => false | _ => true end)
        (fun destination => compile_rescues frame slot destination rescues 0 false [])
        (match otherwise with
         | BNone => None
         | BBlock s => Some (vm_bind nil_register (compile_stmts s))
         | BElsif _ => Some fail
         end)
        (match ensure with
         | BNone => None
         | BBlock s => Some (vm_bind nil_register (compile_stmts s))
         | BElsif _ => Some fail
         end)
  end
with compile_stmts (ss : stmts) (result : Z) : VM Compiler Z :=
  match ss with
  | BDone => vm_ret result
  | BThen s rest => let! result := compile_stmt s in compile_stmts rest result
  end
with compile_if_false_branch (destination : Z) (b : branch) : VM Compiler unit :=
  match b with
  | BNone => emit_instruction DIAMOND_OP_NIL [destination]
  | BBlock s =>
      let! else_result := vm_bind nil_register (compile_stmts s) in
      emit_instruction DIAMOND_OP_MOVE [destination; else_result]
  | BElsif s =>
      let! else_result := compile_stmt s in
      emit_instruction DIAMOND_OP_MOVE [destination; else_result]
  end
with compile_rescues (frame : BeginFrame) (slot destination : Z) (cls : clauses)
    (rescue_count : Z) (catch_all : bool) (seen : list Z) : VM Compiler (list Z * bool) :=
  match cls with
  | CNone => vm_ret ([], catch_all)
  | CRescue named types body rest =>
      let! (end_jump, seen) := compile_rescue frame slot destination named types
        (vm_bind nil_register (compile_stmts body)) rescue_count catch_all seen in
      let! (jumps, caught) := compile_rescues frame slot destination rest (rescue_count + 1)
        (match types with [] => true | _ => false end) seen in
      vm_ret (end_jump :: jumps, caught)
  end.

Definition compile_sequence (ss : stmts) : VM Compiler Z :=
  let! result := nil_register in compile_stmts ss result.

(** A function of [arguments] parameters and its final RETURN. *)
Definition compile_function (parameters : nat) (ss : stmts) : option (list Z * Compiler) :=
  let registers := map (fun i => (Z.of_nat i, Z.of_nat i)) (seq 0 parameters) in
  let start := {| emitted := []; next_register := Z.of_nat parameters; locals := registers;
                  begin_depth := 0; in_function := true; current_exception := None;
                  current_retry_target := None; current_loop := None; nils := [];
                  homes := registers |} in
  let? (_, c) := (let! result := compile_sequence ss in
                  emit_instruction DIAMOND_OP_RETURN [result]) start in
  Some (emitted c, c).

End Compile.
