(* ===== verification/ControlConsole.v ===== *)
(** * ControlConsole: a small expression language for the control statements

    An executable instance of [Host] and [Expressions]: literals, reads and
    assignments of uncaptured locals and [puts], compiled as [parse_literal],
    [parse_identifier], [compile_assignment_store] and [parse_print_call]
    compile them, over a console that runs out of room (a write that fails is
    DIAMOND_VM_IO_ERROR, as PRINT reports it).  It shows that the interface of
    ControlFlow can be met, and lets whole programs be compiled and run. *)

From S2P Require Import Prelude.
From S2P Require Import Value.
From S2P Require Import Unwind.
From S2P Require Import ControlMachine.
From S2P Require Import ControlFlow.
From S2P Require Import ControlCompile.
From Stdlib Require Import ZArith Lia Bool List.
From stdpp Require Import base numbers list.

Local Open Scope Z_scope.
Local Open Scope c_scope.

Definition DIAMOND_OP_PRINT : Z := 70.
Definition DIAMOND_OBJECT_INSTANCE : Z := 1.

(** What was printed, and how many lines still fit. *)
Record Console := { printed : list DiamondValue; room : nat }.

(** An exception instance is identified by its class. *)
Definition exception_instance (class_index : Z) : DiamondValue :=
  DIAMOND_OBJECT (OBJECT_OTHER DIAMOND_OBJECT_INSTANCE class_index).

(** PRINT and BOOL; no other opcode occurs. *)
Definition console_instruction (code : list Z) (offset : Z) (registers : Registers) (h : Console) :
    InstructionResult Console :=
  match byte_at code offset, short_at code (offset + 1), short_at code (offset + 3) with
  | Some opcode, Some destination, Some source =>
      if opcode =? DIAMOND_OP_BOOL then
        Proceeds (offset + 5) (write_register registers destination
                                 (DIAMOND_BOOL (negb (source =? 0)))) h
      else if opcode =? DIAMOND_OP_PRINT then
        match room h with
        | O => Fails DIAMOND_VM_IO_ERROR registers h
        | S remaining =>
            Proceeds (offset + 6) (write_register registers destination DIAMOND_NIL)
              {| printed := printed h ++ [registers source]; room := remaining |}
        end
      else Fails DIAMOND_VM_INVALID_BYTECODE registers h
  | _, _, _ => Fails DIAMOND_VM_INVALID_BYTECODE registers h
  end.

#[global] Instance console_host : Host := {|
  host := Console;
  value_matches_type := fun _ value type =>
    match value with
    | DIAMOND_OBJECT (OBJECT_OTHER kind class_index) =>
        (kind =? DIAMOND_OBJECT_INSTANCE) && (type =? DIAMOND_TYPE_CLASS_BASE + class_index)
    | _ => false
    end;
  value_is_native_kind := fun _ _ => false;
  class_count := 23;
  memory_limit_tripped := fun _ => false;
  memory_hard_stopped := fun _ => false;
  make_exception := fun class_index h => (Made (exception_instance class_index), h);
  raise_capture_backtrace := fun _ h => h;
  other_instruction := console_instruction;
|}.

Inductive console_expr :=
  | CNil
  | CBool (boolean : bool)
  | CLocal (slot : Z)
  | CAssign (slot : Z) (value : console_expr)
  | CPuts (value : console_expr).

Fixpoint find_local (slot : Z) (ls : list (Z * Z)) : option Z :=
  match ls with
  | [] => None
  | (k, reg) :: rest => if k =? slot then Some reg else find_local slot rest
  end.

(** Bytes, register, new locals, next register, nil registers. *)
Fixpoint console_compile (e : console_expr) (ls : list (Z * Z)) (next : Z) : option ExprCode :=
  match e with
  | CNil =>
      if DIAMOND_REGISTER_COUNT <=? next then None
      else Some {| expr_bytes := []; expr_register := next; expr_locals := [];
                   expr_next := next + 1; expr_nils := [next] |}
  | CBool boolean =>
      if DIAMOND_REGISTER_COUNT <=? next then None
      else Some {| expr_bytes := DIAMOND_OP_BOOL :: register_bytes next
                                   ++ register_bytes (if boolean then 1 else 0);
                   expr_register := next; expr_locals := []; expr_next := next + 1;
                   expr_nils := [] |}
  | CLocal slot =>
      let? reg := find_local slot ls in
      Some {| expr_bytes := []; expr_register := reg; expr_locals := []; expr_next := next;
              expr_nils := [] |}
  | CAssign slot value =>
      match value with
      | CAssign _ _ | CPuts _ => None
      | _ =>
          let? ec := console_compile value ls next in
          match find_local slot ls with
          | Some home =>
              Some {| expr_bytes := expr_bytes ec ++ DIAMOND_OP_MOVE :: register_bytes home
                                      ++ register_bytes (expr_register ec);
                      expr_register := home; expr_locals := []; expr_next := expr_next ec;
                      expr_nils := expr_nils ec |}
          | None =>
              if Z.of_nat (length ls) =? DIAMOND_MAX_LOCALS then None
              else match value with
              | CBool _ =>
                  (* the value's own register becomes the local's home *)
                  Some {| expr_bytes := expr_bytes ec; expr_register := expr_register ec;
                          expr_locals := [(slot, expr_register ec)];
                          expr_next := expr_next ec; expr_nils := expr_nils ec |}
              | _ =>
                  if DIAMOND_REGISTER_COUNT <=? expr_next ec then None
                  else Some {| expr_bytes := expr_bytes ec
                                 ++ DIAMOND_OP_MOVE :: register_bytes (expr_next ec)
                                 ++ register_bytes (expr_register ec);
                               expr_register := expr_next ec;
                               expr_locals := [(slot, expr_next ec)];
                               expr_next := expr_next ec + 1; expr_nils := expr_nils ec |}
              end
          end
      end
  | CPuts value =>
      match value with
      | CAssign _ _ | CPuts _ => None
      | _ =>
          let? ec := console_compile value ls next in
          if DIAMOND_REGISTER_COUNT <=? expr_next ec then None
          else Some {| expr_bytes := expr_bytes ec
                         ++ DIAMOND_OP_PRINT :: register_bytes (expr_next ec)
                         ++ register_bytes (expr_register ec) ++ [1];
                       expr_register := expr_next ec; expr_locals := expr_locals ec;
                       expr_next := expr_next ec + 1; expr_nils := expr_nils ec |}
      end
  end.

Fixpoint console_eval (e : console_expr) (st : Store) (h : Console) : ExprResult * Store * Console :=
  match e with
  | CNil => (EValue DIAMOND_NIL, st, h)
  | CBool boolean => (EValue (DIAMOND_BOOL boolean), st, h)
  | CLocal slot => (EValue (st slot), st, h)
  | CAssign slot value =>
      match console_eval value st h with
      | (EValue v, st, h) => (EValue v, write_slot st slot v, h)
      | r => r
      end
  | CPuts value =>
      match console_eval value st h with
      | (EValue v, st, h) =>
          match room h with
          | O => (EFail DIAMOND_VM_IO_ERROR, st, h)
          | S remaining => (EValue DIAMOND_NIL, st, {| printed := printed h ++ [v]; room := remaining |})
          end
      | r => r
      end
  end.

#[global] Instance console_expressions : Expressions := {|
  expr := console_expr;
  expr_compile := fun e ls next _ => console_compile e ls next;
  expr_eval := fun _ e st h => Some (console_eval e st h);
|}.
