(* ===== verification/ControlLayout.v ===== *)
(** * ControlLayout: where the code of a statement lies in the finished bytecode

    [lay_stmt x s p n r q n'] says that the finished bytecode of a function
    holds the code of [s] at offsets [p] to [q], using registers [n] to [n']
    and leaving its value in [r], inside the context [x] (begin levels, rescue
    clause, loop).  Every jump operand is the resolved one: this is the
    compiler's output after all patching.  ControlEmit shows that the compiler
    produces it, ControlCorrect that it behaves.

    A [Ghost] is the register plan of the whole function: the home of every
    slot, and the registers that stay nil.  [ExpressionsOk] is what the control
    statements rely on from the expression compiler. *)

From S2P Require Import Prelude.
From S2P Require Import Value.
From S2P Require Import Unwind.
From S2P Require Import ControlMachine.
From S2P Require Import ControlFlow.
From Stdlib Require Import ZArith Lia Bool List.
From stdpp Require Import base numbers list.

Local Open Scope Z_scope.
Local Open Scope c_scope.

Record Ghost := {
  ghomes : list (Z * Z);
  gnils : list Z;
  ghomes_slot : forall k r r', (k, r) ∈ ghomes -> (k, r') ∈ ghomes -> r = r';
  ghomes_register : forall k k' r, (k, r) ∈ ghomes -> (k', r) ∈ ghomes -> k = k';
  ghomes_nils : forall k r, (k, r) ∈ ghomes -> r ∉ gnils;
}.

Definition is_home (g : Ghost) (r : Z) : Prop := exists k, (k, r) ∈ ghomes g.

(** Registers the control code may write. *)
Definition scratch (g : Ghost) (r : Z) : Prop := ~ is_home g r /\ r ∉ gnils g.

Definition represents (g : Ghost) (st : Store) (regs : Registers) : Prop :=
  (forall k r, (k, r) ∈ ghomes g -> regs r = st k) /\
  (forall r, r ∈ gnils g -> regs r = DIAMOND_NIL).

Fixpoint code_at (code : list Z) (p : Z) (bytes : list Z) : Prop :=
  match bytes with
  | [] => True
  | byte :: rest => byte_at code p = Some byte /\ code_at code (p + 1) rest
  end.

Section Layout.
  Context `{Expressions}.
  Variable g : Ghost.
  Variable a : Activation.

Notation code_end := (Z.of_nat (length (code a))).

(** The instruction at [p], ending before [q]. *)
Definition at_ (p : Z) (i : Instruction) (q : Z) : Prop :=
  decode (code a) p = Some (i, q) /\ p < code_end.

Definition expr_at (e : expr) (p n r q n' : Z) : Prop :=
  exists ls ec,
    expr_compile e ls n p = Some ec /\ code_at (code a) p (expr_bytes ec) /\
    r = expr_register ec /\ q = p + Z.of_nat (length (expr_bytes ec)) /\ n' = expr_next ec /\
    (forall kr, kr ∈ expr_locals ec ++ ls -> kr ∈ ghomes g) /\
    (forall x, n <= x < n' -> (x ∈ gnils g <-> x ∈ expr_nils ec) /\
       (is_home g x <-> exists k, (k, x) ∈ expr_locals ec)) /\
    0 <= n /\ n' <= 4096 /\ (forall kr, kr ∈ ls -> 0 <= snd kr < n).

Definition branch_at (inverted : bool) (c p n b q n' : Z) : Prop :=
  if inverted then at_ p (NOT n c) q /\ b = n /\ n' = n + 1 /\ scratch g n
  else b = c /\ q = p /\ n' = n.

Record LoopAt := { l_depth : Z; l_continue : Z; l_redo : Z; l_result : Z; l_exit : Z }.

(** Where a statement stands: the begin levels around it, the slot of the
    exception its rescue clause handles, where retry goes, its loop. *)
Record Context := {
  x_depth : Z;
  x_current : option Z;
  x_retry : option Z;
  x_loop : option LoopAt;
}.

Definition in_begin (x : Context) : Context :=
  {| x_depth := x_depth x + 1; x_current := x_current x; x_retry := None; x_loop := x_loop x |}.

Definition in_clause (x : Context) (slot retry : Z) : Context :=
  {| x_depth := x_depth x + 1; x_current := Some slot; x_retry := Some retry;
     x_loop := x_loop x |}.

Definition in_loop (x : Context) (l : LoopAt) : Context :=
  {| x_depth := x_depth x; x_current := x_current x; x_retry := x_retry x; x_loop := Some l |}.

Definition loop_jump_at (x : Context) (l : LoopAt) (target p q : Z) : Prop :=
  target <= code_end /\
  let levels := x_depth x - l_depth l in
  if levels =? 0 then at_ p (JUMP target) q else at_ p (UNWIND_JUMP levels target) q.

(** The IS_TYPE tests of a clause whose body starts at [pb]. *)
Fixpoint tests_at (exc pb : Z) (types : list Z) (p n q n' : Z) : Prop :=
  match types with
  | [] => q = p /\ n' = n
  | type :: rest =>
      exists p1 p2, at_ p (IS_TYPE n exc type) p1 /\ at_ p1 (JUMP_IF_TRUE n pb) p2 /\
        scratch g n /\ ((57344 <=? type) && (type <? 61440) = false) /\ pb <= code_end /\
        tests_at exc pb rest p2 (n + 1) q n'
  end.

(** A loop's head: from its top at [p] to its body at [q]. *)
Definition head_at (c : option (bool * expr)) (exit p n q n' : Z) : Prop :=
  match c with
  | None => q = p /\ n' = n
  | Some (inverted, e) =>
      exists cr p1 n1 br p2, expr_at e p n cr p1 n1 /\ branch_at inverted cr p1 n1 br p2 n' /\
        at_ p2 (JUMP_IF_FALSE br exit) q
  end.

Inductive lay_stmt : Context -> stmt -> Z -> Z -> Z -> Z -> Z -> Prop :=
  | lay_expr x e p n r q n' :
      expr_at e p n r q n' -> lay_stmt x (SExpr e) p n r q n'
  | lay_return_nil x p n q :
      n ∈ gnils g -> at_ p (RETURN n) q -> lay_stmt x (SReturn None) p n n q (n + 1)
  | lay_return x e p n r p1 q n' :
      expr_at e p n r p1 n' -> at_ p1 (RETURN r) q -> lay_stmt x (SReturn (Some e)) p n r q n'
  | lay_raise x e p n r p1 q n' :
      expr_at e p n r p1 n' -> at_ p1 (RAISE r) q -> lay_stmt x (SRaise (Some e)) p n r q n'
  | lay_raise_bare x slot exc p n q :
      x_current x = Some slot -> (slot, exc) ∈ ghomes g -> at_ p (RAISE exc) q ->
      lay_stmt x (SRaise None) p n exc q n
  | lay_retry x target p n q :
      x_retry x = Some target -> target <= code_end -> at_ p (JUMP target) q ->
      lay_stmt x SRetry p n n q (n + 1)
  | lay_break x l p n q :
      x_loop x = Some l -> loop_jump_at x l (l_exit l) p q ->
      lay_stmt x (SBreak None) p n n q (n + 1)
  | lay_break_value x l e v p n p1 p2 q n1 :
      x_loop x = Some l -> expr_at e p n v p1 n1 -> at_ p1 (MOVE (l_result l) v) p2 ->
      loop_jump_at x l (l_exit l) p2 q ->
      lay_stmt x (SBreak (Some e)) p n n1 q (n1 + 1)
  | lay_next x l p n q :
      x_loop x = Some l -> loop_jump_at x l (l_continue l) p q ->
      lay_stmt x SNext p n n q (n + 1)
  | lay_redo x l p n q :
      x_loop x = Some l -> loop_jump_at x l (l_redo l) p q ->
      lay_stmt x SRedo p n n q (n + 1)
  | lay_if x inverted c body otherwise p n cr p1 n1 br p2 d pf p3 t p4 n4 p5 q n' :
      expr_at c p n cr p1 n1 -> branch_at inverted cr p1 n1 br p2 d ->
      at_ p2 (JUMP_IF_FALSE br pf) p3 -> pf <= code_end -> scratch g d ->
      lay_body x body p3 (d + 1) t p4 n4 -> at_ p4 (MOVE d t) p5 -> at_ p5 (JUMP q) pf ->
      q <= code_end -> lay_branch x d otherwise pf n4 q n' ->
      lay_stmt x (SIf inverted c body otherwise) p n d q n'
  | lay_postfix x (inverted : bool) c body p n cr p1 n1 ps p2 r p3 n3 p4 q :
      expr_at c p (n + 1) cr p1 n1 -> scratch g n ->
      at_ p1 (if inverted then JUMP_IF_TRUE cr ps else JUMP_IF_FALSE cr ps) p2 ->
      ps <= code_end -> lay_stmt x body p2 n1 r p3 n3 -> at_ p3 (MOVE n r) p4 ->
      at_ p4 (JUMP q) ps -> q <= code_end -> at_ ps (NIL n) q ->
      lay_stmt x (SPostfix inverted c body) p n n q n3
  | lay_while x inverted c body p n p0 p3 n2 r p4 q n' :
      at_ p (NIL n) p0 -> scratch g n -> p0 <= code_end -> q <= code_end ->
      head_at (Some (inverted, c)) q p0 (n + 1) p3 n2 ->
      lay_body (in_loop x {| l_depth := x_depth x; l_continue := p0; l_redo := p3; l_result := n;
                             l_exit := q |}) body p3 n2 r p4 n' ->
      at_ p4 (JUMP p0) q ->
      lay_stmt x (SWhile inverted c body) p n n q n'
  | lay_loop x body p n p0 r p4 q n' :
      at_ p (NIL n) p0 -> scratch g n -> p0 <= code_end -> q <= code_end ->
      lay_body (in_loop x {| l_depth := x_depth x; l_continue := p0; l_redo := p0; l_result := n;
                             l_exit := q |}) body p0 (n + 1) r p4 n' ->
      at_ p4 (JUMP p0) q ->
      lay_stmt x (SLoop body) p n n q n'
  | lay_begin x slot body rescues otherwise ensure p n pz p0 ts ph p1 b p2 d p3 p4 pe p5 n5
      prun n6 q pend n' :
      (slot, n) ∈ ghomes g -> at_ p (PUSH_ENSURE pz) p0 ->
      at_ p0 (PUSH_RESCUE n (match rescues with CNone => 128 | _ => 0 end) ts ph) p1 ->
      lay_body (in_begin x) body p1 (n + 1) b p2 d -> scratch g d ->
      at_ p2 (MOVE d b) p3 -> at_ p3 POP_RESCUE p4 -> at_ p4 (JUMP pe) ph ->
      lay_clauses x slot n d prun p0 false rescues ph (d + 1) p5 n5 -> p5 = pe ->
      lay_clause_opt (in_begin x) d otherwise pe n5 prun n6 ->
      at_ prun (RUN_ENSURE q) pz ->
      lay_ensure (in_begin x) ensure pz n6 pend n' ->
      at_ pend END_ENSURE q ->
      p0 <= code_end -> ph <= code_end -> pe <= code_end -> prun <= code_end ->
      pz <= code_end -> q <= code_end ->
      lay_stmt x (SBegin slot body rescues otherwise ensure) p n d q n'
(** A block, with the register of its value when it is empty. *)
with lay_body : Context -> stmts -> Z -> Z -> Z -> Z -> Z -> Prop :=
  | lay_body_intro x ss p n r q n' :
      n ∈ gnils g -> lay_stmts x ss n p (n + 1) r q n' -> lay_body x ss p n r q n'
with lay_stmts : Context -> stmts -> Z -> Z -> Z -> Z -> Z -> Z -> Prop :=
  | lay_done x last p n : lay_stmts x BDone last p n last p n
  | lay_then x s rest last p n r1 p1 n1 r q n' :
      lay_stmt x s p n r1 p1 n1 -> lay_stmts x rest r1 p1 n1 r q n' ->
      lay_stmts x (BThen s rest) last p n r q n'
(** The false side of an if, moving its value to [d]. *)
with lay_branch : Context -> Z -> branch -> Z -> Z -> Z -> Z -> Prop :=
  | lay_branch_none x d p n q : at_ p (NIL d) q -> lay_branch x d BNone p n q n
  | lay_branch_block x d s p n r p1 q n' :
      lay_body x s p n r p1 n' -> at_ p1 (MOVE d r) q -> lay_branch x d (BBlock s) p n q n'
  | lay_branch_elsif x d s p n r p1 q n' :
      lay_stmt x s p n r p1 n' -> at_ p1 (MOVE d r) q -> lay_branch x d (BElsif s) p n q n'
(** The else clause of a begin block. *)
with lay_clause_opt : Context -> Z -> branch -> Z -> Z -> Z -> Z -> Prop :=
  | lay_no_clause x d p n : lay_clause_opt x d BNone p n p n
  | lay_else_clause x d s p n r p1 q n' :
      lay_body x s p n r p1 n' -> at_ p1 (MOVE d r) q -> lay_clause_opt x d (BBlock s) p n q n'
with lay_ensure : Context -> branch -> Z -> Z -> Z -> Z -> Prop :=
  | lay_no_ensure x p n : lay_ensure x BNone p n p n
  | lay_ensure_clause x s p n r q n' :
      lay_body x s p n r q n' -> lay_ensure x (BBlock s) p n q n'
(** The clauses from [p]: [live] while an exception may still be unmatched. *)
with lay_clauses : Context -> Z -> Z -> Z -> Z -> Z -> bool -> clauses -> Z -> Z -> Z -> Z -> Prop :=
  | lay_clauses_end x slot exc d prun retry p n :
      lay_clauses x slot exc d prun retry false CNone p n p n
  | lay_clauses_reraise x slot exc d prun retry p n q :
      at_ p (RAISE exc) q -> lay_clauses x slot exc d prun retry true CNone p n q n
  | lay_clauses_rescue x slot exc d prun retry live named (types : list Z) body rest p n pb p1 n1 r p2 n2
      p3 p4 q n' :
      tests_at exc pb types p n p1 n1 ->
      match types with [] => pb = p1 | _ => at_ p1 (JUMP p4) pb end -> p4 <= code_end ->
      lay_body (in_clause x slot retry) body pb n1 r p2 n2 ->
      at_ p2 (MOVE d r) p3 -> at_ p3 (JUMP prun) p4 ->
      lay_clauses x slot exc d prun retry (match types with [] => false | _ => true end)
        rest p4 n2 q n' ->
      lay_clauses x slot exc d prun retry live (CRescue named types body rest) p n q n'.

(** ** What the expression compiler promises *)

(** From frame [m], at the code of an expression, with its result [r] and its
    code's end [q]. *)
Definition expr_completes (r q n : Z) (m : Frame) (res : ExprResult) (st : Store) (h : host) : Prop :=
  exists regs,
    represents g st regs /\
    (forall y, y < n -> ~ is_home g y -> regs y = registers m y) /\
    let m' := set_state m regs h in
    match res with
    | EValue value => regs r = value /\ leads a m (Continues (set_ip m' q))
    | ERaise exception => leads a m (raise_exception exception m')
    | EFail status => leads a m (vm_return status m')
    | EExit value target is_break =>
        (target =? serial a) && is_break = false /\
        leads a m (nonlocal_exit_arrives a value target is_break 0 m')
    end.

End Layout.

(** The laws of an expression compiler: it only allocates upward, and its code
    computes the value of the expression whatever handlers are installed. *)
Class ExpressionsOk `{Expressions} : Prop := {
  expr_compile_next e ls n p ec :
    expr_compile e ls n p = Some ec -> n <= expr_next ec;
  expr_compile_bounds e ls n p ec :
    expr_compile e ls n p = Some ec -> 0 <= n <= 4096 ->
    (forall kr, kr ∈ ls -> 0 <= snd kr < n) ->
    0 <= expr_register ec < expr_next ec /\ expr_next ec <= 4096;
  expr_compile_locals e ls n p ec kr :
    expr_compile e ls n p = Some ec -> kr ∈ expr_locals ec -> n <= snd kr < expr_next ec;
  expr_compile_nodup e ls n p ec :
    expr_compile e ls n p = Some ec -> NoDup (map snd (expr_locals ec));
  expr_compile_nils e ls n p ec r :
    expr_compile e ls n p = Some ec -> r ∈ expr_nils ec ->
    n <= r < expr_next ec /\ r ∉ map snd (expr_locals ec);
  expr_runs g a e p n r q n' m fuel st res st' h' :
    expr_at g a e p n r q n' -> ip m = p -> represents g st (registers m) ->
    expr_eval fuel e st (heap m) = Some (res, st', h') ->
    expr_completes g a r q n m res st' h';
}.
