(* ===== verification/ControlSim.v ===== *)
(** * ControlSim: completing a statement, and unwinding a begin level

    [complete x o q m] is what the machine does when a statement that ends at
    [q] in context [x] has outcome [o] and the frame is [m].  The lemmas of
    this file are the algebra of [complete] over the handlers of a begin block:
    every outcome but a matched exception enters the ensure clause with the
    matching [PendingUnwind], END_ENSURE resumes exactly that outcome one level
    further out, and an abrupt end of the ensure clause itself replaces it. *)

From S2P Require Import Prelude.
From S2P Require Import Value.
From S2P Require Import Unwind.
From S2P Require Import ControlMachine.
From S2P Require Import ControlFlow.
From S2P Require Import ControlLayout.
From Stdlib Require Import ZArith Lia Bool List.
From stdpp Require Import base numbers list relations.

Local Open Scope Z_scope.
Local Open Scope c_scope.

Create HintDb control.

Section Sim.
  Context {HO : Host} {EX : Expressions} {OK : ExpressionsOk}.
  Variable g : Ghost.
  Variable a : Activation.

Notation code_end := (Z.of_nat (length (code a))).
Notation frame p regs hs pd w :=
  {| ip := p; registers := regs; handlers := hs; pending := pd; heap := w |}.

(** [nonlocal_exit_arrives] of an exit that does not land in this frame's
    call: it runs the ensure clauses and goes on. *)
Definition pass_exit (value : DiamondValue) (target : Z) (is_break : bool) (m : Frame) : Next :=
  match pop_to_ensure (handlers m) (pending m) with
  | (top :: rest, pd) =>
      Continues (land m (land_in_ensure top rest pd (PENDING_NONLOCAL value target is_break)))
  | ([], _) =>
      if has_previous a then Leaves (PassesOn value target is_break) (heap m)
      else Leaves (Reports DIAMOND_VM_TYPE_ERROR) (heap m)
  end.

Definition loop_jump (x : Context) (target : LoopAt -> Z) (m : Frame) : Next :=
  match x_loop x with
  | Some l => jump_out (x_depth x - l_depth l) (target l) m
  | None => Continues m
  end.

Definition complete (x : Context) (o : Outcome) (q : Z) (m : Frame) : Next :=
  match o with
  | Normal _ => Continues (set_ip m q)
  | Raised exception => raise_exception exception m
  | Failed status => vm_return status m
  | Returned value => return_value value m
  | Exited value target is_break =>
      if target =? serial a then return_value value m else pass_exit value target is_break m
  | Broke => loop_jump x l_exit m
  | Nexted => loop_jump x l_continue m
  | Redone => loop_jump x l_redo m
  | Retried => match x_retry x with Some t => Continues (set_ip m t) | None => Continues m end
  | Crashed d => Leaves d (heap m)
  end.

(** The frame's registers hold the source state. *)
Definition holds (x : Context) (σ : State) (regs : Registers) : Prop :=
  represents g (store σ) regs /\
  forall l, x_loop x = Some l -> regs (l_result l) = result σ.

(** Registers below [n] that a statement may not change. *)
Definition keeps (x : Context) (n : Z) (regs regs' : Registers) : Prop :=
  forall y, y < n -> ~ is_home g y -> (forall l, x_loop x = Some l -> y <> l_result l) ->
    regs' y = regs y.

Definition context_ok (x : Context) (n : Z) : Prop :=
  forall l, x_loop x = Some l ->
    l_result l < n /\ scratch g (l_result l) /\ l_depth l <= x_depth x.

(** Outcomes the context gives a meaning to. *)
Definition proper (x : Context) (o : Outcome) : Prop :=
  match o with
  | Retried => x_retry x <> None
  | Broke | Nexted | Redone => x_loop x <> None
  | _ => True
  end.

Definition sim (x : Context) (n r q : Z) (hs : list UnwindHandler) (pd : PendingUnwind)
    (p : Z) (regs : Registers) (w : host) (os : Outcome * State) : Prop :=
  exists regs',
    holds x (snd os) regs' /\ keeps x n regs regs' /\ proper x (fst os) /\
    (forall v, fst os = Normal v -> regs' r = v) /\
    leads a (frame p regs hs pd w) (complete x (fst os) q (frame 0 regs' hs pd (world (snd os)))).

(** ** One instruction *)

Lemma at_step p i q regs hs pd w :
  at_ a p i q -> step a (frame p regs hs pd w) = execute a i p q (frame p regs hs pd w).
Proof.
  intros [Hd Hp]. unfold step. simpl. destruct (Z.leb_spec code_end p); [lia|]. by rewrite Hd.
Qed.

(** The instruction at [p] continues in [m'], from where [n] is reached. *)
Lemma at_continues p i q regs hs pd w m' n :
  at_ a p i q -> execute a i p q (frame p regs hs pd w) = Continues m' -> leads a m' n ->
  leads a (frame p regs hs pd w) n.
Proof. intros Hat Hx Hn. eapply steps_step; [|exact Hn]. by rewrite (at_step _ _ _ _ _ _ _ Hat). Qed.

Lemma at_ends p i q regs hs pd w n :
  at_ a p i q -> execute a i p q (frame p regs hs pd w) = n -> leads a (frame p regs hs pd w) n.
Proof. intros Hat Hx. apply step_leads. by rewrite (at_step _ _ _ _ _ _ _ Hat). Qed.

Lemma jump_continues p t q regs hs pd w n :
  at_ a p (JUMP t) q -> t <= code_end -> leads a (frame t regs hs pd w) n ->
  leads a (frame p regs hs pd w) n.
Proof.
  intros Hat Ht Hn. eapply at_continues; [exact Hat| |exact Hn].
  simpl. unfold jump_to. destruct (Z.ltb_spec code_end t); [lia|done].
Qed.

Lemma jump_if_false_continues p c t q regs hs pd w n :
  at_ a p (JUMP_IF_FALSE c t) q -> t <= code_end ->
  leads a (frame (if is_truthy (regs c) then q else t) regs hs pd w) n ->
  leads a (frame p regs hs pd w) n.
Proof.
  intros Hat Ht Hn. eapply at_continues; [exact Hat| |exact Hn].
  simpl. destruct (Z.ltb_spec code_end t); [lia|done].
Qed.

Lemma jump_if_true_continues p c t q regs hs pd w n :
  at_ a p (JUMP_IF_TRUE c t) q -> t <= code_end ->
  leads a (frame (if is_truthy (regs c) then t else q) regs hs pd w) n ->
  leads a (frame p regs hs pd w) n.
Proof.
  intros Hat Ht Hn. eapply at_continues; [exact Hat| |exact Hn].
  simpl. destruct (Z.ltb_spec code_end t); [lia|done].
Qed.

Lemma move_continues p d s q regs hs pd w n :
  at_ a p (MOVE d s) q -> leads a (frame q (write_register regs d (regs s)) hs pd w) n ->
  leads a (frame p regs hs pd w) n.
Proof. intros Hat Hn. eapply at_continues; [exact Hat|done|exact Hn]. Qed.

Lemma nil_continues p d q regs hs pd w n :
  at_ a p (NIL d) q -> leads a (frame q (write_register regs d DIAMOND_NIL) hs pd w) n ->
  leads a (frame p regs hs pd w) n.
Proof. intros Hat Hn. eapply at_continues; [exact Hat|done|exact Hn]. Qed.

(** ** Registers *)

Lemma write_register_same regs r v : write_register regs r v r = v.
Proof. unfold write_register. by rewrite Z.eqb_refl. Qed.

Lemma write_register_other regs r v y : y <> r -> write_register regs r v y = regs y.
Proof. intros. unfold write_register. destruct (Z.eqb_spec y r); done. Qed.

Lemma represents_scratch st regs d v :
  scratch g d -> represents g st regs -> represents g st (write_register regs d v).
Proof.
  intros [Hh Hn] [H1 H2]. split.
  - intros k r Hk. rewrite write_register_other; [by apply H1|]. intros ->. apply Hh. by exists k.
  - intros r Hr. rewrite write_register_other; [by apply H2|]. intros ->. done.
Qed.

Lemma represents_slot st regs slot r v :
  (slot, r) ∈ ghomes g -> represents g st regs ->
  represents g (write_slot st slot v) (write_register regs r v).
Proof.
  intros Hs [H1 H2]. split.
  - intros k y Hk. unfold write_slot. destruct (Z.eqb_spec k slot) as [->|Hne].
    + rewrite (ghomes_slot g _ _ _ Hk Hs). apply write_register_same.
    + rewrite write_register_other; [by apply H1|]. intros ->.
      apply Hne. eapply (ghomes_register g); [exact Hk|exact Hs].
  - intros y Hy. rewrite write_register_other; [by apply H2|]. intros ->.
    by apply (ghomes_nils g _ _ Hs).
Qed.

(** A write to a register no loop uses for its value. *)
Lemma holds_scratch x σ regs n d v :
  context_ok x n -> n <= d -> scratch g d -> holds x σ regs ->
  holds x σ (write_register regs d v).
Proof.
  intros Hx Hd Hs [H1 H2]. split; [by apply represents_scratch|]. intros l Hl.
  destruct (Hx l Hl) as (Hr & _). rewrite write_register_other by lia. by apply H2.
Qed.

Lemma keeps_refl x n regs : keeps x n regs regs.
Proof. intros y _ _ _. done. Qed.

Lemma keeps_trans x n m regs1 regs2 regs3 :
  n <= m -> keeps x n regs1 regs2 -> keeps x m regs2 regs3 -> keeps x n regs1 regs3.
Proof. intros Hle K1 K2 y Hy Hh Hl. rewrite (K2 y) by (lia || done). by apply K1. Qed.

Lemma keeps_write x n regs regs' d v :
  n <= d -> keeps x n regs regs' -> keeps x n regs (write_register regs' d v).
Proof.
  intros Hd K y Hy Hh Hl. rewrite write_register_other by lia. by apply K.
Qed.

Lemma keeps_home x n regs regs' d v :
  is_home g d -> keeps x n regs regs' -> keeps x n regs (write_register regs' d v).
Proof.
  intros Hd K y Hy Hh Hl. rewrite write_register_other by (intros ->; done). by apply K.
Qed.

Lemma keeps_scratch x n regs regs' d :
  keeps x n regs regs' -> d < n -> scratch g d ->
  (forall l, x_loop x = Some l -> d <> l_result l) -> regs' d = regs d.
Proof. intros K Hd [Hh _] Hl. by apply K. Qed.

Lemma context_ok_mono x n m : n <= m -> context_ok x n -> context_ok x m.
Proof. intros Hle Hx l Hl. destruct (Hx l Hl) as (?&?&?). split; [lia|done]. Qed.

Lemma context_ok_begin x n : context_ok x n -> context_ok (in_begin x) n.
Proof. intros Hx l Hl. destruct (Hx l Hl) as (?&?&?). simpl. split; [done|]. split; [done|lia]. Qed.

Lemma context_ok_clause x n slot retry : context_ok x n -> context_ok (in_clause x slot retry) n.
Proof. intros Hx l Hl. destruct (Hx l Hl) as (?&?&?). simpl. split; [done|]. split; [done|lia]. Qed.

(** ** Through one begin level

    [E pz] is the ensure handler of a begin block whose ensure clause is at
    [pz], [A pz pd] the same handler while that clause runs. *)

Notation E pz := (ensure_handler pz).
Notation A pz pd := (enter_ensure (ensure_handler pz) pd).

(** What the ensure clause of a begin block in context [x] resumes after
    outcome [o] inside it; [q] is where the block ends. *)
Definition resumes (x : Context) (o : Outcome) (q : Z) : PendingUnwind :=
  let jump target :=
    match x_loop x with
    | Some l => PENDING_JUMP (target l) (x_depth x - l_depth l)
    | None => PENDING_NONE
    end in
  match o with
  | Normal _ => PENDING_NORMAL q
  | Raised exception => PENDING_EXCEPTION exception
  | Returned value => PENDING_RETURN value
  | Exited value target is_break =>
      if target =? serial a then PENDING_RETURN value else PENDING_NONLOCAL value target is_break
  | Broke => jump l_exit
  | Nexted => jump l_continue
  | Redone => jump l_redo
  | _ => PENDING_NONE
  end.

(** Outcomes an ensure clause is run for. *)
Definition unwinds (x : Context) (o : Outcome) : Prop :=
  match o with
  | Raised _ | Returned _ | Exited _ _ _ => True
  | Broke | Nexted | Redone => exists l, x_loop x = Some l
  | _ => False
  end.

Lemma loop_jump_enters x pz hs pd regs w target l :
  x_loop x = Some l -> l_depth l <= x_depth x ->
  loop_jump (in_begin x) target (frame 0 regs (E pz :: hs) pd w) =
    Continues (frame pz regs (A pz pd :: hs) (PENDING_JUMP (target l) (x_depth x - l_depth l)) w).
Proof.
  intros Hl Hd. unfold loop_jump, jump_out. simpl. rewrite Hl.
  destruct (Z.leb_spec (x_depth x + 1 - l_depth l) 0); [lia|].
  unfold land, land_in_ensure. simpl.
  replace (x_depth x + 1 - l_depth l - 1) with (x_depth x - l_depth l) by lia. done.
Qed.

(** An outcome inside the block, past its rescue handler, enters the ensure
    clause. *)
Lemma complete_enters x n o q q' pz hs pd regs w :
  context_ok x n -> unwinds x o ->
  complete (in_begin x) o q' (frame 0 regs (E pz :: hs) pd w) =
    Continues (frame pz regs (A pz pd :: hs) (resumes x o q) w).
Proof.
  intros Hx Hu. destruct o; try done; simpl in *.
  1: { destruct (target =? serial a); done. }
  all: destruct Hu as [l Hl]; rewrite Hl; apply loop_jump_enters; [done|];
    by destruct (Hx l Hl) as (?&?&?).
Qed.

(** The rescue handler of the block does not stop anything but an exception. *)
Lemma complete_drops_rescue x n o q pz ph d ts en hs pd regs w :
  context_ok x n -> unwinds x o -> (forall v, o <> Raised v) ->
  complete (in_begin x) o q (frame 0 regs (rescue_handler ph d ts en :: E pz :: hs) pd w) =
  complete (in_begin x) o q (frame 0 regs (E pz :: hs) pd w).
Proof.
  intros Hx Hu Hr. destruct o; try done; simpl in *; [by destruct (Hr exception)|..].
  all: destruct Hu as [l Hl]; unfold loop_jump, jump_out; simpl; rewrite Hl; simpl;
    destruct (Hx l Hl) as (_&_&Hd);
    destruct (Z.leb_spec (x_depth x + 1 - l_depth l) 0); [lia|done].
Qed.

Lemma complete_rescued x v q pz ph d hs pd regs w :
  complete (in_begin x) (Raised v) q
    (frame 0 regs (rescue_handler ph d [] true :: E pz :: hs) pd w) =
  Continues (frame ph (write_register regs d v) (E pz :: hs) pd w).
Proof. done. Qed.

Lemma complete_disabled x v q pz ph d ts hs pd regs w :
  complete (in_begin x) (Raised v) q
    (frame 0 regs (rescue_handler ph d ts false :: E pz :: hs) pd w) =
  complete (in_begin x) (Raised v) q (frame 0 regs (E pz :: hs) pd w).
Proof. done. Qed.

Lemma vm_return_invalid m :
  vm_return DIAMOND_VM_INVALID_BYTECODE m = Leaves (Reports DIAMOND_VM_INVALID_BYTECODE) (heap m).
Proof. unfold vm_return. by destruct (handlers m). Qed.

(** An abrupt outcome of the ensure clause itself continues outside the block,
    under the pending unwind the block found. *)
Lemma complete_leaves_ensure x n o q q' pz hs pd pd' regs w :
  context_ok x n -> unwinds x o ->
  complete (in_begin x) o q' (frame 0 regs (A pz pd :: hs) pd' w) =
  complete x o q (frame 0 regs hs pd w).
Proof.
  intros Hx Hu. destruct o; try done; simpl in *.
  all: destruct Hu as [l Hl]; unfold loop_jump, jump_out; simpl; rewrite Hl;
    destruct (Hx l Hl) as (_&_&Hd);
    destruct (Z.leb_spec (x_depth x + 1 - l_depth l) 0); [lia|]; simpl;
    replace (x_depth x + 1 - l_depth l - 1) with (x_depth x - l_depth l) by lia;
    unfold pop_unwind_handler; simpl; rewrite !vm_return_invalid; done.
Qed.

(** END_ENSURE resumes the outcome the clause was entered for. *)
Lemma end_ensure_resumes x n o q offset pz hs pd regs w :
  context_ok x n -> unwinds x o ->
  end_ensure a offset (frame q regs (A pz pd :: hs) (resumes x o q) w) =
  complete x o q (frame 0 regs hs pd w).
Proof.
  intros Hx Hu. destruct o; try done; unfold end_ensure; simpl in *.
  1: { destruct (Z.eqb_spec target (serial a)) as [|Hne]; [done|].
       unfold nonlocal_exit_arrives, pass_exit. simpl.
       destruct (Z.eqb_spec target (serial a)); [done|]. done. }
  all: destruct Hu as [l Hl]; unfold loop_jump; rewrite Hl; done.
Qed.

Lemma end_ensure_normal v x q offset pz hs pd regs w :
  end_ensure a offset (frame q regs (A pz pd :: hs) (PENDING_NORMAL q) w) =
  complete x (Normal v) q (frame 0 regs hs pd w).
Proof. done. Qed.

(** A status that fails under a handler is settled on the spot. *)
Lemma complete_settled x o q regs hs pd (σ : State) :
  hs <> [] ->
  complete x o q (frame 0 regs hs pd (world σ)) =
  complete x (fst (settle (o, σ))) q (frame 0 regs hs pd (world (snd (settle (o, σ))))).
Proof.
  intros Hh. destruct o; try done. simpl. unfold vm_return. simpl.
  destruct hs as [|hd tl]; [done|]. by destruct (runtime_exception status (world σ)) as [[] h].
Qed.

Lemma settle_store o σ :
  store (snd (settle (o, σ))) = store σ /\ result (snd (settle (o, σ))) = result σ.
Proof. destruct o; try done. simpl. by destruct (runtime_exception status (world σ)) as [[] h]. Qed.

Lemma settle_normal o σ v : fst (settle (o, σ)) = Normal v -> o = Normal v.
Proof. destruct o; try done. simpl. by destruct (runtime_exception status (world σ)) as [[] h]. Qed.

Lemma settle_not_failed o σ status : fst (settle (o, σ)) <> Failed status.
Proof.
  destruct o; try done. simpl. by destruct (runtime_exception status0 (world σ)) as [[] h].
Qed.

(** A simulation under a handler, with its failures settled. *)
Lemma sim_settle x n r q hs pd p regs w os :
  hs <> [] -> sim x n r q hs pd p regs w os -> sim x n r q hs pd p regs w (settle os).
Proof.
  intros Hh (regs' & (Hr & Hl) & Hk & Hp & Hv & Hn). destruct os as [o σ].
  destruct (settle_store o σ) as [Hst Hre].
  exists regs'. split; [|split; [done|split; [|split]]].
  - split; [by rewrite Hst|]. intros l Hl'. rewrite Hre. by apply Hl.
  - destruct o; try done. simpl. by destruct (runtime_exception status (world σ)) as [[] h].
  - intros v Hv'. apply Hv. simpl. by eapply settle_normal.
  - by rewrite <- complete_settled.
Qed.

(** ** Expressions *)

Lemma expr_at_next e p n r q n' : expr_at g a e p n r q n' -> n <= n'.
Proof. intros (ls & ec & Hc & _ & _ & _ & -> & _). by eapply expr_compile_next. Qed.

Lemma holds_expr x σ regs st h regs' n :
  context_ok x n -> holds x σ regs -> represents g st regs' ->
  (forall y, y < n -> ~ is_home g y -> regs' y = regs y) ->
  holds x {| store := st; result := result σ; world := h |} regs' /\ keeps x n regs regs'.
Proof.
  intros Hx [Hr Hl] Hr' Hk. split.
  - split; [done|]. intros l Hl'. destruct (Hx l Hl') as (Hlt & [Hh _] & _). simpl.
    rewrite Hk; [by apply Hl|done|done].
  - intros y Hy Hh _. by apply Hk.
Qed.

Lemma exit_completes x value target is_break q m :
  (target =? serial a) && is_break = false ->
  nonlocal_exit_arrives a value target is_break 0 m =
  complete x (expr_outcome (serial a) (EExit value target is_break)) q m.
Proof.
  intros Hb. unfold nonlocal_exit_arrives. rewrite Hb. simpl.
  destruct (target =? serial a) eqn:Ht; simpl; [|by rewrite Ht]. done.
Qed.

Lemma sim_prepend x n m r q hs pd p regs w p1 regs1 w1 os :
  n <= m -> keeps x n regs regs1 ->
  (forall nx, leads a (frame p1 regs1 hs pd w1) nx -> leads a (frame p regs hs pd w) nx) ->
  sim x m r q hs pd p1 regs1 w1 os -> sim x n r q hs pd p regs w os.
Proof.
  intros Hle Hk Hs (regs' & Hh & Hk' & Hp & Hv & Hn). exists regs'.
  split; [done|]. split; [by eapply keeps_trans|]. split; [done|]. split; [done|]. by apply Hs.
Qed.

(** A statement that starts by evaluating [e]. *)
Lemma with_value_sim b x fuel e p n r q n' hs pd regs σ k os rr qq :
  b <= n -> expr_at g a e p n r q n' -> holds x σ regs -> context_ok x n ->
  with_value (serial a) fuel e σ k = Some os ->
  (forall v σ1 regs1, k v σ1 = Some os -> holds x σ1 regs1 -> regs1 r = v ->
     sim x b rr qq hs pd q regs1 (world σ1) os) ->
  sim x b rr qq hs pd p regs (world σ) os.
Proof.
  intros Hb He Hh Hx Hw Hk. unfold with_value in Hw.
  destruct (expr_eval fuel e (store σ) (world σ)) as [[[res st] h]|] eqn:Hev; [|done].
  destruct (expr_runs g a e p n r q n' (frame p regs hs pd (world σ)) fuel (store σ) res st h)
    as (regs1 & Hr1 & Hk1 & Hn); [done|done|apply Hh|done|].
  destruct (holds_expr x σ regs st h regs1 n Hx Hh Hr1 Hk1) as [Hh1 Hkeep]. simpl in Hn.
  assert (Hkb : keeps x b regs regs1).
  { eapply keeps_trans; [exact Hb|apply keeps_refl|exact Hkeep]. }
  destruct res as [v|v|status|v t br].
  - destruct Hn as [Hv Hn].
    eapply sim_prepend with (m := b) (regs1 := regs1); [lia|done| |by eapply (Hk v _ regs1 Hw Hh1 Hv)].
    intros nx Hnx. by eapply steps_leads.
  - injection Hw as <-. exists regs1. split; [done|]. split; [done|]. done.
  - injection Hw as <-. exists regs1. split; [done|]. split; [done|]. done.
  - injection Hw as <-. destruct Hn as [Hbr Hn]. exists regs1.
    split; [done|]. split; [done|]. split; [by simpl; destruct (t =? serial a)|].
    split; [simpl; by destruct (t =? serial a)|].
    rewrite (exit_completes x v t br qq _ Hbr) in Hn. revert Hn. simpl.
    destruct (t =? serial a) eqn:Ht; simpl; rewrite ?Ht; done.
Qed.

End Sim.
