(* ===== verification/ControlCorrect.v ===== *)
(** * ControlCorrect: laid-out code behaves as the statements mean

    The simulation: from the start of the code of a statement, the machine
    reaches what [complete] prescribes for the outcome the specification gives
    the statement, with the source state in its registers and the handlers it
    started with.  By induction on the fuel of the specification; the begin
    block is the algebra of ControlSim. *)

From S2P Require Import Prelude.
From S2P Require Import Value.
From S2P Require Import Unwind.
From S2P Require Import ControlMachine.
From S2P Require Import ControlFlow.
From S2P Require Import ControlLayout.
From S2P Require Import ControlSim.
From Stdlib Require Import ZArith Lia Bool List.
From stdpp Require Import base numbers list relations.

Local Open Scope Z_scope.
Local Open Scope c_scope.

Section Needs.
  Context {HO : Host} {EX : Expressions}.

(** How many handlers a statement has installed at most: two in the body of a
    begin block, one in its clauses. *)
Fixpoint need_stmt (s : stmt) : Z :=
  match s with
  | SIf _ _ body otherwise => Z.max (need_stmts body) (need_branch otherwise)
  | SPostfix _ _ body => need_stmt body
  | SWhile _ _ body | SLoop body => need_stmts body
  | SBegin _ body rescues otherwise ensure =>
      Z.max (2 + need_stmts body)
        (1 + Z.max (need_clauses rescues) (Z.max (need_branch otherwise) (need_branch ensure)))
  | _ => 0
  end
with need_stmts (ss : stmts) : Z :=
  match ss with
  | BDone => 0
  | BThen s rest => Z.max (need_stmt s) (need_stmts rest)
  end
with need_branch (b : branch) : Z :=
  match b with
  | BNone => 0
  | BBlock s => need_stmts s
  | BElsif s => need_stmt s
  end
with need_clauses (cls : clauses) : Z :=
  match cls with
  | CNone => 0
  | CRescue _ _ body rest => Z.max (need_stmts body) (need_clauses rest)
  end.

Lemma need_nonneg :
  (forall s, 0 <= need_stmt s) /\ (forall ss, 0 <= need_stmts ss) /\
  (forall b, 0 <= need_branch b) /\ (forall cls, 0 <= need_clauses cls).
Proof. apply program_mut; intros; simpl; lia. Qed.

End Needs.

Section Correct.
  Context {HO : Host} {EX : Expressions} {OK : ExpressionsOk}.
  Variable g : Ghost.
  Variable a : Activation.

Notation code_end := (Z.of_nat (length (code a))).
Notation frame p regs hs pd w :=
  {| ip := p; registers := regs; handlers := hs; pending := pd; heap := w |}.
Notation E pz := (ensure_handler pz).
Notation A pz pd := (enter_ensure (ensure_handler pz) pd).
Notation sim := (sim g a).
Notation holds := (holds g).
Notation keeps := (keeps g).
Notation context_ok := (context_ok g).
Notation complete := (complete a).
Notation room hs k := (Z.of_nat (length hs) + k <= 16).

(** ** Registers only grow *)

Lemma tests_next exc pb types p n q n' : tests_at g a exc pb types p n q n' -> n <= n'.
Proof.
  revert p n. induction types as [|t ts IH]; intros p n; simpl; [intros [_ ->]; lia|].
  intros (p1 & p2 & _ & _ & _ & _ & _ & Hr). apply IH in Hr. lia.
Qed.

Lemma branch_next inverted c p n b q n' : branch_at g a inverted c p n b q n' -> n <= n'.
Proof. destruct inverted; simpl; [intros (_&_&->&_)|intros (_&_&->)]; lia. Qed.

Lemma head_next c exit p n q n' : head_at g a c exit p n q n' -> n <= n'.
Proof.
  destruct c as [[inverted e]|]; simpl; [|intros [_ ->]; lia].
  intros (cr & p1 & n1 & br & p2 & He & Hb & _).
  apply expr_at_next in He. apply branch_next in Hb. lia.
Qed.

Scheme lay_stmt_mut := Minimality for lay_stmt Sort Prop
with lay_body_mut := Minimality for lay_body Sort Prop
with lay_stmts_mut := Minimality for lay_stmts Sort Prop
with lay_branch_mut := Minimality for lay_branch Sort Prop
with lay_clause_opt_mut := Minimality for lay_clause_opt Sort Prop
with lay_ensure_mut := Minimality for lay_ensure Sort Prop
with lay_clauses_mut := Minimality for lay_clauses Sort Prop.
Combined Scheme lay_mut from lay_stmt_mut, lay_body_mut, lay_stmts_mut, lay_branch_mut,
  lay_clause_opt_mut, lay_ensure_mut, lay_clauses_mut.

Ltac next_facts :=
  repeat match goal with
  | Hx : expr_at _ _ _ _ _ _ _ _ |- _ => apply expr_at_next in Hx
  | Hx : branch_at _ _ _ _ _ _ _ _ _ |- _ => apply branch_next in Hx
  | Hx : head_at _ _ _ _ _ _ _ _ |- _ => apply head_next in Hx
  | Hx : tests_at _ _ _ _ _ _ _ _ _ |- _ => apply tests_next in Hx
  end.

Lemma lay_next_register :
  (forall x s p n r q n', lay_stmt g a x s p n r q n' -> n <= n') /\
  (forall x ss p n r q n', lay_body g a x ss p n r q n' -> n < n') /\
  (forall x ss last p n r q n', lay_stmts g a x ss last p n r q n' -> n <= n') /\
  (forall x d b p n q n', lay_branch g a x d b p n q n' -> n <= n') /\
  (forall x d b p n q n', lay_clause_opt g a x d b p n q n' -> n <= n') /\
  (forall x b p n q n', lay_ensure g a x b p n q n' -> n <= n') /\
  (forall x slot exc d prun retry live cls p n q n',
     lay_clauses g a x slot exc d prun retry live cls p n q n' -> n <= n').
Proof. apply lay_mut; intros; next_facts; lia. Qed.

Lemma lay_stmt_next x s p n r q n' : lay_stmt g a x s p n r q n' -> n <= n'.
Proof. apply lay_next_register. Qed.
Lemma lay_body_next x ss p n r q n' : lay_body g a x ss p n r q n' -> n < n'.
Proof. apply lay_next_register. Qed.
Lemma lay_clauses_next x slot exc d prun retry live cls p n q n' :
  lay_clauses g a x slot exc d prun retry live cls p n q n' -> n <= n'.
Proof. apply lay_next_register. Qed.
Lemma lay_clause_opt_next x d b p n q n' : lay_clause_opt g a x d b p n q n' -> n <= n'.
Proof. apply lay_next_register. Qed.

(** ** Building simulations *)

Lemma sim_normal x n r q hs pd p regs regs' w σ v :
  holds x σ regs' -> keeps x n regs regs' -> regs' r = v ->
  leads a (frame p regs hs pd w) (Continues (frame q regs' hs pd (world σ))) ->
  sim x n r q hs pd p regs w (Normal v, σ).
Proof.
  intros Hh Hk Hv Hn. exists regs'. split; [done|]. split; [done|]. split; [done|].
  split; [by intros ? [= ->]|]. done.
Qed.

Lemma sim_abrupt x n r q hs pd p regs regs' w o σ :
  (forall v, o <> Normal v) -> proper x o -> holds x σ regs' -> keeps x n regs regs' ->
  leads a (frame p regs hs pd w) (complete x o q (frame 0 regs' hs pd (world σ))) ->
  sim x n r q hs pd p regs w (o, σ).
Proof.
  intros Ho Hp Hh Hk Hn. exists regs'. split; [done|]. split; [done|]. split; [done|].
  split; [|done]. intros v Hv. by destruct (Ho v).
Qed.

Lemma complete_end x o q q' m :
  (forall v, o <> Normal v) -> complete x o q m = complete x o q' m.
Proof. intros Ho. destruct o; try done. by destruct (Ho value). Qed.

Lemma outcome_cases (o : Outcome) : (exists v, o = Normal v) \/ (forall v, o <> Normal v).
Proof. destruct o; [left; by eexists|right; done..]. Qed.

Lemma outcome_crashed (o : Outcome) : (exists d, o = Crashed d) \/ (forall d, o <> Crashed d).
Proof. destruct o; [right; done..|left; by eexists]. Qed.

(** [o] inside, then what follows a normal end. *)
Lemma sim_bind x n m r p1 r' q hs pd p regs w o σ os :
  n <= m -> sim x m r p1 hs pd p regs w (o, σ) ->
  (forall v regs1, o = Normal v -> holds x σ regs1 -> keeps x m regs regs1 -> regs1 r = v ->
     sim x n r' q hs pd p1 regs1 (world σ) os) ->
  ((forall v, o <> Normal v) -> os = (o, σ)) ->
  sim x n r' q hs pd p regs w os.
Proof.
  intros Hle (regs1 & Hh & Hk & Hp & Hv & Hn) Hnorm Habr.
  assert (Hk' : keeps x n regs regs1) by (eapply keeps_trans; [exact Hle| |exact Hk]; apply keeps_refl).
  destruct (outcome_cases o) as [[v ->]|Ho].
  - eapply sim_prepend; [|exact Hk'| |by eapply Hnorm; [..|by apply Hv]]; [lia|].
    intros nx Hnx. eapply steps_leads; [exact Hn|exact Hnx].
  - rewrite (Habr Ho). eapply sim_abrupt; [done|done|done|done|].
    rewrite (complete_end x o q p1) by done. done.
Qed.

(** A block followed by the MOVE of its value. *)
Lemma sim_move x n d m r p1 q hs pd p regs w os :
  sim x m r p1 hs pd p regs w os -> at_ a p1 (MOVE d r) q -> scratch g d ->
  context_ok x d -> n <= d -> d < m -> sim x n d q hs pd p regs w os.
Proof.
  intros Hs Hat Hd Hx Hn Hm. destruct os as [o σ].
  eapply (sim_bind x n m); [lia|exact Hs| |done].
  intros v regs1 -> Hh Hk Hv.
  eapply sim_normal; [|eapply keeps_write; [exact Hn|apply keeps_refl]|apply write_register_same|].
  - eapply holds_scratch; [exact Hx|lia|done|done].
  - eapply move_continues; [exact Hat|]. rewrite Hv. apply steps_refl.
Qed.

Lemma truthy_not v : is_truthy (DIAMOND_BOOL (negb (is_truthy v))) = negb (is_truthy v).
Proof. done. Qed.

(** The NOT of an inverted condition, then the conditional jump: to [q] when
    the body runs, to [exit] when it does not. *)
Lemma branch_leads x inverted c p n b p2 n' exit q hs pd regs σ v :
  branch_at g a inverted c p n b p2 n' -> at_ a p2 (JUMP_IF_FALSE b exit) q -> exit <= code_end ->
  context_ok x n -> holds x σ regs -> regs c = v ->
  exists regs', holds x σ regs' /\ keeps x n regs regs' /\
    forall nx,
    leads a (frame (if xorb inverted (is_truthy v) then q else exit) regs' hs pd (world σ)) nx ->
    leads a (frame p regs hs pd (world σ)) nx.
Proof.
  intros Hb Hj He Hx Hh Hv. destruct inverted; simpl in Hb.
  - destruct Hb as (Hnot & -> & -> & Hs).
    exists (write_register regs n (DIAMOND_BOOL (negb (is_truthy v)))).
    split; [by eapply holds_scratch|].
    split; [apply keeps_write; [lia|apply keeps_refl]|]. intros nx Hnx.
    eapply at_continues; [exact Hnot|simpl; rewrite Hv; reflexivity|].
    eapply jump_if_false_continues; [exact Hj|done|].
    rewrite write_register_same, truthy_not. by destruct (is_truthy v).
  - destruct Hb as (-> & -> & ->). exists regs. split; [done|]. split; [apply keeps_refl|].
    intros nx Hnx. eapply jump_if_false_continues; [exact Hj|done|]. rewrite Hv.
    by destruct (is_truthy v).
Qed.

Lemma loop_jump_leads x l target p q regs hs pd w :
  x_loop x = Some l -> loop_jump_at a x l (target l) p q ->
  leads a (frame p regs hs pd w) (loop_jump x target (frame 0 regs hs pd w)).
Proof.
  intros Hl [Ht Hj]. unfold loop_jump. rewrite Hl.
  destruct (Z.eqb_spec (x_depth x - l_depth l) 0) as [Hz|Hz].
  - rewrite Hz in *. simpl in Hj.
    assert (Hu : jump_out 0 (target l) (frame 0 regs hs pd w)
                 = Continues (frame (target l) regs hs pd w)) by (unfold jump_out; by destruct hs).
    rewrite Hu. eapply jump_continues; [exact Hj|done|]. apply steps_refl.
  - cbv zeta in Hj. apply Z.eqb_neq in Hz. rewrite Hz in Hj.
    eapply at_ends; [exact Hj|]. simpl. destruct (Z.ltb_spec code_end (target l)); [lia|]. done.
Qed.

(** ** The simulation, by fuel *)

Definition stmt_ok (fuel : nat) : Prop :=
  forall x s p n r q n' hs pd regs σ os,
  lay_stmt g a x s p n r q n' -> holds x σ regs -> context_ok x n -> room hs (need_stmt s) ->
  exec_stmt (serial a) fuel (x_current x) s σ = Some os ->
  sim x n r q hs pd p regs (world σ) os.

Definition stmts_ok (fuel : nat) : Prop :=
  forall x ss last p n r q n' hs pd regs σ v os,
  lay_stmts g a x ss last p n r q n' -> holds x σ regs -> context_ok x n ->
  room hs (need_stmts ss) -> regs last = v ->
  exec_stmts (serial a) fuel (x_current x) ss v σ = Some os ->
  sim x n r q hs pd p regs (world σ) os.

Definition branch_ok (fuel : nat) : Prop :=
  forall x d b p n q n' hs pd regs σ os,
  lay_branch g a x d b p n q n' -> holds x σ regs -> context_ok x d -> scratch g d -> d < n ->
  room hs (need_branch b) -> exec_branch (serial a) fuel (x_current x) b σ = Some os ->
  sim x d d q hs pd p regs (world σ) os.

(** The loop whose value is in [n]: its top at [p0], its body at [p3], its end
    at [q]. *)
Record loop_laid (x : Context) (c : option (bool * expr)) (body : stmts) (n p0 q : Z)
    (l : LoopAt) (p3 : Z) : Prop := {
  laid_loop : l = {| l_depth := x_depth x; l_continue := p0; l_redo := p3; l_result := n;
                     l_exit := q |};
  laid_top : p0 <= code_end;
  laid_exit : q <= code_end;
  laid_result : scratch g n;
  laid_body : exists n1 n2 r p4 n', n < n1 /\ head_at g a c q p0 n1 p3 n2 /\
    lay_body g a (in_loop x l) body p3 n2 r p4 n' /\ at_ a p4 (JUMP p0) q;
}.

(** A loop handles its own jumps. *)
Definition loop_over (o : Outcome) : Prop :=
  match o with Broke | Nexted | Redone => False | _ => True end.

Definition top_ok (fuel : nat) : Prop :=
  forall x c body n p0 q l p3 hs pd regs σ os,
  loop_laid x c body n p0 q l p3 -> holds (in_loop x l) σ regs -> context_ok x n ->
  room hs (need_stmts body) ->
  exec_top (serial a) fuel (x_current x) c body σ = Some os ->
  sim (in_loop x l) n n q hs pd p0 regs (world σ) os.

Definition round_ok (fuel : nat) : Prop :=
  forall x c body n p0 q l p3 hs pd regs σ os,
  loop_laid x c body n p0 q l p3 -> holds (in_loop x l) σ regs -> context_ok x n ->
  room hs (need_stmts body) ->
  exec_round (serial a) fuel (x_current x) c body σ = Some os ->
  sim (in_loop x l) n n q hs pd p3 regs (world σ) os.

Lemma body_sim fuel : stmts_ok fuel ->
  forall x ss p n r q n' hs pd regs σ os,
  lay_body g a x ss p n r q n' -> holds x σ regs -> context_ok x n -> room hs (need_stmts ss) ->
  exec_stmts (serial a) fuel (x_current x) ss DIAMOND_NIL σ = Some os ->
  sim x n r q hs pd p regs (world σ) os.
Proof.
  intros Hok x ss p n r q n' hs pd regs σ os Hl Hh Hx Hroom Hex.
  inversion Hl as [? ? ? ? ? ? ? Hnil Hst]; subst.
  eapply sim_prepend; [|apply keeps_refl|intros nx Hnx; exact Hnx|].
  2: { eapply (Hok x ss n); [done|done| |done| |done].
       - eapply context_ok_mono; [|exact Hx]. lia.
       - by apply Hh. }
  lia.
Qed.

Lemma stmts_step fuel : stmt_ok fuel -> stmts_ok fuel -> stmts_ok (S fuel).
Proof.
  intros Hs Hss x ss last p n r q n' hs pd regs σ v os Hl Hh Hx Hroom Hv Hex.
  destruct ss as [|s rest]; simpl in Hex; inversion Hl; subst.
  - injection Hex as <-. eapply sim_normal; [done|apply keeps_refl|done|apply steps_refl].
  - simpl in Hroom. destruct (exec_stmt _ fuel _ s σ) as [[o σ1]|] eqn:He; [|done].
    match goal with Hx : lay_stmt _ _ _ s _ _ _ _ _ |- _ => pose proof (lay_stmt_next _ _ _ _ _ _ _ Hx) end.
    eapply (sim_bind x n n); [lia|eapply Hs; [eassumption|done|done|lia|exact He]| |].
    + intros v regs1 -> Hh1 Hk1 Hv1.
      eapply sim_prepend; [|apply keeps_refl|intros nx Hnx; exact Hnx|].
      2: eapply Hss; [eassumption|done|by eapply context_ok_mono|lia|exact Hv1|exact Hex].
      lia.
    + intros Ho. destruct o; try (by injection Hex as <-). by destruct (Ho value).
Qed.

Lemma branch_step fuel : stmt_ok fuel -> stmts_ok fuel -> branch_ok (S fuel).
Proof.
  intros Hs Hss x d b p n q n' hs pd regs σ os Hl Hh Hx Hd Hlt Hroom Hex.
  assert (Hxn : context_ok x n) by (eapply context_ok_mono; [|exact Hx]; lia).
  destruct b as [|ss|s]; simpl in Hex, Hroom; inversion Hl; subst.
  - injection Hex as <-.
    eapply sim_normal; [|apply keeps_write; [|apply keeps_refl]|apply write_register_same|];
      [eapply holds_scratch; [exact Hx|lia|done|done]|lia|].
    eapply nil_continues; [eassumption|]. apply steps_refl.
  - eapply sim_move; [by eapply (body_sim fuel)|eassumption|done|done|lia|lia].
  - eapply sim_move; [by eapply Hs|eassumption|done|done|lia|lia].
Qed.

Lemma with_value_over fuel e σ k os :
  with_value (serial a) fuel e σ k = Some os ->
  (forall v σ1, k v σ1 = Some os -> loop_over (fst os)) -> loop_over (fst os).
Proof.
  unfold with_value. destruct (expr_eval fuel e (store σ) (world σ)) as [[[res st] h]|]; [|done].
  destruct res; intros Hw Hk; [by eapply Hk| | |]; injection Hw as <-; try done.
  simpl. by destruct (target =? serial a).
Qed.

Lemma loop_over_exec fuel current c body :
  (forall σ os, exec_top (serial a) fuel current c body σ = Some os -> loop_over (fst os)) /\
  (forall σ os, exec_round (serial a) fuel current c body σ = Some os -> loop_over (fst os)).
Proof.
  induction fuel as [|fuel [IHt IHr]]; [done|]. split; intros σ os; simpl.
  - destruct c as [[inverted e]|]; [|apply IHr]. intros Hw. eapply with_value_over; [exact Hw|].
    intros v σ1. cbv beta. destruct (xorb inverted (is_truthy v)); [apply IHr|]. by intros [= <-].
  - destruct (exec_stmts (serial a) fuel current body DIAMOND_NIL σ) as [[o σ1]|]; [|done].
    destruct o; try apply IHt; try apply IHr; by intros [= <-].
Qed.

Lemma sim_weaken x n m r q hs pd p regs w os :
  n <= m -> sim x m r q hs pd p regs w os -> sim x n r q hs pd p regs w os.
Proof.
  intros Hle Hs. eapply sim_prepend; [exact Hle|apply keeps_refl|intros nx Hnx; exact Hnx|done].
Qed.

Lemma context_ok_loop x c body n p0 q l p3 m :
  loop_laid x c body n p0 q l p3 -> n < m -> context_ok (in_loop x l) m.
Proof.
  intros [-> _ _ Hs _] Hlt l' [= <-]. simpl. split; [lia|]. split; [done|lia].
Qed.

Lemma top_step fuel : round_ok fuel -> top_ok (S fuel).
Proof.
  intros Hr x c body n p0 q l p3 hs pd regs σ os HL Hh Hx Hroom Hex. pose proof HL as HL'.
  destruct HL' as [Hl _ Hq _ (n1 & n2 & r & p4 & n' & Hn1 & Hhd & _)].
  destruct c as [[inverted e]|]; simpl in Hex, Hhd.
  - destruct Hhd as (cr & p1 & m1 & br & p2 & He & Hb & Hj).
    assert (Hx1 := context_ok_loop _ _ _ _ _ _ _ _ n1 HL Hn1).
    pose proof (expr_at_next g a _ _ _ _ _ _ He).
    eapply (with_value_sim g a n); [|exact He|exact Hh|exact Hx1|exact Hex|]; [lia|].
    intros v σ1 regs1 Hk Hh1 Hv.
    destruct (branch_leads (in_loop x l) inverted cr p1 m1 br p2 n2 q p3 hs pd regs1 σ1 v)
      as (regs2 & Hh2 & Hk2 & Hl2); [done|done|done| |done|done|].
    { eapply context_ok_mono; [|exact Hx1]. lia. }
    assert (Hk3 : keeps (in_loop x l) n regs1 regs2).
    { eapply keeps_trans; [|apply keeps_refl|exact Hk2]. lia. }
    eapply (sim_prepend g a _ n n); [lia|exact Hk3|exact Hl2|].
    cbv beta in Hk. destruct (xorb inverted (is_truthy v)); [eapply Hr; eassumption|].
    injection Hk as <-.
    eapply sim_normal; [exact Hh2|apply keeps_refl| |apply steps_refl].
    destruct Hh2 as [_ Hres]. by rewrite <- (Hres l eq_refl), Hl.
  - destruct Hhd as [-> ->]. by eapply Hr.
Qed.

(** A loop's own jump lands inside the frame. *)
Lemma own_jump x l target m :
  l_depth l = x_depth x -> loop_jump (in_loop x l) target m = Continues (set_ip m (target l)).
Proof.
  intros Hd. unfold loop_jump, jump_out. simpl. rewrite Hd, Z.sub_diag.
  destruct m as [? ? hs ? ?]. by destruct hs.
Qed.

Lemma round_step fuel : stmts_ok fuel -> top_ok fuel -> round_ok fuel -> round_ok (S fuel).
Proof.
  intros Hss Ht Hr x c body n p0 q l p3 hs pd regs σ os HL Hh Hx Hroom Hex. pose proof HL as HL'.
  destruct HL' as [Hl Hp0 Hq _ (n1 & n2 & r & p4 & n' & Hn1 & Hhd & Hbody & Hj)].
  assert (Hn2 := head_next _ _ _ _ _ _ Hhd).
  assert (Hx2 := context_ok_loop _ _ _ _ _ _ _ _ n2 HL ltac:(lia)).
  simpl in Hex. destruct (exec_stmts _ fuel _ body _ σ) as [[o σ1]|] eqn:Hb; [|done].
  destruct (body_sim fuel Hss (in_loop x l) body p3 n2 r p4 n' hs pd regs σ (o, σ1))
    as (regs1 & Hh1 & Hk1 & Hp1 & Hv1 & Hn); [done..|]. simpl fst in *. simpl snd in *.
  assert (Hk : keeps (in_loop x l) n regs regs1).
  { eapply keeps_trans; [|apply keeps_refl|exact Hk1]. lia. }
  assert (Hjump : forall target os', o = target -> (target = Broke \/ target = Nexted \/ target = Redone) ->
    sim (in_loop x l) n n q hs pd
      (match target with Broke => q | Nexted => p0 | _ => p3 end) regs1 (world σ1) os' ->
    sim (in_loop x l) n n q hs pd p3 regs (world σ) os').
  { intros target os' -> Htg Hs. eapply sim_prepend; [|exact Hk| |exact Hs]; [lia|].
    intros nx Hnx. eapply steps_leads; [|exact Hnx].
    destruct Htg as [->|[->| ->]]; simpl in Hn;
      rewrite own_jump in Hn by (by rewrite Hl); rewrite Hl in Hn; exact Hn. }
  destruct o; try (injection Hex as <-; eapply sim_abrupt; [done|done|done|exact Hk|];
    rewrite (complete_end _ _ q p4) by done; exact Hn).
  - eapply sim_prepend; [|exact Hk| |by eapply Ht]; [lia|].
    intros nx Hnx. eapply steps_leads; [exact Hn|].
    eapply jump_continues; [exact Hj|done|exact Hnx].
  - injection Hex as <-. eapply (Hjump Broke); [done|by left|].
    eapply sim_normal; [exact Hh1|apply keeps_refl| |apply steps_refl].
    destruct Hh1 as [_ Hres]. by rewrite <- (Hres l eq_refl), Hl.
  - eapply (Hjump Nexted); [done|by right; left|]. by eapply Ht.
  - eapply (Hjump Redone); [done|by right; right|]. by eapply Hr.
Qed.

(** ** Rescue clauses *)

(** The type tests of a clause jump to its body exactly when one matches. *)
Lemma tests_leads x exc pb types p n q n' hs pd regs σ v :
  tests_at g a exc pb types p n q n' -> holds x σ regs -> context_ok x n -> exc < n ->
  regs exc = v ->
  exists regs', holds x σ regs' /\ (forall y, y < n -> regs' y = regs y) /\
    forall nx,
    leads a (frame (if existsb (value_matches_type (world σ) v) types then pb else q)
               regs' hs pd (world σ)) nx ->
    leads a (frame p regs hs pd (world σ)) nx.
Proof.
  revert p n regs. induction types as [|t ts IH]; intros p n regs; simpl.
  - intros [-> ->] Hh _ _ _. by exists regs.
  - intros (p1 & p2 & Hat & Hj & Hs & Hnat & Hpb & Hr) Hh Hx Hexc Hv.
    set (regs1 := write_register regs n (DIAMOND_BOOL (value_matches_type (world σ) v t))).
    assert (Hh1 : holds x σ regs1) by (eapply holds_scratch; [exact Hx|lia|done|done]).
    assert (Hk1 : forall y, y < n -> regs1 y = regs y).
    { intros y Hy. apply write_register_other. lia. }
    assert (Hrun : forall nx,
      leads a (frame (if value_matches_type (world σ) v t then pb else p2) regs1 hs pd (world σ)) nx ->
      leads a (frame p regs hs pd (world σ)) nx).
    { intros nx Hnx. eapply at_continues; [exact Hat|simpl; rewrite Hnat, Hv; reflexivity|].
      eapply jump_if_true_continues; [exact Hj|done|].
      by rewrite (write_register_same regs n). }
    destruct (value_matches_type (world σ) v t) eqn:Hm; simpl.
    + exists regs1. split; [done|]. split; [done|]. exact Hrun.
    + destruct (IH p2 (n + 1) regs1) as (regs2 & Hh2 & Hk2 & Hn2); [done|done| |lia| |].
      { eapply context_ok_mono; [|exact Hx]. lia. }
      { rewrite Hk1 by lia. done. }
      exists regs2. split; [done|]. split.
      * intros y Hy. rewrite Hk2 by lia. by apply Hk1.
      * intros nx Hnx. apply Hrun. by apply Hn2.
Qed.

(** From the first clause, with the exception in its register: to the body of
    the clause that takes it, or to the RAISE that throws it again. *)
Lemma clauses_lead x slot exc d prun retry live cls p n q n' hs pd regs σ v :
  lay_clauses g a x slot exc d prun retry live cls p n q n' -> (cls = CNone -> live = true) ->
  holds x σ regs -> context_ok x n -> exc < n -> regs exc = v ->
  exists regs' pc, holds x σ regs' /\ (forall y, y < n -> regs' y = regs y) /\
    (forall nx, leads a (frame pc regs' hs pd (world σ)) nx ->
                leads a (frame p regs hs pd (world σ)) nx) /\
    match select_clause (world σ) v cls with
    | Some body =>
        exists n1 r p2 n2 p3 p4, n <= n1 /\
          lay_body g a (in_clause x slot retry) body pc n1 r p2 n2 /\
          at_ a p2 (MOVE d r) p3 /\ at_ a p3 (JUMP prun) p4 /\
          need_stmts body <= need_clauses cls
    | None => at_ a pc (RAISE exc) q
    end.
Proof.
  revert live p n regs. induction cls as [|named types body rest IH] using clauses_ind;
    intros live p n regs Hl Hlive Hh Hx Hexc Hv; inversion Hl; subst.
  - by specialize (Hlive eq_refl).
  - exists regs, p. split; [done|]. split; [done|]. split; [done|]. done.
  - destruct (tests_leads x exc pb types p n p1 n1 hs pd regs σ (regs exc))
      as (regs1 & Hh1 & Hk1 & Hn1); [done..|]. simpl.
    assert (Hmono := tests_next _ _ _ _ _ _ _ ltac:(eassumption)).
    destruct types as [|t ts].
    + simpl in *. subst. exists regs1, p1. split; [done|]. split; [done|]. split; [done|].
      exists n1, r, p2, n2, p3, p4. split_and!; try done; simpl; lia.
    + cbn [existsb] in *. destruct (value_matches_type (world σ) (regs exc) t || _).
      * exists regs1, pb. split; [done|]. split; [done|]. split; [done|].
        exists n1, r, p2, n2, p3, p4. split_and!; try done; simpl; lia.
      * assert (Hn2 := lay_body_next _ _ _ _ _ _ _ ltac:(eassumption)).
        edestruct (IH true p4 n2 regs1) as (regs2 & pc & Hh2 & Hk2 & Hl2 & Hsel);
          [eassumption|done|done| |lia|by apply Hk1|].
        { eapply context_ok_mono; [|exact Hx]. lia. }
        exists regs2, pc. split; [done|]. split; [|split].
        -- intros y Hy. rewrite Hk2 by lia. by apply Hk1.
        -- intros nx Hnx. apply Hn1. eapply jump_continues; [eassumption|done|]. by apply Hl2.
        -- destruct (select_clause (world σ) (regs exc) rest); [|done].
           destruct Hsel as (m1 & r' & q2 & m2 & q3 & q4 & Hle & Hb & H1' & H2' & Hnd).
           exists m1, r', q2, m2, q3, q4. simpl. split_and!; try done; simpl; lia.
Qed.

(** ** Begin blocks *)

(** As [sim], from a frame [M] whose handlers may differ. *)
Definition reaches (x : Context) (n r q : Z) (hs : list UnwindHandler) (pd : PendingUnwind)
    (M : Frame) (regs : Registers) (os : Outcome * State) : Prop :=
  exists regs',
    holds x (snd os) regs' /\ keeps x n regs regs' /\ proper x (fst os) /\
    (forall v, fst os = Normal v -> regs' r = v) /\
    leads a M (complete x (fst os) q (frame 0 regs' hs pd (world (snd os)))).

Lemma reaches_sim x n r q hs pd p regs w os :
  reaches x n r q hs pd (frame p regs hs pd w) regs os -> sim x n r q hs pd p regs w os.
Proof. done. Qed.

Lemma proper_unwinds x o :
  proper (in_begin x) o -> (forall v, o <> Normal v) -> (forall st, o <> Failed st) ->
  (forall dp, o <> Crashed dp) -> unwinds x o.
Proof.
  intros Hp Hn Hf Hc.
  destruct o; simpl in *; try done;
    try (by destruct (Hn value)); try (by destruct (Hf status)); try (by destruct (Hc d));
    destruct (x_loop x) as [l|]; try done; by exists l.
Qed.

Lemma proper_begin x o : proper (in_begin x) o -> proper x o.
Proof. by destruct o. Qed.

(** What runs when the ensure clause has been entered for [o], which [P]
    resumes. *)
Lemma ensure_sim fuel x n d q hs pd pz n6 pend n' ensure M regs0 regs1 o σ os P current :
  stmts_ok (pred fuel) -> context_ok x n -> n <= d -> d < n6 -> scratch g d ->
  room hs (1 + need_branch ensure) -> current = x_current x ->
  lay_ensure g a (in_begin x) ensure pz n6 pend n' -> at_ a pend END_ENSURE q ->
  holds x σ regs1 -> keeps x n regs0 regs1 -> proper x o ->
  (forall v, o = Normal v -> regs1 d = v) ->
  (forall nx, leads a (frame pz regs1 (A pz pd :: hs) P (world σ)) nx -> leads a M nx) ->
  (forall offset regs w, end_ensure a offset (frame q regs (A pz pd :: hs) P w)
                         = complete x o q (frame 0 regs hs pd w)) ->
  (let? os2 := exec_branch (serial a) fuel current ensure σ in
   let '(o2, σ2) := settle os2 in
   match o2 with Normal _ => Some (o, σ2) | _ => Some (o2, σ2) end) = Some os ->
  reaches x n d q hs pd M regs0 os.
Proof.
  intros Hss Hx Hnd Hdn Hd Hroom -> Hl Hend Hh Hk Hpo Hv HM HP Hex.
  destruct (exec_branch _ fuel _ ensure σ) as [os2|] eqn:Hb; [|done].
  assert (Hx6 : context_ok (in_begin x) n6).
  { apply context_ok_begin. eapply context_ok_mono; [|exact Hx]. lia. }
  assert (Hs : exists regs2, holds x (snd os2) regs2 /\ keeps x n6 regs1 regs2 /\
    proper (in_begin x) (fst os2) /\
    leads a (frame pz regs1 (A pz pd :: hs) P (world σ))
      (complete (in_begin x) (fst os2) pend (frame 0 regs2 (A pz pd :: hs) P (world (snd os2))))).
  { destruct fuel as [|fuel]; [done|]. inversion Hl; subst; simpl in Hb.
    - injection Hb as <-. exists regs1. split; [done|]. split; [apply keeps_refl|]. split; [done|].
      apply steps_refl.
    - destruct (body_sim fuel Hss (in_begin x) s pz n6 r pend n' (A pz pd :: hs) P regs1 σ os2)
        as (regs2 & ? & ? & ? & _ & ?); [done|done|done| |done|by exists regs2].
      simpl in *. lia. }
  destruct Hs as (regs2 & Hh2 & Hk2 & Hp2 & Hn2). destruct os2 as [o2 σ2]. simpl in Hh2, Hp2, Hn2.
  destruct (settle_store o2 σ2) as [Hst2 Hre2].
  rewrite complete_settled in Hn2 by done.
  assert (Hp2' : proper (in_begin x) (fst (settle (o2, σ2)))).
  { destruct o2; try done. simpl. by destruct (runtime_exception status (world σ2)) as [[] h]. }
  pose proof (settle_not_failed o2 σ2) as Hnf.
  destruct (settle (o2, σ2)) as [o3 σ3]. simpl in Hn2, Hst2, Hre2, Hp2', Hnf.
  assert (Hd2 : regs2 d = regs1 d).
  { apply (keeps_scratch g x n6); [done|lia|done|]. intros l Hl'. destruct (Hx l Hl') as [? _]. lia. }
  exists regs2.
  assert (Hh3 : holds x (snd os) regs2).
  { assert (Hσ : snd os = σ3) by (destruct o3; by injection Hex as <-). rewrite Hσ.
    split; [rewrite Hst2; apply Hh2|]. intros l Hl'. rewrite Hre2. by apply Hh2. }
  split; [exact Hh3|]. split; [eapply keeps_trans; [|exact Hk|exact Hk2]; lia|].
  destruct (outcome_cases o3) as [[v ->]|Hno].
  - injection Hex as <-. split; [done|]. split; [intros v' Hv'; rewrite Hd2; by apply Hv|].
    simpl. apply HM. eapply steps_leads; [exact Hn2|].
    eapply at_ends; [exact Hend|]. simpl. apply HP.
  - assert (Hos : os = (o3, σ3)) by (destruct o3; try (by injection Hex as <-); by destruct (Hno value)).
    subst os. split; [by apply proper_begin|]. split; [intros v Hv'; by destruct (Hno v)|].
    apply HM. simpl. destruct (outcome_crashed o3) as [[dp ->]|Hnc]; [done|].
    erewrite complete_leaves_ensure in Hn2; [exact Hn2|exact Hx|].
    by apply proper_unwinds.
Qed.

(** The layout of a begin block whose exception register is [n]: its
    PUSH_RESCUE at [p0], its ensure clause at [pz], its value in [d], its end
    at [q]. *)
Record begin_laid (x : Context) (slot : Z) (body : stmts) (rescues : clauses)
    (otherwise ensure : branch) (n p0 pz d q : Z) : Prop := {
  laid_slot : (slot, n) ∈ ghomes g;
  laid_value : scratch g d;
  laid_code : exists ts ph p1 b p2 p3 p4 pe n5 prun n6 pend n',
    at_ a p0 (PUSH_RESCUE n (match rescues with CNone => 128 | _ => 0 end) ts ph) p1 /\
    lay_body g a (in_begin x) body p1 (n + 1) b p2 d /\
    at_ a p2 (MOVE d b) p3 /\ at_ a p3 POP_RESCUE p4 /\ at_ a p4 (JUMP pe) ph /\
    lay_clauses g a x slot n d prun p0 false rescues ph (d + 1) pe n5 /\
    lay_clause_opt g a (in_begin x) d otherwise pe n5 prun n6 /\
    at_ a prun (RUN_ENSURE q) pz /\
    lay_ensure g a (in_begin x) ensure pz n6 pend n' /\ at_ a pend END_ENSURE q /\
    ph <= code_end /\ pe <= code_end /\ prun <= code_end /\ q <= code_end;
}.

(** The end of a begin block: the outcome [o] of what ran above its ensure
    handler, then the ensure clause. *)
Lemma finish_sim fuel x n d q hs pd pz prun n6 pend n' ensure M regs0 regs1 o σ os :
  stmts_ok (pred fuel) -> context_ok x n -> n <= d -> d < n6 -> scratch g d ->
  room hs (1 + need_branch ensure) ->
  at_ a prun (RUN_ENSURE q) pz -> q <= code_end ->
  lay_ensure g a (in_begin x) ensure pz n6 pend n' -> at_ a pend END_ENSURE q ->
  holds x σ regs1 -> keeps x n regs0 regs1 -> proper (in_begin x) o ->
  (forall st, o <> Failed st) -> (forall v, o = Normal v -> regs1 d = v) ->
  leads a M (complete (in_begin x) o prun (frame 0 regs1 (E pz :: hs) pd (world σ))) ->
  finish (exec_branch (serial a) fuel (x_current x) ensure) (o, σ) = Some os ->
  reaches x n d q hs pd M regs0 os.
Proof.
  intros Hss Hx Hnd Hdn Hd Hroom Hrun Hq Hl Hend Hh Hk Hp Hnf Hv HM Hex.
  destruct (outcome_crashed o) as [[dp ->]|Hnc].
  { injection Hex as <-. exists regs1. done. }
  assert (Hex' : (let? os2 := exec_branch (serial a) fuel (x_current x) ensure σ in
     let '(o2, σ2) := settle os2 in
     match o2 with Normal _ => Some (o, σ2) | _ => Some (o2, σ2) end) = Some os).
  { destruct o; try exact Hex. by destruct (Hnc d0). }
  destruct (outcome_cases o) as [[v ->]|Hno].
  - eapply (ensure_sim fuel x n d q hs pd pz n6 pend n' ensure M regs0 regs1 _ σ os (PENDING_NORMAL q));
      try done; [exact I|].
    intros nx Hnx. eapply steps_leads; [exact HM|].
    eapply at_continues; [exact Hrun| |exact Hnx]. simpl.
    destruct (Z.ltb_spec code_end q); [lia|done].
  - assert (Hu : unwinds x o) by (by apply proper_unwinds).
    eapply (ensure_sim fuel x n d q hs pd pz n6 pend n' ensure M regs0 regs1 _ σ os (resumes a x o q));
      try done; [by apply proper_begin| |].
    + intros nx Hnx. eapply steps_leads; [|exact Hnx].
      rewrite (complete_enters g a x n o q) in HM by done. exact HM.
    + intros. by eapply end_ensure_resumes.
Qed.

Definition begin_ok (fuel : nat) : Prop :=
  forall x slot body rescues otherwise ensure n p0 pz d q hs pd regs σ os,
  begin_laid x slot body rescues otherwise ensure n p0 pz d q ->
  holds x σ regs -> context_ok x n ->
  room hs (need_stmt (SBegin slot body rescues otherwise ensure)) ->
  exec_begin (serial a) fuel (x_current x) slot body rescues otherwise ensure σ = Some os ->
  reaches x n d q hs pd (frame p0 regs (E pz :: hs) pd (world σ)) regs os.

(** A simulation of the body of a clause or of the else clause, then its MOVE. *)
Lemma clause_moves x n d m r p1 q hs pd p regs w os :
  context_ok x n -> n <= d -> d < m -> scratch g d ->
  sim x m r p1 hs pd p regs w os -> at_ a p1 (MOVE d r) q ->
  sim x n d q hs pd p regs w os.
Proof.
  intros Hx Hn Hm Hd Hs Hat.
  eapply (sim_move x n d m); [exact Hs|exact Hat|done| |lia|lia]. by eapply context_ok_mono.
Qed.

(** The block's body ended normally, and its rescue handler is gone. *)
Lemma begin_else fuel x n d q hs pd pz prun n5 n6 pe pend n' otherwise ensure M regs0 regs1 v σ os :
  stmts_ok (pred fuel) -> context_ok x n -> n <= d -> d < n5 -> scratch g d ->
  room hs (1 + Z.max (need_branch otherwise) (need_branch ensure)) ->
  lay_clause_opt g a (in_begin x) d otherwise pe n5 prun n6 ->
  at_ a prun (RUN_ENSURE q) pz -> q <= code_end ->
  lay_ensure g a (in_begin x) ensure pz n6 pend n' -> at_ a pend END_ENSURE q ->
  holds x σ regs1 -> keeps x n regs0 regs1 -> regs1 d = v ->
  (forall nx, leads a (frame pe regs1 (E pz :: hs) pd (world σ)) nx -> leads a M nx) ->
  match otherwise with
  | BNone => finish (exec_branch (serial a) fuel (x_current x) ensure) (Normal v, σ)
  | _ => let? os := exec_branch (serial a) fuel (x_current x) otherwise σ in
         finish (exec_branch (serial a) fuel (x_current x) ensure) (settle os)
  end = Some os ->
  reaches x n d q hs pd M regs0 os.
Proof.
  intros Hss Hx Hnd Hdn Hd Hroom Hopt Hrun Hq Hl Hend Hh Hk Hv HM Hex.
  assert (Hn6 := lay_clause_opt_next _ _ _ _ _ _ _ Hopt).
  inversion Hopt; subst.
  - eapply (finish_sim fuel x n d q hs pd pz prun n6 pend n' ensure M regs0 regs1 (Normal (regs1 d)) σ);
      try done; try lia; [by intros ? [= <-]|]. apply HM, steps_refl.
  - destruct (exec_branch _ fuel _ (BBlock s) σ) as [os1|] eqn:Hb; [|done].
    destruct fuel as [|fuel]; [done|]. simpl in Hb, Hroom.
    assert (Hs : sim (in_begin x) n d prun (E pz :: hs) pd pe regs1 (world σ) os1).
    { eapply clause_moves; [by apply context_ok_begin|done| |done| |eassumption]; [exact Hdn|].
      eapply body_sim; [exact Hss|eassumption|done| |simpl; lia|exact Hb].
      apply context_ok_begin. eapply context_ok_mono; [|exact Hx]. lia. }
    apply sim_settle in Hs; [|done]. pose proof (settle_not_failed (fst os1) (snd os1)) as Hnf.
    rewrite <- surjective_pairing in Hnf.
    destruct Hs as (regs2 & Hh2 & Hk2 & Hp2 & Hv2 & Hn2). destruct (settle os1) as [o2 σ2].
    simpl in *.
    eapply (finish_sim (S fuel) x n d q hs pd pz prun n6 pend n' ensure M regs0 regs2 o2 σ2);
      try done; try lia; [eapply keeps_trans; [|exact Hk|exact Hk2]; lia|]. by apply HM.
Qed.

Lemma clause_context x slot retry o q m :
  o <> Retried -> complete (in_clause x slot retry) o q m = complete (in_begin x) o q m.
Proof. by destruct o. Qed.

Lemma retried_cases (o : Outcome) : o = Retried \/ o <> Retried.
Proof. destruct o; (by left) || by right. Qed.

(** An exception reached the clauses: the one that takes it runs, a retry
    starts the block over, and an unmatched exception is raised again. *)
Lemma begin_rescue fuel x slot body rescues otherwise ensure n d q hs pd pz p0 ph pe prun n5 n6
    pend n' M regs0 regs1 v σ os :
  begin_ok fuel -> (forall k, (k <= fuel)%nat -> stmts_ok k) ->
  begin_laid x slot body rescues otherwise ensure n p0 pz d q ->
  context_ok x n -> n < d -> rescues <> CNone ->
  room hs (need_stmt (SBegin slot body rescues otherwise ensure)) ->
  lay_clauses g a x slot n d prun p0 false rescues ph (d + 1) pe n5 -> d < n5 -> n5 <= n6 ->
  prun <= code_end -> at_ a prun (RUN_ENSURE q) pz -> q <= code_end ->
  lay_ensure g a (in_begin x) ensure pz n6 pend n' -> at_ a pend END_ENSURE q ->
  holds x (set_store σ (write_slot (store σ) slot v)) regs1 -> keeps x n regs0 regs1 ->
  (forall nx, leads a (frame ph regs1 (E pz :: hs) pd (world σ)) nx -> leads a M nx) ->
  (let σ := set_store σ (write_slot (store σ) slot v) in
   match select_clause (world σ) v rescues with
   | Some clause =>
       let? os := exec_stmts (serial a) fuel (Some slot) clause DIAMOND_NIL σ in
       match settle os with
       | (Retried, σ) =>
           exec_begin (serial a) fuel (x_current x) slot body rescues otherwise ensure σ
       | os => finish (exec_branch (serial a) fuel (x_current x) ensure) os
       end
   | None => finish (exec_branch (serial a) fuel (x_current x) ensure)
               (raise_value (store σ slot) σ)
   end) = Some os ->
  reaches x n d q hs pd M regs0 os.
Proof.
  intros Hbok Hss HB Hx Hnd Hne Hroom Hcls Hd5 H56 Hpr Hrun Hq Hl Hend Hh Hk HM Hex.
  assert (Hslot := laid_slot _ _ _ _ _ _ _ _ _ _ _ HB).
  assert (Hd := laid_value _ _ _ _ _ _ _ _ _ _ _ HB).
  cbv zeta in Hex. set (σ1 := set_store σ (write_slot (store σ) slot v)) in *.
  assert (Hsv : store σ1 slot = v) by (simpl; unfold write_slot; by rewrite Z.eqb_refl).
  assert (Hexc : regs1 n = v) by (rewrite <- Hsv; by apply Hh).
  assert (Hss' : stmts_ok (pred fuel)) by (apply Hss; lia).
  simpl in Hroom.
  destruct (clauses_lead x slot n d prun p0 false rescues ph (d + 1) pe n5 (E pz :: hs) pd regs1 σ1 v)
    as (regs2 & pc & Hh2 & Hk2 & Hn2 & Hsel); [done|by intros ->|done| |lia|done|].
  { eapply context_ok_mono; [|exact Hx]. lia. }
  assert (Hkeep2 : keeps x n regs0 regs2).
  { intros y Hy Hhm Hlp. rewrite Hk2 by lia. by apply Hk. }
  destruct (select_clause (world σ1) v rescues) as [clause|].
  - destruct Hsel as (n1 & r & p2 & n2 & p3 & p4 & Hn1 & Hbody & Hmv & Hjp & Hneed).
    destruct (exec_stmts _ fuel _ clause _ σ1) as [os1|] eqn:Hc; [|done].
    assert (Hs : sim (in_clause x slot p0) n d p3 (E pz :: hs) pd pc regs2 (world σ1) os1).
    { eapply clause_moves; [by apply context_ok_clause|lia| |done| |exact Hmv];
        [exact (Z.lt_le_trans _ _ _ (Z.lt_succ_diag_r d) Hn1)|].
      eapply (body_sim fuel); [by apply Hss|exact Hbody|done| |simpl length; lia|exact Hc].
      apply context_ok_clause. eapply context_ok_mono; [|exact Hx]. lia. }
    apply sim_settle in Hs; [|done]. pose proof (settle_not_failed (fst os1) (snd os1)) as Hnf.
    rewrite <- surjective_pairing in Hnf.
    destruct Hs as (regs3 & Hh3 & Hk3 & Hp3 & Hv3 & Hn3). destruct (settle os1) as [o3 σ3].
    simpl fst in *. simpl snd in *.
    assert (Hkeep3 : keeps x n regs0 regs3) by (eapply keeps_trans; [|exact Hkeep2|exact Hk3]; lia).
    destruct (retried_cases o3) as [->|Hnr].
    + destruct (Hbok x slot body rescues otherwise ensure n p0 pz d q hs pd regs3 σ3 os)
        as (regs4 & Hh4 & Hk4 & Hp4 & Hv4 & Hn4); [done|done|done|done|done|].
      exists regs4. split; [done|]. split; [eapply keeps_trans; [|exact Hkeep3|exact Hk4]; lia|].
      split; [done|]. split; [done|]. apply HM, Hn2. eapply steps_leads; [exact Hn3|exact Hn4].
    + assert (Hex' : finish (exec_branch (serial a) fuel (x_current x) ensure) (o3, σ3) = Some os)
        by (by destruct o3).
      eapply (finish_sim fuel x n d q hs pd pz prun n6 pend n' ensure M regs0 regs3 o3 σ3);
        try done; try lia; [by destruct o3|]. apply HM, Hn2.
      rewrite clause_context in Hn3 by done.
      destruct (outcome_cases o3) as [[v3 ->]|Hno].
      * eapply steps_leads; [exact Hn3|]. eapply jump_continues; [exact Hjp|done|]. apply steps_refl.
      * by rewrite (complete_end _ _ prun p3).
  - eapply (finish_sim fuel x n d q hs pd pz prun n6 pend n' ensure M regs0 regs2);
      [done|done|lia|lia|done|lia|done|done|done|done| |exact Hkeep2| | | | |exact Hex]; try done.
    apply HM, Hn2. eapply at_ends; [exact Hsel|]. simpl execute.
    rewrite (Hk2 n), Hexc, Hsv by lia. done.
Qed.

(** PUSH_RESCUE as open_begin_frame emits it and close_begin_frame patches it:
    it catches everything when the block has rescue clauses, else nothing. *)
Lemma push_rescue_continues p d (rescues : clauses) ts t q regs hs pd w nx :
  at_ a p (PUSH_RESCUE d (match rescues with CNone => 128 | _ => 0 end) ts t) q ->
  t <= code_end -> Z.of_nat (length hs) < 16 ->
  leads a (frame q regs
    (rescue_handler t d [] (match rescues with CNone => false | _ => true end) :: hs) pd w) nx ->
  leads a (frame p regs hs pd w) nx.
Proof.
  intros Hat Ht Hlen Hn. eapply at_continues; [exact Hat| |exact Hn].
  assert (Hpush : forall h m, handler_target h = t -> handlers m = hs ->
    push_handler a h m q = Continues {| ip := q; registers := registers m;
      handlers := h :: handlers m; pending := pending m; heap := heap m |}).
  { intros h m Hh Hm. unfold push_handler. rewrite Hh, Hm.
    destruct (Z.eqb_spec (Z.of_nat (length hs)) 16); [lia|].
    by destruct (Z.ltb_spec code_end t); [lia|]. }
  destruct rescues; simpl; by rewrite Hpush.
Qed.

Lemma push_ensure_continues p t q regs hs pd w nx :
  at_ a p (PUSH_ENSURE t) q -> t <= code_end -> Z.of_nat (length hs) < 16 ->
  leads a (frame q regs (E t :: hs) pd w) nx -> leads a (frame p regs hs pd w) nx.
Proof.
  intros Hat Ht Hlen Hn. eapply at_continues; [exact Hat| |exact Hn].
  simpl. unfold push_handler. simpl.
  destruct (Z.eqb_spec (Z.of_nat (length hs)) 16); [lia|].
  by destruct (Z.ltb_spec code_end t); [lia|].
Qed.

Lemma begin_step fuel :
  (forall k, (k <= fuel)%nat -> stmts_ok k) -> begin_ok fuel -> begin_ok (S fuel).
Proof.
  intros Hss Hbok x slot body rescues otherwise ensure n p0 pz d q hs pd regs σ os HB Hh Hx Hroom Hex.
  pose proof HB as HB'. destruct HB' as [Hslot Hd (ts & ph & p1 & b & p2 & p3 & p4 & pe & n5 & prun
    & n6 & pend & n' & Hpr & Hbody & Hmv & Hpop & Hje & Hcls & Hopt & Hrun & Hens & Hend & Hph & Hpe
    & Hprun & Hq)].
  assert (Hnd := lay_body_next _ _ _ _ _ _ _ Hbody).
  assert (Hn5 := lay_clauses_next _ _ _ _ _ _ _ _ _ _ _ _ Hcls).
  assert (Hn6 := lay_clause_opt_next _ _ _ _ _ _ _ Hopt).
  assert (Hss' : stmts_ok (pred fuel)) by (apply Hss; lia).
  set (R := rescue_handler ph n [] (match rescues with CNone => false | _ => true end)).
  set (M := frame p0 regs (E pz :: hs) pd (world σ)).
  assert (Hroom' := Hroom). simpl need_stmt in Hroom'.
  assert (Hneed : 0 <= need_stmts body) by apply need_nonneg.
  assert (HM : forall nx, leads a (frame p1 regs (R :: E pz :: hs) pd (world σ)) nx -> leads a M nx).
  { intros nx. apply (push_rescue_continues _ _ rescues ts); [done|done|simpl length; lia]. }
  simpl in Hex. destruct (exec_stmts _ fuel _ body _ σ) as [os1|] eqn:Hb; [|done].
  assert (Hs : sim (in_begin x) (n + 1) b p2 (R :: E pz :: hs) pd p1 regs (world σ) os1).
  { eapply (body_sim fuel); [by apply Hss|exact Hbody|done| |simpl length; lia|exact Hb].
    apply context_ok_begin. eapply context_ok_mono; [|exact Hx]. lia. }
  apply sim_settle in Hs; [|done]. pose proof (settle_not_failed (fst os1) (snd os1)) as Hnf.
  rewrite <- surjective_pairing in Hnf.
  destruct Hs as (regs1 & Hh1 & Hk1 & Hp1 & Hv1 & Hn1). destruct (settle os1) as [o1 σ1].
  simpl fst in *. simpl snd in *. apply HM in Hn1.
  assert (Hkeep : keeps x n regs regs1) by (eapply keeps_trans; [|apply keeps_refl|exact Hk1]; lia).
  assert (Hother : unwinds x o1 \/ (exists dp, o1 = Crashed dp) -> (forall v, o1 <> Raised v) ->
    finish (exec_branch (serial a) fuel (x_current x) ensure) (o1, σ1) = Some os ->
    reaches x n d q hs pd M regs os).
  { intros Hu Hnr Hf.
    eapply (finish_sim fuel x n d q hs pd pz prun n6 pend n' ensure M regs regs1 o1 σ1);
      try done; try lia.
    - intros v ->. by destruct Hu as [[]|[? [=]]].
    - destruct Hu as [Hu|[dp ->]]; [|exact Hn1]. rewrite <- (complete_drops_rescue g a x n _ _ pz ph n []
        (match rescues with CNone => false | _ => true end)) by done.
      rewrite (complete_end _ _ _ p2); [exact Hn1|]. by intros v ->. }
  destruct o1 as [v|v|st|v|v t br| | | | |dp]; try (by destruct (Hnf st));
    try (apply Hother; [by left|done|exact Hex]);
    try (apply Hother; [left; simpl in Hp1 |- *; destruct (x_loop x) as [l|]; [by exists l|done]|done|exact Hex]).
  - (* the body ended normally *)
    eapply (begin_else fuel x n d q hs pd pz prun n5 n6 pe pend n' otherwise ensure M regs
      (write_register regs1 d (regs1 b)) v σ1); try done; try lia.
    + eapply holds_scratch; [exact Hx|lia|done|done].
    + by apply keeps_write; [lia|].
    + rewrite write_register_same. by apply Hv1.
    + intros nx Hnx. eapply steps_leads; [exact Hn1|].
      eapply move_continues; [exact Hmv|]. eapply at_continues; [exact Hpop|done|].
      eapply jump_continues; [exact Hje|done|exact Hnx].
  - (* it raised *)
    assert (Hr : rescues = CNone \/ rescues <> CNone) by (destruct rescues; (by left) || by right).
    destruct Hr as [Hno|Hne].
    + subst rescues.
      eapply (finish_sim fuel x n d q hs pd pz prun n6 pend n' ensure M regs regs1 (Raised v) σ1);
        try done; lia.
    + assert (Hen : R = rescue_handler ph n [] true) by (unfold R; by destruct rescues).
      rewrite Hen in Hn1.
      eapply (begin_rescue fuel x slot body rescues otherwise ensure n d q hs pd pz p0 ph pe prun n5 n6
        pend n' M regs (write_register regs1 n v) v σ1); try done; try lia.
      * destruct Hh1 as [Hrep Hres]. split; [by apply represents_slot|].
        intros l Hl. destruct (Hx l Hl) as (? & _). rewrite write_register_other by lia. by apply Hres.
      * apply keeps_write; [lia|done].
      * intros nx Hnx. eapply steps_leads; [exact Hn1|exact Hnx].
      * by destruct rescues.
  - apply Hother; [right; by exists dp|done|exact Hex].
Qed.

(** ** Statements *)

(** The NIL that starts a loop, and its value when it is over. *)
Lemma loop_sim fuel x c body n p p0 q l p3 hs pd regs σ os1 :
  top_ok fuel -> loop_laid x c body n p0 q l p3 -> at_ a p (NIL n) p0 ->
  holds x σ regs -> context_ok x n -> room hs (need_stmts body) ->
  exec_top (serial a) fuel (x_current x) c body (set_result σ DIAMOND_NIL) = Some os1 ->
  sim x n n q hs pd p regs (world σ) (fst os1, set_result (snd os1) (result σ)).
Proof.
  intros Ht HL Hat Hh Hx Hroom Hex. assert (Hn := laid_result _ _ _ _ _ _ _ _ HL).
  assert (Hl := laid_loop _ _ _ _ _ _ _ _ HL).
  set (regs0 := write_register regs n DIAMOND_NIL).
  assert (Hh0 : holds x σ regs0) by (eapply holds_scratch; [exact Hx|lia|done|done]).
  assert (Hover := proj1 (loop_over_exec fuel (x_current x) c body) _ _ Hex).
  destruct (Ht x c body n p0 q l p3 hs pd regs0 (set_result σ DIAMOND_NIL) os1)
    as (regs1 & Hh1 & Hk1 & Hp1 & Hv1 & Hn1); [done| |done|done|done|].
  { split; [apply Hh0|]. intros l' [= <-]. rewrite Hl. simpl. apply write_register_same. }
  destruct os1 as [o σ1]. simpl fst in *. simpl snd in *.
  assert (Hkeep : keeps x n regs regs1).
  { intros y Hy Hhm Hlp. rewrite (Hk1 y Hy Hhm).
    - apply write_register_other. lia.
    - intros l' [= <-]. rewrite Hl. simpl. lia. }
  exists regs1. split; [|split; [done|split; [|split; [done|]]]].
  - split; [apply Hh1|]. intros l' Hl'. destruct (Hx l' Hl') as (Hlt & [Hnh _] & _). simpl.
    rewrite (Hk1 (l_result l') Hlt Hnh).
    + unfold regs0. rewrite write_register_other by lia. by apply Hh.
    + intros l'' [= <-]. rewrite Hl. simpl. lia.
  - by destruct o.
  - eapply nil_continues; [exact Hat|]. by destruct o.
Qed.

Lemma sim_tail x n r q hs pd p p' regs w os :
  sim x n r p' hs pd p regs w os ->
  (forall regs' w', leads a (frame p' regs' hs pd w') (Continues (frame q regs' hs pd w'))) ->
  sim x n r q hs pd p regs w os.
Proof.
  intros (regs1 & Hh & Hk & Hp & Hv & Hn) Ht. exists regs1. split_and!; try done.
  destruct (outcome_cases (fst os)) as [[v Ho]|Ho].
  - rewrite Ho in *. eapply steps_leads; [exact Hn|apply Ht].
  - by rewrite (complete_end _ _ q p').
Qed.

Ltac loop_control :=
  match goal with
  | Hx : _ = Some ?os |- sim _ _ _ _ _ _ _ _ _ ?os => injection Hx as <-
  end;
  match goal with
  | Hl : x_loop ?x = Some ?l |- _ =>
      eapply sim_abrupt; [done|simpl; by rewrite Hl|done|apply keeps_refl|];
      by eapply loop_jump_leads
  end.

Lemma if_sim fuel x inverted c body otherwise p n cr p1 n1 br p2 d pf p3 t p4 n4 p5 q n' hs pd
    regs σ os :
  stmts_ok fuel -> branch_ok fuel ->
  expr_at g a c p n cr p1 n1 -> branch_at g a inverted cr p1 n1 br p2 d ->
  at_ a p2 (JUMP_IF_FALSE br pf) p3 -> pf <= code_end -> scratch g d ->
  lay_body g a x body p3 (d + 1) t p4 n4 -> at_ a p4 (MOVE d t) p5 -> at_ a p5 (JUMP q) pf ->
  q <= code_end -> lay_branch g a x d otherwise pf n4 q n' ->
  holds x σ regs -> context_ok x n -> room hs (Z.max (need_stmts body) (need_branch otherwise)) ->
  with_value (serial a) fuel c σ (fun v σ =>
    if xorb inverted (is_truthy v) then exec_stmts (serial a) fuel (x_current x) body DIAMOND_NIL σ
    else exec_branch (serial a) fuel (x_current x) otherwise σ) = Some os ->
  sim x n d q hs pd p regs (world σ) os.
Proof.
  intros Hss Hbr He Hb Hj Hpf Hd Hbody Hmv Hje Hq Hot Hh Hx Hroom Hex.
  pose proof (expr_at_next g a _ _ _ _ _ _ He). pose proof (branch_next _ _ _ _ _ _ _ Hb).
  pose proof (lay_body_next _ _ _ _ _ _ _ Hbody).
  eapply (with_value_sim g a n); [|exact He|done|done|exact Hex|]; [lia|].
  intros v σ1 regs1 Hk Hh1 Hv.
  destruct (branch_leads x inverted cr p1 n1 br p2 d pf p3 hs pd regs1 σ1 v)
    as (regs2 & Hh2 & Hk2 & Hn2); [done|done|done| |done|done|].
  { eapply context_ok_mono; [|exact Hx]. lia. }
  assert (Hxd : context_ok x d) by (eapply context_ok_mono; [|exact Hx]; lia).
  eapply (sim_prepend g a x n n); [lia|eapply keeps_trans; [|apply keeps_refl|exact Hk2]; lia
    |exact Hn2|].
  cbv beta in Hk. destruct (xorb inverted (is_truthy v)).
  - eapply sim_tail; [eapply (sim_move x n d (d + 1)); [|exact Hmv|done|done|lia|lia]|].
    + eapply (body_sim fuel); [done|exact Hbody|done| |lia|exact Hk].
      eapply context_ok_mono; [|exact Hxd]. lia.
    + intros regs' w'. eapply jump_continues; [exact Hje|done|apply steps_refl].
  - eapply (sim_weaken x n d); [lia|].
    eapply Hbr; [exact Hot|done|done|done|lia|lia|exact Hk].
Qed.

Lemma postfix_sim fuel x (inverted : bool) c body p n cr p1 n1 ps p2 r p3 n3 p4 q hs pd regs σ os :
  stmt_ok fuel ->
  expr_at g a c p (n + 1) cr p1 n1 -> scratch g n ->
  at_ a p1 (if inverted then JUMP_IF_TRUE cr ps else JUMP_IF_FALSE cr ps) p2 ->
  ps <= code_end -> lay_stmt g a x body p2 n1 r p3 n3 -> at_ a p3 (MOVE n r) p4 ->
  at_ a p4 (JUMP q) ps -> q <= code_end -> at_ a ps (NIL n) q ->
  holds x σ regs -> context_ok x n -> room hs (need_stmt body) ->
  with_value (serial a) fuel c σ (fun v σ =>
    if xorb inverted (is_truthy v) then exec_stmt (serial a) fuel (x_current x) body σ
    else Some (Normal DIAMOND_NIL, σ)) = Some os ->
  sim x n n q hs pd p regs (world σ) os.
Proof.
  intros Hs He Hd Hj Hps Hbody Hmv Hje Hq Hnil Hh Hx Hroom Hex.
  pose proof (expr_at_next g a _ _ _ _ _ _ He).
  assert (Hx1 : context_ok x (n + 1)) by (eapply context_ok_mono; [|exact Hx]; lia).
  eapply (with_value_sim g a n); [|exact He|done|done|exact Hex|]; [lia|].
  intros v σ1 regs1 Hk Hh1 Hv.
  eapply (sim_prepend g a x n n _ _ _ _ _ _ _ (if xorb inverted (is_truthy v) then p2 else ps));
    [lia|apply keeps_refl| |].
  { intros nx Hnx. destruct inverted; [eapply jump_if_true_continues|eapply jump_if_false_continues];
      [exact Hj|done| |exact Hj|done|]; rewrite Hv; by destruct (is_truthy v). }
  cbv beta in Hk. destruct (xorb inverted (is_truthy v)).
  - eapply sim_tail; [eapply (sim_move x n n n1); [|exact Hmv|done|done|lia|lia]|].
    + eapply Hs; [exact Hbody|done| |done|exact Hk]. eapply context_ok_mono; [|exact Hx]. lia.
    + intros regs' w'. eapply jump_continues; [exact Hje|done|apply steps_refl].
  - injection Hk as <-.
    eapply (sim_normal _ _ _ _ _ _ _ _ (write_register regs1 n DIAMOND_NIL));
      [|apply keeps_write; [lia|apply keeps_refl]|apply write_register_same|].
    + eapply holds_scratch; [exact Hx|lia|done|done].
    + eapply nil_continues; [exact Hnil|apply steps_refl].
Qed.

Lemma stmt_step fuel :
  (forall k, (k <= fuel)%nat -> stmts_ok k) -> stmt_ok fuel -> branch_ok fuel -> top_ok fuel ->
  begin_ok fuel -> stmt_ok (S fuel).
Proof.
  intros Hss Hs Hbr Ht Hbg x s p n r q n' hs pd regs σ os Hl Hh Hx Hroom Hex.
  destruct Hl; simpl in Hex, Hroom.
  - eapply (with_value_sim g a n); [|eassumption|done|done|exact Hex|]; [lia|].
    intros v σ1 regs1 [= <-] Hh1 Hv. eapply sim_normal; [done|apply keeps_refl|done|apply steps_refl].
  - injection Hex as <-. eapply sim_abrupt; [done|done|done|apply keeps_refl|].
    eapply at_ends; [eassumption|]. simpl. by rewrite (proj2 (proj1 Hh) n).
  - eapply (with_value_sim g a n); [|eassumption|done|done|exact Hex|]; [lia|].
    intros v σ1 regs1 [= <-] Hh1 Hv. eapply sim_abrupt; [done|done|done|apply keeps_refl|].
    eapply at_ends; [eassumption|]. simpl. by rewrite Hv.
  - eapply (with_value_sim g a n); [|eassumption|done|done|exact Hex|]; [lia|].
    intros v σ1 regs1 [= <-] Hh1 Hv. eapply sim_abrupt; [done|done|exact Hh1|apply keeps_refl|].
    eapply at_ends; [eassumption|]. simpl. by rewrite Hv.
  - match goal with Hc : x_current x = Some _ |- _ => rewrite Hc in Hex end.
    injection Hex as <-. eapply sim_abrupt; [done|done|exact Hh|apply keeps_refl|].
    eapply at_ends; [eassumption|]. simpl. by rewrite (proj1 (proj1 Hh) slot exc).
  - injection Hex as <-. match goal with Hc : x_retry x = Some _ |- _ => rename Hc into Hrt end.
    eapply sim_abrupt; [done|simpl; by rewrite Hrt|done|apply keeps_refl|].
    simpl. rewrite Hrt. eapply jump_continues; [eassumption|done|apply steps_refl].
  - loop_control.
  - match goal with Hc : x_loop x = Some _ |- _ => rename Hc into Hlp end.
    match goal with Hc : expr_at _ _ _ _ _ _ _ _ |- _ => rename Hc into He end.
    eapply (with_value_sim g a n); [|exact He|done|done|exact Hex|]; [lia|].
    intros v0 σ1 regs1 [= <-] Hh1 Hv. destruct (Hx l Hlp) as (Hlt & Hsc & Hdp).
    eapply (sim_abrupt _ _ _ _ _ _ _ _ (write_register regs1 (l_result l) v0));
      [done|simpl; by rewrite Hlp| | |].
    + split; [by apply represents_scratch; [|apply Hh1]|].
      intros l' Hl'. rewrite Hlp in Hl'. injection Hl' as <-. apply write_register_same.
    + intros y Hy Hhm Hne. apply write_register_other. by apply Hne.
    + eapply move_continues; [eassumption|]. rewrite Hv. by eapply loop_jump_leads.
  - loop_control.
  - loop_control.
  - eapply (if_sim fuel); try eassumption. by apply Hss.
  - eapply (postfix_sim fuel); eassumption.
  - destruct (exec_top _ fuel _ _ body _) as [[o1 σ1]|] eqn:Htop; [|done]. injection Hex as <-.
    eapply (loop_sim fuel x (Some (inverted, c)) body n p p0 q _ p3 _ _ _ _ (o1, σ1)); try done.
    split; try done. exists (n + 1), n2, r, p4, n'. split_and!; try done. lia.
  - destruct (exec_top _ fuel _ _ body _) as [[o1 σ1]|] eqn:Htop; [|done]. injection Hex as <-.
    eapply (loop_sim fuel x None body n p p0 q _ p0 _ _ _ _ (o1, σ1)); try done.
    split; try done. exists (n + 1), (n + 1), r, p4, n'. split_and!; try done. lia.
  - assert (HB : begin_laid x slot body rescues otherwise ensure n p0 pz d q).
    { split; [done|done|]. subst. by exists ts, ph, p1, b, p2, p3, p4, pe, n5, prun, n6, pend, n'. }
    destruct (Hbg x slot body rescues otherwise ensure n p0 pz d q hs pd regs σ os)
      as (regs' & ? & ? & ? & ? & Hn); [done|done|done|done|done|].
    assert (Hneed : 0 <= need_stmts body) by apply need_nonneg.
    exists regs'. split_and!; try done. eapply push_ensure_continues; [eassumption|done|lia|done].
Qed.

(** Laid-out code simulates the specification. *)
Lemma simulation fuel :
  stmt_ok fuel /\ stmts_ok fuel /\ branch_ok fuel /\ top_ok fuel /\ round_ok fuel /\ begin_ok fuel.
Proof.
  induction fuel as [fuel IH] using (well_founded_induction lt_wf).
  assert (Hss : forall k, (k < fuel)%nat -> stmts_ok k) by (intros k Hk; apply (IH k Hk)).
  destruct fuel as [|fuel].
  - split_and!; intro; intros; done.
  - destruct (IH fuel ltac:(lia)) as (Hs & Hst & Hb & Ht & Hr & Hbg).
    split_and!.
    + apply stmt_step; try done. intros k Hk. apply Hss. lia.
    + by apply stmts_step.
    + by apply branch_step.
    + by apply top_step.
    + by apply round_step.
    + apply begin_step; [|done]. intros k Hk. apply Hss. lia.
Qed.

End Correct.
