(* ===== verification/ControlEmit.v ===== *)
(** * ControlEmit: what the emission primitives leave in the code

    The bytes of the finished function, traced back through emission and
    patching: [keeps_code P c c'] says that everything emitted in [c] outside
    the offsets [P] is still there in [c'], [agrees C c lo hi H] that the
    finished code [C] has the bytes of [c] between [lo] and [hi] outside [H]
    (the operands still to be patched).  The second half is the same for
    registers: which are homes, which stay nil, which are scratch. *)

From S2P Require Import Prelude.
From S2P Require Import Value.
From S2P Require Import Unwind.
From S2P Require Import ControlMachine.
From S2P Require Import ControlFlow.
From S2P Require Import ControlCompile.
From S2P Require Import ControlLayout.
From Stdlib Require Import ZArith Lia Bool List.
From stdpp Require Import base numbers list.

Local Open Scope Z_scope.
Local Open Scope c_scope.

(** ** Bytes *)

Lemma byte_at_some code i b : byte_at code i = Some b -> 0 <= i < Z.of_nat (length code).
Proof.
  unfold byte_at. destruct (Z.ltb_spec i 0); [done|]. intros Hl.
  apply lookup_lt_Some in Hl. lia.
Qed.

Lemma byte_at_app_left l l' i :
  i < Z.of_nat (length l) -> byte_at (l ++ l') i = byte_at l i.
Proof.
  intros Hi. unfold byte_at. destruct (Z.ltb_spec i 0); [done|]. apply lookup_app_l. lia.
Qed.

Lemma byte_at_app_right l l' i :
  Z.of_nat (length l) <= i -> byte_at (l ++ l') i = byte_at l' (i - Z.of_nat (length l)).
Proof.
  intros Hi. unfold byte_at. destruct (Z.ltb_spec i 0), (Z.ltb_spec (i - Z.of_nat (length l)) 0);
    try lia.
  rewrite lookup_app_r by lia. f_equal. lia.
Qed.

Lemma byte_at_insert_other l o b i :
  0 <= o -> i <> o -> byte_at (<[Z.to_nat o := b]> l) i = byte_at l i.
Proof.
  intros Ho Hi. unfold byte_at. destruct (Z.ltb_spec i 0); [done|].
  apply list_lookup_insert_ne. lia.
Qed.

Lemma byte_at_insert_same l o b :
  0 <= o < Z.of_nat (length l) -> byte_at (<[Z.to_nat o := b]> l) o = Some b.
Proof.
  intros Ho. unfold byte_at. destruct (Z.ltb_spec o 0); [lia|].
  apply list_lookup_insert_eq. lia.
Qed.

(** Two bytes hold a 16-bit operand. *)
Lemma short_bytes z : 0 <= z < 65536 -> Z.lor (Z.shiftl (high_byte z) 8) (low_byte z) = z.
Proof.
  intros Hz. unfold high_byte, low_byte. apply Z.bits_inj'. intros n Hn.
  rewrite Z.lor_spec. change 255 with (Z.ones 8). rewrite Z.land_spec.
  destruct (Z.lt_ge_cases n 8) as [Hlt|Hge].
  - rewrite Z.shiftl_spec_low, Z.ones_spec_low by lia. by rewrite andb_true_r.
  - rewrite Z.shiftl_spec, Z.land_spec, Z.shiftr_spec by lia.
    rewrite (Z.ones_spec_high 8 n), andb_false_r, orb_false_r by lia.
    replace (n - 8 + 8) with n by lia.
    destruct (Z.lt_ge_cases (n - 8) 8) as [Hl|Hg].
    + rewrite Z.ones_spec_low by lia. by rewrite andb_true_r.
    + rewrite Z.ones_spec_high, andb_false_r by lia. symmetry.
      destruct (Z.eq_dec z 0) as [->|Hne]; [apply Z.bits_0|].
      apply Z.bits_above_log2; [lia|].
      assert (Z.log2 z < 16) by (apply Z.log2_lt_pow2; lia). lia.
Qed.

Lemma short_at_intro code p z :
  0 <= z < 65536 -> byte_at code p = Some (high_byte z) -> byte_at code (p + 1) = Some (low_byte z) ->
  short_at code p = Some z.
Proof. intros Hz H1 H2. unfold short_at. rewrite H1, H2. by rewrite short_bytes. Qed.

(** ** Emission as appending *)

Definition append (c : Compiler) (bytes : list Z) : Compiler :=
  set_emitted c (emitted c ++ bytes).

Definition patched (c : Compiler) (o t : Z) : Compiler :=
  set_emitted c (<[Z.to_nat (o + 1) := low_byte t]> (<[Z.to_nat o := high_byte t]> (emitted c))).

Lemma code_count_append c bs : code_count (append c bs) = code_count c + Z.of_nat (length bs).
Proof. unfold code_count, append. simpl. rewrite length_app. lia. Qed.

Lemma code_count_patched c o t : code_count (patched c o t) = code_count c.
Proof. unfold code_count, patched. simpl. by rewrite !length_insert. Qed.

Lemma append_app c bs bs' : append (append c bs) bs' = append c (bs ++ bs').
Proof. unfold append, set_emitted. simpl. by rewrite <- app_assoc. Qed.

Lemma append_nil c : append c [] = c.
Proof. unfold append, set_emitted. rewrite app_nil_r. by destruct c. Qed.

Lemma bind_inv {St A B} (m : VM St A) (f : A -> VM St B) s r :
  vm_bind m f s = Some r -> exists x s1, m s = Some (x, s1) /\ f x s1 = Some r.
Proof. unfold vm_bind. destruct (m s) as [[x s1]|]; [|done]. eauto. Qed.

Lemma ret_inv {St A} (x y : A) (s s' : St) : vm_ret x s = Some (y, s') -> y = x /\ s' = s.
Proof. unfold vm_ret. by intros [= <- <-]. Qed.

(** Opens a compilation [H : m c = Some r] step by step. *)
Ltac open_step H :=
  match type of H with
  | vm_bind _ _ _ = Some _ =>
      let x := fresh "x" in let c := fresh "c" in let H' := fresh "H" in
      apply bind_inv in H as (x & c & H' & H)
  end.

Lemma emit_byte_inv b c u c' :
  emit_byte b c = Some (u, c') -> c' = append c [b] /\ (code_count c <= 65535 -> code_count c' <= 65535).
Proof.
  unfold emit_byte. destruct (Z.eqb_spec (code_count c) DIAMOND_MAX_CODE) as [|Hne]; [done|].
  intros [= _ <-]. split; [done|]. fold (append c [b]). rewrite code_count_append.
  unfold DIAMOND_MAX_CODE in Hne. simpl. lia.
Qed.

Lemma emit_bytes_inv bs c u c' :
  emit_bytes bs c = Some (u, c') ->
  c' = append c bs /\ (code_count c <= 65535 -> code_count c' <= 65535).
Proof.
  revert c. induction bs as [|b bs IH]; simpl; intros c He.
  - apply ret_inv in He as [_ ->]. by rewrite append_nil.
  - apply bind_inv in He as (x & c1 & H1 & He).
    apply emit_byte_inv in H1 as [-> Hb1]. apply IH in He as [-> Hb2].
    rewrite append_app in *. split; [done|]. tauto.
Qed.

Lemma emit_register_bytes r c : emit_register r c = emit_bytes (register_bytes r) c.
Proof.
  unfold emit_register, register_bytes. simpl. unfold vm_bind, vm_ret.
  destruct (emit_byte _ c) as [[? c1]|]; [|done]. by destruct (emit_byte _ c1) as [[[] ?]|].
Qed.

Lemma emit_bytes_app bs bs' c :
  emit_bytes (bs ++ bs') c = vm_bind (emit_bytes bs) (fun _ => emit_bytes bs') c.
Proof.
  revert c. induction bs as [|b bs IH]; intros c; [done|]. simpl. unfold vm_bind.
  destruct (emit_byte b c) as [[? c1]|]; [|done]. rewrite IH. done.
Qed.

Definition operand_bytes (regs : list Z) : list Z := flat_map register_bytes regs.

Lemma emit_registers_bytes regs c : emit_registers regs c = emit_bytes (operand_bytes regs) c.
Proof.
  revert c. induction regs as [|r regs IH]; intros c; [done|].
  change (operand_bytes (r :: regs)) with (register_bytes r ++ operand_bytes regs).
  rewrite emit_bytes_app. simpl emit_registers.
  unfold vm_bind. rewrite emit_register_bytes. destruct (emit_bytes _ c) as [[? c1]|]; [|done].
  apply IH.
Qed.

Lemma emit_instruction_inv op regs c u c' :
  emit_instruction op regs c = Some (u, c') ->
  c' = append c (op :: operand_bytes regs) /\ (code_count c <= 65535 -> code_count c' <= 65535).
Proof.
  intros He. apply (emit_bytes_inv _ _ u). unfold emit_instruction, emit_opcode in He.
  simpl. unfold vm_bind in *. destruct (emit_byte op c) as [[? c1]|]; [|done].
  by rewrite <- emit_registers_bytes.
Qed.

(** ** Compilers that grow *)

Definition operand (o i : Z) : Prop := i = o \/ i = o + 1.
Definition operands (os : list Z) (i : Z) : Prop := exists o, o ∈ os /\ operand o i.

Record wf (c : Compiler) : Prop := {
  wf_count : code_count c <= 65535;
  wf_next : 0 <= next_register c <= 4096;
  wf_nils : forall r, r ∈ nils c -> 0 <= r < next_register c;
  wf_homes : forall k r, (k, r) ∈ homes c -> 0 <= r < next_register c;
  wf_slot : forall k r r', (k, r) ∈ homes c -> (k, r') ∈ homes c -> r = r';
  wf_register : forall k k' r, (k, r) ∈ homes c -> (k', r) ∈ homes c -> k = k';
  wf_disjoint : forall k r, (k, r) ∈ homes c -> r ∉ nils c;
  wf_locals : forall kr, kr ∈ locals c -> kr ∈ homes c;
}.

(** From [c] to [c'] the compiler only emits and allocates, and patches the
    operands [P] among what was there. *)
Record Goes (c c' : Compiler) (P : list Z) : Prop := {
  goes_count : code_count c <= code_count c';
  goes_next : next_register c <= next_register c';
  goes_code : forall i, i < code_count c -> ~ operands P i ->
    byte_at (emitted c') i = byte_at (emitted c) i;
  goes_nils : forall r, r < next_register c -> (r ∈ nils c' <-> r ∈ nils c);
  goes_homes : forall k r, r < next_register c -> ((k, r) ∈ homes c' <-> (k, r) ∈ homes c);
  goes_wf : wf c';
}.

Lemma goes_refl c : wf c -> Goes c c [].
Proof. by split. Qed.

Lemma operands_app os os' i : operands (os ++ os') i <-> operands os i \/ operands os' i.
Proof. unfold operands. setoid_rewrite elem_of_app. naive_solver. Qed.

Lemma goes_trans c1 c2 c3 P Q : Goes c1 c2 P -> Goes c2 c3 Q -> Goes c1 c3 (P ++ Q).
Proof.
  intros [A1 A2 A3 A4 A5 A6] [B1 B2 B3 B4 B5 B6]. split; [lia|lia| | | |done].
  - intros i Hi Hn. rewrite operands_app in Hn. rewrite B3 by (lia || tauto). apply A3; tauto.
  - intros r Hr. rewrite B4 by lia. by apply A4.
  - intros k r Hr. rewrite B5 by lia. by apply A5.
Qed.

(** Patches beyond [c]'s code are none of its own. *)
Lemma goes_drop c c' P Q :
  Goes c c' P -> (forall o, o ∈ P -> o ∈ Q \/ code_count c <= o) -> Goes c c' Q.
Proof.
  intros [A1 A2 A3 A4 A5 A6] Hd. split; try done. intros i Hi Hn. apply A3; [done|].
  intros (o & Ho & Hop). destruct (Hd o Ho) as [HQ|Hc]; [apply Hn; by exists o|].
  unfold operand in Hop. lia.
Qed.

Lemma goes_append c bs :
  wf c -> code_count (append c bs) <= 65535 -> Goes c (append c bs) [].
Proof.
  intros [W1 W2 W3 W4 W5 W6 W7 W8] Hc. split; try done.
  - rewrite code_count_append. lia.
  - intros i Hi _. by apply byte_at_app_left.
Qed.

Lemma goes_patched c o t : wf c -> 0 <= o -> Goes c (patched c o t) [o].
Proof.
  intros [W1 W2 W3 W4 W5 W6 W7 W8] Ho. split; try done.
  - rewrite code_count_patched. lia.
  - intros i Hi Hn. unfold patched. simpl.
    assert (~ operand o i) as Hn' by (intros ?; apply Hn; exists o; split; [by left|done]).
    unfold operand in Hn'. rewrite !byte_at_insert_other; [done|lia..].
  - split; try done. by rewrite code_count_patched.
Qed.

Lemma patched_short c o t :
  0 <= o -> o + 1 < code_count c -> 0 <= t < 65536 ->
  short_at (emitted (patched c o t)) o = Some t.
Proof.
  intros Ho Hlt Ht. unfold patched, code_count in *. simpl.
  apply short_at_intro; [done| |].
  - rewrite byte_at_insert_other by lia. apply byte_at_insert_same. lia.
  - apply byte_at_insert_same. rewrite length_insert. lia.
Qed.

(** ** Instructions in the finished code *)

Section Decode.
  Context `{HO : Host}.
  Variable a : Activation.
  Notation C := (code a).

Lemma at_intro p i q : decode C p = Some (i, q) -> at_ a p i q.
Proof.
  intros Hd. split; [done|]. unfold decode in Hd.
  destruct (byte_at C p) as [b|] eqn:Hb; [|done]. apply byte_at_some in Hb. lia.
Qed.

Lemma at_nil p d : byte_at C p = Some DIAMOND_OP_NIL -> short_at C (p + 1) = Some d ->
  at_ a p (NIL d) (p + 3).
Proof.
  intros Hb Hd. apply at_intro. unfold decode. rewrite Hb. simpl. rewrite Hd. do 2 f_equal. lia.
Qed.

Lemma at_move p d s : byte_at C p = Some DIAMOND_OP_MOVE -> short_at C (p + 1) = Some d ->
  short_at C (p + 3) = Some s -> at_ a p (MOVE d s) (p + 5).
Proof.
  intros Hb Hd Hs. apply at_intro. unfold decode. rewrite Hb. simpl. rewrite Hd.
  replace (p + 1 + 2) with (p + 3) by lia. rewrite Hs. do 2 f_equal. lia.
Qed.

Lemma at_not p d s : byte_at C p = Some DIAMOND_OP_NOT -> short_at C (p + 1) = Some d ->
  short_at C (p + 3) = Some s -> at_ a p (NOT d s) (p + 5).
Proof.
  intros Hb Hd Hs. apply at_intro. unfold decode. rewrite Hb. simpl. rewrite Hd.
  replace (p + 1 + 2) with (p + 3) by lia. rewrite Hs. do 2 f_equal. lia.
Qed.

Lemma at_jump p t : byte_at C p = Some DIAMOND_OP_JUMP -> short_at C (p + 1) = Some t ->
  at_ a p (JUMP t) (p + 3).
Proof.
  intros Hb Hd. apply at_intro. unfold decode. rewrite Hb. simpl. rewrite Hd. do 2 f_equal. lia.
Qed.

Lemma at_jump_if_false p c t :
  byte_at C p = Some DIAMOND_OP_JUMP_IF_FALSE -> short_at C (p + 1) = Some c ->
  short_at C (p + 3) = Some t -> at_ a p (JUMP_IF_FALSE c t) (p + 5).
Proof.
  intros Hb Hd Hs. apply at_intro. unfold decode. rewrite Hb. simpl. rewrite Hd.
  replace (p + 1 + 2) with (p + 3) by lia. rewrite Hs. do 2 f_equal. lia.
Qed.

Lemma at_jump_if_true p c t :
  byte_at C p = Some DIAMOND_OP_JUMP_IF_TRUE -> short_at C (p + 1) = Some c ->
  short_at C (p + 3) = Some t -> at_ a p (JUMP_IF_TRUE c t) (p + 5).
Proof.
  intros Hb Hd Hs. apply at_intro. unfold decode. rewrite Hb. simpl. rewrite Hd.
  replace (p + 1 + 2) with (p + 3) by lia. rewrite Hs. do 2 f_equal. lia.
Qed.

Lemma at_return p s : byte_at C p = Some DIAMOND_OP_RETURN -> short_at C (p + 1) = Some s ->
  at_ a p (RETURN s) (p + 3).
Proof.
  intros Hb Hd. apply at_intro. unfold decode. rewrite Hb. simpl. rewrite Hd. do 2 f_equal. lia.
Qed.

Lemma at_raise p s : byte_at C p = Some DIAMOND_OP_RAISE -> short_at C (p + 1) = Some s ->
  at_ a p (RAISE s) (p + 3).
Proof.
  intros Hb Hd. apply at_intro. unfold decode. rewrite Hb. simpl. rewrite Hd. do 2 f_equal. lia.
Qed.

Lemma at_pop_rescue p : byte_at C p = Some DIAMOND_OP_POP_RESCUE -> at_ a p POP_RESCUE (p + 1).
Proof. intros Hb. apply at_intro. unfold decode. by rewrite Hb. Qed.

Lemma at_end_ensure p : byte_at C p = Some DIAMOND_OP_END_ENSURE -> at_ a p END_ENSURE (p + 1).
Proof. intros Hb. apply at_intro. unfold decode. by rewrite Hb. Qed.

Lemma at_push_ensure p t : byte_at C p = Some DIAMOND_OP_PUSH_ENSURE ->
  short_at C (p + 1) = Some t -> at_ a p (PUSH_ENSURE t) (p + 3).
Proof.
  intros Hb Hd. apply at_intro. unfold decode. rewrite Hb. simpl. rewrite Hd. do 2 f_equal. lia.
Qed.

Lemma at_run_ensure p t : byte_at C p = Some DIAMOND_OP_RUN_ENSURE ->
  short_at C (p + 1) = Some t -> at_ a p (RUN_ENSURE t) (p + 3).
Proof.
  intros Hb Hd. apply at_intro. unfold decode. rewrite Hb. simpl. rewrite Hd. do 2 f_equal. lia.
Qed.

Lemma at_is_type p d s t : byte_at C p = Some DIAMOND_OP_IS_TYPE -> short_at C (p + 1) = Some d ->
  short_at C (p + 3) = Some s -> short_at C (p + 5) = Some t -> at_ a p (IS_TYPE d s t) (p + 7).
Proof.
  intros Hb Hd Hs Ht. apply at_intro. unfold decode. rewrite Hb. simpl. rewrite Hd.
  replace (p + 1 + 2) with (p + 3) by lia. rewrite Hs.
  replace (p + 1 + 4) with (p + 5) by lia. rewrite Ht. do 2 f_equal. lia.
Qed.

Lemma at_unwind_jump p l t : byte_at C p = Some DIAMOND_OP_UNWIND_JUMP ->
  byte_at C (p + 1) = Some l -> short_at C (p + 2) = Some t -> at_ a p (UNWIND_JUMP l t) (p + 4).
Proof.
  intros Hb Hd Hs. apply at_intro. unfold decode. rewrite Hb. simpl. rewrite Hd.
  replace (p + 1 + 1) with (p + 2) by lia. rewrite Hs. do 2 f_equal. lia.
Qed.

Lemma at_push_rescue p d n ts t : byte_at C p = Some DIAMOND_OP_PUSH_RESCUE ->
  short_at C (p + 1) = Some d -> byte_at C (p + 3) = Some n -> bytes_at C (p + 4) 8 = Some ts ->
  short_at C (p + 12) = Some t -> at_ a p (PUSH_RESCUE d n ts t) (p + 14).
Proof.
  intros Hb Hd Hn Hs Ht. apply at_intro. unfold decode. rewrite Hb.
  change (DIAMOND_OP_PUSH_RESCUE =? DIAMOND_OP_PUSH_RESCUE) with true.
  cbv match beta zeta. simpl Z.eqb. cbv match. rewrite Hd.
  replace (p + 1 + 2) with (p + 3) by lia. rewrite Hn.
  replace (p + 1 + 3) with (p + 4) by lia. rewrite Hs.
  replace (p + 1 + 11) with (p + 12) by lia. rewrite Ht. do 2 f_equal. lia.
Qed.

End Decode.
