(* ===== verification/ControlTrace.v ===== *)
(** * ControlTrace: reading the finished bytecode back through the compilation

    [final c H] says that the finished bytecode and register plan of a
    function extend those of the compiler state [c], operands in [H] excepted
    (they are patched later).  A step of the compiler is a [Goes]; [final]
    travels backwards over it, so that every instruction emitted anywhere is
    found again in the finished code with the operand it finally has. *)

From S2P Require Import Prelude.
From S2P Require Import Value.
From S2P Require Import Unwind.
From S2P Require Import ControlMachine.
From S2P Require Import ControlFlow.
From S2P Require Import ControlCompile.
From S2P Require Import ControlLayout.
From S2P Require Import ControlEmit.
From Stdlib Require Import ZArith Lia Bool List.
From stdpp Require Import base numbers list.

Local Open Scope Z_scope.
Local Open Scope c_scope.

(** ** Contexts *)

Definition more_breaks (nb : list Z) (l : LoopContext) : LoopContext :=
  {| loop_begin_depth := loop_begin_depth l; continue_target := continue_target l;
     redo_target := redo_target l; result_register := result_register l;
     breaks := breaks l ++ nb |}.

(** The compiler is where it was, with [nb] more breaks to patch. *)
Record same_context (c c' : Compiler) (nb : list Z) : Prop := {
  same_depth : begin_depth c' = begin_depth c;
  same_function : in_function c' = in_function c;
  same_exception : current_exception c' = current_exception c;
  same_retry : current_retry_target c' = current_retry_target c;
  same_loop : current_loop c' = option_map (more_breaks nb) (current_loop c);
}.

Lemma more_breaks_nil l : more_breaks [] l = l.
Proof. unfold more_breaks. rewrite app_nil_r. by destruct l. Qed.

Lemma more_breaks_app nb nb' l : more_breaks nb' (more_breaks nb l) = more_breaks (nb ++ nb') l.
Proof. unfold more_breaks. simpl. by rewrite app_assoc. Qed.

Lemma same_context_trans c1 c2 c3 nb nb' :
  same_context c1 c2 nb -> same_context c2 c3 nb' -> same_context c1 c3 (nb ++ nb').
Proof.
  intros [A1 A2 A3 A4 A5] [B1 B2 B3 B4 B5]. split; [congruence..|].
  rewrite B5, A5. destruct (current_loop c1) as [l|]; [|done]. simpl. by rewrite more_breaks_app.
Qed.

Lemma same_context_eq c c' :
  begin_depth c' = begin_depth c -> in_function c' = in_function c ->
  current_exception c' = current_exception c ->
  current_retry_target c' = current_retry_target c -> current_loop c' = current_loop c ->
  same_context c c' [].
Proof.
  intros. split; try done. destruct (current_loop c) as [l|]; [|done].
  simpl. by rewrite more_breaks_nil.
Qed.

(** ** Allocation *)

Lemma allocate_inv c r c' :
  allocate_register c = Some (r, c') ->
  r = next_register c /\ c' = set_next_register c (next_register c + 1) /\ next_register c < 4096.
Proof.
  unfold allocate_register, DIAMOND_REGISTER_COUNT.
  destruct (Z.leb_spec 4096 (next_register c)); [done|]. by intros [= <- <-].
Qed.

Lemma allocate_goes c r c' :
  allocate_register c = Some (r, c') -> wf c ->
  Goes c c' [] /\ same_context c c' [] /\ code_count c' = code_count c /\
  r = next_register c /\ next_register c' = next_register c + 1 /\ 0 <= r < 4096 /\
  nils c' = nils c /\ homes c' = homes c.
Proof.
  intros Ha [W1 W2 W3 W4 W5 W6 W7 W8]. apply allocate_inv in Ha as (-> & -> & Hlt).
  split_and!; try done; try lia; [|by apply same_context_eq].
  split; simpl; try done; [lia|].
  split; simpl; try done; [lia| |].
  - intros r Hr. apply W3 in Hr. lia.
  - intros k r Hr. apply W4 in Hr. lia.
Qed.

Lemma nil_register_goes c r c' :
  nil_register c = Some (r, c') -> wf c ->
  Goes c c' [] /\ same_context c c' [] /\ code_count c' = code_count c /\
  r = next_register c /\ next_register c' = next_register c + 1 /\ 0 <= r < 4096 /\
  r ∈ nils c'.
Proof.
  intros Hn HW. unfold nil_register in Hn. open_step Hn. open_step Hn.
  apply ret_inv in Hn as [-> ->]. unfold modify in H0. injection H0 as <- <-.
  assert (HW' := HW). destruct HW' as [W1 W2 W3 W4 W5 W6 W7 W8].
  apply allocate_inv in H as (-> & -> & Hlt). simpl.
  split_and!; try done; try lia; [|by apply same_context_eq|by left].
  split; simpl; try done; [lia| |].
  - intros r Hr. rewrite elem_of_cons. split; [intros [->|?]; [lia|done]|by right].
  - split; simpl; try done; [lia| | |].
    + intros r [->|Hr]%elem_of_cons; [lia|]. apply W3 in Hr. lia.
    + intros k r Hr. apply W4 in Hr. lia.
    + intros k r Hr. rewrite elem_of_cons. intros [->|Hn]; [apply W4 in Hr; lia|].
      by apply (W7 k r).
Qed.

(** ** Instructions *)

Definition Emits (c c' : Compiler) (op : Z) (regs : list Z) : Prop :=
  c' = append c (op :: operand_bytes regs).

Lemma length_operand_bytes regs : Z.of_nat (length (operand_bytes regs)) = 2 * Z.of_nat (length regs).
Proof. induction regs as [|r regs IH]; [done|]. simpl length. lia. Qed.

Lemma emits_goes c c' op regs :
  Emits c c' op regs -> code_count c' <= 65535 -> wf c ->
  Goes c c' [] /\ same_context c c' [] /\ next_register c' = next_register c /\
  code_count c' = code_count c + 1 + 2 * Z.of_nat (length regs).
Proof.
  intros -> Hc HW. split_and!; try done.
  - by apply goes_append.
  - by apply same_context_eq.
  - rewrite code_count_append. simpl length. rewrite Nat2Z.inj_succ, length_operand_bytes. lia.
Qed.

Lemma instruction_emits op regs c u c' :
  emit_instruction op regs c = Some (u, c') -> wf c ->
  Emits c c' op regs /\ Goes c c' [] /\ same_context c c' [] /\
  next_register c' = next_register c /\ code_count c' = code_count c + 1 + 2 * Z.of_nat (length regs).
Proof.
  intros He HW. apply emit_instruction_inv in He as [He Hc].
  assert (HE : Emits c c' op regs) by done. split; [done|].
  eapply emits_goes; [done|apply Hc, HW|done].
Qed.

Lemma emit_two op1 op2 c u c' :
  (let! _ := emit_byte op1 in emit_byte op2) c = Some (u, c') -> emit_bytes [op1; op2] c = Some (tt, c').
Proof.
  intros He. open_step He. simpl. unfold vm_bind. rewrite H. rewrite He. by destruct u.
Qed.

(** The instruction whose last operand is still open. *)
Lemma jump_emits op cond c o c' :
  emit_jump op cond c = Some (o, c') -> wf c ->
  let regs := if (op =? DIAMOND_OP_JUMP_IF_FALSE) || (op =? DIAMOND_OP_JUMP_IF_TRUE)
              then [cond; 0] else [0] in
  Emits c c' op regs /\ Goes c c' [] /\ same_context c c' [] /\
  next_register c' = next_register c /\
  code_count c' = code_count c + 1 + 2 * Z.of_nat (length regs) /\ o = code_count c' - 2.
Proof.
  intros He HW regs. unfold emit_jump, emit_opcode in He.
  apply bind_inv in He as (? & ? & H & He). apply emit_byte_inv in H as [-> Hb1].
  apply bind_inv in He as (? & c1 & H & He).
  apply bind_inv in He as (? & ? & [= <- <-] & He).
  apply bind_inv in He as (? & ? & H0 & He). apply bind_inv in He as (? & ? & H1 & He).
  apply ret_inv in He as [-> ->].
  apply emit_byte_inv in H0 as [-> Hb3]. apply emit_byte_inv in H1 as [-> Hb4].
  assert (Hc1 : c1 = append (append c [op]) (operand_bytes (removelast regs)) /\
                (code_count (append c [op]) <= 65535 -> code_count c1 <= 65535)).
  { unfold regs. destruct (_ || _).
    - rewrite emit_register_bytes in H. by apply emit_bytes_inv in H.
    - apply ret_inv in H as [_ ->]. simpl. by rewrite append_nil. }
  destruct Hc1 as [-> Hb2]. rewrite !append_app, <- ?app_assoc in *.
  assert (HE : Emits c (append c ([op] ++ operand_bytes (removelast regs) ++ [0] ++ [0])) op regs).
  { unfold Emits, regs. by destruct (_ || _). }
  split; [exact HE|].
  edestruct emits_goes as (HG & HS & HN & HC); [exact HE| |done|].
  { apply Hb4, Hb3, Hb2, Hb1, HW. }
  split_and!; try done.
  rewrite !code_count_append, !length_app. simpl length. clear. lia.
Qed.

Lemma absolute_jump_emits t c u c' :
  emit_absolute_jump t c = Some (u, c') -> wf c ->
  t <= 65535 /\ Emits c c' DIAMOND_OP_JUMP [t] /\ Goes c c' [] /\ same_context c c' [] /\
  next_register c' = next_register c /\ code_count c' = code_count c + 3.
Proof.
  unfold emit_absolute_jump. destruct (Z.ltb_spec 65535 t); [done|]. intros He HW. split; [lia|].
  open_step He. apply emit_byte_inv in H0 as [-> Hb1].
  apply emit_two, emit_bytes_inv in He as [-> Hb2]. rewrite append_app in *.
  assert (HE : Emits c (append c ([DIAMOND_OP_JUMP] ++ [high_byte t; low_byte t])) DIAMOND_OP_JUMP [t])
    by done.
  split; [done|]. edestruct emits_goes as (HG & HS & HN & HC); [exact HE|apply Hb2, Hb1, HW|done|].
  split_and!; try done. rewrite HC. simpl. clear. lia.
Qed.

(** ** Patching *)

Lemma patch_inv o t c u c' :
  patch_jump o t c = Some (u, c') -> t <= 65535 /\ c' = patched c o t.
Proof.
  unfold patch_jump. destruct (Z.ltb_spec 65535 t); [done|]. intros Hp. split; [done|].
  open_step Hp. unfold patch_byte, modify in *. injection H0 as <- <-. injection Hp as <- <-. done.
Qed.

Lemma patch_goes o t c u c' :
  patch_jump o t c = Some (u, c') -> wf c -> 0 <= o ->
  c' = patched c o t /\ t <= 65535 /\ Goes c c' [o] /\ same_context c c' [] /\
  next_register c' = next_register c /\ code_count c' = code_count c.
Proof.
  intros Hp HW Ho. apply patch_inv in Hp as [Ht ->].
  split_and!; try done; [by apply goes_patched|by apply same_context_eq|apply code_count_patched].
Qed.

Lemma patch_here_goes o c u c' :
  patch_here o c = Some (u, c') -> wf c -> 0 <= o ->
  c' = patched c o (code_count c) /\ Goes c c' [o] /\ same_context c c' [] /\
  next_register c' = next_register c /\ code_count c' = code_count c.
Proof.
  intros Hp HW Ho. unfold patch_here, vm_bind, get_compiler in Hp.
  by apply patch_goes in Hp as (-> & _ & Hp).
Qed.

(** ** Expressions *)

Definition set_homes (c : Compiler) (hs : list (Z * Z)) : Compiler :=
  {| emitted := emitted c; next_register := next_register c; locals := locals c;
     begin_depth := begin_depth c; in_function := in_function c;
     current_exception := current_exception c;
     current_retry_target := current_retry_target c; current_loop := current_loop c;
     nils := nils c; homes := hs |}.

Lemma existsb_slot hs k :
  existsb (fun h : Z * Z => fst h =? k) hs = false -> forall r, (k, r) ∉ hs.
Proof.
  intros He r Hin. apply not_true_iff_false in He. apply He, existsb_exists. exists (k, r).
  split; [by apply list_elem_of_In|]. simpl. apply Z.eqb_refl.
Qed.

Lemma elem_of_rev_app (kr : Z * Z) hs hs' : kr ∈ rev hs ++ hs' <-> kr ∈ hs \/ kr ∈ hs'.
Proof. by rewrite elem_of_app, !list_elem_of_In, <- in_rev. Qed.

Lemma nodup_snd (hs : list (Z * Z)) k k' r :
  NoDup (map snd hs) -> (k, r) ∈ hs -> (k', r) ∈ hs -> k = k'.
Proof.
  induction hs as [|[k0 r0] hs IH]; simpl; [by intros _ []%elem_of_nil|].
  intros [Hn Hd]%NoDup_cons.
  assert (Hr : forall k, (k, r0) ∉ hs).
  { intros k1 Hk1. apply Hn, list_elem_of_fmap. by exists (k1, r0). }
  intros [[= -> ->]|H1]%elem_of_cons [[= ->]|H2]%elem_of_cons; try done; subst.
  - by destruct (Hr k').
  - by destruct (Hr k).
  - by apply IH.
Qed.

Lemma note_homes_inv hs c u c' :
  note_homes hs c = Some (u, c') ->
  c' = set_homes c (rev hs ++ homes c) /\
  (forall k r r', (k, r) ∈ hs -> (k, r') ∈ hs -> r = r') /\
  (forall k r r', (k, r) ∈ hs -> (k, r') ∉ homes c).
Proof.
  revert c. induction hs as [|[k r] hs IH]; simpl; intros c Hn.
  - apply ret_inv in Hn as [_ ->]. split_and!; [by destruct c|by intros ??? []%elem_of_nil..].
  - apply bind_inv in Hn as (? & ? & [= <- <-] & Hn).
    destruct (existsb _ (homes c)) eqn:He; [done|].
    assert (Hk := existsb_slot _ _ He).
    apply bind_inv in Hn as (? & ? & [= <- <-] & Hn).
    apply IH in Hn as (-> & Hs & Hd). simpl in Hd. split_and!.
    + unfold set_homes. simpl. by rewrite <- app_assoc.
    + intros k' r1 r2 [[= -> ->]|H1]%elem_of_cons [[= ->]|H2]%elem_of_cons; try done; subst.
      * destruct (Hd _ _ r H2). by left.
      * destruct (Hd _ _ r H1). by left.
      * by eapply Hs.
    + intros k' r1 r2 [[= -> ->]|H1]%elem_of_cons; [apply Hk|].
      intros Hin. apply (Hd _ _ r2 H1). by right.
Qed.

Section Trace.
  Context `{HO : Host} {EX : Expressions} {OK : ExpressionsOk}.
  Variable g : Ghost.
  Variable a : Activation.
  (** the function has at most 256 registers *)
  Variable few : bool.
  Notation C := (code a).
  Notation code_end := (Z.of_nat (length (code a))).

Record final (c : Compiler) (H : list Z) : Prop := {
  final_end : code_count c <= code_end;
  final_code : forall i, i < code_count c -> ~ operands H i -> byte_at C i = byte_at (emitted c) i;
  final_nils : forall r, r < next_register c -> (r ∈ gnils g <-> r ∈ nils c);
  final_homes : forall k r, r < next_register c -> ((k, r) ∈ ghomes g <-> (k, r) ∈ homes c);
  final_few : few = true -> next_register c <= 256;
}.

Lemma final_back c c' P H : Goes c c' P -> final c' H -> final c (P ++ H).
Proof.
  intros [A1 A2 A3 A4 A5 A6] [B1 B2 B3 B4 B5]. split.
  - lia.
  - intros i Hi Hn. rewrite operands_app in Hn. rewrite B2 by (lia || tauto). apply A3; tauto.
  - intros r Hr. rewrite B3 by lia. by apply A4.
  - intros k r Hr. rewrite B4 by lia. by apply A5.
  - intros Hf. specialize (B5 Hf). lia.
Qed.

Definition avoids (H : list Z) (lo hi : Z) : Prop := forall o, o ∈ H -> o + 1 < lo \/ hi <= o.

Lemma avoids_operands H lo hi i : avoids H lo hi -> lo <= i < hi -> ~ operands H i.
Proof. intros Ha Hi (o & Ho & Hop). apply Ha in Ho. unfold operand in Hop. lia. Qed.

Lemma avoids_mono H lo hi lo' hi' : avoids H lo hi -> lo <= lo' -> hi' <= hi -> avoids H lo' hi'.
Proof. intros Ha Hlo Hhi o Ho. apply Ha in Ho. lia. Qed.

Lemma final_byte c bs H i b :
  final (append c bs) H -> avoids H (code_count c + i) (code_count c + i + 1) -> 0 <= i ->
  byte_at bs i = Some b -> byte_at C (code_count c + i) = Some b.
Proof.
  intros HF Ha Hi Hb. assert (Hl := byte_at_some _ _ _ Hb).
  rewrite (final_code _ _ HF).
  - unfold append. simpl. rewrite byte_at_app_right by (unfold code_count; lia).
    rewrite <- Hb. f_equal. unfold code_count. lia.
  - rewrite code_count_append. lia.
  - eapply avoids_operands; [exact Ha|lia].
Qed.

Lemma final_patched c o t H :
  final (patched c o t) H -> avoids H o (o + 2) -> 0 <= o -> o + 1 < code_count c ->
  0 <= t <= 65535 -> short_at C o = Some t.
Proof.
  intros HF Ha Ho Hc Ht. assert (Hs := patched_short c o t Ho Hc ltac:(lia)).
  unfold short_at in *. rewrite !(final_code _ _ HF); [done|..];
    rewrite ?code_count_patched; try lia; (eapply avoids_operands; [exact Ha|lia]).
Qed.

(** An allocated register that is neither noted nil nor a home is scratch. *)
Lemma allocated_scratch c r c' H :
  allocate_register c = Some (r, c') -> wf c -> final c' H -> scratch g r.
Proof.
  intros Ha HW HF. apply allocate_goes in Ha as (_ & _ & _ & -> & Hn & _ & Hnil & Hhom); [|done].
  split.
  - intros [k Hk]. apply (final_homes _ _ HF) in Hk; [|lia]. rewrite Hhom in Hk.
    apply (wf_homes _ HW) in Hk. lia.
  - intros Hk. apply (final_nils _ _ HF) in Hk; [|lia]. rewrite Hnil in Hk.
    apply (wf_nils _ HW) in Hk. lia.
Qed.

(** ** Instructions found again *)

Lemma emits_opcode c c' op regs H :
  Emits c c' op regs -> final c' H -> avoids H (code_count c) (code_count c + 1) ->
  byte_at C (code_count c) = Some op.
Proof.
  intros -> HF Ha. replace (code_count c) with (code_count c + 0) by lia.
  eapply final_byte; [exact HF| |lia|done]. by rewrite Z.add_0_r.
Qed.

Lemma operand_bytes_at regs i r :
  regs !! i = Some r ->
  byte_at (operand_bytes regs) (2 * Z.of_nat i) = Some (high_byte r) /\
  byte_at (operand_bytes regs) (2 * Z.of_nat i + 1) = Some (low_byte r).
Proof.
  revert i. induction regs as [|r' regs IH]; intros [|i] Hr; try done; simpl in Hr.
  - by injection Hr as ->.
  - apply IH in Hr as [H1 H2].
    change (operand_bytes (r' :: regs)) with (register_bytes r' ++ operand_bytes regs).
    rewrite !byte_at_app_right by (simpl; lia). simpl length.
    replace (2 * Z.of_nat (S i) - Z.of_nat 2) with (2 * Z.of_nat i) by lia.
    replace (2 * Z.of_nat (S i) + 1 - Z.of_nat 2) with (2 * Z.of_nat i + 1) by lia. done.
Qed.

Lemma emits_operand (i : nat) r p c c' op regs H :
  Emits c c' op regs -> final c' H -> regs !! i = Some r -> p = code_count c + 1 + 2 * Z.of_nat i ->
  avoids H p (p + 2) -> 0 <= r < 65536 -> short_at C p = Some r.
Proof.
  intros -> HF Hr -> Ha Hb. apply operand_bytes_at in Hr as [H1 H2].
  apply short_at_intro; [done| |].
  - rewrite <- Z.add_assoc. eapply final_byte; [exact HF| |lia|].
    + eapply avoids_mono; [exact Ha|lia..].
    + rewrite (byte_at_app_right [op] (operand_bytes regs)) by (simpl; lia). rewrite <- H1.
      f_equal. simpl. lia.
  - rewrite <- !Z.add_assoc. eapply final_byte; [exact HF| |lia|].
    + eapply avoids_mono; [exact Ha|lia..].
    + rewrite (byte_at_app_right [op] (operand_bytes regs)) by (simpl; lia). rewrite <- H2.
      f_equal. simpl. lia.
Qed.

Lemma emits_count c c' op regs :
  Emits c c' op regs -> code_count c' = code_count c + 1 + 2 * Z.of_nat (length regs).
Proof.
  intros ->. rewrite code_count_append. simpl length. rewrite Nat2Z.inj_succ, length_operand_bytes. lia.
Qed.

Ltac laid He HF Ha :=
  let HC := fresh "HC" in
  assert (HC := emits_count _ _ _ _ He); simpl length in HC;
  rewrite HC in Ha;
  first [ eapply emits_opcode; [exact He|exact HF|eapply avoids_mono; [exact Ha|lia..]]
        | eapply (emits_operand 0%nat); [exact He|exact HF|reflexivity|lia
                                       |eapply avoids_mono; [exact Ha|lia..]|done]
        | eapply (emits_operand 1%nat); [exact He|exact HF|reflexivity|lia
                                       |eapply avoids_mono; [exact Ha|lia..]|done]
        | eapply (emits_operand 2%nat); [exact He|exact HF|reflexivity|lia
                                       |eapply avoids_mono; [exact Ha|lia..]|done] ].

Lemma at_eq p i q q' : at_ a p i q -> q' = q -> at_ a p i q'.
Proof. by intros ? ->. Qed.

Ltac laid_by L He HF Ha :=
  eapply at_eq; [apply L; laid He HF Ha | rewrite (emits_count _ _ _ _ He); simpl; lia].

Ltac laid_to L He HF Ha Ht :=
  let HC := fresh "HC" in
  assert (HC := emits_count _ _ _ _ He); simpl in HC;
  eapply at_eq; [apply L; first [laid He HF Ha | rewrite <- Ht; f_equal; lia] | lia].

Lemma laid_nil c c' d H :
  Emits c c' DIAMOND_OP_NIL [d] -> final c' H -> avoids H (code_count c) (code_count c') ->
  0 <= d < 65536 -> at_ a (code_count c) (NIL d) (code_count c').
Proof.
  intros He HF Ha Hd. laid_by at_nil He HF Ha.
Qed.

Lemma laid_move c c' d s H :
  Emits c c' DIAMOND_OP_MOVE [d; s] -> final c' H -> avoids H (code_count c) (code_count c') ->
  0 <= d < 65536 -> 0 <= s < 65536 -> at_ a (code_count c) (MOVE d s) (code_count c').
Proof.
  intros He HF Ha Hd Hs. laid_by at_move He HF Ha.
Qed.

Lemma laid_not c c' d s H :
  Emits c c' DIAMOND_OP_NOT [d; s] -> final c' H -> avoids H (code_count c) (code_count c') ->
  0 <= d < 65536 -> 0 <= s < 65536 -> at_ a (code_count c) (NOT d s) (code_count c').
Proof.
  intros He HF Ha Hd Hs. laid_by at_not He HF Ha.
Qed.

Lemma laid_return c c' s H :
  Emits c c' DIAMOND_OP_RETURN [s] -> final c' H -> avoids H (code_count c) (code_count c') ->
  0 <= s < 65536 -> at_ a (code_count c) (RETURN s) (code_count c').
Proof.
  intros He HF Ha Hs. laid_by at_return He HF Ha.
Qed.

Lemma laid_raise c c' s H :
  Emits c c' DIAMOND_OP_RAISE [s] -> final c' H -> avoids H (code_count c) (code_count c') ->
  0 <= s < 65536 -> at_ a (code_count c) (RAISE s) (code_count c').
Proof.
  intros He HF Ha Hs. laid_by at_raise He HF Ha.
Qed.

Lemma laid_is_type c c' d s t H :
  Emits c c' DIAMOND_OP_IS_TYPE [d; s; t] -> final c' H -> avoids H (code_count c) (code_count c') ->
  0 <= d < 65536 -> 0 <= s < 65536 -> 0 <= t < 65536 ->
  at_ a (code_count c) (IS_TYPE d s t) (code_count c').
Proof.
  intros He HF Ha Hd Hs Ht. laid_by at_is_type He HF Ha.
Qed.

Lemma laid_pop_rescue c c' H :
  Emits c c' DIAMOND_OP_POP_RESCUE [] -> final c' H -> avoids H (code_count c) (code_count c') ->
  at_ a (code_count c) POP_RESCUE (code_count c').
Proof.
  intros He HF Ha. laid_by at_pop_rescue He HF Ha.
Qed.

Lemma laid_end_ensure c c' H :
  Emits c c' DIAMOND_OP_END_ENSURE [] -> final c' H -> avoids H (code_count c) (code_count c') ->
  at_ a (code_count c) END_ENSURE (code_count c').
Proof.
  intros He HF Ha. laid_by at_end_ensure He HF Ha.
Qed.

(** Instructions whose target was patched into [o], or written at once. *)
Lemma laid_jump c c' z t H :
  Emits c c' DIAMOND_OP_JUMP [z] -> final c' H -> avoids H (code_count c) (code_count c' - 2) ->
  short_at C (code_count c' - 2) = Some t -> at_ a (code_count c) (JUMP t) (code_count c').
Proof.
  intros He HF Ha Ht. laid_to at_jump He HF Ha Ht.
Qed.

Lemma laid_jump_if_false c c' r z t H :
  Emits c c' DIAMOND_OP_JUMP_IF_FALSE [r; z] -> final c' H ->
  avoids H (code_count c) (code_count c' - 2) -> 0 <= r < 65536 ->
  short_at C (code_count c' - 2) = Some t -> at_ a (code_count c) (JUMP_IF_FALSE r t) (code_count c').
Proof.
  intros He HF Ha Hr Ht. laid_to at_jump_if_false He HF Ha Ht.
Qed.

Lemma laid_jump_if_true c c' r z t H :
  Emits c c' DIAMOND_OP_JUMP_IF_TRUE [r; z] -> final c' H ->
  avoids H (code_count c) (code_count c' - 2) -> 0 <= r < 65536 ->
  short_at C (code_count c' - 2) = Some t -> at_ a (code_count c) (JUMP_IF_TRUE r t) (code_count c').
Proof.
  intros He HF Ha Hr Ht. laid_to at_jump_if_true He HF Ha Ht.
Qed.

Lemma laid_push_ensure c c' z t H :
  Emits c c' DIAMOND_OP_PUSH_ENSURE [z] -> final c' H ->
  avoids H (code_count c) (code_count c' - 2) ->
  short_at C (code_count c' - 2) = Some t -> at_ a (code_count c) (PUSH_ENSURE t) (code_count c').
Proof.
  intros He HF Ha Ht. laid_to at_push_ensure He HF Ha Ht.
Qed.

Lemma laid_run_ensure c c' z t H :
  Emits c c' DIAMOND_OP_RUN_ENSURE [z] -> final c' H ->
  avoids H (code_count c) (code_count c' - 2) ->
  short_at C (code_count c' - 2) = Some t -> at_ a (code_count c) (RUN_ENSURE t) (code_count c').
Proof.
  intros He HF Ha Ht. laid_to at_run_ensure He HF Ha Ht.
Qed.

Lemma laid_goto c c' t H :
  Emits c c' DIAMOND_OP_JUMP [t] -> final c' H -> avoids H (code_count c) (code_count c') ->
  0 <= t < 65536 -> at_ a (code_count c) (JUMP t) (code_count c').
Proof.
  intros He HF Ha Ht. laid_by at_jump He HF Ha.
Qed.

(** ** Expressions found again *)

Lemma code_at_append c bs H :
  final (append c bs) H -> avoids H (code_count c) (code_count (append c bs)) ->
  code_at C (code_count c) bs.
Proof.
  intros HF Ha. rewrite code_count_append in Ha.
  enough (Hd : forall k l, bs = k ++ l -> code_at C (code_count c + Z.of_nat (length k)) l).
  { specialize (Hd [] bs eq_refl). by rewrite Z.add_0_r in Hd. }
  intros k l. revert k. induction l as [|b l IH]; intros k ->; [done|]. split.
  - eapply final_byte; [exact HF| |lia|].
    + eapply avoids_mono; [exact Ha|lia|]. rewrite length_app. simpl. lia.
    + rewrite byte_at_app_right by lia. by rewrite Z.sub_diag.
  - replace (code_count c + Z.of_nat (length k) + 1)
      with (code_count c + Z.of_nat (length (k ++ [b]))) by (rewrite length_app; simpl; lia).
    apply IH. by rewrite <- app_assoc.
Qed.

(** The state after an expression. *)
Definition after_expression (c : Compiler) (ec : ExprCode) : Compiler :=
  set_homes (note_nils (set_locals (set_next_register (append c (expr_bytes ec)) (expr_next ec))
    (expr_locals ec ++ locals c)) (expr_nils ec)) (rev (expr_locals ec) ++ homes c).

Lemma parse_expression_inv e c r c' :
  parse_expression e c = Some (r, c') -> code_count c <= 65535 ->
  exists ec, expr_compile e (locals c) (next_register c) (code_count c) = Some ec /\
    r = expr_register ec /\ c' = after_expression c ec /\ code_count c' <= 65535 /\
    (forall k r r', (k, r) ∈ expr_locals ec -> (k, r') ∈ expr_locals ec -> r = r') /\
    (forall k r r', (k, r) ∈ expr_locals ec -> (k, r') ∉ homes c).
Proof.
  intros He Hc. unfold parse_expression in He.
  apply bind_inv in He as (? & ? & [= <- <-] & He).
  destruct (expr_compile e _ _ _) as [ec|]; [|done]. exists ec.
  apply bind_inv in He as (? & ? & Hb & He). apply emit_bytes_inv in Hb as [-> Hb].
  apply bind_inv in He as (? & ? & [= <- <-] & He). apply bind_inv in He as (? & ? & [= <- <-] & He).
  apply bind_inv in He as (? & ? & [= <- <-] & He). apply bind_inv in He as (? & ? & Hn & He).
  apply ret_inv in He as [-> ->]. apply note_homes_inv in Hn as (-> & Hs & Hd).
  split_and!; try done. exact (Hb Hc).
Qed.

Lemma expression_wf e c ec :
  expr_compile e (locals c) (next_register c) (code_count c) = Some ec -> wf c ->
  code_count (after_expression c ec) <= 65535 ->
  (forall k r r', (k, r) ∈ expr_locals ec -> (k, r') ∈ expr_locals ec -> r = r') ->
  (forall k r r', (k, r) ∈ expr_locals ec -> (k, r') ∉ homes c) ->
  wf (after_expression c ec) /\ 0 <= expr_register ec < expr_next ec.
Proof.
  intros Hec HW Hc Hs Hd. assert (HW' := HW). destruct HW' as [W1 W2 W3 W4 W5 W6 W7 W8].
  assert (Hge := expr_compile_next _ _ _ _ _ Hec).
  destruct (expr_compile_bounds _ _ _ _ _ Hec) as [Hr Hm]; [lia| |].
  { intros [k r] Hkr. apply W8, W4 in Hkr. simpl. lia. }
  assert (HL : forall k r, (k, r) ∈ expr_locals ec -> next_register c <= r < expr_next ec).
  { intros k r Hk. apply (expr_compile_locals _ _ _ _ _ _ Hec Hk). }
  assert (HN : forall r, r ∈ expr_nils ec -> next_register c <= r < expr_next ec /\
                 forall k, (k, r) ∉ expr_locals ec).
  { intros r Hr'. destruct (expr_compile_nils _ _ _ _ _ _ Hec Hr') as [? Hnot]. split; [done|].
    intros k Hk. apply Hnot. apply list_elem_of_fmap. by exists (k, r). }
  split; [|lia]. split; simpl; try done; try lia.
  - intros r [Hr'|Hr']%elem_of_app; [apply HN in Hr'; lia|apply W3 in Hr'; lia].
  - intros k r [Hk|Hk]%elem_of_rev_app; [apply HL in Hk; lia|apply W4 in Hk; lia].
  - intros k r r' [H1|H1]%elem_of_rev_app [H2|H2]%elem_of_rev_app; [by eapply Hs| | |by eapply W5].
    + by destruct (Hd k r r').
    + by destruct (Hd k r' r).
  - intros k k' r [H1|H1]%elem_of_rev_app [H2|H2]%elem_of_rev_app; [| | |by eapply W6].
    + eapply nodup_snd; [by eapply expr_compile_nodup|done|done].
    + apply HL in H1. apply W4 in H2. lia.
    + apply HL in H2. apply W4 in H1. lia.
  - intros k r [H1|H1]%elem_of_rev_app [H2|H2]%elem_of_app.
    + by apply HN in H2 as [_ H2]; apply H2 in H1.
    + apply HL in H1. apply W3 in H2. lia.
    + apply HN in H2 as [H2 _]. apply W4 in H1. lia.
    + by apply W7 in H1.
  - intros kr [Hk|Hk]%elem_of_app; apply elem_of_rev_app; auto.
Qed.

Lemma expression_goes e c r c' :
  parse_expression e c = Some (r, c') -> wf c ->
  Goes c c' [] /\ same_context c c' [] /\ 0 <= r < next_register c' /\
  forall H, final c' H -> avoids H (code_count c) (code_count c') ->
    expr_at g a e (code_count c) (next_register c) r (code_count c') (next_register c').
Proof.
  intros He HW. apply parse_expression_inv in He as (ec & Hec & -> & -> & Hc & Hs & Hd); [|apply HW].
  destruct (expression_wf _ _ _ Hec HW Hc Hs Hd) as [HW' Hr].
  assert (Hge := expr_compile_next _ _ _ _ _ Hec).
  assert (HL : forall k r, (k, r) ∈ expr_locals ec -> next_register c <= r < expr_next ec).
  { intros k r Hk. apply (expr_compile_locals _ _ _ _ _ _ Hec Hk). }
  assert (HN : forall r, r ∈ expr_nils ec -> next_register c <= r < expr_next ec).
  { intros r Hr'. apply (expr_compile_nils _ _ _ _ _ _ Hec Hr'). }
  split; [|split; [by apply same_context_eq|split; [simpl; lia|]]].
  - split; simpl; try done.
    + change (code_count (after_expression c ec)) with (code_count (append c (expr_bytes ec))).
      rewrite code_count_append. lia.
    + intros i Hi _. by apply byte_at_app_left.
    + intros r Hr'. rewrite elem_of_app. split; [|by right].
      intros [Hk|Hk]; [apply HN in Hk; lia|done].
    + intros k r Hr'. rewrite elem_of_rev_app. split; [|by right].
      intros [Hk|Hk]; [apply HL in Hk; lia|done].
  - intros H HF Ha. exists (locals c), ec. split; [done|]. split; [|split; [done|split; [|split; [done|split; [|split; [|split; [|split]]]]]]].
    + apply (code_at_append c _ H); [|done]. destruct HF as [F1 F2 F3 F4 F5]. simpl in *. split; simpl.
      * exact F1.
      * exact F2.
      * intros r Hr'. rewrite F3 by lia. rewrite elem_of_app. split; [|by right].
        intros [Hk|Hk]; [apply HN in Hk; lia|done].
      * intros k r Hr'. rewrite F4 by lia. rewrite elem_of_rev_app. split; [|by right].
        intros [Hk|Hk]; [apply HL in Hk; lia|done].
      * intros Hf. specialize (F5 Hf). lia.
    + apply (code_count_append c (expr_bytes ec)).
    + intros [k r] Hk. assert (Hh : (k, r) ∈ homes (after_expression c ec)) by by apply HW'.
      apply (final_homes _ _ HF); [|done]. apply (wf_homes _ HW') in Hh. lia.
    + intros x Hx. split.
      * rewrite (final_nils _ _ HF) by (simpl in *; lia). simpl. rewrite elem_of_app.
        split; [|by left]. intros [Hk|Hk]; [done|]. apply (wf_nils _ HW) in Hk. lia.
      * unfold is_home. setoid_rewrite (final_homes _ _ HF); [|simpl in *; lia]. simpl.
        setoid_rewrite elem_of_rev_app. split; [|intros [k Hk]; exists k; by left].
        intros [k [Hk|Hk]]; [by exists k|]. apply (wf_homes _ HW) in Hk. lia.
    + apply (wf_next _ HW).
    + apply (wf_next _ HW').
    + intros [k r] Hk. apply (wf_locals _ HW), (wf_homes _ HW) in Hk. done.
Qed.

End Trace.
