(* ===== verification/ControlLaid.v ===== *)
(** * ControlLaid: the compiler lays its statements out

    Compiling a statement from a well-formed state produces code that, in the
    finished function, is laid out as ControlLayout says: every instruction is
    where it was emitted, every jump has the target it was patched with, every
    register is a home, a nil register or scratch as planned.  [plain_stmt]
    bounds the source: a retry stands directly in its rescue clause, a bare
    raise is used in a function of at most 256 registers, type operands are 16
    bits wide. *)

From S2P Require Import Prelude.
From S2P Require Import Value.
From S2P Require Import Unwind.
From S2P Require Import ControlMachine.
From S2P Require Import ControlFlow.
From S2P Require Import ControlCompile.
From S2P Require Import ControlLayout.
From S2P Require Import ControlEmit.
From S2P Require Import ControlTrace.
From Stdlib Require Import ZArith Lia Bool List.
From stdpp Require Import base numbers list sets.

Local Open Scope Z_scope.
Local Open Scope c_scope.

Section Plain.
  Context `{HO : Host} {EX : Expressions}.
  Variable few : bool.

(** [retry]: a retry here leaves no begin block but its own. *)
Fixpoint plain_stmt (retry : bool) (s : stmt) : bool :=
  match s with
  | SRaise None => few
  | SRetry => retry
  | SIf _ _ body otherwise => plain_stmts retry body && plain_branch retry otherwise
  | SPostfix _ _ body => plain_stmt retry body
  | SWhile _ _ body | SLoop body => plain_stmts retry body
  | SBegin _ body rescues otherwise ensure =>
      plain_stmts false body && plain_clauses rescues && plain_branch false otherwise
      && plain_branch false ensure
  | _ => true
  end
with plain_stmts (retry : bool) (ss : stmts) : bool :=
  match ss with
  | BDone => true
  | BThen s rest => plain_stmt retry s && plain_stmts retry rest
  end
with plain_branch (retry : bool) (b : branch) : bool :=
  match b with
  | BNone => true
  | BBlock s => plain_stmts retry s
  | BElsif s => plain_stmt retry s
  end
with plain_clauses (cls : clauses) : bool :=
  match cls with
  | CNone => true
  | CRescue _ types body rest =>
      forallb (fun type => (0 <=? type) && (type <? 65536)) types
      && plain_stmts true body && plain_clauses rest
  end.

End Plain.

Section Laid.
  Context `{HO : Host} {EX : Expressions} {OK : ExpressionsOk}.
  Variable superclasses : list Z.
  Variable g : Ghost.
  Variable a : Activation.
  Variable few : bool.
  Notation C := (code a).
  Notation code_end := (Z.of_nat (length (code a))).
  Notation final := (final g a few).

Definition within (os : list Z) (lo hi : Z) : Prop := forall o, o ∈ os -> lo <= o /\ o + 1 < hi.

(** Between [lo] and [hi] only [ops] is still open. *)
Definition open_only (H ops : list Z) (lo hi : Z) : Prop :=
  forall o, o ∈ H -> o + 1 < lo \/ hi <= o \/ o ∈ ops.

Definition exits (x : Context) (nb : list Z) : Prop :=
  forall l o, x_loop x = Some l -> o ∈ nb -> short_at C o = Some (l_exit l).

(** The layout context [x] is where the compiler is. *)
Record matches (retry : bool) (x : Context) (c : Compiler) : Prop := {
  match_depth : x_depth x = begin_depth c;
  match_exception : forall exc, current_exception c = Some exc ->
    exists slot, x_current x = Some slot /\ (slot, exc) ∈ ghomes g /\ 0 <= exc < next_register c;
  match_retry : forall t, retry = true -> current_retry_target c = Some t ->
    x_retry x = Some t /\ 0 <= t <= code_end;
  match_loop : forall l, current_loop c = Some l -> exists la, x_loop x = Some la /\
    l_depth la = loop_begin_depth l /\ l_continue la = continue_target l /\
    l_redo la = redo_target l /\ l_result la = result_register l /\
    loop_begin_depth l <= begin_depth c /\ 0 <= l_continue la <= code_end /\
    0 <= l_redo la <= code_end /\ 0 <= l_exit la <= code_end /\ 0 <= l_result la < 4096;
}.

Lemma matches_goes retry x c c' P nb :
  matches retry x c -> Goes c c' P -> same_context c c' nb -> matches retry x c'.
Proof.
  intros [M1 M2 M3 M4] HG [S1 S2 S3 S4 S5]. split.
  - by rewrite S1.
  - intros exc. rewrite S3. intros He. destruct (M2 _ He) as (slot & ? & ? & ?).
    exists slot. assert (Hn := goes_next _ _ _ HG). split_and!; try done; lia.
  - intros t Hr. rewrite S4. by apply M3.
  - intros l. rewrite S5. destruct (current_loop c) as [l0|]; simpl; [|done]. intros [= <-].
    rewrite S1. exact (M4 _ eq_refl).
Qed.

(** Operands that do not overlap. *)
Definition apart (os : list Z) : Prop :=
  forall o o', o ∈ os -> o' ∈ os -> o = o' \/ o + 2 <= o' \/ o' + 2 <= o.

Record spread (nb js : list Z) : Prop := {
  spread_apart : apart (nb ++ js);
  spread_split : forall o o', o ∈ nb -> o' ∈ js -> o + 2 <= o' \/ o' + 2 <= o;
}.

(** What compiling something leaves, with [nb] its open breaks and [js] the
    other operands that are still to be patched; [F] holds in the finished code. *)
Definition produces_open (retry : bool) (c c' : Compiler) (nb js : list Z) (F : Context -> Prop) :
    Prop :=
  Goes c c' [] /\ same_context c c' nb /\
  within (nb ++ js) (code_count c) (code_count c') /\ spread nb js /\
  forall x H, matches retry x c -> final c' H ->
    open_only H (nb ++ js) (code_count c) (code_count c') -> exits x nb -> F x.

Notation produces retry c c' nb F := (produces_open retry c c' nb [] F).

Definition stmt_laid (s : stmt) : Prop := forall retry c r c',
  compile_stmt superclasses s c = Some (r, c') -> wf c -> plain_stmt few retry s = true ->
  exists nb, produces retry c c' nb (fun x => 0 <= r < next_register c' /\
    lay_stmt g a x s (code_count c) (next_register c) r (code_count c') (next_register c')).

Definition stmts_laid (ss : stmts) : Prop := forall retry last c r c',
  compile_stmts superclasses ss last c = Some (r, c') -> wf c -> plain_stmts few retry ss = true ->
  exists nb, produces retry c c' nb (fun x =>
    (0 <= last < next_register c -> 0 <= r < next_register c') /\
    lay_stmts g a x ss last (code_count c) (next_register c) r (code_count c') (next_register c')).

Definition branch_laid (b : branch) : Prop :=
  (forall retry d c u c',
   compile_if_false_branch superclasses d b c = Some (u, c') -> wf c -> 0 <= d < next_register c ->
   plain_branch few retry b = true ->
   exists nb, produces retry c c' nb (fun x =>
     lay_branch g a x d b (code_count c) (next_register c) (code_count c') (next_register c'))) /\
  match b with BBlock s => stmts_laid s | _ => True end.

Ltac split_elem :=
  repeat match goal with
  | H : _ ∈ _ :: _ |- _ => apply elem_of_cons in H as [H|H]
  | H : _ ∈ _ ++ _ |- _ => apply elem_of_app in H as [H|H]
  | H : _ ∈ [] |- _ => by apply elem_of_nil in H
  end.

(** Where the open operand [o] lies, by the bounds of the lists that hold it. *)
Ltac locate_operand o :=
  repeat match goal with
  | H : o ∈ _ :: _ |- _ => apply elem_of_cons in H as [H|H]
  | H : o ∈ _ ++ _ |- _ => apply elem_of_app in H as [H|H]
  | H : o ∈ [] |- _ => by apply elem_of_nil in H
  | H : o ∈ _ |- _ \/ _ \/ o ∈ _ =>
      solve [right; right; rewrite ?elem_of_app, ?elem_of_cons; auto 6]
  | W : (forall o, o ∈ ?H -> _), H' : o ∈ ?H |- _ => apply W in H'
  | W : (forall o, o ∈ ?H1 ++ _ -> _), H' : o ∈ ?H1 |- _ =>
      apply (fun p => W o (proj2 (elem_of_app _ _ o) (or_introl p))) in H'
  | W : (forall o, o ∈ _ ++ ?H2 -> _), H' : o ∈ ?H2 |- _ =>
      apply (fun p => W o (proj2 (elem_of_app _ _ o) (or_intror p))) in H'
  | H : _ \/ _ |- _ => destruct H as [H|H]
  end.

Ltac offsets :=
  let o := fresh "o" in let Ho := fresh "Ho" in
  unfold within, avoids, open_only in *; intros o Ho; locate_operand o; subst; try lia.

(** Two operands, from the same lists or from different ranges. *)
Ltac aparts :=
  repeat match goal with S : spread _ _ |- _ => destruct S end;
  split; unfold within, apart in *;
  let o := fresh "o" in let o' := fresh "o" in
  intros o o' ? ?; split_elem; subst; try lia;
  try match goal with
  | A : (forall o o', o ∈ ?l -> o' ∈ ?m -> _), H : o ∈ _, H' : o' ∈ _ |- _ =>
      solve [apply A; rewrite ?elem_of_app, ?elem_of_cons; auto 6]
  end;
  locate_operand o; try locate_operand o'; subst; try lia.

Ltac back G HF HF' :=
  let T := fresh in assert (T := final_back _ _ _ _ _ _ _ G HF); simpl app in T; rename T into HF'.

(** ** Statements without parts *)

Lemma produces_simple retry c c' F :
  Goes c c' [] -> same_context c c' [] ->
  (forall x H, matches retry x c -> final c' H -> avoids H (code_count c) (code_count c') -> F x) ->
  exists nb, produces retry c c' nb F.
Proof.
  intros HG HS HF. exists []. split_and!; try done; [offsets|aparts|].
  intros x H Hm Hf Ho _. apply (HF x H); try done. offsets.
Qed.

Lemma expr_laid e : stmt_laid (SExpr e).
Proof.
  intros retry c r c' Hc HW _. simpl in Hc.
  apply (expression_goes g a few) in Hc as (HG & HS & Hr & HE); [|done].
  apply produces_simple; try done. intros X H Hm HF Ha. split; [done|]. by apply lay_expr, (HE H).
Qed.

Lemma return_laid e : stmt_laid (SReturn e).
Proof.
  intros retry c r c' Hc HW _. simpl in Hc. unfold compile_return in Hc.
  apply bind_inv in Hc as (? & ? & [= <- <-] & Hc). destruct (in_function c); [|done]. simpl in Hc.
  apply bind_inv in Hc as (v & c1 & H1 & Hc). apply bind_inv in Hc as (? & c2 & H2 & Hc).
  apply ret_inv in Hc as [-> ->]. destruct e as [e|].
  - apply (expression_goes g a few) in H1 as (HG & HS & Hr & HE); [|done].
    assert (W1 := goes_wf _ _ _ HG).
    apply instruction_emits in H2 as (He & HG2 & HS2 & Hn2 & Hc2); [|done]. simpl in Hc2.
    assert (N1 := wf_next _ W1). apply produces_simple.
    + apply (goes_trans _ _ _ _ _ HG HG2).
    + apply (same_context_trans _ _ _ _ _ HS HS2).
    + intros X H Hm HF Ha. assert (K := goes_count _ _ _ HG). split; [lia|]. rewrite Hn2.
      eapply lay_return; [eapply HE|].
      * apply (final_back _ _ _ _ _ _ _ HG2 HF).
      * eapply avoids_mono; [exact Ha|lia..].
      * eapply laid_return; [exact He|exact HF|eapply avoids_mono; [exact Ha|lia..]|lia].
  - apply nil_register_goes in H1 as (HG & HS & Hcc & Hv & Hn & Hb & Hnil); [|done].
    assert (W1 := goes_wf _ _ _ HG).
    apply instruction_emits in H2 as (He & HG2 & HS2 & Hn2 & Hc2); [|done]. simpl in Hc2.
    apply produces_simple.
    + apply (goes_trans _ _ _ _ _ HG HG2).
    + apply (same_context_trans _ _ _ _ _ HS HS2).
    + intros X H Hm HF Ha. split; [lia|]. rewrite Hn2, Hn, Hv, <- Hcc.
      apply lay_return_nil.
      * rewrite (final_nils _ _ _ _ _ HF), <- Hv by lia. rewrite He. done.
      * rewrite Hv in He. eapply laid_return; [exact He|exact HF| |lia]. by rewrite Hcc.
Qed.

Lemma low_byte_small z : 0 <= z < 256 -> low_byte z = z.
Proof. intros Hz. unfold low_byte. change 255 with (Z.ones 8). rewrite Z.land_ones by lia. apply Z.mod_small. lia. Qed.

Lemma raise_laid e : stmt_laid (SRaise e).
Proof.
  intros retry c r c' Hc HW Hp. simpl in Hc. unfold compile_raise in Hc. destruct e as [e|].
  - apply bind_inv in Hc as (v & c1 & H1 & Hc). apply bind_inv in Hc as (? & c2 & H2 & Hc).
    apply ret_inv in Hc as [-> ->].
    apply (expression_goes g a few) in H1 as (HG & HS & Hr & HE); [|done].
    assert (W1 := goes_wf _ _ _ HG).
    apply instruction_emits in H2 as (He & HG2 & HS2 & Hn2 & Hc2); [|done]. simpl in Hc2.
    assert (N1 := wf_next _ W1). apply produces_simple.
    + apply (goes_trans _ _ _ _ _ HG HG2).
    + apply (same_context_trans _ _ _ _ _ HS HS2).
    + intros X H Hm HF Ha. assert (K := goes_count _ _ _ HG). split; [lia|]. rewrite Hn2.
      eapply lay_raise; [eapply HE|].
      * apply (final_back _ _ _ _ _ _ _ HG2 HF).
      * eapply avoids_mono; [exact Ha|lia..].
      * eapply laid_raise; [exact He|exact HF|eapply avoids_mono; [exact Ha|lia..]|lia].
  - apply bind_inv in Hc as (? & ? & [= <- <-] & Hc). destruct (current_exception c) as [exc|] eqn:Hx; [|done].
    apply bind_inv in Hc as (? & c2 & H2 & Hc). apply ret_inv in Hc as [-> ->].
    apply instruction_emits in H2 as (He & HG2 & HS2 & Hn2 & Hc2); [|done].
    apply produces_simple; try done. intros X H Hm HF Ha.
    destruct (match_exception _ _ _ Hm _ Hx) as (slot & Hs & Hin & Hb).
    simpl in Hp. assert (Hf := final_few _ _ _ _ _ HF Hp).
    assert (Hlow : low_byte exc = exc) by (apply low_byte_small; lia). rewrite Hlow in *.
    split; [lia|]. rewrite Hn2. eapply lay_raise_bare; [done|done|].
    eapply laid_raise; [exact He|exact HF|exact Ha|lia].
Qed.

Lemma retry_laid : stmt_laid SRetry.
Proof.
  intros retry c r c' Hc HW Hp. simpl in Hc, Hp. unfold compile_retry in Hc.
  apply bind_inv in Hc as (? & ? & [= <- <-] & Hc).
  destruct (current_retry_target c) as [t|] eqn:Ht; [|done].
  apply bind_inv in Hc as (? & c1 & H1 & Hc).
  apply absolute_jump_emits in H1 as (Hle & He & HG & HS & Hn1 & Hc1); [|done].
  apply nil_register_goes in Hc as (HG2 & HS2 & Hcc & Hv & Hn2 & Hb & Hnil); [|apply HG].
  apply produces_simple.
  - apply (goes_trans _ _ _ _ _ HG HG2).
  - apply (same_context_trans _ _ _ _ _ HS HS2).
  - intros X H Hm HF Ha. destruct (match_retry _ _ _ Hm _ Hp Ht) as [Hx Hb'].
    split; [lia|]. rewrite Hn2, Hv, Hn1. apply (lay_retry g a X t); [done|lia|].
    rewrite Hcc in *. eapply laid_goto; [exact He|apply (final_back _ _ _ _ _ _ _ HG2 HF)|exact Ha|lia].
Qed.

(** ** Loop control *)

Lemma goes_same c c' :
  wf c -> emitted c' = emitted c -> next_register c' = next_register c -> locals c' = locals c ->
  nils c' = nils c -> homes c' = homes c -> Goes c c' [].
Proof.
  intros [W1 W2 W3 W4 W5 W6 W7 W8] He Hn Hl Hnil Hh. unfold code_count in *.
  split; unfold code_count; rewrite ?He, ?Hn, ?Hnil, ?Hh; try done.
  split; unfold code_count; rewrite ?He, ?Hn, ?Hnil, ?Hh, ?Hl; done.
Qed.

(** The bytes of an UNWIND_JUMP. *)
Definition unwind_bytes (levels t : Z) : list Z :=
  [DIAMOND_OP_UNWIND_JUMP; levels; high_byte t; low_byte t].

Lemma emit_loop_jump_inv l t forward c o c' :
  emit_loop_jump l t forward c = Some (o, c') -> wf c ->
  let levels := if loop_begin_depth l <? begin_depth c then begin_depth c - loop_begin_depth l
                else 0 in
  code_count c' <= 65535 /\ (forward = false -> t <= 65535) /\
  (forward = true -> o = Some (code_count c' - 2)) /\
  if levels =? 0 then Emits c c' DIAMOND_OP_JUMP [if forward then 0 else t]
  else c' = append c (unwind_bytes levels t) /\ t <= 65535.
Proof.
  intros Hj HW levels. unfold emit_loop_jump in Hj.
  apply bind_inv in Hj as (? & ? & [= <- <-] & Hj). fold levels in Hj.
  destruct (levels =? 0); [destruct forward|].
  - apply bind_inv in Hj as (op & c1 & Hj & Hr). apply ret_inv in Hr as [-> ->].
    apply jump_emits in Hj as (He & HG & _ & _ & _ & ->); [|done].
    split_and!; try done. apply HG.
  - apply bind_inv in Hj as (? & c1 & Hj & Hr). apply ret_inv in Hr as [-> ->].
    apply absolute_jump_emits in Hj as (Ht & He & HG & _); [|done]. split_and!; try done. apply HG.
  - destruct (Z.ltb_spec 65535 t); [by rewrite orb_true_r in Hj|]. destruct (255 <? levels); [done|].
    simpl in Hj. apply bind_inv in Hj as (? & ? & Hb & Hj). apply emit_byte_inv in Hb as [-> B1].
    apply bind_inv in Hj as (? & ? & Hb & Hj). apply emit_byte_inv in Hb as [-> B2].
    apply bind_inv in Hj as (? & ? & [= <- <-] & Hj).
    apply bind_inv in Hj as (? & ? & Hb & Hj). apply emit_byte_inv in Hb as [-> B3].
    apply bind_inv in Hj as (? & ? & Hb & Hj). apply emit_byte_inv in Hb as [-> B4].
    apply ret_inv in Hj as [-> ->]. rewrite !append_app in *. split_and!; try done.
    + apply B4, B3, B2, B1, HW.
    + intros _. f_equal. rewrite !code_count_append, !length_app. simpl. lia.
Qed.

Lemma loop_jump_goes l t forward c o c' :
  emit_loop_jump l t forward c = Some (o, c') -> wf c ->
  Goes c c' [] /\ same_context c c' [] /\ next_register c' = next_register c /\
  code_count c + 3 <= code_count c' /\ (forward = true -> o = Some (code_count c' - 2)).
Proof.
  intros Hj HW. apply emit_loop_jump_inv in Hj as (Hc & _ & Ho & Hcase); [|done]. destruct (_ =? 0).
  - apply emits_goes in Hcase as (HG & HS & HN & HC); [|done..]. simpl in HC. split_and!; try done; lia.
  - destruct Hcase as [-> _]. split_and!; try done.
    + by apply goes_append.
    + by apply same_context_eq.
    + rewrite code_count_append. simpl. lia.
Qed.

Lemma loop_jump_laid l t forward c o c' X la H t' :
  emit_loop_jump l t forward c = Some (o, c') -> wf c -> final c' H ->
  x_depth X = begin_depth c -> l_depth la = loop_begin_depth l -> loop_begin_depth l <= begin_depth c ->
  t' <= code_end -> avoids H (code_count c) (code_count c' - 2) ->
  short_at C (code_count c' - 2) = Some t' -> loop_jump_at a X la t' (code_count c) (code_count c').
Proof.
  intros Hj HW HF Hd Hl Hle Ht Ha Hs. apply emit_loop_jump_inv in Hj as (_ & _ & _ & Hcase); [|done].
  split; [done|]. simpl.
  replace (if loop_begin_depth l <? begin_depth c then begin_depth c - loop_begin_depth l else 0)
    with (x_depth X - l_depth la) in Hcase by (case_bools; lia).
  destruct (_ =? 0).
  - eapply laid_jump; [exact Hcase|exact HF|exact Ha|exact Hs].
  - destruct Hcase as [-> _]. rewrite code_count_append in Ha, Hs. simpl length in Ha, Hs.
    eapply at_eq; [apply at_unwind_jump|rewrite code_count_append; simpl; lia].
    + replace (code_count c) with (code_count c + 0) by lia.
      eapply final_byte; [exact HF|eapply avoids_mono; [exact Ha|lia..]|lia|done].
    + eapply final_byte; [exact HF|eapply avoids_mono; [exact Ha|lia..]|lia|done].
    + rewrite <- Hs. f_equal. lia.
Qed.

(** A backward jump carries its target. *)
Lemma loop_jump_back l t c o c' H :
  emit_loop_jump l t false c = Some (o, c') -> wf c -> final c' H -> 0 <= t ->
  avoids H (code_count c) (code_count c') -> short_at C (code_count c' - 2) = Some t.
Proof.
  intros Hj HW HF Ht Ha. apply emit_loop_jump_inv in Hj as (_ & Ht' & _ & Hcase); [|done].
  specialize (Ht' eq_refl). destruct (_ =? 0).
  - assert (HC := emits_count _ _ _ _ Hcase). simpl in HC.
    eapply (emits_operand g a few 0); [exact Hcase|exact HF|done|lia| |lia].
    eapply avoids_mono; [exact Ha|lia..].
  - destruct Hcase as [-> _]. rewrite code_count_append in *. simpl length in *.
    replace (code_count c + Z.of_nat 4 - 2) with (code_count c + 2) by lia.
    apply short_at_intro; [lia| |].
    + eapply final_byte; [exact HF|eapply avoids_mono; [exact Ha|lia..]|lia|done].
    + replace (code_count c + 2 + 1) with (code_count c + 3) by lia.
      eapply final_byte; [exact HF|eapply avoids_mono; [exact Ha|lia..]|lia|done].
Qed.

(** [next] and [redo]. *)
Lemma back_produces s retry loop (target : LoopContext -> Z) (at_target : LoopAt -> Z) c o c1 r c' :
  current_loop c = Some loop ->
  emit_loop_jump loop (target loop) false c = Some (o, c1) -> nil_register c1 = Some (r, c') -> wf c ->
  (forall X la, matches retry X c -> x_loop X = Some la ->
     at_target la = target loop /\ 0 <= at_target la <= code_end) ->
  (forall X la p n q, x_loop X = Some la -> loop_jump_at a X la (at_target la) p q ->
     lay_stmt g a X s p n n q (n + 1)) ->
  exists nb, produces retry c c' nb (fun x => 0 <= r < next_register c' /\
    lay_stmt g a x s (code_count c) (next_register c) r (code_count c') (next_register c')).
Proof.
  intros Hl Hj Hn HW Ht Hk. destruct (loop_jump_goes _ _ _ _ _ _ Hj HW) as (HG & HS & HN & HC & _).
  apply nil_register_goes in Hn as (HG2 & HS2 & Hcc & Hv & Hn2 & Hb & Hnil); [|apply HG].
  apply produces_simple.
  - apply (goes_trans _ _ _ _ _ HG HG2).
  - apply (same_context_trans _ _ _ _ _ HS HS2).
  - intros X H Hm HF Ha. split; [lia|]. rewrite Hn2, Hv, HN, Hcc in *. back HG2 HF HF1.
    destruct (match_loop _ _ _ Hm _ Hl) as (la & Hx & Hd & _ & _ & _ & Hle & _).
    destruct (Ht X la Hm Hx) as [Hta Htb]. apply (Hk X la); [done|].
    eapply loop_jump_laid; [exact Hj|done|exact HF1|apply Hm|done|done|lia| |].
    + eapply avoids_mono; [exact Ha|lia..].
    + rewrite Hta in *. eapply loop_jump_back; [exact Hj|done|exact HF1|lia|done].
Qed.

Lemma next_laid : stmt_laid SNext.
Proof.
  intros retry c r c' Hc HW _. simpl in Hc. unfold compile_loop_control in Hc.
  apply bind_inv in Hc as (? & ? & [= <- <-] & Hc). destruct (current_loop c) as [loop|] eqn:Hl; [|done].
  apply bind_inv in Hc as (? & c1 & Hj & Hn). apply bind_inv in Hj as (o & c2 & Hj & Hr).
  apply ret_inv in Hr as [-> ->].
  eapply (back_produces _ _ _ continue_target l_continue); [exact Hl|exact Hj|exact Hn|done| |].
  - intros X la Hm Hx. destruct (match_loop _ _ _ Hm _ Hl) as (la' & Hx' & ? & ? & ? & ? & ? & ? & ? & ? & ?).
    rewrite Hx in Hx'. by injection Hx' as <-.
  - intros. by eapply lay_next.
Qed.

Lemma redo_laid : stmt_laid SRedo.
Proof.
  intros retry c r c' Hc HW _. simpl in Hc. unfold compile_loop_control in Hc.
  apply bind_inv in Hc as (? & ? & [= <- <-] & Hc). destruct (current_loop c) as [loop|] eqn:Hl; [|done].
  apply bind_inv in Hc as (? & c1 & Hj & Hn). apply bind_inv in Hj as (o & c2 & Hj & Hr).
  apply ret_inv in Hr as [-> ->].
  eapply (back_produces _ _ _ redo_target l_redo); [exact Hl|exact Hj|exact Hn|done| |].
  - intros X la Hm Hx. destruct (match_loop _ _ _ Hm _ Hl) as (la' & Hx' & ? & ? & ? & ? & ? & ? & ? & ? & ?).
    rewrite Hx in Hx'. by injection Hx' as <-.
  - intros. by eapply lay_redo.
Qed.

(** The jump of a break, noted in its loop. *)
Lemma break_jump loop c o c1 r c' :
  current_loop c = Some loop ->
  (let! operand := emit_loop_jump loop 0 true in
   modify (fun c => match operand with Some o => add_break o c | None => c end)) c = Some (o, c1) ->
  nil_register c1 = Some (r, c') -> wf c ->
  Goes c c' [] /\ same_context c c' [code_count c' - 2] /\ code_count c + 3 <= code_count c' /\
  r = next_register c /\ next_register c' = next_register c + 1 /\ next_register c < 4096 /\
  forall X la H, final c' H -> avoids H (code_count c) (code_count c' - 2) ->
    x_depth X = begin_depth c -> l_depth la = loop_begin_depth loop ->
    loop_begin_depth loop <= begin_depth c -> l_exit la <= code_end ->
    short_at C (code_count c' - 2) = Some (l_exit la) ->
    loop_jump_at a X la (l_exit la) (code_count c) (code_count c').
Proof.
  intros Hl Hj Hn HW. apply bind_inv in Hj as (op & c0 & Hj & Hm).
  destruct (loop_jump_goes _ _ _ _ _ _ Hj HW) as (HG & HS & HN & HC & Hop).
  rewrite (Hop eq_refl) in *. injection Hm as _ <-.
  assert (HL0 : current_loop c0 = Some (more_breaks [] loop)) by by rewrite (same_loop _ _ _ HS), Hl.
  assert (HG1 : Goes c0 (add_break (code_count c0 - 2) c0) []).
  { apply goes_same; [apply HG|..]; unfold add_break; by rewrite HL0. }
  assert (HS1 : same_context c0 (add_break (code_count c0 - 2) c0) [code_count c0 - 2]).
  { unfold add_break. rewrite HL0. split; try done. simpl. by rewrite HL0. }
  apply nil_register_goes in Hn as (HG2 & HS2 & Hcc & Hv & Hn2 & Hb & Hnil); [|apply HG1].
  assert (Hc1 : code_count (add_break (code_count c0 - 2) c0) = code_count c0)
    by (unfold add_break; by rewrite HL0).
  assert (Hn1 : next_register (add_break (code_count c0 - 2) c0) = next_register c0)
    by (unfold add_break; by rewrite HL0).
  rewrite Hc1 in Hcc. rewrite Hcc, Hn2, Hv, Hn1, HN in *. split_and!; try done; try lia.
  - apply (goes_trans _ _ _ _ _ HG (goes_trans _ _ _ _ _ HG1 HG2)).
  - apply (same_context_trans _ _ _ _ _ HS (same_context_trans _ _ _ _ _ HS1 HS2)).
  - intros X la H HF Ha Hd Hd' Hle Hx Hs. back HG2 HF HF2. back HG1 HF2 HF1.
    eapply loop_jump_laid; [exact Hj|done|exact HF1|done|done|done|done|done|done].
Qed.

Lemma break_laid e : stmt_laid (SBreak e).
Proof.
  intros retry c r c' Hc HW _. simpl in Hc. unfold compile_loop_control in Hc.
  apply bind_inv in Hc as (? & ? & [= <- <-] & Hc). destruct (current_loop c) as [loop|] eqn:Hl; [|done].
  apply bind_inv in Hc as (? & c1 & Hj & Hn). destruct (_ =? 64); [done|].
  apply bind_inv in Hj as (? & c0 & H0 & Hj). destruct e as [e|].
  - apply bind_inv in H0 as (v & c2 & H2 & H0).
    apply (expression_goes g a few) in H2 as (HG2 & HS2 & Hr & HE); [|done].
    assert (W2 := goes_wf _ _ _ HG2).
    apply instruction_emits in H0 as (He & HG0 & HS0 & Hn0 & Hc0); [|done]. simpl in Hc0.
    assert (N1 := wf_next _ W2). assert (W0 := goes_wf _ _ _ HG0).
    assert (HS20 := same_context_trans _ _ _ _ _ HS2 HS0).
    destruct (break_jump (more_breaks [] loop) _ _ _ _ _ ltac:(by rewrite (same_loop _ _ _ HS20), Hl)
                ltac:(rewrite more_breaks_nil; exact Hj) Hn W0)
      as (HG & HS & HC & -> & Hn' & Hlt & HJ).
    assert (K2 := goes_count _ _ _ HG2). assert (M2 := goes_next _ _ _ HG2).
    exists [code_count c' - 2]. split_and!.
    + apply (goes_trans _ _ _ _ _ HG2 (goes_trans _ _ _ _ _ HG0 HG)).
    + apply (same_context_trans _ _ _ _ _ HS20 HS).
    + offsets.
    + aparts.
    + intros X H Hm HF Ho Hx. back HG HF HF0. back HG0 HF0 HF2. split; [assert (W := wf_next _ W0); lia|].
      destruct (match_loop _ _ _ Hm _ Hl) as (la & Hxl & Hd & _ & _ & Hres & Hle & _ & _ & Hexit & Hrb).
      rewrite Hn', Hn0. eapply lay_break_value; [exact Hxl|eapply (HE _ HF2); offsets| |].
      * rewrite Hres. eapply laid_move; [exact He|exact HF0|offsets|lia|lia].
      * eapply HJ; [exact HF|offsets|rewrite (same_depth _ _ _ HS20); apply Hm|done
          |simpl; rewrite (same_depth _ _ _ HS20); done|lia|apply (Hx _ _ Hxl); by left].
  - apply ret_inv in H0 as [-> ->].
    destruct (break_jump loop _ _ _ _ _ Hl Hj Hn HW) as (HG & HS & HC & -> & Hn' & Hlt & HJ).
    exists [code_count c' - 2]. split_and!; try done.
    + offsets.
    + aparts.
    + intros X H Hm HF Ho Hx. split; [assert (W := wf_next _ HW); lia|].
      destruct (match_loop _ _ _ Hm _ Hl) as (la & Hxl & Hd & _ & _ & Hres & Hle & _ & _ & Hexit & Hrb).
      rewrite Hn'. eapply lay_break; [exact Hxl|].
      eapply HJ; [exact HF|offsets|apply Hm|done|done|lia|apply (Hx _ _ Hxl); by left].
Qed.

(** ** Sequences *)

Lemma same_context_nb c c' nb nb' : same_context c c' nb -> nb = nb' -> same_context c c' nb'.
Proof. by intros ? <-. Qed.

Lemma exits_left X nb nb' : exits X (nb ++ nb') -> exits X nb.
Proof. intros He l o Hl Ho. apply He; [done|]. apply elem_of_app. by left. Qed.

Lemma exits_right X nb nb' : exits X (nb ++ nb') -> exits X nb'.
Proof. intros He l o Hl Ho. apply He; [done|]. apply elem_of_app. by right. Qed.

Lemma produces_mono retry c c' nb js (F G : Context -> Prop) :
  produces_open retry c c' nb js F -> (forall X, F X -> G X) -> produces_open retry c c' nb js G.
Proof. intros (HG & HS & HW & HA & HF) Hi. split_and!; try done. intros. eapply Hi, HF; eauto. Qed.

Lemma produces_seq_open retry c1 c2 c3 nb nb' js js' (F1 F2 F : Context -> Prop) :
  produces_open retry c1 c2 nb js F1 -> produces_open retry c2 c3 nb' js' F2 ->
  (forall X, F1 X -> F2 X -> F X) -> produces_open retry c1 c3 (nb ++ nb') (js ++ js') F.
Proof.
  intros (HG & HS & HW & HA & HF) (HG' & HS' & HW' & HA' & HF') Hi.
  assert (K := goes_count _ _ _ HG). assert (K' := goes_count _ _ _ HG'). split_and!.
  - apply (goes_trans _ _ _ _ _ HG HG').
  - apply (same_context_trans _ _ _ _ _ HS HS').
  - offsets.
  - aparts.
  - intros X H Hm Hf Ho Hx. back HG' Hf Hf2. apply Hi.
    + apply (HF X H Hm Hf2); [offsets|by eapply exits_left].
    + apply (HF' X H); [by eapply matches_goes|done|offsets|by eapply exits_right].
Qed.

Lemma produces_seq retry c1 c2 c3 nb nb' (F1 F2 F : Context -> Prop) :
  produces retry c1 c2 nb F1 -> produces retry c2 c3 nb' F2 -> (forall X, F1 X -> F2 X -> F X) ->
  produces retry c1 c3 (nb ++ nb') F.
Proof. apply produces_seq_open. Qed.

Lemma produces_step retry c c' F :
  Goes c c' [] -> same_context c c' [] ->
  (forall X H, matches retry X c -> final c' H -> avoids H (code_count c) (code_count c') -> F X) ->
  produces retry c c' [] F.
Proof.
  intros HG HS HF. split_and!; try done; [offsets|aparts|].
  intros X H Hm Hf Ho _. apply (HF X H); try done. offsets.
Qed.

Lemma expression_produces retry e c r c' :
  parse_expression e c = Some (r, c') -> wf c -> 0 <= r < next_register c' /\
  produces retry c c' [] (fun _ =>
    expr_at g a e (code_count c) (next_register c) r (code_count c') (next_register c')).
Proof.
  intros He HW. apply (expression_goes g a few) in He as (HG & HS & Hr & HE); [|done].
  split; [done|]. apply produces_step; try done. intros X H Hm HF Ha. by apply (HE H).
Qed.

Lemma done_laid : stmts_laid BDone.
Proof.
  intros retry last c r c' Hc HW _. apply ret_inv in Hc as [-> ->]. exists [].
  apply produces_step; [by apply goes_refl|by apply same_context_eq|]. intros. split; [done|constructor].
Qed.

Lemma then_laid s rest : stmt_laid s -> stmts_laid rest -> stmts_laid (BThen s rest).
Proof.
  intros Hs Hr retry last c r c' Hc HW Hp. simpl in Hp. apply andb_prop in Hp as [Hp1 Hp2].
  simpl in Hc. apply bind_inv in Hc as (r1 & c1 & H1 & Hc).
  destruct (Hs _ _ _ _ H1 HW Hp1) as [nb P1].
  destruct (Hr _ _ _ _ _ Hc ltac:(apply P1) Hp2) as [nb' P2].
  exists (nb ++ nb'). apply (produces_seq _ _ _ _ _ _ _ _ _ P1 P2).
  intros X [Hb L1] [Hb' L2]. split; [auto|]. by eapply lay_then.
Qed.

Definition compile_body (ss : stmts) : VM Compiler Z :=
  vm_bind nil_register (compile_stmts superclasses ss).

Lemma body_laid ss : stmts_laid ss -> forall retry c r c',
  compile_body ss c = Some (r, c') -> wf c -> plain_stmts few retry ss = true ->
  next_register c < next_register c' /\
  exists nb, produces retry c c' nb (fun x => 0 <= r < next_register c' /\
    lay_body g a x ss (code_count c) (next_register c) r (code_count c') (next_register c')).
Proof.
  intros Hs retry c r c' Hc HW Hp. apply bind_inv in Hc as (v & c1 & H1 & Hc).
  apply nil_register_goes in H1 as (HG & HS & Hcc & Hv & Hn & Hb & Hnil); [|done].
  assert (W1 := goes_wf _ _ _ HG). destruct (Hs _ _ _ _ _ Hc W1 Hp) as [nb P1].
  assert (Hn' : next_register c1 <= next_register c') by apply P1.
  split; [lia|]. exists nb.
  apply (produces_seq retry c c1 c' [] nb (fun _ => v ∈ gnils g) _ _
           ltac:(apply produces_step; [done|done|]; intros X H _ HF _;
                 rewrite (final_nils _ _ _ _ _ HF); [done|lia]) P1).
  intros X Hg [Hr L1]. split; [apply Hr; lia|]. subst v. rewrite <- Hcc.
  apply lay_body_intro; [done|]. by rewrite <- Hn.
Qed.

(** A value moved to [d]. *)
Lemma move_produces retry d v c u c' :
  emit_instruction DIAMOND_OP_MOVE [d; v] c = Some (u, c') -> wf c -> 0 <= d < 4096 ->
  next_register c' = next_register c /\ code_count c' = code_count c + 5 /\
  produces retry c c' [] (fun _ => 0 <= v < next_register c ->
    at_ a (code_count c) (MOVE d v) (code_count c')).
Proof.
  intros He HW Hd. apply instruction_emits in He as (He & HG & HS & Hn & Hc); [|done]. simpl in Hc.
  split_and!; try done; [lia|]. apply produces_step; try done. intros X H _ HF Ha Hv.
  assert (N := wf_next _ HW). eapply laid_move; [exact He|exact HF|done|lia|lia].
Qed.

Lemma none_laid : branch_laid BNone.
Proof.
  split; [|done]. intros retry d c u c' Hc HW Hd _. simpl in Hc. exists [].
  apply instruction_emits in Hc as (He & HG & HS & Hn & Hc); [|done]. simpl in Hc.
  assert (N := wf_next _ HW). apply produces_step; try done. intros X H _ HF Ha. rewrite Hn.
  apply lay_branch_none. eapply laid_nil; [exact He|exact HF|done|lia].
Qed.

Lemma block_laid ss : stmts_laid ss -> branch_laid (BBlock ss).
Proof.
  intros Hs. split; [|done]. intros retry d c u c' Hc HW Hd Hp. simpl in Hc, Hp.
  apply bind_inv in Hc as (v & c1 & H1 & Hc).
  destruct (body_laid _ Hs _ _ _ _ H1 HW Hp) as [Hlt [nb P1]].
  assert (N := wf_next _ HW). destruct (move_produces retry _ _ _ _ _ Hc ltac:(apply P1)) as (Hn & _ & P2); [lia|].
  exists (nb ++ []). apply (produces_seq _ _ _ _ _ _ _ _ _ P1 P2). intros X [Hv L] Hmv.
  rewrite Hn. by eapply lay_branch_block; [|apply Hmv].
Qed.

Lemma elsif_laid s : stmt_laid s -> branch_laid (BElsif s).
Proof.
  intros Hs. split; [|done]. intros retry d c u c' Hc HW Hd Hp. simpl in Hc, Hp.
  apply bind_inv in Hc as (v & c1 & H1 & Hc).
  destruct (Hs _ _ _ _ H1 HW Hp) as [nb P1].
  assert (N := wf_next _ HW). destruct (move_produces retry _ _ _ _ _ Hc ltac:(apply P1)) as (Hn & _ & P2); [lia|].
  exists (nb ++ []). apply (produces_seq _ _ _ _ _ _ _ _ _ P1 P2). intros X [Hv L] Hmv.
  rewrite Hn. by eapply lay_branch_elsif; [|apply Hmv].
Qed.

(** ** Forward jumps *)

Lemma produces_then retry c1 c2 c3 nb nb' js js' (F1 F2 : Context -> Prop) :
  produces_open retry c1 c2 nb js F1 -> produces_open retry c2 c3 nb' js' F2 ->
  produces_open retry c1 c3 (nb ++ nb') (js ++ js') (fun X => F1 X /\ F2 X).
Proof. intros P1 P2. by apply (produces_seq_open _ _ _ _ _ _ _ _ _ _ _ P1 P2). Qed.

(** The operands [os] get their target. *)
Lemma patch_jumps_goes os t c u c' :
  patch_jumps os t c = Some (u, c') -> wf c -> (forall o, o ∈ os -> 0 <= o /\ o + 1 < code_count c) ->
  Goes c c' os /\ same_context c c' [] /\ next_register c' = next_register c /\
  code_count c' = code_count c /\
  forall H, final c' H -> apart os -> 0 <= t -> (forall o, o ∈ os -> avoids H o (o + 2)) ->
    forall o, o ∈ os -> short_at C o = Some t.
Proof.
  revert c. induction os as [|o os IH]; intros c Hp HW Hb; simpl in Hp.
  - apply ret_inv in Hp as [_ ->]. split; [by apply goes_refl|]. split; [by apply same_context_eq|].
    split_and!; try done. by intros H _ _ _ _ o ?%elem_of_nil.
  - apply bind_inv in Hp as (? & c1 & H1 & Hp).
    assert (Ho := Hb o ltac:(by left)).
    apply patch_goes in H1 as (-> & Ht & HG1 & HS1 & Hn1 & Hc1); [|done|lia].
    apply IH in Hp as (HG & HS & Hn & Hc & HF); [|apply HG1|].
    2: { intros o' Ho'. rewrite Hc1. apply Hb. by right. }
    split_and!; try congruence.
    + apply (goes_trans _ _ _ _ _ HG1 HG).
    + apply (same_context_trans _ _ _ _ _ HS1 HS).
    + intros H Hf Ha Ht' Hav.
      assert (Hrest : forall o', o' ∈ os -> short_at C o' = Some t).
      { apply (HF H Hf); [|done|].
        - intros o1 o2 H1 H2. apply Ha; by right.
        - intros o' Ho'. apply Hav. by right. }
      intros o' [->|Ho']%elem_of_cons; [|by apply Hrest].
      destruct (decide (o ∈ os)) as [|Hnin]; [by apply Hrest|].
      back HG Hf Hf1. eapply final_patched; [exact Hf1| |lia|lia|lia].
      intros p [Hp|Hp]%elem_of_app; [|by apply (Hav o); [left|]].
      destruct (Ha o p ltac:(by left) ltac:(by right)) as [->|?]; [done|lia].
Qed.

Lemma produces_close_all retry c c1 c2 nb js js' os t u (F : Context -> Prop) :
  produces_open retry c c1 nb js F -> patch_jumps os t c1 = Some (u, c2) -> 0 <= t ->
  (forall p, p ∈ os -> p ∈ js) -> (forall p, p ∈ js -> p ∈ os \/ p ∈ js') ->
  (forall p, p ∈ js' -> p ∈ js) -> (forall o, o ∈ os -> avoids (nb ++ js') o (o + 2)) ->
  next_register c2 = next_register c1 /\ code_count c2 = code_count c1 /\
  produces_open retry c c2 nb js' (fun X => F X /\ forall o, o ∈ os -> short_at C o = Some t).
Proof.
  intros (HG & HS & HW & HA & HF) Hp Ht Hos Hjs Hjs' Hav.
  assert (Hz : 0 <= code_count c) by (unfold code_count; lia).
  assert (Hos' : forall o, o ∈ os -> o ∈ nb ++ js) by (intros; apply elem_of_app; auto).
  apply patch_jumps_goes in Hp as (HG2 & HS2 & Hn & Hcc & Hsh); [|apply HG|].
  2: { intros o Ho%Hos'%HW. lia. }
  assert (Hin : forall p, p ∈ nb ++ js' -> p ∈ nb ++ js).
  { intros p. rewrite !elem_of_app. intros [|?%Hjs']; auto. }
  split; [done|]. split; [done|]. split_and!.
  - eapply goes_drop; [apply (goes_trans _ _ _ _ _ HG HG2)|]. intros p Hp%Hos'%HW. right. lia.
  - eapply same_context_nb; [apply (same_context_trans _ _ _ _ _ HS HS2)|apply app_nil_r].
  - intros p Hp%Hin%HW. lia.
  - destruct HA as [HA1 HA2]. split; [|auto]. intros p p' Hp%Hin Hp'%Hin. by apply HA1.
  - intros X H Hm Hf Hop Hx. back HG2 Hf Hf1. split.
    + apply (HF X (os ++ H) Hm Hf1); [|done]. intros p [Hp|Hp]%elem_of_app; [auto|].
      destruct (Hop p Hp) as [?|[?|?%Hin]]; [auto|lia|auto].
    + apply (Hsh H Hf); [|done|].
      * intros o o' Ho%Hos' Ho'%Hos'. by apply (spread_apart _ _ HA).
      * intros o Ho p Hp. assert (Hb := HW _ (Hos' _ Ho)).
        destruct (Hop p Hp) as [?|[?|?]]; [lia|lia|by apply (Hav o)].
Qed.

Lemma produces_close retry c c1 c2 nb js js' o t u (F : Context -> Prop) :
  produces_open retry c c1 nb js F -> patch_jump o t c1 = Some (u, c2) -> 0 <= t -> o ∈ js ->
  (forall p, p ∈ js -> p = o \/ p ∈ js') -> (forall p, p ∈ js' -> p ∈ js) ->
  avoids (nb ++ js') o (o + 2) ->
  next_register c2 = next_register c1 /\ code_count c2 = code_count c1 /\
  produces_open retry c c2 nb js' (fun X => F X /\ short_at C o = Some t).
Proof.
  intros HP Hp Ht Ho Hjs Hjs' Hav.
  edestruct (produces_close_all retry c c1 c2 nb js js' [o] t tt) as (Hn & Hc & P); [exact HP|..].
  - simpl. unfold vm_bind. by rewrite Hp.
  - done.
  - by intros p ->%list_elem_of_singleton.
  - intros p Hp'. rewrite list_elem_of_singleton. auto.
  - done.
  - by intros p ->%list_elem_of_singleton.
  - split; [done|]. split; [done|]. eapply produces_mono; [exact P|]. intros X [HF Hs].
    split; [done|]. apply Hs. by left.
Qed.

Lemma produces_close_here retry c c1 c2 nb js js' o u (F : Context -> Prop) :
  produces_open retry c c1 nb js F -> patch_here o c1 = Some (u, c2) -> o ∈ js ->
  (forall p, p ∈ js -> p = o \/ p ∈ js') -> (forall p, p ∈ js' -> p ∈ js) ->
  avoids (nb ++ js') o (o + 2) ->
  next_register c2 = next_register c1 /\ code_count c2 = code_count c1 /\
  produces_open retry c c2 nb js' (fun X => F X /\ short_at C o = Some (code_count c2) /\
                                            code_count c2 <= code_end).
Proof.
  intros HP Hp. unfold patch_here, vm_bind, get_compiler in Hp. intros Ho Hjs Hjs' Hav.
  destruct (produces_close _ _ _ _ _ _ _ _ _ _ _ HP Hp ltac:(unfold code_count; lia) Ho Hjs Hjs' Hav)
    as (Hn & Hc & P). split; [done|]. split; [done|].
  destruct P as (HG & HS & HW & HA & HF). split_and!; try done. intros X H Hm Hf Hop Hx.
  destruct (HF X H Hm Hf Hop Hx) as [? Hs]. rewrite Hc. split_and!; try done.
  rewrite <- Hc. apply Hf.
Qed.

(** The unconditional jump over what follows. *)
Lemma jump_produces retry c o c' :
  emit_jump DIAMOND_OP_JUMP 0 c = Some (o, c') -> wf c ->
  next_register c' = next_register c /\ o = code_count c' - 2 /\ code_count c' = code_count c + 3 /\
  produces_open retry c c' [] [o] (fun _ => forall t, short_at C o = Some t ->
    at_ a (code_count c) (JUMP t) (code_count c')).
Proof.
  intros He HW. apply jump_emits in He as (He & HG & HS & Hn & Hc & Ho); [|done]. simpl in Hc, He.
  split; [done|]. split; [lia|]. split; [lia|]. split_and!; try done; [offsets|aparts|]. subst o.
  intros X H Hm HF Hop Hx t Ht. eapply laid_jump; [exact He|exact HF|offsets|exact Ht].
Qed.

Definition conditional (if_true : bool) : Z :=
  if if_true then DIAMOND_OP_JUMP_IF_TRUE else DIAMOND_OP_JUMP_IF_FALSE.

Lemma conditional_produces retry (if_true : bool) r c o c' :
  emit_jump (conditional if_true) r c = Some (o, c') -> wf c -> 0 <= r < 4096 ->
  next_register c' = next_register c /\ o = code_count c' - 2 /\ code_count c' = code_count c + 5 /\
  produces_open retry c c' [] [o] (fun _ => forall t, short_at C o = Some t ->
    at_ a (code_count c) (if if_true then JUMP_IF_TRUE r t else JUMP_IF_FALSE r t) (code_count c')).
Proof.
  intros He HW Hr. apply jump_emits in He as (He & HG & HS & Hn & Hc & Ho); [|done].
  replace (if _ : bool then [r; 0] else [0]) with [r; 0] in * by by destruct if_true.
  simpl in Hc, He. split; [done|]. split; [lia|]. split; [lia|].
  split_and!; try done; [offsets|aparts|]. subst o.
  intros X H Hm HF Hop Hx t Ht. destruct if_true.
  - eapply laid_jump_if_true; [exact He|exact HF|offsets|lia|exact Ht].
  - eapply laid_jump_if_false; [exact He|exact HF|offsets|lia|exact Ht].
Qed.

Lemma allocate_produces retry c r c' :
  allocate_register c = Some (r, c') -> wf c ->
  r = next_register c /\ next_register c' = next_register c + 1 /\ code_count c' = code_count c /\
  0 <= r < 4096 /\ produces retry c c' [] (fun _ => scratch g r).
Proof.
  intros Ha HW. destruct (allocate_goes _ _ _ Ha HW) as (HG & HS & Hc & Hr & Hn & Hb & _).
  split; [done|]. split; [done|]. split; [done|]. split; [lia|]. split_and!; try done; [offsets|aparts|].
  intros X H Hm HF _ _. eapply allocated_scratch; [exact Ha|done|exact HF].
Qed.

Lemma branch_produces retry inverted r c b c' :
  branch_condition inverted r c = Some (b, c') -> wf c -> 0 <= r < next_register c ->
  0 <= b < next_register c' /\
  produces retry c c' [] (fun _ =>
    branch_at g a inverted r (code_count c) (next_register c) b (code_count c') (next_register c')).
Proof.
  intros Hb HW Hr. assert (N := wf_next _ HW). unfold branch_condition in Hb. destruct inverted.
  - apply bind_inv in Hb as (d & c1 & H1 & Hb). apply bind_inv in Hb as (? & c2 & H2 & Hb).
    apply ret_inv in Hb as [-> ->].
    destruct (allocate_produces retry _ _ _ H1 HW) as (-> & Hn & Hc & Hd & P1).
    assert (W1 : wf c1) by apply P1.
    apply instruction_emits in H2 as (He & HG & HS & Hn2 & Hc2); [|done]. simpl in Hc2.
    split; [lia|].
    refine (produces_mono _ _ _ _ _ _ _ (produces_then _ _ _ _ [] [] [] [] _ _ P1
      (produces_step retry c1 c2 (fun _ => at_ a (code_count c) (NOT (next_register c) r) (code_count c2))
         HG HS _)) _).
    + intros X H Hm HF Ha. rewrite <- Hc. eapply laid_not; [exact He|exact HF|done|lia|lia].
    + intros X [Hs Hat]. simpl. split_and!; try done. lia.
  - apply ret_inv in Hb as [-> ->]. split; [done|].
    apply produces_step; [by apply goes_refl|by apply same_context_eq|]. done.
Qed.

Lemma produces_wf retry c c' nb js F : produces_open retry c c' nb js F -> wf c'.
Proof. intros P. apply P. Qed.

Lemma produces_bounds retry c c' nb js F :
  produces_open retry c c' nb js F ->
  code_count c <= code_count c' /\ next_register c <= next_register c' <= 4096.
Proof. intros (HG & _). assert (N := wf_next _ (goes_wf _ _ _ HG)). split; [apply HG|]. split; [apply HG|lia]. Qed.

Lemma produces_within retry c c' nb js F :
  produces_open retry c c' nb js F -> within (nb ++ js) (code_count c) (code_count c').
Proof. intros P. apply P. Qed.

Lemma produces_spread retry c c' nb js F : produces_open retry c c' nb js F -> spread nb js.
Proof. intros P. apply P. Qed.

(** ** If *)

(** The side taken when the condition holds, up to its jump to the end. *)
Lemma then_side_laid body d c u c1 : stmts_laid body -> forall retry,
  (let! then_result := compile_body body in
   let! _ := emit_instruction DIAMOND_OP_MOVE [d; then_result] in
   emit_jump DIAMOND_OP_JUMP 0) c = Some (u, c1) ->
  wf c -> plain_stmts few retry body = true -> 0 <= d < 4096 ->
  u = code_count c1 - 2 /\ code_count c + 8 <= code_count c1 /\
  exists nb, within nb (code_count c) (code_count c1 - 8) /\
    produces_open retry c c1 nb [u] (fun x => forall t, short_at C u = Some t ->
    exists r p p', lay_body g a x body (code_count c) (next_register c) r p (next_register c1) /\
      at_ a p (MOVE d r) p' /\ at_ a p' (JUMP t) (code_count c1)).
Proof.
  intros Hb retry Hc HW Hp Hd.
  apply bind_inv in Hc as (v & c2 & H2 & Hc). apply bind_inv in Hc as (? & c3 & H3 & Hc).
  destruct (body_laid _ Hb _ _ _ _ H2 HW Hp) as [Hlt [nb P2]].
  destruct (move_produces retry _ _ _ _ _ H3 (produces_wf _ _ _ _ _ _ P2) Hd) as (Hn3 & Hc3 & P3).
  destruct (jump_produces retry _ _ _ Hc (produces_wf _ _ _ _ _ _ P3)) as (Hn1 & Hu & Hc1 & P1).
  assert (B2 := produces_bounds _ _ _ _ _ _ P2).
  assert (Q2 := produces_within _ _ _ _ _ _ P2).
  split; [done|]. split; [lia|]. exists (nb ++ [] ++ []). split; [offsets|].
  eapply produces_mono; [exact (produces_then _ _ _ _ _ _ _ _ _ _ P2 (produces_then _ _ _ _ _ _ _ _ _ _ P3 P1))|].
  intros X ((Hv & L) & Hm & Hj) t Ht. rewrite Hn1, Hn3.
  exists v, (code_count c2), (code_count c3). auto.
Qed.

Lemma if_laid inverted cond body otherwise :
  stmts_laid body -> branch_laid otherwise -> stmt_laid (SIf inverted cond body otherwise).
Proof.
  intros Hb [Ho _] retry c r c' Hc HW Hp. simpl in Hp. apply andb_prop in Hp as [Hp1 Hp2].
  simpl in Hc. unfold parse_if in Hc. apply bind_inv in Hc as (cr & c1 & H1 & Hc). apply bind_inv in Hc as (br & c2 & H2 & Hc).
  apply bind_inv in Hc as (fj & c3 & H3 & Hc). apply bind_inv in Hc as (d & c4 & H4 & Hc).
  apply bind_inv in Hc as (v & c5 & H5 & Hc). apply bind_inv in Hc as (? & c6 & H6 & Hc).
  apply bind_inv in Hc as (ej & c7 & H7 & Hc). apply bind_inv in Hc as (? & c8 & H8 & Hc).
  apply bind_inv in Hc as (? & c9 & H9 & Hc). apply bind_inv in Hc as (? & c10 & H10 & Hc).
  apply ret_inv in Hc as [-> ->].
  destruct (expression_produces retry _ _ _ _ H1 HW) as [Hcr P1]. assert (W1 := produces_wf _ _ _ _ _ _ P1).
  destruct (branch_produces retry _ _ _ _ _ H2 W1 Hcr) as [Hbr P2]. assert (W2 := produces_wf _ _ _ _ _ _ P2).
  assert (B2 := produces_bounds _ _ _ _ _ _ P2).
  destruct (conditional_produces retry false _ _ _ _ H3 W2) as (Hn3 & Hfj & Hc3 & P3); [lia|].
  destruct (allocate_produces retry _ _ _ H4 (produces_wf _ _ _ _ _ _ P3)) as (Hd & Hn4 & Hc4 & Hdb & P4).
  destruct (then_side_laid body d c4 ej c7 Hb retry) as (Hej & Hc7 & nb1 & Q7 & P7);
    [unfold vm_bind at 1, compile_body; by rewrite H5; unfold vm_bind; rewrite H6|apply P4|done|done|].
  assert (PA := produces_then _ _ _ _ _ _ _ _ _ _ P1 (produces_then _ _ _ _ _ _ _ _ _ _ P2
    (produces_then _ _ _ _ _ _ _ _ _ _ P3 (produces_then _ _ _ _ _ _ _ _ _ _ P4 P7)))).
  simpl app in PA.
  destruct (produces_close_here _ _ _ _ _ _ [ej] _ _ _ PA H8) as (Hn8 & Hc8 & P8);
    [by left|intros p; rewrite !elem_of_cons; tauto|by right|offsets|].
  assert (B7 := produces_bounds _ _ _ _ _ _ P7).
  destruct (Ho retry _ _ _ _ H9 (produces_wf _ _ _ _ _ _ P8)) as [nb2 P9]; [lia|done|].
  assert (Q9 := produces_within _ _ _ _ _ _ P9). assert (B9 := produces_bounds _ _ _ _ _ _ P9).
  assert (PB := produces_then _ _ _ _ _ _ _ _ _ _ P8 P9). simpl app in PB.
  destruct (produces_close_here _ _ _ _ _ _ [] _ _ _ PB H10) as (Hn10 & Hc10 & P10);
    [by left|intros p; rewrite !elem_of_cons; tauto|by intros p ?%elem_of_nil|offsets|].
  eexists. eapply produces_mono; [exact P10|]. intros X ((((E1 & E2 & E3 & E4 & E7) & E8 & E8') & E9) & E10 & E10').
  destruct (E7 _ E10) as (rv & p & p' & L & Hm & Hj). split; [lia|].
  rewrite Hn4, Hn3, Hc4, Hn8, Hc8, Hn10, Hc10 in *. subst d.
  eapply (lay_if g a X inverted cond body otherwise); [exact E1|exact E2|exact (E3 _ E8)|done|exact E4| |done|done|done|done].
  exact L.
Qed.

(** ** Postfix conditions *)

Lemma postfix_laid inverted cond body : stmt_laid body -> stmt_laid (SPostfix inverted cond body).
Proof.
  intros Hb retry c r c' Hc HW Hp. simpl in Hp, Hc. unfold compile_postfix in Hc.
  apply bind_inv in Hc as (n & c1 & H1 & Hc). apply bind_inv in Hc as (cr & c2 & H2 & Hc).
  apply bind_inv in Hc as (sj & c3 & H3 & Hc). apply bind_inv in Hc as (v & c4 & H4 & Hc).
  apply bind_inv in Hc as (? & c5 & H5 & Hc). apply bind_inv in Hc as (ej & c6 & H6 & Hc).
  apply bind_inv in Hc as (? & c7 & H7 & Hc). apply bind_inv in Hc as (? & c8 & H8 & Hc).
  apply bind_inv in Hc as (? & c9 & H9 & Hc). apply ret_inv in Hc as [-> ->].
  destruct (allocate_produces retry _ _ _ H1 HW) as (Hn & Hn1 & Hc1 & Hnb & P1).
  destruct (expression_produces retry _ _ _ _ H2 (produces_wf _ _ _ _ _ _ P1)) as [Hcr P2].
  assert (B2 := produces_bounds _ _ _ _ _ _ P2).
  destruct (conditional_produces retry inverted _ _ _ _ H3 (produces_wf _ _ _ _ _ _ P2))
    as (Hn3 & Hsj & Hc3 & P3); [lia|].
  destruct (Hb _ _ _ _ H4 (produces_wf _ _ _ _ _ _ P3) Hp) as [nb P4].
  destruct (move_produces retry _ _ _ _ _ H5 (produces_wf _ _ _ _ _ _ P4)) as (Hn5 & Hc5 & P5); [lia|].
  destruct (jump_produces retry _ _ _ H6 (produces_wf _ _ _ _ _ _ P5)) as (Hn6 & Hej & Hc6 & P6).
  assert (PA := produces_then _ _ _ _ _ _ _ _ _ _ P1 (produces_then _ _ _ _ _ _ _ _ _ _ P2
    (produces_then _ _ _ _ _ _ _ _ _ _ P3 (produces_then _ _ _ _ _ _ _ _ _ _ P4
      (produces_then _ _ _ _ _ _ _ _ _ _ P5 P6))))).
  simpl app in PA. assert (Q4 := produces_within _ _ _ _ _ _ P4).
  assert (B4 := produces_bounds _ _ _ _ _ _ P4).
  destruct (produces_close_here _ _ _ _ _ _ [ej] _ _ _ PA H7) as (Hn7 & Hc7 & P7);
    [by left|intros p; rewrite !elem_of_cons; tauto|by right|offsets|].
  apply instruction_emits in H8 as (He8 & HG8 & HS8 & Hn8 & Hc8); [|apply P7]. simpl in Hc8.
  assert (P8 : produces retry c7 c8 [] (fun _ => at_ a (code_count c7) (NIL n) (code_count c8))).
  { apply produces_step; [done..|]. intros X H _ HF Ha.
    eapply laid_nil; [exact He8|exact HF|done|lia]. }
  assert (PB := produces_then _ _ _ _ _ _ _ _ _ _ P7 P8). simpl app in PB.
  destruct (produces_close_here _ _ _ _ _ _ [] _ _ _ PB H9) as (Hn9 & Hc9 & P9);
    [by left|intros p; rewrite !elem_of_cons; tauto|by intros p ?%elem_of_nil|offsets|].
  eexists. eapply produces_mono; [exact P9|].
  intros X ((((E1 & E2 & E3 & [Ev E4] & E5 & E6) & E7 & E7') & E8) & E9 & E9').
  split; [lia|]. rewrite Hn9, Hc9, Hn8, Hc7, Hn7, Hn6, Hn5, Hn1, Hc1, Hn3 in *. subst n.
  eapply (lay_postfix g a X inverted cond body);
    [exact E2|exact E1|exact (E3 _ E7)|done|exact E4|by apply E5|exact (E6 _ E9)|done|done].
Qed.

(** ** Loops *)

Lemma loop_body_laid body ct rt d c v c1 : stmts_laid body -> forall retry,
  compile_body body (set_loop c (Some
    {| loop_begin_depth := begin_depth c; continue_target := ct; redo_target := rt;
       result_register := d; breaks := [] |})) = Some (v, c1) ->
  wf c -> plain_stmts few retry body = true ->
  let c2 := set_loop c1 (current_loop c) in
  produces_open retry c c2 [] (loop_breaks c1) (fun X => forall la,
    l_depth la = x_depth X -> l_continue la = ct -> l_redo la = rt -> l_result la = d ->
    0 <= ct <= code_end -> 0 <= rt <= code_end -> 0 <= l_exit la <= code_end -> 0 <= d < 4096 ->
    (forall o, o ∈ loop_breaks c1 -> short_at C o = Some (l_exit la)) ->
    lay_body g a (in_loop X la) body (code_count c) (next_register c) v (code_count c2)
      (next_register c2)).
Proof.
  intros Hb retry Hc HW Hp c2. set (c0 := set_loop c _) in Hc.
  assert (HG0 : Goes c c0 []) by by apply goes_same.
  destruct (body_laid _ Hb _ _ _ _ Hc (goes_wf _ _ _ HG0) Hp) as [_ [nb P]].
  destruct P as (HG & HS & HQ & HA & HF).
  assert (HG2 : Goes c1 c2 []) by (apply goes_same; [apply HG|done..]).
  assert (Hnb : loop_breaks c1 = nb) by by (unfold loop_breaks; rewrite (same_loop _ _ _ HS)).
  rewrite Hnb. rewrite app_nil_r in HQ, HF. split_and!; try done.
  - apply (goes_trans _ _ _ _ _ HG0 (goes_trans _ _ _ _ _ HG HG2)).
  - apply same_context_eq; [apply (same_depth _ _ _ HS)|apply (same_function _ _ _ HS)
      |apply (same_exception _ _ _ HS)|apply (same_retry _ _ _ HS)|done].
  - split; [|by intros o o' ?%elem_of_nil]. apply spread_apart in HA. by rewrite app_nil_r in HA.
  - intros X H Hm Hf Ho _ la Hd Hct Hrt Hrd Bct Brt Bx Bd Hx. back HG2 Hf Hf1.
    destruct (HF (in_loop X la) H) as [_ L]; [|done|done| |done].
    + destruct Hm as [M1 M2 M3 M4]. split; try done. intros l [= <-]. exists la.
      simpl. rewrite Hd, M1, Hct, Hrt, Hrd. split_and!; try done; lia.
    + intros l o [= <-] Hin. by apply Hx.
Qed.

Lemma goto_produces retry t c u c' :
  emit_absolute_jump t c = Some (u, c') -> wf c -> 0 <= t ->
  next_register c' = next_register c /\ code_count c' = code_count c + 3 /\
  produces retry c c' [] (fun _ => at_ a (code_count c) (JUMP t) (code_count c')).
Proof.
  intros Hj HW Ht. apply absolute_jump_emits in Hj as (Hle & He & HG & HS & Hn & Hc); [|done].
  split; [done|]. split; [done|]. apply produces_step; try done. intros X H _ HF Ha.
  eapply laid_goto; [exact He|exact HF|done|lia].
Qed.

Lemma nil_produces retry d c u c' :
  emit_instruction DIAMOND_OP_NIL [d] c = Some (u, c') -> wf c -> 0 <= d < 4096 ->
  next_register c' = next_register c /\ code_count c' = code_count c + 3 /\
  produces retry c c' [] (fun _ => at_ a (code_count c) (NIL d) (code_count c')).
Proof.
  intros He HW Hd. apply instruction_emits in He as (He & HG & HS & Hn & Hc); [|done]. simpl in Hc.
  split; [done|]. split; [lia|]. apply produces_step; try done. intros X H _ HF Ha.
  eapply laid_nil; [exact He|exact HF|done|lia].
Qed.

Lemma loop_laid body : stmts_laid body -> stmt_laid (SLoop body).
Proof.
  intros Hb retry c r c' Hc HW Hp. simpl in Hp, Hc. unfold parse_loop in Hc.
  apply bind_inv in Hc as (d & c1 & H1 & Hc). apply bind_inv in Hc as (? & c2 & H2 & Hc).
  apply bind_inv in Hc as (? & ? & [= <- <-] & Hc). apply bind_inv in Hc as (? & ? & [= <- <-] & Hc).
  apply bind_inv in Hc as (v & c3 & H3 & Hc). apply bind_inv in Hc as (? & ? & [= <- <-] & Hc).
  apply bind_inv in Hc as (? & ? & [= <- <-] & Hc). apply bind_inv in Hc as (? & c4 & H4 & Hc).
  apply bind_inv in Hc as (? & ? & [= <- <-] & Hc). apply bind_inv in Hc as (? & c5 & H5 & Hc).
  apply ret_inv in Hc as [-> ->].
  destruct (allocate_produces retry _ _ _ H1 HW) as (Hd & Hn1 & Hc1 & Hdb & P1).
  destruct (nil_produces retry _ _ _ _ H2 (produces_wf _ _ _ _ _ _ P1) Hdb) as (Hn2 & Hc2 & P2).
  assert (P3 := loop_body_laid body _ _ _ _ _ _ Hb retry H3 (produces_wf _ _ _ _ _ _ P2) Hp).
  assert (Hz : 0 <= code_count c2) by (unfold code_count; lia).
  destruct (goto_produces retry _ _ _ _ H4 (produces_wf _ _ _ _ _ _ P3) Hz) as (Hn4 & Hc4 & P4).
  assert (B3 := produces_bounds _ _ _ _ _ _ P3). assert (Q3 := produces_within _ _ _ _ _ _ P3).
  assert (PA := produces_then _ _ _ _ _ _ _ _ _ _ P1 (produces_then _ _ _ _ _ _ _ _ _ _ P2
    (produces_then _ _ _ _ _ _ _ _ _ _ P3 P4))).
  simpl app in PA. rewrite app_nil_r in PA.
  destruct (produces_close_all _ _ _ _ _ _ [] _ _ _ _ PA H5) as (Hn5 & Hc5 & P5);
    [unfold code_count; lia|done|auto|by intros p ?%elem_of_nil|by intros o _ p ?%elem_of_nil|].
  exists []. destruct P5 as (HG5 & HS5 & HW5 & HA5 & HF5). split_and!; try done.
  intros X H Hm Hf Ho Hx. destruct (HF5 X H Hm Hf Ho Hx) as ((E1 & E2 & E3 & E4) & E5).
  assert (Hend := final_end _ _ _ _ _ Hf). split; [lia|].
  rewrite Hn5, Hc5, Hn4, Hc4, Hn2, Hc1, Hn1 in *. subst d.
  eapply (lay_loop g a X body); [exact E2|done|lia|lia| |exact E4].
  apply E3; simpl; try done; try lia.
Qed.

(** The top of a while loop, with the jump out still open. *)
Lemma head_laid retry inverted e c o c1 :
  (let! condition := parse_expression e in
   let! branch := branch_condition inverted condition in
   emit_jump DIAMOND_OP_JUMP_IF_FALSE branch) c = Some (o, c1) -> wf c ->
  o = code_count c1 - 2 /\ code_count c + 5 <= code_count c1 /\
  produces_open retry c c1 [] [o] (fun _ => forall exit, short_at C o = Some exit ->
    head_at g a (Some (inverted, e)) exit (code_count c) (next_register c) (code_count c1)
      (next_register c1)).
Proof.
  intros Hc HW. apply bind_inv in Hc as (cr & c2 & H1 & Hc). apply bind_inv in Hc as (br & c3 & H2 & H3).
  destruct (expression_produces retry _ _ _ _ H1 HW) as [Hcr P1]. assert (W1 := produces_wf _ _ _ _ _ _ P1).
  destruct (branch_produces retry _ _ _ _ _ H2 W1 Hcr) as [Hbr P2]. assert (W2 := produces_wf _ _ _ _ _ _ P2).
  assert (B1 := produces_bounds _ _ _ _ _ _ P1). assert (B2 := produces_bounds _ _ _ _ _ _ P2).
  destruct (conditional_produces retry false _ _ _ _ H3 W2) as (Hn3 & Hfj & Hc3 & P3); [lia|].
  split; [done|]. split; [lia|].
  eapply produces_mono; [exact (produces_then _ _ _ _ _ _ _ _ _ _ P1
    (produces_then _ _ _ _ _ _ _ _ _ _ P2 P3))|].
  intros X (E1 & E2 & E3) exit He. rewrite Hn3. do 5 eexists. split_and!; [exact E1|exact E2|].
  exact (E3 _ He).
Qed.

Lemma while_laid inverted cond body : stmts_laid body -> stmt_laid (SWhile inverted cond body).
Proof.
  intros Hb retry c r c' Hc HW Hp. simpl in Hp, Hc. unfold parse_while in Hc.
  apply bind_inv in Hc as (d & c1 & H1 & Hc). apply bind_inv in Hc as (? & c2 & H2 & Hc).
  apply bind_inv in Hc as (? & ? & [= <- <-] & Hc).
  apply bind_inv in Hc as (cr & c21 & H21 & Hc). apply bind_inv in Hc as (br & c22 & H22 & Hc).
  apply bind_inv in Hc as (xj & c23 & H23 & Hc).
  apply bind_inv in Hc as (? & ? & [= <- <-] & Hc). apply bind_inv in Hc as (? & ? & [= <- <-] & Hc).
  apply bind_inv in Hc as (v & c3 & H3 & Hc). apply bind_inv in Hc as (? & ? & [= <- <-] & Hc).
  apply bind_inv in Hc as (? & ? & [= <- <-] & Hc). apply bind_inv in Hc as (? & c4 & H4 & Hc).
  apply bind_inv in Hc as (? & c5 & H5 & Hc).
  apply bind_inv in Hc as (? & ? & [= <- <-] & Hc). apply bind_inv in Hc as (? & c6 & H6 & Hc).
  apply ret_inv in Hc as [-> ->].
  destruct (allocate_produces retry _ _ _ H1 HW) as (Hd & Hn1 & Hc1 & Hdb & P1).
  destruct (nil_produces retry _ _ _ _ H2 (produces_wf _ _ _ _ _ _ P1) Hdb) as (Hn2 & Hc2 & P2).
  destruct (head_laid retry inverted cond c2 xj c23) as (Hxj & Hc23 & P23);
    [unfold vm_bind at 1; rewrite H21; unfold vm_bind; by rewrite H22|apply P2|].
  assert (P3 := loop_body_laid body _ _ _ _ _ _ Hb retry H3 (produces_wf _ _ _ _ _ _ P23) Hp).
  assert (Hz : 0 <= code_count c2) by (unfold code_count; lia).
  destruct (goto_produces retry _ _ _ _ H4 (produces_wf _ _ _ _ _ _ P3) Hz) as (Hn4 & Hc4 & P4).
  assert (B23 := produces_bounds _ _ _ _ _ _ P23).
  assert (B3 := produces_bounds _ _ _ _ _ _ P3). assert (Q3 := produces_within _ _ _ _ _ _ P3).
  assert (PA := produces_then _ _ _ _ _ _ _ _ _ _ P1 (produces_then _ _ _ _ _ _ _ _ _ _ P2
    (produces_then _ _ _ _ _ _ _ _ _ _ P23 (produces_then _ _ _ _ _ _ _ _ _ _ P3 P4)))).
  simpl app in PA. rewrite app_nil_r in PA.
  destruct (produces_close_here _ _ _ _ _ _ (loop_breaks c3) _ _ _ PA H5) as (Hn5 & Hc5 & P5);
    [by left|intros p; rewrite !elem_of_cons; tauto|by right|offsets|].
  destruct (produces_close_all _ _ _ _ _ _ [] _ _ _ _ P5 H6) as (Hn6 & Hc6 & P6);
    [unfold code_count; lia|done|auto|by intros p ?%elem_of_nil|by intros o _ p ?%elem_of_nil|].
  exists []. eapply produces_mono; [exact P6|].
  intros X (((E1 & E2 & E23 & E3 & E4) & E5 & E5') & E6). split; [lia|].
  rewrite Hn6, Hc6, Hn5, Hc5, Hn4, Hc4, Hn2, Hc1, Hn1 in *. subst d.
  eapply (lay_while g a X inverted cond body); [exact E2|done|lia|exact E5'|exact (E23 _ E5)| |exact E4].
  apply E3; simpl; try done; try lia.
Qed.

(** ** Rescue clauses *)

Lemma tests_laid exc types : forall c js c',
  emit_type_tests exc types c = Some (js, c') -> wf c -> 0 <= exc < 4096 ->
  forallb (fun type => (0 <=? type) && (type <? 65536)) types = true ->
  existsb diamond_type_operand_is_native types = false ->
  produces_open false c c' [] js (fun _ => forall pb, (forall o, o ∈ js -> short_at C o = Some pb) ->
    pb <= code_end -> tests_at g a exc pb types (code_count c) (next_register c) (code_count c')
      (next_register c')).
Proof.
  induction types as [|type types IH]; intros c js c' Hc HW He Hr Hn.
  - apply ret_inv in Hc as [-> ->].
    apply produces_step; [by apply goes_refl|by apply same_context_eq|]. done.
  - simpl in Hc, Hr, Hn. apply andb_prop in Hr as [Ht Hr]. apply orb_false_elim in Hn as [Hnt Hn].
    apply bind_inv in Hc as (m & c1 & H1 & Hc). apply bind_inv in Hc as (? & c2 & H2 & Hc).
    apply bind_inv in Hc as (j & c3 & H3 & Hc). apply bind_inv in Hc as (js' & c4 & H4 & Hc).
    apply ret_inv in Hc as [-> ->].
    destruct (allocate_produces false _ _ _ H1 HW) as (Hm & Hn1 & Hc1 & Hmb & P1).
    apply instruction_emits in H2 as (He2 & HG2 & HS2 & Hn2 & Hc2); [|apply P1].
    assert (P2 : produces false c1 c2 [] (fun _ => at_ a (code_count c1) (IS_TYPE m exc type) (code_count c2))).
    { apply produces_step; [done..|]. intros X H _ HF Ha.
      eapply laid_is_type; [exact He2|exact HF|done|lia|lia|lia]. }
    destruct (conditional_produces false true _ _ _ _ H3 (goes_wf _ _ _ HG2)) as (Hn3 & Hj & Hc3 & P3); [lia|].
    assert (P4 := IH _ _ _ H4 (produces_wf _ _ _ _ _ _ P3) He Hr Hn).
    eapply produces_mono; [exact (produces_then _ _ _ _ _ _ _ _ _ _ P1 (produces_then _ _ _ _ _ _ _ _ _ _ P2
      (produces_then _ _ _ _ _ _ _ _ _ _ P3 P4)))|].
    intros X (E1 & E2 & E3 & E4) pb Hpb Hle. rewrite Hc1, Hn1, Hn2, Hn3 in *. subst m.
    exists (code_count c2), (code_count c3). split_and!; try done.
    + apply E3, Hpb. by left.
    + apply E4; [|done]. intros o Ho. apply Hpb. by right.
Qed.

(** The tests of a clause and the jump past it. *)
Definition mismatch (m : option Z) : list Z := match m with Some j => [j] | None => [] end.

Lemma clause_head_laid exc types c m c' :
  (let! match_jumps := emit_type_tests exc types in
   let! mismatch_jump :=
     (match types with
      | [] => vm_ret None
      | _ => let! jump := emit_jump DIAMOND_OP_JUMP 0 in vm_ret (Some jump)
      end) in
   let! c := get_compiler in
   let! _ := patch_jumps match_jumps (code_count c) in
   vm_ret mismatch_jump) c = Some (m, c') -> wf c -> 0 <= exc < 4096 ->
  forallb (fun type => (0 <=? type) && (type <? 65536)) types = true ->
  existsb diamond_type_operand_is_native types = false ->
  produces_open false c c' [] (mismatch m) (fun _ => forall p4, (forall j, m = Some j -> short_at C j = Some p4) ->
    exists p1, tests_at g a exc (code_count c') types (code_count c) (next_register c) p1 (next_register c') /\
      match types with [] => code_count c' = p1 | _ => at_ a p1 (JUMP p4) (code_count c') end).
Proof.
  intros Hc HW He Hr Hn. apply bind_inv in Hc as (js & c1 & H1 & Hc).
  apply bind_inv in Hc as (m' & c2 & H2 & Hc). apply bind_inv in Hc as (? & ? & [= <- <-] & Hc).
  apply bind_inv in Hc as (? & c3 & H3 & Hc). apply ret_inv in Hc as [-> ->].
  assert (P1 := tests_laid _ _ _ _ _ H1 HW He Hr Hn). assert (Q1 := produces_within _ _ _ _ _ _ P1).
  simpl in Q1.
  assert (P2 : code_count c1 <= code_count c2 /\ next_register c2 = next_register c1 /\
    (forall o, o ∈ mismatch m' -> code_count c1 < o) /\
    produces_open false c1 c2 [] (mismatch m') (fun _ => forall p4,
      (forall j, m' = Some j -> short_at C j = Some p4) ->
      match types with [] => code_count c2 = code_count c1 | _ => at_ a (code_count c1) (JUMP p4) (code_count c2) end)).
  { destruct types as [|type types].
    - apply ret_inv in H2 as [-> ->]. split; [lia|]. split; [done|]. split; [by intros o ?%elem_of_nil|].
      apply produces_step; [apply goes_refl, P1|by apply same_context_eq|]. done.
    - apply bind_inv in H2 as (j & c2' & H2 & Hj). apply ret_inv in Hj as [-> ->].
      destruct (jump_produces false _ _ _ H2 (produces_wf _ _ _ _ _ _ P1)) as (Hn2 & Hj & Hc2 & P2).
      split; [lia|]. split; [done|]. split; [intros o ->%list_elem_of_singleton; lia|].
      eapply produces_mono; [exact P2|]. auto. }
  destruct P2 as (Hc2 & Hn2 & Q2 & P2).
  assert (PA := produces_then _ _ _ _ _ _ _ _ _ _ P1 P2). simpl app in PA.
  destruct (produces_close_all _ _ _ _ _ _ (mismatch m') _ _ _ _ PA H3) as (Hn3 & Hc3 & P3);
    [unfold code_count; lia|set_solver..| |].
  - intros o Ho p Hp. simpl in Hp. apply Q1 in Ho. apply Q2 in Hp. lia.
  - destruct P3 as (HG & HS & HW3 & HA & HF). split_and!; try done.
    intros X H Hm Hf Hop Hx p4 Hp4. destruct (HF X H Hm Hf Hop Hx) as ((E1 & E2) & E3).
    assert (Hend := final_end _ _ _ _ _ Hf). rewrite Hc3, Hn3, Hn2 in *. exists (code_count c1).
    split; [by apply E1|]. specialize (E2 p4 Hp4). by destruct types.
Qed.

Lemma clause_body_laid body slot exc rt c v c1 : stmts_laid body ->
  compile_body body (set_rescue c (Some exc) (Some rt)) = Some (v, c1) ->
  wf c -> plain_stmts few true body = true -> (slot, exc) ∈ homes c ->
  let c2 := set_rescue c1 (current_exception c) (current_retry_target c) in
  exists nb, produces false c c2 nb (fun X => forall x, X = in_begin x -> 0 <= rt <= code_end ->
    0 <= v < next_register c2 /\
    lay_body g a (in_clause x slot rt) body (code_count c) (next_register c) v (code_count c2)
      (next_register c2)).
Proof.
  intros Hb Hc HW Hp Hs c2. set (c0 := set_rescue c _ _) in Hc.
  assert (HG0 : Goes c c0 []) by by apply goes_same.
  destruct (body_laid _ Hb _ _ _ _ Hc (goes_wf _ _ _ HG0) Hp) as [_ [nb P]].
  destruct P as (HG & HS & HQ & HA & HF).
  assert (HG2 : Goes c1 c2 []) by (apply goes_same; [apply HG|done..]).
  exists nb. split_and!; try done.
  - apply (goes_trans _ _ _ _ _ HG0 (goes_trans _ _ _ _ _ HG HG2)).
  - destruct HS as [S1 S2 S3 S4 S5]. by split.
  - intros X H Hm Hf Ho Hx x -> Hrt. back HG2 Hf Hf1. back HG Hf1 Hf0.
    apply (HF (in_clause x slot rt) H); [|done|done|exact Hx].
    destruct Hm as [M1 M2 M3 M4]. split; try done.
    + intros e [= <-]. exists slot. assert (Hb' := wf_homes _ HW _ _ Hs).
      split; [done|]. split; [|simpl; lia]. apply (final_homes _ _ _ _ _ Hf0); [simpl; lia|done].
    + intros t _ [= <-]. done.
Qed.

(** The body of a clause, its value moved, and the jump to the end. *)
Lemma clause_tail_laid body slot exc rt d ls c o c' : stmts_laid body ->
  (let! _ := modify (fun c => set_rescue c (Some exc) (Some rt)) in
   let! rescued := compile_body body in
   let! _ := modify (fun c' => set_rescue c' (current_exception c) (current_retry_target c)) in
   let! _ := emit_instruction DIAMOND_OP_MOVE [d; rescued] in
   let! _ := modify (fun c => set_locals c ls) in
   emit_jump DIAMOND_OP_JUMP 0) c = Some (o, c') ->
  wf c -> plain_stmts few true body = true -> (slot, exc) ∈ homes c -> 0 <= d < 4096 ->
  (forall kr, kr ∈ ls -> kr ∈ homes c) ->
  o = code_count c' - 2 /\ exists nb, within nb (code_count c) (code_count c' - 8) /\
  produces_open false c c' nb [o] (fun X => forall x prun, X = in_begin x -> 0 <= rt <= code_end ->
    short_at C o = Some prun -> exists v p2 p3,
    lay_body g a (in_clause x slot rt) body (code_count c) (next_register c) v p2 (next_register c') /\
    at_ a p2 (MOVE d v) p3 /\ at_ a p3 (JUMP prun) (code_count c')).
Proof.
  intros Hb Hc HW Hp Hs Hd Hls. apply bind_inv in Hc as (? & ? & [= <- <-] & Hc).
  apply bind_inv in Hc as (v & c1 & H1 & Hc). apply bind_inv in Hc as (? & ? & [= <- <-] & Hc).
  apply bind_inv in Hc as (? & c2 & H2 & Hc). apply bind_inv in Hc as (? & ? & [= <- <-] & H3).
  destruct (clause_body_laid body slot exc rt _ _ _ Hb H1 HW Hp Hs) as [nb P1].
  set (c1' := set_rescue c1 _ _) in *. assert (Q1 := produces_within _ _ _ _ _ _ P1).
  destruct (move_produces false _ _ _ _ _ H2 (produces_wf _ _ _ _ _ _ P1) Hd) as (Hn2 & Hc2 & P2).
  assert (W2 := produces_wf _ _ _ _ _ _ P2).
  assert (HG : Goes c2 (set_locals c2 ls) []).
  { split; try done. destruct W2 as [V1 V2 V3 V4 V5 V6 V7 V8]. split; try done. simpl.
    intros [k r] Hkr. apply Hls in Hkr. assert (Hb' := wf_homes _ HW _ _ Hkr).
    assert (G12 := proj1 (produces_then _ _ _ _ _ _ _ _ _ _ P1 P2)).
    apply (goes_homes _ _ _ G12); [lia|done]. }
  assert (P2' : produces false c2 (set_locals c2 ls) [] (fun _ => True)).
  { apply produces_step; [done|by apply same_context_eq|done]. }
  destruct (jump_produces false _ _ _ H3 (goes_wf _ _ _ HG)) as (Hn3 & Ho & Hc3 & P3).
  change (code_count (set_locals c2 ls)) with (code_count c2) in *.
  change (next_register (set_locals c2 ls)) with (next_register c2) in *.
  split; [done|]. exists (nb ++ [] ++ [] ++ []). split; [offsets|].
  eapply produces_mono; [exact (produces_then _ _ _ _ _ _ _ _ _ _ P1 (produces_then _ _ _ _ _ _ _ _ _ _ P2
    (produces_then _ _ _ _ _ _ _ _ _ _ P2' P3)))|].
  intros X (E1 & E2 & _ & E3) xo prun -> Hrt Hpr. destruct (E1 xo eq_refl Hrt) as [Hv L].
  exists v, (code_count c1'), (code_count c2). rewrite Hn3, Hn2. split_and!; auto.
Qed.

Definition clauses_laid (cls : clauses) : Prop :=
  forall frame slot d count catch_all seen c js caught c',
  compile_rescues superclasses frame slot d cls count catch_all seen c = Some ((js, caught), c') ->
  wf c -> plain_clauses few cls = true -> 0 <= d < 4096 -> (slot, exception frame) ∈ homes c ->
  0 <= handler_type_operand frame -> 0 <= retry_target frame ->
  (cls <> CNone -> byte_at (emitted c) (handler_type_operand frame) = Some 0) ->
  (cls = CNone -> caught = catch_all) /\
  exists nb, produces_open false c c' nb js (fun X => forall x prun q (live : bool), X = in_begin x ->
    (forall o, o ∈ js -> short_at C o = Some prun) -> retry_target frame <= code_end ->
    (if match cls with CNone => live | _ => negb caught end
     then at_ a (code_count c') (RAISE (exception frame)) q else q = code_count c') ->
    lay_clauses g a x slot (exception frame) d prun (retry_target frame) live cls (code_count c)
      (next_register c) q (next_register c')).

Lemma no_clauses_laid : clauses_laid CNone.
Proof.
  intros frame slot d count catch_all seen c js caught c' Hc HW _ _ _ _ _ _.
  apply ret_inv in Hc as [[= -> ->] ->]. split; [done|]. exists [].
  apply produces_step; [by apply goes_refl|by apply same_context_eq|].
  intros X H _ HF _ x prun q live _ _ _ Hq. destruct live.
  - by apply lay_clauses_reraise.
  - rewrite Hq. apply lay_clauses_end.
Qed.

Lemma patch_byte_same c o b : 0 <= o -> byte_at (emitted c) o = Some b ->
  set_emitted c (<[Z.to_nat o := b]> (emitted c)) = c.
Proof.
  intros Ho Hb. unfold byte_at in Hb. destruct (Z.ltb_spec o 0); [lia|].
  rewrite list_insert_id by done. by destruct c.
Qed.

Lemma check_types_not_native types : forall count seen seen',
  check_rescue_types superclasses count types seen = Some seen' ->
  existsb diamond_type_operand_is_native types = false.
Proof.
  induction types as [|type types IH]; intros count seen seen' Hc; [done|]. simpl in *.
  destruct (count =? 8); [done|]. destruct (diamond_type_operand_is_native type); [done|].
  simpl in *. destruct (existsb _ seen); [done|]. by eapply IH.
Qed.

Lemma bind_exception_goes named slot exc c u c' :
  bind_exception named slot exc c = Some (u, c') -> wf c -> (slot, exc) ∈ homes c ->
  Goes c c' [] /\ same_context c c' [] /\ code_count c' = code_count c /\
  next_register c' = next_register c /\ homes c' = homes c.
Proof.
  intros Hb HW Hs. unfold bind_exception in Hb. destruct named.
  - apply bind_inv in Hb as (? & ? & [= <- <-] & Hb). destruct (_ =? _); [done|].
    injection Hb as _ <-. split; [|split; [by apply same_context_eq|done]].
    split; try done. destruct HW as [V1 V2 V3 V4 V5 V6 V7 V8]. split; try done. simpl.
    intros kr [->|Hkr]%elem_of_cons; auto.
  - apply ret_inv in Hb as [_ ->]. split; [by apply goes_refl|].
    split; [by apply same_context_eq|done].
Qed.

Lemma mismatch_close retry c c1 c2 nb m o u (F : Context -> Prop) :
  produces_open retry c c1 nb (mismatch m ++ [o]) F ->
  (match m with Some jump => patch_here jump | None => vm_ret tt end) c1 = Some (u, c2) ->
  avoids (nb ++ [o]) (match m with Some j => j | None => 0 end)
    (match m with Some j => j + 2 | None => 0 end) \/ m = None ->
  next_register c2 = next_register c1 /\ code_count c2 = code_count c1 /\
  produces_open retry c c2 nb [o] (fun X => F X /\ code_count c2 <= code_end /\
    forall j, m = Some j -> short_at C j = Some (code_count c2)).
Proof.
  intros P Hp Hav. destruct m as [j|].
  - destruct Hav as [Hav|]; [|done]. simpl app in P.
    destruct (produces_close_here _ _ _ _ _ _ [o] _ _ _ P Hp) as (Hn & Hc & P');
      [by left|intros p; rewrite !elem_of_cons; tauto|by right|done|].
    split; [done|]. split; [done|]. eapply produces_mono; [exact P'|]. intros X (HF & Hs & Hl).
    split_and!; try done. by intros j' [= <-].
  - apply ret_inv in Hp as [_ ->]. split; [done|]. split; [done|].
    destruct P as (HG & HS & HW & HA & HF). split_and!; try done.
    intros X H Hm Hf Ho Hx. split; [by apply (HF X H)|]. split; [apply Hf|done].
Qed.

(** One clause, its jump to the end still open. *)
Lemma clause_laid frame slot d named types body count catch_all seen c ej seen' c' :
  stmts_laid body ->
  compile_rescue superclasses frame slot d named types (compile_body body) count catch_all seen c
    = Some ((ej, seen'), c') ->
  wf c -> forallb (fun type => (0 <=? type) && (type <? 65536)) types = true ->
  plain_stmts few true body = true -> 0 <= d < 4096 -> (slot, exception frame) ∈ homes c ->
  0 <= handler_type_operand frame -> 0 <= retry_target frame ->
  byte_at (emitted c) (handler_type_operand frame) = Some 0 ->
  exists nb, produces_open false c c' nb [ej] (fun X => forall x prun, X = in_begin x ->
    short_at C ej = Some prun -> retry_target frame <= code_end ->
    code_count c' <= code_end /\ exists pb p1 n1 r p2 p3,
    tests_at g a (exception frame) pb types (code_count c) (next_register c) p1 n1 /\
    match types with [] => pb = p1 | _ => at_ a p1 (JUMP (code_count c')) pb end /\
    lay_body g a (in_clause x slot (retry_target frame)) body pb n1 r p2 (next_register c') /\
    at_ a p2 (MOVE d r) p3 /\ at_ a p3 (JUMP prun) (code_count c')).
Proof.
  intros Hb Hone HW Hp1 Hp2 Hd Hs Hty Hrt Hbyte. unfold compile_rescue in Hone.
  destruct (catch_all || (count =? 16)); [done|].
  apply bind_inv in Hone as (? & ? & [= <- <-] & Hone).
  rewrite patch_byte_same in Hone by auto. apply bind_inv in Hone as (? & ? & [= <- <-] & Hone).
  apply bind_inv in Hone as (? & c1 & H1 & Hone). apply bind_inv in Hone as (? & c1' & Hseen & Hone).
  unfold vm_lift in Hseen. destruct (check_rescue_types _ _ _ _) as [s|] eqn:Hck; [|done].
  injection Hseen as <- <-.
  apply bind_inv in Hone as (mjs & c2 & H2 & Hone). apply bind_inv in Hone as (m & c3 & H3 & Hone).
  apply bind_inv in Hone as (? & ? & [= <- <-] & Hone). apply bind_inv in Hone as (? & c4 & H4 & Hone).
  apply bind_inv in Hone as (? & ? & [= <- <-] & Hone). apply bind_inv in Hone as (v & c5 & H5 & Hone).
  apply bind_inv in Hone as (? & ? & [= <- <-] & Hone). apply bind_inv in Hone as (? & c6 & H6 & Hone).
  apply bind_inv in Hone as (? & ? & [= <- <-] & Hone). apply bind_inv in Hone as (ej' & c7 & H7 & Hone).
  apply bind_inv in Hone as (? & c8 & H8 & Hone). apply ret_inv in Hone as [[= -> ->] ->].
  rename ej' into ej.
  destruct (bind_exception_goes _ _ _ _ _ _ H1 HW Hs) as (HG1 & HS1 & Hc1 & Hn1 & Hh1).
  assert (P1 : produces false c c1 [] (fun _ => True)) by (apply produces_step; done).
  assert (Hexc := wf_homes _ HW _ _ Hs). assert (N := wf_next _ HW).
  assert (P4 := clause_head_laid (exception frame) types c1 m c4
    ltac:(unfold vm_bind at 1; rewrite H2; unfold vm_bind at 1; rewrite H3; unfold vm_bind, get_compiler;
          by rewrite H4) (goes_wf _ _ _ HG1) ltac:(lia) Hp1 (check_types_not_native _ _ _ _ Hck)).
  assert (PA := produces_then _ _ _ _ _ _ _ _ _ _ P1 P4). simpl app in PA.
  assert (HGA := proj1 PA). assert (HSA := proj1 (proj2 PA)).
  assert (Hkeep : forall k r, (k, r) ∈ homes c -> (k, r) ∈ homes c4).
  { intros k r Hk. apply (goes_homes _ _ _ HGA); [|done]. apply (wf_homes _ HW) in Hk. lia. }
  destruct (clause_tail_laid body slot (exception frame) (retry_target frame) d (locals c) c4 ej c7 Hb)
    as (Hej & nb1 & Q7 & P7).
  { unfold vm_bind at 1, modify at 1. unfold vm_bind at 1. rewrite H5.
    rewrite (same_exception _ _ _ HSA), (same_retry _ _ _ HSA). unfold vm_bind, modify in *.
    by rewrite H6. }
  { apply PA. } { done. } { by apply Hkeep. } { done. }
  { intros [k r] Hk. by apply Hkeep, (wf_locals _ HW). }
  assert (PB := produces_then _ _ _ _ _ _ _ _ _ _ PA P7). simpl app in PB.
  assert (Q4 := produces_within _ _ _ _ _ _ P4). assert (Q7' := produces_within _ _ _ _ _ _ P7).
  simpl in Q4.
  destruct (mismatch_close _ _ _ _ _ _ _ _ _ PB H8) as (Hn8 & Hc8 & P8).
  { destruct m as [j|]; [left|by right]. destruct (Q4 j ltac:(by left)) as [? ?].
    intros o Ho. apply Q7' in Ho. lia. }
  exists nb1. eapply produces_mono; [exact P8|].
  intros X ((( _ & E4) & E7) & E8 & E8') xo prun -> Hpr Hle. split; [exact E8|].
  destruct (E4 _ E8') as (p1 & Ht & Hmm).
  destruct (E7 xo prun eq_refl ltac:(done) Hpr) as (rv & p2 & p3 & L & Hm & Hj).
  rewrite <- Hc1, <- Hn1. rewrite <- Hc8 in Hj. rewrite <- Hn8 in L. do 6 eexists. eauto 8.
Qed.

Lemma rescue_laid named types body rest :
  stmts_laid body -> clauses_laid rest -> clauses_laid (CRescue named types body rest).
Proof.
  intros Hb Hr frame slot d count catch_all seen c js caught c' Hc HW Hp Hd Hs Hty Hrt Hbyte.
  split; [done|]. simpl in Hp. apply andb_prop in Hp as [[Hp1 Hp2]%andb_prop Hp3]. simpl in Hc.
  apply bind_inv in Hc as ([ej seen1] & c8 & Hone & Hc).
  apply bind_inv in Hc as ([js' caught'] & c9 & H9 & Hc). apply ret_inv in Hc as [[= -> ->] ->].
  specialize (Hbyte ltac:(done)).
  destruct (clause_laid _ _ _ _ _ _ _ _ _ _ _ _ _ Hb Hone HW Hp1 Hp2 Hd Hs Hty Hrt Hbyte) as [nb1 P8].
  assert (HG8 := proj1 P8). assert (HW8 := goes_wf _ _ _ HG8). assert (Hexc := wf_homes _ HW _ _ Hs).
  destruct (Hr _ _ _ _ _ _ _ _ _ _ H9 HW8 Hp3 Hd) as (Hcaught & nb2 & P9); try done.
  { apply (goes_homes _ _ _ HG8); [lia|done]. }
  { intros _. rewrite <- Hbyte. apply (goes_code _ _ _ HG8).
    - apply byte_at_some in Hbyte. unfold code_count. lia.
    - by intros (o & Ho%elem_of_nil & _). }
  exists (nb1 ++ nb2). eapply produces_mono; [exact (produces_then _ _ _ _ _ _ _ _ _ _ P8 P9)|].
  intros X (E8 & E9) xo prun q live -> Hjs Hle Hq.
  destruct (E8 xo prun eq_refl (Hjs ej ltac:(by left)) Hle) as (Hend & pb & p1 & n1 & rv & p2 & p3 & Ht & Hmm & L & Hm & Hj).
  eapply lay_clauses_rescue; [exact Ht|exact Hmm|exact Hend|exact L|exact Hm|exact Hj|].
  apply E9; [done|intros o Ho; apply Hjs; by right|done|].
  destruct rest as [|named' types' body' rest']; [|done]. rewrite (Hcaught eq_refl) in Hq.
  by destruct types.
Qed.

(** ** Begin blocks *)

(** PUSH_ENSURE and RUN_ENSURE, with their target still open. *)
Lemma open_operand op c c1 u u' u'' c2 c3 :
  emit_opcode op c = Some (u, c1) -> emit_byte 0 c1 = Some (u', c2) -> emit_byte 0 c2 = Some (u'', c3) ->
  wf c ->
  Emits c c3 op [0] /\ Goes c c3 [] /\ same_context c c3 [] /\ next_register c3 = next_register c /\
  code_count c1 = code_count c3 - 2 /\ code_count c3 = code_count c + 3.
Proof.
  intros H1 H2 H3 HW. apply emit_byte_inv in H1 as [-> B1]. apply emit_byte_inv in H2 as [-> B2].
  apply emit_byte_inv in H3 as [-> B3]. rewrite !append_app in *.
  assert (HE : Emits c (append c (([op] ++ [0]) ++ [0])) op [0]) by done.
  edestruct emits_goes as (HG & HS & HN & HC); [exact HE|apply B3, B2, B1, HW|done|].
  split_and!; try done; rewrite !code_count_append; simpl; lia.
Qed.

Lemma protected_laid body c b c1 d c2 u3 c3 u4 c4 j c5 : stmts_laid body ->
  compile_body body c = Some (b, c1) -> allocate_register c1 = Some (d, c2) ->
  emit_instruction DIAMOND_OP_MOVE [d; b] c2 = Some (u3, c3) ->
  emit_instruction DIAMOND_OP_POP_RESCUE [] c3 = Some (u4, c4) ->
  emit_jump DIAMOND_OP_JUMP 0 c4 = Some (j, c5) -> wf c -> plain_stmts few false body = true ->
  j = code_count c5 - 2 /\ next_register c5 = d + 1 /\ 0 <= d < 4096 /\ next_register c < d /\
  exists nb, within nb (code_count c) (code_count c5 - 9) /\
  produces_open false c c5 nb [j] (fun X => forall t, short_at C j = Some t -> exists p2 p3 p4,
    lay_body g a X body (code_count c) (next_register c) b p2 d /\ scratch g d /\
    at_ a p2 (MOVE d b) p3 /\ at_ a p3 POP_RESCUE p4 /\ at_ a p4 (JUMP t) (code_count c5)).
Proof.
  intros Hb H1 H2 H3 H4 H5 HW Hp. destruct (body_laid _ Hb _ _ _ _ H1 HW Hp) as [Hlt [nb P1]].
  destruct (allocate_produces false _ _ _ H2 (produces_wf _ _ _ _ _ _ P1)) as (Hd & Hn2 & Hc2 & Hdb & P2).
  destruct (move_produces false _ _ _ _ _ H3 (produces_wf _ _ _ _ _ _ P2) Hdb) as (Hn3 & Hc3 & P3).
  apply instruction_emits in H4 as (He4 & HG4 & HS4 & Hn4 & Hc4); [|apply P3]. simpl in Hc4.
  assert (P4 : produces false c3 c4 [] (fun _ => at_ a (code_count c3) POP_RESCUE (code_count c4))).
  { apply produces_step; [done..|]. intros X H _ HF Ha. by eapply laid_pop_rescue. }
  destruct (jump_produces false _ _ _ H5 (goes_wf _ _ _ HG4)) as (Hn5 & Hj & Hc5 & P5).
  assert (Q1 := produces_within _ _ _ _ _ _ P1).
  split; [done|]. split; [lia|]. split; [lia|]. split; [lia|]. exists (nb ++ [] ++ [] ++ [] ++ []).
  split; [offsets|].
  eapply produces_mono; [exact (produces_then _ _ _ _ _ _ _ _ _ _ P1 (produces_then _ _ _ _ _ _ _ _ _ _ P2
    (produces_then _ _ _ _ _ _ _ _ _ _ P3 (produces_then _ _ _ _ _ _ _ _ _ _ P4 P5))))|].
  intros X ((Hv & L) & Hs & Hm & Hpop & Hj') t Ht. exists (code_count c1), (code_count c3), (code_count c4).
  rewrite Hc2 in Hm. rewrite Hd. split_and!; try done; [rewrite <- Hd; done|rewrite <- Hd; apply Hm; lia|auto].
Qed.

(** The register of the exception is the home of its slot. *)
Lemma exception_laid slot c exc c1 u c2 :
  allocate_register c = Some (exc, c1) -> note_homes [(slot, exc)] c1 = Some (u, c2) -> wf c ->
  exc = next_register c /\ next_register c2 = exc + 1 /\ code_count c2 = code_count c /\ 0 <= exc < 4096 /\
  (slot, exc) ∈ homes c2 /\ produces false c c2 [] (fun _ => (slot, exc) ∈ ghomes g).
Proof.
  intros H1 H2 HW. apply allocate_goes in H1 as (HG & HS & Hc & Hr & Hn & Hb & Hnil & Hh); [|done].
  apply note_homes_inv in H2 as (-> & _ & Hfresh).
  assert (HW1 := goes_wf _ _ _ HG).
  assert (Hin : (slot, exc) ∈ homes (set_homes c1 (rev [(slot, exc)] ++ homes c1))) by by left.
  split; [done|]. split; [simpl; lia|]. split; [done|]. split; [lia|]. split; [done|].
  apply produces_step.
  - split; simpl; try done; try lia.
    + apply HG.
    + apply HG.
    + intros r Hr'. by apply (goes_nils _ _ _ HG).
    + intros k r Hr'. rewrite Hh, elem_of_cons. split; [|by right]. intros [[= -> ->]|?]; [lia|done].
    + assert (HWh := wf_homes _ HW). destruct HW1 as [V1 V2 V3 V4 V5 V6 V7 V8]. split; simpl; try done.
      * intros k r [[= -> ->]|Hk]%elem_of_cons; [lia|by eapply V4].
      * intros k r r' [E1|H1]%elem_of_cons [E2|H2]%elem_of_cons; [congruence| | |by eapply V5].
        -- injection E1 as -> ->. by destruct (Hfresh slot exc r' ltac:(by left)).
        -- injection E2 as -> ->. by destruct (Hfresh slot exc r ltac:(by left)).
      * intros k k' r [E1|H1]%elem_of_cons [E2|H2]%elem_of_cons; [congruence| | |by eapply V6].
        -- injection E1 as -> ->. rewrite Hh in H2. apply HWh in H2. lia.
        -- injection E2 as -> ->. rewrite Hh in H1. apply HWh in H1. lia.
      * intros k r [[= -> ->]|Hk]%elem_of_cons; [|by eapply V7]. rewrite Hnil. intros Hx.
        apply (wf_nils _ HW) in Hx. lia.
      * intros kr Hk. right. by apply V8.
  - destruct HS as [S1 S2 S3 S4 S5]. by split.
  - intros X H _ HF _. apply (final_homes _ _ _ _ _ HF); [simpl; lia|done].
Qed.

Definition rescue_bytes (exc : Z) : list Z :=
  DIAMOND_OP_PUSH_RESCUE :: register_bytes exc ++ [128; 0; 0; 0; 0; 0; 0; 0; 0; 0; 0].

(** The first clause marks the handler as one that catches. *)
Definition type_patched (rescues : clauses) (ty : Z) (c : Compiler) : Compiler :=
  match rescues with CNone => c | _ => set_emitted c (<[Z.to_nat ty := 0]> (emitted c)) end.

Lemma compile_rescues_patched frame slot d cls count catch_all seen c :
  compile_rescues superclasses frame slot d cls count catch_all seen
    (type_patched cls (handler_type_operand frame) c)
  = compile_rescues superclasses frame slot d cls count catch_all seen c.
Proof.
  destruct cls as [|named types body rest]; [done|]. simpl. unfold vm_bind at 1. unfold vm_bind at 4.
  assert (Heq : compile_rescue superclasses frame slot d named types (compile_body body) count catch_all seen
      (set_emitted c (<[Z.to_nat (handler_type_operand frame):=0]> (emitted c)))
    = compile_rescue superclasses frame slot d named types (compile_body body) count catch_all seen c).
  { unfold compile_rescue. destruct (_ || _); [done|]. unfold vm_bind at 1. unfold vm_bind at 15.
    unfold patch_byte, modify. simpl. unfold set_emitted. simpl. by rewrite list_insert_insert_eq. }
  unfold compile_body in Heq. by rewrite Heq.
Qed.

Lemma type_patched_goes rescues ty c : wf c -> 0 <= ty -> Goes c (type_patched rescues ty c) [ty].
Proof.
  intros HW Hty. destruct rescues as [|named types body rest].
  - eapply goes_drop; [by apply goes_refl|]. by intros o ?%elem_of_nil.
  - assert (Hc : code_count (type_patched (CRescue named types body rest) ty c) = code_count c).
    { unfold code_count. simpl. by rewrite length_insert. }
    destruct HW as [V1 V2 V3 V4 V5 V6 V7 V8]. split; try done; [lia| |].
    + intros i Hi Hn. simpl. apply byte_at_insert_other; [done|]. intros ->. apply Hn.
      exists ty. split; [by left|by left].
    + split; try done. lia.
Qed.

Lemma bytes_at_exists code n : forall p, 0 <= p -> p + Z.of_nat n <= Z.of_nat (length code) ->
  exists ts, bytes_at code p n = Some ts.
Proof.
  induction n as [|n IH]; intros p Hp Hl; [by exists []|]. simpl.
  destruct (IH (p + 1)) as [ts ->]; [lia..|].
  assert (Hb : is_Some (byte_at code p)).
  { unfold byte_at. destruct (Z.ltb_spec p 0); [lia|]. apply lookup_lt_is_Some_2. lia. }
  destruct Hb as [b ->]. by eexists.
Qed.

(** PUSH_RESCUE in the finished code, from the states that wrote its parts. *)
Lemma push_rescue_at rescues exc c4 c11 H t :
  wf c4 -> 0 <= exc < 4096 -> avoids H (code_count c4) (code_count c4 + 14) ->
  final (append c4 (rescue_bytes exc)) (code_count c4 + 12 :: code_count c4 + 3 :: H) ->
  final (type_patched rescues (code_count c4 + 3) c11) H ->
  (rescues = CNone -> final (append c4 (rescue_bytes exc)) (code_count c4 + 12 :: H)) ->
  code_count c4 + 14 <= code_count c11 -> short_at C (code_count c4 + 12) = Some t ->
  exists ts, at_ a (code_count c4)
    (PUSH_RESCUE exc (match rescues with CNone => 128 | _ => 0 end) ts t) (code_count c4 + 14).
Proof.
  intros HW He Ha HF5 HF HFn Hc Hs. set (p := code_count c4) in *.
  assert (Hp : 0 <= p) by (unfold p, code_count; lia).
  assert (Hend := final_end _ _ _ _ _ HF5). rewrite code_count_append in Hend. fold p in Hend. simpl length in Hend.
  destruct (bytes_at_exists C 8 (p + 4)) as [ts Hts]; [lia..|]. exists ts.
  apply at_push_rescue; try done.
  - replace p with (p + 0) by lia. eapply final_byte; [exact HF5|offsets|lia|done].
  - apply short_at_intro; [lia| |].
    + eapply final_byte; [exact HF5|offsets|lia|done].
    + replace (p + 1 + 1) with (p + 2) by lia. eapply final_byte; [exact HF5|offsets|lia|done].
  - destruct rescues as [|named types body rest].
    + eapply final_byte; [exact (HFn eq_refl)|offsets|lia|done].
    + rewrite (final_code _ _ _ _ _ HF).
      * simpl. apply byte_at_insert_same. unfold code_count in Hc. lia.
      * unfold code_count in *. simpl. rewrite length_insert. lia.
      * eapply avoids_operands; [exact Ha|lia].
Qed.

Lemma rescue_frame_laid rescues exc c4 c10 nb js F u c11 :
  let c5 := append c4 (rescue_bytes exc) in
  let c12 := type_patched rescues (code_count c4 + 3) c11 in
  wf c4 -> 0 <= exc < 4096 -> code_count c5 <= 65535 ->
  produces_open false c5 c10 nb js F -> patch_here (code_count c4 + 12) c10 = Some (u, c11) ->
  next_register c12 = next_register c10 /\ code_count c12 = code_count c10 /\
  (rescues <> CNone -> byte_at (emitted c12) (code_count c4 + 3) = Some 0) /\
  produces_open false c4 c12 nb js (fun X => F X /\ code_count c12 <= code_end /\
    exists ts, at_ a (code_count c4)
      (PUSH_RESCUE exc (match rescues with CNone => 128 | _ => 0 end) ts (code_count c12)) (code_count c5)).
Proof.
  intros c5 c12 HW He Hc5 (HG & HS & HQ & HA & HF) Hp.
  assert (Hp4 : 0 <= code_count c4) by (unfold code_count; lia).
  assert (Hc : code_count c5 = code_count c4 + 14) by (unfold c5; rewrite code_count_append; simpl; lia).
  assert (HG5 : Goes c4 c5 []) by by apply goes_append.
  assert (K := goes_count _ _ _ HG).
  apply patch_here_goes in Hp as (Hc11 & HG11 & HS11 & Hn11 & Hcc11); [|apply HG|lia].
  assert (HG12 := type_patched_goes rescues (code_count c4 + 3) c11 (goes_wf _ _ _ HG11) ltac:(lia)).
  fold c12 in HG12.
  assert (Hc12 : code_count c12 = code_count c11).
  { unfold c12, type_patched. destruct rescues; [done|]. unfold code_count. simpl. by rewrite length_insert. }
  assert (Hn12 : next_register c12 = next_register c11) by (unfold c12; by destruct rescues).
  split; [congruence|]. split; [congruence|]. split.
  { intros Hne. unfold c12, type_patched. destruct rescues; [done|]. apply byte_at_insert_same.
    unfold code_count in *. lia. }
  split_and!.
  - eapply goes_drop; [exact (goes_trans _ _ _ _ _ HG5 (goes_trans _ _ _ _ _ HG
      (goes_trans _ _ _ _ _ HG11 HG12)))|]. simpl. intros o Ho. right. split_elem; subst; lia.
  - assert (HS12 : same_context c11 c12 []) by (unfold c12; apply same_context_eq; by destruct rescues).
    assert (HS5 : same_context c4 c5 []) by by apply same_context_eq.
    eapply same_context_nb; [exact (same_context_trans _ _ _ _ _ HS5 (same_context_trans _ _ _ _ _ HS
      (same_context_trans _ _ _ _ _ HS11 HS12)))|]. simpl. apply app_nil_r.
  - offsets.
  - done.
  - intros X H Hm Hf Ho Hx. back HG12 Hf Hf11. back HG11 Hf11 Hf10. back HG Hf10 Hf5.
    assert (Hav : avoids H (code_count c4) (code_count c4 + 14)) by offsets.
    assert (Hs : short_at C (code_count c4 + 12) = Some (code_count c12)).
    { rewrite Hc11 in Hf11. rewrite Hc12, Hcc11. eapply final_patched; [exact Hf11| |lia|lia|].
      - offsets.
      - assert (B := wf_count _ (goes_wf _ _ _ HG)). lia. }
    split_and!.
    + apply (HF X _ ltac:(eapply matches_goes; [exact Hm|exact HG5|by apply same_context_eq]) Hf10); [|done].
      clear Hav. offsets.
    + apply Hf.
    + rewrite Hc. eapply push_rescue_at; [done|done|exact Hav|exact Hf5|exact Hf| |lia|done].
      intros ->. back HG11 Hf Hf10'. by back HG Hf10' Hf5'.
Qed.

Definition clause_body (b : branch) : option (VM Compiler Z) :=
  match b with BNone => None | BBlock s => Some (compile_body s) | BElsif _ => Some fail end.

Lemma else_laid d otherwise c u c' : branch_laid otherwise ->
  (match clause_body otherwise with
   | None => vm_ret tt
   | Some clause =>
       let! normal := clause in
       emit_instruction DIAMOND_OP_MOVE [d; normal]
   end) c = Some (u, c') -> wf c -> plain_branch few false otherwise = true -> 0 <= d < 4096 ->
  exists nb, produces false c c' nb (fun X =>
    lay_clause_opt g a X d otherwise (code_count c) (next_register c) (code_count c') (next_register c')).
Proof.
  intros [_ Hb] Hc HW Hp Hd. destruct otherwise as [|s|s]; [| |done].
  - apply ret_inv in Hc as [_ ->]. exists []. apply produces_step; [by apply goes_refl|by apply same_context_eq|].
    intros. apply lay_no_clause.
  - apply bind_inv in Hc as (v & c1 & H1 & Hc).
    destruct (body_laid _ Hb _ _ _ _ H1 HW Hp) as [Hlt [nb P1]].
    destruct (move_produces false _ _ _ _ _ Hc (produces_wf _ _ _ _ _ _ P1) Hd) as (Hn & _ & P2).
    exists (nb ++ []). apply (produces_seq _ _ _ _ _ _ _ _ _ P1 P2). intros X [Hv L] Hmv.
    rewrite Hn. by eapply lay_else_clause; [|apply Hmv].
Qed.

Lemma ensure_laid ensure c u c' : branch_laid ensure ->
  (match clause_body ensure with
   | None => vm_ret tt
   | Some clause => let! _ := clause in vm_ret tt
   end) c = Some (u, c') -> wf c -> plain_branch few false ensure = true ->
  exists nb, produces false c c' nb (fun X =>
    lay_ensure g a X ensure (code_count c) (next_register c) (code_count c') (next_register c')).
Proof.
  intros [_ Hb] Hc HW Hp. destruct ensure as [|s|s]; [| |done].
  - apply ret_inv in Hc as [_ ->]. exists []. apply produces_step; [by apply goes_refl|by apply same_context_eq|].
    intros. apply lay_no_ensure.
  - apply bind_inv in Hc as (v & c1 & H1 & Hc). apply ret_inv in Hc as [_ ->].
    destruct (body_laid _ Hb _ _ _ _ H1 HW Hp) as [Hlt [nb P1]].
    exists nb. eapply produces_mono; [exact P1|]. intros X [Hv L]. by eapply lay_ensure_clause.
Qed.

Lemma open_begin_inv slot c frame c5 :
  open_begin_frame slot c = Some (frame, c5) -> wf c ->
  let c1 := set_begin_depth c (begin_depth c + 1) in
  exists c2 c4,
    Emits c1 c2 DIAMOND_OP_PUSH_ENSURE [0] /\ Goes c1 c2 [] /\ same_context c1 c2 [] /\
    next_register c2 = next_register c /\ code_count c2 = code_count c + 3 /\
    ensure_operand frame = code_count c2 - 2 /\
    exception frame = next_register c2 /\ next_register c4 = exception frame + 1 /\
    code_count c4 = code_count c2 /\ 0 <= exception frame < 4096 /\ (slot, exception frame) ∈ homes c4 /\
    produces false c2 c4 [] (fun _ => (slot, exception frame) ∈ ghomes g) /\
    c5 = append c4 (rescue_bytes (exception frame)) /\ code_count c5 <= 65535 /\
    handler_type_operand frame = code_count c4 + 3 /\ handler_operand frame = code_count c4 + 12 /\
    retry_target frame = code_count c4.
Proof.
  intros Hc HW c1. unfold open_begin_frame in Hc.
  apply bind_inv in Hc as (? & ? & [= <- <-] & Hc). fold c1 in Hc.
  assert (W1 : wf c1) by (apply (goes_wf c c1 []), goes_same; done).
  apply bind_inv in Hc as (? & ? & [= <- <-] & Hc). apply bind_inv in Hc as (? & c11 & H11 & Hc).
  apply bind_inv in Hc as (? & c12 & H12 & Hc). apply bind_inv in Hc as (? & c2 & H2 & Hc).
  destruct (open_operand _ _ _ _ _ _ _ _ H11 H12 H2 W1) as (He & HG & HS & Hn & Ho & Hcc).
  apply bind_inv in Hc as (exc & c3 & H3 & Hc). apply bind_inv in Hc as (? & c4 & H4 & Hc).
  destruct (exception_laid _ _ _ _ _ _ H3 H4 (goes_wf _ _ _ HG)) as (Hexc & Hn4 & Hc4 & Hb & Hin & P4).
  apply bind_inv in Hc as (? & ? & [= <- <-] & Hc).
  apply bind_inv in Hc as (? & ? & H5 & Hc). apply emit_byte_inv in H5 as [-> B1].
  apply bind_inv in Hc as (? & ? & H5 & Hc). rewrite emit_register_bytes in H5.
  apply emit_bytes_inv in H5 as [-> B2].
  apply bind_inv in Hc as (? & ? & H5 & Hc). apply emit_byte_inv in H5 as [-> B3].
  apply bind_inv in Hc as (? & ? & H5 & Hc). apply emit_bytes_inv in H5 as [-> B4].
  apply bind_inv in Hc as (? & ? & H5 & Hc). apply emit_byte_inv in H5 as [-> B5].
  apply bind_inv in Hc as (? & ? & H5 & Hc). apply emit_byte_inv in H5 as [-> B6].
  apply ret_inv in Hc as [-> ->]. rewrite !append_app in *. exists c2, c4. simpl.
  change (code_count c1) with (code_count c) in *. change (next_register c1) with (next_register c) in *.
  split_and!; try done; try lia.
  apply B6, B5, B4, B3, B2, B1. apply (produces_wf _ _ _ _ _ _ P4).
Qed.

(** The part of a begin block before its else clause. *)
Definition begin_front_at (x : Context) (slot d : Z) (body : stmts) (rescues : clauses)
    (p n pz prun pe n5 : Z) : Prop :=
  exists p0 ts ph p1 b p2 p3 p4,
    (slot, n) ∈ ghomes g /\ at_ a p (PUSH_ENSURE pz) p0 /\
    at_ a p0 (PUSH_RESCUE n (match rescues with CNone => 128 | _ => 0 end) ts ph) p1 /\
    lay_body g a (in_begin x) body p1 (n + 1) b p2 d /\ scratch g d /\
    at_ a p2 (MOVE d b) p3 /\ at_ a p3 POP_RESCUE p4 /\ at_ a p4 (JUMP pe) ph /\
    lay_clauses g a x slot n d prun p0 false rescues ph (d + 1) pe n5 /\
    p0 <= code_end /\ ph <= code_end /\ pe <= code_end.

(** The raise after the last clause, when the clauses may all fail. *)
Lemma reraise_produces rescues (caught : bool) exc c u c' :
  (if (match rescues with CNone => false | _ => true end) && negb caught
   then emit_instruction DIAMOND_OP_RAISE [exc] else vm_ret tt) c = Some (u, c') -> wf c ->
  0 <= exc < 4096 ->
  next_register c' = next_register c /\
  produces false c c' [] (fun _ =>
    if match rescues with CNone => false | _ => negb caught end
    then at_ a (code_count c) (RAISE exc) (code_count c') else code_count c' = code_count c).
Proof.
  intros Hc HW He.
  replace (match rescues with CNone => false | _ => negb caught end)
    with ((match rescues with CNone => false | _ => true end) && negb caught) by by destruct rescues.
  destruct (_ && _).
  - apply instruction_emits in Hc as (He' & HG & HS & Hn & _); [|done]. split; [done|].
    apply produces_step; try done. intros X H _ HF Ha.
    eapply laid_raise; [exact He'|exact HF|done|lia].
  - apply ret_inv in Hc as [_ ->]. split; [done|].
    apply produces_step; [by apply goes_refl|by apply same_context_eq|done].
Qed.

Lemma begin_front_laid slot body rescues c frame c5 b c6 d c7 u8 c8 u9 c9 j c10 u11 c11 ends caught c12
    u13 c13 u14 c14 :
  stmts_laid body -> clauses_laid rescues -> open_begin_frame slot c = Some (frame, c5) ->
  compile_body body c5 = Some (b, c6) -> allocate_register c6 = Some (d, c7) ->
  emit_instruction DIAMOND_OP_MOVE [d; b] c7 = Some (u8, c8) ->
  emit_instruction DIAMOND_OP_POP_RESCUE [] c8 = Some (u9, c9) ->
  emit_jump DIAMOND_OP_JUMP 0 c9 = Some (j, c10) ->
  patch_here (handler_operand frame) c10 = Some (u11, c11) ->
  compile_rescues superclasses frame slot d rescues 0 false [] c11 = Some ((ends, caught), c12) ->
  (if (match rescues with CNone => false | _ => true end) && negb caught
   then emit_instruction DIAMOND_OP_RAISE [exception frame] else vm_ret tt) c12 = Some (u13, c13) ->
  patch_here j c13 = Some (u14, c14) -> wf c ->
  plain_stmts few false body = true -> plain_clauses few rescues = true ->
  let c1 := set_begin_depth c (begin_depth c + 1) in
  0 <= d < 4096 /\ d < next_register c14 /\ ensure_operand frame = code_count c + 1 /\
  code_count c + 17 <= code_count c14 /\
  exists nb, within (nb ++ ends) (code_count c + 17) (code_count c14) /\
  produces_open false c1 c14 nb (ensure_operand frame :: ends) (fun X => forall x pz prun,
    X = in_begin x -> short_at C (ensure_operand frame) = Some pz ->
    (forall o, o ∈ ends -> short_at C o = Some prun) ->
    begin_front_at x slot d body rescues (code_count c) (next_register c) pz prun (code_count c14)
      (next_register c14)).
Proof.
  intros Hb Hr H1 H6 H7 H8 H9 H10 H11 H12 H13 H14 HW Hp1 Hp2 c1.
  destruct (open_begin_inv _ _ _ _ H1 HW) as (c2 & c4 & He2 & HG2 & HS2 & Hn2 & Hc2 & Heo & Hexc & Hn4
    & Hc4 & Hexb & Hin & P4 & -> & Hc5 & Hty & Hho & Hrt). fold c1 in He2, HG2, HS2.
  assert (P2 : produces_open false c1 c2 [] [ensure_operand frame] (fun _ => forall t,
    short_at C (ensure_operand frame) = Some t -> at_ a (code_count c1) (PUSH_ENSURE t) (code_count c2))).
  { change (code_count c) with (code_count c1) in Hc2. split_and!; try done; [offsets|aparts|].
    intros X H Hm HF Ho _ t Ht. rewrite Heo in *.
    eapply laid_push_ensure; [exact He2|exact HF|offsets|exact Ht]. }
  assert (W4 := produces_wf _ _ _ _ _ _ P4). assert (HG5 := goes_append _ _ W4 Hc5).
  destruct (protected_laid body _ _ _ _ _ _ _ _ _ _ _ Hb H6 H7 H8 H9 H10 (goes_wf _ _ _ HG5) Hp1)
    as (Hj & Hn10 & Hdb & Hlt & nb1 & Q10 & P10).
  rewrite Hho in H11. destruct (rescue_frame_laid rescues _ _ _ _ _ _ _ _ W4 Hexb Hc5 P10 H11)
    as (Hn11 & Hc11 & Hbyte & P11).
  rewrite <- compile_rescues_patched, Hty in H12. set (c11' := type_patched rescues _ c11) in *.
  assert (HG11 := proj1 P11).
  destruct (Hr _ _ _ _ _ _ _ _ _ _ H12 (goes_wf _ _ _ HG11) Hp2 Hdb) as (Hcaught & nb2 & P12).
  { apply (goes_homes _ _ _ HG11); [lia|done]. }
  { unfold code_count in *. lia. } { unfold code_count in *. lia. } { by rewrite Hty. }
  destruct (reraise_produces _ _ _ _ _ _ H13 (produces_wf _ _ _ _ _ _ P12) Hexb) as [Hn13 P13].
  assert (PA := produces_then _ _ _ _ _ _ _ _ _ _ P2 (produces_then _ _ _ _ _ _ _ _ _ _ P4
    (produces_then _ _ _ _ _ _ _ _ _ _ P11 (produces_then _ _ _ _ _ _ _ _ _ _ P12 P13)))).
  simpl app in PA. rewrite !app_nil_r in PA.
  assert (Q12 := produces_within _ _ _ _ _ _ P12).
  assert (B12 := produces_bounds _ _ _ _ _ _ P12). assert (B13 := produces_bounds _ _ _ _ _ _ P13).
  assert (B10 := produces_bounds _ _ _ _ _ _ P10).
  assert (K5 : code_count (append c4 (rescue_bytes (exception frame))) = code_count c4 + 14)
    by (rewrite code_count_append; simpl; lia).
  destruct (produces_close_here _ _ _ _ _ _ (ensure_operand frame :: ends) _ _ _ PA H14)
    as (Hn14 & Hc14 & P14);
    [by right; left|intros p; rewrite !elem_of_cons; tauto|intros p; rewrite !elem_of_cons; tauto|offsets|].
  split; [done|]. split; [lia|]. split; [lia|]. split; [lia|].
  exists (nb1 ++ nb2). split; [offsets|]. eapply produces_mono; [exact P14|].
  intros X ((E2 & E4 & (E10 & E11 & ts & E11') & E12 & E13) & E14 & E14') xo pz prun -> Hpz Hends.
  destruct (E10 _ E14) as (p2 & p3 & p4 & L & Hs & Hm & Hpop & Hjmp).
  assert (Lc := E12 xo prun (code_count c14) false eq_refl Hends ltac:(lia)
    ltac:(rewrite Hc14; by destruct rescues)).
  assert (Hexc' : exception frame = next_register c) by congruence.
  change (next_register (append c4 _)) with (next_register c4) in L. rewrite Hn4, Hexc' in L.
  rewrite Hrt, Hc4, Hn11, Hn10, Hexc' in Lc. rewrite Hc4, Hexc' in E11'. rewrite Hexc' in E4.
  rewrite Hc11 in *. do 8 eexists.
  split_and!; [exact E4|exact (E2 _ Hpz)|exact E11'|exact L|exact Hs|exact Hm|exact Hpop|exact Hjmp| |lia|lia|done].
  rewrite Hn14, Hn13. exact Lc.
Qed.

(** One begin level down and back. *)
Lemma level_produces retry c c' nb (F : Context -> Prop) :
  wf c -> produces false (set_begin_depth c (begin_depth c + 1)) c' nb F ->
  produces retry c (set_begin_depth c' (begin_depth c' - 1)) nb (fun x => F (in_begin x)).
Proof.
  intros HW (HG & HS & HQ & HA & HF). set (c1 := set_begin_depth c _) in *.
  set (c2 := set_begin_depth c' _).
  assert (HG1 : Goes c c1 []) by by apply goes_same.
  assert (HG2 : Goes c' c2 []) by (apply goes_same; [apply HG|done..]).
  split_and!; try done.
  - apply (goes_trans _ _ _ _ _ HG1 (goes_trans _ _ _ _ _ HG HG2)).
  - destruct HS as [S1 S2 S3 S4 S5]. simpl in *. split; simpl; try done. lia.
  - intros x H Hm Hf Ho Hx. back HG2 Hf Hf1. apply (HF _ H); [|done|done|exact Hx].
    destruct Hm as [M1 M2 M3 M4]. split; try done.
    + simpl. lia.
    + intros l Hl. destruct (M4 l Hl) as (la & ? & ? & ? & ? & ? & ? & ? & ? & ? & ?).
      exists la. simpl. split_and!; try done; lia.
Qed.

Lemma run_ensure_produces c c1 u u' u'' c2 c3 :
  emit_opcode DIAMOND_OP_RUN_ENSURE c = Some (u, c1) -> emit_byte 0 c1 = Some (u', c2) ->
  emit_byte 0 c2 = Some (u'', c3) -> wf c ->
  next_register c3 = next_register c /\ code_count c1 = code_count c3 - 2 /\
  code_count c3 = code_count c + 3 /\
  produces_open false c c3 [] [code_count c1] (fun _ => forall t, short_at C (code_count c1) = Some t ->
    at_ a (code_count c) (RUN_ENSURE t) (code_count c3)).
Proof.
  intros H1 H2 H3 HW. destruct (open_operand _ _ _ _ _ _ _ _ H1 H2 H3 HW) as (He & HG & HS & Hn & Ho & Hc).
  split; [done|]. split; [done|]. split; [done|]. split_and!; try done; [offsets|aparts|].
  intros X H _ HF Hop _ t Ht. rewrite Ho in *. eapply laid_run_ensure; [exact He|exact HF|offsets|exact Ht].
Qed.

(** The part from the else clause on, after what [F] says of the front. *)
Lemma begin_back_laid otherwise ensure d e nb1 ends c1 c14 u15 c15 u16 c16 u161 c161 u162 c162 u17 c17 u18 c18
    u19 c19 u20 c20 u21 c21 (F : Context -> Prop) :
  branch_laid otherwise -> branch_laid ensure -> plain_branch few false otherwise = true ->
  plain_branch few false ensure = true -> 0 <= d < 4096 ->
  produces_open false c1 c14 nb1 (e :: ends) F ->
  code_count c1 <= e -> e + 16 <= code_count c14 -> within (nb1 ++ ends) (e + 16) (code_count c14) ->
  (match clause_body otherwise with
   | None => vm_ret tt
   | Some clause => let! normal := clause in emit_instruction DIAMOND_OP_MOVE [d; normal]
   end) c14 = Some (u15, c15) ->
  patch_jumps ends (code_count c15) c15 = Some (u16, c16) ->
  emit_opcode DIAMOND_OP_RUN_ENSURE c16 = Some (u161, c161) -> emit_byte 0 c161 = Some (u162, c162) ->
  emit_byte 0 c162 = Some (u17, c17) -> patch_here e c17 = Some (u18, c18) ->
  (match clause_body ensure with
   | None => vm_ret tt
   | Some clause => let! _ := clause in vm_ret tt
   end) c18 = Some (u19, c19) ->
  emit_instruction DIAMOND_OP_END_ENSURE [] c19 = Some (u20, c20) ->
  patch_here (code_count c161) c20 = Some (u21, c21) ->
  next_register c14 <= next_register c21 /\
  exists nb, produces false c1 c21 nb (fun X => F X /\ exists pz prun n6 pend,
    short_at C e = Some pz /\ (forall o, o ∈ ends -> short_at C o = Some prun) /\
    lay_clause_opt g a X d otherwise (code_count c14) (next_register c14) prun n6 /\
    at_ a prun (RUN_ENSURE (code_count c21)) pz /\
    lay_ensure g a X ensure pz n6 pend (next_register c21) /\
    at_ a pend END_ENSURE (code_count c21) /\ prun <= code_end /\ pz <= code_end /\
    code_count c21 <= code_end).
Proof.
  intros Ho He Hp3 Hp4 Hdb P14 He0 Hc14 Q14 H15 H16 H161 H162 H17 H18 H19 H20 H21.
  destruct (else_laid d otherwise _ _ _ Ho H15 (produces_wf _ _ _ _ _ _ P14) Hp3 Hdb) as [nb2 P15].
  assert (B15 := produces_bounds _ _ _ _ _ _ P15). assert (Q15 := produces_within _ _ _ _ _ _ P15).
  assert (PA := produces_then _ _ _ _ _ _ _ _ _ _ P14 P15). rewrite app_nil_r in PA.
  destruct (produces_close_all _ _ _ _ _ _ [e] _ _ _ _ PA H16) as (Hn16 & Hc16 & P16);
    [unfold code_count; lia|by right|intros p; rewrite !elem_of_cons; tauto
    |intros p ->%list_elem_of_singleton; by left| |].
  { assert (S14 := spread_split _ _ (produces_spread _ _ _ _ _ _ P14)). intros o Hend.
    assert (Q := Q14 o ltac:(apply elem_of_app; auto)). intros p Hp. split_elem.
    - specialize (S14 p o Hp ltac:(by right)). lia.
    - assert (Q' := Q15 p ltac:(apply elem_of_app; auto)). lia.
    - subst p. lia. }
  destruct (run_ensure_produces _ _ _ _ _ _ _ H161 H162 H17 (produces_wf _ _ _ _ _ _ P16))
    as (Hn17 & Hqo & Hc17 & P17).
  assert (PB := produces_then _ _ _ _ _ _ _ _ _ _ P16 P17). simpl app in PB. rewrite app_nil_r in PB.
  destruct (produces_close_here _ _ _ _ _ _ [code_count c161] _ _ _ PB H18) as (Hn18 & Hc18 & P18);
    [by left|intros p; rewrite !elem_of_cons; tauto|by right|offsets|].
  destruct (ensure_laid ensure _ _ _ He H19 (produces_wf _ _ _ _ _ _ P18) Hp4) as [nb3 P19].
  assert (B19 := produces_bounds _ _ _ _ _ _ P19). assert (Q19 := produces_within _ _ _ _ _ _ P19).
  apply instruction_emits in H20 as (He20 & HG20 & HS20 & Hn20 & Hc20); [|apply P19]. simpl in Hc20.
  assert (P20 : produces false c19 c20 [] (fun _ => at_ a (code_count c19) END_ENSURE (code_count c20))).
  { apply produces_step; [done..|]. intros X H _ HF Ha. by eapply laid_end_ensure. }
  assert (PC := produces_then _ _ _ _ _ _ _ _ _ _ P18 (produces_then _ _ _ _ _ _ _ _ _ _ P19 P20)).
  simpl app in PC.
  destruct (produces_close_here _ _ _ _ _ _ [] _ _ _ PC H21) as (Hn21 & Hc21 & P21);
    [by left|intros p; rewrite !elem_of_cons; tauto|by intros p ?%elem_of_nil|offsets|].
  assert (B16 := produces_bounds _ _ _ _ _ _ P16). split; [lia|].
  eexists. eapply produces_mono; [exact P21|].
  intros X ((((((E14 & E15) & E16) & E17) & E18 & E18') & E19 & E20) & E21 & E21').
  split; [exact E14|]. rewrite Hn21, Hn20 in *. specialize (E17 _ E21). rewrite Hc16 in E17.
  rewrite Hn18, Hn17, Hn16 in E19. rewrite <- Hc18 in E17. rewrite Hc21 in *.
  exists (code_count c18), (code_count c15), (next_register c15), (code_count c19).
  split_and!; try done; lia.
Qed.

Lemma begin_laid slot body rescues otherwise ensure :
  stmts_laid body -> clauses_laid rescues -> branch_laid otherwise -> branch_laid ensure ->
  stmt_laid (SBegin slot body rescues otherwise ensure).
Proof.
  intros Hb Hr Ho He retry c r c' Hc HW Hp. simpl in Hp.
  apply andb_prop in Hp as [[[Hp1 Hp2]%andb_prop Hp3]%andb_prop Hp4].
  change (compile_stmt superclasses (SBegin slot body rescues otherwise ensure))
    with (let! frame := open_begin_frame slot in
          let! body := compile_body body in
          close_begin_frame frame body (match rescues with CNone => false | _ => true end)
            (fun destination => compile_rescues superclasses frame slot destination rescues 0 false [])
            (clause_body otherwise) (clause_body ensure)) in Hc.
  unfold close_begin_frame in Hc.
  apply bind_inv in Hc as (frame & c5 & H5 & Hc). apply bind_inv in Hc as (b & c6 & H6 & Hc).
  apply bind_inv in Hc as (d & c7 & H7 & Hc). apply bind_inv in Hc as (? & c8 & H8 & Hc).
  apply bind_inv in Hc as (? & c9 & H9 & Hc). apply bind_inv in Hc as (j & c10 & H10 & Hc).
  apply bind_inv in Hc as (? & c11 & H11 & Hc). apply bind_inv in Hc as ([ends caught] & c12 & H12 & Hc).
  apply bind_inv in Hc as (? & c13 & H13 & Hc). apply bind_inv in Hc as (? & c13' & Hchk & Hc).
  assert (c13' = c13) as ->.
  { destruct otherwise as [|s|s], ensure as [|s'|s'], rescues as [|? ? ? ?];
      first [by apply ret_inv in Hchk as [_ ->]|done]. }
  clear Hchk. apply bind_inv in Hc as (? & c14 & H14 & Hc). apply bind_inv in Hc as (? & c15 & H15 & Hc).
  apply bind_inv in Hc as (? & ? & [= <- <-] & Hc). apply bind_inv in Hc as (? & c16 & H16 & Hc).
  apply bind_inv in Hc as (? & c161 & H161 & Hc). apply bind_inv in Hc as (? & ? & [= <- <-] & Hc).
  apply bind_inv in Hc as (? & c162 & H162 & Hc). apply bind_inv in Hc as (? & c17 & H17 & Hc).
  apply bind_inv in Hc as (? & c18 & H18 & Hc). apply bind_inv in Hc as (? & c19 & H19 & Hc).
  apply bind_inv in Hc as (? & c20 & H20 & Hc). apply bind_inv in Hc as (? & c21 & H21 & Hc).
  apply bind_inv in Hc as (? & ? & [= <- <-] & Hc). apply ret_inv in Hc as [-> ->].
  destruct (begin_front_laid _ _ _ _ _ _ _ _ _ _ _ _ _ _ _ _ _ _ _ _ _ _ _ _ _ Hb Hr H5 H6 H7 H8 H9 H10 H11
    H12 H13 H14 HW Hp1 Hp2) as (Hdb & Hd & Heo & Hc14 & nb1 & Q14 & P14).
  set (c1 := set_begin_depth c (begin_depth c + 1)) in *.
  destruct (begin_back_laid otherwise ensure d _ _ _ c1 _ _ _ _ _ _ _ _ _ _ _ _ _ _ _ _ _ _ _ _ Ho He Hp3 Hp4 Hdb
    P14 ltac:(change (code_count c1) with (code_count c); lia) ltac:(lia) ltac:(rewrite Heo; offsets)
    H15 H16 H161 H162 H17 H18 H19 H20 H21) as (Hn & nb & P21).
  eexists. eapply produces_mono; [exact (level_produces retry _ _ _ _ HW P21)|].
  intros xo (E14 & pz & prun & n6 & pend & G1 & G2 & G3 & G4 & G5 & G6 & G7 & G8 & G9).
  destruct (E14 xo _ _ eq_refl G1 G2) as (p0 & ts & ph & p1 & bv & p2 & p3 & p4 & L1 & L2 & L3 & L4 & L5
    & L6 & L7 & L8 & L9 & L10 & L11 & L12).
  change (code_count (set_begin_depth c21 _)) with (code_count c21).
  change (next_register (set_begin_depth c21 _)) with (next_register c21).
  split; [lia|]. eapply (lay_begin g a xo); eauto.
Qed.

(** Everything the compiler accepts is laid out. *)
Lemma compile_laid :
  (forall s, stmt_laid s) /\ (forall ss, stmts_laid ss) /\ (forall b, branch_laid b) /\
  (forall cls, clauses_laid cls).
Proof.
  apply program_mut.
  - apply expr_laid.
  - apply return_laid.
  - apply raise_laid.
  - apply retry_laid.
  - apply break_laid.
  - apply next_laid.
  - apply redo_laid.
  - intros. by apply if_laid.
  - intros. by apply postfix_laid.
  - intros. by apply while_laid.
  - intros. by apply loop_laid.
  - intros. by apply begin_laid.
  - apply done_laid.
  - intros. by apply then_laid.
  - apply none_laid.
  - intros. by apply block_laid.
  - intros. by apply elsif_laid.
  - apply no_clauses_laid.
  - intros. by apply rescue_laid.
Qed.

End Laid.
