(* ===== verification/ControlProgram.v ===== *)
(** * ControlProgram: compiled functions behave as their source

    The layout of ControlLaid and the simulation of ControlCorrect composed:
    the bytecode [compile_function] returns, run by the dispatch loop from the
    frame [run_chunk] builds, ends the way the structured meaning of the
    function says, with the same value, exception, status or non-local exit
    and the same final heap. *)

From S2P Require Import Prelude.
From S2P Require Import Value.
From S2P Require Import Unwind.
From S2P Require Import ControlMachine.
From S2P Require Import ControlFlow.
From S2P Require Import ControlCompile.
From S2P Require Import ControlLayout.
From S2P Require Import ControlSim.
From S2P Require Import ControlCorrect.
From S2P Require Import ControlEmit.
From S2P Require Import ControlTrace.
From S2P Require Import ControlLaid.
From Stdlib Require Import ZArith Lia Bool List.
From stdpp Require Import base numbers list.

Local Open Scope Z_scope.
Local Open Scope c_scope.

Section Program.
  Context {HO : Host} {EX : Expressions} {OK : ExpressionsOk}.
  Variable superclasses : list Z.
  Variable a : Activation.

(** How a frame whose body ends with [o] leaves. *)
Definition departure (o : Outcome) : option Departure :=
  match o with
  | Normal value | Returned value => Some (Returns value)
  | Raised exception => Some (Throws exception)
  | Failed status => Some (Reports status)
  | Exited value target is_break =>
      Some (if target =? serial a then Returns value
            else if has_previous a then PassesOn value target is_break
            else Reports DIAMOND_VM_TYPE_ERROR)
  | Crashed d => Some d
  | Broke | Nexted | Redone | Retried => None
  end.

(** The register plan of a finished compilation. *)
Definition plan (c : Compiler) (HW : wf c) : Ghost :=
  {| ghomes := homes c; gnils := nils c; ghomes_slot := wf_slot c HW;
     ghomes_register := wf_register c HW; ghomes_nils := wf_disjoint c HW |}.

Definition function_context : Context :=
  {| x_depth := 0; x_current := None; x_retry := None; x_loop := None |}.

Definition function_start (parameters : nat) : Compiler :=
  let registers := map (fun i => (Z.of_nat i, Z.of_nat i)) (seq 0 parameters) in
  {| emitted := []; next_register := Z.of_nat parameters; locals := registers;
     begin_depth := 0; in_function := true; current_exception := None;
     current_retry_target := None; current_loop := None; nils := []; homes := registers |}.

Lemma parameter_home parameters k r :
  (k, r) ∈ homes (function_start parameters) <-> k = r /\ 0 <= r < Z.of_nat parameters.
Proof.
  simpl. rewrite list_elem_of_In, in_map_iff. split.
  - intros (i & [= <- <-] & Hi). apply in_seq in Hi. lia.
  - intros [-> Hr]. exists (Z.to_nat r). split; [f_equal; lia|]. apply in_seq. lia.
Qed.

Lemma function_start_wf parameters : Z.of_nat parameters <= 4096 -> wf (function_start parameters).
Proof.
  intros Hp. split.
  - done.
  - simpl. lia.
  - by intros r ?%elem_of_nil.
  - intros k r [_ ?]%parameter_home. done.
  - intros k r r' [-> _]%parameter_home [-> _]%parameter_home. done.
  - intros k k' r [-> _]%parameter_home [-> _]%parameter_home. done.
  - by intros k r _ ?%elem_of_nil.
  - done.
Qed.

Lemma arguments_represented arguments c (HW : wf c) :
  Goes (function_start (length arguments)) c [] ->
  represents (plan c HW) (argument_registers arguments) (argument_registers arguments).
Proof.
  intros HG. set (start := function_start (length arguments)) in *.
  assert (Hnil : forall z, Z.of_nat (length arguments) <= z -> argument_registers arguments z = DIAMOND_NIL).
  { intros z Hz. unfold argument_registers. destruct (z <? 0); [done|]. by rewrite nth_overflow by lia. }
  split; simpl.
  - intros k r Hk. destruct (Z.lt_ge_cases r (Z.of_nat (length arguments))) as [Hr|Hr].
    + apply (goes_homes _ _ _ HG) in Hk; [|done]. apply parameter_home in Hk as [-> _]. done.
    + rewrite (Hnil r Hr). symmetry.
      destruct (Z.lt_ge_cases k (Z.of_nat (length arguments))) as [Hk'|Hk']; [|by apply Hnil].
      unfold argument_registers. destruct (Z.ltb_spec k 0); [done|].
      assert (Hkk : (k, k) ∈ homes c).
      { apply (goes_homes _ _ _ HG); [done|]. apply parameter_home. lia. }
      assert (k = r) by (eapply (wf_slot _ HW); done). lia.
  - intros r Hr. apply Hnil. destruct (Z.lt_ge_cases r (Z.of_nat (length arguments))) as [Hlt|]; [|done].
    by apply (goes_nils _ _ _ HG) in Hr as []%elem_of_nil.
Qed.

Lemma compiled_start parameters ss r c1 :
  compile_sequence superclasses ss (function_start parameters) = Some (r, c1) ->
  wf (function_start parameters).
Proof.
  intros H1. apply function_start_wf. apply bind_inv in H1 as (? & ? & H1 & _).
  unfold nil_register in H1. apply bind_inv in H1 as (? & ? & H1 & _).
  apply allocate_inv in H1 as (_ & _ & H1). simpl in H1. lia.
Qed.

(** What compiling a whole function does to the state it starts from. *)
Lemma compiled_goes few parameters ss bytes c :
  compile_function superclasses parameters ss = Some (bytes, c) -> plain_stmts few false ss = true ->
  Goes (function_start parameters) c [] /\ bytes = emitted c.
Proof.
  intros Hc Hp. unfold compile_function in Hc. fold (function_start parameters) in Hc.
  destruct (vm_bind _ _ _) as [[[] c2]|] eqn:Hb; [|done]. injection Hc as <- <-. split; [|done].
  apply bind_inv in Hb as (r & c1 & H1 & H2). assert (HW0 := compiled_start _ _ _ _ H1).
  destruct (body_laid superclasses (plan _ HW0) a few ss
    ltac:(apply compile_laid) false _ _ _ H1 HW0 Hp) as [_ [nb P]].
  destruct (instruction_emits _ _ _ _ _ H2 (produces_wf _ _ _ _ _ _ _ _ _ P)) as (_ & HG & _).
  exact (goes_trans _ _ _ _ _ (proj1 P) HG).
Qed.

(** The finished code of a function, laid out from its first byte. *)
Lemma function_laid few arguments ss bytes c :
  compile_function superclasses (length arguments) ss = Some (bytes, c) -> code a = bytes ->
  plain_stmts few false ss = true -> (few = true -> next_register c <= 256) ->
  exists (HW : wf c) r q e n',
    lay_body (plan c HW) a function_context ss 0 (Z.of_nat (length arguments)) r q n' /\
    at_ a q (RETURN r) e /\
    represents (plan c HW) (argument_registers arguments) (argument_registers arguments).
Proof.
  intros Hc Ha Hp Hf. destruct (compiled_goes _ _ _ _ _ Hc Hp) as [HGc _].
  unfold compile_function in Hc. fold (function_start (length arguments)) in Hc.
  destruct (vm_bind _ _ _) as [[[] c2]|] eqn:Hb; [|done]. injection Hc as <- <-.
  apply bind_inv in Hb as (r & c1 & H1 & H2). assert (HW0 := compiled_start _ _ _ _ H1).
  assert (HW2 := goes_wf _ _ _ HGc). exists HW2.
  destruct (body_laid superclasses (plan c2 HW2) a few ss
    ltac:(apply compile_laid) false _ _ _ H1 HW0 Hp) as [_ [nb P]].
  destruct (instruction_emits _ _ _ _ _ H2 (produces_wf _ _ _ _ _ _ _ _ _ P)) as (He & HG & _).
  assert (HF2 : final (plan c2 HW2) a few c2 []).
  { split; try done. - unfold code_count. by rewrite Ha. - intros i _ _. by rewrite Ha. }
  assert (HF1 := final_back _ _ _ _ _ _ _ HG HF2). simpl in HF1.
  destruct P as (HGP & HSP & HQ & HA & HL).
  destruct (HL function_context []) as [Hr L]; [|done|by intros o ?%elem_of_nil|done|].
  { split; [done|intros ? [=]|intros ? ? [=]|intros ? [=]]. }
  exists r, (code_count c1), (code_count c2), (next_register c1). split_and!.
  - exact L.
  - assert (N := wf_next _ (goes_wf _ _ _ HGP)).
    eapply laid_return; [exact He|exact HF2|by intros o ?%elem_of_nil|lia].
  - by apply arguments_represented.
Qed.

(** C2: compiled control flow is right.  When [compile_function] accepts a
    function body of ifs, loops, postfix conditions, returns, raises and
    begin/rescue/else/ensure blocks (retries directly in their clause, rescue
    classes below 65536, at most sixteen handlers deep, a bare raise only below
    257 registers) and the structured run of the body ends, running the bytecode from the frame [run_chunk] builds ends exactly as the structured
    meaning of the body does, whatever the expressions do: the same value,
    exception, status or non-local exit, and the same final heap. *)
Theorem compiled_function_runs few arguments ss bytes c fuel o σ h :
  compile_function superclasses (length arguments) ss = Some (bytes, c) -> code a = bytes ->
  plain_stmts few false ss = true -> (few = true -> next_register c <= 256) ->
  need_stmts ss <= 16 ->
  exec_function (serial a) fuel ss arguments h = Some (o, σ) ->
  exists d n, departure o = Some d /\ run a n (initial_frame arguments h) = Some (d, world σ).
Proof.
  intros Hc Ha Hp Hf Hneed Hex.
  destruct (function_laid _ _ _ _ _ Hc Ha Hp Hf) as (HW & r & q & e & n' & L & Hret & Hrep).
  unfold exec_function in Hex. destruct (exec_stmts _ _ _ _ _ _) as [[o1 σ1]|] eqn:Hx; [|done].
  injection Hex as <- <-.
  destruct (simulation (plan c HW) a fuel) as (_ & Hss & _).
  assert (Hs : sim (plan c HW) a function_context (Z.of_nat (length arguments)) r q [] PENDING_NONE 0
                 (argument_registers arguments) h (o1, σ1)).
  { eapply (body_sim (plan c HW) a fuel Hss function_context ss _ _ _ _ _ [] PENDING_NONE
      (argument_registers arguments) {| store := argument_registers arguments; result := DIAMOND_NIL; world := h |});
      [exact L|split; [exact Hrep|by intros l [=]]|by intros l [=]|simpl; lia|exact Hx]. }
  destruct Hs as (regs & Hh & Hk & Hpr & Hv & Hl).
  simpl in Hl.
  assert (Hd : exists d, departure (match o1 with Normal v => Returned v | _ => o1 end) = Some d /\
                 leads a (initial_frame arguments h) (Leaves d (world σ1))).
  { destruct o1 as [v|v|st|v|v t b| | | | |d]; simpl in Hpr, Hl; try done.
    - eexists. split; [done|]. eapply steps_leads; [exact Hl|].
      eapply (at_ends a q); [exact Hret|]. simpl. by rewrite (Hv v eq_refl).
    - eexists. split; [done|exact Hl].
    - eexists. split; [done|exact Hl].
    - eexists. split; [done|exact Hl].
    - eexists. split; [done|]. unfold pass_exit in Hl. simpl in Hl.
      destruct (t =? serial a); [exact Hl|]. destruct (has_previous a); exact Hl.
    - eexists. split; [done|exact Hl]. }
  destruct Hd as (d & Hdep & Hld). destruct (leads_run _ _ _ _ Hld) as [n Hn]. by exists d, n.
Qed.

(** C9: a compiled function is well formed.  For a body whose retries are directly
    in their clause and whose rescue classes are below 65536, and whose resolved
    tree gives every declaration a slot of its own (the rescue variables of one
    begin block are one slot): the code fits 65535 bytes and the registers 4096,
    no two slots share a register, no register counted on to stay nil is the
    home of a slot, and every parameter keeps the register its argument arrives
    in. *)
Theorem compiled_function_well_formed parameters ss bytes c :
  compile_function superclasses parameters ss = Some (bytes, c) -> plain_stmts true false ss = true ->
  wf c /\ bytes = emitted c /\ Z.of_nat (length bytes) <= 65535 /\
  forall i, 0 <= i < Z.of_nat parameters -> (i, i) ∈ homes c.
Proof.
  intros Hc Hp. destruct (compiled_goes _ _ _ _ _ Hc Hp) as [HG Hb].
  assert (HW := goes_wf _ _ _ HG). split_and!; try done.
  - rewrite Hb. apply HW.
  - intros i Hi. apply (goes_homes _ _ _ HG); [simpl; lia|]. apply parameter_home. lia.
Qed.

End Program.
