(* ===== verification/ControlConsoleOk.v ===== *)
(** * ControlConsoleOk: the small expression language meets its interface

    [ExpressionsOk] for the expressions of ControlConsole: the code of a
    literal, a local, an assignment or a [puts] computes what the expression
    means, in any frame, and touches no register below its own but the homes
    of the locals it assigns. *)

From S2P Require Import Prelude.
From S2P Require Import Value.
From S2P Require Import Unwind.
From S2P Require Import ControlMachine.
From S2P Require Import ControlFlow.
From S2P Require Import ControlCompile.
From S2P Require Import ControlLayout.
From S2P Require Import ControlEmit.
From S2P Require Import ControlSim.
From S2P Require Import ControlConsole.
From Stdlib Require Import ZArith Lia Bool List.
From stdpp Require Import base numbers list sets.

Local Open Scope Z_scope.
Local Open Scope c_scope.

Lemma find_local_in slot ls r : find_local slot ls = Some r -> (slot, r) ∈ ls.
Proof.
  induction ls as [|[k r'] ls IH]; [done|]. simpl. destruct (Z.eqb_spec k slot) as [->|].
  - intros [= <-]. by left.
  - intros Hf. right. auto.
Qed.

(** What a compiled expression allocates. *)
Definition sane (n : Z) (ec : ExprCode) : Prop :=
  n <= expr_next ec /\
  (forall kr, kr ∈ expr_locals ec -> n <= snd kr < expr_next ec) /\
  NoDup (map snd (expr_locals ec)) /\
  (forall r, r ∈ expr_nils ec -> n <= r < expr_next ec /\ r ∉ map snd (expr_locals ec)).

(** Case analysis on a compiled expression: operands are literals or locals. *)
Ltac console_cases :=
  repeat match goal with
  | H : None = Some _ |- _ => done
  | H : Some _ = Some _ |- _ => injection H as <-
  | H : context [match ?e with CNil => _ | _ => _ end] |- _ => destruct e; simpl in H
  | H : context [if ?b then _ else _] |- _ => destruct b eqn:?; simpl in H
  | H : context [match find_local ?s ?l with Some _ => _ | None => _ end] |- _ =>
      destruct (find_local s l) eqn:?; simpl in H
  end.

Lemma sane_intro n ec :
  n <= expr_next ec ->
  (expr_locals ec = [] \/ exists k r, expr_locals ec = [(k, r)] /\ n <= r < expr_next ec /\ r ∉ expr_nils ec) ->
  (expr_nils ec = [] \/ exists r, expr_nils ec = [r] /\ n <= r < expr_next ec) -> sane n ec.
Proof.
  intros Hn Hl Hnil. unfold sane. destruct Hl as [Hl|(k & r & Hl & Hr & Hnot)]; rewrite Hl; simpl.
  - split_and!; [done|by intros ? ?%elem_of_nil|constructor|]. destruct Hnil as [->|(r & -> & Hr)].
    + by intros ? ?%elem_of_nil.
    + intros r' ->%list_elem_of_singleton. split; [done|]. by intros ?%elem_of_nil.
  - split_and!; [done|by intros kr ->%list_elem_of_singleton|apply NoDup_singleton|].
    intros r' Hr'. rewrite list_elem_of_singleton. split; [|by intros ->].
    destruct Hnil as [Hn'|(r2 & Hn' & Hr2)]; rewrite Hn' in Hr'; [by apply elem_of_nil in Hr'|].
    by apply list_elem_of_singleton in Hr' as ->.
Qed.

Lemma console_sane e ls n ec : console_compile e ls n = Some ec -> sane n ec.
Proof.
  intros He. destruct e as [|b|slot|slot e|e]; simpl in He; console_cases; apply sane_intro; simpl;
    first [lia | by left | right; by eexists; split; [done|lia]
          | right; do 2 eexists; split; [done|]; split; [lia|]; rewrite ?list_elem_of_singleton;
            first [lia|apply not_elem_of_nil]].
Qed.

Lemma console_bounds e ls n ec :
  console_compile e ls n = Some ec -> 0 <= n <= 4096 -> (forall kr, kr ∈ ls -> 0 <= snd kr < n) ->
  0 <= expr_register ec < expr_next ec /\ expr_next ec <= 4096.
Proof.
  intros He Hn Hls.
  assert (Hf : forall slot r, find_local slot ls = Some r -> 0 <= r < n).
  { intros slot r Hr. apply find_local_in, Hls in Hr. done. }
  destruct e as [|b|slot|slot e|e]; simpl in He; console_cases; simpl;
    repeat match goal with
    | H : find_local _ _ = Some _ |- _ => apply Hf in H
    | H : (_ <=? _) = false |- _ => apply Z.leb_gt in H; unfold DIAMOND_REGISTER_COUNT in H
    end; lia.
Qed.

(** ** Running *)

Lemma code_at_app C p l l' :
  code_at C p (l ++ l') <-> code_at C p l /\ code_at C (p + Z.of_nat (length l)) l'.
Proof.
  revert p. induction l as [|b l IH]; intros p; simpl.
  - rewrite Z.add_0_r. tauto.
  - rewrite IH. replace (p + 1 + Z.of_nat (length l)) with (p + Z.of_nat (S (length l))) by lia. tauto.
Qed.

Lemma code_at_register C p r :
  code_at C p (register_bytes r) -> 0 <= r < 65536 -> short_at C p = Some r.
Proof. intros (H1 & H2 & _) Hr. by apply short_at_intro. Qed.

Section Running.
  Variable g : Ghost.
  Variable a : Activation.
  Notation C := (code a).
  Notation frame p regs hs pd w :=
    {| ip := p; registers := regs; handlers := hs; pending := pd; heap := w |}.

Lemma at_other p op : byte_at C p = Some op -> op = DIAMOND_OP_BOOL \/ op = DIAMOND_OP_PRINT ->
  at_ a p (OTHER op) (p + 1).
Proof. intros Hb Hop. apply at_intro. unfold decode. rewrite Hb. by destruct Hop as [->| ->]. Qed.

Lemma bool_continues p n (b : bool) regs hs pd w nx :
  code_at C p (DIAMOND_OP_BOOL :: register_bytes n ++ register_bytes (if b then 1 else 0)) ->
  0 <= n < 4096 ->
  leads a (frame (p + 5) (write_register regs n (DIAMOND_BOOL b)) hs pd w) nx ->
  leads a (frame p regs hs pd w) nx.
Proof.
  intros [Hop Hc] Hn Hl. apply code_at_app in Hc as [H1 H2]. simpl length in H2.
  apply code_at_register in H1; [|lia]. apply code_at_register in H2; [|destruct b; lia].
  replace (p + 1 + Z.of_nat 2) with (p + 3) in H2 by lia.
  eapply at_continues; [apply (at_other p); [exact Hop|by left]| |exact Hl].
  simpl. unfold console_instruction. rewrite Hop, H1, H2. by destruct b.
Qed.

Lemma move_bytes_continue p d s regs hs pd w nx :
  code_at C p (DIAMOND_OP_MOVE :: register_bytes d ++ register_bytes s) ->
  0 <= d < 4096 -> 0 <= s < 4096 ->
  leads a (frame (p + 5) (write_register regs d (regs s)) hs pd w) nx ->
  leads a (frame p regs hs pd w) nx.
Proof.
  intros [Hop Hc] Hd Hs Hl. apply code_at_app in Hc as [H1 H2]. simpl length in H2.
  apply code_at_register in H1; [|lia]. apply code_at_register in H2; [|lia].
  replace (p + 1 + Z.of_nat 2) with (p + 3) in H2 by lia.
  eapply move_continues; [by apply at_move|done].
Qed.

Lemma print_step p d s regs hs pd (w : Console) :
  code_at C p (DIAMOND_OP_PRINT :: register_bytes d ++ register_bytes s ++ [1]) ->
  0 <= d < 4096 -> 0 <= s < 4096 ->
  step a (frame p regs hs pd w) =
    match room w with
    | O => vm_return DIAMOND_VM_IO_ERROR (frame p regs hs pd w)
    | S remaining => Continues (frame (p + 6) (write_register regs d DIAMOND_NIL) hs pd
                       {| printed := printed w ++ [regs s]; room := remaining |})
    end.
Proof.
  intros [Hop Hc] Hd Hs. rewrite !code_at_app in Hc. destruct Hc as (H1 & H2 & _). simpl length in H2.
  apply code_at_register in H1; [|lia]. apply code_at_register in H2; [|lia].
  replace (p + 1 + Z.of_nat 2) with (p + 3) in H2 by lia.
  rewrite (at_step _ _ _ _ _ _ _ _ (at_other p _ Hop (or_intror eq_refl))).
  simpl. unfold console_instruction. rewrite Hop, H1, H2. simpl. by destruct (room w).
Qed.

(** ** Operands *)

Definition simple (e : console_expr) : bool :=
  match e with CAssign _ _ | CPuts _ => false | _ => true end.

Definition operand_value (e : console_expr) (st : Store) : DiamondValue :=
  match e with CBool b => DIAMOND_BOOL b | CLocal slot => st slot | _ => DIAMOND_NIL end.

Definition after_operand (e : console_expr) (n : Z) (regs : Registers) : Registers :=
  match e with CBool b => write_register regs n (DIAMOND_BOOL b) | _ => regs end.

Lemma operand_eval e st h : simple e = true -> console_eval e st h = (EValue (operand_value e st), st, h).
Proof. by destruct e. Qed.

Lemma operand_leads e ls n ec p regs hs pd w nx :
  simple e = true -> console_compile e ls n = Some ec -> code_at C p (expr_bytes ec) -> 0 <= n ->
  leads a (frame (p + Z.of_nat (length (expr_bytes ec))) (after_operand e n regs) hs pd w) nx ->
  leads a (frame p regs hs pd w) nx.
Proof.
  intros Hs He Hc Hn Hl. destruct e as [|b|slot|slot e|e]; try done; simpl in He.
  - destruct (_ <=? n); [done|]. injection He as <-. simpl in Hl. by rewrite Z.add_0_r in Hl.
  - destruct (Z.leb_spec DIAMOND_REGISTER_COUNT n); [done|]. injection He as <-.
    unfold DIAMOND_REGISTER_COUNT in *. eapply bool_continues; [exact Hc|lia|exact Hl].
  - destruct (find_local slot ls); [|done]. injection He as <-. simpl in Hl. by rewrite Z.add_0_r in Hl.
Qed.

Lemma operand_register e ls n ec st regs :
  simple e = true -> console_compile e ls n = Some ec -> represents g st regs ->
  (forall kr, kr ∈ ls -> kr ∈ ghomes g) -> (forall r, r ∈ expr_nils ec -> r ∈ gnils g) ->
  after_operand e n regs (expr_register ec) = operand_value e st.
Proof.
  intros Hs He [R1 R2] Hls Hnil. destruct e as [|b|slot|slot e|e]; try done; simpl in He.
  - destruct (_ <=? n); [done|]. injection He as <-. simpl in *. apply R2, Hnil. by left.
  - destruct (_ <=? n); [done|]. injection He as <-. simpl. apply write_register_same.
  - destruct (find_local slot ls) as [r|] eqn:Hf; [|done]. injection He as <-. simpl.
    apply R1, Hls. by apply find_local_in.
Qed.

(** Writing the register of a literal keeps the state, when it is scratch. *)
Lemma operand_represents e n st regs :
  (forall b, e = CBool b -> scratch g n) -> represents g st regs ->
  represents g st (after_operand e n regs).
Proof. intros Hs Hr. destruct e; try done. apply represents_scratch; [by eapply Hs|done]. Qed.

Lemma operand_keeps e n regs y : y < n -> after_operand e n regs y = regs y.
Proof. intros Hy. destruct e; try done. simpl. apply write_register_other. lia. Qed.

(** ** Expressions *)

(** A register of the expression that is neither nil nor a home. *)
Lemma expression_scratch n n' ec r :
  (forall x, n <= x < n' -> (x ∈ gnils g <-> x ∈ expr_nils ec) /\
     (is_home g x <-> exists k, (k, x) ∈ expr_locals ec)) ->
  n <= r < n' -> r ∉ expr_nils ec -> (forall k, (k, r) ∉ expr_locals ec) -> scratch g r.
Proof.
  intros Hx Hr Hnil Hl. destruct (Hx r Hr) as [H1 H2]. split.
  - rewrite H2. intros [k Hk]. by apply (Hl k).
  - by rewrite H1.
Qed.

Lemma simple_runs e p n r q n' m st :
  simple e = true -> expr_at g a e p n r q n' -> ip m = p -> represents g st (registers m) ->
  expr_completes g a r q n m (EValue (operand_value e st)) st (heap m).
Proof.
  intros Hs (ls & ec & Hec & Hc & -> & -> & -> & Hh & Hx & Hn & Hn' & Hls) Hip Hr.
  destruct m as [ip0 regs hs pd w]. simpl in *. subst ip0.
  assert (Hec' := Hec). exists (after_operand e n regs). split; [|split; [|split]].
  - apply operand_represents; [|done]. intros b ->. simpl in Hec. destruct (_ <=? n); [done|].
    injection Hec as <-. eapply expression_scratch; [exact Hx|simpl; lia|by apply not_elem_of_nil|].
    intros k. apply not_elem_of_nil.
  - intros y Hy _. by apply operand_keeps.
  - eapply operand_register; [done|exact Hec|done|intros kr Hkr; apply Hh, elem_of_app; by right|].
    intros r' Hr'. apply Hx; [|done]. apply (console_sane _ _ _ _ Hec'). done.
  - eapply operand_leads; [done|exact Hec|exact Hc|done|]. apply steps_refl.
Qed.

(** An assignment is its operand and a move, or its operand alone. *)
Lemma assign_cases slot e ls n ec :
  console_compile (CAssign slot e) ls n = Some ec ->
  simple e = true /\ exists ev, console_compile e ls n = Some ev /\
  ((exists d, expr_bytes ec = expr_bytes ev ++ DIAMOND_OP_MOVE :: register_bytes d ++ register_bytes (expr_register ev)
     /\ expr_register ec = d /\ expr_nils ec = expr_nils ev /\
     ((find_local slot ls = Some d /\ expr_locals ec = [] /\ expr_next ec = expr_next ev) \/
      (expr_locals ec = [(slot, d)] /\ d = expr_next ev /\ expr_next ec = d + 1 /\ forall b, e <> CBool b))) \/
   (exists b, e = CBool b /\ ec = {| expr_bytes := expr_bytes ev; expr_register := n;
      expr_locals := [(slot, n)]; expr_next := n + 1; expr_nils := [] |})).
Proof.
  simpl. intros He. destruct e as [|b|k|k e|e]; try done; split; try done.
  - destruct (console_compile CNil ls n) as [ev|] eqn:Hev; [|done]. exists ev. split; [done|]. left.
    destruct (find_local slot ls) as [d|] eqn:Hf.
    + injection He as <-. eexists. split_and!; try done. by left.
    + destruct (_ =? _); [done|]. destruct (_ <=? expr_next ev); [done|]. injection He as <-.
      eexists. split_and!; try done. by right.
  - simpl in *. destruct (_ <=? n); [done|]. eexists. split; [done|].
    destruct (find_local slot ls) as [d|] eqn:Hf.
    + left. injection He as <-. eexists. split_and!; try done. by left.
    + right. destruct (_ =? _); [done|]. injection He as <-. by eexists.
  - simpl in *. destruct (find_local k ls) as [rk|] eqn:Hk; [|done]. eexists. split; [done|]. left.
    destruct (find_local slot ls) as [d|] eqn:Hf.
    + injection He as <-. eexists. split_and!; try done. by left.
    + destruct (_ =? _); [done|]. simpl in He. destruct (_ <=? n); [done|]. injection He as <-.
      eexists. split_and!; try done. by right.
Qed.

Lemma assign_runs slot e p n r q n' m st :
  expr_at g a (CAssign slot e) p n r q n' -> ip m = p -> represents g st (registers m) ->
  expr_completes g a r q n m (EValue (operand_value e st))
    (write_slot st slot (operand_value e st)) (heap m).
Proof.
  intros (ls & ec & Hec & Hc & -> & -> & -> & Hh & Hx & Hn & Hn' & Hls) Hip Hr.
  destruct m as [ip0 regs hs pd w]. simpl in Hip, Hr |- *. subst ip0.
  assert (Hsane := console_sane _ _ _ _ Hec). destruct Hsane as (Hnx & HL & _ & HN).
  assert (Hbnd := console_bounds _ _ _ _ Hec).
  destruct (assign_cases _ _ _ _ _ Hec) as (Hs & ev & Hev & [(d & Eb & Er & En & Hcase)|(b & -> & ->)]).
  - rewrite Eb in Hc |- *. apply code_at_app in Hc as [Hc1 Hc2].
    assert (Hsv := proj1 (console_sane _ _ _ _ Hev)).
    assert (Hvr : after_operand e n regs (expr_register ev) = operand_value e st).
    { eapply operand_register; [done|exact Hev|done|intros kr Hkr; apply Hh, elem_of_app; by right|].
      rewrite <- En. intros r' Hr'. apply Hx; [|done]. by apply HN. }
    assert (Hvb : 0 <= expr_register ev < expr_next ev /\ expr_next ev <= 4096).
    { apply (console_bounds _ _ _ _ Hev); [|done]. destruct Hcase as [(_ & _ & Hq)|(_ & -> & Hq & _)]; lia. }
    assert (Hd : (slot, d) ∈ ghomes g /\ 0 <= d < 4096 /\ (n <= d \/ is_home g d)).
    { destruct Hcase as [(Hf & _)|(El & -> & Hq & _)].
      - apply find_local_in in Hf. assert (Hg : (slot, d) ∈ ghomes g) by (apply Hh, elem_of_app; by right).
        split; [done|]. split; [apply Hls in Hf; simpl in Hf; lia|]. right. by exists slot.
      - rewrite El in Hh. split; [apply Hh; by left|]. lia. }
    destruct Hd as (Hg & Hdb & Hdn).
    exists (write_register (after_operand e n regs) d (operand_value e st)). split; [|split; [|split]].
    + apply represents_slot; [done|]. apply operand_represents; [|done]. intros b ->.
      destruct Hcase as [(_ & El & Hq)|(_ & _ & _ & Hne)]; [|by destruct (Hne b)].
      simpl in Hev. destruct (_ <=? n); [done|]. injection Hev as <-. simpl in *.
      eapply expression_scratch; [exact Hx|lia|rewrite En; apply not_elem_of_nil|].
      intros k. rewrite El. apply not_elem_of_nil.
    + intros y Hy Hnh. rewrite write_register_other by (intros ->; destruct Hdn; [lia|done]).
      by apply operand_keeps.
    + rewrite Er. apply write_register_same.
    + eapply operand_leads; [done|exact Hev|exact Hc1|done|].
      eapply move_bytes_continue; [exact Hc2|lia|lia|]. rewrite Hvr.
      rewrite length_app. simpl length. rewrite Nat2Z.inj_add, Z.add_assoc. apply steps_refl.
  - simpl in *. exists (write_register regs n (DIAMOND_BOOL b)). split; [|split; [|split]].
    + apply represents_slot; [|done]. apply Hh. by left.
    + intros y Hy _. apply write_register_other. lia.
    + apply write_register_same.
    + eapply (operand_leads (CBool b) ls); [done|exact Hev|exact Hc|done|]. apply steps_refl.
Qed.

Lemma puts_runs e p n r q n' m st :
  expr_at g a (CPuts e) p n r q n' -> ip m = p -> represents g st (registers m) ->
  match room (heap m) with
  | O => expr_completes g a r q n m (EFail DIAMOND_VM_IO_ERROR) st (heap m)
  | S remaining => expr_completes g a r q n m (EValue DIAMOND_NIL) st
                     {| printed := printed (heap m) ++ [operand_value e st]; room := remaining |}
  end.
Proof.
  intros (ls & ec & Hec & Hc & -> & -> & -> & Hh & Hx & Hn & Hn' & Hls) Hip Hr.
  destruct m as [ip0 regs hs pd w]. simpl in Hip, Hr |- *. subst ip0.
  assert (He : simple e = true /\ exists ev, console_compile e ls n = Some ev /\
    ec = {| expr_bytes := expr_bytes ev ++ DIAMOND_OP_PRINT :: register_bytes (expr_next ev)
                ++ register_bytes (expr_register ev) ++ [1];
            expr_register := expr_next ev; expr_locals := expr_locals ev;
            expr_next := expr_next ev + 1; expr_nils := expr_nils ev |}).
  { simpl in Hec. destruct e; try done; split; try done; simpl in *; console_cases;
      eexists; split; reflexivity. }
  destruct He as (Hs & ev & Hev & ->). simpl in *.
  destruct (console_sane _ _ _ _ Hev) as (Hsv & HL & _ & HN).
  assert (Hvb : 0 <= expr_register ev < expr_next ev /\ expr_next ev <= 4096)
    by (apply (console_bounds _ _ _ _ Hev); [lia|done]).
  assert (Hvr : after_operand e n regs (expr_register ev) = operand_value e st).
  { eapply operand_register; [done|exact Hev|done|intros kr Hkr; apply Hh, elem_of_app; by right|].
    intros r' Hr'. apply Hx; [|done]. apply HN in Hr'. lia. }
  assert (Hrep : represents g st (after_operand e n regs)).
  { apply operand_represents; [|done]. intros b ->. simpl in Hev. destruct (_ <=? n); [done|].
    injection Hev as <-. eapply expression_scratch; [exact Hx|simpl; lia|apply not_elem_of_nil|].
    intros k. apply not_elem_of_nil. }
  assert (Hsc : scratch g (expr_next ev)).
  { eapply expression_scratch; [exact Hx|lia| |].
    - simpl. intros Hin%HN. lia.
    - simpl. intros k Hin%HL. simpl in Hin. lia. }
  apply code_at_app in Hc as [Hc1 Hc2].
  assert (Hst := print_step _ _ _ (after_operand e n regs) hs pd w Hc2 ltac:(lia) ltac:(lia)).
  rewrite Hvr in Hst. destruct (room w) as [|remaining].
  - exists (after_operand e n regs). split; [done|]. split; [intros y Hy _; by apply operand_keeps|].
    eapply operand_leads; [done|exact Hev|exact Hc1|done|].
    by apply step_leads.
  - exists (write_register (after_operand e n regs) (expr_next ev) DIAMOND_NIL).
    split; [by apply represents_scratch|]. split; [|split].
    + intros y Hy _. rewrite write_register_other by lia. by apply operand_keeps.
    + apply write_register_same.
    + eapply operand_leads; [done|exact Hev|exact Hc1|done|]. apply step_leads. rewrite Hst.
      rewrite length_app. simpl length. rewrite Nat2Z.inj_add, Z.add_assoc. done.
Qed.

End Running.

#[global] Instance console_ok : ExpressionsOk.
Proof.
  split.
  - intros e ls n p ec He. exact (proj1 (console_sane e ls n ec He)).
  - intros e ls n p ec He. exact (console_bounds e ls n ec He).
  - intros e ls n p ec kr He. destruct (console_sane e ls n ec He) as (_ & HL & _). apply HL.
  - intros e ls n p ec He. apply (console_sane e ls n ec He).
  - intros e ls n p ec r He. destruct (console_sane e ls n ec He) as (_ & _ & _ & HN). apply HN.
  - intros g a e p n r q n' m fuel st res st' h' Hat Hip Hr Hev. simpl in Hev. injection Hev as Hev.
    destruct e as [|b|slot|slot e|e]; simpl in Hev.
    + injection Hev as <- <- <-. by apply (simple_runs g a CNil _ _ _ _ _ _ _ eq_refl Hat).
    + injection Hev as <- <- <-. by apply (simple_runs g a (CBool b) _ _ _ _ _ _ _ eq_refl Hat).
    + injection Hev as <- <- <-. by apply (simple_runs g a (CLocal slot) _ _ _ _ _ _ _ eq_refl Hat).
    + assert (Hs : simple e = true).
      { destruct Hat as (ls & ec & Hec & _). by apply assign_cases in Hec as [Hs _]. }
      rewrite (operand_eval _ _ _ Hs) in Hev. injection Hev as <- <- <-. by eapply assign_runs.
    + assert (Hs : simple e = true).
      { destruct Hat as (ls & ec & Hec & _). by destruct e. }
      rewrite (operand_eval _ _ _ Hs) in Hev. assert (Hp := puts_runs g a _ _ _ _ _ _ _ _ Hat Hip Hr).
      destruct (room (heap m)); injection Hev as <- <- <-; exact Hp.
Qed.
