(* ===== verification/ControlExamples.v ===== *)
(** * ControlExamples: whole programs compiled and run

    The correctness of compiled functions at a concrete program, and the three
    places where the compiler accepts a program whose bytecode does something
    else: a [retry] out of a nested begin block, a bare [raise] whose exception
    lives beyond register 255, and more than eight nested begin blocks. *)

From S2P Require Import Prelude.
From S2P Require Import Value.
From S2P Require Import Unwind.
From S2P Require Import ControlMachine.
From S2P Require Import ControlFlow.
From S2P Require Import ControlCompile.
From S2P Require Import ControlCorrect.
From S2P Require Import ControlEmit.
From S2P Require Import ControlLaid.
From S2P Require Import ControlProgram.
From S2P Require Import ControlConsole.
From S2P Require Import ControlConsoleOk.
From Stdlib Require Import ZArith Lia Bool List.
From stdpp Require Import base numbers list.

Local Open Scope Z_scope.
Local Open Scope c_scope.

Fixpoint in_order (ss : list stmt) : stmts :=
  match ss with [] => BDone | s :: rest => BThen s (in_order rest) end.

Definition fresh_console : Console := {| printed := []; room := 8 |}.

Definition compiled (ss : stmts) : list Z :=
  match compile_function [] 0 ss with Some (bytes, _) => bytes | None => [] end.

Definition compiles (ss : stmts) : bool :=
  match compile_function [] 0 ss with Some _ => true | None => false end.

Definition activation (ss : stmts) : Activation :=
  {| code := compiled ss; serial := 1; has_previous := false; register_count := 4096 |}.

(** [x = true; while x; begin; puts x; raise x if x; rescue e; x = false;
    retry; else; puts nil; ensure; puts true; end; break x; end; x] *)
Definition retrying : stmts :=
  in_order
    [SExpr (CAssign 0 (CBool true));
     SWhile false (CLocal 0) (in_order
       [SBegin 1
          (in_order [SExpr (CPuts (CLocal 0)); SPostfix false (CLocal 0) (SRaise (Some (CLocal 0)))])
          (CRescue true [] (in_order [SExpr (CAssign 0 (CBool false)); SRetry]) CNone)
          (BBlock (in_order [SExpr (CPuts CNil)]))
          (BBlock (in_order [SExpr (CPuts (CBool true))]));
        SBreak (Some (CLocal 0))]);
     SExpr (CLocal 0)].

Example retrying_runs :
  (let? (o, σ) := exec_function 1 100 retrying [] fresh_console in Some (o, printed (world σ)))
  = Some (Returned (DIAMOND_BOOL false), [DIAMOND_BOOL true; DIAMOND_BOOL false; DIAMOND_NIL; DIAMOND_BOOL true]).
Proof. vm_compute. reflexivity. Qed.

(** [begin; puts true; raise true; rescue; begin; retry; ensure; end; end] *)
Definition nested_retry : stmts :=
  in_order
    [SExpr (CAssign 0 (CBool true));
     SBegin 1
       (in_order [SExpr (CPuts (CLocal 0)); SPostfix false (CLocal 0) (SRaise (Some (CLocal 0)))])
       (CRescue false [] (in_order
          [SExpr (CAssign 0 (CBool false));
           SBegin 2 (in_order [SRetry]) CNone BNone (BBlock (in_order [SExpr (CPuts CNil)]))]) CNone)
       BNone BNone].

(** Registers up to 256 in use, then [begin; raise true; rescue; raise; end]. *)
Definition far_raise : stmts :=
  in_order
    (repeat (SExpr (CBool false)) 260 ++
     [SBegin 1 (in_order [SRaise (Some (CBool true))])
        (CRescue false [] (in_order [SRaise None]) CNone) BNone BNone]).

(** [depth] begin blocks, one inside the other, around [puts true]. *)
Fixpoint nested (depth : nat) (slot : Z) : stmts :=
  match depth with
  | O => in_order [SExpr (CPuts (CBool true))]
  | S depth => in_order [SBegin slot (nested depth (slot + 1)) CNone BNone (BBlock BDone)]
  end.

(** ** The theorems at these programs *)

Lemma compiled_function_runs_witness :
  exists d n, departure (activation retrying) (Returned (DIAMOND_BOOL false)) = Some d /\
    run (activation retrying) n (initial_frame [] fresh_console)
    = Some (d, {| printed := [DIAMOND_BOOL true; DIAMOND_BOOL false; DIAMOND_NIL; DIAMOND_BOOL true];
                  room := 4 |}).
Proof.
  destruct (compile_function [] 0 retrying) as [[bytes c]|] eqn:Hc; [|vm_compute in Hc; discriminate].
  destruct (exec_function 1 100 retrying [] fresh_console) as [[o σ]|] eqn:He;
    [|vm_compute in He; discriminate].
  destruct (compiled_function_runs [] (activation retrying) false [] retrying bytes c 100 o σ fresh_console)
    as (d & n & Hd & Hr).
  - exact Hc.
  - simpl. unfold compiled. rewrite Hc. reflexivity.
  - vm_compute. reflexivity.
  - discriminate.
  - vm_compute. discriminate.
  - exact He.
  - vm_compute in He. injection He as <- <-. exists d, n. split; [exact Hd|exact Hr].
Defined.

Lemma compiled_function_well_formed_witness :
  match compile_function [] 0 retrying with
  | Some (bytes, c) => wf c /\ length bytes = 125%nat
  | None => False
  end.
Proof.
  destruct (compile_function [] 0 retrying) as [[bytes c]|] eqn:Hc; [|vm_compute in Hc; discriminate].
  split.
  - refine (proj1 (compiled_function_well_formed [] (activation retrying) 0 retrying bytes c Hc _)).
    vm_compute. reflexivity.
  - vm_compute in Hc. injection Hc as <- _. reflexivity.
Defined.

(** A [retry] inside a begin block nested in the rescue clause jumps out
    of that block without taking its handlers off the stack: the program
    compiles, its meaning retries and returns, and the machine ends it with
    DIAMOND_VM_INVALID_BYTECODE. *)
Theorem nested_retry_invalid_bytecode :
  compiles nested_retry = true /\
  (let? (o, σ) := exec_function 1 100 nested_retry [] fresh_console in Some (o, length (printed (world σ))))
  = Some (Returned DIAMOND_NIL, 3%nat) /\
  run (activation nested_retry) 200 (initial_frame [] fresh_console)
  = Some (Reports DIAMOND_VM_INVALID_BYTECODE,
          {| printed := [DIAMOND_BOOL true; DIAMOND_BOOL false]; room := 6 |}).
Proof. vm_compute. auto. Qed.

(** A bare [raise] names its exception by the low byte of its register:
    beyond register 255 the bytecode raises another value than the one being
    handled. *)
Theorem far_bare_raise_wrong_value :
  compiles far_raise = true /\
  (let? (o, _) := exec_function 1 400 far_raise [] fresh_console in Some o)
  = Some (Raised (DIAMOND_BOOL true)) /\
  run (activation far_raise) 600 (initial_frame [] fresh_console)
  = Some (Throws (DIAMOND_BOOL false), fresh_console).
Proof. vm_compute. auto. Qed.

(** The sixteen handler slots hold eight nested begin blocks; a ninth
    compiles, and pushing its handler ends the frame with
    DIAMOND_VM_INVALID_BYTECODE before its body runs. *)
Theorem ninth_begin_invalid_bytecode :
  compiles (nested 8 0) = true /\ compiles (nested 9 0) = true /\
  (let? (d, h) := run (activation (nested 8 0)) 600 (initial_frame [] fresh_console) in Some (d, printed h))
  = Some (Returns DIAMOND_NIL, [DIAMOND_BOOL true]) /\
  (let? (d, h) := run (activation (nested 9 0)) 600 (initial_frame [] fresh_console) in Some (d, printed h))
  = Some (Reports DIAMOND_VM_INVALID_BYTECODE, []).
Proof. vm_compute. auto. Qed.
