(* ===== verification/ManifestLiteral.v ===== *)
(** * ManifestLiteral: the data literals of package manifests

    src/manifest_literal.c: Cutfiles, lockfiles and registry metadata are one
    Hash literal of Strings, integers, booleans, nil, Arrays and Hashes.  The
    parser is a state monad over what is left of the source; [Overruns] is
    undefined behaviour (a read past the terminator, a write past the buffer
    of a String) or an exhausted fuel, [Rejects] the [NULL] the C functions
    return together with the reason they report.  Allocations are numbered and
    may fail one by one. *)

From S2P Require Import Prelude CText.
From Stdlib Require Import ZArith Lia Bool List String Ascii.
From stdpp Require Import base numbers list.

Local Open Scope Z_scope.

(** The kinds of DiamondManifestKind with what the struct holds for each: the
    decoded text, or the children (linked by [next], with their [key] in a
    Hash). *)
Inductive DiamondManifestValue :=
  | MANIFEST_OTHER
  | MANIFEST_INTEGER (string : list Z)
  | MANIFEST_BOOLEAN (string : list Z)
  | MANIFEST_STRING (string : list Z)
  | MANIFEST_HASH (children : list (list Z * DiamondManifestValue))
  | MANIFEST_ARRAY (children : list DiamondManifestValue).

(** [source + position], [depth], and how many allocations were made. *)
Record LiteralParser := { cursor : list Z; depth : Z; allocations : nat }.

Inductive Parsed {A : Type} :=
  | Accepts (a : A) (p : LiteralParser)
  | Rejects (reason : string) (p : LiteralParser)
  | Overruns.
Arguments Parsed A : clear implicits.

Definition Parser (A : Type) : Type := LiteralParser -> Parsed A.

Definition accept {A} (a : A) : Parser A := fun p => Accepts a p.
Definition reject {A} (reason : string) : Parser A := fun p => Rejects reason p.
Definition overrun {A} : Parser A := fun _ => Overruns.

Definition and_then {A B} (m : Parser A) (k : A -> Parser B) : Parser B := fun p =>
  match m p with
  | Accepts a p => k a p
  | Rejects reason p => Rejects reason p
  | Overruns => Overruns
  end.

Declare Scope parser_scope.
Delimit Scope parser_scope with parser.
Notation "'let&' x ':=' m 'in' k" := (and_then m (fun x => k))
  (at level 10, x pattern, m at level 100, k at level 200) : parser_scope.
Local Open Scope parser_scope.

(** ** The cursor *)

Definition move (p : LiteralParser) (text : list Z) : LiteralParser :=
  {| cursor := text; depth := depth p; allocations := allocations p |}.

(** [parser->source[parser->position]]. *)
Definition current : Parser Z := fun p => Accepts (peek (cursor p)) p.

(** [parser->source[parser->position + 1]], read only after a character that
    is not the terminator. *)
Definition following : Parser Z := fun p =>
  match cursor p with [] => Overruns | _ :: rest => Accepts (peek rest) p end.

(** [parser->position++]: never past the terminator. *)
Definition advance : Parser unit := fun p =>
  match cursor p with [] => Overruns | _ :: rest => Accepts tt (move p rest) end.

Fixpoint skip_blanks (text : list Z) : list Z :=
  match text with
  | [] => []
  | c :: rest => if isspace c then skip_blanks rest else text
  end.

Definition skip_space : Parser unit := fun p => Accepts tt (move p (skip_blanks (cursor p))).

Definition enter : Parser Z := fun p =>
  Accepts (depth p + 1)
    {| cursor := cursor p; depth := depth p + 1; allocations := allocations p |}.
Definition leave : Parser unit := fun p =>
  Accepts tt {| cursor := cursor p; depth := depth p - 1; allocations := allocations p |}.

Definition isxdigit (c : Z) : bool :=
  isdigit c || ((65 <=? c) && (c <=? 70)) || ((97 <=? c) && (c <=? 102)).

(** [isdigit(c) ? c - '0' : tolower(c) - 'a' + 10]. *)
Definition hex_value (c : Z) : Z :=
  if isdigit c then c - 48 else (if (65 <=? c) && (c <=? 90) then c + 32 else c) - 97 + 10.

Section Parser.

(** Whether the n-th allocation of the parse succeeds. *)
Variable malloc_ok : nat -> bool.

Definition allocate : Parser unit := fun p =>
  let p' := {| cursor := cursor p; depth := depth p; allocations := S (allocations p) |} in
  if malloc_ok (allocations p) then Accepts tt p' else Rejects "out of memory" p'.

(** ** Strings *)

Fixpoint hex_digits (count : nat) (code : Z) : Parser Z :=
  match count with
  | O => accept code
  | S count =>
      let& c := current in
      if negb (isxdigit c) then reject "invalid Unicode escape"
      else let& _ := advance in hex_digits count (code * 16 + hex_value c)
  end.

Definition parse_hex_quad : Parser Z := hex_digits 4 0.

Definition encode_utf8 (code : Z) : list Z :=
  if code <? 128 then [code]
  else if code <? 2048 then
    [Z.lor 192 (Z.shiftr code 6); Z.lor 128 (Z.land code 63)]
  else if code <? 65536 then
    [Z.lor 224 (Z.shiftr code 12); Z.lor 128 (Z.land (Z.shiftr code 6) 63);
     Z.lor 128 (Z.land code 63)]
  else
    [Z.lor 240 (Z.shiftr code 18); Z.lor 128 (Z.land (Z.shiftr code 12) 63);
     Z.lor 128 (Z.land (Z.shiftr code 6) 63); Z.lor 128 (Z.land code 63)].

(** The low surrogate that must follow a high one, and the code of the pair. *)
Definition low_half (code : Z) : Parser Z :=
  let& c := current in
  if negb (c =? 92) then reject "missing low Unicode surrogate" else
  let& u := following in
  if negb (u =? 117) then reject "missing low Unicode surrogate" else
  let& _ := advance in
  let& _ := advance in
  let& low := parse_hex_quad in
  if (low <? 56320) || (57343 <? low) then reject "invalid low Unicode surrogate"
  else accept (65536 + Z.shiftl (code - 55296) 10 + (low - 56320)).

(** The code point after [\u]. *)
Definition unicode_escape : Parser Z :=
  let& code := parse_hex_quad in
  let& code :=
    (if (55296 <=? code) && (code <=? 56319) then low_half code
     else if (56320 <=? code) && (code <=? 57343) then reject "unexpected low Unicode surrogate"
     else accept code) in
  if code =? 0 then reject "NUL in String" else accept code.

(** The character an escape other than [\u] stands for. *)
Definition simple_escape (c : Z) : option Z :=
  if (c =? 34) || (c =? 92) || (c =? 47) then Some c
  else if c =? 110 then Some 10
  else if c =? 114 then Some 13
  else if c =? 116 then Some 9
  else if c =? 98 then Some 8
  else if c =? 102 then Some 12
  else None.

(** Bytes stored at [result + used], inside the [capacity] bytes allocated. *)
Definition store (capacity : nat) (result new : list Z) : Parser (list Z) :=
  if (List.length result + List.length new <=? capacity)%nat then accept (result ++ new)
  else overrun.

Fixpoint string_loop (fuel capacity : nat) (result : list Z) : Parser (list Z) :=
  match fuel with
  | O => overrun
  | S fuel =>
      let& c := current in
      if (c =? 0) || (c <? 32) then reject "unterminated or invalid String" else
      let& _ := advance in
      if c =? 34 then let& _ := store capacity result [0] in accept result else
      let& next := current in
      if (c =? 35) && (next =? 123) then reject "String interpolation is not allowed"
      else if c =? 92 then
        if next =? 0 then reject "unterminated String escape" else
        let& _ := advance in
        if next =? 117 then
          let& code := unicode_escape in
          let& result := store capacity result (encode_utf8 code) in
          string_loop fuel capacity result
        else
          match simple_escape next with
          | None => reject "invalid String escape"
          | Some c =>
              if c =? 0 then reject "NUL in String" else
              let& result := store capacity result [c] in string_loop fuel capacity result
          end
      else
        if c =? 0 then reject "NUL in String" else
        let& result := store capacity result [c] in string_loop fuel capacity result
  end.

Definition parse_string : Parser (list Z) :=
  let& _ := advance in
  fun p =>
    let capacity := S (List.length (cursor p)) in
    (let& _ := allocate in string_loop capacity capacity []) p.

(** ** Values *)

Definition collect (hash : bool) (children : list (list Z * DiamondManifestValue)) :
    DiamondManifestValue :=
  if hash then MANIFEST_HASH children else MANIFEST_ARRAY (map snd children).

Definition opener (hash : bool) : Z := if hash then 123 else 91.
Definition closer (hash : bool) : Z := if hash then 125 else 93.

Definition close_collection (hash : bool) (children : list (list Z * DiamondManifestValue)) :
    Parser DiamondManifestValue :=
  let& _ := advance in
  let& _ := leave in
  accept (collect hash children).

(** The key of an entry and the colon after it; an Array's entry has none. *)
Definition parse_key (hash : bool) (children : list (list Z * DiamondManifestValue)) :
    Parser (list Z) :=
  if hash then
    let& c := current in
    if negb (c =? 34) then reject "Hash keys must be Strings" else
    let& key := parse_string in
    if bool_decide (key ∈ map fst children) then reject "duplicate Hash key" else
    let& _ := skip_space in
    let& c := current in
    if negb (c =? 58) then reject "expected ':' after Hash key" else
    let& _ := advance in
    accept key
  else accept [].

Fixpoint starts_with (prefix text : list Z) : bool :=
  match prefix, text with
  | [], _ => true
  | c :: prefix, d :: text => (c =? d) && starts_with prefix text
  | _ :: _, [] => false
  end.

Definition keyword_true : list Z := bytes "true".
Definition keyword_false : list Z := bytes "false".
Definition keyword_nil : list Z := bytes "nil".

Definition parse_keyword : Parser DiamondManifestValue := fun p =>
  if starts_with keyword_true (cursor p) then
    (let& _ := allocate in accept (MANIFEST_BOOLEAN keyword_true)) (move p (drop 4 (cursor p)))
  else if starts_with keyword_false (cursor p) then
    (let& _ := allocate in accept (MANIFEST_BOOLEAN keyword_false)) (move p (drop 5 (cursor p)))
  else if starts_with keyword_nil (cursor p) then Accepts MANIFEST_OTHER (move p (drop 3 (cursor p)))
  else Rejects "expected data literal" p.

Definition parse_integer : Parser DiamondManifestValue :=
  let& c := current in
  let& sign := (if c =? 45 then let& _ := advance in accept [45] else accept []) in
  fun p =>
    let '(digits, rest) := span_digits (cursor p) in
    if (List.length digits =? 0)%nat then Rejects "expected integer" (move p rest)
    else (let& _ := allocate in accept (MANIFEST_INTEGER (sign ++ digits))) (move p rest).

Fixpoint parse_value (fuel : nat) : Parser DiamondManifestValue :=
  match fuel with
  | O => overrun
  | S fuel =>
      let& _ := skip_space in
      let& c := current in
      if c =? 123 then parse_collection fuel true
      else if c =? 91 then parse_collection fuel false
      else
        let& _ := allocate in
        if c =? 34 then let& text := parse_string in accept (MANIFEST_STRING text)
        else if (c =? 45) || isdigit c then parse_integer
        else parse_keyword
  end
with parse_collection (fuel : nat) (hash : bool) : Parser DiamondManifestValue :=
  match fuel with
  | O => overrun
  | S fuel =>
      let& level := enter in
      if 32 <? level then reject "literal nesting exceeds 32 levels" else
      let& _ := allocate in
      let& _ := advance in
      let& _ := skip_space in
      let& c := current in
      if c =? closer hash then close_collection hash [] else parse_entries fuel hash []
  end
with parse_entries (fuel : nat) (hash : bool) (children : list (list Z * DiamondManifestValue)) :
    Parser DiamondManifestValue :=
  match fuel with
  | O => overrun
  | S fuel =>
      let& key := parse_key hash children in
      let& child := parse_value fuel in
      let children := children ++ [(key, child)] in
      let& _ := skip_space in
      let& c := current in
      if c =? closer hash then close_collection hash children
      else if negb (c =? 44) then reject "expected ',' or closing delimiter" else
      let& _ := advance in
      let& _ := skip_space in
      let& c := current in
      if c =? closer hash then close_collection hash children
      else parse_entries fuel hash children
  end.

(** ** The entry point *)

(** [fail]: the reason with the line reached, cut to the error buffer. *)
Definition error_text (source : list Z) (error_size : nat) (reason : string) (p : LiteralParser) :
    list Z :=
  let read := take (List.length source - List.length (cursor p)) source in
  let line := 1 + Z.of_nat (count_occ Z.eq_dec read 10) in
  take (error_size - 1) (bytes "line " ++ printf_lu line ++ bytes ": " ++ bytes reason).

Definition start_parser (source : list Z) : LiteralParser :=
  {| cursor := source; depth := 0; allocations := 0 |}.

Definition parse_source (source : list Z) : Parser DiamondManifestValue :=
  if 1048576 <? Z.of_nat (List.length source) then reject "metadata exceeds 1 MiB" else
  let& _ := skip_space in
  let& c := current in
  if negb (c =? 123) then reject "expected Hash literal" else
  let& root := parse_collection (S (3 * List.length source)) true in
  let& _ := skip_space in
  let& c := current in
  if negb (c =? 0) then reject "unexpected content after Hash literal" else accept root.

(** The tree, or the text left in [error]: none when it has no room. *)
Definition diamond_manifest_parse (source : list Z) (error_size : nat) :
    option (DiamondManifestValue + list Z) :=
  if (error_size =? 0)%nat then Some (inr []) else
  match parse_source source (start_parser source) with
  | Accepts root _ => Some (inl root)
  | Rejects reason p => Some (inr (error_text source error_size reason p))
  | Overruns => None
  end.

End Parser.

(** ** Lookups *)

Fixpoint find_key {A} (key : list Z) (children : list (list Z * A)) : option A :=
  match children with
  | [] => None
  | (k, v) :: rest => if bool_decide (k = key) then Some v else find_key key rest
  end.

Definition diamond_manifest_get (hash : DiamondManifestValue) (key : list Z) :
    option DiamondManifestValue :=
  match hash with MANIFEST_HASH children => find_key key children | _ => None end.

Definition diamond_manifest_get_string (hash : DiamondManifestValue) (key : list Z)
    (out_size : nat) : option (list Z) :=
  match diamond_manifest_get hash key with
  | Some (MANIFEST_STRING text) => if (out_size <=? List.length text)%nat then None else Some text
  | _ => None
  end.

(** The digit loop; a result is given up before it would pass [UINT64_MAX]. *)
Fixpoint u64_digits (text : list Z) (result : Z) : option Z :=
  match text with
  | [] => Some result
  | c :: rest =>
      let digit := c - 48 in
      if (UINT64_MAX - digit) / 10 <? result then None else u64_digits rest (result * 10 + digit)
  end.

Definition diamond_manifest_get_u64 (hash : DiamondManifestValue) (key : list Z) : option Z :=
  match diamond_manifest_get hash key with
  | Some (MANIFEST_INTEGER text) => if peek text =? 45 then None else u64_digits text 0
  | _ => None
  end.

Definition diamond_manifest_get_bool (hash : DiamondManifestValue) (key : list Z) : option bool :=
  match diamond_manifest_get hash key with
  | Some (MANIFEST_BOOLEAN text) => Some (bool_decide (text = keyword_true))
  | _ => None
  end.

(** The small step of a parse, for proofs that follow the monad. *)
Lemma and_then_accepts {A B} (m : Parser A) (k : A -> Parser B) p b p' :
  and_then m k p = Accepts b p' <-> exists a q, m p = Accepts a q /\ k a q = Accepts b p'.
Proof.
  unfold and_then. split.
  - destruct (m p) as [a q|r q|]; [|done|done]. eauto.
  - intros (a & q & -> & H). exact H.
Qed.

Lemma and_then_run {A B} (m : Parser A) (k : A -> Parser B) p a q :
  m p = Accepts a q -> and_then m k p = k a q.
Proof. intros H. unfold and_then. by rewrite H. Qed.
