(* ===== verification/ManifestGrammar.v ===== *)
(** * ManifestGrammar: the language the manifest parser accepts

    A grammar for the data literals of ManifestLiteral, independent of the
    parser: which texts denote which value, with how many levels of nesting.
    The parser accepts exactly that language, never leaves its buffers and
    always returns. *)

From S2P Require Import Prelude CText.
From S2P Require Import ManifestLiteral.
From Stdlib Require Import ZArith Lia Bool List String Ascii.
From stdpp Require Import base numbers list.

Local Open Scope Z_scope.
Local Open Scope parser_scope.

(** ** The grammar *)

Definition blank (text : list Z) : Prop := Forall (fun c => isspace c = true) text.

(** Four hexadecimal digits and their value. *)
Definition quad (text : list Z) (code : Z) : Prop :=
  exists a b c d, text = [a; b; c; d] /\
    isxdigit a = true /\ isxdigit b = true /\ isxdigit c = true /\ isxdigit d = true /\
    code = ((hex_value a * 16 + hex_value b) * 16 + hex_value c) * 16 + hex_value d.

Definition high_surrogate (code : Z) : bool := (55296 <=? code) && (code <=? 56319).
Definition low_surrogate (code : Z) : bool := (56320 <=? code) && (code <=? 57343).

(** What may follow [\u]. *)
Inductive unicode : list Z -> Z -> Prop :=
  | unicode_plain text code :
      quad text code -> high_surrogate code = false -> low_surrogate code = false -> code <> 0 ->
      unicode text code
  | unicode_pair high low h l :
      quad high h -> quad low l -> high_surrogate h = true -> low_surrogate l = true ->
      unicode (high ++ [92; 117] ++ low) (65536 + Z.shiftl (h - 55296) 10 + (l - 56320)).

(** The text between the quotes of a String, and what it denotes. *)
Inductive string_body : list Z -> list Z -> Prop :=
  | body_end : string_body [] []
  | body_char c raw s :
      32 <= c -> c <> 34 -> c <> 92 -> (c = 35 -> peek raw <> 123) -> string_body raw s ->
      string_body (c :: raw) (c :: s)
  | body_escape e c raw s :
      simple_escape e = Some c -> string_body raw s -> string_body (92 :: e :: raw) (c :: s)
  | body_unicode text code raw s :
      unicode text code -> string_body raw s ->
      string_body (92 :: 117 :: text ++ raw) (encode_utf8 code ++ s).

Inductive integer_text : list Z -> Prop :=
  | unsigned digits : is_digits digits -> digits <> [] -> integer_text digits
  | negative digits : is_digits digits -> digits <> [] -> integer_text (45 :: digits).

(** The key of an entry up to its colon; an Array's entries have none. *)
Inductive key_text : bool -> list (list Z * DiamondManifestValue) -> list Z -> list Z -> Prop :=
  | key_hash before raw key ws :
      string_body raw key -> key ∉ map fst before -> blank ws ->
      key_text true before (34 :: raw ++ 34 :: ws ++ [58]) key
  | key_array before : key_text false before [] [].

(** [value_text levels text v]: [text] denotes [v], which nests at most
    [levels] deep; [entries hash levels text children]: the entries of a
    Hash or Array up to its closing delimiter. *)
Inductive value_text : nat -> list Z -> DiamondManifestValue -> Prop :=
  | text_string levels ws raw s :
      blank ws -> string_body raw s ->
      value_text levels (ws ++ 34 :: raw ++ [34]) (MANIFEST_STRING s)
  | text_integer levels ws text :
      blank ws -> integer_text text -> value_text levels (ws ++ text) (MANIFEST_INTEGER text)
  | text_true levels ws :
      blank ws -> value_text levels (ws ++ keyword_true) (MANIFEST_BOOLEAN keyword_true)
  | text_false levels ws :
      blank ws -> value_text levels (ws ++ keyword_false) (MANIFEST_BOOLEAN keyword_false)
  | text_nil levels ws : blank ws -> value_text levels (ws ++ keyword_nil) MANIFEST_OTHER
  | text_collection hash levels ws text v :
      blank ws -> collection_text hash levels text v -> value_text levels (ws ++ text) v
with collection_text : bool -> nat -> list Z -> DiamondManifestValue -> Prop :=
  | text_empty hash levels ws :
      blank ws -> collection_text hash (S levels) (opener hash :: ws ++ [closer hash]) (collect hash [])
  | text_entries hash levels ws text children :
      blank ws -> entries hash levels [] text children ->
      collection_text hash (S levels) (opener hash :: ws ++ text ++ [closer hash])
        (collect hash children)
with entries : bool -> nat -> list (list Z * DiamondManifestValue) -> list Z ->
    list (list Z * DiamondManifestValue) -> Prop :=
  | entries_last hash levels before ktext key text v ws :
      key_text hash before ktext key -> value_text levels text v -> blank ws ->
      entries hash levels before (ktext ++ text ++ ws) (before ++ [(key, v)])
  | entries_comma hash levels before ktext key text v ws ws' :
      key_text hash before ktext key -> value_text levels text v -> blank ws -> blank ws' ->
      entries hash levels before (ktext ++ text ++ ws ++ 44 :: ws') (before ++ [(key, v)])
  | entries_more hash levels before ktext key text v ws ws' rest children :
      key_text hash before ktext key -> value_text levels text v -> blank ws -> blank ws' ->
      entries hash levels (before ++ [(key, v)]) rest children ->
      entries hash levels before (ktext ++ text ++ ws ++ 44 :: ws' ++ rest) children.

Scheme value_text_mut := Induction for value_text Sort Prop
  with collection_text_mut := Induction for collection_text Sort Prop
  with entries_mut := Induction for entries Sort Prop.
Combined Scheme literal_mut from value_text_mut, collection_text_mut, entries_mut.

(** A whole source: one Hash, at most 32 levels and one megabyte. *)
Definition manifest_text (source : list Z) (v : DiamondManifestValue) : Prop :=
  exists ws text ws', source = ws ++ text ++ ws' /\ blank ws /\ blank ws' /\
    collection_text true 32 text v /\ Z.of_nat (List.length source) <= 1048576.

(** ** Following the monad *)

Lemma advance_accepts p u q :
  advance p = Accepts u q -> exists c rest, cursor p = c :: rest /\ q = move p rest.
Proof. unfold advance. destruct (cursor p) as [|c rest]; [done|]. intros [= _ <-]. eauto. Qed.

Lemma following_accepts p u q :
  following p = Accepts u q -> q = p /\ exists c rest, cursor p = c :: rest /\ u = peek rest.
Proof. unfold following. destruct (cursor p) as [|c rest]; [done|]. intros [= <- <-]. eauto. Qed.

Lemma store_accepts capacity result new p r q :
  store capacity result new p = Accepts r q ->
  r = result ++ new /\ q = p /\ (List.length r <= capacity)%nat.
Proof.
  unfold store. destruct (Nat.leb_spec (List.length result + List.length new) capacity); [|done].
  intros [= <- <-]. by rewrite length_app.
Qed.

(** Splits a successful parse into its successful parts. *)
Ltac parse_split :=
  repeat match goal with
  | H : and_then _ _ _ = Accepts _ _ |- _ => apply and_then_accepts in H as (? & ? & ? & H)
  | H : current _ = Accepts _ _ |- _ => injection H as <- <-
  | H : accept _ _ = Accepts _ _ |- _ => injection H as <- <-
  | H : skip_space _ = Accepts _ _ |- _ => injection H as <- <-
  | H : enter _ = Accepts _ _ |- _ => injection H as <- <-
  | H : leave _ = Accepts _ _ |- _ => injection H as <- <-
  | H : reject _ _ = Accepts _ _ |- _ => discriminate H
  | H : overrun _ = Accepts _ _ |- _ => discriminate H
  | H : advance _ = Accepts _ _ |- _ =>
      let c := fresh "c" in let rest := fresh "rest" in let E := fresh "E" in
      apply advance_accepts in H as (c & rest & E & ->); cbn [move cursor depth allocations] in *
  | H : following _ = Accepts _ _ |- _ =>
      let c := fresh "c" in let rest := fresh "rest" in let E := fresh "E" in
      apply following_accepts in H as (-> & c & rest & E & ->)
  | H : store _ _ _ _ = Accepts _ _ |- _ => apply store_accepts in H as (-> & -> & ?)
  | H : (if ?b then _ else _) _ = Accepts _ _ |- _ => destruct b eqn:?
  | H : (match ?o with Some _ => _ | None => _ end) _ = Accepts _ _ |- _ => destruct o eqn:?
  | H : negb _ = false |- _ => apply negb_false_iff in H
  | H : (_ =? _) = true |- _ => apply Z.eqb_eq in H
  end.

Lemma skip_blanks_spec text :
  exists ws, blank ws /\ text = ws ++ skip_blanks text.
Proof.
  induction text as [|c text (ws & Hws & IH)]; [by exists []; split; [constructor|]|].
  simpl. destruct (isspace c) eqn:E.
  - exists (c :: ws). split; [by constructor|]. simpl. by f_equal.
  - exists []. split; [constructor|done].
Qed.

Lemma skip_blanks_app ws text : blank ws -> skip_blanks (ws ++ text) = skip_blanks text.
Proof. induction 1 as [|c ws Hc _ IH]; [done|]. simpl. by rewrite Hc. Qed.

Lemma skip_blanks_id text : isspace (peek text) = false -> skip_blanks text = text.
Proof. destruct text as [|c text]; [done|]. simpl. by intros ->. Qed.

Lemma skip_blanks_twice text : skip_blanks (skip_blanks text) = skip_blanks text.
Proof. induction text as [|c text IH]; [done|]. simpl. destruct (isspace c) eqn:E; [done|]. simpl. by rewrite E. Qed.

Lemma skip_blanks_length text : (List.length (skip_blanks text) <= List.length text)%nat.
Proof. induction text as [|c text IH]; [done|]. simpl. destruct (isspace c); simpl; lia. Qed.

Section Sound.

Variable malloc_ok : nat -> bool.

Lemma allocate_accepts p u q :
  allocate malloc_ok p = Accepts u q -> cursor q = cursor p /\ depth q = depth p.
Proof. unfold allocate. destruct (malloc_ok _); [|done]. by intros [= _ <-]. Qed.

Lemma hex_digits_accepts n code p r q :
  hex_digits n code p = Accepts r q ->
  exists text, cursor p = text ++ cursor q /\ List.length text = n /\
    Forall (fun c => isxdigit c = true) text /\
    r = fold_left (fun code c => code * 16 + hex_value c) text code /\ depth q = depth p.
Proof.
  revert code p. induction n as [|n IH]; intros code p H; simpl in H; parse_split.
  - exists []. by repeat split; try constructor.
  - rewrite E in *. simpl in *.
    apply IH in H as (text & Hc & Hl & Hx & -> & Hd). simpl in *. subst rest.
    exists (c :: text). simpl. split_and!; try done; [lia|by constructor].
Qed.

Lemma hex_quad_accepts p r q :
  parse_hex_quad p = Accepts r q ->
  exists text, cursor p = text ++ cursor q /\ quad text r /\ depth q = depth p.
Proof.
  intros H. apply hex_digits_accepts in H as (text & Hc & Hl & Hx & -> & Hd).
  destruct text as [|a [|b [|c [|d [|]]]]]; try done. exists [a; b; c; d]. split_and!; try done.
  exists a, b, c, d. apply Forall_cons in Hx as [? Hx]. apply Forall_cons in Hx as [? Hx].
  apply Forall_cons in Hx as [? Hx]. apply Forall_cons in Hx as [? Hx].
  split_and!; try done.
Qed.

Lemma unicode_accepts p code q :
  unicode_escape p = Accepts code q ->
  exists text, cursor p = text ++ cursor q /\ unicode text code /\ depth q = depth p.
Proof.
  unfold unicode_escape, low_half. intros H. parse_split.
  - apply hex_quad_accepts in H0 as (t1 & Hc1 & Hq1 & Hd1).
    match goal with H : parse_hex_quad _ = _ |- _ =>
      apply hex_quad_accepts in H as (t2 & Hc2 & Hq2 & Hd2) end.
    cbn [move cursor depth] in *.
    exists (t1 ++ [92; 117] ++ t2). split_and!; [|apply unicode_pair; try done|congruence].
    + rewrite Hc1, <- !app_assoc. f_equal. rewrite E1 in *. by simplify_eq/=.
    + unfold low_surrogate. lia.
  - apply hex_quad_accepts in H0 as (t1 & Hc1 & Hq1 & Hd1).
    exists t1. split_and!; try done. apply unicode_plain; try done. by apply Z.eqb_neq.
Qed.

Lemma string_loop_accepts fuel capacity result p s q :
  string_loop fuel capacity result p = Accepts s q ->
  exists raw body, cursor p = raw ++ 34 :: cursor q /\ string_body raw body /\
    s = result ++ body /\ depth q = depth p.
Proof.
  revert result p. induction fuel as [|fuel IH]; intros result p H; [done|].
  simpl in H. parse_split; rewrite E in *; simpl in *.
  - exists [], []. subst. split_and!; [done|constructor|by rewrite app_nil_r|done].
  - apply unicode_accepts in H0 as (text & Hc & Hu & Hd).
    apply IH in H as (raw & body & Hc2 & Hb & -> & Hd2). simpl in *.
    exists (92 :: 117 :: text ++ raw), (encode_utf8 x1 ++ body). subst. simpl in *. subst. split_and!.
    + by rewrite Hc2, <- app_assoc.
    + by constructor.
    + by rewrite <- app_assoc.
    + congruence.
  - apply IH in H as (raw & body & Hc2 & Hb & -> & Hd2). simpl in *. subst.
    exists (92 :: c0 :: raw), (z :: body). simpl. split_and!; [done|by constructor|by rewrite <- app_assoc|done].
  - apply IH in H as (raw & body & Hc2 & Hb & -> & Hd2). simpl in *. subst rest.
    exists (c :: raw), (c :: body). simpl. split_and!; [done| |by rewrite <- app_assoc|done].
    constructor; try done; try lia. intros ->.
    destruct raw as [|d raw]; simpl in *; [lia|]. intros ->. simpl in *. done.
Qed.

Lemma parse_string_accepts p s q :
  parse_string malloc_ok p = Accepts s q ->
  exists c raw, cursor p = c :: raw ++ 34 :: cursor q /\ string_body raw s /\ depth q = depth p.
Proof.
  unfold parse_string. intros H. parse_split.
  match goal with H : allocate _ _ = _ |- _ => apply allocate_accepts in H as (Ha & Hd) end.
  apply string_loop_accepts in H as (raw & body & Hc & Hb & -> & Hd2). simpl in *.
  exists c, raw. split_and!; [by rewrite E, <- Hc, Ha|done|congruence].
Qed.

Lemma starts_with_spec kw text : starts_with kw text = true -> text = kw ++ drop (List.length kw) text.
Proof.
  revert text. induction kw as [|c kw IH]; intros [|d text] H; simpl in *; try done.
  apply andb_true_iff in H as [->%Z.eqb_eq H]. by f_equal; apply IH.
Qed.

Lemma parse_keyword_accepts p v q :
  parse_keyword malloc_ok p = Accepts v q ->
  depth q = depth p /\ exists kw, cursor p = kw ++ cursor q /\
    (kw = keyword_true /\ v = MANIFEST_BOOLEAN keyword_true \/
     kw = keyword_false /\ v = MANIFEST_BOOLEAN keyword_false \/
     kw = keyword_nil /\ v = MANIFEST_OTHER).
Proof.
  unfold parse_keyword. intros H.
  destruct (starts_with keyword_true (cursor p)) eqn:Ht;
    [|destruct (starts_with keyword_false (cursor p)) eqn:Hf;
      [|destruct (starts_with keyword_nil (cursor p)) eqn:Hn]]; [| | |done]; parse_split.
  1,2: match goal with H : allocate _ _ = _ |- _ => apply allocate_accepts in H as (Ha & Hd) end.
  1,2: simpl in *; split; [done|]; rewrite Ha.
  - exists keyword_true. split; [by apply starts_with_spec|auto].
  - exists keyword_false. split; [by apply starts_with_spec|auto].
  - injection H as <- <-. split; [done|]. exists keyword_nil. split; [by apply starts_with_spec|auto].
Qed.

Lemma parse_integer_accepts p v q :
  parse_integer malloc_ok p = Accepts v q ->
  depth q = depth p /\ isdigit (peek (cursor q)) = false /\
  exists text, cursor p = text ++ cursor q /\ integer_text text /\ v = MANIFEST_INTEGER text.
Proof.
  unfold parse_integer. intros H. parse_split.
  all: match type of H with (let (_, _) := span_digits ?t in _) = _ =>
         pose proof (span_digits_spec t) as Hs; destruct (span_digits t) as [digits rest'] end.
  all: destruct Hs as (Hs & Hd & Hr); destruct (Nat.eqb_spec (List.length digits) 0) as [|Hn]; [done|]; parse_split.
  all: match goal with H : allocate _ _ = _ |- _ => apply allocate_accepts in H as (Ha & Hdd) end.
  all: simpl in *; rewrite Ha; split; [done|split; [done|]].
  - exists (45 :: digits). rewrite E in *. simpl in *. subst. split_and!; try done. constructor; [done|]. by intros ->.
  - exists digits. split_and!; try done. constructor; [done|]. by intros ->.
Qed.

Lemma close_accepts hash children p v q :
  close_collection hash children p = Accepts v q ->
  exists c, cursor p = c :: cursor q /\ v = collect hash children /\ depth q = depth p - 1.
Proof. unfold close_collection. intros H. parse_split. by exists c. Qed.

Lemma parse_key_accepts hash before p key q :
  parse_key malloc_ok hash before p = Accepts key q ->
  depth q = depth p /\ exists text, cursor p = text ++ cursor q /\ key_text hash before text key.
Proof.
  unfold parse_key. intros H. parse_split; [|split; [done|]; exists []; split; [done|constructor]].
  match goal with H : parse_string _ _ = _ |- _ =>
    apply parse_string_accepts in H as (c' & raw & Hc & Hb & Hd) end.
  split; [done|]. simpl in *.
  destruct (skip_blanks_spec (cursor x0)) as (ws & Hws & Hx).
  match goal with H : peek (cursor p) = 34 |- _ => rewrite Hc in H; simpl in H; subst c' end.
  rewrite E in *. simpl in *. subst c.
  exists (34 :: raw ++ 34 :: ws ++ [58]). split.
  - rewrite Hc, Hx. simpl. by rewrite <- !app_assoc, <- app_comm_cons, <- app_assoc.
  - constructor; try done. by eapply bool_decide_eq_false.
Qed.

Definition levels_left (p : LiteralParser) : nat := Z.to_nat (32 - depth p).

Definition value_sound (fuel : nat) : Prop := forall p v q,
  parse_value malloc_ok fuel p = Accepts v q ->
  depth q = depth p /\
  exists text, cursor p = text ++ cursor q /\ value_text (levels_left p) text v.

Definition collection_sound (fuel : nat) : Prop := forall hash p v q,
  parse_collection malloc_ok fuel hash p = Accepts v q -> peek (cursor p) = opener hash ->
  depth q = depth p /\
  exists text, cursor p = text ++ cursor q /\ collection_text hash (levels_left p) text v.

Definition entries_sound (fuel : nat) : Prop := forall hash before p v q,
  parse_entries malloc_ok fuel hash before p = Accepts v q ->
  depth q = depth p - 1 /\
  exists text children, cursor p = text ++ closer hash :: cursor q /\
    entries hash (levels_left p) before text children /\ v = collect hash children.

Lemma value_step fuel : collection_sound fuel -> value_sound (S fuel).
Proof.
  intros IHc p v q H. cbn [parse_value] in H.
  destruct (skip_blanks_spec (cursor p)) as (ws & Hws & Hx). parse_split; simpl in *.
  1,2: destruct (IHc _ _ _ _ H) as (Hd & text & Hc & Ht); [done|]; split; [done|];
    exists (ws ++ text); simpl in Hc; rewrite <- app_assoc, <- Hc; split; [done|];
    eapply text_collection; [done|exact Ht].
  all: apply allocate_accepts in H0 as (Ha & Hd0); simpl in *; rewrite Hx, <- Ha.
  - apply parse_string_accepts in H1 as (c & raw & Hc & Hb & Hd). split; [congruence|].
    exists (ws ++ 34 :: raw ++ [34]). rewrite <- !app_assoc. simpl. rewrite <- app_assoc.
    split; [|by constructor]. f_equal. rewrite Hc. rewrite <- Ha, Hc in Heqb1. simpl in Heqb1. by subst c.
  - apply parse_integer_accepts in H as (Hd & _ & text & Hc & Ht & ->). split; [congruence|].
    exists (ws ++ text). rewrite <- app_assoc, Hc. split; [done|by constructor].
  - apply parse_keyword_accepts in H as (Hd & kw & Hc & Hk). split; [congruence|].
    exists (ws ++ kw). rewrite <- app_assoc, Hc. split; [done|].
    destruct Hk as [[-> ->]|[[-> ->]|[-> ->]]]; by constructor.
Qed.

Lemma collection_step fuel : entries_sound fuel -> collection_sound (S fuel).
Proof.
  intros IHe hash p v q H Ho. cbn [parse_collection] in H. parse_split; simpl in *.
  all: match goal with H : allocate _ _ = _ |- _ => apply allocate_accepts in H as (Ha & Hd) end.
  all: destruct (skip_blanks_spec rest) as (ws & Hws & Hx); simpl in *; rewrite <- Ha, E in Ho.
  all: simpl in Ho; subst c; rewrite <- Ha, E.
  all: assert (Hl : levels_left p = S (Z.to_nat (32 - (depth p + 1)))) by (unfold levels_left; lia).
  all: rewrite Hl.
  - apply close_accepts in H as (c & Hc & -> & Hd2). simpl in *. split; [lia|].
    exists (opener hash :: ws ++ [closer hash]).
    rewrite Hc in *. simpl in *. subst c. split; [|by constructor].
    simpl. by rewrite <- app_assoc, Hx.
  - apply IHe in H as (Hd2 & text & children & Hc & He & ->). simpl in *. split; [lia|].
    exists (opener hash :: ws ++ text ++ [closer hash]). split.
    + simpl. rewrite <- !app_assoc. simpl. by rewrite <- Hc, <- Hx.
    + constructor; [done|]. unfold levels_left in He. simpl in He. by rewrite Hd in He.
Qed.

Lemma entries_step fuel : value_sound fuel -> entries_sound fuel -> entries_sound (S fuel).
Proof.
  intros IHv IHe hash before p v q H. cbn [parse_entries] in H. parse_split; simpl in *.
  all: match goal with H : parse_key _ _ _ _ = _ |- _ =>
         apply parse_key_accepts in H as (Hd1 & ktext & Hc1 & Hk) end.
  all: match goal with H : parse_value _ _ _ = _ |- _ =>
         apply IHv in H as (Hd2 & text & Hc2 & Hv) end.
  all: destruct (skip_blanks_spec (cursor x2)) as (ws & Hws & Hx).
  all: unfold levels_left in *; rewrite Hd1 in Hv.
  - apply close_accepts in H as (c & Hc & -> & Hd). simpl in *. split; [lia|].
    exists (ktext ++ text ++ ws), (before ++ [(x, x1)]). split_and!; [|by constructor|done].
    rewrite Hc in *. simpl in *. subst c. by rewrite Hc1, Hc2, Hx, <- !app_assoc.
  - destruct (skip_blanks_spec rest) as (ws' & Hws' & Hx').
    apply close_accepts in H as (c' & Hc & -> & Hd). simpl in *. split; [lia|].
    exists (ktext ++ text ++ ws ++ 44 :: ws'), (before ++ [(x, x1)]).
    split_and!; [|by constructor|done].
    rewrite E, Hc in *. simpl in *. subst c c'.
    rewrite Hc1, Hc2, Hx, Hx'. by repeat (rewrite <- app_assoc; simpl).
  - destruct (skip_blanks_spec rest) as (ws' & Hws' & Hx').
    apply IHe in H as (Hd & more & children & Hc & He & ->). simpl in *. split; [lia|].
    exists (ktext ++ text ++ ws ++ 44 :: ws' ++ more), children.
    unfold levels_left in He. simpl in He. rewrite Hd2, Hd1 in He.
    split_and!; [|by eapply entries_more|done].
    rewrite E in *. simpl in *. subst c.
    rewrite Hc1, Hc2, Hx, Hx', Hc. by repeat (rewrite <- app_assoc; simpl).
Qed.

Lemma parse_sound fuel : value_sound fuel /\ collection_sound fuel /\ entries_sound fuel.
Proof.
  induction fuel as [|fuel (IHv & IHc & IHe)]; [by split_and!; intros ?|].
  split_and!; [by apply value_step|by apply collection_step|by apply entries_step].
Qed.

(** ** The parser returns, inside its buffers *)

Lemma and_then_returns {A B} (m : Parser A) (k : A -> Parser B) p :
  m p <> Overruns -> (forall a q, m p = Accepts a q -> k a q <> Overruns) ->
  and_then m k p <> Overruns.
Proof. unfold and_then. destruct (m p) as [a q|r q|]; [|done|done]. intros _ H. by apply H. Qed.

Lemma advance_returns p : peek (cursor p) <> 0 -> advance p <> Overruns.
Proof. unfold advance. by destruct (cursor p). Qed.

Lemma allocate_returns p : allocate malloc_ok p <> Overruns.
Proof. unfold allocate. by destruct (malloc_ok _). Qed.

Lemma store_returns capacity result new p :
  (List.length result + List.length new <= capacity)%nat -> store capacity result new p <> Overruns.
Proof. intros H. unfold store. by rewrite (proj2 (Nat.leb_le _ _) H). Qed.

Lemma isxdigit_nonzero c : isxdigit c = true -> c <> 0.
Proof. by intros H ->. Qed.

Lemma hex_digits_returns n code p : hex_digits n code p <> Overruns.
Proof.
  revert code p. induction n as [|n IH]; intros code p; [done|]. cbn [hex_digits].
  apply and_then_returns; [done|]. intros c q [= <- <-].
  destruct (isxdigit (peek (cursor p))) eqn:E; [|done]. cbn [negb].
  apply and_then_returns; [apply advance_returns; by apply isxdigit_nonzero|]. intros; apply IH.
Qed.

Lemma unicode_returns p : unicode_escape p <> Overruns.
Proof.
  unfold unicode_escape, low_half. apply and_then_returns; [apply hex_digits_returns|]. intros code q _.
  apply and_then_returns; [|intros a r _; by destruct (a =? 0)].
  destruct ((55296 <=? code) && (code <=? 56319)); [|by destruct ((56320 <=? code) && (code <=? 57343))].
  apply and_then_returns; [done|]. intros c q1 [= <- <-].
  destruct (Z.eqb_spec (peek (cursor q)) 92) as [E|]; [|done]. cbn [negb].
  destruct (cursor q) as [|b rest] eqn:Eq; [done|].
  apply and_then_returns; [unfold following; by rewrite Eq|]. intros u q1 Hf.
  unfold following in Hf. rewrite Eq in Hf. injection Hf as <- <-.
  destruct (Z.eqb_spec (peek rest) 117) as [E2|]; [|done]. cbn [negb].
  apply and_then_returns; [unfold advance; by rewrite Eq|]. intros [] q1 Ha.
  unfold advance in Ha. rewrite Eq in Ha. injection Ha as <-.
  apply and_then_returns; [apply advance_returns; simpl; lia|]. intros [] q2 _.
  apply and_then_returns; [apply hex_digits_returns|]. intros low q3 _.
  by destruct ((low <? 56320) || (57343 <? low)).
Qed.

Lemma encode_utf8_length code : (List.length (encode_utf8 code) <= 4)%nat.
Proof. unfold encode_utf8. repeat case_match; simpl; lia. Qed.

Lemma unicode_length text code : unicode text code -> (4 <= List.length text)%nat.
Proof.
  destruct 1 as [text code Hq|high low h l Hq _ _ _]; destruct Hq as (a & b & c & d & -> & _).
  - simpl; lia.
  - rewrite !length_app. simpl. lia.
Qed.

Lemma string_loop_returns fuel capacity result p :
  (List.length (cursor p) < fuel)%nat ->
  (List.length result + List.length (cursor p) < capacity)%nat ->
  string_loop fuel capacity result p <> Overruns.
Proof.
  revert result p. induction fuel as [|fuel IH]; intros result p Hf Hc; [lia|]. cbn [string_loop].
  apply and_then_returns; [done|]. intros c q [= <- <-].
  destruct ((peek (cursor p) =? 0) || (peek (cursor p) <? 32)) eqn:E; [done|].
  apply and_then_returns; [apply advance_returns; lia|]. intros [] q Ha.
  apply advance_accepts in Ha as (c & rest & Hr & ->). rewrite Hr in *. simpl in *.
  destruct (c =? 34).
  { apply and_then_returns; [apply store_returns; simpl; lia|done]. }
  apply and_then_returns; [done|]. intros next q [= <- <-]. simpl.
  destruct ((c =? 35) && _); [done|].
  assert (Hpush : forall z q, (List.length (cursor q) <= List.length rest)%nat ->
    and_then (store capacity result [z]) (fun result => string_loop fuel capacity result) q <> Overruns).
  { intros z q Hq. apply and_then_returns; [apply store_returns; simpl; lia|]. intros r q' Hs.
    apply store_accepts in Hs as (-> & -> & _). apply IH; rewrite ?length_app in *; simpl in *; lia. }
  destruct (c =? 92); [|destruct (c =? 0); [done|]; by apply Hpush].
  destruct (Z.eqb_spec (peek rest) 0) as [|Hn]; [done|].
  apply and_then_returns; [by apply advance_returns|]. intros [] q Ha.
  apply advance_accepts in Ha as (d & rest' & Hr' & ->). simpl in *. subst rest. simpl in *.
  destruct (d =? 117).
  - apply and_then_returns; [apply unicode_returns|]. intros code q Hu.
    apply unicode_accepts in Hu as (text & Ht & Hu%unicode_length & _). simpl in Ht.
    assert (Hlen := f_equal List.length Ht). rewrite length_app in Hlen.
    pose proof (encode_utf8_length code).
    apply and_then_returns; [apply store_returns; lia|]. intros r q' Hs.
    apply store_accepts in Hs as (-> & -> & _). apply IH; rewrite ?length_app; lia.
  - destruct (simple_escape d) as [z|]; [|done]. destruct (z =? 0); [done|].
    apply Hpush. simpl. lia.
Qed.

Lemma parse_string_returns p : peek (cursor p) <> 0 -> parse_string malloc_ok p <> Overruns.
Proof.
  intros Hp. unfold parse_string. apply and_then_returns; [by apply advance_returns|]. intros [] q _.
  apply and_then_returns; [apply allocate_returns|]. intros [] q' Ha.
  apply allocate_accepts in Ha as (Ha & _). rewrite <- Ha. apply string_loop_returns; simpl; lia.
Qed.

Lemma parse_key_returns hash before p : parse_key malloc_ok hash before p <> Overruns.
Proof.
  unfold parse_key. destruct hash; [|done].
  apply and_then_returns; [done|]. intros c q [= <- <-].
  destruct (Z.eqb_spec (peek (cursor p)) 34); [|done]. cbn [negb].
  apply and_then_returns; [apply parse_string_returns; lia|]. intros key q _.
  destruct (bool_decide _); [done|].
  apply and_then_returns; [done|]. intros [] q' _.
  apply and_then_returns; [done|]. intros c q2 [= <- <-].
  destruct (Z.eqb_spec (peek (cursor q')) 58); [|done]. cbn [negb].
  apply and_then_returns; [apply advance_returns; lia|done].
Qed.

Lemma parse_keyword_returns p : parse_keyword malloc_ok p <> Overruns.
Proof.
  unfold parse_keyword.
  repeat case_match; try done; (apply and_then_returns; [apply allocate_returns|done]).
Qed.

Lemma parse_integer_returns p : parse_integer malloc_ok p <> Overruns.
Proof.
  unfold parse_integer. apply and_then_returns; [done|]. intros c q [= <- <-].
  apply and_then_returns.
  - destruct (Z.eqb_spec (peek (cursor p)) 45); [|done].
    apply and_then_returns; [apply advance_returns; lia|done].
  - intros sign q _. destruct (span_digits (cursor q)) as [digits rest].
    destruct (_ =? 0)%nat; [done|]. apply and_then_returns; [apply allocate_returns|done].
Qed.

Lemma close_returns hash children p :
  peek (cursor p) = closer hash -> close_collection hash children p <> Overruns.
Proof.
  intros H. unfold close_collection. apply and_then_returns; [|done].
  apply advance_returns. rewrite H. by destruct hash.
Qed.

Lemma consumed {p q : LiteralParser} {text} :
  cursor p = text ++ cursor q -> (List.length (cursor q) <= List.length (cursor p))%nat.
Proof. intros ->. rewrite length_app. lia. Qed.

(** Every round of the mutual recursion reads at least a byte per three. *)
Lemma parse_returns fuel :
  (forall p, (3 * List.length (cursor p) + 1 <= fuel)%nat -> parse_value malloc_ok fuel p <> Overruns) /\
  (forall hash p, (3 * List.length (cursor p) <= fuel)%nat -> peek (cursor p) = opener hash ->
     parse_collection malloc_ok fuel hash p <> Overruns) /\
  (forall hash before p, (3 * List.length (cursor p) + 2 <= fuel)%nat ->
     parse_entries malloc_ok fuel hash before p <> Overruns).
Proof.
  induction fuel as [|fuel (IHv & IHc & IHe)].
  { split_and!; intros; try lia. destruct (cursor p); [by destruct hash|simpl in *; lia]. }
  split_and!.
  - intros p Hf. cbn [parse_value]. apply and_then_returns; [done|]. intros [] q [= <-].
    pose proof (skip_blanks_length (cursor p)) as Hs.
    apply and_then_returns; [done|]. intros c q [= <- <-]. simpl.
    destruct (Z.eqb_spec (peek (skip_blanks (cursor p))) 123); [apply IHc; simpl; [lia|done]|].
    destruct (Z.eqb_spec (peek (skip_blanks (cursor p))) 91); [apply IHc; simpl; [lia|done]|].
    apply and_then_returns; [apply allocate_returns|]. intros [] q Ha.
    apply allocate_accepts in Ha as (Ha & _). simpl in Ha.
    destruct (Z.eqb_spec (peek (skip_blanks (cursor p))) 34).
    { apply and_then_returns; [apply parse_string_returns; rewrite Ha; lia|done]. }
    destruct (_ || _); [apply parse_integer_returns|apply parse_keyword_returns].
  - intros hash p Hf Ho. cbn [parse_collection]. apply and_then_returns; [done|].
    intros level q [= <- <-]. destruct (32 <? depth p + 1); [done|].
    apply and_then_returns; [apply allocate_returns|]. intros [] q Ha.
    apply allocate_accepts in Ha as (Ha & _). simpl in Ha.
    apply and_then_returns; [apply advance_returns; rewrite Ha, Ho; by destruct hash|].
    intros [] q1 H1. apply advance_accepts in H1 as (c & rest & Hr & ->). rewrite Ha in Hr.
    rewrite Hr in Hf. simpl in Hf. pose proof (skip_blanks_length rest) as Hs.
    apply and_then_returns; [done|]. intros [] q2 [= <-].
    apply and_then_returns; [done|]. intros c' q3 [= <- <-]. simpl.
    destruct (Z.eqb_spec (peek (skip_blanks rest)) (closer hash)); [by apply close_returns|].
    apply IHe. simpl. lia.
  - intros hash before p Hf. cbn [parse_entries]. apply and_then_returns; [apply parse_key_returns|].
    intros key q Hk. apply parse_key_accepts in Hk as (_ & kt & Hk%consumed & _).
    apply and_then_returns; [apply IHv; lia|]. intros child q1 Hv.
    apply (proj1 (parse_sound _)) in Hv as (_ & vt & Hv%consumed & _).
    pose proof (skip_blanks_length (cursor q1)) as Hs.
    apply and_then_returns; [done|]. intros [] q2 [= <-].
    apply and_then_returns; [done|]. intros c q3 [= <- <-]. simpl.
    destruct (Z.eqb_spec (peek (skip_blanks (cursor q1))) (closer hash)); [by apply close_returns|].
    destruct (Z.eqb_spec (peek (skip_blanks (cursor q1))) 44); [|done]. cbn [negb].
    apply and_then_returns; [apply advance_returns; simpl; lia|]. intros [] q2 H2.
    apply advance_accepts in H2 as (d & rest & Hr & ->). simpl in Hr. rewrite Hr in Hs. simpl in Hs.
    pose proof (skip_blanks_length rest) as Hs2.
    apply and_then_returns; [done|]. intros [] q3 [= <-].
    apply and_then_returns; [done|]. intros c' q4 [= <- <-]. simpl.
    destruct (Z.eqb_spec (peek (skip_blanks rest)) (closer hash)); [by apply close_returns|].
    apply IHe. simpl. lia.
Qed.

Lemma manifest_parse_returns source error_size :
  diamond_manifest_parse malloc_ok source error_size <> None.
Proof.
  unfold diamond_manifest_parse. destruct (error_size =? 0)%nat; [done|].
  assert (H : parse_source malloc_ok source (start_parser source) <> Overruns);
    [|by destruct (parse_source _ _ _)].
  unfold parse_source. destruct (1048576 <? _); [done|].
  pose proof (skip_blanks_length source) as Hs.
  apply and_then_returns; [done|]. intros [] q [= <-].
  apply and_then_returns; [done|]. intros c q [= <- <-]. cbn [move cursor start_parser].
  destruct (Z.eqb_spec (peek (skip_blanks source)) 123); [|done]. cbn [negb].
  apply and_then_returns;
    [apply (proj1 (proj2 (parse_returns _))); [cbn [cursor move start_parser]; lia|done]|].
  intros root q _.
  apply and_then_returns; [done|]. intros [] q1 _.
  apply and_then_returns; [done|]. intros c q2 [= <- <-]. by destruct (negb _).
Qed.

(** What is accepted is in the grammar, whichever allocations fail. *)
Lemma manifest_parse_sound source error_size v :
  cstring source -> diamond_manifest_parse malloc_ok source error_size = Some (inl v) -> manifest_text source v.
Proof.
  unfold diamond_manifest_parse. intros Hz. destruct (error_size =? 0)%nat; [done|].
  destruct (parse_source _ _ _) as [root q| |] eqn:H; [|done|done]. intros [= ->].
  unfold parse_source in H. parse_split; cbn [move cursor start_parser] in *.
  match goal with H : parse_collection _ _ _ _ = _ |- _ =>
    destruct (proj1 (proj2 (parse_sound _)) _ _ _ _ H) as (_ & text & Hc & Ht); [done|] end.
  cbn [move cursor start_parser] in Hc.
  destruct (skip_blanks_spec source) as (ws & Hws & Hx).
  destruct (skip_blanks_spec (cursor x0)) as (ws' & Hws' & Hx').
  exists ws, text, ws'. split_and!; try done; [|apply Z.ltb_ge in Heqb; lia].
  assert (Hend : skip_blanks (cursor x0) = []).
  { destruct (skip_blanks (cursor x0)) as [|c rest] eqn:Es; [done|]. simpl in *. subst c. exfalso.
    rewrite Hx, Hc, Hx' in Hz. apply Forall_app in Hz as [_ Hz]. apply Forall_app in Hz as [_ Hz].
    apply Forall_app in Hz as [_ Hz]. apply Forall_cons in Hz as [Hz _]. lia. }
  rewrite Hend, app_nil_r in Hx'. by rewrite Hx, Hc, Hx'.
Qed.

End Sound.

(** ** Every text of the grammar is accepted *)

Section Complete.

Variable malloc_ok : nat -> bool.
Hypothesis plenty : forall n, malloc_ok n = true.

Lemma move_move p a b : move (move p a) b = move p b.
Proof. done. Qed.

(** Parsers run from states [move p text]: one step of the cursor. *)
Ltac run_step :=
  erewrite and_then_run; [|reflexivity]; rewrite ?move_move;
  cbn [cursor peek move app negb Z.eqb Pos.eqb].

Definition allocated (p : LiteralParser) : LiteralParser :=
  {| cursor := cursor p; depth := depth p; allocations := S (allocations p) |}.

Lemma allocate_run p text : allocate malloc_ok (move p text) = Accepts tt (move (allocated p) text).
Proof. unfold allocate. by rewrite plenty. Qed.

Lemma store_run capacity result new p :
  (List.length result + List.length new <= capacity)%nat ->
  store capacity result new p = Accepts (result ++ new) p.
Proof. intros H. unfold store. by rewrite (proj2 (Nat.leb_le _ _) H). Qed.

Lemma hex_digits_run n code p x rest :
  isxdigit x = true ->
  hex_digits (S n) code (move p (x :: rest)) = hex_digits n (code * 16 + hex_value x) (move p rest).
Proof. intros Hx. cbn [hex_digits]. unfold and_then, current. cbn [cursor move peek]. by rewrite Hx. Qed.

Lemma hex_quad_run p text code rest :
  quad text code -> parse_hex_quad (move p (text ++ rest)) = Accepts code (move p rest).
Proof.
  intros (a & b & c & d & -> & Ha & Hb & Hc & Hd & ->). unfold parse_hex_quad. cbn [app].
  by rewrite !hex_digits_run.
Qed.

Lemma low_half_run p h text l rest :
  quad text l -> low_surrogate l = true ->
  low_half h (move p ([92; 117] ++ text ++ rest))
  = Accepts (65536 + Z.shiftl (h - 55296) 10 + (l - 56320)) (move p rest).
Proof.
  unfold low_surrogate. intros Hq Hl.
  assert (Hr : (l <? 56320) || (57343 <? l) = false) by lia.
  apply (hex_quad_run p _ _ rest) in Hq. unfold low_half.
  do 4 run_step. by rewrite (and_then_run _ _ _ _ _ Hq), Hr.
Qed.

Lemma unicode_run p text code rest :
  unicode text code -> unicode_escape (move p (text ++ rest)) = Accepts code (move p rest).
Proof.
  intros [text' code' Hq Hh Hl Hn|high low h l Hh Hl Hhs Hls]; unfold unicode_escape.
  - rewrite (and_then_run _ _ _ _ _ (hex_quad_run _ _ _ _ Hq)).
    unfold high_surrogate, low_surrogate in *. rewrite Hh, Hl. unfold and_then, accept.
    by rewrite (proj2 (Z.eqb_neq _ _) Hn).
  - rewrite <- !app_assoc, (and_then_run _ _ _ _ _ (hex_quad_run _ _ _ _ Hh)).
    unfold high_surrogate, low_surrogate in *. rewrite Hhs.
    rewrite (and_then_run _ _ _ _ _ (low_half_run _ _ _ _ _ Hl Hls)).
    unfold accept.
    assert (Hz : (65536 + Z.shiftl (h - 55296) 10 + (l - 56320) =? 0) = false).
    { apply Z.eqb_neq. assert (0 <= Z.shiftl (h - 55296) 10) by (apply Z.shiftl_nonneg; lia). lia. }
    by rewrite Hz.
Qed.

Lemma push_run fuel capacity result s p q z :
  (List.length result < capacity)%nat ->
  string_loop fuel capacity (result ++ [z]) p = Accepts ((result ++ [z]) ++ s) q ->
  and_then (store capacity result [z]) (fun result => string_loop fuel capacity result) p
  = Accepts (result ++ z :: s) q.
Proof.
  intros Hc H. rewrite (and_then_run _ _ _ _ _ (store_run capacity result [z] p ltac:(simpl; lia))), H.
  by rewrite <- app_assoc.
Qed.

Lemma string_loop_run raw s : string_body raw s ->
  forall fuel capacity result p rest,
    (List.length (raw ++ 34%Z :: rest) < fuel)%nat ->
    (List.length result + List.length (raw ++ 34%Z :: rest) < capacity)%nat ->
    string_loop fuel capacity result (move p (raw ++ 34 :: rest)) = Accepts (result ++ s) (move p rest).
Proof.
  induction 1 as [|c raw s Hc H34 H92 Hi H IH|e c raw s He H IH|text code raw s Hu H IH];
    intros [|fuel] capacity result p rest Hf Hcap; [lia| |lia| |lia| |lia|];
    cbn [string_loop]; run_step; simpl in Hf, Hcap.
  - cbn [orb Z.ltb Z.compare Pos.compare Pos.compare_cont]. run_step.
    rewrite (and_then_run _ _ _ _ _ (store_run capacity result [0] _ ltac:(simpl; lia))).
    by rewrite app_nil_r.
  - assert (E : (c =? 0) || (c <? 32) = false) by lia. rewrite E. run_step.
    rewrite (proj2 (Z.eqb_neq c 34) H34). run_step.
    assert (E2 : (c =? 35) && (peek (raw ++ 34 :: rest) =? 123) = false).
    { destruct (Z.eqb_spec c 35) as [->|]; [|done]. simpl. apply Z.eqb_neq.
      destruct raw as [|d raw]; simpl in *; [lia|auto]. }
    rewrite E2, (proj2 (Z.eqb_neq c 92) H92). assert (E3 : (c =? 0) = false) by lia. rewrite E3.
    apply push_run; [lia|]. apply IH; rewrite ?length_app in *; simpl in *; lia.
  - cbn [orb Z.ltb Z.compare Pos.compare Pos.compare_cont]. run_step. run_step. cbn [andb].
    assert (He0 : (e =? 0) = false /\ (e =? 117) = false /\ (c =? 0) = false).
    { unfold simple_escape in He.
      repeat match type of He with context [if ?b then _ else _] => destruct b eqn:? end;
        simplify_eq; split_and!; lia. }
    destruct He0 as (E1 & E2 & E3). rewrite E1. run_step. rewrite E2, He, E3.
    apply push_run; [lia|]. apply IH; rewrite ?length_app in *; simpl in *; lia.
  - cbn [orb Z.ltb Z.compare Pos.compare Pos.compare_cont]. run_step. run_step. cbn [andb]. run_step.
    rewrite <- app_assoc, (and_then_run _ _ _ _ _ (unicode_run p text code (raw ++ 34 :: rest) Hu)).
    pose proof (encode_utf8_length code). apply unicode_length in Hu.
    rewrite !length_app in Hf, Hcap. simpl in Hf, Hcap.
    rewrite (and_then_run _ _ _ _ _ (store_run capacity result (encode_utf8 code) _ ltac:(simpl; lia))).
    rewrite IH; [by rewrite <- app_assoc|rewrite !length_app; simpl; lia|rewrite !length_app; simpl; lia].
Qed.

Lemma parse_string_run p c raw s rest :
  string_body raw s ->
  parse_string malloc_ok (move p (c :: raw ++ 34 :: rest)) = Accepts s (move (allocated p) rest).
Proof.
  intros H. unfold parse_string. run_step. rewrite (and_then_run _ _ _ _ _ (allocate_run _ _)).
  rewrite (string_loop_run _ _ H); [done|lia|simpl; lia].
Qed.

Definition state (d : Z) (n : nat) (text : list Z) : LiteralParser :=
  {| cursor := text; depth := d; allocations := n |}.

(** [m] accepts [v] from any allocation count, ending at [text'], depth [d']. *)
Definition runs {A} (m : Parser A) (d : Z) (text : list Z) (v : A) (d' : Z) (text' : list Z) : Prop :=
  forall n, exists n', m (state d n text) = Accepts v (state d' n' text').

Lemma runs_then {A B} (m : Parser A) (k : A -> Parser B) d text a d1 text1 b d2 text2 :
  runs m d text a d1 text1 -> runs (k a) d1 text1 b d2 text2 -> runs (and_then m k) d text b d2 text2.
Proof.
  intros H1 H2 n. destruct (H1 n) as [n1 E1]. destruct (H2 n1) as [n2 E2].
  exists n2. by rewrite (and_then_run _ _ _ _ _ E1).
Qed.

Lemma runs_accept {A} (a : A) d text : runs (accept a) d text a d text.
Proof. intros n. by exists n. Qed.
Lemma runs_current d text : runs current d text (peek text) d text.
Proof. intros n. by exists n. Qed.
Lemma runs_advance d c text : runs advance d (c :: text) tt d text.
Proof. intros n. by exists n. Qed.
Lemma runs_skip d text : runs skip_space d text tt d (skip_blanks text).
Proof. intros n. by exists n. Qed.
Lemma runs_enter d text : runs enter d text (d + 1) (d + 1) text.
Proof. intros n. by exists n. Qed.
Lemma runs_leave d text : runs leave d text tt (d - 1) text.
Proof. intros n. by exists n. Qed.
Lemma runs_allocate d text : runs (allocate malloc_ok) d text tt d text.
Proof. intros n. exists (S n). unfold allocate, state. simpl. by rewrite plenty. Qed.

Lemma runs_string d c raw s rest :
  string_body raw s -> runs (parse_string malloc_ok) d (c :: raw ++ 34 :: rest) s d rest.
Proof. intros H n. exists (S n). exact (parse_string_run (state d n []) c raw s rest H). Qed.

Lemma runs_close hash children d rest :
  runs (close_collection hash children) d (closer hash :: rest) (collect hash children) (d - 1) rest.
Proof.
  unfold close_collection. eapply runs_then; [apply runs_advance|].
  eapply runs_then; [apply runs_leave|apply runs_accept].
Qed.

Lemma runs_key hash before ktext key d text :
  key_text hash before ktext key ->
  exists c, runs (parse_key malloc_ok hash before) d (skip_blanks (ktext ++ text)) key d c /\
    skip_blanks c = skip_blanks text.
Proof.
  intros [before' raw key' ws Hb Hk Hws|before'].
  2:{ exists (skip_blanks text). split; [apply runs_accept|apply skip_blanks_twice]. }
  exists text. split; [|done]. unfold parse_key.
  assert (E : skip_blanks ((34 :: raw ++ 34 :: ws ++ [58]) ++ text) = 34 :: raw ++ 34 :: ws ++ 58 :: text)
    by (rewrite <- app_comm_cons, <- app_assoc, <- app_comm_cons, <- app_assoc; done).
  rewrite E. eapply runs_then; [apply runs_current|]. cbn [peek negb Z.eqb Pos.eqb].
  eapply runs_then; [by apply runs_string|].
  rewrite bool_decide_false by done. eapply runs_then; [apply runs_skip|].
  rewrite skip_blanks_app by done. eapply runs_then; [apply runs_current|].
  eapply runs_then; [apply runs_advance|apply runs_accept].
Qed.

Lemma runs_keyword kw v d rest :
  kw = keyword_true /\ v = MANIFEST_BOOLEAN keyword_true \/
  kw = keyword_false /\ v = MANIFEST_BOOLEAN keyword_false \/
  kw = keyword_nil /\ v = MANIFEST_OTHER ->
  runs (parse_keyword malloc_ok) d (kw ++ rest) v d rest.
Proof.
  intros [[-> ->]|[[-> ->]|[-> ->]]] n.
  1,2: exists (S n); unfold parse_keyword, and_then, allocate; simpl; by rewrite plenty.
  exists n. reflexivity.
Qed.

Lemma runs_integer text d rest :
  integer_text text -> isdigit (peek rest) = false ->
  runs (parse_integer malloc_ok) d (text ++ rest) (MANIFEST_INTEGER text) d rest.
Proof.
  intros H Hr. unfold parse_integer. eapply runs_then; [apply runs_current|].
  assert (Hdigits : forall sign digits, is_digits digits -> digits <> [] ->
    runs (fun p => let '(digits, rest) := span_digits (cursor p) in
        if (List.length digits =? 0)%nat then Rejects "expected integer" (move p rest)
        else (let& _ := allocate malloc_ok in accept (MANIFEST_INTEGER (sign ++ digits))) (move p rest))
      d (digits ++ rest) (MANIFEST_INTEGER (sign ++ digits)) d rest).
  { intros sign digits Hd Hn n. exists (S n). unfold state. cbn [cursor].
    rewrite span_digits_app by done. destruct digits as [|c digits]; [done|].
    cbn [List.length Nat.eqb]. unfold and_then, allocate. cbn. by rewrite plenty. }
  destruct H as [digits Hd Hn|digits Hd Hn].
  - eapply runs_then; [|by apply (Hdigits [])].
    destruct digits as [|c digits]; [done|]. cbn [peek app].
    assert (Hc : (c =? 45) = false) by (apply Forall_cons in Hd as [? _]; lia). rewrite Hc.
    apply runs_accept.
  - eapply runs_then; [|by apply (Hdigits [45])]. cbn [peek app Z.eqb Pos.eqb].
    eapply runs_then; [apply runs_advance|apply runs_accept].
Qed.

Lemma blank_then_nondigit ws c rest :
  blank ws -> isdigit c = false -> isdigit (peek (ws ++ c :: rest)) = false.
Proof.
  intros [|b ws' Hb _] Hc; [done|]. simpl. unfold isspace, isdigit in *. lia.
Qed.

Lemma collection_head hash levels text v :
  collection_text hash levels text v -> exists t, text = opener hash :: t.
Proof. destruct 1; eauto. Qed.

Lemma token_head text v levels rest :
  value_text levels text v ->
  peek (skip_blanks (text ++ rest)) <> 93 /\ peek (skip_blanks (text ++ rest)) <> 125.
Proof.
  destruct 1 as [l ws raw s Hws _|l ws text Hws Ht|l ws Hws|l ws Hws|l ws Hws|hash l ws text v Hws Hc];
    rewrite <- app_assoc, skip_blanks_app by done; try done.
  - destruct Ht as [digits Hd Hn|digits Hd Hn]; [|done].
    destruct digits as [|c digits]; [done|]. apply Forall_cons in Hd as [Hd _]. simpl.
    assert (E : isspace c = false) by (unfold isspace; lia). rewrite E. simpl. lia.
  - destruct (collection_head _ _ _ _ Hc) as [t ->]. by destruct hash.
Qed.

Lemma entries_head hash levels before text children rest :
  entries hash levels before text children -> peek (skip_blanks (text ++ rest)) <> closer hash.
Proof.
  intros H.
  assert (Hk : exists ktext key vtext v more, text = ktext ++ vtext ++ more /\
    key_text hash before ktext key /\ value_text levels vtext v).
  { destruct H; eauto 10. }
  destruct Hk as (ktext & key & vtext & v & more & -> & Hk & Hv).
  destruct Hk; [done|]. simpl. rewrite <- app_assoc. exact (proj1 (token_head _ _ _ (more ++ rest) Hv)).
Qed.

Lemma closer_nondigit hash : isdigit (closer hash) = false.
Proof. by destruct hash. Qed.

Lemma skip_closer hash ws rest :
  blank ws -> skip_blanks (ws ++ closer hash :: rest) = closer hash :: rest.
Proof. intros H. rewrite skip_blanks_app by done. by destruct hash. Qed.

Definition value_complete levels text v (_ : value_text levels text v) : Prop :=
  forall fuel d c rest, (3 * List.length text + 1 <= fuel)%nat -> d + Z.of_nat levels <= 32 ->
    isdigit (peek rest) = false -> skip_blanks c = skip_blanks (text ++ rest) ->
    runs (parse_value malloc_ok fuel) d c v d rest.

Definition collection_complete hash levels text v (_ : collection_text hash levels text v) : Prop :=
  forall fuel d rest, (3 * List.length text <= fuel)%nat -> d + Z.of_nat levels <= 32 ->
    runs (parse_collection malloc_ok fuel hash) d (text ++ rest) v d rest.

Definition entries_complete hash levels before text children
    (_ : entries hash levels before text children) : Prop :=
  forall fuel d rest, (3 * List.length text + 2 <= fuel)%nat -> d + Z.of_nat levels <= 32 ->
    runs (parse_entries malloc_ok fuel hash before) d
      (skip_blanks (text ++ closer hash :: rest)) (collect hash children) (d - 1) rest.

Lemma runs_entry hash levels before ktext key text v (Hv : value_text levels text v) fuel d rest more :
  key_text hash before ktext key -> value_complete levels text v Hv ->
  (3 * List.length text + 1 <= fuel)%nat -> d + Z.of_nat levels <= 32 ->
  isdigit (peek more) = false -> forall k (w : DiamondManifestValue) d',
  runs (k key v) d (skip_blanks more) w d' rest ->
  runs (let& key := parse_key malloc_ok hash before in
        let& child := parse_value malloc_ok fuel in
        let& _ := skip_space in k key child) d (skip_blanks (ktext ++ text ++ more)) w d' rest.
Proof.
  intros Hk Hcv Hf Hd Hm k w d' H.
  destruct (runs_key hash before ktext key d (text ++ more) Hk) as (c & Hkey & Hc).
  eapply runs_then; [exact Hkey|]. eapply runs_then; [by apply Hcv|].
  eapply runs_then; [apply runs_skip|exact H].
Qed.

Lemma collection_runs_value hash levels ws text v :
  blank ws -> forall Hc : collection_text hash levels text v, collection_complete hash levels text v Hc ->
  forall H, value_complete levels (ws ++ text) v H.
Proof.
  intros Hws Hc IH H [|fuel] d c rest Hf Hd Hr Hs; [lia|]. cbn [parse_value].
  eapply runs_then; [apply runs_skip|]. rewrite Hs, <- app_assoc, skip_blanks_app by done.
  destruct (collection_head _ _ _ _ Hc) as [t Ht]. rewrite length_app in Hf.
  rewrite skip_blanks_id by (rewrite Ht; by destruct hash).
  eapply runs_then; [apply runs_current|].
  assert (Hp : peek (text ++ rest) = opener hash) by by rewrite Ht. rewrite Hp.
  destruct hash; cbn [opener Z.eqb Pos.eqb]; apply IH; lia.
Qed.

Lemma token_runs_value levels ws text v :
  blank ws -> isspace (peek text) = false -> text <> [] ->
  (peek text =? 123) = false -> (peek text =? 91) = false ->
  (forall d rest, isdigit (peek rest) = false ->
    runs (if peek text =? 34 then let& text := parse_string malloc_ok in accept (MANIFEST_STRING text)
          else if (peek text =? 45) || isdigit (peek text) then parse_integer malloc_ok
          else parse_keyword malloc_ok) d (text ++ rest) v d rest) ->
  forall H, value_complete levels (ws ++ text) v H.
Proof.
  intros Hws Hb Hn H1 H2 Hrun H [|fuel] d c rest Hf Hd Hr Hs; [lia|]. cbn [parse_value].
  assert (Hp : forall r, peek (text ++ r) = peek text) by by destruct text.
  eapply runs_then; [apply runs_skip|]. rewrite Hs, <- app_assoc, skip_blanks_app by done.
  rewrite skip_blanks_id by by rewrite Hp.
  eapply runs_then; [apply runs_current|]. rewrite Hp, H1, H2.
  eapply runs_then; [apply runs_allocate|]. by apply Hrun.
Qed.

Lemma digit_token c : 48 <= c <= 57 ->
  isspace c = false /\ (c =? 123) = false /\ (c =? 91) = false /\ (c =? 34) = false /\
  (c =? 45) || isdigit c = true.
Proof. unfold isspace, isdigit. lia. Qed.

Lemma integer_runs_value levels ws text :
  blank ws -> integer_text text ->
  forall H, value_complete levels (ws ++ text) (MANIFEST_INTEGER text) H.
Proof.
  intros Hws Ht.
  assert (Hh : isspace (peek text) = false /\ (peek text =? 123) = false /\ (peek text =? 91) = false /\
    (peek text =? 34) = false /\ (peek text =? 45) || isdigit (peek text) = true /\ text <> []).
  { destruct Ht as [[|c digits] Hd Hn|digits Hd Hn]; [done| |done].
    apply Forall_cons in Hd as [Hd _]. destruct (digit_token c Hd) as (?&?&?&?&?). done. }
  destruct Hh as (E1 & E2 & E3 & E4 & E5 & E6). apply token_runs_value; try done.
  intros d rest Hr. rewrite E4, E5. by apply runs_integer.
Qed.

Lemma string_runs_value levels ws raw s :
  blank ws -> string_body raw s ->
  forall H, value_complete levels (ws ++ 34 :: raw ++ [34]) (MANIFEST_STRING s) H.
Proof.
  intros Hws Hb. apply token_runs_value; try done. intros d rest _. cbn [peek Z.eqb Pos.eqb].
  rewrite <- app_comm_cons, <- app_assoc.
  eapply runs_then; [by apply runs_string|apply runs_accept].
Qed.

Lemma keyword_runs_value levels ws kw v :
  blank ws ->
  kw = keyword_true /\ v = MANIFEST_BOOLEAN keyword_true \/
  kw = keyword_false /\ v = MANIFEST_BOOLEAN keyword_false \/
  kw = keyword_nil /\ v = MANIFEST_OTHER ->
  forall H, value_complete levels (ws ++ kw) v H.
Proof.
  intros Hws Hk. apply token_runs_value; try done.
  1-4: by destruct Hk as [[-> _]|[[-> _]|[-> _]]].
  intros d rest _.
  assert (E : (peek kw =? 34) = false /\ (peek kw =? 45) || isdigit (peek kw) = false)
    by by destruct Hk as [[-> _]|[[-> _]|[-> _]]].
  destruct E as [-> ->]. by apply runs_keyword.
Qed.

Lemma literal_runs :
  (forall levels text v H, value_complete levels text v H) /\
  (forall hash levels text v H, collection_complete hash levels text v H) /\
  (forall hash levels before text children H, entries_complete hash levels before text children H).
Proof.
  apply literal_mut.
  - intros. by apply string_runs_value.
  - intros. by apply integer_runs_value.
  - intros. apply keyword_runs_value; auto.
  - intros. apply keyword_runs_value; auto.
  - intros. apply keyword_runs_value; auto.
  - intros. by eapply collection_runs_value.
  - intros hash levels ws Hws [|fuel] d rest Hf Hd; [simpl in *; lia|]. cbn [parse_collection].
    rewrite <- app_comm_cons, <- app_assoc. eapply runs_then; [apply runs_enter|]. rewrite (proj2 (Z.ltb_ge 32 (d + 1))) by lia.
    eapply runs_then; [apply runs_allocate|]. eapply runs_then; [apply runs_advance|].
    eapply runs_then; [apply runs_skip|]. cbn [app].
    rewrite skip_closer by done. eapply runs_then; [apply runs_current|].
    cbn [peek]. rewrite Z.eqb_refl. replace d with (d + 1 - 1) at 2 by lia. apply runs_close.
  - intros hash levels ws text children Hws He IH [|fuel] d rest Hf Hd; [simpl in *; lia|].
    cbn [parse_collection]. rewrite <- app_comm_cons, <- !app_assoc.
    eapply runs_then; [apply runs_enter|]. rewrite (proj2 (Z.ltb_ge 32 (d + 1))) by lia.
    eapply runs_then; [apply runs_allocate|]. eapply runs_then; [apply runs_advance|].
    eapply runs_then; [apply runs_skip|]. cbn [app].
    rewrite skip_blanks_app by done. eapply runs_then; [apply runs_current|].
    rewrite (proj2 (Z.eqb_neq _ _) (entries_head _ _ _ _ _ (closer hash :: rest) He)).
    replace d with (d + 1 - 1) at 2 by lia. apply IH; [|lia].
    simpl in Hf. rewrite !length_app in Hf. lia.
  - intros hash levels before ktext key text v ws Hk Hv IHv Hws [|fuel] d rest Hf Hd; [lia|].
    cbn [parse_entries]. rewrite <- !app_assoc. rewrite !length_app in Hf.
    eapply (runs_entry hash levels before ktext key text v Hv); try done; [lia| |].
    { apply blank_then_nondigit; [done|apply closer_nondigit]. }
    cbv beta zeta. rewrite skip_closer by done. eapply runs_then; [apply runs_current|].
    cbn [peek]. rewrite Z.eqb_refl. apply runs_close.
  - intros hash levels before ktext key text v ws ws' Hk Hv IHv Hws Hws' [|fuel] d rest Hf Hd; [lia|].
    cbn [parse_entries]. rewrite <- !app_assoc, <- app_comm_cons. rewrite !length_app in Hf.
    eapply (runs_entry hash levels before ktext key text v Hv); try done; [lia| |].
    { by apply blank_then_nondigit. }
    cbv beta zeta. rewrite skip_blanks_app by done. eapply runs_then; [apply runs_current|].
    assert (Hc : (44 =? closer hash) = false) by by destruct hash.
    cbn [skip_blanks peek]. change (isspace 44) with false. cbn match. cbn [peek]. rewrite Hc.
    cbn [negb Z.eqb Pos.eqb]. eapply runs_then; [apply runs_advance|].
    eapply runs_then; [apply runs_skip|]. rewrite skip_closer by done.
    eapply runs_then; [apply runs_current|]. cbn [peek]. rewrite Z.eqb_refl. apply runs_close.
  - intros hash levels before ktext key text v ws ws' more children Hk Hv IHv Hws Hws' He IH
      [|fuel] d rest Hf Hd; [lia|].
    cbn [parse_entries]. rewrite <- !app_assoc, <- app_comm_cons, <- app_assoc.
    rewrite !length_app in Hf. simpl in Hf. rewrite length_app in Hf.
    eapply (runs_entry hash levels before ktext key text v Hv); try done; [lia| |].
    { by apply blank_then_nondigit. }
    cbv beta zeta. rewrite skip_blanks_app by done. eapply runs_then; [apply runs_current|].
    assert (Hc : (44 =? closer hash) = false) by by destruct hash.
    cbn [skip_blanks peek]. change (isspace 44) with false. cbn match. cbn [peek]. rewrite Hc.
    cbn [negb Z.eqb Pos.eqb]. eapply runs_then; [apply runs_advance|].
    eapply runs_then; [apply runs_skip|]. rewrite skip_blanks_app by done.
    eapply runs_then; [apply runs_current|].
    rewrite (proj2 (Z.eqb_neq _ _) (entries_head _ _ _ _ _ (closer hash :: rest) He)).
    apply IH; lia.
Qed.

Lemma manifest_parse_complete source error_size v :
  (0 < error_size)%nat -> manifest_text source v ->
  diamond_manifest_parse malloc_ok source error_size = Some (inl v).
Proof.
  intros Hsize (ws & text & ws' & -> & Hws & Hws' & Ht & Hlen). unfold diamond_manifest_parse.
  rewrite (proj2 (Nat.eqb_neq error_size 0)) by lia.
  set (source := ws ++ text ++ ws') in *.
  assert (Hrun : runs (parse_source malloc_ok source) 0 source v 0 []).
  { unfold parse_source. rewrite (proj2 (Z.ltb_ge _ _) Hlen).
    eapply runs_then; [apply runs_skip|]. unfold source at 2. rewrite skip_blanks_app by done.
    destruct (collection_head _ _ _ _ Ht) as [t Et].
    assert (Hp : peek (text ++ ws') = 123) by by rewrite Et.
    rewrite skip_blanks_id by by rewrite Hp.
    eapply runs_then; [apply runs_current|]. rewrite Hp. cbn [negb Z.eqb Pos.eqb].
    eapply runs_then.
    { apply (proj1 (proj2 literal_runs) true 32%nat text v Ht); [|lia].
      unfold source. rewrite !length_app. lia. }
    assert (Hend : skip_blanks ws' = []) by by rewrite <- (app_nil_r ws'), skip_blanks_app.
    eapply runs_then; [apply runs_skip|]. rewrite Hend.
    eapply runs_then; [apply runs_current|]. apply runs_accept. }
  destruct (Hrun O) as [n Hn]. change (state 0 0 source) with (start_parser source) in Hn. by rewrite Hn.
Qed.

End Complete.

(** ** The theorem *)

(** C12: [diamond_manifest_parse] reads exactly the data literals: for every C
    string and whichever allocations fail it returns without leaving the
    source or its String buffers, what it accepts is denoted by the grammar of
    at most 32 nested Hashes and Arrays, and when memory suffices and the error
    buffer has room it accepts every text of the grammar with the value the grammar gives it. *)
Theorem manifest_parse_grammar malloc_ok source error_size :
  cstring source ->
  exists r, diamond_manifest_parse malloc_ok source error_size = Some r /\
  (forall v, r = inl v -> manifest_text source v) /\
  ((forall n, malloc_ok n = true) -> (0 < error_size)%nat -> forall v, manifest_text source v -> r = inl v).
Proof.
  intros Hz. destruct (diamond_manifest_parse malloc_ok source error_size) as [r|] eqn:E;
    [|by apply manifest_parse_returns in E].
  exists r. split_and!; [done| |].
  - intros v ->. by eapply manifest_parse_sound.
  - intros Hp Hsize v Hv. rewrite (manifest_parse_complete _ Hp _ error_size _ Hsize Hv) in E. congruence.
Qed.

(** [{"a": [1, -2], "b": true}] *)
Definition small_manifest : list Z :=
  [123; 34; 97; 34; 58; 32; 91; 49; 44; 32; 45; 50; 93; 44; 32; 34; 98; 34; 58; 32]
  ++ keyword_true ++ [125].

Lemma manifest_parse_grammar_witness :
  cstring small_manifest /\
  manifest_text small_manifest
    (MANIFEST_HASH [([97], MANIFEST_ARRAY [MANIFEST_INTEGER [49]; MANIFEST_INTEGER [45; 50]]);
                    ([98], MANIFEST_BOOLEAN keyword_true)]).
Proof.
  assert (Hz : cstring small_manifest) by (repeat constructor; done).
  split; [exact Hz|].
  destruct (manifest_parse_grammar (fun _ => true) small_manifest 160 Hz) as (r & Hr & Hs & _).
  apply Hs. vm_compute in Hr. injection Hr as <-. reflexivity.
Defined.
