(* ===== verification/Facet.v ===== *)
(** * Facet: manifests, tags and lockfiles of the package manager

    tools/facet.c (with [publishable_name] of tools/facet_package.c): the
    structs of tools/facet_internal.h, validation of names, URLs, versions and
    digests, dependency specs, choosing a tag, lockfiles.  A [None] of the
    parsing functions is their [false]; the message they leave is not modelled.
    Char arrays are the text they hold, and every length check is written
    out. *)

From S2P Require Import Prelude CText Semver.
From S2P Require Import ManifestLiteral.
From Stdlib Require Import ZArith Lia Bool List String Ascii.
From stdpp Require Import base numbers list.

Local Open Scope Z_scope.
Local Open Scope c_scope.

Definition FACET_MAX_NAME : nat := 64.
Definition FACET_MAX_URL : nat := 512.
Definition FACET_MAX_REF : nat := 128.
Definition FACET_MAX_PATH : nat := 4096.
Definition FACET_MAX_COMMIT : nat := 80.
Definition FACET_MAX_DEPENDENCIES : nat := 64.
Definition FACET_MAX_ARCHIVE_SIZE : Z := 58720256.

Inductive FacetSource := FACET_SOURCE_GIT | FACET_SOURCE_REGISTRY.
Inductive FacetRefKind := FACET_REF_TAG | FACET_REF_BRANCH | FACET_REF_COMMIT.

#[global] Instance FacetSource_eq_dec : EqDecision FacetSource.
Proof. solve_decision. Defined.

#[global] Instance FacetRefKind_eq_dec : EqDecision FacetRefKind.
Proof. solve_decision. Defined.

Record FacetDependency := {
  dep_name : list Z; dep_source : FacetSource; dep_git : list Z; dep_registry : list Z;
  dep_ref : list Z; dep_ref_kind : FacetRefKind; uses_version : bool; version_text : list Z;
}.

Record FacetManifest := {
  manifest_name : list Z; manifest_version : list Z; has_version : bool;
  dependencies : list FacetDependency;
}.

Record FacetResolved := {
  res_name : list Z; res_source : FacetSource; res_git : list Z; res_registry : list Z;
  res_sha256 : list Z; res_size : Z; res_ref : list Z; res_commit : list Z;
  res_version : list Z; res_required_by : list Z;
}.

(** ** Validation *)

(** [strchr]: the text from the first [c] on. *)
Fixpoint strchr (text : list Z) (c : Z) : option (list Z) :=
  match text with
  | [] => None
  | d :: rest => if d =? c then Some text else strchr rest c
  end.

Definition valid_sha256 (text : list Z) : bool :=
  (List.length text =? 64)%nat &&
  forallb (fun c => ((48 <=? c) && (c <=? 57)) || ((97 <=? c) && (c <=? 102))) text.

Definition valid_registry_url (url : list Z) : bool :=
  let prefix := bytes "https://" in
  let authority := drop 8 url in
  if negb (starts_with prefix url) || (peek authority =? 0) ||
     bool_decide (is_Some (strchr url 63)) || bool_decide (is_Some (strchr url 35)) ||
     bool_decide (is_Some (strchr authority 64)) then false
  else
    let slash := strchr authority 47 in
    let authority_length :=
      match slash with
      | None => List.length authority
      | Some rest => (List.length authority - List.length rest)%nat
      end in
    if (authority_length =? 0)%nat ||
       match slash with Some (_ :: rest) => peek rest =? 0 | _ => false end then false
    else forallb (fun c => negb (c <=? 32) && negb (127 <=? c)) url.

Definition canonical_registry_version (text : list Z) : bool :=
  if (peek text =? 118) || (peek text =? 86) || bool_decide (is_Some (strchr text 43)) then false
  else
    match semver_parse text with
    | None => false
    | Some parsed =>
        match semver_format parsed FACET_MAX_REF with
        | None => false
        | Some formatted => bool_decide (text = formatted)
        end
    end.

Definition is_safe_field (text : list Z) : bool :=
  forallb (fun c => negb ((c =? 34) || (c =? 92) || (c <? 32))) text.

Definition publishable_name (name : list Z) : bool :=
  let lower c := (97 <=? c) && (c <=? 122) in
  match name with
  | [] => false
  | first :: rest =>
      negb (FACET_MAX_NAME <=? List.length name)%nat && lower first &&
      forallb (fun c => lower c || ((48 <=? c) && (c <=? 57)) || (c =? 95)) rest &&
      negb (bool_decide (name = bytes "d6")) && negb (bool_decide (name = bytes "diamond")) &&
      negb (bool_decide (name = bytes "facet")) && negb (bool_decide (name = bytes "cuts"))
  end.

(** ** Tags *)

(** [snprintf(buffer, size, "%s", text)]. *)
Definition truncated (size : nat) (text : list Z) : list Z := take (size - 1) text.

(** A line up to its newline, and what follows it when there is one. *)
Fixpoint next_line (text : list Z) : list Z * option (list Z) :=
  match text with
  | [] => ([], None)
  | c :: rest =>
      if c =? 10 then ([], Some rest) else let '(line, more) := next_line rest in (c :: line, more)
  end.

(** The tag a line of [git ls-remote] names, when it parses as a version. *)
Definition line_tag (line : list Z) : option (list Z) :=
  match strchr line 9 with
  | Some (_ :: ref_name) =>
      if starts_with (bytes "refs/tags/") ref_name then
        let tag_name := drop 10 ref_name in
        let? _ := semver_parse tag_name in Some tag_name
      else None
  | _ => None
  end.

Fixpoint tag_lines (fuel : nat) (text : list Z) (capacity : nat) (tags : list (list Z)) :
    option (list (list Z)) :=
  match fuel with
  | O => None
  | S fuel =>
      if (List.length text =? 0)%nat then Some tags else
      let '(line, more) := next_line text in
      let tags :=
        match line_tag line with
        | Some tag =>
            if (List.length tags <? capacity)%nat then tags ++ [truncated FACET_MAX_REF tag] else tags
        | None => tags
        end in
      match more with None => Some tags | Some rest => tag_lines fuel rest capacity tags end
  end.

(** [git_list_semver_tags] on the output of [git ls-remote]. *)
Definition git_list_semver_tags (output : list Z) (capacity : nat) : option (list (list Z)) :=
  tag_lines (S (List.length output)) output capacity [].

(** The loop of [pick_best_matching_tag]; [best] is [best_version] with its
    tag once one was found. *)
Fixpoint best_tag (tags : list (list Z)) (constraint : SemverConstraint)
    (best : option (Semver * list Z)) : option (option (Semver * list Z)) :=
  match tags with
  | [] => Some best
  | tag :: rest =>
      match semver_parse tag with
      | None => best_tag rest constraint best
      | Some candidate =>
          let? ok := semver_satisfies candidate constraint in
          if negb ok then best_tag rest constraint best else
          let? better :=
            (match best with
             | None => Some true
             | Some (best_version, _) =>
                 let? cmp := semver_compare candidate best_version in Some (0 <? cmp)
             end) in
          best_tag rest constraint (if better : bool then Some (candidate, tag) else best)
      end
  end.

(** The inner [None] is the C function's [false]. *)
Definition pick_best_matching_tag (tags : list (list Z)) (constraint : SemverConstraint) :
    option (option (list Z)) :=
  let? best := best_tag tags constraint None in
  Some (match best with Some (_, tag) => Some (truncated FACET_MAX_REF tag) | None => None end).

(** ** Manifests *)

Definition children_of (value : DiamondManifestValue) : list (list Z * DiamondManifestValue) :=
  match value with MANIFEST_HASH children => children | _ => [] end.

(** The keys a dependency spec may have. *)
Definition spec_key_allowed (registry : bool) (key : list Z) : bool :=
  bool_decide (key = if registry then bytes "registry" else bytes "git") ||
  bool_decide (key = bytes "version") ||
  (negb registry && (bool_decide (key = bytes "tag") || bool_decide (key = bytes "branch") ||
                     bool_decide (key = bytes "commit"))).

(** The last of tag, branch and commit that is given, and how many are. *)
Definition spec_ref (spec : DiamondManifestValue) : nat * FacetRefKind * list Z :=
  let field key := diamond_manifest_get_string spec (bytes key) FACET_MAX_REF in
  let take_ref key kind '(count, k, ref) :=
    match field key with Some text => (S count, kind, text) | None => (count, k, ref) end in
  take_ref "commit"%string FACET_REF_COMMIT
    (take_ref "branch"%string FACET_REF_BRANCH
       (take_ref "tag"%string FACET_REF_TAG (O, FACET_REF_TAG, []))).

(** One round of [parse_dependencies]. *)
Definition parse_dependency (name : list Z) (spec : DiamondManifestValue) : option FacetDependency :=
  match spec with
  | MANIFEST_HASH fields =>
      if (FACET_MAX_NAME <=? List.length name)%nat || negb (is_safe_field name) then None else
      let git := diamond_manifest_get_string spec (bytes "git") FACET_MAX_URL in
      let registry := diamond_manifest_get_string spec (bytes "registry") FACET_MAX_URL in
      let? (source, git, registry) :=
        (match git, registry with
         | Some git, None =>
             if is_safe_field git then Some (FACET_SOURCE_GIT, git, []) else None
         | None, Some registry =>
             if valid_registry_url registry then Some (FACET_SOURCE_REGISTRY, [], registry) else None
         | _, _ => None
         end) in
      let has_registry := bool_decide (source = FACET_SOURCE_REGISTRY) in
      let '(ref_keys, ref_kind, ref) := spec_ref spec in
      let version := diamond_manifest_get_string spec (bytes "version") FACET_MAX_REF in
      let? version_ok :=
        (match version with
         | Some text =>
             if is_safe_field text then let? _ := semver_constraint_parse text in Some true else None
         | None => Some false
         end) in
      let ref_keys := if version_ok : bool then S ref_keys else ref_keys in
      if negb (forallb (fun field => spec_key_allowed has_registry (fst field)) fields) then None
      else if has_registry && (negb version_ok || negb (ref_keys =? 1)%nat) then None
      else if negb (ref_keys =? 1)%nat || (negb version_ok && negb (is_safe_field ref)) then None
      else Some {| dep_name := name; dep_source := source; dep_git := git; dep_registry := registry;
                   dep_ref := if version_ok then [] else ref; dep_ref_kind := ref_kind;
                   uses_version := version_ok;
                   version_text := match version with Some text => text | None => [] end |}
  | _ => None
  end.

Fixpoint parse_dependencies (children : list (list Z * DiamondManifestValue))
    (parsed : list FacetDependency) : option (list FacetDependency) :=
  match children with
  | [] => Some parsed
  | (name, spec) :: rest =>
      if (List.length parsed =? FACET_MAX_DEPENDENCIES)%nat then None else
      let? dependency := parse_dependency name spec in
      parse_dependencies rest (parsed ++ [dependency])
  end.

Definition parse_manifest (hash : DiamondManifestValue) : option FacetManifest :=
  let? name := diamond_manifest_get_string hash (bytes "name") FACET_MAX_NAME in
  if negb (is_safe_field name) then None else
  let version := diamond_manifest_get_string hash (bytes "version") FACET_MAX_NAME in
  let? deps :=
    (match diamond_manifest_get hash (bytes "dependencies") with
     | None => Some []
     | Some (MANIFEST_HASH children) => parse_dependencies children []
     | Some _ => None
     end) in
  Some {| manifest_name := name;
          manifest_version := match version with Some text => text | None => [] end;
          has_version := match version with Some _ => true | None => false end;
          dependencies := deps |}.

(** [facet_read_hash] on what [read_whole_file] read: the outer [None] is
    undefined behaviour, the inner one the C function's [NULL]. *)
Definition facet_read_hash (malloc_ok : nat -> bool) (text : option (list Z)) :
    option (option DiamondManifestValue) :=
  match text with
  | None => Some None
  | Some source =>
      let? result := diamond_manifest_parse malloc_ok source 160 in
      Some (match result with inl hash => Some hash | inr _ => None end)
  end.
