(* ===== verification/FacetResolve.v ===== *)
(** * FacetResolve: the dependency resolver of the package manager

    tools/facet_resolve.c up to [resolve_full_graph].  Git, the network, the
    file system and the allocator are the class [World]: each answer may depend
    on the question and on how many questions were asked before, so a
    repository, a file or a registry may change while the resolver runs.  The
    tables of the C code are one state record; [None] is undefined behaviour or
    an exhausted fuel, the [bool] of an operation its C result. *)

From S2P Require Import Prelude CText Semver.
From S2P Require Import Value.
From S2P Require Import ManifestLiteral.
From S2P Require Import Facet.
From Stdlib Require Import ZArith Lia Bool List String Ascii.
From stdpp Require Import base numbers list.

Local Open Scope Z_scope.
Local Open Scope c_scope.

(** ** The world outside *)

Class World := {
  (** [git clone] and [git checkout] of a ref of a repository into a directory *)
  run_git_clone : nat -> list Z -> list Z -> list Z -> bool;
  (** the output of [git rev-parse HEAD] in a directory *)
  rev_parse_head : nat -> list Z -> option (list Z);
  (** the output of [git ls-remote --tags --refs] for a repository *)
  ls_remote : nat -> list Z -> option (list Z);
  (** [stat] of a path succeeds *)
  path_exists : nat -> list Z -> bool;
  (** [read_whole_file] *)
  whole_file : nat -> list Z -> option (list Z);
  (** the registry's answer to a URL, of an acceptable size *)
  download : nat -> list Z -> option (list Z);
  (** [ensure_directory] *)
  directory_made : nat -> list Z -> bool;
  (** the allocation of a table, and those of a parse *)
  table_malloc : nat -> bool;
  parse_malloc : nat -> nat -> bool;
}.

(** ** Tables *)

Record FacetPendingSemver := {
  pend_name : list Z; pend_source : FacetSource; pend_git : list Z; pend_registry : list Z;
  pend_constraint : SemverConstraint; first_requester : list Z;
}.

Record FacetConstraintRecord := {
  rec_name : list Z; rec_source : FacetSource; rec_git : list Z; rec_registry : list Z;
  accumulated : SemverConstraint; most_recent_requester : list Z;
}.

Record FacetWorkItem := { item_path : list Z; item_cut_name : list Z }.

(** The linear scans by name the tables share. *)
Section Table.
Context {A : Type} (name_of : A -> list Z).

Fixpoint find_named (name : list Z) (table : list A) : option A :=
  match table with
  | [] => None
  | entry :: rest => if bool_decide (name_of entry = name) then Some entry else find_named name rest
  end.

(** A write through the pointer a scan returned. *)
Fixpoint update_named (name : list Z) (f : A -> A) (table : list A) : list A :=
  match table with
  | [] => []
  | entry :: rest =>
      if bool_decide (name_of entry = name) then f entry :: rest
      else entry :: update_named name f rest
  end.

End Table.

Definition find_resolved := find_named res_name.
Definition find_pending := find_named pend_name.
Definition find_record := find_named rec_name.

(** The resolver's state.  [now] counts the questions asked of the world;
    [visited] (the manifests read for resolved cuts, [None] when a cut has
    none) and [cloned] (the directories handed to [git_clone]) record what
    happened and are never read by the code. *)
Record Resolver := {
  resolution : list FacetResolved;
  pending : list FacetPendingSemver;
  queue : list FacetWorkItem;
  history : list FacetConstraintRecord;
  needs_restart : bool;
  now : nat;
  visited : list (list Z * option FacetManifest);
  cloned : list (list Z);
}.

Definition set_resolution (r : list FacetResolved) (s : Resolver) : Resolver :=
  {| resolution := r; pending := pending s; queue := queue s; history := history s;
     needs_restart := needs_restart s; now := now s; visited := visited s; cloned := cloned s |}.
Definition set_pending (p : list FacetPendingSemver) (s : Resolver) : Resolver :=
  {| resolution := resolution s; pending := p; queue := queue s; history := history s;
     needs_restart := needs_restart s; now := now s; visited := visited s; cloned := cloned s |}.
Definition set_queue (q : list FacetWorkItem) (s : Resolver) : Resolver :=
  {| resolution := resolution s; pending := pending s; queue := q; history := history s;
     needs_restart := needs_restart s; now := now s; visited := visited s; cloned := cloned s |}.
Definition set_history (h : list FacetConstraintRecord) (s : Resolver) : Resolver :=
  {| resolution := resolution s; pending := pending s; queue := queue s; history := h;
     needs_restart := needs_restart s; now := now s; visited := visited s; cloned := cloned s |}.
Definition set_needs_restart (b : bool) (s : Resolver) : Resolver :=
  {| resolution := resolution s; pending := pending s; queue := queue s; history := history s;
     needs_restart := b; now := now s; visited := visited s; cloned := cloned s |}.
Definition tick (s : Resolver) : Resolver :=
  {| resolution := resolution s; pending := pending s; queue := queue s; history := history s;
     needs_restart := needs_restart s; now := S (now s); visited := visited s; cloned := cloned s |}.
Definition visit (name : list Z) (m : option FacetManifest) (s : Resolver) : Resolver :=
  {| resolution := resolution s; pending := pending s; queue := queue s; history := history s;
     needs_restart := needs_restart s; now := now s; visited := visited s ++ [(name, m)];
     cloned := cloned s |}.
Definition note_clone (path : list Z) (s : Resolver) : Resolver :=
  {| resolution := resolution s; pending := pending s; queue := queue s; history := history s;
     needs_restart := needs_restart s; now := now s; visited := visited s;
     cloned := cloned s ++ [path] |}.

Definition get_state : VM Resolver Resolver := fun s => Some (s, s).
Definition modify (f : Resolver -> Resolver) : VM Resolver unit := fun s => Some (tt, f s).

(** A question to the world. *)
Definition ask {A} (question : nat -> A) : VM Resolver A := fun s => Some (question (now s), tick s).

(** [bool] sequencing: stop at the first failure. *)
Notation "'check!' m 'in' k" := (vm_bind m (fun ok => if negb ok then vm_ret false else k))
  (at level 10, m at level 100, k at level 200) : c_scope.

Section Resolve.

Context `{World}.

(** [scratch_root], and the lock [facet update] prefers versions from. *)
Variable scratch_root : list Z.
Variable registry_update_preference : option (list FacetResolved).

(** The source of a dependency is the one a table entry has. *)
Definition same_source (source : FacetSource) (git registry : list Z) (d : FacetDependency) : bool :=
  bool_decide (source = dep_source d) &&
  match dep_source d with
  | FACET_SOURCE_GIT => bool_decide (git = dep_git d)
  | FACET_SOURCE_REGISTRY => bool_decide (registry = dep_registry d)
  end.

(** ** Queueing manifests *)

Definition find_or_create_constraint_record (d : FacetDependency) :
    VM Resolver (option FacetConstraintRecord) :=
  let! s := get_state in
  match find_record (dep_name d) (history s) with
  | Some record =>
      vm_ret (if same_source (rec_source record) (rec_git record) (rec_registry record) d
              then Some record else None)
  | None =>
      if (List.length (history s) =? FACET_MAX_DEPENDENCIES)%nat then vm_ret None else
      let record := {| rec_name := dep_name d; rec_source := dep_source d; rec_git := dep_git d;
                       rec_registry := dep_registry d;
                       accumulated := {| c_min := None; c_max := None |};
                       most_recent_requester := [] |} in
      let! _ := modify (set_history (history s ++ [record])) in
      vm_ret (Some record)
  end.

Definition work_queue_push (path cut_name : list Z) : VM Resolver bool :=
  let! s := get_state in
  if (List.length (queue s) =? FACET_MAX_DEPENDENCIES)%nat then vm_ret false else
  let! _ := modify (set_queue (queue s ++ [{| item_path := path; item_cut_name := cut_name |}])) in
  vm_ret true.

Definition format_manifest_path (directory name : list Z) : option (list Z) :=
  let path := directory ++ [47] ++ name in
  if (List.length path <? FACET_MAX_PATH)%nat then Some path else None.

Inductive DiamondCutManifestLookup :=
  | CUT_MANIFEST_MISSING | CUT_MANIFEST_FOUND (path : list Z)
  | CUT_MANIFEST_AMBIGUOUS | CUT_MANIFEST_PATH_TOO_LONG.

Definition diamond_cut_manifest_find (directory : list Z) : VM Resolver DiamondCutManifestLookup :=
  match format_manifest_path directory (bytes "diamond.cut") with
  | None => vm_ret CUT_MANIFEST_PATH_TOO_LONG
  | Some legacy =>
      let! has_legacy := ask (fun t => path_exists t legacy) in
      match format_manifest_path directory (bytes "Cutfile") with
      | None => vm_ret CUT_MANIFEST_PATH_TOO_LONG
      | Some current =>
          let! has_current := ask (fun t => path_exists t current) in
          vm_ret (if has_current && has_legacy then CUT_MANIFEST_AMBIGUOUS
                  else if has_current : bool then CUT_MANIFEST_FOUND current
                  else if negb has_legacy then CUT_MANIFEST_MISSING
                  else CUT_MANIFEST_FOUND legacy)
      end
  end.

Definition queue_nested_manifest (directory cut_name : list Z) : VM Resolver bool :=
  let! lookup := diamond_cut_manifest_find directory in
  match lookup with
  | CUT_MANIFEST_MISSING => let! _ := modify (visit cut_name None) in vm_ret true
  | CUT_MANIFEST_FOUND path => work_queue_push path cut_name
  | CUT_MANIFEST_AMBIGUOUS | CUT_MANIFEST_PATH_TOO_LONG => vm_ret false
  end.

(** [snprintf(scratch_path, ..., "%s/%s", scratch_root, name)]. *)
Definition scratch_path (name : list Z) : option (list Z) :=
  format_manifest_path scratch_root name.

Definition git_clone (url ref destination : list Z) : VM Resolver bool :=
  let! _ := modify (note_clone destination) in
  ask (fun t => run_git_clone t url ref destination).

Definition git_rev_parse_head (directory : list Z) : VM Resolver (option (list Z)) :=
  ask (fun t => rev_parse_head t directory).

(** Clones a git dependency, adds its entry and queues its manifest: the end
    of [handle_exact_dependency] and of [resolve_one_pending]. *)
Definition fetch_git (name git ref version required_by : list Z) : VM Resolver bool :=
  let! s := get_state in
  if (List.length (resolution s) =? FACET_MAX_DEPENDENCIES)%nat then vm_ret false else
  match scratch_path name with
  | None => vm_ret false
  | Some path =>
      check! git_clone git ref path in
      let! head := git_rev_parse_head path in
      match head with
      | None => vm_ret false
      | Some commit =>
          let! s := get_state in
          let! _ := modify (set_resolution (resolution s ++
            [{| res_name := name; res_source := FACET_SOURCE_GIT; res_git := git; res_registry := [];
                res_sha256 := []; res_size := 0; res_ref := ref; res_commit := commit;
                res_version := version; res_required_by := required_by |}])) in
          queue_nested_manifest path name
      end
  end.

(** ** Dependencies *)

Definition handle_exact_dependency (d : FacetDependency) (required_by : list Z) : VM Resolver bool :=
  let! s := get_state in
  match find_resolved (dep_name d) (resolution s) with
  | Some existing =>
      if negb (peek (res_version existing) =? 0) then vm_ret false
      else vm_ret (bool_decide (res_git existing = dep_git d) && bool_decide (res_ref existing = dep_ref d))
  | None =>
      match find_pending (dep_name d) (pending s) with
      | Some _ => vm_ret false
      | None => fetch_git (dep_name d) (dep_git d) (dep_ref d) [] required_by
      end
  end.

Definition accumulate (merged : SemverConstraint) (required_by : list Z)
    (record : FacetConstraintRecord) : FacetConstraintRecord :=
  {| rec_name := rec_name record; rec_source := rec_source record; rec_git := rec_git record;
     rec_registry := rec_registry record; accumulated := merged;
     most_recent_requester := required_by |}.

Definition tighten (merged : SemverConstraint) (required_by : list Z) (entry : FacetPendingSemver) :
    FacetPendingSemver :=
  {| pend_name := pend_name entry; pend_source := pend_source entry; pend_git := pend_git entry;
     pend_registry := pend_registry entry; pend_constraint := merged;
     first_requester := required_by |}.

Definition handle_version_dependency (d : FacetDependency) (required_by : list Z) :
    VM Resolver bool :=
  match semver_constraint_parse (version_text d) with
  | None => vm_ret false
  | Some constraint =>
      let! found := find_or_create_constraint_record d in
      match found with
      | None => vm_ret false
      | Some record =>
          let! merged := vm_lift (semver_constraint_intersect (accumulated record) constraint) in
          match merged with
          | None => vm_ret false
          | Some merged =>
              let! s := get_state in
              let! _ := modify (set_history
                (update_named rec_name (dep_name d) (accumulate merged required_by) (history s))) in
              match find_resolved (dep_name d) (resolution s) with
              | Some existing =>
                  if negb (same_source (res_source existing) (res_git existing) (res_registry existing) d)
                  then vm_ret false
                  else if peek (res_version existing) =? 0 then vm_ret false
                  else
                    let! satisfied :=
                      vm_lift (match semver_parse (res_version existing) with
                               | None => Some false
                               | Some version => semver_satisfies version merged
                               end) in
                    if satisfied : bool then vm_ret true
                    else let! _ := modify (set_needs_restart true) in vm_ret false
              | None =>
                  match find_pending (dep_name d) (pending s) with
                  | Some entry =>
                      if negb (same_source (pend_source entry) (pend_git entry) (pend_registry entry) d)
                      then vm_ret false
                      else
                        let! _ := modify (set_pending
                          (update_named pend_name (dep_name d) (tighten merged required_by) (pending s))) in
                        vm_ret true
                  | None =>
                      if (List.length (pending s) =? FACET_MAX_DEPENDENCIES)%nat then vm_ret false
                      else
                        let! _ := modify (set_pending (pending s ++
                          [{| pend_name := dep_name d; pend_source := dep_source d;
                              pend_git := dep_git d; pend_registry := dep_registry d;
                              pend_constraint := merged; first_requester := required_by |}])) in
                        vm_ret true
                  end
              end
          end
      end
  end.

Definition handle_dependency (d : FacetDependency) (required_by : list Z) : VM Resolver bool :=
  if uses_version d then handle_version_dependency d required_by
  else handle_exact_dependency d required_by.

Fixpoint resolve_manifest_dependencies (deps : list FacetDependency) (required_by : list Z) :
    VM Resolver bool :=
  match deps with
  | [] => vm_ret true
  | d :: rest =>
      check! handle_dependency d required_by in resolve_manifest_dependencies rest required_by
  end.

(** [parse_manifest] of a file. *)
Definition read_manifest (path : list Z) : VM Resolver (option FacetManifest) :=
  let! text := ask (fun t => whole_file t path) in
  let! malloc_ok := ask parse_malloc in
  let! hash := vm_lift (facet_read_hash malloc_ok text) in
  vm_ret (match hash with Some hash => parse_manifest hash | None => None end).

Fixpoint process_work_queue (fuel : nat) : VM Resolver bool :=
  match fuel with
  | O => vm_lift None
  | S fuel =>
      let! s := get_state in
      match queue s with
      | [] => vm_ret true
      | item :: rest =>
          let! _ := modify (set_queue rest) in
          let! nested := read_manifest (item_path item) in
          match nested with
          | None => vm_ret false
          | Some nested =>
              if negb (bool_decide (manifest_name nested = item_cut_name item)) then vm_ret false else
              let! _ := modify (visit (item_cut_name item) (Some nested)) in
              check! resolve_manifest_dependencies (dependencies nested) (item_cut_name item) in
              process_work_queue fuel
          end
      end
  end.

(** ** Registries *)

Definition only_keys (hash : DiamondManifestValue) (keys : list (list Z)) : bool :=
  forallb (fun field => bool_decide (fst field ∈ keys)) (children_of hash).

Definition fetch_registry_hash (url : list Z) : VM Resolver (option DiamondManifestValue) :=
  let! text := ask (fun t => download t url) in
  match text with
  | None => vm_ret None
  | Some body =>
      if (List.length body =? 0)%nat || (1048576 <? Z.of_nat (List.length body)) then vm_ret None else
      let! malloc_ok := ask parse_malloc in
      vm_lift (facet_read_hash malloc_ok (Some body))
  end.

(** The version a previous lock holds for the entry. *)
Fixpoint preferred_version (packages : list FacetResolved) (entry : FacetPendingSemver) : list Z :=
  match packages with
  | [] => []
  | locked :: rest =>
      if bool_decide (res_source locked = FACET_SOURCE_REGISTRY) &&
         bool_decide (res_name locked = pend_name entry) &&
         bool_decide (res_registry locked = pend_registry entry)
      then res_version locked else preferred_version rest entry
  end.

(** A version record: its text, its version and whether it is yanked. *)
Definition version_record (record : DiamondManifestValue) : option (list Z * Semver * bool) :=
  match record with
  | MANIFEST_HASH _ =>
      if negb (only_keys record [bytes "version"; bytes "yanked"]) then None else
      let? version := diamond_manifest_get_string record (bytes "version") FACET_MAX_REF in
      let? yanked := diamond_manifest_get_bool record (bytes "yanked") in
      if negb (canonical_registry_version version) then None else
      let? candidate := semver_parse version in
      Some (version, candidate, yanked)
  | _ => None
  end.

(** The scan of [registry_best_version]: [Some None] is an invalid record,
    [Some (Some best)] the best version found. *)
Fixpoint scan_versions (records : list DiamondManifestValue) (constraint : SemverConstraint)
    (preferred : list Z) (best : option (Semver * list Z)) :
    option (option (option (Semver * list Z))) :=
  match records with
  | [] => Some (Some best)
  | record :: rest =>
      match version_record record with
      | None => Some None
      | Some (version, candidate, yanked) =>
          let is_preferred := bool_decide (version = preferred) in
          let? ok := (if yanked : bool then Some false else semver_satisfies candidate constraint) in
          if negb ok then scan_versions rest constraint preferred best else
          let? better :=
            (match best with
             | None => Some true
             | Some (best_version, _) =>
                 let? cmp := semver_compare candidate best_version in
                 Some ((0 <? cmp) || is_preferred)
             end) in
          let best := if better : bool then Some (candidate, version) else best in
          if is_preferred then Some (Some best) else scan_versions rest constraint preferred best
      end
  end.

Definition fits_path (path : list Z) : bool := (List.length path <? FACET_MAX_PATH)%nat.

Definition registry_best_version (entry : FacetPendingSemver) : VM Resolver (option (list Z)) :=
  let url := pend_registry entry ++ bytes "/v1/cuts/" ++ pend_name entry ++ bytes "/versions" in
  let path := scratch_root ++ bytes "/.index-" ++ pend_name entry ++ bytes ".json" in
  if negb (fits_path url && fits_path path) then vm_ret None else
  let! root := fetch_registry_hash url in
  match root with
  | None => vm_ret None
  | Some root =>
      match diamond_manifest_get_u64 root (bytes "protocol"), diamond_manifest_get root (bytes "versions") with
      | Some protocol, Some (MANIFEST_ARRAY records) =>
          if negb ((protocol =? 1) && only_keys root [bytes "protocol"; bytes "versions"]) then vm_ret None else
          let preferred :=
            match registry_update_preference with
            | Some packages => preferred_version packages entry
            | None => []
            end in
          let! best := vm_lift (scan_versions records (pend_constraint entry) preferred None) in
          vm_ret (match best with Some (Some (_, version)) => Some version | _ => None end)
      | _, _ => vm_ret None
      end
  end.

(** The dependencies a release declares, as version constraints of the same
    registry. *)
Fixpoint release_dependencies (children : list (list Z * DiamondManifestValue)) (registry : list Z)
    (parsed : list FacetDependency) : option (list FacetDependency) :=
  match children with
  | [] => Some parsed
  | (name, MANIFEST_STRING text) :: rest =>
      if (List.length parsed =? FACET_MAX_DEPENDENCIES)%nat || negb (publishable_name name) ||
         (FACET_MAX_REF <=? List.length text)%nat then None else
      let? _ := semver_constraint_parse text in
      release_dependencies rest registry (parsed ++
        [{| dep_name := name; dep_source := FACET_SOURCE_REGISTRY; dep_git := [];
            dep_registry := registry; dep_ref := []; dep_ref_kind := FACET_REF_TAG;
            uses_version := true; version_text := text |}])
  | _ :: _ => None
  end.

(** The digest and size of a release's archive. *)
Definition release_archive (archive : DiamondManifestValue) : option (list Z * Z) :=
  if negb (only_keys archive [bytes "path"; bytes "sha256"; bytes "size"]) then None else
  let? archive_path := diamond_manifest_get_string archive (bytes "path") FACET_MAX_PATH in
  let? sha256 := diamond_manifest_get_string archive (bytes "sha256") 65 in
  let? size := diamond_manifest_get_u64 archive (bytes "size") in
  if valid_sha256 sha256 && (0 <? size) && (size <=? FACET_MAX_ARCHIVE_SIZE) &&
     bool_decide (archive_path = bytes "/v1/blobs/sha256/" ++ sha256)
  then Some (sha256, size) else None.

(** The checks of [registry_release] on the hash it fetched. *)
Definition release_of_hash (entry : FacetPendingSemver) (version : list Z)
    (root : DiamondManifestValue) : option (FacetResolved * FacetManifest) :=
  if negb (only_keys root [bytes "protocol"; bytes "name"; bytes "version"; bytes "dependencies";
                           bytes "yanked"; bytes "archive"]) then None else
  let? protocol := diamond_manifest_get_u64 root (bytes "protocol") in
  let? name := diamond_manifest_get_string root (bytes "name") FACET_MAX_NAME in
  let? returned_version := diamond_manifest_get_string root (bytes "version") FACET_MAX_REF in
  let? yanked := diamond_manifest_get_bool root (bytes "yanked") in
  if negb ((protocol =? 1) && negb yanked && bool_decide (name = pend_name entry) &&
           bool_decide (returned_version = version)) then None else
  match diamond_manifest_get root (bytes "dependencies"), diamond_manifest_get root (bytes "archive") with
  | Some (MANIFEST_HASH children), Some (MANIFEST_HASH fields) =>
      let? (sha256, size) := release_archive (MANIFEST_HASH fields) in
      let? deps := release_dependencies children (pend_registry entry) [] in
      Some ({| res_name := pend_name entry; res_source := FACET_SOURCE_REGISTRY; res_git := [];
               res_registry := pend_registry entry; res_sha256 := sha256; res_size := size;
               res_ref := []; res_commit := []; res_version := version;
               res_required_by := first_requester entry |},
            {| manifest_name := pend_name entry; manifest_version := []; has_version := false;
               dependencies := deps |})
  | _, _ => None
  end.

Definition registry_release (entry : FacetPendingSemver) (version : list Z) :
    VM Resolver (option (FacetResolved * FacetManifest)) :=
  let url := pend_registry entry ++ bytes "/v1/cuts/" ++ pend_name entry ++ bytes "/versions/" ++ version in
  let path := scratch_root ++ bytes "/.release-" ++ pend_name entry ++ bytes ".json" in
  if negb (fits_path url && fits_path path) then vm_ret None else
  let! root := fetch_registry_hash url in
  vm_ret (match root with Some root => release_of_hash entry version root | None => None end).

(** ** The graph walk *)

Definition MAX_TAGS : nat := Z.to_nat 4096.

Definition resolve_registry (entry : FacetPendingSemver) : VM Resolver bool :=
  let! best_version := registry_best_version entry in
  match best_version with
  | None => vm_ret false
  | Some version =>
      let! s := get_state in
      if (List.length (resolution s) =? FACET_MAX_DEPENDENCIES)%nat then vm_ret false else
      let! release := registry_release entry version in
      match release with
      | None => vm_ret false
      | Some (resolved, nested) =>
          let! _ := modify (fun s => visit (pend_name entry) (Some nested)
                              (set_resolution (resolution s ++ [resolved]) s)) in
          resolve_manifest_dependencies (dependencies nested) (pend_name entry)
      end
  end.

Definition resolve_git (entry : FacetPendingSemver) : VM Resolver bool :=
  let! room := ask table_malloc in
  if negb room then vm_ret false else
  let! output := ask (fun t => ls_remote t (pend_git entry)) in
  match output with
  | None => vm_ret false
  | Some output =>
      let! tags := vm_lift (git_list_semver_tags output MAX_TAGS) in
      let! best := vm_lift (pick_best_matching_tag tags (pend_constraint entry)) in
      match best with
      | None => vm_ret false
      | Some tag =>
          fetch_git (pend_name entry) (pend_git entry) tag tag (first_requester entry)
      end
  end.

(** Called with a pending entry: the table is not empty. *)
Definition resolve_one_pending : VM Resolver bool :=
  let! s := get_state in
  match pending s with
  | [] => vm_lift None
  | entry :: rest =>
      let! _ := modify (set_pending rest) in
      match pend_source entry with
      | FACET_SOURCE_REGISTRY => resolve_registry entry
      | FACET_SOURCE_GIT => resolve_git entry
      end
  end.

(** Rounds of the queue and of the pending table: every round but the last
    resolves a cut. *)
Definition ROUNDS : nat := S FACET_MAX_DEPENDENCIES.

Fixpoint drain_pending (fuel : nat) : VM Resolver bool :=
  match fuel with
  | O => vm_lift None
  | S fuel =>
      let! s := get_state in
      match pending s with
      | [] => vm_ret true
      | _ :: _ =>
          check! resolve_one_pending in
          check! process_work_queue ROUNDS in
          drain_pending fuel
      end
  end.

Definition attempt_resolve_graph (manifest : FacetManifest) : VM Resolver bool :=
  check! resolve_manifest_dependencies (dependencies manifest) (manifest_name manifest) in
  check! process_work_queue ROUNDS in
  drain_pending ROUNDS.

(** A new attempt keeps the constraint history only. *)
Definition fresh_attempt (s : Resolver) : Resolver :=
  {| resolution := []; pending := []; queue := []; history := history s; needs_restart := false;
     now := now s; visited := []; cloned := cloned s |}.

Fixpoint attempts (count : nat) (first : bool) (manifest : FacetManifest) : VM Resolver bool :=
  match count with
  | O => vm_ret false
  | S count =>
      let! made := (if first then vm_ret true else ask (fun t => directory_made t scratch_root)) in
      if negb made then vm_ret false else
      let! _ := modify fresh_attempt in
      let! ok := attempt_resolve_graph manifest in
      if ok : bool then vm_ret true else
      let! s := get_state in
      if needs_restart s then attempts count false manifest else vm_ret false
  end.

Definition resolve_full_graph (manifest : FacetManifest) : VM Resolver bool :=
  let! _ := modify (set_history []) in
  attempts FACET_MAX_DEPENDENCIES true manifest.

End Resolve.
