(* ===== verification/FacetResolveOk.v ===== *)
(** * FacetResolveOk: what a resolution promises

    The resolver of FacetResolve returns in every world, and the resolution it
    returns is closed and consistent: every dependency of the project and of
    every cut in it is answered by exactly one entry, of the right source,
    with a version inside the dependency's constraint or at its exact ref.
    The proof is a total-correctness calculus over the resolver's state with an
    invariant parametric in the dependencies still to be handled. *)

From S2P Require Import Prelude CText Ordering Semver.
From S2P Require Import Value.
From S2P Require Import ManifestLiteral.
From S2P Require Import ManifestGrammar.
From S2P Require Import Facet.
From S2P Require Import FacetResolve.
From Stdlib Require Import ZArith Lia Bool List String Ascii.
From stdpp Require Import base numbers list sets.

Local Open Scope Z_scope.
Local Open Scope c_scope.

(** ** Total correctness of state-passing code *)

Definition vwp {A} (m : VM Resolver A) (s : Resolver) (Q : A -> Resolver -> Prop) : Prop :=
  match m s with Some (a, s') => Q a s' | None => False end.

Lemma vwp_ret {A} (a : A) s (Q : A -> Resolver -> Prop) : Q a s -> vwp (vm_ret a) s Q.
Proof. done. Qed.

Lemma vwp_bind {A B} (m : VM Resolver A) (k : A -> VM Resolver B) s Q :
  vwp m s (fun a s' => vwp (k a) s' Q) -> vwp (vm_bind m k) s Q.
Proof. unfold vwp, vm_bind. by destruct (m s) as [[a s']|]. Qed.

Lemma vwp_mono {A} (m : VM Resolver A) s (P Q : A -> Resolver -> Prop) :
  vwp m s P -> (forall a s', P a s' -> Q a s') -> vwp m s Q.
Proof. unfold vwp. destruct (m s) as [[a s']|]; auto. Qed.

Lemma vwp_get s (Q : Resolver -> Resolver -> Prop) : Q s s -> vwp get_state s Q.
Proof. done. Qed.

Lemma vwp_modify f s (Q : unit -> Resolver -> Prop) : Q tt (f s) -> vwp (modify f) s Q.
Proof. done. Qed.

Lemma vwp_ask {A} (question : nat -> A) s (Q : A -> Resolver -> Prop) :
  (forall a, Q a (tick s)) -> vwp (ask question) s Q.
Proof. unfold vwp, ask. auto. Qed.

Lemma vwp_lift {A} (o : option A) s (Q : A -> Resolver -> Prop) :
  wp o (fun a => Q a s) -> vwp (vm_lift o) s Q.
Proof. unfold vwp, vm_lift. by destruct o. Qed.

(** [check!]: a failure may leave any state. *)
Lemma vwp_check (m k : VM Resolver bool) s (Q : bool -> Resolver -> Prop) :
  (forall s', Q false s') -> vwp m s (fun ok s' => ok = true -> vwp k s' Q) ->
  vwp (vm_bind m (fun ok => if negb ok then vm_ret false else k)) s Q.
Proof.
  intros Hf H. apply vwp_bind. eapply vwp_mono; [exact H|]. intros [] s' Hs; [by apply Hs|]. apply Hf.
Qed.

(** Walks through straight-line code. *)
Ltac vstep :=
  lazymatch goal with
  | |- vwp (vm_bind _ _) _ _ => apply vwp_bind
  | |- vwp (vm_ret _) _ _ => apply vwp_ret
  | |- vwp get_state _ _ => apply vwp_get
  | |- vwp (modify _) _ _ => apply vwp_modify
  | |- vwp (ask _) _ _ => apply vwp_ask; intros ?
  end.

(** ** Tables *)

Section TableLemmas.
Context {A : Type} (name_of : A -> list Z).

Lemma find_named_some name table e :
  find_named name_of name table = Some e -> e ∈ table /\ name_of e = name.
Proof.
  induction table as [|x table IH]; [done|]. simpl. case_bool_decide as Hx.
  - intros [= <-]. split; [apply list_elem_of_here|done].
  - intros [He Hn]%IH. split; [by apply list_elem_of_further|done].
Qed.

Lemma find_named_none name table :
  find_named name_of name table = None -> name ∉ map name_of table.
Proof.
  induction table as [|x table IH]; simpl; [intros _ ?%elem_of_nil; done|].
  case_bool_decide as Hx; [done|]. intros Hn [->|H]%elem_of_cons; [done|]. by apply IH.
Qed.

Lemma find_named_app name table more :
  find_named name_of name (table ++ more) =
  match find_named name_of name table with
  | Some e => Some e
  | None => find_named name_of name more
  end.
Proof. induction table as [|x table IH]; [done|]. simpl. by case_bool_decide. Qed.

Lemma find_update_same name f table :
  (forall e, name_of (f e) = name_of e) ->
  find_named name_of name (update_named name_of name f table) = f <$> find_named name_of name table.
Proof.
  intros Hf. induction table as [|x table IH]; [done|]. simpl.
  case_bool_decide as Hx; simpl.
  - rewrite bool_decide_true by by rewrite Hf. done.
  - by rewrite bool_decide_false.
Qed.

Lemma find_update_other name other f table :
  (forall e, name_of (f e) = name_of e) -> other <> name ->
  find_named name_of other (update_named name_of name f table) = find_named name_of other table.
Proof.
  intros Hf Hn. induction table as [|x table IH]; [done|]. simpl.
  case_bool_decide as Hx; simpl.
  - rewrite !bool_decide_false by (rewrite ?Hf; congruence). done.
  - by rewrite IH.
Qed.

Lemma update_names name f table :
  (forall e, name_of (f e) = name_of e) ->
  map name_of (update_named name_of name f table) = map name_of table.
Proof.
  intros Hf. induction table as [|x table IH]; [done|]. simpl.
  case_bool_decide; simpl; by rewrite ?Hf, ?IH.
Qed.

(** With distinct names, the updated table holds the changed entry and the
    other entries. *)
Lemma update_elem name f table e :
  NoDup (map name_of table) -> e ∈ update_named name_of name f table ->
  (exists e', e' ∈ table /\ name_of e' = name /\ e = f e') \/ (e ∈ table /\ name_of e <> name).
Proof.
  induction table as [|x table IH]; simpl; [by intros _ ?%elem_of_nil|].
  intros [Hx Hnd]%NoDup_cons. case_bool_decide as Hn.
  - intros [->|He]%elem_of_cons.
    + left. exists x. split; [apply list_elem_of_here|done].
    + right. split; [by apply list_elem_of_further|]. intros <-. apply Hx. rewrite Hn.
      apply list_elem_of_fmap. by exists e.
  - intros [->|He]%elem_of_cons.
    + right. split; [apply list_elem_of_here|done].
    + apply IH in He as [(e' & He & Hn' & ->)|[He Hn']]; [|right|done].
      * left. exists e'. split; [by apply list_elem_of_further|done].
      * split; [by apply list_elem_of_further|done].
Qed.

Lemma update_has name f table e :
  e ∈ table -> exists e', e' ∈ update_named name_of name f table /\ (e' = e \/ e' = f e /\ name_of e = name).
Proof.
  induction 1 as [e table|e x table He (e' & He' & Hor)]; simpl; case_bool_decide as Hn.
  - exists (f e). split; [apply list_elem_of_here|auto].
  - exists e. split; [apply list_elem_of_here|auto].
  - exists e. split; [by apply list_elem_of_further|auto].
  - exists e'. split; [by apply list_elem_of_further|auto].
Qed.

Lemma distinct_unique table (e e' : A) :
  NoDup (map name_of table) -> e ∈ table -> e' ∈ table -> name_of e = name_of e' -> e = e'.
Proof.
  intros Hnd He He' Hn. apply list_elem_of_lookup in He as [i Hi]. apply list_elem_of_lookup in He' as [j Hj].
  assert (i = j) as <-; [|congruence].
  eapply NoDup_lookup; [exact Hnd| |]; rewrite list_lookup_fmap; [by rewrite Hi|by rewrite Hj, Hn].
Qed.

End TableLemmas.

(** ** Choosing versions *)

Lemma satisfies_defined v c : exists b, semver_satisfies v c = Some b.
Proof. rewrite semver_satisfies_spec. eauto. Qed.

Definition allows (c : SemverConstraint) (v : Semver) : Prop := semver_satisfies v c = Some true.

Lemma intersect_allows a b :
  exists r, semver_constraint_intersect a b = Some r /\
    forall m, r = Some m -> forall v, allows m v -> allows a v /\ allows b v.
Proof.
  destruct (intersect_spec a b) as (r & Hr & Hv). exists r. split; [done|]. intros m -> v Hm.
  destruct (Hv v) as (sa & sb & Ha & Hb & Hab). unfold allows in *. rewrite Hm in Hab.
  injection Hab as Hab. symmetry in Hab. apply andb_true_iff in Hab as [-> ->]. done.
Qed.

(** A text that parses as a version does not start with the terminator. *)
Lemma semver_parse_nonempty text v : semver_parse text = Some v -> peek text <> 0.
Proof.
  intros Hp E. unfold semver_parse in Hp. destruct text as [|c text]; simpl in E; [|subst c]; done.
Qed.

(** "At least" is transitive. *)
Lemma version_ge_trans a b c :
  version_compare a b <> Lt -> version_compare b c <> Lt -> version_compare a c <> Lt.
Proof.
  intros H1 H2 H3. apply H2. apply (version_lt_trans b a c); [|done].
  rewrite version_flip. by destruct (version_compare a b).
Qed.

Definition best_from (tags : list (list Z)) (c : SemverConstraint) (best : option (Semver * list Z))
    (v : Semver) (tag : list Z) : Prop :=
  best = Some (v, tag) \/ (tag ∈ tags /\ semver_parse tag = Some v /\ allows c v).

(** The chosen tag is one of the tags (or the best before), and no matching
    tag is of higher precedence. *)
Lemma best_tag_spec tags c best :
  exists r, best_tag tags c best = Some r /\
    (forall v tag, r = Some (v, tag) -> best_from tags c best v tag) /\
    (forall v' tag', best_from tags c best v' tag' ->
       exists v tag, r = Some (v, tag) /\ version_compare v v' <> Lt).
Proof.
  revert best. induction tags as [|tag tags IH]; intros best; simpl.
  { exists best. split; [done|]. split.
    - intros v t ->. by left.
    - intros v' t' [->|[?%elem_of_nil _]]; [|done]. exists v', t'. split; [done|].
      by rewrite (cmp_refl version_compare). }
  assert (Hskip : (forall v, semver_parse tag = Some v -> ~ allows c v) ->
    exists r, best_tag tags c best = Some r /\
      (forall v t, r = Some (v, t) -> best_from (tag :: tags) c best v t) /\
      (forall v' t', best_from (tag :: tags) c best v' t' ->
         exists v t, r = Some (v, t) /\ version_compare v v' <> Lt)).
  { intros Hno. destruct (IH best) as (r & Hr & H1 & H2). exists r. split; [done|]. split.
    - intros v t E. destruct (H1 v t E) as [?|(?&?&?)]; [by left|right]. split; [by right|done].
    - intros v' t' [->|(Hin & Hp & Ha)]; [apply (H2 v' t'); by left|].
      apply elem_of_cons in Hin as [->|Hin]; [by destruct (Hno v' Hp)|]. apply (H2 v' t'). by right. }
  destruct (semver_parse tag) as [candidate|] eqn:Hp; [|by apply Hskip].
  destruct (satisfies_defined candidate c) as [ok Hok]. rewrite Hok. destruct ok; simpl.
  2:{ apply Hskip. intros v [= <-] Ha. unfold allows in Ha. congruence. }
  set (new := Some (candidate, tag)) in *.
  assert (Hstep : forall better : bool,
    match best with
    | None => better = true
    | Some (bv, _) => better = match version_compare candidate bv with Gt => true | _ => false end
    end ->
    exists r, best_tag tags c (if better then new else best) = Some r /\
      (forall v t, r = Some (v, t) -> best_from (tag :: tags) c best v t) /\
      (forall v' t', best_from (tag :: tags) c best v' t' ->
         exists v t, r = Some (v, t) /\ version_compare v v' <> Lt)).
  { intros better Hb. destruct (IH (if better then new else best)) as (r & Hr & H1 & H2).
    exists r. split; [done|].
    assert (Hlow : forall w, (w = candidate \/ exists t, best = Some (w, t)) ->
      exists v t, r = Some (v, t) /\ version_compare v w <> Lt).
    { intros w Hw. destruct best as [[bv bt]|].
      - destruct (H2 (if better then candidate else bv) (if better then tag else bt)) as (v & t & -> & Hge);
          [left; by destruct better|].
        exists v, t. split; [done|]. eapply version_ge_trans; [exact Hge|].
        destruct Hw as [->|(t' & [= -> ->])]; subst better;
          destruct (version_compare candidate _) eqn:E; rewrite ?(cmp_refl version_compare); try done;
          try (rewrite version_flip, E; done); by rewrite E.
      - subst better. destruct (H2 candidate tag) as (v & t & -> & Hge); [by left|].
        destruct Hw as [->|(? & [=])]. eauto. }
    split.
    - intros v t E. destruct (H1 v t E) as [E2|(?&?&?)]; [|right; split; [by right|done]].
      destruct better; [|by left]. injection E2 as <- <-. right. split; [left|done].
    - intros v' t' [->|(Hin & Hp' & Ha)]; [apply Hlow; eauto|].
      apply elem_of_cons in Hin as [->|Hin].
      + apply Hlow. left. congruence.
      + apply (H2 v' t'). by right. }
  destruct best as [[bv bt]|].
  - rewrite semver_compare_spec.
    destruct (Hstep (match version_compare candidate bv with Gt => true | _ => false end) eq_refl)
      as (r & Hr & H12). exists r. split; [|done]. rewrite <- Hr. by destruct (version_compare candidate bv).
  - by destruct (Hstep true eq_refl) as (r & Hr & H12); exists r.
Qed.

Lemma pick_tag_spec tags c :
  exists r, pick_best_matching_tag tags c = Some r /\
    forall tag, r = Some tag -> exists full v, full ∈ tags /\ tag = truncated FACET_MAX_REF full /\
      semver_parse full = Some v /\ allows c v /\
      forall tag' v', tag' ∈ tags -> semver_parse tag' = Some v' -> allows c v' ->
        version_compare v v' <> Lt.
Proof.
  unfold pick_best_matching_tag. destruct (best_tag_spec tags c None) as (r & -> & H1 & H2).
  eexists. split; [done|]. intros tag. destruct r as [[v full]|]; [|done]. intros [= <-].
  destruct (H1 v full eq_refl) as [?|(Hin & Hp & Ha)]; [done|].
  exists full, v. split_and!; try done. intros tag' v' Hin' Hp' Ha'.
  destruct (H2 v' tag') as (v2 & t2 & [= <- <-] & Hge); [by right|done].
Qed.

Lemma next_line_shorter text line rest :
  next_line text = (line, Some rest) -> (List.length rest < List.length text)%nat.
Proof.
  revert line. induction text as [|c text IH]; intros line; simpl; [done|].
  destruct (c =? 10); [intros [= _ ->]; lia|].
  destruct (next_line text) as [l m]. intros [= _ ->]. specialize (IH l eq_refl). lia.
Qed.

(** The tags listed are cut to their buffer. *)
Lemma tag_lines_spec fuel text capacity tags :
  (List.length text < fuel)%nat -> Forall (fun t => List.length t <= 127)%nat tags ->
  exists r, tag_lines fuel text capacity tags = Some r /\ Forall (fun t => List.length t <= 127)%nat r.
Proof.
  revert text tags. induction fuel as [|fuel IH]; intros text tags Hf Ht; [lia|]. simpl.
  destruct (_ =? 0)%nat; [eauto|]. destruct (next_line text) as [line more] eqn:En.
  assert (Ht' : Forall (fun t => List.length t <= 127)%nat
    (match line_tag line with
     | Some tag => if (List.length tags <? capacity)%nat then tags ++ [truncated FACET_MAX_REF tag] else tags
     | None => tags end)).
  { destruct (line_tag line); [|done]. destruct (_ <? _)%nat; [|done].
    apply Forall_app. split; [done|]. apply Forall_singleton. unfold truncated. rewrite length_take.
    unfold FACET_MAX_REF. lia. }
  destruct more as [rest|]; [|eauto]. apply IH; [apply next_line_shorter in En; lia|done].
Qed.

Lemma truncated_short t : (List.length t <= 127)%nat -> truncated FACET_MAX_REF t = t.
Proof. intros H. unfold truncated. by apply take_ge. Qed.

Lemma chosen_tag output c :
  exists tags best, git_list_semver_tags output MAX_TAGS = Some tags /\
    pick_best_matching_tag tags c = Some best /\
    forall tag, best = Some tag -> exists v, tag ∈ tags /\ semver_parse tag = Some v /\ allows c v.
Proof.
  destruct (tag_lines_spec (S (List.length output)) output MAX_TAGS [] ltac:(lia) ltac:(constructor))
    as (tags & Ht & Hs).
  destruct (pick_tag_spec tags c) as (best & Hb & Hr). exists tags, best. split_and!; try done.
  intros tag E. destruct (Hr tag E) as (full & v & Hin & -> & Hp & Ha & _).
  rewrite truncated_short by (by eapply Forall_forall in Hs). eauto.
Qed.

Lemma version_record_parses record text v yanked :
  version_record record = Some (text, v, yanked) -> semver_parse text = Some v.
Proof.
  unfold version_record. destruct record; try done. destruct (negb _); [done|].
  destruct (diamond_manifest_get_string _ _ _) as [t|]; [|done].
  destruct (diamond_manifest_get_bool _ _); [|done]. destruct (negb _); [done|].
  destruct (semver_parse t) eqn:E; [|done]. by intros [= <- <- _].
Qed.

Lemma scan_versions_spec records c preferred best :
  exists r, scan_versions records c preferred best = Some r /\
    forall v text, r = Some (Some (v, text)) ->
      best = Some (v, text) \/ (semver_parse text = Some v /\ allows c v).
Proof.
  revert best. induction records as [|record records IH]; intros best; simpl.
  { eexists. split; [done|]. intros v text [= ->]. by left. }
  destruct (version_record record) as [[[text candidate] yanked]|] eqn:Hv; [|by eexists].
  apply version_record_parses in Hv.
  assert (Hok : exists ok, (if yanked then Some false else semver_satisfies candidate c) = Some ok /\
    (ok = true -> allows c candidate)).
  { destruct yanked; [by exists false|]. destruct (satisfies_defined candidate c) as [ok Hok].
    exists ok. split; [done|]. by intros ->. }
  destruct Hok as (ok & -> & Ha). destruct ok; simpl; [|apply IH]. specialize (Ha eq_refl).
  assert (Hstep : forall new, new = Some (candidate, text) \/ new = best ->
    exists r, (if bool_decide (text = preferred) then Some (Some new)
               else scan_versions records c preferred new) = Some r /\
      forall v t, r = Some (Some (v, t)) -> best = Some (v, t) \/ (semver_parse t = Some v /\ allows c v)).
  { intros new Hn. assert (Hfrom : forall v t, new = Some (v, t) ->
      best = Some (v, t) \/ (semver_parse t = Some v /\ allows c v)).
    { intros v t E. destruct Hn as [->| ->]; [|by left]. injection E as <- <-. by right. }
    case_bool_decide; [eexists; split; [done|]; intros v t [= E]; auto|].
    destruct (IH new) as (r & Hr & Hnext). exists r. split; [done|]. intros v t E.
    destruct (Hnext v t E); auto. }
  destruct best as [[bv bt]|]; [rewrite semver_compare_spec; simpl|].
  - apply Hstep. destruct ((0 <? _) || _); auto.
  - apply Hstep. auto.
Qed.

(** ** The promise *)

(** A dependency is answered by an entry of the resolution. *)
Definition answered (packages : list FacetResolved) (d : FacetDependency) : Prop :=
  exists p, p ∈ packages /\ res_name p = dep_name d /\
  if uses_version d then
    same_source (res_source p) (res_git p) (res_registry p) d = true /\
    exists c v, semver_constraint_parse (version_text d) = Some c /\
      semver_parse (res_version p) = Some v /\ allows c v
  else res_source p = FACET_SOURCE_GIT /\ res_git p = dep_git d /\ res_ref p = dep_ref d.

(** Who requires what: the project's manifest, and those read for cuts. *)
Definition required (root : FacetManifest) (s : Resolver) (by_name : list Z) (d : FacetDependency) : Prop :=
  (by_name = manifest_name root /\ d ∈ dependencies root) \/
  exists m, (by_name, Some m) ∈ visited s /\ d ∈ dependencies m.

(** The cuts the project depends on, directly or through manifests read. *)
Inductive reachable (root : FacetManifest) (visits : list (list Z * option FacetManifest)) :
    list Z -> Prop :=
  | reach_root d : d ∈ dependencies root -> reachable root visits (dep_name d)
  | reach_nested n m d :
      reachable root visits n -> (n, Some m) ∈ visits -> d ∈ dependencies m ->
      reachable root visits (dep_name d).

Lemma reachable_mono root visits visits' n :
  (forall x, x ∈ visits -> x ∈ visits') -> reachable root visits n -> reachable root visits' n.
Proof. intros Hv. induction 1; [by constructor|]. eapply reach_nested; eauto. Qed.

(** ** The invariant *)

(** What the tables hold for a dependency that was handled. *)
Definition settled (s : Resolver) (d : FacetDependency) : Prop :=
  if uses_version d then
    exists c h, semver_constraint_parse (version_text d) = Some c /\
      find_record (dep_name d) (history s) = Some h /\ (forall v, allows (accumulated h) v -> allows c v) /\
      ((exists p, p ∈ resolution s /\ res_name p = dep_name d /\ peek (res_version p) <> 0 /\
          same_source (res_source p) (res_git p) (res_registry p) d = true) \/
       (exists e, e ∈ pending s /\ pend_name e = dep_name d /\
          same_source (pend_source e) (pend_git e) (pend_registry e) d = true))
  else exists p, p ∈ resolution s /\ res_name p = dep_name d /\ res_source p = FACET_SOURCE_GIT /\
    res_git p = dep_git d /\ res_ref p = dep_ref d.

(** [todo]: dependencies of visited manifests that are still to be handled. *)
Record Inv (root : FacetManifest) (todo : list (list Z * FacetDependency)) (s : Resolver) : Prop := {
  inv_names : NoDup (map res_name (resolution s) ++ map pend_name (pending s));
  inv_room : (List.length (resolution s) <= FACET_MAX_DEPENDENCIES)%nat;
  inv_pending : forall e, e ∈ pending s ->
    exists h, find_record (pend_name e) (history s) = Some h /\ accumulated h = pend_constraint e;
  inv_version : forall p, p ∈ resolution s -> peek (res_version p) <> 0 ->
    exists h v, find_record (res_name p) (history s) = Some h /\
      semver_parse (res_version p) = Some v /\ allows (accumulated h) v;
  inv_settled : forall r d, required root s r d -> (r, d) ∈ todo \/ settled s d;
  inv_wanted : forall p, p ∈ resolution s ->
    exists d, required root s (res_required_by p) d /\ dep_name d = res_name p;
  inv_awaited : forall e, e ∈ pending s ->
    exists d, required root s (first_requester e) d /\ dep_name d = pend_name e;
  inv_work : forall p, p ∈ resolution s ->
    (exists m, (res_name p, m) ∈ visited s) \/ res_name p ∈ map item_cut_name (queue s);
  inv_visited : forall n m, (n, m) ∈ visited s -> n ∈ map res_name (resolution s);
  inv_queue : forall n, n ∈ map item_cut_name (queue s) -> n ∈ map res_name (resolution s);
  inv_small : (List.length (queue s) <= List.length (resolution s))%nat;
  inv_exact : forall p, p ∈ resolution s -> peek (res_version p) = 0 -> res_source p = FACET_SOURCE_GIT;
  inv_reach : forall p, p ∈ resolution s -> reachable root (visited s) (res_name p);
}.

(** The steps left: queued manifests and entries still free. *)
Definition work (s : Resolver) : nat :=
  (List.length (queue s) + (FACET_MAX_DEPENDENCIES - List.length (resolution s)))%nat.

Definition progress (s s' : Resolver) : Prop :=
  (work s' <= work s)%nat /\ (List.length (resolution s) <= List.length (resolution s'))%nat.

Lemma progress_trans a b c : progress a b -> progress b c -> progress a c.
Proof. unfold progress. lia. Qed.

Lemma progress_refl s : progress s s.
Proof. unfold progress. lia. Qed.

(** The fields the invariant reads. *)
Definition agrees (s s' : Resolver) : Prop :=
  resolution s' = resolution s /\ pending s' = pending s /\ queue s' = queue s /\
  history s' = history s /\ visited s' = visited s.

Lemma Inv_agrees root todo s s' : agrees s s' -> Inv root todo s -> Inv root todo s'.
Proof.
  intros (E1 & E2 & E3 & E4 & E5) [].
  assert (Hreq : forall r d, required root s' r d <-> required root s r d)
    by (intros r d; unfold required; by rewrite E5).
  assert (Hset : forall d, settled s d -> settled s' d) by (intros d; unfold settled; by rewrite E1, E2, E4).
  constructor; rewrite ?E1, ?E2, ?E3, ?E4, ?E5; try done.
  - intros r d Hr. apply Hreq, inv_settled0 in Hr as [?|?]; auto.
  - intros p Hp. destruct (inv_wanted0 p Hp) as (d & Hr & Hn). exists d. by rewrite Hreq.
  - intros e He. destruct (inv_awaited0 e He) as (d & Hr & Hn). exists d. by rewrite Hreq.
Qed.

(** How a new entry [p] enters the state: its manifest is visited at once or
    queued. *)
Definition entered (s s' : Resolver) (p : FacetResolved) (m : option FacetManifest) : Prop :=
  resolution s' = resolution s ++ [p] /\ history s' = history s /\
  ((queue s' = queue s /\ visited s' = visited s ++ [(res_name p, m)]) \/
   (visited s' = visited s /\ exists item, queue s' = queue s ++ [item] /\ item_cut_name item = res_name p)).

Lemma entered_required root s s' p m r d :
  entered s s' p m -> required root s r d -> required root s' r d.
Proof.
  intros (_ & _ & Hv) [?|(m' & Hm & Hd)]; [by left|]. right. exists m'. split; [|done].
  destruct Hv as [(_ & ->)|(-> & _)]; [apply elem_of_app; by left|done].
Qed.

Lemma entered_progress s s' p m :
  (List.length (resolution s) < FACET_MAX_DEPENDENCIES)%nat -> entered s s' p m -> progress s s'.
Proof.
  intros Hl (E1 & _ & Hv). unfold progress, work. rewrite E1, length_app. simpl.
  destruct Hv as [(-> & _)|(_ & i & -> & _)]; rewrite ?length_app; simpl; lia.
Qed.

Lemma required_reachable root todo s r d :
  Inv root todo s -> required root s r d -> reachable root (visited s) (dep_name d).
Proof.
  intros I [[_ Hd]|(m & Hm & Hd)]; [by constructor|]. eapply reach_nested; [|exact Hm|exact Hd].
  apply (inv_visited _ _ _ I), list_elem_of_fmap in Hm as (q & -> & Hq). by apply (inv_reach _ _ _ I).
Qed.

Lemma Inv_enter root todo todo' s s' p m :
  Inv root todo s -> entered s s' p m ->
  (List.length (resolution s) < FACET_MAX_DEPENDENCIES)%nat ->
  NoDup (map res_name (resolution s ++ [p]) ++ map pend_name (pending s')) ->
  (forall e, e ∈ pending s' -> e ∈ pending s) ->
  (peek (res_version p) <> 0 -> exists h v, find_record (res_name p) (history s) = Some h /\
     semver_parse (res_version p) = Some v /\ allows (accumulated h) v) ->
  (peek (res_version p) = 0 -> res_source p = FACET_SOURCE_GIT) ->
  (exists d, required root s (res_required_by p) d /\ dep_name d = res_name p) ->
  (forall r d, required root s' r d -> (r, d) ∈ todo' \/ settled s' d) ->
  Inv root todo' s'.
Proof.
  intros I He Hl Hnd Hsub Hver Hexact Hwant Hset.
  assert (Hreq : forall r d, required root s r d -> required root s' r d)
    by (intros; by eapply entered_required).
  assert (Hreach : forall n, reachable root (visited s) n -> reachable root (visited s') n).
  { intros n. apply reachable_mono. destruct He as (_ & _ & [(_ & ->)|(-> & _)]); [|done].
    intros x Hx. apply elem_of_app. by left. }
  assert (Hnew : reachable root (visited s) (res_name p)).
  { destruct Hwant as (d & Hd & <-). by eapply required_reachable. }
  destruct He as (E1 & E4 & Hv). destruct I. constructor; rewrite ?E1, ?E4; try done.
  - rewrite length_app. simpl. lia.
  - intros e He. apply inv_pending0. auto.
  - intros q [Hq|Hq]%elem_of_app; [by apply inv_version0|]. apply list_elem_of_singleton in Hq as ->. done.
  - intros q [Hq|Hq]%elem_of_app.
    + destruct (inv_wanted0 q Hq) as (d & Hd & Hn). eauto.
    + apply list_elem_of_singleton in Hq as ->. destruct Hwant as (d & Hd & Hn). eauto.
  - intros e He. destruct (inv_awaited0 e (Hsub e He)) as (d & Hd & Hn). eauto.
  - intros q [Hq|Hq]%elem_of_app.
    + destruct (inv_work0 q Hq) as [(m' & Hm)|Hm]; destruct Hv as [(-> & ->)|(-> & i & -> & Hi)].
      * left. exists m'. apply elem_of_app. by left.
      * left. by exists m'.
      * by right.
      * right. rewrite map_app. apply elem_of_app. by left.
    + apply list_elem_of_singleton in Hq as ->. destruct Hv as [(_ & ->)|(_ & i & -> & Hi)].
      * left. exists m. apply elem_of_app. right. by apply list_elem_of_singleton.
      * right. rewrite map_app. apply elem_of_app. right. simpl. rewrite Hi. by apply list_elem_of_singleton.
  - intros n m' Hm. rewrite map_app. apply elem_of_app.
    destruct Hv as [(_ & E)|(E & _)]; rewrite E in Hm; [|left; by eapply inv_visited0].
    apply elem_of_app in Hm as [Hm|Hm]; [left; by eapply inv_visited0|].
    apply list_elem_of_singleton in Hm as [= -> ->]. right. by apply list_elem_of_singleton.
  - intros n Hn. rewrite map_app. apply elem_of_app.
    destruct Hv as [(E & _)|(_ & i & E & Hi)]; rewrite E in Hn; [left; by apply inv_queue0|].
    rewrite map_app in Hn. apply elem_of_app in Hn as [Hn|Hn]; [left; by apply inv_queue0|].
    simpl in Hn. rewrite Hi in Hn. by right.
  - rewrite length_app. simpl. destruct Hv as [(-> & _)|(_ & i & -> & _)]; rewrite ?length_app; simpl; lia.
  - intros q [Hq|Hq]%elem_of_app; [auto|]. apply list_elem_of_singleton in Hq as ->. auto.
  - intros q [Hq|Hq]%elem_of_app; [auto|]. apply list_elem_of_singleton in Hq as ->. auto.
Qed.

(** Queueing a manifest that is there, or noting that there is none. *)
Lemma queue_nested_spec `{World} directory name s :
  vwp (queue_nested_manifest directory name) s (fun ok s' =>
    ok = true -> resolution s' = resolution s /\ pending s' = pending s /\ history s' = history s /\
    ((queue s' = queue s /\ visited s' = visited s ++ [(name, None)]) \/
     (visited s' = visited s /\ exists item, queue s' = queue s ++ [item] /\ item_cut_name item = name))).
Proof.
  assert (Hpush : forall path t, agrees s t -> vwp (work_queue_push path name) t (fun ok s' =>
    ok = true -> resolution s' = resolution s /\ pending s' = pending s /\ history s' = history s /\
    ((queue s' = queue s /\ visited s' = visited s ++ [(name, None)]) \/
     (visited s' = visited s /\ exists item, queue s' = queue s ++ [item] /\ item_cut_name item = name)))).
  { intros path t (E1 & E2 & E3 & E4 & E5). unfold work_queue_push. repeat vstep.
    destruct (_ =? _)%nat; [by vstep|]. repeat vstep. intros _. simpl.
    rewrite E1, E2, E3, E4, E5. split_and!; try done. right. split; [done|]. eexists. split; [done|done]. }
  unfold queue_nested_manifest, diamond_cut_manifest_find.
  destruct (format_manifest_path directory (bytes "diamond.cut")); [|repeat vstep; done].
  repeat vstep. destruct (format_manifest_path directory (bytes "Cutfile")); [|repeat vstep; done].
  repeat vstep. destruct a0, a; simpl; try by vstep.
  - by apply Hpush.
  - by apply Hpush.
  - repeat vstep. intros _. split_and!; try done. by left.
Qed.

(** [fetch_git] adds one entry, or fails. *)
Lemma fetch_git_spec `{World} scratch_root name git ref version required_by s :
  (List.length (resolution s) <= FACET_MAX_DEPENDENCIES)%nat ->
  vwp (fetch_git scratch_root name git ref version required_by) s (fun ok s' =>
    ok = true -> (List.length (resolution s) < FACET_MAX_DEPENDENCIES)%nat /\ pending s' = pending s /\
    exists commit, entered s s'
      {| res_name := name; res_source := FACET_SOURCE_GIT; res_git := git; res_registry := [];
         res_sha256 := []; res_size := 0; res_ref := ref; res_commit := commit;
         res_version := version; res_required_by := required_by |} None).
Proof.
  intros Hroom. unfold fetch_git. repeat vstep.
  destruct (Nat.eqb_spec (List.length (resolution s)) FACET_MAX_DEPENDENCIES) as [|Hl]; [by vstep|].
  destruct (scratch_path scratch_root name) as [path|]; [|by vstep].
  apply vwp_check; [done|]. unfold git_clone. repeat vstep. intros _. unfold git_rev_parse_head. repeat vstep.
  destruct a0 as [commit|]; [|by vstep]. repeat vstep.
  eapply vwp_mono; [apply queue_nested_spec|]. intros ok s' Hok ->.
  destruct (Hok eq_refl) as (E1 & E2 & E3 & Hv). split; [lia|]. split; [done|]. exists commit. done.
Qed.

(** What every operation does to the state: work never grows, and manifests
    stay visited. *)
Definition grows (s s' : Resolver) : Prop :=
  progress s s' /\ forall x, x ∈ visited s -> x ∈ visited s'.

Lemma walk_grows_refl s : grows s s.
Proof. split; [apply progress_refl|done]. Qed.

Lemma walk_grows_trans a b c : grows a b -> grows b c -> grows a c.
Proof. intros [H1 H2] [H3 H4]. split; [by eapply progress_trans|auto]. Qed.

Lemma grows_agrees s s' : agrees s s' -> grows s s'.
Proof.
  intros (E1 & E2 & E3 & E4 & E5). split; [|by rewrite E5]. unfold progress, work. rewrite E1, E3. lia.
Qed.

Lemma grows_required root s s' r d : grows s s' -> required root s r d -> required root s' r d.
Proof. intros [_ Hv] [?|(m & Hm & Hd)]; [by left|]. right. exists m. auto. Qed.

Lemma entered_grows s s' p m :
  (List.length (resolution s) < FACET_MAX_DEPENDENCIES)%nat -> entered s s' p m -> grows s s'.
Proof.
  intros Hl He. split; [by eapply entered_progress|]. destruct He as (_ & _ & [(_ & ->)|(-> & _)]); [|done].
  intros x Hx. apply elem_of_app. by left.
Qed.

Lemma Inv_settle root r d todo s : Inv root ((r, d) :: todo) s -> settled s d -> Inv root todo s.
Proof.
  intros [] Hs. constructor; try done. intros r' d' Hr.
  destruct (inv_settled0 r' d' Hr) as [Hin|?]; [|auto].
  apply elem_of_cons in Hin as [[= -> ->]|]; auto.
Qed.

Lemma fresh_names_app (p : FacetResolved) (packages : list FacetResolved) (entries : list FacetPendingSemver) :
  NoDup (map res_name packages ++ map pend_name entries) ->
  res_name p ∉ map res_name packages -> res_name p ∉ map pend_name entries ->
  NoDup (map res_name (packages ++ [p]) ++ map pend_name entries).
Proof.
  intros Hnd H1 H2. rewrite map_app, <- app_assoc. simpl.
  rewrite <- (Permutation_middle (map res_name packages) (map pend_name entries) (res_name p)).
  apply NoDup_cons. split; [|done]. intros [?|?]%elem_of_app; done.
Qed.

(** Entering an entry with the pending table unchanged settles nothing anew. *)
Lemma entered_settled s s' p m d :
  entered s s' p m -> pending s' = pending s -> settled s d -> settled s' d.
Proof.
  intros (E1 & E2 & _) E3. unfold settled. rewrite E1, E2, E3. destruct (uses_version d).
  - intros (c & h & Hc & Hh & Ha & [(q & Hq & Hr)|Hp]); exists c, h; split_and!; try done; [left|by right].
    exists q. split; [apply elem_of_app; by left|done].
  - intros (q & Hq & Hr). exists q. split; [apply elem_of_app; by left|done].
Qed.

(** What becomes required is what the new manifest asks for. *)
Lemma entered_new_required root s s' p m r d :
  entered s s' p m -> required root s' r d ->
  required root s r d \/ exists nested, m = Some nested /\ r = res_name p /\ d ∈ dependencies nested.
Proof.
  intros (_ & _ & Hv) [?|(m' & Hm & Hd)]; [by left; left|].
  destruct Hv as [(_ & E)|(E & _)]; rewrite E in Hm; [|left; right; by exists m'].
  apply elem_of_app in Hm as [Hm|Hm]; [left; right; by exists m'|].
  apply list_elem_of_singleton in Hm as [= -> <-]. right. by exists m'.
Qed.

Lemma handle_exact_spec `{World} scratch_root root todo d r s :
  uses_version d = false -> Inv root ((r, d) :: todo) s -> required root s r d ->
  vwp (handle_exact_dependency scratch_root d r) s (fun ok s' =>
    ok = true -> Inv root todo s' /\ grows s s').
Proof.
  intros Hu I Hr. unfold handle_exact_dependency. repeat vstep.
  destruct (find_resolved (dep_name d) (resolution s)) as [p|] eqn:Hf.
  - apply find_named_some in Hf as [Hp Hn].
    destruct (Z.eqb_spec (peek (res_version p)) 0) as [Hz|]; simpl; [|by vstep]. vstep. intros [Hg%bool_decide_eq_true Href%bool_decide_eq_true]%andb_true_iff.
    split; [|apply walk_grows_refl]. eapply Inv_settle; [exact I|]. unfold settled. rewrite Hu. exists p.
    by rewrite (inv_exact _ _ _ I p Hp Hz).
  - apply find_named_none in Hf.
    destruct (find_pending (dep_name d) (pending s)) as [e|] eqn:He; [by vstep|]. apply find_named_none in He.
    eapply vwp_mono; [apply fetch_git_spec; apply I|]. intros ok s' Hok ->.
    destruct (Hok eq_refl) as (Hl & Ep & commit & Hen). split; [|by eapply entered_grows].
    eapply Inv_enter; [exact I|exact Hen|done| | |simpl; done|done| |].
    + rewrite Ep. apply fresh_names_app; [apply I|done|done].
    + by rewrite Ep.
    + by exists d.
    + intros r' d' Hr'. destruct (entered_new_required _ _ _ _ _ _ _ Hen Hr') as [Ho|(? & [=] & _)].
      destruct (inv_settled _ _ _ I r' d' Ho) as [Hin|Hs]; [|right; by eapply entered_settled].
      apply elem_of_cons in Hin as [[= -> ->]|?]; [right|by left].
      unfold settled. rewrite Hu. destruct Hen as (-> & _). eexists.
      split; [apply elem_of_app; right; by apply list_elem_of_singleton|done].
Qed.

(** ** Version constraints *)

Lemma find_or_create_spec d s :
  vwp (find_or_create_constraint_record d) s (fun found s' =>
    forall record, found = Some record ->
    exists table, s' = set_history table s /\ find_record (dep_name d) table = Some record /\
      (forall other, other <> dep_name d -> find_record other table = find_record other (history s)) /\
      (forall h, find_record (dep_name d) (history s) = Some h -> h = record)).
Proof.
  unfold find_or_create_constraint_record. repeat vstep.
  destruct (find_record (dep_name d) (history s)) as [old|] eqn:Ho.
  - vstep. intros record. destruct (same_source _ _ _ _); [|done]. intros [= <-].
    exists (history s). split_and!; try done; [by destruct s|]. by intros h [= ->].
  - destruct (_ =? _)%nat; [by vstep|]. repeat vstep. intros record [= <-].
    eexists. split; [done|]. unfold find_record in *. split_and!; [| |done].
    + rewrite find_named_app, Ho. simpl. by rewrite bool_decide_true.
    + intros other Hn. rewrite find_named_app. simpl. rewrite bool_decide_false by done.
      by destruct (find_named rec_name other (history s)).
Qed.

(** The state after a constraint on [n] was folded into the history. *)
Record merges (s s' : Resolver) (n r : list Z) (merged : SemverConstraint) : Prop := {
  mg_resolution : resolution s' = resolution s;
  mg_queue : queue s' = queue s;
  mg_visited : visited s' = visited s;
  mg_record : exists h, find_record n (history s') = Some h /\ accumulated h = merged;
  mg_old : forall h, find_record n (history s) = Some h -> forall v, allows merged v -> allows (accumulated h) v;
  mg_other : forall other, other <> n -> find_record other (history s') = find_record other (history s);
  mg_names : NoDup (map res_name (resolution s') ++ map pend_name (pending s'));
  mg_from : forall e, e ∈ pending s' ->
    (e ∈ pending s /\ pend_name e <> n) \/
    (pend_name e = n /\ pend_constraint e = merged /\ first_requester e = r);
  mg_to : forall e, e ∈ pending s -> exists e', e' ∈ pending s' /\ pend_name e' = pend_name e /\
    pend_source e' = pend_source e /\ pend_git e' = pend_git e /\ pend_registry e' = pend_registry e;
  mg_resolved : forall p, p ∈ resolution s -> res_name p = n -> peek (res_version p) <> 0 ->
    exists v, semver_parse (res_version p) = Some v /\ allows merged v;
}.

Lemma merges_settled s s' n r merged d : merges s s' n r merged -> settled s d -> settled s' d.
Proof.
  intros [R1 R2 R3 (h' & Hh' & <-) Hold Hother Hnd Hfrom Hto Hres]. unfold settled. rewrite R1.
  destruct (uses_version d); [|done]. intros (c & h & Hc & Hh & Ha & Hor).
  assert (Hor' : (exists p, p ∈ resolution s /\ res_name p = dep_name d /\ peek (res_version p) <> 0 /\
      same_source (res_source p) (res_git p) (res_registry p) d = true) \/
    (exists e, e ∈ pending s' /\ pend_name e = dep_name d /\
      same_source (pend_source e) (pend_git e) (pend_registry e) d = true)).
  { destruct Hor as [?|(e & He & Hn & Hs)]; [by left|right].
    destruct (Hto e He) as (e' & He' & En & E1 & E2 & E3). exists e'. rewrite E1, E2, E3. by rewrite En. }
  destruct (decide (dep_name d = n)) as [<-|Hn].
  - exists c, h'. split_and!; try done. intros v Hv. apply Ha. by apply (Hold h).
  - exists c, h. rewrite Hother by done. done.
Qed.

Lemma Inv_merge root todo s s' r d merged :
  Inv root ((r, d) :: todo) s -> required root s r d -> merges s s' (dep_name d) r merged ->
  settled s' d -> Inv root todo s'.
Proof.
  intros I Hr M Hs. assert (Hset : forall d', settled s d' -> settled s' d')
    by (intros d'; by eapply merges_settled).
  assert (Hreq : forall r d, required root s' r d <-> required root s r d)
    by (intros; unfold required; by rewrite (mg_visited _ _ _ _ _ M)).
  destruct I, M. destruct mg_record0 as (h' & Hh' & Hacc).
  constructor; rewrite ?mg_resolution0, ?mg_queue0, ?mg_visited0; try done.
  - by rewrite <- mg_resolution0.
  - intros e He. destruct (mg_from0 e He) as [[He' Hn]|(-> & -> & _)]; [|by exists h'].
    rewrite mg_other0 by done. auto.
  - intros p Hp Hv. destruct (decide (res_name p = dep_name d)) as [Hn|Hn].
    + rewrite Hn. destruct (mg_resolved0 p Hp Hn Hv) as (v & Hpv & Ha). exists h', v. by rewrite Hacc.
    + rewrite mg_other0 by done. auto.
  - intros r' d' Hr'. apply Hreq in Hr'. destruct (inv_settled0 r' d' Hr') as [Hin|?]; [|auto].
    apply elem_of_cons in Hin as [[= -> ->]|]; auto.
  - intros p Hp. destruct (inv_wanted0 p Hp) as (d' & Hd & Hn). exists d'. by rewrite Hreq.
  - intros e He. destruct (mg_from0 e He) as [[He' Hn]|(-> & _ & ->)].
    + destruct (inv_awaited0 e He') as (d' & Hd & Hn'). exists d'. by rewrite Hreq.
    + exists d. by rewrite Hreq.
Qed.

(** The history part of [merges], for whatever the pending table becomes. *)
Lemma merges_intro s s' n r table record merged :
  find_record n table = Some record ->
  (forall other, other <> n -> find_record other table = find_record other (history s)) ->
  (forall h, find_record n (history s) = Some h -> h = record) ->
  (forall v, allows merged v -> allows (accumulated record) v) ->
  resolution s' = resolution s -> queue s' = queue s -> visited s' = visited s ->
  history s' = update_named rec_name n (accumulate merged r) table ->
  NoDup (map res_name (resolution s) ++ map pend_name (pending s')) ->
  (forall e, e ∈ pending s' ->
    (e ∈ pending s /\ pend_name e <> n) \/
    (pend_name e = n /\ pend_constraint e = merged /\ first_requester e = r)) ->
  (forall e, e ∈ pending s -> exists e', e' ∈ pending s' /\ pend_name e' = pend_name e /\
    pend_source e' = pend_source e /\ pend_git e' = pend_git e /\ pend_registry e' = pend_registry e) ->
  (forall p, p ∈ resolution s -> res_name p = n -> peek (res_version p) <> 0 ->
    exists v, semver_parse (res_version p) = Some v /\ allows merged v) ->
  merges s s' n r merged.
Proof.
  intros Hr Ho Hold Hm E1 E2 E3 E4 Hnd Hfrom Hto Hres. unfold find_record in *.
  constructor; try done; rewrite ?E1, ?E4; try done.
  - exists (accumulate merged r record). unfold find_record. rewrite find_update_same by done. by rewrite Hr.
  - intros h Hh. by rewrite (Hold h Hh).
  - intros other Hn. unfold find_record. rewrite find_update_other by done. by apply Ho.
Qed.

Lemma name_disjoint (packages : list FacetResolved) (entries : list FacetPendingSemver) p e :
  NoDup (map res_name packages ++ map pend_name entries) ->
  p ∈ packages -> e ∈ entries -> pend_name e <> res_name p.
Proof.
  intros Hnd Hp He Hn. apply NoDup_app in Hnd as (_ & Hd & _).
  apply (Hd (res_name p)); [apply list_elem_of_fmap; by exists p|].
  rewrite <- Hn. apply list_elem_of_fmap. by exists e.
Qed.

Lemma merged_settled s s' d r c record merged :
  uses_version d = true -> semver_constraint_parse (version_text d) = Some c ->
  merges s s' (dep_name d) r merged -> (forall v, allows merged v -> allows (accumulated record) v /\ allows c v) ->
  ((exists p, p ∈ resolution s' /\ res_name p = dep_name d /\ peek (res_version p) <> 0 /\
      same_source (res_source p) (res_git p) (res_registry p) d = true) \/
   (exists e, e ∈ pending s' /\ pend_name e = dep_name d /\
      same_source (pend_source e) (pend_git e) (pend_registry e) d = true)) ->
  settled s' d.
Proof.
  intros Hu Hc M Ha Hor. unfold settled. rewrite Hu. destruct (mg_record _ _ _ _ _ M) as (h & Hh & E).
  exists c, h. split_and!; try done. intros v. rewrite E. apply Ha.
Qed.

Section Merge.

Context (root : FacetManifest) (todo : list (list Z * FacetDependency)) (s s' : Resolver) (n r : list Z).
Context (table : list FacetConstraintRecord) (record : FacetConstraintRecord) (merged : SemverConstraint).
Hypothesis I : Inv root todo s.
Hypothesis Hrec : find_record n table = Some record.
Hypothesis Hoth : forall other, other <> n -> find_record other table = find_record other (history s).
Hypothesis Hold : forall h, find_record n (history s) = Some h -> h = record.
Hypothesis Hacc : forall v, allows merged v -> allows (accumulated record) v.
Hypothesis E1 : resolution s' = resolution s.
Hypothesis E2 : queue s' = queue s.
Hypothesis E3 : visited s' = visited s.
Hypothesis E4 : history s' = update_named rec_name n (accumulate merged r) table.

Lemma merge_resolved p v :
  p ∈ resolution s -> res_name p = n -> semver_parse (res_version p) = Some v -> allows merged v ->
  pending s' = pending s -> merges s s' n r merged.
Proof.
  intros Hp Hn Hv Ha E5. eapply merges_intro; try done; rewrite ?E5; [apply I| | |].
  - intros e He. left. split; [done|]. rewrite <- Hn. eapply name_disjoint; [apply I|done|done].
  - intros e He. by exists e.
  - intros q Hq Hqn _. assert (q = p) as ->; [|eauto].
    apply (distinct_unique res_name (resolution s)); [|done|done|congruence].
    exact (proj1 (proj1 (NoDup_app _ _) (inv_names _ _ _ I))).
Qed.

Lemma merge_pending e :
  e ∈ pending s -> pend_name e = n ->
  pending s' = update_named pend_name n (tighten merged r) (pending s) -> merges s s' n r merged.
Proof.
  intros He Hn E5. pose proof (inv_names _ _ _ I) as Hnd. eapply merges_intro; try done; rewrite ?E5.
  - by rewrite update_names.
  - intros e' He'. apply update_elem in He' as [(e0 & He0 & Hn0 & ->)|?]; [by right|by left|].
    by apply NoDup_app in Hnd as (_ & _ & Hnd).
  - intros e0 He0. destruct (update_has pend_name n (tighten merged r) (pending s) e0 He0)
      as (e' & He' & [->|[-> _]]); eauto 10.
  - intros q Hq Hqn _. exfalso. eapply (name_disjoint (resolution s) (pending s) q e); eauto; congruence.
Qed.

Lemma merge_new e :
  n ∉ map res_name (resolution s) -> n ∉ map pend_name (pending s) -> pend_name e = n ->
  pend_constraint e = merged -> first_requester e = r ->
  pending s' = pending s ++ [e] -> merges s s' n r merged.
Proof.
  intros Hp Hq Hn Hc Hf E5. eapply merges_intro; try done; rewrite ?E5.
  - rewrite map_app, app_assoc. apply NoDup_app. split_and!; [apply I| |apply NoDup_singleton].
    intros x Hx Hx'. simpl in Hx'. rewrite Hn in Hx'. apply list_elem_of_singleton in Hx' as ->.
    by apply elem_of_app in Hx as [?|?].
  - intros e' [He'|He']%elem_of_app; [left|right].
    + split; [done|]. intros <-. apply Hq. apply list_elem_of_fmap. by exists e'.
    + by apply list_elem_of_singleton in He' as ->.
  - intros e0 He0. exists e0. split; [apply elem_of_app; by left|done].
  - intros q Hq' Hqn _. destruct Hp. rewrite <- Hqn. apply list_elem_of_fmap. by exists q.
Qed.

End Merge.

Lemma handle_version_spec root todo d r s :
  uses_version d = true -> Inv root ((r, d) :: todo) s -> required root s r d ->
  vwp (handle_version_dependency d r) s (fun ok s' =>
    ok = true -> Inv root todo s' /\ grows s s').
Proof.
  intros Hu I Hr. unfold handle_version_dependency.
  destruct (semver_constraint_parse (version_text d)) as [c|] eqn:Hc; [|by vstep].
  vstep. eapply vwp_mono; [apply find_or_create_spec|]. intros found s1 Hfound.
  destruct found as [record|]; [|by vstep].
  destruct (Hfound record eq_refl) as (table & -> & Hrec & Hoth & Hold).
  vstep. apply vwp_lift. destruct (intersect_allows (accumulated record) c) as (m & -> & Hm). simpl.
  destruct m as [merged|]; [|by vstep]. specialize (Hm merged eq_refl).
  assert (Hacc : forall v, allows merged v -> allows (accumulated record) v) by (intros; by apply Hm).
  repeat vstep. simpl.
  assert (Hgo : forall s', resolution s' = resolution s -> queue s' = queue s -> visited s' = visited s ->
    merges s s' (dep_name d) r merged ->
    ((exists p, p ∈ resolution s' /\ res_name p = dep_name d /\ peek (res_version p) <> 0 /\
        same_source (res_source p) (res_git p) (res_registry p) d = true) \/
     (exists e, e ∈ pending s' /\ pend_name e = dep_name d /\
        same_source (pend_source e) (pend_git e) (pend_registry e) d = true)) ->
    Inv root todo s' /\ grows s s').
  { intros s' E1 E2 E3 M Hor. split.
    - eapply Inv_merge; [exact I|done|exact M|]. by eapply merged_settled.
    - split; [unfold progress, work; rewrite E1, E2; lia|by rewrite E3]. }
  destruct (find_resolved (dep_name d) (resolution s)) as [p|] eqn:Hp.
  - apply find_named_some in Hp as [Hp Hn].
    destruct (same_source _ _ _ d) eqn:Hsrc; simpl; [|by vstep].
    destruct (Z.eqb_spec (peek (res_version p)) 0) as [|Hv]; [by vstep|].
    vstep. apply vwp_lift. destruct (semver_parse (res_version p)) as [v|] eqn:Hpv; [|by repeat vstep].
    destruct (satisfies_defined v merged) as [ok Hok]. rewrite Hok. simpl. destruct ok; [|by repeat vstep].
    vstep. intros _. apply Hgo; try done; [|left; by exists p].
    by eapply (merge_resolved root ((r, d) :: todo)).
  - apply find_named_none in Hp.
    destruct (find_pending (dep_name d) (pending s)) as [e|] eqn:He.
    + apply find_named_some in He as [He Hn].
      destruct (same_source _ _ _ d) eqn:Hsrc; simpl; [|by vstep]. repeat vstep. intros _.
      assert (M : merges s (set_pending
        (update_named pend_name (dep_name d) (tighten merged r) (pending s))
        (set_history (update_named rec_name (dep_name d) (accumulate merged r) table) (set_history table s)))
        (dep_name d) r merged) by (by eapply (merge_pending root ((r, d) :: todo))).
      apply Hgo; try done. right. destruct (mg_to _ _ _ _ _ M e He) as (e' & He' & Hn' & F1 & F2 & F3).
      exists e'. split; [done|]. rewrite Hn', F1, F2, F3. done.
    + apply find_named_none in He.
      destruct (_ =? _)%nat; [by vstep|]. repeat vstep. intros _. simpl.
      apply Hgo; try done.
      * eapply (merge_new root ((r, d) :: todo)); try done; simpl; done.
      * right. eexists. split; [apply elem_of_app; right; by apply list_elem_of_singleton|].
        simpl. split; [done|]. unfold same_source. rewrite bool_decide_true by done. simpl.
        by destruct (dep_source d); rewrite bool_decide_true.
Qed.

(** ** Manifests *)

Section Walk.

Context `{World} (scratch_root : list Z) (preference : option (list FacetResolved)) (root : FacetManifest).

Lemma handle_dependency_spec todo d r s :
  Inv root ((r, d) :: todo) s -> required root s r d ->
  vwp (handle_dependency scratch_root d r) s (fun ok s' => ok = true -> Inv root todo s' /\ grows s s').
Proof.
  intros I Hr. unfold handle_dependency. destruct (uses_version d) eqn:Hu.
  - by apply handle_version_spec.
  - by apply handle_exact_spec.
Qed.

Lemma resolve_deps_spec deps r todo s :
  Inv root (map (pair r) deps ++ todo) s -> (forall d, d ∈ deps -> required root s r d) ->
  vwp (resolve_manifest_dependencies scratch_root deps r) s (fun ok s' =>
    ok = true -> Inv root todo s' /\ grows s s').
Proof.
  revert s. induction deps as [|d deps IH]; intros s I Hr; simpl.
  { vstep. intros _. split; [done|apply walk_grows_refl]. }
  apply vwp_check; [done|].
  eapply vwp_mono; [apply (handle_dependency_spec (map (pair r) deps ++ todo)); [exact I|apply Hr; left]|].
  intros ok s1 Hok ->. destruct (Hok eq_refl) as [I1 G1].
  eapply vwp_mono; [apply IH; [exact I1|]|].
  - intros d' Hd. eapply grows_required; [exact G1|]. apply Hr. by right.
  - intros ok s2 H2 ->. destruct (H2 eq_refl) as [I2 G2]. split; [done|by eapply walk_grows_trans].
Qed.

Lemma read_manifest_spec path s :
  vwp (read_manifest path) s (fun _ s' => agrees s s').
Proof.
  unfold read_manifest. repeat vstep. unfold facet_read_hash. destruct a as [text|].
  - apply vwp_lift. destruct (diamond_manifest_parse a0 text 160) as [r|] eqn:E;
      [|by apply manifest_parse_returns in E].
    simpl. vstep. done.
  - apply vwp_lift. simpl. by vstep.
Qed.

Lemma Inv_visit s s' item rest m :
  Inv root [] s -> queue s = item :: rest ->
  resolution s' = resolution s -> pending s' = pending s -> history s' = history s ->
  queue s' = rest -> visited s' = visited s ++ [(item_cut_name item, Some m)] ->
  Inv root (map (pair (item_cut_name item)) (dependencies m)) s'.
Proof.
  intros I Eq E1 E2 E3 E4 E5.
  assert (Hreq : forall r d, required root s r d -> required root s' r d).
  { intros r d [?|(m' & Hm & Hd)]; [by left|right]. exists m'. rewrite E5. split; [apply elem_of_app; by left|done]. }
  assert (Hset : forall d, settled s d -> settled s' d) by (intros d; unfold settled; by rewrite E1, E2, E3).
  destruct I. rewrite Eq in *. simpl in *. constructor; rewrite ?E1, ?E2, ?E3, ?E4, ?E5; try done.
  - intros r d [?|(m' & Hm & Hd)].
    + destruct (inv_settled0 r d) as [?%elem_of_nil|?]; [by left|done|auto].
    + rewrite E5 in Hm. apply elem_of_app in Hm as [Hm|Hm].
      * destruct (inv_settled0 r d) as [?%elem_of_nil|?]; [right; by exists m'|done|auto].
      * apply list_elem_of_singleton in Hm as [= -> <-]. left. apply list_elem_of_fmap. by exists d.
  - intros p Hp. destruct (inv_wanted0 p Hp) as (d & Hd & Hn). eauto.
  - intros e He. destruct (inv_awaited0 e He) as (d & Hd & Hn). eauto.
  - intros p Hp. destruct (inv_work0 p Hp) as [(m' & Hm)|Hm].
    + left. exists m'. apply elem_of_app. by left.
    + apply elem_of_cons in Hm as [->|Hm]; [left|by right].
      exists (Some m). apply elem_of_app. right. by apply list_elem_of_singleton.
  - intros n m' [Hm|Hm]%elem_of_app; [by eapply inv_visited0|].
    apply list_elem_of_singleton in Hm as [= -> ->]. apply inv_queue0. left.
  - intros n Hn. apply inv_queue0. by right.
  - lia.
  - intros p Hp. eapply reachable_mono; [|by apply inv_reach0]. intros x Hx. apply elem_of_app. by left.
Qed.

Lemma process_queue_spec fuel s :
  Inv root [] s -> (work s < fuel)%nat ->
  vwp (process_work_queue scratch_root fuel) s (fun ok s' =>
    ok = true -> Inv root [] s' /\ grows s s' /\ queue s' = []).
Proof.
  revert s. induction fuel as [|fuel IH]; intros s I Hf; [lia|]. cbn [process_work_queue]. repeat vstep.
  destruct (queue s) as [|item rest] eqn:Eq.
  { vstep. intros _. split; [done|]. split; [apply walk_grows_refl|done]. }
  repeat vstep. eapply vwp_mono; [apply read_manifest_spec|].
  intros nested s1 (E1 & E2 & E3 & E4 & E5). simpl in *. destruct nested as [m|]; [|by vstep].
  destruct (negb _); [by vstep|]. do 2 vstep. apply vwp_check; [done|].
  assert (Hv := Inv_visit s (visit (item_cut_name item) (Some m) s1) item rest m I Eq E1 E2 E4 E3
    (f_equal (fun l => l ++ _) E5)).
  assert (G1 : grows s (visit (item_cut_name item) (Some m) s1) /\
               (work (visit (item_cut_name item) (Some m) s1) < work s)%nat).
  { unfold grows, progress, work. simpl. rewrite E1, E3, E5, Eq. simpl. split_and!; try lia.
    intros x Hx. apply elem_of_app. by left. }
  destruct G1 as [G1 Hw].
  eapply vwp_mono; [apply (resolve_deps_spec _ _ []); [by rewrite app_nil_r|]|].
  { intros d Hd. right. exists m. split; [|done]. simpl. apply elem_of_app. right. by apply list_elem_of_singleton. }
  intros ok s2 H2 ->. destruct (H2 eq_refl) as [I2 G2].
  eapply vwp_mono; [apply IH; [done|destruct G2 as [[? _] _]; lia]|].
  intros ok s3 H3 ->. destruct (H3 eq_refl) as (I3 & G3 & Q3). split; [done|]. split; [|done].
  by eapply walk_grows_trans; [|eapply walk_grows_trans].
Qed.

(** ** Pending names *)

Lemma agrees_trans a b c : agrees a b -> agrees b c -> agrees a c.
Proof. unfold agrees. intros (->&->&->&->&->) (->&->&->&->&->). done. Qed.

Lemma fetch_hash_spec url s : vwp (fetch_registry_hash url) s (fun _ s' => agrees s s').
Proof.
  unfold fetch_registry_hash. repeat vstep. destruct a as [body|]; [|by vstep].
  destruct (_ || _); [by vstep|]. repeat vstep. unfold facet_read_hash. apply vwp_lift.
  destruct (diamond_manifest_parse a body 160) eqn:E; [done|by apply manifest_parse_returns in E].
Qed.

Lemma best_version_spec entry s :
  vwp (registry_best_version scratch_root preference entry) s (fun r s' => agrees s s' /\
    forall text, r = Some text -> exists v, semver_parse text = Some v /\ allows (pend_constraint entry) v).
Proof.
  unfold registry_best_version. destruct (negb _); [by vstep|]. vstep.
  eapply vwp_mono; [apply fetch_hash_spec|]. intros root' s1 A. destruct root' as [hash|]; [|by vstep].
  destruct (diamond_manifest_get_u64 hash (bytes "protocol")); [|by vstep].
  destruct (diamond_manifest_get hash (bytes "versions")) as [[]|]; try by vstep.
  destruct (negb _); [by vstep|]. vstep. apply vwp_lift.
  destruct (scan_versions_spec children (pend_constraint entry)
    (match preference with Some packages => preferred_version packages entry | None => [] end) None)
    as (r & -> & Hr). simpl. vstep. split; [done|].
  intros text E. destruct r as [[[v t]|]|]; [|done|done]. injection E as ->.
  destruct (Hr v text eq_refl); [done|eauto].
Qed.

Definition released (entry : FacetPendingSemver) (version : list Z) (p : FacetResolved) : Prop :=
  res_name p = pend_name entry /\ res_source p = FACET_SOURCE_REGISTRY /\
  res_registry p = pend_registry entry /\ res_version p = version /\
  res_required_by p = first_requester entry.

Lemma release_spec entry version s :
  vwp (registry_release scratch_root entry version) s (fun r s' => agrees s s' /\
    forall p m, r = Some (p, m) -> released entry version p).
Proof.
  unfold registry_release. destruct (negb _); [by vstep|]. vstep.
  eapply vwp_mono; [apply fetch_hash_spec|]. intros hash s1 A. vstep. split; [done|].
  intros p m E. destruct hash as [hash|]; [|done]. unfold release_of_hash in E.
  repeat match type of E with
  | (if ?b then _ else _) = _ => destruct b
  | (match ?o with _ => _ end) = _ => destruct o; try done
  end; try done. by injection E as <- _.
Qed.

Lemma Inv_promote s s' e rest p m v :
  Inv root [] s -> pending s = e :: rest -> pending s' = rest -> entered s s' p m ->
  (List.length (resolution s) < FACET_MAX_DEPENDENCIES)%nat ->
  res_name p = pend_name e -> res_required_by p = first_requester e ->
  (forall d, same_source (pend_source e) (pend_git e) (pend_registry e) d = true ->
             same_source (res_source p) (res_git p) (res_registry p) d = true) ->
  semver_parse (res_version p) = Some v -> allows (pend_constraint e) v ->
  Inv root (match m with Some nested => map (pair (res_name p)) (dependencies nested) | None => [] end) s'.
Proof.
  intros I Ep Ep' Hen Hl Hn Hreq Hsrc Hv Ha. pose proof (inv_names _ _ _ I) as Hnd.
  rewrite Ep in Hnd. simpl in Hnd.
  eapply Inv_enter; [exact I|exact Hen|done| | | |by intros ?%(semver_parse_nonempty _ _ Hv)| |].
  - rewrite Ep', map_app, <- app_assoc. simpl. by rewrite Hn.
  - rewrite Ep, Ep'. intros e' He'. by right.
  - intros _. destruct (inv_pending _ _ _ I e) as (h & Hh & Hacc); [rewrite Ep; left|].
    exists h, v. rewrite Hn, Hacc. done.
  - destruct (inv_awaited _ _ _ I e) as (d & Hd & Hdn); [rewrite Ep; left|].
    exists d. by rewrite Hreq, Hn.
  - intros r d Hr. destruct (entered_new_required _ _ _ _ _ _ _ Hen Hr) as [Ho|(nested & -> & -> & Hd)].
    2:{ left. apply list_elem_of_fmap. by exists d. }
    right. destruct (inv_settled _ _ _ I r d Ho) as [?%elem_of_nil|Hs]; [done|].
    destruct Hen as (E1 & E4 & _). unfold settled in *. rewrite E1, E4, Ep'. rewrite Ep in Hs.
    assert (Hp : p ∈ resolution s ++ [p]) by (apply elem_of_app; right; by apply list_elem_of_singleton).
    destruct (uses_version d).
    + destruct Hs as (c & h & Hc & Hh & Hal & Hor). exists c, h. split_and!; try done.
      destruct Hor as [(q & Hq & Hq')|(e' & He' & Hne & Hse)].
      * left. exists q. split; [apply elem_of_app; by left|done].
      * apply elem_of_cons in He' as [->|He']; [left|right; by exists e'].
        exists p. split_and!; [done|congruence| |auto]. by eapply semver_parse_nonempty.
    + destruct Hs as (q & Hq & Hq'). exists q. split; [apply elem_of_app; by left|done].
Qed.

Lemma same_source_git e d name commit tag by_name :
  pend_source e = FACET_SOURCE_GIT ->
  same_source (pend_source e) (pend_git e) (pend_registry e) d = true ->
  let p := {| res_name := name; res_source := FACET_SOURCE_GIT; res_git := pend_git e;
              res_registry := []; res_sha256 := []; res_size := 0; res_ref := tag;
              res_commit := commit; res_version := tag; res_required_by := by_name |} in
  same_source (res_source p) (res_git p) (res_registry p) d = true.
Proof.
  intros Es. unfold same_source. simpl. rewrite Es.
  intros [Hb Hm]%andb_true_iff. rewrite Hb. apply bool_decide_eq_true in Hb. by rewrite <- Hb in *.
Qed.

(** A pending entry is resolved to one of the versions its constraint allows. *)
Definition resolves (s s' : Resolver) : Prop :=
  Inv root [] s' /\ grows s s' /\ (List.length (resolution s) < List.length (resolution s'))%nat.

Lemma resolve_git_spec s e rest :
  Inv root [] s -> pending s = e :: rest -> pend_source e = FACET_SOURCE_GIT ->
  vwp (resolve_git scratch_root e) (set_pending rest s) (fun ok s' => ok = true -> resolves s s').
Proof.
  intros I Ep Es. unfold resolve_git. do 2 vstep. destruct (negb _); [by vstep|]. do 2 vstep.
  destruct a0 as [output|]; [|by vstep].
  destruct (chosen_tag output (pend_constraint e)) as (tags & best & Ht & Hb & Hbest).
  vstep. apply vwp_lift. rewrite Ht. simpl. vstep. apply vwp_lift. rewrite Hb. simpl.
  destruct best as [tag|]; [|by vstep]. destruct (Hbest tag eq_refl) as (v & _ & Hv & Ha).
  eapply vwp_mono; [apply fetch_git_spec; apply (inv_room _ _ _ I)|]. intros ok s' Hok ->.
  destruct (Hok eq_refl) as (Hl & Ep' & commit & Hen).
  assert (Hen' : entered s s' _ None) by exact Hen. split_and!.
  - eapply (Inv_promote s s' e rest _ None v); try done. intros d. by apply same_source_git.
  - by eapply entered_grows.
  - destruct Hen as (-> & _). rewrite length_app. simpl. lia.
Qed.

Lemma same_source_registry e version p d :
  pend_source e = FACET_SOURCE_REGISTRY -> released e version p ->
  same_source (pend_source e) (pend_git e) (pend_registry e) d = true ->
  same_source (res_source p) (res_git p) (res_registry p) d = true.
Proof.
  intros Es (_ & E1 & E2 & _ & _). unfold same_source. rewrite Es, E1, E2.
  intros [Hb Hm]%andb_true_iff. rewrite Hb. apply bool_decide_eq_true in Hb. by rewrite <- Hb in *.
Qed.

Lemma resolve_registry_spec s e rest :
  Inv root [] s -> pending s = e :: rest -> pend_source e = FACET_SOURCE_REGISTRY ->
  vwp (resolve_registry scratch_root preference e) (set_pending rest s)
    (fun ok s' => ok = true -> resolves s s').
Proof.
  intros I Ep Es. unfold resolve_registry. vstep. eapply vwp_mono; [apply best_version_spec|].
  intros best s1 ((E1 & E2 & E3 & E4 & E5) & Hbest). destruct best as [version|]; [|by vstep].
  destruct (Hbest version eq_refl) as (v & Hv & Ha). do 2 vstep.
  destruct (Nat.eqb_spec (List.length (resolution s1)) FACET_MAX_DEPENDENCIES) as [|Hl]; [by vstep|].
  vstep. eapply vwp_mono; [apply release_spec|]. intros release s2 ((F1 & F2 & F3 & F4 & F5) & Hrel).
  destruct release as [[p m]|]; [|by vstep]. specialize (Hrel p m eq_refl) as Hrel'. do 2 vstep.
  pose proof (inv_room _ _ _ I) as Hroom. simpl in *. rewrite E1 in Hl.
  set (s3 := visit (pend_name e) (Some m) (set_resolution (resolution s2 ++ [p]) s2)).
  destruct Hrel' as (R1 & R2 & R3 & R4 & R5).
  assert (Hen : entered s s3 p (Some m)).
  { unfold entered, s3. simpl. rewrite F1, F3, F4, F5, E1, E3, E4, E5, R1. split_and!; try done. by left. }
  assert (I3 : Inv root (map (pair (pend_name e)) (dependencies m)) s3).
  { rewrite <- R1. eapply (Inv_promote s s3 e rest p (Some m) v); try done.
    - simpl. by rewrite F2, E2.
    - lia.
    - intros d. by apply (same_source_registry e version).
    - by rewrite R4. }
  assert (G3 : grows s s3) by (eapply entered_grows; [lia|exact Hen]).
  eapply vwp_mono; [apply (resolve_deps_spec _ _ []); [by rewrite app_nil_r|]|].
  { intros d Hd. right. exists m. split; [|done]. simpl. apply elem_of_app. right. by apply list_elem_of_singleton. }
  intros ok s4 H4 ->. destruct (H4 eq_refl) as [I4 G4]. split_and!; [done|by eapply walk_grows_trans|].
  destruct G4 as [[_ G4] _]. destruct Hen as (E & _). rewrite E, length_app in G4. simpl in G4. lia.
Qed.

Lemma resolve_one_pending_spec s e rest :
  Inv root [] s -> pending s = e :: rest ->
  vwp (resolve_one_pending scratch_root preference) s (fun ok s' => ok = true -> resolves s s').
Proof.
  intros I Ep. unfold resolve_one_pending. do 2 vstep. rewrite Ep. do 2 vstep.
  destruct (pend_source e) eqn:Es; [by apply resolve_git_spec|by apply resolve_registry_spec].
Qed.

(** ** The whole graph *)

Definition complete (s : Resolver) : Prop := Inv root [] s /\ pending s = [] /\ queue s = [].

Lemma work_bound s : Inv root [] s -> (work s < ROUNDS)%nat.
Proof.
  intros I. pose proof (inv_small _ _ _ I). pose proof (inv_room _ _ _ I).
  unfold work, ROUNDS. lia.
Qed.

Lemma drain_spec fuel s :
  Inv root [] s -> queue s = [] -> (FACET_MAX_DEPENDENCIES - List.length (resolution s) < fuel)%nat ->
  vwp (drain_pending scratch_root preference fuel) s (fun ok s' => ok = true -> complete s').
Proof.
  revert s. induction fuel as [|fuel IH]; intros s I Hq Hf; [lia|]. cbn [drain_pending]. do 2 vstep.
  destruct (pending s) as [|e rest] eqn:Ep; [by vstep|].
  apply vwp_check; [done|]. eapply vwp_mono; [by eapply resolve_one_pending_spec|].
  intros ok s1 H1 ->. destruct (H1 eq_refl) as (I1 & _ & L1).
  apply vwp_check; [done|]. eapply vwp_mono; [apply process_queue_spec; [done|by apply work_bound]|].
  intros ok s2 H2 ->. destruct (H2 eq_refl) as (I2 & [[_ L2] _] & Q2). apply IH; [done|done|].
  pose proof (inv_room _ _ _ I2). lia.
Qed.

Lemma Inv_start s : Inv root (map (pair (manifest_name root)) (dependencies root)) (fresh_attempt s).
Proof.
  constructor; simpl; try (intros; set_solver); try lia; [constructor|].
  intros r d [[-> Hd]|(m & Hm%elem_of_nil & _)]; [|done]. left. apply list_elem_of_fmap. by exists d.
Qed.

Lemma attempt_spec s :
  vwp (attempt_resolve_graph scratch_root preference root) (fresh_attempt s)
    (fun ok s' => ok = true -> complete s').
Proof.
  unfold attempt_resolve_graph. apply vwp_check; [done|].
  eapply vwp_mono; [apply (resolve_deps_spec _ _ []); [rewrite app_nil_r; apply Inv_start|]|].
  { intros d Hd. by left. }
  intros ok s1 H1 ->. destruct (H1 eq_refl) as [I1 _].
  apply vwp_check; [done|]. eapply vwp_mono; [apply process_queue_spec; [done|by apply work_bound]|].
  intros ok s2 H2 ->. destruct (H2 eq_refl) as (I2 & _ & Q2). apply drain_spec; [done|done|].
  unfold ROUNDS. lia.
Qed.

Lemma attempts_spec count first s :
  vwp (attempts scratch_root preference count first root) s (fun ok s' => ok = true -> complete s').
Proof.
  revert first s. induction count as [|count IH]; intros first s; cbn [attempts]; [by vstep|].
  vstep. assert (Hmade : forall made : bool, forall t, vwp (if negb made then vm_ret false else
      let! _ := modify fresh_attempt in
      let! ok := attempt_resolve_graph scratch_root preference root in
      if ok : bool then vm_ret true else
      let! s := get_state in
      if needs_restart s then attempts scratch_root preference count false root else vm_ret false) t
    (fun ok s' => ok = true -> complete s')).
  { intros [] t; simpl; [|by vstep]. do 3 vstep. eapply vwp_mono; [apply attempt_spec|].
    intros ok s1 H1. destruct ok; [vstep; intros _; by apply H1|]. do 2 vstep.
    destruct (needs_restart s1); [apply IH|by vstep]. }
  destruct first; [vstep; apply Hmade|]. vstep. apply Hmade.
Qed.

End Walk.

(** A handled dependency is answered once nothing is pending. *)
Lemma settled_answered root s d :
  Inv root [] s -> pending s = [] -> settled s d -> answered (resolution s) d.
Proof.
  intros I Ep. unfold settled, answered. destruct (uses_version d).
  - intros (c & h & Hc & Hh & Ha & [(p & Hp & Hn & Hv & Hs)|(e & He & _)]).
    2:{ rewrite Ep in He. by apply elem_of_nil in He. }
    destruct (inv_version _ _ _ I p Hp Hv) as (h' & v & Hh' & Hpv & Hal). rewrite Hn in Hh'.
    simplify_eq. exists p. split_and!; try done. exists c, v. auto.
  - intros (p & Hp & Hn & Hg). by exists p.
Qed.

(** What [resolve_full_graph] promises of the cuts it selected and of the
    manifests it read for them. *)
Record Resolves (root : FacetManifest) (packages : list FacetResolved)
    (visits : list (list Z * option FacetManifest)) : Prop := {
  one_per_name : NoDup (map res_name packages);
  within_limit : (List.length packages <= FACET_MAX_DEPENDENCIES)%nat;
  root_answered : forall d, d ∈ dependencies root -> answered packages d;
  cuts_answered : forall n m d, (n, Some m) ∈ visits -> d ∈ dependencies m -> answered packages d;
  all_visited : forall p, p ∈ packages -> exists m, (res_name p, m) ∈ visits;
  none_spare : forall p, p ∈ packages -> reachable root visits (res_name p);
}.

Lemma complete_resolves root s : complete root s -> Resolves root (resolution s) (visited s).
Proof.
  intros (I & Ep & Eq). assert (Hset : forall r d, required root s r d -> answered (resolution s) d).
  { intros r d Hr. destruct (inv_settled _ _ _ I r d Hr) as [?%elem_of_nil|Hs]; [done|].
    by eapply settled_answered. }
  constructor; try apply I.
  - exact (proj1 (proj1 (NoDup_app _ _) (inv_names _ _ _ I))).
  - intros d Hd. apply (Hset (manifest_name root)). by left.
  - intros n m d Hm Hd. apply (Hset n). right. by exists m.
  - intros p Hp. destruct (inv_work _ _ _ I p Hp) as [?|Hin]; [done|].
    rewrite Eq in Hin. by apply elem_of_nil in Hin.
Qed.

Lemma full_graph_spec `{World} scratch_root preference root s :
  vwp (resolve_full_graph scratch_root preference root) s (fun ok s' =>
    ok = true -> Resolves root (resolution s') (visited s')).
Proof.
  unfold resolve_full_graph. do 2 vstep. eapply vwp_mono; [apply attempts_spec|].
  intros ok s' Hok E. by apply complete_resolves, Hok.
Qed.

(** C11: Dependency resolution terminates and is sound.  Whatever git, the
    registries, the file system and the allocator answer (the answers may change
    between questions), [resolve_full_graph] returns, with no undefined behaviour
    and within the fuel of its loops; when it reports success, the cuts selected
    have distinct names, at most 64 of them, every dependency of the project and of
    every manifest read is answered by a selected cut (the same source, and a
    version its constraint allows, or the exact ref), a manifest was looked for in
    every selected cut, and every selected cut is reachable from the project. *)
Theorem resolve_full_graph_sound `{World} scratch_root preference root s :
  exists ok s', resolve_full_graph scratch_root preference root s = Some (ok, s') /\
    (ok = true -> Resolves root (resolution s') (visited s')).
Proof.
  pose proof (full_graph_spec scratch_root preference root s) as Hw. unfold vwp in Hw.
  destruct (resolve_full_graph scratch_root preference root s) as [[ok s']|]; [|done]. by exists ok, s'.
Qed.

(** C38: The tag chosen for a git dependency is the best: [pick_best_matching_tag]
    returns nothing exactly when no tag is a version the constraint allows, and
    otherwise a tag whose version is allowed and not below that of any other
    allowed tag (the tag cut to its 127-character buffer). *)
Theorem pick_best_matching_tag_best tags c :
  exists r, pick_best_matching_tag tags c = Some r /\
  match r with
  | None => forall tag v, tag ∈ tags -> semver_parse tag = Some v -> ~ allows c v
  | Some chosen =>
      exists tag v, tag ∈ tags /\ chosen = truncated FACET_MAX_REF tag /\
        semver_parse tag = Some v /\ allows c v /\
        forall tag' v', tag' ∈ tags -> semver_parse tag' = Some v' -> allows c v' ->
          version_compare v v' <> Lt
  end.
Proof.
  destruct (pick_tag_spec tags c) as (r & Hr & Hbest). exists r. split; [done|].
  destruct r as [chosen|]; [by apply Hbest|]. intros tag v Hin Hp Ha. unfold pick_best_matching_tag in Hr.
  destruct (best_tag_spec tags c None) as (r & E & _ & Hmax). rewrite E in Hr.
  destruct (Hmax v tag) as (v2 & t2 & -> & _); [by right|done].
Qed.
