(* ===== verification/FacetLock.v ===== *)
(** * FacetLock: lockfiles

    [parse_lockfile] and the text [write_lockfile] writes (tools/facet.c), and
    [lock_covers_manifest] (tools/facet_resolve.c).  A lockfile that was
    written reads back as the cuts it was written for, and the lock of a
    resolution covers the manifest it was resolved from. *)

From S2P Require Import Prelude Digits CText Semver.
From S2P Require Import ManifestLiteral.
From S2P Require Import ManifestGrammar.
From S2P Require Import Facet.
From S2P Require Import FacetResolve.
From S2P Require Import FacetResolveOk.
From Stdlib Require Import ZArith Lia Bool List String Ascii.
From stdpp Require Import base numbers list.

Local Open Scope Z_scope.
Local Open Scope c_scope.

(** ** Writing *)

Definition quoted (text : list Z) : list Z := 34 :: text ++ [34].

(** A key, its colon and the text of its value. *)
Definition member (key : string) (text : list Z) : list Z := quoted (bytes key) ++ [58; 32] ++ text.

Definition separator : list Z := [44; 32].

(** The text written for one package: its name and its members. *)
Definition lock_members (p : FacetResolved) : list Z :=
  match res_source p with
  | FACET_SOURCE_REGISTRY =>
      member "source" (quoted (bytes "registry")) ++ separator ++
      member "registry" (quoted (res_registry p)) ++ separator ++
      member "version" (quoted (res_version p)) ++ separator ++
      member "sha256" (quoted (res_sha256 p)) ++ separator ++
      member "size" (printf_lu (res_size p))
  | FACET_SOURCE_GIT =>
      member "source" (quoted (bytes "git")) ++ separator ++
      member "git" (quoted (res_git p)) ++ separator ++
      member "commit" (quoted (res_commit p)) ++
      (if negb (peek (res_version p) =? 0)
       then separator ++ member "version" (quoted (res_version p)) else [])
  end.

Definition lock_entry (p : FacetResolved) : list Z :=
  quoted (res_name p) ++ [58; 32; 123] ++ lock_members p ++ [125] ++ separator.

(** What [write_lockfile] prints before it renames the file into place. *)
Definition lockfile_text (packages : list FacetResolved) : list Z :=
  [123] ++ concat (map lock_entry packages) ++ [125; 10].

(** ** Reading *)

(** The members an entry may have. *)
Definition lock_key_allowed (registry : bool) (key : list Z) : bool :=
  bool_decide (key = bytes "source") || bool_decide (key = bytes "version") ||
  (negb registry && (bool_decide (key = bytes "git") || bool_decide (key = bytes "commit"))) ||
  (registry && (bool_decide (key = bytes "registry") || bool_decide (key = bytes "sha256") ||
                bool_decide (key = bytes "size"))).

(** The source an entry names; git when it names none. *)
Definition lock_source (entry : DiamondManifestValue) : option FacetSource :=
  match diamond_manifest_get entry (bytes "source") with
  | None => Some FACET_SOURCE_GIT
  | Some (MANIFEST_STRING text) =>
      if bool_decide (text = bytes "registry") then Some FACET_SOURCE_REGISTRY
      else if bool_decide (text = bytes "git") then Some FACET_SOURCE_GIT else None
  | Some _ => None
  end.

Definition parse_registry_lock (name : list Z) (entry : DiamondManifestValue) : option FacetResolved :=
  let? registry := diamond_manifest_get_string entry (bytes "registry") FACET_MAX_URL in
  let? version := diamond_manifest_get_string entry (bytes "version") FACET_MAX_REF in
  let? sha256 := diamond_manifest_get_string entry (bytes "sha256") 65 in
  let? size := diamond_manifest_get_u64 entry (bytes "size") in
  if publishable_name name && valid_registry_url registry && canonical_registry_version version &&
     valid_sha256 sha256 && negb (size =? 0) && (size <=? FACET_MAX_ARCHIVE_SIZE)
  then Some {| res_name := name; res_source := FACET_SOURCE_REGISTRY; res_git := [];
               res_registry := registry; res_sha256 := sha256; res_size := size; res_ref := [];
               res_commit := []; res_version := version; res_required_by := [] |}
  else None.

Definition parse_git_lock (name : list Z) (entry : DiamondManifestValue) : option FacetResolved :=
  let? git := diamond_manifest_get_string entry (bytes "git") FACET_MAX_URL in
  let? commit := diamond_manifest_get_string entry (bytes "commit") FACET_MAX_COMMIT in
  if negb (is_safe_field name && is_safe_field git && is_safe_field commit) then None else
  let? version :=
    (match diamond_manifest_get entry (bytes "version") with
     | None => Some []
     | Some _ =>
         let? version := diamond_manifest_get_string entry (bytes "version") FACET_MAX_REF in
         if is_safe_field version then Some version else None
     end) in
  Some {| res_name := name; res_source := FACET_SOURCE_GIT; res_git := git; res_registry := [];
          res_sha256 := []; res_size := 0; res_ref := []; res_commit := commit;
          res_version := version; res_required_by := [] |}.

(** One round of the loop of [parse_lockfile]. *)
Definition parse_lock_entry (name : list Z) (entry : DiamondManifestValue) : option FacetResolved :=
  match entry with
  | MANIFEST_HASH fields =>
      if (FACET_MAX_NAME <=? List.length name)%nat then None else
      let? source := lock_source entry in
      let registry := bool_decide (source = FACET_SOURCE_REGISTRY) in
      if negb (forallb (fun field => lock_key_allowed registry (fst field)) fields) then None
      else if registry then parse_registry_lock name entry else parse_git_lock name entry
  | _ => None
  end.

Fixpoint parse_lock_entries (children : list (list Z * DiamondManifestValue))
    (packages : list FacetResolved) : option (list FacetResolved) :=
  match children with
  | [] => Some packages
  | (name, entry) :: rest =>
      if (List.length packages =? FACET_MAX_DEPENDENCIES)%nat then None else
      let? package := parse_lock_entry name entry in
      parse_lock_entries rest (packages ++ [package])
  end.

(** [parse_lockfile] into an empty resolution, on what [read_whole_file] read. *)
Definition parse_lockfile (malloc_ok : nat -> bool) (text : option (list Z)) :
    option (option (list FacetResolved)) :=
  let? hash := facet_read_hash malloc_ok text in
  Some (match hash with Some hash => parse_lock_entries (children_of hash) [] | None => None end).

(** ** Is the lock still good? *)

(** The last entry of the name. *)
Fixpoint find_locked (name : list Z) (packages : list FacetResolved) (found : option FacetResolved) :
    option FacetResolved :=
  match packages with
  | [] => found
  | p :: rest => find_locked name rest (if bool_decide (res_name p = name) then Some p else found)
  end.

Definition lock_covers_dependency (packages : list FacetResolved) (d : FacetDependency) : option bool :=
  match find_locked (dep_name d) packages None with
  | None => Some false
  | Some locked =>
      if negb (same_source (res_source locked) (res_git locked) (res_registry locked) d) then Some false
      else if uses_version d then
        match semver_constraint_parse (version_text d), semver_parse (res_version locked) with
        | Some constraint, Some version => semver_satisfies version constraint
        | _, _ => Some false
        end
      else Some (negb (bool_decide (dep_ref_kind d = FACET_REF_COMMIT) &&
                       negb (starts_with (dep_ref d) (res_commit locked))))
  end.

Fixpoint covers_dependencies (packages : list FacetResolved) (deps : list FacetDependency) : option bool :=
  match deps with
  | [] => Some true
  | d :: rest =>
      let? ok := lock_covers_dependency packages d in
      if negb ok then Some false else covers_dependencies packages rest
  end.

Definition lock_covers_manifest (packages : list FacetResolved) (manifest : FacetManifest) : option bool :=
  covers_dependencies packages (dependencies manifest).

(** ** Reading back what was written *)

(** [#{] starts an interpolation, which a literal must not have. *)
Fixpoint interpolates (text : list Z) : bool :=
  match text with
  | [] => false
  | c :: rest => ((c =? 35) && (peek rest =? 123)) || interpolates rest
  end.

(** Text that stands for itself between quotes. *)
Definition plain (text : list Z) : bool := is_safe_field text && negb (interpolates text).

Lemma plain_body text : plain text = true -> string_body text text.
Proof.
  unfold plain, is_safe_field. induction text as [|c text IH]; [constructor|]. simpl.
  rewrite !andb_true_iff, !negb_true_iff, !orb_false_iff, !Z.eqb_neq, Z.ltb_ge, andb_false_iff, !Z.eqb_neq.
  intros [[[[? ?] ?] Hs] [Hi Hr]]. constructor; try lia. apply IH. by rewrite Hs, Hr.
Qed.

(** Characters a name, version or digest is made of. *)
Lemma ordinary_plain text :
  forallb (fun c => (36 <=? c) && negb (c =? 92)) text = true -> plain text = true.
Proof.
  unfold plain, is_safe_field. induction text as [|c text IH]; [done|]. simpl.
  intros [[Hc Hn]%andb_true_iff Ht]%andb_true_iff. specialize (IH Ht).
  apply andb_true_iff in IH as [-> Hi]. apply negb_true_iff in Hi as ->.
  apply Z.leb_le in Hc. apply negb_true_iff in Hn as ->.
  rewrite (proj2 (Z.eqb_neq c 34)), (proj2 (Z.ltb_ge c 32)), (proj2 (Z.eqb_neq c 35)) by lia. done.
Qed.

(** A package whose lock entry reads back. *)
Definition lockable (p : FacetResolved) : bool :=
  match res_source p with
  | FACET_SOURCE_REGISTRY =>
      publishable_name (res_name p) && valid_registry_url (res_registry p) && plain (res_registry p) &&
      (List.length (res_registry p) <? FACET_MAX_URL)%nat &&
      canonical_registry_version (res_version p) && plain (res_version p) &&
      (List.length (res_version p) <? FACET_MAX_REF)%nat &&
      valid_sha256 (res_sha256 p) && (0 <? res_size p) && (res_size p <=? FACET_MAX_ARCHIVE_SIZE)
  | FACET_SOURCE_GIT =>
      plain (res_name p) && (List.length (res_name p) <? FACET_MAX_NAME)%nat &&
      plain (res_git p) && (List.length (res_git p) <? FACET_MAX_URL)%nat &&
      plain (res_commit p) && (List.length (res_commit p) <? FACET_MAX_COMMIT)%nat &&
      plain (res_version p) && (List.length (res_version p) <? FACET_MAX_REF)%nat
  end.

(** What a lock keeps of a package. *)
Definition locked (p : FacetResolved) : FacetResolved :=
  match res_source p with
  | FACET_SOURCE_REGISTRY =>
      {| res_name := res_name p; res_source := FACET_SOURCE_REGISTRY; res_git := [];
         res_registry := res_registry p; res_sha256 := res_sha256 p; res_size := res_size p;
         res_ref := []; res_commit := []; res_version := res_version p; res_required_by := [] |}
  | FACET_SOURCE_GIT =>
      {| res_name := res_name p; res_source := FACET_SOURCE_GIT; res_git := res_git p;
         res_registry := []; res_sha256 := []; res_size := 0; res_ref := [];
         res_commit := res_commit p; res_version := res_version p; res_required_by := [] |}
  end.

(** Members of a Hash: key, text and value. *)
Fixpoint joined (trailing : list Z) (members : list (list Z * list Z * DiamondManifestValue)) : list Z :=
  match members with
  | [] => []
  | [(key, text, _)] => quoted key ++ [58; 32] ++ text ++ trailing
  | (key, text, _) :: rest => quoted key ++ [58; 32] ++ text ++ separator ++ joined trailing rest
  end.

Definition bindings (members : list (list Z * list Z * DiamondManifestValue)) :
    list (list Z * DiamondManifestValue) :=
  map (fun m => (fst (fst m), snd m)) members.

Lemma joined_entries levels trailing members before :
  trailing = [] \/ trailing = separator -> members <> [] ->
  Forall (fun m => plain (fst (fst m)) = true /\ value_text levels (32 :: snd (fst m)) (snd m)) members ->
  NoDup (map fst (before ++ bindings members)) ->
  entries true levels before (joined trailing members) (before ++ bindings members).
Proof.
  intros Ht. revert before. induction members as [|[[key text] v] members IH]; intros before Hne Hm Hnd; [done|].
  apply Forall_cons in Hm as [[Hk Hv] Hm]. cbn [fst snd] in Hk, Hv.
  assert (Hkey : key_text true before (34 :: key ++ 34 :: [] ++ [58]) key).
  { constructor; [by apply plain_body| |constructor]. rewrite map_app in Hnd.
    apply NoDup_app in Hnd as (_ & Hd & _). intros Hin. apply (Hd key Hin). simpl. left. }
  destruct members as [|m members].
  - cbn [joined bindings map fst snd]. destruct Ht as [-> | ->].
    + replace (quoted key ++ [58; 32] ++ text ++ []) with ((34 :: key ++ 34 :: [] ++ [58]) ++ (32 :: text) ++ [])
        by (unfold quoted; simpl; by rewrite <- !app_assoc).
      apply entries_last; [done|done|constructor].
    + replace (quoted key ++ [58; 32] ++ text ++ separator)
        with ((34 :: key ++ 34 :: [] ++ [58]) ++ (32 :: text) ++ [] ++ 44 :: [32])
        by (unfold quoted, separator; simpl; by rewrite <- !app_assoc).
      apply entries_comma; try done; repeat constructor.
  - change (joined trailing ((key, text, v) :: m :: members))
      with (quoted key ++ [58; 32] ++ text ++ separator ++ joined trailing (m :: members)).
    replace (quoted key ++ [58; 32] ++ text ++ separator ++ joined trailing (m :: members))
      with ((34 :: key ++ 34 :: [] ++ [58]) ++ (32 :: text) ++ [] ++ 44 :: [32] ++ joined trailing (m :: members))
      by (unfold quoted, separator; cbn [app]; rewrite <- !app_assoc; done).
    assert (Hsplit : before ++ bindings ((key, text, v) :: m :: members) =
                     (before ++ [(key, v)]) ++ bindings (m :: members)) by (by rewrite <- app_assoc).
    rewrite Hsplit in Hnd |- *. eapply entries_more; [exact Hkey|exact Hv|constructor|repeat constructor|].
    by apply IH.
Qed.

Definition string_member (key : string) (text : list Z) : list Z * list Z * DiamondManifestValue :=
  (bytes key, quoted text, MANIFEST_STRING text).

(** The members of a package's entry. *)
Definition entry_members (p : FacetResolved) : list (list Z * list Z * DiamondManifestValue) :=
  match res_source p with
  | FACET_SOURCE_REGISTRY =>
      [string_member "source" (bytes "registry"); string_member "registry" (res_registry p);
       string_member "version" (res_version p); string_member "sha256" (res_sha256 p);
       (bytes "size", printf_lu (res_size p), MANIFEST_INTEGER (printf_lu (res_size p)))]
  | FACET_SOURCE_GIT =>
      [string_member "source" (bytes "git"); string_member "git" (res_git p);
       string_member "commit" (res_commit p)] ++
      (if negb (peek (res_version p) =? 0) then [string_member "version" (res_version p)] else [])
  end.

Definition entry_value (p : FacetResolved) : DiamondManifestValue :=
  MANIFEST_HASH (bindings (entry_members p)).

Lemma entry_members_text p : lock_members p = joined [] (entry_members p).
Proof.
  unfold lock_members, entry_members, member. destruct (res_source p); [destruct (negb _)|];
    cbn [joined app string_member]; rewrite ?app_nil_r, <- ?app_assoc; reflexivity.
Qed.

Lemma lock_text_joined packages :
  packages <> [] ->
  concat (map lock_entry packages) =
  joined separator (map (fun p => (res_name p, [123] ++ lock_members p ++ [125], entry_value p)) packages).
Proof.
  induction packages as [|p packages IH]; [done|]. intros _.
  cbn [map concat]. unfold lock_entry at 1. destruct packages as [|q packages].
  - cbn [map concat joined]. rewrite app_nil_r. change [58; 32; 123] with ([58; 32] ++ [123]).
    by rewrite <- !app_assoc.
  - rewrite IH by done. cbn [map joined]. change [58; 32; 123] with ([58; 32] ++ [123]).
    by rewrite <- !app_assoc.
Qed.

(** Splits a conjunction of checks into its parts. *)
Ltac split_checks :=
  repeat match goal with
  | H : _ && _ = true |- _ => apply andb_true_iff in H as [? ?]
  | H : (_ <? _)%nat = true |- _ => apply Nat.ltb_lt in H
  | H : (_ <? _) = true |- _ => apply Z.ltb_lt in H
  | H : (_ <=? _) = true |- _ => apply Z.leb_le in H
  end.

Lemma sha256_plain text : valid_sha256 text = true -> plain text = true /\ List.length text = 64%nat.
Proof.
  unfold valid_sha256. intros [Hl Hc]%andb_true_iff. apply Nat.eqb_eq in Hl. split; [|done].
  apply ordinary_plain. rewrite forallb_forall in *. intros c Hin. specialize (Hc c Hin).
  apply orb_true_iff in Hc as [Hc|Hc]; split_checks;
    apply andb_true_iff; split; [apply Z.leb_le|apply negb_true_iff, Z.eqb_neq| |apply negb_true_iff, Z.eqb_neq];
    try apply Z.leb_le; lia.
Qed.

Lemma publishable_plain text :
  publishable_name text = true -> plain text = true /\ (List.length text < FACET_MAX_NAME)%nat.
Proof.
  unfold publishable_name. destruct text as [|c text]; [done|]. intros H. split_checks.
  split; [|match goal with H : negb (_ <=? _)%nat = true |- _ =>
             apply negb_true_iff, Nat.leb_gt in H; exact H end].
  apply ordinary_plain. cbn [forallb]. apply andb_true_iff. split.
  - apply andb_true_iff; split; [apply Z.leb_le; lia|apply negb_true_iff, Z.eqb_neq; lia].
  - match goal with H : forallb _ text = true |- _ => rename H into Hr end.
    rewrite forallb_forall in *. intros d Hd. specialize (Hr d Hd).
    apply orb_true_iff in Hr as [[Hr|Hr]%orb_true_iff|Hr%Z.eqb_eq]; split_checks;
      (apply andb_true_iff; split; [apply Z.leb_le; lia|apply negb_true_iff, Z.eqb_neq; lia]).
Qed.

Lemma value_string levels text :
  plain text = true -> value_text levels (32 :: quoted text) (MANIFEST_STRING text).
Proof.
  intros H. apply (text_string levels [32] text text); [repeat constructor|by apply plain_body].
Qed.

Lemma size_range p : lockable p = true -> res_source p = FACET_SOURCE_REGISTRY -> 0 < res_size p <= UINT64_MAX.
Proof.
  unfold lockable. intros H E. rewrite E in H. split_checks. unfold FACET_MAX_ARCHIVE_SIZE in *.
  unfold_widths. lia.
Qed.

Lemma entry_members_ok levels p :
  lockable p = true ->
  Forall (fun m => plain (fst (fst m)) = true /\ value_text levels (32 :: snd (fst m)) (snd m)) (entry_members p).
Proof.
  intros Hl. assert (Hsm : forall key text, plain (bytes key) = true -> plain text = true ->
    plain (fst (fst (string_member key text))) = true /\
    value_text levels (32 :: snd (fst (string_member key text))) (snd (string_member key text))).
  { intros key text Hk Ht. split; [done|]. by apply value_string. }
  pose proof (size_range p Hl) as Hsize. unfold lockable in Hl. unfold entry_members.
  destruct (res_source p); split_checks.
  - apply Forall_app. split; [repeat constructor; by apply Hsm|].
    destruct (negb _); repeat constructor; by apply Hsm.
  - match goal with H : valid_sha256 _ = true |- _ => apply sha256_plain in H as [? _] end.
    repeat (apply Forall_cons; split; [first [by apply Hsm|cbn [fst snd]]|]); [|constructor].
    split; [done|]. destruct (printf_lu_spec (res_size p)) as (Hd & _ & Hn & _); [specialize (Hsize eq_refl); lia|].
    apply (text_integer levels [32]); [repeat constructor|]. constructor; [done|].
    intros E. rewrite E in Hn. simpl in Hn. lia.
Qed.

Lemma entry_keys_distinct p : NoDup (map fst (bindings (entry_members p))).
Proof.
  unfold entry_members. destruct (res_source p); [destruct (negb _)|];
    cbn [bindings map app fst snd string_member]; refine (bool_decide_unpack _ _); by vm_compute.
Qed.

Lemma entry_text levels p :
  lockable p = true ->
  value_text (S levels) (32 :: [123] ++ lock_members p ++ [125]) (entry_value p).
Proof.
  intros Hl. apply (text_collection true (S levels) [32]); [repeat constructor|].
  rewrite entry_members_text. apply (text_entries true levels []); [constructor|].
  apply (joined_entries levels [] (entry_members p) []); [by left| |by apply entry_members_ok|apply entry_keys_distinct].
  unfold entry_members. by destruct (res_source p).
Qed.

(** Decides comparisons of literal keys. *)
Ltac decide_keys :=
  repeat match goal with
  | |- context [bool_decide (bytes ?a = bytes ?b)] =>
      let v := eval vm_compute in (bool_decide (bytes a = bytes b)) in
      change (bool_decide (bytes a = bytes b)) with v; cbv iota
  end.

Ltac open_members :=
  cbn [diamond_manifest_get bindings map app find_key string_member fst snd]; decide_keys.

Ltac look_up := first [done|lia|by open_members].

Lemma u64_digits_run text result :
  is_digits text -> 0 <= result -> eval_be 10 result (map (fun c => c - 48) text) <= UINT64_MAX ->
  u64_digits text result = Some (eval_be 10 result (map (fun c => c - 48) text)).
Proof.
  intros Hd. revert result. induction Hd as [|c text Hc Hd IH]; intros result Hr Hb; [done|]. simpl in *.
  assert (Hle : result * 10 + (c - 48) <= eval_be 10 (result * 10 + (c - 48)) (map (fun c => c - 48) text)).
  { rewrite eval_be_acc. pose proof (decimal_value_bounds text Hd) as [Hv _]. unfold decimal_value in Hv.
    pose proof (Z.pow_pos_nonneg 10 (Z.of_nat (List.length (map (fun c => c - 48) text))) ltac:(lia) ltac:(lia)).
    nia. }
  rewrite (proj2 (Z.ltb_ge _ _)); [apply IH; lia|]. apply Z.div_le_lower_bound; lia.
Qed.

Lemma get_string_member key members size text :
  find_key key (bindings members) = Some (MANIFEST_STRING text) -> (List.length text < size)%nat ->
  diamond_manifest_get_string (MANIFEST_HASH (bindings members)) key size = Some text.
Proof.
  intros Hf Hl. unfold diamond_manifest_get_string, diamond_manifest_get. rewrite Hf.
  by rewrite (proj2 (Nat.leb_gt _ _)).
Qed.

Lemma plain_safe text : plain text = true -> is_safe_field text = true.
Proof. unfold plain. by intros [? _]%andb_true_iff. Qed.

Lemma plain_ends text : plain text = true -> peek text = 0 -> text = [].
Proof.
  destruct text as [|c text]; [done|]. intros [H _]%andb_true_iff. cbn [peek]. intros ->. done.
Qed.

Lemma parse_git_lock_run p :
  res_source p = FACET_SOURCE_GIT -> lockable p = true ->
  parse_git_lock (res_name p) (entry_value p) = Some (locked p).
Proof.
  unfold lockable, locked. intros E. rewrite E. intros Hl. split_checks.
  unfold parse_git_lock, entry_value, entry_members. rewrite E.
  rewrite (get_string_member _ _ _ (res_git p)) by look_up.
  rewrite (get_string_member _ _ _ (res_commit p)) by look_up.
  rewrite !plain_safe by done. cbn [andb negb].
  destruct (Z.eqb_spec (peek (res_version p)) 0) as [Hz|Hz]; cbn [negb].
  - open_members.
    by rewrite (plain_ends (res_version p)).
  - rewrite (get_string_member _ _ _ (res_version p)) by look_up.
    open_members.
    by rewrite plain_safe.
Qed.

Lemma parse_registry_lock_run p :
  res_source p = FACET_SOURCE_REGISTRY -> lockable p = true ->
  parse_registry_lock (res_name p) (entry_value p) = Some (locked p).
Proof.
  intros E Hl. pose proof (size_range p Hl E) as Hs. destruct (printf_lu_spec (res_size p)) as (Hd & Hv & Hn & _); [lia|].
  unfold lockable in Hl. unfold locked. rewrite E in *. split_checks.
  unfold parse_registry_lock, entry_value, entry_members. rewrite E.
  match goal with H : valid_sha256 _ = true |- _ => pose proof (sha256_plain _ H) as [_ Hsha] end.
  rewrite (get_string_member _ _ _ (res_registry p)) by look_up.
  rewrite (get_string_member _ _ _ (res_version p)) by look_up.
  rewrite (get_string_member _ _ _ (res_sha256 p)) by look_up.
  unfold diamond_manifest_get_u64. open_members. assert (Hm : (peek (printf_lu (res_size p)) =? 45) = false).
  { apply Z.eqb_neq. destruct Hd as [|c l Hc _]; simpl; lia. }
  rewrite Hm, u64_digits_run by (try done; fold (decimal_value (printf_lu (res_size p))); lia).
  fold (decimal_value (printf_lu (res_size p))). rewrite Hv.
  rewrite (proj2 (Z.eqb_neq (res_size p) 0)), (proj2 (Z.leb_le (res_size p) FACET_MAX_ARCHIVE_SIZE)) by lia.
  repeat match goal with H : _ = true |- _ => rewrite H end. done.
Qed.

Lemma parse_lock_entry_run p :
  lockable p = true -> parse_lock_entry (res_name p) (entry_value p) = Some (locked p).
Proof.
  intros Hl. assert (Hn : (FACET_MAX_NAME <=? List.length (res_name p))%nat = false).
  { apply Nat.leb_gt. unfold lockable in Hl. destruct (res_source p); split_checks; [done|].
    by apply publishable_plain. }
  unfold parse_lock_entry, entry_value. rewrite Hn. fold (entry_value p).
  assert (Hsrc : lock_source (entry_value p) = Some (res_source p)).
  { unfold lock_source, entry_value, entry_members. destruct (res_source p); by open_members. }
  assert (Hkeys : forallb (fun field => lock_key_allowed (bool_decide (res_source p = FACET_SOURCE_REGISTRY))
    (fst field)) (bindings (entry_members p)) = true).
  { unfold entry_members. destruct (res_source p); [destruct (negb _)|]; by vm_compute. }
  rewrite Hsrc, Hkeys. cbn [negb]. destruct (res_source p) eqn:E.
  - by apply parse_git_lock_run.
  - by apply parse_registry_lock_run.
Qed.

Lemma parse_lock_entries_run packages before :
  Forall (fun p => lockable p = true) packages ->
  (List.length before + List.length packages <= FACET_MAX_DEPENDENCIES)%nat ->
  parse_lock_entries (map (fun p => (res_name p, entry_value p)) packages) before =
  Some (before ++ map locked packages).
Proof.
  intros Hl. revert before. induction Hl as [|p packages Hp Hl IH]; intros before Hb;
    cbn [map parse_lock_entries List.length] in *.
  { by rewrite app_nil_r. }
  rewrite (proj2 (Nat.eqb_neq _ _)) by lia. rewrite parse_lock_entry_run by done.
  rewrite IH by (rewrite length_app; simpl; lia). by rewrite <- app_assoc.
Qed.

(** Adds up the lengths of concatenated text. *)
Ltac measure :=
  repeat first [rewrite length_app|progress cbn [List.length app]];
  repeat match goal with |- context [List.length (bytes ?s)] =>
    let n := eval vm_compute in (List.length (bytes s)) in change (List.length (bytes s)) with n end;
  lia.

Lemma lock_entry_length p : lockable p = true -> (List.length (lock_entry p) <= 1000)%nat.
Proof.
  intros Hl. pose proof (size_range p Hl) as Hs. unfold lockable in Hl.
  unfold lock_entry, lock_members, member, quoted, separator.
  destruct (res_source p); split_checks; unfold FACET_MAX_NAME, FACET_MAX_URL, FACET_MAX_REF, FACET_MAX_COMMIT in *.
  - destruct (negb _); measure.
  - match goal with H : valid_sha256 _ = true |- _ => apply sha256_plain in H as [_ Hsha] end.
    match goal with H : publishable_name _ = true |- _ => apply publishable_plain in H as [_ Hname] end.
    destruct (printf_lu_spec (res_size p)) as (_ & _ & Hn & _); [specialize (Hs eq_refl); lia|].
    unfold FACET_MAX_NAME in Hname. measure.
Qed.

Lemma lockfile_length packages :
  Forall (fun p => lockable p = true) packages ->
  (List.length (concat (map lock_entry packages)) <= 1000 * List.length packages)%nat.
Proof.
  induction 1 as [|p packages Hp _ IH]; [done|]. cbn [map concat List.length]. rewrite length_app.
  pose proof (lock_entry_length p Hp). lia.
Qed.

Lemma lockable_name p : lockable p = true -> plain (res_name p) = true.
Proof.
  unfold lockable. intros Hl. destruct (res_source p); split_checks; [done|]. by apply publishable_plain.
Qed.

Lemma lockfile_grammar packages :
  Forall (fun p => lockable p = true) packages -> NoDup (map res_name packages) ->
  (List.length packages <= FACET_MAX_DEPENDENCIES)%nat ->
  manifest_text (lockfile_text packages) (MANIFEST_HASH (map (fun p => (res_name p, entry_value p)) packages)).
Proof.
  intros Hl Hnd Hlen. unfold FACET_MAX_DEPENDENCIES in Hlen. pose proof (lockfile_length packages Hl) as Hsize.
  exists [], ([123] ++ concat (map lock_entry packages) ++ [125]), [10].
  split_and!; [unfold lockfile_text; simpl; by rewrite <- app_assoc|constructor|repeat constructor| |].
  2:{ unfold lockfile_text. rewrite !length_app. cbn [List.length app]. lia. }
  destruct (decide (packages = [])) as [->|Hne].
  { apply (text_empty true 31 []). constructor. }
  rewrite lock_text_joined by done.
  set (members := map (fun p => (res_name p, [123] ++ lock_members p ++ [125], entry_value p)) packages).
  assert (Hb : map (fun p => (res_name p, entry_value p)) packages = bindings members)
    by (unfold bindings, members; rewrite map_map; done).
  rewrite Hb. apply (text_entries true 31 []); [constructor|].
  apply (joined_entries 31 separator members []); [by right| | |].
  - unfold members. by destruct packages.
  - apply Forall_map. eapply Forall_impl; [exact Hl|]. intros p Hp. split; [by apply lockable_name|].
    by apply entry_text.
  - simpl. unfold bindings, members. by rewrite !map_map.
Qed.

Lemma lockfile_parses malloc_ok packages :
  (forall n, malloc_ok n = true) -> Forall (fun p => lockable p = true) packages ->
  NoDup (map res_name packages) -> (List.length packages <= FACET_MAX_DEPENDENCIES)%nat ->
  parse_lockfile malloc_ok (Some (lockfile_text packages)) = Some (Some (map locked packages)).
Proof.
  intros Hm Hl Hnd Hlen. unfold parse_lockfile, facet_read_hash.
  rewrite (manifest_parse_complete _ Hm _ 160 _ (Nat.lt_0_succ _) (lockfile_grammar packages Hl Hnd Hlen)).
  cbn [children_of]. by rewrite parse_lock_entries_run.
Qed.

(** C37: A lockfile reads back: for up to 64 packages of distinct names whose
    fields fit their buffers, are valid for their source and hold no character
    that ends or interpolates a literal, [parse_lockfile] accepts the text
    [write_lockfile] writes and yields the packages with the fields a lock
    keeps, when memory suffices. *)
Theorem lockfile_round_trip malloc_ok packages :
  (forall n, malloc_ok n = true) -> Forall (fun p => lockable p = true) packages ->
  NoDup (map res_name packages) -> (List.length packages <= FACET_MAX_DEPENDENCIES)%nat ->
  parse_lockfile malloc_ok (Some (lockfile_text packages)) = Some (Some (map locked packages)).
Proof. apply lockfile_parses. Qed.

(** ** The lock of a resolution covers its manifest *)

(** Only a git dependency can be pinned to a ref. *)
Lemma pinned_is_git name spec d :
  parse_dependency name spec = Some d -> uses_version d = false -> dep_source d = FACET_SOURCE_GIT.
Proof.
  unfold parse_dependency. intros E Hu.
  repeat match type of E with
  | match ?o with _ => _ end = _ => destruct o eqn:?; try done
  end.
  injection E as <-. simpl in *. subst. match goal with f : FacetSource |- _ => by destruct f end.
Qed.

Lemma parse_dependencies_from children parsed deps d :
  parse_dependencies children parsed = Some deps -> d ∈ deps ->
  d ∈ parsed \/ exists name spec, parse_dependency name spec = Some d.
Proof.
  revert parsed. induction children as [|[name spec] children IH]; intros parsed; cbn [parse_dependencies].
  { intros [= <-]. by left. }
  destruct (_ =? _)%nat; [done|]. destruct (parse_dependency name spec) as [new|] eqn:E; [|done].
  intros Hp Hd. destruct (IH _ Hp Hd) as [[?|Hin]%elem_of_app|?]; [by left| |by right].
  apply list_elem_of_singleton in Hin as ->. right. eauto.
Qed.

Lemma manifest_pins hash root d :
  parse_manifest hash = Some root -> d ∈ dependencies root -> uses_version d = false ->
  dep_source d = FACET_SOURCE_GIT.
Proof.
  unfold parse_manifest. destruct (diamond_manifest_get_string _ _ _) as [name|]; [|done].
  destruct (negb _); [done|].
  destruct (diamond_manifest_get hash (bytes "dependencies")) as [[]|]; try done.
  - destruct (parse_dependencies children []) as [deps|] eqn:E; [|done]. intros [= <-] Hd Hu.
    destruct (parse_dependencies_from _ _ _ _ E Hd) as [?%elem_of_nil|(n & spec & Hs)]; [done|].
    by eapply pinned_is_git.
  - intros [= <-] Hd. by apply elem_of_nil in Hd.
Qed.

Lemma find_locked_spec name packages found :
  NoDup (map res_name packages) ->
  find_locked name packages found =
  match find_resolved name packages with Some p => Some p | None => found end.
Proof.
  revert found. induction packages as [|p packages IH]; intros found; [done|]. cbn [map find_locked].
  intros [Hp Hnd]%NoDup_cons. rewrite IH by done. unfold find_resolved. simpl. case_bool_decide as Hn; [|done].
  destruct (find_named res_name name packages) as [q|] eqn:E; [|done].
  apply find_named_some in E as [Hq Hqn]. destruct Hp. rewrite Hn, <- Hqn. apply list_elem_of_fmap. by exists q.
Qed.

Lemma find_named_unique (packages : list FacetResolved) p :
  NoDup (map res_name packages) -> p ∈ packages -> find_resolved (res_name p) packages = Some p.
Proof.
  intros Hnd Hp. destruct (find_resolved (res_name p) packages) as [q|] eqn:E.
  - apply find_named_some in E as [Hq Hn]. f_equal. by eapply (distinct_unique res_name).
  - apply find_named_none in E. destruct E. apply list_elem_of_fmap. by exists p.
Qed.

Lemma locked_name p : res_name (locked p) = res_name p.
Proof. unfold locked. by destruct (res_source p). Qed.

Lemma locked_names packages : map res_name (map locked packages) = map res_name packages.
Proof. rewrite map_map. apply map_ext. apply locked_name. Qed.

Lemma locked_source p d :
  same_source (res_source (locked p)) (res_git (locked p)) (res_registry (locked p)) d =
  same_source (res_source p) (res_git p) (res_registry p) d.
Proof.
  unfold locked, same_source. destruct (res_source p), (dep_source d); try done.
Qed.

(** A pinned commit is a prefix of the one that was checked out. *)
Definition commits_kept (root : FacetManifest) (packages : list FacetResolved) : Prop :=
  forall d p, d ∈ dependencies root -> uses_version d = false -> dep_ref_kind d = FACET_REF_COMMIT ->
    p ∈ packages -> res_name p = dep_name d -> starts_with (dep_ref d) (res_commit p) = true.

Lemma answered_covered packages root d :
  NoDup (map res_name packages) -> commits_kept root packages -> d ∈ dependencies root ->
  (uses_version d = false -> dep_source d = FACET_SOURCE_GIT) -> answered packages d ->
  lock_covers_dependency (map locked packages) d = Some true.
Proof.
  intros Hnd Hcommit Hd Hgit (p & Hp & Hn & Hans). unfold lock_covers_dependency.
  rewrite find_locked_spec by by rewrite locked_names.
  rewrite <- Hn, <- (locked_name p), (find_named_unique (map locked packages) (locked p));
    [|by rewrite locked_names|apply list_elem_of_fmap; by exists p].
  rewrite locked_source. destruct (uses_version d) eqn:Hu.
  - destruct Hans as (Hs & c & v & Hc & Hv & Ha). rewrite Hs. cbn [negb]. rewrite Hc.
    assert (res_version (locked p) = res_version p) as -> by (unfold locked; by destruct (res_source p)).
    by rewrite Hv.
  - destruct Hans as (Hs & Hg & Href). unfold same_source. rewrite Hs, Hg, (Hgit eq_refl). cbn [bool_decide].
    rewrite !bool_decide_true by done. cbn [andb negb]. destruct (decide (dep_ref_kind d = FACET_REF_COMMIT)) as [Hk|Hk].
    + unfold locked. rewrite Hs. cbn [res_commit]. rewrite (Hcommit d p) by done. by rewrite andb_false_r.
    + by rewrite bool_decide_false.
Qed.

Lemma covers_all packages deps :
  (forall d, d ∈ deps -> lock_covers_dependency packages d = Some true) ->
  covers_dependencies packages deps = Some true.
Proof.
  induction deps as [|d deps IH]; intros H; [done|]. cbn [covers_dependencies].
  rewrite (H d) by left. apply IH. intros d' Hd. apply H. by right.
Qed.

(** C13: Installing again does not resolve again: when a manifest that parsed was
    resolved, every commit it pins was checked out, the packages can be locked
    and memory suffices, the lockfile written is read back by [parse_lockfile] and
    [lock_covers_manifest] accepts it for the same manifest. *)
Theorem resolution_lock_covers `{World} malloc_ok scratch_root preference hash root s s' :
  (forall n, malloc_ok n = true) -> parse_manifest hash = Some root ->
  resolve_full_graph scratch_root preference root s = Some (true, s') ->
  commits_kept root (resolution s') -> Forall (fun p => lockable p = true) (resolution s') ->
  exists lock, parse_lockfile malloc_ok (Some (lockfile_text (resolution s'))) = Some (Some lock) /\
    lock_covers_manifest lock root = Some true.
Proof.
  intros Hm Hroot Hres Hcommit Hl. pose proof (full_graph_spec scratch_root preference root s) as Hw.
  unfold vwp in Hw. rewrite Hres in Hw. destruct (Hw eq_refl) as [Hnd Hlen Hans _ _ _].
  exists (map locked (resolution s')). split; [by apply lockfile_parses|].
  apply covers_all. intros d Hd. eapply answered_covered; try done; [|by apply Hans].
  by eapply manifest_pins.
Qed.
