(* ===== verification/FacetExamples.v ===== *)
(** * FacetExamples: the package manager on concrete projects

    Worlds in which the resolver runs: one it resolves and locks, and the
    inputs on which its behaviour differs from what its comments and
    docs/packages.md say. *)

From S2P Require Import Prelude CText Semver.
From S2P Require Import Value.
From S2P Require Import ManifestLiteral.
From S2P Require Import Facet.
From S2P Require Import FacetResolve.
From S2P Require Import FacetResolveOk.
From S2P Require Import FacetLock.
From Stdlib Require Import ZArith Lia Bool List String Ascii.
From stdpp Require Import base numbers list.

Local Open Scope Z_scope.

(** Literals with single quotes for double ones. *)
Definition json (s : string) : list Z := map (fun c => if c =? 39 then 34 else c) (bytes s).

(** A project's manifest. *)
Definition project (s : string) : option FacetManifest :=
  match facet_read_hash (fun _ => true) (Some (json s)) with
  | Some (Some hash) => parse_manifest hash
  | _ => None
  end.

Definition empty_state : Resolver :=
  {| resolution := []; pending := []; queue := []; history := []; needs_restart := false;
     now := O; visited := []; cloned := [] |}.

(** A world from the text behind each URL, the tags of each repository and the
    files of the scratch directory. *)
Definition assoc (table : list (string * string)) (key : list Z) : option (list Z) :=
  match List.find (fun e => bool_decide (bytes (fst e) = key)) table with
  | Some (_, text) => Some (json text)
  | None => None
  end.

(** [git ls-remote] prints an object name, a tab and a ref per line. *)
Definition tag_line (tag : string) : list Z := bytes "0" ++ [9] ++ bytes "refs/tags/" ++ bytes tag ++ [10].

Definition world (registry files : list (string * string)) (tags : list (string * list string)) : World := {|
  run_git_clone := fun _ _ _ _ => true;
  rev_parse_head := fun _ _ => Some (bytes "0123abcd");
  ls_remote := fun _ url =>
    match List.find (fun e => bool_decide (bytes (fst e) = url)) tags with
    | Some (_, names) => Some (concat (map tag_line names))
    | None => None
    end;
  path_exists := fun _ path => match assoc files path with Some _ => true | None => false end;
  whole_file := fun _ path => assoc files path;
  download := fun _ url => assoc registry url;
  directory_made := fun _ _ => true;
  table_malloc := fun _ => true;
  parse_malloc := fun _ _ => true;
|}.

Definition scratch : list Z := bytes "cuts/.facet-tmp".

Definition digest : string := "00000000000000000000000000000000000000000000000000000000000000ff".

Definition release (name version deps : string) : string := (
  "{'protocol': 1, 'name': '" ++ name ++ "', 'version': '" ++ version ++ "', 'dependencies': {" ++ deps ++
  "}, 'yanked': false, 'archive': {'path': '/v1/blobs/sha256/" ++ digest ++ "', 'sha256': '" ++ digest ++
  "', 'size': 1024}}")%string.

Definition versions (list : string) : string := ("{'protocol': 1, 'versions': [" ++ list ++ "]}")%string.
Definition version_of (v : string) : string := ("{'version': '" ++ v ++ "', 'yanked': false}, ")%string.

(** ** A resolution and its lock *)

Definition shop : string := (
  "{'name': 'shop', 'dependencies': {'util': {'git': 'https://git/util', 'commit': '0123'}, " ++
  "'web': {'git': 'https://git/web', 'version': '^2.0.0'}, " ++
  "'data': {'registry': 'https://cuts.example', 'version': '>=1.0.0'}}}")%string.

Definition shop_world : World :=
  world
    [("https://cuts.example/v1/cuts/data/versions",
      versions (version_of "1.0.0" ++ version_of "1.4.0" ++ version_of "2.0.0"));
     ("https://cuts.example/v1/cuts/data/versions/1.4.0", release "data" "1.4.0" "")]%string
    [("cuts/.facet-tmp/web/Cutfile",
      "{'name': 'web', 'dependencies': {'data': {'registry': 'https://cuts.example', 'version': '^1.0.0'}}}")]%string
    [("https://git/web", ["v1.9.0"; "v2.0.0"; "v2.3.1"; "v3.0.0"])]%string.

Definition shop_root : option FacetManifest := project shop.

(** The versions and commits chosen. *)
Definition chosen (s : Resolver) : list (list Z * list Z) :=
  map (fun p => (res_name p, if bool_decide (res_version p = []) then res_commit p else res_version p))
    (resolution s).

Definition shop_state : Resolver :=
  match shop_root with
  | Some root =>
      match @resolve_full_graph shop_world scratch None root empty_state with
      | Some (_, s) => s
      | None => empty_state
      end
  | None => empty_state
  end.

(** Three cuts, with the exact commit, the highest 2.x tag and the version both
    requesters of [data] allow. *)
Example shop_chosen :
  chosen shop_state =
  [(bytes "util", bytes "0123abcd"); (bytes "web", bytes "v2.3.1"); (bytes "data", bytes "1.4.0")].
Proof. vm_compute. reflexivity. Qed.

Definition shop_hash : DiamondManifestValue :=
  match facet_read_hash (fun _ => true) (Some (json shop)) with Some (Some hash) => hash | _ => MANIFEST_OTHER end.

Definition shop_manifest : FacetManifest :=
  match parse_manifest shop_hash with
  | Some root => root
  | None => {| manifest_name := []; manifest_version := []; has_version := false; dependencies := [] |}
  end.

Lemma all_elem {A} (f : A -> bool) l x : forallb f l = true -> x ∈ l -> f x = true.
Proof. intros H Hx. rewrite forallb_forall in H. by apply H, list_elem_of_In. Qed.

(** Checks for the hypotheses about packages. *)
Lemma all_lockable packages :
  forallb lockable packages = true -> Forall (fun p => lockable p = true) packages.
Proof. intros H. apply Forall_forall. intros p. by apply all_elem. Qed.

Lemma commits_kept_check root packages :
  forallb (fun d => forallb (fun p => starts_with (dep_ref d) (res_commit p) ||
    negb (bool_decide (res_name p = dep_name d)) || uses_version d ||
    negb (bool_decide (dep_ref_kind d = FACET_REF_COMMIT))) packages) (dependencies root) = true ->
  commits_kept root packages.
Proof.
  intros H d p Hd Hu Hk Hp Hn. pose proof (all_elem _ _ _ (all_elem _ _ _ H Hd) Hp) as Hdp. clear H. rename Hdp into H.
  rewrite Hu, (bool_decide_true _ Hk), (bool_decide_true _ Hn) in H. cbn [negb] in H. by rewrite !orb_false_r in H.
Qed.

Lemma resolution_lock_covers_witness :
  exists lock,
    parse_lockfile (fun _ => true) (Some (lockfile_text (resolution shop_state))) = Some (Some lock) /\
    lock_covers_manifest lock shop_manifest = Some true.
Proof.
  apply (@resolution_lock_covers shop_world (fun _ => true) scratch None shop_hash shop_manifest empty_state
    shop_state).
  - reflexivity.
  - vm_compute. reflexivity.
  - vm_compute. reflexivity.
  - apply commits_kept_check. vm_compute. reflexivity.
  - apply all_lockable. vm_compute. reflexivity.
Defined.

Lemma lockfile_round_trip_witness :
  (3 <= List.length (resolution shop_state))%nat /\
  parse_lockfile (fun _ => true) (Some (lockfile_text (resolution shop_state))) =
  Some (Some (map locked (resolution shop_state))).
Proof.
  split; [vm_compute; lia|]. apply (lockfile_round_trip (fun _ => true) (resolution shop_state)).
  - reflexivity.
  - apply all_lockable. vm_compute. reflexivity.
  - refine (bool_decide_unpack _ _). vm_compute. exact I.
  - vm_compute. lia.
Defined.

(** ** A constraint of an abandoned version *)

Definition shop2 : string :=
  "{'name': 'shop', 'dependencies': {'a': {'registry': 'https://r', 'version': '^1.0.0'}, 'b': {'registry': 'https://r', 'version': '^1.0.0'}}}".

Definition a_versions : string := versions (version_of "1.0.0" ++ version_of "1.1.0").
Definition c_versions : string := versions (version_of "1.0.0" ++ version_of "2.0.0").

(** [a] 1.1.0 needs [c] 2, [a] 1.0.0 needs nothing, [b] needs [a] below 1.1.0
    and [c] 1. *)
Definition shop2_world : World :=
  world
    [("https://r/v1/cuts/a/versions", a_versions);
     ("https://r/v1/cuts/b/versions", versions (version_of "1.0.0"));
     ("https://r/v1/cuts/c/versions", c_versions);
     ("https://r/v1/cuts/a/versions/1.1.0", release "a" "1.1.0" "'c': '^2.0.0'");
     ("https://r/v1/cuts/a/versions/1.0.0", release "a" "1.0.0" "");
     ("https://r/v1/cuts/b/versions/1.0.0", release "b" "1.0.0" "'a': '<1.1.0', 'c': '^1.0.0'");
     ("https://r/v1/cuts/c/versions/1.0.0", release "c" "1.0.0" "");
     ("https://r/v1/cuts/c/versions/2.0.0", release "c" "2.0.0" "")]%string [] [].

(** A release the registry of a world publishes. *)
Definition published (w : World) (name version : string) : option (FacetResolved * FacetManifest) :=
  let entry := {| pend_name := bytes name; pend_source := FACET_SOURCE_REGISTRY; pend_git := [];
                  pend_registry := bytes "https://r";
                  pend_constraint := {| c_min := None; c_max := None |}; first_requester := [] |} in
  match facet_read_hash (fun _ => true)
    (@download w O (bytes ("https://r/v1/cuts/" ++ name ++ "/versions/" ++ version))) with
  | Some (Some hash) => release_of_hash entry (bytes version) hash
  | _ => None
  end.

Definition solution : list (FacetResolved * FacetManifest) :=
  omap (fun '(n, v) => published shop2_world n v) [("a", "1.0.0"); ("b", "1.0.0"); ("c", "1.0.0")]%string.

Definition visits_of (releases : list (FacetResolved * FacetManifest)) : list (list Z * option FacetManifest) :=
  map (fun r => (res_name (fst r), Some (snd r))) releases.

(** A check for [answered]. *)
Definition answeredb (packages : list FacetResolved) (d : FacetDependency) : bool :=
  existsb (fun p => bool_decide (res_name p = dep_name d) && uses_version d &&
    same_source (res_source p) (res_git p) (res_registry p) d &&
    match semver_constraint_parse (version_text d), semver_parse (res_version p) with
    | Some c, Some v => bool_decide (semver_satisfies v c = Some true)
    | _, _ => false
    end) packages.

Lemma answeredb_sound packages d : answeredb packages d = true -> answered packages d.
Proof.
  intros (p & Hp & H)%existsb_exists. rewrite !andb_true_iff in H. destruct H as [[[Hn Hu] Hs] Hv].
  apply bool_decide_eq_true in Hn. exists p. split; [by apply list_elem_of_In|]. split; [done|]. rewrite Hu.
  split; [done|]. destruct (semver_constraint_parse _) as [c|]; [|done]. destruct (semver_parse _) as [v|]; [|done].
  apply bool_decide_eq_true in Hv. by exists c, v.
Qed.

(** Checks for [reachable]. *)
Lemma reach_direct root visits n :
  existsb (fun d => bool_decide (dep_name d = n)) (dependencies root) = true -> reachable root visits n.
Proof.
  intros (d & Hd & <-%bool_decide_eq_true)%existsb_exists. constructor. by apply list_elem_of_In.
Qed.

Lemma reach_through root visits k n :
  reachable root visits k ->
  existsb (fun v => bool_decide (fst v = k) && match snd v with
    | Some m => existsb (fun d => bool_decide (dep_name d = n)) (dependencies m)
    | None => false end) visits = true ->
  reachable root visits n.
Proof.
  intros Hk ([k' [m|]] & Hv & [<-%bool_decide_eq_true H]%andb_true_iff)%existsb_exists; [|done].
  apply existsb_exists in H as (d & Hd & <-%bool_decide_eq_true).
  eapply reach_nested; [exact Hk|by apply list_elem_of_In|by apply list_elem_of_In].
Qed.

Definition shop2_root : FacetManifest :=
  match project shop2 with Some root => root | None => shop_manifest end.

Lemma solution_resolves : Resolves shop2_root (map fst solution) (visits_of solution).
Proof.
  split.
  - refine (bool_decide_unpack _ _). vm_compute. exact I.
  - vm_compute. lia.
  - intros d Hd. apply answeredb_sound. revert Hd. apply all_elem. vm_compute. reflexivity.
  - intros n m d Hm Hd. apply answeredb_sound. apply list_elem_of_fmap in Hm as (r & [= _ ->] & Hr).
    assert (H : forallb (fun r => forallb (answeredb (map fst solution)) (dependencies (snd r))) solution = true)
      by (vm_compute; reflexivity).
    exact (all_elem _ _ _ (all_elem _ _ _ H Hr) Hd).
  - intros p (r & -> & Hr)%list_elem_of_fmap. exists (Some (snd r)). apply list_elem_of_fmap. by exists r.
  - assert (Hb : reachable shop2_root (visits_of solution) (bytes "b")).
    { apply reach_direct. vm_compute. reflexivity. }
    intros p Hp. assert (Hn : res_name p ∈ map res_name (map fst solution)) by (apply list_elem_of_fmap; by exists p).
    assert (E : map res_name (map fst solution) = [bytes "a"; bytes "b"; bytes "c"]) by (vm_compute; reflexivity).
    rewrite E in Hn. apply elem_of_cons in Hn as [->|Hn]; [apply reach_direct; vm_compute; reflexivity|].
    apply elem_of_cons in Hn as [->|Hn]; [exact Hb|]. apply list_elem_of_singleton in Hn as ->.
    apply (reach_through _ _ (bytes "b")); [exact Hb|]. vm_compute. reflexivity.
Qed.

(** A constraint outlives the version that imposed it.  In a registry where
    [a] 1.0.0, [b] 1.0.0 and [c] 1.0.0 are published and answer every dependency
    of the project and of each other, the resolver fails: it first picks [a]
    1.1.0, is restarted because [b] excludes that version, and on the second
    attempt still holds [c] to what the abandoned [a] 1.1.0 asked for. *)
Theorem abandoned_constraint_persists :
  project shop2 = Some shop2_root /\
  (exists s', @resolve_full_graph shop2_world scratch None shop2_root empty_state = Some (false, s')) /\
  map (fun r => (res_name (fst r), res_version (fst r))) solution =
    [(bytes "a", bytes "1.0.0"); (bytes "b", bytes "1.0.0"); (bytes "c", bytes "1.0.0")] /\
  Resolves shop2_root (map fst solution) (visits_of solution).
Proof.
  split_and!; [vm_compute; reflexivity| |vm_compute; reflexivity|apply solution_resolves].
  eexists. vm_compute. reflexivity.
Qed.

(** ** Exact refs and version constraints *)

(** An exact ref and a version constraint on one name never mix: a version
    constraint on a cut resolved from an exact ref fails, and an exact ref on a
    cut that was resolved or is pending under a version constraint fails, even
    when the ref is the very tag chosen. *)
Theorem exact_and_version_never_mix `{World} scratch_root d by_name s :
  (forall p, find_resolved (dep_name d) (resolution s) = Some p -> res_version p = [] ->
     exists s', handle_version_dependency d by_name s = Some (false, s')) /\
  (forall p, find_resolved (dep_name d) (resolution s) = Some p -> peek (res_version p) <> 0 ->
     handle_exact_dependency scratch_root d by_name s = Some (false, s)) /\
  (forall e, find_resolved (dep_name d) (resolution s) = None ->
     find_pending (dep_name d) (pending s) = Some e ->
     handle_exact_dependency scratch_root d by_name s = Some (false, s)).
Proof.
  split_and!.
  - intros p Hp Hv. assert (Hw : vwp (handle_version_dependency d by_name) s (fun ok _ => ok = false)).
    { unfold handle_version_dependency. destruct (semver_constraint_parse _) as [c|]; [|by vstep].
      vstep. eapply vwp_mono; [apply find_or_create_spec|]. intros found s1 Hf.
      destruct found as [record|]; [|by vstep]. destruct (Hf record eq_refl) as (table & -> & _).
      vstep. apply vwp_lift. destruct (intersect_allows (accumulated record) c) as (m & -> & _). simpl.
      destruct m; [|by vstep]. repeat vstep. simpl. rewrite Hp. destruct (negb _); [by vstep|].
      rewrite Hv. simpl. by vstep. }
    unfold vwp in Hw. destruct (handle_version_dependency d by_name s) as [[ok s']|]; [|done]. subst. by exists s'.
  - intros p Hp Hv. unfold handle_exact_dependency, vm_bind, get_state. rewrite Hp.
    by rewrite (proj2 (Z.eqb_neq _ _) Hv).
  - intros e Hp He. unfold handle_exact_dependency, vm_bind, get_state. by rewrite Hp, He.
Qed.

(** A state with one cut resolved from a tag. *)
Definition tagged_state : Resolver :=
  set_resolution
    [{| res_name := bytes "x"; res_source := FACET_SOURCE_GIT; res_git := bytes "https://git/x";
        res_registry := []; res_sha256 := []; res_size := 0; res_ref := bytes "v1.0.0";
        res_commit := bytes "0123"; res_version := []; res_required_by := bytes "shop" |}] empty_state.

Definition ranged_dependency : FacetDependency :=
  {| dep_name := bytes "x"; dep_source := FACET_SOURCE_GIT; dep_git := bytes "https://git/x";
     dep_registry := []; dep_ref := []; dep_ref_kind := FACET_REF_TAG; uses_version := true;
     version_text := bytes "^1.0.0" |}.

Lemma exact_and_version_never_mix_witness :
  exists s', handle_version_dependency ranged_dependency (bytes "web") tagged_state = Some (false, s').
Proof.
  destruct (@exact_and_version_never_mix shop_world scratch ranged_dependency (bytes "web") tagged_state)
    as [H _].
  eapply H; [vm_compute; reflexivity|reflexivity].
Defined.

(** ** Text that is not read back, and names that are paths *)

Definition odd_registry : string :=
  "{'name': 'shop', 'dependencies': {'a': {'registry': 'https://r/\'x', 'version': '^1.0.0'}}}".

Definition odd_world : World :=
  {| run_git_clone := fun _ _ _ _ => true; rev_parse_head := fun _ _ => None; ls_remote := fun _ _ => None;
     path_exists := fun _ _ => false; whole_file := fun _ _ => None;
     download := fun _ url =>
       if bool_decide (url = json "https://r/'x/v1/cuts/a/versions") then Some (json (versions (version_of "1.0.0")))
       else Some (json (release "a" "1.0.0" ""));
     directory_made := fun _ _ => true; table_malloc := fun _ => true; parse_malloc := fun _ _ => true |}.

(** A lockfile that was written may not parse.  A registry URL with a
    quotation mark passes the manifest's checks and the resolver, and the
    lockfile written for it is rejected by [parse_lockfile], so the next install
    of the project fails. *)
Theorem lockfile_not_read_back :
  exists root s', project odd_registry = Some root /\
    @resolve_full_graph odd_world scratch None root empty_state = Some (true, s') /\
    map res_registry (resolution s') = [json "https://r/'x"] /\
    parse_lockfile (fun _ => true) (Some (lockfile_text (resolution s'))) = Some None.
Proof.
  eexists _, _. split; [vm_compute; reflexivity|]. split; [vm_compute; reflexivity|].
  split; vm_compute; reflexivity.
Qed.

Definition escaping : string :=
  "{'name': 'shop', 'dependencies': {'../..': {'git': 'https://git/x', 'tag': 'v1'}}}".

(** A dependency's name may be a path out of the scratch directory.  The name
    [../..] passes the manifest's checks, and the resolver hands the path
    [cuts/.facet-tmp/../..], the project's own directory, to [git_clone], which
    deletes what it finds there before it clones. *)
Theorem dependency_name_escapes_scratch :
  exists root s', project escaping = Some root /\
    @resolve_full_graph shop_world scratch None root empty_state = Some (true, s') /\
    cloned s' = [bytes "cuts/.facet-tmp/../.."].
Proof.
  eexists _, _. split; [vm_compute; reflexivity|]. split; vm_compute; reflexivity.
Qed.
