(* ===== verification/FacetInstall.v ===== *)
(** * FacetInstall: moving resolved cuts into place

    [install_resolution] of tools/facet_resolve.c over a disk that maps paths
    to directory trees.  Fetching, renaming and removing may fail at any point
    and a failed removal may leave any tree behind; [stat] succeeds exactly on
    what is there, so no path is a dangling symbolic link.  The installer is all or nothing: it puts every fetched tree
    in place, or loses none of those that were installed before. *)

From S2P Require Import Prelude CText.
From S2P Require Import Facet.
From Stdlib Require Import ZArith Lia Bool List String Ascii.
From stdpp Require Import base numbers list gmap.

Local Open Scope Z_scope.

(** ** The disk *)

Class FileSystem (Tree : Type) := {
  (** [rename] of a path that exists *)
  rename_ok : nat -> list Z -> list Z -> bool;
  (** what the removal of a tree leaves; [None] when it succeeds *)
  remains : nat -> Tree -> option Tree;
  (** [git clone] and [git checkout] over what is at the destination: success, and
      the tree that is there then *)
  clone_tree : nat -> list Z -> list Z -> option Tree -> bool * option Tree;
  (** the tree without its [.git]; whether removing that succeeded *)
  stripped : nat -> Tree -> bool * Tree;
}.

Section Install.

Context {Tree : Type} `{FileSystem Tree}.

Record Disk := { trees : gmap (list Z) Tree; ticks : nat }.

Definition set_trees (t : gmap (list Z) Tree) (d : Disk) : Disk := {| trees := t; ticks := S (ticks d) |}.

Definition file_exists (path : list Z) (d : Disk) : bool := bool_decide (is_Some (trees d !! path)).

Definition rename (old new : list Z) (d : Disk) : bool * Disk :=
  match trees d !! old with
  | Some t =>
      if rename_ok (ticks d) old new
      then (true, set_trees (<[new := t]> (delete old (trees d))) d)
      else (false, set_trees (trees d) d)
  | None => (false, set_trees (trees d) d)
  end.

Definition remove_directory_recursive (path : list Z) (d : Disk) : bool * Disk :=
  match trees d !! path with
  | None => (true, d)
  | Some t =>
      match remains (ticks d) t with
      | None => (true, set_trees (delete path (trees d)) d)
      | Some t' => (false, set_trees (<[path := t']> (trees d)) d)
      end
  end.

(** [git_clone]: what is at the destination goes first, if it can be removed. *)
Definition clone_into (url ref path : list Z) (d : Disk) : bool * Disk :=
  let '(_, d) := remove_directory_recursive path d in
  let '(ok, t) := clone_tree (ticks d) url ref (trees d !! path) in
  (ok, set_trees (match t with Some t => <[path := t]> (trees d) | None => delete path (trees d) end) d).

Definition strip_git_directory (path : list Z) (d : Disk) : bool * Disk :=
  match trees d !! path with
  | None => (true, d)
  | Some t => let '(ok, t') := stripped (ticks d) t in (ok, set_trees (<[path := t']> (trees d)) d)
  end.

(** ** The installer *)

Definition scratch_of (p : FacetResolved) : list Z :=
  truncated FACET_MAX_PATH (bytes "cuts/.facet-tmp" ++ [47] ++ res_name p).
Definition final_path (p : FacetResolved) : list Z :=
  truncated FACET_MAX_PATH (bytes "cuts/" ++ res_name p).
Definition backup_path (p : FacetResolved) : list Z :=
  truncated FACET_MAX_PATH (bytes "cuts/.facet-old-" ++ res_name p).

(** The first loop: every package's tree is in the scratch directory. *)
Definition stage (p : FacetResolved) (d : Disk) : bool * Disk :=
  let '(ok, d) :=
    if file_exists (scratch_of p) d then (true, d) else
    match res_source p with
    | FACET_SOURCE_GIT => clone_into (res_git p) (res_commit p) (scratch_of p) d
    | FACET_SOURCE_REGISTRY => (false, d)
    end in
  if negb ok then (false, d) else
  match res_source p with
  | FACET_SOURCE_GIT => strip_git_directory (scratch_of p) d
  | FACET_SOURCE_REGISTRY => (true, d)
  end.

Fixpoint stage_all (packages : list FacetResolved) (d : Disk) : bool * Disk :=
  match packages with
  | [] => (true, d)
  | p :: rest => let '(ok, d) := stage p d in if negb ok then (false, d) else stage_all rest d
  end.

(** The second loop: installed trees move to their backups.  The packages it
    got through come with their [had_previous]. *)
Fixpoint back_up (packages : list FacetResolved) (d : Disk) :
    list (FacetResolved * bool) * bool * Disk :=
  match packages with
  | [] => ([], true, d)
  | p :: rest =>
      let '(ok, d) := remove_directory_recursive (backup_path p) d in
      if negb ok then ([], false, d) else
      if file_exists (final_path p) d then
        let '(ok, d) := rename (final_path p) (backup_path p) d in
        if negb ok then ([], false, d) else
        let '(done_, ok, d) := back_up rest d in ((p, true) :: done_, ok, d)
      else let '(done_, ok, d) := back_up rest d in ((p, false) :: done_, ok, d)
  end.

(** Backups move back. *)
Fixpoint restore (backed_up : list (FacetResolved * bool)) (d : Disk) : Disk :=
  match backed_up with
  | [] => d
  | (p, had_previous) :: rest =>
      restore rest (if had_previous : bool then snd (rename (backup_path p) (final_path p) d) else d)
  end.

(** The third loop: scratch trees move into place; how many did. *)
Fixpoint move_in (packages : list FacetResolved) (d : Disk) : nat * bool * Disk :=
  match packages with
  | [] => (O, true, d)
  | p :: rest =>
      let '(ok, d) := rename (scratch_of p) (final_path p) d in
      if negb ok then (O, false, d) else
      let '(installed, ok, d) := move_in rest d in (S installed, ok, d)
  end.

Fixpoint remove_installed (packages : list FacetResolved) (d : Disk) : Disk :=
  match packages with
  | [] => d
  | p :: rest => remove_installed rest (snd (remove_directory_recursive (final_path p) d))
  end.

Fixpoint drop_backups (backed_up : list (FacetResolved * bool)) (d : Disk) : Disk :=
  match backed_up with
  | [] => d
  | (p, had_previous) :: rest =>
      drop_backups rest
        (if had_previous : bool then snd (remove_directory_recursive (backup_path p) d) else d)
  end.

Definition install_resolution (packages : list FacetResolved) (d : Disk) : bool * Disk :=
  let '(ok, d) := stage_all packages d in
  if negb ok then (false, d) else
  let '(backed_up, ok, d) := back_up packages d in
  if negb ok then (false, restore backed_up d) else
  let '(installed, ok, d) := move_in packages d in
  if negb ok then (false, restore backed_up (remove_installed (firstn installed packages) d))
  else (true, drop_backups backed_up d).

(** ** Paths *)

(** A name that is one component of a path and does not start with a dot, so
    that the three paths of every package are apart. *)
Definition component (name : list Z) : bool :=
  negb (peek name =? 46) && forallb (fun c => negb (c =? 47)) name && (List.length name <? FACET_MAX_NAME)%nat.

Lemma component_short p :
  component (res_name p) = true ->
  scratch_of p = bytes "cuts/.facet-tmp/" ++ res_name p /\ final_path p = bytes "cuts/" ++ res_name p /\
  backup_path p = bytes "cuts/.facet-old-" ++ res_name p.
Proof.
  unfold component, scratch_of, final_path, backup_path, truncated, FACET_MAX_NAME, FACET_MAX_PATH.
  intros [_ Hl]%andb_true_iff. apply Nat.ltb_lt in Hl.
  split_and!; rewrite take_ge; try done; rewrite ?length_app; simpl; lia.
Qed.

Lemma paths_apart p q :
  component (res_name p) = true -> component (res_name q) = true ->
  final_path p <> backup_path q /\ final_path p <> scratch_of q /\ backup_path p <> scratch_of q.
Proof.
  intros Hp Hq. destruct (component_short p Hp) as (_ & -> & ->). destruct (component_short q Hq) as (-> & _ & ->).
  unfold component in Hp. rewrite !andb_true_iff in Hp. destruct Hp as [[Hd _] _].
  apply negb_true_iff, Z.eqb_neq in Hd.
  change (bytes "cuts/.facet-old-") with (bytes "cuts/" ++ bytes ".facet-old-").
  change (bytes "cuts/.facet-tmp/") with (bytes "cuts/" ++ bytes ".facet-tmp/").
  rewrite <- !app_assoc. split_and!.
  - intros E%app_inv_head. rewrite E in Hd. by apply Hd.
  - intros E%app_inv_head. rewrite E in Hd. by apply Hd.
  - intros E%app_inv_head. discriminate E.
Qed.

Lemma paths_injective p q :
  component (res_name p) = true -> component (res_name q) = true -> res_name p <> res_name q ->
  final_path p <> final_path q /\ backup_path p <> backup_path q /\ scratch_of p <> scratch_of q.
Proof.
  intros Hp Hq Hn. destruct (component_short p Hp) as (-> & -> & ->). destruct (component_short q Hq) as (-> & -> & ->).
  split_and!; by intros ?%app_inv_head.
Qed.

(** ** One operation *)

Lemma rename_spec old new d :
  let '(ok, d') := rename old new d in
  if ok then exists t, trees d !! old = Some t /\ trees d' = <[new := t]> (delete old (trees d))
  else trees d' = trees d.
Proof.
  unfold rename. destruct (trees d !! old) as [t|] eqn:E; [|done].
  destruct (rename_ok _ _ _); [|done]. by exists t.
Qed.

Lemma remove_spec path d :
  let '(ok, d') := remove_directory_recursive path d in
  if ok then trees d' = delete path (trees d) else exists t, trees d' = <[path := t]> (trees d).
Proof.
  unfold remove_directory_recursive. destruct (trees d !! path) as [t|] eqn:E.
  - destruct (remains (ticks d) t) as [t'|]; [by exists t'|done].
  - by rewrite delete_id.
Qed.

(** [d'] is [d] except at some paths. *)
Definition changes (paths : list (list Z)) (d d' : Disk) : Prop :=
  forall k, k ∉ paths -> trees d' !! k = trees d !! k.

Lemma changes_refl paths d : changes paths d d.
Proof. done. Qed.

Lemma changes_step paths more a b c :
  changes paths a b -> changes more b c -> changes (paths ++ more) a c.
Proof. intros H1 H2 k Hk. apply not_elem_of_app in Hk as [? ?]. rewrite H2, H1; done. Qed.

Lemma remove_changes path d : changes [path] d (snd (remove_directory_recursive path d)).
Proof.
  pose proof (remove_spec path d) as Hs. destruct (remove_directory_recursive path d) as [[] d'].
  - intros k Hk. simpl. rewrite Hs, lookup_delete_ne by set_solver. done.
  - destruct Hs as [t Hs]. intros k Hk. simpl. rewrite Hs, lookup_insert_ne by set_solver. done.
Qed.

Lemma rename_changes old new d : changes [old; new] d (snd (rename old new d)).
Proof.
  pose proof (rename_spec old new d) as Hs. destruct (rename old new d) as [[] d'].
  - destruct Hs as (t & _ & Hs). intros k Hk. simpl. rewrite Hs, lookup_insert_ne, lookup_delete_ne by set_solver. done.
  - intros k Hk. simpl. by rewrite Hs.
Qed.

Lemma stage_changes p d : changes [scratch_of p] d (snd (stage p d)).
Proof.
  assert (Hclone : changes [scratch_of p] d (snd (clone_into (res_git p) (res_commit p) (scratch_of p) d))).
  { unfold clone_into. pose proof (remove_changes (scratch_of p) d) as Hr.
    destruct (remove_directory_recursive (scratch_of p) d) as [ok d1]. simpl in Hr.
    destruct (clone_tree _ _ _ _) as [ok' t]. intros k Hk. simpl.
    destruct t; rewrite ?lookup_insert_ne, ?lookup_delete_ne by set_solver; by apply Hr. }
  assert (Hstrip : forall a, changes [scratch_of p] d a -> changes [scratch_of p] d (snd (strip_git_directory (scratch_of p) a))).
  { intros a Ha. unfold strip_git_directory. destruct (trees a !! scratch_of p) as [t|]; [|done].
    destruct (stripped _ _) as [ok t']. intros k Hk. simpl. rewrite lookup_insert_ne by set_solver. by apply Ha. }
  unfold stage. destruct (file_exists (scratch_of p) d).
  - destruct (res_source p); [by apply Hstrip|done].
  - destruct (res_source p); [|done]. destruct (clone_into _ _ _ d) as [ok a]. simpl in Hclone.
    destruct ok; [by apply Hstrip|done].
Qed.

Lemma stage_all_changes packages d : changes (map scratch_of packages) d (snd (stage_all packages d)).
Proof.
  revert d. induction packages as [|p packages IH]; intros d; [done|]. cbn [stage_all map].
  pose proof (stage_changes p d) as Hp. destruct (stage p d) as [[] a]; simpl in *.
  - apply (changes_step [scratch_of p]  _ d a); [done|apply IH].
  - intros k Hk. apply Hp. set_solver.
Qed.

(** ** The loops *)

Definition apart (packages : list FacetResolved) : Prop :=
  Forall (fun p => component (res_name p) = true) packages /\ NoDup (map res_name packages).

Lemma apart_cons p packages :
  apart (p :: packages) ->
  component (res_name p) = true /\ apart packages /\
  forall q, q ∈ packages -> component (res_name q) = true /\ res_name p <> res_name q.
Proof.
  intros [[Hp Hc]%Forall_cons Hn]. simpl in Hn. apply NoDup_cons in Hn as [Hp' Hn]. split; [done|]. split; [done|].
  intros q Hq. split; [by eapply Forall_forall in Hc|]. intros E. apply Hp'. rewrite E.
  apply list_elem_of_fmap. by exists q.
Qed.

Definition moved (packages : list FacetResolved) : list (list Z) :=
  map final_path packages ++ map backup_path packages.

Lemma head_apart p packages :
  apart (p :: packages) -> final_path p ∉ moved packages /\ backup_path p ∉ moved packages /\
  final_path p ∉ map scratch_of packages /\ backup_path p ∉ map scratch_of packages /\
  scratch_of p ∉ moved packages.
Proof.
  intros (Hp & _ & Hq)%apart_cons. unfold moved.
  split_and!; rewrite ?not_elem_of_app; try split;
    intros (q & E & Hin)%list_elem_of_fmap; destruct (Hq q Hin) as [Hc Hn];
    destruct (paths_apart p q Hp Hc) as (A1 & A2 & A3); destruct (paths_apart q p Hc Hp) as (B1 & B2 & B3);
    destruct (paths_injective p q Hp Hc Hn) as (C1 & C2 & C3); congruence.
Qed.

(** A package the second loop got through. *)
Definition saved (d d' : Disk) (entry : FacetResolved * bool) : Prop :=
  let '(p, had_previous) := entry in
  trees d' !! final_path p = None /\
  if had_previous : bool then is_Some (trees d !! final_path p) /\ trees d' !! backup_path p = trees d !! final_path p
  else trees d !! final_path p = None.

Lemma saved_changes d a b paths entry :
  changes paths a b -> final_path (fst entry) ∉ paths -> backup_path (fst entry) ∉ paths ->
  saved d a entry -> saved d b entry.
Proof. destruct entry as [p had]. unfold saved. simpl. intros Hc Hf Hb. by rewrite !(Hc _) by done. Qed.

Lemma back_up_changes packages d :
  let '(_, _, d') := back_up packages d in changes (moved packages) d d'.
Proof.
  revert d. induction packages as [|p packages IH]; intros d; [done|]. cbn [back_up].
  pose proof (remove_changes (backup_path p) d) as Hr.
  destruct (remove_directory_recursive (backup_path p) d) as [[] a]; simpl in *.
  2:{ intros k Hk. apply Hr. unfold moved in Hk. set_solver. }
  destruct (file_exists (final_path p) a).
  - pose proof (rename_changes (final_path p) (backup_path p) a) as Hm.
    destruct (rename (final_path p) (backup_path p) a) as [[] b]; simpl in *.
    + specialize (IH b). destruct (back_up packages b) as [[done_ ok] c]. intros k Hk. unfold moved in *.
      rewrite IH, Hm, Hr by set_solver. done.
    + intros k Hk. unfold moved in Hk. rewrite Hm, Hr by set_solver. done.
  - specialize (IH a). destruct (back_up packages a) as [[done_ ok] c]. intros k Hk. unfold moved in *.
    rewrite IH, Hr by set_solver. done.
Qed.

(** The second loop stops at the first package it cannot save; the packages
    from there on keep their trees. *)
Definition backed (packages : list FacetResolved) (d d' : Disk) (done_ : list (FacetResolved * bool)) (ok : bool) : Prop :=
  Forall (saved d d') done_ /\
  exists rest, packages = map fst done_ ++ rest /\ (ok = true -> rest = []) /\
    forall p, p ∈ rest -> trees d' !! final_path p = trees d !! final_path p.

Lemma backed_cons p packages d a b done_ ok had :
  apart (p :: packages) -> changes [final_path p; backup_path p] d a -> changes (moved packages) a b ->
  saved d a (p, had) -> backed packages a b done_ ok -> backed (p :: packages) d b ((p, had) :: done_) ok.
Proof.
  intros Ha C1 C2 Hs (Hd & rest & E & Hok & Hrest).
  destruct (head_apart p packages Ha) as (H1 & H2 & _). destruct (apart_cons p packages Ha) as (Hp & _ & Hq).
  assert (Hfar : forall q, q ∈ packages -> final_path q ∉ [final_path p; backup_path p]).
  { intros q Hin. destruct (Hq q Hin) as [Hc Hn]. destruct (paths_injective p q Hp Hc Hn) as (I1 & _).
    destruct (paths_apart q p Hc Hp) as (I2 & _). set_solver. }
  split.
  - constructor; [by eapply saved_changes|]. apply Forall_forall. intros [q had'] Hin.
    assert (q ∈ packages) by (rewrite E; apply elem_of_app; left; apply list_elem_of_fmap; by exists (q, had')).
    eapply Forall_forall in Hd; [|exact Hin]. unfold saved in *. by rewrite <- (C1 (final_path q)) by auto.
  - exists rest. rewrite E. split_and!; try done. intros q Hin. rewrite Hrest by done. apply C1, Hfar.
    rewrite E. apply elem_of_app. by right.
Qed.

Lemma back_up_spec packages d :
  apart packages -> let '(done_, ok, d') := back_up packages d in backed packages d d' done_ ok.
Proof.
  revert d. induction packages as [|p packages IH]; intros d Ha.
  { split; [constructor|]. exists []. split_and!; try done. }
  destruct (apart_cons p packages Ha) as (Hp & Ha' & _). destruct (paths_apart p p Hp Hp) as (Hfb & _). cbn [back_up].
  pose proof (remove_spec (backup_path p) d) as Hr.
  destruct (remove_directory_recursive (backup_path p) d) as [[] a]; simpl.
  2:{ destruct Hr as [t Hr]. split; [constructor|]. exists (p :: packages). split_and!; try done. intros q Hq.
      rewrite Hr, lookup_insert_ne; [done|]. destruct (apart_cons p packages Ha) as (_ & _ & Hfar).
      apply elem_of_cons in Hq as [->|Hq]; [done|]. destruct (Hfar q Hq) as [Hc _].
      destruct (paths_apart q p Hc Hp) as (? & _). congruence. }
  assert (Hfa : trees a !! final_path p = trees d !! final_path p) by (rewrite Hr; by apply lookup_delete_ne).
  assert (Hca : changes [final_path p; backup_path p] d a).
  { intros k Hk. rewrite Hr, lookup_delete_ne by set_solver. done. }
  unfold file_exists. case_bool_decide as Hex.
  - pose proof (rename_spec (final_path p) (backup_path p) a) as Hm.
    destruct (rename (final_path p) (backup_path p) a) as [[] b]; simpl.
    + destruct Hm as (t & Ht & Hb). specialize (IH b Ha'). pose proof (back_up_changes packages b) as Hc.
      destruct (back_up packages b) as [[done_ ok] c]. apply (backed_cons p packages d b c); try done.
      * intros k Hk. rewrite Hb, lookup_insert_ne, lookup_delete_ne by set_solver. by apply Hca.
      * unfold saved. rewrite Hb, lookup_insert_ne, lookup_delete_eq, lookup_insert_eq by congruence.
        rewrite <- Hfa, Ht. split; [done|]. split; [by eexists|done].
    + split; [constructor|]. exists (p :: packages). split_and!; try done. intros q Hq. rewrite Hm, Hr.
      apply lookup_delete_ne. destruct (apart_cons p packages Ha) as (_ & _ & Hfar).
      apply elem_of_cons in Hq as [->|Hq]; [done|]. destruct (Hfar q Hq) as [Hc _].
      destruct (paths_apart q p Hc Hp) as (? & _). congruence.
  - specialize (IH a Ha'). pose proof (back_up_changes packages a) as Hc.
    destruct (back_up packages a) as [[done_ ok] c]. apply (backed_cons p packages d a c); try done.
    unfold saved. rewrite <- Hfa. apply eq_None_not_Some in Hex. by rewrite Hex.
Qed.

Lemma apart_far p packages q :
  apart (p :: packages) -> q ∈ packages ->
  final_path q ∉ [scratch_of p; final_path p] /\ scratch_of q ∉ [scratch_of p; final_path p] /\
  backup_path q ∉ [scratch_of p; final_path p].
Proof.
  intros (Hp & _ & Hq)%apart_cons Hin. destruct (Hq q Hin) as [Hc Hn].
  destruct (paths_apart p q Hp Hc) as (A1 & A2 & A3). destruct (paths_apart q p Hc Hp) as (B1 & B2 & B3).
  destruct (paths_injective p q Hp Hc Hn) as (C1 & C2 & C3). set_solver.
Qed.

Lemma move_in_changes packages d :
  let '(_, _, d') := move_in packages d in changes (map scratch_of packages ++ map final_path packages) d d'.
Proof.
  revert d. induction packages as [|p packages IH]; intros d; [done|]. cbn [move_in].
  pose proof (rename_changes (scratch_of p) (final_path p) d) as Hm.
  destruct (rename (scratch_of p) (final_path p) d) as [[] a]; simpl in *.
  - specialize (IH a). destruct (move_in packages a) as [[n ok] b]. intros k Hk. rewrite IH, Hm by set_solver. done.
  - intros k Hk. apply Hm. set_solver.
Qed.

(** The third loop puts the trees of the first [n] packages in place and leaves
    the others where they are. *)
Lemma move_in_spec packages d :
  apart packages -> let '(n, ok, d') := move_in packages d in
  (n <= List.length packages)%nat /\ (ok = true -> n = List.length packages) /\
  (forall p, p ∈ take n packages ->
     is_Some (trees d !! scratch_of p) /\ trees d' !! final_path p = trees d !! scratch_of p) /\
  (forall p, p ∈ drop n packages -> trees d' !! final_path p = trees d !! final_path p).
Proof.
  revert d. induction packages as [|p packages IH]; intros d Ha.
  { split_and!; try done; intros p Hp; by apply elem_of_nil in Hp. }
  cbn [move_in]. destruct (apart_cons p packages Ha) as (Hp & Ha' & Hfar).
  destruct (head_apart p packages Ha) as (H1 & H2 & H3 & H4 & H5). unfold moved in *.
  pose proof (rename_spec (scratch_of p) (final_path p) d) as Hm.
  pose proof (rename_changes (scratch_of p) (final_path p) d) as Hc.
  destruct (rename (scratch_of p) (final_path p) d) as [[] a]; simpl in *.
  - destruct Hm as (t & Ht & Hm). specialize (IH a Ha'). pose proof (move_in_changes packages a) as Hmc.
    destruct (move_in packages a) as [[n ok] b]. destruct IH as (L1 & L2 & L3 & L4). split_and!; [simpl; lia| | |].
    + intros E. by rewrite L2.
    + intros q Hq. cbn [take] in Hq. apply elem_of_cons in Hq as [->|Hq].
      * rewrite Ht. split; [by eexists|]. rewrite Hmc by (apply not_elem_of_app in H1 as [? _]; apply not_elem_of_app; done).
        by rewrite Hm, lookup_insert_eq.
      * assert (Hin : q ∈ packages) by (rewrite <- (take_drop n packages); apply elem_of_app; by left).
        destruct (apart_far p packages q Ha Hin) as (F1 & F2 & _). destruct (L3 q Hq) as [K1 K2].
        rewrite <- (Hc (scratch_of q)) by done. done.
    + intros q Hq. cbn [drop] in Hq. assert (Hin : q ∈ packages) by (rewrite <- (take_drop n packages); apply elem_of_app; by right).
      destruct (apart_far p packages q Ha Hin) as (F1 & F2 & _). rewrite L4 by done. by apply Hc.
  - split_and!; [lia|done| |]; intros q Hq; [by apply elem_of_nil in Hq|]. by rewrite Hm.
Qed.

Lemma remove_installed_changes packages d : changes (map final_path packages) d (remove_installed packages d).
Proof.
  revert d. induction packages as [|p packages IH]; intros d; [done|]. cbn [remove_installed map].
  intros k Hk. rewrite IH by set_solver. apply remove_changes. set_solver.
Qed.

Lemma drop_backups_changes entries d :
  changes (map (fun e => backup_path (fst e)) entries) d (drop_backups entries d).
Proof.
  revert d. induction entries as [|[p had] entries IH]; intros d; [done|]. cbn [drop_backups map fst].
  intros k Hk. rewrite IH by set_solver. destruct had; [|done]. apply remove_changes. set_solver.
Qed.

Lemma restore_changes entries d : changes (moved (map fst entries)) d (restore entries d).
Proof.
  revert d. induction entries as [|[p had] entries IH]; intros d; [done|]. cbn [restore].
  intros k Hk. unfold moved in *. simpl in Hk. rewrite IH by set_solver. destruct had; [|done].
  apply rename_changes. set_solver.
Qed.

(** Moving backups back loses none of them. *)
Lemma restore_keeps entries d p t :
  apart (map fst entries) -> (p, true) ∈ entries -> trees d !! backup_path p = Some t ->
  trees (restore entries d) !! final_path p = Some t \/ trees (restore entries d) !! backup_path p = Some t.
Proof.
  revert d. induction entries as [|[q had] entries IH]; intros d Ha Hin Ht; [by apply elem_of_nil in Hin|].
  cbn [map fst] in Ha. destruct (apart_cons _ _ Ha) as (Hq & Ha' & Hfar). cbn [restore].
  apply elem_of_cons in Hin as [[= <- <-]|Hin].
  - destruct (head_apart _ _ Ha) as (H1 & H2 & _).
    pose proof (rename_spec (backup_path p) (final_path p) d) as Hm.
    destruct (rename (backup_path p) (final_path p) d) as [[] a]; simpl.
    + destruct Hm as (t' & Ht' & Hm). left. rewrite (restore_changes entries a) by done.
      rewrite Hm, lookup_insert_eq. congruence.
    + right. rewrite (restore_changes entries a) by done. by rewrite Hm.
  - apply IH; [done|done|]. assert (Hp : p ∈ map fst entries) by (apply list_elem_of_fmap; by exists (p, true)).
    destruct (Hfar p Hp) as [Hc Hn]. destruct had; [|done].
    rewrite (rename_changes (backup_path q) (final_path q) d); [done|].
    destruct (paths_apart q p Hq Hc) as (A1 & _). destruct (paths_injective q p Hq Hc Hn) as (_ & A2 & _). set_solver.
Qed.

(** What never fails on the way back. *)
Definition rollback_works : Prop :=
  (forall n t, remains n t = None) /\ forall n p, rename_ok n (backup_path p) (final_path p) = true.

Lemma restore_works entries d p had :
  rollback_works -> apart (map fst entries) -> (p, had) ∈ entries ->
  (had = true -> is_Some (trees d !! backup_path p)) ->
  trees (restore entries d) !! final_path p =
  if had : bool then trees d !! backup_path p else trees d !! final_path p.
Proof.
  intros [_ Hok]. revert d. induction entries as [|[q had'] entries IH]; intros d Ha Hin Hb; [by apply elem_of_nil in Hin|].
  cbn [map fst] in Ha. destruct (apart_cons _ _ Ha) as (Hq & Ha' & Hfar). cbn [restore].
  apply elem_of_cons in Hin as [[= <- <-]|Hin].
  - destruct (head_apart _ _ Ha) as (H1 & H2 & _). rewrite (restore_changes entries) by done.
    destruct had; [|done]. destruct (Hb eq_refl) as [t Ht]. unfold rename. rewrite Ht, Hok. simpl.
    by rewrite lookup_insert_eq.
  - assert (Hp : p ∈ map fst entries) by (apply list_elem_of_fmap; by exists (p, had)).
    destruct (Hfar p Hp) as [Hc Hn].
    assert (Hsame : forall k, k = backup_path p \/ k = final_path p ->
      trees (if had' then snd (rename (backup_path q) (final_path q) d) else d) !! k = trees d !! k).
    { intros k Hk. destruct had'; [|done]. apply rename_changes.
      destruct (paths_apart q p Hq Hc) as (A1 & _). destruct (paths_apart p q Hc Hq) as (A3 & _).
      destruct (paths_injective q p Hq Hc Hn) as (A4 & A2 & _). destruct Hk as [-> | ->]; set_solver. }
    rewrite IH by (rewrite ?Hsame; auto). destruct had; apply Hsame; auto.
Qed.

Lemma remove_works path k d :
  rollback_works -> k = path \/ trees d !! k = None ->
  trees (snd (remove_directory_recursive path d)) !! k = None.
Proof.
  intros [Hr _] Hk. unfold remove_directory_recursive. destruct (trees d !! path) as [t|] eqn:E.
  - rewrite Hr. simpl. destruct (decide (k = path)) as [->|Hn]; [apply lookup_delete_eq|].
    rewrite lookup_delete_ne by done. by destruct Hk.
  - simpl. destruct Hk as [->|?]; done.
Qed.

Lemma remove_installed_works packages d p :
  rollback_works -> p ∈ packages \/ trees d !! final_path p = None ->
  trees (remove_installed packages d) !! final_path p = None.
Proof.
  intros Hr. revert d. induction packages as [|q packages IH]; intros d Hin; cbn [remove_installed].
  { destruct Hin as [Hin|?]; [by apply elem_of_nil in Hin|done]. }
  apply IH. destruct Hin as [[->|?]%elem_of_cons|Hn]; [right|by left|right]; apply remove_works; auto.
Qed.

(** ** The installer as a whole *)

Lemma apart_app xs ys : apart (xs ++ ys) -> apart xs /\ forall p, p ∈ ys -> apart (p :: xs).
Proof.
  intros [Hc Hn]. rewrite map_app in Hn. apply Forall_app in Hc as [Hx Hy]. apply NoDup_app in Hn as (Nx & Hd & Ny).
  split; [done|]. intros p Hp. split; [constructor; [by eapply Forall_forall in Hy|done]|].
  simpl. apply NoDup_cons. split; [|done]. intros Hin. apply (Hd _ Hin). apply list_elem_of_fmap. by exists p.
Qed.

Lemma apart_in packages p : apart packages -> p ∈ packages ->
  final_path p ∉ map scratch_of packages /\ scratch_of p ∉ moved packages /\
  backup_path p ∉ map scratch_of packages ++ map final_path packages /\
  final_path p ∉ map backup_path packages.
Proof.
  intros [Hc _] Hp. assert (Hq : forall q, q ∈ packages -> component (res_name q) = true).
  { intros q Hq. by eapply Forall_forall in Hc. }
  unfold moved. split_and!; rewrite ?not_elem_of_app; try split; intros (q & E & Hin)%list_elem_of_fmap;
    destruct (paths_apart p q (Hq p Hp) (Hq q Hin)) as (A1 & A2 & A3);
    destruct (paths_apart q p (Hq q Hin) (Hq p Hp)) as (B1 & B2 & B3); congruence.
Qed.

(** A failure of the second loop. *)
Lemma back_up_rolls_back packages d done_ b :
  apart packages -> back_up packages d = (done_, false, b) ->
  forall p, p ∈ packages ->
  (forall t, trees d !! final_path p = Some t ->
     trees (restore done_ b) !! final_path p = Some t \/ trees (restore done_ b) !! backup_path p = Some t) /\
  (rollback_works -> trees (restore done_ b) !! final_path p = trees d !! final_path p).
Proof.
  intros Ha Hb p Hp. pose proof (back_up_spec packages d Ha) as Hs. rewrite Hb in Hs.
  destruct Hs as (Hd & rest & E & _ & Hrest). rewrite E in Ha, Hp. destruct (apart_app _ _ Ha) as [Ha1 Ha2].
  apply elem_of_app in Hp as [Hp|Hp].
  - apply list_elem_of_fmap in Hp as ([q had] & -> & Hin). simpl. eapply Forall_forall in Hd; [|exact Hin].
    destruct Hd as [Hf Hd]. split.
    + intros t Ht. destruct had; [|congruence]. destruct Hd as [_ Hd]. rewrite Ht in Hd.
      by apply restore_keeps.
    + intros Hw. rewrite (restore_works done_ b q had Hw Ha1 Hin).
      * destruct had; [by destruct Hd|congruence].
      * intros ->. destruct Hd as [Hi ->]. exact Hi.
  - destruct (head_apart _ _ (Ha2 p Hp)) as (H1 & _). rewrite (restore_changes done_ b) by done.
    rewrite Hrest by done. split; [by left|done].
Qed.

(** A failure of the third loop. *)
Lemma move_in_rolls_back packages d done_ b n c :
  apart packages -> back_up packages d = (done_, true, b) -> move_in packages b = (n, false, c) ->
  let d' := restore done_ (remove_installed (take n packages) c) in
  forall p, p ∈ packages ->
  (forall t, trees d !! final_path p = Some t ->
     trees d' !! final_path p = Some t \/ trees d' !! backup_path p = Some t) /\
  (rollback_works -> trees d' !! final_path p = trees d !! final_path p).
Proof.
  intros Ha Hb Hm d' p Hp. pose proof (back_up_spec packages d Ha) as Hs. rewrite Hb in Hs.
  destruct Hs as (Hd & rest & E & Hrest & _). rewrite (Hrest eq_refl), app_nil_r in E.
  pose proof (move_in_changes packages b) as Hc. pose proof (move_in_spec packages b Ha) as Hms.
  rewrite Hm in Hc, Hms. destruct Hms as (_ & _ & _ & Hleft).
  destruct (apart_in packages p Ha Hp) as (_ & _ & H3 & _).
  assert (Hbk : trees (remove_installed (take n packages) c) !! backup_path p = trees b !! backup_path p).
  { rewrite (remove_installed_changes (take n packages) c); [by apply Hc|].
    apply not_elem_of_app in H3 as [_ H3]. intros (q & Eq & Hq)%list_elem_of_fmap. apply H3.
    apply list_elem_of_fmap. exists q. split; [done|]. rewrite <- (take_drop n packages). apply elem_of_app. by left. }
  pose proof Hp as Hin. rewrite E in Hin. apply list_elem_of_fmap in Hin as ([q had] & -> & Hin). simpl in *.
  assert (Ha1 : apart (map fst done_)) by (by rewrite <- E).
  eapply Forall_forall in Hd; [|exact Hin]. destruct Hd as [Hf Hd]. split.
  - intros t Ht. destruct had; [|congruence]. destruct Hd as [_ Hd]. rewrite Ht in Hd.
    apply restore_keeps; [done|done|]. by rewrite Hbk.
  - intros Hw. unfold d'. rewrite (restore_works done_ _ q had Hw Ha1 Hin).
    + destruct had; [rewrite Hbk; by destruct Hd|]. rewrite Hd. apply remove_installed_works; [done|].
      rewrite <- (take_drop n packages) in Hp. apply elem_of_app in Hp as [Hp|Hp]; [by left|right].
      by rewrite Hleft.
    + intros ->. rewrite Hbk. destruct Hd as [Hi ->]. exact Hi.
Qed.

(** What the installer promises about the disk after it, given the disk
    [staged] its first loop left. *)
Record Installs (packages : list FacetResolved) (d staged : Disk) (ok : bool) (d' : Disk) : Prop := {
  installed : ok = true -> forall p, p ∈ packages ->
    is_Some (trees staged !! scratch_of p) /\ trees d' !! final_path p = trees staged !! scratch_of p;
  none_lost : ok = false -> forall p t, p ∈ packages -> trees d !! final_path p = Some t ->
    trees d' !! final_path p = Some t \/ trees d' !! backup_path p = Some t;
  rolled_back : ok = false -> rollback_works -> forall p, p ∈ packages ->
    trees d' !! final_path p = trees d !! final_path p;
  rest_untouched : changes (map scratch_of packages ++ moved packages) d d';
}.

Lemma install_spec packages d :
  apart packages ->
  let '(ok, d') := install_resolution packages d in Installs packages d (snd (stage_all packages d)) ok d'.
Proof.
  intros Ha. unfold install_resolution. pose proof (stage_all_changes packages d) as Cs.
  destruct (stage_all packages d) as [ok a]. simpl in Cs. cbn [snd].
  assert (Hfa : forall p, p ∈ packages -> trees a !! final_path p = trees d !! final_path p).
  { intros p Hp. apply Cs. by apply apart_in. }
  destruct ok; cbn [negb].
  2:{ constructor; [done| | |].
      - intros _ p t Hp Ht. left. by rewrite Hfa.
      - intros _ _ p Hp. by apply Hfa.
      - intros k [? _]%not_elem_of_app. by apply Cs. }
  pose proof (back_up_changes packages a) as Cb. pose proof (back_up_spec packages a Ha) as Sb.
  destruct (back_up packages a) as [[done_ ok] b] eqn:Eb.
  assert (Hfst : forall q, q ∈ map fst done_ -> q ∈ packages).
  { intros q Hq. destruct Sb as (_ & rest & -> & _). apply elem_of_app. by left. }
  assert (Hsub : forall k, k ∉ moved packages -> k ∉ moved (map fst done_) /\ k ∉ map (fun e => backup_path (fst e)) done_).
  { intros k Hk. unfold moved in *. rewrite not_elem_of_app in Hk. destruct Hk as [K1 K2].
    rewrite not_elem_of_app. split_and!; intros (q & -> & Hq)%list_elem_of_fmap.
    - apply K1, list_elem_of_fmap. eauto.
    - apply K2, list_elem_of_fmap. eauto.
    - apply K2, list_elem_of_fmap. exists (fst q). split; [done|]. apply Hfst, list_elem_of_fmap. by exists q. }
  destruct ok; cbn [negb].
  2:{ pose proof (back_up_rolls_back packages a done_ b Ha Eb) as Hr. constructor; [done| | |].
      - intros _ p t Hp Ht. apply (proj1 (Hr p Hp) t). by rewrite Hfa.
      - intros _ Hw p Hp. rewrite (proj2 (Hr p Hp) Hw). by apply Hfa.
      - intros k [K1 K2]%not_elem_of_app. rewrite (restore_changes done_ b) by by apply Hsub.
        rewrite Cb by done. by apply Cs. }
  pose proof (move_in_changes packages b) as Cm. pose proof (move_in_spec packages b Ha) as Sm.
  destruct (move_in packages b) as [[n ok] c] eqn:Em. destruct ok; cbn [negb].
  - destruct Sm as (_ & Hn & Hin & _). rewrite Hn in Hin by done. rewrite take_ge in Hin by done.
    constructor; [|done|done|].
    + intros _ p Hp. destruct (apart_in packages p Ha Hp) as (_ & H2 & _ & H4).
      rewrite (drop_backups_changes done_ c).
      * destruct (Hin p Hp) as [K1 K2]. rewrite K2. rewrite (Cb (scratch_of p)) in * by done. done.
      * intros (q & E & Hq)%list_elem_of_fmap. apply H4, list_elem_of_fmap. exists (fst q). split; [done|].
        apply Hfst, list_elem_of_fmap. by exists q.
    + intros k [K1 K2]%not_elem_of_app. rewrite (drop_backups_changes done_ c) by by apply Hsub.
      rewrite Cm, Cb; [by apply Cs|done|]. unfold moved in K2. apply not_elem_of_app in K2 as [? _].
      by apply not_elem_of_app.
  - pose proof (move_in_rolls_back packages a done_ b n c Ha Eb Em) as Hr. constructor; [done| | |].
    + intros _ p t Hp Ht. apply (proj1 (Hr p Hp) t). by rewrite Hfa.
    + intros _ Hw p Hp. rewrite (proj2 (Hr p Hp) Hw). by apply Hfa.
    + intros k [K1 K2]%not_elem_of_app. rewrite (restore_changes done_) by by apply Hsub.
      unfold moved in K2. apply not_elem_of_app in K2 as [K2 K3].
      rewrite (remove_installed_changes (take n packages) c).
      * rewrite Cm, Cb; [by apply Cs|by apply not_elem_of_app|by apply not_elem_of_app].
      * intros (q & -> & Hq)%list_elem_of_fmap. apply K2, list_elem_of_fmap. exists q. split; [done|].
        rewrite <- (take_drop n packages). apply elem_of_app. by left.
Qed.

End Install.

(** C15: Installing is all or nothing.  For packages whose names are distinct, short,
    single path components without a leading dot, which facet does not check,
    and whichever fetches, renames and removals fail:
    [install_resolution] touches only the three paths of each package; when it
    succeeds every package's directory is the tree that was fetched for it; when
    it fails no installed directory is lost (each is in its place or in its
    backup), and when the steps of the roll-back themselves succeed every
    directory is what it was before. *)
Theorem install_all_or_nothing {Tree : Type} `{FileSystem Tree} packages d :
  apart packages ->
  let '(ok, d') := install_resolution packages d in
  Installs packages d (snd (stage_all packages d)) ok d'.
Proof. apply install_spec. Qed.

(** ** An installation whose last move fails *)

Definition cut (name : string) : FacetResolved :=
  {| res_name := bytes name; res_source := FACET_SOURCE_GIT; res_git := bytes "https://git"; res_registry := [];
     res_sha256 := []; res_size := 0; res_ref := []; res_commit := bytes "0123"; res_version := [];
     res_required_by := [] |}.

(** Trees are numbers; moving the second cut into place fails. *)
#[local] Instance failing_disk : FileSystem nat := {|
  rename_ok := fun _ old _ => negb (bool_decide (old = scratch_of (cut "web")));
  remains := fun _ _ => None;
  clone_tree := fun n _ _ _ => (true, Some (100 + n)%nat);
  stripped := fun _ t => (true, t);
|}.

Definition before : Disk (Tree := nat) :=
  {| trees := {[final_path (cut "json") := 1%nat; final_path (cut "web") := 2%nat]}; ticks := O |}.

Lemma install_all_or_nothing_witness :
  apart [cut "json"; cut "web"] /\
  fst (install_resolution [cut "json"; cut "web"] before) = false /\
  trees (snd (install_resolution [cut "json"; cut "web"] before)) !! final_path (cut "json") = Some 1%nat.
Proof.
  assert (Ha : apart [cut "json"; cut "web"]).
  { split; [repeat constructor|]. refine (bool_decide_unpack _ _). vm_compute. exact I. }
  split; [exact Ha|]. split; [vm_compute; reflexivity|].
  pose proof (install_all_or_nothing [cut "json"; cut "web"] before Ha) as Hi.
  assert (Hf : fst (install_resolution [cut "json"; cut "web"] before) = false) by (vm_compute; reflexivity).
  destruct (install_resolution [cut "json"; cut "web"] before) as [ok d']. simpl in *.
  rewrite (rolled_back _ _ _ _ _ Hi Hf); [vm_compute; reflexivity| |left].
  split; [done|]. intros n p. reflexivity.
Defined.
