(* ===== verification/FacetProject.v ===== *)
(** * FacetProject: what [facet install] and [facet update] install

    The project's files (tools/facet.c) and the decisions of
    [run_install_or_update] (tools/facet_resolve.c) up to the packages it hands
    to the installer: read the lock, read Cutfile and Cutfile.dev, keep the lock
    or resolve again and write it. *)

From S2P Require Import Prelude CText Semver.
From S2P Require Import Value.
From S2P Require Import ManifestLiteral.
From S2P Require Import ManifestGrammar.
From S2P Require Import Facet.
From S2P Require Import FacetResolve.
From S2P Require Import FacetResolveOk.
From S2P Require Import FacetLock.
From Stdlib Require Import ZArith Lia Bool List String Ascii.
From stdpp Require Import base numbers list.

Local Open Scope Z_scope.
Local Open Scope c_scope.

(** ** Manifests of a project *)

(** [parse_dev_manifest] on the hash it read. *)
Definition parse_dev_manifest (hash : DiamondManifestValue) : option (list FacetDependency) :=
  if negb (forallb (fun field => bool_decide (fst field = bytes "dependencies")) (children_of hash)) then None else
  match diamond_manifest_get hash (bytes "dependencies") with
  | None => Some []
  | Some (MANIFEST_HASH children) => parse_dependencies children []
  | Some _ => None
  end.

(** The loop of [parse_project_manifest] over the development dependencies. *)
Fixpoint add_dev (dev deps : list FacetDependency) : option (list FacetDependency) :=
  match dev with
  | [] => Some deps
  | d :: rest =>
      if existsb (fun other => bool_decide (dep_name other = dep_name d)) deps then None
      else if (List.length deps =? FACET_MAX_DEPENDENCIES)%nat then None
      else add_dev rest (deps ++ [d])
  end.

Definition with_dependencies (m : FacetManifest) (deps : list FacetDependency) : FacetManifest :=
  {| manifest_name := manifest_name m; manifest_version := manifest_version m;
     has_version := has_version m; dependencies := deps |}.

Section Project.

Context `{World}.

(** Whether writing the lock and renaming it into place succeeds. *)
Context (lock_saved : nat -> list Z -> bool).

Definition current_or_former (current former : list Z) : VM Resolver (list Z) :=
  let! has_current := ask (fun t => path_exists t current) in
  if has_current : bool then vm_ret current else
  let! has_former := ask (fun t => path_exists t former) in
  vm_ret (if has_former : bool then former else current).

Definition project_manifest_path : VM Resolver (list Z) :=
  current_or_former (bytes "Cutfile") (bytes "diamond.cut").
Definition project_dev_manifest_path : VM Resolver (list Z) :=
  current_or_former (bytes "Cutfile.dev") (bytes "diamond.dev.cut").
Definition FACET_LOCK : list Z := bytes "Cutfile.lock".
Definition project_lock_path : VM Resolver (list Z) := current_or_former FACET_LOCK (bytes "facet.lock").

Fixpoint unambiguous (pairs : list (list Z * list Z)) : VM Resolver bool :=
  match pairs with
  | [] => vm_ret true
  | (current, former) :: rest =>
      let! has_current := ask (fun t => path_exists t current) in
      if negb has_current then unambiguous rest else
      let! has_former := ask (fun t => path_exists t former) in
      if has_former : bool then vm_ret false else unambiguous rest
  end.

Definition project_files_unambiguous : VM Resolver bool :=
  unambiguous [(bytes "Cutfile", bytes "diamond.cut"); (bytes "Cutfile.dev", bytes "diamond.dev.cut");
               (FACET_LOCK, bytes "facet.lock")].

Definition read_hash (path : list Z) : VM Resolver (option DiamondManifestValue) :=
  let! text := ask (fun t => whole_file t path) in
  let! malloc_ok := ask parse_malloc in
  vm_lift (facet_read_hash malloc_ok text).

(** [parse_project_manifest]; the table for the development dependencies may
    not be allocated. *)
Definition parse_project_manifest : VM Resolver (option FacetManifest) :=
  let! path := project_manifest_path in
  let! manifest := read_manifest path in
  match manifest with
  | None => vm_ret None
  | Some manifest =>
      let! dev_path := project_dev_manifest_path in
      let! has_dev := ask (fun t => path_exists t dev_path) in
      if negb has_dev then vm_ret (Some manifest) else
      let! room := ask table_malloc in
      if negb room then vm_ret None else
      let! dev_path := project_dev_manifest_path in
      let! hash := read_hash dev_path in
      vm_ret (let? hash := hash in
              let? dev := parse_dev_manifest hash in
              let? deps := add_dev dev (dependencies manifest) in
              Some (with_dependencies manifest deps))
  end.

(** [parse_lockfile] of a path. *)
Definition read_lock (path : list Z) : VM Resolver (option (list FacetResolved)) :=
  let! text := ask (fun t => whole_file t path) in
  let! malloc_ok := ask parse_malloc in
  vm_lift (parse_lockfile malloc_ok text).

(** ** The decision *)

Definition scratch_root : list Z := bytes "cuts/.facet-tmp".

(** What [run_install_or_update] goes on to prepare and install, or the code it
    exits with; [kept] tells whether the lock was kept.  That a lock under the
    former name is removed after a new one was written is left out: nothing
    reads it again. *)
Record InstallPlan := { plan_manifest : FacetManifest; plan_packages : list FacetResolved; kept : bool }.

Definition keep_or_resolve (force_resolve has_lock : bool) (previous : list FacetResolved)
    (manifest : FacetManifest) : VM Resolver (Z + InstallPlan) :=
  let! resolve :=
    (if force_resolve || negb has_lock then vm_ret true
     else let! covers := vm_lift (lock_covers_manifest previous manifest) in vm_ret (negb covers)) in
  if negb resolve
  then vm_ret (inr {| plan_manifest := manifest; plan_packages := previous; kept := true |})
  else
    let! ok := resolve_full_graph scratch_root (if has_lock then Some previous else None) manifest in
    if negb ok then vm_ret (inl 70) else
    let! s := get_state in
    let! written := ask (fun t => lock_saved t (lockfile_text (resolution s))) in
    if negb written then vm_ret (inl 70)
    else vm_ret (inr {| plan_manifest := manifest; plan_packages := resolution s; kept := false |}).

Definition run_install_or_update (force_resolve : bool) : VM Resolver (Z + InstallPlan) :=
  let! path := project_manifest_path in
  let! has_manifest := ask (fun t => path_exists t path) in
  if negb has_manifest then vm_ret (inl 66) else
  let! cuts := ask (fun t => directory_made t (bytes "cuts")) in
  if negb cuts then vm_ret (inl 74) else
  let! scratch := ask (fun t => directory_made t scratch_root) in
  if negb scratch then vm_ret (inl 74) else
  let! lock_path := project_lock_path in
  let! has_lock := ask (fun t => path_exists t lock_path) in
  let! clear := project_files_unambiguous in
  if negb clear then vm_ret (inl 70) else
  let! previous := (if has_lock : bool then read_lock lock_path else vm_ret (Some [])) in
  match previous with
  | None => vm_ret (inl 70)
  | Some previous =>
      let! manifest := parse_project_manifest in
      match manifest with
      | None => vm_ret (inl 70)
      | Some manifest => keep_or_resolve force_resolve has_lock previous manifest
      end
  end.

(** ** What is promised *)

(** A package serves a dependency: its name and source, and a version the
    constraint allows. *)
Definition serves (p : FacetResolved) (d : FacetDependency) : Prop :=
  res_name p = dep_name d /\ same_source (res_source p) (res_git p) (res_registry p) d = true /\
  (uses_version d = true -> exists c v, semver_constraint_parse (version_text d) = Some c /\
     semver_parse (res_version p) = Some v /\ allows c v).

Lemma covers_defined packages deps : exists b, covers_dependencies packages deps = Some b.
Proof.
  induction deps as [|d deps [b IH]]; [by eexists|]. cbn [covers_dependencies].
  assert (Hd : exists ok, lock_covers_dependency packages d = Some ok).
  { unfold lock_covers_dependency. destruct (find_locked _ _ _); [|by eexists]. destruct (negb _); [by eexists|].
    destruct (uses_version d); [|by eexists]. destruct (semver_constraint_parse _) as [c|]; [|by eexists].
    destruct (semver_parse _) as [v|]; [|by eexists]. apply satisfies_defined. }
  destruct Hd as [[] ->]; simpl; [by exists b|by eexists].
Qed.

Lemma find_locked_in name packages found p :
  find_locked name packages found = Some p -> found = Some p \/ (p ∈ packages /\ res_name p = name).
Proof.
  revert found. induction packages as [|q packages IH]; intros found; [by left|]. cbn [find_locked].
  intros [E|[? ?]]%IH; [|right; split; [by right|done]]. case_bool_decide; [|by left].
  injection E as ->. right. split; [left|done].
Qed.

Lemma covered_served packages deps d :
  covers_dependencies packages deps = Some true -> d ∈ deps -> exists p, p ∈ packages /\ serves p d.
Proof.
  induction deps as [|e deps IH]; [by intros _ ?%elem_of_nil|]. cbn [covers_dependencies].
  destruct (lock_covers_dependency packages e) as [[]|] eqn:E; try done. simpl. intros Hc [->|Hd]%elem_of_cons; [|auto].
  unfold lock_covers_dependency in E. destruct (find_locked (dep_name e) packages None) as [p|] eqn:Hf; [|done].
  apply find_locked_in in Hf as [?|[Hp Hn]]; [done|]. exists p. split; [done|].
  destruct (same_source _ _ _ e) eqn:Hs; [|done]. simpl in E. split_and!; try done. intros Hu. rewrite Hu in E.
  destruct (semver_constraint_parse _) as [c|]; [|done]. destruct (semver_parse _) as [v|]; [|done]. by exists c, v.
Qed.

Lemma answered_served packages d :
  (uses_version d = false -> dep_source d = FACET_SOURCE_GIT) -> answered packages d ->
  exists p, p ∈ packages /\ serves p d.
Proof.
  intros Hg (p & Hp & Hn & Ha). exists p. split; [done|]. unfold serves. destruct (uses_version d).
  - destruct Ha as (Hs & c & v & ?). split_and!; try done. by exists c, v.
  - destruct Ha as (Hs & Hgit & _). split_and!; try done. unfold same_source. rewrite Hs, Hgit, (Hg eq_refl).
    by rewrite !bool_decide_true.
Qed.

(** ** The project manifest *)

Definition pins_git (deps : list FacetDependency) : Prop :=
  forall d, d ∈ deps -> uses_version d = false -> dep_source d = FACET_SOURCE_GIT.

Lemma parsed_pins children deps : parse_dependencies children [] = Some deps -> pins_git deps.
Proof.
  intros E d Hd Hu. destruct (parse_dependencies_from _ _ _ _ E Hd) as [?%elem_of_nil|(n & spec & Hs)]; [done|].
  by eapply pinned_is_git.
Qed.

Lemma dev_pins hash dev : parse_dev_manifest hash = Some dev -> pins_git dev.
Proof.
  unfold parse_dev_manifest. destruct (negb _); [done|].
  destruct (diamond_manifest_get hash (bytes "dependencies")) as [[]|]; try done.
  - apply parsed_pins.
  - intros [= <-] d Hd. by apply elem_of_nil in Hd.
Qed.

(** The development dependencies follow the others, under names of their own. *)
Lemma add_dev_spec dev deps all :
  add_dev dev deps = Some all ->
  all = deps ++ dev /\ NoDup (map dep_name dev) /\
  (forall d other, d ∈ dev -> other ∈ deps -> dep_name other <> dep_name d).
Proof.
  revert deps. induction dev as [|d dev IH]; intros deps; cbn [add_dev].
  { intros [= <-]. rewrite app_nil_r. split_and!; [done|constructor|]. intros d other Hd. by apply elem_of_nil in Hd. }
  destruct (existsb _ deps) eqn:He; [done|]. destruct (_ =? _)%nat; [done|]. intros (-> & Hn & Hf)%IH.
  assert (Hd : forall other, other ∈ deps -> dep_name other <> dep_name d).
  { intros other Ho E. rewrite <- not_true_iff_false in He. apply He, existsb_exists. exists other.
    split; [by apply list_elem_of_In|by apply bool_decide_eq_true]. }
  split_and!; [by rewrite <- app_assoc| |].
  - simpl. apply NoDup_cons. split; [|done]. intros (e & E & Hin)%list_elem_of_fmap.
    apply (Hf e d Hin); [|done]. apply elem_of_app. right. by apply list_elem_of_singleton.
  - intros e other [->|Hin]%elem_of_cons Ho; [by apply Hd|]. apply (Hf e other Hin). apply elem_of_app. by left.
Qed.

(** *** Where it comes from *)

Lemma vwp_ask_now {A} (question : nat -> A) s (Q : A -> Resolver -> Prop) :
  Q (question (now s)) (tick s) -> vwp (ask question) s Q.
Proof. done. Qed.

(** The path a file with a former name is looked up at: the former one only
    when it was seen and the current one was not. *)
Definition named_file (current former path : list Z) : Prop :=
  path = current \/
  (path = former /\ exists t t', path_exists t current = false /\ path_exists t' former = true).

(** The data literal read from a path, at some time. *)
Definition hash_at (path : list Z) (hash : DiamondManifestValue) : Prop :=
  exists t t', facet_read_hash (parse_malloc t') (whole_file t path) = Some (Some hash).

Definition lock_at (path : list Z) (packages : list FacetResolved) : Prop :=
  exists t t', parse_lockfile (parse_malloc t') (whole_file t path) = Some (Some packages).

(** What [parse_project_manifest] promises: the manifest of Cutfile, followed by
    the dependencies of Cutfile.dev when that file exists, under names of their
    own. *)
Definition project_manifest (m : FacetManifest) : Prop :=
  exists path hash base dev_path,
    named_file (bytes "Cutfile") (bytes "diamond.cut") path /\ hash_at path hash /\
    parse_manifest hash = Some base /\
    named_file (bytes "Cutfile.dev") (bytes "diamond.dev.cut") dev_path /\
    ((m = base /\ exists t, path_exists t dev_path = false) \/
     exists dev_hash dev, hash_at dev_path dev_hash /\ parse_dev_manifest dev_hash = Some dev /\
       m = with_dependencies base (dependencies base ++ dev) /\
       (forall d other, d ∈ dev -> other ∈ dependencies base -> dep_name other <> dep_name d)).

Lemma current_or_former_spec current former s :
  vwp (current_or_former current former) s (fun path _ => named_file current former path).
Proof.
  unfold current_or_former. vstep. apply vwp_ask_now. destruct (path_exists (now s) current) eqn:E1; [vstep; by left|].
  vstep. apply vwp_ask_now. vstep. destruct (path_exists _ former) eqn:E2; [right|by left]. eauto 10.
Qed.

Lemma read_hash_spec path s : vwp (read_hash path) s (fun h _ => forall hash, h = Some hash -> hash_at path hash).
Proof.
  unfold read_hash. vstep. apply vwp_ask_now. vstep. apply vwp_ask_now. apply vwp_lift.
  destruct (facet_read_hash _ _) as [h|] eqn:E; [intros hash ->; by eexists _, _|].
  unfold facet_read_hash in E. destruct (whole_file _ path) as [text|]; [|done].
  destruct (diamond_manifest_parse _ text 160) eqn:E1; [done|by apply manifest_parse_returns in E1].
Qed.

Lemma read_lock_spec path s : vwp (read_lock path) s (fun r _ => forall packages, r = Some packages -> lock_at path packages).
Proof.
  unfold read_lock. vstep. apply vwp_ask_now. vstep. apply vwp_ask_now. apply vwp_lift.
  destruct (parse_lockfile _ _) as [h|] eqn:E; [intros packages ->; by eexists _, _|].
  unfold parse_lockfile, facet_read_hash in E. destruct (whole_file _ path) as [text|]; [|done].
  destruct (diamond_manifest_parse _ text 160) eqn:E1; [done|by apply manifest_parse_returns in E1].
Qed.

(** [read_manifest] gives what [parse_manifest] made of the file. *)
Lemma read_manifest_parses path s :
  vwp (read_manifest path) s (fun m _ => forall manifest, m = Some manifest ->
    exists hash, hash_at path hash /\ parse_manifest hash = Some manifest).
Proof.
  unfold read_manifest. vstep. apply vwp_ask_now. vstep. apply vwp_ask_now. vstep. apply vwp_lift.
  destruct (facet_read_hash _ _) as [[hash|]|] eqn:E.
  - simpl. vstep. intros m Hm. exists hash. split; [by eexists _, _|done].
  - simpl. by vstep.
  - unfold facet_read_hash in E. destruct (whole_file _ path) as [text|]; [|done].
    destruct (diamond_manifest_parse _ text 160) eqn:E1; [done|by apply manifest_parse_returns in E1].
Qed.

Lemma project_manifest_spec s :
  vwp parse_project_manifest s (fun m _ => forall manifest, m = Some manifest -> project_manifest manifest).
Proof.
  unfold parse_project_manifest, project_manifest_path, project_dev_manifest_path.
  vstep. eapply vwp_mono; [apply current_or_former_spec|]. intros path s1 Hpath.
  vstep. eapply vwp_mono; [apply read_manifest_parses|]. intros m s2 Hm.
  destruct m as [base|]; [|by vstep]. destruct (Hm base eq_refl) as (hash & Hat & Hh).
  vstep. eapply vwp_mono; [apply current_or_former_spec|]. intros dev_path s3 Hdev_path.
  vstep. apply vwp_ask_now. destruct (path_exists _ dev_path) eqn:He; cbn [negb].
  2:{ vstep. intros ? [= <-]. exists path, hash, base, dev_path. split_and!; try done. left. eauto. }
  do 2 vstep. destruct (negb _); [by vstep|].
  vstep. eapply vwp_mono; [apply current_or_former_spec|]. intros dev_path' s4 Hdev_path'.
  vstep. eapply vwp_mono; [apply read_hash_spec|]. intros dev_hash s5 Hdev_hash. vstep.
  intros all Hall. destruct dev_hash as [dev_hash|]; [|done].
  destruct (parse_dev_manifest dev_hash) as [dev|] eqn:Hdev; [|done].
  destruct (add_dev dev (dependencies base)) as [deps|] eqn:Hadd; [|done]. injection Hall as <-.
  apply add_dev_spec in Hadd as (-> & _ & Hfresh). exists path, hash, base, dev_path'. split_and!; try done. right.
  exists dev_hash, dev. split_and!; try done. by apply Hdev_hash.
Qed.

Lemma project_manifest_pins m : project_manifest m -> pins_git (dependencies m).
Proof.
  intros (path & hash & base & dev_path & _ & _ & Hh & _ & Hdev).
  assert (Hp : pins_git (dependencies base)) by (intros d; by eapply manifest_pins).
  destruct Hdev as [[-> _]|(dev_hash & dev & _ & Hdev & -> & _)]; [done|].
  intros d [Hd|Hd]%elem_of_app; [by apply Hp|]. by eapply dev_pins.
Qed.

Lemma unambiguous_spec pairs s : vwp (unambiguous pairs) s (fun _ _ => True).
Proof.
  revert s. induction pairs as [|[current former] pairs IH]; intros s; cbn [unambiguous]; [by vstep|].
  do 2 vstep. destruct (negb _).
  - eapply vwp_mono; [apply IH|]. intros b s' Hs. exact Hs.
  - do 2 vstep. destruct a0; [by vstep|]. eapply vwp_mono; [apply IH|]. intros b s' Hs. exact Hs.
Qed.

(** The packages that are installed: the manifest is the project's, every one of
    its dependencies is served; a lock that is kept was read from the lock file
    and covers the manifest, and without one the packages are a resolution. *)
Definition plan_ok (force_resolve : bool) (r : Z + InstallPlan) : Prop :=
  match r with
  | inl code => code = 66 \/ code = 70 \/ code = 74
  | inr plan =>
      project_manifest (plan_manifest plan) /\
      (forall d, d ∈ dependencies (plan_manifest plan) -> exists p, p ∈ plan_packages plan /\ serves p d) /\
      (kept plan = true -> force_resolve = false /\
         (exists path, named_file FACET_LOCK (bytes "facet.lock") path /\ lock_at path (plan_packages plan)) /\
         lock_covers_manifest (plan_packages plan) (plan_manifest plan) = Some true) /\
      (kept plan = false -> exists visits, Resolves (plan_manifest plan) (plan_packages plan) visits)
  end.

Lemma keep_or_resolve_spec force_resolve has_lock previous manifest s :
  project_manifest manifest ->
  (has_lock = true -> exists path, named_file FACET_LOCK (bytes "facet.lock") path /\ lock_at path previous) ->
  vwp (keep_or_resolve force_resolve has_lock previous manifest) s (fun r _ => plan_ok force_resolve r).
Proof.
  intros Hproject Hlock. pose proof (project_manifest_pins _ Hproject) as Hp. unfold keep_or_resolve. vstep.
  assert (Hgo : forall resolve s1,
    (resolve = false -> force_resolve = false /\ has_lock = true /\ lock_covers_manifest previous manifest = Some true) ->
    vwp (if negb resolve
         then vm_ret (inr {| plan_manifest := manifest; plan_packages := previous; kept := true |})
         else
           let! ok := resolve_full_graph scratch_root (if has_lock then Some previous else None) manifest in
           if negb ok then vm_ret (inl 70) else
           let! s := get_state in
           let! written := ask (fun t => lock_saved t (lockfile_text (resolution s))) in
           if negb written then vm_ret (inl 70)
           else vm_ret (inr {| plan_manifest := manifest; plan_packages := resolution s; kept := false |})) s1
      (fun r _ => plan_ok force_resolve r)).
  { intros [] s1 Hk; simpl.
    - vstep. eapply vwp_mono; [apply full_graph_spec|]. intros ok s2 Hok. destruct ok; simpl; [|vstep; simpl; auto].
      do 4 vstep. destruct (negb _); [vstep; simpl; auto|]. vstep. specialize (Hok eq_refl). simpl. split_and!.
      + done.
      + intros d Hd. apply answered_served; [by apply Hp|]. by apply (root_answered _ _ _ Hok).
      + done.
      + intros _. by exists (visited s2).
    - vstep. destruct (Hk eq_refl) as (-> & Hl & Hc). simpl. split_and!; [done| |by auto|done].
      intros d Hd. by eapply covered_served. }
  destruct (force_resolve || negb has_lock) eqn:Ef.
  - vstep. by apply Hgo.
  - vstep. apply vwp_lift. unfold lock_covers_manifest.
    destruct (covers_defined previous (dependencies manifest)) as [b Hb]. rewrite Hb. simpl. vstep. apply Hgo.
    intros Hb'. apply negb_false_iff in Hb' as ->. apply orb_false_iff in Ef as [? ?%negb_false_iff]. done.
Qed.

Lemma run_spec force_resolve s :
  vwp (run_install_or_update force_resolve) s (fun r _ => plan_ok force_resolve r).
Proof.
  unfold run_install_or_update. unfold project_manifest_path at 1. unfold project_lock_path, project_files_unambiguous.
  vstep. eapply vwp_mono; [apply current_or_former_spec|]. intros path s1 _. do 2 vstep.
  destruct (negb _); [vstep; simpl; auto|]. do 2 vstep. destruct (negb _); [vstep; simpl; auto|].
  do 2 vstep. destruct (negb _); [vstep; simpl; auto|].
  vstep. eapply vwp_mono; [apply current_or_former_spec|]. intros lock_path s2 Hpath. do 2 vstep. rename a2 into has_lock.
  vstep. eapply vwp_mono; [apply unambiguous_spec|]. intros clear s3 _.
  destruct (negb _); [vstep; simpl; auto|]. vstep.
  assert (Hgo : forall previous s4, (has_lock = true -> forall p, previous = Some p -> lock_at lock_path p) ->
    vwp (match previous with
    | None => vm_ret (inl 70)
    | Some previous =>
        let! manifest := parse_project_manifest in
        match manifest with
        | None => vm_ret (inl 70)
        | Some manifest => keep_or_resolve force_resolve has_lock previous manifest
        end
    end) s4 (fun r _ => plan_ok force_resolve r)).
  { intros [previous|] s4 Hprev; [|vstep; simpl; auto]. vstep. eapply vwp_mono; [apply project_manifest_spec|].
    intros m s5 Hm. destruct m as [manifest|]; [|vstep; simpl; auto]. apply keep_or_resolve_spec; [by apply Hm|].
    intros Hl. exists lock_path. split; [done|]. by apply Hprev. }
  destruct has_lock; [|vstep; by apply (Hgo (Some []))].
  eapply vwp_mono; [apply read_lock_spec|]. intros previous s4 Hl. apply Hgo. auto.
Qed.

End Project.

(** C14: [facet install] and [facet update] install what the project asks for.
    In every world the decision is reached; it either exits with one of the
    documented codes or goes on with packages for the manifest of Cutfile (or
    its former name) followed by the dependencies of Cutfile.dev when that file
    exists: every dependency of the two finds a package of its name, its source
    and a version it allows.  The lock is kept only when no update was asked
    for, the packages are those the lock file held and they cover the manifest;
    otherwise the packages are a resolution of the manifest in the sense of
    [Resolves]. *)
Theorem install_serves_project `{World} lock_saved force_resolve s :
  exists r s', run_install_or_update lock_saved force_resolve s = Some (r, s') /\ plan_ok force_resolve r.
Proof.
  pose proof (run_spec lock_saved force_resolve s) as Hw. unfold vwp in Hw.
  destruct (run_install_or_update lock_saved force_resolve s) as [[r s']|]; [|done]. by exists r, s'.
Qed.
