(* ===== verification/FacetArchive.v ===== *)
(** * FacetArchive: cut archives

    The canonical tar format of tools/facet_package.c: the header of a member,
    the text [pack_tar] writes, the reader [facet verify] uses and the
    extraction of tools/facet_resolve.c.  An archive is the list of its bytes;
    a read past its end is the C code's short read. *)

From S2P Require Import Prelude CText.
From S2P Require Import ManifestLiteral.
From S2P Require Import Facet.
From Stdlib Require Import ZArith Lia Bool List String Ascii.
From stdpp Require Import base numbers list gmap.

Local Open Scope Z_scope.
Local Open Scope c_scope.

(** ** Headers *)

(** [%0*llo]: at least [least] octal digits of a 64-bit number. *)
Fixpoint octal_width (fuel : nat) (v : Z) : nat :=
  match fuel with
  | O => 1
  | S f => if v <? 8 then 1 else S (octal_width f (v / 8))
  end.

Fixpoint octal_run (n : nat) (v : Z) : list Z :=
  match n with
  | O => []
  | S m => octal_run m (v / 8) ++ [48 + v mod 8]
  end.

Definition printf_o (least : nat) (v : Z) : list Z := octal_run (Nat.max least (octal_width 21 v)) v.

(** The field as [snprintf] leaves it: cut to its width, with its NUL. *)
Definition tar_octal (width : nat) (number : Z) : list Z :=
  take (width - 1) (printf_o (width - 1) number) ++ [0].

(** [memcpy(buffer + offset, text, ...)]. *)
Definition splice (offset : nat) (text buffer : list Z) : list Z :=
  take offset buffer ++ text ++ drop (offset + List.length text) buffer.

Definition zeros (n : nat) : list Z := replicate n 0.

Definition sum (l : list Z) : Z := fold_right Z.add 0 l.

(** The header up to its checksum. *)
Definition tar_fields (relative : list Z) (mode size : Z) : list Z :=
  let header := splice 0 relative (zeros 512) in
  let header := splice 100 (tar_octal 8 mode) header in
  let header := splice 108 (tar_octal 8 0) header in
  let header := splice 116 (tar_octal 8 0) header in
  let header := splice 124 (tar_octal 12 size) header in
  let header := splice 136 (tar_octal 12 0) header in
  let header := splice 148 (replicate 8 32) header in
  let header := splice 156 [48] header in
  let header := splice 257 (bytes "ustar") header in
  splice 263 (bytes "00") header.

Definition tar_header (relative : list Z) (mode size : Z) : list Z :=
  let header := tar_fields relative mode size in
  let checksum := sum header in
  let header := splice 148 (take 6 (printf_o 6 checksum) ++ [0]) header in
  splice 155 [32] header.

(** The bytes of a field. *)
Definition slice (offset n : nat) (buffer : list Z) : list Z := take n (drop offset buffer).

Fixpoint octal_digits (text : list Z) (value : Z) : option Z :=
  match text with
  | [] => Some value
  | c :: rest => if (c <? 48) || (55 <? c) then None else octal_digits rest (to_u64 (value * 8 + (c - 48)))
  end.

(** [tar_number] on a field of [width] bytes. *)
Definition tar_number (field : list Z) (width : nat) : option Z :=
  match field !! (width - 1)%nat with
  | Some 0 => octal_digits (take (width - 1) field) 0
  | _ => None
  end.

Definition all_zero (text : list Z) : bool := forallb (fun c => c =? 0) text.

(** ** Paths *)

Definition ends_with (suffix text : list Z) : bool :=
  (List.length suffix <=? List.length text)%nat &&
  bool_decide (drop (List.length text - List.length suffix) text = suffix).

Definition sensitive_name (name : list Z) : bool :=
  existsb (fun c => (c <? 32) || (126 <? c) || (c =? 92) || (c =? 58)) name ||
  (peek name =? 46) || bool_decide (name = bytes "id_rsa") || bool_decide (name = bytes "id_ed25519") ||
  bool_decide (name = bytes "credentials") || bool_decide (name = bytes "secrets") ||
  existsb (fun suffix => ends_with (bytes suffix) name)
    [".pem"; ".key"; ".p12"; ".pfx"; ".d6c"; ".dic"]%string.

Definition good_component (component : list Z) : bool :=
  negb (List.length component =? 0)%nat && negb (bool_decide (component = bytes ".")) &&
  negb (bool_decide (component = bytes "..")) && (List.length component <? 101)%nat &&
  negb (sensitive_name component).

(** The loop of [valid_archive_path] over the components. *)
Fixpoint good_components (path component : list Z) : bool :=
  match path with
  | [] => good_component component
  | c :: rest =>
      if c =? 47 then good_component component && good_components rest []
      else if (c <? 32) || (126 <? c) || (c =? 92) || (c =? 58) then false
      else good_components rest (component ++ [c])
  end.

Definition is_manifest (path : list Z) : bool :=
  bool_decide (path = bytes "Cutfile") || bool_decide (path = bytes "diamond.cut").

Definition valid_archive_path (path : list Z) : bool :=
  if is_manifest path || bool_decide (path = bytes "README.md") || bool_decide (path = bytes "LICENSE")
  then true
  else existsb (fun prefix => starts_with (bytes prefix) path) ["lib/"; "bin/"; "assets/"]%string &&
       good_components path [].

Definition fold_case (c : Z) : Z := if (65 <=? c) && (c <=? 90) then c + 32 else c.

(** The components of a path. *)
Fixpoint split_path (path component : list Z) : list (list Z) :=
  match path with
  | [] => [component]
  | c :: rest => if c =? 47 then component :: split_path rest [] else split_path rest (component ++ [c])
  end.

(** The loop of [archive_path_conflict], on components. *)
Fixpoint components_conflict (a b : list (list Z)) : bool :=
  match a, b with
  | x :: a, y :: b =>
      if negb (List.length x =? List.length y)%nat then false
      else if negb (bool_decide (map fold_case x = map fold_case y)) then false
      else if negb (bool_decide (x = y)) then true
      else match a, b with
           | [], [] => false
           | [], _ :: _ | _ :: _, [] => true
           | _ :: _, _ :: _ => components_conflict a b
           end
  | _, _ => false
  end.

Definition archive_path_conflict (a b : list Z) : bool :=
  components_conflict (split_path a []) (split_path b []).

(** [strcmp(a, b) < 0]. *)
Fixpoint strcmp_lt (a b : list Z) : bool :=
  match a, b with
  | _, [] => false
  | [], _ :: _ => true
  | x :: a, y :: b => if x =? y then strcmp_lt a b else x <? y
  end.

Definition runtime_source_path (relative : list Z) : bool :=
  (starts_with (bytes "lib/") relative || starts_with (bytes "bin/") relative) &&
  (ends_with (bytes ".d6") relative || ends_with (bytes ".di") relative).

(** ** Members *)

Record Member := { m_path : list Z; m_mode : Z; m_data : list Z }.

Definition MODE_PLAIN : Z := 420.
Definition MODE_EXECUTABLE : Z := 493.
Definition MAX_FILE : Z := 10485760.
Definition MAX_TOTAL : Z := 52428800.
Definition MAX_MEMBERS : nat := Z.to_nat 4096.
Definition MAX_MANIFEST : Z := 1048576.

Definition size_of (m : Member) : Z := Z.of_nat (List.length (m_data m)).

(** The bytes after the contents, up to a block. *)
Definition padding (size : Z) : nat := Z.to_nat ((512 - size mod 512) mod 512).

(** What [write_tar_member] writes for a file read without a change. *)
Definition member_bytes (m : Member) : list Z :=
  tar_header (m_path m) (m_mode m) (size_of m) ++ m_data m ++ zeros (padding (size_of m)).

(** What [pack_tar] writes. *)
Definition archive_bytes (members : list Member) : list Z :=
  concat (map member_bytes members) ++ zeros 1024.

(** ** Reading *)

(** The text before the first NUL of the name field. *)
Fixpoint until_nul (field : list Z) : option (list Z) :=
  match field with
  | [] => None
  | c :: rest =>
      if c =? 0 then Some []
      else match until_nul rest with Some text => Some (c :: text) | None => None end
  end.

(** The checks both readers make of a header: its path, mode and size. *)
Definition read_header (header : list Z) (count : nat) (total : Z) : option (list Z * Z * Z) :=
  let? path := until_nul (slice 0 100 header) in
  if (List.length path =? 0)%nat then None else
  let? mode := tar_number (slice 100 8 header) 8 in
  let? size := tar_number (slice 124 12 header) 12 in
  if negb ((mode =? MODE_PLAIN) || (mode =? MODE_EXECUTABLE)) || (MAX_FILE <? size) ||
     (count =? MAX_MEMBERS)%nat || (MAX_TOTAL <? total + size) then None
  else if negb (bool_decide (header = tar_header path mode size)) || negb (valid_archive_path path) then None
  else Some (path, mode, size).

(** The contents of a member and what follows its padding. *)
Definition read_data (size : Z) (stream : list Z) : option (list Z * list Z) :=
  let n := Z.to_nat size in
  if (List.length stream <? n + padding size)%nat then None else
  if negb (all_zero (take (padding size) (drop n stream))) then None else
  Some (take n stream, drop (n + padding size) stream).

(** The member may follow those read before it. *)
Definition member_allowed (before : list Member) (m : Member) : bool :=
  match last before with Some previous => strcmp_lt (m_path previous) (m_path m) | None => true end &&
  negb (existsb (fun e => archive_path_conflict (m_path e) (m_path m)) before) &&
  (if is_manifest (m_path m)
   then negb (existsb (fun e => is_manifest (m_path e)) before) && (size_of m <=? MAX_MANIFEST) &&
        negb (existsb (fun c => c =? 0) (m_data m))
   else if runtime_source_path (m_path m) then negb (existsb (fun c => c =? 0) (m_data m))
   else true).

(** [read_archive_entries]; [memory n] tells whether the allocations for the
    [n]-th member succeed. *)
Fixpoint read_members (fuel : nat) (memory : nat -> bool) (stream : list Z) (before : list Member)
    (total : Z) : option (list Member) :=
  match fuel with
  | O => None
  | S fuel =>
      if (List.length stream <? 512)%nat then None else
      let header := take 512 stream in
      let rest := drop 512 stream in
      if all_zero header then
        if (List.length rest =? 512)%nat && all_zero rest then Some before else None
      else
        let? (path, mode, size) := read_header header (List.length before) total in
        let? (data, rest) := read_data size rest in
        let m := {| m_path := path; m_mode := mode; m_data := data |} in
        if negb (member_allowed before m) || negb (memory (List.length before)) then None
        else read_members fuel memory rest (before ++ [m]) (total + size)
  end.

Definition read_archive_entries (memory : nat -> bool) (archive : list Z) : option (list Member) :=
  read_members (S (List.length archive)) memory archive [] 0.

(** ** Fields of a header *)

Lemma splice_length offset text buffer :
  (offset + List.length text <= List.length buffer)%nat ->
  List.length (splice offset text buffer) = List.length buffer.
Proof. intros Hl. unfold splice. rewrite !length_app, length_take, length_drop. lia. Qed.

Lemma splice_other offset text buffer i :
  (offset + List.length text <= List.length buffer)%nat ->
  (i < offset \/ offset + List.length text <= i)%nat -> splice offset text buffer !! i = buffer !! i.
Proof.
  intros Hl Hi. unfold splice. destruct (decide (i < offset)%nat) as [H|H].
  - rewrite lookup_app_l by (rewrite length_take; lia). by rewrite lookup_take_lt.
  - rewrite lookup_app_r by (rewrite length_take; lia). rewrite length_take.
    rewrite lookup_app_r by lia. rewrite lookup_drop. f_equal. lia.
Qed.

Lemma splice_same offset text buffer i :
  (offset + List.length text <= List.length buffer)%nat -> (i < List.length text)%nat ->
  splice offset text buffer !! (offset + i)%nat = text !! i.
Proof.
  intros Hl Hi. unfold splice. rewrite lookup_app_r by (rewrite length_take; lia). rewrite length_take.
  rewrite lookup_app_l by lia. f_equal. lia.
Qed.

Lemma slice_lookup offset n buffer i : (i < n)%nat -> slice offset n buffer !! i = buffer !! (offset + i)%nat.
Proof. intros Hi. unfold slice. rewrite lookup_take_lt by done. apply lookup_drop. Qed.

Lemma slice_length offset n buffer :
  (offset + n <= List.length buffer)%nat -> List.length (slice offset n buffer) = n.
Proof. intros Hl. unfold slice. rewrite length_take, length_drop. lia. Qed.

Lemma slice_eq offset n buffer text :
  (offset + n <= List.length buffer)%nat -> List.length text = n ->
  (forall i, (i < n)%nat -> buffer !! (offset + i)%nat = text !! i) -> slice offset n buffer = text.
Proof.
  intros Hl Ht He. apply list_eq. intros i. destruct (decide (i < n)%nat) as [Hi|Hi].
  - by rewrite slice_lookup, He.
  - rewrite !lookup_ge_None_2; [done|lia|rewrite slice_length; lia].
Qed.

Lemma octal_run_length n v : List.length (octal_run n v) = n.
Proof. revert v. induction n as [|n IH]; intros v; [done|]. cbn [octal_run]. rewrite length_app, IH. simpl. lia. Qed.

Lemma tar_octal_length width v : (1 <= width)%nat -> List.length (tar_octal width v) = width.
Proof.
  intros Hw. unfold tar_octal, printf_o. rewrite length_app, length_take, octal_run_length.
  cbn [List.length]. lia.
Qed.

Lemma printf_o_length least v : (least <= List.length (printf_o least v))%nat.
Proof. unfold printf_o. rewrite octal_run_length. lia. Qed.

(** A block stays one when a field is written in it. *)
Lemma splice_block offset text buffer :
  List.length buffer = 512%nat -> (offset + List.length text <= 512)%nat ->
  List.length (splice offset text buffer) = 512%nat.
Proof. intros Hb Ht. rewrite splice_length; lia. Qed.

Lemma splice_past offset text buffer i n :
  List.length buffer = 512%nat -> List.length text = n -> (offset + n <= 512)%nat -> (i < offset \/ offset + n <= i)%nat ->
  splice offset text buffer !! i = buffer !! i.
Proof. intros Hb <- Ht Hi. apply splice_other; lia. Qed.

Lemma splice_field offset text buffer i n :
  List.length buffer = 512%nat -> List.length text = n -> (offset + n <= 512)%nat -> (i < n)%nat ->
  splice offset text buffer !! (offset + i)%nat = text !! i.
Proof. intros Hb <- Ht Hi. apply splice_same; lia. Qed.

Lemma zeros_length n : List.length (zeros n) = n.
Proof. apply length_replicate. Qed.

(** The length of a fixed piece of a header. *)
Ltac piece_len :=
  first [apply tar_octal_length; lia
        | match goal with |- List.length ?t = _ => let k := eval vm_compute in (List.length t) in exact (eq_refl k) end].

(** That a header under construction is a block. *)
Ltac block :=
  lazymatch goal with
  | |- List.length (zeros _) = _ => apply zeros_length
  | |- List.length (splice _ _ _) = _ =>
      apply splice_block; [block | first [lia | rewrite tar_octal_length by lia; lia | cbn; lia]]
  end.

Lemma tar_fields_length relative mode size :
  (List.length relative <= 512)%nat -> List.length (tar_fields relative mode size) = 512%nat.
Proof. intros Hl. unfold tar_fields. block. Qed.

Lemma checksum_length v : List.length (take 6 (printf_o 6 v) ++ [0]) = 7%nat.
Proof. rewrite length_app, length_take. pose proof (printf_o_length 6 v). cbn [List.length]. lia. Qed.

Lemma tar_header_length relative mode size :
  (List.length relative <= 512)%nat -> List.length (tar_header relative mode size) = 512%nat.
Proof.
  intros Hl. unfold tar_header. pose proof (tar_fields_length relative mode size Hl).
  assert (E : List.length (splice 148 (take 6 (printf_o 6 (sum (tar_fields relative mode size))) ++ [0])
    (tar_fields relative mode size)) = 512%nat) by (rewrite splice_length; rewrite ?checksum_length; lia).
  rewrite splice_length; rewrite E; cbn [List.length]; lia.
Qed.

(** The checksum leaves the other fields. *)
Lemma tar_header_lookup relative mode size i :
  (List.length relative <= 512)%nat -> (i < 148 \/ 156 <= i)%nat ->
  tar_header relative mode size !! i = tar_fields relative mode size !! i.
Proof.
  intros Hl Hi. unfold tar_header. pose proof (tar_fields_length relative mode size Hl).
  assert (E : List.length (splice 148 (take 6 (printf_o 6 (sum (tar_fields relative mode size))) ++ [0])
    (tar_fields relative mode size)) = 512%nat) by (rewrite splice_length; rewrite ?checksum_length; lia).
  rewrite splice_other by (rewrite ?E; cbn [List.length]; lia).
  rewrite splice_other by (rewrite ?checksum_length; lia). done.
Qed.

(** Looks past a piece that does not hold the position. *)
Ltac past := erewrite splice_past; [| block | piece_len | lia | lia].

Lemma field_name relative mode size :
  (List.length relative <= 99)%nat ->
  slice 0 100 (tar_header relative mode size) = relative ++ zeros (100 - List.length relative).
Proof.
  intros Hl. apply slice_eq; [rewrite tar_header_length; lia| |].
  { rewrite length_app. unfold zeros. rewrite length_replicate. lia. }
  intros i Hi. rewrite tar_header_lookup by lia. simpl. unfold tar_fields. do 9 past.
  destruct (decide (i < List.length relative)%nat) as [Hr|Hr].
  - pose proof (splice_same 0 relative (zeros 512) i) as Hs. cbn [Nat.add] in Hs. rewrite Hs by (rewrite ?zeros_length; lia).
    by rewrite lookup_app_l.
  - rewrite splice_other by (rewrite ?zeros_length; lia). rewrite lookup_app_r by lia. unfold zeros.
    rewrite !lookup_replicate_2 by lia. done.
Qed.

Lemma field_mode relative mode size :
  (List.length relative <= 99)%nat -> slice 100 8 (tar_header relative mode size) = tar_octal 8 mode.
Proof.
  intros Hl. apply slice_eq; [rewrite tar_header_length; lia|apply tar_octal_length; lia|].
  intros i Hi. rewrite tar_header_lookup by lia. unfold tar_fields. do 8 past.
  eapply splice_field; [block | piece_len | lia | lia].
Qed.

Lemma field_size relative mode size :
  (List.length relative <= 99)%nat -> slice 124 12 (tar_header relative mode size) = tar_octal 12 size.
Proof.
  intros Hl. apply slice_eq; [rewrite tar_header_length; lia|apply tar_octal_length; lia|].
  intros i Hi. rewrite tar_header_lookup by lia. unfold tar_fields. do 5 past.
  eapply splice_field; [block | piece_len | lia | lia].
Qed.

Lemma header_not_zero relative mode size :
  (List.length relative <= 99)%nat -> all_zero (tar_header relative mode size) = false.
Proof.
  intros Hl. apply not_true_iff_false. intros Hz. unfold all_zero in Hz. rewrite forallb_forall in Hz.
  assert (Ht : tar_header relative mode size !! 156%nat = Some 48).
  { rewrite tar_header_lookup by lia. unfold tar_fields. do 2 past.
    match goal with |- splice _ _ ?b !! _ = _ => apply (splice_field 156 [48] b 0 1) end; [block | piece_len | lia | lia]. }
  apply list_elem_of_lookup_2, list_elem_of_In, Hz in Ht. done.
Qed.

(** ** Numbers *)

Lemma octal_digits_app a b value :
  octal_digits (a ++ b) value = let? v := octal_digits a value in octal_digits b v.
Proof.
  revert value. induction a as [|c a IH]; intros value; [done|]. cbn [app octal_digits].
  destruct (_ || _); [done|]. apply IH.
Qed.

Lemma octal_digits_run n v : 0 <= v < 8 ^ Z.of_nat n -> 8 ^ Z.of_nat n <= two_64 -> octal_digits (octal_run n v) 0 = Some v.
Proof.
  revert v. induction n as [|n IH]; intros v Hv Hn; [simpl in *; f_equal; lia|]. cbn [octal_run].
  rewrite Nat2Z.inj_succ, Z.pow_succ_r in Hv, Hn by lia. pose proof (Z.pow_pos_nonneg 8 (Z.of_nat n) ltac:(lia) ltac:(lia)).
  assert (Hd : 0 <= v / 8 < 8 ^ Z.of_nat n) by (split; [apply Z.div_pos; lia|apply Z.div_lt_upper_bound; lia]).
  rewrite octal_digits_app, IH by lia.
  pose proof (Z.mod_pos_bound v 8 ltac:(lia)). pose proof (Z.div_mod v 8 ltac:(lia)). cbn [octal_digits].
  rewrite (proj2 (Z.ltb_ge _ _)), (proj2 (Z.ltb_ge _ _)) by lia. cbn [orb]. rewrite to_u64_small by lia. f_equal. lia.
Qed.

Lemma octal_width_le f v n : 0 <= v -> (1 <= n)%nat -> v < 8 ^ Z.of_nat n -> (octal_width f v <= n)%nat.
Proof.
  revert v n. induction f as [|f IH]; intros v n Hv Hn Hlt; cbn [octal_width]; [lia|].
  destruct (Z.ltb_spec v 8); [lia|]. destruct n as [|[|n]]; [lia|simpl in Hlt; lia|].
  apply le_n_S. apply IH; [apply Z.div_pos; lia|lia|]. rewrite Nat2Z.inj_succ, Z.pow_succ_r in Hlt by lia.
  apply Z.div_lt_upper_bound; lia.
Qed.

Lemma tar_number_octal width v :
  (2 <= width)%nat -> 0 <= v < 8 ^ Z.of_nat (width - 1) -> 8 ^ Z.of_nat (width - 1) <= two_64 ->
  tar_number (tar_octal width v) width = Some v.
Proof.
  intros Hw Hv Hn. unfold tar_number, tar_octal, printf_o.
  rewrite Nat.max_l by (apply octal_width_le; lia). rewrite take_ge by (rewrite octal_run_length; lia).
  rewrite lookup_app_r by (rewrite octal_run_length; lia). rewrite octal_run_length, Nat.sub_diag. cbn [lookup list_lookup].
  rewrite take_app_le by (rewrite octal_run_length; lia). rewrite take_ge by (rewrite octal_run_length; lia).
  by apply octal_digits_run.
Qed.

Lemma until_nul_zeros text n :
  Forall (fun c => c <> 0) text -> (1 <= n)%nat -> until_nul (text ++ zeros n) = Some text.
Proof.
  intros Ht Hn. induction Ht as [|c text Hc Ht IH]; [destruct n; [lia|done]|]. cbn [app until_nul].
  by rewrite (proj2 (Z.eqb_neq c 0)), IH.
Qed.

Lemma until_nul_spec field text :
  until_nul field = Some text -> Forall (fun c => c <> 0) text /\ (List.length text < List.length field)%nat.
Proof.
  revert text. induction field as [|c field IH]; intros text; cbn [until_nul]; [done|].
  destruct (Z.eqb_spec c 0) as [|Hc]; [intros [= <-]; split; [constructor|simpl; lia]|].
  destruct (until_nul field) as [t|]; [|done]. intros [= <-]. destruct (IH t eq_refl) as [H1 H2].
  split; [by constructor|simpl; lia].
Qed.

(** ** Reading back *)

Record member_ok (m : Member) : Prop := {
  path_valid : valid_archive_path (m_path m) = true;
  path_short : (1 <= List.length (m_path m) <= 99)%nat;
  path_text : Forall (fun c => c <> 0) (m_path m);
  mode_known : m_mode m = MODE_PLAIN \/ m_mode m = MODE_EXECUTABLE;
  data_small : size_of m <= MAX_FILE;
}.

Definition total_size (members : list Member) : Z := sum (map size_of members).

(** The archives [facet] makes and accepts. *)
Record archive_ok (members : list Member) : Prop := {
  members_ok : Forall member_ok members;
  members_few : (List.length members <= MAX_MEMBERS)%nat;
  members_small : total_size members <= MAX_TOTAL;
  members_ordered : forall before m after, members = before ++ m :: after -> member_allowed before m = true;
}.

Lemma sum_app a b : sum (a ++ b) = sum a + sum b.
Proof. induction a as [|x a IH]; simpl; lia. Qed.

Lemma total_size_app a b : total_size (a ++ b) = total_size a + total_size b.
Proof. unfold total_size. by rewrite map_app, sum_app. Qed.

Lemma total_size_cons m members : total_size (m :: members) = size_of m + total_size members.
Proof. reflexivity. Qed.

Lemma total_size_snoc members m : total_size (members ++ [m]) = total_size members + size_of m.
Proof. rewrite total_size_app, total_size_cons. unfold total_size at 2. cbn [map sum fold_right]. lia. Qed.

Lemma total_size_nonneg members : 0 <= total_size members.
Proof. induction members as [|m members IH]; [done|]. unfold total_size in *. simpl. unfold size_of at 1. lia. Qed.

Lemma read_header_run m count total :
  member_ok m -> (count < MAX_MEMBERS)%nat -> total + size_of m <= MAX_TOTAL ->
  read_header (tar_header (m_path m) (m_mode m) (size_of m)) count total = Some (m_path m, m_mode m, size_of m).
Proof.
  intros [Hv Hl Ht Hm Hs] Hc Htot. unfold read_header.
  rewrite field_name, until_nul_zeros by (try done; lia).
  rewrite (proj2 (Nat.eqb_neq _ _)) by lia. rewrite field_mode, field_size by lia.
  assert (Hmode : tar_number (tar_octal 8 (m_mode m)) 8 = Some (m_mode m)).
  { destruct Hm as [-> | ->]; vm_compute; reflexivity. }
  assert (Hz : 0 <= size_of m) by (unfold size_of; lia).
  rewrite Hmode, tar_number_octal by (unfold MAX_FILE in Hs; try lia; simpl; unfold two_64; lia).
  assert (Hknown : ((m_mode m =? MODE_PLAIN) || (m_mode m =? MODE_EXECUTABLE)) = true)
    by (destruct Hm as [-> | ->]; reflexivity).
  rewrite Hknown, (proj2 (Z.ltb_ge _ _) Hs), (proj2 (Nat.eqb_neq _ _)), (proj2 (Z.ltb_ge _ _) Htot) by lia.
  cbn [negb orb]. rewrite bool_decide_true by done. by rewrite Hv.
Qed.

Lemma read_header_spec header count total path mode size :
  read_header header count total = Some (path, mode, size) ->
  header = tar_header path mode size /\ valid_archive_path path = true /\
  (1 <= List.length path <= 99)%nat /\ Forall (fun c => c <> 0) path /\
  (mode = MODE_PLAIN \/ mode = MODE_EXECUTABLE) /\ size <= MAX_FILE /\
  count <> MAX_MEMBERS /\ total + size <= MAX_TOTAL.
Proof.
  unfold read_header. destruct (until_nul (slice 0 100 header)) as [p|] eqn:Hn; [|done].
  apply until_nul_spec in Hn as [Ht Hl]. unfold slice in Hl. rewrite length_take in Hl.
  destruct (Nat.eqb_spec (List.length p) 0); [done|].
  destruct (tar_number (slice 100 8 header) 8) as [m|]; [|done].
  destruct (tar_number (slice 124 12 header) 12) as [z|]; [|done].
  destruct (negb _ || _ || _ || _) eqn:Hb; [done|]. rewrite !orb_false_iff in Hb. destruct Hb as [[[Hm Hz] Hc] Htot].
  apply negb_false_iff, orb_true_iff in Hm. rewrite !Z.eqb_eq in Hm. apply Z.ltb_ge in Hz, Htot. apply Nat.eqb_neq in Hc.
  case_bool_decide as Hh; [|done]. cbn [negb orb]. destruct (valid_archive_path p) eqn:Hv; [|done].
  intros [= <- <- <-]. split_and!; try done; lia.
Qed.

Lemma all_zero_zeros n : all_zero (zeros n) = true.
Proof. induction n; [done|]. exact IHn. Qed.

Lemma all_zero_spec text : all_zero text = true -> text = zeros (List.length text).
Proof.
  unfold zeros. induction text as [|c text IH]; [done|]. simpl. intros [->%Z.eqb_eq Ht]%andb_true_iff.
  f_equal. by apply IH.
Qed.

Lemma read_data_run data rest :
  read_data (Z.of_nat (List.length data)) (data ++ zeros (padding (Z.of_nat (List.length data))) ++ rest) =
  Some (data, rest).
Proof.
  unfold read_data. rewrite Nat2Z.id. set (k := padding _).
  rewrite (proj2 (Nat.ltb_ge _ _)) by (rewrite !length_app, zeros_length; lia).
  rewrite drop_app_length, take_app_length' by (by rewrite zeros_length). rewrite all_zero_zeros. cbn [negb].
  rewrite take_app_length. rewrite <- drop_drop, drop_app_length, drop_app_length' by (by rewrite zeros_length). done.
Qed.

Lemma member_data_run m rest :
  read_data (size_of m) (m_data m ++ zeros (padding (size_of m)) ++ rest) = Some (m_data m, rest).
Proof. apply read_data_run. Qed.

Lemma read_data_spec size stream data rest :
  0 <= size -> read_data size stream = Some (data, rest) ->
  size = Z.of_nat (List.length data) /\ stream = data ++ zeros (padding size) ++ rest.
Proof.
  intros Hs. unfold read_data. destruct (Nat.ltb_spec (List.length stream) (Z.to_nat size + padding size)); [done|].
  destruct (all_zero _) eqn:Hz; [|done]. cbn [negb]. intros [= <- <-].
  apply all_zero_spec in Hz. rewrite length_take, length_drop in Hz.
  rewrite Nat.min_l in Hz by lia. split; [rewrite length_take; lia|].
  rewrite <- Hz, <- drop_drop, !take_drop. done.
Qed.

Lemma tar_number_nonneg field width v : tar_number field width = Some v -> 0 <= v.
Proof.
  unfold tar_number. destruct (field !! (width - 1)%nat) as [[]|]; try done. generalize (take (width - 1) field).
  intros text. assert (Hd : forall value, 0 <= value -> octal_digits text value = Some v -> 0 <= v).
  { induction text as [|c text IH]; intros value Hv; cbn [octal_digits]; [by intros [= <-]|].
    destruct (_ || _); [done|]. apply IH. apply to_u64_range. }
  by apply Hd.
Qed.

Lemma read_header_size header count total path mode size :
  read_header header count total = Some (path, mode, size) -> 0 <= size.
Proof.
  unfold read_header. destruct (until_nul _) as [p|]; [|done]. destruct (_ =? _)%nat; [done|].
  destruct (tar_number (slice 100 8 header) 8) as [m|]; [|done].
  destruct (tar_number (slice 124 12 header) 12) as [z|] eqn:Hz; [|done].
  destruct (_ || _); [done|]. destruct (_ || _); [done|]. intros [= _ _ <-]. by eapply tar_number_nonneg.
Qed.

Lemma member_bytes_length m : member_ok m -> (512 <= List.length (member_bytes m))%nat.
Proof. intros [_ Hl _ _ _]. unfold member_bytes. rewrite length_app, tar_header_length by lia. lia. Qed.

(** What is read is a sequence of members and the end of an archive. *)
Lemma read_members_spec fuel memory stream before total members :
  read_members fuel memory stream before total = Some members -> total = total_size before ->
  exists rest, members = before ++ rest /\ stream = concat (map member_bytes rest) ++ zeros 1024 /\
    Forall member_ok rest /\ (List.length before <= MAX_MEMBERS -> List.length members <= MAX_MEMBERS)%nat /\
    (total <= MAX_TOTAL -> total_size members <= MAX_TOTAL) /\
    forall done_ m after, rest = done_ ++ m :: after -> member_allowed (before ++ done_) m = true.
Proof.
  revert stream before total. induction fuel as [|fuel IH]; intros stream before total; [done|]. cbn [read_members].
  destruct (Nat.ltb_spec (List.length stream) 512) as [|Hlen]; [done|].
  destruct (all_zero (take 512 stream)) eqn:Hz.
  { destruct (Nat.eqb_spec (List.length (drop 512 stream)) 512) as [El|]; [|done]. cbn [andb].
    destruct (all_zero (drop 512 stream)) eqn:Hz2; [|done]. intros [= <-] ->. exists [].
    apply all_zero_spec in Hz, Hz2. rewrite El in Hz2. rewrite length_take, Nat.min_l in Hz by lia.
    split_and!; [by rewrite app_nil_r| |constructor|done|done|].
    - rewrite <- (take_drop 512 stream), Hz, Hz2. reflexivity.
    - intros [|? ?] ? ? [=]. }
  destruct (read_header _ _ _) as [[[path mode] size]|] eqn:Hh; [|done].
  pose proof (read_header_size _ _ _ _ _ _ Hh) as Hnn.
  apply read_header_spec in Hh as (Eh & Hv & Hl & Ht & Hm & Hs & Hc & Htot).
  destruct (read_data size (drop 512 stream)) as [[data rest]|] eqn:Hd; [|done].
  apply read_data_spec in Hd as [Esize Erest]; [|done].
  set (m := {| m_path := path; m_mode := mode; m_data := data |}).
  destruct (member_allowed before m) eqn:Ha; [|done]. destruct (memory _); [|done]. cbn [negb orb].
  assert (Em : size_of m = size) by done.
  assert (Hbytes : member_bytes m = tar_header path mode size ++ data ++ zeros (padding size)) by (by subst size).
  intros Hr ->.
  destruct (IH _ _ _ Hr) as (more & -> & -> & Hok & Hcount & Htotal & Hall).
  { by rewrite total_size_snoc, Em. }
  exists (m :: more). split_and!.
  - by rewrite <- app_assoc.
  - rewrite <- (take_drop 512 stream), Eh, Erest. cbn [map concat].
    rewrite Hbytes. by rewrite <- !app_assoc.
  - constructor; [|done]. split; try done. rewrite Em. done.
  - intros Hb. apply Hcount. rewrite length_app. simpl. lia.
  - intros _. apply Htotal. lia.
  - intros [|x done_] m' after; cbn [app]; intros [= -> ->].
    + by rewrite app_nil_r.
    + specialize (Hall done_ m' after eq_refl). by rewrite <- app_assoc in Hall.
Qed.

(** The first block of a member is its header, the rest its contents. *)
Lemma member_blocks m tail_ : member_ok m ->
  (List.length (member_bytes m ++ tail_) <? 512)%nat = false /\
  take 512 (member_bytes m ++ tail_) = tar_header (m_path m) (m_mode m) (size_of m) /\
  drop 512 (member_bytes m ++ tail_) = m_data m ++ zeros (padding (size_of m)) ++ tail_ /\
  all_zero (tar_header (m_path m) (m_mode m) (size_of m)) = false.
Proof.
  intros Hm. pose proof (member_bytes_length m Hm) as Hmb. destruct Hm as [_ Hl _ _ _].
  assert (Hhead : List.length (tar_header (m_path m) (m_mode m) (size_of m)) = 512%nat).
  { apply tar_header_length. lia. }
  split_and!.
  - apply Nat.ltb_ge. rewrite length_app. lia.
  - unfold member_bytes. rewrite <- !app_assoc. by rewrite take_app_length'.
  - unfold member_bytes. rewrite <- !app_assoc. by rewrite drop_app_length'.
  - apply header_not_zero. lia.
Qed.

(** The two zero blocks at the end. *)
Lemma end_blocks :
  (List.length (zeros 1024) <? 512)%nat = false /\ all_zero (take 512 (zeros 1024)) = true /\
  (List.length (drop 512 (zeros 1024)) =? 512)%nat && all_zero (drop 512 (zeros 1024)) = true.
Proof. vm_compute. done. Qed.

Lemma read_members_run memory rest : (forall n, memory n = true) ->
  forall fuel before, Forall member_ok rest ->
  (List.length (before ++ rest) <= MAX_MEMBERS)%nat -> total_size (before ++ rest) <= MAX_TOTAL ->
  (forall done_ m after, rest = done_ ++ m :: after -> member_allowed (before ++ done_) m = true) ->
  (List.length (concat (map member_bytes rest) ++ zeros 1024) < fuel)%nat ->
  read_members fuel memory (concat (map member_bytes rest) ++ zeros 1024) before (total_size before) =
  Some (before ++ rest).
Proof.
  intros Hmem. induction rest as [|m rest IH]; intros fuel before Hok Hcount Htot Hall Hf;
    (destruct fuel as [|fuel]; [lia|]).
  - cbn [map concat]. rewrite app_nil_l, app_nil_r. cbn [read_members]. destruct end_blocks as (-> & -> & ->). done.
  - apply Forall_cons in Hok as [Hm Hok]. pose proof (member_bytes_length m Hm) as Hmb.
    cbn [map concat] in Hf |- *. rewrite <- app_assoc in Hf |- *.
    set (tail_ := concat (map member_bytes rest) ++ zeros 1024) in *. cbn [read_members].
    destruct (member_blocks m tail_ Hm) as (-> & -> & -> & ->).
    rewrite length_app in Hcount. cbn [List.length] in Hcount.
    pose proof (total_size_nonneg rest) as Hrest. rewrite total_size_app, total_size_cons in Htot.
    rewrite read_header_run by (try done; lia). rewrite member_data_run.
    assert (Em : {| m_path := m_path m; m_mode := m_mode m; m_data := m_data m |} = m) by by destruct m.
    rewrite Em. pose proof (Hall [] m rest eq_refl) as Ha. rewrite app_nil_r in Ha. rewrite Ha, Hmem. cbn [negb orb].
    rewrite <- total_size_snoc, IH; [by rewrite <- app_assoc|done| | | |].
    + rewrite <- app_assoc, length_app. cbn [List.length app]. lia.
    + rewrite <- app_assoc. cbn [app]. rewrite total_size_app, total_size_cons. lia.
    + intros done_ m' after E. rewrite <- app_assoc. apply (Hall (m :: done_) m' after). by rewrite E.
    + rewrite length_app in Hf. lia.
Qed.

(** What the reader accepts. *)
Lemma read_archive_spec memory archive members :
  read_archive_entries memory archive = Some members -> archive = archive_bytes members /\ archive_ok members.
Proof.
  intros Hr. destruct (read_members_spec _ _ _ _ _ _ Hr eq_refl) as (rest & E & -> & Hok & Hc & Ht & Hall).
  simpl in E. subst rest. split; [done|]. split; try done; [apply Hc; simpl; lia|by apply Ht].
Qed.

(** C16: Archives are canonical.  When memory suffices, [read_archive_entries]
    accepts a sequence of bytes exactly when it is what [pack_tar] writes for
    the members it returns and those satisfy the limits (valid paths of at most
    99 bytes, modes 0644 or 0755, 10 MiB a file, 50 MiB and 4096 files in all,
    sorted without collisions, one manifest): packing and reading are inverse,
    and no two archives have the same contents. *)
Theorem archive_canonical memory archive members :
  (forall n, memory n = true) ->
  read_archive_entries memory archive = Some members <->
  archive = archive_bytes members /\ archive_ok members.
Proof.
  intros Hmem. split; [apply read_archive_spec|]. intros [-> [Hok Hc Ht Hall]].
  unfold read_archive_entries, archive_bytes. apply (read_members_run memory members Hmem _ []); try done; lia.
Qed.

(** A cut of a manifest and a program, packed. *)
Definition sample_members : list Member :=
  [{| m_path := bytes "Cutfile"; m_mode := MODE_PLAIN; m_data := bytes "{}" |};
   {| m_path := bytes "bin/run.d6"; m_mode := MODE_EXECUTABLE; m_data := bytes "puts 1" |}].

Lemma archive_canonical_witness :
  read_archive_entries (fun _ => true) (archive_bytes sample_members) = Some sample_members /\
  archive_bytes sample_members = archive_bytes sample_members /\ archive_ok sample_members.
Proof.
  assert (H : read_archive_entries (fun _ => true) (archive_bytes sample_members) = Some sample_members)
    by (vm_compute; reflexivity).
  split; [exact H|]. apply (archive_canonical (fun _ => true)); [intros n; reflexivity|exact H].
Defined.
