(* ===== verification/FacetExtract.v ===== *)
(** * FacetExtract: unpacking a verified archive

    [expected_digest] (tools/facet_package.c) and [extract_verified_archive]
    (tools/facet_resolve.c), which unpacks a registry archive that
    [facet verify] has read.  The SHA-256 of the EVP library is a parameter;
    the destination is a directory that [remove_directory_recursive] has just
    removed, on a case-sensitive disk with room for the files, and is the list
    of the files written in it. *)

From S2P Require Import Prelude CText.
From S2P Require Import ManifestLiteral.
From S2P Require Import Facet.
From S2P Require Import FacetArchive.
From Stdlib Require Import ZArith Lia Bool List String Ascii.
From stdpp Require Import base numbers list gmap.

Local Open Scope Z_scope.
Local Open Scope c_scope.

(** ** Digests *)

Definition hex_digit (c : Z) : option Z :=
  if (48 <=? c) && (c <=? 57) then Some (c - 48)
  else if (97 <=? c) && (c <=? 102) then Some (c - 97 + 10)
  else if (65 <=? c) && (c <=? 70) then Some (c - 65 + 10)
  else None.

(** The loop of [expected_digest] over the bytes of the digest. *)
Fixpoint digest_matches (text actual : list Z) : bool :=
  match actual with
  | [] => true
  | byte :: actual =>
      match text with
      | high :: low :: text =>
          match hex_digit high, hex_digit low with
          | Some h, Some l => (h * 16 + l =? byte) && digest_matches text actual
          | _, _ => false
          end
      | _ => false
      end
  end.

Definition expected_digest (text actual : list Z) : bool :=
  (List.length text =? 64)%nat && digest_matches text actual.

(** ** Extraction *)

(** A file of the destination keeps another from being created: it has its
    name ([O_EXCL]), lies below it, or is a file where it needs a directory. *)
Definition obstructs (existing path : list Z) : bool :=
  bool_decide (existing = path) || starts_with (path ++ [47]) existing || starts_with (existing ++ [47]) path.

Definition can_create (written : list Member) (path : list Z) : bool :=
  negb (existsb (fun e => obstructs (m_path e) path) written).

(** The loop of [extract_verified_archive]. *)
Fixpoint extract_members (fuel : nat) (destination stream : list Z) (written : list Member) (total : Z)
    : option (list Member) :=
  match fuel with
  | O => None
  | S fuel =>
      if (List.length stream <? 512)%nat then None else
      let header := take 512 stream in
      let rest := drop 512 stream in
      if all_zero header then
        if (List.length rest =? 512)%nat && all_zero rest then Some written else None
      else
        let? (path, mode, size) := read_header header (List.length written) total in
        let output := destination ++ [47] ++ path in
        if (FACET_MAX_PATH <=? List.length output)%nat then None else
        if negb (can_create written path) then None else
        let? (data, rest) := read_data size rest in
        extract_members fuel destination rest
          (written ++ [{| m_path := path; m_mode := mode; m_data := data |}]) (total + size)
  end.

(** The files left in the destination, which is removed on a failure. *)
Definition extract_verified_archive (sha256 : list Z -> list Z) (destination expected archive : list Z)
    : option (list Member) :=
  let? written := extract_members (S (List.length archive)) destination archive [] 0 in
  let digest := sha256 archive in
  if (List.length digest =? 32)%nat && expected_digest expected digest then Some written else None.

(** ** Paths and their components *)

Lemma split_path_snoc path c : split_path path c = match split_path path [] with
  | first :: rest => (c ++ first) :: rest | [] => [] end.
Proof.
  revert c. induction path as [|x path IH]; intros c; cbn [split_path]; [by rewrite app_nil_r|].
  destruct (x =? 47); [by rewrite app_nil_r|]. rewrite (IH (c ++ [x])), (IH ([] ++ [x])).
  destruct (split_path path []); [done|]. cbn [app]. by rewrite <- app_assoc.
Qed.

Lemma split_path_slash a b c : split_path (a ++ 47 :: b) c = split_path a c ++ split_path b [].
Proof.
  revert c. induction a as [|x a IH]; intros c; [done|]. cbn [app split_path].
  destruct (x =? 47); [cbn [app]; by rewrite IH|apply IH].
Qed.

Lemma split_path_nonempty path c : split_path path c <> [].
Proof. revert c. induction path as [|x path IH]; intros c; cbn [split_path]; [done|]. destruct (x =? 47); [done|apply IH]. Qed.

Lemma components_conflict_below a b : a <> [] -> b <> [] -> components_conflict a (a ++ b) = true.
Proof.
  intros Ha Hb. induction a as [|x a IH]; [done|]. cbn [app components_conflict].
  rewrite Nat.eqb_refl, !bool_decide_true by done. cbn [negb].
  destruct a as [|y a]; [destruct b; done|]. cbn [app]. by apply IH.
Qed.

Lemma components_conflict_sym a b : components_conflict a b = components_conflict b a.
Proof.
  revert b. induction a as [|x a IH]; intros [|y b]; [done..|]. cbn [components_conflict].
  rewrite (Nat.eqb_sym (List.length y)).
  rewrite (bool_decide_ext (map fold_case y = map fold_case x) (map fold_case x = map fold_case y)) by done.
  rewrite (bool_decide_ext (y = x) (x = y)) by done.
  destruct a, b; try done. by rewrite IH.
Qed.

Lemma starts_with_app prefix text : starts_with prefix text = true <-> exists rest, text = prefix ++ rest.
Proof.
  revert text. induction prefix as [|c prefix IH]; intros text; cbn [starts_with].
  { split; [by exists text|done]. }
  destruct text as [|d text]; [split; [done|by intros [? ?]]|]. rewrite andb_true_iff, IH. split.
  - intros [->%Z.eqb_eq [rest ->]]. by exists rest.
  - intros [rest [= -> ->]]. split; [apply Z.eqb_refl|by exists rest].
Qed.

Lemma conflict_below a b : starts_with (a ++ [47]) b = true -> archive_path_conflict a b = true.
Proof.
  intros [rest ->]%starts_with_app. rewrite <- app_assoc. cbn [app]. unfold archive_path_conflict.
  rewrite split_path_slash. apply components_conflict_below; apply split_path_nonempty.
Qed.

Lemma obstructs_conflict existing path :
  obstructs existing path = true -> existing = path \/ archive_path_conflict existing path = true.
Proof.
  unfold obstructs. rewrite !orb_true_iff. intros [[H|H]|H]; [left; by apply bool_decide_eq_true in H| |];
    right; [|by apply conflict_below].
  unfold archive_path_conflict. rewrite components_conflict_sym. by apply conflict_below.
Qed.

(** ** Paths are strictly sorted *)

Lemma strcmp_lt_irrefl a : strcmp_lt a a = false.
Proof. induction a as [|x a IH]; [done|]. cbn [strcmp_lt]. by rewrite Z.eqb_refl. Qed.

Lemma strcmp_lt_trans a b c : strcmp_lt a b = true -> strcmp_lt b c = true -> strcmp_lt a c = true.
Proof.
  revert b c. induction a as [|x a IH]; intros [|y b] [|z c]; try done. cbn [strcmp_lt].
  destruct (Z.eqb_spec x y) as [->|Hxy].
  - destruct (Z.eqb_spec y z) as [->|Hyz]; [apply IH|done].
  - destruct (Z.eqb_spec y z) as [->|Hyz]; [rewrite (proj2 (Z.eqb_neq _ _) Hxy); done|].
    rewrite !Z.ltb_lt. intros ? ?. rewrite (proj2 (Z.eqb_neq x z)), Z.ltb_lt by lia. lia.
Qed.

Lemma member_allowed_order before m :
  member_allowed before m = true ->
  (forall p, last before = Some p -> strcmp_lt (m_path p) (m_path m) = true) /\
  forall e, e ∈ before -> archive_path_conflict (m_path e) (m_path m) = false.
Proof.
  unfold member_allowed. rewrite !andb_true_iff, negb_true_iff. intros [[Hlast Hc] _].
  split; [intros p Hp; by rewrite Hp in Hlast|].
  intros e He. apply not_true_iff_false. intros Hx. apply not_true_iff_false in Hc. apply Hc.
  apply existsb_exists. exists e. split; [by apply list_elem_of_In|done].
Qed.

Lemma sorted_before members :
  (forall before m after, members = before ++ m :: after -> member_allowed before m = true) ->
  forall before m after, members = before ++ m :: after ->
  forall e, e ∈ before -> strcmp_lt (m_path e) (m_path m) = true.
Proof.
  intros Hall before. induction before as [|p before IH] using rev_ind; intros m after E e He; [by apply not_elem_of_nil in He|].
  destruct (member_allowed_order _ _ (Hall _ _ _ E)) as [Hl _]. specialize (Hl p (last_snoc _ _)).
  apply elem_of_app in He as [He|He]; [|by apply list_elem_of_singleton in He as ->].
  rewrite <- app_assoc in E. eapply strcmp_lt_trans; [exact (IH p (m :: after) E e He)|done].
Qed.

Lemma allowed_can_create members before m after :
  (forall before m after, members = before ++ m :: after -> member_allowed before m = true) ->
  members = before ++ m :: after -> can_create before (m_path m) = true.
Proof.
  intros Hall E. unfold can_create. apply negb_true_iff, not_true_iff_false. intros (e & He & Ho)%existsb_exists.
  apply list_elem_of_In in He. apply obstructs_conflict in Ho as [Ho|Ho].
  - pose proof (sorted_before members Hall before m after E e He) as Hs. by rewrite Ho, strcmp_lt_irrefl in Hs.
  - destruct (member_allowed_order _ _ (Hall _ _ _ E)) as [_ Hc]. by rewrite Hc in Ho.
Qed.

(** ** Safe paths *)

Definition safe_component (component : list Z) : Prop :=
  component <> [] /\ component <> bytes "." /\ component <> bytes "..".

Lemma good_component_safe component : good_component component = true -> safe_component component.
Proof.
  unfold good_component, safe_component. rewrite !andb_true_iff, !negb_true_iff, !bool_decide_eq_false.
  intros [[[[H0 H1] H2] _] _]. split_and!; [|done..]. intros ->. done.
Qed.

Lemma good_components_safe path component :
  good_components path component = true -> Forall safe_component (split_path path component).
Proof.
  revert component. induction path as [|c path IH]; intros component; cbn [good_components split_path].
  { intros H. repeat constructor; by apply good_component_safe. }
  destruct (c =? 47).
  - intros [H1 H2]%andb_true_iff. constructor; [by apply good_component_safe|by apply IH].
  - destruct (_ || _ || _ || _); [done|apply IH].
Qed.

Lemma valid_path_safe path : valid_archive_path path = true -> Forall safe_component (split_path path []).
Proof.
  unfold valid_archive_path. destruct (is_manifest path || _ || _) eqn:H.
  - intros _. unfold is_manifest in H. rewrite !orb_true_iff, !bool_decide_eq_true in H.
    destruct H as [[[-> | ->] | ->] | ->]; repeat constructor; vm_compute; done.
  - intros [_ Hg]%andb_true_iff. by apply good_components_safe.
Qed.

(** ** Extraction of an archive *)

Lemma extract_members_run destination members :
  (List.length destination + 101 <= FACET_MAX_PATH)%nat ->
  (forall before m after, members = before ++ m :: after -> can_create before (m_path m) = true) ->
  forall rest fuel before, members = before ++ rest -> Forall member_ok rest ->
  (List.length members <= MAX_MEMBERS)%nat -> total_size members <= MAX_TOTAL ->
  (List.length (concat (map member_bytes rest) ++ zeros 1024) < fuel)%nat ->
  extract_members fuel destination (concat (map member_bytes rest) ++ zeros 1024) before (total_size before) =
  Some members.
Proof.
  intros Hd Hall. induction rest as [|m rest IH]; intros fuel before E Hok Hcount Htot Hf;
    (destruct fuel as [|fuel]; [lia|]).
  - cbn [map concat]. rewrite app_nil_l. rewrite app_nil_r in E. subst before.
    cbn [extract_members]. destruct end_blocks as (-> & -> & ->). done.
  - apply Forall_cons in Hok as [Hm Hok]. pose proof (member_bytes_length m Hm) as Hmb.
    cbn [map concat] in Hf |- *. rewrite <- app_assoc in Hf |- *.
    set (tail_ := concat (map member_bytes rest) ++ zeros 1024) in *. cbn [extract_members].
    destruct (member_blocks m tail_ Hm) as (-> & -> & -> & ->).
    assert (Hc : (List.length before < MAX_MEMBERS)%nat).
    { rewrite E, length_app in Hcount. cbn [List.length] in Hcount. lia. }
    assert (Ht : total_size before + size_of m <= MAX_TOTAL).
    { rewrite E, total_size_app, total_size_cons in Htot. pose proof (total_size_nonneg rest). lia. }
    rewrite read_header_run by done. rewrite (proj2 (Nat.leb_gt _ _)).
    2:{ rewrite !length_app. cbn [List.length]. destruct Hm as [_ Hl _ _ _]. lia. }
    rewrite (Hall before m rest E). cbn [negb]. rewrite member_data_run.
    assert (Em : {| m_path := m_path m; m_mode := m_mode m; m_data := m_data m |} = m) by by destruct m.
    rewrite Em, <- total_size_snoc. apply IH; try done.
    + by rewrite <- app_assoc.
    + rewrite length_app in Hf. lia.
Qed.

(** C17: What verification accepts, extraction unpacks.  When [facet verify]
    reads the members of an archive, then [extract_verified_archive], in a
    fresh destination whose path leaves room for theirs and with the digest of
    the archive as the expected one, creates exactly those files, with the modes
    and contents read: no two of them collide, none needs a directory where
    another is a file.  No path has an empty, ["."] or [".."] component, so every
    file lies below the destination. *)
Theorem verified_archive_extracts memory sha256 destination expected archive members :
  read_archive_entries memory archive = Some members ->
  List.length (sha256 archive) = 32%nat -> expected_digest expected (sha256 archive) = true ->
  (List.length destination + 101 <= FACET_MAX_PATH)%nat ->
  extract_verified_archive sha256 destination expected archive = Some members /\
  Forall (fun m => Forall safe_component (split_path (m_path m) [])) members.
Proof.
  intros Hr H32 Hdig Hd. destruct (read_archive_spec _ _ _ Hr) as [Ea [Hok Hc Ht Hall]]. split.
  - unfold extract_verified_archive. subst archive. unfold archive_bytes at 2.
    rewrite (extract_members_run destination members Hd) with (before := []); try done.
    + by rewrite Hdig, H32.
    + intros before m after E. by apply (allowed_can_create members before m after).
    + unfold archive_bytes. lia.
  - eapply Forall_impl; [exact Hok|]. intros m [Hv _ _ _ _]. by apply valid_path_safe.
Qed.

(** A digest of 32 zero bytes. *)
Definition zero_digest (_ : list Z) : list Z := zeros 32.

Lemma verified_archive_extracts_witness :
  extract_verified_archive zero_digest (bytes "cuts/.facet-tmp/one") (replicate 64 48)
    (archive_bytes sample_members) = Some sample_members /\
  Forall (fun m => Forall safe_component (split_path (m_path m) [])) sample_members.
Proof.
  apply (verified_archive_extracts (fun _ => true)); [vm_compute; reflexivity|reflexivity|vm_compute; reflexivity|].
  apply Nat.leb_le. vm_compute. reflexivity.
Defined.
