(* ===== verification/Json.v ===== *)
(** * Json: JSON documents

    The parser and the writer of src/vm_json.c, with the number formatting of
    src/vm_format.c they use.  A value is the tree JSON sees: the parser builds
    fresh objects and the writer only reads them, so addresses do not matter; a
    cyclic value, which has no tree, meets the nesting limit.  The class
    [JsonHeap] tells which allocations succeed, the class [Doubles] is the C
    library's conversion between doubles and text. *)

From S2P Require Import Prelude CText.
From S2P Require Import Magnitude Value Bignum BignumText.
From S2P Require Import ManifestLiteral.
From Stdlib Require Import ZArith Lia Bool List String Ascii.
From stdpp Require Import base numbers list.

Local Open Scope Z_scope.
Local Open Scope c_scope.

(** ** Allocation and doubles *)

(** What JSON code asks the allocators for. *)
Inductive Request :=
  | BUILDER_APPEND (count : nat)
  | ALLOCATE_STRING (length : nat)
  | ALLOCATE_ARRAY
  | ALLOCATE_HASH
  | GC_PROTECT
  | ARRAY_PUSH
  | HASH_SET.

Class JsonHeap (S : Type) := {
  json_vm :: VmHeap S;
  granted : Request -> S -> bool * S;
}.

Class PlentyJson (S : Type) `{JsonHeap S} (plenty : S -> Prop) := {
  plenty_vm :: PlentyHeap S plenty;
  plenty_granted r s : plenty s -> fst (granted r s) = true /\ plenty (snd (granted r s));
}.

(** [printf_g] is ["%.*g"], [exponent_of] the exponent ["%.0e"] prints. *)
Class Doubles (Float : Type) := {
  same_bits :: EqDecision Float;
  isfinite : Float -> bool;
  strtod : list Z -> Float;
  printf_g : nat -> Float -> list Z;
  exponent_of : Float -> Z;
}.

(** ** Values *)

(** A Hash key: a String, a Symbol, or any other value. *)
Inductive JsonKey := KString (chars : list Z) | KSymbol (chars : list Z) | KOther (value : nat).

#[global] Instance JsonKey_eq_dec : EqDecision JsonKey.
Proof. solve_decision. Defined.

Inductive JsonValue {Float : Type} :=
  | JNil
  | JBool (boolean : bool)
  | JInt (integer : Z)
  | JFloat (real : Float)
  | JBignum (bignum : DiamondBignum)
  | JString (chars : list Z)
  | JArray (values : list JsonValue)
  | JHash (entries : list (JsonKey * JsonValue))
  | JOther.

Arguments JsonValue Float : clear implicits.

Inductive DiamondVmStatus := JSON_ERROR | OUT_OF_MEMORY | STACK_OVERFLOW | TYPE_ERROR.

(** ** Code that can fail *)

Section Monad.

Context {S : Type} `{!JsonHeap S}.

Definition J (A : Type) : Type := VM S (DiamondVmStatus + A).

Definition give {A} (a : A) : J A := vm_ret (inr a).
Definition fail {A} (status : DiamondVmStatus) : J A := vm_ret (inl status).

Definition jbind {A B} (m : J A) (k : A -> J B) : J B :=
  let! r := m in match r with inl status => fail status | inr a => k a end.

Definition need (r : Request) : J unit :=
  fun s => let '(ok, s) := granted r s in Some (if ok : bool then inr tt else inl OUT_OF_MEMORY, s).

Definition need_bytes (n : Z) : J unit :=
  let! ok := vm_malloc n in if ok : bool then give tt else fail OUT_OF_MEMORY.

End Monad.

Arguments J S A : clear implicits.

Declare Scope json_scope.
Local Open Scope json_scope.
Notation "'let^' x ':=' m 'in' k" := (jbind m (fun x => k))
  (at level 10, x pattern, m at level 100, k at level 200) : json_scope.

(** ** Text *)

Fixpoint json_skip_whitespace (text : list Z) : list Z :=
  match text with
  | c :: rest => if (c =? 32) || (c =? 9) || (c =? 10) || (c =? 13) then json_skip_whitespace rest else text
  | [] => []
  end.

(** The text after [c], when the next byte is [c]. *)
Definition after (c : Z) (text : list Z) : option (list Z) :=
  match text with d :: rest => if d =? c then Some rest else None | [] => None end.

(** [json_utf8_append]: the bytes it appends. *)
Definition json_utf8 (codepoint : Z) : list Z :=
  if codepoint <? 128 then [codepoint]
  else if codepoint <? 2048 then
    [Z.lor 192 (Z.shiftr codepoint 6); Z.lor 128 (Z.land codepoint 63)]
  else if codepoint <? 65536 then
    [Z.lor 224 (Z.shiftr codepoint 12); Z.lor 128 (Z.land (Z.shiftr codepoint 6) 63);
     Z.lor 128 (Z.land codepoint 63)]
  else
    [Z.lor 240 (Z.shiftr codepoint 18); Z.lor 128 (Z.land (Z.shiftr codepoint 12) 63);
     Z.lor 128 (Z.land (Z.shiftr codepoint 6) 63); Z.lor 128 (Z.land codepoint 63)].

Definition json_digit (c : Z) : option Z :=
  if (48 <=? c) && (c <=? 57) then Some (c - 48)
  else if (97 <=? c) && (c <=? 102) then Some (c - 97 + 10)
  else if (65 <=? c) && (c <=? 70) then Some (c - 65 + 10)
  else None.

(** The value of four hexadecimal digits and what follows them. *)
Definition json_hex4 (text : list Z) : option (Z * list Z) :=
  match text with
  | a :: b :: c :: d :: rest =>
      let? a := json_digit a in let? b := json_digit b in
      let? c := json_digit c in let? d := json_digit d in
      Some ((((0 * 16 + a) * 16 + b) * 16 + c) * 16 + d, rest)
  | _ => None
  end.

(** [json_unicode_escape] after [\u]: the code point and what follows. *)
Definition json_unicode_escape (text : list Z) : option (Z * list Z) :=
  let? (code, rest) := json_hex4 text in
  if (55296 <=? code) && (code <=? 56319) then
    let? rest := after 92 rest in
    let? rest := after 117 rest in
    let? (low, rest) := json_hex4 rest in
    if (low <? 56320) || (57343 <? low) then None
    else Some (65536 + (code - 55296) * 1024 + (low - 56320), rest)
  else if (56320 <=? code) && (code <=? 57343) then None
  else Some (code, rest).

(** The byte of a one-letter escape. *)
Definition json_escape (c : Z) : option Z :=
  if c =? 34 then Some 34 else if c =? 92 then Some 92 else if c =? 47 then Some 47
  else if c =? 110 then Some 10 else if c =? 114 then Some 13 else if c =? 116 then Some 9
  else if c =? 98 then Some 8 else if c =? 102 then Some 12 else None.

(** The digits from the second on, when there must be at least one. *)
Definition some_digits (text : list Z) : option (list Z * list Z) :=
  let '(digits, rest) := span_digits text in
  match digits with [] => None | _ => Some (digits, rest) end.

Definition number_fraction (text : list Z) : option (list Z * list Z) :=
  match after 46 text with
  | Some rest => let? (digits, rest) := some_digits rest in Some (46 :: digits, rest)
  | None => Some ([], text)
  end.

Definition number_exponent (text : list Z) : option (list Z * list Z) :=
  match text with
  | c :: rest =>
      if (c =? 101) || (c =? 69) then
        let '(sign, rest) :=
          match rest with
          | d :: rest' => if (d =? 43) || (d =? 45) then ([d], rest') else ([], rest)
          | [] => ([], rest)
          end in
        let? (digits, rest) := some_digits rest in Some (c :: sign ++ digits, rest)
      else Some ([], text)
  | [] => Some ([], text)
  end.

(** The parts of a number: its sign, digits, and the text of fraction and
    exponent. *)
Definition number_parts (text : list Z) : option (bool * list Z * list Z * list Z) :=
  let '(negative, text) := match after 45 text with Some rest => (true, rest) | None => (false, text) end in
  let? (digits, rest) := some_digits text in
  let? (fraction, rest) := number_fraction rest in
  let? (exponent, rest) := number_exponent rest in
  Some (negative, digits, fraction ++ exponent, rest).

Definition fits_i64 (z : Z) : bool := (- two_63 <=? z) && (z <? two_63).

(** The loop with [ckd_mul] and [ckd_add]; [None] is an overflow. *)
Fixpoint int_digits (digits : list Z) (value : Z) : option Z :=
  match digits with
  | [] => Some value
  | c :: rest =>
      let widened := value * 10 in
      if negb (fits_i64 widened) || negb (fits_i64 (widened + (c - 48))) then None
      else int_digits rest (widened + (c - 48))
  end.

Definition DIAMOND_MAX_CALL_DEPTH : nat := 150.
Definition JSON_MAX_INDENT : nat := 16.

(** ** The parser

    A parser takes the rest of the text and returns a value with the rest after
    it; running past the end of the text is an error the code reports. *)

Section Parser.

Context {S Float : Type} `{!JsonHeap S} `{!Doubles Float}.

(** The loop of [json_parse_string]; [acc] is its builder. *)
Fixpoint json_string_loop (fuel : nat) (text acc : list Z) : J S (list Z * list Z) :=
  match fuel with
  | O => fun _ => None
  | Datatypes.S fuel =>
      match text with
      | [] => fail JSON_ERROR
      | c :: rest =>
          if c =? 34 then let^ _ := need (ALLOCATE_STRING (List.length acc)) in give (acc, rest)
          else if c =? 92 then
            match rest with
            | [] => fail JSON_ERROR
            | e :: rest =>
                match json_escape e with
                | Some byte =>
                    let^ _ := need (BUILDER_APPEND 1) in json_string_loop fuel rest (acc ++ [byte])
                | None =>
                    if e =? 117 then
                      match json_unicode_escape rest with
                      | Some (codepoint, rest) =>
                          let^ _ := need (BUILDER_APPEND (List.length (json_utf8 codepoint))) in
                          json_string_loop fuel rest (acc ++ json_utf8 codepoint)
                      | None => fail JSON_ERROR
                      end
                    else fail JSON_ERROR
                end
            end
          else let^ _ := need (BUILDER_APPEND 1) in json_string_loop fuel rest (acc ++ [c])
      end
  end.

(** [json_parse_string] after the opening quote. *)
Definition json_parse_string (text : list Z) : J S (list Z * list Z) :=
  json_string_loop (Datatypes.S (List.length text)) text [].

(** The value a bignum conversion returned. *)
Definition json_int (value : DiamondValue) : J S (JsonValue Float) :=
  match value with
  | DIAMOND_NIL => fail OUT_OF_MEMORY
  | DIAMOND_INT z => give (JInt z)
  | DIAMOND_OBJECT (OBJECT_BIGNUM b) => give (JBignum b)
  | _ => fun _ => None
  end.

Definition json_parse_number (text : list Z) : J S (JsonValue Float * list Z) :=
  match number_parts text with
  | None => fail JSON_ERROR
  | Some (negative, digits, tail_, rest) =>
      match tail_ with
      | _ :: _ => give (JFloat (strtod (sign_text negative ++ digits ++ tail_)), rest)
      | [] =>
          match int_digits digits 0 with
          | Some value => give (JInt (if negative : bool then - value else value), rest)
          | None =>
              let! value := diamond_bignum_from_decimal_digits digits negative in
              let^ value := json_int value in give (value, rest)
          end
      end
  end.

Definition json_parse_literal (literal text : list Z) (value : JsonValue Float) : J S (JsonValue Float * list Z) :=
  if starts_with literal text then give (value, drop (List.length literal) text) else fail JSON_ERROR.

(** [hash_set] with a String key: in place, or at the end. *)
Fixpoint entry_set (key : list Z) (value : JsonValue Float) (entries : list (JsonKey * JsonValue Float)) :=
  match entries with
  | [] => [(KString key, value)]
  | (k, v) :: rest =>
      if decide (k = KString key) then (k, value) :: rest else (k, v) :: entry_set key value rest
  end.

Section Collections.

Context (parse_value : list Z -> J S (JsonValue Float * list Z)).

Fixpoint json_array_loop (fuel : nat) (text : list Z) (values : list (JsonValue Float)) : J S (JsonValue Float * list Z) :=
  match fuel with
  | O => fun _ => None
  | Datatypes.S fuel =>
      let^ (element, text) := parse_value text in
      let^ _ := need ARRAY_PUSH in
      match json_skip_whitespace text with
      | [] => fail JSON_ERROR
      | c :: rest =>
          if c =? 44 then json_array_loop fuel (json_skip_whitespace rest) (values ++ [element])
          else if c =? 93 then give (JArray (values ++ [element]), rest)
          else fail JSON_ERROR
      end
  end.

(** [json_parse_array_body] after the opening bracket. *)
Definition json_parse_array_body (text : list Z) : J S (JsonValue Float * list Z) :=
  let text := json_skip_whitespace text in
  let^ _ := need ALLOCATE_ARRAY in
  let^ _ := need GC_PROTECT in
  match after 93 text with
  | Some rest => give (JArray [], rest)
  | None => json_array_loop (Datatypes.S (List.length text)) text []
  end.

Fixpoint json_object_loop (fuel : nat) (text : list Z) (entries : list (JsonKey * JsonValue Float))
    : J S (JsonValue Float * list Z) :=
  match fuel with
  | O => fun _ => None
  | Datatypes.S fuel =>
      match after 34 (json_skip_whitespace text) with
      | Some text =>
          let^ (key, text) := json_parse_string text in
          let^ _ := need HASH_SET in
          let entries := entry_set key JNil entries in
          match after 58 (json_skip_whitespace text) with
          | Some text =>
              let^ (value, text) := parse_value (json_skip_whitespace text) in
              let^ _ := need HASH_SET in
              let entries := entry_set key value entries in
              match json_skip_whitespace text with
              | [] => fail JSON_ERROR
              | c :: rest =>
                  if c =? 44 then json_object_loop fuel rest entries
                  else if c =? 125 then give (JHash entries, rest)
                  else fail JSON_ERROR
              end
          | None => fail JSON_ERROR
          end
      | None => fail JSON_ERROR
      end
  end.

Definition json_parse_object_body (text : list Z) : J S (JsonValue Float * list Z) :=
  let text := json_skip_whitespace text in
  let^ _ := need ALLOCATE_HASH in
  let^ _ := need GC_PROTECT in
  match after 125 text with
  | Some rest => give (JHash [], rest)
  | None => json_object_loop (Datatypes.S (List.length text)) text []
  end.

End Collections.

Fixpoint json_parse_value (fuel depth : nat) (text : list Z) : J S (JsonValue Float * list Z) :=
  match fuel with
  | O => fun _ => None
  | Datatypes.S fuel =>
      let text := json_skip_whitespace text in
      match text with
      | [] => fail JSON_ERROR
      | c :: rest =>
          if c =? 123 then
            if (DIAMOND_MAX_CALL_DEPTH <=? depth)%nat then fail STACK_OVERFLOW
            else json_parse_object_body (json_parse_value fuel (Datatypes.S depth)) rest
          else if c =? 91 then
            if (DIAMOND_MAX_CALL_DEPTH <=? depth)%nat then fail STACK_OVERFLOW
            else json_parse_array_body (json_parse_value fuel (Datatypes.S depth)) rest
          else if c =? 34 then let^ (chars, rest) := json_parse_string rest in give (JString chars, rest)
          else if c =? 116 then json_parse_literal (bytes "true") text (JBool true)
          else if c =? 102 then json_parse_literal (bytes "false") text (JBool false)
          else if c =? 110 then json_parse_literal (bytes "null") text JNil
          else if (c =? 45) || ((48 <=? c) && (c <=? 57)) then json_parse_number text
          else fail JSON_ERROR
      end
  end.

Definition json_parse_document (text : list Z) : J S (JsonValue Float) :=
  let^ (value, rest) := json_parse_value (Datatypes.S (List.length text)) 0 text in
  match json_skip_whitespace rest with [] => give value | _ :: _ => fail JSON_ERROR end.

End Parser.

(** ** Numbers as text *)

(** The do-while loop of [format_int_decimal]: twenty bytes hold the digits of
    a 64-bit magnitude, last digit first. *)
Fixpoint reversed_digits (room : nat) (magnitude : Z) : option (list Z) :=
  match room with
  | O => None
  | Datatypes.S room =>
      let c := 48 + magnitude mod 10 in
      if magnitude / 10 =? 0 then Some [c]
      else let? more := reversed_digits room (magnitude / 10) in Some (c :: more)
  end.

Definition format_int_decimal (value : Z) : option (list Z) :=
  let magnitude := if value <? 0 then to_u64 (0 - to_u64 value) else to_u64 value in
  let? reversed := reversed_digits 20 magnitude in
  Some (sign_text (value <? 0) ++ rev reversed).

Section FormatFloat.

Context {Float : Type} `{!Doubles Float}.

(** The loop of [builder_format_value] over precisions up to 17; the text it
    leaves, unless even the last does not fit the 96 bytes. *)
Fixpoint shortest (fuel precision : nat) (real : Float) (text : option (list Z)) : option (list Z) :=
  match fuel with
  | O => text
  | Datatypes.S fuel =>
      if (17 <? precision)%nat then text else
      let scalar := printf_g precision real in
      if (96 <=? List.length scalar)%nat then shortest fuel (Datatypes.S precision) real None
      else if decide (strtod scalar = real) then Some scalar
      else shortest fuel (Datatypes.S precision) real (Some scalar)
  end.

Definition has_marker (text : list Z) : bool :=
  existsb (fun c => (c =? 46) || (c =? 101) || (c =? 69)) text.

Definition start_precision (real : Float) : nat :=
  if (1 <=? exponent_of real) && (exponent_of real <=? 16) then Z.to_nat (exponent_of real + 1) else 1%nat.

Definition format_float (real : Float) : option (list Z) :=
  shortest 17 (start_precision real) real None.

(** What is appended to a text that does not look like a double. *)
Definition float_suffix (text : list Z) : list Z := if has_marker text then [] else bytes ".0".

End FormatFloat.

(** ** The writer *)

Record JsonWriter := { indent : list Z; sort_keys : bool }.

(** A key to sort: its text and the index of its entry. *)
Record JsonKeySort := { ks_chars : list Z; ks_index : nat }.

(** [json_key_compare(a, b) < 0]: [memcmp] of the shared prefix, then the
    lengths, then the indices. *)
Fixpoint chars_compare (a b : list Z) : comparison :=
  match a, b with
  | [], [] => Eq
  | [], _ :: _ => Lt
  | _ :: _, [] => Gt
  | x :: a, y :: b => match x ?= y with Eq => chars_compare a b | c => c end
  end.

Definition json_key_before (a b : JsonKeySort) : bool :=
  match chars_compare (ks_chars a) (ks_chars b) with
  | Lt => true
  | Gt => false
  | Eq => (ks_index a <? ks_index b)%nat
  end.

(** [qsort] by a strict total order. *)
Fixpoint insert_key (k : JsonKeySort) (keys : list JsonKeySort) : list JsonKeySort :=
  match keys with
  | [] => [k]
  | k' :: rest => if json_key_before k k' then k :: keys else k' :: insert_key k rest
  end.

Fixpoint sort_entries (keys : list JsonKeySort) : list JsonKeySort :=
  match keys with [] => [] | k :: rest => insert_key k (sort_entries rest) end.

Fixpoint number_keys (i : nat) (texts : list (list Z)) : list JsonKeySort :=
  match texts with
  | [] => []
  | t :: rest => {| ks_chars := t; ks_index := i |} :: number_keys (Datatypes.S i) rest
  end.

(** The order in which the entries of a Hash are written. *)
Definition json_order (sort : bool) (texts : list (list Z)) : list nat :=
  if sort && (1 <? List.length texts)%nat then map ks_index (sort_entries (number_keys 0 texts))
  else seq 0 (List.length texts).

Definition permute {A} (order : list nat) (l : list A) : list A := omap (fun i => l !! i) order.

Section Writer.

Context {S Float : Type} `{!JsonHeap S} `{!Doubles Float}.

(** The text interpolation makes of a key that is neither String nor Symbol,
    or the status with which its [to_s] fails. *)
Context (stringify_value : nat -> DiamondVmStatus + list Z).

(** [builder_append] to the output. *)
Definition put (text out : list Z) : J S (list Z) :=
  let^ _ := need (BUILDER_APPEND (List.length text)) in give (out ++ text).

Fixpoint append_all (n : nat) (text out : list Z) : J S (list Z) :=
  match n with
  | O => give out
  | Datatypes.S n => let^ out := put text out in append_all n text out
  end.

Definition json_write_break (w : JsonWriter) (level : nat) (out : list Z) : J S (list Z) :=
  match indent w with
  | [] => give out
  | _ :: _ => let^ out := put [10] out in append_all level (indent w) out
  end.

Definition hex (d : Z) : Z := if d <? 10 then 48 + d else 87 + d.

(** What a byte is written as when it cannot stand for itself. *)
Definition string_escape (c : Z) : list Z :=
  if c =? 34 then [92; 34] else if c =? 92 then [92; 92]
  else if c =? 10 then [92; 110] else if c =? 13 then [92; 114] else if c =? 9 then [92; 116]
  else [92; 117; 48; 48; hex (Z.shiftr c 4); hex (Z.land c 15)].

(** The bytes since the last escape, if any. *)
Definition flush (run out : list Z) : J S (list Z) :=
  match run with [] => give out | _ :: _ => put run out end.

Fixpoint write_chars (chars run out : list Z) : J S (list Z) :=
  match chars with
  | [] => flush run out
  | c :: rest =>
      if (32 <=? c) && negb (c =? 34) && negb (c =? 92) then write_chars rest (run ++ [c]) out
      else
        let^ out := flush run out in
        let^ out := put (string_escape c) out in
        write_chars rest [] out
  end.

Definition json_write_string (chars out : list Z) : J S (list Z) :=
  let^ out := put [34] out in
  let^ out := write_chars chars [] out in
  put [34] out.

Definition key_text (key : JsonKey) : DiamondVmStatus + list Z :=
  match key with KString chars | KSymbol chars => inr chars | KOther value => stringify_value value end.

Definition json_write_hash_key (key : JsonKey) (out : list Z) : J S (list Z) :=
  let^ text := vm_ret (key_text key) in json_write_string text out.

(** The texts [json_sorted_order] copies. *)
Fixpoint key_texts (keys : list JsonKey) : J S (list (list Z)) :=
  match keys with
  | [] => give []
  | key :: rest =>
      let^ text := vm_ret (key_text key) in
      let^ _ := need_bytes (Z.of_nat (Nat.max 1 (List.length text))) in
      let^ more := key_texts rest in
      give (text :: more)
  end.

Definition json_sorted_order (keys : list JsonKey) : J S (list nat) :=
  let count := Z.of_nat (List.length keys) in
  let! keys_ok := vm_malloc (count * 24) in
  let! result_ok := vm_malloc (count * 8) in
  if negb keys_ok || negb result_ok then fail OUT_OF_MEMORY else
  let^ texts := key_texts keys in
  give (json_order true texts).

(** [builder_format_value] of an Int. *)
Definition write_number (text : option (list Z)) (out : list Z) : J S (list Z) :=
  let! text := vm_lift text in put text out.

Definition write_bignum (b : DiamondBignum) (out : list Z) : J S (list Z) :=
  let capacity := diamond_bignum_string_length b in
  let^ _ := need_bytes (Z.of_nat capacity) in
  write_number (diamond_bignum_to_string b capacity) out.

Definition write_float (real : Float) (out : list Z) : J S (list Z) :=
  if negb (isfinite real) then fail JSON_ERROR else
  match format_float real with
  | Some text =>
      let^ out := put text out in
      if has_marker text then give out else put (float_suffix text) out
  | None => fail OUT_OF_MEMORY
  end.

(** The elements of an Array, after those at the first [index] positions. *)
Fixpoint write_elements (w : JsonWriter) (level : nat) (first : bool) (elements : list (list Z -> J S (list Z)))
    (out : list Z) : J S (list Z) :=
  match elements with
  | [] => give out
  | write :: rest =>
      let^ out := (if first then give out else put [44] out) in
      let^ out := json_write_break w level out in
      let^ out := write out in
      write_elements w level false rest out
  end.

(** An entry: its key, the colon, its value. *)
Definition write_entry (w : JsonWriter) (key : JsonKey) (write : list Z -> J S (list Z)) (out : list Z) : J S (list Z) :=
  let^ out := json_write_hash_key key out in
  let^ out := put (match indent w with [] => [58] | _ :: _ => [58; 32] end) out in
  write out.

(** Brackets around elements laid out one level deeper. *)
Definition write_bracketed (w : JsonWriter) (nesting : nat) (open close : Z) (elements : list (list Z -> J S (list Z)))
    (out : list Z) : J S (list Z) :=
  let^ out := put [open] out in
  let^ out := write_elements w (Datatypes.S nesting) true elements out in
  let^ out := (match elements with [] => give out | _ :: _ => json_write_break w nesting out end) in
  put [close] out.

Fixpoint json_write_value (w : JsonWriter) (nesting : nat) (value : JsonValue Float) (out : list Z) : J S (list Z) :=
  match value with
  | JNil => put (bytes "null") out
  | JBool b => put (if b then bytes "true" else bytes "false") out
  | JInt z => write_number (format_int_decimal z) out
  | JFloat real => write_float real out
  | JBignum b => write_bignum b out
  | JString chars => json_write_string chars out
  | JOther => fail JSON_ERROR
  | JArray values =>
      if (DIAMOND_MAX_CALL_DEPTH <=? nesting)%nat then fail STACK_OVERFLOW else
      write_bracketed w nesting 91 93 (map (json_write_value w (Datatypes.S nesting)) values) out
  | JHash entries =>
      if (DIAMOND_MAX_CALL_DEPTH <=? nesting)%nat then fail STACK_OVERFLOW else
      let writers := map (fun e => write_entry w (fst e) (json_write_value w (Datatypes.S nesting) (snd e))) entries in
      let^ order := (if sort_keys w && (1 <? List.length entries)%nat then json_sorted_order (map fst entries)
                     else give (seq 0 (List.length entries))) in
      write_bracketed w nesting 123 125 (permute order writers) out
  end.

(** ** Options and the entry point *)

Definition is_key (name : string) (key : JsonKey) : bool :=
  match key with KString chars | KSymbol chars => bool_decide (chars = bytes name) | KOther _ => false end.

(** The writer after the options were read. *)
Fixpoint json_read_entries (options : list (JsonKey * JsonValue Float)) (w : JsonWriter) : DiamondVmStatus + JsonWriter :=
  match options with
  | [] => inr w
  | (key, value) :: rest =>
      if is_key "indent" key then
        match value with
        | JNil => json_read_entries rest w
        | JInt n =>
            if (n <? 0) || (Z.of_nat JSON_MAX_INDENT <? n) then inl TYPE_ERROR
            else json_read_entries rest {| indent := replicate (Z.to_nat n) 32; sort_keys := sort_keys w |}
        | JString chars =>
            if (JSON_MAX_INDENT <? List.length chars)%nat then inl TYPE_ERROR
            else if negb (forallb (fun c => (c =? 32) || (c =? 9)) chars) then inl TYPE_ERROR
            else json_read_entries rest {| indent := chars; sort_keys := sort_keys w |}
        | _ => inl TYPE_ERROR
        end
      else if is_key "sort_keys" key then
        match value with
        | JNil => json_read_entries rest w
        | JBool b => json_read_entries rest {| indent := indent w; sort_keys := b |}
        | _ => inl TYPE_ERROR
        end
      else inl TYPE_ERROR
  end.

Definition json_read_options (options : JsonValue Float) : DiamondVmStatus + JsonWriter :=
  let w := {| indent := []; sort_keys := false |} in
  match options with
  | JNil => inr w
  | JHash entries => json_read_entries entries w
  | _ => inl TYPE_ERROR
  end.

Definition json_stringify_document (value options : JsonValue Float) : J S (list Z) :=
  let^ w := vm_ret (json_read_options options) in
  let^ out := json_write_value w 0 value [] in
  let^ _ := need (ALLOCATE_STRING (List.length out)) in
  give out.

End Writer.
