(* ===== verification/JsonText.v ===== *)
(** * JsonText: what the JSON writer writes and the parser reads

    Predicates for successful runs of both sides of Json, the texts of strings
    and numbers, and that the parser reads them back. *)

From S2P Require Import Prelude Digits CText.
From S2P Require Import Magnitude Value Bignum BignumText.
From S2P Require Import ManifestLiteral.
From S2P Require Import Json.
From Stdlib Require Import ZArith Lia Bool List String Ascii.
From stdpp Require Import base numbers list.

Local Open Scope Z_scope.
Local Open Scope c_scope.
Local Open Scope json_scope.

(** ** Laws of the C library's doubles *)

(** Fraction and exponent of a number. *)
Definition fraction_text (t : list Z) : Prop :=
  t = [] \/ exists digits, t = 46 :: digits /\ is_digits digits /\ digits <> [].
Definition exponent_text (t : list Z) : Prop :=
  t = [] \/ exists sign digits, t = 101 :: sign ++ digits /\
    (sign = [] \/ sign = [43] \/ sign = [45]) /\ is_digits digits /\ digits <> [].

(** A decimal numeral, as ["%g"] prints finite doubles. *)
Definition numeral (t : list Z) : Prop :=
  exists negative digits fraction exponent,
    t = sign_text negative ++ digits ++ fraction ++ exponent /\
    is_digits digits /\ digits <> [] /\ fraction_text fraction /\ exponent_text exponent.

(** ["%g"] prints numerals that fit a small buffer, seventeen digits tell a
    double from every other, and a fraction of zero changes nothing. *)
Class DoubleLaws (Float : Type) `{Doubles Float} := {
  g_numeral p f : isfinite f = true -> (1 <= p <= 17)%nat -> numeral (printf_g p f);
  g_fits p f : isfinite f = true -> (1 <= p <= 17)%nat -> (List.length (printf_g p f) < 96)%nat;
  g_exact f : isfinite f = true -> strtod (printf_g 17 f) = f;
  point_zero negative digits : is_digits digits -> digits <> [] ->
    strtod (sign_text negative ++ digits ++ bytes ".0") = strtod (sign_text negative ++ digits);
}.

(** ** Successful runs *)

Section Runs.

Context {S : Type} `{!JsonHeap S} (plenty : S -> Prop) `{!PlentyJson S plenty}.

(** [m] returns [a] in every plentiful heap. *)
Definition reads {A} (m : J S A) (a : A) : Prop :=
  forall s, plenty s -> exists s', m s = Some (inr a, s') /\ plenty s'.

Lemma reads_give {A} (a : A) : reads (give a) a.
Proof. intros s Hs. by exists s. Qed.

Lemma reads_bind {A B} (m : J S A) (k : A -> J S B) a b : reads m a -> reads (k a) b -> reads (jbind m k) b.
Proof.
  intros Hm Hk s Hs. destruct (Hm s Hs) as (s1 & E & H1). unfold jbind, vm_bind. rewrite E. by apply Hk.
Qed.

Lemma reads_vm {A B} (m : VM S A) (k : A -> J S B) a b :
  (forall s, plenty s -> exists s', m s = Some (a, s') /\ plenty s') -> reads (k a) b -> reads (vm_bind m k) b.
Proof.
  intros Hm Hk s Hs. destruct (Hm s Hs) as (s1 & E & H1). unfold vm_bind. rewrite E. by apply Hk.
Qed.

Lemma reads_need r : reads (need r) tt.
Proof using PlentyJson0.
  intros s Hs. unfold need. pose proof (plenty_granted r s Hs) as [E Hp]. destruct (granted r s) as [ok s'].
  simpl in *. subst ok. by exists s'.
Qed.

Lemma reads_need_bytes n : reads (need_bytes n) tt.
Proof using PlentyJson0.
  apply (reads_vm _ _ true); [|apply reads_give]. intros s Hs. unfold vm_malloc.
  pose proof (plenty_malloc n s Hs) as [E Hp]. destruct (malloc n s) as [ok s']. simpl in *. subst ok. by exists s'.
Qed.

Lemma reads_then_need {B} r (k : unit -> J S B) b : reads (k tt) b -> reads (jbind (need r) k) b.
Proof using PlentyJson0. intros Hk. eapply reads_bind; [apply reads_need|done]. Qed.

End Runs.

(** ** Writers *)

Section Writes.

Context {S : Type} `{!JsonHeap S}.

Lemma jbind_inv {A B} (m : J S A) (k : A -> J S B) s b s' :
  jbind m k s = Some (inr b, s') -> exists a s1, m s = Some (inr a, s1) /\ k a s1 = Some (inr b, s').
Proof.
  unfold jbind, vm_bind. destruct (m s) as [[[status|a] s1]|]; [done| |done]. intros Hk. by exists a, s1.
Qed.

(** When [f] succeeds it appends a text with [P]. *)
Definition adds (f : list Z -> J S (list Z)) (P : list Z -> Prop) : Prop :=
  forall out s out' s', f out s = Some (inr out', s') -> exists t, out' = out ++ t /\ P t.

Lemma adds_give : adds give (eq []).
Proof. intros out s out' s' [= <- _]. exists []. by rewrite app_nil_r. Qed.

Lemma adds_put t : adds (put t) (eq t).
Proof.
  intros out s out' s' H. apply jbind_inv in H as ([] & s1 & _ & [= <- _]). by exists t.
Qed.

Lemma adds_fail status P : adds (fun _ => fail status) P.
Proof. intros out s out' s' [=]. Qed.

Lemma adds_bind f g P Q :
  adds f P -> adds g Q -> adds (fun out => let^ out := f out in g out) (fun t => exists a b, t = a ++ b /\ P a /\ Q b).
Proof.
  intros Hf Hg out s out' s' H. apply jbind_inv in H as (out1 & s1 & H1 & H2).
  apply Hf in H1 as (a & -> & Ha). apply Hg in H2 as (b & -> & Hb).
  exists (a ++ b). rewrite app_assoc. eauto 10.
Qed.

Lemma adds_bind_eq f g a b :
  adds f (eq a) -> adds g (eq b) -> adds (fun out => let^ out := f out in g out) (eq (a ++ b)).
Proof.
  intros Hf Hg out s out' s' H. destruct (adds_bind f g _ _ Hf Hg _ _ _ _ H) as (t & -> & x & y & -> & <- & <-).
  by exists (a ++ b).
Qed.

(** A computation before the output is touched. *)
Lemma adds_after {A} (m : J S A) (k : A -> list Z -> J S (list Z)) P :
  (forall a s s1, m s = Some (inr a, s1) -> adds (k a) P) -> adds (fun out => let^ a := m in k a out) P.
Proof. intros Hk out s out' s' H. apply jbind_inv in H as (a & s1 & H1 & H2). by eapply (Hk a). Qed.

Lemma adds_mono f (P Q : list Z -> Prop) : adds f P -> (forall t, P t -> Q t) -> adds f Q.
Proof. intros Hf HPQ out s out' s' H. apply Hf in H as (t & -> & Ht). eauto. Qed.

End Writes.

(** ** Strings *)

Definition plain_char (c : Z) : bool := (32 <=? c) && negb (c =? 34) && negb (c =? 92).
Definition escaped_char (c : Z) : list Z := if plain_char c then [c] else string_escape c.
Definition escaped (chars : list Z) : list Z := concat (map escaped_char chars).
Definition quoted (chars : list Z) : list Z := 34 :: escaped chars ++ [34].
Definition byte_text (chars : list Z) : Prop := Forall (fun c => 0 <= c < 256) chars.

Section Strings.

Context {S : Type} `{!JsonHeap S}.

Lemma adds_flush run : adds (flush run) (eq run).
Proof. destruct run; [apply adds_give|apply adds_put]. Qed.

Lemma adds_chars chars run : adds (write_chars chars run) (eq (run ++ escaped chars)).
Proof.
  revert run. induction chars as [|c chars IH]; intros run; cbn [write_chars].
  { unfold escaped. simpl. rewrite app_nil_r. apply adds_flush. }
  unfold escaped. cbn [map concat]. change (concat (map escaped_char chars)) with (escaped chars).
  unfold escaped_char, plain_char. destruct ((32 <=? c) && negb (c =? 34) && negb (c =? 92)).
  - replace (run ++ [c] ++ escaped chars) with ((run ++ [c]) ++ escaped chars) by by rewrite <- app_assoc. apply IH.
  - apply adds_bind_eq; [apply adds_flush|]. apply adds_bind_eq; [apply adds_put|]. apply (IH []).
Qed.

Lemma adds_string chars : adds (json_write_string chars) (eq (quoted chars)).
Proof.
  unfold json_write_string, quoted. change (34 :: escaped chars ++ [34]) with ([34] ++ escaped chars ++ [34]).
  apply adds_bind_eq; [apply adds_put|]. apply adds_bind_eq; [apply (adds_chars chars [])|apply adds_put].
Qed.

End Strings.

Lemma json_digit_hex d : 0 <= d < 16 -> json_digit (hex d) = Some d.
Proof.
  intros Hd. unfold hex, json_digit. destruct (Z.ltb_spec d 10).
  - rewrite (proj2 (Z.leb_le 48 _)), (proj2 (Z.leb_le _ 57)) by lia. simpl. f_equal. lia.
  - rewrite (proj2 (Z.leb_le 48 _)), (proj2 (Z.leb_gt _ 57)) by lia. cbn [andb].
    rewrite (proj2 (Z.leb_le 97 _)), (proj2 (Z.leb_le _ 102)) by lia. simpl. f_equal. lia.
Qed.

Lemma control_escape c rest :
  0 <= c < 32 -> json_unicode_escape (48 :: 48 :: hex (Z.shiftr c 4) :: hex (Z.land c 15) :: rest) = Some (c, rest).
Proof.
  intros Hc. change 15 with (Z.ones 4). rewrite Z.shiftr_div_pow2, Z.land_ones by lia. change (2 ^ 4) with 16.
  pose proof (Z.mod_pos_bound c 16 ltac:(lia)). pose proof (Z.div_mod c 16 ltac:(lia)).
  unfold json_unicode_escape, json_hex4. cbv beta iota.
  rewrite !json_digit_hex by first [lia | split; [apply Z.div_pos; lia | apply Z.div_lt_upper_bound; lia]].
  change (json_digit 48) with (Some 0). cbv beta iota.
  replace ((((0 * 16 + 0) * 16 + 0) * 16 + c / 16) * 16 + c mod 16) with c by lia.
  rewrite (proj2 (Z.leb_gt 55296 c)), (proj2 (Z.leb_gt 56320 c)) by lia. done.
Qed.

Section ReadStrings.

Context {S : Type} `{!JsonHeap S} (plenty : S -> Prop) `{!PlentyJson S plenty}.

Lemma string_loop_reads chars rest fuel acc :
  byte_text chars -> (List.length (escaped chars ++ 34%Z :: rest) < fuel)%nat ->
  reads plenty (json_string_loop fuel (escaped chars ++ 34 :: rest) acc) (acc ++ chars, rest).
Proof using PlentyJson0.
  intros Hb. revert fuel acc. induction Hb as [|c chars Hc Hb IH]; intros fuel acc Hf; (destruct fuel as [|fuel]; [lia|]).
  { cbn [escaped map concat app json_string_loop]. rewrite app_nil_r. apply reads_then_need; [done|]. apply reads_give. }
  unfold escaped in Hf |- *. cbn [map concat] in Hf |- *. fold (escaped chars) in Hf |- *.
  rewrite <- app_assoc in Hf |- *. rewrite length_app in Hf.
  replace (acc ++ c :: chars) with ((acc ++ [c]) ++ chars) by by rewrite <- app_assoc.
  destruct (Z.eq_dec c 34) as [->|H34]; [cbn; apply reads_then_need; [done|]; apply IH; cbn in Hf; lia|].
  destruct (Z.eq_dec c 92) as [->|H92]; [cbn; apply reads_then_need; [done|]; apply IH; cbn in Hf; lia|].
  unfold escaped_char, plain_char in *. rewrite (proj2 (Z.eqb_neq _ _) H34), (proj2 (Z.eqb_neq _ _) H92) in *.
  destruct (Z.leb_spec 32 c); cbn [andb negb app List.length] in *.
  - cbn [json_string_loop]. rewrite (proj2 (Z.eqb_neq _ _) H34), (proj2 (Z.eqb_neq _ _) H92).
    apply reads_then_need; [done|]. apply IH. lia.
  - unfold string_escape in *. rewrite (proj2 (Z.eqb_neq _ _) H34), (proj2 (Z.eqb_neq _ _) H92) in *.
    destruct (Z.eqb_spec c 10) as [->|]; [cbn; apply reads_then_need; [done|]; apply IH; cbn in Hf; lia|].
    destruct (Z.eqb_spec c 13) as [->|]; [cbn; apply reads_then_need; [done|]; apply IH; cbn in Hf; lia|].
    destruct (Z.eqb_spec c 9) as [->|]; [cbn; apply reads_then_need; [done|]; apply IH; cbn in Hf; lia|].
    cbn [app json_string_loop]. change (json_escape 117) with (@None Z). change (92 =? 34) with false.
    change (92 =? 92) with true. change (117 =? 117) with true. cbv beta iota.
    rewrite control_escape by lia. apply reads_then_need; [done|]. unfold json_utf8.
    rewrite (proj2 (Z.ltb_lt c 128)) by lia. apply IH. cbn [List.length] in Hf. lia.
Qed.

(** A quoted string reads back. *)
Lemma string_reads chars rest :
  byte_text chars -> reads plenty (json_parse_string (escaped chars ++ 34 :: rest)) (chars, rest).
Proof using PlentyJson0. intros Hb. unfold json_parse_string. apply (string_loop_reads chars rest _ []); [done|lia]. Qed.

End ReadStrings.

(** ** Numbers *)

Lemma decimal_value_snoc s c : decimal_value (s ++ [c]) = decimal_value s * 10 + (c - 48).
Proof. rewrite decimal_value_app. unfold decimal_value at 2. simpl. lia. Qed.

Lemma reversed_digits_spec room m :
  (1 <= room)%nat -> 0 <= m < 10 ^ Z.of_nat room ->
  exists r, reversed_digits room m = Some r /\ is_digits (rev r) /\ decimal_value (rev r) = m /\ rev r <> [].
Proof.
  revert m. induction room as [|room IH]; intros m Hr Hm; [lia|]. cbn [reversed_digits].
  pose proof (Z.mod_pos_bound m 10 ltac:(lia)). pose proof (Z.div_mod m 10 ltac:(lia)).
  destruct (Z.eqb_spec (m / 10) 0) as [E|E].
  - eexists. split_and!; [done| | |done]; simpl.
    + repeat constructor; lia.
    + unfold decimal_value. simpl. lia.
  - rewrite Nat2Z.inj_succ, Z.pow_succ_r in Hm by lia.
    assert (Hd : 0 <= m / 10 < 10 ^ Z.of_nat room) by (split; [apply Z.div_pos|apply Z.div_lt_upper_bound]; lia).
    destruct room as [|room]; [simpl in Hd; lia|]. destruct (IH (m / 10)) as (r & -> & H1 & H2 & H3); [lia|done|].
    eexists. split_and!; [done| | |]; simpl.
    + apply Forall_app. split; [done|]. repeat constructor; lia.
    + rewrite decimal_value_snoc, H2. lia.
    + by destruct (rev r).
Qed.

Lemma format_int_spec z :
  - two_63 <= z < two_63 ->
  exists digits, format_int_decimal z = Some (sign_text (z <? 0) ++ digits) /\
    is_digits digits /\ digits <> [] /\ decimal_value digits = Z.abs z.
Proof.
  intros Hz. unfold format_int_decimal. set (m := if z <? 0 then _ else _).
  assert (Em : m = Z.abs z).
  { unfold m, to_u64, two_63, two_64 in *. destruct (Z.ltb_spec z 0).
    - rewrite <- (Zminus_mod_idemp_r 0). rewrite Z.mod_mod by lia. rewrite Zminus_mod_idemp_r.
      rewrite Z.mod_small; lia.
    - rewrite Z.mod_small; lia. }
  destruct (reversed_digits_spec 20 m) as (r & -> & H1 & H2 & H3); [lia|unfold two_63 in *; simpl; lia|].
  exists (rev r). by rewrite H2.
Qed.

Lemma after_cons c rest : after c (c :: rest) = Some rest.
Proof. simpl. by rewrite Z.eqb_refl. Qed.

Lemma after_other c text : peek text <> c -> after c text = None.
Proof. intros H. destruct text as [|d text]; [done|]. simpl in *. by rewrite (proj2 (Z.eqb_neq d c)). Qed.

(** The characters that cannot follow a number. *)
Definition delimited (rest : list Z) : Prop :=
  isdigit (peek rest) = false /\ peek rest <> 46 /\ peek rest <> 101 /\ peek rest <> 69.

Lemma some_digits_app digits rest :
  is_digits digits -> digits <> [] -> isdigit (peek rest) = false -> some_digits (digits ++ rest) = Some (digits, rest).
Proof. intros Hd Hn Hr. unfold some_digits. rewrite span_digits_app by done. by destruct digits. Qed.

Lemma scan_exponent_app t rest : exponent_text t -> delimited rest -> number_exponent (t ++ rest) = Some (t, rest).
Proof.
  intros [->|(sign & digits & -> & Hs & Hd & Hn)] (D1 & D2 & D3 & D4).
  - destruct rest as [|c rest]; [done|]. simpl in *.
    by rewrite (proj2 (Z.eqb_neq c 101)), (proj2 (Z.eqb_neq c 69)).
  - cbn [app number_exponent]. change (101 =? 101) with true. cbn [orb]. rewrite <- app_assoc.
    destruct Hs as [-> | [-> | ->]]; cbn [app].
    2,3: cbn [Z.eqb Pos.eqb orb]; by rewrite some_digits_app.
    destruct digits as [|d digits]; [done|]. cbn [app]. pose proof (proj1 (proj1 (Forall_cons _ _ _) Hd)) as Hx. simpl in Hx.
    rewrite (proj2 (Z.eqb_neq d 43)), (proj2 (Z.eqb_neq d 45)) by lia. cbn [orb].
    pose proof (some_digits_app (d :: digits) rest Hd Hn D1) as Hs. cbn [app] in Hs. by rewrite Hs.
Qed.

Lemma exponent_start t rest : exponent_text t -> delimited rest ->
  isdigit (peek (t ++ rest)) = false /\ peek (t ++ rest) <> 46.
Proof. intros [->|(sign & digits & -> & _)] (D1 & D2 & _); simpl; [done|]. split; [done|lia]. Qed.

Lemma scan_fraction_app t rest :
  fraction_text t -> isdigit (peek rest) = false -> peek rest <> 46 -> number_fraction (t ++ rest) = Some (t, rest).
Proof.
  intros [->|(digits & -> & Hd & Hn)] Hr H46.
  - cbn [app]. unfold number_fraction. by rewrite after_other.
  - unfold number_fraction. cbn [app]. by rewrite after_cons, some_digits_app.
Qed.

Lemma fraction_start t rest : fraction_text t -> isdigit (peek rest) = false -> isdigit (peek (t ++ rest)) = false.
Proof. intros [->|(digits & -> & _)] Hr; simpl; done. Qed.

Lemma scan_number_app negative digits fraction exponent rest :
  is_digits digits -> digits <> [] -> fraction_text fraction -> exponent_text exponent -> delimited rest ->
  number_parts ((sign_text negative ++ digits ++ fraction ++ exponent) ++ rest) =
  Some (negative, digits, fraction ++ exponent, rest).
Proof.
  intros Hd Hn Hf He Hr. unfold number_parts. rewrite <- !app_assoc.
  destruct (exponent_start exponent rest He Hr) as [E1 E2].
  assert (Hs : match after 45 (sign_text negative ++ digits ++ fraction ++ exponent ++ rest) with
               | Some r => (true, r) | None => (false, sign_text negative ++ digits ++ fraction ++ exponent ++ rest) end =
               (negative, digits ++ fraction ++ exponent ++ rest)).
  { destruct negative; [done|]. destruct digits as [|d digits]; [done|]. cbn [sign_text app].
    pose proof (proj1 (proj1 (Forall_cons _ _ _) Hd)) as Hx. simpl in Hx. rewrite after_other; simpl; [done|lia]. }
  rewrite Hs, some_digits_app by (try done; by apply fraction_start).
  by rewrite scan_fraction_app, scan_exponent_app.
Qed.

Lemma int_digits_spec digits v :
  is_digits digits -> 0 <= v < two_63 ->
  int_digits digits v = if v * 10 ^ Z.of_nat (List.length digits) + decimal_value digits <? two_63
                        then Some (v * 10 ^ Z.of_nat (List.length digits) + decimal_value digits) else None.
Proof.
  intros Hd. revert v. induction Hd as [|c digits Hc Hd IH]; intros v Hv.
  { simpl. unfold decimal_value. simpl. rewrite (proj2 (Z.ltb_lt _ _)) by lia. f_equal. lia. }
  cbn [int_digits]. pose proof (decimal_value_bounds digits Hd) as Hb.
  pose proof (decimal_value_app [c] digits) as Ha. cbn [app] in Ha.
  assert (E1 : decimal_value [c] = c - 48) by (unfold decimal_value; simpl; lia). rewrite E1 in Ha.
  rewrite Ha. cbn [List.length]. rewrite Nat2Z.inj_succ, Z.pow_succ_r by lia.
  set (p := 10 ^ Z.of_nat (List.length digits)) in *. assert (0 < p) by (unfold p; apply Z.pow_pos_nonneg; lia).
  replace (v * (10 * p) + ((c - 48) * p + decimal_value digits)) with ((v * 10 + (c - 48)) * p + decimal_value digits) by lia.
  unfold fits_i64. rewrite !(proj2 (Z.leb_le (- two_63) _)) by (unfold two_63 in *; lia). cbn [andb].
  destruct (Z.ltb_spec (v * 10) two_63), (Z.ltb_spec (v * 10 + (c - 48)) two_63); cbn [negb orb].
  1: apply IH; lia.
  all: rewrite (proj2 (Z.ltb_ge _ _)); [done|nia].
Qed.

Definition json_of {Float} (v : DiamondValue) : JsonValue Float :=
  match v with
  | DIAMOND_INT z => JInt z
  | DIAMOND_OBJECT (OBJECT_BIGNUM b) => JBignum b
  | _ => JNil
  end.

Section ReadNumbers.

Context {S Float : Type} `{!JsonHeap S} `{!Doubles Float} (plenty : S -> Prop) `{!PlentyJson S plenty}.

Lemma json_int_reads v z : represents v z -> reads plenty (json_int (Float:=Float) v) (json_of v).
Proof. intros [Hc Hi]. destruct v as [| | | |[b|]| |]; try done; apply reads_give. Qed.

(** The text of an Int reads back. *)
Lemma integer_reads v z negative digits rest :
  represents v z -> z = signed negative (decimal_value digits) -> is_digits digits -> digits <> [] ->
  delimited rest ->
  reads plenty (json_parse_number ((sign_text negative ++ digits) ++ rest)) (json_of (Float:=Float) v, rest).
Proof using PlentyJson0.
  intros Hv Hz Hd Hn Hr. unfold json_parse_number.
  pose proof (scan_number_app negative digits [] [] rest Hd Hn (or_introl eq_refl) (or_introl eq_refl) Hr) as Hs.
  cbn [app] in Hs. rewrite app_nil_r in Hs. rewrite Hs. cbv beta iota.
  pose proof (decimal_value_bounds digits Hd) as Hb. rewrite int_digits_spec by (try done; unfold two_63; lia).
  rewrite Z.mul_0_l, Z.add_0_l. destruct (Z.ltb_spec (decimal_value digits) two_63).
  - assert (v = DIAMOND_INT z) as ->.
    { apply (represents_unique v _ z); [done|]. split; [|done]. simpl. subst z. unfold signed. unfold two_63 in *.
      destruct negative; unfold_widths; lia. }
    subst z. unfold signed. apply reads_give.
  - destruct (diamond_bignum_from_decimal_digits_computes (S:=S) digits negative Hd) as [_ Hw].
    apply (reads_vm _ _ _ v).
    + intros s Hs'. destruct (Hw plenty plenty_vm s Hs') as (v' & s' & E & Hv' & Hp). exists s'. split; [|done].
      rewrite E. do 3 f_equal. subst z. by eapply represents_unique.
    + eapply reads_bind; [by eapply json_int_reads|]. apply reads_give.
Qed.

Lemma float_reads negative digits fraction exponent rest :
  is_digits digits -> digits <> [] -> fraction_text fraction -> exponent_text exponent -> delimited rest ->
  fraction ++ exponent <> [] ->
  reads plenty (json_parse_number ((sign_text negative ++ digits ++ fraction ++ exponent) ++ rest))
    (JFloat (Float:=Float) (strtod (sign_text negative ++ digits ++ fraction ++ exponent)), rest).
Proof.
  intros Hd Hn Hf He Hr Hm. unfold json_parse_number. rewrite scan_number_app by done. cbv beta iota.
  destruct (fraction ++ exponent) as [|c t] eqn:E; [done|]. apply reads_give.
Qed.

End ReadNumbers.

(** ** Floats *)

Section Floats.

Context {Float : Type} `{!Doubles Float} `{!DoubleLaws Float}.

Lemma shortest_spec f fuel p last_ :
  isfinite f = true -> (1 <= p <= 17)%nat -> (17 < p + fuel)%nat ->
  exists q, (1 <= q <= 17)%nat /\ shortest fuel p f last_ = Some (printf_g q f) /\ strtod (printf_g q f) = f.
Proof using DoubleLaws0.
  intros Hf. revert p last_. induction fuel as [|fuel IH]; intros p last_ Hp Hn; [lia|]. cbn [shortest].
  rewrite (proj2 (Nat.ltb_ge _ _)) by lia. pose proof (g_fits p f Hf Hp). rewrite (proj2 (Nat.leb_gt _ _)) by lia.
  destruct (decide (strtod (printf_g p f) = f)) as [E|E]; [by exists p|].
  destruct (decide (p = 17%nat)) as [->|Hne]; [by rewrite g_exact in E|]. apply IH; lia.
Qed.

Lemma start_precision_range f : (1 <= start_precision f <= 17)%nat.
Proof.
  unfold start_precision. destruct (Z.leb_spec 1 (exponent_of f)), (Z.leb_spec (exponent_of f) 16); simpl; lia.
Qed.

Lemma digits_no_marker digits : is_digits digits -> has_marker digits = false.
Proof.
  intros Hd. unfold has_marker. induction Hd as [|c digits Hc Hd IH]; [done|]. simpl.
  rewrite (proj2 (Z.eqb_neq c 46)), (proj2 (Z.eqb_neq c 101)), (proj2 (Z.eqb_neq c 69)) by lia. done.
Qed.

Lemma has_marker_app a b : has_marker (a ++ b) = has_marker a || has_marker b.
Proof. apply existsb_app. Qed.

(** A finite double is printed as a numeral with a fraction or an exponent,
    which [strtod] reads back. *)
Lemma format_float_spec f :
  isfinite f = true ->
  exists text negative digits fraction exponent, format_float f = Some text /\
    text ++ float_suffix text = sign_text negative ++ digits ++ fraction ++ exponent /\
    is_digits digits /\ digits <> [] /\ fraction_text fraction /\ exponent_text exponent /\
    fraction ++ exponent <> [] /\ strtod (sign_text negative ++ digits ++ fraction ++ exponent) = f.
Proof using DoubleLaws0.
  intros Hf. pose proof (start_precision_range f). unfold format_float.
  destruct (shortest_spec f 17 (start_precision f) None Hf) as (q & Hq & -> & Hs); [done|lia|].
  destruct (g_numeral q f Hf Hq) as (neg & digits & fr & ex & E & Hd & Hn & Hfr & Hex). rewrite E in *.
  exists (sign_text neg ++ digits ++ fr ++ ex). unfold float_suffix.
  assert (Hsign : has_marker (sign_text neg) = false) by by destruct neg.
  rewrite !has_marker_app, Hsign, (digits_no_marker digits Hd). cbn [orb].
  destruct Hfr as [->|(ds & -> & Hds & Hdn)].
  2:{ exists neg, digits, (46 :: ds), ex. split_and!; try done; [by rewrite app_nil_r|]. right. eauto. }
  destruct Hex as [->|(sg & ds & -> & Hsg & Hds & Hdn)].
  2:{ exists neg, digits, [], (101 :: sg ++ ds). split_and!; try done; [by rewrite app_nil_r|by left|right; eauto 10]. }
  exists neg, digits, (bytes ".0"), []. cbn [app] in *. rewrite !app_nil_r in *. split_and!; try done; simpl.
  - by rewrite <- app_assoc.
  - right. exists [48]. split_and!; try done. repeat constructor; lia.
  - by left.
  - etransitivity; [|exact Hs]. by apply (point_zero neg digits).
Qed.

End Floats.
