(* ===== verification/JsonOk.v ===== *)
(** * JsonOk: JSON documents read back

    What [json_stringify_document] writes for a value, [json_parse_document]
    reads as the value with its keys as Strings, in the order they were
    written. *)

From S2P Require Import Prelude Digits CText.
From S2P Require Import Magnitude Value Bignum BignumText.
From S2P Require Import ManifestLiteral.
From S2P Require Import Json JsonText.
From Stdlib Require Import ZArith Lia Bool List String Ascii.
From stdpp Require Import base numbers list.

Local Open Scope Z_scope.
Local Open Scope c_scope.
Local Open Scope json_scope.

(** ** Induction on values *)

Section Induction.

Context {Float : Type} (P : JsonValue Float -> Prop).
Hypothesis Hleaf : forall v, match v with JArray _ | JHash _ => True | _ => P v end.
Hypothesis Harray : forall values, Forall P values -> P (JArray values).
Hypothesis Hhash : forall entries, Forall (fun e => P (snd e)) entries -> P (JHash entries).

Fixpoint json_ind (v : JsonValue Float) : P v :=
  match v with
  | JArray values =>
      Harray values ((fix go l := match l return Forall P l with
        | [] => Forall_nil_2 _ | x :: l => Forall_cons_2 _ _ _ (json_ind x) (go l) end) values)
  | JHash entries =>
      Hhash entries ((fix go l := match l return Forall (fun e => P (snd e)) l with
        | [] => Forall_nil_2 _ | (k, x) :: l => Forall_cons_2 _ (k, x) _ (json_ind x) (go l) end) entries)
  | JNil => Hleaf JNil
  | JBool b => Hleaf (JBool b)
  | JInt z => Hleaf (JInt z)
  | JFloat f => Hleaf (JFloat f)
  | JBignum b => Hleaf (JBignum b)
  | JString s => Hleaf (JString s)
  | JOther => Hleaf JOther
  end.

End Induction.

(** ** The value that is read back *)

Section Normal.

Context {Float : Type} (stringify_value : nat -> DiamondVmStatus + list Z).

Definition text_of (key : JsonKey) : list Z :=
  match key_text stringify_value key with inr text => text | inl _ => [] end.

Definition set_all (pairs : list (list Z * JsonValue Float)) : list (JsonKey * JsonValue Float) :=
  fold_left (fun entries p => entry_set (fst p) (snd p) entries) pairs [].

Fixpoint normal (sort : bool) (v : JsonValue Float) : JsonValue Float :=
  match v with
  | JArray values => JArray (map (normal sort) values)
  | JHash entries =>
      let pairs := map (fun e => (text_of (fst e), normal sort (snd e))) entries in
      JHash (set_all (permute (json_order sort (map fst pairs)) pairs))
  | _ => v
  end.

(** Ints are in range or canonical bignums, texts are bytes. *)
Inductive json_ok : JsonValue Float -> Prop :=
  | ok_nil : json_ok JNil
  | ok_bool b : json_ok (JBool b)
  | ok_int z : in_i64 z -> json_ok (JInt z)
  | ok_float f : json_ok (JFloat f)
  | ok_bignum b : canonical_int (DIAMOND_OBJECT (OBJECT_BIGNUM b)) -> json_ok (JBignum b)
  | ok_string s : byte_text s -> json_ok (JString s)
  | ok_array values : Forall json_ok values -> json_ok (JArray values)
  | ok_hash entries : Forall (fun e => byte_text (text_of (fst e))) entries ->
      Forall (fun e => json_ok (snd e)) entries -> json_ok (JHash entries)
  | ok_other : json_ok JOther.

End Normal.

(** ** Blank text *)

Definition blank (t : list Z) : Prop := Forall (fun c => c = 32 \/ c = 9 \/ c = 10 \/ c = 13) t.

Lemma skip_blank t rest : blank t -> json_skip_whitespace (t ++ rest) = json_skip_whitespace rest.
Proof.
  induction 1 as [|c t Hc Ht IH]; [done|]. cbn [app json_skip_whitespace].
  destruct Hc as [-> | [-> | [-> | ->]]]; exact IH.
Qed.

Lemma skip_idempotent t : json_skip_whitespace (json_skip_whitespace t) = json_skip_whitespace t.
Proof. induction t as [|c t IH]; [done|]. simpl. destruct (_ || _) eqn:E; [done|]. simpl. by rewrite E. Qed.

Lemma skip_length t : (List.length (json_skip_whitespace t) <= List.length t)%nat.
Proof. induction t as [|c t IH]; [done|]. simpl. destruct (_ || _); simpl; lia. Qed.

(** A text that does not start with a blank. *)
Definition solid (t : list Z) : Prop := json_skip_whitespace t = t.

Lemma blank_head_delimited t rest : blank t -> delimited rest -> delimited (t ++ rest).
Proof.
  intros Ht Hr. destruct Ht as [|c t Hc _]; [done|]. unfold delimited. simpl.
  destruct Hc as [-> | [-> | [-> | ->]]]; split_and!; done.
Qed.

Definition break_text (w : JsonWriter) (level : nat) : list Z :=
  match indent w with [] => [] | _ :: _ => 10 :: concat (replicate level (indent w)) end.

Lemma break_blank w level : blank (indent w) -> blank (break_text w level).
Proof.
  intros Hi. unfold break_text. destruct (indent w) as [|c l] eqn:E; [constructor|]. rewrite <- E in *.
  constructor; [auto|]. induction level as [|n IH]; [constructor|]. simpl. by apply Forall_app.
Qed.

Section Layout.

Context {S : Type} `{!JsonHeap S} (w : JsonWriter).

Lemma adds_all n t : adds (append_all n t) (eq (concat (replicate n t))).
Proof.
  induction n as [|n IH]; [apply adds_give|]. cbn [append_all replicate concat].
  apply adds_bind_eq; [apply adds_put|done].
Qed.

Lemma adds_break level : adds (json_write_break w level) (eq (break_text w level)).
Proof.
  unfold json_write_break, break_text. destruct (indent w) as [|c l]; [apply adds_give|].
  change (10 :: concat (replicate level (c :: l))) with ([10] ++ concat (replicate level (c :: l))).
  apply adds_bind_eq; [apply adds_put|apply adds_all].
Qed.

(** Elements with commas between them, each on its line. *)
Fixpoint sep_text (level : nat) (first : bool) (Ps : list (list Z -> Prop)) (t : list Z) : Prop :=
  match Ps with
  | [] => t = []
  | P :: Ps => exists a b, t = (if first then [] else [44]) ++ break_text w level ++ a ++ b /\ P a /\ sep_text level false Ps b
  end.

Lemma adds_elements level first fs Ps :
  Forall2 adds fs Ps -> adds (write_elements w level first fs) (sep_text level first Ps).
Proof.
  intros Hf. revert first. induction Hf as [|f P fs Ps Hf _ IH]; intros first; cbn [write_elements sep_text].
  { eapply adds_mono; [apply adds_give|by intros t <-]. }
  assert (Hrest := adds_bind _ _ _ _ (adds_break level) (adds_bind _ _ _ _ Hf (IH false))).
  destruct first; eapply adds_mono; [apply (adds_bind _ _ _ _ adds_give Hrest)| |apply (adds_bind _ _ _ _ (adds_put [44]) Hrest)|].
  all: intros t (x & y & -> & <- & x2 & y2 & -> & <- & a & b & -> & Ha & Hb); eauto 10.
Qed.

Definition bracketed (nesting : nat) (open close : Z) (Ps : list (list Z -> Prop)) (t : list Z) : Prop :=
  exists inner, sep_text (Datatypes.S nesting) true Ps inner /\
    t = open :: inner ++ (match Ps with [] => [] | _ :: _ => break_text w nesting end) ++ [close].

Lemma adds_bracketed nesting open close fs Ps :
  Forall2 adds fs Ps -> adds (write_bracketed w nesting open close fs) (bracketed nesting open close Ps).
Proof.
  intros Hf. assert (He := adds_elements (Datatypes.S nesting) true fs Ps Hf). eapply adds_mono.
  - apply adds_bind; [apply adds_put|]. apply adds_bind; [exact He|].
    instantiate (1 := fun t => exists x y, t = x ++ y /\ (match Ps with [] => [] | _ :: _ => break_text w nesting end) = x /\ [close] = y).
    destruct Hf; (apply adds_bind; [first [apply adds_give | apply adds_break]|apply adds_put]).
  - intros t (x & y & -> & <- & inner & y2 & -> & Hi & x3 & y3 & -> & <- & <-). by exists inner.
Qed.

End Layout.

(** ** Reading collections *)

(** The first character of a value: not a blank, not a closing bracket. *)
Definition starts (t : list Z) : Prop :=
  match t with c :: _ => c = 34 \/ c = 91 \/ c = 123 \/ c = 45 \/ 48 <= c <= 57 \/ 102 <= c <= 116 | [] => False end.

Lemma starts_skip t rest : starts t -> json_skip_whitespace (t ++ rest) = t ++ rest.
Proof.
  destruct t as [|c t]; [done|]. intros Hc. simpl in *.
  rewrite (proj2 (Z.eqb_neq c 32)), (proj2 (Z.eqb_neq c 9)), (proj2 (Z.eqb_neq c 10)), (proj2 (Z.eqb_neq c 13)) by lia. done.
Qed.

Lemma starts_not_after t rest close : starts t -> close = 93 \/ close = 125 -> after close (t ++ rest) = None.
Proof. destruct t as [|c t]; [done|]. intros Hc Hx. apply after_other. simpl in *. lia. Qed.

Section Collections.

Context {S Float : Type} `{!JsonHeap S} `{!Doubles Float} (plenty : S -> Prop) `{!PlentyJson S plenty}.
Context (w : JsonWriter) (Hw : blank (indent w)).

(** At [depth], every text with [P] reads as [v], whatever follows. *)
Definition reads_as (depth : nat) (P : list Z -> Prop) (v : JsonValue Float) : Prop :=
  forall t rest fuel, P t -> delimited rest -> (List.length (t ++ rest) < fuel)%nat ->
  starts t /\ reads plenty (json_parse_value fuel depth (t ++ rest)) (v, rest).

Lemma reads_as_starts depth P v t : reads_as depth P v -> P t -> starts t.
Proof. intros H Ht. apply (H t [] (Datatypes.S (List.length (t ++ [])))); [done|done|lia]. Qed.

Lemma parse_value_skip fuel depth text :
  json_parse_value (S:=S) (Float:=Float) fuel depth (json_skip_whitespace text) = json_parse_value fuel depth text.
Proof. destruct fuel; [done|]. cbn [json_parse_value]. by rewrite skip_idempotent. Qed.

Lemma parse_value_blank fuel depth b text :
  blank b -> json_parse_value (S:=S) (Float:=Float) fuel depth (b ++ text) = json_parse_value fuel depth text.
Proof. intros Hb. rewrite <- parse_value_skip, skip_blank by done. apply parse_value_skip. Qed.

(** What follows an element: the others, a line break, the bracket. *)
Lemma tail_delimited level Ps b br close rest :
  sep_text w level false Ps b -> blank br -> close = 93 \/ close = 125 ->
  delimited (b ++ br ++ close :: rest).
Proof.
  intros Hs Hbr Hc. destruct Ps as [|P Ps]; simpl in Hs.
  - subst b. cbn [app]. apply blank_head_delimited; [done|]. unfold delimited. simpl. destruct Hc as [-> | ->]; done.
  - destruct Hs as (a & b' & -> & _). done.
Qed.

Lemma array_loop_skip vfuel depth fuel text values :
  json_array_loop (S:=S) (Float:=Float) (json_parse_value vfuel depth) fuel (json_skip_whitespace text) values =
  json_array_loop (json_parse_value vfuel depth) fuel text values.
Proof. destruct fuel; [done|]. cbn [json_array_loop]. by rewrite parse_value_skip. Qed.

Lemma array_loop_reads depth level Ps vs P v a b br rest fuel vfuel values :
  Forall2 (reads_as depth) Ps vs -> reads_as depth P v -> P a -> sep_text w level false Ps b -> blank br ->
  (List.length (a ++ b ++ br ++ 93%Z :: rest) < fuel)%nat -> (List.length (a ++ b ++ br ++ 93%Z :: rest) < vfuel)%nat ->
  reads plenty (json_array_loop (json_parse_value vfuel depth) fuel (a ++ b ++ br ++ 93 :: rest) values)
    (JArray (values ++ v :: vs), rest).
Proof using PlentyJson0 Hw.
  intros Hall. revert P v a b fuel values.
  induction Hall as [|P' v' Ps vs Hv' Hall IH]; intros P v a b fuel values Hv Ha Hb Hbr Hf Hvf;
    (destruct fuel as [|fuel]; [lia|]); cbn [json_array_loop].
  all: eapply reads_bind; [apply Hv; [exact Ha|by eapply tail_delimited; eauto|done]|]; cbv beta iota;
    apply reads_then_need; [done|].
  - simpl in Hb. subst b. cbn [app]. rewrite skip_blank by done. cbn. apply reads_give.
  - destruct Hb as (a' & b' & -> & Ha' & Hb'). cbn [app json_skip_whitespace Z.eqb Pos.eqb orb].
    rewrite <- !app_assoc. rewrite skip_blank by (by apply break_blank). rewrite array_loop_skip.
    replace (values ++ v :: v' :: vs) with ((values ++ [v]) ++ v' :: vs) by by rewrite <- app_assoc.
    assert (Hlen : (List.length (a' ++ b' ++ br ++ 93%Z :: rest) <
      List.length (a ++ ([44%Z] ++ break_text w level ++ a' ++ b') ++ br ++ 93%Z :: rest))%nat).
    { rewrite !length_app. cbn [List.length]. lia. }
    eapply IH; [exact Hv'|exact Ha'|exact Hb'|done|lia|lia].
Qed.

(** A bracketed text reads as an Array. *)
Lemma array_reads depth Ps vs :
  (depth < DIAMOND_MAX_CALL_DEPTH)%nat -> Forall2 (reads_as (Datatypes.S depth)) Ps vs ->
  reads_as depth (bracketed w depth 91 93 Ps) (JArray vs).
Proof using PlentyJson0 Hw.
  intros Hd Hall t rest fuel (inner & Hi & ->) Hr Hf. split; [simpl; lia|]. destruct fuel as [|fuel]; [lia|].
  cbn [app json_parse_value json_skip_whitespace Z.eqb Pos.eqb orb]. rewrite (proj2 (Nat.leb_gt _ _)) by lia.
  cbn [app List.length] in Hf. rewrite <- !app_assoc in Hf |- *. cbn [app] in Hf |- *. unfold json_parse_array_body.
  apply reads_then_need; [done|]. apply reads_then_need; [done|].
  destruct Hall as [|P v Ps vs Hv Hall].
  - simpl in Hi. subst inner. cbn. apply reads_give.
  - destruct Hi as (a & b & -> & Ha & Hb). cbn [app] in Hf |- *.
    pose proof (reads_as_starts _ _ _ _ Hv Ha) as Hs.
    rewrite <- !app_assoc in Hf |- *. rewrite skip_blank by (by apply break_blank).
    rewrite starts_skip, starts_not_after by auto. rewrite !length_app in Hf.
    apply (array_loop_reads _ (Datatypes.S depth) Ps vs P v); try done.
    + by apply break_blank.
    + lia.
    + rewrite !length_app. lia.
Qed.

Lemma entry_set_twice key v1 v2 (entries : list (JsonKey * JsonValue Float)) :
  entry_set key v2 (entry_set key v1 entries) = entry_set key v2 entries.
Proof.
  induction entries as [|[k v] entries IH]; simpl.
  - by rewrite decide_True.
  - destruct (decide (k = KString key)) as [->|Hk]; simpl; [by rewrite decide_True|].
    by rewrite decide_False, IH.
Qed.

Definition colon : list Z := match indent w with [] => [58] | _ :: _ => [58; 32] end.

Definition entry_text (key : list Z) (P : list Z -> Prop) (t : list Z) : Prop :=
  exists value, t = quoted key ++ colon ++ value /\ P value.

(** [P] is the text of an entry that reads as the pair. *)
Definition reads_entry (depth : nat) (P : list Z -> Prop) (p : list Z * JsonValue Float) : Prop :=
  exists Q, (forall t, P t -> entry_text (fst p) Q t) /\ byte_text (fst p) /\ reads_as depth Q (snd p).

Lemma colon_skip rest : exists b, blank b /\ after 58 (json_skip_whitespace (colon ++ rest)) = Some (b ++ rest).
Proof.
  unfold colon. destruct (indent w); [exists []|exists [32]]; (split; [repeat constructor; auto|done]).
Qed.

Lemma object_loop_blank vfuel depth fuel b text entries :
  blank b ->
  json_object_loop (S:=S) (Float:=Float) (json_parse_value vfuel depth) fuel (b ++ text) entries =
  json_object_loop (json_parse_value vfuel depth) fuel text entries.
Proof. intros Hb. destruct fuel; [done|]. cbn [json_object_loop]. by rewrite skip_blank. Qed.

Lemma object_loop_reads depth level Ps pairs P p a b br rest fuel vfuel entries :
  Forall2 (reads_entry depth) Ps pairs -> reads_entry depth P p -> P a -> sep_text w level false Ps b -> blank br ->
  (List.length (a ++ b ++ br ++ 125%Z :: rest) < fuel)%nat -> (List.length (a ++ b ++ br ++ 125%Z :: rest) < vfuel)%nat ->
  reads plenty (json_object_loop (json_parse_value vfuel depth) fuel (a ++ b ++ br ++ 125 :: rest) entries)
    (JHash (fold_left (fun es p => entry_set (fst p) (snd p) es) (p :: pairs) entries), rest).
Proof using PlentyJson0 Hw.
  intros Hall. revert P p a b fuel entries.
  induction Hall as [|P' p' Ps pairs Hp' Hall IH]; intros P p a b fuel entries (Q & Hq & Hbytes & Hv) Ha Hb Hbr Hf Hvf;
    (destruct fuel as [|fuel]; [lia|]); cbn [json_object_loop].
  all: pose proof (tail_delimited level _ b br 125 rest Hb Hbr ltac:(auto)) as Htail.
  all: destruct (Hq a Ha) as (value & -> & HQ); unfold quoted in *; cbn [app json_skip_whitespace Z.eqb Pos.eqb orb];
    rewrite after_cons; rewrite <- !app_assoc; cbn [app].
  all: eapply reads_bind; [by apply string_reads|]; cbv beta iota; apply reads_then_need; [done|].
  all: destruct (colon_skip (value ++ b ++ br ++ 125 :: rest)) as (bl & Hbl & Ec); rewrite Ec.
  all: rewrite !length_app in Hf, Hvf; cbn [List.length] in Hf, Hvf; rewrite !length_app in Hf, Hvf.
  all: rewrite parse_value_skip, parse_value_blank by done.
  all: eapply reads_bind; [apply Hv; [exact HQ|exact Htail|rewrite !length_app; cbn [List.length]; lia]|]; cbv beta iota.
  all: apply reads_then_need; [done|]; rewrite entry_set_twice; cbn [fold_left].
  - simpl in Hb. subst b. cbn [app]. rewrite skip_blank by done. cbn. apply reads_give.
  - destruct Hb as (a' & b' & -> & Ha' & Hb'). cbn [app json_skip_whitespace Z.eqb Pos.eqb orb].
    rewrite <- !app_assoc. rewrite object_loop_blank by (by apply break_blank).
    apply (IH P' p'); try done; rewrite !length_app; rewrite !length_app in Hf, Hvf; cbn [List.length] in *; lia.
Qed.

(** A bracketed text of entries reads as a Hash. *)
Lemma object_reads depth Ps pairs :
  (depth < DIAMOND_MAX_CALL_DEPTH)%nat -> Forall2 (reads_entry (Datatypes.S depth)) Ps pairs ->
  reads_as depth (bracketed w depth 123 125 Ps) (JHash (set_all pairs)).
Proof using PlentyJson0 Hw.
  intros Hd Hall t rest fuel (inner & Hi & ->) Hr Hf. split; [simpl; lia|]. destruct fuel as [|fuel]; [lia|].
  cbn [app json_parse_value json_skip_whitespace Z.eqb Pos.eqb orb]. rewrite (proj2 (Nat.leb_gt _ _)) by lia.
  cbn [app List.length] in Hf. rewrite <- !app_assoc in Hf |- *. cbn [app] in Hf |- *. unfold json_parse_object_body.
  apply reads_then_need; [done|]. apply reads_then_need; [done|].
  destruct Hall as [|P p Ps pairs Hp Hall].
  - simpl in Hi. subst inner. cbn. apply reads_give.
  - destruct Hi as (a & b & -> & Ha & Hb). cbn [app] in Hf |- *.
    assert (Hs : starts a).
    { destruct Hp as (Q & Hq & _). destruct (Hq a Ha) as (value & -> & _). simpl. lia. }
    rewrite <- !app_assoc in Hf |- *. rewrite skip_blank by (by apply break_blank).
    rewrite starts_skip, starts_not_after by auto. rewrite !length_app in Hf.
    apply (object_loop_reads _ (Datatypes.S depth) Ps pairs P p); try done.
    + by apply break_blank.
    + lia.
    + rewrite !length_app. lia.
Qed.

End Collections.

(** ** Permuted lists *)

Lemma permute_Forall2 {A B} (R : A -> B -> Prop) order l k :
  Forall2 R l k -> Forall2 R (permute order l) (permute order k).
Proof.
  intros Hl. unfold permute. induction order as [|i order IH]; [constructor|]. cbn [omap list_omap].
  destruct (l !! i) as [x|] eqn:El.
  - destruct (Forall2_lookup_l _ _ _ _ _ Hl El) as (y & -> & Hxy). by constructor.
  - apply lookup_ge_None in El. rewrite (Forall2_length _ _ _ Hl) in El. apply lookup_ge_None in El. by rewrite El.
Qed.

Lemma Forall_choose {A B} (R : A -> B -> Prop) l : Forall (fun x => exists y, R x y) l -> exists k, Forall2 R l k.
Proof.
  induction 1 as [|x l [y Hy] _ [k Hk]]; [by exists []|]. exists (y :: k). by constructor.
Qed.

(** ** A value reads back *)

Section RoundTrip.

Context {S Float : Type} `{!JsonHeap S} `{!Doubles Float} `{!DoubleLaws Float}.
Context (plenty : S -> Prop) `{!PlentyJson S plenty}.
Context (stringify_value : nat -> DiamondVmStatus + list Z) (w : JsonWriter) (Hw : blank (indent w)).

Notation normal := (normal stringify_value (sort_keys w)).
Notation text_of := (text_of stringify_value).
Notation json_ok := (json_ok stringify_value).

(** Writing [v] at [nesting] appends a text that reads as its normal form. *)
Definition returns (nesting : nat) (v : JsonValue Float) (P : list Z -> Prop) : Prop :=
  adds (json_write_value stringify_value w nesting v) P /\ reads_as plenty nesting P (normal v).

Lemma returns_never nesting v : (forall out s out' s', json_write_value stringify_value w nesting v out s <> Some (inr out', s')) ->
  returns nesting v (fun _ => False).
Proof. intros Hn. split; [intros out s out' s' H; by apply Hn in H|done]. Qed.

Lemma number_dispatch fuel depth t rest :
  (exists c l, t = c :: l /\ (c = 45 \/ 48 <= c <= 57)) ->
  json_parse_value (S:=S) (Float:=Float) (Datatypes.S fuel) depth (t ++ rest) = json_parse_number (t ++ rest).
Proof.
  intros (c & l & -> & Hc). cbn [json_parse_value]. rewrite starts_skip by (simpl; lia). cbn [app].
  rewrite (proj2 (Z.eqb_neq c 123)), (proj2 (Z.eqb_neq c 91)), (proj2 (Z.eqb_neq c 34)), (proj2 (Z.eqb_neq c 116)),
    (proj2 (Z.eqb_neq c 102)), (proj2 (Z.eqb_neq c 110)) by lia.
  destruct Hc as [->|Hc]; [done|]. rewrite (proj2 (Z.leb_le 48 c)), (proj2 (Z.leb_le c 57)) by lia. by rewrite orb_true_r.
Qed.

Lemma number_head negative digits more :
  is_digits digits -> digits <> [] ->
  exists c l, sign_text negative ++ digits ++ more = c :: l /\ (c = 45 \/ 48 <= c <= 57).
Proof.
  intros Hd Hn. destruct negative; [by eexists _, _; split; [done|left]|].
  destruct digits as [|d digits]; [done|]. pose proof (proj1 (proj1 (Forall_cons _ _ _) Hd)). simpl.
  eexists _, _. split; [done|by right].
Qed.

(** Reading of a number text. *)
Lemma number_reads_as depth t v :
  (exists c l, t = c :: l /\ (c = 45 \/ 48 <= c <= 57)) ->
  (forall rest, delimited rest -> reads plenty (json_parse_number (t ++ rest)) (v, rest)) ->
  reads_as plenty depth (eq t) v.
Proof.
  intros Hc Hr t' rest fuel <- Hd Hf. split; [destruct Hc as (c & l & -> & Hc); simpl; lia|].
  destruct fuel; [lia|]. rewrite number_dispatch by done. by apply Hr.
Qed.

Lemma adds_number t : adds (S:=S) (write_number (Some t)) (eq t).
Proof. apply adds_put. Qed.

Lemma returns_int nesting z : in_i64 z -> exists P, returns nesting (JInt z) P.
Proof using PlentyJson0.
  intros Hz. destruct (format_int_spec z) as (digits & E & Hd & Hn & Hv).
  { unfold_widths. unfold two_63. lia. }
  exists (eq (sign_text (z <? 0) ++ digits)). split.
  - cbn [json_write_value]. rewrite E. apply adds_number.
  - apply number_reads_as.
    + pose proof (number_head (z <? 0) digits [] Hd Hn) as Hh. by rewrite app_nil_r in Hh.
    + intros rest Hr. apply (integer_reads plenty (DIAMOND_INT z) z); try done.
      rewrite Hv. unfold signed. destruct (Z.ltb_spec z 0); lia.
Qed.

Lemma returns_bignum nesting b : canonical_int (DIAMOND_OBJECT (OBJECT_BIGNUM b)) -> exists P, returns nesting (JBignum b) P.
Proof using PlentyJson0.
  intros Hc. pose proof Hc as [Hcan Hrange].
  assert (Hne : Value.limbs b <> []).
  { intros E. rewrite E in Hrange. apply Hrange. destruct (Value.negative b); simpl; base_lia. }
  destruct (diamond_bignum_to_string_spec b Hcan Hne) as (digits & E & Hd & Hh & Hv).
  assert (Hn : digits <> []).
  { intros ->. apply Hrange. rewrite <- Hv. unfold decimal_value. destruct (Value.negative b); simpl; base_lia. }
  exists (eq (sign_text (Value.negative b) ++ digits)). split.
  - cbn [json_write_value]. unfold write_bignum. rewrite E. apply adds_after. intros [] s s1 _. apply adds_number.
  - apply number_reads_as.
    + pose proof (number_head (Value.negative b) digits [] Hd Hn) as Hx. by rewrite app_nil_r in Hx.
    + intros rest Hr. apply (integer_reads plenty (DIAMOND_OBJECT (OBJECT_BIGNUM b))
        (signed (Value.negative b) (value_of (Value.limbs b)))); try done. by rewrite Hv.
Qed.

Lemma returns_float nesting f : exists P, returns nesting (JFloat f) P.
Proof using DoubleLaws0 PlentyJson0.
  destruct (isfinite f) eqn:Hf.
  2:{ eexists. apply returns_never. intros out s out' s'. cbn [json_write_value]. unfold write_float. by rewrite Hf. }
  destruct (format_float_spec f Hf) as (text & neg & digits & fr & ex & E & Et & Hd & Hn & Hfr & Hex & Hm & Hs).
  exists (eq (sign_text neg ++ digits ++ fr ++ ex)). split.
  - cbn [json_write_value]. unfold write_float. rewrite Hf, E, <-Et. cbn [negb].
    apply adds_bind_eq; [apply adds_put|]. unfold float_suffix.
    destruct (has_marker text); [apply adds_give|apply adds_put].
  - apply number_reads_as; [by apply number_head|]. intros rest Hr. pose proof (float_reads (Float:=Float) plenty neg digits fr ex rest) as Hx.
    rewrite Hs in Hx. by apply Hx.
Qed.

Lemma literal_reads depth t v :
  (forall fuel rest, json_parse_value (Datatypes.S fuel) depth (t ++ rest) = give (v, rest)) -> starts t ->
  reads_as plenty depth (eq t) v.
Proof.
  intros Hp Hs t' rest fuel <- Hd Hf. split; [done|]. destruct fuel; [lia|]. rewrite Hp. apply reads_give.
Qed.

Lemma returns_string nesting s : byte_text s -> exists P, returns nesting (JString s) P.
Proof using PlentyJson0.
  intros Hb. exists (eq (quoted s)). split; [apply adds_string|].
  intros t rest fuel <- Hd Hf. split; [simpl; lia|]. destruct fuel; [lia|].
  unfold quoted. cbn [app json_parse_value json_skip_whitespace Z.eqb Pos.eqb orb]. rewrite <- app_assoc. cbn [app].
  eapply reads_bind; [by apply string_reads|]. apply reads_give.
Qed.

Lemma returns_array nesting values :
  Forall (fun v => forall nesting, json_ok v -> exists P, returns nesting v P) values ->
  Forall json_ok values -> exists P, returns nesting (JArray values) P.
Proof using PlentyJson0 Hw.
  intros IH Hok. destruct (Nat.leb_spec DIAMOND_MAX_CALL_DEPTH nesting) as [Hd|Hd].
  { eexists. apply returns_never. intros out s out' s'. cbn [json_write_value]. by rewrite (proj2 (Nat.leb_le _ _) Hd). }
  destruct (Forall_choose (returns (Datatypes.S nesting)) values) as [Ps HP].
  { eapply Forall_impl; [exact (proj2 (Forall_and _ _) (conj IH Hok))|]. intros v [Hv Ho]. by apply Hv. }
  exists (bracketed w nesting 91 93 Ps). split.
  - cbn [json_write_value]. rewrite (proj2 (Nat.leb_gt _ _) Hd). apply adds_bracketed. apply Forall2_fmap_l.
    eapply Forall2_impl; [exact HP|]. by intros v P [H1 _].
  - cbn [JsonOk.normal]. apply array_reads; [done|done|lia|]. apply Forall2_flip, Forall2_fmap_l.
    eapply Forall2_impl; [exact HP|]. by intros v P [_ H2].
Qed.

Lemma adds_key key : adds (json_write_hash_key (S:=S) stringify_value key) (eq (quoted (text_of key))).
Proof.
  unfold json_write_hash_key. apply adds_after. intros text s s1 [= Hk _]. unfold JsonOk.text_of. rewrite Hk.
  apply adds_string.
Qed.

Lemma key_texts_spec keys s texts s' :
  key_texts (S:=S) stringify_value keys s = Some (inr texts, s') -> texts = map text_of keys.
Proof.
  revert s texts s'. induction keys as [|k keys IH]; intros s texts s'; cbn [key_texts map]; [by intros [= <- _]|].
  intros H. apply jbind_inv in H as (t & s1 & [= Hk _] & H). apply jbind_inv in H as ([] & s2 & _ & H).
  apply jbind_inv in H as (more & s3 & H & [= <- _]). apply IH in H as ->. unfold JsonOk.text_of at 2. by rewrite Hk.
Qed.

Lemma sorted_order_spec keys s order s' :
  json_sorted_order (S:=S) stringify_value keys s = Some (inr order, s') -> order = json_order true (map text_of keys).
Proof.
  unfold json_sorted_order, vm_bind, vm_malloc. destruct (malloc _ s) as [a s1]. destruct (malloc _ s1) as [b s2].
  destruct (negb a || negb b); [done|]. intros H. apply jbind_inv in H as (texts & s3 & H & [= <- _]).
  by rewrite (key_texts_spec _ _ _ _ H).
Qed.

(** The writer of an entry, and the pair it reads as. *)
Lemma entry_returns nesting key v P :
  byte_text (text_of key) -> returns nesting v P ->
  adds (write_entry stringify_value w key (json_write_value stringify_value w nesting v)) (entry_text w (text_of key) P) /\
  reads_entry plenty w nesting (entry_text w (text_of key) P) (text_of key, normal v).
Proof.
  intros Hb [Hadd Hread]. split.
  - eapply adds_mono; [apply adds_bind; [apply adds_key|apply adds_bind; [apply adds_put|exact Hadd]]|].
    intros t (x & y & -> & <- & x2 & y2 & -> & <- & HP). by exists y2.
  - exists P. by split_and!.
Qed.

Lemma returns_hash nesting entries :
  Forall (fun e => forall nesting, json_ok (snd e) -> exists P, returns nesting (snd e) P) entries ->
  Forall (fun e => byte_text (text_of (fst e))) entries -> Forall (fun e => json_ok (snd e)) entries ->
  exists P, returns nesting (JHash entries) P.
Proof using PlentyJson0 Hw.
  intros IH Hb Hok. destruct (Nat.leb_spec DIAMOND_MAX_CALL_DEPTH nesting) as [Hd|Hd].
  { eexists. apply returns_never. intros out s out' s'. cbn [json_write_value]. by rewrite (proj2 (Nat.leb_le _ _) Hd). }
  destruct (Forall_choose (fun e P =>
    adds (write_entry stringify_value w (fst e) (json_write_value stringify_value w (Datatypes.S nesting) (snd e))) P /\
    reads_entry plenty w (Datatypes.S nesting) P (text_of (fst e), normal (snd e))) entries) as [Ps HP].
  { eapply Forall_impl; [exact (proj2 (Forall_and _ _) (conj IH (proj2 (Forall_and _ _) (conj Hb Hok))))|].
    intros [k v] (Hv & Hk & Ho). destruct (Hv (Datatypes.S nesting) Ho) as [P HP]. eexists. by apply entry_returns. }
  set (pairs := map (fun e => (text_of (fst e), normal (snd e))) entries).
  set (order := json_order (sort_keys w) (map fst pairs)).
  assert (Ht : map fst pairs = map text_of (map fst entries)) by (unfold pairs; by rewrite !map_map).
  exists (bracketed w nesting 123 125 (permute order Ps)). split.
  - cbn [json_write_value]. rewrite (proj2 (Nat.leb_gt _ _) Hd). apply adds_after. intros o s s1 Ho.
    assert (o = order) as ->.
    { unfold order. rewrite Ht. destruct (sort_keys w); cbn [andb] in Ho |- *.
      - destruct (1 <? List.length entries)%nat eqn:E; [by apply sorted_order_spec in Ho|].
        injection Ho as <- _. unfold json_order. cbn [andb]. by rewrite !length_map, E.
      - injection Ho as <- _. unfold json_order. cbn [andb]. by rewrite !length_map. }
    apply adds_bracketed, permute_Forall2, Forall2_fmap_l. eapply Forall2_impl; [exact HP|]. by intros e P [H1 _].
  - cbn [JsonOk.normal]. apply object_reads; [done|done|lia|]. apply permute_Forall2, Forall2_flip, Forall2_fmap_l.
    eapply Forall2_impl; [exact HP|]. by intros e P [_ H2].
Qed.

Lemma value_returns v nesting : json_ok v -> exists P, returns nesting v P.
Proof using DoubleLaws0 PlentyJson0 Hw.
  revert v nesting. apply (json_ind (fun v => forall nesting, json_ok v -> exists P, returns nesting v P)).
  { intros []; try exact I; intros nesting Hok; inversion Hok; subst.
    - exists (eq (bytes "null")). split; [apply adds_put|]. apply literal_reads; [done|].
      change (bytes "null") with [110; 117; 108; 108]. simpl. lia.
    - exists (eq (if boolean then bytes "true" else bytes "false")). split; [apply adds_put|].
      apply literal_reads; [by destruct boolean|].
      destruct boolean; [change (bytes "true") with [116; 114; 117; 101]|change (bytes "false") with [102; 97; 108; 115; 101]];
        simpl; lia.
    - by apply returns_int.
    - apply returns_float.
    - by apply returns_bignum.
    - by apply returns_string.
    - eexists. by apply returns_never. }
  - intros values IH nesting Hok. inversion Hok; subst. by apply returns_array.
  - intros entries IH nesting Hok. inversion Hok; subst. by apply returns_hash.
Qed.

End RoundTrip.
