(* ===== verification/JsonTotal.v ===== *)
(** * JsonTotal: the JSON parser always answers

    [json_parse_document] returns on every text and every heap; the values it
    returns are well formed, and writing them gives a text that reads as the
    same value. *)

From S2P Require Import Prelude Digits CText.
From S2P Require Import Magnitude Value Bignum BignumText.
From S2P Require Import ManifestLiteral.
From S2P Require Import Json JsonText JsonOk.
From Stdlib Require Import ZArith Lia Bool List String Ascii Sorted.
From stdpp Require Import base numbers list.

Local Open Scope Z_scope.
Local Open Scope c_scope.
Local Open Scope json_scope.

(** ** Runs that return *)

Section Answers.

Context {S : Type} `{!JsonHeap S}.

(** [m] returns in every heap: a value with [Q], or a status other than a
    type error. *)
Definition answers {A} (m : J S A) (Q : A -> Prop) : Prop :=
  forall s, exists r s', m s = Some (r, s') /\
    match r with inr a => Q a | inl status => status <> TYPE_ERROR end.

Lemma answers_give {A} (a : A) (Q : A -> Prop) : Q a -> answers (give a) Q.
Proof. intros Ha s. by exists (inr a), s. Qed.

Lemma answers_fail {A} status (Q : A -> Prop) : status <> TYPE_ERROR -> answers (fail status) Q.
Proof. intros Hs s. by exists (inl status), s. Qed.

Lemma answers_bind {A B} (m : J S A) (k : A -> J S B) Q Q' :
  answers m Q -> (forall a, Q a -> answers (k a) Q') -> answers (jbind m k) Q'.
Proof.
  intros Hm Hk s. destruct (Hm s) as ([status|a] & s1 & E & H); unfold jbind, vm_bind; rewrite E.
  - by exists (inl status), s1.
  - by apply Hk.
Qed.

Lemma answers_need {B} r (k : unit -> J S B) Q : answers (k tt) Q -> answers (jbind (need r) k) Q.
Proof.
  intros Hk. apply (answers_bind _ _ (fun _ => True)); [|by intros []]. intros s. unfold need.
  destruct (granted r s) as [[] s']; [by exists (inr tt), s'|by exists (inl OUT_OF_MEMORY), s'].
Qed.

Lemma answers_mono {A} (m : J S A) (Q Q' : A -> Prop) : answers m Q -> (forall a, Q a -> Q' a) -> answers m Q'.
Proof. intros Hm HQ s. destruct (Hm s) as ([status|a] & s1 & E & H); [by exists (inl status), s1|exists (inr a), s1; auto]. Qed.

End Answers.

(** ** Bytes *)

Lemma lor_byte a b : 0 <= a < 256 -> 0 <= b < 256 -> 0 <= Z.lor a b < 256.
Proof.
  intros Ha Hb. assert (E : Z.lor a b = Z.lor a b mod 2 ^ 8).
  { rewrite <- Z.land_ones, Z.land_lor_distr_l, !Z.land_ones by lia. rewrite !Z.mod_small by lia. done. }
  rewrite E. apply Z.mod_pos_bound. lia.
Qed.

Lemma utf8_bytes codepoint : 0 <= codepoint < 1114112 -> byte_text (json_utf8 codepoint).
Proof.
  intros Hc. unfold json_utf8, byte_text.
  assert (Hlow : forall k, 0 <= Z.land k 63 < 64).
  { intros k. change 63 with (Z.ones 6). rewrite Z.land_ones by lia. apply Z.mod_pos_bound. lia. }
  assert (Hshift : forall n, 0 <= n -> Z.shiftr codepoint n = codepoint / 2 ^ n) by (intros; by rewrite Z.shiftr_div_pow2).
  destruct (Z.ltb_spec codepoint 128); [|destruct (Z.ltb_spec codepoint 2048); [|destruct (Z.ltb_spec codepoint 65536)]].
  - repeat constructor; lia.
  - repeat constructor; try (pose proof (Hlow codepoint); apply lor_byte; lia).
    all: apply lor_byte; [lia|]; rewrite Hshift by lia; split; [apply Z.div_pos; lia|apply Z.div_lt_upper_bound; lia].
  - pose proof (Hlow codepoint). pose proof (Hlow (Z.shiftr codepoint 6)).
    assert (0 <= Z.shiftr codepoint 12 < 16)
      by (rewrite Hshift by lia; split; [apply Z.div_pos; lia|apply Z.div_lt_upper_bound; lia]).
    apply Forall_cons; split; [apply lor_byte; lia|]. apply Forall_cons; split; [apply lor_byte; lia|].
    apply Forall_cons; split; [apply lor_byte; lia|constructor].
  - pose proof (Hlow codepoint). pose proof (Hlow (Z.shiftr codepoint 6)). pose proof (Hlow (Z.shiftr codepoint 12)).
    assert (0 <= Z.shiftr codepoint 18 < 8)
      by (rewrite Hshift by lia; split; [apply Z.div_pos; lia|apply Z.div_lt_upper_bound; lia]).
    apply Forall_cons; split; [apply lor_byte; lia|]. apply Forall_cons; split; [apply lor_byte; lia|].
    apply Forall_cons; split; [apply lor_byte; lia|]. apply Forall_cons; split; [apply lor_byte; lia|constructor].
Qed.

Lemma json_digit_range c d : json_digit c = Some d -> 0 <= d < 16.
Proof.
  unfold json_digit. destruct (Z.leb_spec 48 c), (Z.leb_spec c 57), (Z.leb_spec 97 c), (Z.leb_spec c 102),
    (Z.leb_spec 65 c), (Z.leb_spec c 70); cbn [andb]; intros [= <-]; lia.
Qed.

Lemma json_hex4_spec text code rest :
  json_hex4 text = Some (code, rest) -> 0 <= code < 65536 /\ exists a b c d, text = a :: b :: c :: d :: rest.
Proof.
  destruct text as [|a [|b [|c [|d more]]]]; try done. unfold json_hex4.
  destruct (json_digit a) as [x|] eqn:Ea; [|done]. destruct (json_digit b) as [y|] eqn:Eb; [|done].
  destruct (json_digit c) as [z|] eqn:Ec; [|done]. destruct (json_digit d) as [u|] eqn:Ed; [|done].
  intros [= <- <-]. apply json_digit_range in Ea, Eb, Ec, Ed. split; [lia|eauto].
Qed.

Lemma after_spec c text rest : after c text = Some rest -> text = c :: rest.
Proof. destruct text as [|d text]; [done|]. simpl. destruct (Z.eqb_spec d c); [|done]. by intros [= <-]; subst. Qed.

(** An escape consumes text and stands for a code point. *)
Lemma unicode_escape_spec text codepoint rest :
  byte_text text -> json_unicode_escape text = Some (codepoint, rest) ->
  0 <= codepoint < 1114112 /\ (List.length rest < List.length text)%nat /\ byte_text rest.
Proof.
  intros Hb. unfold json_unicode_escape. destruct (json_hex4 text) as [[code r1]|] eqn:E1; [|done].
  apply json_hex4_spec in E1 as (Hc & a & b & c & d & ->).
  assert (Hr1 : byte_text r1) by (unfold byte_text in Hb; rewrite !Forall_cons in Hb; tauto).
  destruct (Z.leb_spec 55296 code), (Z.leb_spec code 56319); cbn [andb].
  1:{ destruct (after 92 r1) as [r2|] eqn:A1; [|done]. destruct (after 117 r2) as [r3|] eqn:A2; [|done].
      apply after_spec in A1 as ->, A2 as ->. destruct (json_hex4 r3) as [[low r4]|] eqn:E2; [|done].
      apply json_hex4_spec in E2 as (Hl & a' & b' & c' & d' & ->).
      destruct (Z.ltb_spec low 56320), (Z.ltb_spec 57343 low); cbn [orb]; try done. intros [= <- <-].
      split_and!; [lia..|cbn [List.length]; lia|]. unfold byte_text in *. rewrite !Forall_cons in Hr1. tauto. }
  all: destruct (_ && _); [done|]; intros [= <- <-]; split_and!; [lia..|cbn [List.length]; lia|done].
Qed.

(** ** Well-formed results *)

(** A key the parser makes. *)
Definition string_key (key : JsonKey) : Prop := exists chars, key = KString chars /\ byte_text chars.

(** A value whose containers nest at most [room] deep, with canonical Ints,
    and distinct String keys. *)
Inductive parsed {Float} : nat -> JsonValue Float -> Prop :=
  | parsed_nil room : parsed room JNil
  | parsed_bool room b : parsed room (JBool b)
  | parsed_int room z : in_i64 z -> parsed room (JInt z)
  | parsed_float room f : parsed room (JFloat f)
  | parsed_bignum room b : canonical_int (DIAMOND_OBJECT (OBJECT_BIGNUM b)) -> parsed room (JBignum b)
  | parsed_string room s : byte_text s -> parsed room (JString s)
  | parsed_array room values : Forall (parsed room) values -> parsed (S room) (JArray values)
  | parsed_hash room entries : Forall (fun e => string_key (fst e)) entries -> NoDup (map fst entries) ->
      Forall (fun e => parsed room (snd e)) entries -> parsed (S room) (JHash entries).

(** The rest of the text after a parser consumed some of it. *)
Definition consumed (text rest : list Z) : Prop :=
  (List.length rest < List.length text)%nat /\ byte_text rest.

Lemma consumed_suffix pre rest : pre <> [] -> byte_text (pre ++ rest) -> consumed (pre ++ rest) rest.
Proof.
  intros Hp Hb. split; [rewrite length_app; destruct pre; [done|simpl; lia]|]. by apply Forall_app in Hb as [_ ?].
Qed.

Lemma skip_bytes text : byte_text text -> byte_text (json_skip_whitespace text).
Proof. induction 1 as [|c text Hc Ht IH]; [constructor|]. simpl. destruct (_ || _); [done|by constructor]. Qed.

Lemma consumed_skip text rest : consumed (json_skip_whitespace text) rest -> consumed text rest.
Proof. intros [H1 H2]. split; [|done]. pose proof (skip_length text). lia. Qed.

Lemma consumed_trans a b c : consumed a b -> consumed b c -> consumed a c.
Proof. intros [H1 _] [H2 H3]. split; [lia|done]. Qed.

Lemma consumed_after_skip text rest c more :
  consumed text rest -> json_skip_whitespace rest = c :: more -> consumed text more.
Proof.
  intros [H1 H2] E. apply skip_bytes in H2. rewrite E in H2. apply Forall_cons in H2 as [_ H2]. split; [|done].
  pose proof (skip_length rest). rewrite E in *. cbn [List.length] in *. lia.
Qed.

(** ** Numbers *)

Lemma some_digits_spec text digits rest :
  some_digits text = Some (digits, rest) -> text = digits ++ rest /\ is_digits digits /\ digits <> [].
Proof.
  unfold some_digits. pose proof (span_digits_spec text) as Hs. destruct (span_digits text) as [ds tl].
  destruct Hs as (-> & Hd & _). destruct ds; [done|]. intros [= <- <-]. done.
Qed.

Lemma scan_fraction_spec text t rest : number_fraction text = Some (t, rest) -> text = t ++ rest.
Proof.
  unfold number_fraction. destruct (after 46 text) as [r|] eqn:E; [|by intros [= <- <-]]. apply after_spec in E as ->.
  destruct (some_digits r) as [[ds r']|] eqn:Ed; [|done]. apply some_digits_spec in Ed as (-> & _). by intros [= <- <-].
Qed.

Lemma scan_exponent_spec text t rest : number_exponent text = Some (t, rest) -> text = t ++ rest.
Proof.
  unfold number_exponent. destruct text as [|c text]; [by intros [= <- <-]|].
  destruct (_ || _); [|by intros [= <- <-]].
  destruct text as [|d text].
  - destruct (some_digits []) as [[ds r']|] eqn:Ed; [|done]. apply some_digits_spec in Ed as (E & _).
    intros [= <- <-]. simpl. by rewrite <- E.
  - destruct (_ || _).
    + destruct (some_digits text) as [[ds r']|] eqn:Ed; [|done]. apply some_digits_spec in Ed as (-> & _). by intros [= <- <-].
    + destruct (some_digits (d :: text)) as [[ds r']|] eqn:Ed; [|done]. apply some_digits_spec in Ed as (-> & _). by intros [= <- <-].
Qed.

Lemma scan_number_spec text negative digits tail_ rest :
  number_parts text = Some (negative, digits, tail_, rest) ->
  is_digits digits /\ exists pre, pre <> [] /\ text = pre ++ rest.
Proof.
  unfold number_parts. set (r := match after 45 text with Some rest => (true, rest) | None => (false, text) end).
  assert (Hr : exists sign, text = sign ++ snd r).
  { unfold r. destruct (after 45 text) as [t|] eqn:E; [|by exists []]. apply after_spec in E as ->. by exists [45]. }
  destruct r as [neg t]. destruct Hr as [sign ->]. cbn [snd].
  destruct (some_digits t) as [[ds r1]|] eqn:Ed; [|done]. apply some_digits_spec in Ed as (-> & Hd & Hn).
  destruct (number_fraction r1) as [[fr r2]|] eqn:Ef; [|done]. apply scan_fraction_spec in Ef as ->.
  destruct (number_exponent r2) as [[ex r3]|] eqn:Ee; [|done]. apply scan_exponent_spec in Ee as ->.
  intros [= <- <- <- <-]. split; [done|]. exists (sign ++ ds ++ fr ++ ex). split; [by destruct sign, ds|].
  by rewrite <- !app_assoc.
Qed.

Section ParserAnswers.

Context {S Float : Type} `{!JsonHeap S} `{!Doubles Float}.

Notation parsed := (parsed (Float:=Float)).

Lemma string_loop_answers fuel text acc :
  byte_text text -> byte_text acc -> (List.length text < fuel)%nat ->
  answers (json_string_loop (S:=S) fuel text acc) (fun r => byte_text (fst r) /\ consumed text (snd r)).
Proof.
  revert text acc. induction fuel as [|fuel IH]; intros text acc Ht Ha Hf; [lia|]. cbn [json_string_loop].
  destruct Ht as [|c text Hc Ht]; [by apply answers_fail|]. cbn [List.length] in Hf.
  assert (Hnext : forall text' acc', byte_text text' -> byte_text acc' -> (List.length text' <= List.length text)%nat ->
    answers (json_string_loop (S:=S) fuel text' acc') (fun r => byte_text (fst r) /\ consumed (c :: text) (snd r))).
  { intros text' acc' Ht' Ha' Hl. eapply answers_mono; [apply IH; [done|done|lia]|]. intros r [H1 [H2 H3]].
    split; [done|]. split; [cbn [List.length]; lia|done]. }
  assert (Hone : forall x, 0 <= x < 256 -> byte_text (acc ++ [x])) by (intros; apply Forall_app; split; [done|by apply Forall_singleton]).
  destruct (c =? 34).
  { apply answers_need, answers_give. split; [done|]. split; [simpl; lia|done]. }
  destruct (c =? 92); [|apply answers_need, Hnext; [done|by apply Hone|lia]].
  destruct Ht as [|e text He Ht]; [by apply answers_fail|]. cbn [List.length] in Hnext.
  destruct (json_escape e) as [byte|] eqn:Ee.
  { apply answers_need, Hnext; [done| |lia]. apply Hone. unfold json_escape in Ee. repeat case_match; simplify_eq; lia. }
  destruct (e =? 117); [|by apply answers_fail].
  destruct (json_unicode_escape text) as [[codepoint rest]|] eqn:Eu; [|by apply answers_fail].
  apply unicode_escape_spec in Eu as (Hcp & Hl & Hb); [|done].
  apply answers_need, Hnext; [done| |lia]. apply Forall_app. split; [done|by apply utf8_bytes].
Qed.

Lemma string_answers text :
  byte_text text -> answers (json_parse_string (S:=S) text) (fun r => byte_text (fst r) /\ consumed text (snd r)).
Proof. intros Hb. apply string_loop_answers; [done|constructor|lia]. Qed.

Lemma number_answers room text :
  byte_text text ->
  answers (json_parse_number (S:=S) text) (fun r => parsed room (fst r) /\ consumed text (snd r)).
Proof.
  intros Hb. unfold json_parse_number. destruct (number_parts text) as [[[[neg digits] tail_] rest]|] eqn:Es; [|by apply answers_fail].
  apply scan_number_spec in Es as (Hd & pre & Hp & ->). pose proof (consumed_suffix pre rest Hp Hb) as Hcons.
  destruct tail_ as [|c tail_]; [|apply answers_give; split; [constructor|done]].
  pose proof (decimal_value_bounds digits Hd). rewrite int_digits_spec by (try done; unfold two_63; lia).
  rewrite Z.mul_0_l, Z.add_0_l. destruct (Z.ltb_spec (decimal_value digits) two_63).
  - apply answers_give. split; [|done]. constructor. unfold two_63 in *. simpl. destruct neg; unfold_widths; lia.
  - destruct (diamond_bignum_from_decimal_digits_computes (S:=S) digits neg Hd) as [Hm _].
    intros s. destruct (Hm s) as (v & s' & E & Hv). unfold vm_bind. rewrite E.
    destruct Hv as [->|[Hc Hi]]; [by exists (inl OUT_OF_MEMORY), s'|].
    destruct v as [| | | |[b|]| |]; try done; (eexists (inr _), s'; split; [reflexivity|]); (split; [by constructor|done]).
Qed.

(** What is asked of the parser of elements, on texts of at most [n] bytes. *)
Definition value_answers (n room : nat) (parse_value : list Z -> J S (JsonValue Float * list Z)) : Prop :=
  forall text, byte_text text -> (List.length text <= n)%nat ->
  answers (parse_value text) (fun r => parsed room (fst r) /\ consumed text (snd r)).

Lemma array_loop_answers n room parse_value fuel text values :
  value_answers n room parse_value -> byte_text text -> Forall (parsed room) values ->
  (List.length text <= n)%nat -> (List.length text < fuel)%nat ->
  answers (json_array_loop parse_value fuel text values) (fun r => parsed (Datatypes.S room) (fst r) /\ consumed text (snd r)).
Proof.
  intros Hv. revert text values. induction fuel as [|fuel IH]; intros text values Ht Hvs Hn Hf; [lia|].
  cbn [json_array_loop]. eapply answers_bind; [by apply Hv|]. intros [element rest] [He Hr]. cbn [fst snd] in *.
  apply answers_need. assert (Hvs' : Forall (parsed room) (values ++ [element])) by (apply Forall_app; split; [done|by apply Forall_singleton]).
  destruct (json_skip_whitespace rest) as [|c more] eqn:Es; [by apply answers_fail|].
  pose proof (consumed_after_skip _ _ _ _ Hr Es) as Hmore. destruct (c =? 44).
  - eapply answers_mono; [apply IH|].
    + apply skip_bytes, Hmore.
    + done.
    + pose proof (skip_length more). destruct Hmore. lia.
    + pose proof (skip_length more). destruct Hmore. lia.
    + intros r [H1 H2]. split; [done|]. eapply consumed_trans; [exact Hmore|]. by apply consumed_skip.
  - destruct (c =? 93); [|by apply answers_fail]. apply answers_give. split; [by constructor|done].
Qed.

Lemma entry_set_keys key v (entries : list (JsonKey * JsonValue Float)) :
  map fst (entry_set key v entries) =
  if decide (KString key ∈ map fst entries) then map fst entries else map fst entries ++ [KString key].
Proof.
  induction entries as [|[k x] entries IH]; cbn [entry_set map fst].
  - by rewrite decide_False by apply not_elem_of_nil.
  - destruct (decide (k = KString key)) as [->|Hk]; cbn [map fst].
    + by rewrite decide_True by left.
    + rewrite IH. destruct (decide (KString key ∈ map fst entries)) as [H|H].
      * by rewrite decide_True by (by right).
      * rewrite decide_False; [done|]. intros [?|?]%elem_of_cons; [by subst|done].
Qed.

Lemma entry_set_parsed room key v entries :
  byte_text key -> parsed room v ->
  Forall (fun e => string_key (fst e)) entries /\ NoDup (map fst entries) /\ Forall (fun e => parsed room (snd e)) entries ->
  Forall (fun e => string_key (fst e)) (entry_set key v entries) /\ NoDup (map fst (entry_set key v entries)) /\
  Forall (fun e => parsed room (snd e)) (entry_set key v entries).
Proof.
  intros Hk Hv (H1 & H2 & H3). split_and!.
  - induction entries as [|[k x] entries IH]; simpl.
    + apply Forall_singleton. by exists key.
    + rewrite Forall_cons in H1, H3. cbn [map fst] in H2. apply NoDup_cons in H2 as [_ H2].
      destruct (decide (k = KString key)); apply Forall_cons; split; tauto.
  - rewrite entry_set_keys. destruct (decide _) as [|Hn]; [done|]. apply NoDup_app. split_and!; [done| |apply NoDup_singleton].
    intros x Hx ->%list_elem_of_singleton. done.
  - induction entries as [|[k x] entries IH]; simpl.
    + by apply Forall_singleton.
    + rewrite Forall_cons in H1, H3. cbn [map fst] in H2. apply NoDup_cons in H2 as [_ H2].
      destruct (decide (k = KString key)); apply Forall_cons; split; tauto.
Qed.

Lemma object_loop_answers n room parse_value fuel text entries :
  value_answers n room parse_value -> byte_text text ->
  Forall (fun e => string_key (fst e)) entries /\ NoDup (map fst entries) /\ Forall (fun e => parsed room (snd e)) entries ->
  (List.length text <= n)%nat -> (List.length text < fuel)%nat ->
  answers (json_object_loop parse_value fuel text entries) (fun r => parsed (Datatypes.S room) (fst r) /\ consumed text (snd r)).
Proof.
  intros Hv. revert text entries. induction fuel as [|fuel IH]; intros text entries Ht He Hn Hf; [lia|].
  cbn [json_object_loop]. destruct (after 34 _) as [t1|] eqn:E1; [|by apply answers_fail]. apply after_spec in E1.
  assert (H1 : consumed text t1).
  { split; [pose proof (skip_length text); rewrite E1 in *; cbn [List.length] in *; lia|].
    apply skip_bytes in Ht. rewrite E1 in Ht. by apply Forall_cons in Ht as [_ ?]. }
  eapply answers_bind; [apply string_answers, H1|]. intros [key t2] [Hk H2]. cbn [fst snd] in *.
  pose proof (consumed_trans _ _ _ H1 H2) as H12. apply answers_need.
  destruct (after 58 _) as [t3|] eqn:E3; [|by apply answers_fail]. apply after_spec in E3.
  pose proof (consumed_after_skip _ _ _ _ H12 E3) as H3.
  eapply answers_bind.
  { apply Hv; [apply skip_bytes, H3|]. pose proof (skip_length t3). destruct H3. lia. }
  intros [v t4] [Hp H4]. cbn [fst snd] in *. apply answers_need.
  pose proof (consumed_trans _ _ _ H3 (consumed_skip _ _ H4)) as H5.
  assert (He' := entry_set_parsed room key v _ Hk Hp (entry_set_parsed room key JNil _ Hk (parsed_nil _) He)).
  destruct (json_skip_whitespace t4) as [|c more] eqn:Es; [by apply answers_fail|].
  pose proof (consumed_after_skip _ _ _ _ H5 Es) as Hmore. destruct (c =? 44).
  - eapply answers_mono; [apply IH; [apply Hmore|done|destruct Hmore; lia|destruct Hmore; lia]|].
    intros r [Hr1 Hr2]. split; [done|]. by eapply consumed_trans.
  - destruct (c =? 125); [|by apply answers_fail]. apply answers_give. split; [|done]. cbn [fst]. constructor; tauto.
Qed.

Lemma literal_answers room literal text v :
  parsed room v -> byte_text text -> literal <> [] ->
  answers (json_parse_literal (S:=S) literal text v) (fun r => parsed room (fst r) /\ consumed text (snd r)).
Proof.
  intros Hv Hb Hl. unfold json_parse_literal. destruct (starts_with literal text) eqn:E; [|by apply answers_fail].
  assert (Ht : text = literal ++ drop (List.length literal) text).
  { clear -E. revert text E. induction literal as [|c literal IH]; intros [|d text]; simpl; try done.
    intros [->%Z.eqb_eq Hr]%andb_true_iff. f_equal. by apply IH. }
  apply answers_give. split; [done|]. cbn [snd]. rewrite Ht at 1. apply consumed_suffix; [done|]. by rewrite <- Ht.
Qed.

(** A container at the current depth. *)
Lemma container_answers depth text rest m :
  consumed text rest ->
  ((depth < DIAMOND_MAX_CALL_DEPTH)%nat -> answers m (fun r => parsed (DIAMOND_MAX_CALL_DEPTH - depth) (fst r) /\ consumed rest (snd r))) ->
  answers (S:=S) (if (DIAMOND_MAX_CALL_DEPTH <=? depth)%nat then fail STACK_OVERFLOW else m)
    (fun r => parsed (DIAMOND_MAX_CALL_DEPTH - depth) (fst r) /\ consumed text (snd r)).
Proof.
  intros Hc Hm. destruct (Nat.leb_spec DIAMOND_MAX_CALL_DEPTH depth); [by apply answers_fail|].
  eapply answers_mono; [by apply Hm|]. intros r [H1 H2]. split; [done|by eapply consumed_trans].
Qed.

Lemma parse_value_answers fuel depth :
  value_answers (Nat.pred fuel) (DIAMOND_MAX_CALL_DEPTH - depth) (json_parse_value fuel depth) \/ fuel = O.
Proof.
  revert depth. induction fuel as [|fuel IH]; intros depth; [by right|]. left. intros text Hb Hn. cbn [Nat.pred] in Hn.
  apply skip_bytes in Hb as Hb'. pose proof (skip_length text) as Hsl. cbn [json_parse_value].
  destruct (json_skip_whitespace text) as [|c rest] eqn:E; [by apply answers_fail|].
  assert (Hlift : forall m : J S (JsonValue Float * list Z),
    answers m (fun r => parsed (DIAMOND_MAX_CALL_DEPTH - depth) (fst r) /\ consumed (c :: rest) (snd r)) ->
    answers m (fun r => parsed (DIAMOND_MAX_CALL_DEPTH - depth) (fst r) /\ consumed text (snd r))).
  { intros m Hm. eapply answers_mono; [exact Hm|]. intros r [H1 H2]. split; [done|]. apply consumed_skip. by rewrite E. }
  apply Hlift. assert (Hrest : consumed (c :: rest) rest) by (apply (consumed_suffix [c]); done).
  cbn [List.length] in Hsl. clear E.
  destruct (c =? 123); [|destruct (c =? 91)].
  3:{ destruct (c =? 34).
      { eapply answers_bind; [apply string_answers, Hrest|]. intros [chars r] [H1 H2]. apply answers_give.
        split; [by constructor|by eapply consumed_trans]. }
      destruct (c =? 116); [apply literal_answers; [constructor|done|done]|].
      destruct (c =? 102); [apply literal_answers; [constructor|done|done]|].
      destruct (c =? 110); [apply literal_answers; [constructor|done|done]|].
      destruct (_ || _); [by apply number_answers|by apply answers_fail]. }
  all: eapply container_answers; [exact Hrest|]; intros Hd.
  all: destruct (IH (Datatypes.S depth)) as [Hv | ->]; [|lia].
  all: replace (DIAMOND_MAX_CALL_DEPTH - depth)%nat with (Datatypes.S (DIAMOND_MAX_CALL_DEPTH - Datatypes.S depth)) by lia.
  all: destruct Hrest as [Hrl Hrb]; pose proof (skip_length rest); pose proof (skip_bytes rest Hrb).
  - unfold json_parse_object_body. apply answers_need, answers_need. destruct (after 125 _) as [more|] eqn:Ea.
    + apply after_spec in Ea. apply answers_give. split; [repeat constructor|]. apply consumed_skip. rewrite Ea in *.
      by apply (consumed_suffix [125]).
    + eapply answers_mono; [apply (object_loop_answers (Nat.pred fuel) _ _ _ _ [] Hv)|]; [done|repeat constructor|lia|lia|].
      intros r [H1 H2]. split; [done|by apply consumed_skip].
  - unfold json_parse_array_body. apply answers_need, answers_need. destruct (after 93 _) as [more|] eqn:Ea.
    + apply after_spec in Ea. apply answers_give. split; [repeat constructor|]. apply consumed_skip. rewrite Ea in *.
      by apply (consumed_suffix [93]).
    + eapply answers_mono; [apply (array_loop_answers (Nat.pred fuel) _ _ _ _ [] Hv)|]; [done|constructor|lia|lia|].
      intros r [H1 H2]. split; [done|by apply consumed_skip].
Qed.

Lemma document_answers text :
  byte_text text -> answers (json_parse_document (S:=S) text) (parsed DIAMOND_MAX_CALL_DEPTH).
Proof.
  intros Hb. unfold json_parse_document. destruct (parse_value_answers (Datatypes.S (List.length text)) 0) as [Hv|]; [|done].
  eapply answers_bind; [apply Hv; [done|simpl; lia]|]. intros [v rest] [H1 H2]. cbn [fst snd] in *.
  rewrite Nat.sub_0_r in H1. destruct (json_skip_whitespace rest); [by apply answers_give|by apply answers_fail].
Qed.

End ParserAnswers.

(** ** Writing what was parsed *)

Section Rewrites.

Context {S Float : Type} `{!JsonHeap S} `{!Doubles Float} `{!DoubleLaws Float}.
Context (plenty : S -> Prop) `{!PlentyJson S plenty}.
Context (stringify_value : nat -> DiamondVmStatus + list Z) (w : JsonWriter).

(** [f] succeeds in a plentiful heap. *)
Definition goes (f : list Z -> J S (list Z)) : Prop := forall out, exists out', reads plenty (f out) out'.

Lemma goes_give : goes give.
Proof. intros out. exists out. apply reads_give. Qed.

Lemma goes_put t : goes (put t).
Proof using PlentyJson0. intros out. exists (out ++ t). apply reads_then_need; [done|]. apply reads_give. Qed.

Lemma goes_bind f g : goes f -> goes g -> goes (fun out => let^ out := f out in g out).
Proof.
  intros Hf Hg out. destruct (Hf out) as [o1 H1]. destruct (Hg o1) as [o2 H2]. exists o2. by eapply reads_bind.
Qed.

Lemma goes_after {A} (m : J S A) a k : reads plenty m a -> goes (k a) -> goes (fun out => let^ x := m in k x out).
Proof. intros Hm Hk out. destruct (Hk out) as [o Ho]. exists o. by eapply reads_bind. Qed.

Lemma goes_string chars : goes (json_write_string chars).
Proof using PlentyJson0.
  assert (Hflush : forall run, goes (flush run)) by (intros []; [apply goes_give|apply goes_put]).
  assert (Hchars : forall run, goes (write_chars chars run)).
  { induction chars as [|c chars IH]; intros run; cbn [write_chars]; [apply Hflush|]. destruct (_ && _ && _); [apply IH|].
    apply goes_bind; [apply Hflush|]. apply goes_bind; [apply goes_put|apply IH]. }
  apply goes_bind; [apply goes_put|]. apply goes_bind; [apply Hchars|apply goes_put].
Qed.

Lemma goes_break level : goes (json_write_break w level).
Proof using PlentyJson0.
  unfold json_write_break. destruct (indent w) as [|c l]; [apply goes_give|]. apply goes_bind; [apply goes_put|].
  induction level as [|n IH]; [apply goes_give|]. apply goes_bind; [apply goes_put|exact IH].
Qed.

Lemma goes_bracketed nesting open close fs : Forall goes fs -> goes (write_bracketed w nesting open close fs).
Proof using PlentyJson0.
  intros Hf. apply goes_bind; [apply goes_put|].
  assert (He : forall first, goes (write_elements w (Datatypes.S nesting) first fs)).
  { induction Hf as [|f fs Hf _ IH]; intros first; [apply goes_give|]. cbn [write_elements].
    destruct first; (apply goes_bind; [first [apply goes_give | apply goes_put]|]);
      (apply goes_bind; [apply goes_break|]); (apply goes_bind; [exact Hf|apply IH]). }
  apply goes_bind; [apply He|].
  destruct Hf; (apply goes_bind; [first [apply goes_give | apply goes_break]|apply goes_put]).
Qed.

Fixpoint all_finite (v : JsonValue Float) : bool :=
  match v with
  | JFloat f => isfinite f
  | JArray values => forallb all_finite values
  | JHash entries => forallb (fun e => all_finite (snd e)) entries
  | _ => true
  end.

Lemma key_text_string key : string_key key -> exists t, key_text stringify_value key = inr t.
Proof. intros (chars & -> & _). by exists chars. Qed.

Lemma goes_order keys :
  Forall string_key keys -> exists order, reads plenty (json_sorted_order (S:=S) stringify_value keys) order.
Proof using PlentyJson0.
  intros Hk. assert (Ht : exists texts, reads plenty (key_texts (S:=S) stringify_value keys) texts).
  { induction Hk as [|k keys Hk _ [texts IH]]; [exists []; apply reads_give|]. destruct (key_text_string k Hk) as [t E].
    exists (t :: texts). cbn [key_texts]. rewrite E. eapply reads_bind; [apply (reads_give plenty t)|].
    eapply reads_bind; [by apply reads_need_bytes|]. eapply reads_bind; [exact IH|]. apply reads_give. }
  destruct Ht as [texts Ht]. exists (json_order true texts). unfold json_sorted_order.
  apply (reads_vm _ _ _ true); [|apply (reads_vm _ _ _ true)].
  1,2: intros s Hs; unfold vm_malloc; match goal with |- context [malloc ?n s] => pose proof (plenty_malloc n s Hs) as [E Hp];
    destruct (malloc n s) as [ok s'] end; simpl in *; subst ok; by exists s'.
  cbn [negb orb]. eapply reads_bind; [exact Ht|apply reads_give].
Qed.

Lemma permute_Forall {A} (P : A -> Prop) order l : Forall P l -> Forall P (permute order l).
Proof.
  intros Hl. unfold permute. induction order as [|i order IH]; [constructor|]. cbn [omap list_omap].
  destruct (l !! i) as [x|] eqn:E; [|exact IH]. constructor; [exact (Forall_lookup_1 _ _ _ _ Hl E)|exact IH].
Qed.

(** Every parsed value with finite Floats can be written. *)
Lemma parsed_goes v room nesting :
  parsed room v -> all_finite v = true -> (nesting + room <= DIAMOND_MAX_CALL_DEPTH)%nat ->
  goes (json_write_value stringify_value w nesting v).
Proof using DoubleLaws0 PlentyJson0.
  revert v room nesting. apply (json_ind (fun v => forall room nesting, parsed room v -> all_finite v = true ->
    (nesting + room <= DIAMOND_MAX_CALL_DEPTH)%nat -> goes (json_write_value stringify_value w nesting v))).
  { intros v. destruct v; try exact I; intros room nesting Hp Hf Hn; inversion Hp; subst; cbn [json_write_value].
    - apply goes_put.
    - apply goes_put.
    - destruct (format_int_spec integer) as (digits & -> & _); [unfold_widths; unfold two_63; lia|]. apply goes_put.
    - unfold write_float. cbn in Hf. rewrite Hf. destruct (format_float_spec real Hf) as (? & ? & ? & ? & ? & -> & _).
      apply goes_bind; [apply goes_put|]. destruct (has_marker _); [apply goes_give|apply goes_put].
    - match goal with H : canonical_int _ |- _ => pose proof H as [Hcan Hrange] end.
      assert (Hne : Value.limbs bignum <> []).
      { intros E. rewrite E in Hrange. apply Hrange. destruct (Value.negative bignum); simpl; base_lia. }
      destruct (diamond_bignum_to_string_spec bignum Hcan Hne) as (digits & E & _). unfold write_bignum. rewrite E.
      apply (goes_after _ tt); [by apply reads_need_bytes|apply goes_put].
    - apply goes_string. }
  - intros values IH room nesting Hp Hf Hn. inversion Hp as [| | | | | |room' ? Hall|]; subst. cbn [json_write_value].
    rewrite (proj2 (Nat.leb_gt _ _)) by lia. apply goes_bracketed, Forall_fmap. cbn [all_finite] in Hf.
    rewrite forallb_forall in Hf. apply Forall_forall. intros v Hv. rewrite Forall_forall in IH, Hall.
    eapply IH; [done|by apply Hall|by apply Hf, list_elem_of_In|lia].
  - intros entries IH room nesting Hp Hf Hn. inversion Hp as [| | | | | | |room' ? Hk Hd Hall]; subst. cbn [json_write_value].
    rewrite (proj2 (Nat.leb_gt _ _)) by lia. cbn [all_finite] in Hf. rewrite forallb_forall in Hf.
    assert (Hfs : Forall goes (map (fun e => write_entry stringify_value w (fst e)
      (json_write_value stringify_value w (Datatypes.S nesting) (snd e))) entries)).
    { apply Forall_fmap, Forall_forall. intros e He. rewrite Forall_forall in IH, Hall, Hk.
      destruct (key_text_string (fst e) (Hk e He)) as [t Et]. unfold compose, write_entry.
      apply goes_bind; [|apply goes_bind; [apply goes_put|]].
      - unfold json_write_hash_key. rewrite Et. apply (goes_after _ t); [apply (reads_give plenty t)|apply goes_string].
      - eapply IH; [done|by apply Hall|by apply Hf, list_elem_of_In|lia]. }
    destruct (sort_keys w && _).
    + destruct (goes_order (map fst entries)) as [order Ho]; [by apply Forall_fmap|].
      apply (goes_after _ order); [exact Ho|]. by apply goes_bracketed, permute_Forall.
    + apply (goes_after _ (seq 0 (List.length entries))); [apply reads_give|]. by apply goes_bracketed, permute_Forall.
Qed.

End Rewrites.

(** ** The order of keys *)

Lemma chars_compare_opp a b : chars_compare b a = CompOpp (chars_compare a b).
Proof.
  revert b. induction a as [|x a IH]; intros [|y b]; try done. simpl. rewrite (Z.compare_antisym x y).
  destruct (x ?= y); simpl; [apply IH|done|done].
Qed.

(** The second key does not come before the first. *)
Definition key_le (a b : JsonKeySort) : Prop := json_key_before b a = false.

Lemma key_before_le a b : json_key_before a b = true -> key_le a b.
Proof.
  unfold key_le, json_key_before. rewrite (chars_compare_opp (ks_chars a) (ks_chars b)).
  destruct (chars_compare (ks_chars a) (ks_chars b)); simpl; try done. rewrite Nat.ltb_lt, Nat.ltb_ge. lia.
Qed.

Lemma insert_key_sorted k keys : Sorted key_le keys -> Sorted key_le (insert_key k keys).
Proof.
  induction keys as [|k' keys IH]; intros Hs; simpl; [by repeat constructor|].
  apply Sorted_inv in Hs as [Hs Hh]. destruct (json_key_before k k') eqn:E.
  - constructor; [by constructor|]. constructor. by apply key_before_le.
  - constructor; [by apply IH|]. destruct keys as [|k2 keys]; simpl; [by constructor|].
    destruct (json_key_before k k2); constructor; [done|by inversion Hh].
Qed.

Lemma sort_entries_sorted keys : Sorted key_le (sort_entries keys).
Proof. induction keys as [|k keys IH]; simpl; [constructor|by apply insert_key_sorted]. Qed.





(** ** Values without Symbols read back unchanged *)

Section Identity.

Context {Float : Type} (stringify_value : nat -> DiamondVmStatus + list Z).

Lemma permute_seq {A} (l : list A) : permute (seq 0 (List.length l)) l = l.
Proof.
  assert (H : forall pre, permute (seq (List.length pre) (List.length l)) (pre ++ l) = l); [|exact (H [])].
  induction l as [|x l IH]; intros pre; [done|]. unfold permute in *. cbn [List.length seq omap list_omap].
  rewrite lookup_app_r, Nat.sub_diag by lia. cbn [lookup list_lookup]. f_equal.
  specialize (IH (pre ++ [x])). rewrite <- app_assoc, length_app in IH. cbn [List.length app] in IH.
  by rewrite Nat.add_1_r in IH.
Qed.

Lemma entry_set_new key v (entries : list (JsonKey * JsonValue Float)) :
  KString key ∉ map fst entries -> entry_set key v entries = entries ++ [(KString key, v)].
Proof.
  induction entries as [|[k x] entries IH]; intros Hn; [done|]. cbn [entry_set map fst app] in *.
  apply not_elem_of_cons in Hn as [H1 H2]. rewrite decide_False by done. by rewrite IH.
Qed.

Lemma set_all_distinct (pairs : list (list Z * JsonValue Float)) acc :
  NoDup (map fst acc ++ map (fun p => KString (fst p)) pairs) ->
  fold_left (fun es p => entry_set (fst p) (snd p) es) pairs acc = acc ++ map (fun p => (KString (fst p), snd p)) pairs.
Proof.
  revert acc. induction pairs as [|[k v] pairs IH]; intros acc Hd; cbn [fold_left map fst snd] in *; [by rewrite app_nil_r|].
  rewrite entry_set_new.
  - rewrite IH; [by rewrite <- app_assoc|]. rewrite map_app, <- app_assoc. done.
  - apply NoDup_app in Hd as (_ & Hd & _). intros Hin. apply (Hd _ Hin). left.
Qed.

Lemma normal_parsed v room : parsed room v -> normal (Float:=Float) stringify_value false v = v.
Proof.
  revert v room. apply (json_ind (fun v => forall room, parsed room v -> normal stringify_value false v = v)).
  { by intros []. }
  - intros values IH room Hp. inversion Hp as [| | | | | |room' ? Hall|]; subst. cbn [normal]. f_equal.
    clear Hp. induction values as [|v values IHv]; [done|]. rewrite Forall_cons in IH, Hall. cbn [map].
    destruct IH as [IH1 IH2], Hall as [Ha1 Ha2]. rewrite (IH1 _ Ha1). by rewrite IHv.
  - intros entries IH room Hp. inversion Hp as [| | | | | | |room' ? Hk Hd Hall]; subst. cbn [normal]. clear Hp. f_equal.
    set (pairs := map _ entries). unfold json_order. cbn [andb].
    rewrite length_map, permute_seq. unfold set_all.
    assert (E : map (fun p => (KString (fst p), snd p)) pairs = entries).
    { unfold pairs. clear pairs Hd. induction entries as [|[k v] entries IHe]; [done|]. rewrite Forall_cons in IH, Hall, Hk.
      destruct IH as [IH1 IH2], Hall as [Ha1 Ha2], Hk as [(chars & Ek & _) Hk2]. cbn [map fst snd] in *. subst k.
      rewrite (IH1 _ Ha1). by rewrite IHe. }
    rewrite set_all_distinct; [exact E|]. cbn [map app].
    assert (E2 : map (fun p => KString (fst p)) pairs = map fst entries) by (rewrite <- E, map_map; done).
    by rewrite E2.
Qed.

End Identity.

Lemma parsed_ok {Float} stringify_value room (v : JsonValue Float) : parsed room v -> json_ok stringify_value v.
Proof.
  revert v room. apply (json_ind (fun v => forall room, parsed room v -> json_ok stringify_value v)).
  { intros []; try exact I; intros room Hp; inversion Hp; subst; by constructor. }
  - intros values IH room Hp. inversion Hp as [| | | | | |room' ? Hall|]; subst. constructor.
    eapply Forall_impl; [exact (proj2 (Forall_and _ _) (conj IH Hall))|]. intros v [H1 H2]. eauto.
  - intros entries IH room Hp. inversion Hp as [| | | | | | |room' ? Hk Hd Hall]; subst. constructor.
    + eapply Forall_impl; [exact Hk|]. intros [k v] (chars & Ek & Hb). simpl in *. by subst k.
    + eapply Forall_impl; [exact (proj2 (Forall_and _ _) (conj IH Hall))|]. intros e [H1 H2]. eauto.
Qed.

(** ** Documents *)



Section Documents.

Context {S Float : Type} `{!JsonHeap S} `{!Doubles Float} `{!DoubleLaws Float}.
Context (plenty : S -> Prop) `{!PlentyJson S plenty}.
Context (stringify_value : nat -> DiamondVmStatus + list Z).

Lemma document_reads w value out s s' :
  json_ok stringify_value value -> blank (indent w) ->
  json_write_value stringify_value w 0 value [] s = Some (inr out, s') ->
  reads plenty (json_parse_document out) (normal stringify_value (sort_keys w) value).
Proof using DoubleLaws0 PlentyJson0.
  intros Hok Hw Hrun. destruct (value_returns plenty stringify_value w Hw value 0 Hok) as (P & Ha & Hr).
  destruct (Ha _ _ _ _ Hrun) as (t & -> & Ht). cbn [app]. unfold json_parse_document.
  pose proof (Hr t [] (Datatypes.S (List.length t)) Ht) as [_ Hread]; [done|rewrite app_nil_r; lia|].
  rewrite app_nil_r in Hread. eapply reads_bind; [exact Hread|]. apply reads_give.
Qed.

Lemma stringify_runs value room :
  parsed room value -> (room <= DIAMOND_MAX_CALL_DEPTH)%nat -> all_finite value = true ->
  exists text, reads plenty (json_stringify_document stringify_value value JNil) text /\
    reads plenty (json_parse_document text) value.
Proof using DoubleLaws0 PlentyJson0.
  intros Hp Hroom Hf. set (w := {| indent := []; sort_keys := false |}).
  destruct (parsed_goes plenty stringify_value w value room 0 Hp Hf ltac:(lia) []) as [out Ho].
  exists out. split.
  - unfold json_stringify_document. eapply reads_bind; [apply (reads_give plenty w)|].
    eapply reads_bind; [exact Ho|]. apply reads_then_need; [done|]. apply reads_give.
  - intros s1 Hs1. destruct (Ho s1 Hs1) as (s2 & E & _).
    pose proof (document_reads w value out s1 s2 (parsed_ok _ _ _ Hp) ltac:(constructor) E s1 Hs1) as Hr.
    by rewrite (normal_parsed _ _ _ Hp) in Hr.
Qed.

End Documents.


(** C40: The JSON parser is total and idempotent.  On every text and every heap
    [json_parse_document] returns: a JSON, memory or nesting error, or a value
    whose Ints are canonical, whose Hashes have distinct String keys, and whose
    containers nest at most [DIAMOND_MAX_CALL_DEPTH] deep.  When the Floats of
    such a value are finite, [json_stringify_document] with enough memory
    writes it, and parsing that text gives the same value. *)
Theorem json_parse_total {S Float} `{!JsonHeap S} `{!Doubles Float} `{!DoubleLaws Float} text s :
  byte_text text ->
  exists r s', json_parse_document text s = Some (r, s') /\
    match r with
    | inl status => status <> TYPE_ERROR
    | inr value =>
        parsed (Float:=Float) DIAMOND_MAX_CALL_DEPTH value /\
        (all_finite value = true -> forall plenty, PlentyJson S plenty -> forall stringify_value s1, plenty s1 ->
         exists text' s2, json_stringify_document stringify_value value JNil s1 = Some (inr text', s2) /\
           exists s3, json_parse_document text' s2 = Some (inr value, s3))
    end.
Proof.
  intros Hb. destruct (document_answers (S:=S) (Float:=Float) text Hb s) as (r & s' & E & Hr). exists r, s'. split; [done|].
  destruct r as [status|value]; [done|]. split; [done|]. intros Hf plenty Hp stringify_value s1 Hs1.
  destruct (stringify_runs plenty stringify_value value _ Hr ltac:(lia) Hf) as (text' & H1 & H2).
  destruct (H1 s1 Hs1) as (s2 & E2 & Hs2). destruct (H2 s2 Hs2) as (s3 & E3 & _). eauto 10.
Qed.

(** ** A document *)

#[local] Instance scripted_json : JsonHeap ScriptedHeap := { granted := fun _ => next_outcome }.

#[local] Instance scripted_plenty_json : PlentyJson ScriptedHeap (fun s => outcomes s = []).
Proof. split; [exact scripted_plenty|]. intros r s Hs. simpl. unfold next_outcome. by rewrite Hs. Qed.

(** Two doubles, 0 and 1. *)
#[local] Instance bits : Doubles bool := {|
  isfinite := fun _ => true;
  strtod := fun text => match after 49 text with Some _ => true | None => false end;
  printf_g := fun _ b => if b then [49] else [48];
  exponent_of := fun _ => 0;
|}.

#[local] Instance bits_laws : DoubleLaws bool.
Proof.
  split.
  - intros p f _ _. exists false, (if f then [49] else [48]), [], []. split_and!.
    + by destruct f.
    + destruct f; repeat constructor; lia.
    + by destruct f.
    + by left.
    + by left.
  - intros p [] _ _; simpl; lia.
  - by intros [].
  - intros negative digits Hd Hn. destruct negative; [done|]. destruct digits as [|d digits]; [done|].
    cbn [sign_text app strtod bits after]. by destruct (d =? 49).
Qed.



Definition no_keys (_ : nat) : DiamondVmStatus + list Z := inl TYPE_ERROR.


Definition empty_heap : ScriptedHeap :=
  {| outcomes := []; young_objects := []; Value.bytes_allocated := 0 |}.





(** [[1, 0.5, {}]] *)
Lemma json_parse_total_witness :
  exists s', json_parse_document (bytes "[1, 0.5, {}]") empty_heap =
    Some (inr (JArray [JInt 1; JFloat false; JHash []]), s') /\
  exists text' s2,
    json_stringify_document no_keys (JArray [JInt 1; JFloat false; JHash []]) JNil empty_heap =
      Some (inr text', s2) /\
    exists s3, json_parse_document text' s2 =
      Some (inr (JArray [JInt 1; JFloat false; JHash []]), s3).
Proof.
  destruct (json_parse_total (S:=ScriptedHeap) (Float:=bool) (bytes "[1, 0.5, {}]") empty_heap)
    as (r & s' & E & Hr); [repeat constructor; simpl; lia|].
  exists s'. vm_compute in E. injection E as <- <-. split; [vm_compute; reflexivity|].
  destruct Hr as [_ Hr].
  exact (Hr eq_refl (fun s => outcomes s = []) scripted_plenty_json no_keys empty_heap eq_refl).
Defined.
